(* ===== verification/_CoqProject ===== *)
-Q . S2P
Prelude.v
KvTypes.v
KeyIndex.v
SlabTypes.v
SlabLattice.v
SlabRing.v
SlabFree.v
SlabOps.v
SlabInv.v
SlabStruct.v
SlabInstall.v
SlabWf.v
SlabEvict.v
SlabSteal.v
SlabPut.v
SlabAccess.v
SlabReclaim.v
SlabFrame.v
SlabRetain.v
SlabRestore.v
SlabMachine.v
SlabLayout.v
SlabProps.v
SlabHandles.v
SlotPool.v
RamTypes.v
RamOps.v
RamGeom.v
RamInv.v
RamFrame.v
RamShard.v
RamCall.v
RamLocal.v
RamEvict.v
RamAdmit.v
RamMem.v
RamEntry.v
RamPin.v
RamRead.v
RamSettle.v
RamRemove.v
RamReclaim.v
RamTick.v
RamGive.v
RamStart.v
RamCopy.v
RamPublish.v
RamSink.v
RamFlush.v
RamStep.v
RamInit.v
RamTrace.v
RamFate.v
RamProps.v
Coalescer.v
CoalesceInv.v
CoalesceProps.v
Codec.v
Wire.v
DevFrame.v
RdmaProtocol.v
RecvSegment.v
RecvPool.v
Sha256.v
Namespace.v
KeyMap.v
KeyName.v
Base64.v
Membership.v
MemberEpoch.v
Md5.v
ConHash.v
RdmaBudget.v
ConnState.v
Schedule.v
