(* ===== verification/Prelude.v ===== *)
(** * DingoCache (dfkv): verification library

    dfkv is a distributed cache for LLM key-value blocks.  A client turns a
    namespace and an object key into a block key, routes it over a
    consistent-hash ring of cache nodes and talks to the owner over TCP or RDMA;
    a node keeps the values on disk slabs and in a RAM tier that share one slot
    allocator; membership is discovered through a directory service on etcd.
    Source paths below are relative to the repository (src/cache/... is the
    directory of the cache node).

    ** Files and components

    - [Prelude]: fixed-width integers, vectors indexed by [nat], list and option
      lemmas, tactics and hint databases.  [KvTypes]: [BlockKey], [Status].
    - Slot allocator, src/cache/slab_allocator.{h,cc}.  [KeyIndex]: the
      open-addressing [FlatKeyIndex] and the class [KeyIndexLaws] through which
      the allocator uses it.  [SlabTypes]: the structs as records.
      [SlabLattice]: size classes.  [SlabRing], [SlabFree]: the three intrusive
      rings and the per-class free lists.  [SlabOps]: every operation, in the
      order of the source.  [SlabInv]: the representation invariant.
      [SlabStruct], [SlabInstall], [SlabWf]: its preservation.  [SlabEvict],
      [SlabSteal], [SlabPut], [SlabAccess], [SlabReclaim], [SlabFrame],
      [SlabRetain], [SlabRestore]: the behaviour of the operations.
      [SlabMachine]: the operations as one machine.  [SlabLayout],
      [SlabProps]: what the allocator guarantees.  [SlabHandles]: slot handles.
    - RAM tier, src/cache/ram_tier.{h,cc}.  [SlotPool]: the class [SlotPoolLaws]
      through which the tier uses the allocator, and the proof that the allocator
      honours it.  [RamTypes]: the structs, the program points of the calls.
      [RamOps]: the critical sections and the steps between them.  [RamGeom]: the
      constructor.  [RamInv]: the invariant, as ownership of slots, buffers,
      completions, index nodes, mutexes and flushes.  [RamFrame], [RamShard],
      [RamCall], [RamLocal], [RamEntry], [RamPin], [RamMem]: its frame rules.
      [RamEvict], [RamAdmit], [RamRead], [RamSettle], [RamRemove], [RamReclaim],
      [RamTick], [RamGive], [RamStart], [RamCopy], [RamPublish], [RamSink],
      [RamFlush]: each kind of step keeps it; [RamStep] puts them together and
      [RamInit] starts them.  [RamTrace], [RamFate]: what a step leaves of the
      past.  [RamProps]: what the tier guarantees.
    - Read coalescer, src/cache/read_coalescer.h.  [Coalescer]: flights, the
      critical sections and the program points of the calls.  [CoalesceInv]: the
      invariant.  [CoalesceProps]: what it promises.
    - Codecs.  [Codec]: host integers in byte buffers, src/utils/net_util.h.
      [Wire]: src/transport/wire.h and wire_legacy.h.  [DevFrame]:
      src/transport/dev_frame.h.  [RdmaProtocol]: src/transport/rdma_protocol.h.
      [Base64]: src/utils/base64.h.
    - Receive memory of the RDMA server, src/transport/rdma_recv_segment.{h,cc}.
      [RecvSegment]: one segment.  [RecvPool]: the pool of segments.
    - Identities.  [Sha256]: src/utils/sha256.h.  [Namespace]:
      src/common/namespace.{h,cc}.  [KeyMap]: src/client/key_map.h.  [KeyName]:
      the file names of src/common/kv_types.h.
    - Membership and routing.  [Membership], [MemberEpoch]:
      src/common/membership.h.  [Md5]: src/utils/md5.h.  [ConHash]:
      src/utils/con_hash.{h,cc}.
    - RDMA client.  [RdmaBudget]: src/transport/rdma_resource_budget.h.
      [ConnState]: src/transport/rdma_connection_lifecycle.h and
      rdma_operation.h.  [Schedule]: src/transport/endpoint_schedule.h and
      src/client/group_shard.h.

    ** Modelling conventions

    A byte or an unsigned integer is a [Z] with its wrap-around written out
    ([u8], [u32], [u64]); vector indices are [nat]; strings are lists of bytes;
    a [std::map] is the list of its entries in key order.  A read or write
    outside a buffer is [None].  An out-parameter that the source leaves alone on
    failure is passed in and returned.  The mutex-protected classes are functions
    on their state, one per critical section; the lock-free ones are step
    functions with one action per atomic access, for sequentially consistent
    interleavings.  What a component gets from outside is an argument: the
    allocator's callbacks into the medium, the blocks of [posix_memalign], the
    readings of clocks, the byte order of the host, the choice of when a blocked
    thread wakes up, the answers of the flush sink, the iteration order of a hash
    map, the environment variables, whether memory is to be had.  The RAM tier is a
    system of calls: a step runs one critical section of a shard's mutex, or takes
    a part of the shared budget (the mutex stays held over it when the code holds
    it), or gives budget back (with its subtractions in one step), or is a copy, or
    a call of the sink; steps of different calls interleave freely.  The read
    coalescer is such a system as well.  Their histories (publications, calls of
    the sink and of [is_persisted], fenced completions, reads) record what happened
    and are read by no step.

    Pin counts are 32-bit words and wrap.  The code does not guard them, so the
    theorems about runs ask that no count is at its maximum when it is
    incremented: [pins_fit] for the allocator, which holds of every run with fewer
    than 2^32 pins ([few_pins_fit]), and [tier_step] for the RAM tier, in which
    nobody reads a value that has 2^32 - 2 hits outstanding.  A pool kind is any
    16-bit number, of which nine have names.

    ** What the theorems show

    - Allocator ([SlabProps], [SlabLattice], [KeyIndex]): every run of operations
      ends and keeps the representation invariant; [Put] on all its branches;
      pinned and protected residents survive; nothing is evicted from a
      persistent medium without its acknowledgement; residents never overlap;
      retention is released; bulk restore is all or nothing and restores what was
      there, whatever the retention before and after; handles cannot act on a reused record; the index
      refines a finite map; the size class is the best fit.
    - RAM tier ([RamProps]): in every reachable state a hit reads the bytes that
      were published until it is released; a disk acknowledgement means that the
      sink took the caller's bytes, or those of the value the call joined, or that
      the key was on the disk already; an unflushed value leaves only by removal or a
      final refusal of the sink, and is always scheduled exactly once; memory has
      one owner; the counters are exact, bounded and never wrap; a removed value
      cannot come back; reads answer what is visible; mutexes are given back; when
      the constructor succeeds and how it partitions its memory.
    - Read coalescer ([CoalesceProps]): a shared answer is a successful read of the
      same range; a range has one read in flight and its entry goes with it; no
      call hangs; when a value read again counts as recurrent.
    - Receive memory ([RecvSegment], [RecvPool]): leases are disjoint, also in memory, and
      inside live chunks, first fit is complete, releases coalesce, the pool stays
      within its budget, and what trimming releases.
    - RDMA client ([RdmaBudget], [ConnState], [Schedule]): resources are
      conserved, partial refunds included, connections drain once and operations complete once under every
      interleaving, sharding partitions a batch, the connection chosen is the
      least loaded.
    - Codecs ([Wire], [DevFrame], [RdmaProtocol], [Membership], [Base64],
      [KeyName]): decoders stay inside their buffers and invert the encoders;
      which frames they refuse.
    - Identities and routing ([Namespace], [KeyMap], [Sha256], [MemberEpoch],
      [ConHash]): identities are injective up to SHA-256, the namespace parser
      accepts exactly the serialized descriptors of named kinds, SHA-256 is the standard's,
      epochs do not depend on order or metadata, adding a node moves keys only to
      it, and every lookup answers.

    ** Fuel

    Loops that are not structural run on fuel.  The fuel of the allocator's loops
    ([drain_extent], [stripe_bind], [put_place]) is the size of the state or a
    constant, and C1 and C2 show that it is never exhausted; the loops of [Md5],
    [Sha256], [ConHash], [Membership] and [Schedule] carry the length of their
    input, and the theorems about them are about the results, so a loop that ran
    dry would falsify them.

    ** Not modelled

    - Input and output: sockets, HTTP, etcd, files, io_uring, verbs, CUDA.  The
      stores (src/cache/disk_slab_store.cc, kv_store.cc), the
      servers (src/cache/kv_node_server.cc, rdma_server.cc, src/mds) and the
      transports (src/transport/rdma_transport.cc, rdma_verbs.cc,
      tcp_transport.cc) are mostly such code around the components above.
    - The client's fan-out (src/client/kv_client.cc) and the rail scoring of
      src/transport/rail_select.h are not covered yet.
    - Tools, metrics, logging and argument parsing.
    - Weak memory effects between different atomics, the cost of operations, and
      the strings printed for statuses and port states. *)

From stdpp Require Export base tactics list list_numbers gmap fin_maps sorting.
From Stdlib Require Export ZArith Lia.

#[global] Open Scope Z_scope.

(** ** Machine integers

    A w-bit unsigned integer is a [Z]; the wrap-around is written out where
    the code can reach it. *)

Definition u8 (z : Z) : Z := z mod 2 ^ 8.
Definition u32 (z : Z) : Z := z mod 2 ^ 32.
Definition u64 (z : Z) : Z := z mod 2 ^ 64.

Definition UINT32_MAX : Z := 2 ^ 32 - 1.
Definition UINT64_MAX : Z := 2 ^ 64 - 1.

Definition is_u8 (z : Z) : Prop := 0 <= z < 2 ^ 8.
Definition is_u32 (z : Z) : Prop := 0 <= z < 2 ^ 32.
Definition is_u64 (z : Z) : Prop := 0 <= z < 2 ^ 64.

Create HintDb dfkv.

Lemma u8_id z : is_u8 z → u8 z = z.
Proof. apply Z.mod_small. Qed.
Lemma u32_id z : is_u32 z → u32 z = z.
Proof. apply Z.mod_small. Qed.
Lemma u64_id z : is_u64 z → u64 z = z.
Proof. apply Z.mod_small. Qed.
Lemma u64_range z : is_u64 (u64 z).
Proof. apply Z.mod_pos_bound. lia. Qed.
Lemma u32_range z : is_u32 (u32 z).
Proof. apply Z.mod_pos_bound. lia. Qed.

#[export] Hint Resolve u64_range u32_range : dfkv.

(** ** Tactics *)

(** Case analysis on the innermost [if]/[match] scrutinee of the goal or of a
    hypothesis, with its equation. *)
Ltac case_eqn :=
  match goal with
  | |- context [match ?x with _ => _ end] =>
      lazymatch x with context [match _ with _ => _ end] => fail | _ => idtac end;
      let E := fresh "E" in destruct x eqn:E
  | H : context [match ?x with _ => _ end] |- _ =>
      lazymatch x with context [match _ with _ => _ end] => fail | _ => idtac end;
      let E := fresh "E" in destruct x eqn:E
  end.

(** Boolean comparisons to propositions. *)
Ltac breflect :=
  repeat match goal with
  | H : (_ =? _) = true |- _ => apply Z.eqb_eq in H
  | H : (_ =? _) = false |- _ => apply Z.eqb_neq in H
  | H : (_ <? _) = true |- _ => apply Z.ltb_lt in H
  | H : (_ <? _) = false |- _ => apply Z.ltb_ge in H
  | H : (_ <=? _) = true |- _ => apply Z.leb_le in H
  | H : (_ <=? _) = false |- _ => apply Z.leb_gt in H
  | H : (_ >? _) = true |- _ => rewrite Z.gtb_ltb in H; apply Z.ltb_lt in H
  | H : (_ >? _) = false |- _ => rewrite Z.gtb_ltb in H; apply Z.ltb_ge in H
  | H : (_ >=? _) = true |- _ => rewrite Z.geb_leb in H; apply Z.leb_le in H
  | H : (_ >=? _) = false |- _ => rewrite Z.geb_leb in H; apply Z.leb_gt in H
  | H : (_ && _) = true |- _ => apply andb_true_iff in H as [? ?]
  | H : (_ && _) = false |- _ => apply andb_false_iff in H
  | H : (_ || _) = false |- _ => apply orb_false_iff in H as [? ?]
  | H : (_ || _) = true |- _ => apply orb_true_iff in H
  | H : negb _ = true |- _ => apply negb_true_iff in H
  | H : negb _ = false |- _ => apply negb_false_iff in H
  | H : bool_decide _ = true |- _ => apply bool_decide_eq_true in H
  | H : bool_decide _ = false |- _ => apply bool_decide_eq_false in H
  end.

(** ** Sums over lists *)

Definition sumZ {A} (f : A → Z) (l : list A) : Z :=
  foldr (λ x acc, f x + acc) 0 l.

Section sums.
Context {A : Type}.
Implicit Types (l : list A) (f g : A → Z).

Lemma sumZ_app f l1 l2 : sumZ f (l1 ++ l2) = sumZ f l1 + sumZ f l2.
Proof. induction l1 as [|x l1 IH]; simpl; [done|]. rewrite IH. lia. Qed.

Lemma sumZ_ext_in f g l : (∀ x, x ∈ l → f x = g x) → sumZ f l = sumZ g l.
Proof.
  intros H. induction l as [|x l IH]; [done|]. simpl.
  rewrite H, IH; [done| |by left]. intros y Hy. apply H. by right.
Qed.

Lemma sumZ_nonneg f l : (∀ x, x ∈ l → 0 <= f x) → 0 <= sumZ f l.
Proof.
  intros H. induction l as [|x l IH]; [done|]. simpl.
  assert (0 <= f x) by (apply H; by left).
  assert (0 <= sumZ f l); [|lia]. apply IH. intros y Hy. apply H. by right.
Qed.

Lemma sumZ_le f g l : (∀ x, x ∈ l → f x <= g x) → sumZ f l <= sumZ g l.
Proof.
  intros H. induction l as [|x l IH]; [done|]. simpl.
  assert (f x <= g x) by (apply H; by left).
  assert (sumZ f l <= sumZ g l); [|lia]. apply IH. intros y Hy. apply H. by right.
Qed.

Lemma sumZ_const c l : sumZ (λ _, c) l = c * Z.of_nat (length l).
Proof. induction l as [|x l IH]; simpl; [lia|]. rewrite IH. lia. Qed.

(** Replacing one position of a vector changes the sum by the difference. *)
Lemma sumZ_insert f l (i : nat) x y :
  l !! i = Some x → sumZ f (<[i:=y]> l) = sumZ f l - f x + f y.
Proof.
  revert i. induction l as [|z l IH]; intros [|i] Hi; simplify_eq/=; [lia|].
  rewrite (IH i Hi). lia.
Qed.

#[export] Instance sumZ_Permutation f : Proper ((≡ₚ) ==> (=)) (sumZ f).
Proof.
  intros l1 l2 Hp. induction Hp; simpl; try lia.
Qed.

(** Removing one element of a list. *)
Lemma sumZ_middle f l1 x l2 :
  sumZ f (l1 ++ x :: l2) = sumZ f (l1 ++ l2) + f x.
Proof. rewrite !sumZ_app. simpl. lia. Qed.

End sums.

(** ** Lists as C++ vectors *)

(** [v\[i\] = v.back(); v.pop_back();] *)
Definition swap_pop {A} (i : nat) (l : list A) : list A :=
  match last l with
  | None => l
  | Some x => take (length l - 1) (<[i:=x]> l)
  end.

(** [v.back()] removed. *)
Definition pop_back {A} (l : list A) : list A := take (length l - 1) l.

Section vectors.
Context {A : Type}.
Implicit Types (l : list A).

Lemma pop_back_snoc l x : pop_back (l ++ [x]) = l.
Proof.
  unfold pop_back. rewrite length_app. simpl.
  replace (length l + 1 - 1)%nat with (length l) by lia. apply take_app_length.
Qed.

Lemma last_pop_back l x : last l = Some x → l = pop_back l ++ [x].
Proof.
  intros H. apply last_Some in H as [l' ->]. by rewrite pop_back_snoc.
Qed.

Lemma length_pop_back l : length (pop_back l) = (length l - 1)%nat.
Proof. unfold pop_back. rewrite length_take. lia. Qed.

Lemma swap_pop_perm l i x : l !! i = Some x → x :: swap_pop i l ≡ₚ l.
Proof.
  intros Hi. unfold swap_pop.
  destruct (last l) as [y|] eqn:Hl.
  2:{ apply last_None in Hl. by subst. }
  apply last_Some in Hl as [l' ->].
  rewrite length_app. simpl. replace (length l' + 1 - 1)%nat with (length l') by lia.
  apply lookup_app_Some in Hi as [Hi|[Hge Hi]].
  - rewrite insert_app_l by (by eapply lookup_lt_Some).
    rewrite take_app_le by (rewrite length_insert; lia).
    rewrite take_ge by (rewrite length_insert; lia).
    rewrite <- (take_drop_middle l' i x Hi) at 2.
    rewrite insert_take_drop by (by eapply lookup_lt_Some).
    solve_Permutation.
  - assert (i = length l') as ->.
    { apply lookup_lt_Some in Hi. simpl in Hi. lia. }
    replace (length l' - length l')%nat with 0%nat in Hi by lia. simplify_eq/=.
    rewrite insert_app_r_alt by lia.
    replace (length l' - length l')%nat with 0%nat by lia. simpl.
    rewrite take_app_length. solve_Permutation.
Qed.

Lemma length_swap_pop l i x :
  l !! i = Some x → length (swap_pop i l) = (length l - 1)%nat.
Proof.
  intros H. apply swap_pop_perm, Permutation_length in H. simpl in H. lia.
Qed.

Lemma elem_of_swap_pop l i x y :
  NoDup l → l !! i = Some x → y ∈ swap_pop i l ↔ y ∈ l ∧ y ≠ x.
Proof.
  intros Hnd Hi. pose proof (swap_pop_perm l i x Hi) as Hp.
  assert (Hnd' : NoDup (x :: swap_pop i l)) by (by rewrite Hp).
  assert (y ∈ l ↔ y ∈ x :: swap_pop i l) as -> by (by rewrite Hp).
  rewrite elem_of_cons. apply NoDup_cons in Hnd' as [Hx _].
  split; [|naive_solver]. intros Hy. split; [by right|]. by intros ->.
Qed.

Lemma NoDup_swap_pop l i : NoDup l → NoDup (swap_pop i l).
Proof.
  intros Hnd. destruct (l !! i) as [x|] eqn:Hi.
  - assert (Hnd' : NoDup (x :: swap_pop i l)) by (by rewrite (swap_pop_perm l i x Hi)).
    by apply NoDup_cons in Hnd' as [_ ?].
  - unfold swap_pop. destruct (last l); [|done].
    rewrite list_insert_ge by (by apply lookup_ge_None).
    eapply sublist_NoDup; [done|]. apply sublist_take.
Qed.

(** The two halves around a member of a duplicate-free list. *)
Lemma NoDup_split l x :
  NoDup l → x ∈ l → ∃ l1 l2, l = l1 ++ x :: l2 ∧ x ∉ l1 ∧ x ∉ l2.
Proof.
  intros Hnd Hin. apply list_elem_of_split in Hin as (l1 & l2 & ->).
  exists l1, l2. apply NoDup_app in Hnd as (_ & Hd & Hnd).
  apply NoDup_cons in Hnd as [? _]. repeat split; [|done].
  intros Hx. apply (Hd x Hx). by left.
Qed.

Lemma StronglySorted_lookup_lt (R : relation A) l (i j : nat) x y :
  StronglySorted R l → (i < j)%nat → l !! i = Some x → l !! j = Some y → R x y.
Proof.
  intros Hs. revert i j. induction Hs as [|z l Hs IH Hz]; intros [|i] [|j] Hij Hi Hj;
    simplify_eq/=; try lia.
  - rewrite Forall_lookup in Hz. by eapply Hz.
  - eapply (IH i j); [lia|done|done].
Qed.

Lemma NoDup_middle l1 x l2 :
  NoDup (l1 ++ x :: l2) ↔ x ∉ l1 ∧ x ∉ l2 ∧ NoDup (l1 ++ l2).
Proof.
  rewrite !NoDup_app, NoDup_cons. set_solver.
Qed.

Lemma filter_all (P : A → Prop) `{!∀ x, Decision (P x)} l :
  (∀ x, x ∈ l → P x) → filter P l = l.
Proof.
  induction l as [|x l IH]; intros Hl; [done|].
  rewrite filter_cons_True by (apply Hl; by left). f_equal. apply IH. intros y Hy. apply Hl. by right.
Qed.

End vectors.

(** ** Powers of two and masks *)

Lemma log2_lt_bits x n : 0 <= x < 2 ^ n → 0 <= n → ∀ i, n <= i → Z.testbit x i = false.
Proof.
  intros Hx Hn i Hi. destruct (decide (x = 0)) as [->|]; [apply Z.bits_0|].
  apply Z.bits_above_log2; [lia|]. assert (Z.log2 x < n) by (apply Z.log2_lt_pow2; lia). lia.
Qed.

(** [x & ~(2^k - 1)] rounds down to a multiple. *)
Lemma mask_round_down x k :
  0 <= x < 2 ^ 64 → 0 <= k <= 64 → Z.land x (Z.lxor UINT64_MAX (2 ^ k - 1)) = x / 2 ^ k * 2 ^ k.
Proof.
  intros Hx Hk. change UINT64_MAX with (Z.ones 64). replace (2 ^ k - 1) with (Z.ones k) by (rewrite Z.ones_equiv; lia).
  rewrite <- (Z.shiftr_div_pow2 x k), <- Z.shiftl_mul_pow2 by lia.
  apply Z.bits_inj'. intros n Hn. rewrite Z.land_spec, Z.lxor_spec, Z.shiftl_spec by lia.
  destruct (Z.lt_ge_cases n k).
  - rewrite !Z.ones_spec_low, (Z.testbit_neg_r _ (n - k)) by lia. apply andb_false_r.
  - rewrite Z.shiftr_spec by lia. replace (n - k + k) with n by lia.
    rewrite (Z.ones_spec_high k), xorb_false_r by lia. destruct (Z.lt_ge_cases n 64).
    + rewrite Z.ones_spec_low by lia. apply andb_true_r.
    + by rewrite (log2_lt_bits x 64) by lia.
Qed.

(** [a & (a - 1) == 0] recognises powers of two. *)
Lemma pow2_of_mask a : 0 < a → Z.land a (a - 1) = 0 → ∃ k, 0 <= k ∧ a = 2 ^ k.
Proof.
  intros Ha H0. exists (Z.log2 a). pose proof (Z.log2_nonneg a) as Hl. split; [done|].
  destruct (Z.log2_spec a Ha) as [Hlo Hhi]. destruct (decide (a = 2 ^ Z.log2 a)) as [|Hne]; [done|].
  assert (Z.log2 (a - 1) = Z.log2 a) as Heq by (apply Z.log2_unique; lia).
  assert (Hb : Z.testbit (Z.land a (a - 1)) (Z.log2 a) = true).
  { rewrite Z.land_spec, Z.bit_log2 by lia. rewrite <- Heq at 1. rewrite Z.bit_log2; [done|].
    pose proof (Z.pow_pos_nonneg 2 (Z.log2 a)). lia. }
  by rewrite H0, Z.bits_0 in Hb.
Qed.

(** Rounding up to a multiple. *)
Lemma round_up_spec x a : 0 < a → let r := (x + a - 1) / a * a in x <= r < x + a ∧ (a | r).
Proof.
  intros Ha r. pose proof (Z.div_mod (x + a - 1) a ltac:(lia)). pose proof (Z.mod_pos_bound (x + a - 1) a Ha).
  split; [subst r; lia|]. apply Z.divide_factor_r.
Qed.

(** ** Runs of a step function *)

Section runs.
Context {Action State : Type} (step : Action → State → option State).

(** A sequence of actions; an action a thread cannot take makes it [None]. *)
Fixpoint run_actions (acts : list Action) (s : State) : option State :=
  match acts with
  | [] => Some s
  | a :: acts => step a s ≫= run_actions acts
  end.

Lemma run_actions_inv (P : State → Prop) acts s s' :
  (∀ a s s', P s → step a s = Some s' → P s') →
  P s → run_actions acts s = Some s' → P s'.
Proof.
  intros Hstep. revert s. induction acts as [|a acts IH]; intros s HP; cbn [run_actions].
  - by intros [= <-].
  - intros (s1 & H1 & H2)%bind_Some. eauto.
Qed.

End runs.

(** ** Sums over finite maps *)

Section map_sums.
Context `{Countable K} {V : Type}.
Implicit Types (f : K → V → Z) (m : gmap K V).

Definition msum f m : Z := map_fold (λ k x acc, f k x + acc) 0 m.

Lemma msum_empty f : msum f ∅ = 0.
Proof. apply map_fold_empty. Qed.

Lemma msum_insert f m k x : m !! k = None → msum f (<[k := x]> m) = f k x + msum f m.
Proof. intros Hk. apply (map_fold_insert_L (λ k x acc, f k x + acc)); [intros; lia|done]. Qed.

Lemma msum_delete f m k x : m !! k = Some x → msum f m = f k x + msum f (delete k m).
Proof.
  intros Hk. rewrite <- (insert_delete_id m k x) at 1 by done. apply msum_insert, lookup_delete_eq.
Qed.

Lemma msum_update f m k x y : m !! k = Some x → msum f (<[k := y]> m) = msum f m - f k x + f k y.
Proof.
  intros Hk. rewrite (msum_delete f m k x Hk), <- insert_delete_eq, msum_insert by apply lookup_delete_eq. lia.
Qed.

Lemma msum_alter f m k x g : m !! k = Some x → msum f (alter g k m) = msum f m - f k x + f k (g x).
Proof.
  intros Hk. replace (alter g k m) with (<[k := g x]> m); [by apply msum_update|].
  apply map_eq. intros j. destruct (decide (j = k)) as [->|Hj].
  - by rewrite lookup_insert_eq, lookup_alter_eq, Hk.
  - by rewrite lookup_insert_ne, lookup_alter_ne.
Qed.

Lemma msum_nonneg f m : (∀ k x, m !! k = Some x → 0 <= f k x) → 0 <= msum f m.
Proof.
  induction m as [|k x m Hk IH] using map_ind; intros Hf; [by rewrite msum_empty|].
  rewrite msum_insert by done. assert (0 <= f k x) by (apply Hf, lookup_insert_eq).
  assert (0 <= msum f m); [|lia]. apply IH. intros j y Hj. apply Hf. rewrite lookup_insert_ne; [done|congruence].
Qed.

Lemma msum_ext f f' m : (∀ k x, m !! k = Some x → f k x = f' k x) → msum f m = msum f' m.
Proof.
  induction m as [|k x m Hk IH] using map_ind; intros Hf; [by rewrite !msum_empty|].
  rewrite !msum_insert by done. rewrite (Hf k x) by apply lookup_insert_eq. f_equal.
  apply IH. intros j y Hj. apply Hf. rewrite lookup_insert_ne; [done|congruence].
Qed.

Lemma msum_zero f m : (∀ k x, m !! k = Some x → f k x = 0) → msum f m = 0.
Proof.
  intros Hf. rewrite (msum_ext f (λ _ _, 0) m Hf).
  induction m as [|k x m Hk IH] using map_ind; [apply msum_empty|].
  rewrite msum_insert, IH by (done || (intros j y Hj; apply Hf; rewrite lookup_insert_ne; [done|congruence])). done.
Qed.

Lemma msum_le_one f m k x : (∀ k x, m !! k = Some x → 0 <= f k x) → m !! k = Some x → f k x <= msum f m.
Proof.
  intros Hf Hk. rewrite (msum_delete f m k x Hk). assert (0 <= msum f (delete k m)); [|lia].
  apply msum_nonneg. intros j y Hj. rewrite lookup_delete_Some in Hj. naive_solver.
Qed.

End map_sums.
