(* ===== verification/KvTypes.v ===== *)
(** * Identities and result codes shared by every component

    [BlockKey] (src/common/kv_types.h), the tenant-scoped 192-bit identity of
    an object, and [Status] (src/common/status.h). *)

From S2P Require Import Prelude.

(** ** Status *)

Inductive Status :=
  kOk | kNotFound | kCacheFull | kQuotaExceeded | kIOError | kInvalid
| kResourceExhausted | kNoCompatibleRail.

#[export] Instance Status_eq_dec : EqDecision Status.
Proof. solve_decision. Defined.

(** The numeric value of the enumerator ([static_cast<uint8_t>(st)]). *)
Definition status_byte (st : Status) : Z :=
  match st with
  | kOk => 0 | kNotFound => 1 | kCacheFull => 2 | kQuotaExceeded => 3
  | kIOError => 4 | kInvalid => 5 | kResourceExhausted => 6
  | kNoCompatibleRail => 7
  end.

(** ** BlockKey *)

Record BlockKey := mkBlockKey {
  digest_hi : Z;
  digest_lo : Z;
  tenant_hash : Z;
}.

#[export] Instance BlockKey_eq_dec : EqDecision BlockKey.
Proof. solve_decision. Defined.

#[export] Instance BlockKey_countable : Countable BlockKey.
Proof.
  refine (inj_countable' (λ k, (digest_hi k, digest_lo k, tenant_hash k))
            (λ t, mkBlockKey t.1.1 t.1.2 t.2) _).
  by intros [].
Defined.

#[export] Instance BlockKey_inhabited : Inhabited BlockKey :=
  populate (mkBlockKey 0 0 0).

(** [operator==] *)
Definition key_eqb (a b : BlockKey) : bool :=
  (digest_hi a =? digest_hi b) && (digest_lo a =? digest_lo b) &&
  (tenant_hash a =? tenant_hash b).

Lemma key_eqb_spec a b : key_eqb a b = true ↔ a = b.
Proof.
  unfold key_eqb. rewrite !andb_true_iff, !Z.eqb_eq.
  destruct a, b; simpl. naive_solver.
Qed.

Lemma key_eqb_refl k : key_eqb k k = true.
Proof. by apply key_eqb_spec. Qed.

Lemma key_eqb_neq a b : a ≠ b → key_eqb a b = false.
Proof.
  intros H. destruct (key_eqb a b) eqn:E; [|done]. by apply key_eqb_spec in E.
Qed.

#[export] Hint Rewrite key_eqb_refl : dfkv.

(** The three words fit their 64-bit fields. *)
Definition key_ok (k : BlockKey) : Prop :=
  is_u64 (digest_hi k) ∧ is_u64 (digest_lo k) ∧ is_u64 (tenant_hash k).
