(* ===== verification/KeyIndex.v ===== *)
(** * FlatKeyIndex: the allocator's open-addressing key table

    Model of [SlabAllocator::FlatKeyIndex] (src/cache/slab_allocator.h and
    .cc): power-of-two linear probing, tombstones on erase, growth and
    compaction only in [Reserve].  The table is related to the finite partial
    map it stores, and the laws of class [KeyIndexLaws] are what
    the slab allocator relies on. *)

From S2P Require Import Prelude KvTypes.

(** ** The interface the allocator uses *)

Class KeyIndexOps (T : Type) := {
  ix_empty : T;
  ix_find : BlockKey → T → option nat;
  ix_insert : BlockKey → nat → T → bool * T;
  ix_erase : BlockKey → T → bool * T;
  ix_reserve : nat → T → T;
  ix_size : T → nat;
}.

Class KeyIndexLaws (T : Type) {ops : KeyIndexOps T} := {
  ix_wf : T → Prop;
  ix_empty_wf : ix_wf ix_empty;
  ix_find_empty k : ix_find k ix_empty = None;
  ix_size_empty : ix_size ix_empty = 0%nat;
  ix_insert_wf k v t : ix_wf t → ix_wf (ix_insert k v t).2;
  ix_insert_fresh k v t :
    ix_wf t → (ix_insert k v t).1 = bool_decide (ix_find k t = None);
  ix_find_insert k k' v t :
    ix_wf t →
    ix_find k' (ix_insert k v t).2 = if decide (k = k') then Some v else ix_find k' t;
  ix_size_insert k v t :
    ix_wf t → ix_find k t = None → ix_size (ix_insert k v t).2 = S (ix_size t);
  ix_erase_wf k t : ix_wf t → ix_wf (ix_erase k t).2;
  ix_find_erase k k' t :
    ix_wf t →
    ix_find k' (ix_erase k t).2 = if decide (k = k') then None else ix_find k' t;
  ix_size_erase k t :
    ix_wf t → is_Some (ix_find k t) → S (ix_size (ix_erase k t).2) = ix_size t;
  ix_reserve_wf n t : ix_wf t → (ix_size t <= n)%nat → ix_wf (ix_reserve n t);
  ix_find_reserve n k t :
    ix_wf t → (ix_size t <= n)%nat → ix_find k (ix_reserve n t) = ix_find k t;
  ix_size_reserve n t :
    ix_wf t → (ix_size t <= n)%nat → ix_size (ix_reserve n t) = ix_size t;
}.

(** ** Data *)

Inductive EntryState := SEmpty | SOccupied | STombstone.

(** [Entry]; [kNoSlot] is [None]. *)
Record Entry := mkEntry {
  e_key : BlockKey;
  e_value : option nat;
  e_state : EntryState;
}.

#[export] Instance EntryState_eq_dec : EqDecision EntryState.
Proof. solve_decision. Defined.

#[export] Instance Entry_inhabited : Inhabited Entry :=
  populate (mkEntry inhabitant None SEmpty).

Record FlatKeyIndex := mkIndex {
  entries_ : list Entry;
  size_ : nat;
  tombstones_ : nat;
  table_allocations_ : nat;
  rehashes_ : nat;
}.

Definition empty_index : FlatKeyIndex := mkIndex [] 0 0 0 0.

(** ** Hashing *)

(** The [mix] lambda of [Hash], on 64-bit words. *)
Definition mix (v : Z) : Z :=
  let v := Z.lxor v (Z.shiftr v 30) in
  let v := u64 (v * 0xbf58476d1ce4e5b9) in
  let v := Z.lxor v (Z.shiftr v 27) in
  let v := u64 (v * 0x94d049bb133111eb) in
  Z.lxor v (Z.shiftr v 31).

Definition Hash (k : BlockKey) : Z :=
  let hash := mix (u64 (digest_hi k + 0x9e3779b97f4a7c15)) in
  let hash := Z.lxor hash (mix (u64 (digest_lo k + 0x3c6ef372fe94f82a))) in
  let hash := Z.lxor hash (mix (u64 (tenant_hash k + 0xdaa66d2c7ddef743))) in
  mix hash.

(** [static_cast<size_t>(Hash(key)) & mask] and [(bucket + 1) & mask]. *)
Definition bucket_of (k : BlockKey) (cap : nat) : nat :=
  Z.to_nat (Z.land (Hash k) (Z.of_nat cap - 1)).

Definition next_bucket (cap b : nat) : nat :=
  Z.to_nat (Z.land (Z.of_nat b + 1) (Z.of_nat cap - 1)).

(** ** Operations *)

Definition occ (e : Entry) : bool := bool_decide (e_state e = SOccupied).
Definition hit (k : BlockKey) (e : Entry) : bool := occ e && key_eqb (e_key e) k.

(** The probe loop of [Find] and [Erase]: the bucket of the live entry. *)
Fixpoint probe (fuel : nat) (es : list Entry) (b : nat) (k : BlockKey) : option nat :=
  match fuel with
  | O => None
  | S fuel =>
      let e := es !!! b in
      if decide (e_state e = SEmpty) then None
      else if hit k e then Some b
      else probe fuel es (next_bucket (length es) b) k
  end.

Definition find_bucket (k : BlockKey) (ix : FlatKeyIndex) : option nat :=
  match entries_ ix with
  | [] => None
  | es => probe (length es) es (bucket_of k (length es)) k
  end.

(** [Find], dereferenced. *)
Definition Find (k : BlockKey) (ix : FlatKeyIndex) : option nat :=
  b ← find_bucket k ix; e_value (entries_ ix !!! b).

(** [while (capacity < requested_capacity) capacity *= 2;] *)
Fixpoint grow_capacity (fuel cap requested : nat) : nat :=
  match fuel with
  | O => cap
  | S fuel =>
      if (cap <? requested)%nat then grow_capacity fuel (cap * 2) requested else cap
  end.

(** [while (replacement\[bucket\].state == 1) bucket = (bucket + 1) & mask;] *)
Fixpoint rehash_slot (fuel : nat) (es : list Entry) (b : nat) : nat :=
  match fuel with
  | O => b
  | S fuel =>
      if occ (es !!! b) then rehash_slot fuel es (next_bucket (length es) b) else b
  end.

Definition rehash_one (repl : list Entry) (old : Entry) : list Entry :=
  if occ old then
    let b := rehash_slot (length repl) repl (bucket_of (e_key old) (length repl)) in
    <[b := old]> repl
  else repl.

Definition Rehash (requested : nat) (ix : FlatKeyIndex) : FlatKeyIndex :=
  let cap := grow_capacity requested 16 requested in
  let repl := replicate cap (mkEntry inhabitant None SEmpty) in
  mkIndex (foldl rehash_one repl (entries_ ix)) (size_ ix) 0
    (S (table_allocations_ ix)) (S (rehashes_ ix)).

(** [while (expected_size > (capacity * 7) / 10) capacity *= 2;] *)
Fixpoint reserve_capacity (fuel cap expected : nat) : nat :=
  match fuel with
  | O => cap
  | S fuel =>
      if (cap * 7 / 10 <? expected)%nat then reserve_capacity fuel (cap * 2) expected
      else cap
  end.

Definition Reserve (expected : nat) (ix : FlatKeyIndex) : FlatKeyIndex :=
  let n := length (entries_ ix) in
  let cap := reserve_capacity expected (if (n =? 0)%nat then 16%nat else n) expected in
  if (n =? 0)%nat || negb (cap =? n)%nat ||
     (negb (tombstones_ ix =? 0)%nat &&
      ((cap * 7 / 10 <? expected + tombstones_ ix)%nat ||
       (cap / 4 <? tombstones_ ix)%nat))
  then Rehash cap ix else ix.

(** The insertion probe: first empty bucket, or the first tombstone met. *)
Fixpoint insert_probe (fuel : nat) (es : list Entry) (b : nat)
    (tombstone : option nat) : option nat :=
  match fuel with
  | O => None
  | S fuel =>
      let e := es !!! b in
      match e_state e with
      | SEmpty => Some (default b tombstone)
      | st =>
          let tombstone :=
            if bool_decide (st = STombstone) && bool_decide (tombstone = None)
            then Some b else tombstone in
          insert_probe fuel es (next_bucket (length es) b) tombstone
      end
  end.

Definition Insert (k : BlockKey) (v : nat) (ix : FlatKeyIndex) : bool * FlatKeyIndex :=
  match find_bucket k ix with
  | Some b =>
      (false, mkIndex
        (<[b := mkEntry (e_key (entries_ ix !!! b)) (Some v)
                  (e_state (entries_ ix !!! b))]> (entries_ ix))
        (size_ ix) (tombstones_ ix) (table_allocations_ ix) (rehashes_ ix))
  | None =>
      let ix := Reserve (S (size_ ix)) ix in
      let es := entries_ ix in
      match insert_probe (length es) es (bucket_of k (length es)) None with
      | Some target =>
          let tombs := if bool_decide (e_state (es !!! target) = STombstone)
                       then (tombstones_ ix - 1)%nat else tombstones_ ix in
          (true, mkIndex (<[target := mkEntry k (Some v) SOccupied]> es)
                   (S (size_ ix)) tombs (table_allocations_ ix) (rehashes_ ix))
      | None => (false, ix)
      end
  end.

Definition Erase (k : BlockKey) (ix : FlatKeyIndex) : bool * FlatKeyIndex :=
  match find_bucket k ix with
  | Some b =>
      (true, mkIndex
        (<[b := mkEntry (e_key (entries_ ix !!! b)) None STombstone]> (entries_ ix))
        (size_ ix - 1) (S (tombstones_ ix)) (table_allocations_ ix) (rehashes_ ix))
  | None => (false, ix)
  end.

#[export] Instance flat_index_ops : KeyIndexOps FlatKeyIndex := {|
  ix_empty := empty_index;
  ix_find := Find;
  ix_insert := Insert;
  ix_erase := Erase;
  ix_reserve := Reserve;
  ix_size := size_;
|}.

Example find_after_ops :
  let k1 := mkBlockKey 1 2 3 in
  let k2 := mkBlockKey 4 5 6 in
  let t := (Insert k2 8 (Insert k1 7 empty_index).2).2 in
  (Find k1 t, Find k2 (Erase k1 t).2, Find k1 (Erase k1 t).2, length (entries_ t))
  = (Some 7%nat, Some 8%nat, None, 16%nat).
Proof. vm_compute. reflexivity. Qed.

(** ** Probe sequences *)

Definition pow2 (cap : nat) : Prop := ∃ p : nat, cap = (2 ^ p)%nat.

(** The j-th bucket visited from [h]. *)
Definition pos (cap h j : nat) : nat := ((h + j) mod cap)%nat.

Section probing.
Local Open Scope nat_scope.
Implicit Types (es : list Entry) (k : BlockKey).

Lemma pow2_pos cap : pow2 cap → 0 < cap.
Proof. intros [p ->]. pose proof (Nat.pow_nonzero 2 p). lia. Qed.

Lemma land_mask (x : Z) cap :
  pow2 cap → Z.land x (Z.of_nat cap - 1) = (x mod Z.of_nat cap)%Z.
Proof.
  intros [p ->]. rewrite Nat2Z.inj_pow. change (Z.of_nat 2) with 2%Z.
  rewrite <- Z.land_ones by lia. f_equal. rewrite Z.ones_equiv. lia.
Qed.

Lemma next_bucket_mod cap b : pow2 cap → next_bucket cap b = (b + 1) mod cap.
Proof.
  intros Hp. unfold next_bucket. rewrite land_mask by done.
  replace (Z.of_nat b + 1)%Z with (Z.of_nat (b + 1)) by lia.
  rewrite <- Nat2Z.inj_mod. lia.
Qed.

Lemma bucket_of_lt k cap : pow2 cap → bucket_of k cap < cap.
Proof.
  intros Hp. pose proof (pow2_pos _ Hp). unfold bucket_of. rewrite land_mask by done.
  pose proof (Z.mod_pos_bound (Hash k) (Z.of_nat cap)). lia.
Qed.

Lemma pos_lt cap h j : 0 < cap → pos cap h j < cap.
Proof. intros. unfold pos. apply Nat.mod_upper_bound. lia. Qed.

Lemma pos_0 cap h : h < cap → pos cap h 0 = h.
Proof. intros. unfold pos. rewrite Nat.add_0_r. by apply Nat.mod_small. Qed.

Lemma pos_next cap h j : pow2 cap → next_bucket cap (pos cap h j) = pos cap h (S j).
Proof.
  intros Hp. rewrite next_bucket_mod by done. unfold pos.
  rewrite Nat.Div0.add_mod_idemp_l. f_equal. lia.
Qed.

(** Every bucket is visited within one lap. *)
Lemma pos_onto cap h b : h < cap → b < cap → ∃ j, j < cap ∧ pos cap h j = b.
Proof.
  intros Hh Hb. unfold pos. destruct (decide (h <= b)).
  - exists (b - h). split; [lia|]. rewrite Nat.mod_small; lia.
  - exists (cap - h + b). split; [lia|].
    replace (h + (cap - h + b)) with (b + 1 * cap) by lia.
    rewrite Nat.Div0.mod_add. apply Nat.mod_small. lia.
Qed.

Lemma pos_shift cap h i j : pos cap (pos cap h i) j = pos cap h (i + j).
Proof. unfold pos. rewrite Nat.Div0.add_mod_idemp_l. f_equal. lia. Qed.

(** [at_ es h j] is the entry visited at step [j]. *)
Definition at_ es h j : Entry := es !!! pos (length es) h j.

Definition nonempty (e : Entry) : Prop := e_state e ≠ SEmpty.

Lemma at_lookup es h j :
  0 < length es → es !! pos (length es) h j = Some (at_ es h j).
Proof. intros. by apply list_lookup_lookup_total_lt, pos_lt. Qed.

Section with_table.
Context (es : list Entry) (Hp : pow2 (length es)) (h : nat).

(** [probe] finds the first live entry with the key, provided no empty bucket
    is met before it. *)
Lemma probe_found k n i j :
  i <= j < i + n →
  (∀ l, i <= l < j → nonempty (at_ es h l) ∧ hit k (at_ es h l) = false) →
  hit k (at_ es h j) = true →
  probe n es (pos (length es) h i) k = Some (pos (length es) h j).
Proof.
  revert i. induction n as [|n IH]; intros i Hij Hbefore Hhit; [lia|]. simpl.
  fold (at_ es h i). destruct (decide (i = j)) as [->|Hne].
  - rewrite Hhit. destruct (decide _) as [He|]; [|done].
    unfold hit, occ in Hhit. rewrite He in Hhit. done.
  - destruct (Hbefore i ltac:(lia)) as [Hn ->].
    rewrite decide_False by done. rewrite pos_next by done.
    apply IH; [lia| |done]. intros l Hl. apply Hbefore. lia.
Qed.

Lemma probe_Some k n i b :
  probe n es (pos (length es) h i) k = Some b →
  ∃ j, i <= j < i + n ∧ b = pos (length es) h j ∧ hit k (at_ es h j) = true.
Proof.
  revert i. induction n as [|n IH]; intros i; simpl; [done|]. fold (at_ es h i).
  destruct (decide _); [done|]. destruct (hit k (at_ es h i)) eqn:E.
  - intros [= <-]. exists i. split; [lia|done].
  - rewrite pos_next by done. intros (j & ? & ? & ?)%IH. exists j. split; [lia|done].
Qed.

Lemma probe_None k n i :
  probe n es (pos (length es) h i) k = None →
  ∀ j, i <= j < i + n → (∀ l, i <= l < j → nonempty (at_ es h l)) →
       hit k (at_ es h j) = false.
Proof.
  revert i. induction n as [|n IH]; intros i; simpl; [intros; lia|]. fold (at_ es h i).
  intros Hpr j Hj Hne.
  destruct (decide (e_state (at_ es h i) = SEmpty)) as [He|Hn].
  - destruct (decide (i = j)) as [->|].
    + unfold hit, occ. by rewrite He.
    + destruct (Hne i ltac:(lia)). done.
  - destruct (hit k (at_ es h i)) eqn:E; [done|]. rewrite pos_next in Hpr by done.
    destruct (decide (i = j)) as [->|]; [done|].
    apply (IH _ Hpr j); [lia|]. intros l Hl. apply Hne. lia.
Qed.

(** The rehash loop stops at the first bucket that is not live. *)
Lemma rehash_slot_spec n i j :
  i <= j < i + n → occ (at_ es h j) = false →
  ∃ t, i <= t <= j ∧ rehash_slot n es (pos (length es) h i) = pos (length es) h t ∧
       occ (at_ es h t) = false ∧ ∀ l, i <= l < t → occ (at_ es h l) = true.
Proof.
  revert i. induction n as [|n IH]; intros i Hij Hocc; [lia|]. simpl. fold (at_ es h i).
  destruct (occ (at_ es h i)) eqn:E.
  - rewrite pos_next by done.
    assert (i ≠ j) by (intros ->; congruence).
    destruct (IH (S i)) as (t & ? & ? & ? & Hl); [lia|done|].
    exists t. repeat split; [lia|lia|done|done|]. intros l ?.
    destruct (decide (l = i)) as [->|]; [done|]. apply Hl. lia.
  - exists i. repeat split; [lia|lia|done|]. intros l ?. lia.
Qed.

(** The insertion probe returns a reusable bucket whose predecessors are all
    non-empty. *)
Lemma insert_probe_spec n i j tomb :
  i <= j < i + n → e_state (at_ es h j) = SEmpty →
  (∀ l, l < i → nonempty (at_ es h l)) →
  (∀ b, tomb = Some b → ∃ t, t < i ∧ b = pos (length es) h t ∧
        e_state (at_ es h t) = STombstone) →
  ∃ t, t <= j ∧ insert_probe n es (pos (length es) h i) tomb = Some (pos (length es) h t) ∧
       occ (at_ es h t) = false ∧ ∀ l, l < t → nonempty (at_ es h l).
Proof.
  revert i tomb. induction n as [|n IH]; intros i tomb Hij Hj Hbefore Htomb; [lia|].
  simpl. fold (at_ es h i).
  assert (Hstep : ∀ tomb', nonempty (at_ es h i) →
    (∀ b, tomb' = Some b → ∃ t, t < S i ∧ b = pos (length es) h t ∧
          e_state (at_ es h t) = STombstone) →
    ∃ t, t <= j ∧ insert_probe n es (next_bucket (length es) (pos (length es) h i)) tomb'
           = Some (pos (length es) h t) ∧
         occ (at_ es h t) = false ∧ ∀ l, l < t → nonempty (at_ es h l)).
  { intros tomb' Hne Ht. rewrite pos_next by done.
    assert (i ≠ j) by (by intros ->). apply IH; [lia|done| |done].
    intros l Hl. destruct (decide (l = i)) as [->|]; [done|]. apply Hbefore. lia. }
  destruct (e_state (at_ es h i)) eqn:E.
  - destruct tomb as [b|]; simpl.
    + destruct (Htomb b eq_refl) as (t & Ht & -> & Hst). exists t.
      repeat split; [lia| |].
      * unfold occ. by rewrite Hst.
      * intros l Hl. apply Hbefore. lia.
    + exists i. repeat split; [lia| |done]. unfold occ. by rewrite E.
  - apply Hstep; [unfold nonempty; by rewrite E|].
    intros b Hb. destruct (Htomb b Hb) as (t & ? & ? & ?). exists t. split; [lia|done].
  - apply Hstep; [unfold nonempty; by rewrite E|]. intros b Hb.
    destruct tomb as [b'|]; simpl in Hb; simplify_eq.
    + destruct (Htomb b eq_refl) as (t & ? & ? & ?). exists t. split; [lia|done].
    + exists i. split; [lia|done].
Qed.

End with_table.
End probing.

(** ** The table invariant *)

Section table.
Local Open Scope nat_scope.
Implicit Types (es : list Entry) (k : BlockKey) (e : Entry).

Definition cnt (st : EntryState) es : nat :=
  length (filter (λ e, e_state e = st) es).

Lemma cnt_insert st es b e e' :
  es !! b = Some e →
  cnt st (<[b:=e']> es) + (if decide (e_state e = st) then 1 else 0)
  = cnt st es + (if decide (e_state e' = st) then 1 else 0).
Proof.
  unfold cnt. revert b. induction es as [|x es IH]; intros [|b] Hb; simplify_eq/=.
  - rewrite !filter_cons. repeat case_decide; simpl; lia.
  - rewrite !filter_cons. specialize (IH b Hb). repeat case_decide; simpl in *; lia.
Qed.

Lemma cnt_le es : cnt SEmpty es + cnt SOccupied es + cnt STombstone es = length es.
Proof.
  unfold cnt. induction es as [|x es IH]; [done|]. rewrite !filter_cons.
  destruct (e_state x); repeat case_decide; simplify_eq/=; lia.
Qed.

Lemma cnt_exists st es : 0 < cnt st es → ∃ b e, es !! b = Some e ∧ e_state e = st.
Proof.
  unfold cnt. intros H. destruct (filter _ es) as [|e l] eqn:E; [simpl in H; lia|].
  assert (He : e ∈ filter (λ e, e_state e = st) es) by (rewrite E; left).
  apply list_elem_of_filter in He as [Hst He].
  apply list_elem_of_lookup in He as [b Hb]. eauto.
Qed.

(** The bucket [b] holding a live [e] is reached from the hash of its key
    through non-empty buckets only. *)
Definition reach es b k : Prop :=
  ∃ j, j < length es ∧ b = pos (length es) (bucket_of k (length es)) j ∧
       ∀ i, i < j → nonempty (at_ es (bucket_of k (length es)) i).

Record wf_table es : Prop := {
  wt_pow2 : pow2 (length es);
  wt_uniq b1 b2 e1 e2 :
    es !! b1 = Some e1 → es !! b2 = Some e2 → occ e1 = true → occ e2 = true →
    e_key e1 = e_key e2 → b1 = b2;
  wt_value b e : es !! b = Some e → occ e = true → is_Some (e_value e);
  wt_reach b e : es !! b = Some e → occ e = true → reach es b (e_key e);
}.

(** The partial map a table stores. *)
Definition stored es k (v : nat) : Prop :=
  ∃ b e, es !! b = Some e ∧ occ e = true ∧ e_key e = k ∧ e_value e = Some v.

Lemma hit_true k e : hit k e = true ↔ occ e = true ∧ e_key e = k.
Proof. unfold hit. by rewrite andb_true_iff, key_eqb_spec. Qed.

Lemma occ_true e : occ e = true ↔ e_state e = SOccupied.
Proof. apply bool_decide_eq_true. Qed.

Lemma occ_nonempty e : occ e = true → nonempty e.
Proof. rewrite occ_true. unfold nonempty. congruence. Qed.

Lemma nonempty_insert es t e0 e' h i :
  es !! t = Some e0 → nonempty e' →
  nonempty (at_ es h i) → nonempty (at_ (<[t:=e']> es) h i).
Proof.
  intros Ht He' Hi. unfold at_. rewrite length_insert.
  apply lookup_lt_Some in Ht as Hlt.
  destruct (decide (t = pos (length es) h i)) as [->|Hne].
  - by rewrite list_lookup_total_insert_eq.
  - by rewrite list_lookup_total_insert_ne.
Qed.

Lemma reach_insert es t e0 e' b k :
  es !! t = Some e0 → nonempty e' → reach es b k → reach (<[t:=e']> es) b k.
Proof.
  intros Ht He' (j & ? & ? & Hb). exists j. rewrite length_insert.
  repeat split; [done|done|]. intros i Hi. eapply nonempty_insert; eauto.
Qed.

(** Writing a non-empty entry keeps the table well formed when the entry, if
    live, is reachable there and its key is live nowhere else. *)
Lemma wf_table_set es t e0 e' :
  wf_table es → es !! t = Some e0 → nonempty e' →
  (occ e' = true → is_Some (e_value e') ∧ reach es t (e_key e') ∧
     ∀ b e, es !! b = Some e → occ e = true → e_key e = e_key e' → b = t) →
  wf_table (<[t:=e']> es).
Proof.
  intros Hwf Ht Hne He'. split.
  - rewrite length_insert. apply Hwf.
  - intros b1 b2 e1 e2 H1 H2 O1 O2 Hk.
    apply list_lookup_insert_Some in H1 as [(<- & <- & _)|(Hn1 & H1)];
    apply list_lookup_insert_Some in H2 as [(<- & <- & _)|(Hn2 & H2)];
      [done| | |by eapply (wt_uniq es)].
    + destruct (He' O1) as (_ & _ & Hu). symmetry. by apply (Hu b2 e2).
    + destruct (He' O2) as (_ & _ & Hu). by apply (Hu b1 e1).
  - intros b e H1 O1.
    apply list_lookup_insert_Some in H1 as [(<- & <- & _)|(Hn1 & H1)].
    + by apply He'.
    + by eapply (wt_value es).
  - intros b e H1 O1. eapply reach_insert; [done..|].
    apply list_lookup_insert_Some in H1 as [(<- & <- & _)|(Hn1 & H1)].
    + by apply He'.
    + by eapply (wt_reach es).
Qed.

Lemma stored_set es t e0 k v k' v' :
  es !! t = Some e0 → occ e0 = false →
  stored (<[t:=mkEntry k (Some v) SOccupied]> es) k' v' ↔
  (k = k' ∧ v = v') ∨ stored es k' v'.
Proof.
  intros Ht Ho. apply lookup_lt_Some in Ht as Hlt. split.
  - intros (b & e & Hb & Hocc & Hk & Hv).
    apply list_lookup_insert_Some in Hb as [(-> & <- & _)|(Hn & Hb)];
      [left; simpl in *; naive_solver|right; by exists b, e].
  - intros [[-> ->]|(b & e & Hb & Hocc & Hk & Hv)].
    + exists t, (mkEntry k' (Some v') SOccupied). by rewrite list_lookup_insert_eq.
    + exists b, e. rewrite list_lookup_insert_ne; [done|]. intros ->. congruence.
Qed.

Lemma find_bucket_spec k ix b :
  wf_table (entries_ ix) →
  find_bucket k ix = Some b ↔
  ∃ e, entries_ ix !! b = Some e ∧ occ e = true ∧ e_key e = k.
Proof.
  intros Hwf. unfold find_bucket.
  pose proof (wt_pow2 _ Hwf) as Hp. pose proof (pow2_pos _ Hp) as Hpos.
  set (es := entries_ ix) in *. destruct es as [|x l] eqn:E; [simpl in Hpos; lia|].
  rewrite <- E in *. clear x l E.
  pose proof (bucket_of_lt k _ Hp) as Hlt. split.
  - rewrite <- (pos_0 (length es) (bucket_of k (length es))) by done.
    intros (j & _ & -> & [Ho Hk]%hit_true)%probe_Some; [|done].
    eexists. rewrite at_lookup by done. done.
  - intros (e & Hb & Ho & Hk).
    destruct (wt_reach _ Hwf b e Hb Ho) as (j & Hj & -> & Hbefore). rewrite Hk in *.
    rewrite <- (pos_0 (length es) (bucket_of k (length es))) at 1 by done.
    assert (at_ es (bucket_of k (length es)) j = e) as Hat.
    { rewrite at_lookup in Hb by done. by simplify_eq. }
    apply probe_found; [done|lia| |by rewrite hit_true, Hat].
    intros l Hl. split; [apply Hbefore; lia|].
    destruct (hit k _) eqn:Eh; [|done]. apply hit_true in Eh as [Ho' Hk'].
    assert (pos (length es) (bucket_of k (length es)) l =
            pos (length es) (bucket_of k (length es)) j) as Heq.
    { eapply (wt_uniq es Hwf); [apply at_lookup; done|done|done|done|congruence]. }
    exfalso. revert Heq. unfold pos.
    pose proof (bucket_of_lt k _ Hp). set (h := bucket_of k (length es)) in *.
    intros Heq.
    assert (∀ x, x < 2 * length es → (x mod length es) = if decide (x < length es) then x else x - length es) as Hmod.
    { intros x Hx. case_decide; [by apply Nat.mod_small|].
      replace x with (x - length es + 1 * length es) at 1 by lia.
      rewrite Nat.Div0.mod_add. apply Nat.mod_small. lia. }
    rewrite !Hmod in Heq by lia. repeat case_decide; lia.
Qed.

Lemma Find_stored k ix v :
  wf_table (entries_ ix) → Find k ix = Some v ↔ stored (entries_ ix) k v.
Proof.
  intros Hwf. unfold Find. rewrite bind_Some. split.
  - intros (b & Hb & Hv). apply find_bucket_spec in Hb as (e & He & Ho & Hk); [|done].
    exists b, e. by rewrite (list_lookup_total_correct _ _ _ He) in Hv.
  - intros (b & e & He & Ho & Hk & Hv). exists b.
    rewrite find_bucket_spec by done. rewrite (list_lookup_total_correct _ _ _ He). eauto.
Qed.

(** Lookups of two tables that store the same map agree. *)
Lemma Find_agree k ix k' ix' :
  wf_table (entries_ ix) → wf_table (entries_ ix') →
  (∀ v, stored (entries_ ix) k v ↔ stored (entries_ ix') k' v) →
  Find k ix = Find k' ix'.
Proof.
  intros H1 H2 H. destruct (Find k ix) as [v|] eqn:E.
  - symmetry. apply Find_stored; [done|]. apply H. by apply Find_stored.
  - destruct (Find k' ix') as [v|] eqn:E'; [|done].
    apply Find_stored, H, Find_stored in E'; [congruence|done..].
Qed.

End table.

(** ** Rehashing and growth *)

Section laws.
Local Open Scope nat_scope.
Implicit Types (es : list Entry) (k : BlockKey) (e : Entry) (ix : FlatKeyIndex).

Record index_wf_nonempty ix : Prop := {
  iw_table : wf_table (entries_ ix);
  iw_min : 16 <= length (entries_ ix);
  iw_size : size_ ix = cnt SOccupied (entries_ ix);
  iw_tombs : tombstones_ ix = cnt STombstone (entries_ ix);
  iw_load : size_ ix + tombstones_ ix <= length (entries_ ix) * 7 / 10;
}.

Definition index_wf ix : Prop :=
  (entries_ ix = [] ∧ size_ ix = 0 ∧ tombstones_ ix = 0) ∨ index_wf_nonempty ix.

Lemma load_lt cap n : 16 <= cap → n <= cap * 7 / 10 → n < cap.
Proof. intros ? Hn. pose proof (Nat.Div0.mul_div_le (cap * 7) 10). lia. Qed.

(** One bucket is never live while live and dead entries stay under the load
    bound, so both probe loops terminate on a hole. *)
Lemma hole_at st_bad es h :
  h < length es → cnt SOccupied es + st_bad < length es →
  (st_bad = 0 → ∃ j, j < length es ∧ occ (at_ es h j) = false) ∧
  (st_bad = cnt STombstone es → ∃ j, j < length es ∧ e_state (at_ es h j) = SEmpty).
Proof.
  intros Hh Hc. pose proof (cnt_le es) as Hsum. split; intros ->.
  - assert (∃ b e, es !! b = Some e ∧ occ e = false) as (b & e & Hb & He).
    { destruct (decide (0 < cnt SEmpty es)) as [H|H].
      - apply cnt_exists in H as (b & e & Hb & Hs). exists b, e. split; [done|].
        unfold occ. by rewrite Hs.
      - destruct (cnt_exists STombstone es ltac:(lia)) as (b & e & Hb & Hs).
        exists b, e. split; [done|]. unfold occ. by rewrite Hs. }
    apply lookup_lt_Some in Hb as Hlt.
    destruct (pos_onto (length es) h b) as (j & Hj & Hpos); [done..|].
    exists j. split; [done|]. unfold at_. by rewrite Hpos, (list_lookup_total_correct _ _ _ Hb).
  - destruct (cnt_exists SEmpty es ltac:(lia)) as (b & e & Hb & Hs).
    apply lookup_lt_Some in Hb as Hlt.
    destruct (pos_onto (length es) h b) as (j & Hj & Hpos); [done..|].
    exists j. split; [done|]. unfold at_. by rewrite Hpos, (list_lookup_total_correct _ _ _ Hb).
Qed.

(** Re-inserting one entry of the old table. *)
Lemma rehash_one_spec es old :
  wf_table es → cnt STombstone es = 0 → S (cnt SOccupied es) <= length es →
  (occ old = true → is_Some (e_value old) ∧ ∀ v, ¬ stored es (e_key old) v) →
  let es' := rehash_one es old in
  wf_table es' ∧ length es' = length es ∧ cnt STombstone es' = 0 ∧
  cnt SOccupied es' = cnt SOccupied es + (if occ old then 1 else 0) ∧
  (∀ k v, stored es' k v ↔ stored es k v ∨
            (occ old = true ∧ e_key old = k ∧ e_value old = Some v)).
Proof.
  intros Hwf Ht Hc Hold es'. unfold es', rehash_one.
  destruct (occ old) eqn:Ho.
  2:{ split_and!; [done..|lia|]. naive_solver. }
  destruct (Hold eq_refl) as [[v Hv] Hfresh].
  pose proof (wt_pow2 _ Hwf) as Hp.
  pose proof (bucket_of_lt (e_key old) _ Hp) as Hlt.
  destruct (hole_at 0 es (bucket_of (e_key old) (length es))) as [Hex _]; [done|lia|].
  destruct (Hex eq_refl) as (j & Hj & Hocc).
  destruct (rehash_slot_spec es Hp (bucket_of (e_key old) (length es)) (length es) 0 j)
    as (t & Htj & Hslot & Hfree & Hbefore); [lia|done|].
  rewrite (pos_0 (length es)) in Hslot by done. rewrite Hslot.
  set (b := pos (length es) _ t).
  assert (Hb : es !! b = Some (at_ es (bucket_of (e_key old) (length es)) t))
    by (apply at_lookup; lia).
  assert (Hold' : old = mkEntry (e_key old) (Some v) SOccupied).
  { destruct old; simpl in *. apply occ_true in Ho. simpl in Ho. by subst. }
  assert (Hst : e_state (at_ es (bucket_of (e_key old) (length es)) t) ≠ SOccupied).
  { intros Hs. apply occ_true in Hs. congruence. }
  assert (Hst' : e_state (at_ es (bucket_of (e_key old) (length es)) t) ≠ STombstone).
  { intros Hs. assert (0 < cnt STombstone es); [|lia]. unfold cnt.
    destruct (filter _ es) as [|x l] eqn:E; [|simpl; lia].
    assert (at_ es (bucket_of (e_key old) (length es)) t ∈ ([] : list Entry)) as Hin; [|by apply elem_of_nil in Hin].
    rewrite <- E. apply list_elem_of_filter. split; [done|]. by apply list_elem_of_lookup_2 in Hb. }
  split_and!.
  - eapply wf_table_set; [done|done|by apply occ_nonempty|]. intros _. split_and!.
    + eauto.
    + exists t. split_and!; [lia|done|]. intros i Hi. apply occ_nonempty, Hbefore. lia.
    + intros b' e' Hb' Ho' Hk'. destruct (wt_value _ Hwf _ _ Hb' Ho') as [w Hw].
      destruct (Hfresh w). by exists b', e'.
  - apply length_insert.
  - pose proof (cnt_insert STombstone es b _ old Hb) as Hci.
    rewrite (decide_False (P := _ = STombstone)) in Hci by done.
    apply occ_true in Ho. rewrite Ho in Hci. rewrite decide_False in Hci by done. lia.
  - pose proof (cnt_insert SOccupied es b _ old Hb) as Hci.
    rewrite (decide_False (P := _ = SOccupied)) in Hci by done.
    apply occ_true in Ho. rewrite Ho in Hci. rewrite decide_True in Hci by done. lia.
  - intros k v'. rewrite Hold'. simpl. erewrite stored_set by done. naive_solver.
Qed.


Definition uniq_keys (l : list Entry) : Prop :=
  ∀ b1 b2 e1 e2, l !! b1 = Some e1 → l !! b2 = Some e2 → occ e1 = true →
    occ e2 = true → e_key e1 = e_key e2 → b1 = b2.

Lemma rehash_all_spec (l es : list Entry) :
  wf_table es → cnt STombstone es = 0 → cnt SOccupied es + cnt SOccupied l < length es →
  uniq_keys l → (∀ e, e ∈ l → occ e = true → is_Some (e_value e)) →
  (∀ e v, e ∈ l → occ e = true → ¬ stored es (e_key e) v) →
  let es' := foldl rehash_one es l in
  wf_table es' ∧ length es' = length es ∧ cnt STombstone es' = 0 ∧
  cnt SOccupied es' = cnt SOccupied es + cnt SOccupied l ∧
  (∀ k v, stored es' k v ↔ stored es k v ∨ stored l k v).
Proof.
  revert es. induction l as [|x l IH]; intros es Hwf Ht Hc Hu Hv Hf; simpl.
  - split_and!; [done..| |].
    + unfold cnt at 3. simpl. lia.
    + intros k v. split; [by left|]. intros [?|(b & e & Hb & _)]; [done|]. done.
  - assert (Hcx : cnt SOccupied (x :: l) = (if occ x then 1 else 0) + cnt SOccupied l).
    { unfold cnt, occ. rewrite filter_cons. by case_bool_decide; case_decide. }
    destruct (rehash_one_spec es x) as (Hwf' & Hlen' & Ht' & Hc' & Hs'); [done|done| | |].
    { destruct (occ x); lia. }
    { intros Ho. split; [apply Hv; [by left|done]|]. intros v. apply Hf; [by left|done]. }
    destruct (IH (rehash_one es x)) as (Hwf'' & Hlen'' & Ht'' & Hc'' & Hs'');
      [done|done| | | | |].
    + rewrite Hc', Hlen'. lia.
    + intros b1 b2 e1 e2 H1 H2 O1 O2 Hk.
      assert (S b1 = S b2); [|lia]. by eapply (Hu (S b1) (S b2)).
    + intros e He. apply Hv. by right.
    + intros e v He Ho [Hst|(Ho' & Hk & _)]%Hs'.
      * eapply Hf; [by right|done|done].
      * apply list_elem_of_lookup in He as [b Hb].
        assert (S b = 0); [|lia]. by eapply (Hu (S b) 0).
    + split_and!; [done|lia|done|lia|]. intros k v. rewrite Hs'', Hs'. split.
      * intros [[?|(Ho & Hk & Hw)]|(b & e & Hb & He)]; [by left| |].
        -- right. by exists 0, x.
        -- right. by exists (S b), e.
      * intros [?|([|b] & e & Hb & Ho & Hk & Hw)]; [by left; left| |].
        -- simplify_eq/=. left. by right.
        -- right. by exists b, e.
Qed.

Lemma wf_table_replicate cap : pow2 cap →
  wf_table (replicate cap (mkEntry inhabitant None SEmpty)).
Proof.
  intros Hp. split.
  - by rewrite length_replicate.
  - intros b1 b2 e1 e2 [-> _]%lookup_replicate _ Ho. done.
  - intros b e [-> _]%lookup_replicate Ho. done.
  - intros b e [-> _]%lookup_replicate Ho. done.
Qed.

Lemma cnt_replicate st cap : st ≠ SEmpty →
  cnt st (replicate cap (mkEntry inhabitant None SEmpty)) = 0.
Proof.
  intros Hst. unfold cnt. induction cap as [|cap IH]; [done|].
  simpl replicate. rewrite filter_cons. rewrite decide_False by (simpl; congruence). done.
Qed.

Lemma pow2_double cap : pow2 cap → pow2 (cap * 2).
Proof. intros [p ->]. exists (S p). simpl. lia. Qed.

Lemma pow2_16 : pow2 16.
Proof. by exists 4. Qed.

Lemma grow_capacity_spec fuel cap requested :
  pow2 cap → requested <= cap + fuel →
  let c := grow_capacity fuel cap requested in pow2 c ∧ requested <= c ∧ cap <= c.
Proof.
  revert cap. induction fuel as [|fuel IH]; intros cap Hp Hr; simpl; [split_and!; auto; lia|].
  pose proof (pow2_pos _ Hp).
  destruct (Nat.ltb_spec cap requested); [|auto with lia].
  destruct (IH (cap * 2)) as (? & ? & ?); [by apply pow2_double|lia|]. split_and!; auto; lia.
Qed.

#[local] Arguments Nat.div : simpl never.
#[local] Arguments Nat.modulo : simpl never.

Lemma reserve_capacity_spec fuel cap expected :
  pow2 cap → 16 <= cap → expected <= cap * 7 / 10 + fuel →
  let c := reserve_capacity fuel cap expected in
  pow2 c ∧ expected <= c * 7 / 10 ∧ cap <= c.
Proof.
  revert cap. induction fuel as [|fuel IH]; intros cap Hp Hm Hr; simpl; [split_and!; auto; lia|].
  destruct (Nat.ltb_spec (cap * 7 / 10) expected); [|auto with lia].
  destruct (IH (cap * 2)) as (? & ? & ?); [by apply pow2_double|lia| |split_and!; auto; lia].
  assert (cap * 7 / 10 + 1 <= cap * 2 * 7 / 10); [|lia].
  replace (cap * 7 / 10 + 1) with ((cap * 7 + 1 * 10) / 10) by (by rewrite Nat.div_add by done).
  apply Nat.Div0.div_le_mono. lia.
Qed.

Lemma Rehash_spec cap ix :
  index_wf ix → pow2 cap → 16 <= cap → size_ ix < cap →
  wf_table (entries_ (Rehash cap ix)) ∧ length (entries_ (Rehash cap ix)) = cap ∧
  cnt STombstone (entries_ (Rehash cap ix)) = 0 ∧
  cnt SOccupied (entries_ (Rehash cap ix)) = size_ ix ∧
  (∀ k v, stored (entries_ (Rehash cap ix)) k v ↔ stored (entries_ ix) k v).
Proof.
  intros Hwf Hp Hm Hs. unfold Rehash. simpl.
  assert (Hcap : grow_capacity cap 16 cap = cap).
  { clear -Hp Hm. destruct Hp as [p ->].
    assert (∀ fuel q, q <= p → p <= q + fuel → grow_capacity fuel (2 ^ q) (2 ^ p) = 2 ^ p) as Hg.
    { induction fuel as [|fuel IH]; intros q Hq Hf; simpl.
      - by replace q with p by lia.
      - destruct (Nat.ltb_spec (2 ^ q) (2 ^ p)) as [Hlt|Hge].
        + replace (2 ^ q * 2) with (2 ^ S q) by (simpl; lia).
          apply Nat.pow_lt_mono_r_iff in Hlt; [|lia]. apply IH; lia.
        + destruct (decide (q = p)) as [->|]; [done|].
          assert (2 ^ q < 2 ^ p) by (apply Nat.pow_lt_mono_r; lia). lia. }
    change 16 with (2 ^ 4) in *. apply Hg.
    - apply (Nat.pow_le_mono_r_iff 2); lia.
    - pose proof (Nat.pow_gt_lin_r 2 p). lia. }
  rewrite Hcap.
  assert (Hcnt : cnt SOccupied (entries_ ix) = size_ ix).
  { destruct Hwf as [(-> & -> & _)|Hwf]; [done|]. symmetry. apply Hwf. }
  assert (uniq_keys (entries_ ix) ∧
    ∀ e, e ∈ entries_ ix → occ e = true → is_Some (e_value e)) as [Huk Hval].
  { destruct Hwf as [(-> & _ & _)|Hwf].
    - split; [intros ???? H; done|intros e H; by apply elem_of_nil in H].
    - split; [exact (wt_uniq _ (iw_table _ Hwf))|]. intros e [b Hb]%list_elem_of_lookup.
      by apply (wt_value _ (iw_table _ Hwf) b). }
  destruct (rehash_all_spec (entries_ ix) (replicate cap (mkEntry inhabitant None SEmpty)))
    as (H1 & H2 & H3 & H4 & H5).
  - by apply wf_table_replicate.
  - by apply cnt_replicate.
  - rewrite cnt_replicate by done. rewrite length_replicate. lia.
  - done.
  - done.
  - intros e v _ _ (b & e' & [-> _]%lookup_replicate & Ho & _). done.
  - rewrite length_replicate in H2. rewrite cnt_replicate in H4 by done.
    rewrite Hcnt in H4. split_and!; [done..|]. intros k v. rewrite H5. split; [|by right].
    intros [(b & e' & [-> _]%lookup_replicate & Ho & _)|?]; done.
Qed.

Lemma Reserve_spec n ix :
  index_wf ix → size_ ix <= n →
  index_wf_nonempty (Reserve n ix) ∧ size_ (Reserve n ix) = size_ ix ∧
  n + tombstones_ (Reserve n ix) <= length (entries_ (Reserve n ix)) * 7 / 10 ∧
  (∀ k v, stored (entries_ (Reserve n ix)) k v ↔ stored (entries_ ix) k v).
Proof.
  intros Hwf Hn. unfold Reserve.
  set (cap0 := if (length (entries_ ix) =? 0) then 16 else length (entries_ ix)).
  assert (pow2 cap0 ∧ 16 <= cap0) as [Hp0 Hm0].
  { unfold cap0. destruct Hwf as [(-> & _)|Hwf]; simpl; [split; [apply pow2_16|lia]|].
    pose proof (iw_min _ Hwf). destruct (Nat.eqb_spec (length (entries_ ix)) 0); [lia|].
    split; [apply Hwf|done]. }
  destruct (reserve_capacity_spec n cap0 n) as (Hp & Hcap & Hge); [done|done|lia|].
  set (cap := reserve_capacity n cap0 n) in *.
  assert (Hrehash : index_wf_nonempty (Rehash cap ix) ∧ size_ (Rehash cap ix) = size_ ix ∧
    n + tombstones_ (Rehash cap ix) <= length (entries_ (Rehash cap ix)) * 7 / 10 ∧
    (∀ k v, stored (entries_ (Rehash cap ix)) k v ↔ stored (entries_ ix) k v)).
  { destruct (Rehash_spec cap ix) as (H1 & H2 & H3 & H4 & H5); [done|done|lia| |].
    { apply load_lt; lia. }
    assert (tombstones_ (Rehash cap ix) = 0) by done.
    assert (size_ (Rehash cap ix) = size_ ix) by done.
    split_and!; [|done| |done]; [split|]; rewrite ?H2; try done; lia. }
  destruct (_ || _ || _) eqn:E; [done|].
  apply orb_false_iff in E as [E1 E3]. apply orb_false_iff in E1 as [E1 E2].
  apply Nat.eqb_neq in E1. apply negb_false_iff, Nat.eqb_eq in E2.
  destruct Hwf as [(Hnil & _)|Hwf]; [by rewrite Hnil in E1|].
  split_and!; [done|done| |done].
  apply andb_false_iff in E3 as [E3|E3].
  - apply negb_false_iff, Nat.eqb_eq in E3. rewrite E3, <- E2. lia.
  - apply orb_false_iff in E3 as [E3 _]. apply Nat.ltb_ge in E3. by rewrite E2 in E3.
Qed.

Lemma find_bucket_nil k ix : entries_ ix = [] → find_bucket k ix = None.
Proof. unfold find_bucket. by intros ->. Qed.

Lemma stored_nil k v : ¬ stored [] k v.
Proof. intros (b & e & Hb & _). done. Qed.

Lemma Find_stored_wf k ix v : index_wf ix → Find k ix = Some v ↔ stored (entries_ ix) k v.
Proof.
  intros [(Hnil & _)|Hwf]; [|apply Find_stored, Hwf].
  unfold Find. rewrite find_bucket_nil by done. rewrite Hnil. split; [done|].
  by intros ?%stored_nil.
Qed.

Lemma Find_None_wf k ix :
  index_wf ix → find_bucket k ix = None ↔ ∀ v, ¬ stored (entries_ ix) k v.
Proof.
  intros Hwf. split.
  - intros Hf v Hv. apply Find_stored_wf in Hv; [|done].
    unfold Find in Hv. by rewrite Hf in Hv.
  - intros Hs. destruct (find_bucket k ix) as [b|] eqn:E; [|done].
    destruct Hwf as [(Hnil & _)|Hwf]; [by rewrite find_bucket_nil in E|].
    apply find_bucket_spec in E as (e & He & Ho & Hk); [|apply Hwf].
    destruct (wt_value _ (iw_table _ Hwf) _ _ He Ho) as [v Hv].
    destruct (Hs v). by exists b, e.
Qed.

(** A fresh key: the table grows by one live entry. *)
Lemma Insert_fresh k v ix :
  index_wf ix → find_bucket k ix = None →
  (Insert k v ix).1 = true ∧ index_wf_nonempty (Insert k v ix).2 ∧
  size_ (Insert k v ix).2 = S (size_ ix) ∧
  ∀ k' v', stored (entries_ (Insert k v ix).2) k' v' ↔
           (k = k' ∧ v = v') ∨ stored (entries_ ix) k' v'.
Proof.
  intros Hwf Hf. unfold Insert. rewrite Hf.
  destruct (Reserve_spec (S (size_ ix)) ix) as (Hr & Hsz & Hload & Hst); [done|lia|].
  set (r := Reserve (S (size_ ix)) ix) in *. set (es := entries_ r) in *.
  pose proof (iw_table _ Hr) as Hwt. pose proof (wt_pow2 _ Hwt) as Hp. fold es in Hwt, Hp.
  pose proof (iw_min _ Hr) as Hmin. pose proof (iw_tombs _ Hr) as Htm.
  pose proof (iw_size _ Hr) as Hszc. fold es in Hmin, Htm, Hszc.
  assert (Hlt : S (size_ r) + tombstones_ r < length es) by (apply load_lt; lia).
  pose proof (bucket_of_lt k _ Hp) as Hh.
  destruct (hole_at (cnt STombstone es) es (bucket_of k (length es))) as [_ Hex]; [done|lia|].
  destruct (Hex eq_refl) as (j & Hj & Hje).
  destruct (insert_probe_spec es Hp (bucket_of k (length es)) (length es) 0 j None)
    as (t & Htj & Hins & Hfree & Hbefore); [lia|done|lia|done|].
  rewrite pos_0 in Hins by done. rewrite Hins. simpl.
  set (b := pos (length es) _ t) in *.
  pose proof (at_lookup es (bucket_of k (length es)) t ltac:(lia)) as Hb. fold b in Hb.
  set (e0 := at_ es _ t) in *. rewrite (list_lookup_total_correct _ _ _ Hb).
  assert (Hfresh : ∀ w, ¬ stored es k w).
  { intros w Hw. apply Hst in Hw. by eapply Find_None_wf in Hw. }
  pose proof (cnt_insert SOccupied es b e0 (mkEntry k (Some v) SOccupied) Hb) as Hco.
  pose proof (cnt_insert STombstone es b e0 (mkEntry k (Some v) SOccupied) Hb) as Hct.
  simpl in Hco, Hct.
  assert (e_state e0 ≠ SOccupied) as Hno by (rewrite <- occ_true; congruence).
  rewrite (decide_False (P := e_state e0 = SOccupied)) in Hco by done.
  split_and!; [done| |by rewrite Hsz|].
  - split; simpl; rewrite ?length_insert.
    + eapply wf_table_set; [done|done|done|]. intros _. split_and!; [done| |].
      * exists t. split_and!; [lia|done|]. intros i Hi. apply Hbefore. lia.
      * intros b' e' Hb' Ho' Hk'. destruct (wt_value _ Hwt _ _ Hb' Ho') as [w Hw].
        destruct (Hfresh w). by exists b', e'.
    + done.
    + lia.
    + case_bool_decide as Hd; [rewrite (decide_True (P := e_state e0 = STombstone)) in Hct by done
        |rewrite (decide_False (P := e_state e0 = STombstone)) in Hct by done]; lia.
    + case_bool_decide; lia.
  - intros k' v'. erewrite stored_set by done. by rewrite Hst.
Qed.

(** An existing key: only the stored value changes. *)
Lemma Insert_existing k v ix b :
  index_wf_nonempty ix → find_bucket k ix = Some b →
  (Insert k v ix).1 = false ∧ index_wf_nonempty (Insert k v ix).2 ∧
  size_ (Insert k v ix).2 = size_ ix ∧
  ∀ k' v', stored (entries_ (Insert k v ix).2) k' v' ↔
           (k = k' ∧ v = v') ∨ (k ≠ k' ∧ stored (entries_ ix) k' v').
Proof.
  intros Hwf Hf. unfold Insert. rewrite Hf. simpl. pose proof (iw_table _ Hwf) as Hwt.
  apply find_bucket_spec in Hf as (e & He & Ho & Hk); [|done].
  rewrite (list_lookup_total_correct _ _ _ He).
  apply occ_true in Ho as Hs. rewrite Hs, Hk.
  set (e' := mkEntry k (Some v) SOccupied).
  apply lookup_lt_Some in He as Hlt.
  pose proof (cnt_insert SOccupied _ b e e' He) as Hco.
  pose proof (cnt_insert STombstone _ b e e' He) as Hct.
  rewrite Hs in Hco, Hct. simpl in Hco, Hct.
  split_and!; [done| |done|].
  - split; simpl; rewrite ?length_insert; try apply Hwf.
    + eapply wf_table_set; [done|done|done|]. intros _. split_and!; [done| |].
      * simpl. rewrite <- Hk. by apply (wt_reach _ Hwt b).
      * intros b' e0 Hb' Ho' Hk'. eapply (wt_uniq _ Hwt); [done|done|done|done|].
        by rewrite Hk', Hk.
    + rewrite (iw_size _ Hwf). lia.
    + rewrite (iw_tombs _ Hwf). lia.
  - intros k' v'. split.
    + intros (b' & e0 & Hb' & Ho' & Hk' & Hv').
      apply list_lookup_insert_Some in Hb' as [(-> & <- & _)|(Hn & Hb')]; [left; simpl in *; naive_solver|].
      right. split; [|by exists b', e0]. intros ->. apply Hn.
      eapply (wt_uniq _ Hwt); [done|done|done|done|congruence].
    + intros [[-> ->]|(Hn & b' & e0 & Hb' & Ho' & Hk' & Hv')].
      * exists b, e'. by rewrite list_lookup_insert_eq.
      * exists b', e0. rewrite list_lookup_insert_ne; [done|]. intros ->. congruence.
Qed.

Lemma Erase_found k ix b :
  index_wf_nonempty ix → find_bucket k ix = Some b →
  index_wf_nonempty (Erase k ix).2 ∧ S (size_ (Erase k ix).2) = size_ ix ∧
  ∀ k' v', stored (entries_ (Erase k ix).2) k' v' ↔ k ≠ k' ∧ stored (entries_ ix) k' v'.
Proof.
  intros Hwf Hf. unfold Erase. rewrite Hf. simpl. pose proof (iw_table _ Hwf) as Hwt.
  apply find_bucket_spec in Hf as (e & He & Ho & Hk); [|done].
  rewrite (list_lookup_total_correct _ _ _ He).
  apply occ_true in Ho as Hs. set (e' := mkEntry (e_key e) None STombstone).
  apply lookup_lt_Some in He as Hlt.
  pose proof (cnt_insert SOccupied _ b e e' He) as Hco.
  pose proof (cnt_insert STombstone _ b e e' He) as Hct.
  rewrite Hs in Hco, Hct. simpl in Hco, Hct.
  pose proof (iw_size _ Hwf). pose proof (iw_tombs _ Hwf). pose proof (iw_load _ Hwf).
  split_and!; [|lia|].
  - split; simpl; rewrite ?length_insert; [|by apply Hwf|lia|lia|lia].
    by eapply wf_table_set.
  - intros k' v'. split.
    + intros (b' & e0 & Hb' & Ho' & Hk' & Hv').
      apply list_lookup_insert_Some in Hb' as [(-> & <- & _)|(Hn & Hb')]; [done|].
      split; [|by exists b', e0]. intros <-. apply Hn.
      eapply (wt_uniq _ Hwt); [done|done|done|done|congruence].
    + intros (Hn & b' & e0 & Hb' & Ho' & Hk' & Hv').
      exists b', e0. rewrite list_lookup_insert_ne; [done|]. intros ->. congruence.
Qed.

#[export] Instance flat_index_laws : KeyIndexLaws FlatKeyIndex.
Proof.
  refine {| ix_wf := index_wf |}; simpl.
  - by left.
  - done.
  - done.
  - intros k v ix Hwf. right. destruct (find_bucket k ix) as [b|] eqn:E.
    + destruct Hwf as [(Hnil & _)|Hwf]; [by rewrite find_bucket_nil in E|].
      by eapply Insert_existing.
    + by apply Insert_fresh.
  - intros k v ix Hwf. destruct (find_bucket k ix) as [b|] eqn:E.
    + destruct Hwf as [(Hnil & _)|Hwf]; [by rewrite find_bucket_nil in E|].
      destruct (Insert_existing k v ix b) as (-> & _); [done..|].
      symmetry. apply bool_decide_eq_false. unfold Find. rewrite E. simpl.
      apply find_bucket_spec in E as (e & He & Ho & Hk); [|apply Hwf].
      rewrite (list_lookup_total_correct _ _ _ He).
      destruct (wt_value _ (iw_table _ Hwf) _ _ He Ho) as [w ->]. done.
    + destruct (Insert_fresh k v ix) as (-> & _); [done..|].
      symmetry. apply bool_decide_eq_true. unfold Find. by rewrite E.
  - intros k k' v ix Hwf. destruct (find_bucket k ix) as [b|] eqn:E.
    + destruct Hwf as [(Hnil & _)|Hwf]; [by rewrite find_bucket_nil in E|].
      destruct (Insert_existing k v ix b) as (_ & Hwf' & _ & Hst); [done..|].
      case_decide as Hk.
      * apply Find_stored; [apply Hwf'|]. apply Hst. naive_solver.
      * apply Find_agree; [apply Hwf'|apply Hwf|]. intros w. rewrite Hst. naive_solver.
    + destruct (Insert_fresh k v ix) as (_ & Hwf' & _ & Hst); [done..|].
      case_decide as Hk.
      * apply Find_stored; [apply Hwf'|]. apply Hst. naive_solver.
      * destruct (Find k' ix) as [w|] eqn:Ek.
        -- apply Find_stored; [apply Hwf'|]. apply Hst. right. by apply Find_stored_wf.
        -- destruct (Find k' (Insert k v ix).2) as [w|] eqn:Ek'; [|done].
           apply Find_stored, Hst in Ek' as [[? _]|Ek']; [done| |apply Hwf'].
           apply Find_stored_wf in Ek'; [congruence|done].
  - intros k v ix Hwf Hf. apply Insert_fresh; [done|]. apply Find_None_wf; [done|].
    intros w Hw%Find_stored_wf; [congruence|done].
  - intros k ix Hwf. destruct (find_bucket k ix) as [b|] eqn:E.
    + destruct Hwf as [(Hnil & _)|Hwf]; [by rewrite find_bucket_nil in E|].
      right. by eapply Erase_found.
    + unfold Erase. by rewrite E.
  - intros k k' ix Hwf. destruct (find_bucket k ix) as [b|] eqn:E.
    + destruct Hwf as [(Hnil & _)|Hwf]; [by rewrite find_bucket_nil in E|].
      destruct (Erase_found k ix b) as (Hwf' & _ & Hst); [done..|].
      case_decide as Hk.
      * destruct (Find k' _) as [w|] eqn:Ek; [|done].
        apply Find_stored, Hst in Ek; [naive_solver|apply Hwf'].
      * apply Find_agree; [apply Hwf'|apply Hwf|]. intros w. rewrite Hst. naive_solver.
    + unfold Erase. rewrite E. simpl. case_decide as Hk; [|done]. subst.
      unfold Find. by rewrite E.
  - intros k ix Hwf [v Hf]. unfold Find in Hf. destruct (find_bucket k ix) as [b|] eqn:E; [|done].
    destruct Hwf as [(Hnil & _)|Hwf]; [by rewrite find_bucket_nil in E|].
    by eapply Erase_found.
  - intros n ix Hwf Hn. right. by apply Reserve_spec.
  - intros n k ix Hwf Hn. destruct (Reserve_spec n ix) as (Hwf' & _ & _ & Hst); [done..|].
    destruct (Find k ix) as [v|] eqn:Ek.
    + apply Find_stored; [apply Hwf'|]. apply Hst. by apply Find_stored_wf.
    + destruct (Find k (Reserve n ix)) as [v|] eqn:Ek'; [|done].
      apply Find_stored, Hst in Ek'; [|apply Hwf'].
      apply Find_stored_wf in Ek'; [congruence|done].
  - intros n ix Hwf Hn. by apply Reserve_spec.
Defined.

Lemma Erase_returns k ix :
  index_wf ix → (Erase k ix).1 = bool_decide (is_Some (Find k ix)).
Proof.
  intros Hwf. unfold Erase, Find. destruct (find_bucket k ix) as [b|] eqn:E; simpl.
  - destruct Hwf as [(Hnil & _)|Hwf]; [by rewrite find_bucket_nil in E|].
    symmetry. apply bool_decide_eq_true.
    apply find_bucket_spec in E as (e & He & Ho & _); [|apply Hwf].
    rewrite (list_lookup_total_correct _ _ _ He). by apply (wt_value _ (iw_table _ Hwf) b).
  - done.
Qed.
End laws.

(** ** Refinement: the table is a finite map *)

Inductive IndexOp :=
  | OpInsert (k : BlockKey) (v : nat)
  | OpErase (k : BlockKey)
  | OpReserve (extra : nat).

(** One call on the table, with the boolean it returns ([Reserve] returns
    nothing; the allocator always reserves room on top of the current size). *)
Definition index_step (op : IndexOp) (ix : FlatKeyIndex) : bool * FlatKeyIndex :=
  match op with
  | OpInsert k v => Insert k v ix
  | OpErase k => Erase k ix
  | OpReserve extra => (true, Reserve (size_ ix + extra) ix)
  end.

Definition map_step (op : IndexOp) (m : gmap BlockKey nat) : bool * gmap BlockKey nat :=
  match op with
  | OpInsert k v => (bool_decide (m !! k = None), <[k := v]> m)
  | OpErase k => (bool_decide (is_Some (m !! k)), delete k m)
  | OpReserve _ => (true, m)
  end.

Fixpoint run {S} (step : IndexOp → S → bool * S) (ops : list IndexOp) (s : S) :
    list bool * S :=
  match ops with
  | [] => ([], s)
  | op :: ops =>
      let '(b, s) := step op s in
      let '(bs, s) := run step ops s in (b :: bs, s)
  end.

(** The table [ix] represents the map [m]. *)
Definition represents (ix : FlatKeyIndex) (m : gmap BlockKey nat) : Prop :=
  index_wf ix ∧ (∀ k, Find k ix = m !! k) ∧ size_ ix = size m.

Lemma index_step_simulates op ix m :
  represents ix m →
  (index_step op ix).1 = (map_step op m).1 ∧
  represents (index_step op ix).2 (map_step op m).2.
Proof.
  intros (Hwf & Hf & Hs). destruct op as [k v|k|extra]; simpl.
  - split; [|split_and!].
    + rewrite <- Hf. exact (ix_insert_fresh k v ix Hwf).
    + exact (ix_insert_wf k v ix Hwf).
    + intros k'. rewrite lookup_insert, <- Hf. exact (ix_find_insert k k' v ix Hwf).
    + destruct (m !! k) as [w|] eqn:Ek.
      * rewrite map_size_insert_Some by eauto. rewrite <- Hs.
        rewrite <- Hf in Ek. unfold Find in Ek.
        destruct (find_bucket k ix) as [b|] eqn:E; [|done].
        destruct Hwf as [(Hnil & _)|Hwf]; [by rewrite find_bucket_nil in E|].
        by eapply Insert_existing.
      * rewrite map_size_insert_None by done. rewrite <- Hs.
        refine (ix_size_insert k v ix Hwf _). simpl. by rewrite Hf.
  - split; [|split_and!].
    + rewrite <- Hf. by apply Erase_returns.
    + exact (ix_erase_wf k ix Hwf).
    + intros k'. rewrite lookup_delete, <- Hf. exact (ix_find_erase k k' ix Hwf).
    + destruct (m !! k) as [w|] eqn:Ek.
      * assert (S (size_ (Erase k ix).2) = size_ ix).
        { refine (ix_size_erase k ix Hwf _). simpl. rewrite Hf, Ek. eauto. }
        rewrite map_size_delete_Some by eauto. lia.
      * rewrite map_size_delete_None by done. rewrite <- Hf in Ek. unfold Find in Ek.
        unfold Erase. destruct (find_bucket k ix) as [b|] eqn:E; [|done].
        destruct Hwf as [(Hnil & _)|Hwf]; [by rewrite find_bucket_nil in E|].
        apply find_bucket_spec in E as (e & He & Ho & _); [|apply Hwf].
        simpl in Ek. rewrite (list_lookup_total_correct _ _ _ He) in Ek.
        destruct (wt_value _ (iw_table _ Hwf) _ _ He Ho). congruence.
  - split; [done|]. assert (Hn : (size_ ix <= size_ ix + extra)%nat) by lia. split_and!.
    + exact (ix_reserve_wf (size_ ix + extra) ix Hwf Hn).
    + intros k. rewrite <- Hf. exact (ix_find_reserve (size_ ix + extra) k ix Hwf Hn).
    + rewrite <- Hs. exact (ix_size_reserve (size_ ix + extra) ix Hwf Hn).
Qed.

(** C10. Every sequence of [Insert], [Erase] and [Reserve] calls on an initially
    empty [FlatKeyIndex] returns exactly what the finite map returns, and
    afterwards [Find] answers every key as the map does and [size_] counts its
    entries: probing, tombstone reuse, growth and compaction lose no key. *)
Theorem index_refines_map (ops : list IndexOp) :
  let '(bs, ix) := run index_step ops empty_index in
  let '(bs', m) := run map_step ops ∅ in
  bs = bs' ∧ (∀ k, Find k ix = m !! k) ∧ size_ ix = size m.
Proof.
  assert (Hgen : ∀ ix m, represents ix m →
    (run index_step ops ix).1 = (run map_step ops m).1 ∧
    represents (run index_step ops ix).2 (run map_step ops m).2).
  { induction ops as [|op ops IH]; intros ix m Hr; simpl; [done|].
    destruct (index_step_simulates op ix m Hr) as [H1 H2].
    destruct (index_step op ix) as [b ix'], (map_step op m) as [b' m']; simpl in *.
    destruct (IH ix' m' H2) as [H3 H4].
    destruct (run index_step ops ix'), (run map_step ops m'); simpl in *. by subst. }
  destruct (Hgen empty_index ∅) as [H1 (_ & H2 & H3)].
  { split_and!; [by left|done|done]. }
  destruct (run index_step ops empty_index), (run map_step ops ∅); simpl in *. done.
Qed.
