(* ===== verification/SlabTypes.v ===== *)
(** * Slab allocator: data

    The structs of [SlabAllocator] (src/cache/slab_allocator.h) as records with
    their field updates.  Vector indices, extents and slots are [nat], an index
    that may be [kNoSlot] (resp. an extent class that may be [kUnbound]) is an
    [option nat], every other number is a [Z]. *)

From Stdlib Require Import SpecFloat.
From S2P Require Import Prelude KvTypes KeyIndex.

(** [SlabAllocator::SlotRef]: physical placement of a value. *)
Record SlotRef := mkSlotRef {
  r_cls : nat;
  r_extent : nat;
  r_slot : nat;
  r_slot_size : Z;
  r_offset : Z;
}.

#[export] Instance SlotRef_eq_dec : EqDecision SlotRef.
Proof. solve_decision. Defined.

(** [SlotRef::valid]. *)
Definition ref_valid (r : SlotRef) : bool := negb (r_slot_size r =? 0).

(** One intrusive doubly linked ring membership (a [*_prev]/[*_next] pair of
    [SlotMeta]); [kNoSlot] is [None]. *)
Record Link := mkLink {
  l_prev : option nat;
  l_next : option nat;
}.

(** [SlabAllocator::SlotMeta]; the six ring links are grouped by ring. *)
Record SlotMeta := mkSlotMeta {
  m_key : BlockKey;
  m_ref : SlotRef;
  m_useful_bytes : Z;
  m_global : Link;
  m_free_next : option nat;
  m_read_touches : Z;
  m_access_seq : Z;
  m_refs : Z;
  m_class : Link;
  m_extent : Link;
  m_retain_until : Z;
  m_retain_ttl_s : Z;
  m_retain_persisted_until : Z;
  m_referenced : bool;
  m_remove_pending : bool;
  m_live : bool;
}.

(** [SlabAllocator::Class]. *)
Record Class_ := mkClass {
  c_slot_size : Z;
  c_slots_per_extent : Z;
  c_free_by_ext : gmap nat (list nat);
  c_ext_rr : list nat;
  c_rr_next : nat;
  c_free_count : Z;
  c_resident_count : Z;
  c_bound_extents : Z;
  c_puts : Z;
  c_useful_bytes : Z;
  c_read_touches : Z;
  c_read_heat : Z;
  c_heat_seq : Z;
  c_ring_head : option nat;
  c_hand : option nat;
  c_protected_slots : Z;
}.

(** [SlabAllocator::ExtentMeta]; [kUnbound] is [None]. *)
Record ExtentMeta := mkExtentMeta {
  x_cls : option nat;
  x_free_slots : Z;
  x_total_slots : Z;
  x_pinned : Z;
  x_youngest_seq : Z;
  x_access_seq_sum : Z;
  x_useful_bytes : Z;
  x_read_heat : Z;
  x_heat_seq : Z;
  x_resident_head : option nat;
  x_resident_count : Z;
  x_protected_slots : Z;
}.

(** Default-constructed values ([T{}]). *)
Definition no_ref : SlotRef := mkSlotRef 0 0 0 0 0.
Definition no_link : Link := mkLink None None.
Definition new_slot_meta : SlotMeta :=
  mkSlotMeta (mkBlockKey 0 0 0) no_ref 0 no_link None 0 0 0 no_link no_link 0 0 0
    false false false.
Definition new_extent_meta : ExtentMeta := mkExtentMeta None 0 0 0 0 0 0 0 0 None 0 0.
Definition new_class : Class_ :=
  mkClass 0 0 ∅ [] 0 0 0 0 0 0 0 0 0 None None 0.

#[export] Instance SlotMeta_inhabited : Inhabited SlotMeta := populate new_slot_meta.
#[export] Instance ExtentMeta_inhabited : Inhabited ExtentMeta := populate new_extent_meta.
#[export] Instance Class_inhabited : Inhabited Class_ := populate new_class.

(** Outcomes of the allocator's operations. *)
Inductive RemoveResult := kRemoved | kDeferred | kRemoveNotFound.
Inductive ExtentBindResult := kBound | kUnavailable | kPersistenceError.
Inductive RetainMode := kSet | kRefresh.
Inductive RetainCode :=
  kMiss | kHitUnprotected | kProtectedNew | kRefreshed | kUpgraded | kUnchanged | kDenied.

#[export] Instance ExtentBindResult_eq_dec : EqDecision ExtentBindResult.
Proof. solve_decision. Defined.
#[export] Instance RetainCode_eq_dec : EqDecision RetainCode.
Proof. solve_decision. Defined.

(** [static_cast<size_t>(code)]. *)
Definition retain_code_index (c : RetainCode) : nat :=
  match c with
  | kMiss => 0 | kHitUnprotected => 1 | kProtectedNew => 2 | kRefreshed => 3
  | kUpgraded => 4 | kUnchanged => 5 | kDenied => 6
  end.

(** [SlabAllocator::RestoreEntry]. *)
Record RestoreEntry := mkRestoreEntry {
  re_key : BlockKey;
  re_slot_size : Z;
  re_extent : nat;
  re_slot : nat;
  re_value_bytes : Z;
  re_retain_until : Z;
  re_retain_ttl_s : Z;
}.

(** [SlabAllocator::RetainOptions]. *)
Record RetainOptions := mkRetainOptions {
  ro_enabled : bool;
  ro_budget_bytes : Z;
  ro_class_pct : Z;
  ro_max_ttl_s : Z;
  ro_persist_min_delta_s : Z;
}.

Record WheelEntry := mkWheelEntry { we_key : BlockKey; we_until : Z }.

(** One call of a persistence callback, with its answer. *)
Inductive CbEvent :=
  | EvBind (extent : nat) (ok : bool)
  | EvExtentEvict (extent : nat) (total_slots resident_slots : Z) (ok : bool)
  | EvSlotEvict (ref : SlotRef) (ok : bool).

(** [SlabAllocator::Options].  The three [std::function] callbacks belong to
    the medium that owns the allocator: each is optional and its answer may
    depend on everything the medium was told before. *)
Record Options := mkOptions {
  o_extent_bytes : Z;
  o_num_extents : nat;
  o_align : Z;
  o_max_waste : spec_float;
  o_on_extent_bind : option (list CbEvent → nat → bool);
  o_on_extent_evict : option (list CbEvent → nat → Z → Z → bool);
  o_on_slot_evict : option (list CbEvent → SlotRef → bool);
}.

(** The retention state of the allocator ("all under mu_"). *)
Record Retention := mkRetention {
  t_opt : RetainOptions;
  t_protected_bytes : Z;
  t_protected_slots : Z;
  t_expired : Z;
  t_evict_skipped : Z;
  t_results : list Z;
  t_wheel : list (list WheelEntry);
  t_wheel_entries : Z;
  t_wheel_tick : Z;
  t_now_s : Z;
}.

(** The monotone statistics counters. *)
Record Counters := mkCounters {
  n_evictions : Z;
  n_steals : Z;
  n_cold_steals : Z;
  n_watermark_evictions : Z;
  n_watermark_scan_steps : Z;
  n_extent_returns : Z;
}.

(** The allocator: [SlabAllocator]'s data members, and the log of persistence
    callbacks made so far (the history their answers may depend on). *)
Record SlabAllocator (IX : Type) := mkSlabAllocator {
  s_opt : Options;
  s_classes : list Class_;
  s_extents : list ExtentMeta;
  s_slots : list SlotMeta;
  s_free_slot_meta_head : option nat;
  s_global_ring_head : option nat;
  s_global_hand : option nat;
  s_index : IX;
  s_unbound : Z;
  s_used_bytes : Z;
  s_counters : Counters;
  s_put_seq : Z;
  s_activity_seq : Z;
  s_cold_window : Z;
  s_cold_steal_enabled : bool;
  s_retention : Retention;
  s_cb_log : list CbEvent;
}.

Arguments mkSlabAllocator {IX}.
Arguments s_opt {IX} _.
Arguments s_classes {IX} _.
Arguments s_extents {IX} _.
Arguments s_slots {IX} _.
Arguments s_free_slot_meta_head {IX} _.
Arguments s_global_ring_head {IX} _.
Arguments s_global_hand {IX} _.
Arguments s_index {IX} _.
Arguments s_unbound {IX} _.
Arguments s_used_bytes {IX} _.
Arguments s_counters {IX} _.
Arguments s_put_seq {IX} _.
Arguments s_activity_seq {IX} _.
Arguments s_cold_window {IX} _.
Arguments s_cold_steal_enabled {IX} _.
Arguments s_retention {IX} _.
Arguments s_cb_log {IX} _.

(** ** Field updates *)

Definition set_m_key (g : BlockKey → BlockKey) (m : SlotMeta) : SlotMeta :=
  mkSlotMeta (g (m_key m)) (m_ref m) (m_useful_bytes m) (m_global m) (m_free_next m) (m_read_touches m) (m_access_seq m) (m_refs m) (m_class m) (m_extent m) (m_retain_until m) (m_retain_ttl_s m) (m_retain_persisted_until m) (m_referenced m) (m_remove_pending m) (m_live m).
Definition set_m_ref (g : SlotRef → SlotRef) (m : SlotMeta) : SlotMeta :=
  mkSlotMeta (m_key m) (g (m_ref m)) (m_useful_bytes m) (m_global m) (m_free_next m) (m_read_touches m) (m_access_seq m) (m_refs m) (m_class m) (m_extent m) (m_retain_until m) (m_retain_ttl_s m) (m_retain_persisted_until m) (m_referenced m) (m_remove_pending m) (m_live m).
Definition set_m_useful_bytes (g : Z → Z) (m : SlotMeta) : SlotMeta :=
  mkSlotMeta (m_key m) (m_ref m) (g (m_useful_bytes m)) (m_global m) (m_free_next m) (m_read_touches m) (m_access_seq m) (m_refs m) (m_class m) (m_extent m) (m_retain_until m) (m_retain_ttl_s m) (m_retain_persisted_until m) (m_referenced m) (m_remove_pending m) (m_live m).
Definition set_m_global (g : Link → Link) (m : SlotMeta) : SlotMeta :=
  mkSlotMeta (m_key m) (m_ref m) (m_useful_bytes m) (g (m_global m)) (m_free_next m) (m_read_touches m) (m_access_seq m) (m_refs m) (m_class m) (m_extent m) (m_retain_until m) (m_retain_ttl_s m) (m_retain_persisted_until m) (m_referenced m) (m_remove_pending m) (m_live m).
Definition set_m_free_next (g : (option nat) → (option nat)) (m : SlotMeta) : SlotMeta :=
  mkSlotMeta (m_key m) (m_ref m) (m_useful_bytes m) (m_global m) (g (m_free_next m)) (m_read_touches m) (m_access_seq m) (m_refs m) (m_class m) (m_extent m) (m_retain_until m) (m_retain_ttl_s m) (m_retain_persisted_until m) (m_referenced m) (m_remove_pending m) (m_live m).
Definition set_m_read_touches (g : Z → Z) (m : SlotMeta) : SlotMeta :=
  mkSlotMeta (m_key m) (m_ref m) (m_useful_bytes m) (m_global m) (m_free_next m) (g (m_read_touches m)) (m_access_seq m) (m_refs m) (m_class m) (m_extent m) (m_retain_until m) (m_retain_ttl_s m) (m_retain_persisted_until m) (m_referenced m) (m_remove_pending m) (m_live m).
Definition set_m_access_seq (g : Z → Z) (m : SlotMeta) : SlotMeta :=
  mkSlotMeta (m_key m) (m_ref m) (m_useful_bytes m) (m_global m) (m_free_next m) (m_read_touches m) (g (m_access_seq m)) (m_refs m) (m_class m) (m_extent m) (m_retain_until m) (m_retain_ttl_s m) (m_retain_persisted_until m) (m_referenced m) (m_remove_pending m) (m_live m).
Definition set_m_refs (g : Z → Z) (m : SlotMeta) : SlotMeta :=
  mkSlotMeta (m_key m) (m_ref m) (m_useful_bytes m) (m_global m) (m_free_next m) (m_read_touches m) (m_access_seq m) (g (m_refs m)) (m_class m) (m_extent m) (m_retain_until m) (m_retain_ttl_s m) (m_retain_persisted_until m) (m_referenced m) (m_remove_pending m) (m_live m).
Definition set_m_class (g : Link → Link) (m : SlotMeta) : SlotMeta :=
  mkSlotMeta (m_key m) (m_ref m) (m_useful_bytes m) (m_global m) (m_free_next m) (m_read_touches m) (m_access_seq m) (m_refs m) (g (m_class m)) (m_extent m) (m_retain_until m) (m_retain_ttl_s m) (m_retain_persisted_until m) (m_referenced m) (m_remove_pending m) (m_live m).
Definition set_m_extent (g : Link → Link) (m : SlotMeta) : SlotMeta :=
  mkSlotMeta (m_key m) (m_ref m) (m_useful_bytes m) (m_global m) (m_free_next m) (m_read_touches m) (m_access_seq m) (m_refs m) (m_class m) (g (m_extent m)) (m_retain_until m) (m_retain_ttl_s m) (m_retain_persisted_until m) (m_referenced m) (m_remove_pending m) (m_live m).
Definition set_m_retain_until (g : Z → Z) (m : SlotMeta) : SlotMeta :=
  mkSlotMeta (m_key m) (m_ref m) (m_useful_bytes m) (m_global m) (m_free_next m) (m_read_touches m) (m_access_seq m) (m_refs m) (m_class m) (m_extent m) (g (m_retain_until m)) (m_retain_ttl_s m) (m_retain_persisted_until m) (m_referenced m) (m_remove_pending m) (m_live m).
Definition set_m_retain_ttl_s (g : Z → Z) (m : SlotMeta) : SlotMeta :=
  mkSlotMeta (m_key m) (m_ref m) (m_useful_bytes m) (m_global m) (m_free_next m) (m_read_touches m) (m_access_seq m) (m_refs m) (m_class m) (m_extent m) (m_retain_until m) (g (m_retain_ttl_s m)) (m_retain_persisted_until m) (m_referenced m) (m_remove_pending m) (m_live m).
Definition set_m_retain_persisted_until (g : Z → Z) (m : SlotMeta) : SlotMeta :=
  mkSlotMeta (m_key m) (m_ref m) (m_useful_bytes m) (m_global m) (m_free_next m) (m_read_touches m) (m_access_seq m) (m_refs m) (m_class m) (m_extent m) (m_retain_until m) (m_retain_ttl_s m) (g (m_retain_persisted_until m)) (m_referenced m) (m_remove_pending m) (m_live m).
Definition set_m_referenced (g : bool → bool) (m : SlotMeta) : SlotMeta :=
  mkSlotMeta (m_key m) (m_ref m) (m_useful_bytes m) (m_global m) (m_free_next m) (m_read_touches m) (m_access_seq m) (m_refs m) (m_class m) (m_extent m) (m_retain_until m) (m_retain_ttl_s m) (m_retain_persisted_until m) (g (m_referenced m)) (m_remove_pending m) (m_live m).
Definition set_m_remove_pending (g : bool → bool) (m : SlotMeta) : SlotMeta :=
  mkSlotMeta (m_key m) (m_ref m) (m_useful_bytes m) (m_global m) (m_free_next m) (m_read_touches m) (m_access_seq m) (m_refs m) (m_class m) (m_extent m) (m_retain_until m) (m_retain_ttl_s m) (m_retain_persisted_until m) (m_referenced m) (g (m_remove_pending m)) (m_live m).
Definition set_m_live (g : bool → bool) (m : SlotMeta) : SlotMeta :=
  mkSlotMeta (m_key m) (m_ref m) (m_useful_bytes m) (m_global m) (m_free_next m) (m_read_touches m) (m_access_seq m) (m_refs m) (m_class m) (m_extent m) (m_retain_until m) (m_retain_ttl_s m) (m_retain_persisted_until m) (m_referenced m) (m_remove_pending m) (g (m_live m)).

Definition set_c_slot_size (g : Z → Z) (c : Class_) : Class_ :=
  mkClass (g (c_slot_size c)) (c_slots_per_extent c) (c_free_by_ext c) (c_ext_rr c) (c_rr_next c) (c_free_count c) (c_resident_count c) (c_bound_extents c) (c_puts c) (c_useful_bytes c) (c_read_touches c) (c_read_heat c) (c_heat_seq c) (c_ring_head c) (c_hand c) (c_protected_slots c).
Definition set_c_slots_per_extent (g : Z → Z) (c : Class_) : Class_ :=
  mkClass (c_slot_size c) (g (c_slots_per_extent c)) (c_free_by_ext c) (c_ext_rr c) (c_rr_next c) (c_free_count c) (c_resident_count c) (c_bound_extents c) (c_puts c) (c_useful_bytes c) (c_read_touches c) (c_read_heat c) (c_heat_seq c) (c_ring_head c) (c_hand c) (c_protected_slots c).
Definition set_c_free_by_ext (g : (gmap nat (list nat)) → (gmap nat (list nat))) (c : Class_) : Class_ :=
  mkClass (c_slot_size c) (c_slots_per_extent c) (g (c_free_by_ext c)) (c_ext_rr c) (c_rr_next c) (c_free_count c) (c_resident_count c) (c_bound_extents c) (c_puts c) (c_useful_bytes c) (c_read_touches c) (c_read_heat c) (c_heat_seq c) (c_ring_head c) (c_hand c) (c_protected_slots c).
Definition set_c_ext_rr (g : (list nat) → (list nat)) (c : Class_) : Class_ :=
  mkClass (c_slot_size c) (c_slots_per_extent c) (c_free_by_ext c) (g (c_ext_rr c)) (c_rr_next c) (c_free_count c) (c_resident_count c) (c_bound_extents c) (c_puts c) (c_useful_bytes c) (c_read_touches c) (c_read_heat c) (c_heat_seq c) (c_ring_head c) (c_hand c) (c_protected_slots c).
Definition set_c_rr_next (g : nat → nat) (c : Class_) : Class_ :=
  mkClass (c_slot_size c) (c_slots_per_extent c) (c_free_by_ext c) (c_ext_rr c) (g (c_rr_next c)) (c_free_count c) (c_resident_count c) (c_bound_extents c) (c_puts c) (c_useful_bytes c) (c_read_touches c) (c_read_heat c) (c_heat_seq c) (c_ring_head c) (c_hand c) (c_protected_slots c).
Definition set_c_free_count (g : Z → Z) (c : Class_) : Class_ :=
  mkClass (c_slot_size c) (c_slots_per_extent c) (c_free_by_ext c) (c_ext_rr c) (c_rr_next c) (g (c_free_count c)) (c_resident_count c) (c_bound_extents c) (c_puts c) (c_useful_bytes c) (c_read_touches c) (c_read_heat c) (c_heat_seq c) (c_ring_head c) (c_hand c) (c_protected_slots c).
Definition set_c_resident_count (g : Z → Z) (c : Class_) : Class_ :=
  mkClass (c_slot_size c) (c_slots_per_extent c) (c_free_by_ext c) (c_ext_rr c) (c_rr_next c) (c_free_count c) (g (c_resident_count c)) (c_bound_extents c) (c_puts c) (c_useful_bytes c) (c_read_touches c) (c_read_heat c) (c_heat_seq c) (c_ring_head c) (c_hand c) (c_protected_slots c).
Definition set_c_bound_extents (g : Z → Z) (c : Class_) : Class_ :=
  mkClass (c_slot_size c) (c_slots_per_extent c) (c_free_by_ext c) (c_ext_rr c) (c_rr_next c) (c_free_count c) (c_resident_count c) (g (c_bound_extents c)) (c_puts c) (c_useful_bytes c) (c_read_touches c) (c_read_heat c) (c_heat_seq c) (c_ring_head c) (c_hand c) (c_protected_slots c).
Definition set_c_puts (g : Z → Z) (c : Class_) : Class_ :=
  mkClass (c_slot_size c) (c_slots_per_extent c) (c_free_by_ext c) (c_ext_rr c) (c_rr_next c) (c_free_count c) (c_resident_count c) (c_bound_extents c) (g (c_puts c)) (c_useful_bytes c) (c_read_touches c) (c_read_heat c) (c_heat_seq c) (c_ring_head c) (c_hand c) (c_protected_slots c).
Definition set_c_useful_bytes (g : Z → Z) (c : Class_) : Class_ :=
  mkClass (c_slot_size c) (c_slots_per_extent c) (c_free_by_ext c) (c_ext_rr c) (c_rr_next c) (c_free_count c) (c_resident_count c) (c_bound_extents c) (c_puts c) (g (c_useful_bytes c)) (c_read_touches c) (c_read_heat c) (c_heat_seq c) (c_ring_head c) (c_hand c) (c_protected_slots c).
Definition set_c_read_touches (g : Z → Z) (c : Class_) : Class_ :=
  mkClass (c_slot_size c) (c_slots_per_extent c) (c_free_by_ext c) (c_ext_rr c) (c_rr_next c) (c_free_count c) (c_resident_count c) (c_bound_extents c) (c_puts c) (c_useful_bytes c) (g (c_read_touches c)) (c_read_heat c) (c_heat_seq c) (c_ring_head c) (c_hand c) (c_protected_slots c).
Definition set_c_read_heat (g : Z → Z) (c : Class_) : Class_ :=
  mkClass (c_slot_size c) (c_slots_per_extent c) (c_free_by_ext c) (c_ext_rr c) (c_rr_next c) (c_free_count c) (c_resident_count c) (c_bound_extents c) (c_puts c) (c_useful_bytes c) (c_read_touches c) (g (c_read_heat c)) (c_heat_seq c) (c_ring_head c) (c_hand c) (c_protected_slots c).
Definition set_c_heat_seq (g : Z → Z) (c : Class_) : Class_ :=
  mkClass (c_slot_size c) (c_slots_per_extent c) (c_free_by_ext c) (c_ext_rr c) (c_rr_next c) (c_free_count c) (c_resident_count c) (c_bound_extents c) (c_puts c) (c_useful_bytes c) (c_read_touches c) (c_read_heat c) (g (c_heat_seq c)) (c_ring_head c) (c_hand c) (c_protected_slots c).
Definition set_c_ring_head (g : (option nat) → (option nat)) (c : Class_) : Class_ :=
  mkClass (c_slot_size c) (c_slots_per_extent c) (c_free_by_ext c) (c_ext_rr c) (c_rr_next c) (c_free_count c) (c_resident_count c) (c_bound_extents c) (c_puts c) (c_useful_bytes c) (c_read_touches c) (c_read_heat c) (c_heat_seq c) (g (c_ring_head c)) (c_hand c) (c_protected_slots c).
Definition set_c_hand (g : (option nat) → (option nat)) (c : Class_) : Class_ :=
  mkClass (c_slot_size c) (c_slots_per_extent c) (c_free_by_ext c) (c_ext_rr c) (c_rr_next c) (c_free_count c) (c_resident_count c) (c_bound_extents c) (c_puts c) (c_useful_bytes c) (c_read_touches c) (c_read_heat c) (c_heat_seq c) (c_ring_head c) (g (c_hand c)) (c_protected_slots c).
Definition set_c_protected_slots (g : Z → Z) (c : Class_) : Class_ :=
  mkClass (c_slot_size c) (c_slots_per_extent c) (c_free_by_ext c) (c_ext_rr c) (c_rr_next c) (c_free_count c) (c_resident_count c) (c_bound_extents c) (c_puts c) (c_useful_bytes c) (c_read_touches c) (c_read_heat c) (c_heat_seq c) (c_ring_head c) (c_hand c) (g (c_protected_slots c)).

Definition set_x_cls (g : (option nat) → (option nat)) (x : ExtentMeta) : ExtentMeta :=
  mkExtentMeta (g (x_cls x)) (x_free_slots x) (x_total_slots x) (x_pinned x) (x_youngest_seq x) (x_access_seq_sum x) (x_useful_bytes x) (x_read_heat x) (x_heat_seq x) (x_resident_head x) (x_resident_count x) (x_protected_slots x).
Definition set_x_free_slots (g : Z → Z) (x : ExtentMeta) : ExtentMeta :=
  mkExtentMeta (x_cls x) (g (x_free_slots x)) (x_total_slots x) (x_pinned x) (x_youngest_seq x) (x_access_seq_sum x) (x_useful_bytes x) (x_read_heat x) (x_heat_seq x) (x_resident_head x) (x_resident_count x) (x_protected_slots x).
Definition set_x_total_slots (g : Z → Z) (x : ExtentMeta) : ExtentMeta :=
  mkExtentMeta (x_cls x) (x_free_slots x) (g (x_total_slots x)) (x_pinned x) (x_youngest_seq x) (x_access_seq_sum x) (x_useful_bytes x) (x_read_heat x) (x_heat_seq x) (x_resident_head x) (x_resident_count x) (x_protected_slots x).
Definition set_x_pinned (g : Z → Z) (x : ExtentMeta) : ExtentMeta :=
  mkExtentMeta (x_cls x) (x_free_slots x) (x_total_slots x) (g (x_pinned x)) (x_youngest_seq x) (x_access_seq_sum x) (x_useful_bytes x) (x_read_heat x) (x_heat_seq x) (x_resident_head x) (x_resident_count x) (x_protected_slots x).
Definition set_x_youngest_seq (g : Z → Z) (x : ExtentMeta) : ExtentMeta :=
  mkExtentMeta (x_cls x) (x_free_slots x) (x_total_slots x) (x_pinned x) (g (x_youngest_seq x)) (x_access_seq_sum x) (x_useful_bytes x) (x_read_heat x) (x_heat_seq x) (x_resident_head x) (x_resident_count x) (x_protected_slots x).
Definition set_x_access_seq_sum (g : Z → Z) (x : ExtentMeta) : ExtentMeta :=
  mkExtentMeta (x_cls x) (x_free_slots x) (x_total_slots x) (x_pinned x) (x_youngest_seq x) (g (x_access_seq_sum x)) (x_useful_bytes x) (x_read_heat x) (x_heat_seq x) (x_resident_head x) (x_resident_count x) (x_protected_slots x).
Definition set_x_useful_bytes (g : Z → Z) (x : ExtentMeta) : ExtentMeta :=
  mkExtentMeta (x_cls x) (x_free_slots x) (x_total_slots x) (x_pinned x) (x_youngest_seq x) (x_access_seq_sum x) (g (x_useful_bytes x)) (x_read_heat x) (x_heat_seq x) (x_resident_head x) (x_resident_count x) (x_protected_slots x).
Definition set_x_read_heat (g : Z → Z) (x : ExtentMeta) : ExtentMeta :=
  mkExtentMeta (x_cls x) (x_free_slots x) (x_total_slots x) (x_pinned x) (x_youngest_seq x) (x_access_seq_sum x) (x_useful_bytes x) (g (x_read_heat x)) (x_heat_seq x) (x_resident_head x) (x_resident_count x) (x_protected_slots x).
Definition set_x_heat_seq (g : Z → Z) (x : ExtentMeta) : ExtentMeta :=
  mkExtentMeta (x_cls x) (x_free_slots x) (x_total_slots x) (x_pinned x) (x_youngest_seq x) (x_access_seq_sum x) (x_useful_bytes x) (x_read_heat x) (g (x_heat_seq x)) (x_resident_head x) (x_resident_count x) (x_protected_slots x).
Definition set_x_resident_head (g : (option nat) → (option nat)) (x : ExtentMeta) : ExtentMeta :=
  mkExtentMeta (x_cls x) (x_free_slots x) (x_total_slots x) (x_pinned x) (x_youngest_seq x) (x_access_seq_sum x) (x_useful_bytes x) (x_read_heat x) (x_heat_seq x) (g (x_resident_head x)) (x_resident_count x) (x_protected_slots x).
Definition set_x_resident_count (g : Z → Z) (x : ExtentMeta) : ExtentMeta :=
  mkExtentMeta (x_cls x) (x_free_slots x) (x_total_slots x) (x_pinned x) (x_youngest_seq x) (x_access_seq_sum x) (x_useful_bytes x) (x_read_heat x) (x_heat_seq x) (x_resident_head x) (g (x_resident_count x)) (x_protected_slots x).
Definition set_x_protected_slots (g : Z → Z) (x : ExtentMeta) : ExtentMeta :=
  mkExtentMeta (x_cls x) (x_free_slots x) (x_total_slots x) (x_pinned x) (x_youngest_seq x) (x_access_seq_sum x) (x_useful_bytes x) (x_read_heat x) (x_heat_seq x) (x_resident_head x) (x_resident_count x) (g (x_protected_slots x)).

Definition set_t_opt (g : RetainOptions → RetainOptions) (t : Retention) : Retention :=
  mkRetention (g (t_opt t)) (t_protected_bytes t) (t_protected_slots t) (t_expired t) (t_evict_skipped t) (t_results t) (t_wheel t) (t_wheel_entries t) (t_wheel_tick t) (t_now_s t).
Definition set_t_protected_bytes (g : Z → Z) (t : Retention) : Retention :=
  mkRetention (t_opt t) (g (t_protected_bytes t)) (t_protected_slots t) (t_expired t) (t_evict_skipped t) (t_results t) (t_wheel t) (t_wheel_entries t) (t_wheel_tick t) (t_now_s t).
Definition set_t_protected_slots (g : Z → Z) (t : Retention) : Retention :=
  mkRetention (t_opt t) (t_protected_bytes t) (g (t_protected_slots t)) (t_expired t) (t_evict_skipped t) (t_results t) (t_wheel t) (t_wheel_entries t) (t_wheel_tick t) (t_now_s t).
Definition set_t_expired (g : Z → Z) (t : Retention) : Retention :=
  mkRetention (t_opt t) (t_protected_bytes t) (t_protected_slots t) (g (t_expired t)) (t_evict_skipped t) (t_results t) (t_wheel t) (t_wheel_entries t) (t_wheel_tick t) (t_now_s t).
Definition set_t_evict_skipped (g : Z → Z) (t : Retention) : Retention :=
  mkRetention (t_opt t) (t_protected_bytes t) (t_protected_slots t) (t_expired t) (g (t_evict_skipped t)) (t_results t) (t_wheel t) (t_wheel_entries t) (t_wheel_tick t) (t_now_s t).
Definition set_t_results (g : (list Z) → (list Z)) (t : Retention) : Retention :=
  mkRetention (t_opt t) (t_protected_bytes t) (t_protected_slots t) (t_expired t) (t_evict_skipped t) (g (t_results t)) (t_wheel t) (t_wheel_entries t) (t_wheel_tick t) (t_now_s t).
Definition set_t_wheel (g : (list (list WheelEntry)) → (list (list WheelEntry))) (t : Retention) : Retention :=
  mkRetention (t_opt t) (t_protected_bytes t) (t_protected_slots t) (t_expired t) (t_evict_skipped t) (t_results t) (g (t_wheel t)) (t_wheel_entries t) (t_wheel_tick t) (t_now_s t).
Definition set_t_wheel_entries (g : Z → Z) (t : Retention) : Retention :=
  mkRetention (t_opt t) (t_protected_bytes t) (t_protected_slots t) (t_expired t) (t_evict_skipped t) (t_results t) (t_wheel t) (g (t_wheel_entries t)) (t_wheel_tick t) (t_now_s t).
Definition set_t_wheel_tick (g : Z → Z) (t : Retention) : Retention :=
  mkRetention (t_opt t) (t_protected_bytes t) (t_protected_slots t) (t_expired t) (t_evict_skipped t) (t_results t) (t_wheel t) (t_wheel_entries t) (g (t_wheel_tick t)) (t_now_s t).
Definition set_t_now_s (g : Z → Z) (t : Retention) : Retention :=
  mkRetention (t_opt t) (t_protected_bytes t) (t_protected_slots t) (t_expired t) (t_evict_skipped t) (t_results t) (t_wheel t) (t_wheel_entries t) (t_wheel_tick t) (g (t_now_s t)).

Definition set_n_evictions (g : Z → Z) (n : Counters) : Counters :=
  mkCounters (g (n_evictions n)) (n_steals n) (n_cold_steals n) (n_watermark_evictions n) (n_watermark_scan_steps n) (n_extent_returns n).
Definition set_n_steals (g : Z → Z) (n : Counters) : Counters :=
  mkCounters (n_evictions n) (g (n_steals n)) (n_cold_steals n) (n_watermark_evictions n) (n_watermark_scan_steps n) (n_extent_returns n).
Definition set_n_cold_steals (g : Z → Z) (n : Counters) : Counters :=
  mkCounters (n_evictions n) (n_steals n) (g (n_cold_steals n)) (n_watermark_evictions n) (n_watermark_scan_steps n) (n_extent_returns n).
Definition set_n_watermark_evictions (g : Z → Z) (n : Counters) : Counters :=
  mkCounters (n_evictions n) (n_steals n) (n_cold_steals n) (g (n_watermark_evictions n)) (n_watermark_scan_steps n) (n_extent_returns n).
Definition set_n_watermark_scan_steps (g : Z → Z) (n : Counters) : Counters :=
  mkCounters (n_evictions n) (n_steals n) (n_cold_steals n) (n_watermark_evictions n) (g (n_watermark_scan_steps n)) (n_extent_returns n).
Definition set_n_extent_returns (g : Z → Z) (n : Counters) : Counters :=
  mkCounters (n_evictions n) (n_steals n) (n_cold_steals n) (n_watermark_evictions n) (n_watermark_scan_steps n) (g (n_extent_returns n)).

Definition set_s_opt {IX} (g : Options → Options) (s : SlabAllocator IX) : SlabAllocator IX :=
  mkSlabAllocator (g (s_opt s)) (s_classes s) (s_extents s) (s_slots s) (s_free_slot_meta_head s) (s_global_ring_head s) (s_global_hand s) (s_index s) (s_unbound s) (s_used_bytes s) (s_counters s) (s_put_seq s) (s_activity_seq s) (s_cold_window s) (s_cold_steal_enabled s) (s_retention s) (s_cb_log s).
Definition set_s_classes {IX} (g : (list Class_) → (list Class_)) (s : SlabAllocator IX) : SlabAllocator IX :=
  mkSlabAllocator (s_opt s) (g (s_classes s)) (s_extents s) (s_slots s) (s_free_slot_meta_head s) (s_global_ring_head s) (s_global_hand s) (s_index s) (s_unbound s) (s_used_bytes s) (s_counters s) (s_put_seq s) (s_activity_seq s) (s_cold_window s) (s_cold_steal_enabled s) (s_retention s) (s_cb_log s).
Definition set_s_extents {IX} (g : (list ExtentMeta) → (list ExtentMeta)) (s : SlabAllocator IX) : SlabAllocator IX :=
  mkSlabAllocator (s_opt s) (s_classes s) (g (s_extents s)) (s_slots s) (s_free_slot_meta_head s) (s_global_ring_head s) (s_global_hand s) (s_index s) (s_unbound s) (s_used_bytes s) (s_counters s) (s_put_seq s) (s_activity_seq s) (s_cold_window s) (s_cold_steal_enabled s) (s_retention s) (s_cb_log s).
Definition set_s_slots {IX} (g : (list SlotMeta) → (list SlotMeta)) (s : SlabAllocator IX) : SlabAllocator IX :=
  mkSlabAllocator (s_opt s) (s_classes s) (s_extents s) (g (s_slots s)) (s_free_slot_meta_head s) (s_global_ring_head s) (s_global_hand s) (s_index s) (s_unbound s) (s_used_bytes s) (s_counters s) (s_put_seq s) (s_activity_seq s) (s_cold_window s) (s_cold_steal_enabled s) (s_retention s) (s_cb_log s).
Definition set_s_free_slot_meta_head {IX} (g : (option nat) → (option nat)) (s : SlabAllocator IX) : SlabAllocator IX :=
  mkSlabAllocator (s_opt s) (s_classes s) (s_extents s) (s_slots s) (g (s_free_slot_meta_head s)) (s_global_ring_head s) (s_global_hand s) (s_index s) (s_unbound s) (s_used_bytes s) (s_counters s) (s_put_seq s) (s_activity_seq s) (s_cold_window s) (s_cold_steal_enabled s) (s_retention s) (s_cb_log s).
Definition set_s_global_ring_head {IX} (g : (option nat) → (option nat)) (s : SlabAllocator IX) : SlabAllocator IX :=
  mkSlabAllocator (s_opt s) (s_classes s) (s_extents s) (s_slots s) (s_free_slot_meta_head s) (g (s_global_ring_head s)) (s_global_hand s) (s_index s) (s_unbound s) (s_used_bytes s) (s_counters s) (s_put_seq s) (s_activity_seq s) (s_cold_window s) (s_cold_steal_enabled s) (s_retention s) (s_cb_log s).
Definition set_s_global_hand {IX} (g : (option nat) → (option nat)) (s : SlabAllocator IX) : SlabAllocator IX :=
  mkSlabAllocator (s_opt s) (s_classes s) (s_extents s) (s_slots s) (s_free_slot_meta_head s) (s_global_ring_head s) (g (s_global_hand s)) (s_index s) (s_unbound s) (s_used_bytes s) (s_counters s) (s_put_seq s) (s_activity_seq s) (s_cold_window s) (s_cold_steal_enabled s) (s_retention s) (s_cb_log s).
Definition set_s_index {IX} (g : IX → IX) (s : SlabAllocator IX) : SlabAllocator IX :=
  mkSlabAllocator (s_opt s) (s_classes s) (s_extents s) (s_slots s) (s_free_slot_meta_head s) (s_global_ring_head s) (s_global_hand s) (g (s_index s)) (s_unbound s) (s_used_bytes s) (s_counters s) (s_put_seq s) (s_activity_seq s) (s_cold_window s) (s_cold_steal_enabled s) (s_retention s) (s_cb_log s).
Definition set_s_unbound {IX} (g : Z → Z) (s : SlabAllocator IX) : SlabAllocator IX :=
  mkSlabAllocator (s_opt s) (s_classes s) (s_extents s) (s_slots s) (s_free_slot_meta_head s) (s_global_ring_head s) (s_global_hand s) (s_index s) (g (s_unbound s)) (s_used_bytes s) (s_counters s) (s_put_seq s) (s_activity_seq s) (s_cold_window s) (s_cold_steal_enabled s) (s_retention s) (s_cb_log s).
Definition set_s_used_bytes {IX} (g : Z → Z) (s : SlabAllocator IX) : SlabAllocator IX :=
  mkSlabAllocator (s_opt s) (s_classes s) (s_extents s) (s_slots s) (s_free_slot_meta_head s) (s_global_ring_head s) (s_global_hand s) (s_index s) (s_unbound s) (g (s_used_bytes s)) (s_counters s) (s_put_seq s) (s_activity_seq s) (s_cold_window s) (s_cold_steal_enabled s) (s_retention s) (s_cb_log s).
Definition set_s_counters {IX} (g : Counters → Counters) (s : SlabAllocator IX) : SlabAllocator IX :=
  mkSlabAllocator (s_opt s) (s_classes s) (s_extents s) (s_slots s) (s_free_slot_meta_head s) (s_global_ring_head s) (s_global_hand s) (s_index s) (s_unbound s) (s_used_bytes s) (g (s_counters s)) (s_put_seq s) (s_activity_seq s) (s_cold_window s) (s_cold_steal_enabled s) (s_retention s) (s_cb_log s).
Definition set_s_put_seq {IX} (g : Z → Z) (s : SlabAllocator IX) : SlabAllocator IX :=
  mkSlabAllocator (s_opt s) (s_classes s) (s_extents s) (s_slots s) (s_free_slot_meta_head s) (s_global_ring_head s) (s_global_hand s) (s_index s) (s_unbound s) (s_used_bytes s) (s_counters s) (g (s_put_seq s)) (s_activity_seq s) (s_cold_window s) (s_cold_steal_enabled s) (s_retention s) (s_cb_log s).
Definition set_s_activity_seq {IX} (g : Z → Z) (s : SlabAllocator IX) : SlabAllocator IX :=
  mkSlabAllocator (s_opt s) (s_classes s) (s_extents s) (s_slots s) (s_free_slot_meta_head s) (s_global_ring_head s) (s_global_hand s) (s_index s) (s_unbound s) (s_used_bytes s) (s_counters s) (s_put_seq s) (g (s_activity_seq s)) (s_cold_window s) (s_cold_steal_enabled s) (s_retention s) (s_cb_log s).
Definition set_s_cold_window {IX} (g : Z → Z) (s : SlabAllocator IX) : SlabAllocator IX :=
  mkSlabAllocator (s_opt s) (s_classes s) (s_extents s) (s_slots s) (s_free_slot_meta_head s) (s_global_ring_head s) (s_global_hand s) (s_index s) (s_unbound s) (s_used_bytes s) (s_counters s) (s_put_seq s) (s_activity_seq s) (g (s_cold_window s)) (s_cold_steal_enabled s) (s_retention s) (s_cb_log s).
Definition set_s_cold_steal_enabled {IX} (g : bool → bool) (s : SlabAllocator IX) : SlabAllocator IX :=
  mkSlabAllocator (s_opt s) (s_classes s) (s_extents s) (s_slots s) (s_free_slot_meta_head s) (s_global_ring_head s) (s_global_hand s) (s_index s) (s_unbound s) (s_used_bytes s) (s_counters s) (s_put_seq s) (s_activity_seq s) (s_cold_window s) (g (s_cold_steal_enabled s)) (s_retention s) (s_cb_log s).
Definition set_s_retention {IX} (g : Retention → Retention) (s : SlabAllocator IX) : SlabAllocator IX :=
  mkSlabAllocator (s_opt s) (s_classes s) (s_extents s) (s_slots s) (s_free_slot_meta_head s) (s_global_ring_head s) (s_global_hand s) (s_index s) (s_unbound s) (s_used_bytes s) (s_counters s) (s_put_seq s) (s_activity_seq s) (s_cold_window s) (s_cold_steal_enabled s) (g (s_retention s)) (s_cb_log s).
Definition set_s_cb_log {IX} (g : (list CbEvent) → (list CbEvent)) (s : SlabAllocator IX) : SlabAllocator IX :=
  mkSlabAllocator (s_opt s) (s_classes s) (s_extents s) (s_slots s) (s_free_slot_meta_head s) (s_global_ring_head s) (s_global_hand s) (s_index s) (s_unbound s) (s_used_bytes s) (s_counters s) (s_put_seq s) (s_activity_seq s) (s_cold_window s) (s_cold_steal_enabled s) (s_retention s) (g (s_cb_log s)).
