(* ===== verification/SlabLattice.v ===== *)
(** * Slab allocator: the size-class lattice

    [AlignUp], [CanonicalSlotSize], [ClassForExactSize], [ClassForLen] and the
    constructor's class lattice (src/cache/slab_allocator.cc).  The [double]
    arithmetic of [max_waste] is IEEE binary64 on [spec_float]. *)

From Stdlib Require Import SpecFloat.
From S2P Require Import Prelude KvTypes KeyIndex SlabTypes.

(** ** IEEE binary64 *)

Definition f64_div := SFdiv 53 1024.
Definition f64_sub := SFsub 53 1024.
Definition f64_ltb := SFltb.
(** [static_cast<double>(uint64_t)] *)
Definition f64_of_Z (z : Z) : spec_float := binary_normalize 53 1024 z 0 false.
(** [static_cast<uint64_t>(double)], truncating. *)
Definition Z_of_f64 (f : spec_float) : Z :=
  match f with
  | S754_finite false m e => Z.shiftl (Zpos m) e
  | _ => 0
  end.

Definition f64_zero : spec_float := S754_zero false.
Definition f64_one : spec_float := S754_finite false 4503599627370496 (-52).
(** The literals [0.999999] and [0.25]. *)
Definition f64_0_999999 : spec_float := S754_finite false 9007190247541737 (-53).
Definition f64_0_25 : spec_float := S754_finite false 4503599627370496 (-54).

(** ** Definitions *)

Definition AlignUp (x a : Z) : Z :=
  if a <=? 1 then x
  else if UINT64_MAX - (a - 1) <? x then 0
  else ((x + (a - 1)) / a) * a.

(** The largest aligned slot size: one extent, within 32 bits. *)
Definition max_aligned (o : Options) : Z :=
  Z.min ((o_extent_bytes o / o_align o) * o_align o)
        ((UINT32_MAX / o_align o) * o_align o).

(** One iteration of [CanonicalSlotSize]'s loop: the bucket after [current]. *)
Definition next_bucket_size (o : Options) (current : Z) : Z :=
  let waste := if f64_ltb f64_0_999999 (o_max_waste o) then f64_0_999999
               else o_max_waste o in
  let minimum := current + o_align o in
  let candidate :=
    if f64_ltb f64_zero waste then
      let raw := f64_div (f64_of_Z minimum) (f64_sub f64_one waste) in
      let bounded := Z_of_f64 raw in
      let candidate := (bounded / o_align o) * o_align o in
      if candidate <? minimum then minimum else candidate
    else minimum in
  if max_aligned o <? candidate then max_aligned o else candidate.

Fixpoint canonical_loop (fuel : nat) (o : Options) (current aligned_len : Z) : Z :=
  match fuel with
  | O => u32 current
  | S fuel =>
      if current <? aligned_len then
        let candidate := next_bucket_size o current in
        if candidate <=? current then u32 aligned_len
        else canonical_loop fuel o candidate aligned_len
      else u32 current
  end.

Definition CanonicalSlotSize (o : Options) (aligned_len : Z) : Z :=
  canonical_loop (Z.to_nat (aligned_len / o_align o)) o (o_align o) aligned_len.

Definition class_of_size (o : Options) (slot_size : Z) : Class_ :=
  set_c_slots_per_extent (λ _, u32 (o_extent_bytes o / slot_size))
    (set_c_slot_size (λ _, u32 slot_size) new_class).

(** The constructor's loop over the lattice. *)
Fixpoint build_classes (fuel : nat) (o : Options) (slot_size : Z) : list Class_ :=
  match fuel with
  | O => []
  | S fuel =>
      if slot_size <=? max_aligned o then
        class_of_size o slot_size ::
        (if slot_size =? max_aligned o then []
         else
           let next := CanonicalSlotSize o (slot_size + o_align o) in
           if next <=? slot_size then [] else build_classes fuel o next)
      else []
  end.

Definition class_lattice (o : Options) : list Class_ :=
  build_classes (Z.to_nat (max_aligned o / o_align o)) o (o_align o).

(** [ClassForExactSize]: the index of the class, [length] when there is none. *)
Fixpoint class_for_exact_size (classes : list Class_) (slot_size : Z) : nat :=
  match classes with
  | [] => 0
  | c :: classes =>
      if c_slot_size c =? slot_size then 0
      else S (class_for_exact_size classes slot_size)
  end.

(** The constructor's normalisation of its options. *)
Definition normalize_options (o : Options) : Options :=
  mkOptions (o_extent_bytes o)
    (if (o_num_extents o =? 0)%nat then 1%nat else o_num_extents o)
    (if o_align o =? 0 then 1 else o_align o)
    (if f64_ltb (o_max_waste o) f64_zero then f64_zero else o_max_waste o)
    (o_on_extent_bind o) (o_on_extent_evict o) (o_on_slot_evict o).

Definition sample_options : Options :=
  mkOptions 65536 3 4096 f64_0_25 None None None.

Example sample_lattice :
  c_slot_size <$> class_lattice sample_options = [4096; 8192; 16384; 24576; 36864; 53248; 65536].
Proof. vm_compute. reflexivity. Qed.

(** ** Well-formed geometry *)

Record opts_ok (o : Options) : Prop := {
  oo_align : 1 <= o_align o <= UINT32_MAX;
  oo_extent : o_align o <= o_extent_bytes o < 2 ^ 64;
  oo_spe : o_extent_bytes o / o_align o < 2 ^ 32;
  oo_extents : (0 < o_num_extents o)%nat;
}.

Section lattice.
Context (o : Options) (Hok : opts_ok o).
Notation a := (o_align o).
Notation M := (max_aligned o).
Notation nb := (next_bucket_size o).

Lemma align_pos : 0 < a.
Proof. pose proof (oo_align _ Hok). lia. Qed.

Lemma max_aligned_spec : a <= M <= UINT32_MAX ∧ M <= o_extent_bytes o ∧ (a | M).
Proof.
  pose proof align_pos. pose proof (oo_align _ Hok). pose proof (oo_extent _ Hok).
  unfold max_aligned.
  pose proof (Z.mul_div_le (o_extent_bytes o) a). pose proof (Z.mul_div_le UINT32_MAX a).
  assert (1 <= o_extent_bytes o / a) by (apply Z.div_le_lower_bound; lia).
  assert (1 <= UINT32_MAX / a) by (apply Z.div_le_lower_bound; lia).
  split_and!; [nia|lia|nia|].
  destruct (Z.min_spec (o_extent_bytes o / a * a) (UINT32_MAX / a * a)) as [[_ ->]|[_ ->]];
    apply Z.divide_factor_r.
Qed.

(** Two multiples of the alignment are at least one alignment apart. *)
Lemma aligned_gap x y : (a | x) → (a | y) → x < y → x + a <= y.
Proof. pose proof align_pos. intros [p ->] [q ->] Hlt.
  apply Z.mul_lt_mono_pos_r in Hlt; [|done]. nia.
Qed.

Lemma next_bucket_size_spec c :
  (a | c) → c < M → c + a <= nb c <= M ∧ (a | nb c).
Proof.
  intros Hc HM. destruct max_aligned_spec as (? & ? & Hdiv).
  pose proof (aligned_gap c M Hc Hdiv HM). unfold next_bucket_size.
  set (cand := if f64_ltb f64_zero _ then _ else _).
  assert (c + a <= cand ∧ (a | cand)) as [? ?].
  { unfold cand. destruct (f64_ltb _ _); [|split; [lia|]; by apply Z.divide_add_r].
    destruct (_ <? c + a) eqn:E; breflect.
    - split; [lia|]. by apply Z.divide_add_r.
    - split; [lia|]. apply Z.divide_factor_r. }
  destruct (M <? cand) eqn:E; breflect; auto with lia.
Qed.

Lemma next_bucket_size_max c : M <= c → nb c <= c.
Proof.
  intros HM. pose proof align_pos. unfold next_bucket_size.
  set (cand := if f64_ltb f64_zero _ then _ else _).
  assert (c + a <= cand).
  { unfold cand. destruct (f64_ltb _ _); [|lia].
    destruct (_ <? c + a) eqn:E; breflect; lia. }
  destruct (M <? cand) eqn:E; breflect; lia.
Qed.

(** The buckets reachable from [c]. *)
Inductive chain (c : Z) : Z → Prop :=
  | chain_refl : chain c c
  | chain_next x : chain c x → x < M → chain c (nb x).

Lemma chain_aligned c x : (a | c) → chain c x → (a | x).
Proof. intros Hc. induction 1; [done|]. by apply next_bucket_size_spec. Qed.

Lemma chain_le c x : (a | c) → chain c x → c <= x.
Proof.
  pose proof align_pos. intros Hc Hx0. induction Hx0 as [|x Hx IH HM]; [lia|].
  pose proof (next_bucket_size_spec x (chain_aligned _ _ Hc Hx) HM). lia.
Qed.

Lemma chain_max c x : (a | c) → c <= M → chain c x → x <= M.
Proof.
  intros Hc HM H. destruct H as [|x Hx ?]; [done|].
  by apply next_bucket_size_spec; [eapply chain_aligned|].
Qed.

Lemma chain_inv c x : chain c x → x = c ∨ (c < M ∧ chain (nb c) x).
Proof.
  induction 1 as [|x Hx [->|[HM IH]] HMx]; [by left| |].
  - right. split; [done|]. constructor.
  - right. split; [done|]. by constructor.
Qed.

Lemma chain_total c x y : chain c x → chain c y → chain x y ∨ chain y x.
Proof.
  intros Hx Hy. induction Hx as [|x Hx [IH|IH] HM]; [by left| |].
  - apply chain_inv in IH as [->|[_ IH]]; [|by left]. right. constructor; [constructor|done].
  - right. by constructor.
Qed.

(** The loop returns the first bucket of the chain that holds the length. *)
Lemma canonical_loop_spec fuel c len :
  (a | c) → a <= c <= M → len <= M → len <= c + a * Z.of_nat fuel →
  let r := canonical_loop fuel o c len in
  chain c r ∧ len <= r ∧ ∀ x, chain c x → len <= x → r <= x.
Proof.
  destruct max_aligned_spec as (HaM & _ & HdM). pose proof align_pos.
  revert c. induction fuel as [|fuel IH]; intros c Hc HcM Hlen Hf; cbn [canonical_loop].
  - rewrite u32_id by (unfold is_u32, UINT32_MAX in *; lia).
    split_and!; [constructor|lia|]. intros x Hx _. by apply chain_le.
  - destruct (c <? len) eqn:E; breflect.
    + destruct (next_bucket_size_spec c Hc ltac:(lia)) as [Hnb Hdn].
      destruct (nb c <=? c) eqn:E2; breflect; [lia|].
      destruct (IH (nb c)) as (H1 & H2 & H3); [done|lia|done|lia|].
      split_and!; [|done|].
      * clear -H1 E Hlen. assert (c < M) by lia. clear E.
        induction H1; [constructor; [constructor|done]|by constructor].
      * intros x [->|[_ Hx]]%chain_inv Hle; [lia|by apply H3].
    + rewrite u32_id by (unfold is_u32, UINT32_MAX in *; lia).
      split_and!; [constructor|lia|]. intros x Hx _. by apply chain_le.
Qed.

Lemma CanonicalSlotSize_spec len :
  0 < len <= M →
  let r := CanonicalSlotSize o len in
  chain a r ∧ len <= r ∧ ∀ x, chain a x → len <= x → r <= x.
Proof.
  intros Hlen. destruct max_aligned_spec as (HaM & _ & HdM). pose proof align_pos.
  unfold CanonicalSlotSize. apply canonical_loop_spec; [done|lia|lia|].
  pose proof (Z.div_pos len a). rewrite Z2Nat.id by lia.
  pose proof (Z.mod_pos_bound len a). pose proof (Z.div_mod len a). lia.
Qed.

(** The largest bucket has no successor, so a longer value keeps its length. *)
Lemma next_bucket_max : nb M = M.
Proof.
  pose proof align_pos. unfold next_bucket_size. set (cand := if f64_ltb f64_zero _ then _ else _).
  assert (M + a <= cand).
  { unfold cand. destruct (f64_ltb _ _); [|lia]. destruct (_ <? M + a) eqn:E; breflect; lia. }
  destruct (M <? cand) eqn:E; breflect; lia.
Qed.

Lemma canonical_loop_over fuel c len :
  (a | c) → a <= c <= M → M < len → M < c + a * Z.of_nat fuel →
  canonical_loop fuel o c len = u32 len.
Proof.
  revert c. induction fuel as [|fuel IH]; intros c Hc HcM Hlen Hf; cbn [canonical_loop]; [lia|].
  destruct (c <? len) eqn:E; breflect; [|lia]. destruct (decide (c = M)) as [->|Hne].
  - rewrite next_bucket_max. by rewrite Z.leb_refl.
  - destruct (next_bucket_size_spec c Hc ltac:(lia)) as [Hnb Hdn].
    destruct (nb c <=? c) eqn:E2; breflect; [lia|]. apply IH; try done; lia.
Qed.

(** Asking for one alignment more than a bucket gives the next bucket. *)
Lemma canonical_next c : chain a c → c < M → CanonicalSlotSize o (c + a) = nb c.
Proof.
  intros Hc HM. pose proof align_pos. destruct max_aligned_spec as (HaM & _ & HdM).
  pose proof (chain_aligned _ _ (Z.divide_refl a) Hc) as Hdc.
  pose proof (next_bucket_size_spec c Hdc HM) as [Hnb Hdn].
  pose proof (chain_le _ _ (Z.divide_refl a) Hc).
  destruct (CanonicalSlotSize_spec (c + a)) as (H1 & H2 & H3); [lia|].
  assert (CanonicalSlotSize o (c + a) <= nb c) by (apply H3; [by constructor|lia]).
  destruct (chain_total _ _ _ Hc H1) as [Ht|Ht].
  - apply chain_inv in Ht as [Heq|[_ Ht]]; [lia|]. apply chain_le in Ht; [lia|done].
  - apply chain_le in Ht; [lia|]. apply (chain_aligned a); [apply Z.divide_refl|done].
Qed.

Lemma build_classes_spec fuel c :
  chain a c → c <= M → M <= c + a * Z.of_nat fuel - a →
  let cs := build_classes fuel o c in
  (∀ x, x ∈ c_slot_size <$> cs ↔ chain c x) ∧
  StronglySorted Z.lt (c_slot_size <$> cs) ∧
  Forall (λ cl, cl = class_of_size o (c_slot_size cl)) cs.
Proof.
  destruct max_aligned_spec as (HaM & _ & HdM). pose proof align_pos.
  revert c. induction fuel as [|fuel IH]; intros c Hc HcM Hf; cbn [build_classes]; [lia|].
  pose proof (chain_aligned _ _ (Z.divide_refl a) Hc) as Hdc.
  pose proof (chain_le _ _ (Z.divide_refl a) Hc).
  assert (Hcu : u32 c = c) by (apply u32_id; unfold is_u32, UINT32_MAX in *; lia).
  destruct (c <=? M) eqn:E; breflect; [|lia].
  assert (Hhead : c_slot_size (class_of_size o c) = c) by done.
  destruct (c =? M) eqn:E2; breflect.
  - simpl. rewrite Hcu. split_and!; [|apply SSorted_cons; [apply SSorted_nil|by apply Forall_nil]
      |apply Forall_singleton; simpl; by rewrite Hcu].
    intros x. rewrite list_elem_of_singleton. split; [intros ->; constructor|].
    intros [->|[? _]]%chain_inv; [done|lia].
  - rewrite canonical_next by (done || lia).
    pose proof (next_bucket_size_spec c Hdc ltac:(lia)) as [Hnb Hdn].
    destruct (nb c <=? c) eqn:E3; breflect; [lia|].
    destruct (IH (nb c)) as (H1 & H2 & H3); [constructor; [done|lia]|lia|lia|].
    simpl. rewrite Hcu. split_and!.
    + intros x. rewrite elem_of_cons, H1. split.
      * intros [->|Hx]; [constructor|]. clear -Hx Hnb E E2. assert (c < M) by lia.
        induction Hx; [constructor; [constructor|done]|by constructor].
      * intros [->|[_ ?]]%chain_inv; auto.
    + constructor; [done|]. apply Forall_forall. intros x Hx%H1.
      apply chain_le in Hx; [lia|done].
    + constructor; [by simpl; rewrite Hcu|done].
Qed.

Lemma class_lattice_spec :
  (∀ x, x ∈ c_slot_size <$> class_lattice o ↔ chain a x) ∧
  StronglySorted Z.lt (c_slot_size <$> class_lattice o) ∧
  Forall (λ cl, cl = class_of_size o (c_slot_size cl)) (class_lattice o).
Proof.
  destruct max_aligned_spec as (HaM & _ & [q HdM]). pose proof align_pos.
  unfold class_lattice. apply build_classes_spec; [constructor|lia|].
  rewrite HdM, Z.div_mul by lia. rewrite Z2Nat.id by nia. lia.
Qed.

(** Geometry of one class of the lattice. *)
Lemma class_lattice_geometry i cl :
  class_lattice o !! i = Some cl →
  0 < c_slot_size cl <= M ∧ c_slots_per_extent cl = o_extent_bytes o / c_slot_size cl ∧
  0 < c_slots_per_extent cl < 2 ^ 32 ∧
  c_slots_per_extent cl * c_slot_size cl <= o_extent_bytes o.
Proof.
  intros Hi. destruct class_lattice_spec as (H1 & _ & H3).
  pose proof align_pos. destruct max_aligned_spec as (HaM & HME & HdM).
  assert (Hch : chain a (c_slot_size cl)).
  { apply H1. apply list_elem_of_fmap. exists cl. split; [done|]. by eapply list_elem_of_lookup_2. }
  pose proof (chain_le _ _ (Z.divide_refl a) Hch).
  pose proof (chain_max _ _ (Z.divide_refl a) ltac:(lia) Hch).
  assert (Hcl : cl = class_of_size o (c_slot_size cl)).
  { rewrite Forall_lookup in H3. by eapply H3. }
  assert (Hspe : c_slots_per_extent cl = o_extent_bytes o / c_slot_size cl).
  { rewrite Hcl at 1. simpl. apply u32_id. pose proof (oo_spe _ Hok).
    split; [apply Z.div_pos; lia|]. eapply Z.le_lt_trans; [|done].
    apply Z.div_le_compat_l; lia. }
  split_and!; [lia|lia|done| | |].
  - rewrite Hspe. apply Z.div_str_pos. lia.
  - rewrite Hspe. eapply Z.le_lt_trans; [|exact (oo_spe _ Hok)]. apply Z.div_le_compat_l; lia.
  - rewrite Hspe, Z.mul_comm. apply Z.mul_div_le. lia.
Qed.

End lattice.

(** [ClassForExactSize] finds the class of that size, if there is one. *)
Lemma class_for_exact_size_found cs size :
  size ∈ c_slot_size <$> cs →
  ∃ cl, cs !! class_for_exact_size cs size = Some cl ∧ c_slot_size cl = size.
Proof.
  induction cs as [|c cs IH]; simpl; [by intros ?%elem_of_nil|].
  destruct (c_slot_size c =? size) eqn:E; breflect; [by exists c|].
  intros [->|Hin]%elem_of_cons; [done|]. by apply IH.
Qed.

Lemma class_for_exact_size_lookup cs size i :
  class_for_exact_size cs size = i → (i < length cs)%nat →
  ∃ cl, cs !! i = Some cl ∧ c_slot_size cl = size.
Proof.
  intros <-. induction cs as [|c cs IH]; simpl; [lia|].
  destruct (c_slot_size c =? size) eqn:E; breflect; [by exists c|].
  intros. apply IH. lia.
Qed.

Lemma class_for_exact_size_le cs size :
  (class_for_exact_size cs size <= length cs)%nat.
Proof. induction cs as [|c cs IH]; simpl; [lia|]. destruct (_ =? _); lia. Qed.

Lemma class_for_exact_size_first cs size i cl :
  cs !! i = Some cl → c_slot_size cl = size → (class_for_exact_size cs size <= i)%nat.
Proof.
  revert i. induction cs as [|c cs IH]; intros [|i] Hi Hs; simplify_eq/=.
  - by rewrite Z.eqb_refl.
  - destruct (_ =? _); [lia|]. specialize (IH i Hi eq_refl). lia.
Qed.

(** Only the slot sizes matter. *)
Lemma class_for_exact_size_ext cs cs' size :
  c_slot_size <$> cs = c_slot_size <$> cs' →
  class_for_exact_size cs size = class_for_exact_size cs' size.
Proof.
  revert cs'. induction cs as [|c cs IH]; intros [|c' cs'] H; simplify_eq/=; [done|].
  rewrite H. destruct (_ =? _); [done|]. f_equal. by apply IH.
Qed.

Lemma AlignUp_spec x al :
  1 <= al → 0 <= x <= UINT64_MAX - (al - 1) → x <= AlignUp x al < x + al ∧ (al | AlignUp x al).
Proof.
  intros Ha Hx. unfold AlignUp. destruct (al <=? 1) eqn:E; breflect.
  - split; [lia|]. replace al with 1 by lia. apply Z.divide_1_l.
  - destruct (UINT64_MAX - (al - 1) <? x) eqn:E2; breflect; [lia|].
    split; [|apply Z.divide_factor_r].
    pose proof (Z.div_mod (x + (al - 1)) al). pose proof (Z.mod_pos_bound (x + (al - 1)) al). lia.
Qed.

(** The class of a length that fits. *)
Lemma fitting_class o len :
  opts_ok o → 0 < len <= max_aligned o →
  let al := AlignUp len (o_align o) in
  len <= al < len + o_align o ∧ al <= max_aligned o ∧ (o_align o | al) ∧
  ∃ cl, class_lattice o !! class_for_exact_size (class_lattice o) (CanonicalSlotSize o al) = Some cl ∧
    c_slot_size cl = CanonicalSlotSize o al ∧ al <= c_slot_size cl.
Proof.
  intros Hok Hlen al. pose proof (align_pos o Hok). pose proof (oo_align _ Hok).
  destruct (max_aligned_spec o Hok) as (HaM & HME & HdM).
  destruct (AlignUp_spec len (o_align o)) as [Hal Hdal].
  { lia. } { unfold UINT64_MAX, UINT32_MAX in *. lia. }
  assert (HalM : al <= max_aligned o).
  { destruct (Z.le_gt_cases al (max_aligned o)) as [|Hgt]; [done|].
    pose proof (aligned_gap o Hok _ _ HdM Hdal Hgt). lia. }
  destruct (CanonicalSlotSize_spec o Hok al) as (H1 & H2 & H3); [lia|].
  destruct (class_lattice_spec o Hok) as (Hch & _ & _).
  destruct (class_for_exact_size_found (class_lattice o) (CanonicalSlotSize o al))
    as (cl & Hcl & Hsz); [by apply Hch|].
  split; [lia|]. split; [done|]. split; [done|]. exists cl. split_and!; [done|done|lia].
Qed.

(** A longer one has no class, even where the extent would hold it: its 32-bit
    slot size is below the alignment. *)
Lemma oversize_class o len :
  opts_ok o → max_aligned o < len <= UINT32_MAX → AlignUp len (o_align o) <= o_extent_bytes o →
  class_for_exact_size (class_lattice o) (CanonicalSlotSize o (AlignUp len (o_align o))) =
    length (class_lattice o).
Proof.
  intros Hok Hlen HE. pose proof (align_pos o Hok). pose proof (oo_align _ Hok).
  destruct (max_aligned_spec o Hok) as (HaM & HME & HdM).
  destruct (AlignUp_spec len (o_align o)) as [Hal Hdal].
  { lia. } { unfold UINT64_MAX, UINT32_MAX in *. lia. }
  set (al := AlignUp len (o_align o)) in *. set (sz := CanonicalSlotSize o al).
  assert (Hover : UINT32_MAX < al).
  { destruct Hdal as [q Hq]. unfold max_aligned in Hlen.
    pose proof (Z.div_le_lower_bound (o_extent_bytes o) (o_align o) q).
    pose proof (Z.div_le_lower_bound UINT32_MAX (o_align o) q). nia. }
  assert (Hsz : sz = u32 al).
  { unfold sz, CanonicalSlotSize. apply canonical_loop_over; [done|apply Z.divide_refl|lia|lia|].
    destruct Hdal as [q Hq]. rewrite Hq, Z.div_mul, Z2Nat.id by nia. nia. }
  assert (Hu : u32 al = al - 2 ^ 32).
  { unfold u32. symmetry. apply (Z.mod_unique _ _ 1); unfold UINT32_MAX in *; lia. }
  pose proof (class_for_exact_size_le (class_lattice o) sz).
  destruct (decide (class_for_exact_size (class_lattice o) sz = length (class_lattice o))); [done|].
  destruct (class_for_exact_size_lookup (class_lattice o) sz _ eq_refl) as (cl & Hcl & Hs); [lia|].
  assert (chain o (o_align o) (c_slot_size cl)) as Hc'.
  { apply (class_lattice_spec o Hok), list_elem_of_fmap. exists cl. split; [done|].
    by eapply list_elem_of_lookup_2. }
  pose proof (chain_le o Hok _ _ (Z.divide_refl _) Hc'). unfold UINT32_MAX in *. lia.
Qed.

(** The size class chosen for a value: every length that fits one extent and
    32 bits gets an existing class; its slot holds the value, at least one slot
    fits an extent and all slots of an extent fit its bytes, and no smaller
    class would do (so the choice depends on the geometry alone, never on the
    order of requests). *)
Theorem class_for_len_best_fit o len :
  opts_ok o → 0 < len <= max_aligned o →
  let c := class_for_exact_size (class_lattice o)
             (CanonicalSlotSize o (AlignUp len (o_align o))) in
  ∃ cl, class_lattice o !! c = Some cl ∧ len <= c_slot_size cl <= o_extent_bytes o ∧
    1 <= c_slots_per_extent cl ∧
    c_slots_per_extent cl * c_slot_size cl <= o_extent_bytes o ∧
    ∀ j cl', class_lattice o !! j = Some cl' → len <= c_slot_size cl' → (c <= j)%nat.
Proof.
  intros Hok Hlen c. pose proof (align_pos o Hok). pose proof (max_aligned_spec o Hok).
  destruct (fitting_class o len Hok Hlen) as (Hal & HalM & Hdal & cl & Hcl & Hsz & Hfit). fold c in Hcl.
  set (al := AlignUp len (o_align o)) in *.
  destruct (CanonicalSlotSize_spec o Hok al) as (_ & _ & H3); [lia|].
  destruct (class_lattice_spec o Hok) as (Hch & Hsort & _). exists cl.
  destruct (class_lattice_geometry o Hok c cl Hcl) as (Hg1 & Hg2 & Hg3 & Hg4).
  split_and!; [done|lia|lia|lia|done|].
  intros j cl' Hj Hle. destruct (decide (c <= j)%nat) as [|Hlt]; [done|exfalso].
  assert (c_slot_size cl' < c_slot_size cl).
  { eapply (StronglySorted_lookup_lt _ _ j c _ _ Hsort); [lia| |];
      rewrite list_lookup_fmap; [by rewrite Hj|by rewrite Hcl]. }
  assert (chain o (o_align o) (c_slot_size cl')) as Hc'.
  { apply Hch, list_elem_of_fmap. exists cl'. split; [done|]. by eapply list_elem_of_lookup_2. }
  destruct (Z.le_gt_cases al (c_slot_size cl')) as [Hge|Hgt].
  - specialize (H3 _ Hc' Hge). lia.
  - pose proof (chain_aligned o Hok _ _ (Z.divide_refl _) Hc') as Hd'.
    pose proof (aligned_gap o Hok _ _ Hd' Hdal Hgt). lia.
Qed.

Lemma class_for_len_best_fit_witness :
  opts_ok sample_options ∧ 0 < 20000 <= max_aligned sample_options ∧
  ∃ cl, class_lattice sample_options !! 3%nat = Some cl ∧
    20000 <= c_slot_size cl <= o_extent_bytes sample_options.
Proof.
  assert (Hok : opts_ok sample_options) by (split; vm_compute; done || lia).
  assert (Hlen : 0 < 20000 <= max_aligned sample_options) by (vm_compute; done).
  split; [done|]. split; [done|].
  destruct (class_for_len_best_fit sample_options 20000 Hok Hlen) as (cl & H1 & H2 & _).
  exists cl. split; [exact H1|done].
Defined.
