(* ===== verification/SlabRing.v ===== *)
(** * Slab allocator: intrusive rings

    Each resident [SlotMeta] is a member of three doubly linked lists whose
    links are indices into the dense slot table: its class ring, the global
    ring and its extent's resident list.  This file models the link surgery of
    [LinkBeforeHandLocked], [LinkBeforeGlobalHandLocked], [LinkResidentLocked],
    [TouchLocked] and [FreeSlotLocked] once for all rings, and relates the links to the list
    of indices they encode. *)

From S2P Require Import Prelude KvTypes SlabTypes.

Inductive Ring := RClass | RGlobal | RExtent.

#[export] Instance Ring_eq_dec : EqDecision Ring.
Proof. solve_decision. Defined.

Definition get_link (r : Ring) (m : SlotMeta) : Link :=
  match r with RClass => m_class m | RGlobal => m_global m | RExtent => m_extent m end.

Definition set_link (r : Ring) (g : Link → Link) (m : SlotMeta) : SlotMeta :=
  match r with
  | RClass => set_m_class g m | RGlobal => set_m_global g m | RExtent => set_m_extent g m
  end.

Definition set_prev (p : option nat) (l : Link) : Link := mkLink p (l_next l).
Definition set_next (n : option nat) (l : Link) : Link := mkLink (l_prev l) n.

(** ** Link surgery *)

(** Insert [i] just behind the hand ([head], [hand] are the ring's anchors). *)
Definition link_before (r : Ring) (i : nat) (slots : list SlotMeta)
    (head hand : option nat) : list SlotMeta * option nat * option nat :=
  match hand with
  | None => (slots, Some i, Some i)
  | Some h =>
      let slots := alter (set_link r (set_next (Some h))) i slots in
      let prev := l_prev (get_link r (slots !!! h)) in
      let slots := alter (set_link r (set_prev prev)) i slots in
      match prev with
      | Some p =>
          let slots := alter (set_link r (set_next (Some i))) p slots in
          (alter (set_link r (set_prev (Some i))) h slots, head, hand)
      | None =>
          (alter (set_link r (set_prev (Some i))) h slots, Some i, hand)
      end
  end.

(** Remove [i]; returns the new head. *)
Definition unlink (r : Ring) (i : nat) (slots : list SlotMeta) (head : option nat) :
    list SlotMeta * option nat :=
  let '(mkLink prev next) := get_link r (slots !!! i) in
  let '(slots, head) :=
    match prev with
    | Some p => (alter (set_link r (set_next next)) p slots, head)
    | None => (slots, next)
    end in
  match next with
  | Some n => (alter (set_link r (set_prev prev)) n slots, head)
  | None => (slots, head)
  end.

(** Push [i] in front of an extent's resident list. *)
Definition push_front (r : Ring) (i : nat) (slots : list SlotMeta) (head : option nat) :
    list SlotMeta * option nat :=
  let slots := alter (set_link r (set_next head)) i slots in
  match head with
  | Some h => (alter (set_link r (set_prev (Some i))) h slots, Some i)
  | None => (slots, Some i)
  end.

(** [next != kNoSlot ? next : head]: the circular successor. *)
Definition ring_next (next head : option nat) : option nat :=
  match next with Some n => Some n | None => head end.

(** Unlinking from a ring with a CLOCK hand: the hand moves off the victim. *)
Definition remove_ring (r : Ring) (i : nat) (slots : list SlotMeta)
    (head hand : option nat) : list SlotMeta * option nat * option nat :=
  let next := l_next (get_link r (slots !!! i)) in
  let '(slots, head) := unlink r i slots head in
  (slots, head, if decide (hand = Some i) then ring_next next head else hand).

(** [TouchLocked]'s refresh: move [i] behind the hand unless it is there. *)
Definition touch_ring (r : Ring) (i : nat) (slots : list SlotMeta)
    (head hand : option nat) : list SlotMeta * option nat * option nat :=
  let next := l_next (get_link r (slots !!! i)) in
  let behind_hand :=
    bool_decide (next = hand) || (bool_decide (next = None) && bool_decide (hand = head)) in
  if behind_hand then (slots, head, hand)
  else
    let '(slots, head, hand) := remove_ring r i slots head hand in
    link_before r i slots head hand.

(** ** Link-free view of the slot table

    All surgery leaves the data of every slot alone. *)

Definition strip (m : SlotMeta) : SlotMeta :=
  set_m_class (λ _, no_link) (set_m_global (λ _, no_link)
    (set_m_extent (λ _, no_link) (set_m_free_next (λ _, None) m))).

(** The links of one ring, and the free-list links, as vectors. *)
Definition links (r : Ring) (slots : list SlotMeta) : list Link := get_link r <$> slots.

(** [slots'] differs from [slots] in the links of ring [r] only. *)
Record only_links (r : Ring) (slots slots' : list SlotMeta) : Prop := {
  ol_data : strip <$> slots' = strip <$> slots;
  ol_free : m_free_next <$> slots' = m_free_next <$> slots;
  ol_other r' : r' ≠ r → links r' slots' = links r' slots;
}.

(** ** Lists encoded by links

    [dlseg L p l n]: the members of [l] are chained in order, the first one
    points back to [p] and the last one forward to [n].  [dll L hd l]: the
    null-terminated list starting at [hd] visits exactly the indices [l]. *)
Definition or_else (a b : option nat) : option nat :=
  match a with Some x => Some x | None => b end.

Fixpoint dlseg (L : list Link) (p : option nat) (l : list nat) (n : option nat) : Prop :=
  match l with
  | [] => True
  | i :: l' => L !! i = Some (mkLink p (or_else (head l') n)) ∧ dlseg L (Some i) l' n
  end.

Definition dll (L : list Link) (hd : option nat) (l : list nat) : Prop :=
  hd = head l ∧ NoDup l ∧ dlseg L None l None.

(** [ring L hd hand l]: a ring whose CLOCK hand will visit [l] in this order
    before it comes round again. *)
Definition ring (L : list Link) (hd hand : option nat) (l : list nat) : Prop :=
  ∃ l1 l2, l = l2 ++ l1 ∧ dll L hd (l1 ++ l2) ∧ hand = head l2 ∧ (l2 = [] → l1 = []).

Section surgery.
Local Open Scope nat_scope.
Implicit Types (slots : list SlotMeta) (r : Ring) (l : list nat) (L : list Link).

Lemma get_set_link r g m : get_link r (set_link r g m) = g (get_link r m).
Proof. by destruct r, m. Qed.

Lemma get_set_link_ne r r' g m : r' ≠ r → get_link r' (set_link r g m) = get_link r' m.
Proof. by destruct r, r', m. Qed.

Lemma strip_set_link r g m : strip (set_link r g m) = strip m.
Proof. by destruct r, m. Qed.

Lemma free_next_set_link r g m : m_free_next (set_link r g m) = m_free_next m.
Proof. by destruct r, m. Qed.

Lemma fmap_alter_same {B} (f : SlotMeta → B) g i slots :
  (∀ m, f (g m) = f m) → f <$> alter g i slots = f <$> slots.
Proof.
  intros Hf. rewrite (list_fmap_alter f g id) by (apply Forall_forall; intros; by rewrite Hf).
  by apply list_alter_id.
Qed.

Lemma links_alter r g i slots :
  links r (alter (set_link r g) i slots) = alter g i (links r slots).
Proof.
  apply list_fmap_alter. apply Forall_forall. intros m _. apply get_set_link.
Qed.

Lemma only_links_refl r slots : only_links r slots slots.
Proof. done. Qed.

Lemma only_links_alter r g i slots slots' :
  only_links r slots slots' → only_links r slots (alter (set_link r g) i slots').
Proof.
  intros [H1 H2 H3]. split.
  - rewrite fmap_alter_same; [done|]. apply strip_set_link.
  - rewrite fmap_alter_same; [done|]. apply free_next_set_link.
  - intros r' Hr. unfold links. rewrite fmap_alter_same; [by apply H3|].
    intros m. by apply get_set_link_ne.
Qed.

Lemma only_links_length r slots slots' :
  only_links r slots slots' → length slots' = length slots.
Proof.
  intros [H _ _]. apply (f_equal length) in H. by rewrite !length_fmap in H.
Qed.

(** ** Segments *)

Lemma app_split_middle l1 l2 a j b :
  l1 ++ l2 = a ++ j :: b →
  (∃ c, l1 = a ++ j :: c ∧ b = c ++ l2) ∨ (∃ c, l2 = c ++ j :: b ∧ a = l1 ++ c).
Proof.
  revert a. induction l1 as [|x l1 IH]; intros a H; simpl in *.
  - right. by exists a.
  - destruct a as [|y a]; simpl in H; injection H as -> Heq.
    + left. exists l1. by rewrite Heq.
    + destruct (IH a Heq) as [(c & -> & ->)|(c & -> & ->)]; [left; by exists c|right; by exists c].
Qed.

Lemma or_else_None o : or_else o None = o.
Proof. by destruct o. Qed.

Lemma last_app_or l1 l2 : last (l1 ++ l2) = or_else (last l2) (last l1).
Proof. rewrite last_app. by destruct (last l2). Qed.

Lemma head_app_or l1 l2 : head (l1 ++ l2) = or_else (head l1) (head l2).
Proof. by destruct l1. Qed.

Lemma dlseg_app L p l1 l2 n :
  dlseg L p (l1 ++ l2) n ↔
  dlseg L p l1 (or_else (head l2) n) ∧ dlseg L (or_else (last l1) p) l2 n.
Proof.
  revert p. induction l1 as [|i l1 IH]; intros p; [simpl; tauto|].
  assert (or_else (last (i :: l1)) p = or_else (last l1) (Some i)) as ->.
  { rewrite last_cons. by destruct (last l1). }
  assert (or_else (head (l1 ++ l2)) n = or_else (head l1) (or_else (head l2) n)) as Hh.
  { by destruct l1. }
  simpl. rewrite IH, Hh. tauto.
Qed.

Lemma dlseg_ext L L' p l n :
  (∀ i, i ∈ l → L' !! i = L !! i) → dlseg L p l n → dlseg L' p l n.
Proof.
  revert p. induction l as [|i l IH]; intros p Hext; simpl; [done|].
  intros [Hi Hl]. split; [rewrite Hext by set_solver; done|].
  apply IH; [set_solver|done].
Qed.

Lemma dlseg_alter_ne L g j p l n :
  j ∉ l → dlseg L p l n → dlseg (alter g j L) p l n.
Proof.
  intros Hj. apply dlseg_ext. intros i Hi. apply list_lookup_alter_ne. set_solver.
Qed.

Lemma dlseg_set_prev L p p' i l n :
  i ∉ l → dlseg L p (i :: l) n → dlseg (alter (set_prev p') i L) p' (i :: l) n.
Proof.
  simpl. intros Hi [Hl Hs]. split; [by rewrite list_lookup_alter_eq, Hl|].
  by apply dlseg_alter_ne.
Qed.

Lemma dlseg_set_next L p l i n n' :
  i ∉ l → dlseg L p (l ++ [i]) n → dlseg (alter (set_next n') i L) p (l ++ [i]) n'.
Proof.
  intros Hi. rewrite !dlseg_app. simpl. intros (Hl & Hs & _).
  split_and!; [by apply dlseg_alter_ne| |done].
  by rewrite list_lookup_alter_eq, Hs.
Qed.

Lemma dlseg_bound L p l n i : dlseg L p l n → i ∈ l → i < length L.
Proof.
  intros H (l1 & l2 & ->)%list_elem_of_split. apply dlseg_app in H as [_ [H _]].
  by eapply lookup_lt_Some.
Qed.

(** ** Whole lists *)

Lemma dll_nil L : dll L None [].
Proof. split_and!; [done|constructor|done]. Qed.

Lemma dll_lookup L hd l1 i l2 :
  dll L hd (l1 ++ i :: l2) → L !! i = Some (mkLink (last l1) (head l2)).
Proof.
  intros (_ & _ & H). apply dlseg_app in H as [_ [H _]]. by rewrite !or_else_None in H.
Qed.

Lemma dll_bound L hd l i : dll L hd l → i ∈ l → i < length L.
Proof. intros (_ & _ & H). by apply dlseg_bound with (1 := H). Qed.

Lemma dll_NoDup L hd l : dll L hd l → NoDup l.
Proof. by intros (_ & H & _). Qed.

Lemma dll_head L hd l : dll L hd l → hd = head l.
Proof. by intros (H & _). Qed.

Lemma dll_head_None L l : dll L None l → l = [].
Proof. intros (H & _). by destruct l. Qed.

(** Only the links of the members matter. *)
Lemma dll_ext L L' hd l :
  (∀ i, i ∈ l → L' !! i = L !! i) → dll L hd l → dll L' hd l.
Proof. intros Hext (H1 & H2 & H3). split_and!; [done..|]. by eapply dlseg_ext. Qed.

Lemma links_lookup r slots i k :
  links r slots !! i = Some k → get_link r (slots !!! i) = k.
Proof.
  unfold links. rewrite list_lookup_fmap, list_lookup_total_alt.
  destruct (slots !! i); naive_solver.
Qed.

(** The effect of the three operations on the list. *)
Lemma unlink_spec r i slots hd l1 l2 slots' hd' :
  dll (links r slots) hd (l1 ++ i :: l2) →
  unlink r i slots hd = (slots', hd') →
  dll (links r slots') hd' (l1 ++ l2) ∧ only_links r slots slots'.
Proof.
  intros Hd. pose proof (dll_lookup _ _ _ _ _ Hd) as Hi.
  destruct Hd as (Hhd & (Hi1 & Hi2 & Hnd)%NoDup_middle & Hseg).
  unfold unlink. rewrite (links_lookup _ _ _ _ Hi).
  apply dlseg_app in Hseg as [Hs1 [_ Hs2]]. simpl in Hs1.
  intros E; split; [split_and!; [|done|apply dlseg_app; rewrite !or_else_None]|].
  - destruct l1 as [|p l1 _] using rev_ind; [|rewrite last_snoc in E; destruct l1];
      simpl in *; repeat case_match; by simplify_eq/=.
  - apply NoDup_app in Hnd as (Hn1 & Hdisj & Hn2).
    destruct l1 as [|p l1 _] using rev_ind; destruct l2 as [|n l2];
      rewrite ?last_snoc in E; simpl in *; simplify_eq; rewrite ?links_alter; rewrite ?last_snoc.
    + done.
    + split; [done|]. apply (dlseg_set_prev _ (Some i)); [by apply NoDup_cons_1_1|done].
    + split; [|done]. apply (dlseg_set_next _ _ _ _ (Some i)); [|done].
      apply NoDup_app in Hn1. set_solver.
    + assert (p ∉ n :: l2) by (apply Hdisj; set_solver).
      assert (n ∉ l1 ++ [p]) by (intros Hn; apply (Hdisj n Hn); set_solver).
      split.
      * apply dlseg_alter_ne; [done|]. apply (dlseg_set_next _ _ _ _ (Some i)); [|done].
        apply NoDup_app in Hn1. set_solver.
      * apply (dlseg_set_prev _ (Some i)); [by apply NoDup_cons_1_1|].
        by apply dlseg_alter_ne.
  - repeat case_match; simplify_eq; repeat apply only_links_alter; apply only_links_refl.
Qed.

Lemma link_before_spec r i slots hd hand l1 h l2 slots' hd' hand' :
  dll (links r slots) hd (l1 ++ h :: l2) →
  i ∉ l1 ++ h :: l2 → i < length slots → hand = Some h →
  link_before r i slots hd hand = (slots', hd', hand') →
  dll (links r slots') hd' (l1 ++ i :: h :: l2) ∧ only_links r slots slots' ∧ hand' = Some h.
Proof.
  intros Hd Hi Hlt -> E. pose proof (dll_lookup _ _ _ _ _ Hd) as Hh.
  destruct Hd as (Hhd & Hnd & Hseg).
  rewrite not_elem_of_app, not_elem_of_cons in Hi. destruct Hi as (Hi1 & Hih & Hi2).
  assert (Hnd' : NoDup (l1 ++ i :: h :: l2)).
  { apply NoDup_middle. rewrite not_elem_of_cons. done. }
  apply NoDup_middle in Hnd as (Hh1 & Hh2 & Hnd).
  unfold link_before in E.
  rewrite (links_lookup r _ h (mkLink (last l1) (head l2))) in E.
  2:{ rewrite links_alter, list_lookup_alter_ne by done. done. }
  simpl in E. apply dlseg_app in Hseg as [Hs1 Hs2]. simpl in Hs1. rewrite or_else_None in Hs2.
  assert (is_Some (links r slots !! i)) as [k Hk].
  { apply lookup_lt_is_Some. by unfold links; rewrite length_fmap. }
  assert (Hs2' : ∀ L, dlseg L (last l1) (h :: l2) None →
    L !! i = Some (mkLink (last l1) (Some h)) →
    dlseg (alter (set_prev (Some i)) h L) (last l1) (i :: h :: l2) None).
  { intros L HL HLi. split.
    - by rewrite list_lookup_alter_ne by done.
    - by apply (dlseg_set_prev _ (last l1)). }
  assert (Hi12 : i ∉ h :: l2) by (by apply not_elem_of_cons).
  split_and!; [|repeat case_match; simplify_eq; repeat apply only_links_alter;
                 apply only_links_refl|by repeat case_match; simplify_eq].
  destruct l1 as [|p l1 _] using rev_ind; rewrite ?last_snoc in *; simpl in *; simplify_eq;
    rewrite !links_alter; (split_and!; [|done|]).
  - done.
  - apply Hs2'; [by do 2 (apply (dlseg_alter_ne _ _ _ _ (h :: l2)); [done|])|].
    by rewrite !list_lookup_alter_eq, Hk.
  - by destruct l1.
  - rewrite not_elem_of_app, not_elem_of_cons in Hi1, Hh1.
    destruct Hi1 as (Hi1 & Hip & _), Hh1 as (Hh1 & Hhp & _).
    rewrite <- app_assoc in Hnd. apply NoDup_middle in Hnd as (Hp1 & Hp2 & _).
    apply dlseg_app. rewrite last_snoc. split; simpl.
    + apply dlseg_alter_ne; [rewrite not_elem_of_app, list_elem_of_singleton; naive_solver|].
      apply (dlseg_set_next _ _ _ _ (Some h)); [done|].
      do 2 (apply dlseg_alter_ne; [rewrite not_elem_of_app, list_elem_of_singleton; naive_solver|]).
      done.
    + apply Hs2'.
      * do 3 (apply (dlseg_alter_ne _ _ _ _ (h :: l2)); [by apply not_elem_of_cons|]). done.
      * rewrite list_lookup_alter_ne by done. by rewrite !list_lookup_alter_eq, Hk.
Qed.

Lemma link_before_empty r i slots hd slots' hd' hand' :
  links r slots !! i = Some no_link →
  link_before r i slots hd None = (slots', hd', hand') →
  slots' = slots ∧ hd' = Some i ∧ hand' = Some i ∧ dll (links r slots) (Some i) [i].
Proof.
  intros Hi [= <- <- <-]. split_and!; [done..|].
  split_and!; [done|apply NoDup_singleton|]. simpl. by rewrite Hi.
Qed.

Lemma push_front_spec r i slots hd l slots' hd' :
  dll (links r slots) hd l → i ∉ l →
  (∃ n, links r slots !! i = Some (mkLink None n)) →
  push_front r i slots hd = (slots', hd') →
  dll (links r slots') hd' (i :: l) ∧ only_links r slots slots'.
Proof.
  intros (-> & Hnd & Hseg) Hi [n Hn] E. unfold push_front in E.
  split; [|repeat case_match; simplify_eq; repeat apply only_links_alter; apply only_links_refl].
  destruct l as [|h l]; simplify_eq/=; rewrite !links_alter.
  - split_and!; [done|apply NoDup_singleton|]. simpl. by rewrite list_lookup_alter_eq, Hn.
  - split_and!; [done|by apply NoDup_cons|]. apply not_elem_of_cons in Hi as [Hih Hi]. split.
    + rewrite list_lookup_alter_ne by done. by rewrite list_lookup_alter_eq, Hn.
    + apply NoDup_cons in Hnd as [Hh Hnd]. apply (dlseg_set_prev _ None); [done|].
      apply dlseg_alter_ne; [by apply not_elem_of_cons|]. done.
Qed.

(** ** Rings in sweep order *)

Lemma only_links_trans r s1 s2 s3 :
  only_links r s1 s2 → only_links r s2 s3 → only_links r s1 s3.
Proof.
  intros [A1 A2 A3] [B1 B2 B3].
  split; [congruence|congruence|]. intros r' Hr. rewrite B3, A3; done.
Qed.

Lemma ring_NoDup L hd hand l : ring L hd hand l → NoDup l.
Proof.
  intros (l1 & l2 & -> & H%dll_NoDup & _). by rewrite (Permutation_app_comm l2 l1).
Qed.

Lemma ring_bound L hd hand l i : ring L hd hand l → i ∈ l → i < length L.
Proof.
  intros (l1 & l2 & -> & Hd & _) Hi. apply (dll_bound _ _ _ _ Hd).
  rewrite elem_of_app in *. tauto.
Qed.

Lemma ring_hand L hd hand l : ring L hd hand l → hand = head l.
Proof. intros (l1 & l2 & -> & _ & -> & Hnil). destruct l2; [by rewrite Hnil|done]. Qed.

Lemma ring_hd_None L hand l : ring L None hand l → l = [].
Proof. intros (l1 & l2 & -> & Hd%dll_head_None & _). destruct l1, l2; done. Qed.

Lemma ring_nil L : ring L None None [].
Proof. exists [], []. split_and!; [done|apply dll_nil|done|done]. Qed.

Lemma ring_ext L L' hd hand l :
  (∀ i, i ∈ l → L' !! i = L !! i) → ring L hd hand l → ring L' hd hand l.
Proof.
  intros Hext (l1 & l2 & -> & Hd & H). exists l1, l2. split_and!; [done| |apply H..].
  eapply dll_ext; [|done]. intros i Hi. apply Hext. rewrite elem_of_app in *. tauto.
Qed.

(** New members come last in sweep order. *)
Lemma ring_append r i slots hd hand l slots' hd' hand' :
  ring (links r slots) hd hand l → i ∉ l → i < length slots →
  (l = [] → links r slots !! i = Some no_link) →
  link_before r i slots hd hand = (slots', hd', hand') →
  ring (links r slots') hd' hand' (l ++ [i]) ∧ only_links r slots slots'.
Proof.
  intros (l1 & l2 & -> & Hd & -> & Hnil) Hi Hlt Hno E.
  destruct l2 as [|h l2].
  - rewrite Hnil in * by done.
    destruct (link_before_empty r i slots hd _ _ _ (Hno eq_refl) E) as (-> & -> & -> & Hd').
    split; [|apply only_links_refl]. by exists [], [i].
  - apply (link_before_spec r i slots hd _ l1 h l2) in E as (Hd' & Hol & ->);
      [|done|rewrite elem_of_app in *; tauto|done|done].
    split; [|done]. exists (l1 ++ [i]), (h :: l2). rewrite <- !app_assoc. done.
Qed.

Lemma ring_remove r i slots hd hand a b slots' hd' hand' :
  ring (links r slots) hd hand (a ++ i :: b) →
  remove_ring r i slots hd hand = (slots', hd', hand') →
  ring (links r slots') hd' hand' (a ++ b) ∧ only_links r slots slots'.
Proof.
  intros (l1 & l2 & Hl & Hd & -> & Hnil). unfold remove_ring.
  destruct (unlink r i slots hd) as [sl h'] eqn:Eu. intros [= <- <- <-].
  symmetry in Hl. apply app_split_middle in Hl as [(c & -> & ->)|(c & -> & ->)].
  - (* at or ahead of the hand in the list *)
    rewrite app_assoc in Hd. pose proof (dll_lookup _ _ _ _ _ Hd) as Hi.
    rewrite (links_lookup _ _ _ _ Hi). pose proof (dll_NoDup _ _ _ Hd) as Hnd.
    destruct (unlink_spec _ _ _ _ _ _ _ _ Hd Eu) as [Hd' Hol].
    split; [|done]. rewrite <- app_assoc in Hd'.
    destruct a as [|x a]; simpl in *.
    + rewrite decide_True by done. apply dll_head in Hd' as Hh. rewrite app_nil_r in *.
      destruct c as [|y c]; simpl in *.
      * exists [], l1. rewrite ?app_nil_r in *. simpl. split_and!; [done|done| |done]. by subst.
      * by exists l1, (y :: c).
    + rewrite decide_False.
      2:{ intros [= ->]. apply NoDup_middle in Hnd as (Hx & _). apply Hx.
          apply elem_of_app. right. by left. }
      exists l1, (x :: a ++ c). simpl. rewrite app_assoc. done.
  - (* behind the hand *)
    destruct l2 as [|h l2]; [by destruct c; specialize (Hnil eq_refl)|].
    rewrite <- app_assoc in Hd. simpl in Hd.
    pose proof (dll_NoDup _ _ _ Hd) as Hnd.
    destruct (unlink_spec r i slots hd c (b ++ h :: l2) _ _ Hd Eu) as [Hd' Hol].
    split; [|done]. rewrite decide_False.
    2:{ intros [= ->]. apply NoDup_middle in Hnd as (_ & Hx & _). apply Hx.
        apply elem_of_app. right. by left. }
    exists (c ++ b), (h :: l2). rewrite <- !app_assoc. done.
Qed.

(** Moving the hand past its slot. *)
Lemma ring_advance r i slots hd b :
  ring (links r slots) hd (Some i) (i :: b) →
  ring (links r slots) hd (ring_next (l_next (get_link r (slots !!! i))) hd) (b ++ [i]).
Proof.
  intros (l1 & l2 & Hl & Hd & Hh & Hnil).
  destruct l2 as [|h l2]; simplify_eq/=.
  pose proof (dll_lookup _ _ _ _ _ Hd) as Hi. rewrite (links_lookup _ _ _ _ Hi). simpl.
  pose proof (dll_head _ _ _ Hd) as Hhd. destruct l2 as [|n l2]; simpl.
  - exists [], (l1 ++ [h]). rewrite app_nil_r. split_and!; [done|done|done|by destruct l1].
  - exists (l1 ++ [h]), (n :: l2). rewrite <- !app_assoc. done.
Qed.

(** The test of [touch_ring] is exact: it holds iff [i] is last in the sweep. *)
Lemma behind_hand_iff r i slots hd hand a b :
  ring (links r slots) hd hand (a ++ i :: b) →
  let next := l_next (get_link r (slots !!! i)) in
  (next = hand ∨ (next = None ∧ hand = hd)) ↔ b = [].
Proof.
  intros (l1 & l2 & Hl & Hd & -> & Hnil) next.
  pose proof (dll_head _ _ _ Hd) as ->. pose proof (dll_NoDup _ _ _ Hd) as Hnd.
  destruct l2 as [|h l2]; [rewrite Hnil in Hl by done; by destruct a|].
  symmetry in Hl. apply app_split_middle in Hl as [(c & Hc & ->)|(c & -> & ->)].
  - rewrite Hc, app_assoc in Hd. pose proof (dll_lookup _ _ _ _ _ Hd) as Hi.
    subst next. rewrite (links_lookup _ _ _ _ Hi). simpl. rewrite Hc in Hnd.
    destruct c as [|x c]; simpl.
    + destruct l1 as [|y l1]; simpl; [naive_solver|].
      split; [|done]. intros [?|[_ [= ->]]]; [done|].
      apply NoDup_cons in Hnd as [Hnd _]. destruct Hnd. rewrite <- Hc. set_solver.
    + split; [|done]. intros [[= ->]|[? _]]; [|done].
      apply NoDup_app in Hnd as (_ & _ & Hnd). destruct a as [|z a]; simplify_eq/=;
        apply NoDup_cons in Hnd as [Hnd _]; destruct Hnd; set_solver.
  - rewrite <- app_assoc in Hd. pose proof (dll_lookup _ _ _ _ _ Hd) as Hi.
    subst next. rewrite (links_lookup _ _ _ _ Hi). simpl.
    destruct b as [|x b]; simpl; [naive_solver|].
    split; [|done]. intros [[= ->]|[? _]]; [|done].
    apply NoDup_app in Hnd as (_ & Hnd & _). destruct (Hnd h); set_solver.
Qed.

Lemma ring_touch r i slots hd hand a b slots' hd' hand' :
  ring (links r slots) hd hand (a ++ i :: b) →
  touch_ring r i slots hd hand = (slots', hd', hand') →
  ring (links r slots') hd' hand' (a ++ b ++ [i]) ∧ only_links r slots slots'.
Proof.
  intros Hr. pose proof (behind_hand_iff _ _ _ _ _ _ _ Hr) as Hbh. simpl in Hbh.
  unfold touch_ring. set (next := l_next _) in *.
  replace (bool_decide (next = hand) || bool_decide (next = None) && bool_decide (hand = hd))
    with (bool_decide (b = [])).
  2:{ apply eq_true_iff_eq. rewrite orb_true_iff, andb_true_iff, !bool_decide_eq_true. by symmetry. }
  case_bool_decide as Hb0; intros E.
  - simplify_eq. split; [done|apply only_links_refl].
  - destruct (remove_ring r i slots hd hand) as [[sl h] hn] eqn:Er.
    pose proof (ring_NoDup _ _ _ _ Hr) as (Ha & Hb & _)%NoDup_middle.
    pose proof (ring_bound _ _ _ _ i Hr ltac:(set_solver)) as Hlt.
    destruct (ring_remove _ _ _ _ _ _ _ _ _ _ Hr Er) as [Hr1 Hol1].
    unfold links in Hlt. rewrite length_fmap, <- (only_links_length _ _ _ Hol1) in Hlt.
    apply (ring_append r i sl h hn (a ++ b)) in E as [Hr2 Hol2];
      [|done|rewrite elem_of_app; tauto|done|by destruct a].
    rewrite app_assoc. split; [done|]. by eapply only_links_trans.
Qed.

(** ** Frames: links outside the list are left alone *)

Lemma unlink_frame r i slots hd l1 l2 slots' hd' j :
  dll (links r slots) hd (l1 ++ i :: l2) → unlink r i slots hd = (slots', hd') →
  j ∉ l1 ++ l2 → links r slots' !! j = links r slots !! j.
Proof.
  intros Hd E [Hj1 Hj2]%not_elem_of_app. pose proof (dll_lookup _ _ _ _ _ Hd) as Hi.
  unfold unlink in E. rewrite (links_lookup _ _ _ _ Hi) in E.
  assert (Hp : ∀ p, last l1 = Some p → p ≠ j).
  { intros p (l & ->)%last_Some ->. set_solver. }
  assert (Hn : ∀ n, head l2 = Some n → n ≠ j) by (destruct l2; set_solver).
  destruct (last l1), (head l2); simplify_eq; rewrite ?links_alter, ?list_lookup_alter_ne; eauto.
Qed.

Lemma remove_ring_frame r i slots hd hand a b slots' hd' hand' j :
  ring (links r slots) hd hand (a ++ i :: b) →
  remove_ring r i slots hd hand = (slots', hd', hand') →
  j ∉ a ++ b → links r slots' !! j = links r slots !! j.
Proof.
  intros (l1 & l2 & Hl & Hd & _) E Hj. unfold remove_ring in E.
  destruct (unlink r i slots hd) as [sl h'] eqn:Eu. simplify_eq.
  pose proof (dll_NoDup _ _ _ Hd) as Hnd.
  assert (i ∈ l1 ++ l2) as Hin.
  { assert (i ∈ l2 ++ l1) by (rewrite <- Hl; set_solver). set_solver. }
  destruct (NoDup_split _ _ Hnd Hin) as (d1 & d2 & Hdd & Hi1 & Hi2). rewrite Hdd in Hd.
  eapply unlink_frame; [done|done|]. intros Hjd. apply Hj.
  assert (a ++ b ≡ₚ d1 ++ d2) as ->; [|done].
  apply (Permutation_cons_inv (a := i)). rewrite !Permutation_middle, <- Hdd, Hl.
  apply Permutation_app_comm.
Qed.

Lemma link_before_frame r i slots hd hand l slots' hd' hand' j :
  ring (links r slots) hd hand l → i ∉ l →
  link_before r i slots hd hand = (slots', hd', hand') →
  j ∉ l → j ≠ i → links r slots' !! j = links r slots !! j.
Proof.
  intros (l1 & l2 & -> & Hd & -> & Hnil) Hi E [Hj2 Hj1]%not_elem_of_app Hne.
  apply not_elem_of_app in Hi as [Hi2 Hi1].
  destruct l2 as [|h l2]; simpl in *; [by simplify_eq|].
  pose proof (dll_lookup _ _ _ _ _ Hd) as Hh.
  rewrite (links_lookup r _ h (mkLink (last l1) (head l2))) in E.
  2:{ rewrite links_alter, list_lookup_alter_ne by set_solver. done. }
  simpl in E.
  assert (Hp : ∀ p, last l1 = Some p → p ≠ j).
  { intros p (l & ->)%last_Some ->. set_solver. }
  assert (h ≠ j) by set_solver.
  destruct (last l1); simplify_eq; rewrite ?links_alter, !list_lookup_alter_ne; eauto.
Qed.

Lemma touch_ring_frame r i slots hd hand a b slots' hd' hand' j :
  ring (links r slots) hd hand (a ++ i :: b) →
  touch_ring r i slots hd hand = (slots', hd', hand') →
  j ∉ a ++ i :: b → links r slots' !! j = links r slots !! j.
Proof.
  intros Hr E Hj. unfold touch_ring in E. destruct (_ || _); [by simplify_eq|].
  destruct (remove_ring r i slots hd hand) as [[sl h] hn] eqn:Er.
  pose proof (ring_NoDup _ _ _ _ Hr) as (Ha & Hb & _)%NoDup_middle.
  destruct (ring_remove _ _ _ _ _ _ _ _ _ _ Hr Er) as [Hr1 _].
  rewrite (link_before_frame r i _ _ _ _ _ _ _ j Hr1 ltac:(set_solver) E) by set_solver.
  eapply remove_ring_frame; [done|done|set_solver].
Qed.

Lemma push_front_frame r i slots hd l slots' hd' j :
  dll (links r slots) hd l → push_front r i slots hd = (slots', hd') →
  j ∉ l → j ≠ i → links r slots' !! j = links r slots !! j.
Proof.
  intros Hd E Hj Hne. pose proof (dll_head _ _ _ Hd) as Hh. unfold push_front in E.
  assert (∀ h, hd = Some h → h ≠ j).
  { intros h ->. destruct l; simplify_eq/=. set_solver. }
  destruct hd; simplify_eq; rewrite ?links_alter, !list_lookup_alter_ne; eauto.
Qed.

End surgery.
