(* ===== verification/SlabFree.v ===== *)
(** * Slab allocator: per-class free lists

    Free slots of a class are bucketed per extent ([free_by_ext]) and handed
    out round-robin over the rotation [ext_rr] of the extents that have one:
    [PushFreeLocked], [PopFreeLocked], [DropFromRotationLocked],
    [TakeFreeSlotLocked] and [DropExtentFreeLocked] of
    src/cache/slab_allocator.cc, specified by their effect on [free_of]. *)

From S2P Require Import Prelude KvTypes KeyIndex SlabTypes.

(** ** Operations *)

Definition PushFreeLocked (extent slot : nat) (cls : Class_) : Class_ :=
  let slots := default [] (c_free_by_ext cls !! extent) in
  let cls := if slots is [] then set_c_ext_rr (λ rr, rr ++ [extent]) cls else cls in
  let cls := set_c_free_by_ext (<[extent := slots ++ [slot]]>) cls in
  set_c_free_count (λ n, n + 1) cls.

(** Returns the slot popped, [None] when the class has no free slot. *)
Definition PopFreeLocked (cls : Class_) : option (nat * nat) * Class_ :=
  if c_ext_rr cls is [] then (None, cls)
  else
    let cls := if (length (c_ext_rr cls) <=? c_rr_next cls)%nat
               then set_c_rr_next (λ _, 0%nat) cls else cls in
    let extent := c_ext_rr cls !!! c_rr_next cls in
    let slots := default [] (c_free_by_ext cls !! extent) in
    let slot := default 0%nat (last slots) in
    let slots := pop_back slots in
    let cls := set_c_free_by_ext (<[extent := slots]>) cls in
    let cls := set_c_free_count (λ n, n - 1) cls in
    let cls :=
      if slots is [] then set_c_ext_rr (swap_pop (c_rr_next cls)) cls
      else set_c_rr_next S cls in
    (Some (extent, slot), cls).

(** Position of the first occurrence ([std::find]). *)
Fixpoint find_pos (x : nat) (l : list nat) : option nat :=
  match l with
  | [] => None
  | y :: l => if (y =? x)%nat then Some 0%nat else S <$> find_pos x l
  end.

Definition DropFromRotationLocked (extent : nat) (cls : Class_) : Class_ :=
  match find_pos extent (c_ext_rr cls) with
  | None => cls
  | Some i =>
      let cls := set_c_ext_rr (swap_pop i) cls in
      let cls := if (i <? c_rr_next cls)%nat
                 then set_c_rr_next (λ n, n - 1)%nat cls else cls in
      if ((length (c_ext_rr cls) <=? c_rr_next cls)%nat
          && negb (length (c_ext_rr cls) =? 0)%nat)
      then set_c_rr_next (λ _, 0%nat) cls else cls
  end.

Definition TakeFreeSlotLocked (extent slot : nat) (cls : Class_) : bool * Class_ :=
  match c_free_by_ext cls !! extent with
  | None => (false, cls)
  | Some slots =>
      match find_pos slot slots with
      | None => (false, cls)
      | Some found =>
          let slots := swap_pop found slots in
          let cls := set_c_free_by_ext (<[extent := slots]>) cls in
          let cls := set_c_free_count (λ n, n - 1) cls in
          (true, if slots is [] then DropFromRotationLocked extent cls else cls)
      end
  end.

Definition DropExtentFreeLocked (extent : nat) (cls : Class_) : Class_ :=
  match c_free_by_ext cls !! extent with
  | None => cls
  | Some slots =>
      let cls := set_c_free_count (λ n, n - Z.of_nat (length slots)) cls in
      let cls := set_c_free_by_ext (delete extent) cls in
      DropFromRotationLocked extent cls
  end.

(** ** Specification *)

(** The free slots of an extent. *)
Definition free_of (cls : Class_) (e : nat) : list nat :=
  default [] (c_free_by_ext cls !! e).

(** The rotation lists exactly the extents with a free slot, once each. *)
Record free_ok (cls : Class_) : Prop := {
  fo_nodup : NoDup (c_ext_rr cls);
  fo_rr e : e ∈ c_ext_rr cls ↔ free_of cls e ≠ [];
  fo_count : c_free_count cls = sumZ (λ e, Z.of_nat (length (free_of cls e))) (c_ext_rr cls);
}.

(** [cls'] differs from [cls] in its free lists only. *)
Definition same_but_free (cls cls' : Class_) : Prop :=
  c_slot_size cls' = c_slot_size cls ∧
  c_slots_per_extent cls' = c_slots_per_extent cls ∧
  c_resident_count cls' = c_resident_count cls ∧
  c_bound_extents cls' = c_bound_extents cls ∧
  c_puts cls' = c_puts cls ∧
  c_useful_bytes cls' = c_useful_bytes cls ∧
  c_read_touches cls' = c_read_touches cls ∧
  c_read_heat cls' = c_read_heat cls ∧
  c_heat_seq cls' = c_heat_seq cls ∧
  c_ring_head cls' = c_ring_head cls ∧
  c_hand cls' = c_hand cls ∧
  c_protected_slots cls' = c_protected_slots cls.

Section free_lists.
Local Open Scope nat_scope.
Implicit Types (cls : Class_) (e : nat).

Lemma find_pos_Some x l i : find_pos x l = Some i → l !! i = Some x.
Proof.
  revert i. induction l as [|y l IH]; intros i H; simpl in *; [done|].
  destruct (Nat.eqb_spec y x); [by simplify_eq|].
  destruct (find_pos x l) eqn:E; simplify_eq/=. by apply IH.
Qed.

Lemma find_pos_None x l : find_pos x l = None ↔ x ∉ l.
Proof.
  induction l as [|y l IH]; simpl; [set_solver|].
  destruct (Nat.eqb_spec y x) as [->|Hne]; [set_solver|].
  rewrite fmap_None, IH. set_solver.
Qed.

Lemma same_but_free_refl cls : same_but_free cls cls.
Proof. by unfold same_but_free. Qed.

Lemma free_of_insert cls cls' e e' l :
  c_free_by_ext cls' = <[e := l]> (c_free_by_ext cls) →
  free_of cls' e' = if decide (e' = e) then l else free_of cls e'.
Proof.
  unfold free_of. intros ->. destruct (decide (e' = e)) as [->|Hne].
  - by rewrite lookup_insert_eq.
  - by rewrite lookup_insert_ne.
Qed.

(** The count restated when one extent's list changes. *)
Lemma free_count_change cls rr rr' (f : nat → list nat) e l :
  NoDup rr → NoDup rr' →
  (∀ e', e' ∈ rr ↔ free_of cls e' ≠ []) → (∀ e', e' ∈ rr' ↔ f e' ≠ []) →
  (∀ e', f e' = if decide (e' = e) then l else free_of cls e') →
  sumZ (λ e', Z.of_nat (length (f e'))) rr' =
  (sumZ (λ e', Z.of_nat (length (free_of cls e'))) rr
   - Z.of_nat (length (free_of cls e)) + Z.of_nat (length l))%Z.
Proof.
  intros Hnd Hnd' Hrr Hrr' Hf.
  assert (Hsum : ∀ (g : nat → list nat) r, NoDup r → (∀ e', e' ∈ r ↔ g e' ≠ []) →
    sumZ (λ e', Z.of_nat (length (g e'))) r =
    (sumZ (λ e', Z.of_nat (length (g e'))) (filter (λ e', e' ≠ e) r)
     + Z.of_nat (length (g e)))%Z).
  { clear. intros g r Hr Hin. destruct (decide (e ∈ r)) as [He|He].
    - destruct (NoDup_split r e Hr He) as (r1 & r2 & -> & H1 & H2).
      rewrite sumZ_middle, filter_app, filter_cons_False by naive_solver.
      rewrite <- filter_app. f_equal. f_equal.
      symmetry. apply filter_all. intros x [Hx|Hx]%elem_of_app ->; done.
    - assert (g e = []) as -> by (apply dec_stable; intros Hg; apply He, Hin, Hg).
      rewrite filter_all; [simpl; lia|]. intros x Hx ->. done. }
  rewrite (Hsum f rr' Hnd' Hrr'), (Hsum (free_of cls) rr Hnd Hrr).
  rewrite (Hf e), decide_True by done.
  assert (filter (λ e', e' ≠ e) rr' ≡ₚ filter (λ e', e' ≠ e) rr) as ->.
  { apply NoDup_Permutation; [by apply NoDup_filter..|]. intros x.
    rewrite !list_elem_of_filter, Hrr, Hrr', (Hf x). case_decide; naive_solver. }
  rewrite (sumZ_ext_in (λ e', Z.of_nat (length (f e'))) (λ e', Z.of_nat (length (free_of cls e')))).
  - lia.
  - intros x [Hx _]%list_elem_of_filter. by rewrite Hf, decide_False by done.
Qed.

(** One lemma for every operation: replacing the list of [e]. *)
Lemma free_ok_change cls cls' e l :
  free_ok cls →
  (∀ e', free_of cls' e' = if decide (e' = e) then l else free_of cls e') →
  NoDup (c_ext_rr cls') →
  (∀ e', e' ∈ c_ext_rr cls' ↔ free_of cls' e' ≠ []) →
  c_free_count cls' =
    (c_free_count cls - Z.of_nat (length (free_of cls e)) + Z.of_nat (length l))%Z →
  free_ok cls'.
Proof.
  intros [Hnd Hrr Hc] Hf Hnd' Hrr' Hc'. split; [done|done|].
  rewrite Hc', Hc. symmetry. by apply free_count_change.
Qed.

Lemma PushFree_spec e slot cls :
  free_ok cls →
  let cls' := PushFreeLocked e slot cls in
  free_ok cls' ∧ same_but_free cls cls' ∧
  ∀ e', free_of cls' e' = if decide (e' = e) then free_of cls e ++ [slot] else free_of cls e'.
Proof.
  intros Hok cls'.
  assert (Hf : ∀ e', free_of cls' e' =
    if decide (e' = e) then free_of cls e ++ [slot] else free_of cls e').
  { intros e'. subst cls'. unfold PushFreeLocked. apply free_of_insert.
    fold (free_of cls e). by destruct (free_of cls e). }
  assert (Hrr : c_ext_rr cls' = if free_of cls e is [] then c_ext_rr cls ++ [e] else c_ext_rr cls).
  { subst cls'. unfold PushFreeLocked. fold (free_of cls e). by destruct (free_of cls e). }
  pose proof (fo_rr _ Hok) as Hin. pose proof (fo_nodup _ Hok) as Hnd.
  split_and!; [|subst cls'; unfold PushFreeLocked, same_but_free; by destruct (default [] _)|done].
  apply (free_ok_change cls _ e (free_of cls e ++ [slot])); [done|done|..].
  - rewrite Hrr. destruct (free_of cls e) eqn:E; [|done].
    apply NoDup_app. split_and!; [done| |apply NoDup_singleton].
    intros x Hx ->%list_elem_of_singleton. by apply Hin in Hx.
  - intros e'. rewrite Hrr, Hf. pose proof (Hin e') as He'.
    destruct (free_of cls e) eqn:E; [rewrite elem_of_app, list_elem_of_singleton|];
      case_decide; subst; rewrite ?He', ?E; naive_solver.
  - subst cls'. unfold PushFreeLocked. rewrite length_app.
    destruct (default [] _); simpl; lia.
Qed.

Lemma DropFromRotation_spec e cls :
  same_but_free cls (DropFromRotationLocked e cls) ∧
  c_free_by_ext (DropFromRotationLocked e cls) = c_free_by_ext cls ∧
  c_free_count (DropFromRotationLocked e cls) = c_free_count cls ∧
  (NoDup (c_ext_rr cls) → NoDup (c_ext_rr (DropFromRotationLocked e cls)) ∧
   ∀ e', e' ∈ c_ext_rr (DropFromRotationLocked e cls) ↔ e' ∈ c_ext_rr cls ∧ e' ≠ e).
Proof.
  unfold DropFromRotationLocked, same_but_free.
  destruct (find_pos e (c_ext_rr cls)) as [i|] eqn:E.
  - apply find_pos_Some in E.
    split_and!; try (by repeat case_match). intros Hnd.
    assert (∀ x, x = c_ext_rr cls → True) as _ by done.
    split; [|intros e'; rewrite <- (elem_of_swap_pop _ i) by done]; repeat case_match; simpl;
      first [by apply NoDup_swap_pop | done].
  - apply find_pos_None in E. split_and!; try done. intros Hnd. split; [done|].
    intros e'. split; [|naive_solver]. intros H. split; [done|]. by intros ->.
Qed.

Lemma PopFree_None cls cls' :
  PopFreeLocked cls = (None, cls') ↔ c_ext_rr cls = [] ∧ cls' = cls.
Proof. unfold PopFreeLocked. destruct (c_ext_rr cls); naive_solver. Qed.

Lemma PopFree_spec cls e slot cls' :
  free_ok cls → PopFreeLocked cls = (Some (e, slot), cls') →
  ∃ l, free_of cls e = l ++ [slot] ∧ free_ok cls' ∧ same_but_free cls cls' ∧
    ∀ e', free_of cls' e' = if decide (e' = e) then l else free_of cls e'.
Proof.
  intros Hok. unfold PopFreeLocked.
  destruct (c_ext_rr cls) as [|r0 rr] eqn:Hrr; [done|].
  set (clsr := if (length (r0 :: rr) <=? c_rr_next cls)%nat then _ else cls).
  assert (Hr : c_ext_rr clsr = c_ext_rr cls ∧ c_free_by_ext clsr = c_free_by_ext cls ∧
    c_free_count clsr = c_free_count cls ∧ same_but_free cls clsr ∧
    c_rr_next clsr < length (c_ext_rr cls)).
  { subst clsr. unfold same_but_free. rewrite Hrr.
    destruct (Nat.leb_spec (length (r0 :: rr)) (c_rr_next cls));
      split_and!; try done. simpl. lia. }
  clearbody clsr. destruct Hr as (Hr1 & Hr2 & Hr3 & Hr4 & Hlt).
  rewrite Hr1, Hr2. destruct (lookup_lt_is_Some_2 _ _ Hlt) as [e0 He0].
  rewrite (list_lookup_total_correct _ _ _ He0).
  assert (Hne : free_of cls e0 ≠ []).
  { apply (fo_rr _ Hok). by eapply list_elem_of_lookup_2. }
  fold (free_of cls e0). destruct (last (free_of cls e0)) as [sl|] eqn:Hl;
    [|by apply last_None in Hl]. simpl. intros [= -> -> Hcls'].
  apply last_pop_back in Hl. exists (pop_back (free_of cls e)).
  assert (Hf : ∀ e', free_of cls' e' =
    if decide (e' = e) then pop_back (free_of cls e) else free_of cls e').
  { intros e'. subst cls'. apply free_of_insert. case_match; simpl; by rewrite Hr2. }
  assert (Hsb : same_but_free cls cls').
  { subst cls'. unfold same_but_free in *. case_match; naive_solver. }
  split_and!; [done| |done|done].
  assert (Hee : e ∈ c_ext_rr cls) by (by eapply list_elem_of_lookup_2).
  assert (Hrr' : NoDup (c_ext_rr cls') ∧ ∀ e', e' ∈ c_ext_rr cls' ↔
    e' ∈ c_ext_rr cls ∧ (pop_back (free_of cls e) = [] → e' ≠ e)).
  { subst cls'. pose proof (fo_nodup _ Hok). destruct (pop_back (free_of cls e)); simpl; rewrite Hr1.
    - split; [by apply NoDup_swap_pop|]. intros e'. rewrite elem_of_swap_pop by done. naive_solver.
    - split; [done|]. naive_solver. }
  destruct Hrr' as [Hnd' Hrr'].
  apply (free_ok_change cls _ e (pop_back (free_of cls e))); [done|done|done|..].
  - intros e'. rewrite Hrr', Hf, (fo_rr _ Hok). case_decide; subst; [|naive_solver].
    destruct (pop_back (free_of cls e)); naive_solver.
  - apply (f_equal length) in Hl. rewrite length_app in Hl. simpl in Hl.
    subst cls'. destruct (pop_back (free_of cls e)); simpl in *; rewrite Hr3; lia.
Qed.

Lemma TakeFreeSlot_spec e slot cls :
  free_ok cls →
  if decide (slot ∈ free_of cls e) then
    ∃ cls' l, TakeFreeSlotLocked e slot cls = (true, cls') ∧
      slot :: l ≡ₚ free_of cls e ∧ free_ok cls' ∧ same_but_free cls cls' ∧
      ∀ e', free_of cls' e' = if decide (e' = e) then l else free_of cls e'
  else TakeFreeSlotLocked e slot cls = (false, cls).
Proof.
  intros Hok. unfold TakeFreeSlotLocked.
  assert (Hfe : free_of cls e = default [] (c_free_by_ext cls !! e)) by done.
  destruct (c_free_by_ext cls !! e) as [slots|] eqn:El; simpl in Hfe.
  2:{ rewrite Hfe, decide_False by set_solver. done. }
  rewrite Hfe. destruct (find_pos slot slots) as [i|] eqn:Ef.
  2:{ apply find_pos_None in Ef. by rewrite decide_False. }
  apply find_pos_Some in Ef.
  rewrite decide_True by (by eapply list_elem_of_lookup_2).
  pose proof (swap_pop_perm _ _ _ Ef) as Hp.
  set (mid := set_c_free_count (λ n, (n - 1)%Z)
                (set_c_free_by_ext (<[e := swap_pop i slots]>) cls)).
  pose proof (DropFromRotation_spec e mid) as (Hs & Hm & Hc & Hr).
  assert (Hrm : c_ext_rr mid = c_ext_rr cls) by done.
  rewrite Hrm in Hr. destruct (Hr (fo_nodup _ Hok)) as [Hnd Hin]. clear Hr.
  set (cls' := if swap_pop i slots is [] then DropFromRotationLocked e mid else mid).
  exists cls', (swap_pop i slots).
  assert (Hf : ∀ e', free_of cls' e' =
    if decide (e' = e) then swap_pop i slots else free_of cls e').
  { intros e'. apply free_of_insert. subst cls'. case_match; [by rewrite Hm|done]. }
  split_and!; [done|done| |by subst cls'; case_match|done].
  apply (free_ok_change cls _ e (swap_pop i slots)); [done|done|..].
  - subst cls'. case_match; [done|apply (fo_nodup _ Hok)].
  - intros e'. rewrite Hf. pose proof (fo_rr _ Hok e') as He'.
    subst cls'. destruct (swap_pop i slots) eqn:Es; [rewrite Hin|rewrite Hrm];
      case_decide; rewrite ?He'; subst; [naive_solver..| |naive_solver].
    split; [done|]. intros _ Hnil. rewrite Hnil in Hp. by apply Permutation_nil_r in Hp.
  - apply Permutation_length in Hp. rewrite Hfe, <- Hp. simpl.
    subst cls'. case_match; rewrite ?Hc; simpl; lia.
Qed.

Lemma DropExtentFree_spec e cls :
  free_ok cls →
  let cls' := DropExtentFreeLocked e cls in
  free_ok cls' ∧ same_but_free cls cls' ∧
  ∀ e', free_of cls' e' = if decide (e' = e) then [] else free_of cls e'.
Proof.
  intros Hok cls'.
  assert (Hfe : free_of cls e = default [] (c_free_by_ext cls !! e)) by done.
  subst cls'. unfold DropExtentFreeLocked.
  destruct (c_free_by_ext cls !! e) as [slots|] eqn:El; simpl in Hfe.
  2:{ split_and!; [done|done|]. intros e'. case_decide; by subst. }
  set (mid := set_c_free_by_ext _ _).
  pose proof (DropFromRotation_spec e mid) as (Hs & Hm & Hc & Hr).
  assert (Hrm : c_ext_rr mid = c_ext_rr cls) by done.
  rewrite Hrm in Hr. destruct (Hr (fo_nodup _ Hok)) as [Hnd Hin]. clear Hr.
  set (cls' := DropFromRotationLocked e mid) in *.
  assert (Hf : ∀ e', free_of cls' e' = if decide (e' = e) then [] else free_of cls e').
  { intros e'. unfold free_of. rewrite Hm. simpl. case_decide; subst.
    - by rewrite lookup_delete_eq.
    - by rewrite lookup_delete_ne. }
  split_and!; [|done|done].
  apply (free_ok_change cls _ e []); [done|done|done|..].
  - intros e'. rewrite Hin, Hf, (fo_rr _ Hok). case_decide; naive_solver.
  - rewrite Hc, Hfe. simpl. lia.
Qed.

(** [BindExtentLocked] pushes the slots of a fresh extent in order. *)
Lemma PushFree_seq_spec e n k cls :
  free_ok cls →
  let cls' := foldl (λ cls slot, PushFreeLocked e slot cls) cls (seq k n) in
  free_ok cls' ∧ same_but_free cls cls' ∧
  ∀ e', free_of cls' e' = if decide (e' = e) then free_of cls e ++ seq k n else free_of cls e'.
Proof.
  revert k cls. induction n as [|n IH]; intros k cls Hok; simpl.
  - split_and!; [done|done|]. intros e'. rewrite app_nil_r. by case_decide; subst.
  - destruct (PushFree_spec e k cls Hok) as (Hok1 & Hs1 & Hf1).
    destruct (IH (S k) _ Hok1) as (Hok2 & Hs2 & Hf2).
    split_and!; [done| |].
    + unfold same_but_free in *. naive_solver congruence.
    + intros e'. rewrite Hf2, !Hf1. repeat case_decide; subst; try done.
      by rewrite <- app_assoc.
Qed.

End free_lists.
