(* ===== verification/SlabOps.v ===== *)
(** * Slab allocator: operations

    Every operation of [SlabAllocator] (src/cache/slab_allocator.cc) as a
    function on its state, in the order of the source.  A loop whose bound is
    not a constant of the code runs on fuel, and an exhausted fuel is the
    outcome [None]: [drain_extent], [stripe_bind] and [put_place] are shown in
    SlabInv to return.  The out-vector [evicted] is passed and returned. *)

From Stdlib Require Import SpecFloat.
From stdpp Require Import gmap sorting.
From S2P Require Import Prelude KvTypes KeyIndex SlabTypes SlabLattice SlabRing SlabFree.

Definition kStripeWays : nat := 8.
Definition kReadHeatUnit : Z := 1024.
Definition kReadDecayOps : Z := 64.
Definition kWheelTickS : Z := 10.
Definition SIZE_MAX : Z := UINT64_MAX.

Record ClassStat := mkClassStat {
  cs_slot_size : Z; cs_free_slots : Z; cs_resident : Z; cs_puts : Z; cs_extents : Z;
  cs_slots_per_extent : Z; cs_useful_bytes : Z; cs_allocated_bytes : Z;
  cs_read_touches : Z; cs_read_heat : Z;
}.

#[export] Instance ClassStat_inhabited : Inhabited ClassStat :=
  populate (mkClassStat 0 0 0 0 0 0 0 0 0 0).

(** [SlabAllocator::RetainOutcome]. *)
Record RetainOutcome := mkRetainOutcome {
  out_code : RetainCode; out_ref : SlotRef; out_until : Z; out_ttl_s : Z; out_persist : bool;
}.

(** [SlabAllocator::RetentionStats]. *)
Record RetentionStats := mkRetentionStats {
  st_enabled : bool; st_budget_bytes : Z; st_protected_bytes : Z; st_protected_slots : Z;
  st_extents_pinned : nat; st_expired : Z; st_evict_skipped : Z; st_wheel_entries : Z;
  st_max_ttl_s : Z; st_headroom_pct : Z; st_results : list Z;
}.

(** The order of [RestoreBulk]'s sort, and [std::adjacent_find]. *)
Definition key_le (a b : BlockKey) : Prop :=
  if decide (tenant_hash a = tenant_hash b) then
    if decide (digest_hi a = digest_hi b) then digest_lo a <= digest_lo b
    else digest_hi a < digest_hi b
  else tenant_hash a < tenant_hash b.

#[export] Instance key_le_dec : RelDecision key_le.
Proof. intros a b. unfold key_le. repeat case_decide; apply _. Defined.

Fixpoint adjacent_find (l : list BlockKey) : bool :=
  match l with
  | a :: (b :: _) as l' => key_eqb a b || adjacent_find l'
  | _ => false
  end.

Section ops.
Context {IX : Type} {ixo : KeyIndexOps IX}.
Notation St := (SlabAllocator IX).
Implicit Types (s : St) (evicted : list BlockKey).

(** ** Access *)

Definition cls_at s (c : nat) : Class_ := s_classes s !!! c.
Definition ext_at s (e : nat) : ExtentMeta := s_extents s !!! e.
Definition slot_at s (i : nat) : SlotMeta := s_slots s !!! i.
Definition upd_class (c : nat) (g : Class_ → Class_) s : St := set_s_classes (alter g c) s.
Definition upd_ext (e : nat) (g : ExtentMeta → ExtentMeta) s : St := set_s_extents (alter g e) s.
Definition upd_slot (i : nat) (g : SlotMeta → SlotMeta) s : St := set_s_slots (alter g i) s.
Definition count_eviction s : St := set_s_counters (set_n_evictions (λ n, n + 1)) s.

(** The persistence callbacks; an absent one succeeds. *)
Definition call_extent_bind (extent : nat) s : bool * St :=
  match o_on_extent_bind (s_opt s) with
  | None => (true, s)
  | Some f =>
      let ok := f (s_cb_log s) extent in
      (ok, set_s_cb_log (λ l, l ++ [EvBind extent ok]) s)
  end.

Definition call_slot_evict (ref : SlotRef) s : bool * St :=
  match o_on_slot_evict (s_opt s) with
  | None => (true, s)
  | Some f =>
      let ok := f (s_cb_log s) ref in
      (ok, set_s_cb_log (λ l, l ++ [EvSlotEvict ref ok]) s)
  end.

(** ** Constructor *)

Definition new_retention : Retention :=
  mkRetention (mkRetainOptions false 0 80 3600 60) 0 0 0 0 (replicate 7 0) [] 0 0 0.

(** [cold_env] is what [strtoull] reads from DFKV_SLAB_COLD_STEAL_WINDOW, when
    the variable is set to a number. *)
Definition new_allocator (opt : Options) (cold_env : option Z) : St :=
  let opt := normalize_options opt in
  mkSlabAllocator opt (class_lattice opt) (replicate (o_num_extents opt) new_extent_meta)
    [] None None None ix_empty (Z.of_nat (o_num_extents opt)) 0 (mkCounters 0 0 0 0 0 0) 0 0
    (match cold_env with Some v => v | None => 0 end)
    (match cold_env with Some v => negb (v =? 0) | None => true end)
    new_retention [].

Definition ClassForExactSize s (slot_size : Z) : nat :=
  class_for_exact_size (s_classes s) slot_size.

Definition ClassForLen s (aligned_len : Z) : nat :=
  ClassForExactSize s (CanonicalSlotSize (s_opt s) aligned_len).

(** ** Slot metadata and rings *)

Definition AcquireSlotMetaLocked s : nat * St :=
  match s_free_slot_meta_head s with
  | Some index =>
      let s := set_s_free_slot_meta_head (λ _, m_free_next (slot_at s index)) s in
      (index, set_s_slots (<[index := new_slot_meta]>) s)
  | None => (length (s_slots s), set_s_slots (λ l, l ++ [new_slot_meta]) s)
  end.

(** [meta = SlotMeta{}; meta.free_next = head; head = index]. *)
Definition release_meta (index : nat) s : St :=
  let s := upd_slot index
    (λ _, set_m_free_next (λ _, s_free_slot_meta_head s) new_slot_meta) s in
  set_s_free_slot_meta_head (λ _, Some index) s.

(** Store back what a ring operation computed. *)
Definition put_class_ring (c : nat) (res : list SlotMeta * option nat * option nat) s : St :=
  let '(slots, head, hand) := res in
  upd_class c (λ cls, set_c_hand (λ _, hand) (set_c_ring_head (λ _, head) cls))
    (set_s_slots (λ _, slots) s).

Definition put_global_ring (res : list SlotMeta * option nat * option nat) s : St :=
  let '(slots, head, hand) := res in
  set_s_global_hand (λ _, hand) (set_s_global_ring_head (λ _, head)
    (set_s_slots (λ _, slots) s)).

Definition put_extent_list (e : nat) (res : list SlotMeta * option nat) s : St :=
  let '(slots, head) := res in
  upd_ext e (set_x_resident_head (λ _, head)) (set_s_slots (λ _, slots) s).

Definition LinkBeforeHandLocked (index : nat) s : St :=
  let c := r_cls (m_ref (slot_at s index)) in
  put_class_ring c
    (link_before RClass index (s_slots s) (c_ring_head (cls_at s c)) (c_hand (cls_at s c))) s.

Definition LinkBeforeGlobalHandLocked (index : nat) s : St :=
  put_global_ring
    (link_before RGlobal index (s_slots s) (s_global_ring_head s) (s_global_hand s)) s.

Definition LinkResidentLocked (index : nat) s : St :=
  let ref := m_ref (slot_at s index) in
  let s := LinkBeforeHandLocked index s in
  let s := LinkBeforeGlobalHandLocked index s in
  let s := upd_class (r_cls ref) (set_c_resident_count (λ n, n + 1)) s in
  let s := put_extent_list (r_extent ref)
    (push_front RExtent index (s_slots s) (x_resident_head (ext_at s (r_extent ref)))) s in
  upd_ext (r_extent ref) (set_x_resident_count (λ n, n + 1)) s.

(** ** Heat and recency *)

Definition DecayedHeat s (heat heat_seq : Z) : Z :=
  if heat =? 0 then 0
  else
    let elapsed := if heat_seq <=? s_activity_seq s then s_activity_seq s - heat_seq else 0 in
    let shifts := elapsed / kReadDecayOps in
    if 63 <=? shifts then 0 else Z.shiftr heat shifts.

Definition ExtentHeatLocked s (x : ExtentMeta) : Z := DecayedHeat s (x_read_heat x) (x_heat_seq x).

Definition StealsBeforeLocked s (a b : ExtentMeta) : bool :=
  if negb (eqb (x_resident_count a =? 0) (x_resident_count b =? 0))
  then x_resident_count a =? 0
  else
    let lhs := x_access_seq_sum a * x_resident_count b in
    let rhs := x_access_seq_sum b * x_resident_count a in
    if negb (lhs =? rhs) then lhs <? rhs
    else
      let heat_a := ExtentHeatLocked s a in
      let heat_b := ExtentHeatLocked s b in
      if negb (heat_a =? heat_b) then heat_a <? heat_b
      else x_useful_bytes a <? x_useful_bytes b.

(** [TouchLocked] in three stages: the recency marks of the slot ... *)
Definition touch_flags (index : nat) s : St :=
  upd_slot index (λ m, set_m_read_touches (λ n, n + 1) (set_m_referenced (λ _, true) m))
    (set_s_activity_seq (λ n, n + 1) s).

(** ... its move behind the hand of the class ring and of the global ring ... *)
Definition touch_rings (index c : nat) s : St :=
  let s := put_class_ring c
    (touch_ring RClass index (s_slots s) (c_ring_head (cls_at s c)) (c_hand (cls_at s c))) s in
  put_global_ring
    (touch_ring RGlobal index (s_slots s) (s_global_ring_head s) (s_global_hand s)) s.

(** ... and the heat of its class and extent. *)
Definition touch_heat (index c extent : nat) s : St :=
  let s := upd_class c (λ cls,
    set_c_read_touches (λ n, n + 1) (set_c_heat_seq (λ _, s_activity_seq s)
      (set_c_read_heat (λ _, DecayedHeat s (c_read_heat cls) (c_heat_seq cls) + kReadHeatUnit)
        cls))) s in
  let seq := m_access_seq (slot_at s index) in
  let s := upd_ext extent (λ x,
    set_x_access_seq_sum (λ n, n + (s_activity_seq s - seq))
      (set_x_heat_seq (λ _, s_activity_seq s)
        (set_x_read_heat (λ _, ExtentHeatLocked s x + kReadHeatUnit) x))) s in
  upd_slot index (set_m_access_seq (λ _, s_activity_seq s)) s.

Definition TouchLocked (index : nat) s : St :=
  let s := touch_flags index s in
  let ref := m_ref (slot_at s index) in
  touch_heat index (r_cls ref) (r_extent ref) (touch_rings index (r_cls ref) s).

(** ** Binding extents *)

Definition BindExtentLocked (cls_index extent_index : nat) (metadata_prepared : bool) s :
    ExtentBindResult * St :=
  if ((length (s_classes s) <=? cls_index)%nat || (length (s_extents s) <=? extent_index)%nat
      || negb (bool_decide (x_cls (ext_at s extent_index) = None)))
  then (kUnavailable, s)
  else
    let spe := c_slots_per_extent (cls_at s cls_index) in
    if spe =? 0 then (kUnavailable, s)
    else
      let '(ok, s) := if metadata_prepared then (true, s) else call_extent_bind extent_index s in
      if negb ok then (kPersistenceError, s)
      else
        let s := upd_ext extent_index (λ _,
          set_x_free_slots (λ _, spe) (set_x_total_slots (λ _, spe)
            (set_x_cls (λ _, Some cls_index) new_extent_meta))) s in
        let s := upd_class cls_index (set_c_bound_extents (λ n, n + 1)) s in
        let s := set_s_unbound (λ n, n - 1) s in
        (kBound, upd_class cls_index (λ cls,
          foldl (λ cls slot, PushFreeLocked extent_index slot cls) cls (seq 0 (Z.to_nat spe))) s).

(** The first unbound extent. *)
Definition first_unbound s : option nat :=
  fst <$> list_find (λ x : ExtentMeta, x_cls x = None) (s_extents s).

Definition BindFreeExtent (c : nat) s : ExtentBindResult * St :=
  if s_unbound s =? 0 then (kUnavailable, s)
  else
    match first_unbound s with
    | Some extent => BindExtentLocked c extent false s
    | None => (kUnavailable, s)
    end.

(** [DropExtentFree; --bound_extents; extent = {}; ++unbound]. *)
Definition unbind_extent (c e : nat) s : St :=
  let s := upd_class c (DropExtentFreeLocked e) s in
  let s := upd_class c (set_c_bound_extents (λ n, n - 1)) s in
  let s := upd_ext e (λ _, new_extent_meta) s in
  set_s_unbound (λ n, n + 1) s.

(** ** Retention bookkeeping *)

Definition upd_ret (g : Retention → Retention) s : St := set_s_retention g s.

Definition ProtectLocked (index : nat) s : St :=
  let ref := m_ref (slot_at s index) in
  let s := upd_ext (r_extent ref) (set_x_protected_slots (λ n, n + 1)) s in
  let s := upd_class (r_cls ref) (set_c_protected_slots (λ n, n + 1)) s in
  upd_ret (λ t, set_t_protected_slots (λ n, n + 1)
    (set_t_protected_bytes (λ n, n + r_slot_size ref) t)) s.

(** [if (n > 0) --n]. *)
Definition dec_pos (n : Z) : Z := if 0 <? n then n - 1 else n.

Definition UnprotectLocked (index : nat) s : St :=
  let ref := m_ref (slot_at s index) in
  let s := upd_ext (r_extent ref) (set_x_protected_slots dec_pos) s in
  let s := upd_class (r_cls ref) (set_c_protected_slots dec_pos) s in
  let s := upd_ret (λ t, set_t_protected_slots dec_pos
    (set_t_protected_bytes (λ n, n - Z.min n (r_slot_size ref)) t)) s in
  upd_slot index (set_m_retain_until (λ _, 0)) s.

Definition PushWheelLocked (key : BlockKey) (until : Z) s : St :=
  let wheel := t_wheel (s_retention s) in
  if wheel is [] then s
  else
    let b := Z.to_nat ((until / kWheelTickS) mod Z.of_nat (length wheel)) in
    upd_ret (λ t, set_t_wheel_entries (λ n, n + 1)
      (set_t_wheel (alter (λ l, l ++ [mkWheelEntry key until]) b) t)) s.

(** ** Freeing a slot *)

(** [FreeSlotLocked] up to the return of an empty extent. *)
Definition free_resident (index : nat) s : St :=
  let m := slot_at s index in
  let ref := m_ref m in
  let c := r_cls ref in
  let e := r_extent ref in
  let s := put_class_ring c
    (remove_ring RClass index (s_slots s) (c_ring_head (cls_at s c)) (c_hand (cls_at s c))) s in
  let s := upd_class c (set_c_resident_count (λ n, n - 1)) s in
  let s := upd_class c (λ cls,
    if c_resident_count cls =? 0 then set_c_hand (λ _, None) cls else cls) s in
  let s := put_global_ring
    (remove_ring RGlobal index (s_slots s) (s_global_ring_head s) (s_global_hand s)) s in
  let s := put_extent_list e
    (unlink RExtent index (s_slots s) (x_resident_head (ext_at s e))) s in
  let s := upd_ext e (λ x,
    set_x_access_seq_sum (λ n, n - m_access_seq m) (set_x_resident_count (λ n, n - 1) x)) s in
  let s := upd_ext e (set_x_pinned (λ n, if (0 <? m_refs m) && (0 <? n) then n - 1 else n)) s in
  let s := set_s_index (λ ix, (ix_erase (m_key m) ix).2) s in
  let s := upd_class c (PushFreeLocked e (r_slot ref)) s in
  let s := upd_ext e (λ x,
    set_x_useful_bytes (λ n, n - m_useful_bytes m) (set_x_free_slots (λ n, n + 1) x)) s in
  let s := upd_class c (set_c_useful_bytes (λ n, n - m_useful_bytes m)) s in
  let s := set_s_used_bytes (λ n, n - r_slot_size ref) s in
  release_meta index s.

(** An extent with no resident goes back to the pool when its class keeps more
    than [kStripeWays] extents with free slots. *)
Definition return_extent (c e : nat) s : St :=
  let x := ext_at s e in
  if ((x_free_slots x =? x_total_slots x)
      && (kStripeWays <? length (c_ext_rr (cls_at s c)))%nat)
  then set_s_counters (set_n_extent_returns (λ n, n + 1)) (unbind_extent c e s)
  else s.

Definition FreeSlotLocked (index : nat) s : St :=
  let s := if negb (m_retain_until (slot_at s index) =? 0) then UnprotectLocked index s else s in
  let ref := m_ref (slot_at s index) in
  return_extent (r_cls ref) (r_extent ref) (free_resident index s).

(** ** Eviction of one resident *)

(** Commit the eviction to the medium, then forget the resident. *)
Definition evict_victim (index : nat) s evicted : bool * St * list BlockKey :=
  let m := slot_at s index in
  let '(ok, s) := call_slot_evict (m_ref m) s in
  if negb ok then (false, s, evicted)
  else (true, count_eviction (FreeSlotLocked index s), evicted ++ [m_key m]).

(** After the sweep: the first unpinned, unprotected resident it met. *)
Definition evict_fallback (fallback : option nat) s evicted : bool * St * list BlockKey :=
  match fallback with
  | Some f => if m_live (slot_at s f) then evict_victim f s evicted else (false, s, evicted)
  | None => (false, s, evicted)
  end.

(** The CLOCK sweep of [EvictOneFrom]; [steps] is what remains of [limit]. *)
Fixpoint evict_sweep (steps : nat) (c : nat) (fallback : option nat) s evicted :
    bool * St * list BlockKey :=
  match steps with
  | O => evict_fallback fallback s evicted
  | S steps =>
      if c_resident_count (cls_at s c) =? 0 then evict_fallback fallback s evicted
      else
        let s := if c_hand (cls_at s c) is None
                 then upd_class c (λ cls, set_c_hand (λ _, c_ring_head cls) cls) s else s in
        match c_hand (cls_at s c) with
        | None => evict_fallback fallback s evicted (* no ring: the class is empty *)
        | Some current =>
            let m := slot_at s current in
            let s := upd_class c (λ cls,
              set_c_hand (λ _, ring_next (l_next (m_class m)) (c_ring_head cls)) cls) s in
            if 0 <? m_refs m then evict_sweep steps c fallback s evicted
            else if negb (m_retain_until m =? 0) then
              evict_sweep steps c fallback
                (upd_ret (set_t_evict_skipped (λ n, n + 1)) s) evicted
            else
              let fallback := or_else fallback (Some current) in
              if m_referenced m then
                evict_sweep steps c fallback
                  (upd_slot current (set_m_referenced (λ _, false)) s) evicted
              else evict_victim current s evicted
        end
  end.

Definition EvictOneFrom (c : nat) s evicted : bool * St * list BlockKey :=
  let resident := c_resident_count (cls_at s c) in
  if resident =? 0 then (false, s, evicted)
  else evict_sweep (Z.to_nat (2 * resident + 2)) c None s evicted.

(** ** Stealing extents *)

(** The running choice of the three victim loops over the extents. *)
Definition pick_extent (eligible : nat → bool) (before : nat → nat → bool) (n : nat) : option nat :=
  foldl (λ best e,
    if eligible e then
      match best with
      | None => Some e
      | Some b => if before e b then Some e else best
      end
    else best) None (seq 0 n).

(** The residents of an extent leave one by one, from its list head. *)
Fixpoint drain_extent (fuel : nat) (e : nat) s evicted : option (St * list BlockKey) :=
  match x_resident_head (ext_at s e) with
  | None => Some (s, evicted)
  | Some index =>
      match fuel with
      | O => None
      | S fuel =>
          let victim := m_key (slot_at s index) in
          drain_extent fuel e (count_eviction (FreeSlotLocked index s)) (evicted ++ [victim])
      end
  end.

Definition StealExtentLocked (e target_cls : nat) s evicted :
    option (ExtentBindResult * St * list BlockKey) :=
  let x := ext_at s e in
  match x_cls x with
  | None => Some (kUnavailable, s, evicted)
  | Some old_cls =>
      if ((length (s_classes s) <=? target_cls)%nat
          || (c_slots_per_extent (cls_at s target_cls) =? 0)
          || negb (x_pinned x =? 0) || negb (x_protected_slots x =? 0))
      then Some (kUnavailable, s, evicted)
      else
        let '(ok, s) := call_extent_bind e s in
        if negb ok then Some (kPersistenceError, s, evicted)
        else
          '(s, evicted) ← drain_extent (length (s_slots s)) e s evicted;
          let s := if x_cls (ext_at s e) is Some _ then unbind_extent old_cls e s else s in
          let '(result, s) := BindExtentLocked target_cls e true s in
          let s := if decide (result = kBound)
                   then set_s_counters (set_n_steals (λ n, n + 1)) s else s in
          Some (result, s, evicted)
  end.

Definition StealExtentFor (target_cls : nat) (min_donor_extents : Z) s evicted :
    option (ExtentBindResult * St * list BlockKey) :=
  let eligible e :=
    let x := ext_at s e in
    match x_cls x with
    | None => false
    | Some c =>
        negb (c =? target_cls)%nat && (x_pinned x =? 0) && (x_protected_slots x =? 0)
        && negb ((0 <? min_donor_extents)
                 && (c_bound_extents (cls_at s c) <=? min_donor_extents))
    end in
  match pick_extent eligible (λ e b, StealsBeforeLocked s (ext_at s e) (ext_at s b))
          (length (s_extents s)) with
  | None => Some (kUnavailable, s, evicted)
  | Some best => StealExtentLocked best target_cls s evicted
  end.

(** Coldest first: read heat, then useful bytes, then age. *)
Definition colder s (a b : ExtentMeta) : bool :=
  let heat := ExtentHeatLocked s a in
  let best_heat := ExtentHeatLocked s b in
  (heat <? best_heat)
  || ((heat =? best_heat) && (x_useful_bytes a <? x_useful_bytes b))
  || ((heat =? best_heat) && (x_useful_bytes a =? x_useful_bytes b)
      && (x_youngest_seq a <? x_youngest_seq b)).

Definition StealColdExtentFor (target_cls : nat) s evicted :
    option (ExtentBindResult * St * list BlockKey) :=
  if negb (s_cold_steal_enabled s) then Some (kUnavailable, s, evicted)
  else
    let window := if s_cold_window s =? 0 then Z.of_nat (ix_size (s_index s))
                  else s_cold_window s in
    if (window =? 0) || (s_put_seq s <=? window) then Some (kUnavailable, s, evicted)
    else
      let cold_before := s_put_seq s - window in
      let eligible e :=
        let x := ext_at s e in
        match x_cls x with
        | None => false
        | Some c =>
            negb (c =? target_cls)%nat && (x_pinned x =? 0) && (x_protected_slots x =? 0)
            && negb (x_resident_count x =? 0) && (x_youngest_seq x <? cold_before)
        end in
      match pick_extent eligible (λ e b, colder s (ext_at s e) (ext_at s b))
              (length (s_extents s)) with
      | None => Some (kUnavailable, s, evicted)
      | Some best =>
          '(result, s, evicted) ← StealExtentLocked best target_cls s evicted;
          let s := if decide (result = kBound)
                   then set_s_counters (set_n_cold_steals (λ n, n + 1)) s else s in
          Some (result, s, evicted)
      end.

Definition StealFrom (donor_cls target_cls : nat) s evicted :
    option (bool * St * list BlockKey) :=
  if ((donor_cls =? target_cls)%nat || (length (s_classes s) <=? donor_cls)%nat
      || (length (s_classes s) <=? target_cls)%nat
      || (c_slots_per_extent (cls_at s target_cls) =? 0))
  then Some (false, s, evicted)
  else
    let eligible e :=
      let x := ext_at s e in
      bool_decide (x_cls x = Some donor_cls) && (x_pinned x =? 0)
      && (x_protected_slots x =? 0) in
    match pick_extent eligible (λ e b, StealsBeforeLocked s (ext_at s e) (ext_at s b))
            (length (s_extents s)) with
    | None => Some (false, s, evicted)
    | Some best =>
        '(result, s, evicted) ← StealExtentLocked best target_cls s evicted;
        Some (bool_decide (result = kBound), s, evicted)
    end.

(** ** Put *)

(** [while (cls.ext_rr.size() < kStripeWays)]: [Some (false, _)] is a
    persistence error. *)
Fixpoint stripe_bind (fuel : nat) (c : nat) s : option (bool * St) :=
  if (length (c_ext_rr (cls_at s c)) <? kStripeWays)%nat then
    match fuel with
    | O => None
    | S fuel =>
        match BindFreeExtent c s with
        | (kBound, s) => stripe_bind fuel c s
        | (kPersistenceError, s) => Some (false, s)
        | (kUnavailable, s) => Some (true, s)
        end
    end
  else Some (true, s).

(** The placement loop; [Some (None, _, _)] is the failure of the Put. *)
Fixpoint put_place (fuel : nat) (c : nat) s evicted :
    option (option (nat * nat) * St * list BlockKey) :=
  match fuel with
  | O => None
  | S fuel =>
      '(bound, s) ← stripe_bind (S kStripeWays) c s;
      if negb bound then Some (None, s, evicted)
      else
        let '(popped, cls) := PopFreeLocked (cls_at s c) in
        let s := upd_class c (λ _, cls) s in
        match popped with
        | Some placement => Some (Some placement, s, evicted)
        | None =>
            '(grow, s, evicted) ←
              (if c_bound_extents (cls_at s c) <? Z.of_nat kStripeWays
               then StealExtentFor c (Z.of_nat kStripeWays) s evicted
               else Some (kUnavailable, s, evicted));
            match grow with
            | kBound => put_place fuel c s evicted
            | kPersistenceError => Some (None, s, evicted)
            | kUnavailable =>
                '(cold, s, evicted) ← StealColdExtentFor c s evicted;
                match cold with
                | kBound => put_place fuel c s evicted
                | kPersistenceError => Some (None, s, evicted)
                | kUnavailable =>
                    let '(ok, s, evicted) := EvictOneFrom c s evicted in
                    if ok then put_place fuel c s evicted
                    else
                      '(steal, s, evicted) ← StealExtentFor c 0 s evicted;
                      match steal with
                      | kBound => put_place fuel c s evicted
                      | _ => Some (None, s, evicted)
                      end
                end
            end
        end
  end.

(** Two rounds always suffice: a round that does not return leaves a free slot. *)
Definition put_fuel : nat := 2.

(** The record of a new resident ([key], [live], [ref], [useful_bytes]). *)
Definition init_meta (key : BlockKey) (c : nat) (extent slot : nat) (slot_size useful : Z)
    (m : SlotMeta) : SlotMeta :=
  set_m_live (λ _, true) (set_m_key (λ _, key) (set_m_useful_bytes (λ _, useful)
    (set_m_ref (λ _, mkSlotRef c extent slot slot_size (Z.of_nat slot * slot_size)) m))).

(** The counters [Put] updates for the resident it has linked. *)
Definition put_account (len : Z) (c extent index : nat) s : St :=
  let s := upd_class c (λ cls, set_c_useful_bytes (λ n, n + len) (set_c_puts (λ n, n + 1) cls)) s in
  let s := upd_ext extent (λ x,
    set_x_youngest_seq (λ n, Z.max n (s_put_seq s))
      (set_x_useful_bytes (λ n, n + len) (set_x_free_slots (λ n, n - 1) x))) s in
  let s := upd_slot index (set_m_access_seq (λ _, s_activity_seq s)) s in
  let s := upd_ext extent (set_x_access_seq_sum (λ n, n + s_activity_seq s)) s in
  set_s_used_bytes (λ n, n + r_slot_size (m_ref (slot_at s index))) s.

(** Everything [Put] does once it owns a free slot. *)
Definition put_install (key : BlockKey) (len : Z) (c : nat) (placement : nat * nat) s :
    option (SlotRef * nat) * St :=
  let '(extent, slot) := placement in
  let '(index, s) := AcquireSlotMetaLocked s in
  let s := upd_slot index (init_meta key c extent slot (c_slot_size (cls_at s c)) len) s in
  let s := set_s_put_seq (λ n, n + 1) s in
  let '(inserted, ix) := ix_insert key index (s_index s) in
  let s := set_s_index (λ _, ix) s in
  if negb inserted then
    (None, upd_class c (PushFreeLocked extent slot) (release_meta index s))
  else
    let s := put_account len c extent index (LinkResidentLocked index s) in
    (Some (m_ref (slot_at s index), index), s).

(** [Put]: the placement and handle of the key, or [None] for [false]. *)
Definition Put (key : BlockKey) (len : Z) s evicted :
    option (option (SlotRef * nat) * St * list BlockKey) :=
  let s := set_s_activity_seq (λ n, n + 1) s in
  match ix_find key (s_index s) with
  | Some existing =>
      let m := slot_at s existing in
      if m_remove_pending m then Some (None, s, evicted)
      else Some (Some (m_ref m, existing),
                 upd_slot existing (set_m_referenced (λ _, true)) s, evicted)
  | None =>
      if (len =? 0) || (o_extent_bytes (s_opt s) <? len) || (UINT32_MAX <? len)
      then Some (None, s, evicted)
      else
        let aligned := AlignUp len (o_align (s_opt s)) in
        if (aligned =? 0) || (o_extent_bytes (s_opt s) <? aligned)
        then Some (None, s, evicted)
        else
          let c := ClassForLen s aligned in
          if (length (s_classes s) <=? c)%nat then Some (None, s, evicted)
          else
            '(placement, s, evicted) ← put_place put_fuel c s evicted;
            match placement with
            | None => Some (None, s, evicted)
            | Some placement =>
                let '(out, s) := put_install key len c placement s in
                Some (out, s, evicted)
            end
  end.

(** ** Lookup, removal and pins *)

Definition Get (key : BlockKey) s : option SlotRef * St :=
  match ix_find key (s_index s) with
  | None => (None, s)
  | Some index =>
      if m_remove_pending (slot_at s index) then (None, s)
      else
        let s := TouchLocked index s in
        (Some (m_ref (slot_at s index)), s)
  end.

(** [if (meta.refs == 0) ++extent.pinned; ++meta.refs;]; the count is a
    [uint32_t]. *)
Definition pin_slot (index : nat) s : St :=
  let m := slot_at s index in
  let s := if m_refs m =? 0
           then upd_ext (r_extent (m_ref m)) (set_x_pinned (λ n, n + 1)) s else s in
  upd_slot index (set_m_refs (λ n, u32 (n + 1))) s.

Definition GetAndPin (key : BlockKey) s : option SlotRef * St :=
  match ix_find key (s_index s) with
  | None => (None, s)
  | Some index =>
      if m_remove_pending (slot_at s index) then (None, s)
      else
        let s := pin_slot index (TouchLocked index s) in
        (Some (m_ref (slot_at s index)), s)
  end.

Definition Contains (key : BlockKey) s : bool :=
  match ix_find key (s_index s) with
  | None => false
  | Some index => negb (m_remove_pending (slot_at s index))
  end.

Definition Remove (key : BlockKey) s : RemoveResult * St :=
  match ix_find key (s_index s) with
  | None => (kRemoveNotFound, s)
  | Some index =>
      if 0 <? m_refs (slot_at s index) then
        (kDeferred, upd_slot index
          (λ m, set_m_referenced (λ _, false) (set_m_remove_pending (λ _, true) m)) s)
      else (kRemoved, FreeSlotLocked index s)
  end.

Definition Pin (key : BlockKey) s : bool * St :=
  match ix_find key (s_index s) with
  | None => (false, s)
  | Some index =>
      if m_remove_pending (slot_at s index) then (false, s)
      else (true, pin_slot index s)
  end.

(** The common tail of both [Unpin]s. *)
Definition unpin_slot (index : nat) s : St :=
  let s := upd_slot index (set_m_refs (λ n, n - 1)) s in
  let m := slot_at s index in
  if m_refs m =? 0 then
    let s := upd_ext (r_extent (m_ref m)) (set_x_pinned dec_pos) s in
    if m_remove_pending m then FreeSlotLocked index s else s
  else s.

Definition Unpin (key : BlockKey) s : bool * St :=
  match ix_find key (s_index s) with
  | None => (false, s)
  | Some index =>
      if m_refs (slot_at s index) =? 0 then (false, s)
      else (true, unpin_slot index s)
  end.

(** Pin and Unpin through the handle Put returned. *)
Definition PinHandle (key : BlockKey) (handle : option nat) s : bool * St :=
  match handle with
  | None => (false, s)
  | Some index =>
      if (length (s_slots s) <=? index)%nat then (false, s)
      else
        let m := slot_at s index in
        if negb (m_live m) || negb (key_eqb (m_key m) key) || m_remove_pending m
        then (false, s) else (true, pin_slot index s)
  end.

Definition UnpinHandle (key : BlockKey) (handle : option nat) s : bool * St :=
  match handle with
  | None => (false, s)
  | Some index =>
      if (length (s_slots s) <=? index)%nat then (false, s)
      else
        let m := slot_at s index in
        if negb (m_live m) || negb (key_eqb (m_key m) key) || (m_refs m =? 0)
        then (false, s) else (true, unpin_slot index s)
  end.

(** ** Rebalancing and reclaim *)

Definition Classes s : list ClassStat :=
  (λ cls, mkClassStat (c_slot_size cls) (c_free_count cls) (c_resident_count cls)
     (c_puts cls) (c_bound_extents cls) (c_slots_per_extent cls) (c_useful_bytes cls)
     (c_resident_count cls * c_slot_size cls) (c_read_touches cls)
     (DecayedHeat s (c_read_heat cls) (c_heat_seq cls))) <$> s_classes s.

(** [std::make_pair(a, b) < std::make_pair(c, d)]. *)
Definition pair_ltb (p q : Z * Z) : bool :=
  (p.1 <? q.1) || ((p.1 =? q.1) && (p.2 <? q.2)).

(** [demand] is byte demand, in 64 bits. *)
Definition ColdestGrowDonor (classes : list ClassStat) (delta extents : list Z) (hot : nat) : nat :=
  let n := length classes in
  let demand d := u64 (delta !!! d * cs_slot_size (classes !!! d)) in
  foldl (λ donor d,
    if (d =? hot)%nat || (extents !!! d <=? Z.of_nat kStripeWays) then donor
    else if negb (demand d =? 0) && (demand hot <? u64 (demand d * 4)) then donor
    else if (donor =? n)%nat
            || pair_ltb (demand d, UINT64_MAX - extents !!! d)
                 (demand donor, UINT64_MAX - extents !!! donor)
    then d else donor) n (seq 0 n).

(** [ReclaimClass]'s loop; [victims] is what remains of [max_victims]. *)
Fixpoint reclaim_loop (victims : nat) (c : nat) (target_free : Z) (count : nat) s evicted :
    nat * St * list BlockKey :=
  match victims with
  | O => (count, s, evicted)
  | S victims =>
      let before := c_free_count (cls_at s c) in
      if target_free <=? before then (count, s, evicted)
      else if 0 <? s_unbound s then (count, s, evicted)
      else
        let '(ok, s, evicted) := EvictOneFrom c s evicted in
        if negb ok then (count, s, evicted)
        else if c_free_count (cls_at s c) <=? before then (S count, s, evicted)
        else reclaim_loop victims c target_free (S count) s evicted
  end.

Definition ReclaimClass (c : nat) (target_free : Z) (max_victims : nat) s evicted :
    nat * St * list BlockKey :=
  if (length (s_classes s) <=? c)%nat then (0%nat, s, evicted)
  else reclaim_loop max_victims c target_free 0 s evicted.

(** The medium's answer to evicting the resident [m] of extent [x]. *)
Definition call_watermark_evict (m : SlotMeta) (x : ExtentMeta) s : bool * St :=
  match o_on_extent_evict (s_opt s) with
  | Some f =>
      if x_resident_count x =? 1 then
        let e := r_extent (m_ref m) in
        let ok := f (s_cb_log s) e (x_total_slots x) 1 in
        (ok, set_s_cb_log (λ l, l ++ [EvExtentEvict e (x_total_slots x) 1 ok]) s)
      else if o_on_slot_evict (s_opt s) is Some _ then call_slot_evict (m_ref m) s
      else (false, s)
  | None => call_slot_evict (m_ref m) s
  end.

(** [EvictColdToTarget]'s sweep of the global ring; [steps] is what remains of
    the visit limit. *)
Fixpoint watermark_loop (steps : nat) (target_bytes : Z) (max_victims freed : nat) s evicted :
    nat * St * list BlockKey :=
  match steps with
  | O => (freed, s, evicted)
  | S steps =>
      if (freed <? max_victims)%nat && (target_bytes <? s_used_bytes s) then
        match s_global_hand s with
        | None => (freed, s, evicted)
        | Some index =>
            let s := set_s_counters (set_n_watermark_scan_steps (λ n, n + 1)) s in
            let m := slot_at s index in
            let next := ring_next (l_next (m_global m)) (s_global_ring_head s) in
            if 0 <? m_refs m then
              watermark_loop steps target_bytes max_victims freed
                (set_s_global_hand (λ _, next) s) evicted
            else if negb (m_retain_until m =? 0) then
              watermark_loop steps target_bytes max_victims freed
                (set_s_global_hand (λ _, next)
                  (upd_ret (set_t_evict_skipped (λ n, n + 1)) s)) evicted
            else
              let '(ok, s) := call_watermark_evict m (ext_at s (r_extent (m_ref m))) s in
              if negb ok then (freed, s, evicted)
              else
                let s := count_eviction (FreeSlotLocked index s) in
                let s := set_s_counters (set_n_watermark_evictions (λ n, n + 1)) s in
                watermark_loop steps target_bytes max_victims (S freed) s
                  (evicted ++ [m_key m])
        end
      else (freed, s, evicted)
  end.

Definition EvictColdToTarget (target_bytes : Z) (max_victims : nat) s evicted :
    nat * St * list BlockKey :=
  let limit := if SIZE_MAX / 4 <? Z.of_nat max_victims then Z.to_nat SIZE_MAX
               else (4 * max_victims)%nat in
  watermark_loop limit target_bytes max_victims 0 s evicted.

(** ** Accessors *)

Definition Count s : nat := ix_size (s_index s).
Definition UsedBytes s : Z := s_used_bytes s.
Definition Capacity s : Z := Z.of_nat (o_num_extents (s_opt s)) * o_extent_bytes (s_opt s).
Definition PoolExtents s : Z := s_unbound s.
Definition BoundExtents s : nat :=
  length (filter (λ x : ExtentMeta, x_cls x ≠ None) (s_extents s)).

(** ** Retention *)

Definition ConfigureRetention (options : RetainOptions) (now_s : Z) s : St :=
  let enabled := ro_enabled options && negb (ro_max_ttl_s options =? 0) in
  let opt := mkRetainOptions enabled (ro_budget_bytes options)
    (if 100 <? ro_class_pct options then 100 else ro_class_pct options)
    (ro_max_ttl_s options) (ro_persist_min_delta_s options) in
  upd_ret (λ t,
    set_t_wheel_tick (λ _, if now_s / kWheelTickS =? 0 then 0 else now_s / kWheelTickS - 1)
      (set_t_wheel_entries (λ _, 0)
        (set_t_wheel (λ _, replicate (if enabled
             then Z.to_nat (ro_max_ttl_s options / kWheelTickS + 2) else 0%nat) [])
          (set_t_now_s (λ _, now_s) (set_t_opt (λ _, opt) t))))) s.

Definition ClassProtectCapLocked s (cls : Class_) : Z :=
  let slots := c_bound_extents cls * c_slots_per_extent cls in
  Z.min (slots * ro_class_pct (t_opt (s_retention s)) / 100) UINT32_MAX.

Definition count_result (code : RetainCode) s : St :=
  upd_ret (set_t_results (alter (λ n, n + 1) (retain_code_index code))) s.

(** [if (now_s > retain_now_s_) retain_now_s_ = now_s]. *)
Definition advance_clock (now_s : Z) s : St :=
  if t_now_s (s_retention s) <? now_s then upd_ret (set_t_now_s (λ _, now_s)) s else s.

(** Protection, stored TTL and deadline of a renewed resident. *)
Definition retain_state (index : nat) (eff new_until : Z) s : St :=
  let m := slot_at s index in
  let was_protected := negb (m_retain_until m =? 0) in
  let s := if was_protected then s else ProtectLocked index s in
  let s := upd_slot index (set_m_retain_ttl_s (λ _, eff)) s in
  if negb (new_until =? m_retain_until m) || negb was_protected
  then PushWheelLocked (m_key m) new_until
         (upd_slot index (set_m_retain_until (λ _, new_until)) s)
  else s.

(** The renewal of [Retain], once the TTL to apply is known and the budget
    admits it. *)
Definition retain_apply (index : nat) (stored eff : Z) s : RetainOutcome * St :=
  let m := slot_at s index in
  let was_protected := negb (m_retain_until m =? 0) in
  let candidate := t_now_s (s_retention s) + eff in
  let new_until := Z.max (m_retain_until m) (Z.min candidate UINT32_MAX) in
  let code := if negb was_protected then kProtectedNew
              else if stored <? eff then kUpgraded
              else if m_retain_until m <? new_until then kRefreshed
              else kUnchanged in
  let s := retain_state index eff new_until s in
  let delta_floor := Z.max (ro_persist_min_delta_s (t_opt (s_retention s))) (eff / 4) in
  let persist := bool_decide (code = kProtectedNew) || bool_decide (code = kUpgraded)
    || (u32 (m_retain_persisted_until m + delta_floor) <=? m_retain_until (slot_at s index)) in
  let s := if persist
           then upd_slot index (λ m, set_m_retain_persisted_until (λ _, m_retain_until m) m) s
           else s in
  let m := slot_at s index in
  (mkRetainOutcome code (m_ref m) (m_retain_until m) (m_retain_ttl_s m) persist,
   count_result code s).

Definition Retain (key : BlockKey) (ttl_s : Z) (mode : RetainMode) (now_s : Z) s :
    RetainOutcome * St :=
  let s := advance_clock now_s s in
  match ix_find key (s_index s) with
  | None => (mkRetainOutcome kMiss no_ref 0 0 false, count_result kMiss s)
  | Some index =>
      if m_remove_pending (slot_at s index)
      then (mkRetainOutcome kMiss no_ref 0 0 false, count_result kMiss s)
      else if negb (ro_enabled (t_opt (s_retention s)))
      then (mkRetainOutcome kHitUnprotected no_ref 0 0 false, count_result kHitUnprotected s)
      else
        let s := if mode is kRefresh then TouchLocked index s else s in
        let m := slot_at s index in
        let max_ttl := ro_max_ttl_s (t_opt (s_retention s)) in
        let stored := Z.min (m_retain_ttl_s m) max_ttl in
        let requested := Z.min ttl_s max_ttl in
        let eff := if mode is kRefresh then stored else Z.max stored requested in
        if eff =? 0
        then (mkRetainOutcome kHitUnprotected (m_ref m) 0 0 false, count_result kHitUnprotected s)
        else
          let cls := cls_at s (r_cls (m_ref m)) in
          if ((m_retain_until m =? 0)
              && ((ro_budget_bytes (t_opt (s_retention s))
                     <? t_protected_bytes (s_retention s) + r_slot_size (m_ref m))
                  || (ClassProtectCapLocked s cls <? c_protected_slots cls + 1)))
          then (mkRetainOutcome kDenied (m_ref m) 0 (m_retain_ttl_s m) false,
                count_result kDenied s)
          else retain_apply index stored eff s
  end.

(** One entry of a drained bucket; returns whether it is kept. *)
Definition expire_entry (now : Z) (entry : WheelEntry) (acc : list WheelEntry * nat * St) :
    list WheelEntry * nat * St :=
  let '(keep, cleared, s) := acc in
  if now <? we_until entry then (keep ++ [entry], cleared, s)
  else
    let s := upd_ret (set_t_wheel_entries (λ n, n - 1)) s in
    match ix_find (we_key entry) (s_index s) with
    | None => (keep, cleared, s)
    | Some index =>
        let m := slot_at s index in
        if negb (m_live m) || negb (m_retain_until m =? we_until entry) then (keep, cleared, s)
        else
          let s := UnprotectLocked index s in
          let s := upd_slot index (set_m_referenced (λ _, false)) s in
          (keep, S cleared, upd_ret (set_t_expired (λ n, n + 1)) s)
    end.

(** [while (wheel_tick_ < target)]; [ticks] is [target - wheel_tick_]. *)
Fixpoint expire_ticks (ticks : nat) (now : Z) (cleared : nat) s : nat * St :=
  match ticks with
  | O => (cleared, s)
  | S ticks =>
      let s := upd_ret (set_t_wheel_tick (λ n, n + 1)) s in
      let t := s_retention s in
      let b := Z.to_nat (t_wheel_tick t mod Z.of_nat (length (t_wheel t))) in
      let '(keep, cleared, s) :=
        foldl (λ acc entry, expire_entry now entry acc) ([], cleared, s) (t_wheel t !!! b) in
      expire_ticks ticks now cleared (upd_ret (set_t_wheel (<[b := keep]>)) s)
  end.

Definition ExpireRetention (now_s : Z) s : nat * St :=
  let s := advance_clock now_s s in
  let t := s_retention s in
  if t_wheel t is [] then (0%nat, s)
  else
    let now := t_now_s t in
    let target := if now / kWheelTickS =? 0 then 0 else now / kWheelTickS - 1 in
    if target <=? t_wheel_tick t then (0%nat, s)
    else
      let size := Z.of_nat (length (t_wheel t)) in
      let s := if size <? target - t_wheel_tick t
               then upd_ret (set_t_wheel_tick (λ _, target - size)) s else s in
      expire_ticks (Z.to_nat (target - t_wheel_tick (s_retention s))) now 0 s.

Definition RetentionHeadroomPct s : Z :=
  let t := s_retention s in
  let budget := ro_budget_bytes (t_opt t) in
  if negb (ro_enabled (t_opt t)) || (budget =? 0) then 0
  else (budget - Z.min (t_protected_bytes t) budget) * 100 / budget.

Definition GetRetentionStats s : RetentionStats :=
  let t := s_retention s in
  mkRetentionStats (ro_enabled (t_opt t)) (ro_budget_bytes (t_opt t)) (t_protected_bytes t)
    (t_protected_slots t)
    (length (filter (λ x : ExtentMeta, x_protected_slots x ≠ 0) (s_extents s)))
    (t_expired t) (t_evict_skipped t) (t_wheel_entries t) (ro_max_ttl_s (t_opt t))
    (RetentionHeadroomPct s) (t_results t).

(** ** Restore *)

(** Facts about the batch that validation accumulates. *)
Record RestoreScan := mkRestoreScan {
  rs_keys : list BlockKey;
  rs_placements : gset Z;
  rs_extent_sizes : gmap nat Z;
}.

(** [(uint64_t(extent) << 32) | slot]. *)
Definition placement_of (entry : RestoreEntry) : Z :=
  Z.lor (Z.shiftl (Z.of_nat (re_extent entry)) 32) (Z.of_nat (re_slot entry)).

(** The checks on one entry. *)
Definition restore_check s (entry : RestoreEntry) (scan : RestoreScan) : option RestoreScan :=
  let size := re_slot_size entry in
  if ((size =? 0) || (length (s_extents s) <=? re_extent entry)%nat
      || (o_extent_bytes (s_opt s) <? size)
      || (size <? re_value_bytes entry)
      || negb (CanonicalSlotSize (s_opt s) size =? size)
      || (ClassForExactSize s size =? length (s_classes s))%nat
      || (o_extent_bytes (s_opt s) / size <=? Z.of_nat (re_slot entry))
      || bool_decide (is_Some (ix_find (re_key entry) (s_index s))))
  then None
  else if bool_decide (placement_of entry ∈ rs_placements scan) then None
  else if bool_decide (default size (rs_extent_sizes scan !! re_extent entry) ≠ size) then None
  else
    let scan := mkRestoreScan (rs_keys scan ++ [re_key entry])
      ({[placement_of entry]} ∪ rs_placements scan)
      (<[re_extent entry := size]> (rs_extent_sizes scan)) in
    match x_cls (ext_at s (re_extent entry)) with
    | None => Some scan
    | Some c =>
        let cls := cls_at s c in
        if negb (c_slot_size cls =? size) then None
        else if bool_decide (re_slot entry ∈ free_of cls (re_extent entry)) then Some scan
        else None
    end.

Fixpoint restore_validate s (entries : list RestoreEntry) (scan : RestoreScan) :
    option RestoreScan :=
  match entries with
  | [] => Some scan
  | entry :: entries => scan ← restore_check s entry scan; restore_validate s entries scan
  end.

(** Restored protection, re-clamped to the current cap. *)
Definition restore_retention (entry : RestoreEntry) (index : nat) s : St :=
  let t := s_retention s in
  let now := t_now_s t in
  if ro_enabled (t_opt t) then
    let ttl := Z.min (re_retain_ttl_s entry) (ro_max_ttl_s (t_opt t)) in
    if (now <? re_retain_until entry) && negb (re_retain_ttl_s entry =? 0) then
      let until := Z.min (re_retain_until entry) (now + ttl) in
      let s := upd_slot index (λ m, set_m_retain_persisted_until (λ _, until)
        (set_m_retain_until (λ _, until) (set_m_retain_ttl_s (λ _, ttl) m))) s in
      PushWheelLocked (re_key entry) until (ProtectLocked index s)
    else upd_slot index (set_m_retain_ttl_s (λ _, ttl)) s
  else s.

(** The counters of a restored resident. *)
Definition restore_account (entry : RestoreEntry) (c : nat) s : St :=
  let s := upd_ext (re_extent entry) (λ x, set_x_useful_bytes (λ n, n + re_value_bytes entry)
    (set_x_free_slots (λ n, n - 1) x)) s in
  let s := upd_class c (set_c_useful_bytes (λ n, n + re_value_bytes entry)) s in
  set_s_used_bytes (λ n, n + re_slot_size entry) s.

(** Binds the entry's extent to class [c] unless it is bound. *)
Definition restore_bind (entry : RestoreEntry) (c : nat) s : bool * St :=
  if x_cls (ext_at s (re_extent entry)) is None then
    let '(result, s) := BindExtentLocked c (re_extent entry) true s in
    (bool_decide (result = kBound), s)
  else (true, s).

(** The record of a restored resident, once its slot is off the free list. *)
Definition restore_record (entry : RestoreEntry) (c : nat) s : bool * St :=
  let '(index, s) := AcquireSlotMetaLocked s in
  let s := upd_slot index (init_meta (re_key entry) c (re_extent entry) (re_slot entry)
    (re_slot_size entry) (re_value_bytes entry)) s in
  let '(inserted, ix) := ix_insert (re_key entry) index (s_index s) in
  let s := set_s_index (λ _, ix) s in
  if negb inserted then (false, s)
  else
    let s := restore_account entry c (LinkResidentLocked index s) in
    (true, restore_retention entry index s).

(** The second pass for one entry. *)
Definition restore_one (entry : RestoreEntry) s : bool * St :=
  let c := ClassForExactSize s (re_slot_size entry) in
  let '(bound, s) := restore_bind entry c s in
  if negb bound then (false, s)
  else
    let '(took, cls) := TakeFreeSlotLocked (re_extent entry) (re_slot entry) (cls_at s c) in
    if negb took then (false, s)
    else restore_record entry c (upd_class c (λ _, cls) s).

Fixpoint restore_install (entries : list RestoreEntry) s : bool * St :=
  match entries with
  | [] => (true, s)
  | entry :: entries =>
      let '(ok, s) := restore_one entry s in
      if ok then restore_install entries s else (false, s)
  end.

Definition RestoreBulk (entries : list RestoreEntry) s : bool * St :=
  if entries is [] then (true, s)
  else
    match restore_validate s entries (mkRestoreScan [] ∅ ∅) with
    | None => (false, s)
    | Some scan =>
        if adjacent_find (merge_sort key_le (rs_keys scan)) then (false, s)
        else
          let s := set_s_index (ix_reserve (ix_size (s_index s) + length entries)) s in
          restore_install entries s
    end.

End ops.

(** The allocator over its own index. *)
Notation Allocator := (SlabAllocator FlatKeyIndex).
