(* ===== verification/SlabInv.v ===== *)
(** * Slab allocator: the representation invariant

    [wf s g hole] relates the allocator's linked, indexed and counted state to
    ghost lists [g]: the residents in sweep order of the global ring and of
    each class ring, the residents of each extent, and the recycled metadata.
    [hole] is a physical slot popped from its free list and not yet owned by a
    resident (between [PopFreeLocked] and the end of an installation). *)

From stdpp Require Import functions.
From S2P Require Import Prelude KvTypes KeyIndex SlabTypes SlabLattice SlabRing SlabFree SlabOps.

(** ** Vocabulary *)

(** The slot table without its links. *)
Definition data {IX} (s : SlabAllocator IX) : list SlotMeta := strip <$> s_slots s.

Definition xcls {IX} (s : SlabAllocator IX) : list (option nat) := x_cls <$> s_extents s.

Definition geom (cls : Class_) : Z * Z := (c_slot_size cls, c_slots_per_extent cls).

(** Weights summed by the counters. *)
Definition w_prot (m : SlotMeta) : Z := if m_retain_until m =? 0 then 0 else 1.
Definition w_pin (m : SlotMeta) : Z := if 0 <? m_refs m then 1 else 0.
Definition w_size (m : SlotMeta) : Z := r_slot_size (m_ref m).
Definition w_prot_bytes (m : SlotMeta) : Z := if m_retain_until m =? 0 then 0 else w_size m.

Definition sumD (f : SlotMeta → Z) (D : list SlotMeta) (l : list nat) : Z :=
  sumZ (λ i, f (D !!! i)) l.

Definition slot_of (D : list SlotMeta) (i : nat) : nat := r_slot (m_ref (D !!! i)).

Definition count_cls (o : option nat) (xc : list (option nat)) : Z :=
  Z.of_nat (length (filter (λ c, c = o) xc)).

Definition hole_at (hole : option (nat * nat)) (e : nat) : list nat :=
  match hole with
  | Some (e', slot) => if decide (e' = e) then [slot] else []
  | None => []
  end.

(** The recycled metadata: a null-terminated list through [free_next]. *)
Fixpoint free_chain (N : list (option nat)) (hd : option nat) (l : list nat) : Prop :=
  match l with
  | [] => hd = None
  | i :: l' => hd = Some i ∧ ∃ n, N !! i = Some n ∧ free_chain N n l'
  end.

Record Ghost := mkGhost {
  g_all : list nat;
  g_cls : nat → list nat;
  g_ext : nat → list nat;
  g_free : list nat;
}.

(** ** The invariant *)

Definition live_at (D : list SlotMeta) (i : nat) (m : SlotMeta) : Prop :=
  D !! i = Some m ∧ m_live m = true.

Record member_ok (D : list SlotMeta) (g : Ghost) : Prop := {
  mb_all i : i ∈ g_all g ↔ ∃ m, live_at D i m;
  mb_cls c i : i ∈ g_cls g c ↔ ∃ m, live_at D i m ∧ r_cls (m_ref m) = c;
  mb_ext e i : i ∈ g_ext g e ↔ ∃ m, live_at D i m ∧ r_extent (m_ref m) = e;
  mb_free i : i ∈ g_free g ↔ ∃ m, D !! i = Some m ∧ m_live m = false;
}.

(** A resident's placement is inside an extent bound to its class. *)
Record resident_ok (geoms : list (Z * Z)) (xc : list (option nat)) (m : SlotMeta) : Prop := {
  rs_class : ∃ spe, geoms !! r_cls (m_ref m) = Some (r_slot_size (m_ref m), spe);
  rs_extent : xc !! r_extent (m_ref m) = Some (Some (r_cls (m_ref m)));
  rs_offset : r_offset (m_ref m) = Z.of_nat (r_slot (m_ref m)) * r_slot_size (m_ref m);
  rs_useful : 0 <= m_useful_bytes m <= r_slot_size (m_ref m);
  rs_refs : is_u32 (m_refs m);
  rs_until : 0 <= m_retain_until m;
}.

Record cls_ok (D : list SlotMeta) (xc : list (option nat)) (lc : list nat) (c : nat)
    (cls : Class_) : Prop := {
  co_free : free_ok cls;
  co_resident : c_resident_count cls = Z.of_nat (length lc);
  co_useful : c_useful_bytes cls = sumD m_useful_bytes D lc;
  co_prot : c_protected_slots cls = sumD w_prot D lc;
  co_bound : c_bound_extents cls = count_cls (Some c) xc;
}.

(** A bound extent: its slots are free, resident, or the hole; and its sums. *)
Record ext_bound (D : list SlotMeta) (hole : option (nat * nat)) (lx : list nat) (e : nat)
    (cls : Class_) (x : ExtentMeta) : Prop := {
  eb_total : x_total_slots x = c_slots_per_extent cls;
  eb_slots : free_of cls e ++ (slot_of D <$> lx) ++ hole_at hole e
             ≡ₚ seq 0 (Z.to_nat (c_slots_per_extent cls));
  eb_free : x_free_slots x = Z.of_nat (length (free_of cls e) + length (hole_at hole e));
  eb_pinned : x_pinned x = sumD w_pin D lx;
  eb_seq : x_access_seq_sum x = sumD m_access_seq D lx;
  eb_useful : x_useful_bytes x = sumD m_useful_bytes D lx;
  eb_count : x_resident_count x = Z.of_nat (length lx);
  eb_prot : x_protected_slots x = sumD w_prot D lx;
}.

Definition ext_ok (D : list SlotMeta) (classes : list Class_) (hole : option (nat * nat))
    (lx : list nat) (e : nat) (x : ExtentMeta) : Prop :=
  match x_cls x with
  | None => x = new_extent_meta ∧ hole_at hole e = []
  | Some c => ∃ cls, classes !! c = Some cls ∧ ext_bound D hole lx e cls x
  end.

Record rings_ok {IX} (s : SlabAllocator IX) (g : Ghost) : Prop := {
  rk_all : ring (links RGlobal (s_slots s)) (s_global_ring_head s) (s_global_hand s) (g_all g);
  rk_cls c cls : s_classes s !! c = Some cls →
    ring (links RClass (s_slots s)) (c_ring_head cls) (c_hand cls) (g_cls g c);
  rk_ext e x : s_extents s !! e = Some x →
    dll (links RExtent (s_slots s)) (x_resident_head x) (g_ext g e);
  rk_free : free_chain (m_free_next <$> s_slots s) (s_free_slot_meta_head s) (g_free g);
  rk_free_nodup : NoDup (g_free g);
}.

Section invariant.
Context {IX : Type} {ixo : KeyIndexOps IX} {ixl : KeyIndexLaws IX}.
Notation St := (SlabAllocator IX).
Implicit Types (s : St) (g : Ghost) (hole : option (nat * nat)).

Record wf s g hole : Prop := {
  wf_opt : opts_ok (s_opt s);
  wf_geom : geom <$> s_classes s = geom <$> class_lattice (s_opt s);
  wf_extents : length (s_extents s) = o_num_extents (s_opt s);
  wf_ix : ix_wf (s_index s);
  wf_find k i : ix_find k (s_index s) = Some i ↔ ∃ m, live_at (data s) i m ∧ m_key m = k;
  wf_size : ix_size (s_index s) = length (g_all g);
  wf_members : member_ok (data s) g;
  wf_rings : rings_ok s g;
  wf_res i m : live_at (data s) i m → resident_ok (geom <$> s_classes s) (xcls s) m;
  wf_cls c cls : s_classes s !! c = Some cls → cls_ok (data s) (xcls s) (g_cls g c) c cls;
  wf_ext e x : s_extents s !! e = Some x →
    ext_ok (data s) (s_classes s) hole (g_ext g e) e x;
  wf_space c cls e : s_classes s !! c = Some cls → free_of cls e ≠ [] →
    xcls s !! e = Some (Some c);
  wf_unbound : s_unbound s = count_cls None (xcls s);
  wf_used : s_used_bytes s = sumD w_size (data s) (g_all g);
  wf_prot_bytes : t_protected_bytes (s_retention s) = sumD w_prot_bytes (data s) (g_all g);
  wf_prot_slots : t_protected_slots (s_retention s) = sumD w_prot (data s) (g_all g);
}.

(** The invariant of the allocator between operations. *)
Definition WF s : Prop := ∃ g, wf s g None.

End invariant.

(** ** Data and sums *)

Section sums.
Local Open Scope nat_scope.
Implicit Types (D : list SlotMeta) (l : list nat) (f : SlotMeta → Z).

Lemma sumD_ext f D D' l : (∀ i, i ∈ l → D' !! i = D !! i) → sumD f D' l = sumD f D l.
Proof.
  intros H. apply sumZ_ext_in. intros i Hi. by rewrite !list_lookup_total_alt, H.
Qed.

Lemma sumD_app f D l1 l2 : sumD f D (l1 ++ l2) = (sumD f D l1 + sumD f D l2)%Z.
Proof. apply sumZ_app. Qed.

Lemma sumD_middle f D l1 i l2 m :
  D !! i = Some m → sumD f D (l1 ++ i :: l2) = (sumD f D (l1 ++ l2) + f m)%Z.
Proof.
  intros H. unfold sumD. rewrite sumZ_middle. by rewrite (list_lookup_total_correct _ _ _ H).
Qed.

Lemma sumD_cons f D i l m : D !! i = Some m → sumD f D (i :: l) = (f m + sumD f D l)%Z.
Proof. intros H. unfold sumD. simpl. by rewrite (list_lookup_total_correct _ _ _ H). Qed.

#[export] Instance sumD_Permutation f D : Proper ((≡ₚ) ==> (=)) (sumD f D).
Proof. intros l1 l2 Hp. unfold sumD. by rewrite Hp. Qed.

(** Changing one slot. *)
Lemma sumD_insert f D l i m m' :
  NoDup l → D !! i = Some m →
  sumD f (<[i := m']> D) l = (sumD f D l + if decide (i ∈ l) then f m' - f m else 0)%Z.
Proof.
  intros Hnd Hi. pose proof (lookup_lt_Some _ _ _ Hi) as Hlt. case_decide as Hin.
  - destruct (NoDup_split l i Hnd Hin) as (l1 & l2 & -> & H1 & H2).
    rewrite (sumD_middle _ _ _ _ _ m'), (sumD_middle _ _ _ _ _ m)
      by (done || by rewrite list_lookup_insert_eq).
    rewrite (sumD_ext f D); [lia|]. intros j Hj. rewrite list_lookup_insert_ne; [done|].
    intros ->. apply elem_of_app in Hj as [?|?]; done.
  - rewrite (sumD_ext f D); [lia|]. intros j Hj. rewrite list_lookup_insert_ne; [done|].
    by intros ->.
Qed.

Lemma slot_of_fmap_ext D D' l : (∀ i, i ∈ l → D' !! i = D !! i) → slot_of D' <$> l = slot_of D <$> l.
Proof.
  intros H. apply list_fmap_ext. intros k i Hk. unfold slot_of.
  rewrite !list_lookup_total_alt, H; [done|]. by eapply list_elem_of_lookup_2.
Qed.

Lemma sumD_nonneg f D l : (∀ i, i ∈ l → 0 <= f (D !!! i))%Z → (0 <= sumD f D l)%Z.
Proof. apply sumZ_nonneg. Qed.

End sums.

(** ** Tables under [alter] *)

Lemma alter_Some {A} (f : A → A) (i j : nat) (l : list A) y :
  alter f i l !! j = Some y →
  (j = i ∧ ∃ x, l !! i = Some x ∧ y = f x) ∨ (j ≠ i ∧ l !! j = Some y).
Proof.
  destruct (decide (j = i)) as [->|Hne].
  - rewrite list_lookup_alter_eq. destruct (l !! i) eqn:E; simpl; intros [= <-].
    left. split; [done|]. by eexists.
  - rewrite list_lookup_alter_ne by done. by right.
Qed.

Lemma alter_alter {A} (f h : A → A) (i : nat) (l : list A) :
  alter f i (alter h i l) = alter (λ x, f (h x)) i l.
Proof.
  apply list_eq. intros j. destruct (decide (j = i)) as [->|Hne].
  - rewrite !list_lookup_alter_eq. by destruct (l !! i).
  - by rewrite !list_lookup_alter_ne.
Qed.

Lemma alter_to_insert {A} (f : A → A) (i : nat) (l : list A) x :
  l !! i = Some x → alter f i l = <[i := f x]> l.
Proof.
  intros H. apply list_eq. intros j. destruct (decide (j = i)) as [->|Hne].
  - rewrite list_lookup_alter_eq, H, list_lookup_insert_eq; [done|]. by eapply lookup_lt_Some.
  - by rewrite list_lookup_alter_ne, list_lookup_insert_ne.
Qed.

Lemma fmap_alter_id {A B} (p : A → B) (f : A → A) (i : nat) (l : list A) :
  (∀ x, l !! i = Some x → p (f x) = p x) → p <$> alter f i l = p <$> l.
Proof.
  intros H. apply list_eq. intros j. rewrite !list_lookup_fmap.
  destruct (decide (j = i)) as [->|Hne].
  - rewrite list_lookup_alter_eq. destruct (l !! i) eqn:E; simpl; [|done]. by rewrite H.
  - by rewrite list_lookup_alter_ne.
Qed.

Lemma fmap_alter_insert {A B} (p : A → B) (f : A → A) (i : nat) (l : list A) x :
  l !! i = Some x → p <$> alter f i l = <[i := p (f x)]> (p <$> l).
Proof.
  intros H. apply list_eq. intros j. rewrite !list_lookup_fmap.
  destruct (decide (j = i)) as [->|Hne].
  - rewrite list_lookup_alter_eq, H, list_lookup_insert_eq; [done|].
    rewrite length_fmap. by eapply lookup_lt_Some.
  - by rewrite list_lookup_alter_ne, list_lookup_insert_ne, list_lookup_fmap.
Qed.

Section wf_lemmas.
Context {IX : Type} {ixo : KeyIndexOps IX} {ixl : KeyIndexLaws IX}.
Notation St := (SlabAllocator IX).
Implicit Types (s : St) (g : Ghost) (hole : option (nat * nat)).

Lemma data_lookup s i m :
  data s !! i = Some m ↔ ∃ x, s_slots s !! i = Some x ∧ m = strip x.
Proof.
  unfold data. rewrite list_lookup_fmap.
  destruct (s_slots s !! i); simpl; naive_solver.
Qed.

Lemma data_slot_at s i m : data s !! i = Some m → strip (slot_at s i) = m.
Proof.
  intros (x & Hx & ->)%data_lookup. unfold slot_at.
  by rewrite (list_lookup_total_correct _ _ _ Hx).
Qed.

(** ** Consequences of the invariant *)

Section facts.
Context {s g hole} (Hwf : wf s g hole).

Lemma wf_cls_lookup i m :
  live_at (data s) i m →
  ∃ cls, s_classes s !! r_cls (m_ref m) = Some cls ∧
    cls_at s (r_cls (m_ref m)) = cls ∧ c_slot_size cls = r_slot_size (m_ref m) ∧
    i ∈ g_cls g (r_cls (m_ref m)).
Proof.
  intros Hm. destruct (wf_res _ _ _ Hwf _ _ Hm) as [[spe Hc] _ _ _ _ _].
  rewrite list_lookup_fmap in Hc. destruct (s_classes s !! _) as [cls|] eqn:E; [|done].
  injection Hc as Hc _.
  exists cls. split_and!; [done| |done|].
  - unfold cls_at. by apply list_lookup_total_correct.
  - apply (mb_cls _ _ (wf_members _ _ _ Hwf)). by exists m.
Qed.

Lemma wf_ext_lookup i m :
  live_at (data s) i m →
  ∃ x cls, s_extents s !! r_extent (m_ref m) = Some x ∧
    ext_at s (r_extent (m_ref m)) = x ∧ x_cls x = Some (r_cls (m_ref m)) ∧
    s_classes s !! r_cls (m_ref m) = Some cls ∧
    ext_bound (data s) hole (g_ext g (r_extent (m_ref m))) (r_extent (m_ref m)) cls x ∧
    i ∈ g_ext g (r_extent (m_ref m)).
Proof.
  intros Hm. destruct (wf_res _ _ _ Hwf _ _ Hm) as [_ He _ _ _ _].
  unfold xcls in He. rewrite list_lookup_fmap in He.
  destruct (s_extents s !! _) as [x|] eqn:E; [|done]. injection He as Hx.
  pose proof (wf_ext _ _ _ Hwf _ _ E) as Hok. unfold ext_ok in Hok. rewrite Hx in Hok.
  destruct Hok as (cls & Hc & Hb). exists x, cls. split_and!; try done.
  - unfold ext_at. by apply list_lookup_total_correct.
  - apply (mb_ext _ _ (wf_members _ _ _ Hwf)). by exists m.
Qed.

Lemma wf_in_cls i m c : live_at (data s) i m → i ∈ g_cls g c ↔ c = r_cls (m_ref m).
Proof.
  intros [Hi Hl]. rewrite (mb_cls _ _ (wf_members _ _ _ Hwf)). split; [|intros ->; by exists m].
  intros (m0 & [H0 _] & <-). congruence.
Qed.

Lemma wf_in_ext i m e : live_at (data s) i m → i ∈ g_ext g e ↔ e = r_extent (m_ref m).
Proof.
  intros [Hi Hl]. rewrite (mb_ext _ _ (wf_members _ _ _ Hwf)). split; [|intros ->; by exists m].
  intros (m0 & [H0 _] & <-). congruence.
Qed.

Lemma wf_cls_disjoint c c' j : c' ≠ c → j ∈ g_cls g c' → j ∉ g_cls g c.
Proof.
  intros Hne. rewrite !(mb_cls _ _ (wf_members _ _ _ Hwf)).
  intros (mj & [Hj _] & Hc') (mj' & [Hj' _] & Hc). congruence.
Qed.

Lemma wf_ext_disjoint e e' j : e' ≠ e → j ∈ g_ext g e' → j ∉ g_ext g e.
Proof.
  intros Hne. rewrite !(mb_ext _ _ (wf_members _ _ _ Hwf)).
  intros (mj & [Hj _] & Hc') (mj' & [Hj' _] & Hc). congruence.
Qed.

Lemma wf_all_in i m : live_at (data s) i m → i ∈ g_all g.
Proof. intros Hm. apply (mb_all _ _ (wf_members _ _ _ Hwf)). by exists m. Qed.

Lemma wf_all_nodup : NoDup (g_all g).
Proof. eapply ring_NoDup, rk_all, wf_rings, Hwf. Qed.

Lemma wf_cls_nodup c cls : s_classes s !! c = Some cls → NoDup (g_cls g c).
Proof. intros H. eapply ring_NoDup, rk_cls, H. apply Hwf. Qed.

Lemma wf_ext_nodup e x : s_extents s !! e = Some x → NoDup (g_ext g e).
Proof. intros H. eapply dll_NoDup, rk_ext, H. apply Hwf. Qed.

Lemma wf_find_live k i :
  ix_find k (s_index s) = Some i →
  ∃ m, live_at (data s) i m ∧ m_key m = k ∧ strip (slot_at s i) = m.
Proof.
  intros (m & Hm & Hk)%(wf_find _ _ _ Hwf). exists m. split_and!; [done|done|].
  apply data_slot_at, Hm.
Qed.

End facts.

(** ** Updating one resident in place

    Pins, protections, reference bits and recency: the data of one resident
    changes, its extent and class adjust their sums, nothing moves. *)

(** What an in-place update leaves alone. *)
Definition cls_core (cls : Class_) :=
  (geom cls, c_free_by_ext cls, c_ext_rr cls, c_free_count cls, c_resident_count cls,
   c_useful_bytes cls, c_bound_extents cls, c_ring_head cls, c_hand cls).

Definition ext_core (x : ExtentMeta) :=
  (x_cls x, x_free_slots x, x_total_slots x, x_useful_bytes x, x_resident_head x,
   x_resident_count x).

Definition meta_core (m : SlotMeta) :=
  (m_key m, m_ref m, m_useful_bytes m, m_live m).

Record in_place (f : SlotMeta → SlotMeta) : Prop := {
  ip_strip x : strip (f x) = f (strip x);
  ip_link r x : get_link r (f x) = get_link r x;
  ip_free x : m_free_next (f x) = m_free_next x;
  ip_core x : meta_core (f x) = meta_core x;
}.

(** The parts of the state an in-place update does not touch. *)
Definition state_core s :=
  (s_opt s, s_free_slot_meta_head s, s_global_ring_head s, s_global_hand s, s_index s,
   s_unbound s, s_used_bytes s).

Lemma member_ok_insert D g i m m' :
  D !! i = Some m → meta_core m' = meta_core m → member_ok D g → member_ok (<[i := m']> D) g.
Proof.
  intros Hi [= Hk Hr Hu Hl] [H1 H2 H3 H4].
  pose proof (lookup_lt_Some _ _ _ Hi) as Hlt.
  assert (Hlk : ∀ (P : SlotMeta → Prop), (P m' ↔ P m) → ∀ j,
    (∃ x, <[i := m']> D !! j = Some x ∧ P x) ↔ (∃ x, D !! j = Some x ∧ P x)).
  { intros P HP j. destruct (decide (j = i)) as [->|Hne].
    - rewrite list_lookup_insert_eq by done. naive_solver.
    - by rewrite list_lookup_insert_ne. }
  split; intros; [rewrite H1|rewrite H2|rewrite H3|rewrite H4]; unfold live_at;
    try setoid_rewrite <- (assoc (∧)); symmetry; apply Hlk; by rewrite ?Hl, ?Hr.
Qed.

Lemma live_insert D i m m' j x :
  D !! i = Some m → meta_core m' = meta_core m → live_at (<[i := m']> D) j x →
  (j = i ∧ x = m' ∧ live_at D i m) ∨ (j ≠ i ∧ live_at D j x).
Proof.
  intros Hi [= Hk Hr Hu Hl] [Hj Hx]. destruct (decide (j = i)) as [->|Hne].
  - rewrite list_lookup_insert_eq in Hj by (by eapply lookup_lt_Some). simplify_eq.
    left. split_and!; [done|done|]. split; [done|congruence].
  - rewrite list_lookup_insert_ne in Hj by done. by right.
Qed.

Lemma wf_find_insert D i m m' k j :
  D !! i = Some m → meta_core m' = meta_core m →
  (∃ x, live_at (<[i := m']> D) j x ∧ m_key x = k) ↔ (∃ x, live_at D j x ∧ m_key x = k).
Proof.
  intros Hi [= Hk Hr Hu Hl]. unfold live_at. destruct (decide (j = i)) as [->|Hne].
  - rewrite list_lookup_insert_eq by (by eapply lookup_lt_Some). rewrite Hi.
    split; intros (x & [[= <-] Hx] & <-); eexists; split_and!; eauto; congruence.
  - by rewrite list_lookup_insert_ne.
Qed.

(** [ext_ok] looks at the class table through the free lists and the geometry. *)
Lemma ext_bound_cls D hole lx e cls cls' x :
  free_of cls' e = free_of cls e → c_slots_per_extent cls' = c_slots_per_extent cls →
  ext_bound D hole lx e cls x → ext_bound D hole lx e cls' x.
Proof. intros H1 H2 []. split; rewrite ?H1, ?H2; done. Qed.

Lemma slot_of_insert D i m m' (l : list nat) :
  D !! i = Some m → m_ref m' = m_ref m → slot_of (<[i := m']> D) <$> l = slot_of D <$> l.
Proof.
  intros Hi Hr. apply list_fmap_ext. intros _ j _. unfold slot_of.
  rewrite !list_lookup_total_alt. destruct (decide (j = i)) as [->|Hne].
  - rewrite list_lookup_insert_eq by (by eapply lookup_lt_Some). rewrite Hi. simpl. congruence.
  - by rewrite list_lookup_insert_ne.
Qed.

Lemma data_alter s s' i m f :
  data s !! i = Some m → in_place f → s_slots s' = alter f i (s_slots s) →
  data s' = <[i := f m]> (data s).
Proof.
  intros (x & Hx & ->)%data_lookup Hf Hs. unfold data. rewrite Hs.
  rewrite (fmap_alter_insert _ _ _ _ _ Hx). by rewrite (ip_strip _ Hf).
Qed.

Section reweigh.
Context {s s' : St} {g : Ghost} {hole : option (nat * nat)} {i : nat} {m : SlotMeta}.
Context {f : SlotMeta → SlotMeta} {fc : Class_ → Class_} {fx : ExtentMeta → ExtentMeta}.
Context (Hwf : wf s g hole) (Hm : live_at (data s) i m).
Context (Hf : in_place f) (Hcore : state_core s' = state_core s).
Context (Hslots : s_slots s' = alter f i (s_slots s)).
Context (Hclasses : s_classes s' = alter fc (r_cls (m_ref m)) (s_classes s)).
Context (Hextents : s_extents s' = alter fx (r_extent (m_ref m)) (s_extents s)).
Context (Hfc : ∀ cls, cls_core (fc cls) = cls_core cls).
Context (Hfx : ∀ x, ext_core (fx x) = ext_core x).

Lemma reweigh_data : data s' = <[i := f m]> (data s).
Proof. exact (data_alter _ _ _ _ _ (proj1 Hm) Hf Hslots). Qed.

Lemma reweigh_links r : links r (s_slots s') = links r (s_slots s).
Proof. rewrite Hslots. apply fmap_alter_id. intros x _. apply (ip_link _ Hf). Qed.

Lemma reweigh_xcls : xcls s' = xcls s.
Proof.
  unfold xcls. rewrite Hextents. apply fmap_alter_id. intros x _. by injection (Hfx x).
Qed.

Lemma reweigh_geom : geom <$> s_classes s' = geom <$> s_classes s.
Proof. rewrite Hclasses. apply fmap_alter_id. intros x _. unfold geom. by injection (Hfc x) as -> ->. Qed.

Lemma reweigh_cls c cls' :
  s_classes s' !! c = Some cls' →
  ∃ cls, s_classes s !! c = Some cls ∧ cls_core cls' = cls_core cls ∧
    cls' = (if decide (c = r_cls (m_ref m)) then fc cls else cls).
Proof.
  rewrite Hclasses. intros [(-> & cls & Hc & ->)|(Hne & Hc)]%alter_Some.
  - exists cls. by rewrite decide_True.
  - exists cls'. by rewrite decide_False.
Qed.

Lemma reweigh_ext e x' :
  s_extents s' !! e = Some x' →
  ∃ x, s_extents s !! e = Some x ∧ ext_core x' = ext_core x ∧
    x' = (if decide (e = r_extent (m_ref m)) then fx x else x).
Proof.
  rewrite Hextents. intros [(-> & x & Hx & ->)|(Hne & Hx)]%alter_Some.
  - exists x. by rewrite decide_True.
  - exists x'. by rewrite decide_False.
Qed.

Lemma reweigh_rings : rings_ok s' g.
Proof.
  destruct (wf_rings _ _ _ Hwf) as [R1 R2 R3 R4 R5].
  injection Hcore as _ Hfh Hgh Hgn _ _ _.
  split; rewrite ?reweigh_links, ?Hfh, ?Hgh, ?Hgn; try done.
  - intros c cls' (cls & Hc & [= _ _ _ _ _ _ _ _ -> ->] & _)%reweigh_cls. by apply R2.
  - intros e x' (x & Hx & [= _ _ _ _ -> _] & _)%reweigh_ext. by apply R3.
  - rewrite Hslots, fmap_alter_id; [done|]. intros x _. apply (ip_free _ Hf).
Qed.

Lemma reweigh_sum (w : SlotMeta → Z) (l : list nat) :
  NoDup l →
  sumD w (data s') l = sumD w (data s) l + (if decide (i ∈ l) then w (f m) - w m else 0).
Proof. intros Hnd. rewrite reweigh_data. apply sumD_insert; [done|apply Hm]. Qed.

Lemma reweigh_sum_same (w : SlotMeta → Z) (l : list nat) :
  w (f m) = w m → sumD w (data s') l = sumD w (data s) l.
Proof.
  intros Hw. apply sumZ_ext_in. intros j _. rewrite reweigh_data, !list_lookup_total_alt.
  destruct Hm as [Hi _]. destruct (decide (j = i)) as [->|Hne].
  - rewrite list_lookup_insert_eq by (by eapply lookup_lt_Some). by rewrite Hi.
  - by rewrite list_lookup_insert_ne.
Qed.

Context (Hrefs : is_u32 (m_refs (f m))) (Huntil : 0 <= m_retain_until (f m)).
Context (Hcp : ∀ cls, s_classes s !! r_cls (m_ref m) = Some cls →
  c_protected_slots (fc cls) = c_protected_slots cls + (w_prot (f m) - w_prot m)).
Context (Hxp : ∀ x, s_extents s !! r_extent (m_ref m) = Some x →
  x_pinned (fx x) = x_pinned x + (w_pin (f m) - w_pin m) ∧
  x_access_seq_sum (fx x) = x_access_seq_sum x + (m_access_seq (f m) - m_access_seq m) ∧
  x_protected_slots (fx x) = x_protected_slots x + (w_prot (f m) - w_prot m)).
Context (Hpb : t_protected_bytes (s_retention s') =
  t_protected_bytes (s_retention s) + (w_prot_bytes (f m) - w_prot_bytes m)).
Context (Hps : t_protected_slots (s_retention s') =
  t_protected_slots (s_retention s) + (w_prot (f m) - w_prot m)).

Lemma reweigh_cls_ok c cls' :
  s_classes s' !! c = Some cls' → cls_ok (data s') (xcls s') (g_cls g c) c cls'.
Proof.
  intros (cls & Hc & [= Hss Hspe H1 H2 H3 H4 H5 H6 H7 H8] & Hcls')%reweigh_cls.
  destruct (wf_cls _ _ _ Hwf _ _ Hc) as [C1 C2 C3 C4 C5].
  injection (ip_core _ Hf m) as Hk Hr Hu Hl.
  split.
  - destruct C1 as [F1 F2 F3]. unfold free_of in *.
    split; unfold free_of; [by rewrite H2|intros e; by rewrite H2, H1|by rewrite H3, H2, H1].
  - by rewrite H4.
  - rewrite H5, C3. symmetry. by apply reweigh_sum_same.
  - rewrite reweigh_sum by (by eapply wf_cls_nodup). rewrite <- C4, Hcls'.
    pose proof (wf_in_cls Hwf _ _ c Hm) as Hin.
    destruct (decide (c = _)) as [->|Hne].
    + rewrite decide_True by (by apply Hin). by apply Hcp.
    + rewrite decide_False by naive_solver. lia.
  - by rewrite H6, reweigh_xcls.
Qed.

Lemma reweigh_ext_ok e x' :
  s_extents s' !! e = Some x' → ext_ok (data s') (s_classes s') hole (g_ext g e) e x'.
Proof.
  intros (x & Hx & [= H1 H2 H3 H4 H5 H6] & Hx')%reweigh_ext.
  pose proof (wf_ext _ _ _ Hwf _ _ Hx) as Hok. unfold ext_ok in *. rewrite H1.
  pose proof (wf_in_ext Hwf _ _ e Hm) as Hin.
  destruct (x_cls x) as [c|] eqn:Ec.
  - destruct Hok as (cls & Hc & Hb).
    assert (∃ cls', s_classes s' !! c = Some cls' ∧ cls_core cls' = cls_core cls)
      as (cls' & Hc' & [= _ Hspe Hfree _ _ _ _ _ _ _]).
    { rewrite Hclasses. destruct (decide (c = r_cls (m_ref m))) as [->|Hne].
      - exists (fc cls). by rewrite list_lookup_alter_eq, Hc.
      - exists cls. by rewrite list_lookup_alter_ne. }
    exists cls'. split; [done|].
    apply (ext_bound_cls _ _ _ _ cls); [by unfold free_of; rewrite Hfree|done|].
    injection (ip_core _ Hf m) as _ Hr Hu _.
    destruct Hb as [B1 B2 B3 B4 B5 B6 B7 B8].
    pose proof (wf_ext_nodup Hwf _ _ Hx) as Hnd.
    split; rewrite ?reweigh_sum, ?H2, ?H3, ?H4, ?H6 by done; try done.
    + rewrite reweigh_data, (slot_of_insert _ _ m) by (done || apply Hm). done.
    + rewrite <- B4, Hx'. destruct (decide (e = _)) as [->|Hne].
      * rewrite decide_True by (by apply Hin). by apply Hxp.
      * rewrite decide_False by naive_solver. lia.
    + rewrite <- B5, Hx'. destruct (decide (e = _)) as [->|Hne].
      * rewrite decide_True by (by apply Hin). by apply Hxp.
      * rewrite decide_False by naive_solver. lia.
    + rewrite B6, Hu. destruct (decide (i ∈ g_ext g e)); lia.
    + rewrite <- B8, Hx'. destruct (decide (e = _)) as [->|Hne].
      * rewrite decide_True by (by apply Hin). by apply Hxp.
      * rewrite decide_False by naive_solver. lia.
  - destruct Hok as [Hnew Hh]. split; [|done]. rewrite Hx'. rewrite decide_False; [done|].
    intros ->. destruct (wf_ext_lookup Hwf _ _ Hm) as (y & ? & Hy & _ & Hyc & _).
    congruence.
Qed.

Lemma wf_reweigh : wf s' g hole.
Proof.
  pose proof reweigh_rings as Hrings.
  pose proof reweigh_cls_ok as Hcls. rewrite reweigh_xcls in Hcls.
  pose proof reweigh_ext_ok as Hext. pose proof Hm as [Hi Hlive].
  pose proof (ip_core _ Hf m) as Hmc.
  pose proof (wf_all_nodup Hwf) as Hnd. pose proof (wf_all_in Hwf _ _ Hm) as Hin.
  assert (w_size (f m) = w_size m) as Hsz by (unfold w_size; injection Hmc; congruence).
  injection Hcore as Ho _ _ _ Hix Hub Hus.
  destruct Hwf. split; rewrite ?Ho, ?Hix, ?Hub, ?Hus, ?reweigh_xcls, ?reweigh_geom; try done.
  - rewrite Hextents. by rewrite length_alter.
  - intros k j. rewrite wf_find0, reweigh_data. symmetry. by apply wf_find_insert with m.
  - rewrite reweigh_data. by apply member_ok_insert with m.
  - intros j x. rewrite reweigh_data.
    intros [(-> & -> & Hl)|(Hne & Hl)]%(live_insert _ _ m); [|by eapply wf_res0|done|done].
    destruct (wf_res0 _ _ Hl). injection Hmc as Hk Hr Hu _.
    split; by rewrite ?Hr, ?Hu.
  - intros c cls' e (cls & Hc & [= _ _ Hfree _ _ _ _ _ _ _] & _)%reweigh_cls.
    unfold free_of. rewrite Hfree. by apply wf_space0.
  - rewrite reweigh_sum_same by done. done.
  - rewrite reweigh_sum, decide_True by done. lia.
  - rewrite reweigh_sum, decide_True by done. lia.
Qed.

End reweigh.

(** ** Reordering the rings

    Touches and hand movements permute sweep orders and change nothing else. *)

Definition cls_acct (cls : Class_) :=
  (geom cls, c_free_by_ext cls, c_ext_rr cls, c_free_count cls, c_resident_count cls,
   c_useful_bytes cls, c_bound_extents cls, c_protected_slots cls).

Definition state_acct s :=
  (s_opt s, s_extents s, s_free_slot_meta_head s, s_index s, s_unbound s, s_used_bytes s,
   t_protected_bytes (s_retention s), t_protected_slots (s_retention s)).

Lemma fmap_lookup_eq {A B} (p : A → B) (l l' : list A) (j : nat) y :
  p <$> l' = p <$> l → l' !! j = Some y → ∃ x, l !! j = Some x ∧ p y = p x.
Proof.
  intros H Hj. apply (f_equal (lookup j)) in H. rewrite !list_lookup_fmap, Hj in H.
  destruct (l !! j) as [x|]; simplify_eq/=. by exists x.
Qed.

Lemma cls_ok_acct D xc lc lc' c cls cls' :
  cls_acct cls' = cls_acct cls → lc' ≡ₚ lc → cls_ok D xc lc c cls → cls_ok D xc lc' c cls'.
Proof.
  intros [= _ _ H1 H2 H3 H4 H5 H6 H7] Hp [[F1 F2 F3] C2 C3 C4 C5].
  split; rewrite ?Hp, ?H4, ?H5, ?H6, ?H7; try done.
  unfold free_of in *.
  split; unfold free_of; [by rewrite H2|intros e; by rewrite H2, H1|by rewrite H3, H2, H1].
Qed.

Lemma ext_ok_acct D classes classes' hole lx e x :
  cls_acct <$> classes' = cls_acct <$> classes →
  ext_ok D classes hole lx e x → ext_ok D classes' hole lx e x.
Proof.
  intros Hc. unfold ext_ok. destruct (x_cls x) as [c|]; [|done].
  intros (cls & Hl & Hb). symmetry in Hc.
  destruct (fmap_lookup_eq _ _ _ _ _ Hc Hl) as (cls' & Hl' & [= _ Hspe Hfree _ _ _ _ _ _]).
  exists cls'. split; [done|]. apply (ext_bound_cls _ _ _ _ cls); [|done|done].
  unfold free_of. by rewrite Hfree.
Qed.

Lemma wf_relink s s' g g' hole :
  wf s g hole →
  data s' = data s → state_acct s' = state_acct s →
  cls_acct <$> s_classes s' = cls_acct <$> s_classes s →
  g_all g' ≡ₚ g_all g → (∀ c, g_cls g' c ≡ₚ g_cls g c) →
  g_ext g' = g_ext g → g_free g' = g_free g →
  rings_ok s' g' → wf s' g' hole.
Proof.
  intros Hwf HD [= Ho Hx _ Hi Hu Hus Hpb Hps] Hc Hga Hgc Hge Hgf Hr.
  assert (Hxc : xcls s' = xcls s) by (unfold xcls; by rewrite Hx).
  assert (Hgeo : geom <$> s_classes s' = geom <$> s_classes s).
  { apply (f_equal (fmap (λ p, p.1.1.1.1.1.1.1))) in Hc. by rewrite <- !list_fmap_compose in Hc. }
  pose proof (wf_members _ _ _ Hwf) as [M1 M2 M3 M4].
  destruct Hwf. split; rewrite ?HD, ?Ho, ?Hi, ?Hu, ?Hus, ?Hpb, ?Hps, ?Hxc, ?Hgeo, ?Hga; try done.
  - by rewrite Hx.
  - split; intros; rewrite ?Hga, ?Hgc, ?Hge, ?Hgf; done.
  - intros c cls' Hl. destruct (fmap_lookup_eq _ _ _ _ _ Hc Hl) as (cls & Hl' & Hacct).
    eapply cls_ok_acct; [done|apply Hgc|]. by apply wf_cls0.
  - intros e x Hl. rewrite Hx in Hl. rewrite Hge. eapply ext_ok_acct; [done|]. by apply wf_ext0.
  - intros c cls' e Hl. destruct (fmap_lookup_eq _ _ _ _ _ Hc Hl) as (cls & Hl' & Hacct).
    injection Hacct as _ _ Hfree _ _ _ _ _ _. unfold free_of. rewrite Hfree. by apply wf_space0.
Qed.

(** Nothing the invariant looks at has changed. *)
Lemma wf_same s s' g hole :
  wf s g hole →
  s_slots s' = s_slots s → state_acct s' = state_acct s →
  s_global_ring_head s' = s_global_ring_head s → s_global_hand s' = s_global_hand s →
  s_classes s' = s_classes s → wf s' g hole.
Proof.
  intros Hwf Hs Hacct Hgh Hgn Hc.
  pose proof Hacct as [= _ Hx Hfh _ _ _ _ _].
  apply (wf_relink s s' g g); rewrite ?Hc; try done; [unfold data; by rewrite Hs|].
  destruct (wf_rings _ _ _ Hwf). split; rewrite ?Hs, ?Hgh, ?Hgn, ?Hc, ?Hx, ?Hfh; done.
Qed.

End wf_lemmas.
