(* ===== verification/SlabStruct.v ===== *)
(** * Slab allocator: structural steps preserve the invariant

    Binding and unbinding an extent, freeing a resident and installing one:
    the four steps every operation of the allocator is made of. *)

From stdpp Require Import functions.
From S2P Require Import Prelude KvTypes KeyIndex SlabTypes SlabLattice SlabRing SlabFree SlabOps.
From S2P Require Import SlabInv.

Lemma count_cls_insert o (e : nat) a b xc :
  xc !! e = Some a →
  count_cls o (<[e := b]> xc) =
  count_cls o xc - (if decide (a = o) then 1 else 0) + (if decide (b = o) then 1 else 0).
Proof.
  revert e. unfold count_cls. induction xc as [|y xc IH]; intros [|e] He; simplify_eq/=.
  - rewrite !filter_cons. destruct (decide (a = o)), (decide (b = o)); simpl; lia.
  - specialize (IH e He). rewrite !filter_cons. destruct (decide (y = o)); simpl; lia.
Qed.

Lemma count_cls_nonneg o xc : 0 <= count_cls o xc.
Proof. unfold count_cls. lia. Qed.

Lemma count_cls_pos o (e : nat) xc : xc !! e = Some o → 0 < count_cls o xc.
Proof.
  intros He. unfold count_cls. apply Nat2Z.inj_lt with (n := 0%nat).
  assert (o ∈ filter (λ c, c = o) xc) as Hin.
  { apply list_elem_of_filter. split; [done|]. by eapply list_elem_of_lookup_2. }
  destruct (filter _ xc); [by apply elem_of_nil in Hin|simpl; lia].
Qed.

Section structure.
Context {IX : Type} {ixo : KeyIndexOps IX} {ixl : KeyIndexLaws IX}.
Notation St := (SlabAllocator IX).
Implicit Types (s : St) (g : Ghost) (hole : option (nat * nat)).

(** ** Geometry *)

Lemma ext_at_eq s e x : s_extents s !! e = Some x → ext_at s e = x.
Proof. apply list_lookup_total_correct. Qed.

Lemma cls_at_eq s c cls : s_classes s !! c = Some cls → cls_at s c = cls.
Proof. apply list_lookup_total_correct. Qed.

Lemma slot_at_eq s i x : s_slots s !! i = Some x → slot_at s i = x.
Proof. apply list_lookup_total_correct. Qed.

Lemma wf_class_geom s g hole c cls :
  wf s g hole → s_classes s !! c = Some cls →
  0 < c_slot_size cls <= max_aligned (s_opt s) ∧ 0 < c_slots_per_extent cls < 2 ^ 32 ∧
  c_slots_per_extent cls * c_slot_size cls <= o_extent_bytes (s_opt s).
Proof.
  intros Hwf Hc.
  destruct (fmap_lookup_eq _ _ _ _ _ (wf_geom _ _ _ Hwf) Hc) as (cl & Hcl & [= -> ->]).
  destruct (class_lattice_geometry _ (wf_opt _ _ _ Hwf) _ _ Hcl) as (? & ? & ? & ?). done.
Qed.

Lemma wf_free_unbound s g hole c cls e :
  wf s g hole → s_classes s !! c = Some cls → xcls s !! e ≠ Some (Some c) → free_of cls e = [].
Proof.
  intros Hwf Hc He. apply dec_stable. intros Hne. apply He. by eapply wf_space.
Qed.

Lemma wf_no_residents s g hole e :
  wf s g hole → (∀ c, xcls s !! e ≠ Some (Some c)) → g_ext g e = [].
Proof.
  intros Hwf He. destruct (g_ext g e) as [|i l] eqn:E; [done|].
  destruct (proj1 (mb_ext _ _ (wf_members _ _ _ Hwf) e i)) as (m & Hm & <-).
  { rewrite E. by left. }
  destruct (He (r_cls (m_ref m))). apply (rs_extent _ _ _ (wf_res _ _ _ Hwf _ _ Hm)).
Qed.

Lemma xcls_lookup s e o : xcls s !! e = Some o ↔ ∃ x, s_extents s !! e = Some x ∧ x_cls x = o.
Proof.
  unfold xcls. rewrite list_lookup_fmap. destruct (s_extents s !! e); simpl; naive_solver.
Qed.

(** ** Changing the class of one extent

    Common part of binding and unbinding: extent [e], which has no resident
    and no hole, becomes [x']; the class [c] involved gets new free lists. *)

(** What rebinding leaves alone in a class. *)
Definition cls_rest (cls : Class_) :=
  (geom cls, c_resident_count cls, c_useful_bytes cls, c_protected_slots cls,
   c_ring_head cls, c_hand cls).

Definition state_rest s :=
  (s_opt s, s_slots s, s_free_slot_meta_head s, s_global_ring_head s, s_global_hand s, s_index s,
   s_used_bytes s, t_protected_bytes (s_retention s), t_protected_slots (s_retention s)).

Section rebind.
Context {s s' : St} {g : Ghost} {hole : option (nat * nat)} {c e : nat} {cls cls' : Class_}.
Context {x x' : ExtentMeta}.
Context (Hwf : wf s g hole) (Hrest : state_rest s' = state_rest s).
Context (Hc : s_classes s !! c = Some cls) (Hx : s_extents s !! e = Some x).
Context (Hclasses : s_classes s' = <[c := cls']> (s_classes s)).
Context (Hextents : s_extents s' = <[e := x']> (s_extents s)).
Context (Hxcls : x_cls x = None ∨ x_cls x = Some c) (Hxcls' : x_cls x' = None ∨ x_cls x' = Some c).
Context (Hnil : g_ext g e = []) (Hhole : hole_at hole e = []).
Context (Hcr : cls_rest cls' = cls_rest cls) (Hfree : free_ok cls').
Context (Hof : ∀ e', e' ≠ e → free_of cls' e' = free_of cls e').
Context (Hbound : c_bound_extents cls' = c_bound_extents cls
  - (if decide (x_cls x = Some c) then 1 else 0) + (if decide (x_cls x' = Some c) then 1 else 0)).
Context (Hunbound : s_unbound s' = s_unbound s
  - (if decide (x_cls x = None) then 1 else 0) + (if decide (x_cls x' = None) then 1 else 0)).
Context (Hnew : ext_ok (data s) (s_classes s') hole [] e x').
Context (Hfe : free_of cls' e ≠ [] → x_cls x' = Some c).
Context (Hhead : x_resident_head x' = None).

Lemma rebind_data : data s' = data s.
Proof. unfold data. by injection Hrest as _ -> _ _ _ _ _ _ _. Qed.

Lemma rebind_xcls : xcls s' = <[e := x_cls x']> (xcls s).
Proof. unfold xcls. by rewrite Hextents, list_fmap_insert. Qed.

Lemma rebind_geom : geom <$> s_classes s' = geom <$> s_classes s.
Proof.
  rewrite Hclasses, list_fmap_insert. apply list_insert_id.
  rewrite list_lookup_fmap, Hc. simpl. unfold geom. injection Hcr as -> -> _ _ _ _ _. done.
Qed.

Lemma rebind_cls c' cl :
  s_classes s' !! c' = Some cl →
  (c' = c ∧ cl = cls') ∨ (c' ≠ c ∧ s_classes s !! c' = Some cl).
Proof.
  clear -Hclasses. rewrite Hclasses.
  intros [(-> & -> & _)|[Hne ?]]%list_lookup_insert_Some; [by left|by right].
Qed.

Lemma rebind_rings : rings_ok s' g.
Proof.
  destruct (wf_rings _ _ _ Hwf) as [R1 R2 R3 R4 R5]. pose proof Hrest as [= _ Hs Hfh Hgh Hgn _ _ _ _].
  split; rewrite ?Hs, ?Hfh, ?Hgh, ?Hgn; try done.
  - intros c' cl [[-> ->]|[_ Hl]]%rebind_cls; [|by apply R2].
    pose proof Hcr as [= _ _ _ _ _ -> ->]. by apply R2.
  - intros e' y. rewrite Hextents.
    intros [(-> & -> & _)|[_ Hl]]%list_lookup_insert_Some; [|by apply R3].
    rewrite Hhead, Hnil. apply dll_nil.
Qed.

Lemma rebind_resident i m :
  live_at (data s) i m → r_extent (m_ref m) ≠ e.
Proof.
  intros Hm <-. assert (i ∈ g_ext g (r_extent (m_ref m))) as Hin.
  { apply (mb_ext _ _ (wf_members _ _ _ Hwf)). by exists m. }
  rewrite Hnil in Hin. by apply elem_of_nil in Hin.
Qed.

Lemma rebind_cls_ok c' cl :
  s_classes s' !! c' = Some cl → cls_ok (data s) (xcls s') (g_cls g c') c' cl.
Proof.
  assert (Hxe : xcls s !! e = Some (x_cls x)) by (apply xcls_lookup; by exists x).
  intros Hl. rewrite rebind_xcls. apply rebind_cls in Hl as [[-> ->]|[Hne Hl]].
  - destruct (wf_cls _ _ _ Hwf _ _ Hc). injection Hcr as _ _ H1 H2 H3 _ _.
    split; rewrite ?H1, ?H2, ?H3; try done.
    rewrite Hbound, co_bound, (count_cls_insert _ _ (x_cls x)) by done. done.
  - destruct (wf_cls _ _ _ Hwf _ _ Hl). split; try done.
    rewrite co_bound, (count_cls_insert _ _ (x_cls x)) by done.
    rewrite !decide_False; [lia|naive_solver..].
Qed.

Lemma rebind_ext_ok e' y :
  s_extents s' !! e' = Some y → ext_ok (data s) (s_classes s') hole (g_ext g e') e' y.
Proof.
  rewrite Hextents. intros [(-> & -> & _)|[Hne Hl]]%list_lookup_insert_Some; [by rewrite Hnil|].
  pose proof (wf_ext _ _ _ Hwf _ _ Hl) as Hok. unfold ext_ok in *.
  destruct (x_cls y) as [c'|]; [|done]. destruct Hok as (cl & Hcl & Hb). rewrite Hclasses.
  destruct (decide (c' = c)) as [->|Hnc].
  - exists cls'. rewrite list_lookup_insert_eq by (by eapply lookup_lt_Some). split; [done|].
    injection Hcr as Hss Hspe _ _ _ _ _. simplify_eq.
    apply (ext_bound_cls _ _ _ _ cls); [|congruence|done]. by apply Hof.
  - exists cl. by rewrite list_lookup_insert_ne.
Qed.

Lemma wf_rebind : wf s' g hole.
Proof.
  pose proof rebind_rings as Hrings. pose proof rebind_cls_ok as Hcls.
  pose proof rebind_ext_ok as Hext. pose proof rebind_resident as Hres.
  pose proof rebind_geom as Hgeo. pose proof rebind_xcls as Hxc.
  assert (Hxe : xcls s !! e = Some (x_cls x)) by (apply xcls_lookup; by exists x).
  pose proof Hrest as [= Ho _ _ _ _ Hi Hus Hpb Hps].
  destruct Hwf as [W_opt W_geom W_extents W_ix W_find W_size W_members W_rings W_res W_cls W_ext
    W_space W_unbound W_used W_pb W_ps]. split; rewrite ?rebind_data, ?Ho, ?Hi, ?Hus, ?Hpb, ?Hps, ?Hgeo; try done.
  - rewrite Hextents. by rewrite length_insert.
  - intros i m Hm. destruct (W_res _ _ Hm). split; try done.
    rewrite Hxc, list_lookup_insert_ne; [done|]. symmetry. by eapply Hres.
  - intros c' cl e' Hl Hne. rewrite Hxc. apply rebind_cls in Hl as [[-> ->]|[Hnc Hl]].
    + destruct (decide (e' = e)) as [->|Hnee].
      * rewrite list_lookup_insert_eq by (by eapply lookup_lt_Some). by rewrite Hfe.
      * rewrite list_lookup_insert_ne by done. rewrite Hof in Hne by done. by eapply W_space.
    + pose proof (W_space _ _ _ Hl Hne) as He'. rewrite list_lookup_insert_ne; [done|].
      intros <-. rewrite Hxe in He'. naive_solver.
  - rewrite Hunbound, W_unbound, Hxc, (count_cls_insert _ _ (x_cls x)) by done.
    clear. by repeat case_decide.
Qed.

End rebind.

(** ** Binding *)

Lemma call_extent_bind_spec e s ok s1 :
  call_extent_bind e s = (ok, s1) →
  (ok = true ∧ s1 = s ∧ o_on_extent_bind (s_opt s) = None) ∨
  s1 = set_s_cb_log (λ l, l ++ [EvBind e ok]) s.
Proof.
  unfold call_extent_bind. destruct (o_on_extent_bind (s_opt s)); intros [= <- <-]; auto.
Qed.

(** The state with extent [e] freshly bound to class [c]. *)
Definition bound_to (c e : nat) (cls' : Class_) (spe : Z) s : St :=
  set_s_unbound (λ n, n - 1) (set_s_classes (<[c := cls']>)
    (set_s_extents (<[e := set_x_free_slots (λ _, spe) (set_x_total_slots (λ _, spe)
       (set_x_cls (λ _, Some c) new_extent_meta))]>) s)).

Lemma bind_spec c e prep s g hole r s' :
  wf s g hole → BindExtentLocked c e prep s = (r, s') →
  (r = kUnavailable ∧ s' = s ∧
     ((length (s_classes s) <= c)%nat ∨ xcls s !! e ≠ Some None)) ∨
  (prep = false ∧ r = kPersistenceError ∧ s' = set_s_cb_log (λ l, l ++ [EvBind e false]) s) ∨
  (r = kBound ∧ ∃ s1 cls cls',
     (prep = true ∧ s1 = s ∨ prep = false ∧ call_extent_bind e s = (true, s1)) ∧
     s_classes s !! c = Some cls ∧ xcls s !! e = Some None ∧
     s' = bound_to c e cls' (c_slots_per_extent cls) s1 ∧
     cls_rest cls' = cls_rest cls ∧ free_ok cls' ∧
     c_bound_extents cls' = c_bound_extents cls + 1 ∧
     (∀ e', free_of cls' e' = if decide (e' = e)
        then seq 0 (Z.to_nat (c_slots_per_extent cls)) else free_of cls e')).
Proof.
  intros Hwf. unfold BindExtentLocked.
  destruct (Nat.leb_spec (length (s_classes s)) c) as [Hc|Hc]; simpl.
  { intros [= <- <-]. left. auto. }
  destruct (Nat.leb_spec (length (s_extents s)) e) as [He|He]; simpl.
  { intros [= <- <-]. left. split_and!; [done|done|]. right.
    rewrite xcls_lookup. intros (x & Hx & _). apply lookup_lt_Some in Hx. lia. }
  destruct (lookup_lt_is_Some_2 _ _ Hc) as [cls Hcls].
  destruct (lookup_lt_is_Some_2 _ _ He) as [x Hx].
  rewrite (ext_at_eq _ _ _ Hx).
  case_bool_decide as Hxc; simpl.
  2:{ intros [= <- <-]. left. split_and!; [done|done|]. right.
      rewrite xcls_lookup. intros (x' & Hx' & H'). by simplify_eq. }
  assert (Hun : xcls s !! e = Some None) by (apply xcls_lookup; by exists x).
  rewrite (cls_at_eq _ _ _ Hcls).
  destruct (wf_class_geom _ _ _ _ _ Hwf Hcls) as (_ & Hspe & _).
  destruct (Z.eqb_spec (c_slots_per_extent cls) 0); [lia|].
  destruct (if prep then _ else _) as [ok s1] eqn:Eok.
  destruct ok; simpl.
  2:{ intros [= <- <-]. right; left. destruct prep; [done|].
      apply call_extent_bind_spec in Eok as [[? _]| ->]; done. }
  intros [= <- <-]. right; right. split; [done|].
  assert (Hpre : prep = true ∧ s1 = s ∨ prep = false ∧ call_extent_bind e s = (true, s1)).
  { destruct prep; [left; by simplify_eq|by right]. }
  assert (Hs1 : s_classes s1 = s_classes s ∧ s_extents s1 = s_extents s).
  { destruct Hpre as [[_ ->]|[_ Hcb]]; [done|].
    apply call_extent_bind_spec in Hcb as [(_ & -> & _)| ->]; done. }
  destruct Hs1 as [Hs1c Hs1x].
  set (cls1 := set_c_bound_extents (λ n, n + 1) cls).
  assert (Hfr : free_ok cls1).
  { destruct (co_free _ _ _ _ _ (wf_cls _ _ _ Hwf _ _ Hcls)). by split. }
  destruct (PushFree_seq_spec e (Z.to_nat (c_slots_per_extent cls)) 0 cls1 Hfr)
    as (Hok & Hsame & Hof).
  set (cls' := foldl _ cls1 _) in *.
  exists s1, cls, cls'. split_and!; try done.
  - unfold bound_to, upd_class, upd_ext, set_s_unbound, set_s_classes, set_s_extents; simpl.
    rewrite alter_alter, Hs1c, Hs1x.
    by rewrite (alter_to_insert _ _ _ _ Hcls), (alter_to_insert _ _ _ _ Hx).
  - unfold cls_rest, geom, same_but_free in *. naive_solver congruence.
  - unfold same_but_free in Hsame. naive_solver.
  - intros e'. rewrite Hof. case_decide; [|done].
    assert (free_of cls1 e = []) as ->; [|done].
    change (free_of cls e = []). eapply wf_free_unbound; [done|done|].
    rewrite Hun. done.
Qed.

Lemma wf_cb_log s g hole f : wf s g hole → wf (set_s_cb_log f s) g hole.
Proof. intros Hwf. by apply (wf_same s). Qed.

Lemma wf_counters s g hole f : wf s g hole → wf (set_s_counters f s) g hole.
Proof. intros Hwf. by apply (wf_same s). Qed.

Lemma call_extent_bind_wf e s g hole ok s1 :
  wf s g hole → call_extent_bind e s = (ok, s1) → wf s1 g hole.
Proof.
  intros Hwf [(_ & -> & _)| ->]%call_extent_bind_spec; [done|by apply wf_cb_log].
Qed.

Lemma bound_to_wf c e cls cls' s g hole :
  wf s g hole → s_classes s !! c = Some cls → xcls s !! e = Some None →
  cls_rest cls' = cls_rest cls → free_ok cls' →
  c_bound_extents cls' = c_bound_extents cls + 1 →
  (∀ e', free_of cls' e' = if decide (e' = e)
     then seq 0 (Z.to_nat (c_slots_per_extent cls)) else free_of cls e') →
  wf (bound_to c e cls' (c_slots_per_extent cls) s) g hole.
Proof.
  intros Hwf Hc He Hcr Hok Hb Hof.
  destruct (proj1 (xcls_lookup _ _ _) He) as (x & Hx & Hxn).
  pose proof (wf_ext _ _ _ Hwf _ _ Hx) as Hxok. unfold ext_ok in Hxok. rewrite Hxn in Hxok.
  destruct Hxok as [-> Hh].
  assert (Hnil : g_ext g e = []).
  { eapply wf_no_residents; [done|]. intros c'. by rewrite He. }
  destruct (wf_class_geom _ _ _ _ _ Hwf Hc) as (_ & Hspe & _).
  pose proof Hcr as [= Hss Hspe' _ _ _ _ _].
  set (x' := set_x_free_slots (λ _, c_slots_per_extent cls)
    (set_x_total_slots (λ _, c_slots_per_extent cls)
      (set_x_cls (λ _, Some c) new_extent_meta))).
  apply (wf_rebind (s := s) (c := c) (e := e) (cls := cls) (cls' := cls')
    (x := new_extent_meta) (x' := x')); try done; try (by left); try (by right).
  - intros e' Hne. by rewrite Hof, decide_False.
  - rewrite Hb, decide_False, decide_True by done. lia.
  - simpl. repeat case_decide; done || lia.
  - unfold ext_ok. simpl. exists cls'.
    rewrite list_lookup_insert_eq by (by eapply lookup_lt_Some). split; [done|].
    split; simpl; rewrite ?Hh, ?Hof, ?decide_True by done; try done.
    + by rewrite app_nil_r, Hspe'.
    + rewrite length_seq. simpl. lia.
Qed.

Lemma bind_wf c e prep s g hole s' :
  wf s g hole → BindExtentLocked c e prep s = (kBound, s') → wf s' g hole.
Proof.
  intros Hwf HB. destruct (bind_spec _ _ _ _ _ _ _ _ Hwf HB)
    as [(? & _)|[(_ & ? & _)|(_ & s1 & cls & cls' & Hs1 & Hc & He & -> & H1 & H2 & H3 & H4)]];
    [done|done|].
  assert (Hwf1 : wf s1 g hole).
  { destruct Hs1 as [[_ ->]|[_ Hcb]]; [done|]. by eapply call_extent_bind_wf. }
  assert (s_classes s1 = s_classes s ∧ xcls s1 = xcls s) as [E1 E2].
  { destruct Hs1 as [[_ ->]|[_ [(_ & -> & _)| ->]%call_extent_bind_spec]]; done. }
  apply (bound_to_wf c e cls); rewrite ?E1, ?E2; done.
Qed.

(** Whatever its outcome, [BindExtentLocked] keeps the invariant. *)
Lemma bind_any_wf c e prep s g hole r s' :
  wf s g hole → BindExtentLocked c e prep s = (r, s') → wf s' g hole.
Proof.
  intros Hwf HB. pose proof (bind_spec _ _ _ _ _ _ _ _ Hwf HB)
    as [(-> & -> & _)|[(_ & -> & ->)|(-> & _)]]; [done|by apply wf_cb_log|by eapply bind_wf].
Qed.

(** ** Unbinding *)

Lemma unbind_wf c e s g hole x :
  wf s g hole → s_extents s !! e = Some x → x_cls x = Some c →
  g_ext g e = [] → hole_at hole e = [] → wf (unbind_extent c e s) g hole.
Proof.
  intros Hwf Hx Hxc Hnil Hh.
  pose proof (wf_ext _ _ _ Hwf _ _ Hx) as Hxok. unfold ext_ok in Hxok. rewrite Hxc in Hxok.
  destruct Hxok as (cls & Hc & _).
  pose proof (co_free _ _ _ _ _ (wf_cls _ _ _ Hwf _ _ Hc)) as Hok.
  destruct (DropExtentFree_spec e cls Hok) as (Hok' & Hsame & Hof).
  set (cls' := set_c_bound_extents (λ n, n - 1) (DropExtentFreeLocked e cls)).
  apply (wf_rebind (s := s) (c := c) (e := e) (cls := cls) (cls' := cls')
    (x := x) (x' := new_extent_meta)); try done; try (by left); try (by right).
  - simpl. by rewrite alter_alter, (alter_to_insert _ _ _ _ Hc).
  - simpl. by rewrite (alter_to_insert _ _ _ _ Hx).
  - unfold cls_rest, geom, same_but_free in *. simpl. naive_solver congruence.
  - destruct Hok'. by split.
  - intros e' Hne. change (free_of (DropExtentFreeLocked e cls) e' = free_of cls e').
    by rewrite Hof, decide_False.
  - simpl. unfold same_but_free in Hsame. destruct Hsame as (_ & _ & _ & -> & _).
    repeat case_decide; done || lia.
  - simpl. repeat case_decide; congruence || lia.
  - change (free_of (DropExtentFreeLocked e cls) e ≠ [] → x_cls new_extent_meta = Some c).
    by rewrite Hof, decide_True.
Qed.

(** ** Freeing a resident *)

Definition del (i : nat) (l : list nat) : list nat := filter (λ j, j ≠ i) l.

Lemma del_middle i l1 l2 : NoDup (l1 ++ i :: l2) → del i (l1 ++ i :: l2) = l1 ++ l2.
Proof.
  intros (H1 & H2 & _)%NoDup_middle. unfold del.
  rewrite filter_app, filter_cons_False by naive_solver. rewrite <- filter_app.
  apply filter_all. intros j [Hj|Hj]%elem_of_app ->; done.
Qed.

Lemma del_notin i l : i ∉ l → del i l = l.
Proof. intros H. apply filter_all. by intros j Hj ->. Qed.

Lemma elem_of_del i j l : j ∈ del i l ↔ j ∈ l ∧ j ≠ i.
Proof. unfold del. rewrite list_elem_of_filter. tauto. Qed.

Lemma sumD_del f D i l m :
  NoDup l → i ∈ l → D !! i = Some m → sumD f D (del i l) = sumD f D l - f m.
Proof.
  intros Hnd Hin Hi. destruct (NoDup_split l i Hnd Hin) as (l1 & l2 & -> & _ & _).
  rewrite del_middle, (sumD_middle _ _ _ _ _ m) by done. lia.
Qed.

Lemma length_del i l : NoDup l → i ∈ l → S (length (del i l)) = length l.
Proof.
  intros Hnd Hin. destruct (NoDup_split l i Hnd Hin) as (l1 & l2 & -> & _ & _).
  rewrite del_middle, !length_app by done. simpl. lia.
Qed.

(** What [free_resident] makes of the class and of the extent. *)
Definition freed_cls (e slot : nat) (useful : Z) (h n : option nat) (cls : Class_) : Class_ :=
  let cls := set_c_resident_count (λ k, k - 1) (set_c_hand (λ _, n)
    (set_c_ring_head (λ _, h) cls)) in
  let cls := if c_resident_count cls =? 0 then set_c_hand (λ _, None) cls else cls in
  set_c_useful_bytes (λ k, k - useful) (PushFreeLocked e slot cls).

Definition freed_ext (m : SlotMeta) (h : option nat) (x : ExtentMeta) : ExtentMeta :=
  let x := set_x_resident_head (λ _, h) x in
  let x := set_x_access_seq_sum (λ n, n - m_access_seq m) (set_x_resident_count (λ n, n - 1) x) in
  let x := set_x_pinned (λ n, if (0 <? m_refs m) && (0 <? n) then n - 1 else n) x in
  set_x_useful_bytes (λ n, n - m_useful_bytes m) (set_x_free_slots (λ n, n + 1) x).

Lemma free_resident_fields i s m cls x sl1 h1 n1 sl2 h2 n2 sl3 h3 :
  strip (slot_at s i) = m →
  s_classes s !! r_cls (m_ref m) = Some cls → s_extents s !! r_extent (m_ref m) = Some x →
  remove_ring RClass i (s_slots s) (c_ring_head cls) (c_hand cls) = (sl1, h1, n1) →
  remove_ring RGlobal i sl1 (s_global_ring_head s) (s_global_hand s) = (sl2, h2, n2) →
  unlink RExtent i sl2 (x_resident_head x) = (sl3, h3) →
  let s' := free_resident i s in
  s_slots s' = alter (λ _, set_m_free_next (λ _, s_free_slot_meta_head s) new_slot_meta) i sl3 ∧
  s_classes s' = <[r_cls (m_ref m) := freed_cls (r_extent (m_ref m)) (r_slot (m_ref m))
    (m_useful_bytes m) h1 n1 cls]> (s_classes s) ∧
  s_extents s' = <[r_extent (m_ref m) := freed_ext m h3 x]> (s_extents s) ∧
  s_index s' = (ix_erase (m_key m) (s_index s)).2 ∧
  s_used_bytes s' = s_used_bytes s - r_slot_size (m_ref m) ∧
  s_free_slot_meta_head s' = Some i ∧ s_global_ring_head s' = h2 ∧ s_global_hand s' = n2 ∧
  (s_opt s', s_unbound s', s_retention s', s_cb_log s', s_counters s') =
  (s_opt s, s_unbound s, s_retention s, s_cb_log s, s_counters s).
Proof.
  intros <- Hc Hx E1 E2 E3. simpl in *. unfold free_resident, put_class_ring.
  rewrite (cls_at_eq _ _ _ Hc), E1. unfold put_global_ring. simpl. rewrite E2.
  unfold put_extent_list. simpl. unfold ext_at. simpl.
  rewrite (list_lookup_total_correct _ _ _ Hx), E3. simpl.
  rewrite !alter_alter.
  rewrite (alter_to_insert _ _ _ _ Hc), (alter_to_insert _ _ _ _ Hx). done.
Qed.

Lemma free_chain_ext N N' hd l :
  (∀ j, j ∈ l → N' !! j = N !! j) → free_chain N hd l → free_chain N' hd l.
Proof.
  revert hd. induction l as [|i l IH]; intros hd Hext; simpl; [done|].
  intros (-> & n & Hn & Hc). split; [done|]. exists n. rewrite Hext by set_solver.
  split; [done|]. apply IH; [set_solver|done].
Qed.

Definition freed_ghost (i : nat) (g : Ghost) : Ghost :=
  mkGhost (del i (g_all g)) (λ c, del i (g_cls g c)) (λ e, del i (g_ext g e)) (i :: g_free g).

Section free.
Context {s : St} {g : Ghost} {hole : option (nat * nat)} {i : nat} {m : SlotMeta}.
Context (Hwf : wf s g hole) (Hm : live_at (data s) i m).

Lemma in_cls_iff c : i ∈ g_cls g c ↔ c = r_cls (m_ref m).
Proof. exact (wf_in_cls Hwf _ _ c Hm). Qed.
Lemma in_ext_iff e : i ∈ g_ext g e ↔ e = r_extent (m_ref m).
Proof. exact (wf_in_ext Hwf _ _ e Hm). Qed.

Lemma not_in_free : i ∉ g_free g.
Proof.
  rewrite (mb_free _ _ (wf_members _ _ _ Hwf)). intros (m' & Hm' & Hd).
  destruct Hm as [Hm1 Hm2]. congruence.
Qed.

(** Rings, extent list and metadata chain once [i] is unlinked everywhere. *)
Lemma free_rings cls x sl1 h1 n1 sl2 h2 n2 sl3 h3 z :
  s_classes s !! r_cls (m_ref m) = Some cls → s_extents s !! r_extent (m_ref m) = Some x →
  remove_ring RClass i (s_slots s) (c_ring_head cls) (c_hand cls) = (sl1, h1, n1) →
  remove_ring RGlobal i sl1 (s_global_ring_head s) (s_global_hand s) = (sl2, h2, n2) →
  unlink RExtent i sl2 (x_resident_head x) = (sl3, h3) →
  let sl := alter (λ _, z) i sl3 in
  let g' := freed_ghost i g in
  strip <$> sl3 = data s ∧ m_free_next <$> sl3 = m_free_next <$> s_slots s ∧
  ring (links RGlobal sl) h2 n2 (g_all g') ∧
  ring (links RClass sl) h1 n1 (g_cls g' (r_cls (m_ref m))) ∧
  (∀ c cls', c ≠ r_cls (m_ref m) → s_classes s !! c = Some cls' →
     ring (links RClass sl) (c_ring_head cls') (c_hand cls') (g_cls g' c)) ∧
  dll (links RExtent sl) h3 (g_ext g' (r_extent (m_ref m))) ∧
  (∀ e x', e ≠ r_extent (m_ref m) → s_extents s !! e = Some x' →
     dll (links RExtent sl) (x_resident_head x') (g_ext g' e)).
Proof.
  intros Hc Hx E1 E2 E3 sl g'. destruct (wf_rings _ _ _ Hwf) as [R1 R2 R3 _ _].
  pose proof (proj2 (in_cls_iff _) eq_refl) as Hic. pose proof (proj2 (in_ext_iff _) eq_refl) as Hix.
  pose proof (wf_all_in Hwf _ _ Hm) as Hia.
  pose proof (R2 _ _ Hc) as Rc. pose proof (R3 _ _ Hx) as Rx.
  destruct (NoDup_split _ _ (ring_NoDup _ _ _ _ Rc) Hic) as (ca & cb & Hcl & _).
  destruct (NoDup_split _ _ (ring_NoDup _ _ _ _ R1) Hia) as (aa & ab & Hal & _).
  destruct (NoDup_split _ _ (dll_NoDup _ _ _ Rx) Hix) as (xa & xb & Hxl & _).
  assert (Hdc : del i (g_cls g (r_cls (m_ref m))) = ca ++ cb).
  { rewrite Hcl. apply del_middle. rewrite <- Hcl. by eapply ring_NoDup. }
  assert (Hda : del i (g_all g) = aa ++ ab).
  { rewrite Hal. apply del_middle. rewrite <- Hal. by eapply ring_NoDup. }
  assert (Hdx : del i (g_ext g (r_extent (m_ref m))) = xa ++ xb).
  { rewrite Hxl. apply del_middle. rewrite <- Hxl. by eapply dll_NoDup. }
  rewrite Hcl in Rc. rewrite Hal in R1. rewrite Hxl in Rx.
  destruct (ring_remove _ _ _ _ _ _ _ _ _ _ Rc E1) as [Rc1 O1].
  rewrite <- (ol_other _ _ _ O1 RGlobal) in R1 by done.
  destruct (ring_remove _ _ _ _ _ _ _ _ _ _ R1 E2) as [R11 O2].
  rewrite <- (ol_other _ _ _ O1 RExtent), <- (ol_other _ _ _ O2 RExtent) in Rx by done.
  destruct (unlink_spec _ _ _ _ _ _ _ _ Rx E3) as [Rx1 O3].
  assert (Hsl : ∀ r j, j ≠ i → links r sl !! j = links r sl3 !! j).
  { intros r j Hj. unfold links, sl. rewrite !list_lookup_fmap.
    by rewrite list_lookup_alter_ne by done. }
  assert (Hne : ∀ l j, j ∈ del i l → j ≠ i) by (intros l j [_ ?]%elem_of_del; done).
  split_and!.
  - rewrite (ol_data _ _ _ O3), (ol_data _ _ _ O2), (ol_data _ _ _ O1). done.
  - by rewrite (ol_free _ _ _ O3), (ol_free _ _ _ O2), (ol_free _ _ _ O1).
  - unfold g'. simpl. rewrite <- (ol_other _ _ _ O3 RGlobal), <- Hda in R11 by done.
    eapply ring_ext; [|done]. eauto.
  - unfold g'. simpl. rewrite <- (ol_other _ _ _ O2 RClass), <- (ol_other _ _ _ O3 RClass), <- Hdc
      in Rc1 by done. eapply ring_ext; [|done]. eauto.
  - intros c cls' Hnc Hc'. unfold g'. simpl.
    rewrite del_notin by (rewrite in_cls_iff; congruence).
    eapply ring_ext; [|by apply R2]. intros j Hj.
    pose proof (wf_cls_disjoint Hwf _ _ _ Hnc Hj) as Hjc.
    rewrite Hsl by (intros ->; done).
    rewrite (ol_other _ _ _ O3 RClass), (ol_other _ _ _ O2 RClass) by done.
    eapply remove_ring_frame; [done|done|]. rewrite <- Hdc, elem_of_del. tauto.
  - unfold g'. simpl. rewrite <- Hdx in Rx1. eapply dll_ext; [|done]. eauto.
  - intros e x' Hnx Hx'. unfold g'. simpl.
    rewrite del_notin by (rewrite in_ext_iff; congruence).
    eapply dll_ext; [|by apply R3]. intros j Hj.
    pose proof (wf_ext_disjoint Hwf _ _ _ Hnx Hj) as Hjx.
    rewrite Hsl by (intros ->; done).
    rewrite <- (ol_other _ _ _ O1 RExtent), <- (ol_other _ _ _ O2 RExtent) by done.
    eapply unlink_frame; [done|done|]. rewrite <- Hdx, elem_of_del. tauto.
Qed.

Lemma sumD_freed f z l :
  NoDup l →
  sumD f (<[i := z]> (data s)) (del i l) =
  sumD f (data s) l - (if decide (i ∈ l) then f m else 0).
Proof.
  intros Hnd. rewrite (sumD_ext f (data s)).
  2:{ intros j [_ Hj]%elem_of_del. by rewrite list_lookup_insert_ne. }
  case_decide as Hin; [|rewrite del_notin by done; lia]. apply sumD_del; [done|done|apply Hm].
Qed.

Lemma slots_freed z l :
  slot_of (<[i := z]> (data s)) <$> del i l = slot_of (data s) <$> del i l.
Proof.
  apply slot_of_fmap_ext. intros j [_ Hj]%elem_of_del. by rewrite list_lookup_insert_ne.
Qed.

Lemma member_ok_freed z :
  m_live z = false → member_ok (<[i := z]> (data s)) (freed_ghost i g).
Proof.
  intros Hz. destruct Hm as [Hi Hl]. destruct (wf_members _ _ _ Hwf) as [M1 M2 M3 M4].
  assert (Hlt : (i < length (data s))%nat) by (by eapply lookup_lt_Some).
  assert (Hlive : ∀ j x, live_at (<[i := z]> (data s)) j x ↔ live_at (data s) j x ∧ j ≠ i).
  { intros j x. unfold live_at. destruct (decide (j = i)) as [->|Hne].
    - rewrite list_lookup_insert_eq by done. split; [|naive_solver]. intros [[= <-] ?]. congruence.
    - rewrite list_lookup_insert_ne by done. tauto. }
  split; simpl; intros.
  - rewrite elem_of_del, M1. setoid_rewrite Hlive. naive_solver.
  - rewrite elem_of_del, M2. setoid_rewrite Hlive. naive_solver.
  - rewrite elem_of_del, M3. setoid_rewrite Hlive. naive_solver.
  - rewrite elem_of_cons, M4. destruct (decide (i0 = i)) as [->|Hne].
    + rewrite list_lookup_insert_eq by done. split; [intros _; by exists z|by left].
    + rewrite list_lookup_insert_ne by done. naive_solver.
Qed.

(** The class and the extent that lose the resident. *)
Context (Hunprot : m_retain_until m = 0).

Lemma freed_cls_spec cls e slot h n :
  free_ok cls → (n = None ∨ c_resident_count cls ≠ 1) →
  let cls' := freed_cls e slot (m_useful_bytes m) h n cls in
  free_ok cls' ∧ geom cls' = geom cls ∧ c_resident_count cls' = c_resident_count cls - 1 ∧
  c_useful_bytes cls' = c_useful_bytes cls - m_useful_bytes m ∧
  c_protected_slots cls' = c_protected_slots cls ∧
  c_bound_extents cls' = c_bound_extents cls ∧ c_ring_head cls' = h ∧ c_hand cls' = n ∧
  (∀ e', free_of cls' e' = if decide (e' = e) then free_of cls e ++ [slot] else free_of cls e').
Proof.
  intros Hok Hn. unfold freed_cls. set (mid := if _ =? 0 then _ else _).
  assert (Hmid : free_ok mid ∧ geom mid = geom cls ∧
    c_resident_count mid = c_resident_count cls - 1 ∧ c_useful_bytes mid = c_useful_bytes cls ∧
    c_protected_slots mid = c_protected_slots cls ∧ c_bound_extents mid = c_bound_extents cls ∧
    c_ring_head mid = h ∧ c_hand mid = n ∧ c_free_by_ext mid = c_free_by_ext cls).
  { subst mid. destruct Hok. simpl.
    destruct (Z.eqb_spec (c_resident_count cls - 1) 0); split_and!; try done.
    destruct Hn as [->|?]; [done|lia]. }
  clearbody mid. destruct Hmid as (M1 & M2 & M3 & M4 & M5 & M6 & M7 & M8 & M9).
  destruct (PushFree_spec e slot mid M1) as (P1 & P2 & P3).
  unfold same_but_free in P2. destruct P2 as (Q1 & Q2 & Q3 & Q4 & Q5 & Q6 & Q7 & Q8 & Q9 & Q10 & Q11 & Q12).
  set (P := PushFreeLocked e slot mid) in *. clearbody P.
  split_and!; simpl; try congruence.
  - destruct P1. by split.
  - unfold geom in *. simpl. congruence.
  - intros e'. specialize (P3 e'). unfold free_of in *. simpl. by rewrite M9 in P3.
Qed.

Lemma freed_ext_bound cls cls' x h z :
  s_extents s !! r_extent (m_ref m) = Some x →
  ext_bound (data s) hole (g_ext g (r_extent (m_ref m))) (r_extent (m_ref m)) cls x →
  free_of cls' (r_extent (m_ref m)) = free_of cls (r_extent (m_ref m)) ++ [r_slot (m_ref m)] →
  c_slots_per_extent cls' = c_slots_per_extent cls →
  ext_bound (<[i := z]> (data s)) hole (g_ext (freed_ghost i g) (r_extent (m_ref m)))
    (r_extent (m_ref m)) cls' (freed_ext m h x).
Proof.
  intros Hx [B1 B2 B3 B4 B5 B6 B7 B8] Hf Hspe.
  pose proof (wf_ext_nodup Hwf _ _ Hx) as Hnd.
  pose proof (proj2 (in_ext_iff _) eq_refl) as Hin.
  assert (Hpin : x_pinned x = sumD w_pin (data s) (del i (g_ext g (r_extent (m_ref m)))) + w_pin m
    ∧ 0 <= sumD w_pin (data s) (del i (g_ext g (r_extent (m_ref m))))).
  { rewrite (sumD_del _ _ _ _ m) by (done || apply Hm). split; [lia|].
    rewrite <- (sumD_del _ _ _ _ m) by (done || apply Hm). apply sumD_nonneg.
    intros j _. unfold w_pin. case_match; lia. }
  destruct Hpin as [Hp1 Hp2].
  split; simpl; rewrite ?sumD_freed, ?decide_True by done.
  - congruence.
  - rewrite slots_freed, Hf, Hspe, <- B2.
    destruct (NoDup_split _ _ Hnd Hin) as (l1 & l2 & Hl & _). rewrite Hl.
    rewrite del_middle by (by rewrite <- Hl). rewrite !fmap_app. simpl.
    assert (slot_of (data s) i = r_slot (m_ref m)) as ->.
    { unfold slot_of. by rewrite (list_lookup_total_correct _ _ _ (proj1 Hm)). }
    solve_Permutation.
  - rewrite B3, Hf, length_app. simpl. lia.
  - rewrite <- B4, Hp1. set (S0 := sumD w_pin _ (del _ _)) in *. clearbody S0. unfold w_pin.
    destruct (0 <? m_refs m); simpl; [|lia]. destruct (Z.ltb_spec 0 (S0 + 1)); lia.
  - lia.
  - lia.
  - rewrite B7, <- (length_del _ _ Hnd Hin). lia.
  - rewrite B8. unfold w_prot at 3. rewrite Hunprot. simpl. lia.
Qed.

(** The invariant of the state that results, component by component. *)
Section freed.
Context {s' : St} {cls cls' : Class_} {x : ExtentMeta} {h3 : option nat}.
Context (Hc : s_classes s !! r_cls (m_ref m) = Some cls).
Context (Hx : s_extents s !! r_extent (m_ref m) = Some x) (Hxc : x_cls x = Some (r_cls (m_ref m))).
Context (Hb : ext_bound (data s) hole (g_ext g (r_extent (m_ref m))) (r_extent (m_ref m)) cls x).
Context (HD : data s' = <[i := new_slot_meta]> (data s)).
Context (F2 : s_classes s' = <[r_cls (m_ref m) := cls']> (s_classes s)).
Context (F3 : s_extents s' = <[r_extent (m_ref m) := freed_ext m h3 x]> (s_extents s)).
Context (C1 : free_ok cls') (C2 : geom cls' = geom cls).
Context (C3 : c_resident_count cls' = c_resident_count cls - 1).
Context (C4 : c_useful_bytes cls' = c_useful_bytes cls - m_useful_bytes m).
Context (C5 : c_protected_slots cls' = c_protected_slots cls).
Context (C6 : c_bound_extents cls' = c_bound_extents cls).
Context (C9 : ∀ e', free_of cls' e' = if decide (e' = r_extent (m_ref m))
  then free_of cls (r_extent (m_ref m)) ++ [r_slot (m_ref m)] else free_of cls e').

Lemma freed_xcls : xcls s' = xcls s.
Proof.
  unfold xcls. rewrite F3, list_fmap_insert. apply list_insert_id.
  by rewrite list_lookup_fmap, Hx.
Qed.

Lemma freed_geom : geom <$> s_classes s' = geom <$> s_classes s.
Proof.
  rewrite F2, list_fmap_insert. apply list_insert_id.
  by rewrite list_lookup_fmap, Hc, C2.
Qed.

Lemma freed_cls_ok c cl :
  s_classes s' !! c = Some cl → cls_ok (data s') (xcls s) (g_cls (freed_ghost i g) c) c cl.
Proof.
  rewrite F2, HD. intros [(<- & <- & _)|[Hne Hl]]%list_lookup_insert_Some; simpl.
  - destruct (wf_cls _ _ _ Hwf _ _ Hc) as [D1 D2 D3 D4 D5].
    pose proof (wf_cls_nodup Hwf _ _ Hc) as Hnd.
    pose proof (proj2 (in_cls_iff _) eq_refl) as Hin.
    split; rewrite ?sumD_freed, ?decide_True by done; [done| | | |congruence].
    + rewrite C3, D2, <- (length_del _ _ Hnd Hin). lia.
    + congruence.
    + rewrite C5, D4. unfold w_prot at 3. rewrite Hunprot. simpl. lia.
  - destruct (wf_cls _ _ _ Hwf _ _ Hl) as [D1 D2 D3 D4 D5].
    pose proof (wf_cls_nodup Hwf _ _ Hl) as Hnd.
    assert (Hin : i ∉ g_cls g c) by (rewrite in_cls_iff; congruence).
    split; rewrite ?sumD_freed, ?decide_False by done; try done; [by rewrite del_notin|lia|lia].
Qed.

Lemma freed_ext_ok e y :
  s_extents s' !! e = Some y →
  ext_ok (data s') (s_classes s') hole (g_ext (freed_ghost i g) e) e y.
Proof.
  assert (Hlt : (r_cls (m_ref m) < length (s_classes s))%nat) by (by eapply lookup_lt_Some).
  pose proof C2 as [= Hss Hspe].
  rewrite F3, HD. intros [(<- & <- & _)|[Hne Hl]]%list_lookup_insert_Some.
  - unfold ext_ok. simpl x_cls. rewrite Hxc. exists cls'.
    rewrite F2, list_lookup_insert_eq by done. split; [done|].
    apply (freed_ext_bound cls); [done|done| |done]. by rewrite C9, decide_True.
  - pose proof (wf_ext _ _ _ Hwf _ _ Hl) as Hok. unfold ext_ok in *.
    destruct (x_cls y) as [c'|]; [|done]. destruct Hok as (cl & Hcl & [B1 B2 B3 B4 B5 B6 B7 B8]).
    assert (Hin : i ∉ g_ext g e) by (rewrite in_ext_iff; congruence).
    pose proof (wf_ext_nodup Hwf _ _ Hl) as Hnd.
    assert (Hb' : ext_bound (<[i := new_slot_meta]> (data s)) hole (del i (g_ext g e)) e cl y).
    { split; rewrite ?sumD_freed, ?slots_freed, ?decide_False, ?Z.sub_0_r by done; try done;
        by rewrite del_notin. }
    rewrite F2. destruct (decide (c' = r_cls (m_ref m))) as [->|Hnc].
    + exists cls'. rewrite list_lookup_insert_eq by done. split; [done|]. simplify_eq.
      apply (ext_bound_cls _ _ _ _ cls); [|done|done]. by rewrite C9, decide_False.
    + exists cl. by rewrite list_lookup_insert_ne.
Qed.

Context (Hrings : rings_ok s' (freed_ghost i g)).
Context (Hix : s_index s' = (ix_erase (m_key m) (s_index s)).2).
Context (Hused : s_used_bytes s' = s_used_bytes s - r_slot_size (m_ref m)).
Context (Hrest : (s_opt s', s_unbound s', s_retention s') = (s_opt s, s_unbound s, s_retention s)).

Lemma freed_find k j :
  ix_find k (s_index s') = Some j ↔ ∃ m', live_at (data s') j m' ∧ m_key m' = k.
Proof.
  pose proof Hm as [Hi Hl]. assert (Hlt : (i < length (data s))%nat) by (by eapply lookup_lt_Some).
  rewrite Hix, ix_find_erase, HD by apply Hwf. unfold live_at. case_decide as Hk.
  - split; [done|]. intros (m' & [Hj Hl'] & Hk'). destruct (decide (j = i)) as [->|Hne].
    { rewrite list_lookup_insert_eq in Hj by done. by simplify_eq. }
    rewrite list_lookup_insert_ne in Hj by done.
    assert (ix_find k (s_index s) = Some j) by (apply (wf_find _ _ _ Hwf); by exists m').
    assert (ix_find k (s_index s) = Some i) by (apply (wf_find _ _ _ Hwf); by exists m).
    congruence.
  - rewrite (wf_find _ _ _ Hwf). unfold live_at. destruct (decide (j = i)) as [->|Hne].
    + rewrite list_lookup_insert_eq by done. split; intros (m' & [Hj Hl'] & Hk'); by simplify_eq.
    + by rewrite list_lookup_insert_ne.
Qed.

Lemma wf_freed : wf s' (freed_ghost i g) hole.
Proof.
  pose proof freed_xcls as Hxcl. pose proof freed_geom as Hgeo. pose proof freed_cls_ok as Hcls.
  pose proof freed_ext_ok as Hext. pose proof freed_find as Hfind.
  pose proof (wf_all_in Hwf _ _ Hm) as Hin. pose proof (wf_all_nodup Hwf) as Hnd.
  assert (Hmf : ix_find (m_key m) (s_index s) = Some i) by (apply (wf_find _ _ _ Hwf); by exists m).
  pose proof Hrest as [= Ho Hu Hr].
  pose proof Hwf as [W1 W2 W3 W4 W5 W6 W7 W8 W9 W10 W11 W12 W13 W14 W15 W16].
  split; rewrite ?Ho, ?Hxcl, ?Hgeo, ?Hu, ?Hr; try done.
  - rewrite F3. by rewrite length_insert.
  - rewrite Hix. by apply ix_erase_wf.
  - rewrite Hix. apply Nat.succ_inj. rewrite ix_size_erase by (done || by eexists).
    rewrite W6. symmetry. by apply length_del.
  - rewrite HD. by apply member_ok_freed.
  - intros j m'. rewrite HD. intros [Hj Hl].
    apply list_lookup_insert_Some in Hj as [(<- & <- & _)|[_ Hj]]; [done|]. by apply (W9 j).
  - intros c cl e. rewrite F2. intros [(<- & <- & _)|[Hne Hl]]%list_lookup_insert_Some.
    + rewrite C9. case_decide as He; [subst e|by apply W12].
      intros _. apply xcls_lookup. by exists x.
    + by apply W12.
  - rewrite HD. simpl. rewrite sumD_freed, decide_True, Hused, W14 by done. done.
  - rewrite HD. simpl. rewrite sumD_freed, decide_True, W15 by done.
    unfold w_prot_bytes at 3. rewrite Hunprot. simpl. lia.
  - rewrite HD. simpl. rewrite sumD_freed, decide_True, W16 by done.
    unfold w_prot at 3. rewrite Hunprot. simpl. lia.
Qed.

End freed.

Lemma free_resident_wf : wf (free_resident i s) (freed_ghost i g) hole.
Proof.
  destruct (wf_ext_lookup Hwf _ _ Hm) as (x & cls & Hx & _ & Hxc & Hc & Hb & Hix).
  destruct (remove_ring RClass i (s_slots s) (c_ring_head cls) (c_hand cls)) as [[sl1 h1] n1] eqn:E1.
  destruct (remove_ring RGlobal i sl1 (s_global_ring_head s) (s_global_hand s)) as [[sl2 h2] n2] eqn:E2.
  destruct (unlink RExtent i sl2 (x_resident_head x)) as [sl3 h3] eqn:E3.
  destruct (free_resident_fields i s m cls x _ _ _ _ _ _ _ _
    (data_slot_at _ _ _ (proj1 Hm)) Hc Hx E1 E2 E3)
    as (F1 & F2 & F3 & F4 & F5 & F6 & F7 & F8 & F9).
  set (z := set_m_free_next (λ _, s_free_slot_meta_head s) new_slot_meta) in *.
  destruct (free_rings cls x _ _ _ _ _ _ _ _ z Hc Hx E1 E2 E3)
    as (Hd3 & Hf3 & Rall & Rc & Rco & Rx & Rxo).
  set (s' := free_resident i s) in *. clearbody s'.
  assert (is_Some (sl3 !! i)) as [y Hy].
  { destruct (sl3 !! i) eqn:Ey; [by eexists|]. apply (f_equal (lookup i)) in Hd3.
    rewrite list_lookup_fmap, Ey, (proj1 Hm) in Hd3. done. }
  pose proof (wf_cls _ _ _ Hwf _ _ Hc) as Hcok.
  pose proof (ring_hand _ _ _ _ Rc) as Hn1. simpl in Hn1.
  assert (Hn : n1 = None ∨ c_resident_count cls ≠ 1).
  { rewrite (co_resident _ _ _ _ _ Hcok), Hn1.
    rewrite <- (length_del _ _ (wf_cls_nodup Hwf _ _ Hc) (proj2 (in_cls_iff _) eq_refl)).
    destruct (del i _); simpl; [by left|right; lia]. }
  destruct (freed_cls_spec cls (r_extent (m_ref m)) (r_slot (m_ref m)) h1 n1
    (co_free _ _ _ _ _ Hcok) Hn) as (C1 & C2 & C3 & C4 & C5 & C6 & C7 & C8 & C9).
  set (cls' := freed_cls _ _ _ _ _ _) in *. clearbody cls'.
  apply (wf_freed Hc Hx Hxc Hb (cls' := cls') (h3 := h3)); try done; [| |by injection F9 as -> -> -> _ _].
  - unfold data. by rewrite F1, (fmap_alter_insert _ _ _ _ _ Hy), Hd3.
  - destruct (wf_rings _ _ _ Hwf) as [R1 R2 R3 R4 R5]. split; rewrite ?F1, ?F6, ?F7, ?F8; [done|..].
    + intros c cl. rewrite F2. intros [(<- & <- & _)|[Hne Hl]]%list_lookup_insert_Some;
        [by rewrite C7, C8|by apply Rco].
    + intros e x'. rewrite F3. intros [(<- & <- & _)|[Hne Hl]]%list_lookup_insert_Some;
        [done|by apply Rxo].
    + simpl. split; [done|]. exists (s_free_slot_meta_head s).
      rewrite list_lookup_fmap, list_lookup_alter_eq, Hy. split; [done|].
      eapply free_chain_ext; [|done]. intros j Hj. rewrite <- Hf3, !list_lookup_fmap.
      rewrite list_lookup_alter_ne; [done|]. intros <-. by apply not_in_free.
    + simpl. apply NoDup_cons. split; [apply not_in_free|done].
Qed.

End free.

End structure.
