(* ===== verification/SlabInstall.v ===== *)
(** * Slab allocator: installing a resident

    [AcquireSlotMetaLocked], the initialisation of the record, the index
    insertion and [LinkResidentLocked] turn the slot popped from a free list
    (the hole of the invariant) into a resident. *)

From S2P Require Import Prelude KvTypes KeyIndex SlabTypes SlabLattice SlabRing SlabFree SlabOps.
From S2P Require Import SlabInv SlabStruct.

Section install.
Context {IX : Type} {ixo : KeyIndexOps IX} {ixl : KeyIndexLaws IX}.
Notation St := (SlabAllocator IX).
Implicit Types (s : St) (g : Ghost) (hole : option (nat * nat)).

(** What an acquisition does not touch. *)
Definition acquire_rest s :=
  (s_opt s, s_classes s, s_extents s, s_global_ring_head s, s_global_hand s, s_index s,
   s_unbound s, s_used_bytes s, s_retention s, s_cb_log s, s_activity_seq s).

(** The metadata slot [i] is fresh in [s1]. *)
Record acquired s g (i : nat) s1 (gf : list nat) : Prop := {
  aq_new : s_slots s1 !! i = Some new_slot_meta;
  aq_old j : j ≠ i → s_slots s1 !! j = s_slots s !! j;
  aq_dead m : ¬ live_at (data s) i m;
  aq_chain : free_chain (m_free_next <$> s_slots s1) (s_free_slot_meta_head s1) gf;
  aq_nodup : NoDup gf;
  aq_free j : j ∈ gf ↔ j ∈ g_free g ∧ j ≠ i;
  aq_rest : acquire_rest s1 = acquire_rest s;
}.

Lemma acquire_spec s g hole i s1 :
  wf s g hole → AcquireSlotMetaLocked s = (i, s1) → ∃ gf, acquired s g i s1 gf.
Proof.
  intros Hwf. destruct (wf_rings _ _ _ Hwf) as [_ _ _ R4 R5]. unfold AcquireSlotMetaLocked.
  destruct (s_free_slot_meta_head s) as [index|] eqn:Eh; intros [= <- <-].
  - destruct (g_free g) as [|i0 gf] eqn:Eg; simpl in R4; [done|].
    destruct R4 as ([= <-] & n & Hn & Hch). apply NoDup_cons in R5 as [Hi0 Hnd].
    exists gf. rewrite list_lookup_fmap in Hn.
    destruct (s_slots s !! index) as [y|] eqn:Ey; [|done]. simpl in Hn. injection Hn as <-.
    assert (index < length (s_slots s))%nat by (by eapply lookup_lt_Some).
    split; simpl; try done.
    + by rewrite list_lookup_insert_eq.
    + intros j Hj. by rewrite list_lookup_insert_ne.
    + intros m [Hm Hl]. assert (index ∈ g_free g) as Hin by (rewrite Eg; by left).
      apply (mb_free _ _ (wf_members _ _ _ Hwf)) in Hin as (m' & Hm' & Hd). congruence.
    + rewrite (slot_at_eq _ _ _ Ey). eapply free_chain_ext; [|done].
      intros j Hj. rewrite !list_lookup_fmap, list_lookup_insert_ne; [done|]. by intros ->.
    + intros j. rewrite Eg, elem_of_cons. split; [|naive_solver]. intros Hj. split; [by right|].
      by intros ->.
  - exists (g_free g). destruct (g_free g) as [|i0 gf] eqn:Eg; simpl in R4; [|by destruct R4].
    split; simpl; try done.
    + by rewrite lookup_app_r, Nat.sub_diag.
    + intros j Hj. destruct (decide (j < length (s_slots s))%nat).
      * by rewrite lookup_app_l.
      * rewrite (lookup_ge_None_2 (s_slots s)) by lia.
        apply lookup_ge_None_2. rewrite length_app. simpl. lia.
    + intros m [Hm _]. apply lookup_lt_Some in Hm. unfold data in Hm. rewrite length_fmap in Hm. lia.
    + intros j. rewrite Eg. set_solver.
Qed.

(** ** Linking *)

Definition linked_cls (h n : option nat) (cls : Class_) : Class_ :=
  set_c_resident_count (λ k, k + 1) (set_c_hand (λ _, n) (set_c_ring_head (λ _, h) cls)).

Definition linked_ext (h : option nat) (x : ExtentMeta) : ExtentMeta :=
  set_x_resident_count (λ k, k + 1) (set_x_resident_head (λ _, h) x).

Definition linked_ghost (i c e : nat) (gf : list nat) (g : Ghost) : Ghost :=
  mkGhost (g_all g ++ [i])
    (λ c', if decide (c' = c) then g_cls g c ++ [i] else g_cls g c')
    (λ e', if decide (e' = e) then i :: g_ext g e else g_ext g e') gf.

Lemma link_resident_fields i s m0 cls x sl1 h1 n1 sl2 h2 n2 sl3 h3 :
  slot_at s i = m0 →
  s_classes s !! r_cls (m_ref m0) = Some cls → s_extents s !! r_extent (m_ref m0) = Some x →
  link_before RClass i (s_slots s) (c_ring_head cls) (c_hand cls) = (sl1, h1, n1) →
  link_before RGlobal i sl1 (s_global_ring_head s) (s_global_hand s) = (sl2, h2, n2) →
  push_front RExtent i sl2 (x_resident_head x) = (sl3, h3) →
  LinkResidentLocked i s =
    set_s_global_hand (λ _, n2) (set_s_global_ring_head (λ _, h2)
      (set_s_slots (λ _, sl3)
        (set_s_classes (<[r_cls (m_ref m0) := linked_cls h1 n1 cls]>)
          (set_s_extents (<[r_extent (m_ref m0) := linked_ext h3 x]>) s)))).
Proof.
  intros <- Hc Hx E1 E2 E3. destruct s. unfold LinkResidentLocked, LinkBeforeHandLocked.
  rewrite (cls_at_eq _ _ _ Hc). simpl in *. rewrite E1. unfold LinkBeforeGlobalHandLocked.
  simpl. rewrite E2. unfold ext_at. simpl.
  rewrite (list_lookup_total_correct _ _ _ Hx), E3. unfold upd_ext, upd_class. simpl.
  unfold set_s_extents, set_s_classes. simpl.
  by rewrite !alter_alter, (alter_to_insert _ _ _ _ Hc), (alter_to_insert _ _ _ _ Hx).
Qed.

Lemma not_linked s g hole i s1 gf :
  wf s g hole → acquired s g i s1 gf →
  i ∉ g_all g ∧ (∀ c, i ∉ g_cls g c) ∧ (∀ e, i ∉ g_ext g e).
Proof.
  intros Hwf Haq. destruct (wf_members _ _ _ Hwf) as [M1 M2 M3 _].
  pose proof (aq_dead _ _ _ _ _ Haq) as Hd.
  split_and!; intros *; rewrite ?M1, ?M2, ?M3; naive_solver.
Qed.

Section rings.
Context {s s1 : St} {g : Ghost} {hole : option (nat * nat)} {i c e : nat} {gf : list nat}.
Context {cls : Class_} {x : ExtentMeta} {sl0 : list SlotMeta}.
Context (Hwf : wf s g hole) (Haq : acquired s g i s1 gf).
Context (Hc : s_classes s !! c = Some cls) (Hx : s_extents s !! e = Some x).
(* the slot table with the record of [i] initialised, its links still clear *)
Context (Hsl0 : ∃ f, sl0 = alter f i (s_slots s1) ∧
  ∀ r m, get_link r (f m) = get_link r m ∧ m_free_next (f m) = m_free_next m).

Lemma init_links r j :
  links r sl0 !! j = if decide (j = i) then Some no_link else links r (s_slots s) !! j.
Proof.
  destruct Hsl0 as (f & -> & Hf). unfold links. rewrite !list_lookup_fmap.
  case_decide as Hj.
  - subst j. rewrite list_lookup_alter_eq, (aq_new _ _ _ _ _ Haq). simpl.
    rewrite (proj1 (Hf r _)). by destruct r.
  - rewrite list_lookup_alter_ne, (aq_old _ _ _ _ _ Haq) by done. done.
Qed.

Lemma link_rings sl1 h1 n1 sl2 h2 n2 sl3 h3 :
  link_before RClass i sl0 (c_ring_head cls) (c_hand cls) = (sl1, h1, n1) →
  link_before RGlobal i sl1 (s_global_ring_head s) (s_global_hand s) = (sl2, h2, n2) →
  push_front RExtent i sl2 (x_resident_head x) = (sl3, h3) →
  let g' := linked_ghost i c e gf g in
  strip <$> sl3 = strip <$> sl0 ∧ m_free_next <$> sl3 = m_free_next <$> sl0 ∧
  ring (links RGlobal sl3) h2 n2 (g_all g') ∧
  (∀ c' cl, s_classes s !! c' = Some cl →
     ring (links RClass sl3) (if decide (c' = c) then h1 else c_ring_head cl)
       (if decide (c' = c) then n1 else c_hand cl) (g_cls g' c')) ∧
  (∀ e' y, s_extents s !! e' = Some y →
     dll (links RExtent sl3) (if decide (e' = e) then h3 else x_resident_head y) (g_ext g' e')).
Proof.
  intros E1 E2 E3 g'. destruct (wf_rings _ _ _ Hwf) as [R1 R2 R3 _ _].
  destruct (not_linked _ _ _ _ _ _ Hwf Haq) as (Na & Nc & Nx).
  assert (Hlt : (i < length sl0)%nat).
  { pose proof (init_links RClass i) as H. rewrite decide_True in H by done.
    apply lookup_lt_Some in H. unfold links in H. by rewrite length_fmap in H. }
  assert (Hno : ∀ r, links r sl0 !! i = Some no_link).
  { intros r. by rewrite init_links, decide_True. }
  assert (Hold : ∀ r j, j ≠ i → links r sl0 !! j = links r (s_slots s) !! j).
  { intros r j Hj. by rewrite init_links, decide_False. }
  assert (Rc : ∀ c' cl, s_classes s !! c' = Some cl →
    ring (links RClass sl0) (c_ring_head cl) (c_hand cl) (g_cls g c')).
  { intros c' cl Hl. eapply ring_ext; [|by apply R2]. intros j Hj. apply Hold. intros ->.
    by apply (Nc c'). }
  destruct (ring_append _ _ _ _ _ _ _ _ _ (Rc _ _ Hc) (Nc c) Hlt (λ _, Hno _) E1) as [Rc1 O1].
  assert (Ra : ring (links RGlobal sl1) (s_global_ring_head s) (s_global_hand s) (g_all g)).
  { rewrite (ol_other _ _ _ O1 RGlobal) by done. eapply ring_ext; [|apply R1].
    intros j Hj. apply Hold. by intros ->. }
  pose proof (only_links_length _ _ _ O1) as L1.
  destruct (ring_append _ _ _ _ _ _ _ _ _ Ra Na ltac:(by rewrite L1)
    ltac:(by rewrite (ol_other _ _ _ O1 RGlobal)) E2) as [Ra1 O2].
  assert (Rx : ∀ e' y, s_extents s !! e' = Some y →
    dll (links RExtent sl2) (x_resident_head y) (g_ext g e')).
  { intros e' y Hl. rewrite (ol_other _ _ _ O2 RExtent), (ol_other _ _ _ O1 RExtent) by done.
    eapply dll_ext; [|by apply R3]. intros j Hj. apply Hold. intros ->. by apply (Nx e'). }
  destruct (push_front_spec RExtent i sl2 _ _ _ _ (Rx _ _ Hx) (Nx e)
    ltac:(exists None; by rewrite (ol_other _ _ _ O2 RExtent), (ol_other _ _ _ O1 RExtent)) E3)
    as [Rx1 O3].
  split_and!.
  - by rewrite (ol_data _ _ _ O3), (ol_data _ _ _ O2), (ol_data _ _ _ O1).
  - by rewrite (ol_free _ _ _ O3), (ol_free _ _ _ O2), (ol_free _ _ _ O1).
  - by rewrite (ol_other _ _ _ O3 RGlobal).
  - intros c' cl Hl. rewrite (ol_other _ _ _ O3 RClass), (ol_other _ _ _ O2 RClass) by done.
    simpl. destruct (decide (c' = c)) as [->|Hcc]; [done|]. eapply ring_ext; [|by apply Rc]. intros j Hj.
    eapply (link_before_frame _ _ _ _ _ _ _ _ _ _ (Rc _ _ Hc) (Nc c) E1);
      [by eapply wf_cls_disjoint|].
    intros ->. by apply (Nc c').
  - intros e' y Hl. simpl. destruct (decide (e' = e)) as [->|Hee]; [done|]. eapply dll_ext; [|by apply Rx].
    intros j Hj. eapply (push_front_frame _ _ _ _ _ _ _ _ (Rx _ _ Hx) E3);
      [by eapply wf_ext_disjoint|].
    intros ->. by apply (Nx e').
Qed.

End rings.

(** ** The invariant after an installation *)

(** What an installation leaves alone, and what it adds. *)
Definition cls_gains (cls cls' : Class_) (m : SlotMeta) : Prop :=
  geom cls' = geom cls ∧ c_free_by_ext cls' = c_free_by_ext cls ∧ c_ext_rr cls' = c_ext_rr cls ∧
  c_free_count cls' = c_free_count cls ∧ c_resident_count cls' = c_resident_count cls + 1 ∧
  c_useful_bytes cls' = c_useful_bytes cls + m_useful_bytes m ∧
  c_protected_slots cls' = c_protected_slots cls ∧ c_bound_extents cls' = c_bound_extents cls.

Definition ext_gains (x x' : ExtentMeta) (m : SlotMeta) : Prop :=
  x_cls x' = x_cls x ∧ x_total_slots x' = x_total_slots x ∧ x_free_slots x' = x_free_slots x - 1 ∧
  x_pinned x' = x_pinned x ∧ x_access_seq_sum x' = x_access_seq_sum x + m_access_seq m ∧
  x_useful_bytes x' = x_useful_bytes x + m_useful_bytes m ∧
  x_resident_count x' = x_resident_count x + 1 ∧ x_protected_slots x' = x_protected_slots x.

Section installed.
Context {s s1 s' : St} {g : Ghost} {i c e sl : nat} {gf : list nat}.
Context {cls cls' : Class_} {x x' : ExtentMeta} {m : SlotMeta}.
Context (Hwf : wf s g (Some (e, sl))) (Haq : acquired s g i s1 gf).
Context (Hc : s_classes s !! c = Some cls) (Hx : s_extents s !! e = Some x) (Hxc : x_cls x = Some c).
Context (HDi : data s' !! i = Some m) (HDo : ∀ j, j ≠ i → data s' !! j = data s !! j).
Context (Hlive : m_live m = true).
Context (Href : m_ref m = mkSlotRef c e sl (c_slot_size cls) (Z.of_nat sl * c_slot_size cls)).
Context (Hrefs : m_refs m = 0) (Huntil : m_retain_until m = 0).
Context (Huseful : 0 <= m_useful_bytes m <= c_slot_size cls).
Context (Hfresh : ix_find (m_key m) (s_index s) = None).
Context (F1 : s_classes s' = <[c := cls']> (s_classes s)) (F2 : s_extents s' = <[e := x']> (s_extents s)).
Context (Hcg : cls_gains cls cls' m) (Hxg : ext_gains x x' m).
Notation g' := (linked_ghost i c e gf g).

Lemma installed_sum (f : SlotMeta → Z) (l : list nat) :
  i ∉ l → sumD f (data s') l = sumD f (data s) l.
Proof. intros Hi. apply sumD_ext. intros j Hj. apply HDo. by intros ->. Qed.

Lemma installed_slots (l : list nat) :
  i ∉ l → slot_of (data s') <$> l = slot_of (data s) <$> l.
Proof. intros Hi. apply slot_of_fmap_ext. intros j Hj. apply HDo. by intros ->. Qed.

Lemma installed_live j y :
  live_at (data s') j y ↔ (j = i ∧ y = m) ∨ (j ≠ i ∧ live_at (data s) j y).
Proof.
  unfold live_at. destruct (decide (j = i)) as [->|Hne].
  - rewrite HDi. split; [intros [[= <-] _]; by left|]. intros [[_ ->]|[? _]]; done.
  - rewrite HDo by done. naive_solver.
Qed.

Lemma installed_ex (P : SlotMeta → Prop) j :
  (∃ y, live_at (data s') j y ∧ P y) ↔ (j = i ∧ P m) ∨ ∃ y, live_at (data s) j y ∧ P y.
Proof.
  setoid_rewrite installed_live. split; [naive_solver|].
  intros [[-> HP]|(y & Hy & HP)]; [exists m; auto|]. exists y. split; [|done]. right.
  split; [|done]. intros ->. by apply (aq_dead _ _ _ _ _ Haq y).
Qed.

Lemma installed_members : member_ok (data s') g'.
Proof.
  destruct (not_linked _ _ _ _ _ _ Hwf Haq) as (Na & Nc & Nx).
  destruct (wf_members _ _ _ Hwf) as [M1 M2 M3 M4]. split; simpl.
  - intros j. rewrite elem_of_app, list_elem_of_singleton, M1.
    pose proof (installed_ex (λ _, True) j) as [He1 He2]. clear -He1 He2. split.
    + intros [(y & Hy)| ->]; [destruct He2 as (y' & ? & _)|destruct He2 as (y' & ? & _)]; eauto.
    + intros (y & Hy). destruct He1 as [[-> _]|(y' & ? & _)]; eauto.
  - intros c' j. rewrite installed_ex, Href. simpl. rewrite <- M2.
    case_decide; [rewrite elem_of_app, list_elem_of_singleton|]; naive_solver.
  - intros e' j. rewrite installed_ex, Href. simpl. rewrite <- M3.
    case_decide; [rewrite elem_of_cons|]; naive_solver.
  - intros j. rewrite (aq_free _ _ _ _ _ Haq), M4. destruct (decide (j = i)) as [->|Hne].
    + rewrite HDi. split; [naive_solver|]. intros (? & [= <-] & ?). congruence.
    + rewrite HDo by done. naive_solver.
Qed.

Lemma installed_xcls : xcls s' = xcls s.
Proof.
  unfold xcls. rewrite F2, list_fmap_insert. apply list_insert_id.
  rewrite list_lookup_fmap, Hx. simpl. by rewrite (proj1 Hxg).
Qed.

Lemma installed_geom : geom <$> s_classes s' = geom <$> s_classes s.
Proof.
  rewrite F1, list_fmap_insert. apply list_insert_id.
  rewrite list_lookup_fmap, Hc. simpl. by rewrite (proj1 Hcg).
Qed.

Lemma installed_free_of e' : free_of cls' e' = free_of cls e'.
Proof. destruct Hcg as (_ & Hf & _). unfold free_of. by rewrite Hf. Qed.

Lemma installed_cls_ok c' cl :
  s_classes s' !! c' = Some cl → cls_ok (data s') (xcls s) (g_cls g' c') c' cl.
Proof.
  destruct (not_linked _ _ _ _ _ _ Hwf Haq) as (_ & Nc & _).
  rewrite F1. intros [(<- & <- & _)|[Hne Hl]]%list_lookup_insert_Some; simpl.
  - rewrite decide_True by done. destruct (wf_cls _ _ _ Hwf _ _ Hc) as [[D1a D1b D1c] D2 D3 D4 D5].
    destruct Hcg as (G1 & G2 & G3 & G4 & G5 & G6 & G7 & G8).
    split; rewrite ?(sumD_middle _ _ (g_cls g c) _ [] m), ?app_nil_r, ?installed_sum by done.
    + split; [by rewrite G3|intros e'; by rewrite G3, installed_free_of|].
      rewrite G4, G3, D1c. apply sumZ_ext_in. intros e' _. by rewrite installed_free_of.
    + rewrite G5, D2, length_app. simpl. lia.
    + congruence.
    + rewrite G7, D4. unfold w_prot at 3. rewrite Huntil. simpl. lia.
    + congruence.
  - rewrite decide_False by done. destruct (wf_cls _ _ _ Hwf _ _ Hl) as [D1 D2 D3 D4 D5].
    by split; rewrite ?installed_sum.
Qed.

Lemma installed_ext_ok e' y :
  s_extents s' !! e' = Some y → ext_ok (data s') (s_classes s') None (g_ext g' e') e' y.
Proof.
  destruct (not_linked _ _ _ _ _ _ Hwf Haq) as (_ & _ & Nx).
  assert (Hlt : (c < length (s_classes s))%nat) by (by eapply lookup_lt_Some).
  pose proof (proj1 Hcg) as [= Hss Hspe].
  rewrite F2. intros [(<- & <- & _)|[Hne Hl]]%list_lookup_insert_Some; unfold ext_ok; simpl.
  - rewrite decide_True by done. destruct Hxg as (G1 & G2 & G3 & G4 & G5 & G6 & G7 & G8).
    rewrite G1, Hxc. exists cls'. rewrite F1, list_lookup_insert_eq by done. split; [done|].
    pose proof (wf_ext _ _ _ Hwf _ _ Hx) as Hok. unfold ext_ok in Hok. rewrite Hxc in Hok.
    destruct Hok as (cl & Hcl & [B1 B2 B3 B4 B5 B6 B7 B8]). simplify_eq.
    simpl in B2, B3. rewrite decide_True in B2, B3 by done.
    split; rewrite ?(sumD_cons _ _ _ _ _ HDi), ?installed_sum, ?installed_free_of, ?Hspe by done.
    + congruence.
    + simpl. rewrite installed_slots by done. rewrite <- B2.
      assert (slot_of (data s') i = sl) as ->.
      { unfold slot_of. rewrite (list_lookup_total_correct _ _ _ HDi). by rewrite Href. }
      solve_Permutation.
    + rewrite G3, B3. simpl. lia.
    + rewrite G4, B4. unfold w_pin at 2. rewrite Hrefs. simpl. lia.
    + lia.
    + lia.
    + rewrite G7, B7. simpl. lia.
    + rewrite G8, B8. unfold w_prot at 2. rewrite Huntil. simpl. lia.
  - rewrite decide_False by done. pose proof (wf_ext _ _ _ Hwf _ _ Hl) as Hok. unfold ext_ok in Hok.
    simpl in Hok. rewrite decide_False in Hok by done.
    destruct (x_cls y) as [c'|]; [|done]. destruct Hok as (cl & Hcl & [B1 B2 B3 B4 B5 B6 B7 B8]).
    simpl in B2, B3. rewrite decide_False in B2, B3 by done.
    assert (Hb' : ext_bound (data s') None (g_ext g e') e' cl y).
    { split; rewrite ?installed_sum, ?installed_slots by done; done. }
    rewrite F1. destruct (decide (c' = c)) as [->|Hnc].
    + exists cls'. rewrite list_lookup_insert_eq by done. split; [done|]. simplify_eq.
      apply (ext_bound_cls _ _ _ _ cls); [|done|done]. by rewrite installed_free_of.
    + exists cl. by rewrite list_lookup_insert_ne.
Qed.

Context (Hrings : rings_ok s' g').
Context (Hix : s_index s' = (ix_insert (m_key m) i (s_index s)).2).
Context (Hused : s_used_bytes s' = s_used_bytes s + c_slot_size cls).
Context (Hrest : (s_opt s', s_unbound s', t_protected_bytes (s_retention s'),
    t_protected_slots (s_retention s')) =
  (s_opt s, s_unbound s, t_protected_bytes (s_retention s), t_protected_slots (s_retention s))).

Lemma installed_find k j :
  ix_find k (s_index s') = Some j ↔ ∃ y, live_at (data s') j y ∧ m_key y = k.
Proof.
  rewrite Hix, ix_find_insert, installed_ex by apply Hwf. rewrite <- (wf_find _ _ _ Hwf).
  case_decide as Hk; [|naive_solver]. subst k. split; [intros [= ->]; by left|].
  intros [[-> _]|Hf]; [done|]. congruence.
Qed.

Lemma installed_all_sum (f : SlotMeta → Z) :
  sumD f (data s') (g_all g') = sumD f (data s) (g_all g) + f m.
Proof.
  destruct (not_linked _ _ _ _ _ _ Hwf Haq) as (Na & _ & _). simpl.
  rewrite (sumD_middle _ _ (g_all g) _ [] m) by done. by rewrite app_nil_r, installed_sum.
Qed.

Lemma wf_installed : wf s' g' None.
Proof.
  pose proof installed_members as Hmem. pose proof installed_cls_ok as Hcls.
  pose proof installed_ext_ok as Hext. pose proof installed_find as Hfind.
  pose proof installed_xcls as Hxcl. pose proof installed_geom as Hgeo.
  pose proof Hrest as [= Ho Hu Hpb Hps].
  pose proof Hwf as [W1 W2 W3 W4 W5 W6 W7 W8 W9 W10 W11 W12 W13 W14 W15 W16].
  assert (Hxe : xcls s !! e = Some (Some c)) by (apply xcls_lookup; by exists x).
  split; rewrite ?Ho, ?Hxcl, ?Hgeo, ?Hu, ?Hpb, ?Hps, ?installed_all_sum; try done.
  - rewrite F2. by rewrite length_insert.
  - rewrite Hix. by apply ix_insert_wf.
  - rewrite Hix, ix_size_insert, W6 by done. simpl. rewrite length_app. simpl. lia.
  - intros j y [[-> ->]|[_ Hl]]%installed_live; [|by apply (W9 j)].
    split; rewrite ?Href, ?Hrefs; simpl; try done; try lia.
    exists (c_slots_per_extent cls). by rewrite list_lookup_fmap, Hc.
  - intros c' cl e'. rewrite F1. intros [(<- & <- & _)|[Hne Hl]]%list_lookup_insert_Some.
    + rewrite installed_free_of. by apply W12.
    + by apply W12.
  - rewrite Hused, W14. unfold w_size at 3. by rewrite Href.
  - rewrite W15. unfold w_prot_bytes at 3. rewrite Huntil. simpl. lia.
  - rewrite W16. unfold w_prot at 3. rewrite Huntil. simpl. lia.
Qed.

End installed.

End install.
