(* ===== verification/SlabWf.v ===== *)
(** * Slab allocator: every operation preserves the invariant *)

From S2P Require Import Prelude KvTypes KeyIndex SlabTypes SlabLattice SlabRing SlabFree SlabOps.
From S2P Require Import SlabInv SlabStruct SlabInstall.

(** Closes the side conditions of an in-place update. *)
Ltac in_place := split; [intros []|intros [] []|intros []|intros []]; reflexivity.

Section ops_wf.
Context {IX : Type} {ixo : KeyIndexOps IX} {ixl : KeyIndexLaws IX}.
Notation St := (SlabAllocator IX).
Implicit Types (s : St) (g : Ghost) (hole : option (nat * nat)).

(** ** In-place updates *)

Lemma w_prot_nonneg m : 0 <= w_prot m.
Proof. unfold w_prot. case_match; lia. Qed.

Lemma sumD_ge f D l i m :
  (∀ j, j ∈ l → 0 <= f (D !!! j)) → NoDup l → i ∈ l → D !! i = Some m → f m <= sumD f D l.
Proof.
  intros Hf Hnd Hin Hi. destruct (NoDup_split l i Hnd Hin) as (l1 & l2 & -> & _ & _).
  rewrite (sumD_middle _ _ _ _ _ m) by done.
  assert (0 <= sumD f D (l1 ++ l2)); [|lia]. apply sumD_nonneg. intros j Hj. apply Hf.
  set_solver.
Qed.

(** Flags, pins and TTLs: no class, extent or budget counts them. *)
Lemma wf_upd_slot s g hole i m f :
  wf s g hole → live_at (data s) i m → in_place f →
  m_refs (f m) = m_refs m → m_retain_until (f m) = m_retain_until m →
  m_access_seq (f m) = m_access_seq m →
  wf (upd_slot i f s) g hole ∧ data (upd_slot i f s) = <[i := f m]> (data s).
Proof.
  intros Hwf Hm Hf H1 H2 H3. pose proof (wf_res _ _ _ Hwf _ _ Hm) as [_ _ _ _ Hr Hu].
  assert (w_prot (f m) = w_prot m) as Hp by (unfold w_prot; by rewrite H2).
  assert (w_pin (f m) = w_pin m) as Hn by (unfold w_pin; by rewrite H1).
  assert (w_prot_bytes (f m) = w_prot_bytes m) as Hb.
  { unfold w_prot_bytes, w_size. rewrite H2. by injection (ip_core _ Hf m) as _ -> _ _. }
  split.
  - apply (wf_reweigh Hwf Hm Hf (fc := λ c, c) (fx := λ x, x)); try done; simpl;
      rewrite ?list_alter_id; rewrite ?H1, ?H2, ?H3, ?Hp, ?Hn, ?Hb; try done; intros; lia.
  - by apply (data_alter s _ _ _ _ (proj1 Hm) Hf).
Qed.

(** ** Protection *)

Lemma unprotect_wf s g hole i m :
  wf s g hole → live_at (data s) i m → m_retain_until m ≠ 0 →
  wf (UnprotectLocked i s) g hole ∧
  data (UnprotectLocked i s) = <[i := set_m_retain_until (λ _, 0) m]> (data s).
Proof.
  intros Hwf Hm Hu.
  assert (Hip : in_place (set_m_retain_until (λ _, 0))) by in_place.
  assert (Hat : m_ref (slot_at s i) = m_ref m) by (by rewrite <- (data_slot_at _ _ _ (proj1 Hm))).
  assert (Hw : w_prot m = 1) by (unfold w_prot; by destruct (Z.eqb_spec (m_retain_until m) 0)).
  assert (Hw' : w_prot (set_m_retain_until (λ _, 0) m) = 0) by done.
  assert (Hwb' : w_prot_bytes (set_m_retain_until (λ _, 0) m) = 0) by done.
  pose proof (wf_res _ _ _ Hwf _ _ Hm) as [_ _ _ _ Hr _].
  destruct (wf_ext_lookup Hwf _ _ Hm) as (x & cls & Hx & _ & _ & Hc & Hb & Hinx).
  pose proof (wf_cls _ _ _ Hwf _ _ Hc) as Hcok. pose proof (wf_all_nodup Hwf) as Hnd.
  pose proof (wf_all_in Hwf _ _ Hm) as Hina.
  assert (Hpos : ∀ l, NoDup l → i ∈ l → 1 <= sumD w_prot (data s) l).
  { intros l Hl Hi. rewrite <- Hw. eapply sumD_ge; [|done|done|apply Hm].
    intros; apply w_prot_nonneg. }
  unfold UnprotectLocked. rewrite Hat. split; [|by apply (data_alter s _ _ _ _ (proj1 Hm) Hip)].
  apply (wf_reweigh Hwf Hm Hip (fc := set_c_protected_slots dec_pos)
    (fx := set_x_protected_slots dec_pos)); try done; rewrite ?Hw, ?Hw', ?Hwb'; simpl.
  - intros cls0 Hc0. simplify_eq. rewrite (co_prot _ _ _ _ _ Hcok). unfold dec_pos.
    pose proof (Hpos _ (wf_cls_nodup Hwf _ _ Hc) (proj2 (wf_in_cls Hwf _ _ _ Hm) eq_refl)).
    destruct (Z.ltb_spec 0 (sumD w_prot (data s) (g_cls g (r_cls (m_ref m))))); lia.
  - intros x0 Hx0. simplify_eq. rewrite (eb_prot _ _ _ _ _ _ Hb). unfold dec_pos.
    pose proof (Hpos _ (wf_ext_nodup Hwf _ _ Hx) Hinx).
    split_and!; [unfold w_pin; simpl; lia|lia|].
    destruct (Z.ltb_spec 0 (sumD w_prot (data s) (g_ext g (r_extent (m_ref m))))); lia.
  - rewrite (wf_prot_bytes _ _ _ Hwf).
    assert (w_prot_bytes m = r_slot_size (m_ref m)) as Hwb.
    { unfold w_prot_bytes. by destruct (Z.eqb_spec (m_retain_until m) 0). }
    assert (w_prot_bytes m <= sumD w_prot_bytes (data s) (g_all g)).
    { eapply sumD_ge; [|done|done|apply Hm]. intros j Hj.
      apply (mb_all _ _ (wf_members _ _ _ Hwf)) in Hj as (mj & Hj).
      rewrite (list_lookup_total_correct _ _ _ (proj1 Hj)).
      unfold w_prot_bytes, w_size. case_match; [lia|].
      pose proof (rs_useful _ _ _ (wf_res _ _ _ Hwf _ _ Hj)). lia. }
    lia.
  - rewrite (wf_prot_slots _ _ _ Hwf). unfold dec_pos. pose proof (Hpos _ Hnd Hina).
    destruct (Z.ltb_spec 0 (sumD w_prot (data s) (g_all g))); lia.
Qed.

(** ** Freeing a slot *)

Lemma free_resident_rest s g hole i m :
  wf s g hole → live_at (data s) i m →
  let s' := free_resident i s in
  data s' = <[i := new_slot_meta]> (data s) ∧ s_index s' = (ix_erase (m_key m) (s_index s)).2 ∧
  s_opt s' = s_opt s ∧ s_cb_log s' = s_cb_log s ∧ xcls s' = xcls s ∧
  ∃ cls cls', s_classes s !! r_cls (m_ref m) = Some cls ∧
    s_classes s' !! r_cls (m_ref m) = Some cls' ∧
    (length (c_ext_rr cls') <= S (length (c_ext_rr cls)))%nat ∧
    r_slot (m_ref m) ∈ free_of cls' (r_extent (m_ref m)).
Proof.
  intros Hwf Hm. destruct (wf_ext_lookup Hwf _ _ Hm) as (x & cls & Hx & _ & Hxc & Hc & Hb & _).
  destruct (remove_ring RClass i (s_slots s) (c_ring_head cls) (c_hand cls)) as [[sl1 h1] n1] eqn:E1.
  destruct (remove_ring RGlobal i sl1 (s_global_ring_head s) (s_global_hand s)) as [[sl2 h2] n2] eqn:E2.
  destruct (unlink RExtent i sl2 (x_resident_head x)) as [sl3 h3] eqn:E3.
  destruct (free_resident_fields i s m cls x _ _ _ _ _ _ _ _
    (data_slot_at _ _ _ (proj1 Hm)) Hc Hx E1 E2 E3) as (F1 & F2 & F3 & F4 & _ & _ & _ & _ & F9).
  set (z := set_m_free_next (λ _, s_free_slot_meta_head s) new_slot_meta) in *.
  destruct (free_rings Hwf Hm cls x _ _ _ _ _ _ _ _ z Hc Hx E1 E2 E3) as (Hd3 & _).
  set (s' := free_resident i s) in *. clearbody s'. injection F9 as F9 _ _ F12 _.
  split_and!; [|done|done|done| |].
  - unfold data. rewrite F1. destruct (sl3 !! i) as [y|] eqn:Hy.
    + by rewrite (fmap_alter_insert _ _ _ _ _ Hy), Hd3.
    + apply (f_equal (lookup i)) in Hd3. rewrite list_lookup_fmap, Hy, (proj1 Hm) in Hd3. done.
  - unfold xcls. rewrite F3, list_fmap_insert. apply list_insert_id.
    by rewrite list_lookup_fmap, Hx.
  - exists cls. eexists. rewrite F2, list_lookup_insert_eq by (by eapply lookup_lt_Some).
    split_and!; [done|done|..]; unfold freed_cls, PushFreeLocked, free_of.
    + repeat case_match; simpl; rewrite ?length_app; simpl; lia.
    + repeat case_match; simpl; rewrite lookup_insert_eq; simpl; set_solver.
Qed.

Lemma return_extent_wf s g c e x :
  wf s g None → s_extents s !! e = Some x → x_cls x = Some c →
  wf (return_extent c e s) g None ∧ data (return_extent c e s) = data s ∧
  s_index (return_extent c e s) = s_index s ∧ s_opt (return_extent c e s) = s_opt s ∧
  s_cb_log (return_extent c e s) = s_cb_log s ∧
  (xcls (return_extent c e s) = xcls s ∨
   xcls (return_extent c e s) = <[e := None]> (xcls s)).
Proof.
  intros Hwf Hx Hxc. unfold return_extent. rewrite (ext_at_eq _ _ _ Hx).
  destruct (Z.eqb_spec (x_free_slots x) (x_total_slots x)) as [Hfull|]; simpl; [|by auto 10].
  destruct (_ <? _)%nat; [|by auto 10]. split_and!; try done.
  2:{ right. unfold xcls. simpl. by rewrite (alter_to_insert _ _ _ _ Hx), list_fmap_insert. }
  apply wf_counters. eapply unbind_wf; try done.
  pose proof (wf_ext _ _ _ Hwf _ _ Hx) as Hok. unfold ext_ok in Hok. rewrite Hxc in Hok.
  destruct Hok as (cls & Hc & [B1 B2 B3 _ _ _ _ _]).
  destruct (wf_class_geom _ _ _ _ _ Hwf Hc) as (_ & Hspe & _).
  apply Permutation_length in B2. rewrite !length_app, length_seq, length_fmap in B2.
  apply length_zero_iff_nil. simpl in B2, B3. lia.
Qed.

Lemma FreeSlot_spec s g i m :
  wf s g None → live_at (data s) i m →
  let s' := FreeSlotLocked i s in
  wf s' (freed_ghost i g) None ∧ data s' = <[i := new_slot_meta]> (data s) ∧
  s_index s' = (ix_erase (m_key m) (s_index s)).2 ∧ s_opt s' = s_opt s ∧
  s_cb_log s' = s_cb_log s ∧
  (xcls s' = xcls s ∨ xcls s' = <[r_extent (m_ref m) := None]> (xcls s)) ∧
  (∀ cls, s_classes s !! r_cls (m_ref m) = Some cls → (length (c_ext_rr cls) < kStripeWays)%nat →
     ∃ cls', s_classes s' !! r_cls (m_ref m) = Some cls' ∧ c_ext_rr cls' ≠ []).
Proof.
  intros Hwf Hm. unfold FreeSlotLocked.
  assert (Hu : m_retain_until (slot_at s i) = m_retain_until m)
    by (by rewrite <- (data_slot_at _ _ _ (proj1 Hm))).
  rewrite Hu. set (s1 := if negb _ then _ else _).
  assert (∃ m1, wf s1 g None ∧ live_at (data s1) i m1 ∧ m_retain_until m1 = 0 ∧
    m_ref m1 = m_ref m ∧ m_key m1 = m_key m ∧
    <[i := new_slot_meta]> (data s1) = <[i := new_slot_meta]> (data s) ∧
    s_index s1 = s_index s ∧ s_opt s1 = s_opt s ∧ s_cb_log s1 = s_cb_log s ∧ xcls s1 = xcls s ∧
    c_ext_rr <$> s_classes s1 = c_ext_rr <$> s_classes s)
    as (m1 & Hwf1 & Hm1 & Hu1 & Hr1 & Hk1 & HD1 & Hi1 & Ho1 & Hl1 & Hx1 & Hrr1).
  { subst s1. destruct (Z.eqb_spec (m_retain_until m) 0) as [H0|H0]; simpl; [by exists m|].
    destruct (unprotect_wf _ _ _ _ _ Hwf Hm H0) as [Hw HD].
    exists (set_m_retain_until (λ _, 0) m). split_and!; try done.
    - split; [|apply Hm]. rewrite HD, list_lookup_insert_eq; [done|].
      by eapply lookup_lt_Some, Hm.
    - by rewrite HD, list_insert_insert_eq.
    - apply fmap_alter_id. by intros.
    - apply fmap_alter_id. by intros. }
  clearbody s1.
  assert (Hsr : m_ref (slot_at s1 i) = m_ref m)
    by (rewrite <- Hr1; by rewrite <- (data_slot_at _ _ _ (proj1 Hm1))).
  rewrite Hsr, <- Hr1.
  pose proof (free_resident_wf Hwf1 Hm1 Hu1) as Hwf2.
  destruct (free_resident_rest _ _ _ _ _ Hwf1 Hm1) as (HD2 & Hi2 & Ho2 & Hl2 & Hx2 & cls & cls' & Hc & Hc' & Hlen & Hfr).
  set (s2 := free_resident i s1) in *. clearbody s2.
  assert (Hfne : free_of cls' (r_extent (m_ref m1)) ≠ []).
  { intros H0. rewrite H0 in Hfr. by apply elem_of_nil in Hfr. }
  pose proof (wf_space _ _ _ Hwf2 _ _ (r_extent (m_ref m1)) Hc' Hfne) as Hsp.
  apply xcls_lookup in Hsp as (x & Hx & Hxc).
  destruct (return_extent_wf _ _ _ _ _ Hwf2 Hx Hxc) as (Hwf3 & HD3 & Hi3 & Ho3 & Hl3 & Hx3).
  split_and!; [done|congruence|congruence|congruence|congruence|rewrite <- Hx1, <- Hx2; done|].
  intros cls0 Hc0 Hlt.
  destruct (fmap_lookup_eq _ _ _ _ _ Hrr1 Hc) as (cls1 & Hc1 & Hrr). simplify_eq.
  exists cls'. split.
  - unfold return_extent. rewrite (cls_at_eq _ _ _ Hc').
    destruct (Nat.ltb_spec kStripeWays (length (c_ext_rr cls'))); [rewrite Hrr in Hlen; lia|].
    by rewrite andb_false_r.
  - intros Hnil. pose proof (co_free _ _ _ _ _ (wf_cls _ _ _ Hwf2 _ _ Hc')) as Hfo.
    assert (r_extent (m_ref m1) ∈ c_ext_rr cls') as Hin by (by apply (fo_rr _ Hfo)).
    rewrite Hnil in Hin. by apply elem_of_nil in Hin.
Qed.

End ops_wf.
