(* ===== verification/SlabEvict.v ===== *)
(** * Slab allocator: what the cache forgets

    The observable state is the view: what the allocator knows of each key.
    Capacity operations (class sweeps, extent steals, watermark sweeps) change
    the view only by forgetting idle residents, report each of them, and only
    after the medium has acknowledged it. *)

From S2P Require Import Prelude KvTypes KeyIndex SlabTypes SlabLattice SlabRing SlabFree SlabOps.
From S2P Require Import SlabInv SlabStruct SlabInstall SlabWf.

(** The CLOCK reference bit is not part of the view. *)
Definition unref (m : SlotMeta) : SlotMeta := set_m_referenced (λ _, false) m.

(** The medium's acknowledgement of the loss of [m] among the callbacks [L]. *)
Definition acked (L : list CbEvent) (m : SlotMeta) : Prop :=
  EvSlotEvict (m_ref m) true ∈ L ∨ EvBind (r_extent (m_ref m)) true ∈ L ∨
  ∃ total resident, EvExtentEvict (r_extent (m_ref m)) total resident true ∈ L.

(** A persistent medium installs both the slot and the extent callbacks. *)
Definition durable (o : Options) : Prop :=
  is_Some (o_on_slot_evict o) ∧ is_Some (o_on_extent_bind o).

Section evict.
Context {IX : Type} {ixo : KeyIndexOps IX} {ixl : KeyIndexLaws IX}.
Notation St := (SlabAllocator IX).
Implicit Types (s : St) (g : Ghost) (k : BlockKey) (ev acc : list BlockKey).

Definition view s k : option SlotMeta :=
  match ix_find k (s_index s) with
  | Some i => Some (unref (strip (slot_at s i)))
  | None => None
  end.

(** [ev] is what [s'] has forgotten of [s]. *)
Record Evicts s ev s' : Prop := {
  ev_view k : view s' k = if decide (k ∈ ev) then None else view s k;
  ev_idle k : k ∈ ev → ∃ m, view s k = Some m ∧ m_refs m = 0 ∧ m_retain_until m = 0;
  ev_nodup : NoDup ev;
  ev_opt : s_opt s' = s_opt s;
  ev_log : ∃ L, s_cb_log s' = s_cb_log s ++ L ∧
    ∀ k m, k ∈ ev → view s k = Some m → durable (s_opt s) → acked L m;
}.

Lemma acked_app_l L L' m : acked L m → acked (L ++ L') m.
Proof. unfold acked. setoid_rewrite elem_of_app. naive_solver. Qed.
Lemma acked_app_r L L' m : acked L' m → acked (L ++ L') m.
Proof. unfold acked. setoid_rewrite elem_of_app. naive_solver. Qed.

Lemma Evicts_refl s : Evicts s [] s.
Proof.
  split; try done; [by intros k ?%elem_of_nil|constructor|].
  exists []. rewrite app_nil_r. split; [done|]. by intros k m ?%elem_of_nil.
Qed.

Lemma Evicts_trans s1 ev1 s2 ev2 s3 :
  Evicts s1 ev1 s2 → Evicts s2 ev2 s3 → Evicts s1 (ev1 ++ ev2) s3.
Proof.
  intros [V1 I1 N1 O1 (L1 & HL1 & A1)] [V2 I2 N2 O2 (L2 & HL2 & A2)].
  assert (Hdis : ∀ k, k ∈ ev2 → k ∉ ev1).
  { intros k (m & Hm & _)%I2 Hk. rewrite V1, decide_True in Hm; done. }
  assert (H21 : ∀ k, k ∈ ev2 → view s2 k = view s1 k).
  { intros k Hk. rewrite V1, decide_False; [done|]. by apply Hdis. }
  split.
  - intros k. rewrite V2, V1. repeat case_decide; set_solver.
  - intros k [Hk|Hk]%elem_of_app; [by apply I1|]. rewrite <- H21 by done. by apply I2.
  - apply NoDup_app. split_and!; [done| |done]. intros k Hk1 Hk2. by apply (Hdis k).
  - congruence.
  - exists (L1 ++ L2). rewrite HL2, HL1, app_assoc. split; [done|].
    intros k m [Hk|Hk]%elem_of_app Hv Hd; [apply acked_app_l|apply acked_app_r].
    + by apply (A1 k).
    + apply (A2 k); [done|by rewrite H21|by rewrite O1].
Qed.

(** ** Views of well-formed states *)

Lemma view_Some s g hole k m :
  wf s g hole → view s k = Some m ↔ ∃ i m', live_at (data s) i m' ∧ m_key m' = k ∧ m = unref m'.
Proof.
  intros Hwf. unfold view. destruct (ix_find k (s_index s)) as [i|] eqn:E.
  - destruct (wf_find_live Hwf _ _ E) as (m' & Hm' & Hk & Hat). rewrite Hat.
    split; [intros [= <-]; by exists i, m'|].
    intros (j & m2 & Hm2 & Hk2 & ->).
    assert (ix_find k (s_index s) = Some j) by (apply (wf_find _ _ _ Hwf); by exists m2).
    destruct Hm', Hm2. by simplify_eq.
  - split; [done|]. intros (i & m' & Hm' & Hk & _).
    assert (ix_find k (s_index s) = Some i) by (apply (wf_find _ _ _ Hwf); by exists m').
    congruence.
Qed.

Lemma view_None s k : view s k = None ↔ ix_find k (s_index s) = None.
Proof. unfold view. by destruct (ix_find k (s_index s)). Qed.

(** States that agree on the index and on the data agree on the view. *)
Lemma view_ext s s' k :
  s_index s' = s_index s → data s' = data s → view s' k = view s k.
Proof.
  intros Hi HD. unfold view. rewrite Hi. destruct (ix_find k (s_index s)) as [i|]; [|done].
  assert (∀ s0 : St, strip (slot_at s0 i) = default new_slot_meta (data s0 !! i)) as Hat.
  { intros s0. unfold slot_at, data. rewrite list_lookup_total_alt, list_lookup_fmap.
    by destruct (s_slots s0 !! i). }
  by rewrite !Hat, HD.
Qed.

Lemma Evicts_same s s' L :
  s_index s' = s_index s → data s' = data s → s_opt s' = s_opt s →
  s_cb_log s' = s_cb_log s ++ L → Evicts s [] s'.
Proof.
  intros Hi HD Ho HL. split; [|by intros k ?%elem_of_nil|constructor|done|].
  - intros k. by apply view_ext.
  - exists L. split; [done|]. by intros k m ?%elem_of_nil.
Qed.

Lemma Evicts_count s f : Evicts s [] (set_s_counters f s).
Proof. apply (Evicts_same _ _ []); try done. simpl. by rewrite app_nil_r. Qed.

(** Clearing or setting the reference bit of a resident is invisible. *)
Lemma view_upd_slot s g hole i m f k :
  wf s g hole → live_at (data s) i m → in_place f →
  view (upd_slot i f s) k = if decide (k = m_key m) then Some (unref (f m)) else view s k.
Proof.
  intros Hwf Hm Hf. pose proof (data_alter s (upd_slot i f s) _ _ _ (proj1 Hm) Hf eq_refl) as HD.
  unfold view. simpl. case_decide as Hk.
  - subst k. rewrite (proj2 (wf_find _ _ _ Hwf (m_key m) i)) by (by exists m).
    f_equal. f_equal. apply data_slot_at. rewrite HD, list_lookup_insert_eq; [done|].
    by eapply lookup_lt_Some, Hm.
  - destruct (ix_find k (s_index s)) as [j|] eqn:Ej; [|done].
    destruct (wf_find_live Hwf _ _ Ej) as (m2 & Hm2 & Hk2 & Hat). f_equal. f_equal.
    rewrite Hat. apply data_slot_at. rewrite HD, list_lookup_insert_ne; [apply Hm2|].
    intros ->. destruct Hm, Hm2. by simplify_eq.
Qed.

(** [FreeSlotLocked] forgets the key. *)
Lemma view_free s g i m k :
  wf s g None → live_at (data s) i m →
  view (FreeSlotLocked i s) k = if decide (k = m_key m) then None else view s k.
Proof.
  intros Hwf Hm. destruct (FreeSlot_spec _ _ _ _ Hwf Hm) as (_ & HD & Hi & _).
  unfold view. rewrite Hi, ix_find_erase by apply Hwf. case_decide as Hk; subst.
  - by rewrite decide_True.
  - rewrite decide_False by done. destruct (ix_find k (s_index s)) as [j|] eqn:Ej; [|done].
    destruct (wf_find_live Hwf _ _ Ej) as (m2 & Hm2 & Hk2 & Hat). f_equal. f_equal.
    rewrite Hat. apply data_slot_at. rewrite HD, list_lookup_insert_ne; [apply Hm2|].
    intros ->. destruct Hm, Hm2. by simplify_eq.
Qed.

(** ** Evicting one resident *)

(** Neither pinned nor protected. *)
Definition idle (m : SlotMeta) : Prop := m_refs m = 0 ∧ m_retain_until m = 0.

(** The class keeps a free slot, so that a placement can proceed. *)
Definition makes_room c s s' : Prop :=
  ∀ cls, s_classes s !! c = Some cls → (length (c_ext_rr cls) < kStripeWays)%nat →
    ∃ cls', s_classes s' !! c = Some cls' ∧ c_ext_rr cls' ≠ [].

Lemma call_slot_evict_spec ref s ok s1 :
  call_slot_evict ref s = (ok, s1) →
  (ok = true ∧ s1 = s ∧ o_on_slot_evict (s_opt s) = None) ∨
  s1 = set_s_cb_log (λ l, l ++ [EvSlotEvict ref ok]) s.
Proof.
  unfold call_slot_evict. destruct (o_on_slot_evict (s_opt s)); intros [= <- <-]; auto.
Qed.

Lemma Evicts_one s g s1 i m L :
  wf s g None → live_at (data s) i m → idle m →
  wf s1 g None → data s1 = data s → s_index s1 = s_index s → s_opt s1 = s_opt s →
  s_cb_log s1 = s_cb_log s ++ L → (durable (s_opt s) → acked L m) →
  Evicts s [m_key m] (FreeSlotLocked i s1).
Proof.
  intros Hwf Hm [Hr Hu] Hwf1 HD Hi Ho HL Hack.
  assert (Hm1 : live_at (data s1) i m) by (by rewrite HD).
  destruct (FreeSlot_spec _ _ _ _ Hwf1 Hm1) as (_ & _ & _ & Ho2 & Hl2 & _ & _).
  assert (Hv : view s (m_key m) = Some (unref m)).
  { apply (view_Some _ _ _ _ _ Hwf). by exists i, m. }
  split.
  - intros k. rewrite (view_free _ _ _ _ _ Hwf1 Hm1), (view_ext _ _ _ Hi HD).
    destruct (decide (k = m_key m)) as [->|Hne].
    + by rewrite decide_True by (by apply list_elem_of_singleton).
    + by rewrite decide_False by (by rewrite list_elem_of_singleton).
  - intros k ->%list_elem_of_singleton. by exists (unref m).
  - apply NoDup_singleton.
  - congruence.
  - exists L. split; [congruence|]. intros k m' ->%list_elem_of_singleton Hv' Hd.
    rewrite Hv in Hv'. injection Hv' as <-. by apply Hack.
Qed.

Lemma count_evicted s g k c s' :
  wf s' g None → Evicts s [k] s' → makes_room c s s' →
  wf (count_eviction s') g None ∧ Evicts s [k] (count_eviction s') ∧
  makes_room c s (count_eviction s').
Proof.
  intros Hwf Hev Hroom. split_and!; [by apply wf_counters| |done].
  apply (Evicts_trans _ [k] s' []); [done|apply Evicts_count].
Qed.

Lemma evict_victim_spec i s g m acc ok s' acc' :
  wf s g None → live_at (data s) i m → idle m →
  evict_victim i s acc = (ok, s', acc') →
  if ok then
    acc' = acc ++ [m_key m] ∧ wf s' (freed_ghost i g) None ∧ Evicts s [m_key m] s' ∧
    makes_room (r_cls (m_ref m)) s s'
  else acc' = acc ∧ wf s' g None ∧ Evicts s [] s' ∧
    s_cb_log s' = s_cb_log s ++ [EvSlotEvict (m_ref m) false].
Proof.
  intros Hwf Hm Hid. pose proof (data_slot_at _ _ _ (proj1 Hm)) as Hat. unfold evict_victim.
  assert (m_ref (slot_at s i) = m_ref m) as -> by (by rewrite <- Hat).
  assert (m_key (slot_at s i) = m_key m) as -> by (by rewrite <- Hat).
  destruct (call_slot_evict (m_ref m) s) as [okc s1] eqn:Ec.
  assert (Hs1 : wf s1 g None ∧ data s1 = data s ∧ s_index s1 = s_index s ∧ s_opt s1 = s_opt s ∧
    s_classes s1 = s_classes s ∧
    ∃ L, s_cb_log s1 = s_cb_log s ++ L ∧ (okc = false → L = [EvSlotEvict (m_ref m) false]) ∧
      (okc = true → durable (s_opt s) → acked L m)).
  { apply call_slot_evict_spec in Ec as [(-> & -> & Hno)| ->].
    - split_and!; try done. exists []. rewrite app_nil_r. split_and!; [done|done|].
      intros _ [[f Hf] _]. congruence.
    - split_and!; try done; [by apply wf_cb_log|]. eexists. split_and!; [done|by intros ->|].
      intros -> _. left. by apply list_elem_of_singleton. }
  destruct Hs1 as (Hwf1 & HD1 & Hi1 & Ho1 & Hc1 & L & HL & Hno & Hack).
  destruct okc; cbn [negb]; intros E; injection E as <- <- <-.
  - assert (Hm1 : live_at (data s1) i m) by (by rewrite HD1).
    destruct (FreeSlot_spec _ _ _ _ Hwf1 Hm1) as (Hwf2 & _ & _ & _ & _ & _ & Hroom).
    pose proof (Evicts_one s g s1 i m L Hwf Hm Hid Hwf1 HD1 Hi1 Ho1 HL (Hack eq_refl)) as Hev.
    assert (Hroom' : makes_room (r_cls (m_ref m)) s (FreeSlotLocked i s1)).
    { intros cls Hc Hlt. apply Hroom with cls; [|done]. by rewrite Hc1. }
    split; [done|]. exact (count_evicted _ _ _ _ _ Hwf2 Hev Hroom').
  - split_and!; [done|done|by eapply Evicts_same|]. rewrite HL. by rewrite Hno.
Qed.

(** ** The CLOCK sweep of a class *)

(** The hand of class [c] moves past [i]. *)
Definition rotated (c : nat) (l : list nat) (g : Ghost) : Ghost :=
  mkGhost (g_all g) (λ c', if decide (c' = c) then l else g_cls g c') (g_ext g) (g_free g).

Lemma advance_hand_wf s g hole c cls i b :
  wf s g hole → s_classes s !! c = Some cls → g_cls g c = i :: b →
  let next := ring_next (l_next (m_class (slot_at s i))) (c_ring_head cls) in
  wf (upd_class c (λ cls, set_c_hand (λ _, ring_next (l_next (m_class (slot_at s i)))
        (c_ring_head cls)) cls) s) (rotated c (b ++ [i]) g) hole.
Proof.
  intros Hwf Hc Hl. destruct (wf_rings _ _ _ Hwf) as [R1 R2 R3 R4 R5].
  pose proof (R2 _ _ Hc) as Rc. pose proof (ring_hand _ _ _ _ Rc) as Hh.
  rewrite Hl in Rc, Hh. simpl in Hh. rewrite Hh in Rc. apply ring_advance in Rc.
  apply (wf_relink s _ g); try done; simpl.
  - apply fmap_alter_id. by intros.
  - intros c'. case_decide as Hcc; [subst c'|done].
    rewrite Hl. symmetry. apply Permutation_cons_append.
  - split; simpl; try done. intros c' cl [(-> & cl0 & Hl0 & ->)|(Hne & Hl0)]%alter_Some.
    + rewrite decide_True by done. simplify_eq. done.
    + rewrite decide_False by done. by apply R2.
Qed.

(** What a sweep may report. *)
Definition sweep_result (c : nat) s acc (ok : bool) s' acc' : Prop :=
  WF s' ∧
  if ok then ∃ i m, live_at (data s) i m ∧ r_cls (m_ref m) = c ∧ acc' = acc ++ [m_key m] ∧
    Evicts s [m_key m] s' ∧ makes_room c s s'
  else acc' = acc ∧ Evicts s [] s' ∧
    ((∃ ref, s_cb_log s' = s_cb_log s ++ [EvSlotEvict ref false]) ∨
     ∀ i m, live_at (data s) i m → r_cls (m_ref m) = c → ¬ idle m).

(** A state that differs in reference bits and skip counters only. *)
Record sweep_step s s1 (c : nat) : Prop := {
  ss_evicts : Evicts s [] s1;
  ss_log : s_cb_log s1 = s_cb_log s;
  ss_rr : c_ext_rr <$> s_classes s1 = c_ext_rr <$> s_classes s;
  ss_live i m1 : live_at (data s1) i m1 →
    ∃ m, live_at (data s) i m ∧ unref m = unref m1;
  ss_live' i m : live_at (data s) i m → ∃ m1, live_at (data s1) i m1 ∧ unref m = unref m1;
}.

Lemma unref_eq m m1 :
  unref m = unref m1 →
  m_key m = m_key m1 ∧ m_ref m = m_ref m1 ∧ (idle m ↔ idle m1).
Proof. unfold idle. destruct m, m1. intros [=]. simpl in *. by subst. Qed.

Lemma sweep_result_step s s1 c acc ok s' acc' :
  sweep_step s s1 c → sweep_result c s1 acc ok s' acc' → sweep_result c s acc ok s' acc'.
Proof.
  intros [He Hl Hrr H1 H2] [Hwf Hr]. split; [done|]. destruct ok.
  - destruct Hr as (i & m1 & Hm1 & Hc & -> & Hev & Hroom).
    destruct (H1 _ _ Hm1) as (m & Hm & (Hk & Href & _)%unref_eq).
    exists i, m. rewrite Hk, Href. split_and!; [done|done|done| |].
    + by apply (Evicts_trans _ [] s1 [_]).
    + intros cls Hcl Hlt. symmetry in Hrr.
      destruct (fmap_lookup_eq _ _ _ _ _ Hrr Hcl) as (cls1 & Hcl1 & Heq).
      apply (Hroom cls1 Hcl1). by rewrite <- Heq.
  - destruct Hr as (-> & Hev & Hno). split_and!; [done|by apply (Evicts_trans _ [] s1 [])|].
    rewrite <- Hl. destruct Hno as [?|Hno]; [by left|right]. intros i m Hm Hc Hid.
    destruct (H2 _ _ Hm) as (m1 & Hm1 & (_ & Href & Hi)%unref_eq).
    apply (Hno i m1); [done|congruence|tauto].
Qed.

Lemma victim_result c i s g m acc ok s' acc' :
  wf s g None → live_at (data s) i m → r_cls (m_ref m) = c → idle m →
  evict_victim i s acc = (ok, s', acc') → sweep_result c s acc ok s' acc'.
Proof.
  intros Hwf Hm Hc Hid E. pose proof (evict_victim_spec _ _ _ _ _ _ _ _ Hwf Hm Hid E) as Hr.
  destruct ok.
  - destruct Hr as (-> & Hwf' & Hev & Hroom). split; [by eexists|]. exists i, m. by subst c.
  - destruct Hr as (-> & Hwf' & Hev & Hlog). split; [by eexists|]. split_and!; [done|done|].
    left. by eexists.
Qed.

Lemma fallback_result c fb s g acc ok s' acc' :
  wf s g None →
  match fb with
  | Some f => ∃ m, live_at (data s) f m ∧ r_cls (m_ref m) = c ∧ idle m
  | None => ∀ j m, live_at (data s) j m → r_cls (m_ref m) = c → ¬ idle m
  end →
  evict_fallback fb s acc = (ok, s', acc') → sweep_result c s acc ok s' acc'.
Proof.
  intros Hwf Hfb. destruct fb as [f|]; simpl.
  - destruct Hfb as (m & Hm & Hc & Hid).
    assert (m_live (slot_at s f) = true) as ->.
    { destruct Hm as [Hm Hl]. by rewrite <- (data_slot_at _ _ _ Hm) in Hl. }
    by eapply victim_result.
  - intros [= <- <- <-]. split; [by eexists|]. split_and!; [done|apply Evicts_refl|by right].
Qed.

Lemma sweep_step_same s s1 c :
  s_index s1 = s_index s → data s1 = data s → s_opt s1 = s_opt s → s_cb_log s1 = s_cb_log s →
  c_ext_rr <$> s_classes s1 = c_ext_rr <$> s_classes s → sweep_step s s1 c.
Proof.
  intros Hi HD Ho Hl Hrr. split; [|done|done| |].
  - apply (Evicts_same _ _ []); [done|done|done|]. by rewrite app_nil_r.
  - intros i m. rewrite HD. by exists m.
  - intros i m. rewrite HD. by exists m.
Qed.

Lemma sweep_step_unref s g i m c :
  wf s g None → live_at (data s) i m →
  let s1 := upd_slot i (set_m_referenced (λ _, false)) s in
  wf s1 g None ∧ sweep_step s s1 c.
Proof.
  intros Hwf Hm s1. assert (Hip : in_place (set_m_referenced (λ _, false))) by in_place.
  destruct (wf_upd_slot _ _ _ _ _ _ Hwf Hm Hip eq_refl eq_refl eq_refl) as [Hwf1 HD].
  split; [done|]. pose proof Hm as [Hi Hl].
  assert (Hlt : (i < length (data s))%nat) by (by eapply lookup_lt_Some).
  assert (Hv : view s (m_key m) = Some (unref m)).
  { apply (view_Some _ _ _ _ _ Hwf). by exists i, m. }
  split; try done.
  - split; try done; [|by intros k ?%elem_of_nil|constructor|].
    + intros k. rewrite (view_upd_slot _ _ _ _ _ _ _ Hwf Hm Hip).
      destruct (decide (k = m_key m)) as [Hk|]; [|done]. subst k. rewrite Hv. by destruct m.
    + exists []. rewrite app_nil_r. split; [done|]. by intros k m' ?%elem_of_nil.
  - intros j m1 Hm1. unfold live_at in Hm1. unfold s1 in Hm1. rewrite HD in Hm1.
    destruct Hm1 as [[(<- & <- & _)|[Hne Hj]]%list_lookup_insert_Some Hl1]; [|by exists m1].
    exists m. split; [done|]. by destruct m.
  - intros j m0 Hm0. unfold live_at. unfold s1. rewrite HD. destruct (decide (j = i)) as [->|Hne].
    + rewrite list_lookup_insert_eq by done. eexists. split; [split; [done|]|];
        destruct Hm0; simplify_eq; [done|]. by destruct m.
    + rewrite list_lookup_insert_ne by done. by exists m0.
Qed.

Lemma evict_sweep_spec steps c : ∀ fb s g acc todo visited ok s' acc',
  wf s g None → (c < length (s_classes s))%nat → g_cls g c = todo ++ visited →
  (length todo <= steps)%nat →
  match fb with
  | Some f => ∃ m, live_at (data s) f m ∧ r_cls (m_ref m) = c ∧ idle m
  | None => ∀ j m, j ∈ visited → live_at (data s) j m → ¬ idle m
  end →
  evict_sweep steps c fb s acc = (ok, s', acc') → sweep_result c s acc ok s' acc'.
Proof.
  induction steps as [|steps IH]; intros fb s g acc todo visited ok s' acc' Hwf Hc Hl Hlen Hfb; simpl.
  { intros E. eapply fallback_result; [done| |done]. destruct fb; [done|].
    destruct todo; simpl in *; [|lia]. intros j m Hm Hcj. apply (Hfb j); [|done]. rewrite <- Hl.
    by apply (wf_in_cls Hwf _ _ _ Hm). }
  destruct (lookup_lt_is_Some_2 _ _ Hc) as [cls Hcls]. rewrite (cls_at_eq _ _ _ Hcls).
  pose proof (wf_cls _ _ _ Hwf _ _ Hcls) as Hcok. rewrite (co_resident _ _ _ _ _ Hcok).
  pose proof (ring_hand _ _ _ _ (rk_cls _ _ (wf_rings _ _ _ Hwf) _ _ Hcls)) as Hh. rewrite Hh.
  destruct (g_cls g c) as [|i b] eqn:Eg; simpl.
  { intros E. eapply fallback_result; [done| |done]. destruct fb; [done|].
    intros j m Hm Hcj. symmetry in Hcj. apply (wf_in_cls Hwf _ _ _ Hm) in Hcj.
    rewrite Eg in Hcj. by apply elem_of_nil in Hcj. }
  destruct (Z.eqb_spec (Z.of_nat (S (length b))) 0) as [?|_]; [lia|].
  rewrite (cls_at_eq _ _ _ Hcls), Hh. cbn [head].
  destruct (proj1 (mb_cls _ _ (wf_members _ _ _ Hwf) c i)) as (m & Hm & Hmc).
  { rewrite Eg. by left. }
  pose proof (data_slot_at _ _ _ (proj1 Hm)) as Hat.
  assert (m_refs (slot_at s i) = m_refs m) as -> by (by rewrite <- Hat).
  assert (m_retain_until (slot_at s i) = m_retain_until m) as -> by (by rewrite <- Hat).
  assert (m_referenced (slot_at s i) = m_referenced m) as -> by (by rewrite <- Hat).
  pose proof (advance_hand_wf _ _ _ _ _ _ _ Hwf Hcls Eg) as Hwf1. simpl in Hwf1.
  set (s1 := upd_class c _ s) in *.
  assert (Hst : sweep_step s s1 c).
  { apply sweep_step_same; try done. apply fmap_alter_id. by intros. }
  assert (Hc1 : (c < length (s_classes s1))%nat) by (simpl; by rewrite length_alter).
  assert (HD1 : data s1 = data s) by done.
  clearbody s1. set (g1 := rotated c (b ++ [i]) g) in *.
  assert (Hg1 : g_cls g1 c = b ++ [i]) by (simpl; by rewrite decide_True).
  clearbody g1. rewrite <- HD1 in Hm, Hfb.
  (* the rest of the round, once [i] is known not to be evicted now *)
  assert (Hnext : ∀ fb' s2, wf s2 g1 None → sweep_step s1 s2 c → (c < length (s_classes s2))%nat →
    (match fb' with
     | Some f => ∃ m, live_at (data s1) f m ∧ r_cls (m_ref m) = c ∧ idle m
     | None => fb = None ∧ ¬ idle m end) →
    evict_sweep steps c fb' s2 acc = (ok, s', acc') → sweep_result c s acc ok s' acc').
  { intros fb' s2 Hwf2 Hst2 Hc2 Hfb' E. eapply sweep_result_step; [done|].
    eapply sweep_result_step; [done|].
    eapply (IH fb' s2 g1 acc (match todo with [] => [] | _ :: t => t end)
      (match todo with [] => b ++ [i] | _ :: _ => visited ++ [i] end)); [done|done| | | |done].
    - rewrite Hg1. destruct todo; simplify_eq/=; [done|]. by rewrite app_assoc.
    - destruct todo; simpl in *; lia.
    - destruct fb' as [f|].
      + destruct Hfb' as (mf & Hmf & Hcf & Hidf).
        destruct (ss_live' _ _ _ Hst2 _ _ Hmf) as (mf1 & Hmf1 & (_ & Hrf & Hif)%unref_eq).
        exists mf1. split_and!; [done|congruence|tauto].
      + destruct Hfb' as [-> Hni]. intros j mj Hj Hmj Hidj.
        destruct (ss_live _ _ _ Hst2 _ _ Hmj) as (mj1 & Hmj1 & (_ & _ & Hij)%unref_eq).
        destruct (decide (j = i)) as [->|Hne].
        * destruct Hmj1, Hm. simplify_eq. tauto.
        * apply (Hfb j mj1); [|done|tauto]. destruct todo; simplify_eq/=; set_solver. }
  assert (Hst0 : sweep_step s1 s1 c) by (by apply sweep_step_same).
  pose proof (wf_res _ _ _ Hwf1 _ _ Hm) as [_ _ _ _ [Hrefs _] _].
  destruct (Z.ltb_spec 0 (m_refs m)) as [Hpin|Hpin].
  { apply Hnext; [done|done|done|]. destruct fb; [done|]. split; [done|]. intros [? _]. lia. }
  destruct (Z.eqb_spec (m_retain_until m) 0) as [Hu|Hu]; simpl.
  2:{ apply Hnext; [by apply (wf_same s1)|by apply sweep_step_same|done|].
      destruct fb; [done|]. split; [done|]. by intros [_ ?]. }
  assert (Hid : idle m) by (split; [lia|done]).
  destruct (m_referenced m).
  - destruct (sweep_step_unref s1 g1 i m c Hwf1 Hm) as [Hwf2 Hst2].
    apply Hnext; [done|done|done|]. destruct fb; simpl; [done|]. by exists m.
  - intros E. eapply sweep_result_step; [done|]. by eapply victim_result.
Qed.

(** [EvictOneFrom] forgets one idle resident of the class whenever there is one,
    unless the medium refuses. *)
Lemma EvictOneFrom_spec c s acc ok s' acc' :
  WF s → (c < length (s_classes s))%nat →
  EvictOneFrom c s acc = (ok, s', acc') → sweep_result c s acc ok s' acc'.
Proof.
  intros [g Hwf] Hc. destruct (lookup_lt_is_Some_2 _ _ Hc) as [cls Hcls].
  unfold EvictOneFrom. rewrite (cls_at_eq _ _ _ Hcls).
  rewrite (co_resident _ _ _ _ _ (wf_cls _ _ _ Hwf _ _ Hcls)).
  destruct (Z.eqb_spec (Z.of_nat (length (g_cls g c))) 0) as [H0|_].
  - intros [= <- <- <-]. split; [by eexists|]. split_and!; [done|apply Evicts_refl|right].
    intros j m Hm Hcj. symmetry in Hcj. apply (wf_in_cls Hwf _ _ _ Hm) in Hcj.
    destruct (g_cls g c); [by apply elem_of_nil in Hcj|simpl in H0; lia].
  - eapply (evict_sweep_spec _ _ None _ _ _ (g_cls g c) []); [done|done|by rewrite app_nil_r|lia|].
    by intros j m ?%elem_of_nil.
Qed.

End evict.
