(* ===== verification/SlabSteal.v ===== *)
(** * Slab allocator: stealing extents and placing a Put

    Whole-extent steals wipe an extent of idle residents and rebind it; the
    placement loop of [Put] combines them with binding, free lists and the
    class sweep, and always returns. *)

From S2P Require Import Prelude KvTypes KeyIndex SlabTypes SlabLattice SlabRing SlabFree SlabOps.
From S2P Require Import SlabInv SlabStruct SlabInstall SlabWf SlabEvict.

Lemma NoDup_bounded_length (l : list nat) (n : nat) :
  NoDup l → (∀ i, i ∈ l → (i < n)%nat) → (length l <= n)%nat.
Proof.
  intros Hnd Hb. rewrite <- (length_seq n 0). apply submseteq_length, NoDup_submseteq; [done|].
  intros i Hi. apply elem_of_seq. specialize (Hb i Hi). lia.
Qed.

Section steal.
Context {IX : Type} {ixo : KeyIndexOps IX} {ixl : KeyIndexLaws IX}.
Notation St := (SlabAllocator IX).
Implicit Types (s : St) (g : Ghost) (k : BlockKey) (ev acc : list BlockKey).

(** ** Draining an extent *)

(** [ev] are the residents of [e], all idle, and [s'] has forgotten them. *)
Record Drained s (e : nat) ev s' : Prop := {
  dr_view k : view s' k = if decide (k ∈ ev) then None else view s k;
  dr_idle k : k ∈ ev → ∃ m, view s k = Some m ∧ idle m ∧ r_extent (m_ref m) = e;
  dr_nodup : NoDup ev;
  dr_opt : s_opt s' = s_opt s;
  dr_log : s_cb_log s' = s_cb_log s;
  dr_xcls : xcls s' !! e = xcls s !! e ∨ xcls s' !! e = Some None;
}.

Lemma Drained_refl s e : Drained s e [] s.
Proof. split; try done; [by intros k ?%elem_of_nil|constructor|by left]. Qed.

Lemma Drained_cons s e k s1 ev s' :
  Drained s e [k] s1 → Drained s1 e ev s' → Drained s e (k :: ev) s'.
Proof.
  intros [V1 I1 N1 O1 L1 X1] [V2 I2 N2 O2 L2 X2].
  assert (Hk : k ∉ ev).
  { intros (m & Hm & _)%I2. rewrite V1, decide_True in Hm; [done|].
    by apply list_elem_of_singleton. }
  assert (Hv : ∀ k', k' ≠ k → view s1 k' = view s k').
  { intros k' Hne. rewrite V1, decide_False; [done|]. by rewrite list_elem_of_singleton. }
  split; [| | |congruence|congruence|destruct X1, X2; first [left; congruence|right; congruence]].
  - intros k'. rewrite V2. destruct (decide (k' = k)) as [->|Hne].
    + rewrite decide_False, V1, !decide_True by (done || by left). done.
    + rewrite Hv by done. destruct (decide (k' ∈ ev)).
      * by rewrite decide_True by (by right).
      * by rewrite decide_False by (by rewrite elem_of_cons; naive_solver).
  - intros k' [->|Hin]%elem_of_cons; [apply I1; by apply list_elem_of_singleton|].
    rewrite <- Hv; [by apply I2|]. by intros ->.
  - by apply NoDup_cons.
Qed.

Lemma Drained_one s g i m :
  wf s g None → live_at (data s) i m → idle m →
  Drained s (r_extent (m_ref m)) [m_key m] (count_eviction (FreeSlotLocked i s)).
Proof.
  intros Hwf Hm Hid. destruct (FreeSlot_spec _ _ _ _ Hwf Hm) as (_ & _ & _ & Ho & Hl & Hx & _).
  pose proof (λ k, view_free _ _ _ _ k Hwf Hm) as Hv.
  generalize dependent (FreeSlotLocked i s). intros s' Ho Hl Hx Hv.
  split; [| |apply NoDup_singleton|done|done|].
  - intros k. change (view (count_eviction s') k) with (view s' k). rewrite Hv.
    destruct (decide (k = m_key m)) as [->|Hne].
    + by rewrite decide_True by (by apply list_elem_of_singleton).
    + by rewrite decide_False by (by rewrite list_elem_of_singleton).
  - intros k ->%list_elem_of_singleton. exists (unref m). split_and!; [|done|done].
    apply (view_Some _ _ _ _ _ Hwf). by exists i, m.
  - change (xcls (count_eviction s')) with (xcls s'). destruct Hx as [->| ->]; [by left|right].
    rewrite list_lookup_insert_eq; [done|]. destruct (wf_ext_lookup Hwf _ _ Hm) as (x & _ & Hx & _).
    unfold xcls. rewrite length_fmap. by eapply lookup_lt_Some.
Qed.

Lemma drain_extent_unfold fuel e s acc :
  drain_extent fuel e s acc =
  match x_resident_head (ext_at s e), fuel with
  | None, _ => Some (s, acc)
  | Some i, O => None
  | Some i, S fuel =>
      drain_extent fuel e (count_eviction (FreeSlotLocked i s)) (acc ++ [m_key (slot_at s i)])
  end.
Proof. destruct fuel; simpl; by destruct (x_resident_head (ext_at s e)). Qed.

Lemma drain_step s g i m e l :
  wf s g None → live_at (data s) i m → idle m → r_extent (m_ref m) = e → g_ext g e = i :: l →
  ∃ s1 g1, count_eviction (FreeSlotLocked i s) = s1 ∧ wf s1 g1 None ∧ g_ext g1 e = l ∧
    Drained s e [m_key m] s1 ∧ ∀ j mj, j ∈ l → live_at (data s1) j mj → live_at (data s) j mj.
Proof.
  intros Hwf Hm Hid <- El. pose proof (Drained_one _ _ _ _ Hwf Hm Hid) as Hd1.
  destruct (FreeSlot_spec _ _ _ _ Hwf Hm) as (Hwf1 & HD1 & _).
  assert (Hnd : NoDup (i :: l)).
  { rewrite <- El. destruct (wf_ext_lookup Hwf _ _ Hm) as (x & _ & Hx & _). by eapply wf_ext_nodup. }
  generalize dependent (FreeSlotLocked i s). intros s1 Hd1 Hwf1 HD1.
  exists (count_eviction s1), (freed_ghost i g). split_and!; [done|by apply wf_counters| |done|].
  - simpl. rewrite El. by apply (del_middle i [] l).
  - intros j mj Hj [Hmj Hlj]. split; [|done]. change (data s1 !! j = Some mj) in Hmj.
    rewrite HD1, list_lookup_insert_ne in Hmj; [done|]. intros ->.
    by apply NoDup_cons in Hnd as [? _].
Qed.

Lemma drain_extent_spec fuel e : ∀ s g x acc,
  wf s g None → s_extents s !! e = Some x → (length (g_ext g e) <= fuel)%nat →
  (∀ j m, j ∈ g_ext g e → live_at (data s) j m → idle m) →
  ∃ s' g' ev, drain_extent fuel e s acc = Some (s', acc ++ ev) ∧ wf s' g' None ∧
    g_ext g' e = [] ∧ Drained s e ev s'.
Proof.
  induction fuel as [|fuel IH]; intros s g x acc Hwf Hx Hlen Hidle;
    pose proof (dll_head _ _ _ (rk_ext _ _ (wf_rings _ _ _ Hwf) _ _ Hx)) as Hh;
    rewrite drain_extent_unfold, (ext_at_eq _ _ _ Hx), Hh;
    destruct (g_ext g e) as [|i l] eqn:El; cbn [head length] in *.
  - exists s, g, []. rewrite app_nil_r. split_and!; [done|done|done|apply Drained_refl].
  - lia.
  - exists s, g, []. rewrite app_nil_r. split_and!; [done|done|done|apply Drained_refl].
  - destruct (proj1 (mb_ext _ _ (wf_members _ _ _ Hwf) e i)) as (m & Hm & He).
    { rewrite El. by left. }
    assert (Hid : idle m) by (apply (Hidle i); [by left|done]).
    assert (m_key (slot_at s i) = m_key m) as ->.
    { by rewrite <- (data_slot_at _ _ _ (proj1 Hm)). }
    destruct (drain_step _ _ _ _ _ _ Hwf Hm Hid He El)
      as (s1 & g1 & -> & Hwf1 & Hg & Hd1 & Hlive).
    assert (Hlt : (e < length (s_extents s1))%nat).
    { rewrite (wf_extents _ _ _ Hwf1), (dr_opt _ _ _ _ Hd1), <- (wf_extents _ _ _ Hwf).
      by eapply lookup_lt_Some. }
    destruct (lookup_lt_is_Some_2 _ _ Hlt) as [x1 Hx1].
    destruct (IH s1 _ x1 (acc ++ [m_key m]) Hwf1 Hx1) as (s' & g' & ev & E & Hwf' & Hnil & Hd').
    { rewrite Hg. lia. }
    { intros j mj Hj Hmj. rewrite Hg in Hj. apply (Hidle j mj); [by right|]. by apply Hlive. }
    exists s', g', (m_key m :: ev). rewrite E, <- app_assoc. split_and!; [done|done|done|].
    by eapply Drained_cons.
Qed.

(** ** Stealing *)

Lemma sum_zero_all (f : SlotMeta → Z) D l :
  (∀ m, 0 <= f m) → sumD f D l = 0 → ∀ j, j ∈ l → f (D !!! j) = 0.
Proof.
  intros Hf H0 j (l1 & l2 & ->)%list_elem_of_split. revert H0. rewrite sumD_app.
  change (j :: l2) with ([j] ++ l2). rewrite sumD_app. unfold sumD at 2. simpl.
  assert (0 <= sumD f D l1) by (by apply sumD_nonneg).
  assert (0 <= sumD f D l2) by (by apply sumD_nonneg). specialize (Hf (D !!! j)). lia.
Qed.

(** An extent with no pin and no protection holds idle residents only. *)
Lemma extent_idle s g e x c :
  wf s g None → s_extents s !! e = Some x → x_cls x = Some c →
  x_pinned x = 0 → x_protected_slots x = 0 →
  ∀ j m, j ∈ g_ext g e → live_at (data s) j m → idle m.
Proof.
  intros Hwf Hx Hxc Hp Hq j m Hj Hm.
  pose proof (wf_ext _ _ _ Hwf _ _ Hx) as Hok. unfold ext_ok in Hok. rewrite Hxc in Hok.
  destruct Hok as (cls & _ & Hb).
  rewrite (eb_pinned _ _ _ _ _ _ Hb) in Hp. rewrite (eb_prot _ _ _ _ _ _ Hb) in Hq.
  pose proof (list_lookup_total_correct _ _ _ (proj1 Hm)) as Hjm.
  pose proof (wf_res _ _ _ Hwf _ _ Hm) as [_ _ _ _ [Hrefs _] Hu].
  assert (w_pin m = 0).
  { rewrite <- Hjm. apply (sum_zero_all w_pin (data s) (g_ext g e)); [|done|done].
    intros m'. unfold w_pin. case_match; lia. }
  assert (w_prot m = 0).
  { rewrite <- Hjm. apply (sum_zero_all w_prot (data s) (g_ext g e)); [|done|done].
    intros m'. apply w_prot_nonneg. }
  unfold idle, w_pin, w_prot in *.
  destruct (Z.ltb_spec 0 (m_refs m)), (Z.eqb_spec (m_retain_until m) 0); lia.
Qed.

Definition has_free c s : Prop :=
  ∃ cls, s_classes s !! c = Some cls ∧ c_ext_rr cls ≠ [].

Lemma bound_to_has_free c e cls' spe s :
  (c < length (s_classes s))%nat → free_ok cls' → free_of cls' e ≠ [] →
  has_free c (bound_to c e cls' spe s).
Proof.
  intros Hc Hok Hne. exists cls'. split.
  - simpl. by rewrite list_lookup_insert_eq.
  - intros Hnil. apply (fo_rr _ Hok) in Hne. rewrite Hnil in Hne. by apply elem_of_nil in Hne.
Qed.

(** Binding an extent known to be free. *)
Lemma bind_prepared s g c e :
  wf s g None → (c < length (s_classes s))%nat → xcls s !! e = Some None →
  ∃ s', BindExtentLocked c e true s = (kBound, s') ∧ wf s' g None ∧ has_free c s' ∧
    s_index s' = s_index s ∧ data s' = data s ∧ s_opt s' = s_opt s ∧ s_cb_log s' = s_cb_log s.
Proof.
  intros Hwf Hc He. destruct (BindExtentLocked c e true s) as [r s'] eqn:E.
  destruct (bind_spec _ _ _ _ _ _ _ _ Hwf E)
    as [(_ & _ & [?|?])|[(? & _)|(-> & s1 & cls & cls' & [[_ ->]|[? _]] & Hcl & _ & -> & _ & Hok & _ & Hof)]];
    try done; [lia|].
  exists (bound_to c e cls' (c_slots_per_extent cls) s). split_and!; try done.
  - by eapply bind_wf.
  - apply bound_to_has_free; [done|done|]. rewrite Hof, decide_True by done.
    destruct (wf_class_geom _ _ _ _ _ Hwf Hcl) as (_ & Hspe & _).
    intros Hnil%(f_equal length). rewrite length_seq in Hnil. simpl in Hnil. lia.
Qed.

Lemma Drained_Evicts s0 s L e ev s' :
  Drained s e ev s' → s_index s = s_index s0 → data s = data s0 → s_opt s = s_opt s0 →
  s_cb_log s = s_cb_log s0 ++ L →
  (durable (s_opt s0) → EvBind e true ∈ L) → Evicts s0 ev s'.
Proof.
  intros [V I N O HL _] Hi HD Ho HL0 Hack.
  assert (Hv : ∀ k, view s k = view s0 k) by (intros k; by apply view_ext).
  split; [| |done|congruence|].
  - intros k. by rewrite V, Hv.
  - intros k (m & Hm & [? ?] & _)%I. rewrite Hv in Hm. by exists m.
  - exists L. split; [congruence|]. intros k m Hk Hm Hd. right; left.
    destruct (I k Hk) as (m' & Hm' & _ & He). rewrite Hv in Hm'. simplify_eq. by apply Hack.
Qed.

Lemma ext_at_bound s e c :
  x_cls (ext_at s e) = Some c → s_extents s !! e = Some (ext_at s e).
Proof.
  unfold ext_at. rewrite list_lookup_total_alt. by destruct (s_extents s !! e).
Qed.

Lemma wf_classes_length s s' g g' hole hole' :
  wf s g hole → wf s' g' hole' → s_opt s' = s_opt s →
  length (s_classes s') = length (s_classes s).
Proof.
  intros H H' Ho. pose proof (f_equal length (wf_geom _ _ _ H)) as E.
  pose proof (f_equal length (wf_geom _ _ _ H')) as E'. rewrite !length_fmap in E, E'. congruence.
Qed.

(** The wipe of an extent: all its residents leave, then it is unbound. *)
Lemma wipe_spec s g e c acc :
  wf s g None → x_cls (ext_at s e) = Some c →
  x_pinned (ext_at s e) = 0 → x_protected_slots (ext_at s e) = 0 →
  ∃ s1 s2 g2 ev, drain_extent (length (s_slots s)) e s acc = Some (s1, acc ++ ev) ∧
    (if x_cls (ext_at s1 e) is Some _ then unbind_extent c e s1 else s1) = s2 ∧
    wf s2 g2 None ∧ Drained s e ev s2 ∧ xcls s2 !! e = Some None.
Proof.
  intros Hwf Hxc Hp Hq. pose proof (ext_at_bound _ _ _ Hxc) as Hx.
  assert (Hlen : (length (g_ext g e) <= length (s_slots s))%nat).
  { apply NoDup_bounded_length; [by eapply wf_ext_nodup|]. intros i Hi.
    pose proof (dll_bound _ _ _ i (rk_ext _ _ (wf_rings _ _ _ Hwf) _ _ Hx) Hi) as Hb.
    unfold links in Hb. by rewrite length_fmap in Hb. }
  destruct (drain_extent_spec (length (s_slots s)) e s g (ext_at s e) acc Hwf Hx Hlen
    (extent_idle _ _ _ _ _ Hwf Hx Hxc Hp Hq)) as (s1 & g1 & ev & E & Hwf1 & Hnil & Hd).
  exists s1. destruct (x_cls (ext_at s1 e)) as [c1|] eqn:Ec.
  - pose proof (ext_at_bound _ _ _ Ec) as Hx1.
    assert (c1 = c) as ->.
    { destruct (dr_xcls _ _ _ _ Hd) as [He|He]; unfold xcls in He;
        rewrite !list_lookup_fmap, Hx1, ?Hx in He; simpl in He; congruence. }
    exists (unbind_extent c e s1), g1, ev.
    split_and!; [done|done|by eapply unbind_wf| |].
    + destruct Hd. split; try done. right. apply xcls_lookup. exists new_extent_meta.
      simpl. by rewrite list_lookup_alter_eq, Hx1.
    + apply xcls_lookup. exists new_extent_meta. simpl. by rewrite list_lookup_alter_eq, Hx1.
  - exists s1, g1, ev. split_and!; try done. apply xcls_lookup.
    assert (Hlt : (e < length (s_extents s1))%nat).
    { rewrite (wf_extents _ _ _ Hwf1), (dr_opt _ _ _ _ Hd), <- (wf_extents _ _ _ Hwf).
      by eapply lookup_lt_Some. }
    destruct (lookup_lt_is_Some_2 _ _ Hlt) as [x1 Hx1]. rewrite (ext_at_eq _ _ _ Hx1) in Ec.
    by exists x1.
Qed.

(** The medium answered [false] to a callback made since [s]. *)
Definition event_ok (ev : CbEvent) : bool :=
  match ev with EvBind _ ok | EvExtentEvict _ _ _ ok | EvSlotEvict _ ok => ok end.

Definition refused s s' : Prop :=
  ∃ L a, s_cb_log s' = s_cb_log s ++ L ∧ a ∈ L ∧ event_ok a = false.

Lemma refused_after s ev s1 s' : Evicts s ev s1 → refused s1 s' → refused s s'.
Proof.
  intros He (L & a & HL & Ha & Hok). destruct (ev_log _ _ _ He) as (L0 & HL0 & _).
  exists (L0 ++ L), a. rewrite HL, HL0, app_assoc. set_solver.
Qed.

(** The outcome of every operation that may steal for class [c]. *)
Definition steal_result (c : nat) s acc (res : option (ExtentBindResult * St * list BlockKey)) :=
  ∃ r s' ev, res = Some (r, s', acc ++ ev) ∧ WF s' ∧ Evicts s ev s' ∧
    match r with
    | kBound => has_free c s'
    | kPersistenceError => refused s s'
    | kUnavailable => s' = s ∧ ev = []
    end.

Lemma steal_unavailable c s acc : WF s → steal_result c s acc (Some (kUnavailable, s, acc)).
Proof.
  intros Hwf. exists kUnavailable, s, []. rewrite app_nil_r.
  split_and!; [done|done|apply Evicts_refl|done|done].
Qed.

Lemma StealExtentLocked_spec e tc s acc :
  WF s → steal_result tc s acc (StealExtentLocked e tc s acc).
Proof.
  intros Hwf. unfold StealExtentLocked.
  destruct (x_cls (ext_at s e)) as [old|] eqn:Exc; [|by apply steal_unavailable].
  destruct (_ || _) eqn:Eg; [by apply steal_unavailable|].
  apply orb_false_iff in Eg as [[[Etc Espe]%orb_false_iff Epin]%orb_false_iff Eprot].
  apply Nat.leb_gt in Etc. apply negb_false_iff, Z.eqb_eq in Epin, Eprot.
  destruct Hwf as [g Hwf]. destruct (call_extent_bind e s) as [ok s0] eqn:Ecb.
  pose proof (call_extent_bind_wf _ _ _ _ _ _ Hwf Ecb) as Hwf0.
  assert (Hs0 : s_index s0 = s_index s ∧ data s0 = data s ∧ s_opt s0 = s_opt s ∧
    s_classes s0 = s_classes s ∧ s_extents s0 = s_extents s ∧
    ∃ L, s_cb_log s0 = s_cb_log s ++ L ∧ (ok = true → durable (s_opt s) → EvBind e true ∈ L) ∧
      (ok = false → EvBind e false ∈ L)).
  { apply call_extent_bind_spec in Ecb as [(-> & -> & Hno)| ->].
    - split_and!; try done. exists []. rewrite app_nil_r. split_and!; [done| |done].
      intros _ [_ [f Hf]]. congruence.
    - split_and!; try done. eexists. split_and!; [done|..]; intros ->; by rewrite list_elem_of_singleton. }
  destruct Hs0 as (Hi0 & HD0 & Ho0 & Hc0 & Hx0 & L & HL & Hack & Hrej).
  destruct ok; cbn [negb].
  2:{ exists kPersistenceError, s0, []. rewrite app_nil_r.
      split_and!; [done|by exists g|by eapply Evicts_same|]. exists L, (EvBind e false). by auto. }
  assert (Hext : ext_at s0 e = ext_at s e) by (unfold ext_at; by rewrite Hx0).
  rewrite <- Hext in Exc, Epin, Eprot.
  destruct (wipe_spec _ _ _ _ acc Hwf0 Exc Epin Eprot) as (s1 & s2 & g2 & ev & -> & Hs2 & Hwf2 & Hd & Hun).
  cbn [mbind option_bind]. rewrite Hs2.
  assert (Hlen : (tc < length (s_classes s2))%nat).
  { rewrite (wf_classes_length _ _ _ _ _ _ Hwf0 Hwf2) by apply Hd. by rewrite Hc0. }
  destruct (bind_prepared _ _ _ _ Hwf2 Hlen Hun) as (s3 & -> & Hwf3 & Hfree & Hi3 & HD3 & Ho3 & Hl3).
  rewrite decide_True by done.
  eexists kBound, _, ev. split_and!; [done|by exists g2; apply wf_counters| |done].
  rewrite <- (app_nil_r ev). apply (Evicts_trans _ ev s2 []).
  - by apply (Drained_Evicts s s0 L e); auto.
  - apply (Evicts_same _ _ []); simpl; try done. by rewrite app_nil_r.
Qed.

(** A victim that passes the guards is never reported unavailable. *)
Lemma StealExtentLocked_available e tc s acc s' acc' :
  WF s → StealExtentLocked e tc s acc = Some (kUnavailable, s', acc') →
  match x_cls (ext_at s e) with
  | None => True
  | Some _ => (length (s_classes s) <= tc)%nat ∨ x_pinned (ext_at s e) ≠ 0 ∨
      x_protected_slots (ext_at s e) ≠ 0
  end.
Proof.
  intros Hwf. destruct (StealExtentLocked_spec e tc s acc Hwf) as (r & s1 & ev & E & _ & _ & Hr).
  intros E'. rewrite E in E'. injection E' as -> -> _. destruct Hr as [-> _]. revert E.
  unfold StealExtentLocked. destruct (x_cls (ext_at s e)) as [old|] eqn:Exc; [|done].
  destruct (Nat.leb_spec (length (s_classes s)) tc) as [|Htc]; [by auto|].
  destruct (Z.eqb_spec (x_pinned (ext_at s e)) 0) as [Hp|]; [|by auto].
  destruct (Z.eqb_spec (x_protected_slots (ext_at s e)) 0) as [Hq|]; [|by auto].
  destruct Hwf as [g Hwf]. destruct (lookup_lt_is_Some_2 _ _ Htc) as [cls Hcls].
  rewrite (cls_at_eq _ _ _ Hcls). destruct (wf_class_geom _ _ _ _ _ Hwf Hcls) as (_ & Hspe & _).
  destruct (Z.eqb_spec (c_slots_per_extent cls) 0); [lia|]. cbn [negb orb].
  destruct (call_extent_bind e s) as [ok s0] eqn:Ecb. destruct ok; [|done]. cbn [negb].
  pose proof (call_extent_bind_wf _ _ _ _ _ _ Hwf Ecb) as Hwf0.
  assert (ext_at s0 e = ext_at s e ∧ s_classes s0 = s_classes s) as [Hext Hc0].
  { by apply call_extent_bind_spec in Ecb as [(_ & -> & _)| ->]. }
  rewrite <- Hext in Exc, Hp, Hq.
  destruct (wipe_spec _ _ _ _ acc Hwf0 Exc Hp Hq) as (s2 & s3 & g3 & ev3 & -> & Hs3 & Hwf3 & Hd & Hun).
  cbn [mbind option_bind]. rewrite Hs3.
  assert (Hlen : (tc < length (s_classes s3))%nat).
  { rewrite (wf_classes_length _ _ _ _ _ _ Hwf0 Hwf3) by apply Hd. by rewrite Hc0. }
  destruct (bind_prepared _ _ _ _ Hwf3 Hlen Hun) as (s4 & -> & _). by rewrite decide_True.
Qed.

Lemma pick_extent_None eligible before n :
  pick_extent eligible before n = None ↔ ∀ e, (e < n)%nat → eligible e = false.
Proof.
  unfold pick_extent.
  set (step := λ best e, if eligible e then _ else best).
  assert (Hsome : ∀ l b, foldl step (Some b) l ≠ None).
  { intros l. induction l as [|e l IH]; intros b; simpl; [done|].
    unfold step at 2. destruct (eligible e); [destruct (before e b)|]; apply IH. }
  assert (H : ∀ l, foldl step None l = None ↔ ∀ e, e ∈ l → eligible e = false).
  { intros l. induction l as [|e l IH]; simpl; [split; [by intros _ e ?%elem_of_nil|done]|].
    unfold step at 2. destruct (eligible e) eqn:Ee.
    - split; [intros Hn; by apply Hsome in Hn|]. intros Hall. rewrite (Hall e) in Ee; [done|by left].
    - rewrite IH. setoid_rewrite elem_of_cons. split; [|by auto]. intros Hall e' [->|He']; auto. }
  rewrite H. setoid_rewrite elem_of_seq. split; intros Hall e He; apply Hall; lia.
Qed.

Lemma pick_extent_eligible eligible before n b :
  pick_extent eligible before n = Some b → eligible b = true ∧ (b < n)%nat.
Proof.
  unfold pick_extent. set (step := λ best e, if eligible e then _ else best).
  assert (H : ∀ l best, (∀ b, best = Some b → eligible b = true ∧ (b < n)%nat) →
    (∀ e, e ∈ l → (e < n)%nat) →
    ∀ b, foldl step best l = Some b → eligible b = true ∧ (b < n)%nat).
  { intros l. induction l as [|e l IH]; intros best Hb Hl; simpl; [done|]. apply IH; [|set_solver].
    intros b'. unfold step. destruct (eligible e) eqn:Ee; [|by apply Hb].
    assert (e < n)%nat by (apply Hl; by left).
    destruct best as [b0|]; [destruct (before e b0)|]; [by intros [= <-]|by apply Hb|by intros [= <-]]. }
  apply H; [done|]. intros e ?%elem_of_seq. lia.
Qed.

Lemma StealExtentFor_spec c n s acc :
  WF s → steal_result c s acc (StealExtentFor c n s acc).
Proof.
  intros Hwf. unfold StealExtentFor.
  destruct (pick_extent _ _ _); [by apply StealExtentLocked_spec|by apply steal_unavailable].
Qed.

(** Without a donor floor, a steal is unavailable only when every extent of the
    other classes holds a pinned or protected resident. *)
Lemma StealExtentFor_unavailable c s acc s' acc' e x c' :
  WF s → (c < length (s_classes s))%nat → StealExtentFor c 0 s acc = Some (kUnavailable, s', acc') →
  s_extents s !! e = Some x → x_cls x = Some c' → c' ≠ c →
  x_pinned x ≠ 0 ∨ x_protected_slots x ≠ 0.
Proof.
  intros Hwf Hc. unfold StealExtentFor. set (eligible := λ e, _).
  destruct (pick_extent _ _ _) as [b|] eqn:Ep.
  - apply pick_extent_eligible in Ep as [Eb _]. intros E.
    pose proof (StealExtentLocked_available _ _ _ _ _ _ Hwf E) as Hav. unfold eligible in Eb.
    destruct (x_cls (ext_at s b)); [|done]. breflect. destruct Hav as [|[|]]; [lia|done|done].
  - intros _ Hx Hxc Hne. apply pick_extent_None with (e := e) in Ep; [|by eapply lookup_lt_Some].
    unfold eligible in Ep. rewrite (ext_at_eq _ _ _ Hx), Hxc in Ep.
    destruct (Nat.eqb_spec c' c); [done|].
    destruct (Z.eqb_spec (x_pinned x) 0), (Z.eqb_spec (x_protected_slots x) 0); by auto.
Qed.

Lemma StealColdExtentFor_spec c s acc :
  WF s → steal_result c s acc (StealColdExtentFor c s acc).
Proof.
  intros Hwf. unfold StealColdExtentFor.
  destruct (negb _); [by apply steal_unavailable|]. destruct (_ || _); [by apply steal_unavailable|].
  destruct (pick_extent _ _ _) as [best|]; [|by apply steal_unavailable].
  destruct (StealExtentLocked_spec best c s acc Hwf) as (r & s' & ev & -> & Hwf' & Hev & Hr).
  cbn [mbind option_bind]. case_decide; [subst r|exists r, s', ev; by destruct r].
  eexists kBound, _, ev. split_and!; [done| | |done].
  - destruct Hwf' as [g' Hwf']. exists g'. by apply wf_counters.
  - rewrite <- (app_nil_r ev). apply (Evicts_trans _ ev s' []); [done|apply Evicts_count].
Qed.

End steal.
