(* ===== verification/SlabPut.v ===== *)
(** * Slab allocator: Put

    The placement loop returns after at most two rounds with a slot of the
    right class or a failure, and the installation turns the slot into a
    resident. *)

From S2P Require Import Prelude KvTypes KeyIndex SlabTypes SlabLattice SlabRing SlabFree SlabOps.
From S2P Require Import SlabInv SlabStruct SlabInstall SlabWf SlabEvict SlabSteal.

Section put.
Context {IX : Type} {ixo : KeyIndexOps IX} {ixl : KeyIndexLaws IX}.
Notation St := (SlabAllocator IX).
Implicit Types (s : St) (g : Ghost) (k : BlockKey) (ev acc : list BlockKey).

(** ** Taking a slot off a free list *)

Lemma take_wf s g c cls cls' e sl l :
  wf s g None → s_classes s !! c = Some cls →
  sl :: l ≡ₚ free_of cls e → free_ok cls' → same_but_free cls cls' →
  (∀ e', free_of cls' e' = if decide (e' = e) then l else free_of cls e') →
  wf (upd_class c (λ _, cls') s) g (Some (e, sl)) ∧ xcls s !! e = Some (Some c).
Proof.
  intros Hwf Hc Hl Hok Hsame Hof.
  assert (Hne : free_of cls e ≠ []).
  { intros Hnil. rewrite Hnil in Hl. by apply Permutation_nil_r in Hl. }
  pose proof (wf_space _ _ _ Hwf _ _ _ Hc Hne) as Hxe. split; [|done].
  assert (Hgeo : geom cls' = geom cls).
  { unfold same_but_free, geom in *. naive_solver congruence. }
  set (s' := upd_class c (λ _, cls') s).
  assert (Hcl : s_classes s' = <[c := cls']> (s_classes s)).
  { subst s'. simpl. by rewrite (alter_to_insert _ _ _ _ Hc). }
  assert (Hg : geom <$> s_classes s' = geom <$> s_classes s).
  { rewrite Hcl, list_fmap_insert. apply list_insert_id. by rewrite list_lookup_fmap, Hc, Hgeo. }
  pose proof Hwf as [W1 W2 W3 W4 W5 W6 W7 W8 W9 W10 W11 W12 W13 W14 W15 W16].
  split; rewrite ?Hg; try done.
  - destruct W8 as [R1 R2 R3 R4 R5]. split; try done. intros c' cl. rewrite Hcl.
    intros [(<- & <- & _)|[_ Hl']]%list_lookup_insert_Some; [|by apply R2].
    destruct Hsame as (_ & _ & _ & _ & _ & _ & _ & _ & _ & -> & -> & _). by apply R2.
  - intros c' cl. rewrite Hcl. intros [(<- & <- & _)|[_ Hl']]%list_lookup_insert_Some; [|by apply W10].
    destruct (W10 _ _ Hc) as [D1 D2 D3 D4 D5].
    destruct Hsame as (_ & _ & H1 & H2 & _ & H3 & _ & _ & _ & _ & _ & H4).
    split; rewrite ?H1, ?H2, ?H3, ?H4; done.
  - intros e' x Hx. change (s_extents s !! e' = Some x) in Hx. pose proof (W11 _ _ Hx) as Hxok. unfold ext_ok in *.
    destruct (x_cls x) as [c'|] eqn:Exc.
    2:{ split; [apply Hxok|]. simpl. rewrite decide_False; [done|]. intros <-.
        apply xcls_lookup in Hxe as (x' & Hx' & Hc'). congruence. }
    destruct Hxok as (cl & Hcl' & [B1 B2 B3 B4 B5 B6 B7 B8]). simpl in B2, B3.
    destruct (decide (c' = c)) as [->|Hnc].
    + assert (cl = cls) as -> by congruence. exists cls'.
      pose proof Hgeo as [= Hss Hspe]. rewrite Hcl, list_lookup_insert_eq by (by eapply lookup_lt_Some).
      split; [done|].
      split; simpl; rewrite ?Hspe, ?Hof; try done; destruct (decide (e = e')) as [->|Hee].
      * rewrite decide_True by done. rewrite <- B2, <- Hl. solve_Permutation.
      * by rewrite decide_False by done.
      * rewrite decide_True by done. apply Permutation_length in Hl. simpl in *. lia.
      * by rewrite decide_False by done.
    + exists cl. rewrite Hcl, list_lookup_insert_ne by done. split; [done|].
      split; simpl; rewrite ?decide_False; try done; intros <-;
        apply xcls_lookup in Hxe as (x' & Hx' & Hc'); congruence.
  - intros c' cl e'. rewrite Hcl. intros [(<- & <- & _)|[_ Hl']]%list_lookup_insert_Some; [|by apply W12].
    rewrite Hof. case_decide as Hee; [by subst e'|]. by apply W12.
Qed.

Lemma pop_wf s g c cls e sl cls' :
  wf s g None → s_classes s !! c = Some cls → PopFreeLocked cls = (Some (e, sl), cls') →
  wf (upd_class c (λ _, cls') s) g (Some (e, sl)) ∧ xcls s !! e = Some (Some c).
Proof.
  intros Hwf Hc Hpop.
  pose proof (co_free _ _ _ _ _ (wf_cls _ _ _ Hwf _ _ Hc)) as Hfo.
  destruct (PopFree_spec _ _ _ _ Hfo Hpop) as (l & Hl & Hok & Hsame & Hof).
  eapply take_wf; [done|done| |done|done|done]. rewrite Hl. solve_Permutation.
Qed.

(** ** The stripe loop *)

Lemma bound_to_grows s g c e cls cls' spe :
  wf s g None → s_classes s !! c = Some cls → xcls s !! e = Some None → free_ok cls' →
  (∀ e', free_of cls' e' = if decide (e' = e) then seq 0 (Z.to_nat spe) else free_of cls e') →
  0 < spe → (length (c_ext_rr cls) < length (c_ext_rr cls'))%nat.
Proof.
  intros Hwf Hc He Hok' Hof Hspe.
  pose proof (co_free _ _ _ _ _ (wf_cls _ _ _ Hwf _ _ Hc)) as Hok.
  assert (Hnil : free_of cls e = []) by (eapply wf_free_unbound; [done|done|by rewrite He]).
  change (length (c_ext_rr cls) < length (c_ext_rr cls'))%nat with
    (length (e :: c_ext_rr cls) <= length (c_ext_rr cls'))%nat.
  apply submseteq_length, NoDup_submseteq.
  - apply NoDup_cons. split; [|apply Hok]. rewrite (fo_rr _ Hok). intros Hx. by apply Hx.
  - intros e' [->|He']%elem_of_cons; apply (fo_rr _ Hok'); rewrite Hof.
    + rewrite decide_True by done. intros Hs%(f_equal length). rewrite length_seq in Hs. simpl in Hs. lia.
    + apply (fo_rr _ Hok) in He'. case_decide; [congruence|done].
Qed.

Lemma BindFreeExtent_spec c s g r s' cls :
  wf s g None → s_classes s !! c = Some cls → BindFreeExtent c s = (r, s') →
  wf s' g None ∧ Evicts s [] s' ∧ (r = kPersistenceError → refused s s') ∧
  ∃ cls', s_classes s' !! c = Some cls' ∧
    (length (c_ext_rr cls) + (if decide (r = kBound) then 1 else 0) <= length (c_ext_rr cls'))%nat.
Proof.
  intros Hwf Hc. unfold BindFreeExtent.
  assert (Hsame : wf s g None ∧ Evicts s [] s ∧ (kUnavailable = kPersistenceError → refused s s) ∧
    ∃ cls', s_classes s !! c = Some cls' ∧ (length (c_ext_rr cls) + 0 <= length (c_ext_rr cls'))%nat).
  { split_and!; [done|apply Evicts_refl|done|]. exists cls. split; [done|lia]. }
  destruct (s_unbound s =? 0); [by intros [= <- <-]|].
  destruct (first_unbound s) as [e|]; [|by intros [= <- <-]]. intros E.
  split; [by eapply bind_any_wf|].
  destruct (bind_spec _ _ _ _ _ _ _ _ Hwf E) as
    [(-> & -> & _)|[(_ & -> & ->)|(-> & s1 & cls0 & cls' & Hs1 & Hc0 & He & -> & _ & Hok & _ & Hof)]].
  - apply Hsame.
  - split_and!; [by eapply Evicts_same| |exists cls; split; [done|simpl; lia]].
    intros _. exists [EvBind e false], (EvBind e false). rewrite list_elem_of_singleton. done.
  - simplify_eq. destruct (wf_class_geom _ _ _ _ _ Hwf Hc) as (_ & Hspe & _).
    pose proof (bound_to_grows _ _ _ _ _ _ _ Hwf Hc He Hok Hof ltac:(lia)) as Hgrow.
    assert (Hs : s_index s1 = s_index s ∧ data s1 = data s ∧ s_opt s1 = s_opt s ∧
      s_classes s1 = s_classes s ∧ ∃ L, s_cb_log s1 = s_cb_log s ++ L).
    { destruct Hs1 as [[_ ->]|[_ [(_ & -> & _)| ->]%call_extent_bind_spec]]; split_and!; try done.
      - exists []. by rewrite app_nil_r.
      - exists []. by rewrite app_nil_r.
      - by eexists. }
    destruct Hs as (H1 & H2 & H3 & H4 & L & HL). split_and!.
    + by apply (Evicts_same _ _ L).
    + done.
    + exists cls'. simpl. rewrite H4, list_lookup_insert_eq by (by eapply lookup_lt_Some).
      split; [done|]. simpl. lia.
Qed.

Lemma stripe_bind_spec fuel c : ∀ s cls,
  WF s → s_classes s !! c = Some cls → (kStripeWays <= length (c_ext_rr cls) + fuel)%nat →
  ∃ b s', stripe_bind fuel c s = Some (b, s') ∧ WF s' ∧ Evicts s [] s' ∧ (b = false → refused s s') ∧
    ∃ cls', s_classes s' !! c = Some cls' ∧ (length (c_ext_rr cls) <= length (c_ext_rr cls'))%nat.
Proof.
  induction fuel as [|fuel IH]; intros s cls Hwf Hc Hf; simpl; rewrite (cls_at_eq _ _ _ Hc);
    (destruct (Nat.ltb_spec (length (c_ext_rr cls)) kStripeWays) as [Hlt|Hge];
     [|exists true, s; split_and!; [done|done|apply Evicts_refl|done|by exists cls]]); [lia|].
  destruct (BindFreeExtent c s) as [r s1] eqn:E. destruct Hwf as [g Hwf].
  destruct (BindFreeExtent_spec _ _ _ _ _ _ Hwf Hc E) as (Hwf1 & Hev & Hrej & cls1 & Hc1 & Hlen).
  assert (Hw : WF s1) by (by exists g).
  destruct r; simpl in Hlen.
  - destruct (IH s1 cls1 Hw Hc1 ltac:(lia)) as (b & s2 & E2 & Hwf2 & Hev2 & Hb & cls2 & Hc2 & Hlen2).
    exists b, s2. split_and!; [done|done|by apply (Evicts_trans _ [] s1 [])| |].
    { intros ->. apply (refused_after s [] s1); auto. }
    exists cls2. split; [done|lia].
  - exists true, s1. split_and!; [done|done|done|done|]. exists cls1. split; [done|lia].
  - exists false, s1. split_and!; [done|done|done|by auto|]. exists cls1. split; [done|lia].
Qed.

(** ** The placement loop *)

(** Nothing can make room for class [c]: its residents are all pinned or
    protected, and so is some resident of every other class's extent. *)
Definition no_room (c : nat) s : Prop :=
  (∀ i m, live_at (data s) i m → r_cls (m_ref m) = c → ¬ idle m) ∧
  (∀ e x c', s_extents s !! e = Some x → x_cls x = Some c' → c' ≠ c →
     x_pinned x ≠ 0 ∨ x_protected_slots x ≠ 0).

(** The outcome of the placement loop: without a refusal it fails only when
    nothing could be evicted. *)
Definition placed (c : nat) s (pl : option (nat * nat)) ev s' : Prop :=
  match pl with
  | Some (e, sl) => ∃ g, wf s' g (Some (e, sl)) ∧ xcls s' !! e = Some (Some c)
  | None => WF s' ∧ (refused s s' ∨ no_room c s' ∧ ev = [] ∧ ¬ has_free c s)
  end.

Definition place_result (c : nat) s acc (res : option (option (nat * nat) * St * list BlockKey)) :=
  ∃ pl s' ev, res = Some (pl, s', acc ++ ev) ∧ Evicts s ev s' ∧ placed c s pl ev s'.

Lemma place_after c s ev1 s1 acc res :
  Evicts s ev1 s1 → has_free c s1 ∨ ev1 = [] ∧ (has_free c s → has_free c s1) →
  place_result c s1 (acc ++ ev1) res → place_result c s acc res.
Proof.
  intros Hev Hf (pl & s' & ev & -> & Hev' & Hpl). exists pl, s', (ev1 ++ ev).
  rewrite <- app_assoc. split_and!; [done|by eapply Evicts_trans|].
  destruct pl as [[e sl]|]; [done|]. destruct Hpl as [Hwf [Hr|(Hn & -> & Hnf)]]; split; [done| |done|].
  - left. by eapply refused_after.
  - destruct Hf as [|[-> Hf]]; [done|]. right. split_and!; [done|done|by intros ?%Hf].
Qed.

Lemma place_failed c s s' acc :
  WF s' → Evicts s [] s' → refused s s' ∨ no_room c s' ∧ ¬ has_free c s →
  place_result c s acc (Some (None, s', acc)).
Proof.
  intros Hwf Hev Hr. exists None, s', []. rewrite app_nil_r. split_and!; [done..|]. split; [done|].
  destruct Hr as [|[]]; auto.
Qed.

Lemma has_free_pop c s cls :
  s_classes s !! c = Some cls → has_free c s → ∃ e sl cls', PopFreeLocked cls = (Some (e, sl), cls').
Proof.
  intros Hc (cls0 & Hc0 & Hne). assert (cls0 = cls) as -> by congruence.
  destruct (PopFreeLocked cls) as [[[e sl]|] cls'] eqn:E; [by do 3 eexists|].
  by apply PopFree_None in E as [? _].
Qed.

Lemma upd_class_self s c cls : s_classes s !! c = Some cls → upd_class c (λ _, cls) s = s.
Proof.
  intros Hc. unfold upd_class, set_s_classes. rewrite (alter_to_insert _ _ _ _ Hc), list_insert_id by done.
  by destruct s.
Qed.

Lemma live_before s s' ev i m :
  WF s → WF s' → Evicts s ev s' → live_at (data s') i m →
  ∃ i0 m0, live_at (data s) i0 m0 ∧ unref m0 = unref m.
Proof.
  intros [g Hwf] [g' Hwf'] Hev Hm.
  assert (Hv : view s' (m_key m) = Some (unref m)).
  { apply (view_Some _ _ _ _ _ Hwf'). by exists i, m. }
  rewrite (ev_view _ _ _ Hev) in Hv. case_decide; [done|].
  apply (view_Some _ _ _ _ _ Hwf) in Hv as (i0 & m0 & Hm0 & _ & Hu). by exists i0, m0.
Qed.

(** One round without a free slot: evict or steal, then retry. *)
Lemma put_round fuel c s acc cls :
  WF s → s_classes s !! c = Some cls → c_ext_rr cls = [] →
  (∀ s2 acc2, WF s2 → (c < length (s_classes s2))%nat → has_free c s2 →
     place_result c s2 acc2 (put_place fuel c s2 acc2)) →
  place_result c s acc
    ('(grow, s, acc) ←
       (if c_bound_extents (cls_at s c) <? Z.of_nat kStripeWays
        then StealExtentFor c (Z.of_nat kStripeWays) s acc
        else Some (kUnavailable, s, acc));
     match grow with
     | kBound => put_place fuel c s acc
     | kPersistenceError => Some (None, s, acc)
     | kUnavailable =>
         '(cold, s, acc) ← StealColdExtentFor c s acc;
         match cold with
         | kBound => put_place fuel c s acc
         | kPersistenceError => Some (None, s, acc)
         | kUnavailable =>
             let '(ok, s, acc) := EvictOneFrom c s acc in
             if ok then put_place fuel c s acc
             else
               '(steal, s, acc) ← StealExtentFor c 0 s acc;
               match steal with
               | kBound => put_place fuel c s acc
               | _ => Some (None, s, acc)
               end
         end
     end).
Proof.
  intros Hwf Hc Hnil Hnext.
  assert (Hlt : (c < length (s_classes s))%nat) by (by eapply lookup_lt_Some).
  assert (Hgo : ∀ s2 ev2, WF s2 → Evicts s ev2 s2 → has_free c s2 →
    place_result c s acc (put_place fuel c s2 (acc ++ ev2))).
  { intros s2 ev2 Hwf2 Hev2 Hf2. eapply place_after; [done|by left|]. apply Hnext; [done| |done].
    destruct Hf2 as (cls2 & Hc2 & _). by eapply lookup_lt_Some. }
  assert (Hfail : ∀ s2 ev2, WF s2 → Evicts s ev2 s2 → refused s s2 →
    place_result c s acc (Some (None, s2, acc ++ ev2))).
  { intros s2 ev2 Hwf2 Hev2 Hr2. exists None, s2, ev2. split_and!; [done|done|by split; auto]. }
  assert (Hgrow : steal_result c s acc (if c_bound_extents (cls_at s c) <? Z.of_nat kStripeWays
    then StealExtentFor c (Z.of_nat kStripeWays) s acc else Some (kUnavailable, s, acc))).
  { case_match; [by apply StealExtentFor_spec|by apply steal_unavailable]. }
  destruct Hgrow as (r & s1 & ev1 & -> & Hwf1 & Hev1 & Hr1). cbn [mbind option_bind].
  destruct r; [by apply Hgo| |by apply Hfail]. destruct Hr1 as [-> ->]. rewrite app_nil_r.
  destruct (StealColdExtentFor_spec c s acc Hwf) as (r & s1 & ev2 & -> & Hwf2 & Hev2 & Hr2).
  cbn [mbind option_bind]. destruct r; [by apply Hgo| |by apply Hfail]. destruct Hr2 as [-> ->].
  rewrite app_nil_r. destruct (EvictOneFrom c s acc) as [[ok s2] acc2] eqn:Ee.
  destruct (EvictOneFrom_spec _ _ _ _ _ _ Hwf Hlt Ee) as [Hwf3 Hsw]. destruct ok.
  - destruct Hsw as (i & m & _ & _ & -> & Hev3 & Hroom). apply Hgo; [done|done|].
    apply (Hroom cls Hc). rewrite Hnil. unfold kStripeWays. simpl. lia.
  - destruct Hsw as (-> & Hev3 & Hsw).
    destruct (StealExtentFor_spec c 0 s2 acc Hwf3) as (r & s3 & ev3 & E3 & Hwf4 & Hev4 & Hr4).
    rewrite E3. cbn [mbind option_bind].
    pose proof (Evicts_trans _ [] _ _ _ Hev3 Hev4) as Hev5. simpl in Hev5.
    destruct r; [by apply Hgo| |apply Hfail; [done|done|by apply (refused_after s [] s2)]].
    destruct Hr4 as [-> ->]. rewrite app_nil_r in *. apply place_failed; [done|done|].
    destruct Hsw as [[ref Hlog]|Hall].
    + left. exists [EvSlotEvict ref false], (EvSlotEvict ref false). rewrite list_elem_of_singleton. done.
    + right. split; [split|].
      * intros i m Hm Hmc Hid. destruct (live_before _ _ _ _ _ Hwf Hwf3 Hev3 Hm) as (i0 & m0 & Hm0 & Hu).
        apply unref_eq in Hu as (_ & Href & Hidle). apply (Hall i0 m0); [done|congruence|tauto].
      * intros e x c' Hx Hxc Hne. destruct Hwf3 as [g3 Hwf3].
        eapply (StealExtentFor_unavailable c s2); [by exists g3| |done|done|done|done].
        destruct Hwf as [g Hwf].
        by rewrite (wf_classes_length _ _ _ _ _ _ Hwf Hwf3) by apply Hev3.
      * intros (cls0 & Hc0 & Hne). congruence.
Qed.

Lemma put_place_spec fuel c : ∀ s acc,
  WF s → (c < length (s_classes s))%nat → (1 <= fuel)%nat → has_free c s ∨ (2 <= fuel)%nat →
  place_result c s acc (put_place fuel c s acc).
Proof.
  induction fuel as [|fuel IH]; intros s acc Hwf Hlt H1 Hf; [lia|]. cbn [put_place].
  destruct (lookup_lt_is_Some_2 _ _ Hlt) as [cls Hc].
  destruct (stripe_bind_spec (S kStripeWays) c s cls Hwf Hc ltac:(lia))
    as (b & s1 & -> & Hwf1 & Hev1 & Hb & cls1 & Hc1 & Hlen). cbn [mbind option_bind].
  assert (Hf1 : has_free c s1 ∨ (2 <= S fuel)%nat).
  { destruct Hf as [(cls0 & Hc0 & Hne)|]; [left|by right]. assert (cls0 = cls) as -> by congruence.
    exists cls1. split; [done|]. destruct (c_ext_rr cls), (c_ext_rr cls1); simpl in *; [done|done|lia|done]. }
  destruct b; cbn [negb].
  2:{ apply place_failed; auto. }
  rewrite (cls_at_eq _ _ _ Hc1). destruct (PopFreeLocked cls1) as [[[e sl]|] cls'] eqn:Ep.
  - destruct Hwf1 as [g1 Hwf1]. destruct (pop_wf _ _ _ _ _ _ _ Hwf1 Hc1 Ep) as [Hwf2 Hx].
    exists (Some (e, sl)), (upd_class c (λ _, cls') s1), []. rewrite app_nil_r.
    split_and!; [done| |by exists g1].
    apply (Evicts_trans _ [] s1 []); [done|]. apply (Evicts_same _ _ []); try done.
    by rewrite app_nil_r.
  - pose proof (proj1 (PopFree_None _ _) Ep) as [Hnil ->]. rewrite upd_class_self by done.
    eapply place_after; [done| |].
    { right. split; [done|]. intros (cls0 & Hc0 & Hne). exists cls1. split; [done|].
      assert (cls0 = cls) as -> by congruence. rewrite Hnil in Hlen. destruct (c_ext_rr cls); [done|simpl in Hlen; lia]. }
    rewrite app_nil_r. eapply put_round; [done|done|done|].
    intros s2 acc2 Hwf2 Hlt2 Hf2. apply IH; [done|done| |by left].
    destruct Hf1 as [(cls0 & Hc0 & Hne)|]; [congruence|lia].
Qed.

(** ** Installation *)

(** The record [Put] and [RestoreBulk] create. *)
Definition new_resident (key : BlockKey) (c e sl : nat) (size useful seq : Z) : SlotMeta :=
  set_m_access_seq (λ _, seq) (init_meta key c e sl size useful new_slot_meta).

(** The state with the record initialised and the key indexed. *)
Definition inited (key : BlockKey) (i c e sl : nat) (size useful : Z) s1 : St :=
  set_s_index (λ ix, (ix_insert key i ix).2)
    (upd_slot i (init_meta key c e sl size useful) s1).

Section install_state.
Context {s s1 : St} {g : Ghost} {i c e sl : nat} {gf : list nat} {cls : Class_} {x : ExtentMeta}.
Context {key : BlockKey} {useful : Z}.
Context (Hwf : wf s g (Some (e, sl))) (Haq : acquired s g i s1 gf).
Context (Hc : s_classes s !! c = Some cls) (Hx : s_extents s !! e = Some x).
Notation s2 := (inited key i c e sl (c_slot_size cls) useful s1).

(** Everything [LinkResidentLocked] does to it. *)
Lemma link_inited :
  ∃ sl3 h1 n1 h2 n2 h3,
    LinkResidentLocked i s2 =
      set_s_global_hand (λ _, n2) (set_s_global_ring_head (λ _, h2)
        (set_s_slots (λ _, sl3)
          (set_s_classes (<[c := linked_cls h1 n1 cls]>)
            (set_s_extents (<[e := linked_ext h3 x]>) s2)))) ∧
    (strip <$> sl3) !! i = Some (new_resident key c e sl (c_slot_size cls) useful 0) ∧
    (∀ j, j ≠ i → (strip <$> sl3) !! j = data s !! j) ∧
    free_chain (m_free_next <$> sl3) (s_free_slot_meta_head s1) gf ∧
    ring (links RGlobal sl3) h2 n2 (g_all (linked_ghost i c e gf g)) ∧
    (∀ c' cl, s_classes s !! c' = Some cl →
       ring (links RClass sl3) (if decide (c' = c) then h1 else c_ring_head cl)
         (if decide (c' = c) then n1 else c_hand cl) (g_cls (linked_ghost i c e gf g) c')) ∧
    (∀ e' y, s_extents s !! e' = Some y →
       dll (links RExtent sl3) (if decide (e' = e) then h3 else x_resident_head y)
         (g_ext (linked_ghost i c e gf g) e')).
Proof.
  pose proof (aq_rest _ _ _ _ _ Haq) as [= _ A1 A2 A3 A4 _ _ _ _ _ _].
  set (fi := init_meta key c e sl (c_slot_size cls) useful).
  set (slot0 := alter fi i (s_slots s1)).
  assert (Hgr : s_global_ring_head s2 = s_global_ring_head s ∧ s_global_hand s2 = s_global_hand s
    ∧ s_classes s2 = s_classes s ∧ s_extents s2 = s_extents s ∧ s_slots s2 = slot0)
    by done.
  destruct Hgr as (G1 & G2 & G3 & G4 & G5).
  assert (Hat : slot_at s2 i = fi new_slot_meta).
  { apply slot_at_eq. rewrite G5. unfold slot0.
    by rewrite list_lookup_alter_eq, (aq_new _ _ _ _ _ Haq). }
  destruct (link_before RClass i slot0 (c_ring_head cls) (c_hand cls)) as [[sl1 h1] n1] eqn:E1.
  destruct (link_before RGlobal i sl1 (s_global_ring_head s) (s_global_hand s)) as [[sl2 h2] n2] eqn:E2.
  destruct (push_front RExtent i sl2 (x_resident_head x)) as [sl3 h3] eqn:E3.
  exists sl3, h1, n1, h2, n2, h3.
  assert (Hslot0 : ∃ f, slot0 = alter f i (s_slots s1) ∧
    ∀ r m, get_link r (f m) = get_link r m ∧ m_free_next (f m) = m_free_next m).
  { exists fi. split; [done|]. intros [] []; by split. }
  destruct (link_rings Hwf Haq Hc Hx Hslot0 _ _ _ _ _ _ _ _ E1 E2 E3) as (Hst & Hfr & R1 & R2 & R3).
  split_and!; [|..|done|done|done].
  - rewrite (link_resident_fields i s2 _ cls x sl1 h1 n1 sl2 h2 n2 sl3 h3 Hat);
      rewrite ?G1, ?G2, ?G3, ?G4, ?G5; done.
  - rewrite Hst. unfold slot0. by rewrite list_lookup_fmap, list_lookup_alter_eq, (aq_new _ _ _ _ _ Haq).
  - intros j Hj. rewrite Hst. unfold slot0, data.
    by rewrite !list_lookup_fmap, list_lookup_alter_ne, (aq_old _ _ _ _ _ Haq).
  - rewrite Hfr. unfold slot0. rewrite fmap_alter_id by (by intros). apply Haq.
Qed.

End install_state.

(** What an installation observably does. *)
Record Installed s g (key : BlockKey) (m : SlotMeta) (i : nat) (gf : list nat) s' : Prop := {
  in_wf : wf s' (linked_ghost i (r_cls (m_ref m)) (r_extent (m_ref m)) gf g) None;
  in_live : live_at (data s') i m;
  in_view k : view s' k = if decide (k = key) then Some (unref m) else view s k;
  in_opt : s_opt s' = s_opt s;
  in_log : s_cb_log s' = s_cb_log s;
  in_xcls : xcls s' = xcls s;
}.

Lemma installed_view s s' g g' hole hole' key m i k :
  wf s g hole → wf s' g' hole' → live_at (data s') i m → m_key m = key →
  (∀ j, j ≠ i → data s' !! j = data s !! j) → (∀ y, ¬ live_at (data s) i y) →
  ix_find key (s_index s) = None →
  view s' k = if decide (k = key) then Some (unref m) else view s k.
Proof.
  intros Hwf Hwf' Hm Hk Hold Hdead Hfresh. case_decide as Hkk.
  - subst k. apply (view_Some _ _ _ _ _ Hwf'). by exists i, m.
  - destruct (view s k) as [y|] eqn:Ev.
    + apply (view_Some _ _ _ _ _ Hwf) in Ev as (j & y' & [Hj Hl] & Hky & ->).
      apply (view_Some _ _ _ _ _ Hwf'). exists j, y'. split_and!; [|done|done].
      split; [|done]. rewrite Hold; [done|]. intros ->. by apply (Hdead y').
    + destruct (view s' k) as [y|] eqn:Ev'; [|done].
      apply (view_Some _ _ _ _ _ Hwf') in Ev' as (j & y' & [Hj Hl] & Hky & ->).
      assert (view s k = Some (unref y')); [|congruence].
      apply (view_Some _ _ _ _ _ Hwf). exists j, y'. split_and!; [|done|done]. split; [|done].
      rewrite <- Hold; [done|]. intros ->. destruct Hm. congruence.
Qed.

(** The accounting that closes an installation, seen on class and extent. *)
Definition cls_accounted (useful : Z) (cls cls' : Class_) : Prop :=
  (geom cls', c_free_by_ext cls', c_ext_rr cls', c_free_count cls', c_resident_count cls',
   c_useful_bytes cls', c_protected_slots cls', c_bound_extents cls', c_ring_head cls',
   c_hand cls') =
  (geom cls, c_free_by_ext cls, c_ext_rr cls, c_free_count cls, c_resident_count cls,
   c_useful_bytes cls + useful, c_protected_slots cls, c_bound_extents cls, c_ring_head cls,
   c_hand cls).

Definition ext_accounted (useful seq : Z) (x x' : ExtentMeta) : Prop :=
  (x_cls x', x_total_slots x', x_free_slots x', x_pinned x', x_access_seq_sum x',
   x_useful_bytes x', x_resident_count x', x_protected_slots x', x_resident_head x') =
  (x_cls x, x_total_slots x, x_free_slots x - 1, x_pinned x, x_access_seq_sum x + seq,
   x_useful_bytes x + useful, x_resident_count x, x_protected_slots x, x_resident_head x).

Definition account_rest s :=
  (s_opt s, s_free_slot_meta_head s, s_global_ring_head s, s_global_hand s, s_index s,
   s_unbound s, t_protected_bytes (s_retention s), t_protected_slots (s_retention s), s_cb_log s).

Section account.
Context {s s1 s' : St} {g : Ghost} {i c e sl : nat} {gf : list nat}.
Context {cls cls5 : Class_} {x x5 : ExtentMeta}.
Context {key : BlockKey} {useful seq : Z} {fa : SlotMeta → SlotMeta}.
Context (Hwf : wf s g (Some (e, sl))) (Haq : acquired s g i s1 gf).
Context (Hc : s_classes s !! c = Some cls) (Hx : s_extents s !! e = Some x) (Hxc : x_cls x = Some c).
Context (Hfresh : ix_find key (s_index s) = None) (Huse : 0 <= useful <= c_slot_size cls).
Notation s3 := (LinkResidentLocked i (inited key i c e sl (c_slot_size cls) useful s1)).
Notation resident := (new_resident key c e sl (c_slot_size cls) useful).
Context (Hfa : in_place fa) (Hseq : fa (resident 0) = resident seq).
Context (Hs' : s_slots s' = alter fa i (s_slots s3)).
Context (Hc' : s_classes s' = <[c := cls5]> (s_classes s3)).
Context (Hx' : s_extents s' = <[e := x5]> (s_extents s3)).
Context (Hac : ∀ cls4, s_classes s3 !! c = Some cls4 → cls_accounted useful cls4 cls5).
Context (Hax : ∀ x4, s_extents s3 !! e = Some x4 → ext_accounted useful seq x4 x5).
Context (Hus : s_used_bytes s' = s_used_bytes s3 + c_slot_size cls).
Context (Hrest : account_rest s' = account_rest s3).

(** The accounting closes the installation. *)
Lemma account_installed : Installed s g key (resident seq) i gf s'.
Proof.
  destruct (link_inited (key := key) (useful := useful) Hwf Haq Hc Hx)
    as (sl3 & h1 & n1 & h2 & n2 & h3 & E3 & HDi & HDo & Hch & R1 & R2 & R3).
  rewrite E3 in *. clear E3. cbn in Hs', Hc', Hx', Hac, Hax, Hus.
  pose proof (aq_rest _ _ _ _ _ Haq) as [= A0 A1 A2 A3 A4 A5 A6 A7 A8 A9 A10].
  assert (Hlc : (c < length (s_classes s))%nat) by (by eapply lookup_lt_Some).
  assert (Hle : (e < length (s_extents s))%nat) by (by eapply lookup_lt_Some).
  rewrite A1, list_insert_insert_eq in Hc'. rewrite A2, list_insert_insert_eq in Hx'.
  pose proof (Hac _ ltac:(rewrite A1; by apply list_lookup_insert_eq)) as [= Cs Cp C1 C2 C3 C4 C5 C6 C7 C8 C9].
  pose proof (Hax _ ltac:(rewrite A2; by apply list_lookup_insert_eq)) as [= X1 X2 X3 X4 X5 X6 X7 X8 X9].
  injection Hrest as B0 B1 B2 B3 B4 B5 B6 B7 B8.
  rewrite A0, A5, A6, A8, A9 in *. clear Hac Hax.
  assert (HD : data s' !! i = Some (resident seq) ∧ ∀ j, j ≠ i → data s' !! j = data s !! j).
  { rewrite list_lookup_fmap in HDi. destruct (sl3 !! i) as [y|] eqn:Ey; [|done].
    assert (Hy : strip y = resident 0) by (cbn [fmap option_fmap option_map] in HDi; congruence).
    unfold data. rewrite Hs'. rewrite (fmap_alter_insert _ _ _ _ _ Ey).
    rewrite (ip_strip _ Hfa), Hy, Hseq. split.
    - rewrite list_lookup_insert_eq; [done|]. rewrite length_fmap. by eapply lookup_lt_Some.
    - intros j Hj. rewrite list_lookup_insert_ne by done. by apply HDo. }
  destruct HD as [HDi' HDo'].
  assert (Hrings : rings_ok s' (linked_ghost i c e gf g)).
  { assert (Hlk : ∀ r, links r (s_slots s') = links r sl3).
    { intros r. rewrite Hs'. apply fmap_alter_id. intros y _. apply (ip_link _ Hfa). }
    split; rewrite ?Hlk, ?B1, ?B2, ?B3; [done|..|apply Haq].
    - intros c' cl. rewrite Hc'. intros [(<- & <- & _)|[Hne Hl]]%list_lookup_insert_Some.
      + specialize (R2 _ _ Hc). rewrite !decide_True in R2 by done. by rewrite C8, C9.
      + specialize (R2 _ _ Hl). by rewrite !(decide_False (P := c' = c)) in R2 by done.
    - intros e' y. rewrite Hx'. intros [(<- & <- & _)|[Hne Hl]]%list_lookup_insert_Some.
      + specialize (R3 _ _ Hx). rewrite !decide_True in R3 by done. by rewrite X9.
      + specialize (R3 _ _ Hl). by rewrite !(decide_False (P := e' = e)) in R3 by done.
    - rewrite Hs', fmap_alter_id; [done|]. intros y _. apply (ip_free _ Hfa). }
  assert (Hw : wf s' (linked_ghost i c e gf g) None).
  { apply (wf_installed Hwf Haq Hc Hx Hxc HDi' HDo' (cls' := cls5) (x' := x5)); try done.
    - unfold cls_gains, geom. split_and!; try done. by rewrite Cs, Cp.
    - by rewrite Hus, A7.
    - congruence. }
  split; [done|done| |done|done|].
  2:{ unfold xcls. rewrite Hx', list_fmap_insert. apply list_insert_id.
      by rewrite list_lookup_fmap, Hx; simpl; rewrite X1. }
  intros k. eapply installed_view; [apply Hwf|done|done|done|done| |done].
  apply (aq_dead _ _ _ _ _ Haq).
Qed.

End account.

(** Facts of the linked state that the accounting functions read. *)
Lemma linked_reads s g i s1 gf c cls e x sl key useful :
  wf s g (Some (e, sl)) → acquired s g i s1 gf →
  s_classes s !! c = Some cls → s_extents s !! e = Some x →
  let s3 := LinkResidentLocked i (inited key i c e sl (c_slot_size cls) useful s1) in
  (i < length (s_slots s3))%nat ∧ (c < length (s_classes s3))%nat ∧ (e < length (s_extents s3))%nat ∧
  s_activity_seq s3 = s_activity_seq s ∧ s_retention s3 = s_retention s ∧
  m_ref (slot_at s3 i) = mkSlotRef c e sl (c_slot_size cls) (Z.of_nat sl * c_slot_size cls).
Proof.
  intros Hwf Haq Hc Hx s3. subst s3.
  destruct (link_inited (key := key) (useful := useful) (sl := sl) Hwf Haq Hc Hx)
    as (sl3 & h1 & n1 & h2 & n2 & h3 & -> & HDi & _).
  pose proof (aq_rest _ _ _ _ _ Haq) as [= A0 A1 A2 A3 A4 A5 A6 A7 A8 A9 A10].
  cbn. rewrite A1, A2, A8, A10, !length_insert. split_and!; try done;
    [|by eapply lookup_lt_Some|by eapply lookup_lt_Some|].
  { apply lookup_lt_Some in HDi. by rewrite length_fmap in HDi. }
  rewrite list_lookup_fmap in HDi. unfold slot_at. cbn [s_slots set_s_slots set_s_global_hand
    set_s_global_ring_head]. rewrite list_lookup_total_alt.
  destruct (sl3 !! i) as [y|]; [|done]. apply (f_equal (option_map m_ref)) in HDi.
  destruct y. by injection HDi as ->.
Qed.

Lemma acquired_put_seq s g i s1 gf f :
  acquired s g i s1 gf → acquired s g i (set_s_put_seq f s1) gf.
Proof. intros []. by split. Qed.

Lemma put_account_fields len c e i s cls x size :
  s_classes s !! c = Some cls → s_extents s !! e = Some x →
  r_slot_size (m_ref (slot_at s i)) = size → (i < length (s_slots s))%nat →
  let s' := put_account len c e i s in
  ∃ cls' x', s_slots s' = alter (set_m_access_seq (λ _, s_activity_seq s)) i (s_slots s) ∧
    s_classes s' = <[c := cls']> (s_classes s) ∧ s_extents s' = <[e := x']> (s_extents s) ∧
    cls_accounted len cls cls' ∧ ext_accounted len (s_activity_seq s) x x' ∧
    s_used_bytes s' = s_used_bytes s + size ∧ account_rest s' = account_rest s ∧
    m_ref (slot_at s' i) = m_ref (slot_at s i).
Proof.
  intros Hc Hx Hsz Hi s'. destruct (lookup_lt_is_Some_2 _ _ Hi) as [y Hy].
  assert (Hr : ∀ s0 : St, s_slots s0 = alter (set_m_access_seq (λ _, s_activity_seq s)) i (s_slots s) →
    m_ref (slot_at s0 i) = m_ref (slot_at s i)).
  { intros s0 Hs0. unfold slot_at. rewrite Hs0, !list_lookup_total_alt, list_lookup_alter_eq, Hy. done. }
  subst s'. unfold put_account. cbn. rewrite (alter_to_insert _ _ _ _ Hc).
  rewrite !alter_alter, (alter_to_insert _ _ _ _ Hx).
  do 2 eexists. split_and!; try done; [|by apply Hr]. rewrite Hr, Hsz by done. done.
Qed.

Lemma put_install_spec s g c cls e sl key len :
  wf s g (Some (e, sl)) → s_classes s !! c = Some cls → xcls s !! e = Some (Some c) →
  ix_find key (s_index s) = None → 0 <= len <= c_slot_size cls →
  let m := new_resident key c e sl (c_slot_size cls) len (s_activity_seq s) in
  ∃ i gf s', put_install key len c (e, sl) s = (Some (m_ref m, i), s') ∧ Installed s g key m i gf s'.
Proof.
  intros Hwf Hc Hxe Hfresh Hlen m. apply xcls_lookup in Hxe as (x & Hx & Hxc).
  unfold put_install. destruct (AcquireSlotMetaLocked s) as [i s0] eqn:Ea.
  destruct (acquire_spec _ _ _ _ _ Hwf Ea) as [gf Haq0].
  pose proof (acquired_put_seq _ _ _ _ _ (λ n, n + 1) Haq0) as Haq.
  pose proof (aq_rest _ _ _ _ _ Haq0) as [= A0 A1 A2 A3 A4 A5 A6 A7 A8 A9 A10].
  rewrite (cls_at_eq s0 c cls) by (by rewrite A1).
  set (s1 := set_s_put_seq (λ n, n + 1) s0) in *.
  replace (ix_insert key i _) with (true, (ix_insert key i (s_index s1)).2); cycle 1.
  { cbn. rewrite A5. pose proof (ix_insert_fresh key i _ (wf_ix _ _ _ Hwf)) as Hf.
    rewrite bool_decide_true in Hf by done. destruct (ix_insert key i (s_index s)). cbn in *. by subst. }
  cbn [negb]. change (set_s_index _ _) with (inited key i c e sl (c_slot_size cls) len s1).
  destruct (linked_reads _ _ _ _ _ _ _ _ _ _ key len Hwf Haq Hc Hx) as (L0 & L1 & L2 & L3 & L4 & L5).
  destruct (lookup_lt_is_Some_2 _ _ L1) as [cls4 Hc4].
  destruct (lookup_lt_is_Some_2 _ _ L2) as [x4 Hx4].
  destruct (put_account_fields len c e i _ cls4 x4 (c_slot_size cls) Hc4 Hx4)
    as (cls5 & x5 & P1 & P2 & P3 & P4 & P5 & P6 & P7 & P8); [by rewrite L5|done|].
  exists i, gf. eexists. split; [by rewrite P8, L5|]. rewrite L3 in P1, P5.
  eapply (account_installed Hwf Haq Hc Hx Hxc Hfresh Hlen
    (fa := set_m_access_seq (λ _, s_activity_seq s)) (cls5 := cls5) (x5 := x5));
    try done.
  - intros cls0 Hc0. assert (cls0 = cls4) as -> by congruence. done.
  - intros x0 Hx0. assert (x0 = x4) as -> by congruence. done.
Qed.

(** ** [Put] *)

(** What [Put] may do, as seen through the view. *)
Inductive put_outcome (key : BlockKey) (len : Z) s :
    option (SlotRef * nat) → list BlockKey → St → Prop :=
| put_hit i m s' :
    view s key = Some m → m_remove_pending m = false → ix_find key (s_index s') = Some i →
    Evicts s [] s' → put_outcome key len s (Some (m_ref m, i)) [] s'
| put_removing m s' :
    view s key = Some m → m_remove_pending m = true → Evicts s [] s' →
    put_outcome key len s None [] s'
| put_bad_length s' :
    view s key = None → ¬ (0 < len <= max_aligned (s_opt s)) → Evicts s [] s' →
    put_outcome key len s None [] s'
| put_no_space ev s' :
    view s key = None → 0 < len <= max_aligned (s_opt s) → Evicts s ev s' →
    refused s s' ∨ ev = [] ∧ no_room (ClassForLen s (AlignUp len (o_align (s_opt s)))) s' →
    put_outcome key len s None ev s'
| put_stored s1 ev i m s' :
    view s key = None → 0 < len <= max_aligned (s_opt s) → Evicts s ev s1 →
    (∀ k, view s' k = if decide (k = key) then Some (unref m) else view s1 k) →
    s_opt s' = s_opt s1 → s_cb_log s' = s_cb_log s1 →
    live_at (data s') i m → m_key m = key → m_useful_bytes m = len → idle m →
    m_retain_ttl_s m = 0 ∧ m_remove_pending m = false →
    r_cls (m_ref m) = ClassForLen s (AlignUp len (o_align (s_opt s))) →
    put_outcome key len s (Some (m_ref m, i)) ev s'.

(** The sequence number [Put] and [Get] advance is not observable. *)
Lemma activity_wf s g hole f : wf s g hole → wf (set_s_activity_seq f s) g hole.
Proof. intros Hwf. by apply (wf_same s). Qed.

Lemma activity_same s f : Evicts s [] (set_s_activity_seq f s).
Proof. apply (Evicts_same _ _ []); try done. by rewrite app_nil_r. Qed.

Lemma set_referenced_wf s g hole i m b :
  wf s g hole → live_at (data s) i m →
  wf (upd_slot i (set_m_referenced (λ _, b)) s) g hole ∧
  Evicts s [] (upd_slot i (set_m_referenced (λ _, b)) s).
Proof.
  intros Hwf Hm. assert (Hip : in_place (set_m_referenced (λ _, b))) by in_place.
  split; [by apply (wf_upd_slot _ _ _ _ m)|]. split; [|by intros k ?%elem_of_nil|constructor|done|].
  - intros k. rewrite decide_False by (by intros ?%elem_of_nil).
    rewrite (view_upd_slot _ _ _ _ _ _ _ Hwf Hm Hip). case_decide as Hk; [|done].
    symmetry. apply (view_Some _ _ _ _ _ Hwf). by exists i, m.
  - exists []. rewrite app_nil_r. split; [done|]. by intros k m' ?%elem_of_nil.
Qed.

(** The class [Put] looks up exists exactly for the lengths that fit. *)
Lemma put_class s g hole len :
  wf s g hole → 0 <= len →
  let al := AlignUp len (o_align (s_opt s)) in
  let c := ClassForLen s al in
  if bool_decide (0 < len <= max_aligned (s_opt s)) then
    len <= o_extent_bytes (s_opt s) ∧ len <= UINT32_MAX ∧ 0 < al <= o_extent_bytes (s_opt s) ∧
    ∃ cls, s_classes s !! c = Some cls ∧ len <= c_slot_size cls
  else
    len = 0 ∨ o_extent_bytes (s_opt s) < len ∨ UINT32_MAX < len ∨
    o_extent_bytes (s_opt s) < al ∨ (length (s_classes s) <= c)%nat.
Proof.
  intros Hwf Hlen al c. pose proof (wf_opt _ _ _ Hwf) as Hok.
  pose proof (max_aligned_spec _ Hok) as (HaM & HME & _).
  assert (Hsz : c_slot_size <$> s_classes s = c_slot_size <$> class_lattice (s_opt s)).
  { pose proof (wf_geom _ _ _ Hwf) as Hg. apply (f_equal (fmap fst)) in Hg.
    by rewrite <- !list_fmap_compose in Hg. }
  assert (Hcl : c = class_for_exact_size (class_lattice (s_opt s)) (CanonicalSlotSize (s_opt s) al)).
  { by apply class_for_exact_size_ext. }
  assert (Hlen' : length (s_classes s) = length (class_lattice (s_opt s))).
  { by rewrite <- (length_fmap c_slot_size), Hsz, length_fmap. }
  case_bool_decide as Hfit.
  - destruct (fitting_class _ _ Hok Hfit) as (Hal & HalM & _ & cl & Hc & _ & Hle). fold al in Hal, HalM, Hc, Hle.
    split_and!; [lia|lia|lia|lia|]. rewrite <- Hcl in Hc.
    symmetry in Hsz. destruct (fmap_lookup_eq _ _ _ _ _ Hsz Hc) as (cls & Hcls & Heq).
    exists cls. split; [done|]. lia.
  - destruct (decide (len = 0)); [by left|right]. destruct (decide (UINT32_MAX < len)); [by auto|].
    destruct (decide (o_extent_bytes (s_opt s) < al)); [by auto|]. do 3 right.
    rewrite Hcl, Hlen'. unfold al. rewrite oversize_class; [done|done|lia|lia].
Qed.

Lemma put_outcome_after key len s s0 out ev s' :
  Evicts s [] s0 → s_classes s0 = s_classes s → s_index s0 = s_index s →
  put_outcome key len s0 out ev s' → put_outcome key len s out ev s'.
Proof.
  intros Hev Hc Hi Hput. pose proof (ev_opt _ _ _ Hev) as Ho.
  assert (Hv : ∀ k, view s0 k = view s k).
  { intros k. rewrite (ev_view _ _ _ Hev). by rewrite decide_False by (by intros ?%elem_of_nil). }
  assert (Hcl : ∀ al, ClassForLen s0 al = ClassForLen s al).
  { intros al. unfold ClassForLen, ClassForExactSize. by rewrite Hc, Ho. }
  assert (Htr : ∀ ev s1, Evicts s0 ev s1 → Evicts s ev s1).
  { intros ev1 s1 H1. by apply (Evicts_trans s [] s0). }
  destruct Hput as [i m s'|m s'|s'|ev s' Hk Hl He Hr|s1 ev i m s']; rewrite ?Hv, ?Ho, ?Hi, ?Hcl in *.
  - apply put_hit; auto.
  - eapply put_removing; eauto.
  - apply put_bad_length; auto.
  - apply put_no_space; auto. destruct Hr as [Hr|Hr]; [left|by right]. by eapply refused_after.
  - eapply put_stored; eauto.
Qed.

(** [Put] with the sequence number already advanced and the key unknown. *)
Lemma put_miss_spec key len s acc cls :
  let c := ClassForLen s (AlignUp len (o_align (s_opt s))) in
  WF s → view s key = None → 0 < len <= max_aligned (s_opt s) →
  s_classes s !! c = Some cls → len <= c_slot_size cls →
  ∃ out s' ev,
    ('(placement, s, evicted) ← put_place put_fuel c s acc;
     match placement with
     | None => Some (None, s, evicted)
     | Some placement =>
         let '(out, s) := put_install key len c placement s in Some (out, s, evicted)
     end) = Some (out, s', acc ++ ev) ∧ WF s' ∧ put_outcome key len s out ev s'.
Proof.
  intros c Hwf Hv Hlen Hc Hfit.
  assert (Hlt : (c < length (s_classes s))%nat) by (by eapply lookup_lt_Some).
  destruct (put_place_spec put_fuel c s acc Hwf Hlt ltac:(unfold put_fuel; lia)
    ltac:(right; unfold put_fuel; lia)) as (pl & s1 & ev & -> & Hev & Hpl).
  cbn [mbind option_bind]. destruct pl as [[e sl]|].
  2:{ destruct Hpl as [Hwf1 Hr]. exists None, s1, ev. split_and!; [done|done|]. apply put_no_space; [done..|].
      destruct Hr as [|(? & ? & _)]; auto. }
  destruct Hpl as (g1 & Hwf1 & Hx). destruct Hwf as [g Hwf].
  assert (Hge : geom <$> s_classes s1 = geom <$> s_classes s).
  { by rewrite (wf_geom _ _ _ Hwf1), (wf_geom _ _ _ Hwf), (ev_opt _ _ _ Hev). }
  symmetry in Hge. destruct (fmap_lookup_eq _ _ _ _ _ Hge Hc) as (cls1 & Hc1 & [= Hs1 _]).
  assert (Hfresh : ix_find key (s_index s1) = None).
  { apply view_None. rewrite (ev_view _ _ _ Hev). by case_decide. }
  destruct (put_install_spec s1 g1 c cls1 e sl key len Hwf1 Hc1 Hx Hfresh ltac:(lia))
    as (i & gf & s2 & -> & Hin).
  eexists _, s2, ev. split_and!; [done|by eexists; apply Hin|].
  eapply put_stored; try apply Hin; try done.
Qed.

Lemma Put_spec key len s acc :
  WF s → 0 <= len →
  ∃ out s' ev, Put key len s acc = Some (out, s', acc ++ ev) ∧ WF s' ∧ put_outcome key len s out ev s'.
Proof.
  intros [g Hwf0] Hlen. unfold Put. set (s0 := set_s_activity_seq _ s).
  assert (Hwf : wf s0 g None) by (by apply activity_wf).
  assert (Hput : ∀ out ev s', put_outcome key len s0 out ev s' → put_outcome key len s out ev s').
  { intros out ev s'. apply put_outcome_after; [apply activity_same|done|done]. }
  assert (Hstay : ∀ out, put_outcome key len s0 out [] s0 → ∃ out' s' ev,
    Some (out, s0, acc) = Some (out', s', acc ++ ev) ∧ WF s' ∧ put_outcome key len s out' ev s').
  { intros out Ho. exists out, s0, []. rewrite app_nil_r. split_and!; [done|by exists g|by apply Hput]. }
  clearbody s0. destruct (ix_find key (s_index s0)) as [i|] eqn:Ei.
  - destruct (wf_find_live Hwf _ _ Ei) as (m & Hm & Hk & Hat).
    assert (Hv : view s0 key = Some (unref m)) by (apply (view_Some _ _ _ _ _ Hwf); by exists i, m).
    assert (Hp : m_remove_pending (slot_at s0 i) = m_remove_pending (unref m)) by (by rewrite <- Hat).
    assert (Hr : m_ref (slot_at s0 i) = m_ref (unref m)) by (by rewrite <- Hat). rewrite Hp, Hr.
    case_match eqn:Epend.
    + apply Hstay. eapply put_removing; [done|done|apply Evicts_refl].
    + destruct (set_referenced_wf _ _ _ _ _ true Hwf Hm) as [Hwf' Hev].
      eexists _, _, []. rewrite app_nil_r. split; [done|]. split; [by exists g|]. apply Hput. by apply put_hit.
  - pose proof (put_class _ _ _ _ Hwf Hlen) as Hcls. apply view_None in Ei.
    case_bool_decide as Hfit.
    + destruct Hcls as (H1 & H2 & H3 & cls & Hc & Hsz).
      destruct (_ || (UINT32_MAX <? len)) eqn:E1; [lia|]. destruct (_ || (_ <? AlignUp _ _)) eqn:E2; [lia|].
      destruct (Nat.leb_spec (length (s_classes s0))
        (ClassForLen s0 (AlignUp len (o_align (s_opt s0))))); [apply lookup_lt_Some in Hc; lia|].
      destruct (put_miss_spec key len s0 acc cls (ex_intro _ g Hwf) Ei Hfit Hc Hsz)
        as (out & s' & ev & E & Hwf' & Ho). exists out, s', ev. split; [exact E|]. split; [done|by apply Hput].
    + assert (Hbad : put_outcome key len s0 None [] s0) by (by apply put_bad_length, Evicts_refl).
      destruct (_ || (UINT32_MAX <? len)) eqn:E1; [by apply Hstay|].
      destruct (_ || (_ <? AlignUp _ _)) eqn:E2; [by apply Hstay|].
      destruct (Nat.leb_spec (length (s_classes s0))
        (ClassForLen s0 (AlignUp len (o_align (s_opt s0))))); [by apply Hstay|].
      exfalso. cbn zeta in Hcls. lia.
Qed.

End put.
