(* ===== verification/SlabAccess.v ===== *)
(** * Slab allocator: access

    [TouchLocked], [Get], [GetAndPin], [Pin], [Unpin], [Remove] and the
    handle variants: they keep the invariant, change one resident in place,
    and move a touched resident to the end of both sweep orders. *)

From S2P Require Import Prelude KvTypes KeyIndex SlabTypes SlabLattice SlabRing SlabFree SlabOps.
From S2P Require Import SlabInv SlabStruct SlabInstall SlabWf SlabEvict SlabSteal SlabPut.

Section access.
Context {IX : Type} {ixo : KeyIndexOps IX} {ixl : KeyIndexLaws IX}.
Notation St := (SlabAllocator IX).
Implicit Types (s : St) (g : Ghost) (k : BlockKey).

(** ** Touching *)

Definition to_end (i : nat) (l : list nat) : list nat := del i l ++ [i].

Definition touched (i c : nat) g : Ghost :=
  mkGhost (to_end i (g_all g)) (λ c', if decide (c' = c) then to_end i (g_cls g c') else g_cls g c')
    (g_ext g) (g_free g).

Lemma to_end_perm i l : NoDup l → i ∈ l → to_end i l ≡ₚ l.
Proof.
  intros Hnd Hin. destruct (NoDup_split l i Hnd Hin) as (l1 & l2 & -> & _ & _).
  unfold to_end. rewrite del_middle by done. solve_Permutation.
Qed.

Lemma ring_to_end r i slots hd hand l slots' hd' hand' :
  ring (links r slots) hd hand l → i ∈ l → touch_ring r i slots hd hand = (slots', hd', hand') →
  ring (links r slots') hd' hand' (to_end i l) ∧ only_links r slots slots' ∧
  ∀ j, j ∉ l → links r slots' !! j = links r slots !! j.
Proof.
  intros Hr Hin E. pose proof (ring_NoDup _ _ _ _ Hr) as Hnd.
  destruct (NoDup_split l i Hnd Hin) as (l1 & l2 & -> & _ & _).
  destruct (ring_touch _ _ _ _ _ _ _ _ _ _ Hr E) as [Hr' Hol].
  unfold to_end. rewrite del_middle, <- app_assoc by done. split_and!; [done|done|].
  intros j Hj. by eapply touch_ring_frame.
Qed.

(** The ring part of [TouchLocked]. *)
Lemma touch_rings_wf s g i m cls sl1 h1 n1 sl2 h2 n2 :
  wf s g None → live_at (data s) i m → s_classes s !! r_cls (m_ref m) = Some cls →
  touch_ring RClass i (s_slots s) (c_ring_head cls) (c_hand cls) = (sl1, h1, n1) →
  touch_ring RGlobal i sl1 (s_global_ring_head s) (s_global_hand s) = (sl2, h2, n2) →
  let s' := put_global_ring (sl2, h2, n2) (put_class_ring (r_cls (m_ref m)) (sl1, h1, n1) s) in
  wf s' (touched i (r_cls (m_ref m)) g) None ∧ data s' = data s.
Proof.
  intros Hwf Hm Hc E1 E2 s'. destruct (wf_rings _ _ _ Hwf) as [R1 R2 R3 R4 R5].
  pose proof (proj2 (wf_in_cls Hwf _ _ _ Hm) eq_refl) as Hinc.
  pose proof (wf_all_in Hwf _ _ Hm) as Hina.
  destruct (ring_to_end _ _ _ _ _ _ _ _ _ (R2 _ _ Hc) Hinc E1) as (Rc & O1 & Fr).
  rewrite <- (ol_other _ _ _ O1 RGlobal) in R1 by done.
  destruct (ring_to_end _ _ _ _ _ _ _ _ _ R1 Hina E2) as (Rg & O2 & _).
  assert (HD : data s' = data s).
  { unfold data. cbn. by rewrite (ol_data _ _ _ O2), (ol_data _ _ _ O1). }
  split; [|done]. apply (wf_relink s _ g); try done.
  - cbn. apply fmap_alter_id. by intros.
  - cbn. apply to_end_perm; [by eapply ring_NoDup|done].
  - intros c'. cbn. case_decide; [subst|done].
    apply to_end_perm; [by eapply wf_cls_nodup|done].
  - split; simpl; [done|..|done].
    + intros c' cl [(-> & cl0 & Hl0 & ->)|(Hne & Hl0)]%alter_Some; simpl.
      * rewrite decide_True by done. by rewrite (ol_other _ _ _ O2 RClass).
      * rewrite decide_False by done. eapply ring_ext; [|by apply R2]. intros j Hj.
        rewrite (ol_other _ _ _ O2 RClass) by done. apply Fr.
        by apply (wf_cls_disjoint Hwf _ c').
    + intros e x Hx. rewrite (ol_other _ _ _ O2 RExtent), (ol_other _ _ _ O1 RExtent) by done.
      by apply R3.
    + by rewrite (ol_free _ _ _ O2), (ol_free _ _ _ O1).
Qed.

Lemma touch_heat_wf s g i m :
  wf s g None → live_at (data s) i m →
  let s' := touch_heat i (r_cls (m_ref m)) (r_extent (m_ref m)) s in
  wf s' g None ∧ data s' = <[i := set_m_access_seq (λ _, s_activity_seq s) m]> (data s).
Proof.
  intros Hwf Hm s'. assert (Hip : in_place (set_m_access_seq (λ _, s_activity_seq s))) by in_place.
  assert (Hat : m_access_seq (slot_at s i) = m_access_seq m)
    by (by rewrite <- (data_slot_at _ _ _ (proj1 Hm))).
  split; [|by apply (data_alter s _ _ _ _ (proj1 Hm) Hip)].
  pose proof (wf_res _ _ _ Hwf _ _ Hm) as [_ _ _ _ Hr Hu].
  assert (∀ c f, slot_at (upd_class c f s) i = slot_at s i) as Hs by done.
  assert (Hw : w_prot (set_m_access_seq (λ _, s_activity_seq s) m) = w_prot m) by done.
  assert (Hb : w_prot_bytes (set_m_access_seq (λ _, s_activity_seq s) m) = w_prot_bytes m) by done.
  assert (Hn : w_pin (set_m_access_seq (λ _, s_activity_seq s) m) = w_pin m) by done.
  eapply (wf_reweigh Hwf Hm Hip); try done; rewrite ?Hw, ?Hb, ?Hn; cbn; try lia.
  intros x Hx. rewrite Hs, Hat. lia.
Qed.

Definition touched_meta (seq : Z) (m : SlotMeta) : SlotMeta :=
  set_m_access_seq (λ _, seq)
    (set_m_read_touches (λ n, n + 1) (set_m_referenced (λ _, true) m)).

(** What every operation below leaves alone. *)
Definition same_frame s s' : Prop :=
  s_index s' = s_index s ∧ s_opt s' = s_opt s ∧ s_cb_log s' = s_cb_log s.

Lemma put_class_ring_frame c res s : same_frame s (put_class_ring c res s).
Proof. by destruct res as [[??]?]. Qed.
Lemma put_global_ring_frame res s : same_frame s (put_global_ring res s).
Proof. by destruct res as [[??]?]. Qed.
Lemma same_frame_trans s1 s2 s3 : same_frame s1 s2 → same_frame s2 s3 → same_frame s1 s3.
Proof. unfold same_frame. intuition congruence. Qed.

Lemma touch_rings_frame i c s :
  same_frame s (touch_rings i c s) ∧ s_activity_seq (touch_rings i c s) = s_activity_seq s.
Proof.
  unfold touch_rings. generalize (touch_ring RClass i (s_slots s) (c_ring_head (cls_at s c))
    (c_hand (cls_at s c))) as res. intros [[sl1 h1] n1]. cbn zeta.
  generalize (touch_ring RGlobal i (s_slots (put_class_ring c (sl1, h1, n1) s))
    (s_global_ring_head (put_class_ring c (sl1, h1, n1) s))
    (s_global_hand (put_class_ring c (sl1, h1, n1) s))) as res. by intros [[sl2 h2] n2].
Qed.

Lemma touch_frame i s :
  same_frame s (TouchLocked i s) ∧ s_activity_seq (TouchLocked i s) = s_activity_seq s + 1.
Proof.
  unfold TouchLocked. set (s1 := touch_flags i s).
  destruct (touch_rings_frame i (r_cls (m_ref (slot_at s1 i))) s1) as [F1 F2].
  assert (F0 : same_frame s s1 ∧ s_activity_seq s1 = s_activity_seq s + 1) by done.
  clearbody s1. set (s2 := touch_rings _ _ _) in *. clearbody s2. destruct F0 as [F0 F0'].
  split; [|cbn; lia]. eapply same_frame_trans; [done|]. by eapply same_frame_trans.
Qed.

Lemma TouchLocked_spec s g i m :
  wf s g None → live_at (data s) i m →
  wf (TouchLocked i s) (touched i (r_cls (m_ref m)) g) None ∧
  data (TouchLocked i s) = <[i := touched_meta (s_activity_seq s + 1) m]> (data s).
Proof.
  intros Hwf Hm. set (f1 := λ m, set_m_read_touches (λ n, n + 1) (set_m_referenced (λ _, true) m)).
  assert (Hip : in_place f1) by in_place.
  pose proof (activity_wf _ _ _ (λ n, n + 1) Hwf) as Hwf0.
  destruct (wf_upd_slot _ _ _ _ _ _ Hwf0 Hm Hip eq_refl eq_refl eq_refl) as [Hwf1 HD1].
  unfold TouchLocked. change (upd_slot i f1 _) with (touch_flags i s) in *.
  assert (Hlt : (i < length (data s))%nat) by (by eapply lookup_lt_Some, Hm).
  assert (Hact : s_activity_seq (touch_flags i s) = s_activity_seq s + 1) by done.
  generalize dependent (touch_flags i s). intros s1 Hwf1 HD1 Hact. clear Hwf0.
  assert (Hm1 : live_at (data s1) i (f1 m)).
  { rewrite HD1. split; [by apply list_lookup_insert_eq|apply Hm]. }
  assert (Href : m_ref (slot_at s1 i) = m_ref m).
  { change (m_ref m) with (m_ref (f1 m)). by rewrite <- (data_slot_at _ _ _ (proj1 Hm1)). }
  destruct (wf_cls_lookup Hwf1 _ _ Hm1) as (cls & Hc & _). rewrite Href.
  change (m_ref (f1 m)) with (m_ref m) in Hc.
  pose proof (touch_rings_frame i (r_cls (m_ref m)) s1) as [_ Hact2].
  assert (H2 : wf (touch_rings i (r_cls (m_ref m)) s1) (touched i (r_cls (m_ref m)) g) None ∧
    data (touch_rings i (r_cls (m_ref m)) s1) = data s1).
  { unfold touch_rings. rewrite (cls_at_eq _ _ _ Hc).
    destruct (touch_ring RClass i (s_slots s1) _ _) as [[sl1 h1] n1] eqn:E1. cbn zeta.
    destruct (touch_ring RGlobal i _ _ _) as [[sl2 h2] n2] eqn:E2.
    exact (touch_rings_wf _ _ _ _ _ _ _ _ _ _ _ Hwf1 Hm1 Hc E1 E2). }
  destruct H2 as [Hwf2 HD2]. generalize dependent (touch_rings i (r_cls (m_ref m)) s1).
  intros s2 Hact2 Hwf2 HD2. rewrite <- HD2 in Hm1.
  destruct (touch_heat_wf _ _ _ _ Hwf2 Hm1) as [Hwf3 HD3]. split; [exact Hwf3|].
  change (m_ref (f1 m)) with (m_ref m) in HD3.
  rewrite HD3, HD2, HD1, Hact2, Hact, list_insert_insert_eq. done.
Qed.

(** ** One resident updated in place *)

(** The record of [key] becomes [m']; nothing else is observable. *)
Record Updates s key (m' : SlotMeta) s' : Prop := {
  up_view k : view s' k = if decide (k = key) then Some (unref m') else view s k;
  up_opt : s_opt s' = s_opt s;
  up_log : s_cb_log s' = s_cb_log s;
}.

Lemma updates_data s g hole s' g' hole' i m m' :
  wf s g hole → wf s' g' hole' → live_at (data s) i m → data s' = <[i := m']> (data s) →
  meta_core m' = meta_core m → same_frame s s' → Updates s (m_key m) m' s'.
Proof.
  intros Hwf Hwf' Hm HD Hcore (Hi & Ho & Hl). split; [|done|done]. intros k.
  assert (Hlt : (i < length (data s))%nat) by (by eapply lookup_lt_Some, Hm).
  injection Hcore as Hk _ _ Hlive. destruct (decide (k = m_key m)) as [->|Hne].
  - apply (view_Some _ _ _ _ _ Hwf'). exists i, m'. split_and!; [|congruence|done].
    rewrite HD. split; [by apply list_lookup_insert_eq|]. destruct Hm. congruence.
  - unfold view. rewrite Hi. destruct (ix_find k (s_index s)) as [j|] eqn:Ej; [|done].
    destruct (wf_find_live Hwf _ _ Ej) as (y & Hy & Hyk & Hat). rewrite Hat.
    do 2 f_equal. apply data_slot_at. rewrite HD, list_lookup_insert_ne; [apply Hy|].
    intros ->. destruct Hm, Hy. congruence.
Qed.

Lemma unref_unref m : unref (unref m) = unref m.
Proof. done. Qed.

(** The key's resident, through the view. *)
Lemma find_view s g hole key :
  wf s g hole →
  match ix_find key (s_index s) with
  | Some i => ∃ m, live_at (data s) i m ∧ m_key m = key ∧ strip (slot_at s i) = m ∧
      view s key = Some (unref m)
  | None => view s key = None
  end.
Proof.
  intros Hwf. destruct (ix_find key (s_index s)) as [i|] eqn:Ei; [|by apply view_None].
  destruct (wf_find_live Hwf _ _ Ei) as (m & Hm & Hk & Hat). exists m. split_and!; [done..|].
  apply (view_Some _ _ _ _ _ Hwf). by exists i, m.
Qed.

Lemma Get_spec key s out s' :
  WF s → Get key s = (out, s') →
  WF s' ∧
  match view s key with
  | Some m =>
      if m_remove_pending m then out = None ∧ s' = s
      else out = Some (m_ref m) ∧ Updates s key (touched_meta (s_activity_seq s + 1) m) s'
  | None => out = None ∧ s' = s
  end.
Proof.
  intros Hw E. pose proof Hw as [g Hwf]. unfold Get in E. pose proof (find_view _ _ _ key Hwf) as Hv.
  destruct (ix_find key (s_index s)) as [i|]; [|by rewrite Hv; simplify_eq].
  destruct Hv as (m & Hm & Hk & Hat & ->).
  assert (Hp : m_remove_pending (slot_at s i) = m_remove_pending (unref m)) by (by rewrite <- Hat).
  rewrite Hp in E. case_match; [by simplify_eq|].
  destruct (TouchLocked_spec _ _ _ _ Hwf Hm) as [Hwf' HD'].
  destruct (touch_frame i s) as [Hfr _]. generalize dependent (TouchLocked i s).
  intros s1 E Hwf' HD' Hfr. injection E as <- <-. split; [by eexists|]. split.
  - f_equal. assert (Hi' : data s1 !! i = Some (touched_meta (s_activity_seq s + 1) m)).
    { rewrite HD'. apply list_lookup_insert_eq. by eapply lookup_lt_Some, Hm. }
    apply data_slot_at in Hi'. by apply (f_equal m_ref) in Hi'.
  - subst key. destruct (updates_data _ _ _ _ _ _ _ _ _ Hwf Hwf' Hm HD' eq_refl Hfr). by split.
Qed.

(** ** Pins *)

(** The key's count can take one more pin without wrapping. *)
Definition pin_room (key : BlockKey) s : bool :=
  match ix_find key (s_index s) with
  | None => true
  | Some index => m_refs (slot_at s index) + 1 <? 2 ^ 32
  end.

(** Below the maximum the count does not wrap. *)
Lemma refs_bump m :
  0 <= m_refs m → m_refs m + 1 < 2 ^ 32 → set_m_refs (λ n, u32 (n + 1)) m = set_m_refs (λ n, n + 1) m.
Proof. intros H1 H2. unfold set_m_refs. by rewrite u32_id by (split; lia). Qed.

Lemma pin_slot_spec s g hole i m :
  wf s g hole → live_at (data s) i m → m_refs m + 1 < 2 ^ 32 →
  wf (pin_slot i s) g hole ∧
  data (pin_slot i s) = <[i := set_m_refs (λ n, n + 1) m]> (data s) ∧ same_frame s (pin_slot i s).
Proof.
  intros Hwf Hm Hlt. set (f := set_m_refs (λ n, u32 (n + 1))). assert (Hip : in_place f) by in_place.
  assert (Hat : strip (slot_at s i) = m) by (apply data_slot_at, Hm).
  assert (Hrefs : m_refs (slot_at s i) = m_refs m ∧ m_ref (slot_at s i) = m_ref m) by (by rewrite <- Hat).
  destruct Hrefs as [Hr1 Hr2]. pose proof (wf_res _ _ _ Hwf _ _ Hm) as [_ _ _ _ [Hr _] Hu].
  assert (Hf : f m = set_m_refs (λ n, n + 1) m) by (by apply refs_bump).
  assert (Hw : w_prot (f m) = w_prot m) by done.
  assert (Hb : w_prot_bytes (f m) = w_prot_bytes m) by done.
  assert (Hn : w_pin (f m) = 1).
  { rewrite Hf. unfold w_pin. destruct (Z.ltb_spec 0 (m_refs (set_m_refs (λ n, n + 1) m))); simpl in *; lia. }
  assert (Hu32 : is_u32 (m_refs (f m))) by apply u32_range.
  unfold pin_slot. rewrite Hr1, Hr2. fold f. rewrite <- Hf.
  assert (Hslots : ∀ s1, s_slots s1 = s_slots s → data (upd_slot i f s1) = <[i := f m]> (data s)).
  { intros s1 Hs1. apply (data_alter s _ _ _ _ (proj1 Hm) Hip). simpl. by rewrite Hs1. }
  destruct (Z.eqb_spec (m_refs m) 0) as [Hz|Hz]; (split_and!; [|by apply Hslots|done]).
  - apply (wf_reweigh Hwf Hm Hip (fc := λ c, c) (fx := set_x_pinned (λ n, n + 1))); try done;
      rewrite ?Hw, ?Hb, ?Hn; simpl; rewrite ?list_alter_id; try done; try lia.
    intros x _. unfold w_pin. rewrite Hz. simpl. lia.
  - apply (wf_reweigh Hwf Hm Hip (fc := λ c, c) (fx := λ x, x)); try done;
      rewrite ?Hw, ?Hb, ?Hn; simpl; rewrite ?list_alter_id; try done; try lia.
    intros x _. unfold w_pin. destruct (Z.ltb_spec 0 (m_refs m)); lia.
Qed.

Lemma unpin_wf s g i m :
  wf s g None → live_at (data s) i m → m_refs m ≠ 0 →
  let f := set_m_refs (λ n, n - 1) in
  let s1 := upd_slot i f s in
  let s2 := if m_refs m - 1 =? 0 then upd_ext (r_extent (m_ref m)) (set_x_pinned dec_pos) s1 else s1 in
  wf s2 g None ∧ data s2 = <[i := f m]> (data s) ∧ same_frame s s2.
Proof.
  intros Hwf Hm Hne f s1 s2. assert (Hip : in_place f) by in_place.
  pose proof (wf_res _ _ _ Hwf _ _ Hm) as [_ _ _ _ Hr Hu]. unfold is_u32 in Hr.
  assert (Hu32 : is_u32 (m_refs (f m))) by (unfold is_u32; simpl; lia).
  assert (Hw : w_prot (f m) = w_prot m) by done.
  assert (Hb : w_prot_bytes (f m) = w_prot_bytes m) by done.
  assert (Hn : w_pin m = 1) by (unfold w_pin; destruct (Z.ltb_spec 0 (m_refs m)); lia).
  assert (Hn' : w_pin (f m) = if m_refs m - 1 =? 0 then 0 else 1).
  { unfold w_pin, f. simpl. destruct (Z.ltb_spec 0 (m_refs m - 1)), (Z.eqb_spec (m_refs m - 1) 0); lia. }
  assert (HD : s_slots s2 = alter f i (s_slots s)) by (unfold s2; by case_match).
  split_and!; [|by apply (data_alter s _ _ _ _ (proj1 Hm) Hip)|unfold s2; by case_match].
  destruct (wf_ext_lookup Hwf _ _ Hm) as (x0 & cls0 & Hx0 & _ & _ & _ & Hbd & Hinx).
  assert (1 <= x_pinned x0) as Hpos.
  { rewrite (eb_pinned _ _ _ _ _ _ Hbd), <- Hn. eapply sumD_ge; [|by eapply wf_ext_nodup|done|apply Hm].
    intros y _. unfold w_pin. destruct (0 <? _); lia. }
  unfold s2 in *. destruct (Z.eqb_spec (m_refs m - 1) 0).
  - apply (wf_reweigh Hwf Hm Hip (fc := λ c, c) (fx := set_x_pinned dec_pos)); try done;
      rewrite ?Hw, ?Hb, ?Hn, ?Hn'; simpl; rewrite ?list_alter_id; try done; try lia.
    intros x Hx. assert (x = x0) as -> by congruence. unfold dec_pos.
      destruct (Z.ltb_spec 0 (x_pinned x0)); lia.
  - apply (wf_reweigh Hwf Hm Hip (fc := λ c, c) (fx := λ x, x)); try done;
      rewrite ?Hw, ?Hb, ?Hn, ?Hn'; simpl; rewrite ?list_alter_id; try done; try lia.
Qed.

(** Dropping the last pin of a resident marked for removal frees it. *)
Lemma unpin_slot_spec s g i m :
  wf s g None → live_at (data s) i m → m_refs m ≠ 0 →
  let m' := set_m_refs (λ n, n - 1) m in
  WF (unpin_slot i s) ∧
  if (m_refs m =? 1) && m_remove_pending m
  then (∀ k, view (unpin_slot i s) k = if decide (k = m_key m) then None else view s k) ∧
    s_opt (unpin_slot i s) = s_opt s ∧ s_cb_log (unpin_slot i s) = s_cb_log s
  else Updates s (m_key m) m' (unpin_slot i s).
Proof.
  intros Hwf Hm Hne m'. destruct (unpin_wf _ _ _ _ Hwf Hm Hne) as (Hwf2 & HD & Hfr).
  assert (Hip : in_place (set_m_refs (λ n, n - 1))) by in_place.
  assert (Hlt : (i < length (data s))%nat) by (by eapply lookup_lt_Some, Hm).
  assert (Hat : strip (slot_at (upd_slot i (set_m_refs (λ n, n - 1)) s) i) = m').
  { apply data_slot_at. rewrite (data_alter s (upd_slot _ _ s) _ _ _ (proj1 Hm) Hip eq_refl).
    by apply list_lookup_insert_eq. }
  apply (f_equal (λ x, (m_refs x, m_ref x, m_remove_pending x))) in Hat.
  injection Hat as H1 H2 H3. unfold unpin_slot. rewrite H1, H2, H3. clear H1 H2 H3.
  change (m_refs m') with (m_refs m - 1). change (m_ref m') with (m_ref m).
  change (m_remove_pending m') with (m_remove_pending m).
  set (s1 := upd_slot i _ s) in *. clearbody s1. set (s2 := upd_ext _ _ s1) in *. clearbody s2.
  replace (m_refs m - 1 =? 0) with (m_refs m =? 1) in * by lia.
  destruct (m_refs m =? 1); cbn [andb].
  2:{ split; [by exists g|]. by eapply updates_data. }
  destruct (m_remove_pending m).
  2:{ split; [by exists g|]. by eapply updates_data. }
  assert (Hm2 : live_at (data s2) i m').
  { rewrite HD. split; [by apply list_lookup_insert_eq|apply Hm]. }
  destruct (FreeSlot_spec _ _ _ _ Hwf2 Hm2) as (Hwf3 & _ & _ & Ho3 & Hl3 & _).
  pose proof (updates_data _ _ _ _ _ _ _ _ _ Hwf Hwf2 Hm HD eq_refl Hfr) as Hup.
  pose proof (fun k => view_free _ _ _ _ k Hwf2 Hm2) as Hvf.
  destruct Hfr as (_ & Ho2 & Hl2). generalize dependent (FreeSlotLocked i s2).
  intros s3 Hwf3 Ho3 Hl3 Hvf. split; [by eexists|]. split_and!; [|congruence..].
  intros k. rewrite Hvf. change (m_key m') with (m_key m). case_decide; [done|].
  rewrite (up_view _ _ _ _ Hup). by rewrite decide_False.
Qed.

Lemma Pin_spec key s ok s' :
  WF s → pin_room key s = true → Pin key s = (ok, s') →
  WF s' ∧
  match view s key with
  | Some m =>
      if m_remove_pending m then ok = false ∧ s' = s
      else ok = true ∧ Updates s key (set_m_refs (λ n, n + 1) m) s'
  | None => ok = false ∧ s' = s
  end.
Proof.
  intros Hw Hroom E. pose proof Hw as [g Hwf]. unfold Pin in E. pose proof (find_view _ _ _ key Hwf) as Hv.
  unfold pin_room in Hroom. destruct (ix_find key (s_index s)) as [i|]; [|by rewrite Hv; simplify_eq].
  destruct Hv as (m & Hm & Hk & Hat & ->). apply Z.ltb_lt in Hroom.
  change (m_refs (strip (slot_at s i)) + 1 < 2 ^ 32) in Hroom. rewrite Hat in Hroom.
  assert (Hp : m_remove_pending (slot_at s i) = m_remove_pending (unref m)) by (by rewrite <- Hat).
  rewrite Hp in E. case_match; [by simplify_eq|].
  destruct (pin_slot_spec _ _ _ _ _ Hwf Hm Hroom) as (Hwf' & HD' & Hfr).
  generalize dependent (pin_slot i s). intros s1 E Hwf' HD' Hfr. injection E as <- <-.
  split; [by eexists|]. split; [done|]. subst key.
  destruct (updates_data _ _ _ _ _ _ _ _ _ Hwf Hwf' Hm HD' eq_refl Hfr). by split.
Qed.

Lemma Unpin_spec key s ok s' :
  WF s → Unpin key s = (ok, s') →
  WF s' ∧
  match view s key with
  | Some m =>
      if m_refs m =? 0 then ok = false ∧ s' = s
      else ok = true ∧
        if (m_refs m =? 1) && m_remove_pending m
        then (∀ k, view s' k = if decide (k = key) then None else view s k) ∧
          s_opt s' = s_opt s ∧ s_cb_log s' = s_cb_log s
        else Updates s key (set_m_refs (λ n, n - 1) m) s'
  | None => ok = false ∧ s' = s
  end.
Proof.
  intros Hw E. pose proof Hw as [g Hwf]. unfold Unpin in E. pose proof (find_view _ _ _ key Hwf) as Hv.
  destruct (ix_find key (s_index s)) as [i|]; [|by rewrite Hv; simplify_eq].
  destruct Hv as (m & Hm & Hk & Hat & ->).
  assert (Hp : m_refs (slot_at s i) = m_refs m) by (by rewrite <- Hat). rewrite Hp in E.
  change (m_refs (unref m)) with (m_refs m).
  change (m_remove_pending (unref m)) with (m_remove_pending m).
  destruct (Z.eqb_spec (m_refs m) 0); [by simplify_eq|].
  pose proof (unpin_slot_spec _ _ _ _ Hwf Hm n) as Hu. cbn zeta in Hu.
  generalize dependent (unpin_slot i s). intros s1 E [Hw' Hu]. injection E as <- <-.
  subst key. split; [done|]. split; [done|]. case_match; [done|].
  destruct Hu. by split.
Qed.

Lemma GetAndPin_spec key s out s' :
  WF s → pin_room key s = true → GetAndPin key s = (out, s') →
  WF s' ∧
  match view s key with
  | Some m =>
      if m_remove_pending m then out = None ∧ s' = s
      else out = Some (m_ref m) ∧
        Updates s key (set_m_refs (λ n, n + 1) (touched_meta (s_activity_seq s + 1) m)) s'
  | None => out = None ∧ s' = s
  end.
Proof.
  intros Hw Hroom E. pose proof Hw as [g Hwf]. unfold GetAndPin in E.
  pose proof (find_view _ _ _ key Hwf) as Hv. unfold pin_room in Hroom.
  destruct (ix_find key (s_index s)) as [i|]; [|by rewrite Hv; simplify_eq].
  destruct Hv as (m & Hm & Hk & Hat & ->). apply Z.ltb_lt in Hroom.
  change (m_refs (strip (slot_at s i)) + 1 < 2 ^ 32) in Hroom. rewrite Hat in Hroom.
  assert (Hp : m_remove_pending (slot_at s i) = m_remove_pending (unref m)) by (by rewrite <- Hat).
  rewrite Hp in E. case_match; [by simplify_eq|].
  destruct (TouchLocked_spec _ _ _ _ Hwf Hm) as [Hwf1 HD1]. destruct (touch_frame i s) as [Hfr1 _].
  generalize dependent (TouchLocked i s). intros s1 E Hwf1 HD1 Hfr1.
  assert (Hlt : (i < length (data s))%nat) by (by eapply lookup_lt_Some, Hm).
  assert (Hm1 : live_at (data s1) i (touched_meta (s_activity_seq s + 1) m)).
  { rewrite HD1. split; [by apply list_lookup_insert_eq|apply Hm]. }
  destruct (pin_slot_spec _ _ _ _ _ Hwf1 Hm1 Hroom) as (Hwf2 & HD2 & Hfr2).
  generalize dependent (pin_slot i s1). intros s2 E Hwf2 HD2 Hfr2. injection E as <- <-.
  rewrite HD1, list_insert_insert_eq in HD2. split; [by eexists|]. split.
  - f_equal. assert (Hi2 := list_lookup_insert_eq (data s) i
      (set_m_refs (λ n, n + 1) (touched_meta (s_activity_seq s + 1) m)) Hlt).
    rewrite <- HD2 in Hi2. apply data_slot_at in Hi2. by apply (f_equal m_ref) in Hi2.
  - subst key. pose proof (same_frame_trans _ _ _ Hfr1 Hfr2) as Hfr.
    destruct (updates_data _ _ _ _ _ _ _ _ _ Hwf Hwf2 Hm HD2 eq_refl Hfr). by split.
Qed.

Lemma Contains_spec key s :
  WF s → Contains key s = match view s key with Some m => negb (m_remove_pending m) | None => false end.
Proof.
  intros [g Hwf]. unfold Contains. pose proof (find_view _ _ _ key Hwf) as Hv.
  destruct (ix_find key (s_index s)) as [i|]; [|by rewrite Hv].
  destruct Hv as (m & Hm & Hk & Hat & ->). by rewrite <- Hat.
Qed.

(** ** Removal *)

Lemma Remove_spec key s r s' :
  WF s → Remove key s = (r, s') →
  WF s' ∧ s_opt s' = s_opt s ∧ s_cb_log s' = s_cb_log s ∧
  match view s key with
  | None => r = kRemoveNotFound ∧ s' = s
  | Some m =>
      if 0 <? m_refs m
      then r = kDeferred ∧ Updates s key (set_m_remove_pending (λ _, true) m) s'
      else r = kRemoved ∧ ∀ k, view s' k = if decide (k = key) then None else view s k
  end.
Proof.
  intros Hw E. pose proof Hw as [g Hwf]. unfold Remove in E.
  pose proof (find_view _ _ _ key Hwf) as Hv.
  destruct (ix_find key (s_index s)) as [i|]; [|by rewrite Hv; simplify_eq].
  destruct Hv as (m & Hm & Hk & Hat & ->).
  assert (m_refs (slot_at s i) = m_refs (unref m)) as Hr by (by rewrite <- Hat). rewrite Hr in E.
  destruct (0 <? m_refs (unref m)).
  - set (f := λ m, set_m_referenced (λ _, false) (set_m_remove_pending (λ _, true) m)) in *.
    assert (Hip : in_place f) by in_place. injection E as <- <-.
    destruct (wf_upd_slot _ _ _ _ _ _ Hwf Hm Hip eq_refl eq_refl eq_refl) as [Hwf1 HD1].
    split_and!; [by eexists|done|done|done|]. subst key.
    destruct (updates_data _ _ _ _ _ _ _ _ _ Hwf Hwf1 Hm HD1 eq_refl ltac:(done)). by split.
  - destruct (FreeSlot_spec _ _ _ _ Hwf Hm) as (Hwf3 & _ & _ & Ho3 & Hl3 & _).
    pose proof (fun k => view_free _ _ _ _ k Hwf Hm) as Hvf. rewrite Hk in Hvf.
    generalize dependent (FreeSlotLocked i s). intros s3 E Hwf3 Ho3 Hl3 Hvf.
    injection E as <- <-. split_and!; [by eexists|done..].
Qed.

(** ** Handles

    A handle is honoured exactly while it still names the key's resident, and
    then acts as the lookup by key does. *)

Lemma handle_live s g key i :
  wf s g None →
  ((i < length (s_slots s))%nat ∧ m_live (slot_at s i) = true ∧ m_key (slot_at s i) = key) ↔
  ix_find key (s_index s) = Some i.
Proof.
  intros Hwf. rewrite (wf_find _ _ _ Hwf). split.
  - intros (Hlt & Hl & Hk). destruct (lookup_lt_is_Some_2 _ _ Hlt) as [y Hy].
    unfold slot_at in *. rewrite (list_lookup_total_correct _ _ _ Hy) in *.
    exists (strip y). split; [|by destruct y]. split; [|by destruct y].
    unfold data. by rewrite list_lookup_fmap, Hy.
  - intros (m & [Hi Hl] & Hk). pose proof (data_slot_at _ _ _ Hi) as Hat. split_and!.
    + apply lookup_lt_Some in Hi. unfold data in Hi. by rewrite length_fmap in Hi.
    + rewrite <- Hl, <- Hat. by destruct (slot_at s i).
    + rewrite <- Hk, <- Hat. by destruct (slot_at s i).
Qed.

Lemma handle_guard s g key i (b : bool) :
  wf s g None →
  (length (s_slots s) <=? i)%nat || (negb (m_live (slot_at s i)) || negb (key_eqb (m_key (slot_at s i)) key) || b)
  = negb (bool_decide (ix_find key (s_index s) = Some i)) || b.
Proof.
  intros Hwf. pose proof (handle_live _ _ key i Hwf) as Hh.
  assert (Hke : key_eqb (m_key (slot_at s i)) key = bool_decide (m_key (slot_at s i) = key)).
  { apply eq_true_iff_eq. rewrite bool_decide_eq_true. apply key_eqb_spec. }
  rewrite Hke. destruct (Nat.leb_spec (length (s_slots s)) i); cbn [orb].
  - rewrite bool_decide_false; [done|]. rewrite <- Hh. lia.
  - destruct (m_live (slot_at s i)) eqn:El; cbn [negb orb].
    + rewrite <- (bool_decide_ext (m_key (slot_at s i) = key) (ix_find key (s_index s) = Some i));
        [done|]. rewrite <- Hh. naive_solver.
    + rewrite bool_decide_false; [done|]. rewrite <- Hh. naive_solver.
Qed.

Lemma PinHandle_Pin key h s :
  WF s →
  PinHandle key h s =
    if bool_decide (h ≠ None ∧ ix_find key (s_index s) = h) then Pin key s else (false, s).
Proof.
  intros [g Hwf]. destruct h as [i|]; [|by rewrite bool_decide_false by tauto].
  unfold PinHandle. pose proof (handle_guard _ _ key i (m_remove_pending (slot_at s i)) Hwf) as Hg.
  destruct (decide (ix_find key (s_index s) = Some i)) as [Hf|Hf].
  - rewrite bool_decide_true in Hg |- * by done. unfold Pin. rewrite Hf. cbn [negb orb] in Hg.
    destruct (_ <=? _)%nat; cbn [orb] in Hg; [by rewrite <- Hg|]. by rewrite Hg.
  - rewrite bool_decide_false in Hg by done. rewrite bool_decide_false by naive_solver.
    cbn [negb orb] in Hg. destruct (_ <=? _)%nat; [done|]. cbn [orb] in Hg. by rewrite Hg.
Qed.

Lemma UnpinHandle_Unpin key h s :
  WF s →
  UnpinHandle key h s =
    if bool_decide (h ≠ None ∧ ix_find key (s_index s) = h) then Unpin key s else (false, s).
Proof.
  intros [g Hwf]. destruct h as [i|]; [|by rewrite bool_decide_false by tauto].
  unfold UnpinHandle. pose proof (handle_guard _ _ key i (m_refs (slot_at s i) =? 0) Hwf) as Hg.
  destruct (decide (ix_find key (s_index s) = Some i)) as [Hf|Hf].
  - rewrite bool_decide_true in Hg |- * by done. unfold Unpin. rewrite Hf. cbn [negb orb] in Hg.
    destruct (_ <=? _)%nat; cbn [orb] in Hg; [by rewrite <- Hg|]. by rewrite Hg.
  - rewrite bool_decide_false in Hg by done. rewrite bool_decide_false by naive_solver.
    cbn [negb orb] in Hg. destruct (_ <=? _)%nat; [done|]. cbn [orb] in Hg. by rewrite Hg.
Qed.

End access.
