(* ===== verification/SlabReclaim.v ===== *)
(** * Slab allocator: reclaim

    [ReclaimClass], [EvictColdToTarget] and [StealFrom].  The watermark sweep
    evicts exactly a prefix of the idle residents in global sweep order, which
    is the order of last use. *)

From S2P Require Import Prelude KvTypes KeyIndex SlabTypes SlabLattice SlabRing SlabFree SlabOps.
From S2P Require Import SlabInv SlabStruct SlabInstall SlabWf SlabEvict SlabSteal SlabPut SlabAccess.

#[export] Instance idle_dec m : Decision (idle m).
Proof. unfold idle. apply _. Defined.

Section reclaim.
Context {IX : Type} {ixo : KeyIndexOps IX} {ixl : KeyIndexLaws IX}.
Notation St := (SlabAllocator IX).
Implicit Types (s : St) (g : Ghost) (ev acc : list BlockKey).

(** ** [ReclaimClass] *)

Lemma reclaim_loop_spec fuel c target count s acc :
  WF s → (c < length (s_classes s))%nat →
  ∃ s' ev, reclaim_loop fuel c target count s acc = ((count + length ev)%nat, s', acc ++ ev) ∧
    WF s' ∧ Evicts s ev s' ∧ (length ev <= fuel)%nat ∧
    ∀ k m, k ∈ ev → view s k = Some m → r_cls (m_ref m) = c.
Proof.
  revert count s acc. induction fuel as [|fuel IH]; intros count s acc Hwf Hc; cbn [reclaim_loop].
  all: assert (Hstop : ∃ s' ev, (count, s, acc) = ((count + length ev)%nat, s', acc ++ ev) ∧
    WF s' ∧ Evicts s ev s' ∧ (length ev <= 0)%nat ∧
    ∀ k m, k ∈ ev → view s k = Some m → r_cls (m_ref m) = c)
    by (exists s, []; rewrite app_nil_r, Nat.add_0_r; split_and!;
        [done|done|apply Evicts_refl|simpl; lia|by intros k m ?%elem_of_nil]).
  { done. }
  assert (Hstop' : ∃ s' ev, (count, s, acc) = ((count + length ev)%nat, s', acc ++ ev) ∧
    WF s' ∧ Evicts s ev s' ∧ (length ev <= S fuel)%nat ∧
    ∀ k m, k ∈ ev → view s k = Some m → r_cls (m_ref m) = c).
  { destruct Hstop as (s' & ev & H1 & H2 & H3 & H4 & H5). exists s', ev. split_and!; try done. lia. }
  destruct (_ <=? _); [done|]. destruct (0 <? _); [done|]. clear Hstop Hstop'.
  destruct (EvictOneFrom c s acc) as [[ok s1] acc1] eqn:Ee.
  destruct (EvictOneFrom_spec _ _ _ _ _ _ Hwf Hc Ee) as [Hwf1 Hr]. destruct ok; cbn [negb].
  2:{ destruct Hr as (-> & Hev & _). exists s1, []. rewrite app_nil_r, Nat.add_0_r.
      split_and!; [done|done|done|simpl; lia|by intros k m ?%elem_of_nil]. }
  destruct Hr as (i & m & Hm & Hmc & -> & Hev & _).
  assert (Hv : view s (m_key m) = Some (unref m)).
  { destruct Hwf as [g Hwf]. apply (view_Some _ _ _ _ _ Hwf). by exists i, m. }
  assert (Hc1 : (c < length (s_classes s1))%nat).
  { destruct Hwf as [g Hwf], Hwf1 as [g1 Hwf1].
    by rewrite (wf_classes_length _ _ _ _ _ _ Hwf Hwf1 (ev_opt _ _ _ Hev)). }
  destruct (_ <=? _).
  - exists s1, [m_key m]. split_and!; [simpl; by rewrite Nat.add_1_r|done|done|simpl; lia|].
    intros k m' ->%list_elem_of_singleton. rewrite Hv. intros Hm'. apply (inj Some) in Hm' as <-. done.
  - destruct (IH (S count) s1 (acc ++ [m_key m]) Hwf1 Hc1) as (s2 & ev & -> & Hwf2 & Hev2 & Hle & Hcl).
    exists s2, (m_key m :: ev). rewrite <- app_assoc. split_and!.
    + simpl. do 2 f_equal. lia.
    + done.
    + by apply (Evicts_trans _ [m_key m] s1 ev).
    + simpl. lia.
    + intros k m' [->|Hk]%elem_of_cons; [rewrite Hv; intros Hm'; by apply (inj Some) in Hm' as <-|].
      intros Hm'. apply (Hcl k); [done|]. rewrite (ev_view _ _ _ Hev), decide_False; [done|].
      intros ->%list_elem_of_singleton. destruct (ev_idle _ _ _ Hev2 _ Hk) as (y & Hy & _).
      rewrite (ev_view _ _ _ Hev), decide_True in Hy; [done|by left].
Qed.

Lemma ReclaimClass_spec c target max s acc :
  WF s →
  ∃ s' ev, ReclaimClass c target max s acc = (length ev, s', acc ++ ev) ∧
    WF s' ∧ Evicts s ev s' ∧ (length ev <= max)%nat ∧
    ∀ k m, k ∈ ev → view s k = Some m → r_cls (m_ref m) = c.
Proof.
  intros Hwf. unfold ReclaimClass. destruct (Nat.leb_spec (length (s_classes s)) c) as [|Hc].
  - exists s, []. rewrite app_nil_r. split_and!; [done|done|apply Evicts_refl|simpl; lia|].
    by intros k m ?%elem_of_nil.
  - by apply (reclaim_loop_spec max c target 0 s acc).
Qed.

(** ** [StealFrom] *)

Lemma StealFrom_spec donor target s acc :
  WF s →
  ∃ b s' ev, StealFrom donor target s acc = Some (b, s', acc ++ ev) ∧ WF s' ∧ Evicts s ev s' ∧
    (b = true → has_free target s').
Proof.
  intros Hwf. unfold StealFrom.
  assert (Hno : ∃ b s' ev, Some (false, s, acc) = Some (b, s', acc ++ ev) ∧ WF s' ∧ Evicts s ev s' ∧
    (b = true → has_free target s')).
  { exists false, s, []. rewrite app_nil_r. split_and!; [done|done|apply Evicts_refl|done]. }
  destruct (_ || _ || _ || _); [done|]. destruct (pick_extent _ _ _) as [e|]; [|done].
  destruct (StealExtentLocked_spec e target s acc Hwf) as (r & s1 & ev & -> & Hwf1 & Hev & Hr).
  cbn [mbind option_bind]. eexists _, s1, ev. split_and!; [done|done|done|].
  by destruct r.
Qed.

(** ** [EvictColdToTarget] *)

(** The keys of the idle residents among [l], in that order. *)
Definition idle_keys (D : list SlotMeta) (l : list nat) : list BlockKey :=
  (λ i, m_key (D !!! i)) <$> filter (λ i, idle (D !!! i)) l.

Lemma idle_keys_ext D D' l :
  (∀ i, i ∈ l → D' !! i = D !! i) → idle_keys D' l = idle_keys D l.
Proof.
  intros H. unfold idle_keys. induction l as [|i l IH]; [done|].
  assert (Hi : D' !!! i = D !!! i) by (rewrite !list_lookup_total_alt, H; [done|by left]).
  rewrite !filter_cons, Hi. destruct (decide (idle (D !!! i))); cbn; [rewrite Hi; f_equal|];
    apply IH; intros j Hj; apply H; by right.
Qed.

Lemma idle_keys_none D l : (∀ i, i ∈ l → ¬ idle (D !!! i)) → idle_keys D l = [].
Proof.
  intros H. unfold idle_keys. induction l as [|i l IH]; [done|].
  rewrite filter_cons_False by (apply H; by left). apply IH. intros j Hj. apply H. by right.
Qed.

(** Moving the global hand to the next resident. *)
Definition turned (l : list nat) g : Ghost := mkGhost l (g_cls g) (g_ext g) (g_free g).

Lemma advance_global_wf s g i b :
  wf s g None → g_all g = i :: b →
  wf (set_s_global_hand (λ _, ring_next (l_next (m_global (slot_at s i))) (s_global_ring_head s)) s)
    (turned (b ++ [i]) g) None.
Proof.
  intros Hwf Hl. destruct (wf_rings _ _ _ Hwf) as [R1 R2 R3 R4 R5].
  pose proof (ring_hand _ _ _ _ R1) as Hh. rewrite Hl in R1, Hh. simpl in Hh. rewrite Hh in R1.
  apply ring_advance in R1. apply (wf_relink s _ g); try done; simpl.
  rewrite Hl. symmetry. apply Permutation_cons_append.
Qed.

(** The medium cannot give up one resident of a shared extent. *)
Definition extent_only s : Prop :=
  is_Some (o_on_extent_evict (s_opt s)) ∧ o_on_slot_evict (s_opt s) = None.

Lemma call_watermark_evict_spec m x s ok s1 :
  call_watermark_evict m x s = (ok, s1) →
  ∃ L, s1 = set_s_cb_log (λ l, l ++ L) s ∧
    if ok then durable (s_opt s) → acked L m
    else extent_only s ∨ ∃ a, a ∈ L ∧ event_ok a = false.
Proof.
  unfold call_watermark_evict, call_slot_evict.
  assert (Hid : s = set_s_cb_log (λ l, l ++ []) s).
  { destruct s. unfold set_s_cb_log. cbn. by rewrite app_nil_r. }
  assert (Hev : ∀ a (ok0 : bool), event_ok a = ok0 → (ok0 = true → acked [a] m) →
    (ok0, set_s_cb_log (λ l, l ++ [a]) s) = (ok, s1) →
    ∃ L, s1 = set_s_cb_log (λ l, l ++ L) s ∧
      if ok then durable (s_opt s) → acked L m else extent_only s ∨ ∃ a, a ∈ L ∧ event_ok a = false).
  { intros a ok0 Ha Hack [= <- <-]. exists [a]. split; [done|]. destruct ok0; [by intros _; apply Hack|].
    right. exists a. by rewrite list_elem_of_singleton. }
  destruct (o_on_extent_evict (s_opt s)) as [f|] eqn:Ee;
    destruct (o_on_slot_evict (s_opt s)) as [f'|] eqn:Es; try destruct (x_resident_count x =? 1).
  all: try (apply Hev; [done|]; intros ->; unfold acked; setoid_rewrite list_elem_of_singleton; eauto 10).
  all: intros [= <- <-]; exists []; (split; [done|]).
  1: left; done.
  all: intros [[? ?] _]; congruence.
Qed.

(** Everything the sweep guarantees from a state with sweep order [l]. *)
Definition sweep_done (steps todo : nat) (target : Z) (max freed : nat) s (l : list nat) acc
    (res : nat * St * list BlockKey) : Prop :=
  ∃ s' ev rest, res = ((freed + length ev)%nat, s', acc ++ ev) ∧ WF s' ∧ Evicts s ev s' ∧
    idle_keys (data s) l = ev ++ rest ∧ ((freed <= max)%nat → (freed + length ev <= max)%nat) ∧
    ((max <= freed + length ev)%nat ∨ s_used_bytes s' <= target ∨ refused s s' ∨ extent_only s ∨
     rest = [] ∨ (steps < todo)%nat).

Lemma sweep_stop steps todo target max freed s l acc :
  WF s →
  ((max <= freed)%nat ∨ s_used_bytes s <= target ∨ l = [] ∨ idle_keys (data s) l = [] ∨
   (steps < todo)%nat) →
  sweep_done steps todo target max freed s l acc (freed, s, acc).
Proof.
  intros Hwf Hr. exists s, [], (idle_keys (data s) l). rewrite app_nil_r, Nat.add_0_r.
  split_and!; [done|done|apply Evicts_refl|done|done|]. destruct Hr as [|[|[->|]]]; tauto.
Qed.

(** A resident that is not idle is passed over. *)
Lemma sweep_skip steps todo todo' target max freed s s1 i b acc res :
  Evicts s [] s1 → data s1 = data s → s_opt s1 = s_opt s →
  ¬ idle (data s !!! i) → (todo' <= pred todo)%nat →
  sweep_done steps todo' target max freed s1 (b ++ [i]) acc res →
  sweep_done (S steps) todo target max freed s (i :: b) acc res.
Proof.
  intros Hev HD Ho Hi Htodo (s' & ev & rest & -> & Hwf' & Hev' & Hk & Hle & Hr).
  exists s', ev, rest. split_and!; [done|done|by apply (Evicts_trans s [] s1)| |done|].
  - rewrite <- Hk, HD. unfold idle_keys. rewrite filter_app, filter_cons_False by done.
    by rewrite filter_cons_False, app_nil_r by done.
  - unfold extent_only in *. rewrite Ho in Hr.
    destruct Hr as [|[|[Hr|[|[|]]]]]; try tauto; [|lia]. do 2 right. left. by eapply refused_after.
Qed.

(** An idle resident is evicted, once the medium has agreed. *)
Lemma sweep_evict steps todo todo' target max freed s s1 i b m acc res :
  Evicts s [m_key m] s1 → data s1 = <[i := new_slot_meta]> (data s) → data s !! i = Some m →
  idle m → i ∉ b → (todo' <= pred todo)%nat → (freed < max)%nat →
  sweep_done steps todo' target max (S freed) s1 b (acc ++ [m_key m]) res →
  sweep_done (S steps) todo target max freed s (i :: b) acc res.
Proof.
  intros Hev HD Hi Hid Hnb Htodo Hlt (s' & ev & rest & -> & Hwf' & Hev' & Hk & Hle & Hr).
  exists s', (m_key m :: ev), rest. rewrite <- app_assoc.
  replace (freed + length (m_key m :: ev))%nat with (S freed + length ev)%nat by (simpl; lia).
  split_and!; [done|done|by apply (Evicts_trans s [m_key m] s1)| |simpl in *; lia|].
  - unfold idle_keys. rewrite filter_cons_True by (by rewrite (list_lookup_total_correct _ _ _ Hi)).
    rewrite fmap_cons, (list_lookup_total_correct _ _ _ Hi). cbn. f_equal. rewrite <- Hk.
    symmetry. apply idle_keys_ext. intros j Hj. rewrite HD, list_lookup_insert_ne; [done|].
    by intros ->.
  - unfold extent_only in *. rewrite (ev_opt _ _ _ Hev) in Hr.
    destruct Hr as [|[|[Hr|[|[|]]]]]; try tauto; [|lia].
    do 2 right. left. by eapply refused_after.
Qed.

Lemma watermark_loop_spec steps target max : ∀ freed s g acc todo visited,
  wf s g None → g_all g = todo ++ visited → (∀ j, j ∈ visited → ¬ idle (data s !!! j)) →
  sweep_done steps (length todo) target max freed s (g_all g) acc
    (watermark_loop steps target max freed s acc).
Proof.
  induction steps as [|steps IH]; intros freed s g acc todo visited Hwf Hl Hvis;
    cbn [watermark_loop]; assert (Hw : WF s) by (by exists g).
  { apply sweep_stop; [done|]. destruct todo; [|simpl; lia]. do 3 right. left. rewrite Hl. simpl.
    by apply idle_keys_none. }
  destruct (Nat.ltb_spec freed max) as [Hlt|]; [|apply sweep_stop; auto].
  destruct (Z.ltb_spec target (s_used_bytes s)) as [Hlt'|]; [|apply sweep_stop; auto].
  cbn [andb]. pose proof (ring_hand _ _ _ _ (rk_all _ _ (wf_rings _ _ _ Hwf))) as Hh.
  rewrite Hh. destruct (g_all g) as [|i b] eqn:Eg; cbn [head]; [apply sweep_stop; auto|].
  assert (Hi : i ∈ g_all g) by (rewrite Eg; by left).
  apply (mb_all _ _ (wf_members _ _ _ Hwf)) in Hi as [m Hm].
  pose proof (list_lookup_total_correct _ _ _ (proj1 Hm)) as Htot.
  pose proof (wf_all_nodup Hwf) as Hnd. rewrite Eg in Hnd.
  assert (Hnb : i ∉ b) by (by apply NoDup_cons in Hnd as []).
  assert (Hsplit : ∃ vis, b = tail todo ++ vis ∧ ∀ j, j ∈ vis → ¬ idle (data s !!! j)).
  { destruct todo as [|t todo]; simplify_eq/=; [exists b|by exists visited].
    split; [done|]. intros j Hj. apply Hvis. by right. }
  destruct Hsplit as (vis & Hb & Hvis'). clear Hl Hvis.
  assert (Hskip : ∀ s1, wf s1 (turned (b ++ [i]) g) None → Evicts s [] s1 → data s1 = data s →
    s_opt s1 = s_opt s → ¬ idle m → sweep_done (S steps) (length todo) target max freed s (i :: b) acc
      (watermark_loop steps target max freed s1 acc)).
  { intros s1 Hwf1 Hev HD Ho Hni. eapply (sweep_skip _ _ (length (tail todo))); [done..|by rewrite Htot| |].
    { by destruct todo. }
    apply (IH freed s1 (turned (b ++ [i]) g) acc (tail todo) (vis ++ [i])); [done| |].
    - cbn. by rewrite Hb, app_assoc.
    - intros j. rewrite HD. intros [Hj| ->%list_elem_of_singleton]%elem_of_app; [|by rewrite Htot].
      by apply Hvis'. }
  set (s0 := set_s_counters _ s).
  assert (H0 : wf s0 g None ∧ Evicts s [] s0 ∧ data s0 = data s ∧ s_opt s0 = s_opt s ∧
    s_index s0 = s_index s ∧ s_cb_log s0 = s_cb_log s).
  { split; [by apply wf_counters|]. split; [apply Evicts_count|done]. }
  destruct H0 as (Hwf0 & Hev0 & HD0 & Ho0 & Hi0 & Hl0). clearbody s0.
  assert (Hm0 : live_at (data s0) i m) by (by rewrite HD0).
  pose proof (data_slot_at _ _ _ (proj1 Hm0)) as Hat.
  assert (Hr : m_refs (slot_at s0 i) = m_refs m ∧ m_retain_until (slot_at s0 i) = m_retain_until m ∧
    m_ref (slot_at s0 i) = m_ref m ∧ m_key (slot_at s0 i) = m_key m) by (by rewrite <- Hat).
  destruct Hr as (Hr1 & Hr2 & Hr3 & Hr4). rewrite Hr1, Hr2.
  pose proof (wf_res _ _ _ Hwf _ _ Hm) as [_ _ _ _ [Hrefs _] _].
  destruct (Z.ltb_spec 0 (m_refs m)) as [Hp|Hp].
  { apply Hskip; try done; [by apply advance_global_wf| |intros [? _]; lia].
    apply (Evicts_trans s [] s0 []); [done|]. apply (Evicts_same _ _ []); try done. by rewrite app_nil_r. }
  destruct (Z.eqb_spec (m_retain_until m) 0) as [Hu|Hu]; cbn [negb].
  2:{ apply Hskip; try done; [|..|intros [_ ?]; lia].
      - apply (wf_same (set_s_global_hand (λ _, ring_next (l_next (m_global (slot_at s0 i)))
          (s_global_ring_head s0)) s0)); try done. by apply advance_global_wf.
      - apply (Evicts_trans s [] s0 []); [done|]. apply (Evicts_same _ _ []); try done. by rewrite app_nil_r. }
  destruct (call_watermark_evict _ _ s0) as [ok s1] eqn:Ec.
  apply call_watermark_evict_spec in Ec as (L & -> & Hok). rewrite Hr4.
  unfold acked in Hok. rewrite Hr3 in Hok. fold (acked L m) in Hok.
  set (s1 := set_s_cb_log _ s0).
  assert (H1 : wf s1 g None ∧ data s1 = data s ∧ s_index s1 = s_index s ∧ s_opt s1 = s_opt s ∧
    s_cb_log s1 = s_cb_log s ++ L).
  { split; [by apply wf_cb_log|]. split_and!; try done. cbn. by rewrite Hl0. }
  destruct H1 as (Hwf1 & HD1 & Hi1 & Ho1 & Hl1). clearbody s1. destruct ok; cbn [negb].
  - assert (Hid : idle m) by (split; [lia|done]). rewrite Ho0 in Hok.
    assert (Hm1 : live_at (data s1) i m) by (by rewrite HD1).
    pose proof (Evicts_one s g s1 i m L Hwf Hm Hid Hwf1 HD1 Hi1 Ho1 Hl1 Hok) as Hev.
    destruct (FreeSlot_spec _ _ _ _ Hwf1 Hm1) as (Hwf2 & HD2 & _). rewrite HD1 in HD2.
    generalize dependent (FreeSlotLocked i s1). intros s2 Hev Hwf2 HD2.
    eapply (sweep_evict _ _ (length (tail todo)) _ _ _ s
      (set_s_counters (set_n_watermark_evictions (λ n, n + 1)) (count_eviction s2)) i b m);
      [|done|apply Hm|done|done|by destruct todo|done|].
    { rewrite <- (app_nil_r [m_key m]). eapply Evicts_trans; [exact Hev|].
      apply (Evicts_trans _ [] (count_eviction s2) []); apply Evicts_count. }
    assert (Hgb : g_all (freed_ghost i g) = b) by (cbn; rewrite Eg; by apply (del_middle i [] b)).
    rewrite <- Hgb. apply (IH (S freed) _ _ _ _ vis); [by do 2 apply wf_counters|by rewrite Hgb|].
    intros j Hj. replace (data _) with (<[i := new_slot_meta]> (data s)) by (by rewrite <- HD2).
    rewrite list_lookup_total_insert_ne; [by apply Hvis'|].
    intros ->. apply Hnb. rewrite Hb. apply elem_of_app. by right.
  - exists s1, [], (idle_keys (data s) (i :: b)). rewrite app_nil_r, Nat.add_0_r.
    split_and!; [done|by exists g|by apply (Evicts_same _ _ L)|done|done|].
    unfold extent_only, refused in *. rewrite Ho0 in Hok. destruct Hok as [|(a & Ha & Haok)]; [tauto|].
    do 2 right. left. by exists L, a.
Qed.

Lemma EvictColdToTarget_spec target max s acc g :
  wf s g None → Z.of_nat max <= SIZE_MAX / 4 →
  sweep_done (4 * max) (length (g_all g)) target max 0 s (g_all g) acc
    (EvictColdToTarget target max s acc).
Proof.
  intros Hwf Hmax. unfold EvictColdToTarget. rewrite (proj2 (Z.ltb_ge _ _)) by done.
  apply (watermark_loop_spec _ _ _ _ _ _ _ _ []); [done|by rewrite app_nil_r|].
  by intros j ?%elem_of_nil.
Qed.

End reclaim.
