(* ===== verification/SlabFrame.v ===== *)
(** * Slab allocator: the retention clock and wheel

    Everything but [ConfigureRetention], [Retain], [ExpireRetention] and
    [RestoreBulk] leaves the retention options, clock and expiry wheel alone,
    and tells a medium without callbacks nothing. *)

From S2P Require Import Prelude KvTypes KeyIndex SlabTypes SlabLattice SlabRing SlabFree SlabOps.

Section frame.
Context {IX : Type} {ixo : KeyIndexOps IX}.
Notation St := (SlabAllocator IX).
Implicit Types (s : St) (acc : list BlockKey).

(** What the retention operations own. *)
Definition rf s : RetainOptions * Z * list (list WheelEntry) * Z :=
  let t := s_retention s in (t_opt t, t_now_s t, t_wheel t, t_wheel_tick t).

(** The log of a medium without callbacks. *)
Definition no_callbacks (o : Options) : Prop :=
  o_on_extent_bind o = None ∧ o_on_extent_evict o = None ∧ o_on_slot_evict o = None.

Definition quiet_log s : list CbEvent :=
  match o_on_extent_bind (s_opt s), o_on_extent_evict (s_opt s), o_on_slot_evict (s_opt s) with
  | None, None, None => s_cb_log s
  | _, _, _ => []
  end.

(** Both are left alone by the operations below. *)
Definition fr s : RetainOptions * Z * list (list WheelEntry) * Z * list CbEvent := (rf s, quiet_log s).

Lemma fr_put_class_ring c res s : fr (put_class_ring c res s) = fr s.
Proof. by destruct res as [[??]?]. Qed.
Lemma fr_put_global_ring res s : fr (put_global_ring res s) = fr s.
Proof. by destruct res as [[??]?]. Qed.
Lemma fr_put_extent_list e res s : fr (put_extent_list e res s) = fr s.
Proof. by destruct res. Qed.
Lemma fr_upd_class c f s : fr (upd_class c f s) = fr s.
Proof. done. Qed.
Lemma fr_upd_ext e f s : fr (upd_ext e f s) = fr s.
Proof. done. Qed.
Lemma fr_upd_slot i f s : fr (upd_slot i f s) = fr s.
Proof. done. Qed.
Lemma fr_counters f s : fr (set_s_counters f s) = fr s.
Proof. done. Qed.
Lemma fr_index f s : fr (set_s_index f s) = fr s.
Proof. done. Qed.
Lemma fr_used f s : fr (set_s_used_bytes f s) = fr s.
Proof. done. Qed.
Lemma fr_unbound f s : fr (set_s_unbound f s) = fr s.
Proof. done. Qed.
Lemma fr_slots f s : fr (set_s_slots f s) = fr s.
Proof. done. Qed.
Lemma fr_activity f s : fr (set_s_activity_seq f s) = fr s.
Proof. done. Qed.
Lemma fr_put_seq f s : fr (set_s_put_seq f s) = fr s.
Proof. done. Qed.
Lemma fr_free_head f s : fr (set_s_free_slot_meta_head f s) = fr s.
Proof. done. Qed.
Lemma fr_global_hand f s : fr (set_s_global_hand f s) = fr s.
Proof. done. Qed.

Create HintDb fr discriminated.
Hint Rewrite fr_put_class_ring fr_put_global_ring fr_put_extent_list fr_upd_class fr_upd_ext
  fr_upd_slot fr_counters fr_index fr_used fr_unbound fr_slots fr_activity fr_put_seq
  fr_free_head fr_global_hand : fr.

Lemma fr_link_resident i s : fr (LinkResidentLocked i s) = fr s.
Proof.
  unfold LinkResidentLocked, LinkBeforeGlobalHandLocked, LinkBeforeHandLocked. cbn zeta.
  by autorewrite with fr.
Qed.

Lemma fr_touch i s : fr (TouchLocked i s) = fr s.
Proof.
  unfold TouchLocked, touch_heat, touch_rings, touch_flags. cbn zeta. by autorewrite with fr.
Qed.

Lemma fr_unprotect i s : fr (UnprotectLocked i s) = fr s.
Proof. done. Qed.
Lemma fr_protect i s : fr (ProtectLocked i s) = fr s.
Proof. done. Qed.

Lemma fr_free i s : fr (FreeSlotLocked i s) = fr s.
Proof.
  unfold FreeSlotLocked, return_extent, unbind_extent. cbn zeta.
  assert (H : ∀ s, fr (free_resident i s) = fr s).
  { intros s0. unfold free_resident, release_meta. cbn zeta. by autorewrite with fr. }
  destruct (_ && _); autorewrite with fr; rewrite H; by case_match.
Qed.

Lemma fr_call_bind e s : fr (call_extent_bind e s).2 = fr s.
Proof. unfold call_extent_bind. case_match eqn:E; [|done]. unfold fr, quiet_log. cbn. by rewrite E. Qed.
Lemma fr_call_evict r s : fr (call_slot_evict r s).2 = fr s.
Proof.
  unfold call_slot_evict. case_match eqn:E; [|done]. unfold fr, quiet_log. cbn. rewrite E. by repeat case_match.
Qed.
Lemma fr_call_watermark m x s : fr (call_watermark_evict m x s).2 = fr s.
Proof.
  unfold call_watermark_evict. pose proof (fr_call_evict (m_ref m) s) as H.
  case_match eqn:E; [|done]. destruct (_ =? 1); [|by repeat case_match].
  unfold fr, quiet_log. cbn. rewrite E. by repeat case_match.
Qed.

Lemma fr_bind c e b s : fr (BindExtentLocked c e b s).2 = fr s.
Proof.
  unfold BindExtentLocked. destruct (_ || _ || _); [done|]. destruct (_ =? 0); [done|].
  destruct b; [done|]. pose proof (fr_call_bind e s) as H.
  destruct (call_extent_bind e s) as [[] s1]; [|done]. done.
Qed.

Lemma fr_bind_free c s : fr (BindFreeExtent c s).2 = fr s.
Proof.
  unfold BindFreeExtent. destruct (_ =? 0); [done|]. destruct (first_unbound s); [|done].
  apply fr_bind.
Qed.

Lemma fr_evict_victim i s acc : fr (evict_victim i s acc).1.2 = fr s.
Proof.
  unfold evict_victim. pose proof (fr_call_evict (m_ref (slot_at s i)) s) as H.
  destruct (call_slot_evict _ s) as [[] s1]; cbn in *; [|done]. unfold count_eviction.
  by rewrite fr_counters, fr_free.
Qed.

Lemma fr_evict_fallback fb s acc : fr (evict_fallback fb s acc).1.2 = fr s.
Proof. destruct fb; cbn; [|done]. case_match; [apply fr_evict_victim|done]. Qed.

Lemma fr_evict_sweep steps c : ∀ fb s acc, fr (evict_sweep steps c fb s acc).1.2 = fr s.
Proof.
  induction steps as [|steps IH]; intros fb s acc; cbn [evict_sweep]; [apply fr_evict_fallback|].
  destruct (_ =? 0); [apply fr_evict_fallback|].
  set (s1 := match c_hand (cls_at s c) with Some _ => s | None => _ end).
  assert (H1 : fr s1 = fr s) by (unfold s1; by case_match). clearbody s1. rewrite <- H1.
  destruct (c_hand (cls_at s1 c)); [|apply fr_evict_fallback].
  destruct (0 <? _); [by rewrite IH|]. destruct (negb _); [by rewrite IH|].
  destruct (m_referenced _); [by rewrite IH|]. by rewrite fr_evict_victim.
Qed.

Lemma fr_evict_one c s acc : fr (EvictOneFrom c s acc).1.2 = fr s.
Proof. unfold EvictOneFrom. destruct (_ =? 0); [done|apply fr_evict_sweep]. Qed.

Lemma fr_drain fuel e : ∀ s acc s' acc',
  drain_extent fuel e s acc = Some (s', acc') → fr s' = fr s.
Proof.
  induction fuel as [|fuel IH]; intros s acc s' acc'; cbn; (case_match; [|by intros [= <- <-]]); [done|].
  intros Hd%IH. rewrite Hd. unfold count_eviction. by rewrite fr_counters, fr_free.
Qed.

(** A computation that may not return leaves [fr] alone when it does. *)
Definition fr_kept {A B} s (res : option (A * St * B)) : Prop :=
  ∀ a s' b, res = Some (a, s', b) → fr s' = fr s.

Lemma fr_kept_ret {A B} s s' (a : A) (b : B) : fr s' = fr s → fr_kept s (Some (a, s', b)).
Proof. by intros H a' s'' b' [= <- <- <-]. Qed.

Lemma fr_kept_bind {A B C D} s (res : option (A * St * B)) (k : A * St * B → option (C * St * D)) :
  fr_kept s res → (∀ a s' b, fr s' = fr s → fr_kept s (k (a, s', b))) → fr_kept s (res ≫= k).
Proof.
  intros H1 H2 c s' d. destruct res as [[[a s1] b]|]; cbn; [|done]. apply H2. by eapply H1.
Qed.

Lemma fr_kept_eq {A B} s s0 (res : option (A * St * B)) : fr s0 = fr s → fr_kept s0 res → fr_kept s res.
Proof. unfold fr_kept. intros <-. done. Qed.

Lemma fr_steal_locked e c s acc : fr_kept s (StealExtentLocked e c s acc).
Proof.
  unfold StealExtentLocked. case_match; [|by apply fr_kept_ret].
  destruct (_ || _); [by apply fr_kept_ret|]. pose proof (fr_call_bind e s) as Hb.
  destruct (call_extent_bind e s) as [[] s1]; cbn [negb]; [|by apply fr_kept_ret].
  destruct (drain_extent _ e s1 acc) as [[s2 acc2]|] eqn:Ed; [|done]. cbn [mbind option_bind].
  apply fr_drain in Ed. set (s3 := match x_cls (ext_at s2 e) with Some _ => _ | None => s2 end).
  assert (H3 : fr s3 = fr s).
  { transitivity (fr s2); [subst s3; by case_match|]. by rewrite Ed. }
  clearbody s3.
  pose proof (fr_bind c e true s3) as H4. destruct (BindExtentLocked c e true s3) as [r s4].
  apply fr_kept_ret. cbn in H4. rewrite <- H3, <- H4. by case_match.
Qed.

Lemma fr_steal_for c n s acc : fr_kept s (StealExtentFor c n s acc).
Proof.
  unfold StealExtentFor. case_match; [apply fr_steal_locked|by apply fr_kept_ret].
Qed.

Lemma fr_steal_cold c s acc : fr_kept s (StealColdExtentFor c s acc).
Proof.
  unfold StealColdExtentFor. destruct (negb _); [by apply fr_kept_ret|].
  destruct (_ || _); [by apply fr_kept_ret|].
  destruct (pick_extent _ _ _); [|by apply fr_kept_ret].
  apply fr_kept_bind; [apply fr_steal_locked|]. intros a s' b Hs'. apply fr_kept_ret.
  destruct (decide (a = kBound)); exact Hs'.
Qed.

Lemma fr_steal_from d c s acc : fr_kept s (StealFrom d c s acc).
Proof.
  unfold StealFrom. destruct (_ || _); [by apply fr_kept_ret|].
  destruct (pick_extent _ _ _); [|by apply fr_kept_ret].
  apply fr_kept_bind; [apply fr_steal_locked|]. intros a s' b Hs'. by apply fr_kept_ret.
Qed.

Lemma fr_stripe fuel c : ∀ s b s', stripe_bind fuel c s = Some (b, s') → fr s' = fr s.
Proof.
  induction fuel as [|fuel IH]; intros s b s'; cbn [stripe_bind]; (destruct (_ <? _)%nat; [|by intros [= _ <-]]).
  { done. }
  pose proof (fr_bind_free c s) as H. destruct (BindFreeExtent c s) as [[] s1]; cbn in H.
  - intros H1%IH. congruence.
  - by intros [= _ <-].
  - by intros [= _ <-].
Qed.

Lemma fr_put_place fuel c : ∀ s acc, fr_kept s (put_place fuel c s acc).
Proof.
  induction fuel as [|fuel IH]; intros s acc; cbn [put_place]; [done|].
  destruct (stripe_bind _ c s) as [[b s1]|] eqn:Es; cbn [mbind option_bind]; [|done].
  apply fr_stripe in Es. apply (fr_kept_eq _ s1); [done|]. clear Es.
  destruct b; cbn [negb]; [|by apply fr_kept_ret].
  destruct (PopFreeLocked (cls_at s1 c)) as [[p|] cls]; [by apply fr_kept_ret|].
  apply (fr_kept_eq _ (upd_class c (λ _, cls) s1)); [done|]. generalize (upd_class c (λ _, cls) s1).
  clear s1. intros s1. apply fr_kept_bind.
  { destruct (_ <? _); [apply fr_steal_for|by apply fr_kept_ret]. }
  intros [] s2 b2 H2; [by apply (fr_kept_eq _ s2)| |by apply fr_kept_ret].
  apply (fr_kept_eq _ s2); [done|]. apply fr_kept_bind; [apply fr_steal_cold|].
  intros [] s3 b3 H3; [by apply (fr_kept_eq _ s3)| |by apply fr_kept_ret].
  apply (fr_kept_eq _ s3); [done|]. pose proof (fr_evict_one c s3 b3) as H4.
  destruct (EvictOneFrom c s3 b3) as [[ok s4] b4]; cbn in H4.
  apply (fr_kept_eq _ s4); [done|]. destruct ok; [done|].
  apply fr_kept_bind; [apply fr_steal_for|].
  intros [] s5 b5 H5; [by apply (fr_kept_eq _ s5)|by apply fr_kept_ret..].
Qed.

Lemma fr_acquire s : fr (AcquireSlotMetaLocked s).2 = fr s.
Proof. unfold AcquireSlotMetaLocked. by case_match. Qed.

Lemma fr_put_install key len c p s : fr (put_install key len c p s).2 = fr s.
Proof.
  unfold put_install. destruct p as [e sl]. pose proof (fr_acquire s) as H.
  destruct (AcquireSlotMetaLocked s) as [i s1]. cbn in H. destruct (ix_insert _ _ _) as [[] ix]; cbn [negb].
  - cbn. unfold put_account. cbn zeta. autorewrite with fr. rewrite fr_link_resident.
    by autorewrite with fr.
  - cbn. by rewrite <- H.
Qed.

Lemma fr_Put key len s acc : fr_kept s (Put key len s acc).
Proof.
  unfold Put. set (s0 := set_s_activity_seq _ s). assert (H0 : fr s0 = fr s) by done. clearbody s0.
  case_match.
  { case_match; by apply fr_kept_ret. }
  destruct (_ || _ || _); [by apply fr_kept_ret|]. destruct (_ || _); [by apply fr_kept_ret|].
  destruct (_ <=? _)%nat; [by apply fr_kept_ret|]. apply (fr_kept_eq _ s0); [done|].
  apply fr_kept_bind; [apply fr_put_place|]. intros [p|] s1 b H1; [|by apply fr_kept_ret].
  pose proof (fr_put_install key len (ClassForLen s0 (AlignUp len (o_align (s_opt s0)))) p s1) as H2.
  destruct (put_install _ _ _ _ _) as [out s2]. apply fr_kept_ret. cbn in H2. congruence.
Qed.

Lemma fr_pin_slot i s : fr (pin_slot i s) = fr s.
Proof. unfold pin_slot. by case_match. Qed.
Lemma fr_unpin_slot i s : fr (unpin_slot i s) = fr s.
Proof.
  unfold unpin_slot. cbn zeta. destruct (_ =? 0); [|done]. case_match; [|done]. by rewrite fr_free.
Qed.

Lemma fr_Get key s : fr (Get key s).2 = fr s.
Proof. unfold Get. repeat case_match; [done|apply fr_touch|done]. Qed.
Lemma fr_GetAndPin key s : fr (GetAndPin key s).2 = fr s.
Proof. unfold GetAndPin. repeat case_match; [done| |done]. cbn. by rewrite fr_pin_slot, fr_touch. Qed.
Lemma fr_Pin key s : fr (Pin key s).2 = fr s.
Proof. unfold Pin. repeat case_match; [done|apply fr_pin_slot|done]. Qed.
Lemma fr_Unpin key s : fr (Unpin key s).2 = fr s.
Proof. unfold Unpin. repeat case_match; [done|apply fr_unpin_slot|done]. Qed.
Lemma fr_Remove key s : fr (Remove key s).2 = fr s.
Proof. unfold Remove. repeat case_match; [done|apply fr_free|done]. Qed.

Lemma fr_reclaim_loop fuel c target : ∀ count s acc,
  fr (reclaim_loop fuel c target count s acc).1.2 = fr s.
Proof.
  induction fuel as [|fuel IH]; intros count s acc; cbn [reclaim_loop]; [done|].
  destruct (_ <=? _); [done|]. destruct (0 <? _); [done|].
  pose proof (fr_evict_one c s acc) as H. destruct (EvictOneFrom c s acc) as [[[] s1] acc1]; cbn in H |- *; [|done].
  destruct (_ <=? _); [done|]. by rewrite IH.
Qed.

Lemma fr_ReclaimClass c target n s acc : fr (ReclaimClass c target n s acc).1.2 = fr s.
Proof. unfold ReclaimClass. case_match; [done|apply fr_reclaim_loop]. Qed.

Lemma fr_watermark steps target max : ∀ freed s acc,
  fr (watermark_loop steps target max freed s acc).1.2 = fr s.
Proof.
  induction steps as [|steps IH]; intros freed s acc; cbn [watermark_loop]; [done|].
  destruct (_ && _); [|done]. case_match; [|done]. set (s0 := set_s_counters _ s).
  assert (H0 : fr s0 = fr s) by done. clearbody s0.
  destruct (0 <? _); [by rewrite IH|]. destruct (negb _); [by rewrite IH|].
  pose proof (fr_call_watermark (slot_at s0 n) (ext_at s0 (r_extent (m_ref (slot_at s0 n)))) s0) as H1.
  destruct (call_watermark_evict _ _ s0) as [[] s1]; cbn in H1 |- *; [|congruence].
  rewrite IH. unfold count_eviction. rewrite !fr_counters, fr_free. congruence.
Qed.

Lemma fr_EvictCold target max s acc : fr (EvictColdToTarget target max s acc).1.2 = fr s.
Proof. apply fr_watermark. Qed.

(** ** The retention part *)

Lemma rf_touch i s : rf (TouchLocked i s) = rf s.
Proof. exact (f_equal fst (fr_touch i s)). Qed.
Lemma rf_unprotect i s : rf (UnprotectLocked i s) = rf s.
Proof. done. Qed.
Lemma rf_Put key len s acc a s' b : Put key len s acc = Some (a, s', b) → rf s' = rf s.
Proof. intros E. exact (f_equal fst (fr_Put key len s acc a s' b E)). Qed.
Lemma rf_Get key s : rf (Get key s).2 = rf s.
Proof. exact (f_equal fst (fr_Get key s)). Qed.
Lemma rf_GetAndPin key s : rf (GetAndPin key s).2 = rf s.
Proof. exact (f_equal fst (fr_GetAndPin key s)). Qed.
Lemma rf_Pin key s : rf (Pin key s).2 = rf s.
Proof. exact (f_equal fst (fr_Pin key s)). Qed.
Lemma rf_Unpin key s : rf (Unpin key s).2 = rf s.
Proof. exact (f_equal fst (fr_Unpin key s)). Qed.
Lemma rf_Remove key s : rf (Remove key s).2 = rf s.
Proof. exact (f_equal fst (fr_Remove key s)). Qed.
Lemma rf_ReclaimClass c target n s acc : rf (ReclaimClass c target n s acc).1.2 = rf s.
Proof. exact (f_equal fst (fr_ReclaimClass c target n s acc)). Qed.
Lemma rf_steal_from d c s acc a s' b : StealFrom d c s acc = Some (a, s', b) → rf s' = rf s.
Proof. intros E. exact (f_equal fst (fr_steal_from d c s acc a s' b E)). Qed.
Lemma rf_EvictCold target max s acc : rf (EvictColdToTarget target max s acc).1.2 = rf s.
Proof. exact (f_equal fst (fr_EvictCold target max s acc)). Qed.

(** ** A medium without callbacks is told nothing *)

Lemma quiet_Put key len s acc a s' b :
  no_callbacks (s_opt s) → s_opt s' = s_opt s → Put key len s acc = Some (a, s', b) →
  s_cb_log s' = s_cb_log s.
Proof.
  intros (H1 & H2 & H3) Ho E. pose proof (f_equal snd (fr_Put key len s acc a s' b E)) as H.
  unfold fr, quiet_log in H. cbn in H. by rewrite Ho, H1, H2, H3 in H.
Qed.

End frame.
