(* ===== verification/SlabRetain.v ===== *)
(** * Slab allocator: retention

    [Retain], [ExpireRetention] and [ConfigureRetention]: the invariant, the
    budget, and the two bounds on a protection: it never ends before its
    deadline and outlives it by less than ten seconds. *)

From S2P Require Import Prelude KvTypes KeyIndex SlabTypes SlabLattice SlabRing SlabFree SlabOps.
From S2P Require Import SlabInv SlabStruct SlabInstall SlabWf SlabEvict SlabSteal SlabPut SlabAccess.
From S2P Require Import SlabFrame.

Section retain.
Context {IX : Type} {ixo : KeyIndexOps IX} {ixl : KeyIndexLaws IX}.
Notation St := (SlabAllocator IX).
Implicit Types (s : St) (g : Ghost) (k : BlockKey).

(** ** Starting and renewing a protection *)

Definition renewed (eff until : Z) (m : SlotMeta) : SlotMeta :=
  set_m_retain_until (λ _, until) (set_m_retain_ttl_s (λ _, eff) m).

Lemma renewed_in_place eff until : in_place (renewed eff until).
Proof. in_place. Qed.

(** An unprotected resident becomes protected. *)
Lemma protect_wf s g hole i m eff until s' :
  wf s g hole → live_at (data s) i m → m_retain_until m = 0 → 0 < until →
  state_core s' = state_core s → s_slots s' = alter (renewed eff until) i (s_slots s) →
  s_classes s' = alter (set_c_protected_slots (λ n, n + 1)) (r_cls (m_ref m)) (s_classes s) →
  s_extents s' = alter (set_x_protected_slots (λ n, n + 1)) (r_extent (m_ref m)) (s_extents s) →
  t_protected_bytes (s_retention s') = t_protected_bytes (s_retention s) + r_slot_size (m_ref m) →
  t_protected_slots (s_retention s') = t_protected_slots (s_retention s) + 1 →
  wf s' g hole.
Proof.
  intros Hwf Hm Hu Hpos Hcore Hs Hc Hx Hpb Hps.
  assert (Hw : w_prot m = 0) by (unfold w_prot; by rewrite Hu).
  assert (Hwb : w_prot_bytes m = 0) by (unfold w_prot_bytes; by rewrite Hu).
  assert (Hw' : w_prot (renewed eff until m) = 1).
  { unfold w_prot. cbn. destruct (Z.eqb_spec until 0); lia. }
  assert (Hwb' : w_prot_bytes (renewed eff until m) = r_slot_size (m_ref m)).
  { unfold w_prot_bytes, w_size. cbn. destruct (Z.eqb_spec until 0); [lia|done]. }
  assert (Hn : w_pin (renewed eff until m) = w_pin m) by done.
  pose proof (wf_res _ _ _ Hwf _ _ Hm) as [_ _ _ _ Hr _].
  apply (wf_reweigh Hwf Hm (renewed_in_place eff until) Hcore Hs Hc Hx); try done;
    rewrite ?Hw, ?Hw', ?Hwb, ?Hwb', ?Hn; cbn; try lia; intros; lia.
Qed.

(** The deadline of a protected resident moves. *)
Lemma renew_wf s g hole i m eff until s' :
  wf s g hole → live_at (data s) i m → m_retain_until m ≠ 0 → 0 < until →
  state_core s' = state_core s → s_slots s' = alter (renewed eff until) i (s_slots s) →
  s_classes s' = s_classes s → s_extents s' = s_extents s →
  t_protected_bytes (s_retention s') = t_protected_bytes (s_retention s) →
  t_protected_slots (s_retention s') = t_protected_slots (s_retention s) →
  wf s' g hole.
Proof.
  intros Hwf Hm Hu Hpos Hcore Hs Hc Hx Hpb Hps.
  assert (Hw : w_prot (renewed eff until m) = w_prot m).
  { unfold w_prot. cbn. destruct (Z.eqb_spec until 0), (Z.eqb_spec (m_retain_until m) 0); lia. }
  assert (Hwb : w_prot_bytes (renewed eff until m) = w_prot_bytes m).
  { unfold w_prot_bytes. cbn. destruct (Z.eqb_spec until 0), (Z.eqb_spec (m_retain_until m) 0); done || lia. }
  assert (Hn : w_pin (renewed eff until m) = w_pin m) by done.
  pose proof (wf_res _ _ _ Hwf _ _ Hm) as [_ _ _ _ Hr _].
  apply (wf_reweigh Hwf Hm (renewed_in_place eff until) Hcore Hs (fc := λ c, c) (fx := λ x, x));
    rewrite ?list_alter_id; try done; rewrite ?Hw, ?Hwb, ?Hn; cbn; try lia; intros; lia.
Qed.

Lemma upd_ret_wf s g hole f :
  (∀ t, t_protected_bytes (f t) = t_protected_bytes t ∧ t_protected_slots (f t) = t_protected_slots t) →
  wf s g hole → wf (upd_ret f s) g hole.
Proof.
  intros Hf Hwf. apply (wf_same s); try done. unfold state_acct. cbn.
  by rewrite (proj1 (Hf _)), (proj2 (Hf _)).
Qed.

Lemma advance_clock_wf s g hole now : wf s g hole → wf (advance_clock now s) g hole.
Proof. unfold advance_clock. case_match; [by apply upd_ret_wf|done]. Qed.

Lemma count_result_wf s g hole code : wf s g hole → wf (count_result code s) g hole.
Proof. by apply upd_ret_wf. Qed.

(** ** [retain_apply] *)

Definition new_deadline (now eff : Z) (m : SlotMeta) : Z :=
  Z.max (m_retain_until m) (Z.min (now + eff) UINT32_MAX).

(** [meta.retain_persisted_until = meta.retain_until], when persisted. *)
Definition persisted (b : bool) (m : SlotMeta) : SlotMeta :=
  if b then set_m_retain_persisted_until (λ _, m_retain_until m) m else m.

(** The wheel after a deadline has been pushed. *)
Definition pushed (key : BlockKey) (until : Z) (wheel : list (list WheelEntry)) :
    list (list WheelEntry) :=
  alter (λ l, l ++ [mkWheelEntry key until])
    (Z.to_nat ((until / kWheelTickS) mod Z.of_nat (length wheel))) wheel.

Lemma push_wheel_spec key until s :
  ∃ n, PushWheelLocked key until s =
    upd_ret (λ t, set_t_wheel_entries (λ _, n) (set_t_wheel (λ _, pushed key until (t_wheel t)) t)) s.
Proof.
  unfold PushWheelLocked, pushed. destruct (t_wheel (s_retention s)) as [|b w] eqn:Ew.
  - exists (t_wheel_entries (s_retention s)). destruct s as [? ? ? ? ? ? ? ? ? ? ? ? ? ? ? [] ?].
    cbn in *. subst. done.
  - exists (t_wheel_entries (s_retention s) + 1). rewrite <- Ew. done.
Qed.

Definition moved (until : Z) (m : SlotMeta) : bool :=
  negb (until =? m_retain_until m) || (m_retain_until m =? 0).

Lemma retain_state_spec s g i m eff until :
  wf s g None → live_at (data s) i m → 0 < until →
  let s' := retain_state i eff until s in
  wf s' g None ∧ data s' = <[i := renewed eff until m]> (data s) ∧ same_frame s s' ∧
  (t_opt (s_retention s'), t_now_s (s_retention s'), t_wheel_tick (s_retention s')) =
    (t_opt (s_retention s), t_now_s (s_retention s), t_wheel_tick (s_retention s)) ∧
  t_wheel (s_retention s') = (if moved until m then pushed (m_key m) until (t_wheel (s_retention s))
                              else t_wheel (s_retention s)) ∧
  t_protected_bytes (s_retention s') = t_protected_bytes (s_retention s) +
    (if m_retain_until m =? 0 then r_slot_size (m_ref m) else 0) ∧
  s_classes s' = alter (λ cls, if m_retain_until m =? 0
    then set_c_protected_slots (λ n, n + 1) cls else cls) (r_cls (m_ref m)) (s_classes s).
Proof.
  intros Hwf Hm Hpos. pose proof (data_slot_at _ _ _ (proj1 Hm)) as Hat.
  assert (Hr : m_retain_until (slot_at s i) = m_retain_until m ∧ m_ref (slot_at s i) = m_ref m ∧
    m_key (slot_at s i) = m_key m) by (by rewrite <- Hat). destruct Hr as (Hr1 & Hr2 & Hr3).
  unfold retain_state, moved. rewrite Hr1, Hr3.
  pose proof (renewed_in_place eff until) as Hip.
  destruct (Z.eqb_spec (m_retain_until m) 0) as [H0|H0]; cbn [negb]; rewrite ?orb_true_r, ?orb_false_r.
  - destruct (push_wheel_spec (m_key m) until (upd_slot i (set_m_retain_until (λ _, until))
      (upd_slot i (set_m_retain_ttl_s (λ _, eff)) (ProtectLocked i s)))) as [n ->].
    unfold ProtectLocked. rewrite Hr2. set (s' := upd_ret _ _).
    assert (Hsl : s_slots s' = alter (renewed eff until) i (s_slots s)) by (cbn; by rewrite alter_alter).
    split_and!; [|by apply (data_alter s _ _ _ _ (proj1 Hm) Hip)|done..].
    by apply (protect_wf s g None i m eff until).
  - assert (Hpb : ∀ n, n = n + 0) by lia.
    destruct (Z.eqb_spec until (m_retain_until m)) as [He|He]; cbn [negb].
    + assert (Hip2 : in_place (set_m_retain_ttl_s (λ _, eff))) by in_place.
      destruct (wf_upd_slot _ _ _ _ _ _ Hwf Hm Hip2 eq_refl eq_refl eq_refl) as [Hwf' HD'].
      split_and!; [done| |done|done|done|apply Hpb|by rewrite list_alter_id].
      rewrite HD'. f_equal. unfold renewed. subst until. by destruct m.
    + destruct (push_wheel_spec (m_key m) until (upd_slot i (set_m_retain_until (λ _, until))
        (upd_slot i (set_m_retain_ttl_s (λ _, eff)) s))) as [n ->]. set (s' := upd_ret _ _).
      assert (Hsl : s_slots s' = alter (renewed eff until) i (s_slots s)) by (cbn; by rewrite alter_alter).
      split_and!; [|by apply (data_alter s _ _ _ _ (proj1 Hm) Hip)|done|done|done|apply Hpb|].
      * by apply (renew_wf s g None i m eff until).
      * by rewrite list_alter_id.
Qed.

(** The code a granted renewal reports. *)
Definition renewal_code (stored eff until : Z) (m : SlotMeta) : RetainCode :=
  if m_retain_until m =? 0 then kProtectedNew
  else if stored <? eff then kUpgraded
  else if m_retain_until m <? until then kRefreshed
  else kUnchanged.

Lemma retain_apply_spec s g i m stored eff :
  wf s g None → live_at (data s) i m → 0 < eff → 0 <= t_now_s (s_retention s) →
  let until := new_deadline (t_now_s (s_retention s)) eff m in
  ∃ p s', retain_apply i stored eff s =
      (mkRetainOutcome (renewal_code stored eff until m) (m_ref m) until eff p, s') ∧
    wf s' g None ∧ data s' = <[i := persisted p (renewed eff until m)]> (data s) ∧ same_frame s s' ∧
    (t_opt (s_retention s'), t_now_s (s_retention s'), t_wheel_tick (s_retention s')) =
      (t_opt (s_retention s), t_now_s (s_retention s), t_wheel_tick (s_retention s)) ∧
    t_wheel (s_retention s') = (if moved until m then pushed (m_key m) until (t_wheel (s_retention s))
                                else t_wheel (s_retention s)) ∧
    t_protected_bytes (s_retention s') = t_protected_bytes (s_retention s) +
      (if m_retain_until m =? 0 then r_slot_size (m_ref m) else 0).
Proof.
  intros Hwf Hm Heff Hnow until. pose proof (data_slot_at _ _ _ (proj1 Hm)) as Hat.
  assert (Hr : m_retain_until (slot_at s i) = m_retain_until m) by (by rewrite <- Hat).
  assert (Hu : 0 < until) by (unfold until, new_deadline, UINT32_MAX; lia).
  destruct (retain_state_spec _ _ _ _ eff until Hwf Hm Hu) as (Hwf1 & HD1 & Hfr1 & Ht1 & Hw1 & Hp1 & _).
  unfold retain_apply. rewrite Hr, negb_involutive.
  change (Z.max (m_retain_until m) (Z.min (t_now_s (s_retention s) + eff) UINT32_MAX)) with until.
  clearbody until. cbn zeta. change (if m_retain_until m =? 0 then kProtectedNew else _)
    with (renewal_code stored eff until m).
  generalize dependent (retain_state i eff until s). intros s1 Hwf1 HD1 Hfr1 Ht1 Hw1 Hp1.
  set (p := _ || (_ <=? _)). exists p. clearbody p.
  assert (Hlt : (i < length (data s))%nat) by (by eapply lookup_lt_Some, Hm).
  assert (Hm1 : live_at (data s1) i (renewed eff until m)).
  { rewrite HD1. split; [by apply list_lookup_insert_eq|apply Hm]. }
  set (fp := λ m0, set_m_retain_persisted_until (λ _, m_retain_until m0) m0).
  assert (Hip : in_place fp) by in_place.
  set (s2 := if p then upd_slot i fp s1 else s1).
  assert (H2 : wf s2 g None ∧ data s2 = <[i := persisted p (renewed eff until m)]> (data s) ∧
    same_frame s s2 ∧ s_retention s2 = s_retention s1).
  { subst s2. destruct p; [|done].
    destruct (wf_upd_slot _ _ _ _ _ _ Hwf1 Hm1 Hip eq_refl eq_refl eq_refl) as [H2 HD2].
    split_and!; try done. by rewrite HD2, HD1, list_insert_insert_eq. }
  clearbody s2. destruct H2 as (Hwf2 & HD2 & Hfr2 & Hret2).
  assert (Hat2 : strip (slot_at s2 i) = persisted p (renewed eff until m)).
  { apply data_slot_at. rewrite HD2. by apply list_lookup_insert_eq. }
  exists (count_result (renewal_code stored eff until m) s2). split.
  { assert (m_ref (slot_at s2 i) = m_ref m ∧ m_retain_until (slot_at s2 i) = until ∧
      m_retain_ttl_s (slot_at s2 i) = eff) as (-> & -> & ->); [|done].
    apply (f_equal (λ x, (m_ref x, m_retain_until x, m_retain_ttl_s x))) in Hat2.
    destruct p; injection Hat2 as H1 H2 H3; by rewrite H1, H2, H3. }
  split_and!; [by apply count_result_wf|done|done|cbn; by rewrite Hret2..].
Qed.

(** ** [Retain] *)

(** The clock has advanced; options, callbacks and drained ticks are as before. *)
Record clocked (now : Z) s s' : Prop := {
  ck_opt : s_opt s' = s_opt s;
  ck_log : s_cb_log s' = s_cb_log s;
  ck_ropt : t_opt (s_retention s') = t_opt (s_retention s);
  ck_now : t_now_s (s_retention s') = Z.max (t_now_s (s_retention s)) now;
  ck_tick : t_wheel_tick (s_retention s') = t_wheel_tick (s_retention s);
}.

(** The protections are as before. *)
Definition unprotected_change s s' : Prop :=
  t_wheel (s_retention s') = t_wheel (s_retention s) ∧
  t_protected_bytes (s_retention s') = t_protected_bytes (s_retention s).

(** A [kRefresh] counts as a read. *)
Definition read_mark (mode : RetainMode) (seq : Z) (m : SlotMeta) : SlotMeta :=
  match mode with kRefresh => touched_meta seq m | kSet => m end.

(** The TTL to apply, within the configured cap. *)
Definition effective_ttl (o : RetainOptions) (mode : RetainMode) (ttl : Z) (m : SlotMeta) : Z :=
  let stored := Z.min (m_retain_ttl_s m) (ro_max_ttl_s o) in
  match mode with kRefresh => stored | kSet => Z.max stored (Z.min ttl (ro_max_ttl_s o)) end.

(** What [Retain] may answer, and what it does then. *)
Inductive retain_outcome (key : BlockKey) (ttl : Z) (mode : RetainMode) (now : Z) s :
    RetainOutcome → St → Prop :=
| retain_miss s' :
    (∀ m, view s key = Some m → m_remove_pending m = true) →
    unprotected_change s s' → (∀ k, view s' k = view s k) →
    retain_outcome key ttl mode now s (mkRetainOutcome kMiss no_ref 0 0 false) s'
| retain_disabled m s' :
    view s key = Some m → ro_enabled (t_opt (s_retention s)) = false →
    unprotected_change s s' → (∀ k, view s' k = view s k) →
    retain_outcome key ttl mode now s (mkRetainOutcome kHitUnprotected no_ref 0 0 false) s'
| retain_no_ttl m s' :
    view s key = Some m → m_remove_pending m = false →
    effective_ttl (t_opt (s_retention s)) mode ttl m = 0 →
    unprotected_change s s' → Updates s key (read_mark mode (s_activity_seq s + 1) m) s' →
    retain_outcome key ttl mode now s (mkRetainOutcome kHitUnprotected (m_ref m) 0 0 false) s'
| retain_denied m s' :
    view s key = Some m → m_remove_pending m = false → m_retain_until m = 0 →
    unprotected_change s s' → Updates s key (read_mark mode (s_activity_seq s + 1) m) s' →
    retain_outcome key ttl mode now s
      (mkRetainOutcome kDenied (m_ref m) 0 (m_retain_ttl_s m) false) s'
| retain_granted m p code s' :
    let eff := effective_ttl (t_opt (s_retention s)) mode ttl m in
    let until := new_deadline (Z.max (t_now_s (s_retention s)) now) eff m in
    view s key = Some m → m_remove_pending m = false →
    ro_enabled (t_opt (s_retention s)) = true → 0 < eff →
    (m_retain_until m = 0 →
     t_protected_bytes (s_retention s) + r_slot_size (m_ref m) <=
       ro_budget_bytes (t_opt (s_retention s))) →
    t_wheel (s_retention s') = (if moved until m then pushed key until (t_wheel (s_retention s))
                                else t_wheel (s_retention s)) →
    t_protected_bytes (s_retention s') = t_protected_bytes (s_retention s) +
      (if m_retain_until m =? 0 then r_slot_size (m_ref m) else 0) →
    Updates s key (persisted p (renewed eff until (read_mark mode (s_activity_seq s + 1) m))) s' →
    retain_outcome key ttl mode now s (mkRetainOutcome code (m_ref m) until eff p) s'.

Lemma advance_clock_spec s g now :
  wf s g None →
  let s1 := advance_clock now s in
  wf s1 g None ∧ data s1 = data s ∧ clocked now s s1 ∧ unprotected_change s s1 ∧
  s_index s1 = s_index s ∧ s_activity_seq s1 = s_activity_seq s.
Proof.
  intros Hwf s1. split; [by apply advance_clock_wf|]. subst s1. unfold advance_clock.
  destruct (Z.ltb_spec (t_now_s (s_retention s)) now) as [Hlt|Hge];
    (split; [done|]; split; [split; try done; cbn; lia|done]).
Qed.

Lemma count_result_clocked now s s1 code : clocked now s s1 → clocked now s (count_result code s1).
Proof. intros []. by split. Qed.

Lemma touch_unprotected i s :
  t_protected_bytes (s_retention (TouchLocked i s)) = t_protected_bytes (s_retention s).
Proof.
  unfold TouchLocked. set (s1 := touch_flags i s).
  assert (H : ∀ c, s_retention (touch_rings i c s1) = s_retention s).
  { intros c. unfold touch_rings, put_global_ring, put_class_ring.
    destruct (touch_ring RClass i _ _ _) as [[??]?]. by destruct (touch_ring RGlobal i _ _ _) as [[??]?]. }
  specialize (H (r_cls (m_ref (slot_at s1 i)))). generalize dependent (touch_rings i (r_cls (m_ref (slot_at s1 i))) s1).
  intros s2 H. cbn. by rewrite H.
Qed.

(** The read of a [kRefresh], on a state whose clock has advanced. *)
Lemma read_mark_spec mode s s1 g i m now :
  wf s1 g None → live_at (data s1) i m → clocked now s s1 → unprotected_change s s1 →
  s_activity_seq s1 = s_activity_seq s →
  let s2 := match mode with kRefresh => TouchLocked i s1 | kSet => s1 end in
  ∃ g2, wf s2 g2 None ∧ data s2 = <[i := read_mark mode (s_activity_seq s + 1) m]> (data s1) ∧
    clocked now s s2 ∧ unprotected_change s s2 ∧ s_index s2 = s_index s1.
Proof.
  intros Hwf Hm Hck [Hw Hp] Hseq s2. destruct mode; cbn in s2; subst s2; cbn [read_mark].
  - exists g. split_and!; try done. symmetry. apply list_insert_id, Hm.
  - destruct (TouchLocked_spec _ _ _ _ Hwf Hm) as [Hwf2 HD2]. destruct (touch_frame i s1) as [(F1 & F2 & F3) _].
    pose proof (rf_touch i s1) as R1. pose proof (touch_unprotected i s1) as R2.
    rewrite Hseq in HD2. exists (touched i (r_cls (m_ref m)) g). destruct Hck.
    split; [done|]. split; [done|]. clear HD2 Hwf2. generalize dependent (TouchLocked i s1).
    intros s2 F1 F2 F3 R1 R2. injection R1 as R1 R3 R4 R5.
    split; [split; congruence|]. split; [split; congruence|done].
Qed.

Lemma updates_unref s key m m' s' : Updates s key m s' → unref m = unref m' → Updates s key m' s'.
Proof. intros [H1 H2 H3] E. split; [|done|done]. intros k. by rewrite H1, E. Qed.

Lemma updates_from s g s1 s2 g2 i m m' :
  wf s g None → live_at (data s) i m → data s1 = data s → s_index s1 = s_index s →
  wf s2 g2 None → data s2 = <[i := m']> (data s1) → s_index s2 = s_index s1 →
  s_opt s2 = s_opt s → s_cb_log s2 = s_cb_log s → meta_core m' = meta_core m →
  Updates s (m_key m) m' s2.
Proof.
  intros Hwf Hm HD1 Hi1 Hwf2 HD2 Hi2 Ho Hl Hcore. rewrite HD1 in HD2.
  eapply (updates_data s g None s2 g2 None i m m'); try done. split_and!; congruence.
Qed.

(** The state in which the TTL is known: clock advanced, read marked. *)
Lemma retain_prepare s g mode i m now :
  wf s g None → live_at (data s) i m →
  let s1 := advance_clock now s in
  let s2 := match mode with kRefresh => TouchLocked i s1 | kSet => s1 end in
  let m2 := read_mark mode (s_activity_seq s + 1) m in
  ∃ g2, wf s2 g2 None ∧ live_at (data s2) i m2 ∧ data s2 = <[i := m2]> (data s) ∧
    clocked now s s2 ∧ unprotected_change s s2 ∧ s_index s2 = s_index s ∧
    strip (slot_at s2 i) = m2.
Proof.
  intros Hwf Hm s1 s2 m2.
  destruct (advance_clock_spec _ _ now Hwf) as (Hwf1 & HD1 & Hck1 & Hun1 & Hi1 & Ha1).
  fold s1 in Hwf1, HD1, Hck1, Hun1, Hi1, Ha1.
  assert (Hm1 : live_at (data s1) i m) by (by rewrite HD1).
  destruct (read_mark_spec mode s s1 g i m now Hwf1 Hm1 Hck1 Hun1 Ha1) as (g2 & Hwf2 & HD2 & Hck2 & Hun2 & Hi2).
  fold s2 in Hwf2, HD2, Hck2, Hun2, Hi2. fold m2 in HD2. rewrite HD1 in HD2. rewrite Hi1 in Hi2.
  clearbody s2. exists g2. assert (Hlt : (i < length (data s))%nat) by (by eapply lookup_lt_Some, Hm).
  assert (Hm2 : data s2 !! i = Some m2) by (rewrite HD2; by apply list_lookup_insert_eq).
  assert (Hlive : m_live m2 = true) by (destruct Hm; by destruct mode).
  split_and!; try done; [apply Hun2..|by apply data_slot_at].
Qed.

Section retain_found.
Context {key : BlockKey} {ttl : Z} {mode : RetainMode} {now : Z} {s : St} {g : Ghost} {i : nat} {m : SlotMeta}.
Context (Hwf : wf s g None) (Hm : live_at (data s) i m) (Hk : m_key m = key).
Context (Hv : view s key = Some (unref m)) (Hpend : m_remove_pending m = false).
Context (Hen : ro_enabled (t_opt (s_retention s)) = true).
Context (Hnow0 : 0 <= t_now_s (s_retention s)) (Hnow : 0 <= now).
Context (Hmax : 0 <= ro_max_ttl_s (t_opt (s_retention s))) (Httl : 0 <= m_retain_ttl_s m).
Context {s2 : St} {g2 : Ghost}.
Notation m2 := (read_mark mode (s_activity_seq s + 1) m).
Context (Hwf2 : wf s2 g2 None) (Hm2 : live_at (data s2) i m2) (HD2 : data s2 = <[i := m2]> (data s)).
Context (Hck : clocked now s s2) (Hun : unprotected_change s s2) (Hi2 : s_index s2 = s_index s).

Lemma found_updates code :
  WF (count_result code s2) ∧ clocked now s (count_result code s2) ∧
  unprotected_change s (count_result code s2) ∧
  Updates s key (read_mark mode (s_activity_seq s + 1) (unref m)) (count_result code s2).
Proof.
  split; [exists g2; by apply count_result_wf|]. split; [by apply count_result_clocked|].
  split; [done|]. apply (updates_unref _ _ m2); [|by destruct mode, m]. rewrite <- Hk. destruct Hck.
  apply (updates_from s g s _ g2 i m); try done; [by apply count_result_wf|by destruct mode].
Qed.

Lemma found_granted stored :
  let eff := effective_ttl (t_opt (s_retention s)) mode ttl (unref m) in
  0 < eff →
  (m_retain_until m = 0 → t_protected_bytes (s_retention s) + r_slot_size (m_ref m) <=
     ro_budget_bytes (t_opt (s_retention s))) →
  ∃ out s', retain_apply i stored eff s2 = (out, s') ∧ WF s' ∧ clocked now s s' ∧
    retain_outcome key ttl mode now s out s'.
Proof.
  intros eff Heff Hbud. pose proof Hck as [C1 C2 C3 C4 C5]. destruct Hun as [U1 U2].
  destruct (retain_apply_spec _ _ _ _ stored _ Hwf2 Hm2 Heff) as (p & s' & E & Hwf' & HD' & (F1 & F2 & F3) & Ht' & Hw' & Hp').
  { rewrite C4. lia. }
  eexists _, s'. split; [exact E|]. clear E. rewrite C4 in *. rewrite U1, U2 in *.
  assert (Huntil : m_retain_until m2 = m_retain_until m) by (by destruct mode).
  assert (Hkey : m_key m2 = key) by (by destruct mode).
  assert (Href : m_ref m2 = m_ref m) by (by destruct mode).
  injection Ht' as T1 T2 T3. split; [by exists g2|]. split; [split; congruence|].
  assert (Hnd : new_deadline (Z.max (t_now_s (s_retention s)) now) eff m2 =
    new_deadline (Z.max (t_now_s (s_retention s)) now) eff (unref m)).
  { unfold new_deadline. by rewrite Huntil. }
  unfold moved in Hw'. rewrite Hnd, Hkey, Huntil, ?Href in *.
  change (m_ref m) with (m_ref (unref m)). apply retain_granted; try done.
  apply (updates_unref _ _ (persisted p (renewed eff
    (new_deadline (Z.max (t_now_s (s_retention s)) now) eff (unref m)) m2))).
  - rewrite <- Hk. rewrite HD2, list_insert_insert_eq in HD'.
    apply (updates_from s g s _ g2 i m); try congruence; try done.
    by destruct mode, p.
  - by destruct mode, p, m.
Qed.

End retain_found.

Lemma count_result_same code s s1 g now :
  wf s1 g None → data s1 = data s → clocked now s s1 → unprotected_change s s1 →
  s_index s1 = s_index s →
  WF (count_result code s1) ∧ clocked now s (count_result code s1) ∧
  unprotected_change s (count_result code s1) ∧ ∀ k, view (count_result code s1) k = view s k.
Proof.
  intros Hwf HD Hck Hun Hi. split; [exists g; by apply count_result_wf|].
  split; [by apply count_result_clocked|]. split; [done|]. intros k. by apply view_ext.
Qed.

Lemma Retain_spec key ttl mode now s :
  WF s → 0 <= ttl → 0 <= now → 0 <= t_now_s (s_retention s) →
  0 <= ro_max_ttl_s (t_opt (s_retention s)) →
  (∀ m, view s key = Some m → 0 <= m_retain_ttl_s m) →
  ∃ out s', Retain key ttl mode now s = (out, s') ∧ WF s' ∧ clocked now s s' ∧
    retain_outcome key ttl mode now s out s'.
Proof.
  intros [g Hwf] Httl Hnow Hnow0 Hmax Hts. unfold Retain. pose proof (find_view _ _ _ key Hwf) as Hv.
  destruct (advance_clock_spec _ _ now Hwf) as (Hwf1 & HD1 & Hck1 & Hun1 & Hi1 & Ha1).
  pose proof (count_result_same) as Hsame.
  specialize (Hsame kMiss s _ g now Hwf1 HD1 Hck1 Hun1 Hi1) as Hmiss.
  specialize (Hsame kHitUnprotected s _ g now Hwf1 HD1 Hck1 Hun1 Hi1) as Hhit. clear Hsame.
  cbv zeta. rewrite Hi1. destruct (ix_find key (s_index s)) as [i|].
  2:{ destruct Hmiss as (H1 & H2 & H3 & H4). eexists _, _. split_and!; [done|done|done|].
      apply retain_miss; [|done|done]. intros m Hvm. congruence. }
  destruct Hv as (m & Hm & Hk & Hat & Hv).
  assert (Hat1 : strip (slot_at (advance_clock now s) i) = m).
  { apply data_slot_at. rewrite HD1. apply Hm. }
  assert (Hp1 : m_remove_pending (slot_at (advance_clock now s) i) = m_remove_pending m)
    by (by rewrite <- Hat1).
  rewrite Hp1, (ck_ropt _ _ _ Hck1). destruct (m_remove_pending m) eqn:Epend.
  { destruct Hmiss as (H1 & H2 & H3 & H4). eexists _, _. split_and!; [done|done|done|].
    apply retain_miss; [|done|done]. intros m' Hvm. rewrite Hv in Hvm. apply (inj Some) in Hvm as <-. done. }
  destruct (ro_enabled (t_opt (s_retention s))) eqn:Een; cbn [negb].
  2:{ destruct Hhit as (H1 & H2 & H3 & H4). eexists _, _. split_and!; [done|done|done|].
      by eapply retain_disabled. }
  clear Hmiss Hhit Hat1 Hp1.
  destruct (retain_prepare s g mode i m now Hwf Hm) as (g2 & Hwf2 & Hm2 & HD2 & Hck2 & Hun2 & Hi2 & Hat2).
  cbn zeta in Hwf2, Hm2, HD2, Hck2, Hun2, Hi2, Hat2.
  generalize dependent (match mode with kSet => advance_clock now s | kRefresh => TouchLocked i (advance_clock now s) end).
  intros s2 Hwf2 Hm2 HD2 Hck2 Hun2 Hi2 Hat2. rewrite (ck_ropt _ _ _ Hck2), (proj2 Hun2).
  apply (f_equal (λ x, (m_retain_ttl_s x, m_retain_until x, m_ref x))) in Hat2.
  injection Hat2 as A1 A2 A3. rewrite A1, A2, A3.
  assert (M1 : m_retain_ttl_s (read_mark mode (s_activity_seq s + 1) m) = m_retain_ttl_s m) by (by destruct mode).
  assert (M2 : m_retain_until (read_mark mode (s_activity_seq s + 1) m) = m_retain_until m) by (by destruct mode).
  assert (M3 : m_ref (read_mark mode (s_activity_seq s + 1) m) = m_ref m) by (by destruct mode).
  rewrite M1, M2, M3. set (stored := Z.min (m_retain_ttl_s m) (ro_max_ttl_s (t_opt (s_retention s)))).
  set (eff := match mode with kSet => _ | kRefresh => stored end).
  assert (Heff : eff = effective_ttl (t_opt (s_retention s)) mode ttl (unref m)) by (by destruct mode).
  specialize (Hts _ Hv). change (m_retain_ttl_s (unref m)) with (m_retain_ttl_s m) in Hts.
  assert (Heff0 : 0 <= eff) by (subst eff stored; destruct mode; lia). clearbody eff.
  assert (Hupd : ∀ code, WF (count_result code s2) ∧ clocked now s (count_result code s2) ∧
    unprotected_change s (count_result code s2) ∧
    Updates s key (read_mark mode (s_activity_seq s + 1) (unref m)) (count_result code s2))
    by (intros code; by eapply found_updates).
  destruct (Z.eqb_spec eff 0) as [He0|He0].
  { destruct (Hupd kHitUnprotected) as (H1 & H2 & H3 & H4). eexists _, _.
    split; [done|]. split; [done|]. split; [done|].
    apply (retain_no_ttl _ _ _ _ _ (unref m)); try done. by rewrite <- Heff. }
  destruct ((m_retain_until m =? 0) && _) eqn:Eden.
  { destruct (Hupd kDenied) as (H1 & H2 & H3 & H4). eexists _, _.
    split; [done|]. split; [done|]. split; [done|]. apply andb_true_iff in Eden as [E0%Z.eqb_eq _].
    by apply (retain_denied _ _ _ _ _ (unref m)). }
  rewrite Heff. eapply (found_granted (key := key) (now := now) Hwf Hm Hk Hv Epend Een); try done; [lia|].
  intros H0. rewrite H0 in Eden. cbn in Eden. apply orb_false_iff in Eden as [Eb%Z.ltb_ge _]. done.
Qed.

(** ** Expiry *)

(** Some protections whose deadline is not after [now] have ended. *)
Definition Releases (now : Z) s s' : Prop :=
  ∀ k, view s' k = view s k ∨
    ∃ m, view s k = Some m ∧ 0 < m_retain_until m <= now ∧
      view s' k = Some (unref (set_m_retain_until (λ _, 0) m)).

Lemma Releases_refl now s : Releases now s s.
Proof. intros k. by left. Qed.

Lemma Releases_trans now s1 s2 s3 : Releases now s1 s2 → Releases now s2 s3 → Releases now s1 s3.
Proof.
  intros H12 H23 k. destruct (H23 k) as [E3|(m & Hm & Hu & E3)].
  - rewrite E3. apply H12.
  - destruct (H12 k) as [E2|(m1 & Hm1 & Hu1 & E2)].
    + right. exists m. by rewrite <- E2.
    + rewrite Hm in E2. apply (inj Some) in E2 as ->. cbn in Hu. lia.
Qed.

(** A protection that survives is an old one. *)
Lemma Releases_protected now s s' k m :
  Releases now s s' → view s' k = Some m → m_retain_until m ≠ 0 → view s k = Some m.
Proof.
  intros H Hm Hu. destruct (H k) as [E|(m0 & _ & _ & E)]; rewrite E in Hm; [done|].
  apply (inj Some) in Hm as <-. done.
Qed.

Definition ret_same s s' : Prop :=
  rf s' = rf s ∧ s_opt s' = s_opt s ∧ s_cb_log s' = s_cb_log s.

Lemma ret_same_trans s1 s2 s3 : ret_same s1 s2 → ret_same s2 s3 → ret_same s1 s3.
Proof. unfold ret_same. intros (-> & -> & ->). done. Qed.

Lemma expire_one_wf s g i m :
  wf s g None → live_at (data s) i m → m_retain_until m ≠ 0 →
  let s1 := upd_slot i (set_m_referenced (λ _, false)) (UnprotectLocked i s) in
  wf s1 g None ∧ ret_same s s1 ∧
  ∀ k, view s1 k = if decide (k = m_key m) then Some (unref (set_m_retain_until (λ _, 0) m)) else view s k.
Proof.
  intros Hwf Hm Hu. destruct (unprotect_wf _ _ _ _ _ Hwf Hm Hu) as [Hwf1 HD1].
  assert (Hfr : same_frame s (UnprotectLocked i s)) by done.
  pose proof (rf_unprotect i s) as Hrf. generalize dependent (UnprotectLocked i s).
  intros s1 Hwf1 HD1 Hfr Hrf.
  assert (Hm1 : live_at (data s1) i (set_m_retain_until (λ _, 0) m)).
  { rewrite HD1. split; [|apply Hm]. apply list_lookup_insert_eq. by eapply lookup_lt_Some, Hm. }
  destruct (set_referenced_wf _ _ _ _ _ false Hwf1 Hm1) as [Hwf2 Hev].
  split; [done|]. split; [split_and!; [done|apply Hfr..]|]. intros k.
  rewrite (ev_view _ _ _ Hev), decide_False by (by intros ?%elem_of_nil).
  by apply (up_view _ _ _ _ (updates_data _ _ _ _ _ _ _ _ _ Hwf Hwf1 Hm HD1 eq_refl Hfr)).
Qed.

Lemma expire_entry_spec now entry keep cleared s :
  WF s → 0 < we_until entry →
  ∃ cleared' s', expire_entry now entry (keep, cleared, s) =
      (if now <? we_until entry then keep ++ [entry] else keep, cleared', s') ∧
    WF s' ∧ ret_same s s' ∧ Releases now s s' ∧
    (we_until entry <= now → ∀ m, view s' (we_key entry) = Some m → m_retain_until m ≠ we_until entry).
Proof.
  intros [g Hwf] Hpos. unfold expire_entry. destruct (Z.ltb_spec now (we_until entry)) as [Hlt|Hle].
  { exists cleared, s. split; [done|]. split; [by exists g|]. split; [done|].
    split; [apply Releases_refl|lia]. }
  set (s0 := upd_ret _ s).
  assert (H0 : wf s0 g None ∧ ret_same s s0 ∧ ∀ k, view s0 k = view s k).
  { split; [by apply upd_ret_wf|]. split; [done|]. intros k. by apply view_ext. }
  clearbody s0. destruct H0 as (Hwf0 & Hr0 & Hv0).
  assert (Hrel0 : Releases now s s0) by (intros k; left; apply Hv0).
  pose proof (find_view _ _ _ (we_key entry) Hwf0) as Hf.
  destruct (ix_find (we_key entry) (s_index s0)) as [i|].
  2:{ exists cleared, s0. split; [done|]. split; [by exists g|]. split; [done|]. split; [done|].
      intros _ m Hm. congruence. }
  destruct Hf as (m & Hm & Hk & Hat & Hv).
  assert (m_live (slot_at s0 i) = true) as ->.
  { destruct Hm as [_ Hl]. by rewrite <- Hat in Hl. }
  assert (m_retain_until (slot_at s0 i) = m_retain_until m) as -> by (by rewrite <- Hat). cbn [negb orb].
  destruct (Z.eqb_spec (m_retain_until m) (we_until entry)) as [He|He]; cbn [negb].
  2:{ exists cleared, s0. split; [done|]. split; [by exists g|]. split; [done|]. split; [done|].
      intros _ m' Hm'. rewrite Hv in Hm'. apply (inj Some) in Hm' as <-. done. }
  destruct (expire_one_wf _ _ _ _ Hwf0 Hm ltac:(lia)) as (Hwf1 & Hr1 & Hv1).
  generalize dependent (upd_slot i (set_m_referenced (λ _, false)) (UnprotectLocked i s0)).
  intros s1 Hwf1 Hr1 Hv1. exists (S cleared), (upd_ret (set_t_expired (λ n, n + 1)) s1).
  assert (Hv2 : ∀ k, view (upd_ret (set_t_expired (λ n, n + 1)) s1) k = view s1 k).
  { intros k. by apply view_ext. }
  split; [done|]. split; [exists g; by apply upd_ret_wf|]. split.
  { apply (ret_same_trans s s0); [done|]. by apply (ret_same_trans s0 s1). }
  rewrite Hk in Hv1. split.
  - intros k. rewrite Hv2, Hv1, Hv0. case_decide as Hkk; [|by left]. subst k. right. exists (unref m).
    rewrite <- Hv0. split; [done|]. split; [cbn; lia|done].
  - intros _ m'. rewrite Hv2, Hv1, decide_True by done. intros Hm'. apply (inj Some) in Hm' as <-. cbn. lia.
Qed.

(** A whole bucket. *)
Lemma expire_bucket_spec now l : ∀ keep cleared s,
  WF s → (∀ e, e ∈ l → 0 < we_until e) →
  ∃ cleared' s', foldl (λ acc entry, expire_entry now entry acc) (keep, cleared, s) l =
      (keep ++ filter (λ e, now < we_until e) l, cleared', s') ∧
    WF s' ∧ ret_same s s' ∧ Releases now s s' ∧
    (∀ e m, e ∈ l → we_until e <= now → view s' (we_key e) = Some m → m_retain_until m ≠ we_until e).
Proof.
  induction l as [|e l IH]; intros keep cleared s Hwf Hpos; cbn [foldl].
  { exists cleared, s. rewrite app_nil_r. split; [done|]. split; [done|]. split; [done|].
    split; [apply Releases_refl|]. by intros e m ?%elem_of_nil. }
  destruct (expire_entry_spec now e keep cleared s Hwf) as (cl1 & s1 & -> & Hwf1 & Hr1 & Hrel1 & Hdone1).
  { apply Hpos. by left. }
  destruct (IH (if now <? we_until e then keep ++ [e] else keep) cl1 s1 Hwf1)
    as (cl2 & s2 & -> & Hwf2 & Hr2 & Hrel2 & Hdone2).
  { intros e' He'. apply Hpos. by right. }
  exists cl2, s2. split.
  { do 2 f_equal. rewrite filter_cons. destruct (Z.ltb_spec now (we_until e)).
    - rewrite decide_True by lia. by rewrite <- app_assoc.
    - by rewrite decide_False by lia. }
  split; [done|]. split; [by eapply ret_same_trans|]. split; [by eapply Releases_trans|].
  intros e' m [->|He']%elem_of_cons Hle Hm; [|by eapply Hdone2].
  intros Heq. assert (0 < we_until e) by (apply Hpos; by left).
  apply (Hdone1 Hle m); [|done]. apply (Releases_protected _ _ _ _ _ Hrel2 Hm). lia.
Qed.

(** The bucket of a deadline. *)
Definition wheel_bucket (wheel : list (list WheelEntry)) (until : Z) : nat :=
  Z.to_nat ((until / kWheelTickS) mod Z.of_nat (length wheel)).

Definition wheel_pos (wheel : list (list WheelEntry)) : Prop :=
  ∀ (b : nat) l e, wheel !! b = Some l → e ∈ l → 0 < we_until e.

(** The protection of [k] until [until] is on the wheel. *)
Definition on_wheel (wheel : list (list WheelEntry)) (k : BlockKey) (until : Z) : Prop :=
  ∃ l, wheel !! wheel_bucket wheel until = Some l ∧ mkWheelEntry k until ∈ l.

(** While ticks up to [target] are drained: protections due by then are in a
    bucket still to be visited. *)
Definition due_ok (target : Z) s : Prop :=
  let t := s_retention s in
  ∀ k m, view s k = Some m → m_retain_until m ≠ 0 →
    on_wheel (t_wheel t) k (m_retain_until m) ∧
    (m_retain_until m / kWheelTickS <= target →
     ∃ j, t_wheel_tick t < j <= target ∧
       j mod Z.of_nat (length (t_wheel t)) =
       (m_retain_until m / kWheelTickS) mod Z.of_nat (length (t_wheel t))).

Lemma bucket_lt (w : list (list WheelEntry)) z :
  w ≠ [] → (Z.to_nat (z mod Z.of_nat (length w)) < length w)%nat.
Proof.
  intros Hw. destruct w as [|a w]; [done|]. cbn [length].
  pose proof (Z.mod_pos_bound z (Z.of_nat (S (length w)))). lia.
Qed.

(** One tick. *)
Lemma expire_tick_spec target now cleared s :
  WF s → t_wheel (s_retention s) ≠ [] → wheel_pos (t_wheel (s_retention s)) →
  t_wheel_tick (s_retention s) < target → (target + 1) * kWheelTickS <= now → due_ok target s →
  let s0 := upd_ret (set_t_wheel_tick (λ n, n + 1)) s in
  let t := s_retention s0 in
  let b := Z.to_nat (t_wheel_tick t mod Z.of_nat (length (t_wheel t))) in
  ∃ keep cleared' s1,
    foldl (λ acc entry, expire_entry now entry acc) ([], cleared, s0) (t_wheel t !!! b) =
      (keep, cleared', s1) ∧
    let s2 := upd_ret (set_t_wheel (<[b := keep]>)) s1 in
    WF s2 ∧ Releases now s s2 ∧ s_opt s2 = s_opt s ∧ s_cb_log s2 = s_cb_log s ∧
    (t_opt (s_retention s2), t_now_s (s_retention s2)) = (t_opt (s_retention s), t_now_s (s_retention s)) ∧
    t_wheel_tick (s_retention s2) = t_wheel_tick (s_retention s) + 1 ∧
    length (t_wheel (s_retention s2)) = length (t_wheel (s_retention s)) ∧
    wheel_pos (t_wheel (s_retention s2)) ∧ due_ok target s2.
Proof.
  intros [g Hwf] Hne Hpos Htick Hnow Hdue s0 t b. cbn in t.
  assert (Hb : (b < length (t_wheel (s_retention s)))%nat) by (by apply bucket_lt).
  destruct (lookup_lt_is_Some_2 _ _ Hb) as [l Hl].
  assert (Hv0 : ∀ k, view s0 k = view s k) by (intros k; by apply view_ext).
  destruct (expire_bucket_spec now l [] cleared s0) as (cl1 & s1 & E & [g1 Hwf1] & (Hrf & Ho & Hlog) & Hrel & Hdone).
  { exists g. by apply upd_ret_wf. } { intros e He. by eapply Hpos. }
  exists (filter (λ e, now < we_until e) l), cl1, s1. split.
  { rewrite (list_lookup_total_correct _ _ _ (Hl : t_wheel t !! b = Some l)). exact E. }
  injection Hrf as R1 R2 R3 R4. intros s2.
  assert (Hv2 : ∀ k, view s2 k = view s1 k) by (intros k; by apply view_ext).
  assert (Hrel2 : Releases now s s2).
  { intros k. rewrite Hv2. destruct (Hrel k) as [H|H]; rewrite Hv0 in H; auto. }
  split; [exists g1; by apply upd_ret_wf|]. split; [done|]. split; [done|]. split; [done|].
  split; [cbn; by rewrite R1, R2|]. split; [done|].
  assert (Hw2 : t_wheel (s_retention s2) = <[b := filter (λ e, now < we_until e) l]> (t_wheel (s_retention s))).
  { cbn. by rewrite R3. }
  split; [by rewrite Hw2, length_insert|]. split.
  { rewrite Hw2. intros b' l' e [(<- & <- & _)|[_ Hl']]%list_lookup_insert_Some He; [|by eapply Hpos].
    apply list_elem_of_filter in He as [_ He]. by eapply Hpos. }
  intros k m Hk Hu. pose proof (Releases_protected _ _ _ _ _ Hrel2 Hk Hu) as Hks.
  destruct (Hdue k m Hks Hu) as [(lk & Hlk & Hin) Hj].
  assert (Hlate : wheel_bucket (t_wheel (s_retention s)) (m_retain_until m) = b → now < m_retain_until m).
  { intros Hbb. rewrite Hbb, Hl in Hlk. injection Hlk as <-.
    destruct (Z.lt_ge_cases now (m_retain_until m)) as [|Hge]; [done|exfalso].
    rewrite Hv2 in Hk. by apply (Hdone _ m Hin Hge Hk). }
  assert (Htk : t_wheel_tick (s_retention s2) = t_wheel_tick (s_retention s) + 1) by done.
  unfold on_wheel, wheel_bucket. rewrite Hw2, length_insert, Htk. fold (wheel_bucket (t_wheel (s_retention s)) (m_retain_until m)).
  split.
  - destruct (decide (wheel_bucket (t_wheel (s_retention s)) (m_retain_until m) = b)) as [Hbb|Hbb].
    + exists (filter (λ e, now < we_until e) l). rewrite Hbb, list_lookup_insert_eq by done.
      split; [done|]. rewrite Hbb, Hl in Hlk. injection Hlk as <-.
      apply list_elem_of_filter. split; [|done]. cbn. by apply Hlate.
    + exists lk. by rewrite list_lookup_insert_ne.
  - intros Hte. destruct (Hj Hte) as (j & Hjr & Hjm). exists j. split; [|done].
    destruct (decide (j = t_wheel_tick (s_retention s) + 1)) as [Heq|]; [exfalso|lia].
    assert (Hnl : now < m_retain_until m). { apply Hlate. unfold wheel_bucket. rewrite <- Hjm, Heq. done. }
    pose proof (Z.mul_succ_div_gt (m_retain_until m) kWheelTickS ltac:(done)). unfold kWheelTickS in *. lia.
Qed.

(** What draining the ticks up to [target] achieves. *)
Record expired (target now : Z) s s' : Prop := {
  xp_wf : WF s';
  xp_rel : Releases now s s';
  xp_opt : s_opt s' = s_opt s;
  xp_log : s_cb_log s' = s_cb_log s;
  xp_ropt : t_opt (s_retention s') = t_opt (s_retention s);
  xp_now : t_now_s (s_retention s') = t_now_s (s_retention s);
  xp_tick : t_wheel_tick (s_retention s') = target;
  xp_len : length (t_wheel (s_retention s')) = length (t_wheel (s_retention s));
  xp_pos : wheel_pos (t_wheel (s_retention s'));
  xp_entry k m : view s' k = Some m → m_retain_until m ≠ 0 →
    on_wheel (t_wheel (s_retention s')) k (m_retain_until m) ∧
    target < m_retain_until m / kWheelTickS;
}.

Lemma expire_ticks_spec target now n : ∀ cleared s,
  WF s → t_wheel (s_retention s) ≠ [] → wheel_pos (t_wheel (s_retention s)) →
  t_wheel_tick (s_retention s) + Z.of_nat n = target → (target + 1) * kWheelTickS <= now →
  due_ok target s →
  ∃ cleared' s', expire_ticks n now cleared s = (cleared', s') ∧ expired target now s s'.
Proof.
  induction n as [|n IH]; intros cleared s Hwf Hne Hpos Htick Hnow Hdue; cbn [expire_ticks].
  { exists cleared, s. split; [done|]. split; try done; [apply Releases_refl|lia|].
    intros k m Hk Hu. destruct (Hdue k m Hk Hu) as [Hon Hj]. split; [done|].
    destruct (Z.lt_ge_cases target (m_retain_until m / kWheelTickS)) as [|Hge]; [done|].
    destruct (Hj Hge) as (j & Hjr & _). lia. }
  destruct (expire_tick_spec target now cleared s Hwf Hne Hpos ltac:(lia) Hnow Hdue)
    as (keep & cl1 & s1 & -> & Hwf2 & Hrel2 & Ho2 & Hl2 & Hr2 & Ht2 & Hlen2 & Hpos2 & Hdue2).
  set (s2 := upd_ret _ s1) in *. clearbody s2. injection Hr2 as Hr2 Hn2.
  destruct (IH cl1 s2 Hwf2) as (cl3 & s3 & E3 & []); try done.
  { destruct (t_wheel (s_retention s2)), (t_wheel (s_retention s)); simplify_eq/=; done. }
  { lia. }
  exists cl3, s3. split; [exact E3|]. split; try done; try congruence; by eapply Releases_trans.
Qed.

(** ** The retention invariant *)

(** The clock is past its first ten seconds whenever retention is enabled, and
    every protection has its wheel entry in a bucket not yet drained. *)
Record ret_ok s : Prop := {
  rt_max : 0 <= ro_max_ttl_s (t_opt (s_retention s));
  rt_now : 0 <= t_now_s (s_retention s) <= UINT32_MAX;
  rt_tick : 0 <= t_wheel_tick (s_retention s);
  rt_clock : ro_enabled (t_opt (s_retention s)) = true →
    kWheelTickS <= t_now_s (s_retention s) ∧
    t_wheel_tick (s_retention s) < t_now_s (s_retention s) / kWheelTickS;
  rt_wheel : ro_enabled (t_opt (s_retention s)) = true → t_wheel (s_retention s) ≠ [];
  rt_pos : wheel_pos (t_wheel (s_retention s));
  rt_ttl k m : view s k = Some m → 0 <= m_retain_ttl_s m;
  rt_entry k m : view s k = Some m → m_retain_until m ≠ 0 →
    ro_enabled (t_opt (s_retention s)) = true ∧
    on_wheel (t_wheel (s_retention s)) k (m_retain_until m) ∧
    t_wheel_tick (s_retention s) < m_retain_until m / kWheelTickS;
}.

(** Operations that neither grant nor move protections. *)
Lemma ret_ok_mono s s' :
  ret_ok s → rf s' = rf s →
  (∀ k m', view s' k = Some m' →
     (m_retain_until m' = 0 ∧ m_retain_ttl_s m' = 0) ∨
     ∃ m, view s k = Some m ∧ m_retain_until m' = m_retain_until m ∧
       m_retain_ttl_s m' = m_retain_ttl_s m) →
  ret_ok s'.
Proof.
  intros [R1 R2 R3 R4 R5 R6 R7 R8] [= H1 H2 H3 H4] Hv. split; rewrite ?H1, ?H2, ?H3, ?H4; try done.
  - intros k m' Hm'. destruct (Hv k m' Hm') as [[_ ->]|(m & Hm & _ & ->)]; [lia|by eapply R7].
  - intros k m' Hm' Hu. destruct (Hv k m' Hm') as [[? _]|(m & Hm & Heq & _)]; [done|].
    rewrite Heq in *. by apply R8.
Qed.

Lemma ret_ok_Evicts s ev s' : ret_ok s → rf s' = rf s → Evicts s ev s' → ret_ok s'.
Proof.
  intros Hr Hrf Hev. apply (ret_ok_mono s); [done|done|]. intros k m'.
  rewrite (ev_view _ _ _ Hev). case_decide; [done|]. intros Hm. right. by exists m'.
Qed.

Lemma ret_ok_Updates s key m m' s' :
  ret_ok s → rf s' = rf s → view s key = Some m → Updates s key m' s' →
  m_retain_until m' = m_retain_until m → m_retain_ttl_s m' = m_retain_ttl_s m → ret_ok s'.
Proof.
  intros Hr Hrf Hm Hup Hu Ht. apply (ret_ok_mono s); [done|done|]. intros k y.
  rewrite (up_view _ _ _ _ Hup). case_decide as Hk; [subst k|intros Hy; right; by exists y].
  intros Hy. apply (inj Some) in Hy as <-. right. by exists m.
Qed.

(** ** [ExpireRetention] *)

(** Every residue is met within one lap. *)
Lemma lap_mod (size target te : Z) :
  0 < size → ∃ j, target - size < j <= target ∧ j mod size = te mod size.
Proof.
  intros Hs. exists (target - (target - te) mod size).
  pose proof (Z.mod_pos_bound (target - te) size Hs). split; [lia|].
  rewrite Zminus_mod_idemp_r. f_equal. lia.
Qed.

(** Draining starts at the last drained tick, or one lap before the target. *)
Lemma due_ok_start s target s2 :
  ret_ok s → t_wheel (s_retention s) ≠ [] →
  s2 = (if Z.of_nat (length (t_wheel (s_retention s))) <? target - t_wheel_tick (s_retention s)
        then upd_ret (set_t_wheel_tick (λ _, target - Z.of_nat (length (t_wheel (s_retention s))))) s
        else s) →
  due_ok target s2.
Proof.
  intros Hr Hne ->. assert (Hsz : 0 < Z.of_nat (length (t_wheel (s_retention s)))).
  { destruct (t_wheel (s_retention s)); [done|]. cbn. lia. }
  destruct (Z.ltb_spec (Z.of_nat (length (t_wheel (s_retention s)))) (target - t_wheel_tick (s_retention s))).
  - set (s2 := upd_ret _ s). assert (Hv : ∀ k, view s2 k = view s k) by (intros k; by apply view_ext).
    intros k m. rewrite Hv. intros Hk Hu. destruct (rt_entry _ Hr k m Hk Hu) as (_ & Hon & _).
    split; [done|]. intros _. cbn. by apply lap_mod.
  - intros k m Hk Hu. destruct (rt_entry _ Hr k m Hk Hu) as (_ & Hon & Ht). split; [done|].
    intros Hle. eexists. split; [split; [exact Ht|done]|done].
Qed.

Lemma no_wheel_unprotected s k m :
  ret_ok s → t_wheel (s_retention s) = [] → view s k = Some m → m_retain_until m = 0.
Proof.
  intros Hr Hw Hk. destruct (decide (m_retain_until m = 0)) as [|Hu]; [done|].
  destruct (rt_entry _ Hr k m Hk Hu) as (_ & (l & Hl & _) & _). by rewrite Hw in Hl.
Qed.

Lemma due_bound now te until :
  until / kWheelTickS = te → now / kWheelTickS - 1 < te → now < until + kWheelTickS.
Proof.
  intros <- H. pose proof (Z.mul_div_le until kWheelTickS ltac:(done)).
  pose proof (Z.mul_succ_div_gt now kWheelTickS ltac:(done)). unfold kWheelTickS in *. lia.
Qed.

Lemma ExpireRetention_spec now s :
  WF s → ret_ok s → is_u32 now →
  ∃ n s', ExpireRetention now s = (n, s') ∧ WF s' ∧ ret_ok s' ∧
    t_now_s (s_retention s') = Z.max (t_now_s (s_retention s)) now ∧
    s_opt s' = s_opt s ∧ s_cb_log s' = s_cb_log s ∧ t_opt (s_retention s') = t_opt (s_retention s) ∧
    Releases (t_now_s (s_retention s')) s s' ∧
    (∀ k m, view s' k = Some m → m_retain_until m ≠ 0 →
       t_now_s (s_retention s') < m_retain_until m + kWheelTickS).
Proof.
  intros [g Hwf] Hr Hu32. unfold ExpireRetention.
  destruct (advance_clock_spec _ _ now Hwf) as (Hwf1 & HD1 & [C1 C2 C3 C4 C5] & [U1 U2] & Hi1 & _).
  generalize dependent (advance_clock now s). intros s1 Hwf1 HD1 C1 C2 C3 C4 C5 U1 U2 Hi1.
  assert (Hv1 : ∀ k, view s1 k = view s k) by (intros k; by apply view_ext).
  assert (Hrel1 : Releases (t_now_s (s_retention s1)) s s1) by (intros k; left; apply Hv1).
  destruct Hr as [R1 R2 R3 R4 R5 R6 R7 R8].
  assert (Hr1 : ret_ok s1).
  { split; rewrite ?C3, ?C4, ?C5, ?U1; try done; [unfold is_u32, UINT32_MAX in *; lia| | |].
    - intros [? ?]%R4. split; [lia|]. eapply Z.lt_le_trans; [done|]. apply Z.div_le_mono; [done|lia].
    - intros k m. rewrite Hv1. apply R7.
    - intros k m. rewrite Hv1. apply R8. }
  destruct (decide (t_wheel (s_retention s1) = [])) as [Hw|Hw].
  { rewrite Hw. exists 0%nat, s1. split_and!; try done; [by exists g|].
    intros k m Hk []. by eapply no_wheel_unprotected. }
  set (target := if _ =? 0 then 0 else _).
  assert (Hwm : ∀ {A} (a b : A), match t_wheel (s_retention s1) with [] => a | _ => b end = b)
    by (intros A a b; by destruct (t_wheel (s_retention s1))). rewrite Hwm. clear Hwm.
  assert (Hlate : ∀ k m, view s1 k = Some m → m_retain_until m ≠ 0 →
    target = t_now_s (s_retention s1) / kWheelTickS - 1).
  { intros k m Hk Hu. destruct (rt_entry _ Hr1 k m Hk Hu) as [He _].
    destruct (rt_clock _ Hr1 He) as [Hc _]. subst target.
    destruct (Z.eqb_spec (t_now_s (s_retention s1) / kWheelTickS) 0) as [E0|]; [|done].
    pose proof (Z.div_le_mono _ _ kWheelTickS ltac:(done) Hc) as H1. rewrite E0 in H1. done. }
  destruct (Z.leb_spec target (t_wheel_tick (s_retention s1))) as [Hle|Hgt].
  { exists 0%nat, s1. split_and!; try done; [by exists g|].
    intros k m Hk Hu. destruct (rt_entry _ Hr1 k m Hk Hu) as (_ & _ & Ht).
    eapply due_bound; [done|]. rewrite <- (Hlate k m Hk Hu). lia. }
  assert (Htgt : target = t_now_s (s_retention s1) / kWheelTickS - 1).
  { pose proof (rt_tick _ Hr1). revert Hgt. subst target. destruct (Z.eqb_spec (t_now_s (s_retention s1) / kWheelTickS) 0); lia. }
  clearbody target. set (s2 := if Z.of_nat _ <? _ then _ else s1).
  pose proof (due_ok_start s1 target s2 Hr1 Hw eq_refl) as Hdue.
  assert (H2 : wf s2 g None ∧ (∀ k, view s2 k = view s1 k) ∧ s_opt s2 = s_opt s1 ∧ s_cb_log s2 = s_cb_log s1 ∧
    t_opt (s_retention s2) = t_opt (s_retention s1) ∧ t_now_s (s_retention s2) = t_now_s (s_retention s1) ∧
    t_wheel (s_retention s2) = t_wheel (s_retention s1) ∧ t_wheel_tick (s_retention s2) < target).
  { assert (Hsz : 0 < Z.of_nat (length (t_wheel (s_retention s1)))) by (destruct (t_wheel (s_retention s1)); cbn; [done|lia]).
    subst s2. case_match; [|done]. split; [by apply upd_ret_wf|].
    split; [intros k; by apply view_ext|]. split_and!; try done. cbn. lia. }
  clearbody s2. destruct H2 as (Hwf2 & Hv2 & O2 & L2 & T2 & N2 & W2 & K2).
  destruct (expire_ticks_spec target (t_now_s (s_retention s1)) (Z.to_nat (target - t_wheel_tick (s_retention s2)))
    0 s2) as (n & s3 & E3 & [X1 X2 X3 X4 X5 X6 X7 X8 X9 X10]).
  { by exists g. } { by rewrite W2. } { rewrite W2. apply Hr1. } { lia. }
  { rewrite Htgt. pose proof (Z.mul_div_le (t_now_s (s_retention s1)) kWheelTickS ltac:(done)). unfold kWheelTickS in *. lia. }
  { done. }
  assert (Hrel3 : Releases (t_now_s (s_retention s1)) s s3).
  { intros k. specialize (X2 k). by rewrite Hv2, Hv1 in X2. }
  exists n, s3. split; [exact E3|]. split; [done|]. split.
  - assert (Hne3 : t_wheel (s_retention s3) ≠ []).
    { intros Hn. rewrite Hn, W2 in X8. by destruct (t_wheel (s_retention s1)). }
    assert (Hold : ∀ k m, view s3 k = Some m → m_retain_until m ≠ 0 → view s1 k = Some m).
    { intros k m Hk Hu. rewrite <- Hv2. by eapply Releases_protected. }
    destruct Hr1 as [Q1 Q2 Q3 Q4 Q5 Q6 Q7 Q8]. split; rewrite ?X5, ?X6, ?X7, ?T2, ?N2; try done; [lia|..].
    + intros [? ?]%Q4. split; [done|]. lia.
    + intros k m Hk. destruct (X2 k) as [E|(m0 & Hm0 & _ & E)]; rewrite E in Hk.
      * rewrite Hv2 in Hk. by eapply Q7.
      * apply (inj Some) in Hk as <-. rewrite Hv2 in Hm0. exact (Q7 _ _ Hm0).
    + intros k m Hk Hu. destruct (X10 k m Hk Hu) as [Hon Ht]. split_and!; try done.
      by apply (Q8 k m (Hold k m Hk Hu) Hu).
  - rewrite X6, N2. split; [congruence|]. split; [congruence|]. split; [congruence|]. split; [congruence|]. split; [done|].
    intros k m Hk Hu. destruct (X10 k m Hk Hu) as [_ Ht]. eapply due_bound; [done|]. lia.
Qed.

(** ** The invariant under the retention operations *)

(** The bucket does not depend on what the buckets hold. *)
Lemma on_wheel_pushed w k u k' u' : on_wheel w k u → on_wheel (pushed k' u' w) k u.
Proof.
  intros (l & Hl & Hin). unfold on_wheel, wheel_bucket, pushed in *. rewrite length_alter.
  destruct (decide (Z.to_nat ((u / kWheelTickS) mod Z.of_nat (length w)) =
    Z.to_nat ((u' / kWheelTickS) mod Z.of_nat (length w)))) as [E|E].
  - exists (l ++ [mkWheelEntry k' u']). rewrite <- E, list_lookup_alter_eq, Hl. set_solver.
  - exists l. by rewrite list_lookup_alter_ne.
Qed.

Lemma on_wheel_new w k u : w ≠ [] → on_wheel (pushed k u w) k u.
Proof.
  intros Hw. unfold on_wheel, wheel_bucket, pushed. rewrite length_alter.
  destruct (lookup_lt_is_Some_2 _ _ (bucket_lt w (u / kWheelTickS) Hw)) as [l Hl].
  exists (l ++ [mkWheelEntry k u]). rewrite list_lookup_alter_eq, Hl. set_solver.
Qed.

Lemma wheel_pos_pushed w k u : 0 < u → wheel_pos w → wheel_pos (pushed k u w).
Proof.
  intros Hu Hw b l e. unfold pushed. intros [(-> & l0 & Hl0 & ->)|(Hne & Hl)]%alter_Some He.
  - apply elem_of_app in He as [He|He%list_elem_of_singleton]; [by eapply Hw|by subst].
  - by eapply Hw.
Qed.

Lemma clocked_ret_ok now s s' :
  ret_ok s → is_u32 now → clocked now s s' → t_wheel (s_retention s') = t_wheel (s_retention s) →
  (∀ k m', view s' k = Some m' → ∃ m, view s k = Some m ∧
     m_retain_until m' = m_retain_until m ∧ m_retain_ttl_s m' = m_retain_ttl_s m) →
  ret_ok s'.
Proof.
  intros [R1 R2 R3 R4 R5 R6 R7 R8] Hn [C1 C2 C3 C4 C5] Hw Hv.
  split; rewrite ?C3, ?C4, ?C5, ?Hw; try done.
  - unfold is_u32, UINT32_MAX in *. lia.
  - intros [? ?]%R4. split; [lia|]. eapply Z.lt_le_trans; [done|]. apply Z.div_le_mono; [done|lia].
  - intros k m' (m & Hm & _ & ->)%Hv. by eapply R7.
  - intros k m' Hm' Hu. destruct (Hv _ _ Hm') as (m & Hm & Heq & _). rewrite Heq in *. by apply R8.
Qed.

Lemma deadline_tick now eff m tick :
  0 < eff → 0 <= now <= UINT32_MAX → tick < now / kWheelTickS →
  0 < new_deadline now eff m ∧ tick < new_deadline now eff m / kWheelTickS.
Proof.
  intros He Hn Ht. unfold new_deadline.
  assert (now <= Z.min (now + eff) UINT32_MAX) by lia.
  split; [unfold UINT32_MAX in *; lia|]. eapply Z.lt_le_trans; [exact Ht|].
  apply Z.div_le_mono; [done|lia].
Qed.

Lemma Retain_ret_ok key ttl mode now s out s' :
  ret_ok s → is_u32 now → clocked now s s' → retain_outcome key ttl mode now s out s' → ret_ok s'.
Proof.
  intros Hr Hn Hck Ho.
  assert (Hupd : ∀ m seq, view s key = Some m → unprotected_change s s' →
    Updates s key (read_mark mode seq m) s' → ret_ok s').
  { intros m seq Hm [Hw _] Hup. apply (clocked_ret_ok now s); try done. intros k m'.
    rewrite (up_view _ _ _ _ Hup). case_decide as Hk; [subst k|intros Hy; by exists m'].
    intros Hy. apply (inj Some) in Hy as <-. exists m. by destruct mode. }
  destruct Ho as [s' _ [Hw _] Hv|m s' _ _ [Hw _] Hv|m s' Hm _ _ Hun Hup|m s' Hm _ _ Hun Hup|
    m p code s' eff until Hm Hp Hen Heff _ Hw _ Hup].
  1, 2: apply (clocked_ret_ok now s); try done; intros k m'; rewrite Hv; by exists m'.
  1, 2: by eapply Hupd.
  clear Hupd. destruct Hr as [R1 R2 R3 R4 R5 R6 R7 R8]. pose proof Hck as [C1 C2 C3 C4 C5].
  destruct (R4 Hen) as [Hc1 Hc2].
  assert (Hclk : t_wheel_tick (s_retention s) < Z.max (t_now_s (s_retention s)) now / kWheelTickS).
  { eapply Z.lt_le_trans; [exact Hc2|]. apply Z.div_le_mono; [done|lia]. }
  destruct (deadline_tick (Z.max (t_now_s (s_retention s)) now) eff m (t_wheel_tick (s_retention s)) Heff)
    as [Hpos Htick]; [unfold is_u32, UINT32_MAX in *; lia|done|]. fold until in Hpos, Htick.
  set (m' := persisted p _) in Hup.
  assert (Hm' : m_retain_until m' = until ∧ m_retain_ttl_s m' = eff) by (by subst m'; destruct p).
  destruct Hm' as [Hu' Ht']. clearbody m'.
  assert (Hkeep : ∀ k u, on_wheel (t_wheel (s_retention s)) k u → on_wheel (t_wheel (s_retention s')) k u).
  { intros k u. rewrite Hw. case_match; [by apply on_wheel_pushed|done]. }
  split; rewrite ?C3, ?C4, ?C5; try done.
  - unfold is_u32, UINT32_MAX in *. lia.
  - intros _. split; [lia|done].
  - intros _. rewrite Hw. case_match; [|by apply R5]. unfold pushed. intros Hnil.
    apply (f_equal length) in Hnil. rewrite length_alter in Hnil. specialize (R5 Hen).
    by destruct (t_wheel (s_retention s)).
  - rewrite Hw. case_match; [by apply wheel_pos_pushed|done].
  - intros k y. rewrite (up_view _ _ _ _ Hup). case_decide; [|by apply R7].
    intros Hy. apply (inj Some) in Hy as <-. change (m_retain_ttl_s (unref m')) with (m_retain_ttl_s m'). lia.
  - intros k y. rewrite (up_view _ _ _ _ Hup). case_decide as Hk.
    + intros Hy _. apply (inj Some) in Hy as <-. subst k.
      change (m_retain_until (unref m')) with (m_retain_until m'). rewrite Hu'.
      split; [done|]. split; [|done]. destruct (moved until m) eqn:Emv.
      * rewrite Hw. apply on_wheel_new, R5, Hen.
      * apply orb_false_iff in Emv as [E1%negb_false_iff%Z.eqb_eq E2%Z.eqb_neq].
        rewrite E1. apply Hkeep. by apply (R8 key m).
    + intros Hy Hu. destruct (R8 k y Hy Hu) as (H1 & H2 & H3). split_and!; [done|by apply Hkeep|done].
Qed.

Lemma ConfigureRetention_spec o now s :
  WF s → is_u32 now → kWheelTickS <= now → 0 <= ro_max_ttl_s o →
  (∀ k m, view s k = Some m → m_retain_until m = 0 ∧ 0 <= m_retain_ttl_s m) →
  let s' := ConfigureRetention o now s in
  WF s' ∧ ret_ok s' ∧ ∀ k, view s' k = view s k.
Proof.
  intros [g Hwf] Hn Hclk Hmax Hv s'.
  assert (Hv' : ∀ k, view s' k = view s k) by (intros k; by apply view_ext).
  split; [exists g; by apply upd_ret_wf|]. split; [|done].
  pose proof (Z.div_le_mono _ _ kWheelTickS ltac:(done) Hclk) as Hd.
  change (kWheelTickS / kWheelTickS) with 1 in Hd.
  split; cbn; try done.
  - unfold is_u32, UINT32_MAX in *. lia.
  - destruct (Z.eqb_spec (now / kWheelTickS) 0); lia.
  - intros _. split; [done|]. destruct (Z.eqb_spec (now / kWheelTickS) 0); lia.
  - intros ->. pose proof (Z.div_pos (ro_max_ttl_s o) kWheelTickS Hmax ltac:(done)).
    destruct (Z.to_nat _) eqn:E; [lia|done].
  - intros b l e [-> _]%lookup_replicate He. by apply elem_of_nil in He.
  - intros k m. rewrite Hv'. apply Hv.
  - intros k m. rewrite Hv'. intros Hm Hu. by destruct (Hv k m Hm).
Qed.

End retain.
