(* ===== verification/SlabRestore.v ===== *)
(** * Slab allocator: RestoreBulk

    The bulk restore of a recovered index: a batch is accepted exactly when
    its entries fit the allocator and one another, an accepted batch is
    installed in full, and a rejected one changes nothing. *)

From stdpp Require Import sorting.
From S2P Require Import Prelude KvTypes KeyIndex SlabTypes SlabLattice SlabRing SlabFree SlabOps.
From S2P Require Import SlabInv SlabStruct SlabInstall SlabWf SlabEvict SlabSteal SlabPut.
From S2P Require Import SlabAccess SlabReclaim SlabFrame SlabRetain.

(** ** The duplicate check *)

#[local] Instance key_le_trans : Transitive key_le.
Proof. intros a b c. unfold key_le. repeat case_decide; try lia; congruence. Qed.

#[local] Instance key_le_total : Total key_le.
Proof. intros a b. unfold key_le. repeat case_decide; try lia; congruence. Qed.

Lemma key_le_antisym a b : key_le a b → key_le b a → a = b.
Proof.
  unfold key_le. repeat case_decide; try lia; try congruence.
  intros. destruct a, b; simpl in *; f_equal; lia.
Qed.

Lemma adjacent_find_sorted l : StronglySorted key_le l → adjacent_find l = false ↔ NoDup l.
Proof.
  induction 1 as [|a l Hl IH Ha]; [split; [constructor|done]|].
  destruct l as [|b l]; [split; [intros _; apply NoDup_singleton|done]|].
  change (key_eqb a b || adjacent_find (b :: l) = false ↔ NoDup (a :: b :: l)).
  rewrite orb_false_iff, IH, (NoDup_cons a). f_equiv.
  destruct (key_eqb a b) eqn:E; [apply key_eqb_spec in E as ->; split; [done|set_solver]|].
  assert (Hne : a ≠ b) by (intros Heq%key_eqb_spec; congruence). split; [|done].
  intros _ [->|Hin]%elem_of_cons; [done|]. apply Hne, key_le_antisym.
  - by apply Forall_cons in Ha as [? _].
  - apply StronglySorted_inv in Hl as [_ Hb]. rewrite Forall_forall in Hb. by apply Hb.
Qed.

Lemma duplicate_keys l : adjacent_find (merge_sort key_le l) = false ↔ NoDup l.
Proof.
  rewrite adjacent_find_sorted; [by rewrite merge_sort_Permutation|].
  apply (StronglySorted_merge_sort key_le).
Qed.

Lemma sorted_unique (l : list Z) i j x :
  StronglySorted Z.lt l → l !! i = Some x → l !! j = Some x → i = j.
Proof.
  intros Hs. revert i j. induction Hs as [|a l Hl IH Ha]; intros [|i] [|j] Hi Hj;
    simplify_eq/=; try done; [..|f_equal; by apply IH];
    rewrite Forall_lookup in Ha; first [apply Ha in Hi|apply Ha in Hj]; lia.
Qed.

Section restore.
Context {IX : Type} {ixo : KeyIndexOps IX} {ixl : KeyIndexLaws IX}.
Notation St := (SlabAllocator IX).
Implicit Types (s : St) (g : Ghost) (k : BlockKey) (en : RestoreEntry).

(** ** Entries that fit *)

Definition class_of_entry s en : nat :=
  class_for_exact_size (class_lattice (s_opt s)) (re_slot_size en).

(** The entry names a slot of a class of the lattice, in an extent that is
    unbound or of that class, where no resident is; and its key is new. *)
Record fits s en : Prop := {
  ft_class : ∃ cl, class_lattice (s_opt s) !! class_of_entry s en = Some cl ∧
    c_slot_size cl = re_slot_size en ∧ Z.of_nat (re_slot en) < c_slots_per_extent cl;
  ft_value : re_value_bytes en <= re_slot_size en;
  ft_fresh : view s (re_key en) = None;
  ft_extent : xcls s !! re_extent en = Some None ∨
    xcls s !! re_extent en = Some (Some (class_of_entry s en));
  ft_slot k m : view s k = Some m → r_extent (m_ref m) = re_extent en → r_slot (m_ref m) ≠ re_slot en;
}.

(** Two entries of one batch do not collide. *)
Definition apart (a b : RestoreEntry) : Prop :=
  placement_of a ≠ placement_of b ∧ (re_extent a = re_extent b → re_slot_size a = re_slot_size b).

Record batch_ok s (l : list RestoreEntry) : Prop := {
  bo_fits : Forall (fits s) l;
  bo_keys : NoDup (re_key <$> l);
  bo_apart : ForallOrdPairs apart l;
}.

(** The unsigned fields of an entry. *)
Definition entry_nonneg en : Prop :=
  0 <= re_slot_size en ∧ 0 <= re_value_bytes en ∧ 0 <= re_retain_ttl_s en.

Lemma class_of_entry_eq s g hole en :
  wf s g hole → ClassForExactSize s (re_slot_size en) = class_of_entry s en.
Proof.
  intros Hwf. apply class_for_exact_size_ext.
  pose proof (f_equal (fmap fst) (wf_geom _ _ _ Hwf)) as Hg. by rewrite <- !list_fmap_compose in Hg.
Qed.

Lemma fits_class s g hole en :
  wf s g hole → fits s en →
  ∃ cls, s_classes s !! class_of_entry s en = Some cls ∧ c_slot_size cls = re_slot_size en ∧
    Z.of_nat (re_slot en) < c_slots_per_extent cls.
Proof.
  intros Hwf Hf. destruct (ft_class _ _ Hf) as (cl & Hcl & Hsz & Hlt).
  pose proof (eq_sym (wf_geom _ _ _ Hwf)) as Hg.
  destruct (fmap_lookup_eq _ _ _ _ _ Hg Hcl) as (cls & Hc & [= H1 H2]).
  exists cls. split; [done|]. split; congruence.
Qed.

(** A slot of a bound extent is on the free list unless a resident has it. *)
Lemma slot_free_iff s g e c cls sl :
  wf s g None → xcls s !! e = Some (Some c) → s_classes s !! c = Some cls →
  sl ∈ free_of cls e ↔ Z.of_nat sl < c_slots_per_extent cls ∧
    ∀ k m, view s k = Some m → r_extent (m_ref m) = e → r_slot (m_ref m) ≠ sl.
Proof.
  intros Hwf He Hc. apply xcls_lookup in He as (x & Hx & Hxc).
  pose proof (wf_ext _ _ _ Hwf _ _ Hx) as Hok. unfold ext_ok in Hok. rewrite Hxc in Hok.
  destruct Hok as (cls0 & Hc0 & Hb). assert (cls0 = cls) as -> by congruence.
  pose proof (eb_slots _ _ _ _ _ _ Hb) as Hp. simpl in Hp. rewrite app_nil_r in Hp.
  assert (Hin : sl ∈ free_of cls e ∨ sl ∈ slot_of (data s) <$> g_ext g e ↔
    Z.of_nat sl < c_slots_per_extent cls).
  { rewrite <- elem_of_app, Hp, elem_of_seq. lia. }
  assert (Hnd : NoDup (free_of cls e ++ (slot_of (data s) <$> g_ext g e))).
  { rewrite Hp. apply NoDup_seq. }
  apply NoDup_app in Hnd as (_ & Hdis & _).
  assert (Hres : sl ∈ slot_of (data s) <$> g_ext g e ↔
    ∃ k m, view s k = Some m ∧ r_extent (m_ref m) = e ∧ r_slot (m_ref m) = sl).
  { rewrite list_elem_of_fmap. split.
    - intros (i & -> & (m & Hm & Hme)%(mb_ext _ _ (wf_members _ _ _ Hwf))).
      exists (m_key m), (unref m). split_and!; [|done|].
      + apply (view_Some _ _ _ _ _ Hwf). by exists i, m.
      + unfold slot_of. by rewrite (list_lookup_total_correct _ _ _ (proj1 Hm)).
    - intros (k & m & (i & m0 & Hm & _ & ->)%(view_Some _ _ _ _ _ Hwf) & He & Hs).
      exists i. split; [|apply (mb_ext _ _ (wf_members _ _ _ Hwf)); by exists m0].
      unfold slot_of. by rewrite (list_lookup_total_correct _ _ _ (proj1 Hm)). }
  split.
  - intros Hf. split; [apply Hin; by left|]. intros k m Hm He Hs.
    apply (Hdis sl Hf), Hres. by exists k, m.
  - intros [[?|(k & m & Hm & He & Hs)%Hres]%Hin Hno]; [done|]. by edestruct Hno.
Qed.

(** ** Validation *)

Lemma class_size_canonical s en cl :
  opts_ok (s_opt s) → class_lattice (s_opt s) !! class_of_entry s en = Some cl →
  c_slot_size cl = re_slot_size en →
  CanonicalSlotSize (s_opt s) (re_slot_size en) = re_slot_size en.
Proof.
  intros Hok Hcl <-. destruct (class_lattice_geometry _ Hok _ _ Hcl) as (Hsz & _).
  destruct (CanonicalSlotSize_spec _ Hok _ Hsz) as (_ & Hle & Hmin).
  apply Z.le_antisymm; [|done]. apply Hmin; [|done]. apply (class_lattice_spec _ Hok).
  apply list_elem_of_fmap. exists cl. split; [done|]. by eapply list_elem_of_lookup_2.
Qed.

Definition scanned en (scan : RestoreScan) : RestoreScan :=
  mkRestoreScan (rs_keys scan ++ [re_key en]) ({[placement_of en]} ∪ rs_placements scan)
    (<[re_extent en := re_slot_size en]> (rs_extent_sizes scan)).

(** What the batch so far demands of the next entry. *)
Definition scan_ok en (scan : RestoreScan) : Prop :=
  placement_of en ∉ rs_placements scan ∧
  ∀ z, rs_extent_sizes scan !! re_extent en = Some z → z = re_slot_size en.

Lemma ix_find_view s k : is_Some (ix_find k (s_index s)) ↔ view s k ≠ None.
Proof. rewrite view_None. symmetry. apply not_eq_None_Some. Qed.

(** The guards of [restore_check] that do not look at the batch. *)
Lemma restore_guard s g en :
  wf s g None → 0 <= re_slot_size en →
  ((re_slot_size en =? 0) || (length (s_extents s) <=? re_extent en)%nat
      || (o_extent_bytes (s_opt s) <? re_slot_size en)
      || (re_slot_size en <? re_value_bytes en)
      || negb (CanonicalSlotSize (s_opt s) (re_slot_size en) =? re_slot_size en)
      || (ClassForExactSize s (re_slot_size en) =? length (s_classes s))%nat
      || (o_extent_bytes (s_opt s) / re_slot_size en <=? Z.of_nat (re_slot en))
      || bool_decide (is_Some (ix_find (re_key en) (s_index s)))) = false ↔
  (re_extent en < length (s_extents s))%nat ∧ re_value_bytes en <= re_slot_size en ∧
  view s (re_key en) = None ∧
  ∃ cl, class_lattice (s_opt s) !! class_of_entry s en = Some cl ∧
    c_slot_size cl = re_slot_size en ∧ Z.of_nat (re_slot en) < c_slots_per_extent cl.
Proof.
  intros Hwf Hpos. pose proof (wf_opt _ _ _ Hwf) as Hok.
  rewrite (class_of_entry_eq _ _ _ _ Hwf).
  assert (Hlen : length (s_classes s) = length (class_lattice (s_opt s))).
  { pose proof (f_equal length (wf_geom _ _ _ Hwf)) as E. by rewrite !length_fmap in E. }
  rewrite Hlen, !orb_false_iff, negb_false_iff, bool_decide_eq_false, ix_find_view.
  pose proof (class_for_exact_size_le (class_lattice (s_opt s)) (re_slot_size en)) as Hle.
  fold (class_of_entry s en) in Hle. pose proof (max_aligned_spec _ Hok) as (_ & HM & _). split.
  - intros (((((((H1 & H2) & H3) & H4) & H5) & H6) & H7) & H8). breflect.
    apply Nat.eqb_neq in H6. apply Nat.leb_gt in H2. split_and!; [done|lia|by apply dec_stable|].
    destruct (class_for_exact_size_lookup (class_lattice (s_opt s)) (re_slot_size en)
      (class_of_entry s en) eq_refl) as (cl & Hcl & Hsz); [lia|].
    destruct (class_lattice_geometry _ Hok _ _ Hcl) as (_ & Hspe & _).
    exists cl. split_and!; [done|done|]. rewrite Hspe, Hsz. lia.
  - intros (H1 & H2 & H3 & cl & Hcl & Hsz & Hsl).
    destruct (class_lattice_geometry _ Hok _ _ Hcl) as (? & Hspe & _).
    rewrite Hspe, Hsz in Hsl. apply lookup_lt_Some in Hcl as Hlt.
    rewrite (class_size_canonical _ _ _ Hok Hcl Hsz), Z.eqb_refl, H3.
    split_and!; try done; try (apply Nat.leb_gt; lia); try (apply Nat.eqb_neq; lia);
      try (apply Z.eqb_neq; lia); try (apply Z.ltb_ge; lia); try (apply Z.leb_gt; lia). tauto.
Qed.

Lemma restore_check_spec s g en scan :
  wf s g None → 0 <= re_slot_size en →
  match restore_check s en scan with
  | None => ¬ (fits s en ∧ scan_ok en scan)
  | Some scan' => fits s en ∧ scan_ok en scan ∧ scan' = scanned en scan
  end.
Proof.
  intros Hwf Hpos. unfold restore_check.
  pose proof (restore_guard _ _ _ Hwf Hpos) as Hg. set (guard := _ || _) in *.
  destruct guard.
  { intros [Hf _]. enough (true = false) by done. apply Hg.
    destruct Hf as [Hcl Hv Hfr Hx _]. split_and!; try done.
    unfold xcls in Hx. rewrite !list_lookup_fmap in Hx.
    destruct (s_extents s !! re_extent en) eqn:E; [by eapply lookup_lt_Some|naive_solver]. }
  destruct (proj1 Hg eq_refl) as (Hlt & Hval & Hfresh & Hcl). clear Hg.
  case_bool_decide as Hpl; [by intros [_ [? _]]|].
  destruct (decide (default (re_slot_size en) (rs_extent_sizes scan !! re_extent en) =
    re_slot_size en)) as [Hsz|Hsz].
  2:{ rewrite bool_decide_true by done. intros [_ [_ Hz]]. apply Hsz.
      destruct (rs_extent_sizes scan !! re_extent en) as [z|]; [by apply Hz|done]. }
  rewrite (bool_decide_false (_ ≠ _)) by tauto.
  assert (Hscan : scan_ok en scan).
  { split; [done|]. intros z Hz. by rewrite Hz in Hsz. }
  destruct (lookup_lt_is_Some_2 _ _ Hlt) as [x Hx]. rewrite (ext_at_eq _ _ _ Hx).
  assert (Hxe : xcls s !! re_extent en = Some (x_cls x)) by (apply xcls_lookup; by exists x).
  destruct (x_cls x) as [c|] eqn:Exc.
  2:{ split_and!; [|done|done].
      split; [done|done|done|by left|]. intros k m (i & m0 & Hm & _ & ->)%(view_Some _ _ _ _ _ Hwf) He _.
      pose proof (rs_extent _ _ _ (wf_res _ _ _ Hwf _ _ Hm)) as Hr.
      change (r_extent (m_ref m0) = re_extent en) in He. rewrite He in Hr. congruence. }
  pose proof (wf_ext _ _ _ Hwf _ _ Hx) as Hok. unfold ext_ok in Hok. rewrite Exc in Hok.
  destruct Hok as (cls & Hc & _). rewrite (cls_at_eq _ _ _ Hc).
  assert (Hce : c_slot_size cls = re_slot_size en ↔ c = class_of_entry s en).
  { destruct (fmap_lookup_eq _ _ _ _ _ (wf_geom _ _ _ Hwf) Hc) as (cl & Hcl' & [= -> _]).
    destruct Hcl as (cl0 & Hcl0 & <- & _). split; [|intros ->; congruence]. intros Heq.
    destruct (class_lattice_spec _ (wf_opt _ _ _ Hwf)) as (_ & Hss & _).
    eapply (sorted_unique _ _ _ _ Hss); rewrite list_lookup_fmap, ?Hcl', ?Hcl0; [done|].
    simpl. congruence. }
  destruct (Z.eqb_spec (c_slot_size cls) (re_slot_size en)) as [Heq|Hne]; cbn [negb].
  2:{ intros [[_ _ _ [He|He] _] _]; [congruence|].
      apply Hne, Hce. congruence. }
  pose proof (proj1 Hce Heq) as Hcc. clear Hce.
  pose proof (slot_free_iff _ _ _ _ _ (re_slot en) Hwf Hxe Hc) as Hfree.
  case_bool_decide as Hin.
  - apply Hfree in Hin as [_ Hno]. split_and!; [|done|done].
    split; [done|done|done| |done]. right. congruence.
  - intros [[(cl & Hcl' & _ & Hsl) _ _ _ Hno] _]. apply Hin, Hfree.
    split; [|done]. rewrite <- Hcc in Hcl'.
    destruct (fmap_lookup_eq _ _ _ _ _ (wf_geom _ _ _ Hwf) Hc) as (cl1 & Hcl1 & [= _ ->]). congruence.
Qed.

Lemma scan_ok_scanned a b scan :
  scan_ok a scan → scan_ok b (scanned a scan) ↔ apart a b ∧ scan_ok b scan.
Proof.
  intros [Ha1 Ha2]. unfold scan_ok, apart, scanned. simpl. rewrite not_elem_of_union, not_elem_of_singleton.
  split.
  - intros [[H1 H2] H3]. split_and!; [done| |done|].
    + intros He. apply (H3 (re_slot_size a)). by rewrite He, lookup_insert_eq.
    + intros z Hz. destruct (decide (re_extent a = re_extent b)) as [He|He].
      * rewrite (Ha2 z); [|by rewrite He]. apply H3. by rewrite He, lookup_insert_eq.
      * apply H3. by rewrite lookup_insert_ne.
  - intros [[H1 H2] [H3 H4]]. split; [done|]. intros z.
    rewrite lookup_insert_Some. intros [[He <-]|[_ Hz]]; auto.
Qed.

Lemma restore_validate_spec s g l : ∀ scan,
  wf s g None → Forall entry_nonneg l →
  let valid := Forall (fits s) l ∧ Forall (λ en, scan_ok en scan) l ∧ ForallOrdPairs apart l in
  match restore_validate s l scan with
  | None => ¬ valid
  | Some scan' => valid ∧ rs_keys scan' = rs_keys scan ++ (re_key <$> l)
  end.
Proof.
  induction l as [|en l IH]; intros scan Hwf Hu; simpl.
  { rewrite app_nil_r. split_and!; constructor. }
  apply Forall_cons in Hu as [[Hpos _] Hu].
  pose proof (restore_check_spec s g en scan Hwf Hpos) as Hck.
  destruct (restore_check s en scan) as [scan1|]; simpl.
  2:{ intros (Hf & Hs & _). apply Hck. by apply Forall_cons in Hf as [? _], Hs as [? _]. }
  destruct Hck as (Hf & Hs & ->). specialize (IH (scanned en scan) Hwf Hu). cbn zeta in IH.
  assert (Hiff : Forall (λ b, scan_ok b (scanned en scan)) l ↔
    Forall (apart en) l ∧ Forall (λ b, scan_ok b scan) l).
  { rewrite <- Forall_and. apply Forall_iff. intros b. by apply scan_ok_scanned. }
  destruct (restore_validate s l (scanned en scan)) as [scan'|].
  - destruct IH as [(H1 & [H2 H3]%Hiff & H4) ->]. split; [|by simpl; rewrite <- app_assoc].
    split_and!; by constructor.
  - intros (H1 & H2 & H3). apply IH. inversion H3; subst.
    apply Forall_cons in H1 as [_ H1], H2 as [_ H2]. rewrite Hiff. done.
Qed.

(** ** Installing one entry *)

Lemma restore_bind_spec s g en :
  wf s g None → fits s en →
  let c := class_of_entry s en in
  ∃ s1, restore_bind en c s = (true, s1) ∧ wf s1 g None ∧ data s1 = data s ∧
    s_index s1 = s_index s ∧ s_opt s1 = s_opt s ∧ s_cb_log s1 = s_cb_log s ∧
    s_retention s1 = s_retention s ∧ xcls s1 = <[re_extent en := Some c]> (xcls s).
Proof.
  intros Hwf Hf c. unfold restore_bind.
  destruct (fits_class _ _ _ _ Hwf Hf) as (cls & Hc & _). fold c in Hc.
  destruct (ft_extent _ _ Hf) as [He|He]; fold c in He; pose proof He as (x & Hx & Hxc)%xcls_lookup;
    rewrite (ext_at_eq _ _ _ Hx), Hxc.
  2:{ exists s. split_and!; try done. symmetry. by apply list_insert_id. }
  destruct (BindExtentLocked c (re_extent en) true s) as [r s1] eqn:E.
  destruct (bind_spec _ _ _ _ _ _ _ _ Hwf E)
    as [(_ & _ & [?|?])|[(? & _)|(-> & s0 & cls0 & cls' & [[_ ->]|[? _]] & Hc0 & _ & -> & _)]]; try done.
  { apply lookup_lt_Some in Hc. lia. }
  rewrite bool_decide_true by done. eexists. split_and!; [done| |done..|].
  - destruct (bind_prepared _ _ c (re_extent en) Hwf) as (s' & E' & Hwf' & _); [by eapply lookup_lt_Some|done|].
    rewrite E in E'. by injection E' as <-.
  - unfold xcls. simpl. by rewrite list_fmap_insert.
Qed.

Lemma restore_account_fields en c s cls x :
  s_classes s !! c = Some cls → s_extents s !! re_extent en = Some x →
  let s' := restore_account en c s in
  ∃ cls' x', s_slots s' = s_slots s ∧
    s_classes s' = <[c := cls']> (s_classes s) ∧ s_extents s' = <[re_extent en := x']> (s_extents s) ∧
    cls_accounted (re_value_bytes en) cls cls' ∧ ext_accounted (re_value_bytes en) 0 x x' ∧
    s_used_bytes s' = s_used_bytes s + re_slot_size en ∧ account_rest s' = account_rest s.
Proof.
  intros Hc Hx s'. subst s'. unfold restore_account. cbn.
  rewrite (alter_to_insert _ _ _ _ Hc), (alter_to_insert _ _ _ _ Hx).
  do 2 eexists. split_and!; try done. unfold ext_accounted. simpl. by rewrite Z.add_0_r.
Qed.

Lemma restore_account_retention en c s : s_retention (restore_account en c s) = s_retention s.
Proof. done. Qed.

(** What [restore_retention] does to the record. *)
Definition with_retention (t : Retention) en (m : SlotMeta) : SlotMeta :=
  if ro_enabled (t_opt t) then
    let ttl := Z.min (re_retain_ttl_s en) (ro_max_ttl_s (t_opt t)) in
    if (t_now_s t <? re_retain_until en) && negb (re_retain_ttl_s en =? 0) then
      let until := Z.min (re_retain_until en) (t_now_s t + ttl) in
      set_m_retain_persisted_until (λ _, until) (renewed ttl until m)
    else set_m_retain_ttl_s (λ _, ttl) m
  else m.

Definition protects (t : Retention) en : bool :=
  ro_enabled (t_opt t) && ((t_now_s t <? re_retain_until en) && negb (re_retain_ttl_s en =? 0)).

Lemma restore_protect_spec s g i m key ttl until :
  wf s g None → live_at (data s) i m → m_retain_until m = 0 → 0 < until →
  let s' := PushWheelLocked key until (ProtectLocked i (upd_slot i (λ m,
    set_m_retain_persisted_until (λ _, until)
      (set_m_retain_until (λ _, until) (set_m_retain_ttl_s (λ _, ttl) m))) s)) in
  wf s' g None ∧ same_frame s s' ∧ xcls s' = xcls s ∧
  data s' = <[i := set_m_retain_persisted_until (λ _, until) (renewed ttl until m)]> (data s) ∧
  rf s' = (t_opt (s_retention s), t_now_s (s_retention s), pushed key until (t_wheel (s_retention s)),
           t_wheel_tick (s_retention s)).
Proof.
  intros Hwf Hm H0 Hpos. destruct (proj1 (data_lookup _ _ _) (proj1 Hm)) as (y & Hy & Hym).
  set (f := λ m, set_m_retain_persisted_until (λ _, until)
    (set_m_retain_until (λ _, until) (set_m_retain_ttl_s (λ _, ttl) m))).
  assert (Hip : in_place f) by in_place.
  assert (Href : m_ref (slot_at (upd_slot i f s) i) = m_ref m).
  { rewrite (slot_at_eq _ _ (f y)); [by rewrite Hym|]. simpl. by rewrite list_lookup_alter_eq, Hy. }
  unfold ProtectLocked. rewrite Href.
  destruct (push_wheel_spec key until (upd_ret (λ t, set_t_protected_slots (λ n, n + 1)
    (set_t_protected_bytes (λ n, n + r_slot_size (m_ref m)) t)) (upd_class (r_cls (m_ref m))
    (set_c_protected_slots (λ n, n + 1)) (upd_ext (r_extent (m_ref m))
    (set_x_protected_slots (λ n, n + 1)) (upd_slot i f s))))) as [n E].
  rewrite E. clear E. set (s' := upd_ret _ _).
  assert (HD : data s' = <[i := f m]> (data s)) by (by apply (data_alter s _ _ _ _ (proj1 Hm) Hip)).
  set (s1 := set_s_slots (λ _, alter (renewed ttl until) i (s_slots s)) s').
  assert (Hwf1 : wf s1 g None) by (by apply (protect_wf s g None i m ttl until)).
  assert (Hm1 : live_at (data s1) i (renewed ttl until m)).
  { rewrite (data_alter s s1 i m (renewed ttl until) (proj1 Hm) (renewed_in_place _ _) eq_refl).
    split; [|apply Hm]. apply list_lookup_insert_eq. by eapply lookup_lt_Some, Hm. }
  assert (Hip2 : in_place (set_m_retain_persisted_until (λ _, until))) by in_place.
  destruct (wf_upd_slot _ _ _ _ _ _ Hwf1 Hm1 Hip2 eq_refl eq_refl eq_refl) as [Hwf2 _].
  split; [|split; [done|split; [|split; [done|done]]]].
  - replace s' with (upd_slot i (set_m_retain_persisted_until (λ _, until)) s1); [done|].
    assert (Hsl : s_slots s' = alter (set_m_retain_persisted_until (λ _, until)) i
      (alter (renewed ttl until) i (s_slots s))) by (by rewrite alter_alter).
    clearbody s'. subst s1. destruct s'. unfold upd_slot, set_s_slots. simpl in *. by rewrite Hsl.
  - unfold xcls. cbn. apply fmap_alter_id. by intros.
Qed.

(** The record of a restored resident. *)
Definition restored s en : SlotMeta :=
  with_retention (s_retention s) en (new_resident (re_key en) (class_of_entry s en) (re_extent en)
    (re_slot en) (re_slot_size en) (re_value_bytes en) 0).

Lemma restore_retention_spec s g i m en :
  wf s g None → ret_ok s → 0 <= re_retain_ttl_s en → live_at (data s) i m → m_retain_until m = 0 →
  let s' := restore_retention en i s in
  wf s' g None ∧ same_frame s s' ∧ xcls s' = xcls s ∧
  data s' = <[i := with_retention (s_retention s) en m]> (data s) ∧
  rf s' = (t_opt (s_retention s), t_now_s (s_retention s),
    (if protects (s_retention s) en
     then pushed (re_key en) (m_retain_until (with_retention (s_retention s) en m)) (t_wheel (s_retention s))
     else t_wheel (s_retention s)), t_wheel_tick (s_retention s)).
Proof.
  intros Hwf Hr Httl Hm H0. unfold restore_retention, with_retention, protects.
  destruct (ro_enabled (t_opt (s_retention s))) eqn:Een; cbn [andb].
  2:{ split_and!; try done. symmetry. apply list_insert_id, Hm. }
  destruct ((t_now_s (s_retention s) <? re_retain_until en) && negb (re_retain_ttl_s en =? 0)) eqn:Ep.
  - apply andb_true_iff in Ep as [Hlt%Z.ltb_lt _]. destruct (rt_clock _ Hr Een) as [Hck _].
    apply (restore_protect_spec s g i m); try done. pose proof (rt_max _ Hr). cbn. unfold kWheelTickS in *. lia.
  - assert (Hip : in_place (set_m_retain_ttl_s
      (λ _, Z.min (re_retain_ttl_s en) (ro_max_ttl_s (t_opt (s_retention s)))))) by in_place.
    by destruct (wf_upd_slot _ _ _ _ _ _ Hwf Hm Hip eq_refl eq_refl eq_refl) as [Hwf' HD'].
Qed.

Lemma restore_record_spec s g en cls :
  let c := class_of_entry s en in
  wf s g (Some (re_extent en, re_slot en)) → ret_ok s → s_classes s !! c = Some cls →
  c_slot_size cls = re_slot_size en → xcls s !! re_extent en = Some (Some c) →
  view s (re_key en) = None → 0 <= re_value_bytes en <= re_slot_size en →
  0 <= re_retain_ttl_s en →
  ∃ s', restore_record en c s = (true, s') ∧ WF s' ∧ s_opt s' = s_opt s ∧ s_cb_log s' = s_cb_log s ∧
    xcls s' = xcls s ∧
    (∀ k, view s' k = if decide (k = re_key en) then Some (restored s en) else view s k) ∧
    rf s' = (t_opt (s_retention s), t_now_s (s_retention s),
      (if protects (s_retention s) en then pushed (re_key en) (m_retain_until (restored s en))
         (t_wheel (s_retention s)) else t_wheel (s_retention s)), t_wheel_tick (s_retention s)).
Proof.
  intros c Hwf Hr Hc Hsz Hxe Hfresh%view_None Hval Httl. pose proof Hxe as (x & Hx & Hxc)%xcls_lookup.
  unfold restore_record. destruct (AcquireSlotMetaLocked s) as [i s1] eqn:Ea.
  destruct (acquire_spec _ _ _ _ _ Hwf Ea) as [gf Haq].
  pose proof (aq_rest _ _ _ _ _ Haq) as [= A0 A1 A2 A3 A4 A5 A6 A7 A8 A9 A10].
  replace (ix_insert (re_key en) i _) with (true, (ix_insert (re_key en) i (s_index s1)).2); cycle 1.
  { cbn. rewrite A5. pose proof (ix_insert_fresh (re_key en) i _ (wf_ix _ _ _ Hwf)) as Hf.
    rewrite bool_decide_true in Hf by done.
    destruct (ix_insert (re_key en) i (s_index s)). cbn in *. by subst. }
  cbn [negb]. rewrite <- Hsz.
  change (set_s_index _ _) with (inited (re_key en) i c (re_extent en) (re_slot en) (c_slot_size cls)
    (re_value_bytes en) s1).
  destruct (linked_reads _ _ _ _ _ _ _ _ _ _ (re_key en) (re_value_bytes en) Hwf Haq Hc Hx)
    as (L0 & L1 & L2 & _ & L4 & _).
  destruct (lookup_lt_is_Some_2 _ _ L1) as [cls4 Hc4].
  destruct (lookup_lt_is_Some_2 _ _ L2) as [x4 Hx4].
  destruct (restore_account_fields en c _ cls4 x4 Hc4 Hx4) as (cls5 & x5 & P1 & P2 & P3 & P4 & P5 & P6 & P7).
  rewrite <- Hsz in P6, Hval.
  pose proof (restore_account_retention en c (LinkResidentLocked i (inited (re_key en) i c (re_extent en)
    (re_slot en) (c_slot_size cls) (re_value_bytes en) s1))) as Hret. rewrite L4 in Hret.
  generalize dependent (restore_account en c (LinkResidentLocked i (inited (re_key en) i c (re_extent en)
    (re_slot en) (c_slot_size cls) (re_value_bytes en) s1))). intros s2 P1 P2 P3 P6 P7 Hret.
  assert (Hin : Installed s g (re_key en) (new_resident (re_key en) c (re_extent en) (re_slot en)
    (c_slot_size cls) (re_value_bytes en) 0) i gf s2).
  { apply (account_installed Hwf Haq Hc Hx Hxc Hfresh Hval (fa := λ m, m) (cls5 := cls5) (x5 := x5));
      [by in_place|done| |exact P2|exact P3| | |exact P6|exact P7].
    - rewrite P1. symmetry. apply list_alter_id. by intros.
    - intros cls0 Hc0. assert (cls0 = cls4) as -> by congruence. exact P4.
    - intros x0 Hx0. assert (x0 = x4) as -> by congruence. exact P5. }
  destruct Hin as [Hwf2 Hm2 Hv2 Ho2 Hl2 Hx2].
  assert (Hr2 : ret_ok s2).
  { apply (ret_ok_mono s); [done|unfold rf; by rewrite Hret|]. intros k m'. rewrite Hv2.
    case_decide; [intros Hy; apply (inj Some) in Hy as <-; by left|intros Hy; right; by exists m']. }
  destruct (restore_retention_spec s2 _ i _ en Hwf2 Hr2 Httl Hm2 eq_refl) as (Hwf3 & Hfr & Hx3 & HD3 & Hrf3).
  rewrite Hret in Hrf3, HD3. eexists. split; [done|]. split; [by eexists|].
  pose proof (updates_data _ _ _ _ _ _ _ _ _ Hwf2 Hwf3 Hm2 HD3) as [Hv3 Ho3 Hl3];
    [unfold with_retention; repeat case_match; done|done|].
  split; [congruence|]. split; [congruence|]. split; [congruence|]. rewrite Hsz in *. split; [|done].
  intros k. rewrite Hv3. simpl m_key. rewrite Hv2. repeat case_decide; try done.
  unfold restored, with_retention. repeat case_match; done.
Qed.

(** ** The second pass *)

(** The second pass has installed [en]. *)
Record Restored s en s' : Prop := {
  rd_wf : WF s';
  rd_ret : ret_ok s';
  rd_view k : view s' k = if decide (k = re_key en) then Some (restored s en) else view s k;
  rd_opt : s_opt s' = s_opt s;
  rd_log : s_cb_log s' = s_cb_log s;
  rd_xcls : xcls s' = <[re_extent en := Some (class_of_entry s en)]> (xcls s);
  rd_clock : (t_opt (s_retention s'), t_now_s (s_retention s')) =
             (t_opt (s_retention s), t_now_s (s_retention s));
}.

Lemma restored_deadline s en :
  ret_ok s → 0 <= re_retain_ttl_s en → protects (s_retention s) en = true →
  ro_enabled (t_opt (s_retention s)) = true ∧ 0 < m_retain_until (restored s en) ∧
  t_wheel_tick (s_retention s) < m_retain_until (restored s en) / kWheelTickS.
Proof.
  intros Hr Httl Hp. pose proof Hp as [Hen Hp']%andb_true_iff.
  unfold restored, with_retention. rewrite Hen, Hp'. cbn.
  apply andb_true_iff in Hp' as [Hlt%Z.ltb_lt _]. destruct (rt_clock _ Hr Hen) as [Hck Htk].
  pose proof (rt_max _ Hr). split; [done|]. split; [unfold kWheelTickS in *; lia|].
  eapply Z.lt_le_trans; [exact Htk|]. apply Z.div_le_mono; [done|lia].
Qed.

Lemma restored_unprotected s en :
  protects (s_retention s) en = false → m_retain_until (restored s en) = 0.
Proof.
  unfold protects, restored, with_retention. destruct (ro_enabled _); simpl; [|done].
  by intros ->.
Qed.

Lemma restored_ret_ok s en s' :
  ret_ok s → entry_nonneg en →
  rf s' = (t_opt (s_retention s), t_now_s (s_retention s),
    (if protects (s_retention s) en then pushed (re_key en) (m_retain_until (restored s en))
       (t_wheel (s_retention s)) else t_wheel (s_retention s)), t_wheel_tick (s_retention s)) →
  (∀ k, view s' k = if decide (k = re_key en) then Some (restored s en) else view s k) →
  ret_ok s'.
Proof.
  intros Hr (_ & _ & Httl) Hrf Hv. injection Hrf as F1 F2 F3 F4.
  pose proof (restored_deadline _ _ Hr Httl) as Hdl.
  pose proof Hr as [R1 R2 R3 R4 R5 R6 R7 R8].
  assert (Hkeep : ∀ k u, on_wheel (t_wheel (s_retention s)) k u → on_wheel (t_wheel (s_retention s')) k u).
  { intros k u. rewrite F3. case_match; [by apply on_wheel_pushed|done]. }
  split; rewrite ?F1, ?F2, ?F4; try done.
  - intros Hen. rewrite F3. case_match; [|by apply R5]. unfold pushed. intros Hnil.
    apply (f_equal length) in Hnil. rewrite length_alter in Hnil. specialize (R5 Hen).
    by destruct (t_wheel (s_retention s)).
  - rewrite F3. case_match eqn:Ep; [apply wheel_pos_pushed; [by apply Hdl|done]|done].
  - intros k y. rewrite Hv. case_decide; [|by apply R7]. intros Hy. apply (inj Some) in Hy as <-.
    unfold restored, with_retention. repeat case_match; cbn; lia.
  - intros k y. rewrite Hv. case_decide as Hk; [|].
    + intros Hy Hu. apply (inj Some) in Hy as <-. subst k.
      destruct (protects (s_retention s) en) eqn:Ep; [|by rewrite restored_unprotected in Hu].
      destruct (Hdl eq_refl) as (Hen & _ & Htk). split_and!; [done| |done].
      rewrite F3. apply on_wheel_new, R5, Hen.
    + intros Hy Hu. destruct (R8 k y Hy Hu) as (H1 & H2 & H3). split_and!; [done|by apply Hkeep|done].
Qed.

Lemma restore_one_spec s en :
  WF s → ret_ok s → entry_nonneg en → fits s en → ∃ s', restore_one en s = (true, s') ∧ Restored s en s'.
Proof.
  intros [g Hwf] Hr Hu Hf. unfold restore_one. rewrite (class_of_entry_eq _ _ _ _ Hwf).
  destruct (restore_bind_spec _ _ _ Hwf Hf) as (s1 & -> & Hwf1 & HD1 & Hi1 & Ho1 & Hl1 & Hr1 & Hx1).
  cbn [negb]. assert (Hv1 : ∀ k, view s1 k = view s k) by (intros k; by apply view_ext).
  assert (Hce : class_of_entry s1 en = class_of_entry s en) by (unfold class_of_entry; by rewrite Ho1).
  assert (Hxe : xcls s1 !! re_extent en = Some (Some (class_of_entry s en))).
  { rewrite Hx1. apply list_lookup_insert_eq.
    destruct (ft_extent _ _ Hf) as [He|He]; by apply lookup_lt_Some in He. }
  assert (Hf1 : fits s1 en).
  { destruct Hf as [F1 F2 F3 F4 F5]. split; rewrite ?Hce, ?Ho1, ?Hv1; try done; [by right|].
    intros k m. rewrite Hv1. apply F5. }
  destruct (fits_class _ _ _ _ Hwf1 Hf1) as (cls & Hc & Hsz & Hsl). rewrite Hce in Hc.
  rewrite (cls_at_eq _ _ _ Hc).
  pose proof (TakeFreeSlot_spec (re_extent en) (re_slot en) cls
    (co_free _ _ _ _ _ (wf_cls _ _ _ Hwf1 _ _ Hc))) as Htk.
  rewrite decide_True in Htk.
  2:{ apply (slot_free_iff _ _ _ _ _ _ Hwf1 Hxe Hc). split; [done|]. apply Hf1. }
  destruct Htk as (cls' & l & -> & Hp & Hok & Hsame & Hof). cbn [negb].
  destruct (take_wf _ _ _ _ _ _ _ _ Hwf1 Hc Hp Hok Hsame Hof) as [Hwf2 _].
  set (s2 := upd_class _ _ s1) in *.
  assert (Hc2 : s_classes s2 !! class_of_entry s en = Some cls').
  { subst s2. simpl. by rewrite list_lookup_alter_eq, Hc. }
  assert (Hsz' : c_slot_size cls' = re_slot_size en).
  { unfold same_but_free in Hsame. naive_solver congruence. }
  assert (Hv2 : ∀ k, view s2 k = view s k) by (intros k; rewrite <- Hv1; by apply view_ext).
  assert (Hr2 : ret_ok s2).
  { apply (ret_ok_mono s); [done|unfold rf; subst s2; simpl; by rewrite Hr1|].
    intros k m'. rewrite Hv2. intros Hm. right. by exists m'. }
  assert (Hce2 : class_of_entry s2 en = class_of_entry s en) by exact Hce.
  assert (Hrs : restored s2 en = restored s en).
  { unfold restored. rewrite Hce2. subst s2. simpl. by rewrite Hr1. }
  destruct Hu as (Hu1 & Hu2 & Hu3).
  destruct (restore_record_spec s2 g en cls') as (s' & E & Hwf' & Ho' & Hl' & Hx' & Hv' & Hrf'); try done.
  - by rewrite Hce2.
  - by rewrite Hce2.
  - rewrite Hv2. apply Hf.
  - split; [done|]. apply Hf.
  - rewrite Hce2 in E. exists s'. split; [done|]. rewrite Hrs in *.
    assert (Hret : s_retention s2 = s_retention s) by done. rewrite Hret in Hrf'.
    assert (Hv'' : ∀ k, view s' k = if decide (k = re_key en) then Some (restored s en) else view s k).
    { intros k. rewrite Hv'. by case_decide. }
    split; [done| |done|by rewrite Ho'|by rewrite Hl'|by rewrite Hx'|].
    + by apply (restored_ret_ok s en s' Hr (conj Hu1 (conj Hu2 Hu3))).
    + by injection Hrf' as -> -> _ _.
Qed.

(** The entries behind [en] still fit. *)
Lemma fits_after s en s' b :
  Restored s en s' → fits s b → re_key b ≠ re_key en → apart en b → fits s' b.
Proof.
  intros [_ _ Hv Ho _ Hx _] [F1 F2 F3 F4 F5] Hk [Hpl Hsz].
  assert (Hce : class_of_entry s' b = class_of_entry s b) by (unfold class_of_entry; by rewrite Ho).
  split; rewrite ?Hce, ?Ho; try done.
  - by rewrite Hv, decide_False by congruence.
  - rewrite Hx. destruct (decide (re_extent en = re_extent b)) as [He|He].
    + right. rewrite <- He. unfold class_of_entry. rewrite (Hsz He). apply list_lookup_insert_eq.
      rewrite He. destruct F4 as [H|H]; by apply lookup_lt_Some in H.
    + by rewrite list_lookup_insert_ne.
  - intros k m. rewrite Hv. case_decide; [|by apply F5]. intros Hm. apply (inj Some) in Hm as <-.
    assert (Href : r_extent (m_ref (restored s en)) = re_extent en ∧
      r_slot (m_ref (restored s en)) = re_slot en).
    { unfold restored, with_retention. repeat case_match; done. }
    destruct Href as [-> ->]. intros He Hs. apply Hpl. unfold placement_of. by rewrite He, Hs.
Qed.

Lemma restore_install_spec l : ∀ s,
  WF s → ret_ok s → Forall entry_nonneg l → batch_ok s l →
  ∃ s', restore_install l s = (true, s') ∧ WF s' ∧ ret_ok s' ∧ s_opt s' = s_opt s ∧
    s_cb_log s' = s_cb_log s ∧ t_now_s (s_retention s') = t_now_s (s_retention s) ∧
    (∀ en, en ∈ l → view s' (re_key en) = Some (restored s en)) ∧
    (∀ k, k ∉ re_key <$> l → view s' k = view s k).
Proof.
  induction l as [|en l IH]; intros s Hwf Hr Hu [Hf Hk Ha]; simpl.
  { exists s. split_and!; try done. by intros en ?%elem_of_nil. }
  apply Forall_cons in Hu as [Hu Hul], Hf as [Hf Hfl].
  apply NoDup_cons in Hk as [Hk Hkl]. inversion Ha as [|? ? Hae Hal]; subst.
  destruct (restore_one_spec s en Hwf Hr Hu Hf) as (s1 & -> & Hrd).
  destruct (IH s1 (rd_wf _ _ _ Hrd) (rd_ret _ _ _ Hrd) Hul)
    as (s' & E & Hwf' & Hr' & Ho' & Hl' & Hn' & Hin' & Hout').
  { split; [|done|done]. rewrite Forall_forall in Hfl, Hae |- *. intros b Hb.
    apply (fits_after s en); [done|by apply Hfl| |by apply Hae].
    intros He. apply Hk. apply list_elem_of_fmap. by exists b. }
  pose proof Hrd as [_ _ Hv Ho Hlog _ Hck]. injection Hck as Hck1 Hck2.
  assert (Hrs : ∀ b, restored s1 b = restored s b).
  { intros b. unfold restored, with_retention, class_of_entry. by rewrite Ho, Hck1, Hck2. }
  exists s'. rewrite E. split_and!; [done|done|done|congruence|congruence|congruence| |].
  - intros b [->|Hb]%elem_of_cons; [|by rewrite Hin', Hrs].
    by rewrite Hout', Hv, decide_True.
  - intros k. rewrite not_elem_of_cons. intros [Hne Hnk].
    by rewrite Hout', Hv, decide_False.
Qed.

Lemma reserve_wf s g n :
  wf s g None → (ix_size (s_index s) <= n)%nat → wf (set_s_index (ix_reserve n) s) g None.
Proof.
  intros Hwf Hn. destruct Hwf as [W1 W2 W3 W4 W5 W6 W7 W8 W9 W10 W11 W12 W13 W14 W15 W16].
  split; try done; simpl.
  - by apply ix_reserve_wf.
  - intros k i. rewrite ix_find_reserve by done. apply W5.
  - by rewrite ix_size_reserve.
  - destruct W8. by split.
Qed.

(** [RestoreBulk] accepts exactly the batches that fit, and is all or nothing. *)
Lemma RestoreBulk_spec l s :
  WF s → ret_ok s → Forall entry_nonneg l →
  match RestoreBulk l s with
  | (false, s') => s' = s ∧ ¬ batch_ok s l
  | (true, s') => batch_ok s l ∧ WF s' ∧ ret_ok s' ∧ s_opt s' = s_opt s ∧ s_cb_log s' = s_cb_log s ∧
      t_now_s (s_retention s') = t_now_s (s_retention s) ∧ (∀ en, en ∈ l → view s' (re_key en) = Some (restored s en)) ∧
      (∀ k, k ∉ re_key <$> l → view s' k = view s k)
  end.
Proof.
  intros Hwf Hr Hu. unfold RestoreBulk. destruct l as [|en0 l0].
  { split; [by split; constructor|]. split_and!; try done. by intros en ?%elem_of_nil. }
  generalize dependent (en0 :: l0). intros l Hu. pose proof Hwf as [g Hwfg].
  pose proof (restore_validate_spec s g l (mkRestoreScan [] ∅ ∅) Hwfg Hu) as Hval.
  destruct (restore_validate s l (mkRestoreScan [] ∅ ∅)) as [scan|].
  2:{ split; [done|]. intros [Hf Hk Ha]. apply Hval. split_and!; [done| |done].
      apply Forall_forall. intros b _. split; [set_solver|done]. }
  destruct Hval as [(Hf & _ & Ha) Hkeys]. simpl in Hkeys. rewrite Hkeys.
  destruct (adjacent_find (merge_sort key_le (re_key <$> l))) eqn:Ead.
  { split; [done|]. intros [_ Hk _]. apply duplicate_keys in Hk. congruence. }
  apply duplicate_keys in Ead. assert (Hb : batch_ok s l) by done.
  set (s1 := set_s_index _ s). assert (Hwf1 : WF s1) by (exists g; apply reserve_wf; [done|lia]).
  assert (Hv1 : ∀ k, view s1 k = view s k).
  { intros k. unfold view. subst s1. simpl.
    by rewrite ix_find_reserve by (apply Hwfg || lia). }
  assert (Hr1 : ret_ok s1).
  { apply (ret_ok_mono s); [done|done|]. intros k m'. rewrite Hv1. intros Hm. right. by exists m'. }
  assert (Hb1 : batch_ok s1 l).
  { split; [|done|done]. eapply Forall_impl; [exact Hf|]. intros b [F1 F2 F3 F4 F5].
    split; rewrite ?Hv1; try done. intros k m. rewrite Hv1. apply F5. }
  destruct (restore_install_spec l s1 Hwf1 Hr1 Hu Hb1) as (s' & -> & H1 & H2 & H3 & H4 & H5 & H6 & H7).
  split_and!; try done. intros k Hk. by rewrite H7, Hv1.
Qed.

End restore.
