(* ===== verification/SlabMachine.v ===== *)
(** * Slab allocator: the operations as one machine

    Every public operation of the allocator as a step, the initial states, and
    what one step may do to one resident. *)

From S2P Require Import Prelude KvTypes KeyIndex SlabTypes SlabLattice SlabRing SlabFree SlabOps.
From S2P Require Import SlabInv SlabStruct SlabInstall SlabWf SlabEvict SlabSteal SlabPut.
From S2P Require Import SlabAccess SlabReclaim SlabFrame SlabRetain SlabRestore.

(** ** Operations *)

Inductive Op :=
| OPut (key : BlockKey) (len : Z)
| OGet (key : BlockKey)
| OGetAndPin (key : BlockKey)
| ORemove (key : BlockKey)
| OPin (key : BlockKey)
| OUnpin (key : BlockKey)
| OPinHandle (key : BlockKey) (handle : option nat)
| OUnpinHandle (key : BlockKey) (handle : option nat)
| OReclaimClass (c : nat) (target_free : Z) (max_victims : nat)
| OStealFrom (donor target : nat)
| OEvictColdToTarget (target_bytes : Z) (max_victims : nat)
| ORetain (key : BlockKey) (ttl_s : Z) (mode : RetainMode) (now_s : Z)
| OExpireRetention (now_s : Z)
| ORestoreBulk (entries : list RestoreEntry).

(** The arguments are of their unsigned types. *)
Definition op_ok (op : Op) : Prop :=
  match op with
  | OPut _ len => 0 <= len
  | OEvictColdToTarget _ max => Z.of_nat max <= SIZE_MAX / 4
  | ORetain _ ttl _ now => 0 <= ttl ∧ is_u32 now
  | OExpireRetention now => is_u32 now
  | ORestoreBulk entries => Forall entry_nonneg entries
  | _ => True
  end.

Section machine.
Context {IX : Type} {ixo : KeyIndexOps IX} {ixl : KeyIndexLaws IX}.
Notation St := (SlabAllocator IX).
Implicit Types (s : St) (g : Ghost) (k : BlockKey).

(** The state after an operation; [None] if a loop ran out of fuel. *)
Definition run_op (op : Op) s : option St :=
  match op with
  | OPut key len => '(_, s', _) ← Put key len s []; Some s'
  | OGet key => Some (Get key s).2
  | OGetAndPin key => Some (GetAndPin key s).2
  | ORemove key => Some (Remove key s).2
  | OPin key => Some (Pin key s).2
  | OUnpin key => Some (Unpin key s).2
  | OPinHandle key h => Some (PinHandle key h s).2
  | OUnpinHandle key h => Some (UnpinHandle key h s).2
  | OReclaimClass c target max => Some (ReclaimClass c target max s []).1.2
  | OStealFrom donor target => '(_, s', _) ← StealFrom donor target s []; Some s'
  | OEvictColdToTarget target max => Some (EvictColdToTarget target max s []).1.2
  | ORetain key ttl mode now => Some (Retain key ttl mode now s).2
  | OExpireRetention now => Some (ExpireRetention now s).2
  | ORestoreBulk entries => Some (RestoreBulk entries s).2
  end.

Fixpoint run_ops (ops : list Op) s : option St :=
  match ops with
  | [] => Some s
  | op :: ops => s ← run_op op s; run_ops ops s
  end.

(** ** The constructor *)

Lemma new_allocator_view opt env k : view (new_allocator opt env : St) k = None.
Proof. apply view_None. simpl. apply ix_find_empty. Qed.

Lemma new_allocator_wf opt env :
  opts_ok (normalize_options opt) → WF (new_allocator opt env : St).
Proof.
  intros Hok. exists (mkGhost [] (λ _, []) (λ _, []) []).
  set (o := normalize_options opt) in *.
  assert (Hno : ∀ i m, ¬ live_at (data (new_allocator opt env : St)) i m).
  { intros i m [H _]. unfold data in H. by destruct i. }
  assert (Hx : ∀ e x, replicate (o_num_extents o) new_extent_meta !! e = Some x → x = new_extent_meta).
  { by intros e x [-> _]%lookup_replicate. }
  assert (Hring : ring [] None None []) by (exists [], []; split_and!; [done|apply dll_nil|done|done]).
  assert (Hcl : ∀ c cls, class_lattice o !! c = Some cls → cls = class_of_size o (c_slot_size cls)).
  { intros c cls H. destruct (class_lattice_spec o Hok) as (_ & _ & HF).
    rewrite Forall_lookup in HF. by eapply HF. }
  assert (Hcnt : ∀ c, count_cls c (xcls (new_allocator opt env : St)) =
    if decide (c = None) then Z.of_nat (o_num_extents o) else 0).
  { intros c. change (xcls _) with (x_cls <$> replicate (o_num_extents o) new_extent_meta).
    rewrite fmap_replicate. unfold count_cls. generalize (o_num_extents o). intros n.
    induction n as [|n IH]; cbn [replicate]; [by case_decide|].
    case_decide; [rewrite filter_cons_True by done|rewrite filter_cons_False by done]; simpl in *; lia. }
  split; simpl; try done.
  - by rewrite length_replicate.
  - apply ix_empty_wf.
  - intros k i. rewrite ix_find_empty. split; [done|]. by intros (m & ?%Hno & _).
  - apply ix_size_empty.
  - split; intros; (split; [by intros ?%elem_of_nil|]); [naive_solver..|].
    intros (m & H & _). unfold data in H. by destruct i.
  - split; simpl; [done|by intros c cls ->%Hcl| |done|constructor].
    intros e x ->%Hx. apply dll_nil.
  - by intros i m ?%Hno.
  - intros c cls H. rewrite (Hcl _ _ H). split; simpl; try done.
    split; simpl; [constructor| |done]. intros e. split; [by intros ?%elem_of_nil|]. by intros [].
  - intros e x ->%Hx. done.
  - intros c cls e H. rewrite (Hcl _ _ H). done.
Qed.

Lemma new_allocator_ret_ok opt env : ret_ok (new_allocator opt env : St).
Proof.
  split; try done; intros k m; rewrite new_allocator_view; done.
Qed.

(** ** One step *)

Definition unpins (op : Op) k : bool :=
  match op with OUnpin k' | OUnpinHandle k' _ => bool_decide (k' = k) | _ => false end.

Definition pins (op : Op) k : bool :=
  match op with OPin k' | OGetAndPin k' | OPinHandle k' _ => bool_decide (k' = k) | _ => false end.

(** A pin does not find its count, a [uint32_t], at the maximum. *)
Definition op_room (op : Op) s : bool :=
  match op with OPin k | OGetAndPin k | OPinHandle k _ => pin_room k s | _ => true end.

(** No pin of the run makes a count wrap. *)
Fixpoint pins_fit (ops : list Op) s : bool :=
  match ops with
  | [] => true
  | op :: ops => op_room op s && match run_op op s with Some s' => pins_fit ops s' | None => true end
  end.

(** The value and its place are the same. *)
Definition same_place (m m' : SlotMeta) : Prop :=
  m_key m' = m_key m ∧ m_ref m' = m_ref m ∧ m_useful_bytes m' = m_useful_bytes m.

(** What a step may do to the resident [m] of key [k] under the clock [now]. *)
Inductive fate (op : Op) (now : Z) k (m : SlotMeta) : option SlotMeta → Prop :=
| fate_kept m' :
    same_place m m' →
    m_refs m <= m_refs m' ∨ unpins op k = true →
    m_refs m' <= m_refs m + Z.b2z (pins op k) →
    m_remove_pending m' = m_remove_pending m ∨ op = ORemove k →
    m_retain_until m <= m_retain_until m' ∨ m_retain_until m <= now →
    fate op now k m (Some m')
| fate_evicted : idle m → fate op now k m None
| fate_removed : op = ORemove k → m_refs m = 0 → fate op now k m None
| fate_dropped : unpins op k = true → m_refs m = 1 → m_remove_pending m = true → fate op now k m None.

(** What a step establishes. *)
Record stepped (op : Op) s s' : Prop := {
  sp_wf : WF s';
  sp_ret : ret_ok s';
  sp_opt : s_opt s' = s_opt s;
  sp_clock : t_now_s (s_retention s) <= t_now_s (s_retention s');
  sp_log : ∃ L, s_cb_log s' = s_cb_log s ++ L ∧
    ∀ k m, view s k = Some m → view s' k = None → op ≠ ORemove k → unpins op k = false →
      durable (s_opt s) → acked L m;
  sp_fate k m : view s k = Some m → fate op (t_now_s (s_retention s')) k m (view s' k);
  sp_new k m' : view s k = None → view s' k = Some m' → m_refs m' = 0;
}.

Lemma b2z_nonneg b : 0 <= Z.b2z b.
Proof. by destruct b. Qed.

Lemma fate_same op now k m : fate op now k m (Some m).
Proof. pose proof (b2z_nonneg (pins op k)). constructor; [done|left; lia|lia|by left|left; lia]. Qed.

Lemma rf_clock s s' : rf s' = rf s → t_now_s (s_retention s) <= t_now_s (s_retention s').
Proof. intros [= _ -> _ _]. lia. Qed.

(** No callback was made and no resident left without the owner's request. *)
Lemma quiet_log op s s' :
  s_cb_log s' = s_cb_log s →
  (∀ k m, view s k = Some m → view s' k = None → op = ORemove k ∨ unpins op k = true) →
  ∃ L, s_cb_log s' = s_cb_log s ++ L ∧
    ∀ k m, view s k = Some m → view s' k = None → op ≠ ORemove k → unpins op k = false →
      durable (s_opt s) → acked L m.
Proof.
  intros Hl Hk. exists []. rewrite app_nil_r. split; [done|]. intros k m Hm Hm' H1 H2 _.
  destruct (Hk k m Hm Hm'); congruence.
Qed.

Lemma stepped_refl op s : WF s → ret_ok s → stepped op s s.
Proof.
  intros. split; [done|done|done|done|apply quiet_log; [done|congruence]| |congruence].
  intros k m ->. apply fate_same.
Qed.

Lemma stepped_Evicts op s ev s' :
  WF s' → ret_ok s → rf s' = rf s → Evicts s ev s' → stepped op s s'.
Proof.
  intros Hwf Hr Hrf Hev. split; [done|by eapply ret_ok_Evicts|apply Hev|by apply rf_clock| | |].
  { destruct (ev_log _ _ _ Hev) as (L & HL & Hack). exists L. split; [done|]. intros k m Hm Hm' _ _.
    apply (Hack k m); [|done]. rewrite (ev_view _ _ _ Hev) in Hm'. case_decide; [done|congruence]. }
  2:{ intros k m' Hm. rewrite (ev_view _ _ _ Hev). case_decide; congruence. }
  intros k m Hm. rewrite (ev_view _ _ _ Hev). case_decide as Hk; [|rewrite Hm; apply fate_same].
  apply fate_evicted. destruct (ev_idle _ _ _ Hev k Hk) as (m' & Hm' & H1 & H2).
  assert (m' = m) as -> by congruence. done.
Qed.

Lemma stepped_Updates op s key m m' s' :
  WF s' → ret_ok s → rf s' = rf s → view s key = Some m → Updates s key m' s' →
  same_place m m' → m_refs m <= m_refs m' ∨ unpins op key = true →
  m_refs m' <= m_refs m + Z.b2z (pins op key) →
  m_remove_pending m' = m_remove_pending m ∨ op = ORemove key →
  m_retain_until m' = m_retain_until m → m_retain_ttl_s m' = m_retain_ttl_s m → stepped op s s'.
Proof.
  intros Hwf Hr Hrf Hm Hup Hsp Hrefs Hle Hpd Hu Ht.
  split; [done|by eapply ret_ok_Updates|apply Hup|by apply rf_clock| | |].
  { apply quiet_log; [apply Hup|]. intros k y Hy. rewrite (up_view _ _ _ _ Hup). case_decide; [done|congruence]. }
  2:{ intros k y Hy. rewrite (up_view _ _ _ _ Hup). case_decide; congruence. }
  intros k y Hy. rewrite (up_view _ _ _ _ Hup). case_decide as Hk; [|rewrite Hy; apply fate_same].
  subst k. assert (y = m) as -> by congruence. constructor; [done|done|done|done|left; cbn; lia].
Qed.

Lemma stepped_drop op s key m s' :
  WF s' → ret_ok s → rf s' = rf s → s_opt s' = s_opt s → s_cb_log s' = s_cb_log s →
  view s key = Some m → (∀ k, view s' k = if decide (k = key) then None else view s k) →
  (∀ now, fate op now key m None) → op = ORemove key ∨ unpins op key = true → stepped op s s'.
Proof.
  intros Hwf Hr Hrf Ho Hl Hm Hv Hf Hop. split; [done| |done|by apply rf_clock| | |].
  - apply (ret_ok_mono s); [done|done|]. intros k m'. rewrite Hv. case_decide; [done|].
    intros Hy. right. by exists m'.
  - apply quiet_log; [done|]. intros k y Hy. rewrite Hv. case_decide; [by subst|congruence].
  - intros k y Hy. rewrite Hv. case_decide as Hk; [|rewrite Hy; apply fate_same].
    subst k. assert (y = m) as -> by congruence. apply Hf.
  - intros k m' Hk. rewrite Hv. case_decide; congruence.
Qed.

Lemma step_Put key len s :
  WF s → ret_ok s → 0 <= len → ∃ s', run_op (OPut key len) s = Some s' ∧ stepped (OPut key len) s s'.
Proof.
  intros Hwf Hr Hlen. destruct (Put_spec key len s [] Hwf Hlen) as (out & s' & ev & E & Hwf' & Ho).
  exists s'. simpl. rewrite E. split; [done|].
  assert (Hrf : rf s' = rf s) by (by eapply rf_Put).
  destruct Ho as [| | | |s1 ev i m s' Hnew _ Hev Hv Ho Hl _ _ _ Hid Ht _]; try (by eapply stepped_Evicts).
  assert (Hne : ∀ k y, view s k = Some y → k ≠ key) by congruence.
  split; [done| |by rewrite Ho, (ev_opt _ _ _ Hev)|by apply rf_clock| | |].
  - apply (ret_ok_mono s); [done|done|]. intros k m'. rewrite Hv. case_decide.
    + intros Hy. apply (inj Some) in Hy as <-. left. split; [apply Hid|apply Ht].
    + rewrite (ev_view _ _ _ Hev). case_decide; [done|]. intros Hy. right. by exists m'.
  - destruct (ev_log _ _ _ Hev) as (L & HL & Hack). exists L. split; [congruence|].
    intros k y Hy. rewrite Hv, decide_False by (by eapply Hne). rewrite (ev_view _ _ _ Hev).
    case_decide; [|congruence]. intros _ _ _. by apply (Hack k y).
  - intros k y Hy. rewrite Hv, decide_False by (by eapply Hne).
    rewrite (ev_view _ _ _ Hev). case_decide as Hk; [|rewrite Hy; apply fate_same].
    apply fate_evicted. destruct (ev_idle _ _ _ Hev k Hk) as (m' & Hm' & ? & ?).
    assert (m' = y) as -> by congruence. done.
  - intros k m' Hk. rewrite Hv. case_decide; [intros [= <-]; apply Hid|].
    rewrite (ev_view _ _ _ Hev). case_decide; congruence.
Qed.

Lemma step_Pin op key s :
  pins op key = true → pin_room key s = true → WF s → ret_ok s → stepped op s (Pin key s).2.
Proof.
  intros Hop Hroom Hwf Hr. pose proof (rf_Pin key s) as Hrf. destruct (Pin key s) as [ok s'] eqn:E. simpl in *.
  destruct (Pin_spec _ _ _ _ Hwf Hroom E) as [Hwf' Hs]. destruct (view s key) as [m|] eqn:Em.
  - destruct (m_remove_pending m); destruct Hs as [_ Hs]; [subst; by apply stepped_refl|].
    eapply stepped_Updates; try done; [left; cbn; lia|rewrite Hop; cbn; lia|by left].
  - destruct Hs as [_ ->]. by apply stepped_refl.
Qed.

Lemma step_Unpin op key s :
  unpins op key = true → WF s → ret_ok s → stepped op s (Unpin key s).2.
Proof.
  intros Hop Hwf Hr. pose proof (rf_Unpin key s) as Hrf. destruct (Unpin key s) as [ok s'] eqn:E. simpl in *.
  destruct (Unpin_spec _ _ _ _ Hwf E) as [Hwf' Hs]. destruct (view s key) as [m|] eqn:Em.
  - destruct (m_refs m =? 0); destruct Hs as [_ Hs]; [subst; by apply stepped_refl|].
    destruct ((m_refs m =? 1) && m_remove_pending m) eqn:Ed.
    + apply andb_true_iff in Ed as [H1%Z.eqb_eq H2]. destruct Hs as (Hv & Ho & Hl).
      eapply stepped_drop; try done; [|by right]. intros now. by apply fate_dropped.
    + pose proof (b2z_nonneg (pins op key)).
      eapply stepped_Updates; try done; [by right|cbn -[pins]; lia|by left].
  - destruct Hs as [_ ->]. by apply stepped_refl.
Qed.

Lemma step_Remove key s : WF s → ret_ok s → stepped (ORemove key) s (Remove key s).2.
Proof.
  intros Hwf Hr. pose proof (rf_Remove key s) as Hrf. destruct (Remove key s) as [r s'] eqn:E. simpl in *.
  destruct (Remove_spec _ _ _ _ Hwf E) as (Hwf' & Ho & Hl & Hs). destruct (view s key) as [m|] eqn:Em.
  - destruct (Z.ltb_spec 0 (m_refs m)) as [Hp|Hp]; destruct Hs as [_ Hs].
    + eapply stepped_Updates; try done; [left; cbn; lia|cbn; lia|by right].
    + eapply stepped_drop; try done; [|by left]. intros now. apply fate_removed; [done|].
      destruct Hwf as [g Hwf]. apply (view_Some _ _ _ _ _ Hwf) in Em as (i & m0 & Hm0 & _ & ->).
      pose proof (rs_refs _ _ _ (wf_res _ _ _ Hwf _ _ Hm0)) as [? _]. cbn in *. lia.
  - destruct Hs as [_ ->]. by apply stepped_refl.
Qed.

Lemma step_Get op key s : WF s → ret_ok s → stepped op s (Get key s).2.
Proof.
  intros Hwf Hr. pose proof (rf_Get key s) as Hrf. destruct (Get key s) as [r s'] eqn:E. simpl in *.
  destruct (Get_spec _ _ _ _ Hwf E) as (Hwf' & Hs). destruct (view s key) as [m|] eqn:Em.
  - destruct (m_remove_pending m); destruct Hs as [_ Hs]; [subst; by apply stepped_refl|].
    pose proof (b2z_nonneg (pins op key)).
    eapply stepped_Updates; try done; [left; cbn; lia|cbn -[pins]; lia|by left].
  - destruct Hs as [_ ->]. by apply stepped_refl.
Qed.

Lemma step_GetAndPin op key s :
  pins op key = true → pin_room key s = true → WF s → ret_ok s → stepped op s (GetAndPin key s).2.
Proof.
  intros Hop Hroom Hwf Hr. pose proof (rf_GetAndPin key s) as Hrf. destruct (GetAndPin key s) as [r s'] eqn:E. simpl in *.
  destruct (GetAndPin_spec _ _ _ _ Hwf Hroom E) as (Hwf' & Hs). destruct (view s key) as [m|] eqn:Em.
  - destruct (m_remove_pending m); destruct Hs as [_ Hs]; [subst; by apply stepped_refl|].
    eapply stepped_Updates; try done; [left; cbn; lia|rewrite Hop; cbn; lia|by left].
  - destruct Hs as [_ ->]. by apply stepped_refl.
Qed.

Lemma step_Expire now s :
  WF s → ret_ok s → is_u32 now → stepped (OExpireRetention now) s (ExpireRetention now s).2.
Proof.
  intros Hwf Hr Hn. destruct (ExpireRetention_spec now s Hwf Hr Hn)
    as (n & s' & -> & Hwf' & Hr' & Hclk & Ho & Hl & _ & Hrel & _). simpl. split; [done..|lia| | |].
  { apply quiet_log; [done|]. intros k m Hm Hm'. destruct (Hrel k) as [|(? & _ & _ & ?)]; congruence. }
  2:{ intros k m' Hm Hm'. destruct (Hrel k) as [|(? & ? & _)]; congruence. }
  intros k m Hm. destruct (Hrel k) as [->|(m0 & Hm0 & Hu & ->)]; [rewrite Hm; apply fate_same|].
  assert (m0 = m) as -> by congruence. constructor; [done|left; cbn; lia|cbn; lia|by left|right; lia].
Qed.

Lemma retain_fate key ttl mode now s out s' at_ k m :
  retain_outcome key ttl mode now s out s' → view s k = Some m →
  ∃ m', view s' k = Some m' ∧ fate (ORetain key ttl mode now) at_ k m (Some m').
Proof.
  intros Ho Hm.
  assert (Hmark : ∀ seq m0, view s key = Some m0 → Updates s key (read_mark mode seq m0) s' →
    ∃ m', view s' k = Some m' ∧ fate (ORetain key ttl mode now) at_ k m (Some m')).
  { intros seq m0 Hm0 Hup. rewrite (up_view _ _ _ _ Hup).
    case_decide as Hk; [subst k|rewrite Hm; eexists; split; [done|apply fate_same]].
    assert (m0 = m) as -> by congruence. eexists. split; [done|].
    constructor; destruct mode; cbn; try done; first [by left|left; lia|lia]. }
  destruct Ho as [s' _ _ Hv|m0 s' _ _ _ Hv|m0 s' Hm0 _ _ _ Hup|m0 s' Hm0 _ _ _ Hup|
    m0 p code s' eff until Hm0 _ _ Heff _ _ _ Hup].
  1, 2: rewrite Hv, Hm; eexists; split; [done|apply fate_same].
  1, 2: by eapply Hmark.
  rewrite (up_view _ _ _ _ Hup).
  case_decide as Hk; [subst k|rewrite Hm; eexists; split; [done|apply fate_same]].
  assert (m0 = m) as -> by congruence. eexists. split; [done|].
  constructor; [by destruct p, mode|left; destruct p, mode; cbn; lia|destruct p, mode; cbn; lia|by left; destruct p, mode|].
  left. unfold until, new_deadline. destruct p, mode; cbn; lia.
Qed.

Lemma retain_new key ttl mode now s out s' k :
  retain_outcome key ttl mode now s out s' → view s k = None → view s' k = None.
Proof.
  intros Ho Hm. destruct Ho as [s' _ _ Hv|m0 s' _ _ _ Hv|m0 s' Hm0 _ _ _ Hup|m0 s' Hm0 _ _ _ Hup|
    m0 p code s' eff until Hm0 _ _ Heff _ _ _ Hup]; rewrite ?Hv; try done;
    rewrite (up_view _ _ _ _ Hup), decide_False; congruence.
Qed.

Lemma step_Retain key ttl mode now s :
  WF s → ret_ok s → 0 <= ttl → is_u32 now →
  stepped (ORetain key ttl mode now) s (Retain key ttl mode now s).2.
Proof.
  intros Hwf Hr Httl Hn. destruct (Retain_spec key ttl mode now s Hwf Httl) as
    (out & s' & -> & Hwf' & Hck & Ho); [by apply Hn|by apply Hr|by apply Hr|by apply Hr|]. simpl.
  pose proof (λ k m, retain_fate _ _ _ _ _ _ _ (t_now_s (s_retention s')) k m Ho) as Hf.
  split; [done|by eapply Retain_ret_ok|apply Hck|rewrite (ck_now _ _ _ Hck); lia| | |].
  - apply quiet_log; [apply Hck|]. intros k m Hm. destruct (Hf k m Hm) as (? & ? & _). congruence.
  - intros k m Hm. by destruct (Hf k m Hm) as (m' & -> & ?).
  - intros k m' Hm. by rewrite (retain_new _ _ _ _ _ _ _ _ Ho Hm).
Qed.

Lemma step_Restore l s :
  WF s → ret_ok s → Forall entry_nonneg l → stepped (ORestoreBulk l) s (RestoreBulk l s).2.
Proof.
  intros Hwf Hr Hu. pose proof (RestoreBulk_spec l s Hwf Hr Hu) as Hs.
  destruct (RestoreBulk l s) as [[] s']; simpl.
  - destruct Hs as (Hb & Hwf' & Hr' & Ho & Hl & Hclk & Hres & Hout).
    assert (Hkeep : ∀ k m, view s k = Some m → view s' k = Some m).
    { intros k m Hm. rewrite Hout; [done|]. intros (en & -> & Hin)%list_elem_of_fmap.
      pose proof (bo_fits _ _ Hb) as Hf. rewrite Forall_forall in Hf.
      pose proof (ft_fresh _ _ (Hf en Hin)). congruence. }
    split; [done..|lia| | |].
    + apply quiet_log; [done|]. intros k m Hm%Hkeep. congruence.
    + intros k m Hm. rewrite (Hkeep _ _ Hm). apply fate_same.
    + intros k m' Hm Hm'. destruct (decide (k ∈ re_key <$> l)) as [(en & -> & Hen)%list_elem_of_fmap|Hk];
        [|rewrite Hout in Hm'; congruence].
      rewrite Hres in Hm' by done. injection Hm' as <-. unfold restored, with_retention. by repeat case_match.
  - destruct Hs as [-> _]. by apply stepped_refl.
Qed.

(** Every operation returns, and does to a resident only what its fate allows. *)
Lemma run_op_spec op s :
  WF s → ret_ok s → op_ok op → op_room op s = true → ∃ s', run_op op s = Some s' ∧ stepped op s s'.
Proof.
  intros Hwf Hr Hop Hroom. assert (Hself : ∀ k, bool_decide (k = k) = true) by (intros k; by apply bool_decide_eq_true).
  destruct op; simpl in Hop, Hroom;
    try (eexists; split; [reflexivity|]; by eauto using step_Get, step_Remove).
  - by apply step_Put.
  - eexists. split; [done|]. apply step_GetAndPin; try done. apply Hself.
  - eexists. split; [done|]. apply step_Pin; try done. apply Hself.
  - eexists. split; [done|]. apply step_Unpin; try done. apply Hself.
  - eexists. split; [done|]. rewrite PinHandle_Pin by done. case_bool_decide; [|by apply stepped_refl].
    apply step_Pin; try done. apply Hself.
  - eexists. split; [done|]. rewrite UnpinHandle_Unpin by done. case_bool_decide; [|by apply stepped_refl].
    apply step_Unpin; try done. apply Hself.
  - destruct (ReclaimClass_spec c target_free max_victims s [] Hwf) as (s' & ev & E & Hwf' & Hev & _).
    pose proof (rf_ReclaimClass c target_free max_victims s []) as Hrf.
    simpl. rewrite E in *. eexists. split; [done|]. by eapply stepped_Evicts.
  - destruct (StealFrom_spec donor target s [] Hwf) as (b & s' & ev & E & Hwf' & Hev & _).
    pose proof (rf_steal_from donor target s [] _ _ _ E) as Hrf.
    simpl. rewrite E. eexists. split; [done|]. by eapply stepped_Evicts.
  - pose proof Hwf as [g Hwfg].
    destruct (EvictColdToTarget_spec target_bytes max_victims s [] g Hwfg Hop)
      as (s' & ev & rest & E & Hwf' & Hev & _).
    pose proof (rf_EvictCold target_bytes max_victims s []) as Hrf.
    simpl. rewrite E in *. eexists. split; [done|]. by eapply stepped_Evicts.
  - eexists. split; [done|]. apply step_Retain; tauto.
  - eexists. split; [done|]. by apply step_Expire.
  - eexists. split; [done|]. by apply step_Restore.
Qed.

(** ** Runs with few pins *)

Definition refs_of s k : Z := match view s k with Some m => m_refs m | None => 0 end.

Definition pins_in (ops : list Op) k : Z := sumZ (λ op, Z.b2z (pins op k)) ops.

Lemma refs_of_room op s :
  WF s → (∀ k, pins op k = true → refs_of s k + 1 < 2 ^ 32) → op_room op s = true.
Proof.
  intros [g Hwf] Hlt.
  assert (Hroom : ∀ k, refs_of s k + 1 < 2 ^ 32 → pin_room k s = true).
  { intros k Hk. unfold pin_room. pose proof (find_view _ _ _ k Hwf) as Hv. unfold refs_of in Hk.
    destruct (ix_find k (s_index s)) as [i|]; [|done]. destruct Hv as (m & _ & _ & Hat & Hm).
    rewrite Hm in Hk. change (m_refs (slot_at s i)) with (m_refs (strip (slot_at s i))). rewrite Hat.
    by apply Z.ltb_lt. }
  destruct op; cbn in *; try done; apply Hroom, Hlt; by apply bool_decide_eq_true.
Qed.

Lemma stepped_refs op s s' k : WF s → stepped op s s' → refs_of s' k <= refs_of s k + Z.b2z (pins op k).
Proof.
  intros [g Hwf] Hst. pose proof (b2z_nonneg (pins op k)). unfold refs_of. destruct (view s k) as [m|] eqn:Em.
  - pose proof (sp_fate _ _ _ Hst k m Em) as Hf.
    apply (view_Some _ _ _ _ _ Hwf) in Em as (i & m0 & Hm0 & _ & ->).
    pose proof (rs_refs _ _ _ (wf_res _ _ _ Hwf _ _ Hm0)) as [? _].
    destruct (view s' k) as [m'|]; [|cbn -[pins]; lia]. by inversion Hf.
  - destruct (view s' k) as [m'|] eqn:Em'; [|lia]. rewrite (sp_new _ _ _ Hst k m' Em Em'). lia.
Qed.

(** It is enough that no key is pinned so often. *)
Lemma few_pins_fit ops : ∀ s,
  WF s → ret_ok s → Forall op_ok ops → (∀ k, refs_of s k + pins_in ops k < 2 ^ 32) → pins_fit ops s = true.
Proof.
  induction ops as [|op ops IH]; intros s Hwf Hr Hops Hlt; [done|]. apply Forall_cons in Hops as [Hop Hops].
  assert (Hpos : ∀ k, 0 <= pins_in ops k) by (intros k; apply sumZ_nonneg; intros; apply b2z_nonneg).
  assert (Hcons : ∀ k, pins_in (op :: ops) k = Z.b2z (pins op k) + pins_in ops k) by done.
  assert (Hroom : op_room op s = true).
  { apply refs_of_room; [done|]. intros k Hk. specialize (Hlt k). rewrite Hcons, Hk in Hlt.
    specialize (Hpos k). cbn [Z.b2z] in Hlt. lia. }
  cbn [pins_fit]. rewrite Hroom. destruct (run_op_spec op s Hwf Hr Hop Hroom) as (s' & -> & Hst).
  apply IH; [apply Hst|apply Hst|done|]. intros k. specialize (Hlt k). rewrite Hcons in Hlt.
  pose proof (stepped_refs op s s' k Hwf Hst). lia.
Qed.

End machine.
