(* ===== verification/SlabLayout.v ===== *)
(** * Slab allocator: the layout of the medium

    Where the residents of a well-formed allocator lie: inside their extents,
    apart from one another, and together within the capacity. *)

From S2P Require Import Prelude KvTypes KeyIndex SlabTypes SlabLattice SlabRing SlabFree SlabOps.
From S2P Require Import SlabInv SlabStruct SlabInstall SlabWf SlabEvict SlabSteal SlabPut.
From S2P Require Import SlabAccess SlabReclaim SlabFrame SlabRetain SlabRestore SlabMachine.

Lemma NoDup_fmap_inj {A B} (f : A → B) l x y :
  NoDup (f <$> l) → x ∈ l → y ∈ l → f x = f y → x = y.
Proof.
  induction l as [|a l IH]; simpl; [by intros _ ?%elem_of_nil|].
  intros [Ha Hl]%NoDup_cons [->|Hx]%elem_of_cons [->|Hy]%elem_of_cons Hf; [done|..|by apply IH];
    exfalso; apply Ha; apply list_elem_of_fmap; by eexists.
Qed.

(** A sum over [l] split by the values of [key]. *)
Lemma sumZ_partition {A} (f : A → Z) (key : A → nat) (n : nat) (l : list A) :
  Forall (λ x, (key x < n)%nat) l →
  sumZ f l = sumZ (λ e, sumZ f (filter (λ x, key x = e) l)) (seq 0 n).
Proof.
  induction 1 as [|x l Hx Hl IH]; [symmetry; etrans; [by apply (sumZ_ext_in _ (λ _, 0))|by rewrite sumZ_const]|].
  rewrite (sumZ_ext_in _ (λ e, sumZ f (filter (λ x, key x = e) l) + (if decide (key x = e) then f x else 0))).
  2:{ intros e _. rewrite filter_cons. case_decide; simpl; lia. }
  change (f x + sumZ f l = sumZ (λ e, sumZ f (filter (λ x, key x = e) l) +
    (if decide (key x = e) then f x else 0)) (seq 0 n)).
  assert (Hadd : ∀ (a b : nat → Z) q, sumZ (λ e, a e + b e) q = sumZ a q + sumZ b q).
  { intros a b. induction q as [|y q IHq]; [done|]. simpl in *. unfold sumZ in *. simpl. lia. }
  rewrite Hadd, <- IH. clear Hadd IH Hl.
  assert (Hone : ∀ k j, (k <= key x < k + j)%nat →
    sumZ (λ e, if decide (key x = e) then f x else 0) (seq k j) = f x).
  { intros k j. revert k. induction j as [|j IHj]; intros k Hk; [lia|]. cbn [seq]. unfold sumZ in *. simpl.
    case_decide as He.
    - assert (H0 : ∀ q b, (k < b)%nat → foldr (λ e acc, (if decide (key x = e) then f x else 0) + acc) 0
        (seq b q) = 0); [|rewrite H0 by lia; lia].
      induction q as [|q IHq]; intros b Hb; [done|]. simpl. rewrite decide_False by lia. rewrite IHq; lia.
    - rewrite IHj by lia. lia. }
  rewrite Hone by lia. lia.
Qed.

Section layout.
Context {IX : Type} {ixo : KeyIndexOps IX} {ixl : KeyIndexLaws IX}.
Notation St := (SlabAllocator IX).
Implicit Types (s : St) (g : Ghost) (k : BlockKey).

(** ** One resident *)

Lemma resident_slot s g i m :
  wf s g None → live_at (data s) i m →
  ∃ x cls, s_extents s !! r_extent (m_ref m) = Some x ∧ x_cls x = Some (r_cls (m_ref m)) ∧
    s_classes s !! r_cls (m_ref m) = Some cls ∧ c_slot_size cls = r_slot_size (m_ref m) ∧
    NoDup (slot_of (data s) <$> g_ext g (r_extent (m_ref m))) ∧
    Forall (λ sl, Z.of_nat sl < c_slots_per_extent cls)
      (slot_of (data s) <$> g_ext g (r_extent (m_ref m))).
Proof.
  intros Hwf Hm. pose proof (wf_res _ _ _ Hwf _ _ Hm) as [[spe Hg] Hx _ _ _ _].
  apply xcls_lookup in Hx as (x & Hx & Hxc). exists x.
  pose proof (wf_ext _ _ _ Hwf _ _ Hx) as Hok. unfold ext_ok in Hok. rewrite Hxc in Hok.
  destruct Hok as (cls & Hc & Hb). exists cls. rewrite list_lookup_fmap, Hc in Hg.
  pose proof (eb_slots _ _ _ _ _ _ Hb) as Hp. simpl in Hp. rewrite app_nil_r in Hp.
  assert (Hnd : NoDup (free_of cls (r_extent (m_ref m)) ++
    (slot_of (data s) <$> g_ext g (r_extent (m_ref m))))) by (rewrite Hp; apply NoDup_seq).
  apply NoDup_app in Hnd as (_ & _ & Hnd). split_and!; try done; [by injection Hg|].
  apply Forall_forall. intros sl Hsl.
  assert (Hin : sl ∈ seq 0 (Z.to_nat (c_slots_per_extent cls))) by (rewrite <- Hp; set_solver).
  apply elem_of_seq in Hin. lia.
Qed.

Lemma live_slot_of s g i m :
  wf s g None → live_at (data s) i m →
  r_slot (m_ref m) ∈ slot_of (data s) <$> g_ext g (r_extent (m_ref m)).
Proof.
  intros Hwf Hm. apply list_elem_of_fmap. exists i. split.
  - unfold slot_of. by rewrite (list_lookup_total_correct _ _ _ (proj1 Hm)).
  - apply (mb_ext _ _ (wf_members _ _ _ Hwf)). by exists m.
Qed.

(** No two residents share a slot. *)
Lemma slots_distinct s g i1 i2 m1 m2 :
  wf s g None → live_at (data s) i1 m1 → live_at (data s) i2 m2 →
  r_extent (m_ref m1) = r_extent (m_ref m2) → r_slot (m_ref m1) = r_slot (m_ref m2) → i1 = i2.
Proof.
  intros Hwf H1 H2 He Hs. destruct (resident_slot _ _ _ _ Hwf H1) as (x & cls & _ & _ & _ & _ & Hnd & _).
  apply (NoDup_fmap_inj _ _ _ _ Hnd).
  - apply (mb_ext _ _ (wf_members _ _ _ Hwf)). by exists m1.
  - apply (mb_ext _ _ (wf_members _ _ _ Hwf)). by exists m2.
  - unfold slot_of. by rewrite (list_lookup_total_correct _ _ _ (proj1 H1)),
      (list_lookup_total_correct _ _ _ (proj1 H2)).
Qed.

(** The bytes of a resident lie inside its extent. *)
Lemma resident_range s g i m :
  wf s g None → live_at (data s) i m →
  (r_extent (m_ref m) < o_num_extents (s_opt s))%nat ∧ 0 < r_slot_size (m_ref m) ∧
  0 <= m_useful_bytes m <= r_slot_size (m_ref m) ∧
  r_offset (m_ref m) = Z.of_nat (r_slot (m_ref m)) * r_slot_size (m_ref m) ∧
  r_offset (m_ref m) + r_slot_size (m_ref m) <= o_extent_bytes (s_opt s).
Proof.
  intros Hwf Hm. destruct (resident_slot _ _ _ _ Hwf Hm) as (x & cls & Hx & _ & Hc & Hsz & _ & Hlt).
  pose proof (wf_res _ _ _ Hwf _ _ Hm) as [_ _ Hoff Huse _ _].
  destruct (wf_class_geom _ _ _ _ _ Hwf Hc) as (Hpos & _ & Hspe).
  rewrite Forall_forall in Hlt. specialize (Hlt _ (live_slot_of _ _ _ _ Hwf Hm)).
  apply lookup_lt_Some in Hx. rewrite (wf_extents _ _ _ Hwf) in Hx. rewrite Hsz in *.
  split_and!; [done|lia|lia|lia|done|]. rewrite Hoff. nia.
Qed.

(** The slots of two keys do not overlap. *)
Lemma residents_apart s g k1 k2 m1 m2 :
  wf s g None → view s k1 = Some m1 → view s k2 = Some m2 → k1 ≠ k2 →
  r_extent (m_ref m1) = r_extent (m_ref m2) →
  r_offset (m_ref m1) + r_slot_size (m_ref m1) <= r_offset (m_ref m2) ∨
  r_offset (m_ref m2) + r_slot_size (m_ref m2) <= r_offset (m_ref m1).
Proof.
  intros Hwf (i1 & n1 & H1 & <- & ->)%(view_Some _ _ _ _ _ Hwf)
    (i2 & n2 & H2 & <- & ->)%(view_Some _ _ _ _ _ Hwf) Hne. cbn. intros He.
  destruct (resident_range _ _ _ _ Hwf H1) as (_ & R2 & _ & R4 & _).
  destruct (resident_range _ _ _ _ Hwf H2) as (_ & Q2 & _ & Q4 & _).
  destruct (resident_slot _ _ _ _ Hwf H1) as (x & c1 & Hx & Hc1 & Hl1 & Hs1 & _).
  destruct (resident_slot _ _ _ _ Hwf H2) as (x' & c2 & Hx' & Hc2 & Hl2 & Hs2 & _).
  assert (r_slot_size (m_ref n1) = r_slot_size (m_ref n2)) as Hsz.
  { rewrite He in Hx. simplify_eq. congruence. }
  assert (r_slot (m_ref n1) ≠ r_slot (m_ref n2)).
  { intros Hs. pose proof (slots_distinct _ _ _ _ _ _ Hwf H1 H2 He Hs) as ->.
    destruct H1, H2. congruence. }
  rewrite R4, Q4, Hsz. nia.
Qed.

(** ** All residents together *)

Lemma extent_bytes_bound s g e x :
  wf s g None → s_extents s !! e = Some x →
  sumD w_size (data s) (g_ext g e) <= o_extent_bytes (s_opt s).
Proof.
  intros Hwf Hx. pose proof (wf_ext _ _ _ Hwf _ _ Hx) as Hok. unfold ext_ok in Hok.
  pose proof (oo_extent _ (wf_opt _ _ _ Hwf)). pose proof (oo_align _ (wf_opt _ _ _ Hwf)).
  destruct (x_cls x) as [c|] eqn:Hxc.
  2:{ destruct (g_ext g e) as [|i l] eqn:El; [unfold sumD, sumZ; simpl; lia|].
      destruct (proj1 (mb_ext _ _ (wf_members _ _ _ Hwf) e i)) as (m & Hm & He); [rewrite El; by left|].
      pose proof (rs_extent _ _ _ (wf_res _ _ _ Hwf _ _ Hm)) as Hxe. rewrite He in Hxe.
      apply xcls_lookup in Hxe as (x' & Hx' & ?). congruence. }
  destruct Hok as (cls & Hc & Hb). destruct (wf_class_geom _ _ _ _ _ Hwf Hc) as (Hpos & _ & Hspe).
  assert (Hsum : sumD w_size (data s) (g_ext g e) = c_slot_size cls * Z.of_nat (length (g_ext g e))).
  { rewrite <- sumZ_const. apply sumZ_ext_in. intros i Hi.
    apply (mb_ext _ _ (wf_members _ _ _ Hwf)) in Hi as (m & Hm & <-).
    rewrite (list_lookup_total_correct _ _ _ (proj1 Hm)).
    destruct (resident_slot _ _ _ _ Hwf Hm) as (x' & cls' & Hx' & Hxc' & Hc' & Hsz & _).
    assert (x' = x) as -> by congruence. unfold w_size. congruence. }
  assert (Hlen : Z.of_nat (length (g_ext g e)) <= c_slots_per_extent cls); [|rewrite Hsum; nia].
  pose proof (Permutation_length (eb_slots _ _ _ _ _ _ Hb)) as Hp.
  rewrite !length_app, length_fmap, length_seq in Hp. destruct (wf_class_geom _ _ _ _ _ Hwf Hc) as (_ & ? & _). lia.
Qed.

Lemma sum_by_extent s g (f : SlotMeta → Z) :
  wf s g None →
  sumD f (data s) (g_all g) = sumZ (λ e, sumD f (data s) (g_ext g e)) (seq 0 (length (s_extents s))).
Proof.
  intros Hwf. unfold sumD at 1.
  rewrite (sumZ_partition _ (λ i, r_extent (m_ref (data s !!! i))) (length (s_extents s))).
  2:{ apply Forall_forall. intros i (m & Hm)%(mb_all _ _ (wf_members _ _ _ Hwf)).
      rewrite (list_lookup_total_correct _ _ _ (proj1 Hm)).
      destruct (resident_slot _ _ _ _ Hwf Hm) as (x & cls & Hx & _). by eapply lookup_lt_Some. }
  apply sumZ_ext_in. intros e [_ He]%elem_of_seq. destruct (lookup_lt_is_Some_2 _ _ He) as [x Hx].
  unfold sumD. apply sumZ_Permutation. apply NoDup_Permutation.
  - by apply NoDup_filter, (wf_all_nodup Hwf).
  - by eapply (wf_ext_nodup Hwf).
  - intros i. rewrite list_elem_of_filter, (mb_all _ _ (wf_members _ _ _ Hwf)),
      (mb_ext _ _ (wf_members _ _ _ Hwf)). split.
    + intros (Hr & m & Hm). exists m. by rewrite (list_lookup_total_correct _ _ _ (proj1 Hm)) in Hr.
    + intros (m & Hm & Hr). rewrite (list_lookup_total_correct _ _ _ (proj1 Hm)). split; [done|by exists m].
Qed.

Lemma used_bound s g :
  wf s g None → 0 <= UsedBytes s <= Capacity s ∧ UsedBytes s = sumD w_size (data s) (g_all g).
Proof.
  intros Hwf. unfold UsedBytes, Capacity. rewrite (wf_used _ _ _ Hwf). split; [|done]. split.
  - apply sumZ_nonneg. intros i (m & Hm)%(mb_all _ _ (wf_members _ _ _ Hwf)).
    rewrite (list_lookup_total_correct _ _ _ (proj1 Hm)).
    destruct (resident_range _ _ _ _ Hwf Hm) as (_ & ? & _). unfold w_size. lia.
  - rewrite (sum_by_extent _ _ _ Hwf). etrans.
    + apply (sumZ_le _ (λ _, o_extent_bytes (s_opt s))). intros e [_ He]%elem_of_seq.
      destruct (lookup_lt_is_Some_2 _ _ He) as [x Hx]. by eapply extent_bytes_bound.
    + rewrite sumZ_const, length_seq, (wf_extents _ _ _ Hwf). lia.
Qed.

(** ** The sweep order *)

(** The residents from the global hand on, following the ring. *)
Fixpoint ring_walk (fuel : nat) (slots : list SlotMeta) (head from : option nat) : list nat :=
  match fuel, from with
  | S fuel, Some i =>
      i :: ring_walk fuel slots head (ring_next (l_next (m_global (slots !!! i))) head)
  | _, _ => []
  end.

Definition GlobalOrder s : list nat :=
  ring_walk (Count s) (s_slots s) (s_global_ring_head s) (s_global_hand s).

Lemma ring_walk_take n : ∀ slots hd hand l,
  ring (links RGlobal slots) hd hand l → (n <= length l)%nat → ring_walk n slots hd hand = take n l.
Proof.
  induction n as [|n IH]; intros slots hd hand l Hr Hn; [by destruct hand|].
  pose proof (ring_hand _ _ _ _ Hr) as Hh. destruct l as [|i l]; [simpl in Hn; lia|].
  simpl in Hh. subst hand. cbn [ring_walk take]. f_equal.
  pose proof (ring_advance _ _ _ _ _ Hr) as Hr'. cbn [get_link] in Hr'. rewrite (IH _ _ _ _ Hr'); simpl in *.
  - by rewrite take_app_le by lia.
  - rewrite length_app. simpl. lia.
Qed.

Lemma GlobalOrder_eq s g : wf s g None → GlobalOrder s = g_all g.
Proof.
  intros Hwf. unfold GlobalOrder, Count. rewrite (wf_size _ _ _ Hwf).
  rewrite (ring_walk_take _ _ _ _ (g_all g)); [by rewrite firstn_all|apply Hwf|done].
Qed.

End layout.
