(* ===== verification/SlabProps.v ===== *)
(** * Slab allocator: what it guarantees

    The properties of the allocator in terms of its operations: the invariant
    over every run, the layout of the medium, what [Put] does, what survives
    pins, retention and eviction, and restarts. *)

From S2P Require Import Prelude KvTypes KeyIndex SlabTypes SlabLattice SlabRing SlabFree SlabOps.
From S2P Require Import SlabInv SlabStruct SlabInstall SlabWf SlabEvict SlabSteal SlabPut.
From S2P Require Import SlabAccess SlabReclaim SlabFrame SlabRetain SlabRestore SlabMachine.
From S2P Require Import SlabLayout.

Section props.
Context {IX : Type} {ixo : KeyIndexOps IX} {ixl : KeyIndexLaws IX}.
Notation St := (SlabAllocator IX).
Implicit Types (s : St) (k key : BlockKey).

(** ** Runs *)

(** A fresh allocator, with retention configured or not. *)
Definition initial (opt : Options) (cold_env : option Z) (retain : option (RetainOptions * Z)) : St :=
  match retain with
  | None => new_allocator opt cold_env
  | Some (options, now) => ConfigureRetention options now (new_allocator opt cold_env)
  end.

Definition initial_ok (opt : Options) (retain : option (RetainOptions * Z)) : Prop :=
  opts_ok (normalize_options opt) ∧
  match retain with
  | None => True
  | Some (options, now) => 0 <= ro_max_ttl_s options ∧ is_u32 now ∧ kWheelTickS <= now
  end.

Lemma initial_spec opt env retain :
  initial_ok opt retain → WF (initial opt env retain) ∧ ret_ok (initial opt env retain).
Proof.
  intros [Hok Hr]. pose proof (new_allocator_wf opt env Hok) as Hwf.
  destruct retain as [[options now]|]; [|split; [done|apply new_allocator_ret_ok]].
  destruct Hr as (H1 & H2 & H3).
  destruct (ConfigureRetention_spec options now (new_allocator opt env) Hwf H2 H3 H1) as (? & ? & _);
    [|done]. intros k m. by rewrite new_allocator_view.
Qed.

Lemma run_ops_spec ops : ∀ s,
  WF s → ret_ok s → Forall op_ok ops → pins_fit ops s = true →
  ∃ s', run_ops ops s = Some s' ∧ WF s' ∧ ret_ok s'.
Proof.
  induction ops as [|op ops IH]; intros s Hwf Hr Hops Hfit; simpl; [by exists s|].
  apply Forall_cons in Hops as [Hop Hops]. apply andb_true_iff in Hfit as [Hroom Hfit].
  destruct (run_op_spec op s Hwf Hr Hop Hroom) as (s1 & E & Hst). rewrite E in Hfit |- *.
  by apply IH; [apply Hst|apply Hst| |].
Qed.

(** C1. From a freshly constructed allocator, every sequence of public
    operations in which no pin finds its 32-bit count at the maximum runs to
    completion (no loop of [Put], of a steal or of a sweep outlives its bound)
    and ends in a state that satisfies the allocator's invariant: index, slot
    records, the three intrusive rings, the free lists, every counter and the
    retention wheel agree with one another. *)
Theorem runs_keep_invariant opt env retain ops :
  initial_ok opt retain → Forall op_ok ops → pins_fit ops (initial opt env retain) = true →
  ∃ s', run_ops ops (initial opt env retain) = Some s' ∧ WF s' ∧ ret_ok s'.
Proof. intros Hi Hops. destruct (initial_spec opt env retain Hi). by apply run_ops_spec. Qed.

(** ** Layout *)

(** C6. In every well-formed state the value of a resident fits its slot, the
    slot's bytes lie inside one extent of the medium, and the byte ranges of
    two different keys never overlap. *)
Theorem residents_disjoint s k1 k2 m1 m2 :
  WF s → view s k1 = Some m1 → view s k2 = Some m2 → k1 ≠ k2 →
  (r_extent (m_ref m1) < o_num_extents (s_opt s))%nat ∧
  0 <= m_useful_bytes m1 <= r_slot_size (m_ref m1) ∧
  0 <= r_offset (m_ref m1) ∧
  r_offset (m_ref m1) + r_slot_size (m_ref m1) <= o_extent_bytes (s_opt s) ∧
  (r_extent (m_ref m1) = r_extent (m_ref m2) →
     r_offset (m_ref m1) + r_slot_size (m_ref m1) <= r_offset (m_ref m2) ∨
     r_offset (m_ref m2) + r_slot_size (m_ref m2) <= r_offset (m_ref m1)).
Proof.
  intros [g Hwf] V1 V2 Hne. pose proof (residents_apart _ _ _ _ _ _ Hwf V1 V2 Hne) as Ha.
  apply (view_Some _ _ _ _ _ Hwf) in V1 as (i1 & n1 & H1 & <- & ->).
  destruct (resident_range _ _ _ _ Hwf H1) as (R1 & R2 & R3 & R4 & R5). cbn. split_and!; [done|lia|lia|nia|done|done].
Qed.

(** [UsedBytes] never exceeds [Capacity]. *)
Theorem used_within_capacity s : WF s → 0 <= UsedBytes s <= Capacity s.
Proof. intros [g Hwf]. by destruct (used_bound _ _ Hwf). Qed.

(** ** [Put] *)

(** C2. [Put] always returns.  What it evicts was idle (no pins, no live
    protection) and is gone; every other key keeps its record.  On success the
    key is present, [Get] answers the returned placement, and the slot is at
    least as long as a newly stored value.  It fails only for a key whose
    removal is pending, a length no class can hold, a refusal of the medium,
    or when every candidate for eviction is pinned or protected; except after a
    refusal, a [Put] that fails has evicted nothing. *)
Theorem put_correct key len s :
  WF s → 0 <= len →
  ∃ out s' ev, Put key len s [] = Some (out, s', ev) ∧ WF s' ∧
    (∀ k, k ∈ ev → view s' k = None ∧ ∃ m, view s k = Some m ∧ idle m) ∧
    (∀ k, k ∉ ev → k ≠ key → view s' k = view s k) ∧
    match out with
    | Some (ref, handle) =>
        Contains key s' = true ∧ (Get key s').1 = Some ref ∧
        ix_find key (s_index s') = Some handle ∧
        (view s key = None → len <= r_slot_size ref ∧
           r_cls ref = ClassForLen s (AlignUp len (o_align (s_opt s))))
    | None =>
        Contains key s' = false ∧
        ((∃ m, view s key = Some m ∧ m_remove_pending m = true) ∨
         ¬ (0 < len <= max_aligned (s_opt s)) ∨ refused s s' ∨
         no_room (ClassForLen s (AlignUp len (o_align (s_opt s)))) s') ∧
        (refused s s' ∨ ev = [])
    end.
Proof.
  intros Hwf Hlen. destruct (Put_spec key len s [] Hwf Hlen) as (out & s' & ev & E & Hwf' & Ho).
  exists out, s', ev. split; [done|]. split; [done|].
  assert (Hget : ∀ m, view s' key = Some m → m_remove_pending m = false →
    Contains key s' = true ∧ (Get key s').1 = Some (m_ref m)).
  { intros m Hm Hp. rewrite Contains_spec, Hm, Hp by done. split; [done|].
    destruct (Get key s') as [r s2] eqn:Eg. destruct (Get_spec _ _ _ _ Hwf' Eg) as [_ Hs].
    rewrite Hm, Hp in Hs. by destruct Hs as [-> _]. }
  assert (Hkeep : ∀ s1 ev1, Evicts s ev1 s1 →
    (∀ k, k ∈ ev1 → view s1 k = None ∧ ∃ m, view s k = Some m ∧ idle m) ∧
    (∀ k, k ∉ ev1 → view s1 k = view s k)).
  { intros s1 ev1 Hev. split; intros k Hk; rewrite (ev_view _ _ _ Hev).
    - rewrite decide_True by done. split; [done|]. destruct (ev_idle _ _ _ Hev k Hk) as (m & Hm & ?). by exists m.
    - by rewrite decide_False. }
  assert (Hnil : ∀ k, k ∉ @nil BlockKey) by (by intros k ?%elem_of_nil).
  destruct Ho as [i m s' Hm Hp Hi Hev|m s' Hm Hp Hev|s' Hm Hl Hev|ev s' Hm Hl Hev Hr|
    s1 ev i m s' Hnone Hl Hev Hv Hop Hlg Hlive Hk Hu Hid Ht Hc];
    destruct (Hkeep _ _ Hev) as [Hk1 Hk2].
  1-4: split; [done|]; split; [by auto|].
  - destruct (Hget m) as [H1 H2]; [by rewrite Hk2|done|]. split_and!; [done|done|done|congruence].
  - rewrite Contains_spec, Hk2, Hm, Hp by done. split_and!; [done| |by right]. left. by exists m.
  - rewrite Contains_spec, Hk2, Hm by done. split_and!; [done|by auto|by right].
  - assert (Hnk : key ∉ ev) by (intros (_ & y & ? & _)%Hk1; congruence).
    rewrite Contains_spec, Hk2, Hm by done. split; [done|]. destruct Hr as [|[]]; auto 6.
  - assert (Hnk : key ∉ ev) by (intros (_ & y & ? & _)%Hk1; congruence).
    assert (Hrp : m_remove_pending m = false) by apply Ht.
    split; [|split].
    + intros k Hin. rewrite Hv, decide_False by (by intros ->). by apply Hk1.
    + intros k Hin Hne. rewrite Hv, decide_False by done. by apply Hk2.
    + destruct (Hget (unref m)) as [H1 H2]; [by rewrite Hv, decide_True|done|]. split_and!; [done|done| |].
      * destruct Hwf' as [g' Hwf']. apply (wf_find _ _ _ Hwf'). by exists m.
      * intros _. split; [|done]. destruct Hwf' as [g' Hwf'].
        destruct (resident_range _ _ _ _ Hwf' Hlive) as (_ & _ & ? & _). lia.
Qed.

(** ** What survives *)

Lemma run_ops_cons op ops s s' :
  WF s → ret_ok s → Forall op_ok (op :: ops) → pins_fit (op :: ops) s = true →
  run_ops (op :: ops) s = Some s' →
  ∃ s1, stepped op s s1 ∧ run_ops ops s1 = Some s' ∧ Forall op_ok ops ∧ pins_fit ops s1 = true.
Proof.
  intros Hwf Hr [Hop Hops]%Forall_cons [Hroom Hfit]%andb_true_iff Hrun.
  destruct (run_op_spec op s Hwf Hr Hop Hroom) as (s1 & E & Hst).
  exists s1. rewrite E in Hfit. simpl in Hrun. by rewrite E in Hrun.
Qed.

Lemma run_ops_frame ops : ∀ s s',
  WF s → ret_ok s → Forall op_ok ops → pins_fit ops s = true → run_ops ops s = Some s' →
  t_now_s (s_retention s) <= t_now_s (s_retention s') ∧ s_opt s' = s_opt s ∧ WF s' ∧ ret_ok s'.
Proof.
  induction ops as [|op ops IH]; intros s s' Hwf Hr Hops Hfit Hrun; [by injection Hrun as <-|].
  destruct (run_ops_cons _ _ _ _ Hwf Hr Hops Hfit Hrun) as (s1 & Hst & Hrun1 & Hops1 & Hfit1).
  pose proof (sp_clock _ _ _ Hst). rewrite <- (sp_opt _ _ _ Hst).
  destruct (IH s1 s' (sp_wf _ _ _ Hst) (sp_ret _ _ _ Hst) Hops1 Hfit1 Hrun1) as (? & ?). split; [lia|done].
Qed.

Lemma same_place_trans m1 m2 m3 : same_place m1 m2 → same_place m2 m3 → same_place m1 m3.
Proof. intros (? & ? & ?) (? & ? & ?). unfold same_place. split_and!; congruence. Qed.

(** C3. A pinned resident survives every run of operations that does not
    unpin it and in which no pin finds its 32-bit count at the maximum: same
    key, same placement, same length, at least as many pins.  This covers puts
    under pressure, steals, watermark sweeps, [Remove] (which defers) and
    expiry. *)
Theorem pinned_survives ops : ∀ s s' k m,
  WF s → ret_ok s → Forall op_ok ops → pins_fit ops s = true → run_ops ops s = Some s' →
  view s k = Some m → 0 < m_refs m → Forall (λ op, unpins op k = false) ops →
  ∃ m', view s' k = Some m' ∧ same_place m m' ∧ m_refs m <= m_refs m' < 2 ^ 32.
Proof.
  induction ops as [|op ops IH]; intros s s' k m Hwf Hr Hops Hfit Hrun Hm Hpin Hun.
  { injection Hrun as <-. exists m. split_and!; try done.
    destruct Hwf as [g Hwf]. apply (view_Some _ _ _ _ _ Hwf) in Hm as (i & m0 & Hm0 & _ & ->).
    apply (rs_refs _ _ _ (wf_res _ _ _ Hwf _ _ Hm0)). }
  destruct (run_ops_cons _ _ _ _ Hwf Hr Hops Hfit Hrun) as (s1 & Hst & Hrun1 & Hops1 & Hfit1).
  apply Forall_cons in Hun as [Hu Hun].
  pose proof (sp_fate _ _ _ Hst k m Hm) as Hf. destruct (view s1 k) as [m1|] eqn:Em1.
  - inversion Hf as [m0 Hsp [Hrefs|?] _ _ _| | |]; [|congruence]. subst m0.
    destruct (IH s1 s' k m1 (sp_wf _ _ _ Hst) (sp_ret _ _ _ Hst) Hops1 Hfit1 Hrun1 Em1 ltac:(lia) Hun)
      as (m' & Hm' & Hsp' & Hr'). exists m'. split_and!; [done|by eapply same_place_trans|lia|lia].
  - inversion Hf as [|[? _]| |]; [lia|lia|congruence].
Qed.

(** C4. A protected resident whose removal is not pending survives every run of
    operations that does not remove it and ends before its deadline, and its
    deadline is not brought forward.  Others may pin and unpin it. *)
Theorem protected_survives ops : ∀ s s' k m,
  WF s → ret_ok s → Forall op_ok ops → pins_fit ops s = true → run_ops ops s = Some s' →
  view s k = Some m → m_remove_pending m = false → t_now_s (s_retention s') < m_retain_until m →
  ORemove k ∉ ops →
  ∃ m', view s' k = Some m' ∧ same_place m m' ∧ m_remove_pending m' = false ∧
    m_retain_until m <= m_retain_until m'.
Proof.
  induction ops as [|op ops IH]; intros s s' k m Hwf Hr Hops Hfit Hrun Hm Hpd Hnow Hun.
  { injection Hrun as <-. exists m. split_and!; done. }
  destruct (run_ops_cons _ _ _ _ Hwf Hr Hops Hfit Hrun) as (s1 & Hst & Hrun1 & Hops1 & Hfit1).
  apply not_elem_of_cons in Hun as [Hu Hun].
  destruct (run_ops_frame ops s1 s' (sp_wf _ _ _ Hst) (sp_ret _ _ _ Hst) Hops1 Hfit1 Hrun1) as [Hclk _].
  pose proof (rt_now _ (sp_ret _ _ _ Hst)) as Hpos.
  pose proof (sp_fate _ _ _ Hst k m Hm) as Hf. destruct (view s1 k) as [m1|] eqn:Em1.
  - inversion Hf as [m0 Hsp _ _ [Hp|?] [Hrefs|?]| | |]; [|lia|congruence..]. subst m0.
    destruct (IH s1 s' k m1 (sp_wf _ _ _ Hst) (sp_ret _ _ _ Hst) Hops1 Hfit1 Hrun1 Em1 ltac:(congruence) ltac:(lia) Hun)
      as (m' & Hm' & Hsp' & Hpd' & Hr'). exists m'. split_and!; [done|by eapply same_place_trans|done|lia].
  - inversion Hf as [|[_ ?]| |]; [lia|congruence|congruence].
Qed.

(** A pin keeps every key. *)
Lemma pin_slot_index i s : s_index (pin_slot i s) = s_index s.
Proof. unfold pin_slot. by case_match. Qed.

Lemma pin_keeps op s s' k :
  op_room op s = false → run_op op s = Some s' → view s' k = None → view s k = None.
Proof.
  rewrite !view_None. destruct op; try done; cbn [run_op]; intros _ E; apply (inj Some) in E as <-.
  - unfold GetAndPin. destruct (ix_find key (s_index s)) as [i|]; [|done].
    destruct (m_remove_pending _); [done|]. cbn [snd]. rewrite pin_slot_index.
    by destruct (touch_frame i s) as [(-> & _) _].
  - unfold Pin. destruct (ix_find key (s_index s)) as [i|]; [|done].
    destruct (m_remove_pending _); [done|]. cbn [snd]. by rewrite pin_slot_index.
  - unfold PinHandle. destruct handle as [i|]; [|done]. destruct (_ <=? _)%nat; [done|]. cbv zeta.
    destruct (_ || _); [done|]. cbn [snd]. by rewrite pin_slot_index.
Qed.

(** C5. Over a persistent medium (both eviction callbacks installed), a
    resident that leaves without its owner's [Remove] or last [Unpin] leaves
    only after the medium acknowledged the loss of its slot or of its extent
    during that same operation. *)
Theorem eviction_acknowledged op s s' k m :
  WF s → ret_ok s → op_ok op → run_op op s = Some s' → durable (s_opt s) →
  view s k = Some m → view s' k = None → op ≠ ORemove k → unpins op k = false →
  ∃ L, s_cb_log s' = s_cb_log s ++ L ∧ acked L m.
Proof.
  intros Hwf Hr Hop Hrun Hd Hm Hm' H1 H2. destruct (op_room op s) eqn:Hroom.
  2:{ by rewrite (pin_keeps _ _ _ _ Hroom Hrun Hm') in Hm. }
  destruct (run_op_spec op s Hwf Hr Hop Hroom) as (s1 & E & Hst).
  assert (s1 = s') as -> by congruence. destruct (sp_log _ _ _ Hst) as (L & HL & Hack).
  exists L. split; [done|]. by eapply Hack.
Qed.

(** The watermark sweep evicts in sweep order: its victims are the first
    idle residents met from the global hand on.  It never evicts more than
    [max_victims], and it stops short of the target only when that bound, a
    refusal of the medium, an extent-only medium or the lack of idle residents
    (or of steps: four per victim) forces it to. *)
Theorem watermark_in_order target max s :
  WF s → Z.of_nat max <= SIZE_MAX / 4 →
  ∃ s' ev rest, EvictColdToTarget target max s [] = (length ev, s', ev) ∧ WF s' ∧ Evicts s ev s' ∧
    idle_keys (data s) (GlobalOrder s) = ev ++ rest ∧ (length ev <= max)%nat ∧
    ((max <= length ev)%nat ∨ UsedBytes s' <= target ∨ refused s s' ∨ extent_only s ∨ rest = [] ∨
     (4 * max < Count s)%nat).
Proof.
  intros [g Hwf] Hmax.
  destruct (EvictColdToTarget_spec target max s [] g Hwf Hmax) as (s' & ev & rest & E & H1 & H2 & H3 & H4 & H5).
  exists s', ev, rest. rewrite (GlobalOrder_eq _ _ Hwf). unfold Count, UsedBytes.
  rewrite (wf_size _ _ _ Hwf). split_and!; try done. apply H4. lia.
Qed.

(** ** Retention *)

(** C9. After [ExpireRetention] at time [now], no protection whose deadline is
    one wheel tick (ten seconds) or more in the past is left; the call only
    releases protections whose deadline has come and evicts nothing. *)
Theorem expiry_releases now s :
  WF s → ret_ok s → is_u32 now →
  ∃ n s', ExpireRetention now s = (n, s') ∧ WF s' ∧ ret_ok s' ∧
    (∀ k m, view s' k = Some m → m_retain_until m ≠ 0 → now < m_retain_until m + kWheelTickS) ∧
    (∀ k, view s' k = view s k ∨ ∃ m, view s k = Some m ∧
       0 < m_retain_until m <= t_now_s (s_retention s') ∧
       view s' k = Some (unref (set_m_retain_until (λ _, 0) m))).
Proof.
  intros Hwf Hr Hn.
  destruct (ExpireRetention_spec now s Hwf Hr Hn) as (n & s' & E & H1 & H2 & H3 & _ & _ & _ & H4 & H5).
  exists n, s'. split_and!; try done. intros k m Hm Hu. specialize (H5 k m Hm Hu). lia.
Qed.

(** A deadline that [Retain] reports is the one the resident now has; it
    is not before the previous one, and goes beyond it at most to the maximum
    TTL from the clock; the protected bytes grow only within the budget; no
    other resident changes. *)
Theorem retain_bounded key ttl mode now s :
  WF s → ret_ok s → 0 <= ttl → is_u32 now →
  ∃ out s', Retain key ttl mode now s = (out, s') ∧ WF s' ∧ ret_ok s' ∧
    (∀ k, k ≠ key → view s' k = view s k) ∧
    (out_until out ≠ 0 → ∃ m m', view s key = Some m ∧ view s' key = Some m' ∧
       m_retain_until m' = out_until out ∧ m_retain_until m <= out_until out ∧
       out_until out <= Z.max (m_retain_until m)
         (t_now_s (s_retention s') + ro_max_ttl_s (t_opt (s_retention s)))) ∧
    (t_protected_bytes (s_retention s) < t_protected_bytes (s_retention s') →
       t_protected_bytes (s_retention s') <= ro_budget_bytes (t_opt (s_retention s))).
Proof.
  intros Hwf Hr Httl Hn. destruct (Retain_spec key ttl mode now s Hwf Httl) as
    (out & s' & E & Hwf' & Hck & Ho); [by apply Hn|by apply Hr|by apply Hr|by apply Hr|].
  exists out, s'. split; [done|]. split; [done|]. split; [by eapply Retain_ret_ok|].
  rewrite (ck_now _ _ _ Hck).
  destruct Ho as [s' _ [_ Hpb] Hv|m0 s' _ _ [_ Hpb] Hv|m0 s' Hm0 _ _ [_ Hpb] Hup|m0 s' Hm0 _ _ [_ Hpb] Hup|
    m0 p code s' eff until Hm0 _ _ Heff Hbud _ Hpb Hup]; rewrite Hpb; simpl.
  1-4: split; [|split; [done|lia]]; intros k Hk; rewrite ?(up_view _ _ _ _ Hup), ?decide_False by done; done.
  split; [|split].
  - intros k Hk. by rewrite (up_view _ _ _ _ Hup), decide_False.
  - intros _. do 2 eexists. split; [done|]. split; [by rewrite (up_view _ _ _ _ Hup), decide_True|].
    assert (Heff2 : eff <= ro_max_ttl_s (t_opt (s_retention s))) by (unfold eff, effective_ttl; destruct mode; lia).
    unfold until, new_deadline. split_and!; [by destruct p, mode|lia|lia].
  - destruct (Z.eqb_spec (m_retain_until m0) 0) as [H0|]; [|lia]. intros _. by apply Hbud.
Qed.

(** ** Restarts *)

(** C7. [RestoreBulk] is all or nothing.  It refuses a batch exactly when
    some entry does not fit the allocator or collides with another entry, and
    then leaves the state untouched; an accepted batch makes every entry
    resident at its recorded place and changes no other key. *)
Theorem restore_all_or_nothing entries s :
  WF s → ret_ok s → Forall entry_nonneg entries →
  ∃ ok s', RestoreBulk entries s = (ok, s') ∧ WF s' ∧ ret_ok s' ∧ (ok = true ↔ batch_ok s entries) ∧
    if ok then
      (∀ en, en ∈ entries → view s' (re_key en) = Some (restored s en)) ∧
      (∀ k, k ∉ re_key <$> entries → view s' k = view s k)
    else s' = s.
Proof.
  intros Hwf Hr Hu. pose proof (RestoreBulk_spec entries s Hwf Hr Hu) as Hs.
  destruct (RestoreBulk entries s) as [ok s']; exists ok, s'; destruct ok.
  - destruct Hs as (Hb & H1 & H2 & _ & _ & _ & H3 & H4). split_and!; try done.
  - destruct Hs as [-> Hb]. split_and!; try done.
Qed.

(** An entry of the medium for a resident: its key, its place and its length,
    with some recorded TTL and deadline. *)
Definition saves (m : SlotMeta) (en : RestoreEntry) : Prop :=
  re_key en = m_key m ∧ re_slot_size en = r_slot_size (m_ref m) ∧ re_extent en = r_extent (m_ref m) ∧
  re_slot en = r_slot (m_ref m) ∧ re_value_bytes en = m_useful_bytes m ∧ 0 <= re_retain_ttl_s en.

(** [entries] lists every resident of [s] once. *)
Definition lists s (entries : list RestoreEntry) : Prop :=
  NoDup (re_key <$> entries) ∧
  (∀ en, en ∈ entries → ∃ k m, view s k = Some m ∧ saves m en) ∧
  (∀ k m, view s k = Some m → ∃ en, en ∈ entries ∧ saves m en).

(** The TTL and the deadline a restart gives to what the entry recorded. *)
Definition retention_after (retain : option (RetainOptions * Z)) (en : RestoreEntry) : Z * Z :=
  match retain with
  | None => (0, 0)
  | Some (options, now) =>
      if ro_enabled options && negb (ro_max_ttl_s options =? 0) then
        let ttl := Z.min (re_retain_ttl_s en) (ro_max_ttl_s options) in
        (ttl, if (now <? re_retain_until en) && negb (re_retain_ttl_s en =? 0)
              then Z.min (re_retain_until en) (now + ttl) else 0)
      else (0, 0)
  end.

Lemma placement_inj a b :
  Z.of_nat (re_slot a) < 2 ^ 32 → Z.of_nat (re_slot b) < 2 ^ 32 → placement_of a = placement_of b →
  re_extent a = re_extent b ∧ re_slot a = re_slot b.
Proof.
  intros Ha Hb. unfold placement_of.
  assert (Hadd : ∀ x y : Z, 0 <= y < 2 ^ 32 → Z.lor (Z.shiftl x 32) y = x * 2 ^ 32 + y).
  { intros x y Hy. rewrite Z.shiftl_mul_pow2 by lia. rewrite <- Z.add_lor_land.
    replace (Z.land (x * 2 ^ 32) y) with 0; [lia|]. symmetry. apply Z.bits_inj'. intros n Hn.
    rewrite Z.land_spec, Z.bits_0. destruct (Z.lt_ge_cases n 32).
    - by rewrite Z.mul_pow2_bits_low.
    - rewrite (Z.bits_above_log2 y) by (first [lia|destruct (decide (y = 0)) as [->|];
        [simpl; lia|apply Z.log2_lt_pow2; [lia|];
         eapply Z.lt_le_trans; [apply Hy|by apply Z.pow_le_mono_r]]]).
      apply andb_false_r. }
  rewrite !Hadd by lia. intros. lia.
Qed.

(** The residents of one allocator fit a fresh one of the same geometry. *)
Lemma saved_fits s s0 k m en :
  WF s → s_opt s0 = s_opt s → (∀ k, view s0 k = None) →
  (∀ e, (e < o_num_extents (s_opt s))%nat → xcls s0 !! e = Some None) →
  view s k = Some m → saves m en → fits s0 en ∧ class_of_entry s0 en = r_cls (m_ref m).
Proof.
  intros [g Hwf] Ho Hv0 Hx0 (i & m0 & Hm & <- & ->)%(view_Some _ _ _ _ _ Hwf) (E1 & E2 & E3 & E4 & E5 & E6).
  cbn in E1, E2, E3, E4, E5.
  destruct (resident_slot _ _ _ _ Hwf Hm) as (x & cls & Hx & _ & Hc & Hsz & _ & Hlt).
  destruct (resident_range _ _ _ _ Hwf Hm) as (Hr1 & _ & Hr3 & _).
  rewrite Forall_forall in Hlt. specialize (Hlt _ (live_slot_of _ _ _ _ Hwf Hm)).
  destruct (fmap_lookup_eq _ _ _ _ _ (wf_geom _ _ _ Hwf) Hc) as (cl & Hcl & [= Hs1 Hs2]).
  assert (Hce : class_of_entry s0 en = r_cls (m_ref m0)).
  { unfold class_of_entry. rewrite Ho, E2.
    destruct (class_for_exact_size_found (class_lattice (s_opt s)) (r_slot_size (m_ref m0)))
      as (cl' & Hcl' & Hs').
    { apply list_elem_of_fmap. exists cl. split; [congruence|]. by eapply list_elem_of_lookup_2. }
    destruct (class_lattice_spec _ (wf_opt _ _ _ Hwf)) as (_ & Hss & _).
    eapply (sorted_unique _ _ _ _ Hss); rewrite list_lookup_fmap, ?Hcl', ?Hcl; [done|].
    simpl. congruence. }
  split; [|done]. split.
  - rewrite Hce, Ho, ?E2, ?E3, ?E4. exists cl. split_and!; [done|congruence|lia].
  - rewrite E2, E5. lia.
  - apply Hv0.
  - left. rewrite E3. by apply Hx0.
  - intros k m. by rewrite Hv0.
Qed.

(** Two residents neither share a place nor an extent of different classes. *)
Lemma saved_apart s ka ma a kb mb b :
  WF s → view s ka = Some ma → view s kb = Some mb → saves ma a → saves mb b → re_key a ≠ re_key b →
  apart a b.
Proof.
  intros [g Hwf] Ha Hb (A1 & A2 & A3 & A4 & _) (B1 & B2 & B3 & B4 & _) Hne. rewrite A1, B1 in Hne.
  apply (view_Some _ _ _ _ _ Hwf) in Ha as (ia & na & La & <- & ->), Hb as (ib & nb & Lb & <- & ->).
  cbn in *. destruct (resident_slot _ _ _ _ Hwf La) as (xa & ca & Xa & Ca & Ka & Sa & _ & Fa).
  destruct (resident_slot _ _ _ _ Hwf Lb) as (xb & cb & Xb & Cb & Kb & Sb & _ & Fb).
  rewrite Forall_forall in Fa, Fb. specialize (Fa _ (live_slot_of _ _ _ _ Hwf La)).
  specialize (Fb _ (live_slot_of _ _ _ _ Hwf Lb)).
  destruct (wf_class_geom _ _ _ _ _ Hwf Ka) as (_ & ? & _).
  destruct (wf_class_geom _ _ _ _ _ Hwf Kb) as (_ & ? & _). split.
  - intros [He Hs]%placement_inj; rewrite ?A4, ?B4; [|lia|lia]. rewrite A3, B3 in He. rewrite A4, B4 in Hs.
    pose proof (slots_distinct _ _ _ _ _ _ Hwf La Lb He Hs) as ->. destruct La, Lb. congruence.
  - rewrite A3, B3, A2, B2. intros He. rewrite He in Xa. simplify_eq. congruence.
Qed.

Lemma saved_batch s s0 entries :
  WF s → s_opt s0 = s_opt s → (∀ k, view s0 k = None) →
  (∀ e, (e < o_num_extents (s_opt s))%nat → xcls s0 !! e = Some None) →
  lists s entries → batch_ok s0 entries.
Proof.
  intros Hwf Ho Hv0 Hx0 (Hnd & Hin & _). split; [|done|].
  - apply Forall_forall. intros en (k & m & Hm & He)%Hin. by eapply saved_fits.
  - rewrite <- Forall_forall in Hin. induction entries as [|a l IH]; constructor.
    + apply Forall_cons in Hin as [(ka & ma & Ha & Sa) Hall]. apply NoDup_cons in Hnd as [Hna _].
      rewrite Forall_forall in Hall |- *. intros b Hb. destruct (Hall b Hb) as (kb & mb & Hmb & Sb).
      apply (saved_apart s ka ma a kb mb b); try done. intros Heq. apply Hna. apply list_elem_of_fmap. by exists b.
    + apply Forall_cons in Hin as [_ Hall]. apply NoDup_cons in Hnd as [_ Hnd]. by apply IH.
Qed.

Lemma saved_nonneg s entries : WF s → lists s entries → Forall entry_nonneg entries.
Proof.
  intros [g Hwf] (_ & Hin & _). apply Forall_forall.
  intros en (k & m & Hm & _ & E2 & _ & _ & E5 & E6)%Hin.
  apply (view_Some _ _ _ _ _ Hwf) in Hm as (i & m0 & Hm0 & _ & ->).
  destruct (resident_range _ _ _ _ Hwf Hm0) as (_ & ? & ? & _). unfold entry_nonneg. rewrite E2, E5. cbn. lia.
Qed.

(** What a fresh allocator makes of the entry of a resident. *)
Lemma restored_saved opt env retain s k m en :
  WF s → view s k = Some m → saves m en → class_of_entry (initial opt env retain) en = r_cls (m_ref m) →
  let m' := restored (initial opt env retain) en in
  same_place m m' ∧ m_refs m' = 0 ∧ m_remove_pending m' = false ∧
  (m_retain_ttl_s m', m_retain_until m') = retention_after retain en.
Proof.
  intros [g Hwf] Hm (E1 & E2 & E3 & E4 & E5 & _) Hce.
  apply (view_Some _ _ _ _ _ Hwf) in Hm as (i & m0 & Hm0 & _ & ->).
  destruct (resident_range _ _ _ _ Hwf Hm0) as (_ & _ & _ & Hoff & _). cbn in E1, E2, E3, E4, E5.
  assert (Hp : same_place (unref m0) (restored (initial opt env retain) en)).
  { unfold restored. rewrite Hce. unfold with_retention, same_place. cbn. rewrite E1, E2, E3, E4, E5.
    destruct (m_ref m0); cbn in *; subst; by repeat case_match. }
  cbv zeta. split; [exact Hp|]. unfold restored, with_retention, retention_after. clear Hp Hce.
  destruct retain as [[options now]|]; cbn; [|done]. destruct (_ && negb (ro_max_ttl_s options =? 0)); [|done].
  by destruct (_ && negb (re_retain_ttl_s en =? 0)).
Qed.

(** C8. Restart round trip.  Take any state an allocator reaches from its
    construction, its retention configured or not, and the medium's entries for
    all its residents.  A fresh allocator of the same options, its retention
    configured as before, in another way or not at all, accepts them and then
    holds exactly those keys, each with the placement and the length it had,
    unpinned and without a pending removal.  The recorded TTL is cut to the new
    maximum; a recorded deadline that is still ahead is kept, or cut to that TTL
    from the new clock; without retention there is no protection. *)
Theorem restart_round_trip opt env env' retain0 retain ops s entries :
  initial_ok opt retain0 → initial_ok opt retain → Forall op_ok ops →
  pins_fit ops (initial opt env retain0) = true → run_ops ops (initial opt env retain0) = Some s →
  lists s entries →
  ∃ s', RestoreBulk entries (initial opt env' retain) = (true, s') ∧ WF s' ∧ ret_ok s' ∧
    ∀ k, match view s k with
         | Some m => ∃ en m', en ∈ entries ∧ saves m en ∧ view s' k = Some m' ∧ same_place m m' ∧
             m_refs m' = 0 ∧ m_remove_pending m' = false ∧
             (m_retain_ttl_s m', m_retain_until m') = retention_after retain en
         | None => view s' k = None
         end.
Proof.
  intros Hi0 Hi Hops Hfit Hrun Hl. destruct (initial_spec opt env' retain Hi) as [Hwf0 Hr0].
  destruct (initial_spec opt env retain0 Hi0) as [Hwf1 Hr1].
  destruct (run_ops_frame _ _ _ Hwf1 Hr1 Hops Hfit Hrun) as (_ & Ho & Hwf & Hr).
  assert (Ho0 : s_opt (initial opt env' retain) = s_opt s)
    by (rewrite Ho; by destruct retain as [[]|], retain0 as [[]|]).
  assert (Hv0 : ∀ k, view (initial opt env' retain) k = None).
  { intros k. rewrite <- (new_allocator_view opt env' k). apply view_ext; by destruct retain as [[]|]. }
  assert (Hx0 : ∀ e, (e < o_num_extents (s_opt s))%nat → xcls (initial opt env' retain) !! e = Some None).
  { intros e He. rewrite <- Ho0 in He. apply xcls_lookup. exists new_extent_meta. split; [|done].
    destruct retain as [[]|]; by apply lookup_replicate. }
  pose proof (saved_batch s _ entries Hwf Ho0 Hv0 Hx0 Hl) as Hb.
  pose proof (RestoreBulk_spec entries _ Hwf0 Hr0 (saved_nonneg _ _ Hwf Hl)) as Hs.
  destruct (RestoreBulk entries (initial opt env' retain)) as [[] s']; [|by destruct Hs as [_ []]].
  destruct Hs as (_ & Hwf' & Hr' & _ & _ & _ & Hin & Hout). exists s'. split_and!; [done..|].
  destruct Hl as (_ & Hl1 & Hl2).
  assert (Hkey : ∀ k m en, view s k = Some m → saves m en → re_key en = k).
  { intros k m en Hm (-> & _). destruct Hwf as [g Hwf]. by apply (view_Some _ _ _ _ _ Hwf) in Hm as (? & ? & _ & ? & ->). }
  intros k. destruct (view s k) as [m|] eqn:Em.
  - destruct (Hl2 k m Em) as (en & He & Hsv). exists en, (restored (initial opt env' retain) en).
    split; [done|]. split; [done|]. split; [rewrite <- (Hkey _ _ _ Em Hsv); by apply Hin|].
    apply (restored_saved opt env' retain s k m en); try done. by eapply (saved_fits s).
  - rewrite Hout, Hv0; [done|]. intros (en & -> & (k' & m & Hm & Hsv)%Hl1)%list_elem_of_fmap.
    rewrite (Hkey _ _ _ Hm Hsv) in Em. congruence.
Qed.

(** ** Handles *)

(** A handle pins or unpins only the resident it was issued for: once
    the key is gone, or its record has been reused for another key, the call
    answers [false] and changes nothing; otherwise it is [Pin], [Unpin]. *)
Theorem stale_handle_rejected key handle s :
  WF s →
  (handle = None ∨ ix_find key (s_index s) ≠ handle →
     PinHandle key handle s = (false, s) ∧ UnpinHandle key handle s = (false, s)) ∧
  (∀ i, handle = Some i → ix_find key (s_index s) = Some i →
     PinHandle key handle s = Pin key s ∧ UnpinHandle key handle s = Unpin key s).
Proof.
  intros Hwf. rewrite PinHandle_Pin, UnpinHandle_Unpin by done. split.
  - intros H. by rewrite bool_decide_false by naive_solver.
  - intros i -> Hf. by rewrite bool_decide_true.
Qed.

End props.

(** ** A sample run *)

Definition key_a : BlockKey := mkBlockKey 1 2 3.
Definition key_b : BlockKey := mkBlockKey 1 2 4.
Definition sample_retain : option (RetainOptions * Z) :=
  Some (mkRetainOptions true 65536 80 3600 60, 1000).

Definition sample_ops : list Op := [OPut key_a 5000; OPut key_b 100; OGetAndPin key_a].
Definition sample_init : Allocator := initial sample_options None sample_retain.
Definition sample : Allocator := default sample_init (run_ops sample_ops sample_init).

(** Retention granted to [key_b], then pressure and expiry before its deadline. *)
Definition retained_ops : list Op := sample_ops ++ [ORetain key_b 600 kSet 1000].
Definition retained : Allocator := default sample_init (run_ops retained_ops sample_init).
Definition pressure_ops : list Op :=
  [OPut key_b 60000; OEvictColdToTarget 0 8; OReclaimClass 0 16 8; OPin key_b; OStealFrom 0 1; ORemove key_a;
   OUnpin key_b; OExpireRetention 1500].
Definition record_of (s : Allocator) (k : BlockKey) : SlotMeta := default new_slot_meta (view s k).

Lemma sample_initial_ok : initial_ok sample_options sample_retain.
Proof. repeat split; first [by vm_compute|simpl; lia]. Qed.

Lemma run_state ops :
  Forall op_ok ops → pins_fit ops sample_init = true → is_Some (run_ops ops sample_init) ∧
  WF (default sample_init (run_ops ops sample_init)) ∧
  ret_ok (default sample_init (run_ops ops sample_init)).
Proof.
  intros Hops Hfit. destruct (initial_spec (IX := FlatKeyIndex) sample_options None _ sample_initial_ok) as [H1 H2].
  destruct (run_ops_spec ops _ H1 H2 Hops Hfit) as (s' & E & ? & ?). unfold sample_init. rewrite E. by eauto.
Qed.

Lemma sample_ok : WF sample ∧ ret_ok sample.
Proof. apply run_state; [repeat constructor; by simpl|by vm_compute]. Qed.

Lemma retained_ok : WF retained ∧ ret_ok retained.
Proof. apply run_state; [repeat constructor; by simpl|by vm_compute]. Qed.

Lemma pressure_ok : Forall op_ok pressure_ops.
Proof. repeat constructor; by vm_compute. Qed.

Lemma runs_keep_invariant_witness :
  ∃ s', run_ops (IX := FlatKeyIndex) sample_ops (initial sample_options None sample_retain) = Some s' ∧
    WF s' ∧ ret_ok s'.
Proof.
  apply (runs_keep_invariant sample_options None sample_retain sample_ops).
  - exact sample_initial_ok.
  - repeat constructor; by simpl.
  - by vm_compute.
Defined.

Lemma residents_disjoint_witness :
  let m1 := record_of sample key_a in
  0 <= r_offset (m_ref m1) ∧ r_offset (m_ref m1) + r_slot_size (m_ref m1) <= o_extent_bytes (s_opt sample).
Proof.
  destruct (residents_disjoint sample key_a key_b (record_of sample key_a) (record_of sample key_b))
    as (_ & _ & H1 & H2 & _); [apply sample_ok|by vm_compute|by vm_compute|done|]. exact (conj H1 H2).
Defined.

Lemma used_within_capacity_witness : UsedBytes sample = 12288 ∧ UsedBytes sample <= Capacity sample.
Proof.
  split; [by vm_compute|]. apply (used_within_capacity sample). apply sample_ok.
Defined.

Lemma put_correct_witness :
  ∃ out s' ev, Put (mkBlockKey 7 7 7) 9000 sample [] = Some (out, s', ev) ∧ WF s'.
Proof.
  destruct (put_correct (mkBlockKey 7 7 7) 9000 sample) as (out & s' & ev & E & Hwf & _);
    [apply sample_ok|lia|]. exists out, s', ev. exact (conj E Hwf).
Defined.

Lemma pinned_survives_witness :
  0 < m_refs (record_of retained key_a) ∧
  ∃ m', view (default sample_init (run_ops pressure_ops retained)) key_a = Some m' ∧
    same_place (record_of retained key_a) m'.
Proof.
  split; [by vm_compute|].
  destruct (pinned_survives pressure_ops retained (default sample_init (run_ops pressure_ops retained))
    key_a (record_of retained key_a)) as (m' & Hm' & Hs & _);
    [apply retained_ok|apply retained_ok|apply pressure_ok|by vm_compute|by vm_compute|by vm_compute|by vm_compute| |exists m'; exact (conj Hm' Hs)].
  repeat constructor.
Defined.

Lemma protected_survives_witness :
  m_retain_until (record_of retained key_b) = 1600 ∧
  ∃ m', view (default sample_init (run_ops pressure_ops retained)) key_b = Some m' ∧
    same_place (record_of retained key_b) m'.
Proof.
  split; [by vm_compute|].
  destruct (protected_survives pressure_ops retained (default sample_init (run_ops pressure_ops retained))
    key_b (record_of retained key_b)) as (m' & Hm' & Hs & _);
    [apply retained_ok|apply retained_ok|apply pressure_ok|by vm_compute|by vm_compute|by vm_compute|by vm_compute|by vm_compute| |exists m'; exact (conj Hm' Hs)].
  unfold pressure_ops. rewrite !not_elem_of_cons. split_and!; try done. apply not_elem_of_nil.
Defined.

(** A medium that acknowledges everything. *)
Definition durable_options : Options :=
  mkOptions 65536 3 4096 f64_0_25 (Some (λ _ _, true)) (Some (λ _ _ _ _, true)) (Some (λ _ _, true)).
Definition durable_init : Allocator := initial durable_options None None.
Definition durable_sample : Allocator :=
  default durable_init (run_ops [OPut key_a 5000; OPut key_b 100] durable_init).
Definition durable_swept : Allocator :=
  default durable_init (run_op (OEvictColdToTarget 8192 8) durable_sample).

Lemma durable_sample_ok : WF durable_sample ∧ ret_ok durable_sample.
Proof.
  destruct (initial_spec (IX := FlatKeyIndex) durable_options None None) as [H1 H2].
  { repeat split; first [by vm_compute|simpl; lia]. }
  destruct (run_ops_spec [OPut key_a 5000; OPut key_b 100] _ H1 H2) as (s' & E & ?).
  { repeat constructor; by simpl. }
  { by vm_compute. }
  unfold durable_sample, durable_init. by rewrite E.
Qed.

Lemma eviction_acknowledged_witness :
  view durable_sample key_a = Some (record_of durable_sample key_a) ∧
  ∃ L, s_cb_log durable_swept = s_cb_log durable_sample ++ L ∧ acked L (record_of durable_sample key_a).
Proof.
  split; [by vm_compute|].
  apply (eviction_acknowledged (OEvictColdToTarget 8192 8) durable_sample durable_swept key_a);
    [apply durable_sample_ok|apply durable_sample_ok|by vm_compute|by vm_compute| |by vm_compute..|done|done].
  split; vm_compute; by eexists.
Defined.

Lemma watermark_in_order_witness :
  ∃ s' ev rest, EvictColdToTarget 8192 8 durable_sample [] = (length ev, s', ev) ∧
    idle_keys (data durable_sample) (GlobalOrder durable_sample) = ev ++ rest.
Proof.
  destruct (watermark_in_order 8192 8 durable_sample) as (s' & ev & rest & H1 & _ & _ & H2 & _);
    [apply durable_sample_ok|by vm_compute|]. exists s', ev, rest. exact (conj H1 H2).
Defined.

Lemma expiry_releases_witness :
  m_retain_until (record_of retained key_b) = 1600 ∧
  ∃ n s', ExpireRetention 2000 retained = (n, s') ∧ WF s'.
Proof.
  split; [by vm_compute|].
  destruct (expiry_releases 2000 retained) as (n & s' & E & Hwf & _);
    [apply retained_ok|apply retained_ok|by vm_compute|]. exists n, s'. exact (conj E Hwf).
Defined.

Lemma retain_bounded_witness :
  out_until (Retain key_b 600 kSet 1000 sample).1 = 1600 ∧
  ∃ out s', Retain key_b 600 kSet 1000 sample = (out, s') ∧ WF s'.
Proof.
  split; [by vm_compute|].
  destruct (retain_bounded key_b 600 kSet 1000 sample) as (out & s' & E & Hwf & _);
    [apply sample_ok|apply sample_ok|lia|by vm_compute|]. exists out, s'. exact (conj E Hwf).
Defined.

(** One batch that fits and one that collides with itself. *)
Definition sample_entries : list RestoreEntry :=
  [mkRestoreEntry (mkBlockKey 9 9 9) 4096 1 0 4000 0 0; mkRestoreEntry (mkBlockKey 9 9 8) 4096 1 1 10 0 0].

Lemma restore_all_or_nothing_witness :
  (RestoreBulk sample_entries sample).1 = true ∧
  (RestoreBulk (sample_entries ++ sample_entries) sample).1 = false ∧
  ∃ ok s', RestoreBulk sample_entries sample = (ok, s') ∧ WF s'.
Proof.
  split; [by vm_compute|]. split; [by vm_compute|].
  destruct (restore_all_or_nothing sample_entries sample) as (ok & s' & E & Hwf & _);
    [apply sample_ok|apply sample_ok|by repeat constructor|]. exists ok, s'. exact (conj E Hwf).
Defined.

(** What the medium holds of the retained sample: [key_b] with its deadline. *)
Definition saved (m : SlotMeta) : RestoreEntry :=
  mkRestoreEntry (m_key m) (r_slot_size (m_ref m)) (r_extent (m_ref m)) (r_slot (m_ref m))
    (m_useful_bytes m) (m_retain_until m) (m_retain_ttl_s m).

Definition retained_entries : list RestoreEntry :=
  [saved (record_of retained key_a); saved (record_of retained key_b)].

Lemma retained_listed : lists retained retained_entries.
Proof.
  assert (Ha : view retained key_a = Some (record_of retained key_a)) by (by vm_compute).
  assert (Hb : view retained key_b = Some (record_of retained key_b)) by (by vm_compute).
  assert (H01 : m_key <$> data retained = [key_a; key_b]) by (by vm_compute).
  assert (Hnd : NoDup (re_key <$> retained_entries)) by (by apply (bool_decide_unpack _); vm_compute).
  assert (Hs : ∀ k m, view retained k = Some m → saves m (saved m)).
  { intros k m Hm. pose proof (rt_ttl _ (proj2 retained_ok) k m Hm). by split_and!. }
  split; [exact Hnd|]. clear Hnd. unfold retained_entries.
  destruct retained_ok as [[g Hwf] _]. revert Ha Hb H01 Hwf Hs. generalize (record_of retained key_a).
  generalize (record_of retained key_b). generalize retained. intros s mb ma Ha Hb H01 Hwf Hs. split.
  - intros en. rewrite !elem_of_cons, elem_of_nil. intros [->|[->|[]]]; [exists key_a, ma|exists key_b, mb]; eauto.
  - intros k m Hm. pose proof Hm as (i & m0 & [Hi _] & Hk & _)%(view_Some _ _ _ _ _ Hwf).
    assert (Hki : (m_key <$> data s) !! i = Some k) by (rewrite list_lookup_fmap, Hi; simpl; congruence).
    rewrite H01 in Hki. exists (saved m). rewrite !elem_of_cons. split; [|by eapply Hs].
    destruct i as [|[|i]]; [| |done]; apply (inj Some) in Hki as <-.
    + assert (m = ma) as -> by congruence. by left.
    + assert (m = mb) as -> by congruence. by right; left.
Qed.

Lemma restart_round_trip_witness :
  ∃ s' m', RestoreBulk retained_entries (initial (IX := FlatKeyIndex) sample_options None sample_retain) = (true, s') ∧
    view s' key_b = Some m' ∧ same_place (record_of retained key_b) m' ∧ m_retain_until m' = 1600.
Proof.
  destruct (restart_round_trip (IX := FlatKeyIndex) sample_options None None sample_retain sample_retain retained_ops
    retained retained_entries) as (s' & E & _ & _ & Hk);
    [exact sample_initial_ok|exact sample_initial_ok|repeat constructor; by simpl|by vm_compute|by vm_compute|
     exact retained_listed|].
  specialize (Hk key_b). replace (view retained key_b) with (Some (record_of retained key_b)) in Hk by (by vm_compute).
  destruct Hk as (en & m' & Hin & (Hkey & _) & Hv & Hp & _ & _ & Hret). exists s', m'.
  split; [exact E|]. split; [exact Hv|]. split; [exact Hp|].
  unfold retained_entries in Hin. rewrite !elem_of_cons, elem_of_nil in Hin.
  destruct Hin as [->|[->|[]]].
  - exfalso. revert Hkey. vm_compute. discriminate.
  - replace (retention_after sample_retain (saved (record_of retained key_b))) with (600, 1600) in Hret by (by vm_compute).
    by injection Hret.
Defined.

Lemma stale_handle_rejected_witness :
  ix_find key_b (s_index sample) ≠ Some 7%nat ∧ PinHandle key_b (Some 7%nat) sample = (false, sample).
Proof.
  assert (H : ix_find key_b (s_index sample) ≠ Some 7%nat) by (by vm_compute).
  split; [exact H|].
  destruct (stale_handle_rejected key_b (Some 7%nat) sample (proj1 sample_ok)) as [Hno _].
  exact (proj1 (Hno (or_intror H))).
Defined.
