(* ===== verification/SlabHandles.v ===== *)
(** * Slab allocator: handles

    A handle is the index of a resident's record.  The operations change the key
    index only by erasing what they free and by the one insertion of [Put], so
    the handle of a resident is the same as long as it is resident. *)

From S2P Require Import Prelude KvTypes KeyIndex SlabTypes SlabLattice SlabRing SlabFree SlabOps.

Section handles.
Context {IX : Type} {ixo : KeyIndexOps IX} {ixl : KeyIndexLaws IX}.
Notation St := (SlabAllocator IX).
Implicit Types (s : St) (acc : list BlockKey).

(** The index of [s'] is the one of [s] after erasures. *)
Definition erased s s' : Prop :=
  ∃ ks, s_index s' = foldl (λ ix k, (ix_erase k ix).2) (s_index s) ks.

#[global] Instance erased_preorder : PreOrder erased.
Proof.
  split.
  - intros s. by exists [].
  - intros s1 s2 s3 [ks1 H1] [ks2 H2]. exists (ks1 ++ ks2). by rewrite foldl_app, <- H1.
Qed.

Lemma erased_same s s' : s_index s' = s_index s → erased s s'.
Proof. intros E. by exists []. Qed.

Lemma erased_one k s s' : s_index s' = (ix_erase k (s_index s)).2 → erased s s'.
Proof. intros E. by exists [k]. Qed.

Lemma erased_find s s' k :
  ix_wf (s_index s) → erased s s' →
  ix_find k (s_index s') = None ∨ ix_find k (s_index s') = ix_find k (s_index s).
Proof.
  intros Hwf [ks ->]. revert Hwf. generalize (s_index s). induction ks as [|x ks IH]; intros ix Hwf; cbn; [by right|].
  destruct (IH _ (ix_erase_wf x ix Hwf)) as [|E]; [by left|]. rewrite E, ix_find_erase by done.
  case_decide; auto.
Qed.

(** A computation that may not return. *)
Definition erased_kept {A B} s (res : option (A * St * B)) : Prop :=
  ∀ a s' b, res = Some (a, s', b) → erased s s'.

Lemma erased_ret {A B} s s' (a : A) (b : B) : erased s s' → erased_kept s (Some (a, s', b)).
Proof. by intros H a' s'' b' [= <- <- <-]. Qed.

Lemma erased_bind {A B C D} s (res : option (A * St * B)) (k : A * St * B → option (C * St * D)) :
  erased_kept s res → (∀ a s' b, erased_kept s' (k (a, s', b))) → erased_kept s (res ≫= k).
Proof.
  intros H1 H2 c s' d. destruct res as [[[a s1] b]|]; cbn; [|done]. intros E.
  etrans; [by eapply H1|by eapply H2].
Qed.

Lemma erased_from {A B} s s0 (res : option (A * St * B)) : erased s s0 → erased_kept s0 res → erased_kept s res.
Proof. intros H1 H2 a s' b E. etrans; [done|by eapply H2]. Qed.

(** ** Updates that leave the index alone *)

Lemma index_put_class_ring c res s : s_index (put_class_ring c res s) = s_index s.
Proof. by destruct res as [[??]?]. Qed.
Lemma index_put_global_ring res s : s_index (put_global_ring res s) = s_index s.
Proof. by destruct res as [[??]?]. Qed.
Lemma index_put_extent_list e res s : s_index (put_extent_list e res s) = s_index s.
Proof. by destruct res. Qed.

Lemma index_call_bind e s : s_index (call_extent_bind e s).2 = s_index s.
Proof. unfold call_extent_bind. by case_match. Qed.
Lemma index_call_evict r s : s_index (call_slot_evict r s).2 = s_index s.
Proof. unfold call_slot_evict. by case_match. Qed.

Lemma index_bind c e b s : s_index (BindExtentLocked c e b s).2 = s_index s.
Proof.
  unfold BindExtentLocked. destruct (_ || _ || _); [done|]. destruct (_ =? 0); [done|].
  destruct b; [done|]. pose proof (index_call_bind e s) as H.
  destruct (call_extent_bind e s) as [[] s1]; done.
Qed.

Lemma index_bind_free c s : s_index (BindFreeExtent c s).2 = s_index s.
Proof.
  unfold BindFreeExtent. destruct (_ =? 0); [done|]. destruct (first_unbound s); [|done]. apply index_bind.
Qed.

Lemma index_link_resident i s : s_index (LinkResidentLocked i s) = s_index s.
Proof.
  unfold LinkResidentLocked, LinkBeforeGlobalHandLocked, LinkBeforeHandLocked. cbn zeta. cbn.
  rewrite index_put_extent_list. cbn. rewrite index_put_global_ring. cbn. by rewrite index_put_class_ring.
Qed.

Lemma index_acquire s : s_index (AcquireSlotMetaLocked s).2 = s_index s.
Proof. unfold AcquireSlotMetaLocked. by case_match. Qed.

Lemma index_stripe fuel c : ∀ s b s', stripe_bind fuel c s = Some (b, s') → s_index s' = s_index s.
Proof.
  induction fuel as [|fuel IH]; intros s b s'; cbn [stripe_bind]; (destruct (_ <? _)%nat; [|by intros [= _ <-]]).
  { done. }
  pose proof (index_bind_free c s) as H. destruct (BindFreeExtent c s) as [[] s1]; cbn in H.
  - intros H1%IH. congruence.
  - by intros [= _ <-].
  - by intros [= _ <-].
Qed.

(** ** Eviction *)

Lemma erased_free i s : erased s (FreeSlotLocked i s).
Proof.
  unfold FreeSlotLocked, return_extent, unbind_extent. cbn zeta.
  set (s0 := if negb _ then UnprotectLocked i s else s).
  assert (H0 : s_index s0 = s_index s) by (subst s0; by case_match).
  apply (erased_one (m_key (slot_at s0 i))). rewrite <- H0. clear H0.
  assert (H : s_index (free_resident i s0) = (ix_erase (m_key (slot_at s0 i)) (s_index s0)).2).
  { unfold free_resident, release_meta. cbn zeta. cbn.
    rewrite index_put_extent_list. cbn. rewrite index_put_global_ring. cbn. by rewrite index_put_class_ring. }
  revert H. generalize (free_resident i s0). intros s1 H. by destruct (_ && _).
Qed.

Lemma erased_count s s' : erased s s' → erased s (count_eviction s').
Proof. intros [ks E]. by exists ks. Qed.

Lemma erased_evict_victim i s acc : erased s (evict_victim i s acc).1.2.
Proof.
  unfold evict_victim. pose proof (index_call_evict (m_ref (slot_at s i)) s) as H.
  destruct (call_slot_evict _ s) as [[] s1]; cbn [negb fst snd] in *; [|by apply erased_same].
  etrans; [by apply (erased_same s s1)|]. apply erased_count, erased_free.
Qed.

Lemma erased_fallback fb s acc : erased s (evict_fallback fb s acc).1.2.
Proof. destruct fb; cbn; [|done]. case_match; [apply erased_evict_victim|done]. Qed.

Lemma erased_sweep steps c : ∀ fb s acc, erased s (evict_sweep steps c fb s acc).1.2.
Proof.
  induction steps as [|steps IH]; intros fb s acc; cbn [evict_sweep]; [apply erased_fallback|].
  destruct (_ =? 0); [apply erased_fallback|].
  set (s1 := match c_hand (cls_at s c) with Some _ => s | None => _ end).
  assert (H1 : erased s s1) by (apply erased_same; unfold s1; by case_match). clearbody s1.
  etrans; [exact H1|]. clear H1.
  destruct (c_hand (cls_at s1 c)); [|apply erased_fallback].
  destruct (0 <? _); [etrans; [|apply IH]; by apply erased_same|]. destruct (negb _); [etrans; [|apply IH]; by apply erased_same|].
  destruct (m_referenced _); [etrans; [|apply IH]; by apply erased_same|]. etrans; [|apply erased_evict_victim]; by apply erased_same.
Qed.

Lemma erased_evict_one c s acc : erased s (EvictOneFrom c s acc).1.2.
Proof. unfold EvictOneFrom. destruct (_ =? 0); [done|apply erased_sweep]. Qed.

Lemma erased_drain fuel e : ∀ s acc s' acc', drain_extent fuel e s acc = Some (s', acc') → erased s s'.
Proof.
  induction fuel as [|fuel IH]; intros s acc s' acc'; cbn; (case_match; [|by intros [= <- <-]]); [done|].
  intros Hd%IH. etrans; [|exact Hd]. apply erased_count, erased_free.
Qed.

Lemma erased_steal_locked e c s acc : erased_kept s (StealExtentLocked e c s acc).
Proof.
  unfold StealExtentLocked. case_match; [|by apply erased_ret].
  destruct (_ || _); [by apply erased_ret|]. pose proof (index_call_bind e s) as Hb.
  destruct (call_extent_bind e s) as [[] s1]; cbn [negb]; [|by apply erased_ret, erased_same].
  apply (erased_from _ s1); [by apply erased_same|]. clear Hb.
  destruct (drain_extent _ e s1 acc) as [[s2 acc2]|] eqn:Ed; [|done]. cbn [mbind option_bind].
  apply erased_drain in Ed. apply (erased_from _ s2); [done|]. clear Ed.
  set (s3 := match x_cls (ext_at s2 e) with Some _ => _ | None => s2 end).
  assert (H3 : s_index s3 = s_index s2) by (subst s3; by case_match). clearbody s3.
  pose proof (index_bind c e true s3) as H4. destruct (BindExtentLocked c e true s3) as [r s4].
  apply erased_ret, erased_same. cbn in H4. rewrite <- H3, <- H4. by case_match.
Qed.

Lemma erased_steal_for c n s acc : erased_kept s (StealExtentFor c n s acc).
Proof. unfold StealExtentFor. case_match; [apply erased_steal_locked|by apply erased_ret]. Qed.

Lemma erased_steal_cold c s acc : erased_kept s (StealColdExtentFor c s acc).
Proof.
  unfold StealColdExtentFor. destruct (negb _); [by apply erased_ret|].
  destruct (_ || _); [by apply erased_ret|]. destruct (pick_extent _ _ _); [|by apply erased_ret].
  apply erased_bind; [apply erased_steal_locked|]. intros a s' b. apply erased_ret, erased_same. by case_match.
Qed.

Lemma erased_steal_from d c s acc : erased_kept s (StealFrom d c s acc).
Proof.
  unfold StealFrom. destruct (_ || _); [by apply erased_ret|].
  destruct (pick_extent _ _ _); [|by apply erased_ret].
  apply erased_bind; [apply erased_steal_locked|]. intros a s' b. by apply erased_ret.
Qed.

Lemma erased_put_place fuel c : ∀ s acc, erased_kept s (put_place fuel c s acc).
Proof.
  induction fuel as [|fuel IH]; intros s acc; cbn [put_place]; [done|].
  destruct (stripe_bind _ c s) as [[b s1]|] eqn:Es; cbn [mbind option_bind]; [|done].
  apply index_stripe in Es. apply (erased_from _ s1); [by apply erased_same|]. clear Es.
  destruct b; cbn [negb]; [|by apply erased_ret].
  destruct (PopFreeLocked (cls_at s1 c)) as [[p|] cls]; [by apply erased_ret, erased_same|].
  apply (erased_from _ (upd_class c (λ _, cls) s1)); [by apply erased_same|]. generalize (upd_class c (λ _, cls) s1).
  clear s1. intros s1. apply erased_bind.
  { destruct (_ <? _); [apply erased_steal_for|by apply erased_ret]. }
  intros [] s2 b2; [done| |by apply erased_ret]. apply erased_bind; [apply erased_steal_cold|].
  intros [] s3 b3; [done| |by apply erased_ret]. pose proof (erased_evict_one c s3 b3) as H4.
  destruct (EvictOneFrom c s3 b3) as [[ok s4] b4]; cbn in H4. apply (erased_from _ s4); [done|].
  destruct ok; [done|]. apply erased_bind; [apply erased_steal_for|].
  intros [] s5 b5; [done|by apply erased_ret..].
Qed.

Lemma erased_reclaim_loop fuel c target : ∀ count s acc, erased s (reclaim_loop fuel c target count s acc).1.2.
Proof.
  induction fuel as [|fuel IH]; intros count s acc; cbn [reclaim_loop]; [done|].
  destruct (_ <=? _); [done|]. destruct (0 <? _); [done|].
  pose proof (erased_evict_one c s acc) as H. destruct (EvictOneFrom c s acc) as [[[] s1] acc1]; cbn in H |- *; [|done].
  etrans; [exact H|]. destruct (_ <=? _); [done|apply IH].
Qed.

Lemma erased_ReclaimClass c target n s acc : erased s (ReclaimClass c target n s acc).1.2.
Proof. unfold ReclaimClass. case_match; [done|apply erased_reclaim_loop]. Qed.

(** ** Pins and removal *)

Lemma erased_unpin_slot i s : erased s (unpin_slot i s).
Proof.
  unfold unpin_slot. cbn zeta. destruct (_ =? 0); [|by apply erased_same]. case_match; [|by apply erased_same]. etrans; [|apply erased_free]; by apply erased_same.
Qed.

Lemma erased_Pin key s : erased s (Pin key s).2.
Proof. apply erased_same. unfold Pin, pin_slot. by repeat case_match. Qed.
Lemma erased_Unpin key s : erased s (Unpin key s).2.
Proof. unfold Unpin. repeat case_match; [done|apply erased_unpin_slot|done]. Qed.
Lemma erased_Remove key s : erased s (Remove key s).2.
Proof. unfold Remove. repeat case_match; [by apply erased_same|apply erased_free|done]. Qed.

(** ** [Put] *)

Lemma handles_put_install key len c p s k :
  ix_wf (s_index s) → k ≠ key →
  ix_find k (s_index (put_install key len c p s).2) = ix_find k (s_index s).
Proof.
  intros Hwf Hk. unfold put_install. destruct p as [e sl]. pose proof (index_acquire s) as H.
  destruct (AcquireSlotMetaLocked s) as [i s1]. cbn in H.
  set (s2 := set_s_put_seq _ _). assert (H2 : s_index s2 = s_index s) by done. clearbody s2.
  rewrite H2. pose proof (ix_find_insert key k i (s_index s) Hwf) as Hf. rewrite decide_False in Hf by done.
  destruct (ix_insert key i (s_index s)) as [[] ix]; cbn [negb]; cbn in Hf.
  - transitivity (ix_find k (s_index (LinkResidentLocked i (set_s_index (λ _, ix) s2)))); [done|]. by rewrite index_link_resident.
  - exact Hf.
Qed.

Lemma handles_Put key len s acc out s' ev k :
  ix_wf (s_index s) → k ≠ key → Put key len s acc = Some (out, s', ev) →
  ix_find k (s_index s') = None ∨ ix_find k (s_index s') = ix_find k (s_index s).
Proof.
  intros Hwf Hk. unfold Put. set (s0 := set_s_activity_seq _ s).
  assert (H0 : s_index s0 = s_index s) by done. clearbody s0. rewrite <- H0 in Hwf |- *. clear H0.
  case_match.
  { case_match; intros [= _ <- _]; by right. }
  destruct (_ || _ || _); [intros [= _ <- _]; by right|]. destruct (_ || _); [intros [= _ <- _]; by right|].
  destruct (_ <=? _)%nat; [intros [= _ <- _]; by right|]. set (c := ClassForLen _ _). clearbody c.
  pose proof (erased_put_place put_fuel c s0 acc) as Hp.
  destruct (put_place put_fuel c s0 acc) as [[[p s1] b]|]; cbn [mbind option_bind]; [|done].
  specialize (Hp _ _ _ eq_refl). pose proof (erased_find _ _ k Hwf Hp) as Hf.
  assert (Hwf1 : ix_wf (s_index s1)).
  { destruct Hp as [ks ->]. clear -Hwf ixl. revert Hwf. generalize (s_index s0).
    induction ks as [|x ks IH]; intros ix Hix; [done|]. by apply IH, ix_erase_wf. }
  destruct p as [p|]; [|intros [= _ <- _]; exact Hf].
  pose proof (handles_put_install key len c p s1 k Hwf1 Hk) as H2.
  destruct (put_install _ _ _ _ _) as [o s2]. intros [= _ <- _]. cbn in H2. by rewrite H2.
Qed.

End handles.
