(* ===== verification/SlotPool.v ===== *)
(** * What the slab allocator promises to a client

    The RAM tier uses [SlabAllocator] through seven operations and relies on
    what they do to the slots of individual keys: where a slot lies, how often
    it is pinned and whether its removal is deferred.  [SlotPoolOps] and
    [SlotPoolLaws] state that contract; the allocator of SlabOps, without
    persistence callbacks, is shown to honour it. *)

From S2P Require Import Prelude KvTypes KeyIndex SlabTypes SlabLattice SlabRing SlabFree SlabOps.
From S2P Require Import SlabInv SlabStruct SlabInstall SlabWf SlabEvict SlabSteal SlabPut.
From S2P Require Import SlabAccess SlabReclaim SlabFrame SlabRetain SlabMachine SlabLayout SlabHandles.

(** The slot of a key, as its owner sees it. *)
Record Slot := mkSlot {
  sl_ref : SlotRef;
  sl_handle : nat;
  sl_pins : Z;
  sl_pending : bool;
}.

Definition set_pins (n : Z) (sl : Slot) : Slot := mkSlot (sl_ref sl) (sl_handle sl) n (sl_pending sl).
Definition set_pending (sl : Slot) : Slot := mkSlot (sl_ref sl) (sl_handle sl) (sl_pins sl) true.

(** The operations the tier calls, and the slots they act on. *)
Class SlotPoolOps (A : Type) := {
  sp_put : BlockKey → Z → A → list BlockKey → option (option (SlotRef * nat) * A * list BlockKey);
  sp_remove : BlockKey → A → RemoveResult * A;
  sp_pin : BlockKey → option nat → A → bool * A;
  sp_unpin : BlockKey → option nat → A → bool * A;
  sp_steal_from : nat → nat → A → list BlockKey → option (bool * A * list BlockKey);
  sp_reclaim_class : nat → Z → nat → A → list BlockKey → nat * A * list BlockKey;
  sp_classes : A → list ClassStat;
  sp_pool_extents : A → Z;
  sp_evictions : A → Z;
  sp_new : Options → option Z → A;
  sp_opt : A → Options;
  sp_slot : A → BlockKey → option Slot;
}.

Section laws.
Context {A : Type} `{SlotPoolOps A}.
Implicit Types (a : A) (k : BlockKey) (ev acc : list BlockKey).

(** The slots of [ev] are gone; they were unpinned. *)
Record slots_evicted a ev a' : Prop := {
  se_slot k : sp_slot a' k = if decide (k ∈ ev) then None else sp_slot a k;
  se_idle k : k ∈ ev → ∃ sl, sp_slot a k = Some sl ∧ sl_pins sl = 0;
  se_opt : sp_opt a' = sp_opt a;
}.

(** Only the slot of [key] changed, to [v]. *)
Record slot_updated a key (v : option Slot) a' : Prop := {
  su_slot k : sp_slot a' k = if decide (k = key) then v else sp_slot a k;
  su_opt : sp_opt a' = sp_opt a;
}.

(** [key] got a fresh slot; those of [ev] made room for it. *)
Record slot_placed a ev key (ref : SlotRef) (h : nat) a' : Prop := {
  pl_slot k : sp_slot a' k =
    if decide (k = key) then Some (mkSlot ref h 0 false)
    else if decide (k ∈ ev) then None else sp_slot a k;
  pl_idle k : k ∈ ev → ∃ sl, sp_slot a k = Some sl ∧ sl_pins sl = 0;
  pl_opt : sp_opt a' = sp_opt a;
}.

(** The bytes of a slot, relative to the pool's memory. *)
Definition slot_off (a : A) (ref : SlotRef) : Z :=
  Z.of_nat (r_extent ref) * o_extent_bytes (sp_opt a) + r_offset ref.

End laws.

Class SlotPoolLaws (A : Type) `{SlotPoolOps A} := {
  sp_wf : A → Prop;
  sp_new_ok opt env : opts_ok (normalize_options opt) → no_callbacks opt → sp_wf (sp_new opt env);
  sp_new_slot opt env k : sp_slot (sp_new opt env) k = None;
  sp_new_opt opt env : sp_opt (sp_new opt env) = normalize_options opt;
  sp_put_ok key len a acc :
    sp_wf a → 0 <= len →
    ∃ out a' ev, sp_put key len a acc = Some (out, a', acc ++ ev) ∧ sp_wf a' ∧
      match sp_slot a key, out with
      | None, Some (ref, h) =>
          slot_placed a ev key ref h a' ∧ 0 < len <= r_slot_size ref
      | Some sl, Some (ref, h) =>
          ev = [] ∧ slots_evicted a [] a' ∧ sl_pending sl = false ∧ ref = sl_ref sl ∧ h = sl_handle sl
      | None, None => ev = [] ∧ slots_evicted a [] a'
      | Some sl, None => ev = [] ∧ slots_evicted a [] a' ∧ sl_pending sl = true
      end;
  sp_pin_ok key a sl :
    sp_wf a → sp_slot a key = Some sl → sl_pending sl = false → sl_pins sl + 1 < 2 ^ 32 →
    ∃ a', sp_pin key (Some (sl_handle sl)) a = (true, a') ∧ sp_wf a' ∧
      slot_updated a key (Some (set_pins (sl_pins sl + 1) sl)) a';
  sp_unpin_ok key a sl :
    sp_wf a → sp_slot a key = Some sl → 0 < sl_pins sl →
    ∃ a', sp_unpin key (Some (sl_handle sl)) a = (true, a') ∧ sp_wf a' ∧
      slot_updated a key
        (if (sl_pins sl =? 1) && sl_pending sl then None
         else Some (set_pins (sl_pins sl - 1) sl)) a';
  sp_remove_ok key a sl :
    sp_wf a → sp_slot a key = Some sl →
    ∃ r a', sp_remove key a = (r, a') ∧ sp_wf a' ∧
      slot_updated a key (if 0 <? sl_pins sl then Some (set_pending sl) else None) a';
  sp_steal_from_ok donor target a acc :
    sp_wf a →
    ∃ b a' ev, sp_steal_from donor target a acc = Some (b, a', acc ++ ev) ∧ sp_wf a' ∧
      slots_evicted a ev a';
  sp_reclaim_class_ok c target max a acc :
    sp_wf a →
    ∃ a' ev, sp_reclaim_class c target max a acc = (length ev, a', acc ++ ev) ∧ sp_wf a' ∧
      slots_evicted a ev a' ∧ (length ev <= max)%nat;
  sp_layout a k sl :
    sp_wf a → sp_slot a k = Some sl →
    0 <= sl_pins sl ∧ 0 < r_slot_size (sl_ref sl) ∧
    (r_extent (sl_ref sl) < o_num_extents (sp_opt a))%nat ∧ 0 <= r_offset (sl_ref sl) ∧
    r_offset (sl_ref sl) + r_slot_size (sl_ref sl) <= o_extent_bytes (sp_opt a);
  sp_apart a k1 k2 sl1 sl2 :
    sp_wf a → sp_slot a k1 = Some sl1 → sp_slot a k2 = Some sl2 → k1 ≠ k2 →
    r_extent (sl_ref sl1) = r_extent (sl_ref sl2) →
    r_offset (sl_ref sl1) + r_slot_size (sl_ref sl1) <= r_offset (sl_ref sl2) ∨
    r_offset (sl_ref sl2) + r_slot_size (sl_ref sl2) <= r_offset (sl_ref sl1);
}.

(** ** The slab allocator as a slot pool *)

Section slab.
Context {IX : Type} {ixo : KeyIndexOps IX} {ixl : KeyIndexLaws IX}.
Notation St := (SlabAllocator IX).
Implicit Types (s : St) (k : BlockKey) (ev acc : list BlockKey).

Definition slab_slot s k : option Slot :=
  i ← ix_find k (s_index s);
  let m := slot_at s i in
  Some (mkSlot (m_ref m) i (m_refs m) (m_remove_pending m)).

#[export] Instance slab_pool_ops : SlotPoolOps St := {|
  sp_put := Put; sp_remove := Remove; sp_pin := PinHandle; sp_unpin := UnpinHandle;
  sp_steal_from := StealFrom; sp_reclaim_class := ReclaimClass; sp_classes := Classes;
  sp_pool_extents := PoolExtents; sp_evictions := λ s, n_evictions (s_counters s);
  sp_new := new_allocator; sp_opt := s_opt; sp_slot := slab_slot;
|}.

Definition slot_with (h : option nat) (m : option SlotMeta) : option Slot :=
  match h, m with
  | Some i, Some m => Some (mkSlot (m_ref m) i (m_refs m) (m_remove_pending m))
  | _, _ => None
  end.

Lemma slab_slot_view s k : slab_slot s k = slot_with (ix_find k (s_index s)) (view s k).
Proof. unfold slab_slot, view. by destruct (ix_find k (s_index s)). Qed.

Lemma slab_slot_Some s k sl :
  slab_slot s k = Some sl ↔ ∃ i m, ix_find k (s_index s) = Some i ∧ view s k = Some m ∧
    sl = mkSlot (m_ref m) i (m_refs m) (m_remove_pending m).
Proof.
  rewrite slab_slot_view. unfold slot_with, view.
  destruct (ix_find k (s_index s)); split; [intros [= <-]; eauto|naive_solver|done|naive_solver].
Qed.

Lemma slab_slot_None s k : slab_slot s k = None ↔ view s k = None.
Proof. rewrite slab_slot_view. unfold slot_with, view. by destruct (ix_find k (s_index s)). Qed.

(** Erasures leave the handles of what remains. *)
Lemma slab_slot_kept s s' k :
  (ix_find k (s_index s') = None ∨ ix_find k (s_index s') = ix_find k (s_index s)) →
  slab_slot s' k = slot_with (ix_find k (s_index s)) (view s' k).
Proof.
  rewrite slab_slot_view. unfold view. intros [->| ->]; [|done]. by destruct (ix_find k (s_index s)).
Qed.

Lemma slab_slot_erased s s' k :
  WF s → erased s s' → slab_slot s' k = slot_with (ix_find k (s_index s)) (view s' k).
Proof. intros [g Hwf] He. apply slab_slot_kept, erased_find; [apply Hwf|done]. Qed.

Lemma slab_evicted s ev s' : WF s → erased s s' → Evicts s ev s' → slots_evicted s ev s'.
Proof.
  intros Hwf He Hev. split.
  - intros k. cbn. rewrite (slab_slot_erased _ _ _ Hwf He), (ev_view _ _ _ Hev).
    case_decide; [by destruct (ix_find k (s_index s))|]. by rewrite slab_slot_view.
  - intros k Hk. destruct (ev_idle _ _ _ Hev k Hk) as (m & Hm & H0 & _).
    pose proof Hm as Hf. unfold view in Hf. destruct (ix_find k (s_index s)) as [i|] eqn:Ei; [|done].
    eexists. cbn. split; [apply slab_slot_Some; eauto|done].
  - apply (ev_opt _ _ _ Hev).
Qed.

Lemma slab_updated s key i m' s' :
  WF s → erased s s' → ix_find key (s_index s) = Some i → Updates s key m' s' →
  slot_updated s key (Some (mkSlot (m_ref m') i (m_refs m') (m_remove_pending m'))) s'.
Proof.
  intros Hwf He Hi Hup. split; [|apply (up_opt _ _ _ _ Hup)].
  intros k. cbn. rewrite (slab_slot_erased _ _ _ Hwf He), (up_view _ _ _ _ Hup).
  case_decide as Hk; [subst k; by rewrite Hi|]. by rewrite slab_slot_view.
Qed.

Lemma slab_freed s key s' :
  WF s → erased s s' → s_opt s' = s_opt s →
  (∀ k, view s' k = if decide (k = key) then None else view s k) → slot_updated s key None s'.
Proof.
  intros Hwf He Ho Hv. split; [|done]. intros k. cbn. rewrite (slab_slot_erased _ _ _ Hwf He), Hv.
  case_decide; [by destruct (ix_find k (s_index s))|]. by rewrite slab_slot_view.
Qed.

(** Without callbacks nothing refuses. *)
Definition pool_wf s : Prop := WF s ∧ no_callbacks (s_opt s).

Lemma quiet_not_refused key len s acc a s' b :
  no_callbacks (s_opt s) → s_opt s' = s_opt s → Put key len s acc = Some (a, s', b) → ¬ refused s s'.
Proof.
  intros Hq Ho E (L & x & HL & Hx & _). rewrite (quiet_Put _ _ _ _ _ _ _ Hq Ho E) in HL.
  rewrite <- (app_nil_r (s_cb_log s)) in HL at 1. apply (inj (app _)) in HL. subst L. by apply elem_of_nil in Hx.
Qed.

Lemma Put_hit_index key len s acc i a s' b :
  ix_find key (s_index s) = Some i → Put key len s acc = Some (a, s', b) → s_index s' = s_index s.
Proof.
  intros Hi. unfold Put. cbn [s_index set_s_activity_seq]. rewrite Hi.
  case_match; by intros [= _ <- _].
Qed.

Lemma slab_put_keeps key len s acc a s' b :
  WF s → view s key = None → Put key len s acc = Some (a, s', acc ++ b) → Evicts s b s' →
  slots_evicted s b s'.
Proof.
  intros Hwf Hn E Hev. pose proof Hwf as [g Hg]. split; [| |apply (ev_opt _ _ _ Hev)].
  - intros k. cbn. rewrite slab_slot_kept with (s := s).
    + rewrite (ev_view _ _ _ Hev). case_decide; [by destruct (ix_find k (s_index s))|]. by rewrite slab_slot_view.
    + destruct (decide (k = key)) as [->|Hk]; [left|by eapply handles_Put, E; [apply Hg|done]].
      assert (Hv : view s' key = None) by (rewrite (ev_view _ _ _ Hev); by case_decide).
      unfold view in Hv. by destruct (ix_find key (s_index s')).
  - intros k Hk. destruct (ev_idle _ _ _ Hev k Hk) as (m & Hm & H0 & _). pose proof Hm as Hf.
    unfold view in Hf. destruct (ix_find k (s_index s)) as [i|] eqn:Ei; [|done].
    eexists. cbn. split; [apply slab_slot_Some; eauto|done].
Qed.

Lemma slab_put_placed key len s acc s1 ev i m s' :
  WF s → WF s' → Put key len s acc = Some (Some (m_ref m, i), s', acc ++ ev) → Evicts s ev s1 →
  (∀ k, view s' k = if decide (k = key) then Some (unref m) else view s1 k) → s_opt s' = s_opt s1 →
  live_at (data s') i m → m_key m = key → idle m → m_remove_pending m = false →
  slot_placed s ev key (m_ref m) i s'.
Proof.
  intros Hwf [g' Hwf'] E Hev Hv Ho Hm Hk Hid Hp. pose proof Hwf as [g Hg].
  assert (Hi : ix_find key (s_index s') = Some i) by (apply (wf_find _ _ _ Hwf'); by exists m). split.
  - intros k. cbn. case_decide as Hkk.
    + subst k. rewrite slab_slot_view, Hi, Hv, decide_True by done. cbn. destruct Hid as [-> _]. by rewrite Hp.
    + rewrite slab_slot_kept with (s := s) by (by eapply handles_Put, E; [apply Hg|done]).
      rewrite Hv, decide_False, (ev_view _ _ _ Hev) by done.
      case_decide; [by destruct (ix_find k (s_index s))|]. by rewrite slab_slot_view.
  - intros k Hin. destruct (ev_idle _ _ _ Hev k Hin) as (n & Hn & H0 & _). pose proof Hn as Hf.
    unfold view in Hf. destruct (ix_find k (s_index s)) as [j|] eqn:Ej; [|done].
    eexists. cbn. split; [apply slab_slot_Some; eauto|done].
  - cbn. by rewrite Ho, (ev_opt _ _ _ Hev).
Qed.

Lemma slab_put_hit key len s acc i m s' :
  WF s → view s key = Some m → ix_find key (s_index s') = Some i →
  Put key len s acc = Some (Some (m_ref m, i), s', acc ++ []) → Evicts s [] s' →
  slots_evicted s [] s' ∧ ix_find key (s_index s) = Some i.
Proof.
  intros Hwf Hm Hi E Hev. pose proof Hm as Hf. unfold view in Hf.
  destruct (ix_find key (s_index s)) as [j|] eqn:Ej; [|done]. clear Hf.
  pose proof (Put_hit_index _ _ _ _ _ _ _ _ Ej E) as Hix. split; [|congruence].
  apply slab_evicted; [done|by apply erased_same|done].
Qed.

Lemma slab_put_ok key len s acc :
  pool_wf s → 0 <= len →
  ∃ out s' ev, Put key len s acc = Some (out, s', acc ++ ev) ∧ pool_wf s' ∧
    match slab_slot s key, out with
    | None, Some (ref, h) => slot_placed s ev key ref h s' ∧ 0 < len <= r_slot_size ref
    | Some sl, Some (ref, h) =>
        ev = [] ∧ slots_evicted s [] s' ∧ sl_pending sl = false ∧ ref = sl_ref sl ∧ h = sl_handle sl
    | None, None => ev = [] ∧ slots_evicted s [] s'
    | Some sl, None => ev = [] ∧ slots_evicted s [] s' ∧ sl_pending sl = true
    end.
Proof.
  intros [Hwf Hq] Hlen. destruct (Put_spec key len s acc Hwf Hlen) as (out & s' & ev & E & Hwf' & Ho).
  exists out, s', ev. split; [done|].
  destruct Ho as [i m s' Hm Hp Hi Hev|m s' Hm Hp Hev|s' Hn Hl Hev|ev s' Hn Hl Hev Hr
    |s1 ev i m s' Hn Hl Hev Hv Ho _ Hlive Hk Hu Hid [_ Hp] _].
  - destruct (slab_put_hit _ _ _ _ _ _ _ Hwf Hm Hi E Hev) as [Hse Hf].
    split; [split; [done|by rewrite (ev_opt _ _ _ Hev)]|].
    by rewrite slab_slot_view, Hf, Hm.
  - pose proof Hm as Hf. unfold view in Hf. destruct (ix_find key (s_index s)) as [j|] eqn:Ej; [|done].
    clear Hf. pose proof (Put_hit_index _ _ _ _ _ _ _ _ Ej E) as Hix.
    split; [split; [done|by rewrite (ev_opt _ _ _ Hev)]|]. rewrite slab_slot_view, Ej, Hm. cbn.
    split_and!; [done|by apply slab_evicted, Hev; [|apply erased_same]|done].
  - split; [split; [done|by rewrite (ev_opt _ _ _ Hev)]|].
    rewrite (proj2 (slab_slot_None _ _) Hn). split; [done|by eapply slab_put_keeps].
  - split; [split; [done|by rewrite (ev_opt _ _ _ Hev)]|].
    rewrite (proj2 (slab_slot_None _ _) Hn).
    destruct Hr as [Hr|[-> _]]; [|split; [done|by eapply slab_put_keeps]].
    by apply (quiet_not_refused _ _ _ _ _ _ _ Hq (ev_opt _ _ _ Hev) E) in Hr.
  - split; [split; [done|by rewrite Ho, (ev_opt _ _ _ Hev)]|].
    rewrite (proj2 (slab_slot_None _ _) Hn). split; [by eapply slab_put_placed|].
    destruct Hwf' as [g' Hwf']. pose proof (rs_useful _ _ _ (wf_res _ _ _ Hwf' _ _ Hlive)). lia.
Qed.

Lemma slab_pin_ok key s sl :
  pool_wf s → slab_slot s key = Some sl → sl_pending sl = false → sl_pins sl + 1 < 2 ^ 32 →
  ∃ s', PinHandle key (Some (sl_handle sl)) s = (true, s') ∧ pool_wf s' ∧
    slot_updated s key (Some (set_pins (sl_pins sl + 1) sl)) s'.
Proof.
  intros [Hwf Hq] (i & m & Hi & Hm & ->)%slab_slot_Some Hp Hlt. cbn [sl_ref sl_handle sl_pins sl_pending] in *.
  assert (Hroom : pin_room key s = true).
  { apply (refs_of_room (OPin key) s Hwf). intros k Hk%bool_decide_eq_true. subst k. unfold refs_of. by rewrite Hm. }
  rewrite PinHandle_Pin, bool_decide_true by done.
  pose proof (erased_Pin key s) as He. destruct (Pin key s) as [ok s'] eqn:E.
  destruct (Pin_spec _ _ _ _ Hwf Hroom E) as [Hwf' Hs]. rewrite Hm, Hp in Hs. destruct Hs as [-> Hup].
  exists s'. split_and!; [done|split; [done|by rewrite (up_opt _ _ _ _ Hup)]|].
  exact (slab_updated _ _ _ _ _ Hwf He Hi Hup).
Qed.

Lemma slab_unpin_ok key s sl :
  pool_wf s → slab_slot s key = Some sl → 0 < sl_pins sl →
  ∃ s', UnpinHandle key (Some (sl_handle sl)) s = (true, s') ∧ pool_wf s' ∧
    slot_updated s key
      (if (sl_pins sl =? 1) && sl_pending sl then None else Some (set_pins (sl_pins sl - 1) sl)) s'.
Proof.
  intros [Hwf Hq] (i & m & Hi & Hm & ->)%slab_slot_Some Hp. cbn [sl_ref sl_handle sl_pins sl_pending] in *.
  rewrite UnpinHandle_Unpin, bool_decide_true by done.
  pose proof (erased_Unpin key s) as He. destruct (Unpin key s) as [ok s'] eqn:E.
  destruct (Unpin_spec _ _ _ _ Hwf E) as [Hwf' Hs]. rewrite Hm in Hs.
  destruct (Z.eqb_spec (m_refs m) 0); [lia|]. destruct Hs as [-> Hs]. exists s'.
  destruct (_ && _).
  - destruct Hs as (Hv & Ho & _). split_and!; [done|split; [done|by rewrite Ho]|by apply slab_freed].
  - split_and!; [done|split; [done|by rewrite (up_opt _ _ _ _ Hs)]|].
    exact (slab_updated _ _ _ _ _ Hwf He Hi Hs).
Qed.

Lemma slab_remove_ok key s sl :
  pool_wf s → slab_slot s key = Some sl →
  ∃ r s', Remove key s = (r, s') ∧ pool_wf s' ∧
    slot_updated s key (if 0 <? sl_pins sl then Some (set_pending sl) else None) s'.
Proof.
  intros [Hwf Hq] (i & m & Hi & Hm & ->)%slab_slot_Some. cbn [sl_ref sl_handle sl_pins sl_pending] in *.
  pose proof (erased_Remove key s) as He. destruct (Remove key s) as [r s'] eqn:E.
  destruct (Remove_spec _ _ _ _ Hwf E) as (Hwf' & Ho & _ & Hs). rewrite Hm in Hs. exists r, s'.
  split_and!; [done|split; [done|by rewrite Ho]|]. destruct (0 <? m_refs m).
  - destruct Hs as [_ Hup]. exact (slab_updated _ _ _ _ _ Hwf He Hi Hup).
  - destruct Hs as [_ Hv]. by apply slab_freed.
Qed.

#[export] Program Instance slab_pool_laws : SlotPoolLaws St := {|
  sp_wf := pool_wf;
  sp_put_ok := slab_put_ok;
  sp_pin_ok := slab_pin_ok;
  sp_unpin_ok := slab_unpin_ok;
  sp_remove_ok := slab_remove_ok;
|}.
Next Obligation. intros opt env Hok Hq. split; [by apply new_allocator_wf|done]. Qed.
Next Obligation. intros opt env k. apply slab_slot_None, new_allocator_view. Qed.
Next Obligation. done. Qed.
Next Obligation.
  intros donor target s acc [Hwf Hq]. destruct (StealFrom_spec donor target s acc Hwf) as (b & s' & ev & E & Hwf' & Hev & _).
  exists b, s', ev. split_and!; [done|split; [done|by rewrite (ev_opt _ _ _ Hev)]|].
  apply slab_evicted, Hev; [done|]. by eapply erased_steal_from.
Qed.
Next Obligation.
  intros c target max s acc [Hwf Hq]. destruct (ReclaimClass_spec c target max s acc Hwf) as (s' & ev & E & Hwf' & Hev & Hl & _).
  exists s', ev. split_and!; [done|split; [done|by rewrite (ev_opt _ _ _ Hev)]| |done].
  apply slab_evicted, Hev; [done|]. pose proof (erased_ReclaimClass c target max s acc) as He. by rewrite E in He.
Qed.
Next Obligation.
  intros s k sl [[g Hwf] Hq] (i & m & Hi & Hm & ->)%slab_slot_Some. cbn.
  apply (view_Some _ _ _ _ _ Hwf) in Hm as (j & n & Hn & _ & ->). cbn.
  destruct (resident_range _ _ _ _ Hwf Hn) as (R1 & R2 & R3 & R4 & R5).
  pose proof (rs_refs _ _ _ (wf_res _ _ _ Hwf _ _ Hn)) as [? _]. split_and!; [done|done|done|nia|done].
Qed.
Next Obligation.
  intros s k1 k2 sl1 sl2 [[g Hwf] Hq] (i1 & m1 & _ & H1 & ->)%slab_slot_Some (i2 & m2 & _ & H2 & ->)%slab_slot_Some Hk.
  by eapply residents_apart.
Qed.

End slab.
