(* ===== verification/RamTypes.v ===== *)
(** * RAM tier: data

    The structs of [RamTier] (src/cache/ram_tier.h) and the program points of
    its calls.  A [shared_ptr<PutCompletion>], an index node and a dedicated
    buffer are named by the identifier they were allocated under; the arena is
    one memory of bytes.  Everything the shards share is in [Globals]; what is
    protected by a shard's mutex is in [Shard]. *)

From S2P Require Import Prelude KvTypes SlabTypes SlabOps SlotPool.

(** [setter eta p] is the update of field [p] of a record, [eta] rebuilding the
    record from its fields. *)
Ltac setter eta p :=
  let t := eval pattern p in eta in
  match t with
  | ?h _ => let u := eval cbv beta in (λ f, h (λ r, f (p r))) in exact u
  end.

(** ** Configuration *)

(** [RamTier::Options]; [op_is_persisted] says whether the backing-index check
    is set, its answers come from the disk cache. *)
Record RamOptions := mkRamOptions {
  op_bytes : Z;
  op_large_reserve_bytes : Z;
  op_slot_granularity : Z;
  op_flush_retries : Z;
  op_ack_high_watermark_pct : Z;
  op_is_persisted : bool;
}.

(** The members the constructor fixes. *)
Record Config := mkConfig {
  cf_opt : RamOptions;
  cf_arena_bytes : Z;
  cf_large_budget_bytes : Z;
  cf_extent_bytes : Z;
  cf_flush : bool;
  cf_flush_batch : bool;
}.

(** ** Memory *)

(** [char*]: into the arena, or into a dedicated buffer. *)
Inductive Ptr := PArena (off : Z) | PHeap (buf : nat) (off : Z).

Definition ptr_add (p : Ptr) (n : Z) : Ptr :=
  match p with PArena off => PArena (off + n) | PHeap b off => PHeap b (off + n) end.

Definition read_bytes (mem : Z → Z) (off : Z) (n : nat) : list Z :=
  (λ i, mem (off + Z.of_nat i)) <$> seq 0 n.

Definition write_bytes (mem : Z → Z) (off : Z) (bs : list Z) : Z → Z :=
  λ a, if (off <=? a) && (a <? off + Z.of_nat (length bs)) then bs !!! Z.to_nat (a - off) else mem a.

(** ** Shared state *)

(** [RamTier::PutCompletion]. *)
Record PutCompletion := mkPutCompletion {
  pc_done : bool;
  pc_success : bool;
  pc_canceled : bool;
}.

Definition new_completion : PutCompletion := mkPutCompletion false false false.

(** The relaxed counters that are only reported. *)
Inductive Metric :=
  MHits | MMisses | MPuts | MPutBypass | MPromotes | MFlushed | MFlushDropped | MReclaimed
| MRebalanced | MLargeEvictions | MRamAcks | MAckBackpressure | MPostAckFlushFailures
| MShutdownDrainTimeouts.

#[export] Instance Metric_eq_dec : EqDecision Metric.
Proof. solve_decision. Defined.

(** What was published under an index node, for the record: its key, bytes and
    completion, and whether it was durable from the start. *)
Record Publication := mkPublication {
  pb_key : BlockKey;
  pb_bytes : list Z;
  pb_completion : nat;
  pb_durable : bool;
}.

(** A call of the flush sink, and of [is_persisted], with the answer. *)
Inductive DiskCall :=
| mkSinkCall (key : BlockKey) (bytes : list Z) (ok : bool)
| mkPersistedCall (key : BlockKey) (answer : bool).

(** The atomics, the heap, and four histories: publications by node, the key each
    completion was made for, the calls to the disk in order, and the completions [Remove]
    has fenced. *)
Record Globals := mkGlobals {
  gl_budget_used : Z;
  gl_large_used : Z;
  gl_dirty_bytes : Z;
  gl_dirty_objects : Z;
  gl_healthy : bool;
  gl_arena_mr : option nat;
  gl_metrics : Metric → Z;
  gl_mem : Z → Z;
  gl_heap : gmap nat (list Z);
  gl_nodes : gmap nat BlockKey;
  gl_compl : gmap nat PutCompletion;
  gl_next : nat;
  gl_pub : gmap nat Publication;
  gl_compl_key : gmap nat BlockKey;
  gl_sunk : list DiskCall;
  gl_fenced : list nat;
}.

Definition Globals_eta (g : Globals) : Globals :=
  mkGlobals (gl_budget_used g) (gl_large_used g) (gl_dirty_bytes g) (gl_dirty_objects g)
    (gl_healthy g) (gl_arena_mr g) (gl_metrics g) (gl_mem g) (gl_heap g) (gl_nodes g) (gl_compl g)
    (gl_next g) (gl_pub g) (gl_compl_key g) (gl_sunk g) (gl_fenced g).

Notation globals_setter p := (ltac:(let t := eval unfold Globals_eta in Globals_eta in setter t p)) (only parsing).
Definition set_budget_used : (Z → Z) → Globals → Globals := globals_setter gl_budget_used.
Definition set_large_used : (Z → Z) → Globals → Globals := globals_setter gl_large_used.
Definition set_dirty_bytes : (Z → Z) → Globals → Globals := globals_setter gl_dirty_bytes.
Definition set_dirty_objects : (Z → Z) → Globals → Globals := globals_setter gl_dirty_objects.
Definition set_healthy : (bool → bool) → Globals → Globals := globals_setter gl_healthy.
Definition set_arena_mr : (option nat → option nat) → Globals → Globals := globals_setter gl_arena_mr.
Definition set_metrics : ((Metric → Z) → Metric → Z) → Globals → Globals := globals_setter gl_metrics.
Definition set_mem : ((Z → Z) → Z → Z) → Globals → Globals := globals_setter gl_mem.
Definition set_heap : (gmap nat (list Z) → gmap nat (list Z)) → Globals → Globals := globals_setter gl_heap.
Definition set_nodes : (gmap nat BlockKey → gmap nat BlockKey) → Globals → Globals := globals_setter gl_nodes.
Definition set_compl : (gmap nat PutCompletion → gmap nat PutCompletion) → Globals → Globals := globals_setter gl_compl.
Definition set_next : (nat → nat) → Globals → Globals := globals_setter gl_next.
Definition set_pub : (gmap nat Publication → gmap nat Publication) → Globals → Globals := globals_setter gl_pub.
Definition set_compl_key : (gmap nat BlockKey → gmap nat BlockKey) → Globals → Globals := globals_setter gl_compl_key.
Definition set_sunk : (list DiskCall → list DiskCall) → Globals → Globals := globals_setter gl_sunk.
Definition set_fenced : (list nat → list nat) → Globals → Globals := globals_setter gl_fenced.

Definition bump (m : Metric) (n : Z) : Globals → Globals :=
  set_metrics (λ f x, if decide (x = m) then f x + n else f x).

(** ** A shard *)

(** [RamTier::Entry], with the address of the index node that holds it. *)
Record Entry := mkEntry {
  en_key : BlockKey;
  en_offset : Z;
  en_len : Z;
  en_cap : Z;
  en_slot_handle : option nat;
  en_large : option nat;
  en_completion : option nat;
  en_send_pins : Z;
  en_durable : bool;
  en_flushing : bool;
  en_flush_pin : bool;
  en_client_acked : bool;
  en_dirty_since : Z;
  en_remove_pending : bool;
  en_node : nat;
}.

Definition Entry_eta (e : Entry) : Entry :=
  mkEntry (en_key e) (en_offset e) (en_len e) (en_cap e) (en_slot_handle e) (en_large e)
    (en_completion e) (en_send_pins e) (en_durable e) (en_flushing e) (en_flush_pin e)
    (en_client_acked e) (en_dirty_since e) (en_remove_pending e) (en_node e).

Notation entry_setter p := (ltac:(let t := eval unfold Entry_eta in Entry_eta in setter t p)) (only parsing).
Definition set_en_completion : (option nat → option nat) → Entry → Entry := entry_setter en_completion.
Definition set_en_send_pins : (Z → Z) → Entry → Entry := entry_setter en_send_pins.
Definition set_en_durable : (bool → bool) → Entry → Entry := entry_setter en_durable.
Definition set_en_flushing : (bool → bool) → Entry → Entry := entry_setter en_flushing.
Definition set_en_flush_pin : (bool → bool) → Entry → Entry := entry_setter en_flush_pin.
Definition set_en_remove_pending : (bool → bool) → Entry → Entry := entry_setter en_remove_pending.

(** [Entry::in_arena] and [Entry::data]. *)
Definition in_arena (e : Entry) : bool := if en_large e is Some _ then false else true.

Definition entry_data (e : Entry) : Ptr :=
  match en_large e with Some b => PHeap b 0 | None => PArena (en_offset e) end.

(** [RamTier::QItem]. *)
Record QItem := mkQItem { q_key : BlockKey; q_tries : Z }.

(** [RamTier::FlushItem]. *)
Record FlushItem := mkFlushItem { fi_key : BlockKey; fi_data : Ptr; fi_len : Z; fi_cap : Z }.

(** [RamTier::Shard]; [sh_mu] is the call that holds the mutex. *)
Record Shard (A : Type) := mkShard {
  sh_base_off : Z;
  sh_alloc : A;
  sh_mu : option nat;
  sh_index : gmap BlockKey Entry;
  sh_writing : gmap BlockKey nat;
  sh_flushq : list QItem;
  sh_flush_inflight : Z;
  sh_stop : bool;
  sh_reclaim_last_puts : list Z;
}.
Arguments mkShard {A}.
Arguments sh_base_off {A} _.
Arguments sh_alloc {A} _.
Arguments sh_mu {A} _.
Arguments sh_index {A} _.
Arguments sh_writing {A} _.
Arguments sh_flushq {A} _.
Arguments sh_flush_inflight {A} _.
Arguments sh_stop {A} _.
Arguments sh_reclaim_last_puts {A} _.

Section shard_updates.
Context {A : Type}.
Notation Shard := (Shard A).

Definition Shard_eta (s : Shard) : Shard :=
  mkShard (sh_base_off s) (sh_alloc s) (sh_mu s) (sh_index s) (sh_writing s) (sh_flushq s)
    (sh_flush_inflight s) (sh_stop s) (sh_reclaim_last_puts s).

Notation shard_setter p := (ltac:(let t := eval unfold Shard_eta in Shard_eta in setter t p)) (only parsing).
Definition set_alloc : (A → A) → Shard → Shard := shard_setter (@sh_alloc A).
Definition set_mu : (option nat → option nat) → Shard → Shard := shard_setter (@sh_mu A).
Definition set_index : (gmap BlockKey Entry → gmap BlockKey Entry) → Shard → Shard := shard_setter (@sh_index A).
Definition set_writing : (gmap BlockKey nat → gmap BlockKey nat) → Shard → Shard := shard_setter (@sh_writing A).
Definition set_flushq : (list QItem → list QItem) → Shard → Shard := shard_setter (@sh_flushq A).
Definition set_flush_inflight : (Z → Z) → Shard → Shard := shard_setter (@sh_flush_inflight A).
Definition set_stop : (bool → bool) → Shard → Shard := shard_setter (@sh_stop A).
Definition set_reclaim_last_puts : (list Z → list Z) → Shard → Shard := shard_setter (@sh_reclaim_last_puts A).
End shard_updates.

(** ** Calls *)

Inductive PutKind := KPut | KCommitted | KWriteBack.
Inductive Op := OpPut (kind : PutKind) | OpPutDurable | OpReserve.

#[export] Instance Op_eq_dec : EqDecision Op.
Proof. intros [[]| |] [[]| |]; (by left) || (right; done). Defined.

(** The arguments of an admission; [rq_data] is [None] for a null pointer (and
    for [ReserveDurable], which has no payload). *)
Record Req := mkReq { rq_op : Op; rq_key : BlockKey; rq_data : option (list Z); rq_len : Z }.

(** [RamTier::Admission], [PutDisposition] and [PutResult]. *)
Inductive Admission := kAccepted | kDuplicate | kPersisted | kBypass | kRejected | kBackpressure.
Inductive PutDisposition := kComplete | kDispBypass | kDispBackpressure.
Inductive Result := RBool (b : bool) | RPut (status : Status) (d : PutDisposition).

#[export] Instance Admission_eq_dec : EqDecision Admission.
Proof. solve_decision. Defined.

(** What an admission holds once it owns memory (the locals of [Admit] and
    [PutDurable], and [DurableReservation::State]). *)
Record Loc := mkLoc {
  lc_offset : Z;
  lc_cap : Z;
  lc_handle : option nat;
  lc_large : option nat;
  lc_completion : nat;
}.

(** [ReclaimLargeFor]: before shard [i], or inside it with the rest of the
    iteration. *)
Inductive ReclaimPc := RCheck (i : nat) | RIter (i : nat) (rest : list BlockKey).

(** The locals of [ReclaimTick]. *)
Record Tick := mkTick { tk_classes : list ClassStat; tk_delta : list Z; tk_extents : list Z }.

(** The program points of the calls.  [attempt] counts the rounds of a
    reservation, [c] is the call's completion. *)
Inductive Call :=
| CStart (r : Req)
| CLarge (r : Req) (c : nat) (cap : Z) (attempt : nat)           (* TryReserveLarge: large_used_ *)
| CLargeBudget (r : Req) (c : nat) (cap : Z) (attempt : nat)     (* ... TryReserve *)
| CLargeUndo (r : Req) (c : nat) (cap : Z) (attempt : nat)       (* ... and its undoing *)
| CReclaim (r : Req) (c : nat) (cap : Z) (attempt : nat) (pc : ReclaimPc)
| CMalloc (r : Req) (c : nat) (cap : Z)
| CArena (r : Req) (c : nat) (attempt : nat)
| CReserve (r : Req) (c : nat) (attempt : nat) (ref : SlotRef) (h : nat)  (* shard locked *)
| CFail (r : Req) (c : nat)
| CFailed (r : Req) (c : nat) (canceled : bool)
| CCopy (r : Req) (l : Loc)
| CInstall (r : Req) (l : Loc)
| CCanceled (r : Req) (l : Loc)
| CWait (r : Req) (adm : Admission) (c : option nat)
| CRet (r : Req) (adm : option Admission) (c : option nat) (res : Result)
| COpen (r : Req) (l : Loc)                                      (* DurableReservation *)
| CKept (r : Req) (l : Loc) (installed : bool)                   (* ... finished *)
| CAbort (r : Req) (l : Loc) (complete : bool)
| CRemove (key : BlockKey)
| CRemoveWait (key : BlockKey) (c : option nat)
| CRemoveEnd (key : BlockKey) (c : option nat)
| CRemoveRet (key : BlockKey) (c : option nat) (had : bool)
| CIdle (i : nat)                                                (* FlushLoop *)
| CFlush (i : nat) (batch : list QItem) (items : list FlushItem) (ok : list bool)
| CStopped (i : nat)
| CTickStart (i : nat)                                           (* ReclaimTick *)
| CTickGrow (i : nat) (tk : Tick) (c : nat) (need : option Z)
| CTickGate (i : nat) (tk : Tick)
| CTickReclaim (i : nat) (tk : Tick) (c : nat) (budget : option (Z * Z))
| CTickDone (i : nat).

(** [RamTier::Hit]. *)
Record Hit := mkHit {
  ht_ptr : Ptr;
  ht_len : Z;
  ht_value_len : Z;
  ht_mr : option nat;
  ht_in_arena : bool;
  ht_token : nat;
}.

(** The tier, its calls and the hits that are outstanding. *)
Record Sys (A : Type) := mkSys {
  y_cfg : Config;
  y_shards : list (Shard A);
  y_gl : Globals;
  y_calls : gmap nat Call;
  y_hits : gmap nat Hit;
}.
Arguments mkSys {A}.
Arguments y_cfg {A} _.
Arguments y_shards {A} _.
Arguments y_gl {A} _.
Arguments y_calls {A} _.
Arguments y_hits {A} _.

(** What a step gets from outside: the answer of [is_persisted], the clock, the
    block of [posix_memalign], the iteration order of an unordered map, the
    answers of the flush sink and what it leaves in the padding. *)
Record Input := mkInput {
  in_persisted : bool;
  in_now : Z;
  in_malloc : option (list Z);
  in_order : list BlockKey;
  in_ok : list bool;
  in_pad : list (list Z);
}.

(** A reservation is filled by the storage read, committed and reset by its
    owner; hits are taken and released by the transport.  [WaitForDrain] polls: it
    returns when nothing is dirty or its deadline has passed. *)
Inductive Action :=
| AStart (id : nat) (r : Req)
| ARemove (id : nat) (key : BlockKey)
| AFlusher (id i : nat)
| ATick (id i : nat)
| AStep (id : nat) (inp : Input)
| AFill (id : nat) (bs : list Z)
| ACommit (id : nat)
| AReset (id : nat)
| AGet (h : nat) (key : BlockKey) (offset length : Z) (count_access : bool)
| AProbe (key : BlockKey) (offset length : Z) (count_access : bool)
| ARelease (h : nat)
| AStop (i : nat)
| ASetArenaMr (mr : option nat)
| AWaitForDrain (expired : bool).
