(* ===== verification/RamOps.v ===== *)
(** * RAM tier: operations

    [RamTier] (src/cache/ram_tier.cc) as a system of calls that run
    concurrently.  Each critical section of a shard's mutex is one function on
    the shard and the shared state; where a section takes from the shared budget
    it is cut in two and the mutex stays held ([sh_mu]) in between.  Giving budget
    back is one step, with the two subtractions of [ReleaseLargeBudget].  A call is a
    program point with its locals ([Call]); [step] advances one of them.  [None]
    is a step that cannot be taken: the mutex is held, the awaited completion is
    not done, or the program point does not fit the action. *)

From S2P Require Import Prelude KvTypes SlabTypes SlabOps SlotPool RamTypes.

(** ** Hashing and sizes *)

(** [KeyHash]. *)
Definition mix (value : Z) : Z :=
  let value := Z.lxor value (Z.shiftr value 30) in
  let value := u64 (value * 0xbf58476d1ce4e5b9) in
  let value := Z.lxor value (Z.shiftr value 27) in
  let value := u64 (value * 0x94d049bb133111eb) in
  Z.lxor value (Z.shiftr value 31).

Definition KeyHash (key : BlockKey) : Z :=
  let hash := mix (u64 (digest_hi key + 0x9e3779b97f4a7c15)) in
  let hash := Z.lxor hash (mix (u64 (digest_lo key + 0x3c6ef372fe94f82a))) in
  let hash := Z.lxor hash (mix (u64 (tenant_hash key + 0xdaa66d2c7ddef743))) in
  mix hash.

(** [AlignCapacity]. *)
Definition AlignCapacity (len align : Z) : option Z :=
  if (align =? 0) || (UINT64_MAX - (align - 1) <? len) then None
  else
    let cap := (len + align - 1) / align * align in
    Some (if cap =? 0 then align else cap).

Definition kFlushBatchMax : nat := 16.
Definition kGrowExtentsPerTick : Z := 8.

(** ** Shared state *)

Definition TryReserve (cfg : Config) (bytes : Z) (g : Globals) : option Globals :=
  if (op_bytes (cf_opt cfg) <? bytes) || (op_bytes (cf_opt cfg) - bytes <? gl_budget_used g) then None
  else Some (set_budget_used (λ n, n + bytes) g).

(** The first half of [TryReserveLarge]. *)
Definition try_large (cfg : Config) (bytes : Z) (g : Globals) : option Globals :=
  if (cf_large_budget_bytes cfg <? bytes) || (cf_large_budget_bytes cfg - bytes <? gl_large_used g)
  then None else Some (set_large_used (λ n, n + bytes) g).

Definition ReleaseBudget (bytes : Z) (g : Globals) : Globals := set_budget_used (λ n, n - bytes) g.
Definition ReleaseLargeBudget (bytes : Z) (g : Globals) : Globals :=
  ReleaseBudget bytes (set_large_used (λ n, n - bytes) g).

Definition release (large : bool) (bytes : Z) (g : Globals) : Globals :=
  if large then ReleaseLargeBudget bytes g else ReleaseBudget bytes g.

Definition has_room (cfg : Config) (bytes : Z) (g : Globals) : bool :=
  gl_large_used g <=? cf_large_budget_bytes cfg - bytes.

Definition CompletePut (c : option nat) (success : bool) (g : Globals) : Globals :=
  match c with
  | None => g
  | Some c => set_compl (alter (λ p, if pc_done p then p
                                     else mkPutCompletion true success (pc_canceled p)) c) g
  end.

Definition canceled (c : nat) (g : Globals) : bool :=
  match gl_compl g !! c with Some p => pc_canceled p | None => false end.

Definition cancel (c : nat) (g : Globals) : Globals :=
  set_compl (alter (λ p, mkPutCompletion (pc_done p) (pc_success p) true) c) g.

(** [std::make_shared<PutCompletion>()]. *)
Definition new_shared (key : BlockKey) (g : Globals) : nat * Globals :=
  (gl_next g, set_next S (set_compl_key (<[gl_next g := key]>)
                (set_compl (<[gl_next g := new_completion]>) g))).

Definition new_buffer (bs : list Z) (g : Globals) : nat * Globals :=
  (gl_next g, set_next S (set_heap (<[gl_next g := bs]>) g)).

Definition free_buffer (b : option nat) (g : Globals) : Globals :=
  match b with Some b => set_heap (delete b) g | None => g end.

(** The [n] bytes at [p]; [None] outside the arena or a live buffer. *)
Definition load (cfg : Config) (p : Ptr) (n : nat) (g : Globals) : option (list Z) :=
  match p with
  | PArena off =>
      if (0 <=? off) && (off + Z.of_nat n <=? cf_arena_bytes cfg)
      then Some (read_bytes (gl_mem g) off n) else None
  | PHeap b off =>
      buf ← gl_heap g !! b;
      if (0 <=? off) && (off + Z.of_nat n <=? Z.of_nat (length buf))
      then Some (take n (drop (Z.to_nat off) buf)) else None
  end.

(** [memcpy] to [p]. *)
Definition store (cfg : Config) (p : Ptr) (bs : list Z) (g : Globals) : option Globals :=
  match p with
  | PArena off =>
      if (0 <=? off) && (off + Z.of_nat (length bs) <=? cf_arena_bytes cfg)
      then Some (set_mem (λ m, write_bytes m off bs) g) else None
  | PHeap b off =>
      buf ← gl_heap g !! b;
      if (0 <=? off) && (off + Z.of_nat (length bs) <=? Z.of_nat (length buf))
      then Some (set_heap (<[b := list_inserts (Z.to_nat off) bs buf]>) g) else None
  end.

Section ops.
Context {A : Type} `{SlotPoolOps A}.
Notation Shard := (Shard A).
Notation Sys := (Sys A).
Implicit Types (sh : Shard) (g : Globals) (key : BlockKey) (cfg : Config).

(** ** Inside a shard *)

Definition pool_unpin key (h : option nat) sh : Shard := set_alloc (λ a, (sp_unpin key h a).2) sh.
Definition pool_remove key sh : Shard := set_alloc (λ a, (sp_remove key a).2) sh.

Definition upd_entry key (f : Entry → Entry) sh : Shard := set_index (alter f key) sh.

(** [s.index.erase(it)]: the node and its dedicated buffer are freed. *)
Definition erase_entry key (e : Entry) (sh : Shard) g : Shard * Globals :=
  (set_index (delete key) sh, free_buffer (en_large e) (set_nodes (delete (en_node e)) g)).

(** [s.index.emplace(key, std::move(e))] under a fresh node. *)
Definition emplace_entry key (e : nat → Entry) (pub : Publication) sh g : Shard * Globals :=
  let n := gl_next g in
  match sh_index sh !! key with
  | Some _ => (sh, free_buffer (en_large (e n)) (set_next S g))
  | None => (set_index (<[key := e n]>) sh,
             set_pub (<[n := pub]>) (set_nodes (<[n := key]>) (set_next S g)))
  end.

Definition emplace_writing key (c : nat) sh : Shard :=
  match sh_writing sh !! key with Some _ => sh | None => set_writing (<[key := c]>) sh end.

(** [if (writing != end && writing->second == c) writing.erase(writing)]. *)
Definition erase_writing_of key (c : nat) sh : Shard :=
  if decide (sh_writing sh !! key = Some c) then set_writing (delete key) sh else sh.

Definition erase_evicted_one key (sg : Shard * Globals) : Shard * Globals :=
  let '(sh, g) := sg in
  match sh_index sh !! key with
  | None => (sh, g)
  | Some e => erase_entry key e sh (ReleaseBudget (en_cap e) g)
  end.

Definition EraseEvictedLocked (keys : list BlockKey) sh g : Shard * Globals :=
  foldl (λ sg key, erase_evicted_one key sg) (sh, g) keys.

Definition DropLocked key sh g : Shard * Globals :=
  match sh_index sh !! key with
  | None => (sh, g)
  | Some e =>
      if negb (en_send_pins e =? 0) || en_flushing e
      then (upd_entry key (set_en_remove_pending (λ _, true)) sh, g)
      else
        let g := if negb (en_durable e)
                 then set_dirty_objects (λ n, n - 1) (set_dirty_bytes (λ n, n - en_cap e) g) else g in
        let sh := if in_arena e then pool_remove (en_key e) sh else sh in
        let '(sh, g) := erase_entry key e sh g in
        (sh, release (negb (in_arena e)) (en_cap e) g)
  end.

(** [if (e.in_arena()) s.alloc->Unpin(e.key, e.slot_handle)]. *)
Definition unpin_entry (e : Entry) sh : Shard :=
  if in_arena e then pool_unpin (en_key e) (en_slot_handle e) sh else sh.

(** [if (e.flush_pin) { Unpin; e.flush_pin = false; }]. *)
Definition drop_flush_pin key (e : Entry) sh : Shard :=
  if en_flush_pin e
  then upd_entry key (set_en_flush_pin (λ _, false)) (unpin_entry e sh) else sh.

Definition erase_queued key sh : Shard :=
  set_flushq (filter (λ q, q_key q ≠ key)) sh.

(** ** Returning from a put *)

Definition synchronous cfg : bool := op_ack_high_watermark_pct (cf_opt cfg) =? 0.

Definition client_ack cfg (kind : PutKind) : bool :=
  match kind with KWriteBack => negb (synchronous cfg) | _ => false end.

(** The tails of [Put], [PutCommitted] and [PutWriteBack]. *)
Definition finish_put cfg (r : Req) (kind : PutKind) (adm : Admission) (c : option nat) g :
    Call * Globals :=
  let ret res := CRet r (Some adm) c res in
  match kind with
  | KPut => (ret (RBool (bool_decide (adm = kAccepted ∨ adm = kDuplicate ∨ adm = kPersisted))), g)
  | KCommitted =>
      match adm with
      | kPersisted => (ret (RPut kOk kComplete), g)
      | kBypass => (ret (RPut kCacheFull kDispBypass), g)
      | kRejected => (ret (RPut kIOError kComplete), g)
      | _ => (CWait r adm c, g)
      end
  | KWriteBack =>
      match adm with
      | kPersisted => (ret (RPut kOk kComplete), g)
      | kBypass => (ret (RPut kCacheFull kDispBypass), g)
      | kBackpressure => (ret (RPut kCacheFull kDispBackpressure), g)
      | kRejected => (ret (RPut kIOError kComplete), g)
      | _ =>
          if synchronous cfg || bool_decide (adm = kDuplicate)
          then (CWait r adm c, if synchronous cfg then bump MAckBackpressure 1 g else g)
          else (ret (RPut kOk kComplete), bump MRamAcks 1 g)
      end
  end.

(** ** Admission *)

Definition is_large cfg (r : Req) : bool := cf_extent_bytes cfg <? rq_len r.

(** Out of rounds, or the shard has no slot. *)
Definition fail_call (r : Req) (c : nat) : Call :=
  match rq_op r with OpPut _ => CFail r c | _ => CRet r None None (RBool false) end.

(** One [s.alloc->Put] and [EraseEvictedLocked]; on success the shard stays
    locked for the reservation that follows. *)
Definition arena_put (id : nat) (r : Req) (c : nat) (attempt : nat) sh g : option (Call * Shard * Globals) :=
  '(out, a, evicted) ← sp_put (rq_key r) (rq_len r) (sh_alloc sh) [];
  let sh := set_alloc (λ _, a) sh in
  match out with
  | None => Some (fail_call r c, sh, g)
  | Some (ref, h) =>
      let '(sh, g) := EraseEvictedLocked evicted sh g in
      Some (CReserve r c attempt ref h, set_mu (λ _, Some id) sh, g)
  end.

(** [Admit] of a key that is neither published nor being written, after the
    question to [is_persisted]. *)
Definition admit_new cfg (id : nat) (r : Req) (kind : PutKind) (persisted : bool) sh g :
    option (Call * Shard * Globals) :=
  let opt := cf_opt cfg in
  let finish adm g := let '(call, g) := finish_put cfg r kind adm None g in Some (call, sh, g) in
  if persisted then finish kPersisted g
  else if client_ack cfg kind && negb (op_ack_high_watermark_pct opt =? 0)
       && (u64 (op_bytes opt * Z.min (op_ack_high_watermark_pct opt) 100) / 100 <=? gl_dirty_bytes g)
  then finish kBackpressure (bump MAckBackpressure 1 g)
  else
    match AlignCapacity (rq_len r) (op_slot_granularity opt) with
    | Some cap =>
        if op_bytes opt <? cap then finish kBypass (bump MPutBypass 1 g)
        else
          let '(c, g) := new_shared (rq_key r) g in
          let sh := emplace_writing (rq_key r) c sh in
          if is_large cfg r then Some (CLarge r c cap 0, sh, g)
          else arena_put id r c 0 sh g
    | None => finish kBypass (bump MPutBypass 1 g)
    end.

(** [Admit] up to the choice of the storage kind. *)
Definition admit_section cfg (id : nat) (r : Req) (kind : PutKind) (inp : Input) sh g :
    option (Call * Shard * Globals) :=
  let key := rq_key r in
  let finish adm c sh g := let '(call, g) := finish_put cfg r kind adm c g in Some (call, sh, g) in
  match sh_index sh !! key with
  | Some e =>
      if en_remove_pending e then finish kRejected None sh g
      else
        match en_completion e with
        | Some c => finish kDuplicate (Some c) sh g
        | None =>
            let '(c, g) := new_shared key g in
            finish kDuplicate (Some c) (upd_entry key (set_en_completion (λ _, Some c)) sh)
              (CompletePut (Some c) (en_durable e) g)
        end
  | None =>
      match sh_writing sh !! key with
      | Some c => finish kDuplicate (Some c) sh g
      | None =>
          if op_is_persisted (cf_opt cfg)
          then admit_new cfg id r kind (in_persisted inp) sh
                 (set_sunk (λ l, l ++ [mkPersistedCall key (in_persisted inp)]) g)
          else admit_new cfg id r kind false sh g
      end
  end.

(** A round of the arena loops; the promotions look at the index again. *)
Definition arena_section (id : nat) (r : Req) (c : nat) (attempt : nat) sh g :
    option (Call * Shard * Globals) :=
  match rq_op r, sh_index sh !! rq_key r, sh_writing sh !! rq_key r with
  | OpPut _, _, _ => arena_put id r c attempt sh g
  | OpPutDurable, Some e, _ => Some (CRet r None None (RBool (negb (en_remove_pending e))), sh, g)
  | OpReserve, Some _, _ | _, None, Some _ => Some (CRet r None None (RBool false), sh, g)
  | _, None, None => arena_put id r c attempt sh g
  end.

(** The rest of the round: [TryReserve], then the pin or the undoing. *)
Definition reserve_section cfg (r : Req) (c : nat) (attempt : nat) (ref : SlotRef) (h : nat) sh g :
    option (Call * Shard * Globals) :=
  let key := rq_key r in
  let cap := r_slot_size ref in
  let unlock := set_mu (λ _, None) in
  match TryReserve cfg cap g with
  | None => Some (CReclaim r c cap attempt (RCheck 0), unlock (pool_remove key sh), g)
  | Some g =>
      let sh := set_alloc (λ a, (sp_pin key (Some h) a).2) sh in
      let sh := match rq_op r with OpPut _ => sh | _ => emplace_writing key c sh end in
      let l := mkLoc (sh_base_off sh + Z.of_nat (r_extent ref) * cf_extent_bytes cfg + r_offset ref)
                 cap (Some h) None c in
      Some (match rq_op r with OpReserve => COpen r l | _ => CCopy r l end, unlock sh, g)
  end.

(** The large path of [PutDurable] up to its reservation. *)
Definition durable_large_section (r : Req) (cap : Z) sh g : option (Call * Shard * Globals) :=
  match sh_index sh !! rq_key r, sh_writing sh !! rq_key r with
  | Some e, _ => Some (CRet r None None (RBool (negb (en_remove_pending e))), sh, g)
  | None, Some _ => Some (CRet r None None (RBool false), sh, g)
  | None, None =>
      let '(c, g) := new_shared (rq_key r) g in
      Some (CLarge r c cap 0, emplace_writing (rq_key r) c sh, g)
  end.

(** What follows a failed [TryReserveLarge], and a [ReclaimLargeFor]. *)
Definition large_failed (r : Req) (c : nat) (cap : Z) (attempt : nat) : Call :=
  if (attempt =? 0)%nat then CReclaim r c cap attempt (RCheck 0) else CFail r c.

Definition after_reclaim cfg (r : Req) (c : nat) (cap : Z) (attempt : nat) : Call :=
  if is_large cfg r then CLarge r c cap 1
  else if (attempt =? 0)%nat then CArena r c 1 else fail_call r c.

(** One iteration of [ReclaimLargeFor] inside a shard. *)
Definition reclaim_iter cfg (r : Req) (c : nat) (cap : Z) (attempt i : nat) (rest : list BlockKey) sh g :
    option (Call * Shard * Globals) :=
  let unlock := set_mu (λ _, None) in
  match rest with
  | [] => Some (CReclaim r c cap attempt (RCheck (S i)), unlock sh, g)
  | key :: rest =>
      match sh_index sh !! key with
      | Some e =>
          if negb (in_arena e) && en_durable e && (en_send_pins e =? 0) && negb (en_remove_pending e)
          then
            let '(sh, g) := erase_entry key e sh (ReleaseLargeBudget (en_cap e) g) in
            let g := bump MLargeEvictions 1 g in
            if has_room cfg cap g then Some (after_reclaim cfg r c cap attempt, unlock sh, g)
            else Some (CReclaim r c cap attempt (RIter i rest), sh, g)
          else Some (CReclaim r c cap attempt (RIter i rest), sh, g)
      | None => Some (CReclaim r c cap attempt (RIter i rest), sh, g)
      end
  end.

(** The value was not admitted. *)
Definition fail_section (r : Req) (c : nat) sh g : option (Call * Shard * Globals) :=
  match rq_op r with
  | OpPut _ => Some (CFailed r c (canceled c g), erase_writing_of (rq_key r) c sh, g)
  | _ => Some (CRet r None None (RBool false), set_writing (delete (rq_key r)) sh,
               CompletePut (Some c) false g)
  end.

(** The install sections of [Admit] and [PutDurable]. *)
Definition new_entry cfg (r : Req) (l : Loc) (durable : bool) (now : Z) (n : nat) : Entry :=
  let acked := match rq_op r with OpPut kind => client_ack cfg kind | _ => false end in
  mkEntry (rq_key r) (lc_offset l) (rq_len r) (lc_cap l) (lc_handle l) (lc_large l)
    (Some (lc_completion l)) (match rq_op r with OpReserve => 1 | _ => 0 end) durable false
    (negb durable) acked now false n.

Definition loc_ptr (l : Loc) : Ptr :=
  match lc_large l with Some b => PHeap b 0 | None => PArena (lc_offset l) end.

Definition loc_large (l : Loc) : bool := if lc_large l is Some _ then true else false.

Definition free_slot key (h : option nat) sh : Shard := pool_remove key (pool_unpin key h sh).

Definition install_section cfg (r : Req) (l : Loc) (inp : Input) sh g : option (Call * Shard * Globals) :=
  let key := rq_key r in
  let bytes := default [] (load cfg (loc_ptr l) (Z.to_nat (rq_len r)) g) in
  let stop := canceled (lc_completion l) g in
  let sh := set_writing (delete key) sh in
  if stop then
    Some (CCanceled r l, if loc_large l then sh else free_slot key (lc_handle l) sh, g)
  else
    match rq_op r with
    | OpPut kind =>
        let '(sh, g) := emplace_entry key (new_entry cfg r l false (in_now inp))
          (mkPublication key bytes (lc_completion l) false) sh g in
        let sh := set_flushq (λ q, q ++ [mkQItem key 0]) sh in
        let g := set_dirty_objects (λ n, n + 1) (set_dirty_bytes (λ n, n + lc_cap l) g) in
        let '(call, g) := finish_put cfg r kind kAccepted (Some (lc_completion l)) (bump MPuts 1 g) in
        Some (call, sh, g)
    | _ =>
        let g := CompletePut (Some (lc_completion l)) true g in
        let '(sh, g) := emplace_entry key (new_entry cfg r l true 0)
          (mkPublication key bytes (lc_completion l) true) sh g in
        let sh := if loc_large l then sh else pool_unpin key (lc_handle l) sh in
        Some (CRet r None (Some (lc_completion l)) (RBool true), sh, bump MPromotes 1 g)
    end.

(** ** Durable reservations *)

Definition commit_section cfg (r : Req) (l : Loc) sh g : option (Call * Shard * Globals) :=
  let key := rq_key r in
  let bytes := default [] (load cfg (loc_ptr l) (Z.to_nat (rq_len r)) g) in
  let stop := canceled (lc_completion l) g in
  let sh := erase_writing_of key (lc_completion l) sh in
  if stop then
    Some (CKept r l false, pool_remove key sh, CompletePut (Some (lc_completion l)) false g)
  else
    let g := CompletePut (Some (lc_completion l)) true g in
    let '(sh, g) := emplace_entry key (new_entry cfg r l true 0)
      (mkPublication key bytes (lc_completion l) true) sh g in
    Some (CKept r l true, sh, bump MPromotes 1 g).

(** [AbortReservation] of a finished reservation, and of an open one. *)
Definition reset_kept_section (r : Req) (l : Loc) (installed : bool) sh g :
    option (Call * Shard * Globals) :=
  let key := rq_key r in
  if installed then
    match sh_index sh !! key with
    | Some e =>
        if negb (en_send_pins e =? 0) then
          let sh := upd_entry key (set_en_send_pins (λ n, n - 1)) sh in
          let sh := pool_unpin (en_key e) (en_slot_handle e) sh in
          let '(sh, g) := if en_remove_pending e && (en_send_pins e - 1 =? 0) && negb (en_flushing e)
                          then DropLocked key sh g else (sh, g) in
          Some (CRet r None None (RBool true), sh, g)
        else Some (CRet r None None (RBool true), sh, g)
    | None => Some (CRet r None None (RBool true), sh, g)
    end
  else Some (CAbort r l false, pool_unpin key (lc_handle l) sh, g).

Definition reset_open_section (r : Req) (l : Loc) sh g : option (Call * Shard * Globals) :=
  let key := rq_key r in
  Some (CAbort r l true, free_slot key (lc_handle l) (erase_writing_of key (lc_completion l) sh), g).

(** ** Reads *)

(** [GetPrep] with [out]: the hit, or [None] for [false]. *)
Definition get_section cfg key (offset length : Z) (count_access : bool) sh g :
    option Hit * Shard * Globals :=
  match sh_index sh !! key with
  | None => (None, sh, if count_access then bump MMisses 1 g else g)
  | Some e =>
      if en_remove_pending e then (None, sh, if count_access then bump MMisses 1 g else g)
      else if en_len e <? offset then (None, sh, g)
      else
        let avail := en_len e - offset in
        let n := Z.min (if length =? 0 then avail else length) avail in
        let '(pinned, sh) :=
          if in_arena e
          then let '(ok, a) := sp_pin key (en_slot_handle e) (sh_alloc sh) in (ok, set_alloc (λ _, a) sh)
          else (true, sh) in
        if negb pinned then (None, sh, g)
        else
          (Some (mkHit (ptr_add (entry_data e) offset) n (en_len e)
                   (if in_arena e then gl_arena_mr g else None) (in_arena e) (en_node e)),
           upd_entry key (set_en_send_pins (λ n, u32 (n + 1))) sh,
           if count_access then bump MHits 1 g else g)
  end.

(** [GetPrep] without [out]: only the counters move. *)
Definition probe_section key (offset : Z) (count_access : bool) sh g : bool * Globals :=
  match sh_index sh !! key with
  | None => (false, if count_access then bump MMisses 1 g else g)
  | Some e =>
      if en_remove_pending e then (false, if count_access then bump MMisses 1 g else g)
      else if en_len e <? offset then (false, g)
      else (true, if count_access then bump MHits 1 g else g)
  end.

(** [ReleaseToken], the entry found at its address. *)
Definition release_section key (e : Entry) sh g : Shard * Globals :=
  if en_send_pins e =? 0 then (sh, g)
  else
    let sh := unpin_entry e (upd_entry key (set_en_send_pins (λ n, n - 1)) sh) in
    if en_remove_pending e && (en_send_pins e - 1 =? 0) && negb (en_flushing e)
    then DropLocked (en_key e) sh g else (sh, g).

Definition Contains key sh : bool :=
  match sh_index sh !! key with Some e => negb (en_remove_pending e) | None => false end.

Definition Lookup key sh : option Z :=
  e ← sh_index sh !! key; if en_remove_pending e then None else Some (en_len e).

(** ** Removal *)

(** What hides a published value: the fence, the queue, the flush pin. *)
Definition fence_entry key (e : Entry) sh g : Shard * Globals :=
  let sh := erase_queued key (upd_entry key (set_en_remove_pending (λ _, true)) sh) in
  if en_flushing e then (sh, g)
  else (drop_flush_pin key e sh, if en_durable e then g else CompletePut (en_completion e) false g).

Definition remove_section key sh g : option (Call * Shard * Globals) :=
  match sh_writing sh !! key with
  | Some c => Some (CRemoveWait key (Some c), sh, set_fenced (λ l, l ++ [c]) (cancel c g))
  | None =>
      match sh_index sh !! key with
      | None => Some (CRemoveRet key None false, sh, g)
      | Some e =>
          if en_remove_pending e then Some (CRemoveRet key None false, sh, g)
          else
            let '(sh, g) := fence_entry key e sh g in
            let '(sh, g) := if negb (en_flushing e) && (en_send_pins e =? 0)
                            then DropLocked key sh g else (sh, g) in
            Some (CRemoveWait key (en_completion e), sh,
                  set_fenced (λ l, l ++ (if en_completion e is Some c then [c] else [])) g)
      end
  end.

(** The cleanup after the wait. *)
Definition remove_end_section key (c : option nat) sh g : option (Call * Shard * Globals) :=
  match sh_index sh !! key with
  | Some e =>
      if decide (en_completion e = c) then
        let '(sh, g) := if en_remove_pending e then (sh, g) else fence_entry key e sh g in
        let '(sh, g) := if negb (en_flushing e) && (en_send_pins e =? 0)
                        then DropLocked key sh g else (sh, g) in
        Some (CRemoveRet key c true, sh, g)
      else Some (CRemoveRet key c true, sh, g)
  | None => Some (CRemoveRet key c true, sh, g)
  end.

(** ** Flushing *)

(** The dequeue loop, [n] items still fitting the batch. *)
Fixpoint dequeue (n : nat) (q : list QItem) (index : gmap BlockKey Entry) :
    list QItem * gmap BlockKey Entry * list QItem * list FlushItem :=
  match q with
  | [] => ([], index, [], [])
  | queued :: q' =>
      match n with
      | O => (q, index, [], [])
      | S n' =>
          match index !! q_key queued with
          | Some e =>
              if en_durable e || en_remove_pending e then dequeue n q' index
              else
                let '(rest, index, batch, items) :=
                  dequeue n' q' (<[q_key queued := set_en_flushing (λ _, true) e]> index) in
                (rest, index, queued :: batch,
                 mkFlushItem (q_key queued) (entry_data e) (en_len e) (en_cap e) :: items)
          | None => dequeue n q' index
          end
      end
  end.

Definition dequeue_section (i : nat) sh g : option (Call * Shard * Globals) :=
  match sh_flushq sh with
  | [] => if sh_stop sh then Some (CStopped i, sh, g) else None
  | q =>
      let '(rest, index, batch, items) := dequeue kFlushBatchMax q (sh_index sh) in
      let sh := set_index (λ _, index) (set_flushq (λ _, rest) sh) in
      Some (CFlush i batch items [],
            set_flush_inflight (λ n, n + Z.of_nat (length batch)) sh, g)
  end.

(** The sink reads [len] bytes of an item and may overwrite its padding. *)
Definition sink_item cfg (it : FlushItem) (ok : bool) (pad : list Z) g : option Globals :=
  bytes ← load cfg (fi_data it) (Z.to_nat (fi_len it)) g;
  g ← (if decide (Z.of_nat (length pad) <= fi_cap it - fi_len it)
       then store cfg (ptr_add (fi_data it) (fi_len it)) pad g else None);
  Some (set_sunk (λ l, l ++ [mkSinkCall (fi_key it) bytes ok]) g).

Fixpoint sink_items cfg (items : list FlushItem) (oks : list bool) (pads : list (list Z)) g : option Globals :=
  match items with
  | [] => Some g
  | it :: items =>
      g ← sink_item cfg it (default false (head oks)) (default [] (head pads)) g;
      sink_items cfg items (tail oks) (tail pads) g
  end.

(** [for (i < B && i < results.size()) ok[i] = results[i]]. *)
Definition batch_answers (n : nat) (results : list bool) : list bool :=
  (λ i, default false (results !! i)) <$> seq 0 n.

Definition flush_items cfg (i : nat) (batch : list QItem) (items : list FlushItem) (ok : list bool)
    (inp : Input) g : option (Call * Globals) :=
  if cf_flush_batch cfg && negb (length batch =? 0)%nat then
    let answers := batch_answers (length batch) (in_ok inp) in
    g ← sink_items cfg items answers (in_pad inp) g;
    Some (CFlush i batch items answers, g)
  else
    it ← items !! length ok;
    if cf_flush cfg then
      let answer := default false (head (in_ok inp)) in
      g ← sink_item cfg it answer (default [] (head (in_pad inp))) g;
      Some (CFlush i batch items (ok ++ [answer]), g)
    else Some (CFlush i batch items (ok ++ [true]), g).

(** The flush of one item has ended. *)
Definition complete_item cfg (q : QItem) (ok : bool) (sg : Shard * Globals) : Shard * Globals :=
  let '(sh, g) := sg in
  let key := q_key q in
  match sh_index sh !! key with
  | None => (sh, g)
  | Some e =>
      let sh := upd_entry key (set_en_flushing (λ _, false)) sh in
      if en_remove_pending e then
        let sh := drop_flush_pin key e sh in
        let g := CompletePut (en_completion e) false g in
        if en_send_pins e =? 0 then DropLocked key sh g else (sh, g)
      else if ok then
        let sh := upd_entry key (set_en_durable (λ _, true)) sh in
        let g := set_dirty_objects (λ n, n - 1) (set_dirty_bytes (λ n, n - en_cap e) g) in
        let sh := drop_flush_pin key e sh in
        (sh, bump MFlushed 1 (CompletePut (en_completion e) true g))
      else if q_tries q + 1 <? op_flush_retries (cf_opt cfg) then
        (set_flushq (λ l, l ++ [mkQItem key (q_tries q + 1)]) sh, g)
      else
        let sh := drop_flush_pin key e sh in
        let g := if en_client_acked e then bump MPostAckFlushFailures 1 g else g in
        let '(sh, g) := DropLocked key sh g in
        let g := bump MFlushDropped 1 (set_healthy (λ _, false) g) in
        (sh, CompletePut (en_completion e) false g)
  end.

Fixpoint complete_items cfg (batch : list QItem) (ok : list bool) (sg : Shard * Globals) : Shard * Globals :=
  match batch with
  | [] => sg
  | q :: batch => complete_items cfg batch (tail ok) (complete_item cfg q (default false (head ok)) sg)
  end.

Definition complete_section cfg (i : nat) (batch : list QItem) (ok : list bool) sh g :
    option (Call * Shard * Globals) :=
  let '(sh, g) := complete_items cfg batch ok (sh, g) in
  Some (CIdle i, set_flush_inflight (λ n, n - Z.of_nat (length batch)) sh, g).

(** ** Background reclaim *)

Definition resize0 (n : nat) (l : list Z) : list Z :=
  if (length l <? n)%nat then l ++ replicate (n - length l) 0 else l.

Definition tick_start (i : nat) sh : Call * Shard :=
  let classes := sp_classes (sh_alloc sh) in
  let last := resize0 (length classes) (sh_reclaim_last_puts sh) in
  let puts := cs_puts <$> classes in
  let delta := zip_with (λ p l, u64 (p - l)) puts last in
  (CTickGrow i (mkTick classes delta (cs_extents <$> classes)) 0 None,
   set_reclaim_last_puts (λ _, puts ++ drop (length puts) last) sh).

(** [std::max<size_t>(64, 2 * delta)]. *)
Definition tick_want (delta : Z) : Z := Z.max 64 (u64 (2 * delta)).

(** The extents class [c] should gain in this pass. *)
Definition grow_need (tk : Tick) (c : nat) (pool_extents : Z) : Z :=
  let cs := tk_classes tk !!! c in
  let want := tick_want (tk_delta tk !!! c) in
  if (want <=? cs_free_slots cs) || (cs_slots_per_extent cs =? 0) || (0 <? pool_extents) then 0
  else Z.min ((want - cs_free_slots cs + cs_slots_per_extent cs - 1) / cs_slots_per_extent cs)
         kGrowExtentsPerTick.

Definition steal_section (i : nat) (tk : Tick) (c donor : nat) (need : Z) sh g :
    option (Call * Shard * Globals) :=
  '(ok, a, evicted) ← sp_steal_from donor c (sh_alloc sh) [];
  let '(sh, g) := EraseEvictedLocked evicted (set_alloc (λ _, a) sh) g in
  let extents f := mkTick (tk_classes tk) (tk_delta tk) (alter f donor (tk_extents tk)) in
  if ok : bool then Some (CTickGrow i (extents (λ n, u32 (n - 1))) c (Some (need - 1)), sh, bump MRebalanced 1 g)
  else Some (CTickGrow i (extents (λ _, 0)) c (Some need), sh, g).

Definition tick_target (tk : Tick) (c : nat) : Z :=
  let cs := tk_classes tk !!! c in
  Z.min (tick_want (tk_delta tk !!! c)) ((cs_resident cs + cs_free_slots cs) / 4).

Definition reclaim_section (i : nat) (tk : Tick) (c : nat) (target budget : Z) sh g :
    option (Call * Shard * Globals) :=
  let batch := Z.min 64 budget in
  let '(got, a, evicted) := sp_reclaim_class c target (Z.to_nat batch) (sh_alloc sh) [] in
  let '(sh, g) := EraseEvictedLocked evicted (set_alloc (λ _, a) sh) g in
  let got := Z.of_nat got in
  let budget := budget - Z.min budget got in
  Some (if (got <? batch) || (budget =? 0) then CTickReclaim i tk (S c) None
        else CTickReclaim i tk c (Some (target, budget)), sh, bump MReclaimed got g).

(** ** Reports *)

Definition Evictions (y : Sys) : Z :=
  gl_metrics (y_gl y) MLargeEvictions + sumZ (λ sh, sp_evictions (sh_alloc sh)) (y_shards y).

Definition UsedBytes (y : Sys) : Z := gl_budget_used (y_gl y).

Definition Count (y : Sys) : Z :=
  sumZ (λ sh, msum (λ _ e, if en_remove_pending e then 0 else 1) (sh_index sh)) (y_shards y).

Definition FlushBacklog (y : Sys) : Z :=
  sumZ (λ sh, Z.of_nat (length (sh_flushq sh)) + sh_flush_inflight sh) (y_shards y).

(** ** Steps *)

Definition shard_of key (y : Sys) : nat := Z.to_nat (KeyHash key mod Z.of_nat (length (y_shards y))).

Definition with_call (id : nat) (call : Call) (y : Sys) : Sys :=
  mkSys (y_cfg y) (y_shards y) (y_gl y) (<[id := call]> (y_calls y)) (y_hits y).

Definition with_gl (f : Globals → Globals) (y : Sys) : Sys :=
  mkSys (y_cfg y) (y_shards y) (f (y_gl y)) (y_calls y) (y_hits y).

Definition put_shard (i : nat) (sh : Shard) (g : Globals) (y : Sys) : Sys :=
  mkSys (y_cfg y) (<[i := sh]> (y_shards y)) g (y_calls y) (y_hits y).

(** A critical section of shard [i], entered by call [id] or, with [held],
    continued by it. *)
Definition section (id i : nat) (held : bool) (f : Shard → Globals → option (Call * Shard * Globals))
    (y : Sys) : option Sys :=
  sh ← y_shards y !! i;
  if decide (sh_mu sh = if held then Some id else None) then
    '(call, sh, g) ← f sh (y_gl y);
    Some (with_call id call (put_shard i sh g y))
  else None.

(** Steps outside the mutexes. *)
Definition lock_free (id : nat) (call : Call) (f : Globals → Globals) (y : Sys) : option Sys :=
  Some (with_call id call (with_gl f y)).

(** The entry checks of the three admissions. *)
Definition start_step cfg (id : nat) (r : Req) (inp : Input) (y : Sys) : option Sys :=
  let opt := cf_opt cfg in
  let i := shard_of (rq_key r) y in
  match rq_op r with
  | OpPut kind =>
      if (rq_len r =? 0) || bool_decide (rq_data r = None) then
        let '(call, g) := finish_put cfg r kind kBypass None (y_gl y) in
        lock_free id call (λ _, g) y
      else section id i false (admit_section cfg id r kind inp) y
  | op =>
      if (rq_len r =? 0) || (bool_decide (op = OpPutDurable) && bool_decide (rq_data r = None))
         || (bool_decide (op = OpReserve) && is_large cfg r)
      then lock_free id (CRet r None None (RBool false)) (λ g, g) y
      else
        match AlignCapacity (rq_len r) (op_slot_granularity opt) with
        | Some cap =>
            if op_bytes opt <? cap then lock_free id (CRet r None None (RBool false)) (λ g, g) y
            else if is_large cfg r then section id i false (durable_large_section r cap) y
            else let '(c, g) := new_shared (rq_key r) (y_gl y) in lock_free id (CArena r c 0) (λ _, g) y
        | None => lock_free id (CRet r None None (RBool false)) (λ g, g) y
        end
  end.

(** [ReclaimLargeFor] outside the mutexes: return, or enter the next shard, whose
    entries come in any order. *)
Definition reclaim_check cfg (id : nat) (r : Req) (c : nat) (cap : Z) (attempt i : nat) (inp : Input)
    (y : Sys) : option Sys :=
  if (cf_large_budget_bytes cfg <? cap) || (length (y_shards y) <=? i)%nat || has_room cfg cap (y_gl y)
  then lock_free id (after_reclaim cfg r c cap attempt) (λ g, g) y
  else section id i false (λ sh g,
    if decide (in_order inp ≡ₚ (map_to_list (sh_index sh)).*1)
    then Some (CReclaim r c cap attempt (RIter i (in_order inp)), set_mu (λ _, Some id) sh, g)
    else None) y.

(** [ReclaimTick] between its sections. *)
Definition tick_grow (id i : nat) (tk : Tick) (c : nat) (need : option Z) (y : Sys) : option Sys :=
  let n := length (tk_classes tk) in
  let goto call := lock_free id call (λ g, g) y in
  if (n <=? c)%nat then goto (CTickGate i tk)
  else
    match need with
    | None =>
        sh ← y_shards y !! i;
        goto (if tk_delta tk !!! c =? 0 then CTickGrow i tk (S c) None
              else CTickGrow i tk c (Some (grow_need tk c (sp_pool_extents (sh_alloc sh)))))
    | Some need =>
        if need <=? 0 then goto (CTickGrow i tk (S c) None)
        else
          let donor := ColdestGrowDonor (tk_classes tk) (tk_delta tk) (tk_extents tk) c in
          if (donor =? n)%nat then goto (CTickGrow i tk (S c) None)
          else section id i false (steal_section i tk c donor need) y
    end.

Definition tick_reclaim (id i : nat) (tk : Tick) (c : nat) (budget : option (Z * Z)) (y : Sys) : option Sys :=
  let goto call := lock_free id call (λ g, g) y in
  if (length (tk_classes tk) <=? c)%nat then goto (CTickDone i)
  else
    match budget with
    | None =>
        goto (if (tk_delta tk !!! c =? 0) || (tick_target tk c <=? cs_free_slots (tk_classes tk !!! c))
              then CTickReclaim i tk (S c) None
              else CTickReclaim i tk c (Some (tick_target tk c, 4096)))
    | Some (target, budget) => section id i false (reclaim_section i tk c target budget) y
    end.

(** Advance one call. *)
Definition call_step (id : nat) (inp : Input) (y : Sys) (call : Call) : option Sys :=
  let cfg := y_cfg y in
  let at_key key := shard_of key y in
  match call with
  | CStart r => start_step cfg id r inp y
  | CLarge r c cap a =>
      match try_large cfg cap (y_gl y) with
      | Some g => lock_free id (CLargeBudget r c cap a) (λ _, g) y
      | None => lock_free id (large_failed r c cap a) (λ g, g) y
      end
  | CLargeBudget r c cap a =>
      match TryReserve cfg cap (y_gl y) with
      | Some g => lock_free id (CMalloc r c cap) (λ _, g) y
      | None => lock_free id (CLargeUndo r c cap a) (λ g, g) y
      end
  | CLargeUndo r c cap a => lock_free id (large_failed r c cap a) (set_large_used (λ n, n - cap)) y
  | CReclaim r c cap a (RCheck i) => reclaim_check cfg id r c cap a i inp y
  | CReclaim r c cap a (RIter i rest) => section id i true (reclaim_iter cfg r c cap a i rest) y
  | CMalloc r c cap =>
      match in_malloc inp with
      | Some bs =>
          if decide (Z.of_nat (length bs) = cap) then
            let '(b, g) := new_buffer bs (y_gl y) in
            lock_free id (CCopy r (mkLoc 0 cap None (Some b) c)) (λ _, g) y
          else None
      | None => lock_free id (CFail r c) (ReleaseLargeBudget cap) y
      end
  | CArena r c a => section id (at_key (rq_key r)) false (arena_section id r c a) y
  | CReserve r c a ref h => section id (at_key (rq_key r)) true (reserve_section cfg r c a ref h) y
  | CFail r c => section id (at_key (rq_key r)) false (fail_section r c) y
  | CFailed r c stop =>
      match rq_op r with
      | OpPut kind =>
          let g := CompletePut (Some c) false (y_gl y) in
          let '(call, g) :=
            if stop : bool then finish_put cfg r kind kRejected (Some c) g
            else finish_put cfg r kind kBypass (Some c) (bump MPutBypass 1 g) in
          lock_free id call (λ _, g) y
      | _ => None
      end
  | CCopy r l =>
      g ← store cfg (loc_ptr l) (default [] (rq_data r)) (y_gl y);
      lock_free id (CInstall r l) (λ _, g) y
  | CInstall r l => section id (at_key (rq_key r)) false (install_section cfg r l inp) y
  | CCanceled r l =>
      let g := free_buffer (lc_large l)
        (CompletePut (Some (lc_completion l)) false (release (loc_large l) (lc_cap l) (y_gl y))) in
      match rq_op r with
      | OpPut kind =>
          let '(call, g) := finish_put cfg r kind kRejected (Some (lc_completion l)) g in
          lock_free id call (λ _, g) y
      | _ => lock_free id (CRet r None None (RBool false)) (λ _, g) y
      end
  | CWait r adm c =>
      match c with
      | None => lock_free id (CRet r (Some adm) c (RPut kIOError kComplete)) (λ g, g) y
      | Some c' =>
          p ← gl_compl (y_gl y) !! c';
          if pc_done p
          then lock_free id (CRet r (Some adm) c (RPut (if pc_success p then kOk else kIOError) kComplete))
                 (λ g, g) y
          else None
      end
  | CAbort r l complete =>
      lock_free id (CRet r None None (RBool true)) (λ g,
        let g := ReleaseBudget (lc_cap l) g in
        if complete : bool then CompletePut (Some (lc_completion l)) false g else g) y
  | CRemove key => section id (at_key key) false (remove_section key) y
  | CRemoveWait key c =>
      match c with
      | None => lock_free id (CRemoveEnd key c) (λ g, g) y
      | Some c' =>
          p ← gl_compl (y_gl y) !! c';
          if pc_done p then lock_free id (CRemoveEnd key c) (λ g, g) y else None
      end
  | CRemoveEnd key c => section id (at_key key) false (remove_end_section key c) y
  | CIdle i => section id i false (dequeue_section i) y
  | CFlush i batch items ok =>
      if (length ok =? length batch)%nat then section id i false (complete_section cfg i batch ok) y
      else
        '(call, g) ← flush_items cfg i batch items ok inp (y_gl y);
        lock_free id call (λ _, g) y
  | CTickStart i =>
      sh ← y_shards y !! i;
      let '(call, sh) := tick_start i sh in
      Some (with_call id call (put_shard i sh (y_gl y) y))
  | CTickGrow i tk c need => tick_grow id i tk c need y
  | CTickGate i tk => section id i false (λ sh g,
      Some (if (4096 <? length (sh_flushq sh))%nat then CTickDone i else CTickReclaim i tk 0 None, sh, g)) y
  | CTickReclaim i tk c budget => tick_reclaim id i tk c budget y
  | COpen _ _ | CKept _ _ _ | CRet _ _ _ _ | CRemoveRet _ _ _ | CStopped _ | CTickDone _ => None
  end.

(** The payload of a put has the length it is passed with. *)
Definition req_ok (r : Req) : bool :=
  (0 <=? rq_len r) && (rq_len r <=? UINT64_MAX) &&
  match rq_op r, rq_data r with
  | OpReserve, None | OpPut _, None | OpPutDurable, None => true
  | OpReserve, Some _ => false
  | _, Some bs => rq_len r =? Z.of_nat (length bs)
  end.

Definition new_call (id : nat) (call : Call) (y : Sys) : option Sys :=
  if decide (y_calls y !! id = None) then Some (with_call id call y) else None.

(** [ReleaseToken]: the token is the address of a live node. *)
Definition release_step (hit : Hit) (y : Sys) : option (list Shard * Globals) :=
  key ← gl_nodes (y_gl y) !! ht_token hit;
  let i := shard_of key y in
  sh ← y_shards y !! i;
  e ← sh_index sh !! key;
  if decide (sh_mu sh = None ∧ en_node e = ht_token hit) then
    let '(sh, g) := release_section key e sh (y_gl y) in
    Some (<[i := sh]> (y_shards y), g)
  else None.

Definition step (a : Action) (y : Sys) : option Sys :=
  let cfg := y_cfg y in
  match a with
  | AStart id r => if req_ok r then new_call id (CStart r) y else None
  | ARemove id key => new_call id (CRemove key) y
  | AFlusher id i => if (i <? length (y_shards y))%nat then new_call id (CIdle i) y else None
  | ATick id i => if (i <? length (y_shards y))%nat then new_call id (CTickStart i) y else None
  | AStep id inp => y_calls y !! id ≫= call_step id inp y
  | AFill id bs =>
      match y_calls y !! id with
      | Some (COpen r l) =>
          if decide (Z.of_nat (length bs) <= lc_cap l) then
            g ← store cfg (loc_ptr l) bs (y_gl y); Some (with_gl (λ _, g) y)
          else None
      | _ => None
      end
  | ACommit id =>
      match y_calls y !! id with
      | Some (COpen r l) => section id (shard_of (rq_key r) y) false (commit_section cfg r l) y
      | _ => None
      end
  | AReset id =>
      match y_calls y !! id with
      | Some (COpen r l) => section id (shard_of (rq_key r) y) false (reset_open_section r l) y
      | Some (CKept r l installed) =>
          section id (shard_of (rq_key r) y) false (reset_kept_section r l installed) y
      | _ => None
      end
  | AGet h key offset length count_access =>
      let i := shard_of key y in
      sh ← y_shards y !! i;
      if decide (sh_mu sh = None ∧ y_hits y !! h = None ∧ 0 <= offset ∧ 0 <= length) then
        let '(out, sh, g) := get_section cfg key offset length count_access sh (y_gl y) in
        let hits := match out with Some hit => <[h := hit]> (y_hits y) | None => y_hits y end in
        Some (mkSys cfg (<[i := sh]> (y_shards y)) g (y_calls y) hits)
      else None
  | AProbe key offset length count_access =>
      sh ← y_shards y !! shard_of key y;
      if decide (sh_mu sh = None) then
        Some (with_gl (λ g, (probe_section key offset count_access sh g).2) y)
      else None
  | ARelease h =>
      hit ← y_hits y !! h;
      '(shards, g) ← release_step hit y;
      Some (mkSys cfg shards g (y_calls y) (delete h (y_hits y)))
  | AStop i =>
      sh ← y_shards y !! i;
      if decide (sh_mu sh = None) then Some (put_shard i (set_stop (λ _, true) sh) (y_gl y) y) else None
  | ASetArenaMr mr => Some (with_gl (set_arena_mr (λ _, mr)) y)
  | AWaitForDrain expired =>
      if gl_dirty_objects (y_gl y) =? 0 then Some y
      else if expired then Some (with_gl (bump MShutdownDrainTimeouts 1) y) else None
  end.

End ops.
