(* ===== verification/RamGeom.v ===== *)
(** * RAM tier: construction

    How the constructor of [RamTier] (src/cache/ram_tier.cc) divides the byte
    budget into the registered arena and the reserve for dedicated values, the
    arena into extents and the extents among the shards. *)

From stdpp Require Import strings.
From S2P Require Import Prelude KvTypes SlabTypes SlabLattice SlabFrame SlabOps SlotPool RamTypes RamOps.

(** What the environment variables say: the value [strtoull] reads when
    DFKV_RAM_TIER_EXTENT_BYTES is set, the one of
    DFKV_RAM_TIER_LARGE_RESERVE_BYTES when it is a number, the one [strtol]
    reads from DFKV_RAM_TIER_SHARDS, the text of DFKV_RAM_TIER_NUMA and the
    number in DFKV_SLAB_COLD_STEAL_WINDOW, which the shards' allocators read;
    and whether [posix_memalign] has a block of a given size. *)
Record RamEnv := mkRamEnv {
  env_extent_bytes : option Z;
  env_large_reserve : option Z;
  env_shards : option Z;
  env_numa : option string;
  env_cold_steal : option Z;
  env_memalign : Z → bool;
}.

(** [numa_mode], and whether the constructor knows it. *)
Definition numa_mode (env : RamEnv) : string :=
  match env_numa env with
  | Some (String.String c nm) => String.String c nm
  | _ => "interleave"%string
  end.

Definition numa_known (env : RamEnv) : bool :=
  bool_decide (numa_mode env = "off"%string) || bool_decide (numa_mode env = "interleave"%string).

Definition kMaxShards : Z := 64.

Definition normalize_ram (opt : RamOptions) : RamOptions :=
  let gran := Z.max (op_slot_granularity opt) 4096 in
  mkRamOptions (Z.max (op_bytes opt) gran) (op_large_reserve_bytes opt) gran
    (op_flush_retries opt) (op_ack_high_watermark_pct opt) (op_is_persisted opt).

(** The extent size before it is fitted to the arena. *)
Definition wanted_extent (opt : RamOptions) (env : RamEnv) : Z :=
  let ext := match env_extent_bytes env with
             | Some value => if 2 ^ 20 <=? value then value else 32 * 2 ^ 20
             | None => 32 * 2 ^ 20
             end in
  Z.min ext (op_bytes opt).

Definition large_reserve (opt : RamOptions) (env : RamEnv) : Z :=
  let ext := wanted_extent opt env in
  let reserve := match env_large_reserve env with
                 | Some v => v | None => op_large_reserve_bytes opt end in
  let reserve :=
    if reserve =? UINT64_MAX then
      if bool_decide (env_extent_bytes env = None) && (ext =? op_bytes opt) then 0
      else if UINT64_MAX / 2 <? ext then UINT64_MAX else 2 * ext
    else reserve in
  Z.min reserve (op_bytes opt - op_slot_granularity opt).

Definition arena_bytes (opt : RamOptions) (env : RamEnv) : Z :=
  let gran := op_slot_granularity opt in
  Z.max ((op_bytes opt - large_reserve opt env) / gran * gran) gran.

Definition extent_bytes (opt : RamOptions) (env : RamEnv) : Z :=
  let gran := op_slot_granularity opt in
  let ext := Z.min (wanted_extent opt env) (arena_bytes opt env) in
  Z.max (ext / gran * gran) gran.

(** [while (nshards > 1 && total_extents / nshards < 32) nshards /= 2]; six
    halvings bring any count down to one. *)
Fixpoint halve_shards (fuel : nat) (total nshards : Z) : Z :=
  match fuel with
  | O => nshards
  | S fuel =>
      if (1 <? nshards) && (total / nshards <? 32) then halve_shards fuel total (nshards / 2)
      else nshards
  end.

Definition shard_count (total : Z) (env : RamEnv) : Z :=
  let nshards := match env_shards env with
                 | Some v => if (1 <=? v) && (v <=? kMaxShards) then v else 8
                 | None => 8
                 end in
  Z.max (halve_shards 6 total (Z.min nshards kMaxShards)) 1.

Definition total_extents (opt : RamOptions) (env : RamEnv) : Z :=
  Z.max 1 (arena_bytes opt env / extent_bytes opt env).

(** The extents of each shard, the remainder going to the first ones. *)
Definition shard_extents (total n : Z) : list Z :=
  (λ i, total / n + if Z.of_nat i <? total mod n then 1 else 0) <$> seq 0 (Z.to_nat n).

Definition ram_config (opt : RamOptions) (env : RamEnv) (flush flush_batch : bool) : Config :=
  mkConfig opt (arena_bytes opt env) (op_bytes opt - arena_bytes opt env) (extent_bytes opt env)
    flush flush_batch.

Definition zero_globals : Globals :=
  mkGlobals 0 0 0 0 true None (λ _, 0) (λ _, 0) ∅ ∅ ∅ 0 ∅ ∅ [] [].

Section construct.
Context {A : Type} `{SlotPoolOps A}.

Definition pool_options (cfg : Config) (extents : Z) : Options :=
  mkOptions (cf_extent_bytes cfg) (Z.to_nat extents) (op_slot_granularity (cf_opt cfg)) f64_0_25
    None None None.

Definition new_shard (cfg : Config) (env : RamEnv) (base extents : Z) : Shard A :=
  mkShard (base * cf_extent_bytes cfg) (sp_new (pool_options cfg extents) (env_cold_steal env)) None ∅ ∅ [] 0 false [].

(** The shards, each after the extents of those before it. *)
Fixpoint new_shards (cfg : Config) (env : RamEnv) (base : Z) (extents : list Z) : list (Shard A) :=
  match extents with
  | [] => []
  | n :: extents => new_shard cfg env base n :: new_shards cfg env (base + n) extents
  end.

(** The tier after construction; [None] when it is not ready: there is no memory
    for the arena, the NUMA mode is unknown, or a shard would have more extents
    than 32 bits count. *)
Definition new_tier (opt : RamOptions) (env : RamEnv) (flush flush_batch : bool) : option (Sys A) :=
  let opt := normalize_ram opt in
  let cfg := ram_config opt env flush flush_batch in
  if negb (env_memalign env (cf_arena_bytes cfg)) then None
  else if negb (numa_known env) then None
  else
    let total := total_extents opt env in
    let extents := shard_extents total (shard_count total env) in
    if forallb (λ n, n <=? UINT32_MAX) extents
    then Some (mkSys cfg (new_shards cfg env 0 extents) zero_globals ∅ ∅) else None.

End construct.
