(* ===== verification/RamInv.v ===== *)
(** * RAM tier: the invariant

    Who owns what.  Every slot of a pool, dedicated buffer, completion, index
    node, reserved key, mutex and flush in progress belongs to one published
    entry or to one call, and to nobody else; what an owner relies on is a
    condition on what it owns ([call_ok], [entry_ok]).  [owners_step] is the
    frame rule: a step that changes only what a few owners hold, and leaves them
    in order, keeps all the others in order. *)

From S2P Require Import Prelude KvTypes SlabTypes SlabOps SlotPool RamTypes RamOps.

#[global] Opaque KeyHash.

(** ** Access by key *)

Section access.
Context {A : Type} `{SlotPoolOps A}.
Notation Sys := (Sys A).
Implicit Types (y : Sys) (k : BlockKey).

Definition at_shard y k : option (Shard A) := y_shards y !! shard_of k y.
Definition index_at y k : option Entry := sh ← at_shard y k; sh_index sh !! k.
Definition writing_at y k : option nat := sh ← at_shard y k; sh_writing sh !! k.
Definition pool_slot y k : option Slot := sh ← at_shard y k; sp_slot (sh_alloc sh) k.
Definition queue_at y k : list QItem :=
  match at_shard y k with Some sh => filter (λ q, q_key q = k) (sh_flushq sh) | None => [] end.
Definition mu_at y (i : nat) : option nat := sh ← y_shards y !! i; sh_mu sh.

(** Where the bytes of a slot lie in the arena. *)
Definition slot_addr (cfg : Config) (base : Z) (ref : SlotRef) : Z :=
  base + Z.of_nat (r_extent ref) * cf_extent_bytes cfg + r_offset ref.

(** What no step changes: the configuration, and each shard's part of the arena. *)
Definition geo y : Config * list (Z * Options) :=
  (y_cfg y, (λ sh, (sh_base_off sh, sp_opt (sh_alloc sh))) <$> y_shards y).

End access.

Definition span (o : Options) : Z := Z.of_nat (o_num_extents o) * o_extent_bytes o.

Record geo_ok (gm : Config * list (Z * Options)) : Prop := {
  go_shards : gm.2 ≠ [];
  go_extent i b o : gm.2 !! i = Some (b, o) → o_extent_bytes o = cf_extent_bytes gm.1 ∧ 0 < o_extent_bytes o;
  go_inside i b o : gm.2 !! i = Some (b, o) → 0 <= b ∧ b + span o <= cf_arena_bytes gm.1;
  go_apart i j b o b' o' :
    (i < j)%nat → gm.2 !! i = Some (b, o) → gm.2 !! j = Some (b', o') → b + span o <= b';
  go_large : 0 <= cf_large_budget_bytes gm.1;
  go_gran : 0 < op_slot_granularity (cf_opt gm.1);
  go_bytes : 0 <= op_bytes (cf_opt gm.1) < 2 ^ 64;
}.

(** ** Resources and owners *)

Inductive Res :=
| ResSlot (k : BlockKey)      (* the slot of [k] and its bytes *)
| ResBuf (b : nat)
| ResCmp (c : nat)            (* the right to complete [c] *)
| ResNode (n : nat)
| ResWriting (k : BlockKey)
| ResQueue (k : BlockKey)     (* the flush queue's items for [k] *)
| ResLock (i : nat)           (* shard [i], locked *)
| ResFlush (k : BlockKey)     (* the flush of [k] in progress *)
| ResPin (k : BlockKey).      (* a reservation's pin on the entry of [k] *)

#[export] Instance Res_eq_dec : EqDecision Res.
Proof. solve_decision. Defined.

Inductive Owner := OCall (id : nat) | OEntry (k : BlockKey).

#[export] Instance Owner_eq_dec : EqDecision Owner.
Proof. solve_decision. Defined.

Definition is_put (r : Req) : bool := match rq_op r with OpPut _ => true | _ => false end.

(** The admissions that reserve their key before they own memory. *)
Definition registers (cfg : Config) (r : Req) : bool := is_put r || is_large cfg r.

Definition storage_res (key : BlockKey) (large : option nat) : Res :=
  match large with Some b => ResBuf b | None => ResSlot key end.

(** Case analysis on where a resource is in a list of them. *)
Ltac res_in H :=
  repeat match type of H with
  | _ ∈ [] => by apply elem_of_nil in H
  | _ ∈ (match ?b with _ => _ end) => destruct b eqn:?
  | _ ∈ _ :: _ => apply elem_of_cons in H as [H|H]; [try discriminate H|]
  | _ ∈ _ ++ _ => apply elem_of_app in H as [H|H]
  | _ = storage_res _ ?l => unfold storage_res in H; destruct l eqn:?; try discriminate H
  | ResSlot _ ∈ _ <$> _ => by apply list_elem_of_fmap in H as (? & ? & _)
  end.

(** Membership in explicit lists. *)
Ltac list_in :=
  repeat first [rewrite elem_of_app|rewrite elem_of_cons|rewrite elem_of_nil]; clear; tauto.

Section owners.
Context {A : Type} `{SlotPoolOps A}.
Notation Sys := (Sys A).
Implicit Types (y : Sys) (k : BlockKey).

Definition call_res y (call : Call) : list Res :=
  match call with
  | CLarge r c _ _ | CLargeBudget r c _ _ | CLargeUndo r c _ _ | CMalloc r c _ | CFail r c =>
      [ResCmp c; ResWriting (rq_key r)]
  | CReclaim r c _ _ pc =>
      ResCmp c :: (if registers (y_cfg y) r then [ResWriting (rq_key r)] else [])
      ++ (if pc is RIter i _ then [ResLock i] else [])
  | CArena r c _ => ResCmp c :: (if is_put r then [ResWriting (rq_key r)] else [])
  | CReserve r c _ _ _ =>
      ResCmp c :: ResSlot (rq_key r) :: ResLock (shard_of (rq_key r) y)
      :: (if is_put r then [ResWriting (rq_key r)] else [])
  | CFailed r c _ => [ResCmp c]
  | CCopy r l | CInstall r l | COpen r l =>
      [ResCmp (lc_completion l); ResWriting (rq_key r); storage_res (rq_key r) (lc_large l)]
  | CCanceled r l =>
      ResCmp (lc_completion l) :: (if lc_large l is Some b then [ResBuf b] else [])
  | CKept r l installed => if installed then [ResPin (rq_key r)] else [ResSlot (rq_key r)]
  | CAbort r l complete => if complete then [ResCmp (lc_completion l)] else []
  | CFlush _ batch _ _ => (λ q, ResFlush (q_key q)) <$> batch
  | _ => []
  end.

Definition entry_res k (e : Entry) : list Res :=
  [ResNode (en_node e); ResQueue k; storage_res k (en_large e)]
  ++ (if en_completion e is Some c then [ResCmp c] else []).

Definition owned y (o : Owner) : list Res :=
  match o with
  | OCall id => match y_calls y !! id with Some call => call_res y call | None => [] end
  | OEntry k => match index_at y k with Some e => entry_res k e | None => [] end
  end.

(** What others may see of an entry while they flush it. *)
Definition flush_view (e : Entry) : bool * Z * Z * Ptr * nat * option nat :=
  (en_flushing e, en_len e, en_cap e, entry_data e, en_node e, en_completion e).

(** What the holder of a mutex relies on. *)
Definition lock_view (sh : Shard A) : A * option nat * gmap BlockKey Entry * gmap BlockKey nat * list QItem :=
  (sh_alloc sh, sh_mu sh, sh_index sh, sh_writing sh, sh_flushq sh).

Definition cmp_view (p : PutCompletion) : bool * bool := (pc_done p, pc_success p).

(** [r] is the same in both states. *)
Definition same_res y y' (r : Res) : Prop :=
  match r with
  | ResSlot k =>
      pool_slot y' k = pool_slot y k ∧
      ∀ sh sl a, at_shard y k = Some sh → pool_slot y k = Some sl →
        slot_addr (y_cfg y) (sh_base_off sh) (sl_ref sl) <= a
          < slot_addr (y_cfg y) (sh_base_off sh) (sl_ref sl) + r_slot_size (sl_ref sl) →
        gl_mem (y_gl y') a = gl_mem (y_gl y) a
  | ResBuf b => gl_heap (y_gl y') !! b = gl_heap (y_gl y) !! b
  | ResCmp c =>
      cmp_view <$> (gl_compl (y_gl y') !! c) = cmp_view <$> (gl_compl (y_gl y) !! c) ∧
      ∀ n pb, gl_pub (y_gl y') !! n = Some pb → pb_completion pb = c → gl_pub (y_gl y) !! n = Some pb
  | ResNode n => gl_nodes (y_gl y') !! n = gl_nodes (y_gl y) !! n
  | ResWriting k => writing_at y' k = writing_at y k
  | ResQueue k => queue_at y' k = queue_at y k
  | ResLock i => lock_view <$> y_shards y' !! i = lock_view <$> y_shards y !! i
  | ResFlush k => flush_view <$> index_at y' k = flush_view <$> index_at y k
  | ResPin k => in_arena <$> index_at y' k = in_arena <$> index_at y k
  end.

(** [r] is there to be owned. *)
Definition present y (r : Res) : Prop :=
  match r with
  | ResSlot k => is_Some (pool_slot y k)
  | ResBuf b => is_Some (gl_heap (y_gl y) !! b)
  | ResCmp c => is_Some (gl_compl (y_gl y) !! c)
  | ResNode n => is_Some (gl_nodes (y_gl y) !! n)
  | ResWriting k => is_Some (writing_at y k)
  | ResQueue k => is_Some (index_at y k)
  | ResLock i => is_Some (mu_at y i)
  | ResFlush k => ∃ e, index_at y k = Some e ∧ en_flushing e = true
  | ResPin k => is_Some (index_at y k)
  end.

(** The resources that must not be orphaned. *)
Definition tracked (r : Res) : bool :=
  match r with ResSlot _ | ResBuf _ | ResWriting _ | ResLock _ | ResFlush _ => true | _ => false end.

(** What only grows: histories, identifiers and the outcomes of completions. *)
Record grows (g g' : Globals) : Prop := {
  gr_pub n pb : gl_pub g !! n = Some pb → gl_pub g' !! n = Some pb;
  gr_key c k : gl_compl_key g !! c = Some k → gl_compl_key g' !! c = Some k;
  gr_sunk x : x ∈ gl_sunk g → x ∈ gl_sunk g';
  gr_fenced c : c ∈ gl_fenced g → c ∈ gl_fenced g';
  gr_compl c p : gl_compl g !! c = Some p →
    ∃ p', gl_compl g' !! c = Some p' ∧ (pc_done p = true → cmp_view p' = cmp_view p);
}.

End owners.

#[export] Instance grows_preorder : PreOrder grows.
Proof.
  split.
  - intros g. split; try done. eauto.
  - intros g1 g2 g3 [] []. split; eauto. intros c p Hp.
    destruct (gr_compl0 c p Hp) as (p1 & H1 & E1). destruct (gr_compl1 c p1 H1) as (p2 & H2 & E2).
    exists p2. split; [done|]. intros Hd. specialize (E1 Hd). rewrite E2; [done|].
    by injection E1 as -> _.
Qed.

(** ** What owners rely on *)

(** The disk has the published value: it was read from there, or the sink took it
    (unless no sink is wired). *)
Definition evidence (cfg : Config) (g : Globals) (pb : Publication) : Prop :=
  pb_durable pb = true ∨ mkSinkCall (pb_key pb) (pb_bytes pb) true ∈ gl_sunk g ∨
  (cf_flush cfg = false ∧ cf_flush_batch cfg = false).

(** The arguments of an admission past its entry checks. *)
Definition live_req (cfg : Config) (r : Req) : Prop :=
  req_ok r = true ∧ 0 < rq_len r ∧
  match rq_op r with OpReserve => is_large cfg r = false | _ => rq_data r ≠ None end.

(** A completion its owner has not completed, and under which nothing is
    published. *)
Record pending_cmp (g : Globals) (c : nat) (k : BlockKey) : Prop := {
  pd_compl : cmp_view <$> gl_compl g !! c = Some (false, false);
  pd_key : gl_compl_key g !! c = Some k;
  pd_pub n pb : gl_pub g !! n = Some pb → pb_completion pb ≠ c;
}.

Record admitted (cfg : Config) (g : Globals) (r : Req) (c : nat) : Prop := {
  ad_req : live_req cfg r;
  ad_cmp : pending_cmp g c (rq_key r);
}.

Section ok.
Context {A : Type} `{SlotPoolLaws A}.
Notation Sys := (Sys A).
Implicit Types (y : Sys) (k : BlockKey).

Definition slot_cell y k (off cap : Z) (h : option nat) (pins : Z) (pending : bool) : Prop :=
  ∃ sh ref hd, at_shard y k = Some sh ∧ pool_slot y k = Some (mkSlot ref hd pins pending) ∧
    h = Some hd ∧ off = slot_addr (y_cfg y) (sh_base_off sh) ref ∧ cap = r_slot_size ref.

Definition buf_cell y (b : nat) (cap : Z) : Prop :=
  ∃ buf, gl_heap (y_gl y) !! b = Some buf ∧ Z.of_nat (length buf) = cap.

Definition loc_cell y (r : Req) (l : Loc) : Prop :=
  rq_len r <= lc_cap l ∧
  match lc_large l with
  | Some b => is_large (y_cfg y) r = true ∧ buf_cell y b (lc_cap l)
  | None => is_large (y_cfg y) r = false ∧
      slot_cell y (rq_key r) (lc_offset l) (lc_cap l) (lc_handle l) 1 false
  end.

Definition large_ok (cfg : Config) (r : Req) (cap : Z) : Prop :=
  is_large cfg r = true ∧ rq_len r <= cap.

(** The returned calls: what an acknowledgement means. *)
Definition ack_ok (cfg : Config) (g : Globals) (r : Req) (adm : Admission) (c : option nat) (sync : bool) : Prop :=
  match adm with
  | kAccepted => ∃ n pb, gl_pub g !! n = Some pb ∧ pb_key pb = rq_key r ∧ c = Some (pb_completion pb) ∧
      pb_durable pb = false ∧ rq_data r = Some (pb_bytes pb) ∧ (sync = true → evidence cfg g pb)
  | kDuplicate => ∃ n pb, gl_pub g !! n = Some pb ∧ pb_key pb = rq_key r ∧
      c = Some (pb_completion pb) ∧ evidence cfg g pb
  | kPersisted => c = None ∧ mkPersistedCall (rq_key r) true ∈ gl_sunk g
  | _ => False
  end.

Definition ret_ok cfg (g : Globals) (r : Req) (adm : option Admission) (c : option nat) (res : Result) : Prop :=
  match rq_op r, adm, res with
  | OpPut kind, Some adm, RPut kOk _ =>
      ack_ok cfg g r adm c (match kind with KCommitted => true | _ => synchronous cfg end)
  | OpPut KPut, Some kAccepted, RBool b =>
      ∃ n pb, gl_pub g !! n = Some pb ∧ pb_key pb = rq_key r ∧ c = Some (pb_completion pb) ∧
        rq_data r = Some (pb_bytes pb) ∧ b = true
  | _, _, _ => True
  end.

Definition wait_ok (g : Globals) (r : Req) (adm : Admission) (c : option nat) : Prop :=
  ∃ c', c = Some c' ∧ gl_compl_key g !! c' = Some (rq_key r) ∧ is_Some (gl_compl g !! c') ∧
    match adm with
    | kAccepted => ∃ n pb, gl_pub g !! n = Some pb ∧ pb_key pb = rq_key r ∧ pb_completion pb = c' ∧
        pb_durable pb = false ∧ rq_data r = Some (pb_bytes pb)
    | kDuplicate => True
    | _ => False
    end.

(** An item of a flush batch, and the answer the sink gave for it. *)
Definition flush_item_ok y (i : nat) (q : QItem) (it : FlushItem) (ok : option bool) : Prop :=
  shard_of (q_key q) y = i ∧
  ∃ e, index_at y (q_key q) = Some e ∧ en_flushing e = true ∧
    it = mkFlushItem (q_key q) (entry_data e) (en_len e) (en_cap e) ∧
    (ok = Some true → ∃ pb, gl_pub (y_gl y) !! en_node e = Some pb ∧ evidence (y_cfg y) (y_gl y) pb).

Definition call_ok y (id : nat) (call : Call) : Prop :=
  let cfg := y_cfg y in
  let g := y_gl y in
  let admitted := admitted cfg g in
  let reserved r c := writing_at y (rq_key r) = Some c in
  match call with
  | CStart r => req_ok r = true
  | CLarge r c cap _ | CLargeBudget r c cap _ | CLargeUndo r c cap _ | CMalloc r c cap =>
      admitted r c ∧ reserved r c ∧ large_ok cfg r cap
  | CReclaim r c cap _ pc =>
      admitted r c ∧ (registers cfg r = true → reserved r c) ∧ (is_large cfg r = true → rq_len r <= cap) ∧
      match pc with RIter i _ => mu_at y i = Some id | RCheck _ => True end
  | CArena r c _ => admitted r c ∧ is_large cfg r = false ∧ (is_put r = true → reserved r c)
  | CReserve r c _ ref h =>
      admitted r c ∧ is_large cfg r = false ∧ (is_put r = true → reserved r c) ∧
      (is_put r = false → writing_at y (rq_key r) = None) ∧ index_at y (rq_key r) = None ∧
      mu_at y (shard_of (rq_key r) y) = Some id ∧
      pool_slot y (rq_key r) = Some (mkSlot ref h 0 false) ∧ rq_len r <= r_slot_size ref
  | CFail r c => admitted r c ∧ registers cfg r = true ∧ reserved r c
  | CFailed r c _ => admitted r c ∧ is_put r = true
  | CCopy r l => admitted r (lc_completion l) ∧ reserved r (lc_completion l) ∧ loc_cell y r l ∧
      rq_op r ≠ OpReserve
  | CInstall r l => admitted r (lc_completion l) ∧ reserved r (lc_completion l) ∧ loc_cell y r l ∧
      rq_op r ≠ OpReserve ∧ load cfg (loc_ptr l) (Z.to_nat (rq_len r)) g = rq_data r
  | CCanceled r l => admitted r (lc_completion l) ∧ rq_op r ≠ OpReserve ∧ rq_len r <= lc_cap l ∧
      match lc_large l with Some b => buf_cell y b (lc_cap l) | None => True end
  | CWait r adm c => is_put r = true ∧ wait_ok g r adm c
  | CRet r adm c res => ret_ok cfg g r adm c res
  | COpen r l => admitted r (lc_completion l) ∧ reserved r (lc_completion l) ∧ loc_cell y r l ∧
      rq_op r = OpReserve
  | CKept r l installed => live_req cfg r ∧ rq_len r <= lc_cap l ∧
      if installed then in_arena <$> index_at y (rq_key r) = Some true
      else slot_cell y (rq_key r) (lc_offset l) (lc_cap l) (lc_handle l) 1 true
  | CAbort r l complete => live_req cfg r ∧ rq_len r <= lc_cap l ∧ (complete = true → pending_cmp g (lc_completion l) (rq_key r))
  | CRemoveWait k c => ∃ c', c = Some c' ∧ c' ∈ gl_fenced g ∧ gl_compl_key g !! c' = Some k ∧ is_Some (gl_compl g !! c')
  | CRemoveEnd k c => ∃ c', c = Some c' ∧ c' ∈ gl_fenced g ∧ gl_compl_key g !! c' = Some k ∧
      (∃ p, gl_compl g !! c' = Some p ∧ pc_done p = true)
  | CRemoveRet k c had => had = true → ∃ c', c = Some c' ∧ c' ∈ gl_fenced g ∧ gl_compl_key g !! c' = Some k ∧
      (∃ p, gl_compl g !! c' = Some p ∧ pc_done p = true)
  | CIdle i | CTickStart i | CTickGrow i _ _ _ | CTickGate i _ | CTickReclaim i _ _ _ =>
      (i < length (y_shards y))%nat
  | CFlush i batch items ok =>
      (i < length (y_shards y))%nat ∧ length items = length batch ∧ (length ok <= length batch)%nat ∧
      NoDup (q_key <$> batch) ∧
      ∀ j q it, batch !! j = Some q → items !! j = Some it → flush_item_ok y i q it (ok !! j)
  | CRemove _ | CStopped _ | CTickDone _ => True
  end.

(** How the flags of an entry go together. *)
Record flags_ok (e : Entry) : Prop := {
  fo_durable : en_durable e = true → en_flush_pin e = false;
  fo_flushing : en_flushing e = true → en_flush_pin e = true;
  fo_failed : en_durable e = false → en_flush_pin e = false → en_remove_pending e = true;
  fo_removing : en_remove_pending e = true → 0 < en_send_pins e ∨ en_flushing e = true;
  fo_queued : en_flush_pin e = true → en_flushing e = false → en_remove_pending e = false;
}.

Definition queued (e : Entry) : bool := en_flush_pin e && negb (en_flushing e).

Record entry_ok y k (e : Entry) : Prop := {
  eo_key : en_key e = k;
  eo_pins : 0 <= en_send_pins e;
  eo_flags : flags_ok e;
  eo_len : 0 < en_len e <= en_cap e;
  eo_cmp : ∃ c bytes dur, en_completion e = Some c ∧ gl_compl_key (y_gl y) !! c = Some k ∧
    cmp_view <$> gl_compl (y_gl y) !! c = Some (negb (en_flush_pin e), en_durable e) ∧
    gl_pub (y_gl y) !! en_node e = Some (mkPublication k bytes c dur) ∧
    Z.of_nat (length bytes) = en_len e ∧
    load (y_cfg y) (entry_data e) (Z.to_nat (en_len e)) (y_gl y) = Some bytes;
  eo_node : gl_nodes (y_gl y) !! en_node e = Some k;
  eo_cell : match en_large e with
    | Some b => buf_cell y b (en_cap e)
    | None => slot_cell y k (en_offset e) (en_cap e) (en_slot_handle e)
                (en_send_pins e + Z.b2z (en_flush_pin e)) false
    end;
  eo_queue : length (queue_at y k) = if queued e then 1%nat else 0%nat;
}.

Definition owner_ok y (o : Owner) : Prop :=
  match o with
  | OCall id => ∀ call, y_calls y !! id = Some call → call_ok y id call
  | OEntry k => ∀ e, index_at y k = Some e → entry_ok y k e
  end.

(** ** The invariant of ownership *)

Record Owners y : Prop := {
  ow_ok o : owner_ok y o;
  ow_unique o o' r : r ∈ owned y o → r ∈ owned y o' → o = o';
  ow_cover r : tracked r = true → present y r → ∃ o, r ∈ owned y o;
}.

(** ** The maps of the shards *)

Record Maps y : Prop := {
  mp_pool i sh : y_shards y !! i = Some sh → sp_wf (sh_alloc sh);
  mp_home i sh k : y_shards y !! i = Some sh →
    is_Some (sh_index sh !! k) ∨ is_Some (sh_writing sh !! k) ∨ is_Some (sp_slot (sh_alloc sh) k) →
    shard_of k y = i;
  mp_excl k : is_Some (writing_at y k) → index_at y k = None;
  mp_queue i sh q : y_shards y !! i = Some sh → q ∈ sh_flushq sh → is_Some (sh_index sh !! q_key q);
}.

(** ** Histories and fences *)

(** A completion a [Remove] has fenced: whoever still holds it finds it canceled,
    and the entry published under it is hidden. *)
Record Hist y : Prop := {
  hs_success c p : gl_compl (y_gl y) !! c = Some p → pc_success p = true →
    ∃ n pb, gl_pub (y_gl y) !! n = Some pb ∧ pb_completion pb = c ∧ evidence (y_cfg y) (y_gl y) pb;
  hs_inj n n' pb pb' : gl_pub (y_gl y) !! n = Some pb → gl_pub (y_gl y) !! n' = Some pb' →
    pb_completion pb = pb_completion pb' → n = n';
  hs_key n pb : gl_pub (y_gl y) !! n = Some pb → gl_compl_key (y_gl y) !! pb_completion pb = Some (pb_key pb);
  hs_fenced c : c ∈ gl_fenced (y_gl y) → is_Some (gl_compl (y_gl y) !! c);
  hs_fence_call c id : c ∈ gl_fenced (y_gl y) → ResCmp c ∈ owned y (OCall id) → canceled c (y_gl y) = true;
  hs_fence_entry c k e : c ∈ gl_fenced (y_gl y) → index_at y k = Some e → en_completion e = Some c →
    en_remove_pending e = true;
}.

(** ** Pins *)

Definition hit_w (n : nat) (_ : nat) (h : Hit) : Z := if decide (ht_token h = n) then 1 else 0.

Definition kept_w k (_ : nat) (call : Call) : Z :=
  match call with CKept r _ true => if decide (rq_key r = k) then 1 else 0 | _ => 0 end.

Definition hit_ok (e : Entry) (h : Hit) : Prop :=
  ht_token h = en_node e ∧ ht_value_len h = en_len e ∧ ht_in_arena h = in_arena e ∧
  ∃ off, ht_ptr h = ptr_add (entry_data e) off ∧ 0 <= off ∧ 0 <= ht_len h ∧ off + ht_len h <= en_len e.

Record Pins y : Prop := {
  pn_count k e : index_at y k = Some e →
    en_send_pins e = msum (hit_w (en_node e)) (y_hits y) + msum (kept_w k) (y_calls y);
  pn_hit h hit : y_hits y !! h = Some hit → ∃ k e, index_at y k = Some e ∧ hit_ok e hit;
}.

(** ** Accounts *)

Definition cap_w (_ : BlockKey) (e : Entry) : Z := en_cap e.
Definition large_w (_ : BlockKey) (e : Entry) : Z := if in_arena e then 0 else en_cap e.
Definition dirty_w (_ : BlockKey) (e : Entry) : Z := if en_durable e then 0 else en_cap e.
Definition object_w (_ : BlockKey) (e : Entry) : Z := if en_durable e then 0 else 1.

(** The bytes a call has reserved and not handed to an entry. *)
Definition budget_w (_ : nat) (call : Call) : Z :=
  match call with
  | CMalloc _ _ cap => cap
  | CCopy _ l | CInstall _ l | CCanceled _ l | COpen _ l | CKept _ l false | CAbort _ l _ => lc_cap l
  | _ => 0
  end.

Definition reserve_w (_ : nat) (call : Call) : Z :=
  match call with
  | CLargeBudget _ _ cap _ | CLargeUndo _ _ cap _ | CMalloc _ _ cap => cap
  | CCopy _ l | CInstall _ l | CCanceled _ l => if loc_large l then lc_cap l else 0
  | _ => 0
  end.

Definition esum (f : BlockKey → Entry → Z) y : Z := sumZ (λ sh, msum f (sh_index sh)) (y_shards y).

Record Sums y : Prop := {
  sm_budget : gl_budget_used (y_gl y) = esum cap_w y + msum budget_w (y_calls y);
  sm_large : gl_large_used (y_gl y) = esum large_w y + msum reserve_w (y_calls y);
  sm_dirty : gl_dirty_bytes (y_gl y) = esum dirty_w y;
  sm_objects : gl_dirty_objects (y_gl y) = esum object_w y;
  sm_budget_bound : gl_budget_used (y_gl y) <= op_bytes (cf_opt (y_cfg y));
  sm_large_bound : gl_large_used (y_gl y) <= cf_large_budget_bytes (y_cfg y);
}.

End ok.

(** Identifiers are handed out in order. *)
Record Ids (g : Globals) : Prop := {
  id_compl n : (gl_next g <= n)%nat → gl_compl g !! n = None;
  id_key n : (gl_next g <= n)%nat → gl_compl_key g !! n = None;
  id_node n : (gl_next g <= n)%nat → gl_nodes g !! n = None;
  id_heap n : (gl_next g <= n)%nat → gl_heap g !! n = None;
  id_pub n : (gl_next g <= n)%nat → gl_pub g !! n = None;
}.

Record Inv {A : Type} `{SlotPoolLaws A} (y : Sys A) : Prop := {
  iv_geo : geo_ok (geo y);
  iv_own : Owners y;
  iv_maps : Maps y;
  iv_ids : Ids (y_gl y);
  iv_hist : Hist y;
  iv_pins : Pins y;
  iv_sums : Sums y;
}.
