(* ===== verification/RamFrame.v ===== *)
(** * RAM tier: the frame rule

    [call_ok] and [entry_ok] depend only on what their owner owns, so a step
    keeps every owner whose resources it does not touch. *)

From S2P Require Import Prelude KvTypes SlabTypes SlabOps SlotPool RamTypes RamOps RamInv.

(** ** Memory *)

Lemma read_bytes_ext mem mem' off n :
  (∀ a, off <= a < off + Z.of_nat n → mem' a = mem a) → read_bytes mem' off n = read_bytes mem off n.
Proof.
  intros Hm. unfold read_bytes. apply list_fmap_ext. intros i j [-> Hj]%lookup_seq. apply Hm. lia.
Qed.

Lemma length_read_bytes mem off n : length (read_bytes mem off n) = n.
Proof. unfold read_bytes. by rewrite length_fmap, length_seq. Qed.

Lemma write_bytes_out mem off bs a :
  a < off ∨ off + Z.of_nat (length bs) <= a → write_bytes mem off bs a = mem a.
Proof. intros Ha. unfold write_bytes. destruct (Z.leb_spec off a), (Z.ltb_spec a (off + Z.of_nat (length bs))); cbn; try done; lia. Qed.

Lemma read_write_bytes mem off bs :
  read_bytes (write_bytes mem off bs) off (length bs) = bs.
Proof.
  apply list_eq. intros i. unfold read_bytes. rewrite list_lookup_fmap.
  destruct (decide (i < length bs)%nat) as [Hi|Hi].
  - rewrite lookup_seq_lt by done. cbn. unfold write_bytes.
    destruct (Z.leb_spec off (off + Z.of_nat i)), (Z.ltb_spec (off + Z.of_nat i) (off + Z.of_nat (length bs))); try lia.
    cbn [andb]. replace (off + Z.of_nat i - off) with (Z.of_nat i) by lia. rewrite Nat2Z.id.
    destruct (lookup_lt_is_Some_2 bs i Hi) as [x Hx]. by rewrite (list_lookup_total_correct _ _ _ Hx).
  - rewrite lookup_seq_ge, lookup_ge_None_2 by lia. done.
Qed.

Section frame.
Context {A : Type} `{SlotPoolOps A}.
Notation Sys := (Sys A).
Implicit Types (y : Sys) (k : BlockKey).

(** ** Geometry *)

Lemma geo_cfg y y' : geo y' = geo y → y_cfg y' = y_cfg y.
Proof. intros E. by injection E. Qed.

Lemma geo_shards y y' : geo y' = geo y → length (y_shards y') = length (y_shards y).
Proof. intros E. injection E as _ E. apply (f_equal length) in E. by rewrite !length_fmap in E. Qed.

Lemma geo_shard_of y y' k : geo y' = geo y → shard_of k y' = shard_of k y.
Proof. intros E. unfold shard_of. by rewrite (geo_shards _ _ E). Qed.

Lemma geo_lookup y y' i sh :
  geo y' = geo y → y_shards y !! i = Some sh →
  ∃ sh', y_shards y' !! i = Some sh' ∧ sh_base_off sh' = sh_base_off sh ∧
    sp_opt (sh_alloc sh') = sp_opt (sh_alloc sh).
Proof.
  intros E Hi. injection E as _ E. apply (f_equal (.!! i)) in E. rewrite !list_lookup_fmap, Hi in E.
  destruct (y_shards y' !! i) as [sh'|]; [|done]. injection E as E1 E2. eauto.
Qed.

Lemma geo_at_shard y y' k sh :
  geo y' = geo y → at_shard y k = Some sh →
  ∃ sh', at_shard y' k = Some sh' ∧ sh_base_off sh' = sh_base_off sh.
Proof.
  unfold at_shard. intros E Hk. rewrite (geo_shard_of _ _ _ E).
  destruct (geo_lookup _ _ _ _ E Hk) as (sh' & ? & ? & _). eauto.
Qed.

(** ** Cells *)

Lemma slot_cell_frame y y' k off cap h pins pending :
  geo y' = geo y → same_res y y' (ResSlot k) →
  slot_cell y k off cap h pins pending → slot_cell y' k off cap h pins pending.
Proof.
  intros Hg [Hs _] (sh & ref & hd & Hk & Hsl & -> & -> & ->).
  destruct (geo_at_shard _ _ _ _ Hg Hk) as (sh' & Hk' & Hb). exists sh', ref, hd.
  rewrite Hs, Hb, (geo_cfg _ _ Hg). done.
Qed.

Lemma load_slot_frame y y' k off cap h pins pending n :
  geo y' = geo y → same_res y y' (ResSlot k) → slot_cell y k off cap h pins pending →
  Z.of_nat n <= cap →
  load (y_cfg y') (PArena off) n (y_gl y') = load (y_cfg y) (PArena off) n (y_gl y).
Proof.
  intros Hg [_ Hm] (sh & ref & hd & Hk & Hsl & -> & -> & ->) Hn. unfold load. rewrite (geo_cfg _ _ Hg).
  case_match; [|done]. f_equal. apply read_bytes_ext. intros a Ha. apply (Hm sh _ _ Hk Hsl). cbn. lia.
Qed.

Lemma buf_cell_frame y y' b cap : same_res y y' (ResBuf b) → buf_cell y b cap → buf_cell y' b cap.
Proof. intros Hs (buf & Hb & Hl). exists buf. by rewrite Hs. Qed.

Lemma load_buf_frame y y' b off n :
  geo y' = geo y → same_res y y' (ResBuf b) →
  load (y_cfg y') (PHeap b off) n (y_gl y') = load (y_cfg y) (PHeap b off) n (y_gl y).
Proof. intros Hg Hs. unfold load. by rewrite Hs. Qed.

Lemma loc_cell_frame y y' r l :
  geo y' = geo y → same_res y y' (storage_res (rq_key r) (lc_large l)) → loc_cell y r l → loc_cell y' r l.
Proof.
  intros Hg Hs [Hl Hc]. split; [done|]. rewrite (geo_cfg _ _ Hg). destruct (lc_large l); destruct Hc as [? Hc]; split; try done.
  - by eapply buf_cell_frame.
  - by eapply slot_cell_frame.
Qed.

Lemma load_loc_frame y y' r l :
  geo y' = geo y → same_res y y' (storage_res (rq_key r) (lc_large l)) → loc_cell y r l → 0 <= rq_len r →
  load (y_cfg y') (loc_ptr l) (Z.to_nat (rq_len r)) (y_gl y') =
  load (y_cfg y) (loc_ptr l) (Z.to_nat (rq_len r)) (y_gl y).
Proof.
  intros Hg Hs [Hl Hc] Hn. unfold loc_ptr. destruct (lc_large l); destruct Hc as [_ Hc].
  - by apply load_buf_frame.
  - eapply load_slot_frame; [done|done|done|lia].
Qed.

Lemma pending_frame y y' c k :
  grows (y_gl y) (y_gl y') → same_res y y' (ResCmp c) →
  pending_cmp (y_gl y) c k → pending_cmp (y_gl y') c k.
Proof.
  intros Hg [Hc Hp] [H1 H2 H3]. split; [by rewrite Hc|by apply Hg|].
  intros n pb Hn E. by eapply H3; [apply (Hp n)|].
Qed.

Lemma evidence_grows cfg g g' pb : grows g g' → evidence cfg g pb → evidence cfg g' pb.
Proof. intros Hg [?|[?|?]]; [by left|right; left; by apply Hg|by right; right]. Qed.

Lemma ack_grows cfg g g' r adm c sync : grows g g' → ack_ok cfg g r adm c sync → ack_ok cfg g' r adm c sync.
Proof.
  intros Hg. unfold ack_ok. destruct adm; try done; [intros (n & pb & Hn & H1 & H2 & H3)..|].
  - exists n, pb. destruct H3 as (H3 & H4 & H5). split_and!; try done; [by apply Hg|].
    intros Hs. eapply evidence_grows; eauto.
  - exists n, pb. split_and!; try done; [by apply Hg|by eapply evidence_grows].
  - intros [? ?]. split; [done|by apply Hg].
Qed.

Lemma ret_grows cfg g g' r adm c res : grows g g' → ret_ok cfg g r adm c res → ret_ok cfg g' r adm c res.
Proof.
  intros Hg. unfold ret_ok.
  destruct (rq_op r) as [[]| |], adm as [adm|], res as [|[] ?]; try done; try (intros Ha; by eapply ack_grows);
    destruct adm; try done; try (intros Ha; by eapply ack_grows).
  intros (n & pb & Hn & ?). exists n, pb. split; [by apply Hg|done].
Qed.

Lemma wait_grows g g' r adm c : grows g g' → wait_ok g r adm c → wait_ok g' r adm c.
Proof.
  intros Hg (c' & -> & Hk & [p Hp] & Ha). exists c'. destruct (gr_compl _ _ Hg _ _ Hp) as (p' & Hp' & _).
  split_and!; [done|by apply Hg|by exists p'|]. destruct adm; try done.
  destruct Ha as (n & pb & Hn & ?). exists n, pb. split; [by apply Hg|done].
Qed.

Lemma done_grows g g' c :
  grows g g' → (∃ p, gl_compl g !! c = Some p ∧ pc_done p = true) →
  ∃ p, gl_compl g' !! c = Some p ∧ pc_done p = true.
Proof.
  intros Hg (p & Hp & Hd). destruct (gr_compl _ _ Hg _ _ Hp) as (p' & Hp' & E). exists p'. split; [done|].
  specialize (E Hd). by injection E as -> _.
Qed.

Lemma compl_grows g g' c : grows g g' → is_Some (gl_compl g !! c) → is_Some (gl_compl g' !! c).
Proof. intros Hg [p Hp]. destruct (gr_compl _ _ Hg _ _ Hp) as (p' & Hp' & _). by exists p'. Qed.

Lemma flush_item_frame y y' i q it ok :
  geo y' = geo y → grows (y_gl y) (y_gl y') → same_res y y' (ResFlush (q_key q)) →
  flush_item_ok y i q it ok → flush_item_ok y' i q it ok.
Proof.
  intros Hg Hm Hs [Hi (e & He & Hf & -> & Hok)]. split; [by rewrite (geo_shard_of _ _ _ Hg)|].
  cbn in Hs. rewrite He in Hs. destruct (index_at y' (q_key q)) as [e'|]; [|done].
  injection Hs as E1 E2 E3 E4 E5 E6. exists e'. split_and!; [done|congruence|congruence|].
  intros Ht. destruct (Hok Ht) as (pb & Hpb & Hev). exists pb. rewrite E5, (geo_cfg _ _ Hg).
  split; [by apply Hm|by eapply evidence_grows].
Qed.

(** ** Calls and entries *)

Lemma call_res_frame y y' call : geo y' = geo y → call_res y' call = call_res y call.
Proof.
  intros Hg. destruct call; cbn; try done.
  - by rewrite (geo_cfg _ _ Hg).
  - by rewrite (geo_shard_of _ _ _ Hg).
Qed.

Lemma mu_frame y y' i : same_res y y' (ResLock i) → mu_at y' i = mu_at y i.
Proof.
  cbn. intros E. unfold mu_at. destruct (y_shards y' !! i), (y_shards y !! i); try done. cbn in *. by injection E as _ -> _ _ _.
Qed.

Lemma lock_frame y y' k :
  geo y' = geo y → same_res y y' (ResLock (shard_of k y)) →
  writing_at y' k = writing_at y k ∧ index_at y' k = index_at y k.
Proof.
  cbn. intros Hg E. unfold writing_at, index_at, at_shard. rewrite (geo_shard_of _ _ _ Hg).
  destruct (y_shards y' !! _), (y_shards y !! _); try done. cbn in *. injection E as _ _ -> -> _. done.
Qed.

(** What frames an admission that holds [c] for [r]. *)
Lemma admitted_frame y y' r c :
  grows (y_gl y) (y_gl y') → same_res y y' (ResCmp c) →
  admitted (y_cfg y) (y_gl y) r c → admitted (y_cfg y) (y_gl y') r c.
Proof. intros Hm Hs [? ?]. split; [done|by eapply pending_frame]. Qed.

Lemma reserve_frame y y' id r c ref h :
  geo y' = geo y → same_res y y' (ResSlot (rq_key r)) → same_res y y' (ResLock (shard_of (rq_key r) y)) →
  (is_put r = true → writing_at y (rq_key r) = Some c) →
  (is_put r = false → writing_at y (rq_key r) = None) → index_at y (rq_key r) = None →
  mu_at y (shard_of (rq_key r) y) = Some id → pool_slot y (rq_key r) = Some (mkSlot ref h 0 false) →
  (is_put r = true → writing_at y' (rq_key r) = Some c) ∧
  (is_put r = false → writing_at y' (rq_key r) = None) ∧ index_at y' (rq_key r) = None ∧
  mu_at y' (shard_of (rq_key r) y') = Some id ∧ pool_slot y' (rq_key r) = Some (mkSlot ref h 0 false).
Proof.
  intros Hg Hs Hk H1 H2 H3 H4 H5. destruct (lock_frame _ _ _ Hg Hk) as [-> ->]. split_and!; [done|done|done|rewrite (geo_shard_of _ _ _ Hg), (mu_frame _ _ _ Hk); done|].
  destruct Hs as [-> _]. done.
Qed.

Lemma flush_frame y y' i (batch : list QItem) (items : list FlushItem) (ok : list bool) :
  geo y' = geo y → grows (y_gl y) (y_gl y') →
  (∀ r, r ∈ (λ q, ResFlush (q_key q)) <$> batch → same_res y y' r) →
  (∀ j q it, batch !! j = Some q → items !! j = Some it → flush_item_ok y i q it (ok !! j)) →
  ∀ j q it, batch !! j = Some q → items !! j = Some it → flush_item_ok y' i q it (ok !! j).
Proof.
  intros Hg Hm Hs Hb j q it Hq Hit. eapply flush_item_frame; [done|done| |by eapply Hb].
  apply Hs, list_elem_of_fmap. exists q. split; [done|by eapply list_elem_of_lookup_2].
Qed.

Lemma call_ok_frame y y' id call :
  geo y' = geo y → grows (y_gl y) (y_gl y') → (∀ r, r ∈ call_res y call → same_res y y' r) →
  call_ok y id call → call_ok y' id call.
Proof.
  intros Hg Hm Hs. pose proof (geo_cfg _ _ Hg) as Hc. pose proof (geo_shards _ _ Hg) as Hl.
  assert (Hw : ∀ k c, ResWriting k ∈ call_res y call → writing_at y k = Some c → writing_at y' k = Some c)
    by (intros k c Hk <-; exact (Hs _ Hk)).
  assert (Ha : ∀ r c, ResCmp c ∈ call_res y call → admitted (y_cfg y) (y_gl y) r c →
    admitted (y_cfg y) (y_gl y') r c) by (intros r c Hk; apply admitted_frame; auto).
  assert (Hlc : ∀ r l, storage_res (rq_key r) (lc_large l) ∈ call_res y call → loc_cell y r l → loc_cell y' r l)
    by (intros r l Hk; apply loc_cell_frame; auto).
  destruct call; cbn [call_ok]; rewrite ?Hc, ?Hl; try done.
  - intros (? & ? & ?). split_and!; [apply Ha; [set_solver|done]|apply Hw; [set_solver|done]|done].
  - intros (? & ? & ?). split_and!; [apply Ha; [set_solver|done]|apply Hw; [set_solver|done]|done].
  - intros (? & ? & ?). split_and!; [apply Ha; [set_solver|done]|apply Hw; [set_solver|done]|done].
  - intros (? & Hr & ? & Hpc). split_and!; [apply Ha; [set_solver|done]| |done|].
    + intros Hre. apply Hw; [cbn; rewrite Hre; set_solver|auto].
    + destruct pc; [done|]. rewrite (mu_frame y); [done|]. apply Hs. set_solver.
  - intros (? & ? & ?). split_and!; [apply Ha; [set_solver|done]|apply Hw; [set_solver|done]|done].
  - intros (? & ? & Hr). split_and!; [apply Ha; [set_solver|done]|done|].
    intros Hre. apply Hw; [cbn; rewrite Hre; set_solver|auto].
  - intros (? & ? & H1 & H2 & H3 & H4 & H5 & ?). split_and!; [apply Ha; [set_solver|done]|done| | | | | |done];
      eapply (reserve_frame y y' id r c ref h); try done; apply Hs; set_solver.
  - intros (? & ? & ?). split_and!; [apply Ha; [set_solver|done]|done|apply Hw; [set_solver|done]].
  - intros (? & ?). split; [apply Ha; [set_solver|done]|done].
  - intros (? & ? & ? & ?). split_and!; [apply Ha; [set_solver|done]|apply Hw; [set_solver|done]|apply Hlc; [set_solver|done]|done].
  - intros (Hadm & ? & Hcell & ? & Hld). split_and!; [apply Ha; [set_solver|done]|apply Hw; [set_solver|done]|apply Hlc; [set_solver|done]|done|].
    rewrite <- Hld, <- Hc at 1. apply load_loc_frame; [done|apply Hs; set_solver|done|destruct Hadm as [[_ [? _]] _]; lia].
  - intros (? & ? & ? & Hb). split_and!; [apply Ha; [set_solver|done]|done|done|]. destruct (lc_large l) as [b|] eqn:El; [|done].
    eapply buf_cell_frame; [|done]. apply Hs. cbn. rewrite El. set_solver.
  - intros [? ?]. split; [done|by eapply wait_grows].
  - by apply ret_grows.
  - intros (? & ? & ? & ?). split_and!; [apply Ha; [set_solver|done]|apply Hw; [set_solver|done]|apply Hlc; [set_solver|done]|done].
  - intros (? & ? & Hi). split_and!; [done|done|]. destruct installed.
    + rewrite <- Hi. apply (Hs (ResPin (rq_key r))). set_solver.
    + eapply slot_cell_frame; [done|apply Hs; set_solver|done].
  - intros (? & ? & Hp). split_and!; [done|done|]. intros ->. eapply pending_frame; [done|apply Hs; set_solver|auto].
  - intros (c' & -> & ? & ? & ?). exists c'. split_and!; [done|by apply Hm|by apply Hm|by eapply compl_grows].
  - intros (c' & -> & ? & ? & ?). exists c'. split_and!; [done|by apply Hm|by apply Hm|by eapply done_grows].
  - intros Hh Hhad. destruct (Hh Hhad) as (c' & -> & ? & ? & ?). exists c'. split_and!; [done|by apply Hm|by apply Hm|by eapply done_grows].
  - intros (? & ? & ? & ? & Hb). split_and!; try done. by eapply flush_frame.
Qed.

Lemma entry_ok_frame y y' k e :
  geo y' = geo y → grows (y_gl y) (y_gl y') → (∀ r, r ∈ entry_res k e → same_res y y' r) →
  entry_ok y k e → entry_ok y' k e.
Proof.
  intros Hg Hm Hs [Hk Hp Hf Hl (c & bytes & dur & Hec & Hck & Hcv & Hpb & Hbl & Hld) Hn Hcell Hq].
  assert (Hst : same_res y y' (storage_res k (en_large e))) by (apply Hs; set_solver).
  split; [done|done|done|done| | | |].
  - exists c, bytes, dur. split_and!; [done|by apply Hm| |by apply Hm|done|].
    + destruct (Hs (ResCmp c)) as [-> _]; [unfold entry_res; rewrite Hec; set_solver|done].
    + rewrite <- Hld. unfold entry_data. destruct (en_large e).
      * by apply load_buf_frame.
      * eapply load_slot_frame; [done|done|done|lia].
  - rewrite <- Hn. apply (Hs (ResNode (en_node e))). set_solver.
  - destruct (en_large e); [by eapply buf_cell_frame|by eapply slot_cell_frame].
  - rewrite <- Hq. f_equal. apply (Hs (ResQueue k)). set_solver.
Qed.

(** ** The frame rule *)

Lemma storage_present y r l : loc_cell y r l → present y (storage_res (rq_key r) (lc_large l)).
Proof.
  intros [_ Hc]. destruct (lc_large l); destruct Hc as [_ Hc].
  - destruct Hc as (buf & Hb & _). by exists buf.
  - destruct Hc as (sh & ref & hd & _ & Hsl & _). by eexists.
Qed.

Lemma pending_present y c k : pending_cmp (y_gl y) c k → present y (ResCmp c).
Proof. intros [Hc _ _]. cbn. by destruct (gl_compl (y_gl y) !! c). Qed.

Lemma call_present y id call r : call_ok y id call → r ∈ call_res y call → present y r.
Proof.
  assert (Had : ∀ r c, admitted (y_cfg y) (y_gl y) r c → present y (ResCmp c))
    by (intros ? ? [_ ?]; by eapply pending_present).
  assert (Hw : ∀ k c, writing_at y k = Some c → present y (ResWriting k)) by (intros k c E; cbn; by rewrite E).
  assert (Hl : ∀ i id, mu_at y i = Some id → present y (ResLock i)) by (intros i j E; cbn; by rewrite E).
  destruct call; cbn [call_ok call_res]; try (intros _ Hr; by apply elem_of_nil in Hr).
  - intros (? & ? & _) [->|[->|[]%elem_of_nil]%elem_of_cons]%elem_of_cons; eauto.
  - intros (? & ? & _) [->|[->|[]%elem_of_nil]%elem_of_cons]%elem_of_cons; eauto.
  - intros (? & ? & _) [->|[->|[]%elem_of_nil]%elem_of_cons]%elem_of_cons; eauto.
  - intros (? & Hr & _ & Hpc) [->|[Hi|Hi]%elem_of_app]%elem_of_cons; [eauto| |].
    + destruct (registers _ _); [|set_solver]. apply list_elem_of_singleton in Hi as ->. eauto.
    + destruct pc; [set_solver|]. apply list_elem_of_singleton in Hi as ->. eauto.
  - intros (? & ? & _) [->|[->|[]%elem_of_nil]%elem_of_cons]%elem_of_cons; eauto.
  - intros (? & _ & Hr) [->|Hi]%elem_of_cons; [eauto|].
    destruct (is_put _); [|set_solver]. apply list_elem_of_singleton in Hi as ->. eauto.
  - intros (? & _ & Hr & _ & _ & Hmu & Hsl & _) [->|[->|[->|Hi]%elem_of_cons]%elem_of_cons]%elem_of_cons;
      [eauto|cbn; by rewrite Hsl|eauto|].
    destruct (is_put _); [|set_solver]. apply list_elem_of_singleton in Hi as ->. eauto.
  - intros (? & _ & ?) [->|[->|[]%elem_of_nil]%elem_of_cons]%elem_of_cons; eauto.
  - intros (? & _) ->%list_elem_of_singleton; eauto.
  - intros (? & ? & ? & _) [->|[->|[->|[]%elem_of_nil]%elem_of_cons]%elem_of_cons]%elem_of_cons; eauto using storage_present.
  - intros (? & ? & ? & _) [->|[->|[->|[]%elem_of_nil]%elem_of_cons]%elem_of_cons]%elem_of_cons; eauto using storage_present.
  - intros (? & _ & _ & Hb) [->|Hi]%elem_of_cons; [eauto|]. destruct (lc_large l); [|set_solver].
    apply list_elem_of_singleton in Hi as ->. destruct Hb as (buf & Hb & _). by exists buf.
  - intros (? & ? & ? & _) [->|[->|[->|[]%elem_of_nil]%elem_of_cons]%elem_of_cons]%elem_of_cons; eauto using storage_present.
  - intros (_ & _ & Hi) Hr. destruct installed; apply list_elem_of_singleton in Hr as ->; cbn.
    + by destruct (index_at y (rq_key r0)).
    + destruct Hi as (sh & ref & hd & _ & Hsl & _). by rewrite Hsl.
  - intros (_ & _ & Hp) Hr. destruct complete; [|set_solver]. apply list_elem_of_singleton in Hr as ->.
    eapply pending_present; eauto.
  - intros (_ & Hli & _ & _ & Hb) (q & -> & Hq)%list_elem_of_fmap. apply list_elem_of_lookup_1 in Hq as [j Hj].
    destruct (lookup_lt_is_Some_2 items j) as [it Hit]; [rewrite Hli; by eapply lookup_lt_Some|].
    destruct (Hb _ _ _ Hj Hit) as (_ & e & He & Hf & _). by exists e.
Qed.

Lemma entry_present y k e r : index_at y k = Some e → entry_ok y k e → r ∈ entry_res k e → present y r.
Proof.
  intros He [_ _ _ _ (c & ? & ? & Hc & _ & Hcv & _) Hn Hcell _]. unfold entry_res. rewrite Hc.
  intros [[->|[->|[->|[]%elem_of_nil]%elem_of_cons]%elem_of_cons]%elem_of_cons| ->%list_elem_of_singleton]%elem_of_app; cbn.
  - by rewrite Hn.
  - by rewrite He.
  - destruct (en_large e); cbn.
    + destruct Hcell as (buf & Hb & _). by rewrite Hb.
    + destruct Hcell as (sh & ref & hd & _ & Hsl & _). by rewrite Hsl.
  - by destruct (gl_compl (y_gl y) !! c).
Qed.

Lemma owned_present y o r : owner_ok y o → r ∈ owned y o → present y r.
Proof.
  destruct o as [id|k]; cbn; intros Hok.
  - destruct (y_calls y !! id) as [call|]; [|set_solver]. apply (call_present y id). by apply Hok.
  - destruct (index_at y k) as [e|] eqn:He; [|set_solver]. apply entry_present; auto.
Qed.

Lemma same_present y y' r : tracked r = true → same_res y y' r → present y' r → present y r.
Proof.
  destruct r; cbn; try done; intros _.
  - by intros [-> _].
  - by intros ->.
  - by intros ->.
  - intros E. by rewrite (mu_frame _ _ _ E).
  - intros E (e' & He' & Hf). rewrite He' in E. destruct (index_at y k) as [e|]; [|done].
    exists e. split; [done|]. injection E as E _ _ _ _ _. congruence.
Qed.

Lemma owned_frame y y' o :
  geo y' = geo y →
  (∀ id, o = OCall id → y_calls y' !! id = y_calls y !! id) →
  (∀ k, o = OEntry k → index_at y' k = index_at y k) → owned y' o = owned y o.
Proof.
  intros Hg Hc He. destruct o as [id|k]; cbn.
  - rewrite Hc by done. destruct (y_calls y !! id); [by apply call_res_frame|done].
  - by rewrite He.
Qed.

(** A step that changes the owners [S] and the resources [T]. *)
Lemma owners_step y y' (S : Owner → Prop) (T : Res → Prop) `{!∀ o, Decision (S o), !∀ r, Decision (T r)} :
  Owners y → geo y' = geo y → grows (y_gl y) (y_gl y') →
  (∀ id, ¬ S (OCall id) → y_calls y' !! id = y_calls y !! id) →
  (∀ k, ¬ S (OEntry k) → index_at y' k = index_at y k) →
  (∀ r, ¬ T r → same_res y y' r) →
  (∀ o r, T r → r ∈ owned y o → S o) →
  (∀ o, S o → owner_ok y' o) →
  (∀ o o' r, S o → r ∈ owned y' o → r ∈ owned y o' → S o') →
  (∀ o o' r, S o → S o' → r ∈ owned y' o → r ∈ owned y' o' → o = o') →
  (∀ r, tracked r = true → present y' r → T r ∨ (∃ o, S o ∧ r ∈ owned y o) → ∃ o, r ∈ owned y' o) →
  Owners y'.
Proof.
  intros [Hok Hun Hcov] Hg Hm Hc He Hs HT HSok Hacq HSun Hcov'.
  assert (Hown : ∀ o, ¬ S o → owned y' o = owned y o).
  { intros o Ho. apply owned_frame; [done|intros id ->; auto|intros k ->; auto]. }
  split.
  - intros o. destruct (decide (S o)) as [|Ho]; [auto|].
    assert (Hr : ∀ r, r ∈ owned y o → same_res y y' r).
    { intros r Hr. destruct (decide (T r)) as [Ht|Ht]; [|auto]. by destruct (Ho (HT _ _ Ht Hr)). }
    specialize (Hok o). destruct o as [id|k]; cbn in *.
    + intros call Hcall. rewrite Hc in Hcall by done. rewrite Hcall in Hr. eapply call_ok_frame; eauto.
    + intros e Hi. rewrite He in Hi by done. rewrite Hi in Hr. eapply entry_ok_frame; eauto.
  - intros o o' r Hr Hr'. destruct (decide (S o)) as [Ho|Ho], (decide (S o')) as [Ho'|Ho'].
    + by eapply HSun.
    + rewrite (Hown o') in Hr' by done. by destruct (Ho' (Hacq _ _ _ Ho Hr Hr')).
    + rewrite (Hown o) in Hr by done. by destruct (Ho (Hacq _ _ _ Ho' Hr' Hr)).
    + rewrite Hown in Hr, Hr' by done. by eapply Hun.
  - intros r Ht Hp. destruct (decide (T r)) as [HTr|HTr]; [by apply Hcov'; [| |left]|].
    destruct (Hcov r Ht) as (o & Ho); [by eapply same_present; [|apply Hs|]|].
    destruct (decide (S o)) as [HSo|HSo].
    + apply Hcov'; [done|done|]. right. eauto.
    + exists o. by rewrite Hown.
Qed.

End frame.
