(* ===== verification/RamShard.v ===== *)
(** * RAM tier: steps on one shard

    The frame rule for a step of one call that changes one shard and the shared
    state, and the part of the invariant that concerns the shards' maps. *)

From S2P Require Import Prelude KvTypes SlabTypes SlabOps SlotPool RamTypes RamOps RamInv RamFrame.

Section shard.
Context {A : Type} `{SlotPoolLaws A}.
Notation Sys := (Sys A).
Notation Shard := (Shard A).
Implicit Types (y : Sys) (k : BlockKey) (sh : Shard) (g : Globals).

(** The state after a step on shard [i]. *)
Definition after y (i : nat) (sh' : Shard) (g' : Globals) (calls : gmap nat Call) (hits : gmap nat Hit) : Sys :=
  mkSys (y_cfg y) (<[i := sh']> (y_shards y)) g' calls hits.

Record same_place sh sh' : Prop := {
  sp_base : sh_base_off sh' = sh_base_off sh;
  sp_opts : sp_opt (sh_alloc sh') = sp_opt (sh_alloc sh);
}.

Section put.
Context (y : Sys) (i : nat) (sh sh' : Shard) (g' : Globals) (calls : gmap nat Call) (hits : gmap nat Hit).
Hypothesis Hi : y_shards y !! i = Some sh.
Notation y' := (after y i sh' g' calls hits).

Lemma after_shard_of k : shard_of k y' = shard_of k y.
Proof. unfold shard_of. cbn. by rewrite length_insert. Qed.

Lemma after_at k : at_shard y' k = if decide (shard_of k y = i) then Some sh' else at_shard y k.
Proof.
  unfold at_shard. rewrite after_shard_of. cbn. case_decide as Hk.
  - rewrite Hk. apply list_lookup_insert_eq. by eapply lookup_lt_Some.
  - by rewrite list_lookup_insert_ne.
Qed.

Lemma after_home k : shard_of k y = i → at_shard y k = Some sh.
Proof. intros Hk. unfold at_shard. by rewrite Hk. Qed.

Lemma after_index k : index_at y' k = if decide (shard_of k y = i) then sh_index sh' !! k else index_at y k.
Proof. unfold index_at. rewrite after_at. by case_decide. Qed.
Lemma after_writing k : writing_at y' k = if decide (shard_of k y = i) then sh_writing sh' !! k else writing_at y k.
Proof. unfold writing_at. rewrite after_at. by case_decide. Qed.
Lemma after_slot k : pool_slot y' k = if decide (shard_of k y = i) then sp_slot (sh_alloc sh') k else pool_slot y k.
Proof. unfold pool_slot. rewrite after_at. by case_decide. Qed.
Lemma after_queue k :
  queue_at y' k = if decide (shard_of k y = i) then filter (λ q, q_key q = k) (sh_flushq sh') else queue_at y k.
Proof. unfold queue_at. rewrite after_at. by case_decide. Qed.

Lemma after_mu j : mu_at y' j = if decide (j = i) then sh_mu sh' else mu_at y j.
Proof.
  unfold mu_at. cbn. case_decide as Hj.
  - subst j. rewrite list_lookup_insert_eq; [done|]. by eapply lookup_lt_Some.
  - by rewrite list_lookup_insert_ne.
Qed.

Lemma here_index k : shard_of k y = i → index_at y k = sh_index sh !! k.
Proof. intros Hk. unfold index_at. by rewrite (after_home _ Hk). Qed.
Lemma here_writing k : shard_of k y = i → writing_at y k = sh_writing sh !! k.
Proof. intros Hk. unfold writing_at. by rewrite (after_home _ Hk). Qed.
Lemma here_slot k : shard_of k y = i → pool_slot y k = sp_slot (sh_alloc sh) k.
Proof. intros Hk. unfold pool_slot. by rewrite (after_home _ Hk). Qed.
Lemma here_queue k : shard_of k y = i → queue_at y k = filter (λ q, q_key q = k) (sh_flushq sh).
Proof. intros Hk. unfold queue_at. by rewrite (after_home _ Hk). Qed.
Lemma here_mu : mu_at y i = sh_mu sh.
Proof. unfold mu_at. by rewrite Hi. Qed.

Lemma there_at k : shard_of k y = i → at_shard y' k = Some sh'.
Proof. intros Hk. by rewrite after_at, decide_True. Qed.
Lemma there_index k : shard_of k y = i → index_at y' k = sh_index sh' !! k.
Proof. intros Hk. by rewrite after_index, decide_True. Qed.
Lemma there_writing k : shard_of k y = i → writing_at y' k = sh_writing sh' !! k.
Proof. intros Hk. by rewrite after_writing, decide_True. Qed.
Lemma there_slot k : shard_of k y = i → pool_slot y' k = sp_slot (sh_alloc sh') k.
Proof. intros Hk. by rewrite after_slot, decide_True. Qed.
Lemma there_queue k : shard_of k y = i → queue_at y' k = filter (λ q, q_key q = k) (sh_flushq sh').
Proof. intros Hk. by rewrite after_queue, decide_True. Qed.
Lemma there_mu : mu_at y' i = sh_mu sh'.
Proof. by rewrite after_mu, decide_True. Qed.

Lemma after_geo : same_place sh sh' → geo y' = geo y.
Proof.
  intros [Hb Ho]. unfold geo. cbn. f_equal. rewrite list_fmap_insert, Hb, Ho.
  apply list_insert_id. by rewrite list_lookup_fmap, Hi.
Qed.

(** What has to be shown of a resource the step does not touch. *)
Lemma same_after r :
  match r with
  | ResSlot k =>
      (shard_of k y = i → sp_slot (sh_alloc sh') k = sp_slot (sh_alloc sh) k) ∧
      (∀ sh1 sl a, at_shard y k = Some sh1 → pool_slot y k = Some sl →
        slot_addr (y_cfg y) (sh_base_off sh1) (sl_ref sl) <= a
          < slot_addr (y_cfg y) (sh_base_off sh1) (sl_ref sl) + r_slot_size (sl_ref sl) →
        gl_mem g' a = gl_mem (y_gl y) a)
  | ResBuf b => gl_heap g' !! b = gl_heap (y_gl y) !! b
  | ResCmp c =>
      cmp_view <$> (gl_compl g' !! c) = cmp_view <$> (gl_compl (y_gl y) !! c) ∧
      ∀ n pb, gl_pub g' !! n = Some pb → pb_completion pb = c → gl_pub (y_gl y) !! n = Some pb
  | ResNode n => gl_nodes g' !! n = gl_nodes (y_gl y) !! n
  | ResWriting k => shard_of k y = i → sh_writing sh' !! k = sh_writing sh !! k
  | ResQueue k => shard_of k y = i →
      filter (λ q, q_key q = k) (sh_flushq sh') = filter (λ q, q_key q = k) (sh_flushq sh)
  | ResLock j => j ≠ i ∨ lock_view sh' = lock_view sh
  | ResFlush k => shard_of k y = i → flush_view <$> sh_index sh' !! k = flush_view <$> sh_index sh !! k
  | ResPin k => shard_of k y = i → in_arena <$> sh_index sh' !! k = in_arena <$> sh_index sh !! k
  end → same_res y y' r.
Proof.
  destruct r as [k|b|c|n|k|k|j|k|k]; cbn.
  - intros [H1 H2]. split; [|done]. rewrite after_slot. case_decide as Hk; [|done]. rewrite here_slot; auto.
  - done.
  - done.
  - done.
  - intros H1. rewrite after_writing. case_decide as Hk; [|done]. rewrite here_writing; auto.
  - intros H1. rewrite after_queue. case_decide as Hk; [|done]. rewrite here_queue; auto.
  - intros [Hj|E]; [by rewrite list_lookup_insert_ne|]. destruct (decide (j = i)) as [->|Hj];
      [|by rewrite list_lookup_insert_ne]. rewrite list_lookup_insert_eq by (by eapply lookup_lt_Some).
    rewrite Hi. cbn. by rewrite E.
  - intros H1. rewrite after_index. case_decide as Hk; [|done]. rewrite here_index; auto.
  - intros H1. rewrite after_index. case_decide as Hk; [|done]. rewrite here_index; auto.
Qed.

End put.

(** ** The frame rule with lists *)

Definition held_by y (S : list Owner) (r : Res) : Prop := ∃ o, o ∈ S ∧ r ∈ owned y o.

Definition free_res y (r : Res) : Prop := ∀ o, r ∉ owned y o.

Lemma absent_free y r : Owners y → ¬ present y r → free_res y r.
Proof. intros Hown Hn o Hr. apply Hn. eapply owned_present; [apply Hown|done]. Qed.

Lemma owners_step_list y y' (S : list Owner) (T : list Res) :
  Owners y → geo y' = geo y → grows (y_gl y) (y_gl y') →
  (∀ id, OCall id ∉ S → y_calls y' !! id = y_calls y !! id) →
  (∀ k, OEntry k ∉ S → index_at y' k = index_at y k) →
  (∀ r, r ∉ T → same_res y y' r) →
  (∀ r, r ∈ T → held_by y S r ∨ free_res y r) →
  (∀ o, o ∈ S → owner_ok y' o) →
  (∀ o r, o ∈ S → r ∈ owned y' o → held_by y S r ∨ free_res y r) →
  (∀ o o' r, o ∈ S → o' ∈ S → r ∈ owned y' o → r ∈ owned y' o' → o = o') →
  (∀ r, tracked r = true → present y' r → r ∈ T ∨ held_by y S r → held_by y' S r) →
  Owners y'.
Proof.
  intros Hown Hg Hm Hc He Hs HT HSok Hacq HSun Hcov.
  assert (Hin : ∀ o r, held_by y S r ∨ free_res y r → r ∈ owned y o → o ∈ S).
  { intros o r [(o' & Ho' & Hr')|Hn] Hr.
    - by rewrite (ow_unique _ Hown _ _ _ Hr Hr').
    - by destruct (Hn o). }
  eapply (owners_step y y' (λ o, o ∈ S) (λ r, r ∈ T)); try done.
  - intros o r Hr. by apply Hin, HT.
  - intros o o' r Ho Hr. by apply Hin, (Hacq o).
  - intros r Ht Hp Hr. destruct (Hcov r Ht Hp Hr) as (o & _ & ?). eauto.
Qed.

(** ** Entering a section *)

Lemma section_Some id i held f y y' :
  section id i held f y = Some y' →
  ∃ sh call sh' g', y_shards y !! i = Some sh ∧ sh_mu sh = (if held then Some id else None) ∧
    f sh (y_gl y) = Some (call, sh', g') ∧
    y' = after y i sh' g' (<[id := call]> (y_calls y)) (y_hits y).
Proof.
  unfold section. intros (sh & Hi & E)%bind_Some. case_decide as Hm; [|done].
  apply bind_Some in E as ([[call sh'] g'] & Hf & [= <-]). exists sh, call, sh', g'. done.
Qed.

Lemma unlocked_free y i sh : Owners y → y_shards y !! i = Some sh → sh_mu sh = None → free_res y (ResLock i).
Proof. intros Hown Hi Hm. apply absent_free; [done|]. cbn. unfold mu_at. rewrite Hi. cbn. rewrite Hm. by intros []. Qed.

(** No reservation pins [k]. *)
Lemma unkept_free y k : msum (kept_w k) (y_calls y) = 0 → free_res y (ResPin k).
Proof.
  intros Hz [id|k'] Hr; cbn in Hr.
  2:{ destruct (index_at y k') as [e'|]; [|set_solver]. unfold entry_res, storage_res in Hr.
      destruct (en_large e'), (en_completion e'); set_solver. }
  destruct (y_calls y !! id) as [call|] eqn:Hc; [|by apply elem_of_nil in Hr].
  assert (Hw : kept_w k id call = 1).
  { destruct call; cbn in Hr; try set_solver; unfold storage_res in *; repeat case_match; try set_solver.
    apply list_elem_of_singleton in Hr. injection Hr as ->. cbn. by rewrite decide_True. }
  assert (Hk : ∀ j c, 0 <= kept_w k j c) by (intros j c; unfold kept_w; repeat case_match; lia).
  pose proof (msum_le_one (kept_w k) (y_calls y) id call (λ j c _, Hk j c) Hc). lia.
Qed.

Lemma unpinned_free y k e : Pins y → index_at y k = Some e → en_send_pins e = 0 → free_res y (ResPin k).
Proof.
  intros Hp He Hz. apply unkept_free. pose proof (pn_count _ Hp _ _ He) as Hn. rewrite Hz in Hn.
  pose proof (msum_nonneg (kept_w k) (y_calls y) (λ j c _, ltac:(unfold kept_w; repeat case_match; lia))).
  pose proof (msum_nonneg (hit_w (en_node e)) (y_hits y)
    (λ j h _, ltac:(unfold hit_w; case_decide; lia))). lia.
Qed.

(** Nobody flushes an entry that is not being flushed. *)
Lemma unflushed_free y k e : Owners y → index_at y k = Some e → en_flushing e = false → free_res y (ResFlush k).
Proof. intros Hown He Hf. apply absent_free; [done|]. intros (e' & He' & Hf'). congruence. Qed.

(** An entry with an outstanding hit is pinned. *)
Lemma hit_pinned y h hit k e :
  Pins y → y_hits y !! h = Some hit → index_at y k = Some e → hit_ok e hit → 1 <= en_send_pins e.
Proof.
  intros Hp Hh He (Ht & _). rewrite (pn_count _ Hp _ _ He).
  pose proof (msum_le_one (hit_w (en_node e)) (y_hits y) h hit (λ j x _, ltac:(unfold hit_w; case_decide; lia)) Hh) as H1.
  unfold hit_w in H1 at 1. rewrite decide_True in H1 by done.
  pose proof (msum_nonneg (kept_w k) (y_calls y) (λ j x _, ltac:(unfold kept_w; repeat case_match; lia))). lia.
Qed.

End shard.
