(* ===== verification/RamCall.v ===== *)
(** * RAM tier: steps of a call

    The invariant over a step that changes one call, the shared state, and of a
    shard everything but its index and queue. *)

From S2P Require Import Prelude KvTypes SlabTypes SlabOps SlotPool RamTypes RamOps RamInv RamFrame RamShard.

Section call.
Context {A : Type} `{SlotPoolLaws A}.
Notation Sys := (Sys A).
Notation Shard := (Shard A).
Implicit Types (y : Sys) (k : BlockKey) (sh : Shard) (g : Globals).

Lemma canceled_grow c g g' :
  (∀ p, gl_compl g !! c = Some p → pc_canceled p = true →
     ∃ p', gl_compl g' !! c = Some p' ∧ pc_canceled p' = true) →
  canceled c g = true → canceled c g' = true.
Proof.
  unfold canceled. intros Hp. destruct (gl_compl g !! c) as [p|]; [|done]. intros Hc.
  destruct (Hp p eq_refl Hc) as (p' & -> & ?). done.
Qed.

Lemma esum_after f y i sh sh' g' calls hits :
  y_shards y !! i = Some sh →
  esum f (after y i sh' g' calls hits) = esum f y - msum f (sh_index sh) + msum f (sh_index sh').
Proof. intros Hi. unfold esum, after. cbn [y_shards]. by rewrite (sumZ_insert _ _ _ sh). Qed.

(** ** A step of one call *)

Section step.
Context (y : Sys) (i : nat) (sh sh' : Shard) (g' : Globals) (id : nat) (call call' : Call) (T : list Res).
Hypothesis Hi : y_shards y !! i = Some sh.
Hypothesis Hcall : y_calls y !! id = Some call.
Notation y' := (after y i sh' g' (<[id := call']> (y_calls y)) (y_hits y)).

Hypothesis Hplace : same_place sh sh'.
Hypothesis Hindex : sh_index sh' = sh_index sh.
Hypothesis Hqueue : sh_flushq sh' = sh_flushq sh.
Hypothesis Hgrows : grows (y_gl y) g'.

Lemma call_index k : index_at y' k = index_at y k.
Proof. rewrite (after_index _ _ sh) by done. case_decide as Hk; [|done]. by rewrite Hindex, (here_index y i sh). Qed.

Lemma owners_call :
  Owners y →
  (∀ r, r ∉ T → same_res y y' r) →
  (∀ r, r ∈ T → r ∈ call_res y call ∨ free_res y r) →
  call_ok y' id call' →
  (∀ r, r ∈ call_res y call' → r ∈ call_res y call ∨ free_res y r) →
  (∀ r, tracked r = true → present y' r → r ∈ T ∨ r ∈ call_res y call → r ∈ call_res y call') →
  Owners y'.
Proof.
  intros Hown Hs HT Hok Hacq Hcov. assert (Hg : geo y' = geo y) by (by apply (after_geo _ _ sh)).
  assert (Ho : ∀ r, r ∈ call_res y call ↔ held_by y [OCall id] r).
  { intros r. unfold held_by. setoid_rewrite list_elem_of_singleton. split; [|intros (o & -> & Hr); cbn in Hr; by rewrite Hcall in Hr].
    intros Hr. exists (OCall id). cbn. by rewrite Hcall. }
  assert (Ho' : owned y' (OCall id) = call_res y call').
  { cbn. rewrite lookup_insert_eq. by apply call_res_frame. }
  apply (owners_step_list y y' [OCall id] T); try done.
  - intros j Hj. cbn. rewrite lookup_insert_ne; [done|]. set_solver.
  - intros k _. apply call_index.
  - intros r Hr. rewrite <- Ho. auto.
  - intros o ->%list_elem_of_singleton c Hc. cbn in Hc. rewrite lookup_insert_eq in Hc. by injection Hc as <-.
  - intros o r ->%list_elem_of_singleton Hr. rewrite <- Ho. rewrite Ho' in Hr. auto.
  - by intros o o' r ->%list_elem_of_singleton ->%list_elem_of_singleton.
  - intros r Ht Hp Hr. rewrite <- Ho in Hr. exists (OCall id). rewrite Ho'. split; [by left|auto].
Qed.

Lemma maps_call :
  Maps y → sp_wf (sh_alloc sh') →
  (∀ k, is_Some (sp_slot (sh_alloc sh') k) → is_Some (sp_slot (sh_alloc sh) k) ∨ shard_of k y = i) →
  (∀ k, is_Some (sh_writing sh' !! k) →
     is_Some (sh_writing sh !! k) ∨ shard_of k y = i ∧ sh_index sh !! k = None) →
  Maps y'.
Proof.
  intros [Hp Hh He Hq] Hwf Hsl Hwr. split.
  - intros j s Hj. cbn in Hj. apply list_lookup_insert_Some in Hj as [(<- & <- & _)|[_ Hj]]; eauto.
  - intros j s k Hj Hk. rewrite (after_shard_of y i sh'). cbn in Hj.
    apply list_lookup_insert_Some in Hj as [(<- & <- & _)|[_ Hj]]; [|by apply (Hh j s)].
    rewrite Hindex in Hk. destruct Hk as [Hk|[Hk|Hk]].
    + apply (Hh _ _ _ Hi). by left.
    + destruct (Hwr _ Hk) as [?|[? _]]; [|done]. apply (Hh _ _ _ Hi). by right; left.
    + destruct (Hsl _ Hk) as [?|?]; [|done]. apply (Hh _ _ _ Hi). by right; right.
  - intros k. rewrite call_index, (after_writing _ _ sh) by done. case_decide as Hk; [|apply He].
    intros [Hw|[_ Hw]]%Hwr; [apply He; by rewrite (here_writing y i sh)|by rewrite (here_index y i sh)].
  - intros j s q Hj. cbn in Hj. apply list_lookup_insert_Some in Hj as [(<- & <- & _)|[_ Hj]]; [|by apply (Hq j)].
    rewrite Hindex, Hqueue. by apply (Hq _ _ _ Hi).
Qed.

Lemma hist_call :
  Owners y → Hist y → gl_pub g' = gl_pub (y_gl y) →
  (∀ c p', gl_compl g' !! c = Some p' → pc_success p' = true →
     ∃ p, gl_compl (y_gl y) !! c = Some p ∧ pc_success p = true) →
  (∀ c, c ∈ gl_fenced g' → c ∈ gl_fenced (y_gl y) ∨
     canceled c g' = true ∧ ∃ j, ResCmp c ∈ owned y (OCall j)) →
  (∀ c, canceled c (y_gl y) = true → canceled c g' = true) →
  (∀ c, c ∈ gl_fenced g' → ResCmp c ∈ call_res y call' → canceled c g' = true) →
  Hist y'.
Proof.
  intros Hown [H1 H2 H3 Hfd H4 H5] Hpub Hsucc Hfen Hcan Hmine.
  assert (Hg : geo y' = geo y) by (by apply (after_geo _ _ sh)). split; cbn; rewrite ?Hpub; try done.
  - intros c p' Hp' Hs. destruct (Hsucc _ _ Hp' Hs) as (p & Hp & Hsp).
    destruct (H1 _ _ Hp Hsp) as (n & pb & ? & ? & ?). exists n, pb. split_and!; [done|done|].
    by eapply evidence_grows.
  - intros n pb Hn. apply Hgrows. by apply (H3 n).
  - intros c Hf. destruct (Hfen _ Hf) as [Hf0|[Hc _]]; [by eapply compl_grows, Hfd|].
    unfold canceled in Hc. by destruct (gl_compl g' !! c).
  - intros c j Hf Hr. destruct (decide (j = id)) as [->|Hj].
    + rewrite lookup_insert_eq in Hr. apply Hmine; [done|]. by rewrite (call_res_frame y _ _ Hg) in Hr.
    + rewrite lookup_insert_ne in Hr by done. destruct (Hfen _ Hf) as [Hf0|[? _]]; [|done].
      apply Hcan, (H4 _ j Hf0). cbn. destruct (y_calls y !! j); [|done]. by rewrite (call_res_frame y _ _ Hg) in Hr.
  - intros c k e Hf. rewrite call_index. intros He Hc. destruct (Hfen _ Hf) as [Hf0|[_ [j Hj]]]; [by eapply H5|].
    assert (Hr : ResCmp c ∈ owned y (OEntry k)).
    { cbn. rewrite He. unfold entry_res. rewrite Hc. set_solver. }
    by pose proof (ow_unique _ Hown _ _ _ Hj Hr).
Qed.

Lemma pins_call : Pins y → (∀ k, kept_w k id call' = kept_w k id call) → Pins y'.
Proof.
  intros [H1 H2] Hk. split; cbn.
  - intros k e. rewrite call_index. intros He. rewrite (msum_update _ _ _ call) by done.
    rewrite Hk, (H1 _ _ He). lia.
  - intros h hit Hh. destruct (H2 _ _ Hh) as (k & e & He & Hok). exists k, e. by rewrite call_index.
Qed.

Lemma sums_call :
  Sums y →
  gl_budget_used g' = gl_budget_used (y_gl y) - budget_w id call + budget_w id call' →
  gl_large_used g' = gl_large_used (y_gl y) - reserve_w id call + reserve_w id call' →
  gl_dirty_bytes g' = gl_dirty_bytes (y_gl y) → gl_dirty_objects g' = gl_dirty_objects (y_gl y) →
  (gl_budget_used g' <= gl_budget_used (y_gl y) ∨ gl_budget_used g' <= op_bytes (cf_opt (y_cfg y))) →
  (gl_large_used g' <= gl_large_used (y_gl y) ∨ gl_large_used g' <= cf_large_budget_bytes (y_cfg y)) →
  Sums y'.
Proof.
  intros [H1 H2 H3 H4 H5 H6] E1 E2 E3 E4 B1 B2.
  split; rewrite ?(esum_after _ _ _ sh), ?Hindex by done; cbn [after y_gl y_calls y_cfg];
    rewrite ?(msum_update _ _ _ call) by done; lia.
Qed.

(** All together. *)
Lemma inv_call :
  Inv y →
  (* ownership *)
  (∀ r, r ∉ T → same_res y y' r) →
  (∀ r, r ∈ T → r ∈ call_res y call ∨ free_res y r) →
  call_ok y' id call' →
  (∀ r, r ∈ call_res y call' → r ∈ call_res y call ∨ free_res y r) →
  (∀ r, tracked r = true → present y' r → r ∈ T ∨ r ∈ call_res y call → r ∈ call_res y call') →
  (* maps *)
  sp_wf (sh_alloc sh') →
  (∀ k, is_Some (sp_slot (sh_alloc sh') k) → is_Some (sp_slot (sh_alloc sh) k) ∨ shard_of k y = i) →
  (∀ k, is_Some (sh_writing sh' !! k) →
     is_Some (sh_writing sh !! k) ∨ shard_of k y = i ∧ sh_index sh !! k = None) →
  Ids g' →
  (* histories *)
  gl_pub g' = gl_pub (y_gl y) →
  (∀ c p', gl_compl g' !! c = Some p' → pc_success p' = true →
     ∃ p, gl_compl (y_gl y) !! c = Some p ∧ pc_success p = true) →
  (∀ c, c ∈ gl_fenced g' → c ∈ gl_fenced (y_gl y) ∨
     canceled c g' = true ∧ ∃ j, ResCmp c ∈ owned y (OCall j)) →
  (∀ c, canceled c (y_gl y) = true → canceled c g' = true) →
  (∀ c, c ∈ gl_fenced g' → ResCmp c ∈ call_res y call' → canceled c g' = true) →
  (* accounts *)
  (∀ k, kept_w k id call' = kept_w k id call) →
  gl_budget_used g' = gl_budget_used (y_gl y) - budget_w id call + budget_w id call' →
  gl_large_used g' = gl_large_used (y_gl y) - reserve_w id call + reserve_w id call' →
  gl_dirty_bytes g' = gl_dirty_bytes (y_gl y) → gl_dirty_objects g' = gl_dirty_objects (y_gl y) →
  (gl_budget_used g' <= gl_budget_used (y_gl y) ∨ gl_budget_used g' <= op_bytes (cf_opt (y_cfg y))) →
  (gl_large_used g' <= gl_large_used (y_gl y) ∨ gl_large_used g' <= cf_large_budget_bytes (y_cfg y)) →
  Inv y'.
Proof.
  intros [Hgeo Hown Hmaps Hids Hhist Hpins Hsums]. intros.
  split; [by rewrite (after_geo _ _ sh)|by apply owners_call|by apply maps_call|done|by apply hist_call
    |by apply pins_call|by apply sums_call].
Qed.

End step.

End call.
