(* ===== verification/RamLocal.v ===== *)
(** * RAM tier: steps outside the critical sections

    The steps that change no shard: the reservations against the byte budgets,
    the waits, and the program points of the background tick. *)

From S2P Require Import Prelude KvTypes SlabTypes SlabOps SlotPool RamTypes RamOps RamInv RamFrame RamShard.
From S2P Require Import RamCall.

(** Only counters and the history of the disk differ. *)
Record quiet (g g' : Globals) : Prop := {
  qt_mem : gl_mem g' = gl_mem g;
  qt_heap : gl_heap g' = gl_heap g;
  qt_nodes : gl_nodes g' = gl_nodes g;
  qt_compl : gl_compl g' = gl_compl g;
  qt_next : gl_next g' = gl_next g;
  qt_pub : gl_pub g' = gl_pub g;
  qt_key : gl_compl_key g' = gl_compl_key g;
  qt_sunk : gl_sunk g ⊆ gl_sunk g';
  qt_fenced : gl_fenced g' = gl_fenced g;
}.

Lemma quiet_grows g g' : quiet g g' → grows g g'.
Proof.
  intros [_ _ _ E1 _ E2 E3 E4 E5]. split; try (rewrite ?E1, ?E2, ?E3, ?E5; done).
  intros c p Hp. exists p. by rewrite E1.
Qed.

Lemma quiet_ids g g' : quiet g g' → Ids g → Ids g'.
Proof. intros [_ E1 E2 E3 E4 E5 E6 _ _] []. split; rewrite ?E1, ?E2, ?E3, ?E4, ?E5, ?E6; done. Qed.

Lemma quiet_canceled c g g' : quiet g g' → canceled c g' = canceled c g.
Proof. intros Hq. unfold canceled. by rewrite (qt_compl _ _ Hq). Qed.

Create HintDb ram.
#[export] Hint Resolve quiet_grows quiet_ids : ram.

Section local.
Context {A : Type} `{SlotPoolLaws A}.
Notation Sys := (Sys A).
Notation Shard := (Shard A).
Implicit Types (y : Sys) (k : BlockKey) (sh : Shard) (g : Globals).

Lemma quiet_same y i sh sh' g' calls hits r :
  y_shards y !! i = Some sh → lock_view sh' = lock_view sh → quiet (y_gl y) g' →
  same_res y (after y i sh' g' calls hits) r.
Proof.
  intros Hi E Hq. injection E as E1 E2 E3 E4 E5. apply (same_after _ _ sh); [done|].
  destruct Hq as [Q1 Q2 Q3 Q4 Q5 Q6 Q7 Q8 Q9]. unfold lock_view.
  destruct r; rewrite ?E1, ?E2, ?E3, ?E4, ?E5, ?Q1, ?Q2, ?Q3, ?Q4, ?Q6; auto.
Qed.

Lemma inv_idle y i sh sh' g' :
  Inv y → y_shards y !! i = Some sh → same_place sh sh' → lock_view sh' = lock_view sh →
  quiet (y_gl y) g' →
  gl_budget_used g' = gl_budget_used (y_gl y) → gl_large_used g' = gl_large_used (y_gl y) →
  gl_dirty_bytes g' = gl_dirty_bytes (y_gl y) → gl_dirty_objects g' = gl_dirty_objects (y_gl y) →
  Inv (after y i sh' g' (y_calls y) (y_hits y)).
Proof.
  intros [Hgeo Hown Hmaps Hids Hhist Hpins Hsums] Hi Hp Hl Hq B1 B2 B3 B4.
  set (y' := after y i sh' g' (y_calls y) (y_hits y)).
  assert (Hg : geo y' = geo y) by (by apply (after_geo _ _ sh)).
  pose proof Hl as E. injection E as E1 E2 E3 E4 E5.
  assert (Hix : ∀ k, index_at y' k = index_at y k).
  { intros k. unfold y'. rewrite (after_index _ _ sh) by done. case_decide; [|done]. by rewrite E3, (here_index y i sh). }
  assert (Hwr : ∀ k, writing_at y' k = writing_at y k).
  { intros k. unfold y'. rewrite (after_writing _ _ sh) by done. case_decide; [|done]. by rewrite E4, (here_writing y i sh). }
  assert (Hown' : ∀ o, owned y' o = owned y o) by (intros o; apply owned_frame; auto).
  split; [by rewrite Hg| | |by eapply quiet_ids| | |].
  - apply (owners_step_list y y' [] []); try done; [by apply quiet_grows|..].
    + intros r _. by apply (quiet_same _ _ sh).
    + by intros r ?%elem_of_nil.
    + by intros o ?%elem_of_nil.
    + by intros o r ?%elem_of_nil.
    + by intros o o' r ?%elem_of_nil.
    + intros r _ _ [?%elem_of_nil|(o & ?%elem_of_nil & _)]; done.
  - destruct Hmaps as [M1 M2 M3 M4]. split.
    + intros j s Hj. cbn in Hj. apply list_lookup_insert_Some in Hj as [(<- & <- & _)|[_ Hj]]; [rewrite E1|]; eauto.
    + intros j s k Hj. unfold y'. rewrite (after_shard_of y i sh'). cbn in Hj.
      apply list_lookup_insert_Some in Hj as [(<- & <- & _)|[_ Hj]]; [rewrite E1, E3, E4|]; eauto.
    + intros k. rewrite Hix, Hwr. apply M3.
    + intros j s q Hj. cbn in Hj. apply list_lookup_insert_Some in Hj as [(<- & <- & _)|[_ Hj]]; [rewrite E3, E5|]; eauto.
  - destruct Hhist as [H1 H2 H3 Hfd H4 H5]. destruct Hq as [Q1 Q2 Q3 Q4 Q5 Q6 Q7 Q8 Q9].
    split; unfold canceled in *; cbn [y' after y_gl y_cfg]; rewrite ?Q4, ?Q6, ?Q7, ?Q9; try done.
    + intros c p Hc Hs. destruct (H1 c p Hc Hs) as (n & pb & ? & ? & He). exists n, pb. split_and!; [done|done|].
      destruct He as [?|[?|?]]; [by left|right; left; by apply Q8|by right; right].
    + intros c id Hf Hr. rewrite Hown' in Hr. eauto.
    + intros c k e Hf. rewrite Hix. eauto.
  - destruct Hpins as [P1 P2]. split; cbn [y' after y_hits y_calls].
    + intros k e. rewrite Hix. apply P1.
    + intros h hit Hh. destruct (P2 _ _ Hh) as (k & e & ? & ?). exists k, e. by rewrite Hix.
  - destruct Hsums. split; unfold y'; rewrite ?(esum_after _ _ _ sh), ?E3 by done; cbn [after y_gl y_calls y_cfg]; lia.
Qed.

Lemma inv_gl y g' :
  Inv y → quiet (y_gl y) g' →
  gl_budget_used g' = gl_budget_used (y_gl y) → gl_large_used g' = gl_large_used (y_gl y) →
  gl_dirty_bytes g' = gl_dirty_bytes (y_gl y) → gl_dirty_objects g' = gl_dirty_objects (y_gl y) →
  Inv (with_gl (λ _, g') y).
Proof.
  intros Hinv Hq. intros. destruct (y_shards y) as [|sh shs] eqn:Hsh.
  { destruct (go_shards _ (iv_geo _ Hinv)). unfold geo. by rewrite Hsh. }
  assert (Hi : y_shards y !! 0%nat = Some sh) by (by rewrite Hsh).
  replace (with_gl (λ _, g') y) with (after y 0 sh g' (y_calls y) (y_hits y)); [by apply (inv_idle _ _ sh)|].
  unfold with_gl, after. by rewrite list_insert_id.
Qed.

(** A step that moves call [id] on and at most counters with it. *)
Lemma inv_local y id call call' g' :
  Inv y → y_calls y !! id = Some call → quiet (y_gl y) g' → call_ok y id call' →
  (∀ r, r ∈ call_res y call' → r ∈ call_res y call) →
  (∀ r, tracked r = true → r ∈ call_res y call → r ∈ call_res y call') →
  (∀ k, kept_w k id call' = kept_w k id call) →
  gl_budget_used g' = gl_budget_used (y_gl y) - budget_w id call + budget_w id call' →
  gl_large_used g' = gl_large_used (y_gl y) - reserve_w id call + reserve_w id call' →
  gl_dirty_bytes g' = gl_dirty_bytes (y_gl y) → gl_dirty_objects g' = gl_dirty_objects (y_gl y) →
  (gl_budget_used g' <= gl_budget_used (y_gl y) ∨ gl_budget_used g' <= op_bytes (cf_opt (y_cfg y))) →
  (gl_large_used g' <= gl_large_used (y_gl y) ∨ gl_large_used g' <= cf_large_budget_bytes (y_cfg y)) →
  Inv (with_call id call' (with_gl (λ _, g') y)).
Proof.
  intros Hinv Hcall Hq Hok Hsub Hkeep. intros.
  destruct (y_shards y) as [|sh shs] eqn:Hsh.
  { destruct (go_shards _ (iv_geo _ Hinv)). unfold geo. by rewrite Hsh. }
  assert (Hi : y_shards y !! 0%nat = Some sh) by (by rewrite Hsh).
  replace (with_call id call' (with_gl (λ _, g') y))
    with (after y 0 sh g' (<[id := call']> (y_calls y)) (y_hits y)).
  2:{ unfold with_call, with_gl, after. cbn. by rewrite list_insert_id. }
  pose proof (iv_hist _ Hinv) as Hh.
  assert (Hsame : ∀ calls hits r, same_res y (after y 0 sh g' calls hits) r) by (intros; by apply (quiet_same _ _ sh)).
  apply (inv_call y 0 sh sh g' id call call' []); try done; eauto with ram.
  - by intros r ?%elem_of_nil.
  - eapply call_ok_frame; [by apply (after_geo _ _ sh)|by apply quiet_grows|done|done].
  - intros r Ht Hp [?%elem_of_nil|Hr]; [done|auto].
  - by apply (mp_pool _ (iv_maps _ Hinv) _ _ Hi).
  - eapply quiet_ids; [done|apply Hinv].
  - apply Hq.
  - intros c p'. rewrite (qt_compl _ _ Hq). eauto.
  - intros c. rewrite (qt_fenced _ _ Hq). auto.
  - intros c. by rewrite (quiet_canceled _ _ _ Hq).
  - intros c. rewrite (qt_fenced _ _ Hq), (quiet_canceled _ _ _ Hq). intros Hf Hr.
    apply (hs_fence_call _ Hh c id Hf). cbn. rewrite Hcall. auto.
Qed.

(** ** The steps *)

Ltac local_step :=
  eapply inv_local; [eassumption|eassumption|split; reflexivity|..]; cbn [call_res kept_w budget_w reserve_w];
  try (intros; set_solver); try (intros; done); try (cbn; lia).

Lemma fail_call_ok y id r c :
  admitted (y_cfg y) (y_gl y) r c → (is_put r = true → writing_at y (rq_key r) = Some c) →
  call_ok y id (fail_call r c).
Proof.
  intros Had Hw. unfold fail_call. destruct (rq_op r) eqn:Er; cbn; [|unfold ret_ok; by rewrite Er..].
  assert (is_put r = true) as Hp by (unfold is_put; by rewrite Er).
  split_and!; [done|unfold registers; by rewrite Hp|auto].
Qed.

Lemma put_registers cfg r : is_put r = true → registers cfg r = true.
Proof. unfold registers. by intros ->. Qed.
Lemma large_registers cfg r : is_large cfg r = true → registers cfg r = true.
Proof. unfold registers. intros ->. apply orb_true_r. Qed.

(** A failed [TryReserveLarge]. *)
Lemma large_failed_step y id call r c cap a g' :
  Inv y → y_calls y !! id = Some call → quiet (y_gl y) g' →
  (call = CLarge r c cap a ∨ call = CLargeUndo r c cap a) →
  gl_budget_used g' = gl_budget_used (y_gl y) →
  gl_large_used g' = gl_large_used (y_gl y) - reserve_w id call → 0 <= reserve_w id call →
  gl_dirty_bytes g' = gl_dirty_bytes (y_gl y) → gl_dirty_objects g' = gl_dirty_objects (y_gl y) →
  Inv (with_call id (large_failed r c cap a) (with_gl (λ _, g') y)).
Proof.
  intros Hinv Hcall Hq Hc. pose proof (ow_ok _ (iv_own _ Hinv) (OCall id) _ Hcall) as Hok. intros.
  assert (Hok' : admitted (y_cfg y) (y_gl y) r c ∧ writing_at y (rq_key r) = Some c ∧ large_ok (y_cfg y) r cap)
    by (destruct Hc as [-> | ->]; apply Hok).
  destruct Hok' as (Had & Hw & [Hl Hlen]). pose proof (large_registers _ _ Hl) as Hreg.
  assert (Hres : call_res y call = [ResCmp c; ResWriting (rq_key r)]) by (destruct Hc as [-> | ->]; done).
  assert (Hbw : budget_w id call = 0 ∧ ∀ k, kept_w k id call = 0) by (destruct Hc as [-> | ->]; done).
  destruct Hbw as [Hbw Hkw]. unfold large_failed.
  destruct a; (eapply inv_local; [done|done|done|..]); rewrite ?Hres, ?Hkw, ?Hbw; cbn [Nat.eqb call_ok call_res]; rewrite ?Hreg;
    try done; try (by split_and!); try (intros r' Hr'; set_solver); cbn; try lia.
  all: intros; by rewrite Hkw.
Qed.

Lemma step_large y id inp r c cap a y' :
  Inv y → y_calls y !! id = Some (CLarge r c cap a) →
  call_step id inp y (CLarge r c cap a) = Some y' → Inv y'.
Proof.
  intros Hinv Hcall. pose proof (ow_ok _ (iv_own _ Hinv) (OCall id) _ Hcall) as Hok. cbn [call_step].
  unfold try_large. destruct (Z.ltb_spec (cf_large_budget_bytes (y_cfg y)) cap); cbn [orb].
  2: destruct (Z.ltb_spec (cf_large_budget_bytes (y_cfg y) - cap) (gl_large_used (y_gl y))).
  3:{ intros [= <-]. local_step. }
  all: intros [= <-]; (eapply large_failed_step; [done|done|done|by left|..]); cbn; lia.
Qed.

Lemma large_cap y id call :
  call_ok y id call →
  match call with
  | CLarge r c cap _ | CLargeBudget r c cap _ | CLargeUndo r c cap _ | CMalloc r c cap => 0 < cap
  | _ => True
  end.
Proof. destruct call; try done; intros ([[_ [? _]] _] & _ & [_ ?]); lia. Qed.

Lemma step_large_budget y id inp r c cap a y' :
  Inv y → y_calls y !! id = Some (CLargeBudget r c cap a) →
  call_step id inp y (CLargeBudget r c cap a) = Some y' → Inv y'.
Proof.
  intros Hinv Hcall. pose proof (ow_ok _ (iv_own _ Hinv) (OCall id) _ Hcall) as Hok. cbn [call_step].
  unfold TryReserve. destruct (Z.ltb_spec (op_bytes (cf_opt (y_cfg y))) cap); cbn [orb].
  2: destruct (Z.ltb_spec (op_bytes (cf_opt (y_cfg y)) - cap) (gl_budget_used (y_gl y))).
  all: intros [= <-]; local_step.
Qed.

Lemma step_large_undo y id inp r c cap a y' :
  Inv y → y_calls y !! id = Some (CLargeUndo r c cap a) →
  call_step id inp y (CLargeUndo r c cap a) = Some y' → Inv y'.
Proof.
  intros Hinv Hcall. pose proof (large_cap _ _ _ (ow_ok _ (iv_own _ Hinv) (OCall id) _ Hcall)) as Hc.
  cbn [call_step]. intros [= <-]. apply (large_failed_step y id (CLargeUndo r c cap a)); try done; [by right|cbn in *; lia].
Qed.

Lemma after_reclaim_ok y id r c cap a i rest :
  call_ok y id (CReclaim r c cap a (RCheck i)) ∨ call_ok y id (CReclaim r c cap a (RIter i rest)) →
  call_ok y id (after_reclaim (y_cfg y) r c cap a).
Proof.
  intros Hok. assert (Hok' : admitted (y_cfg y) (y_gl y) r c ∧
    (registers (y_cfg y) r = true → writing_at y (rq_key r) = Some c) ∧
    (is_large (y_cfg y) r = true → rq_len r <= cap)) by (destruct Hok as [(?&?&?&?)|(?&?&?&?)]; done).
  destruct Hok' as (Had & Hw & Hl). unfold after_reclaim. destruct (is_large (y_cfg y) r) eqn:El.
  - split_and!; [done|apply Hw; by apply large_registers|]. split; auto.
  - assert (Hp : is_put r = true → writing_at y (rq_key r) = Some c) by (intros; apply Hw; by apply put_registers).
    destruct a; cbn [Nat.eqb]; [by split_and!|by apply fail_call_ok].
Qed.

Lemma after_reclaim_res y r c cap a :
  (∀ x, x ∈ call_res y (after_reclaim (y_cfg y) r c cap a) → x ∈ call_res y (CReclaim r c cap a (RCheck 0))) ∧
  (∀ x, tracked x = true → x ∈ call_res y (CReclaim r c cap a (RCheck 0)) →
     x ∈ call_res y (after_reclaim (y_cfg y) r c cap a)).
Proof.
  cbn [call_res]. unfold after_reclaim, fail_call, registers, is_put.
  destruct (is_large (y_cfg y) r), a, (rq_op r) eqn:Er; cbn [Nat.eqb orb app call_res]; unfold is_put; rewrite ?Er;
    split; intros x; try (destruct x); cbn; set_solver.
Qed.

Lemma after_reclaim_w cfg id r c cap a :
  budget_w id (after_reclaim cfg r c cap a) = 0 ∧ reserve_w id (after_reclaim cfg r c cap a) = 0 ∧
  ∀ k, kept_w k id (after_reclaim cfg r c cap a) = 0.
Proof. unfold after_reclaim, fail_call. destruct (is_large cfg r), a, (rq_op r); done. Qed.

(** [ReclaimLargeFor] returns without entering another shard. *)
Lemma reclaim_return y id r c cap a i :
  Inv y → y_calls y !! id = Some (CReclaim r c cap a (RCheck i)) →
  Inv (with_call id (after_reclaim (y_cfg y) r c cap a) (with_gl (λ g, g) y)).
Proof.
  intros Hinv Hcall. pose proof (ow_ok _ (iv_own _ Hinv) (OCall id) _ Hcall) as Hok.
  destruct (after_reclaim_res y r c cap a) as [R1 R2].
  destruct (after_reclaim_w (y_cfg y) id r c cap a) as (W1 & W2 & W3).
  apply (inv_local y id (CReclaim r c cap a (RCheck i)) _ (y_gl y)); try done.
  - apply (after_reclaim_ok _ _ _ _ _ _ i []). by left.
  - rewrite W1. cbn. lia.
  - rewrite W2. cbn. lia.
  - by left.
  - by left.
Qed.

Lemma malloc_failed y id r c cap :
  Inv y → y_calls y !! id = Some (CMalloc r c cap) →
  Inv (with_call id (CFail r c) (with_gl (ReleaseLargeBudget cap) y)).
Proof.
  intros Hinv Hcall. pose proof (ow_ok _ (iv_own _ Hinv) (OCall id) _ Hcall) as Hok.
  pose proof (large_cap _ _ _ Hok) as Hc. cbn in Hc. destruct Hok as (? & ? & [? _]).
  change (with_gl (ReleaseLargeBudget cap) y) with (with_gl (λ _, ReleaseLargeBudget cap (y_gl y)) y).
  local_step. split_and!; [done|by apply large_registers|done].
Qed.

(** A [WaitPut] that has ended. *)
Lemma wait_ret y r adm c p :
  Hist y → is_put r = true → wait_ok (y_gl y) r adm (Some c) → gl_compl (y_gl y) !! c = Some p →
  ret_ok (y_cfg y) (y_gl y) r (Some adm) (Some c) (RPut (if pc_success p then kOk else kIOError) kComplete).
Proof.
  intros Hh Hp (c' & E & Hk & _ & Ha) Hc. injection E as <-. unfold ret_ok, is_put in *.
  destruct (rq_op r) as [kind| |]; try done. destruct (pc_success p) eqn:Hs; [|by destruct kind, adm].
  destruct (hs_success _ Hh _ _ Hc Hs) as (n & pb & Hn & Hpc & Hev).
  assert (Hack : ∀ sync, ack_ok (y_cfg y) (y_gl y) r adm (Some c) sync); [|by destruct kind, adm; apply Hack].
  intros sync. destruct adm; cbn; try done.
  - destruct Ha as (n' & pb' & Hn' & H1 & H2 & H3 & H4). exists n', pb'. split_and!; try done; [congruence|].
    intros _. assert (n' = n) as -> by (eapply (hs_inj _ Hh); [done|done|congruence]). congruence.
  - exists n, pb. pose proof (hs_key _ Hh _ _ Hn). split_and!; try done; congruence.
Qed.

Lemma step_wait y id inp r adm c y' :
  Inv y → y_calls y !! id = Some (CWait r adm c) → call_step id inp y (CWait r adm c) = Some y' → Inv y'.
Proof.
  intros Hinv Hcall. destruct (ow_ok _ (iv_own _ Hinv) (OCall id) _ Hcall) as [Hp Hw]. cbn [call_step].
  pose proof Hw as (c' & -> & _). intros (p & Hc & E)%bind_Some. destruct (pc_done p); [|done]. injection E as <-.
  change (with_gl (λ g, g) y) with (with_gl (λ _, y_gl y) y). local_step. by apply wait_ret, Hc; [apply Hinv|..].
Qed.

Lemma step_remove_wait y id inp k c y' :
  Inv y → y_calls y !! id = Some (CRemoveWait k c) → call_step id inp y (CRemoveWait k c) = Some y' → Inv y'.
Proof.
  intros Hinv Hcall. destruct (ow_ok _ (iv_own _ Hinv) (OCall id) _ Hcall) as (c' & -> & Hf & Hk & _). cbn [call_step].
  intros (p & Hc & E)%bind_Some. destruct (pc_done p) eqn:Hd; [|done]. injection E as <-.
  change (with_gl (λ g, g) y) with (with_gl (λ _, y_gl y) y). local_step; exists c'; eauto 6.
Qed.

(** The tick moves on without entering a section. *)
Definition tick_call (call : Call) : option nat :=
  match call with
  | CTickStart i | CTickGrow i _ _ _ | CTickGate i _ | CTickReclaim i _ _ _ | CTickDone i => Some i
  | _ => None
  end.

Lemma tick_local y id call call' i :
  Inv y → y_calls y !! id = Some call → tick_call call = Some i → tick_call call' = Some i →
  (i < length (y_shards y))%nat → Inv (with_call id call' (with_gl (λ g, g) y)).
Proof.
  intros Hinv Hcall H1 H2 Hi. change (with_gl (λ g, g) y) with (with_gl (λ _, y_gl y) y).
  destruct call; try done; destruct call'; try done; cbn in H1, H2; simplify_eq; local_step.
Qed.

Lemma tick_shard y id call i :
  Inv y → y_calls y !! id = Some call → tick_call call = Some i → (∀ j, call ≠ CTickDone j) → (i < length (y_shards y))%nat.
Proof.
  intros Hinv Hcall Ht Hd. pose proof (ow_ok _ (iv_own _ Hinv) (OCall id) _ Hcall) as Hok.
  destruct call; try done; cbn in *; simplify_eq; try done. by destruct (Hd i).
Qed.

End local.
