(* ===== verification/RamEvict.v ===== *)
(** * RAM tier: evictions by the slot pool

    [EraseEvictedLocked] after a pool operation that made room: the entries it
    erases are durable and unpinned, so nothing unflushed or in use is lost. *)

From S2P Require Import Prelude KvTypes SlabTypes SlabOps SlotPool RamTypes RamOps RamInv RamFrame RamShard.
From S2P Require Import RamCall RamLocal.

Section evict.
Context {A : Type} `{SlotPoolLaws A}.
Notation Sys := (Sys A).
Notation Shard := (Shard A).
Implicit Types (y : Sys) (k : BlockKey) (sh : Shard) (g : Globals) (ev : list BlockKey).

(** ** [EraseEvictedLocked] *)

Definition evictable (e : Entry) : Prop := in_arena e = true ∧ en_durable e = true ∧ 0 <= en_cap e.

Record erased_keys ev sh g sh' g' : Prop := {
  ek_index k : sh_index sh' !! k = if decide (k ∈ ev) then None else sh_index sh !! k;
  ek_rest : sh' = set_index (λ _, sh_index sh') sh;
  ek_nodes n : gl_nodes g' !! n = gl_nodes g !! n ∨
    gl_nodes g' !! n = None ∧ ∃ k e, k ∈ ev ∧ sh_index sh !! k = Some e ∧ en_node e = n;
  ek_globals : g' = set_nodes (λ _, gl_nodes g') (set_budget_used (λ _, gl_budget_used g') g);
  ek_budget : gl_budget_used g' - msum cap_w (sh_index sh') = gl_budget_used g - msum cap_w (sh_index sh);
  ek_less : gl_budget_used g' <= gl_budget_used g;
  ek_large : msum large_w (sh_index sh') = msum large_w (sh_index sh);
  ek_dirty : msum dirty_w (sh_index sh') = msum dirty_w (sh_index sh);
  ek_objects : msum object_w (sh_index sh') = msum object_w (sh_index sh);
}.

Lemma erase_one k sh g sh' g' :
  (∀ e, sh_index sh !! k = Some e → evictable e) →
  erase_evicted_one k (sh, g) = (sh', g') → erased_keys [k] sh g sh' g'.
Proof.
  intros Hev. cbn. destruct (sh_index sh !! k) as [e|] eqn:He.
  - destruct (Hev e eq_refl) as (Ha & Hd & Hc). unfold erase_entry. unfold in_arena in Ha.
    destruct (en_large e) eqn:El; [done|]. intros [= <- <-]. cbn. split; cbn; try done.
    + intros j. case_decide as Hj; [apply list_elem_of_singleton in Hj as ->; apply lookup_delete_eq|].
      rewrite lookup_delete_ne; [done|]. set_solver.
    + intros n. destruct (decide (n = en_node e)) as [->|Hn]; [right|left; by rewrite lookup_delete_ne].
      split; [apply lookup_delete_eq|]. exists k, e. set_solver.
    + rewrite (msum_delete _ _ _ _ He). unfold cap_w at 2. lia.
    + lia.
    + rewrite (msum_delete _ _ _ _ He). unfold large_w at 2, in_arena. rewrite El. lia.
    + rewrite (msum_delete _ _ _ _ He). unfold dirty_w at 2. rewrite Hd. lia.
    + rewrite (msum_delete _ _ _ _ He). unfold object_w at 2. rewrite Hd. lia.
  - intros [= <- <-]. split; try done; try lia; [|by destruct sh|by left|by destruct g].
    intros j. case_decide as Hj; [|done]. by apply list_elem_of_singleton in Hj as ->.
Qed.

Lemma erase_evicted ev : ∀ sh g sh' g',
  (∀ k e, k ∈ ev → sh_index sh !! k = Some e → evictable e) →
  EraseEvictedLocked ev sh g = (sh', g') → erased_keys ev sh g sh' g'.
Proof.
  induction ev as [|k ev IH]; intros sh g sh' g' Hev.
  - intros [= <- <-]. split; try done; try lia; [by destruct sh|by left|by destruct g].
  - unfold EraseEvictedLocked. cbn [foldl]. destruct (erase_evicted_one k (sh, g)) as [sh1 g1] eqn:E1.
    apply erase_one in E1 as [I1 R1 N1 G1 B1 L1 La1 D1 O1]; [|intros e; apply Hev; by left].
    intros E2. apply IH in E2 as [I2 R2 N2 G2 B2 L2 La2 D2 O2].
    2:{ intros j e Hj. rewrite I1. case_decide; [done|]. apply Hev. by right. }
    split; try congruence; try lia.
    + intros j. rewrite I2, I1. repeat case_decide; try done; set_solver.
    + rewrite R2, R1. done.
    + intros n. destruct (N2 n) as [Hn|(Hn & j & e & Hj & He & Hne)].
      * destruct (N1 n) as [Hn1|(Hn1 & j & e & ->%list_elem_of_singleton & He & Hne)]; [left; congruence|].
        right. split; [congruence|]. exists k, e. split_and!; [by left|done|done].
      * right. split; [done|]. rewrite I1 in He. case_decide; [done|]. exists j, e. split_and!; [by right|done|done].
    + rewrite G2, G1. done.
Qed.

(** ** The entries a pool may evict *)

Lemma victim_idle y i sh k sl :
  Inv y → y_shards y !! i = Some sh → sh_mu sh = None →
  sp_slot (sh_alloc sh) k = Some sl → sl_pins sl = 0 →
  ∃ e, sh_index sh !! k = Some e ∧ shard_of k y = i ∧ evictable e ∧ en_send_pins e = 0 ∧
    en_flush_pin e = false ∧ en_flushing e = false ∧ en_remove_pending e = false.
Proof.
  intros Hinv Hi Hm Hsl Hp. pose proof (iv_own _ Hinv) as Hown.
  assert (Hk : shard_of k y = i) by (apply (mp_home _ (iv_maps _ Hinv) _ _ _ Hi); right; right; by rewrite Hsl).
  pose proof (here_slot y i sh Hi k Hk) as Hps. rewrite Hsl in Hps.
  destruct (ow_cover _ Hown (ResSlot k) eq_refl) as ([id|k'] & Hr); [by cbn; rewrite Hps| |].
  - exfalso. cbn in Hr. destruct (y_calls y !! id) as [call|] eqn:Hc; [|by apply elem_of_nil in Hr].
    pose proof (ow_ok _ Hown (OCall id) _ Hc) as Hok.
    assert (Hcell : ∀ r l, loc_cell y r l → lc_large l = None → k = rq_key r → False).
    { intros r l [_ Hl] El ->. rewrite El in Hl. destruct Hl as (_ & s & ref & hd & _ & Hl & _).
      rewrite Hps in Hl. by injection Hl as ->. }
    destruct call; cbn [call_res call_ok] in Hr, Hok; res_in Hr; injection Hr as ->.
    + destruct Hok as (_ & _ & _ & _ & _ & Hmu & _). unfold mu_at in Hmu. rewrite Hk, Hi in Hmu. cbn in Hmu. congruence.
    + by apply (Hcell r l); [apply Hok|..].
    + by apply (Hcell r l); [apply Hok|..].
    + by apply (Hcell r l); [apply Hok|..].
    + destruct Hok as (_ & _ & s & ref & hd & _ & Hl & _). rewrite Hps in Hl. by injection Hl as ->.
  - cbn in Hr. destruct (index_at y k') as [e|] eqn:He; [|by apply elem_of_nil in Hr].
    assert (k = k' ∧ en_large e = None) as [-> Hl].
    { unfold entry_res in Hr. res_in Hr. by injection Hr as ->. }
    rewrite (here_index y i sh Hi _ Hk) in He. exists e.
    assert (He' : index_at y k' = Some e) by (by rewrite (here_index y i sh Hi _ Hk)).
    destruct (ow_ok _ Hown (OEntry k') _ He') as [_ Hpin [F1 F2 F3 F4 F5] Hlen _ _ Hcell _].
    rewrite Hl in Hcell. destruct Hcell as (s & ref & hd & _ & Hl' & _). rewrite Hps in Hl'. simplify_eq. cbn in Hp.
    assert (en_flush_pin e = false ∧ en_send_pins e = 0) as [Hf Hs] by (destruct (en_flush_pin e); cbn in Hp; split; (done || lia)).
    assert (en_flushing e = false) as Hfl by (destruct (en_flushing e); [rewrite F2 in Hf|]; done).
    assert (en_remove_pending e = false) as Hr0.
    { destruct (en_remove_pending e); [|done]. destruct F4; [done|lia|congruence]. }
    split_and!; try done. unfold evictable, in_arena. rewrite Hl. split_and!; [done| |lia].
    destruct (en_durable e); [done|]. rewrite F3 in Hr0; done.
Qed.

(** ** A step that evicts *)

(** The pool is now [a']: the slots of [ev] are gone, and [new] is there. *)
Definition pool_after (a a' : A) ev (new : option (BlockKey * Slot)) : Prop :=
  ∀ k, sp_slot a' k = match new with
    | Some (key, sl) => if decide (k = key) then Some sl else if decide (k ∈ ev) then None else sp_slot a k
    | None => if decide (k ∈ ev) then None else sp_slot a k
    end.

Section step.
Context (y : Sys) (i : nat) (sh sh' : Shard) (a' : A) (g1 g' : Globals) (ev : list BlockKey)
  (new : option (BlockKey * Slot)) (id : nat) (call call' : Call) (m : option nat).
Hypothesis Hinv : Inv y.
Hypothesis Hi : y_shards y !! i = Some sh.
Hypothesis Hmu : sh_mu sh = None.
Hypothesis Hcall : y_calls y !! id = Some call.
Hypothesis Hwf : sp_wf a'.
Hypothesis Hopt : sp_opt a' = sp_opt (sh_alloc sh).
Hypothesis Hpool : pool_after (sh_alloc sh) a' ev new.
Hypothesis Hidle : ∀ k, k ∈ ev → ∃ sl, sp_slot (sh_alloc sh) k = Some sl ∧ sl_pins sl = 0.
Hypothesis Herase : ∃ sh1, erased_keys ev (set_alloc (λ _, a') sh) (y_gl y) sh1 g1 ∧ sh' = set_mu (λ _, m) sh1.
Hypothesis Hquiet : quiet g1 g'.
Hypothesis Hsame : gl_budget_used g' = gl_budget_used g1 ∧ gl_large_used g' = gl_large_used g1 ∧
  gl_dirty_bytes g' = gl_dirty_bytes g1 ∧ gl_dirty_objects g' = gl_dirty_objects g1.
Notation y' := (after y i sh' g' (<[id := call']> (y_calls y)) (y_hits y)).
Hypothesis Hok : call_ok y' id call'.
Hypothesis Hacq : ∀ r, r ∈ call_res y call' → r ∈ call_res y call ∨ free_res y r.
Hypothesis Hkeep : ∀ r, tracked r = true → r ∈ call_res y call → r ∈ call_res y call'.
Hypothesis Hnew : ∀ key sl, new = Some (key, sl) →
  ResSlot key ∈ call_res y call' ∧ sp_slot (sh_alloc sh) key = None ∧ shard_of key y = i.
Hypothesis Hlock : m ≠ None → ResLock i ∈ call_res y call'.
Hypothesis Hcmp : ∀ c, ResCmp c ∈ call_res y call' → ResCmp c ∈ call_res y call.
Hypothesis Hweights : budget_w id call' = budget_w id call ∧ reserve_w id call' = reserve_w id call ∧
  ∀ k, kept_w k id call' = kept_w k id call.

Lemma ev_place : same_place sh sh'.
Proof. destruct Herase as (sh1 & [_ Hr _ _ _ _ _ _ _] & ->). rewrite Hr. split; [done|exact Hopt]. Qed.

Lemma ev_fields :
  (∀ k, sh_index sh' !! k = if decide (k ∈ ev) then None else sh_index sh !! k) ∧
  sh_alloc sh' = a' ∧ sh_writing sh' = sh_writing sh ∧ sh_flushq sh' = sh_flushq sh ∧ sh_mu sh' = m.
Proof. destruct Herase as (sh1 & [Hx Hr _ _ _ _ _ _ _] & ->). cbn. rewrite Hr. done. Qed.

Lemma ev_globals :
  gl_mem g' = gl_mem (y_gl y) ∧ gl_heap g' = gl_heap (y_gl y) ∧ gl_compl g' = gl_compl (y_gl y) ∧
  gl_next g' = gl_next (y_gl y) ∧ gl_pub g' = gl_pub (y_gl y) ∧ gl_compl_key g' = gl_compl_key (y_gl y) ∧
  gl_sunk (y_gl y) ⊆ gl_sunk g' ∧ gl_fenced g' = gl_fenced (y_gl y) ∧ gl_nodes g' = gl_nodes g1.
Proof.
  destruct Herase as (sh1 & [_ _ _ Hg _ _ _ _ _] & _). destruct Hquiet as [Q1 Q2 Q3 Q4 Q5 Q6 Q7 Q8 Q9].
  rewrite Q1, Q2, Q3, Q4, Q5, Q6, Q7, Q9. rewrite Hg in Q8 |- *. done.
Qed.

Lemma ev_grows : grows (y_gl y) g'.
Proof.
  destruct ev_globals as (_ & _ & E1 & _ & E2 & E3 & E4 & E5 & _).
  split; rewrite ?E1, ?E2, ?E3, ?E5; eauto.
Qed.

Lemma ev_victim k : k ∈ ev →
  ∃ e, sh_index sh !! k = Some e ∧ shard_of k y = i ∧ evictable e ∧ en_send_pins e = 0 ∧
    en_flush_pin e = false ∧ en_flushing e = false.
Proof.
  intros Hk. destruct (Hidle k Hk) as (sl & Hsl & Hp).
  destruct (victim_idle y i sh k sl) as (e & ? & ? & ? & ? & ? & ? & _); eauto 10.
Qed.

Lemma ev_index k : index_at y' k = if decide (k ∈ ev) then None else index_at y k.
Proof.
  destruct ev_fields as (Hx & _). rewrite (after_index _ _ sh) by done. case_decide as Hk.
  - rewrite Hx. case_decide; [done|]. by rewrite (here_index y i sh).
  - case_decide as He; [|done]. by destruct (ev_victim k He) as (e & _ & ? & _).
Qed.

Definition ev_touched : list Res :=
  ResLock i :: (ResSlot <$> ev) ++ (ResFlush <$> ev) ++ (ResPin <$> ev)
  ++ omap (λ k, (λ e, ResNode (en_node e)) <$> sh_index sh !! k) ev
  ++ (if new is Some (key, _) then [ResSlot key] else []).

Lemma ev_untouched r : r ∉ ev_touched → same_res y y' r.
Proof.
  intros Hr. destruct ev_fields as (Hx & Ha & Hw & Hq & _). destruct ev_globals as (E1 & E2 & E3 & _ & E4 & _ & _ & _ & E5).
  unfold ev_touched in Hr. rewrite elem_of_cons, !elem_of_app in Hr. apply (same_after _ _ sh); [done|].
  destruct r; rewrite ?Ha, ?Hw, ?Hq, ?E1, ?E2, ?E3, ?E4; auto.
  - split; [|done]. intros _. rewrite Hpool. assert (k ∉ ev).
    { intros Hk. apply Hr. right; left. by apply list_elem_of_fmap_2. }
    destruct new as [[key sl]|]; rewrite !decide_False; try done. intros ->. apply Hr. do 5 right. by left.
  - rewrite E5. destruct Herase as (sh1 & [_ _ Hn _ _ _ _ _ _] & _).
    destruct (Hn n) as [?|(_ & k & e & Hk & He & Hne)]; [done|]. destruct Hr. do 4 right; left.
    apply list_elem_of_omap. exists k. cbn in He. rewrite He. split; [done|]. cbn. by rewrite Hne.
  - left. intros ->. apply Hr. by left.
  - intros _. rewrite Hx, decide_False; [done|]. intros Hk. apply Hr. do 2 right; left. by apply list_elem_of_fmap_2.
  - intros _. rewrite Hx, decide_False; [done|]. intros Hk. apply Hr. do 3 right; left. by apply list_elem_of_fmap_2.
Qed.

Lemma ev_touched_owned r :
  r ∈ ev_touched → held_by y (OCall id :: (OEntry <$> ev)) r ∨ free_res y r.
Proof.
  pose proof (iv_own _ Hinv) as Hown. unfold ev_touched. rewrite elem_of_cons, !elem_of_app.
  assert (Hent : ∀ k e x, k ∈ ev → sh_index sh !! k = Some e → x ∈ entry_res k e → held_by y (OCall id :: (OEntry <$> ev)) x).
  { intros k e x Hk He Hx. exists (OEntry k). split; [right; by apply list_elem_of_fmap_2|].
    destruct (ev_victim k Hk) as (e' & _ & Hs & _). cbn. by rewrite (here_index y i sh), He. }
  intros [->|[Hr|[Hr|[Hr|[Hr|Hr]]]]].
  - right. by eapply unlocked_free.
  - left. apply list_elem_of_fmap in Hr as (k & -> & Hk). destruct (ev_victim k Hk) as (e & He & _ & [Hea _] & _).
    apply (Hent k e); [done|done|]. unfold entry_res, storage_res. unfold in_arena in Hea.
    destruct (en_large e); [done|]. do 2 right. by left.
  - right. apply list_elem_of_fmap in Hr as (k & -> & Hk). destruct (ev_victim k Hk) as (e & He & Hs & _ & _ & _ & Hf).
    apply absent_free; [done|]. cbn. rewrite (here_index y i sh) by done. intros (e' & He' & ?). congruence.
  - right. apply list_elem_of_fmap in Hr as (k & -> & Hk). destruct (ev_victim k Hk) as (e & He & Hs & _ & Hp & _).
    eapply unpinned_free; [apply Hinv| |done]. by rewrite (here_index y i sh).
  - left. apply list_elem_of_omap in Hr as (k & Hk & E). destruct (sh_index sh !! k) as [e|] eqn:He; [|done].
    injection E as <-. apply (Hent k e); [done|done|by left].
  - right. destruct new as [[key sl]|]; [|by apply elem_of_nil in Hr]. apply list_elem_of_singleton in Hr as ->.
    destruct (Hnew key sl eq_refl) as (_ & Hn & Hs). apply absent_free; [done|]. cbn.
    rewrite (here_slot y i sh), Hn by done. by intros [].
Qed.

Lemma ev_gone k r : k ∈ ev → r = ResSlot k ∨ r = ResFlush k → ¬ present y' r.
Proof.
  intros Hk. destruct (ev_victim k Hk) as (e & _ & Hs & _). destruct ev_fields as (_ & Ha & _).
  intros [-> | ->]; unfold present.
  - rewrite (after_slot _ _ sh), decide_True, Ha, Hpool by done.
    destruct (Hidle k Hk) as (s0 & Hs0 & _).
    destruct new as [[key sl]|] eqn:En; [|rewrite decide_True by done; by intros []].
    destruct (Hnew key sl eq_refl) as (_ & Hn & _).
    rewrite decide_False, decide_True by (done || congruence). by intros [].
  - rewrite ev_index, decide_True by done. by intros (? & ? & _).
Qed.

(** What the evicted entries held is gone or untracked. *)
Lemma ev_lost k r : k ∈ ev → r ∈ owned y (OEntry k) → tracked r = true → ¬ present y' r.
Proof.
  intros Hk Hr Ht. destruct (ev_victim k Hk) as (e & He & Hs & [Hea _] & _). cbn in Hr.
  rewrite (here_index y i sh), He in Hr by done. unfold entry_res in Hr. unfold in_arena in Hea.
  res_in Hr; subst r; try done. destruct (en_large e); [done|]. apply (ev_gone k); auto.
Qed.

Lemma ev_owners : Owners y'.
Proof.
  assert (Hg : geo y' = geo y) by (apply (after_geo _ _ sh); [done|apply ev_place]).
  destruct ev_fields as (Hx & Ha & Hw & Hq & Hm').
  assert (Hc' : owned y' (OCall id) = call_res y call') by (cbn; rewrite lookup_insert_eq; by apply call_res_frame).
  assert (He' : ∀ k, k ∈ ev → owned y' (OEntry k) = []) by (intros k Hk; cbn; rewrite ev_index, decide_True; done).
  apply (owners_step_list y y' (OCall id :: (OEntry <$> ev)) ev_touched); try done.
  - apply Hinv.
  - apply ev_grows.
  - intros j Hj. cbn. rewrite lookup_insert_ne; [done|]. intros ->. apply Hj. by left.
  - intros k Hk. rewrite ev_index, decide_False; [done|]. intros Hin. apply Hk. right. by apply list_elem_of_fmap_2.
  - apply ev_untouched.
  - apply ev_touched_owned.
  - intros o [->|(k & -> & Hk)%list_elem_of_fmap]%elem_of_cons.
    + intros c Hc. cbn in Hc. rewrite lookup_insert_eq in Hc. by injection Hc as <-.
    + intros e. rewrite ev_index, decide_True; done.
  - intros o r [->|(k & -> & Hk)%list_elem_of_fmap]%elem_of_cons; [|rewrite He' by done; by intros ?%elem_of_nil].
    rewrite Hc'. intros Hr. destruct (Hacq r Hr) as [?|?]; [|by right]. left. exists (OCall id). split; [by left|].
    cbn. by rewrite Hcall.
  - intros o o' r [->|(k & -> & Hk)%list_elem_of_fmap]%elem_of_cons [->|(k' & -> & Hk')%list_elem_of_fmap]%elem_of_cons; try done;
      rewrite ?He' by done; by intros ? ?%elem_of_nil || by intros ?%elem_of_nil.
  - intros r Ht Hp Hr. exists (OCall id). split; [by left|]. rewrite Hc'. destruct Hr as [Hr|(o & Ho & Hr)].
    + unfold ev_touched in Hr. rewrite elem_of_cons, !elem_of_app in Hr. destruct Hr as [->|[Hr|[Hr|[Hr|[Hr|Hr]]]]].
      * unfold present in Hp. rewrite (after_mu _ _ sh), decide_True, Hm' in Hp by done. apply Hlock. by destruct Hp as [? ->].
      * apply list_elem_of_fmap in Hr as (k & -> & Hk). by apply (ev_gone k) in Hp; [|auto..].
      * apply list_elem_of_fmap in Hr as (k & -> & Hk). by apply (ev_gone k) in Hp; [|auto..].
      * by apply list_elem_of_fmap in Hr as (k & -> & Hk).
      * apply list_elem_of_omap in Hr as (k & Hk & E). destruct (sh_index sh !! k); [|done]. by injection E as <-.
      * destruct new as [[key sl]|]; [|by apply elem_of_nil in Hr]. apply list_elem_of_singleton in Hr as ->.
        by eapply Hnew.
    + apply elem_of_cons in Ho as [->|(k & -> & Hk)%list_elem_of_fmap]; [cbn in Hr; rewrite Hcall in Hr; auto|].
      by apply (ev_lost k) in Hp.
Qed.

Lemma ev_maps : Maps y'.
Proof.
  destruct ev_fields as (Hx & Ha & Hw & Hq & _). destruct (iv_maps _ Hinv) as [Hp Hh He Hqu]. split.
  - intros j s Hj. cbn in Hj. apply list_lookup_insert_Some in Hj as [(<- & <- & _)|[_ Hj]]; [by rewrite Ha|eauto].
  - intros j s k Hj Hk. rewrite (after_shard_of y i sh'). cbn in Hj.
    apply list_lookup_insert_Some in Hj as [(<- & <- & _)|[_ Hj]]; [|by apply (Hh j s)].
    rewrite Hx, Hw, Ha, Hpool in Hk. destruct Hk as [Hk|[Hk|Hk]].
    + apply (Hh _ _ _ Hi). left. case_decide; [by destruct Hk|done].
    + apply (Hh _ _ _ Hi). by right; left.
    + destruct new as [[key sl]|] eqn:En; repeat case_decide; try (by destruct Hk).
      * subst. by eapply Hnew.
      * apply (Hh _ _ _ Hi). by right; right.
      * apply (Hh _ _ _ Hi). by right; right.
  - intros k. rewrite ev_index, (after_writing _ _ sh) by done. intros Hk. destruct (decide (k ∈ ev)); [done|].
    apply He. case_decide; [|done]. rewrite Hw in Hk. by rewrite (here_writing y i sh).
  - intros j s q Hj. cbn in Hj. apply list_lookup_insert_Some in Hj as [(<- & <- & _)|[_ Hj]]; [|by apply (Hqu j)].
    rewrite Hx, Hq. intros Hin. case_decide as Hk; [|by apply (Hqu _ _ _ Hi)]. exfalso.
    destruct (ev_victim _ Hk) as (e & Hei & Hs & _ & _ & Hf & _).
    assert (Hie : index_at y (q_key q) = Some e) by (by rewrite (here_index y i sh)).
    pose proof (eo_queue _ _ _ (ow_ok _ (iv_own _ Hinv) (OEntry _) _ Hie)) as Hl.
    unfold queued in Hl. rewrite Hf, (here_queue y i sh) in Hl by done. cbn in Hl.
    apply length_zero_iff_nil in Hl. assert (Hq' : q ∈ filter (λ x, q_key x = q_key q) (sh_flushq sh))
      by (by apply list_elem_of_filter). rewrite Hl in Hq'. by apply elem_of_nil in Hq'.
Qed.

Lemma ev_hist : Hist y'.
Proof.
  destruct (iv_hist _ Hinv) as [H1 H2 H3 Hfd H4 H5]. destruct ev_globals as (_ & _ & E1 & _ & E2 & E3 & E4 & E5 & _).
  assert (Hg : geo y' = geo y) by (apply (after_geo _ _ sh); [done|apply ev_place]).
  assert (Hcan : ∀ c, canceled c g' = canceled c (y_gl y)) by (intros c; unfold canceled; by rewrite E1).
  split; cbn [after y_gl y_cfg]; rewrite ?E1, ?E2, ?E3, ?E5; try done.
  - intros c p Hp Hs. destruct (H1 c p Hp Hs) as (n & pb & ? & ? & ?). exists n, pb. split_and!; [done|done|].
    by eapply evidence_grows; [apply ev_grows|].
  - intros c j Hf Hr. rewrite Hcan. apply (H4 c j Hf). cbn in Hr |- *. destruct (decide (j = id)) as [->|Hj].
    + rewrite lookup_insert_eq, (call_res_frame y _ _ Hg) in Hr. rewrite Hcall. auto.
    + rewrite lookup_insert_ne in Hr by done. destruct (y_calls y !! j); [|done]. by rewrite (call_res_frame y _ _ Hg) in Hr.
  - intros c k e Hf. rewrite ev_index. case_decide; [done|]. eauto.
Qed.

Lemma ev_pins : Pins y'.
Proof.
  destruct (iv_pins _ Hinv) as [P1 P2] eqn:Ep. destruct Hweights as (_ & _ & Hw). split; cbn [after y_hits y_calls].
  - intros k e. rewrite ev_index. case_decide; [done|]. intros He. rewrite (msum_update _ _ _ call), Hw by done.
    rewrite (P1 _ _ He). lia.
  - intros h hit Hh. destruct (P2 _ _ Hh) as (k & e & He & Hk). exists k, e. rewrite ev_index. split; [|done].
    case_decide as Hev; [|done]. destruct (ev_victim k Hev) as (e' & He' & Hs & _ & Hz & _).
    rewrite (here_index y i sh), He' in He by done. injection He as ->.
    pose proof (hit_pinned y h hit k e (iv_pins _ Hinv) Hh ltac:(by rewrite (here_index y i sh)) Hk). lia.
Qed.

Lemma ev_sums : Sums y'.
Proof.
  destruct (iv_sums _ Hinv) as [S1 S2 S3 S4 S5 S6]. destruct Hweights as (W1 & W2 & _).
  destruct Hsame as (B1 & B2 & B3 & B4). destruct Herase as (sh1 & [_ _ _ Hg K1 K2 K3 K4 K5] & ->).
  assert (Hgl : gl_large_used g1 = gl_large_used (y_gl y) ∧ gl_dirty_bytes g1 = gl_dirty_bytes (y_gl y) ∧
    gl_dirty_objects g1 = gl_dirty_objects (y_gl y)) by (by rewrite Hg). destruct Hgl as (L1 & L2 & L3).
  split; rewrite ?(esum_after _ _ _ sh) by done; cbn [after y_gl y_calls y_cfg sh_index set_mu];
    rewrite ?(msum_update _ _ _ call) by done; cbn [sh_index set_alloc] in *; lia.
Qed.

Lemma inv_evict : Inv y'.
Proof.
  destruct ev_globals as (_ & E0 & E1 & E6 & E2 & E3 & _ & _ & E5). split.
  - rewrite (after_geo _ _ sh); [apply Hinv|done|apply ev_place].
  - apply ev_owners.
  - apply ev_maps.
  - destruct (iv_ids _ Hinv) as [I1 I2 I3 I4 I5].
    split; cbn; rewrite ?E0, ?E1, ?E2, ?E3, ?E5, ?E6; try done. intros n Hn.
    destruct Herase as (sh1 & [_ _ Hnd _ _ _ _ _ _] & _). destruct (Hnd n) as [-> |[-> _]]; auto.
  - apply ev_hist.
  - apply ev_pins.
  - apply ev_sums.
Qed.

End step.

End evict.
