(* ===== verification/RamAdmit.v ===== *)
(** * RAM tier: admission

    The critical sections of [Admit], [PutDurable] and [ReserveDurable] up to the
    copy: reserving the key, the pool's slot, the byte budget, and giving up. *)

From S2P Require Import Prelude KvTypes SlabTypes SlabOps SlotPool RamTypes RamOps RamInv RamFrame RamShard.
From S2P Require Import RamCall RamLocal RamEvict.

(** ** Completions *)

Lemma new_shared_grows key g : Ids g → grows g (new_shared key g).2.
Proof.
  intros Hid. split; cbn; try done.
  - intros c k Hc. rewrite lookup_insert_ne; [done|]. intros <-. by rewrite (id_key _ Hid) in Hc.
  - intros c p Hc. exists p. rewrite lookup_insert_ne; [done|]. intros <-. by rewrite (id_compl _ Hid) in Hc.
Qed.

Lemma new_shared_ids key g : Ids g → Ids (new_shared key g).2.
Proof. intros [H1 H2 H3 H4 H5]. split; cbn; intros n Hn; rewrite ?lookup_insert_ne by lia; [apply H1|apply H2|apply H3|apply H4|apply H5]; lia. Qed.

Lemma new_shared_pending key g :
  Ids g → (∀ n pb, gl_pub g !! n = Some pb → gl_compl_key g !! pb_completion pb = Some (pb_key pb)) →
  pending_cmp (new_shared key g).2 (gl_next g) key.
Proof.
  intros Hid Hk. split; cbn; [by rewrite lookup_insert_eq|by rewrite lookup_insert_eq|].
  intros n pb Hn E. apply Hk in Hn. rewrite E, (id_key _ Hid) in Hn; done.
Qed.

Lemma new_shared_canceled key g c : Ids g → canceled c g = true → canceled c (new_shared key g).2 = true.
Proof.
  intros Hid. apply canceled_grow. intros p Hp Hc. exists p. split; [|done]. cbn.
  rewrite lookup_insert_ne; [done|]. intros <-. by rewrite (id_compl _ Hid) in Hp.
Qed.

Lemma complete_grows c b g : grows g (CompletePut (Some c) b g).
Proof.
  split; cbn; try done. intros c' p Hp. destruct (decide (c' = c)) as [->|Hne].
  - rewrite lookup_alter_eq, Hp. eexists. split; [done|]. by intros ->.
  - rewrite lookup_alter_ne by done. eauto.
Qed.

Lemma complete_ids c b g : Ids g → Ids (CompletePut c b g).
Proof.
  intros [H1 H2 H3 H4 H5]. destruct c as [c|]; [|done]. split; cbn; try done. intros n Hn.
  destruct (decide (n = c)) as [->|?]; [by rewrite lookup_alter_eq, H1|by rewrite lookup_alter_ne, H1].
Qed.

Lemma complete_canceled c c' b g : canceled c' (CompletePut (Some c) b g) = canceled c' g.
Proof.
  unfold canceled. cbn. destruct (decide (c' = c)) as [->|Hne]; [|by rewrite lookup_alter_ne].
  rewrite lookup_alter_eq. destruct (gl_compl g !! c) as [p|]; [|done]. cbn. by destruct (pc_done p).
Qed.

Lemma complete_other c c' b g : c' ≠ c → gl_compl (CompletePut (Some c) b g) !! c' = gl_compl g !! c'.
Proof. intros Hne. cbn. by rewrite lookup_alter_ne. Qed.

Lemma complete_false_success c g c' p' :
  gl_compl (CompletePut (Some c) false g) !! c' = Some p' → pc_success p' = true →
  ∃ p, gl_compl g !! c' = Some p ∧ pc_success p = true.
Proof.
  cbn. destruct (decide (c' = c)) as [->|Hne]; [|rewrite lookup_alter_ne by done; eauto].
  rewrite lookup_alter_eq. destruct (gl_compl g !! c) as [p|]; [|done]. cbn. intros [= <-].
  destruct (pc_done p); [eauto|done].
Qed.

Section admission.
Context {A : Type} `{SlotPoolLaws A}.
Notation Sys := (Sys A).
Notation Shard := (Shard A).
Implicit Types (y : Sys) (k : BlockKey) (sh : Shard) (g : Globals).

Lemma admitted_new y r :
  Inv y → live_req (y_cfg y) r → admitted (y_cfg y) (new_shared (rq_key r) (y_gl y)).2 r (gl_next (y_gl y)).
Proof.
  intros Hinv Hl. split; [done|]. apply new_shared_pending; [apply Hinv|apply (hs_key _ (iv_hist _ Hinv))].
Qed.

Lemma fresh_cmp_free y : Inv y → free_res y (ResCmp (gl_next (y_gl y))).
Proof.
  intros Hinv. apply absent_free; [apply Hinv|]. cbn. rewrite (id_compl _ (iv_ids _ Hinv)) by done. by intros [].
Qed.

Lemma fresh_cmp_unfenced y c :
  Inv y → c ∈ gl_fenced (y_gl y) → c ≠ gl_next (y_gl y).
Proof.
  intros Hinv Hf ->. apply (hs_fenced _ (iv_hist _ Hinv)) in Hf.
  rewrite (id_compl _ (iv_ids _ Hinv)) in Hf by done. by destruct Hf.
Qed.

(** ** Reserving the key *)

Lemma start_reserved y id i sh r call' :
  Inv y → y_calls y !! id = Some (CStart r) → y_shards y !! i = Some sh → sh_mu sh = None →
  shard_of (rq_key r) y = i → sh_index sh !! rq_key r = None → sh_writing sh !! rq_key r = None →
  live_req (y_cfg y) r →
  (call' = CArena r (gl_next (y_gl y)) 0 ∧ is_put r = true ∧ is_large (y_cfg y) r = false ∨
   ∃ cap, call' = CLarge r (gl_next (y_gl y)) cap 0 ∧ large_ok (y_cfg y) r cap) →
  Inv (after y i (emplace_writing (rq_key r) (gl_next (y_gl y)) sh) (new_shared (rq_key r) (y_gl y)).2
         (<[id := call']> (y_calls y)) (y_hits y)).
Proof.
  intros Hinv Hcall Hi Hmu Hk Hx Hw Hl Hc'. pose proof (iv_own _ Hinv) as Hown. pose proof (iv_ids _ Hinv) as Hid.
  set (c := gl_next (y_gl y)) in *. set (key := rq_key r) in *.
  assert (Hsh' : emplace_writing key c sh = set_writing (<[key := c]>) sh) by (unfold emplace_writing; by rewrite Hw).
  rewrite Hsh'.
  assert (Hres : ∀ x, x ∈ call_res y call' ↔ x = ResCmp c ∨ x = ResWriting key).
  { intros x. destruct Hc' as [(-> & Hp & _)|(cap & -> & _)]; cbn [call_res]; rewrite ?Hp; list_in. }
  assert (Hw0 : budget_w id call' = 0 ∧ reserve_w id call' = 0 ∧ ∀ k, kept_w k id call' = 0)
    by (destruct Hc' as [(-> & _)|(cap & -> & _)]; done). destruct Hw0 as (W1 & W2 & W3).
  assert (Hfree : ∀ x, x = ResCmp c ∨ x = ResWriting key → free_res y x).
  { intros x [-> | ->]; [by apply fresh_cmp_free|]. apply absent_free; [done|]. cbn.
    rewrite (here_writing y i sh), Hw by done. by intros []. }
  apply (inv_call y i sh _ _ id (CStart r) call' [ResCmp c; ResWriting key; ResLock i]); try done.
  - by apply new_shared_grows.
  - intros x Hx'. apply (same_after _ _ sh); [done|]. rewrite !not_elem_of_cons in Hx'. destruct Hx' as (N1 & N2 & N3 & _).
    destruct x; cbn; auto.
    + rewrite lookup_insert_ne by (intros <-; by apply N1). auto.
    + intros _. rewrite lookup_insert_ne; [done|]. congruence.
  - intros x Hx'. right. rewrite !elem_of_cons in Hx'. destruct Hx' as [->|[->|[->|[]%elem_of_nil]]]; auto.
    by eapply unlocked_free.
  - pose proof (admitted_new y r Hinv Hl) as Had.
    assert (Hwr : writing_at (after y i (set_writing (<[key := c]>) sh) (new_shared key (y_gl y)).2
      (<[id := call']> (y_calls y)) (y_hits y)) key = Some c).
    { rewrite (after_writing _ _ sh), decide_True by done. cbn. apply lookup_insert_eq. }
    destruct Hc' as [(-> & Hp & Hnl)|(cap & -> & Hlo)]; cbn [call_ok]; by split_and!.
  - intros x Hx'%Hres. auto.
  - intros x Ht Hp [Hx'|Hx']; [|by apply elem_of_nil in Hx']. apply Hres.
    rewrite !elem_of_cons in Hx'. destruct Hx' as [->|[->|[->|[]%elem_of_nil]]]; auto.
    exfalso. unfold present in Hp. rewrite (after_mu _ _ sh), decide_True in Hp by done. cbn in Hp. rewrite Hmu in Hp. by destruct Hp.
  - apply (mp_pool _ (iv_maps _ Hinv) _ _ Hi).
  - by left.
  - intros k. cbn. destruct (decide (k = key)) as [->|Hne]; [by right|]. rewrite lookup_insert_ne by done. by left.
  - by apply new_shared_ids.
  - intros c' p'. cbn. intros [[<- <-]|[_ ?]]%lookup_insert_Some; [done|eauto].
  - by left.
  - intros c'. by apply new_shared_canceled.
  - intros c' Hf [[= ->]|?]%Hres; [|done]. by destruct (fresh_cmp_unfenced y c Hinv Hf).
  - rewrite W1. cbn. lia.
  - rewrite W2. cbn. lia.
  - by left.
  - by left.
Qed.

(** The promotions in the arena take their completion and no key yet. *)
Lemma start_unreserved y id r :
  Inv y → y_calls y !! id = Some (CStart r) → live_req (y_cfg y) r → is_put r = false →
  is_large (y_cfg y) r = false →
  Inv (with_call id (CArena r (gl_next (y_gl y)) 0) (with_gl (λ _, (new_shared (rq_key r) (y_gl y)).2) y)).
Proof.
  intros Hinv Hcall Hl Hp Hnl. pose proof (iv_ids _ Hinv) as Hid.
  destruct (y_shards y) as [|sh shs] eqn:Hsh.
  { destruct (go_shards _ (iv_geo _ Hinv)). unfold geo. by rewrite Hsh. }
  assert (Hi : y_shards y !! 0%nat = Some sh) by (by rewrite Hsh).
  set (c := gl_next (y_gl y)). set (g' := (new_shared (rq_key r) (y_gl y)).2).
  replace (with_call id (CArena r c 0) (with_gl (λ _, g') y))
    with (after y 0 sh g' (<[id := CArena r c 0]> (y_calls y)) (y_hits y)).
  2:{ unfold with_call, with_gl, after. cbn. by rewrite list_insert_id. }
  apply (inv_call y 0 sh sh g' id (CStart r) (CArena r c 0) [ResCmp c]); try done.
  - by apply new_shared_grows.
  - intros x Hx'. apply (same_after _ _ sh); [done|]. rewrite not_elem_of_cons in Hx'. destruct Hx' as [N1 _].
    destruct x; cbn; auto. rewrite lookup_insert_ne by (intros <-; by apply N1). auto.
  - intros x ->%list_elem_of_singleton. right. by apply fresh_cmp_free.
  - pose proof (admitted_new y r Hinv Hl) as Had. cbn [call_ok]. rewrite Hp. by split_and!.
  - cbn [call_res]. rewrite Hp. intros x ->%list_elem_of_singleton. right. by apply fresh_cmp_free.
  - intros x Ht _ [->%list_elem_of_singleton|[]%elem_of_nil]. by left.
  - apply (mp_pool _ (iv_maps _ Hinv) _ _ Hi).
  - by left.
  - by left.
  - by apply new_shared_ids.
  - intros c' p'. cbn. intros [[<- <-]|[_ ?]]%lookup_insert_Some; [done|eauto].
  - by left.
  - intros c'. by apply new_shared_canceled.
  - cbn [call_res]. rewrite Hp. intros c' Hf [= ->]%list_elem_of_singleton. by destruct (fresh_cmp_unfenced y c Hinv Hf).
  - cbn. lia.
  - cbn. lia.
  - by left.
  - by left.
Qed.

(** ** The pool's slot *)

(** The pool gained and lost nothing. *)
Lemma pool_unchanged y id i sh r c a a' call' :
  Inv y → y_calls y !! id = Some (CArena r c a) → y_shards y !! i = Some sh → sh_mu sh = None →
  slots_evicted (sh_alloc sh) [] a' → sp_wf a' → call' = fail_call r c →
  Inv (after y i (set_alloc (λ _, a') sh) (y_gl y) (<[id := call']> (y_calls y)) (y_hits y)).
Proof.
  intros Hinv Hcall Hi Hmu [Hs _ Ho] Hwf ->. pose proof (iv_own _ Hinv) as Hown.
  pose proof (ow_ok _ Hown (OCall id) _ Hcall) as (Had & Hnl & Hw).
  assert (Hsl : ∀ k, sp_slot a' k = sp_slot (sh_alloc sh) k) by (intros k; rewrite Hs, decide_False; [done|by intros ?%elem_of_nil]).
  assert (Hres : ∀ x, x ∈ call_res y (fail_call r c) → x ∈ call_res y (CArena r c a)).
  { intros x. unfold fail_call. destruct (rq_op r) eqn:Er; cbn [call_res]; unfold is_put; rewrite Er; list_in. }
  assert (Hgrow : grows (y_gl y) (y_gl y)) by done.
  assert (Hsame : ∀ x, x ∉ [ResLock i] → same_res y (after y i (set_alloc (λ _, a') sh) (y_gl y) (<[id := fail_call r c]> (y_calls y)) (y_hits y)) x).
  { intros x Hx. apply (same_after _ _ sh); [done|]. destruct x; cbn; auto. left. intros ->. apply Hx. by left. }
  apply (inv_call y i sh (set_alloc (λ _, a') sh) (y_gl y) id (CArena r c a) (fail_call r c) [ResLock i]); try done.
  - intros x ->%list_elem_of_singleton. right. by eapply unlocked_free.
  - eapply call_ok_frame; [by apply (after_geo _ _ sh)|done| |by apply (fail_call_ok y id)].
    intros x Hx. apply Hsame. intros ->%list_elem_of_singleton. apply Hres in Hx. cbn in Hx. res_in Hx.
  - auto.
  - intros x Ht Hp [->%list_elem_of_singleton|Hx].
    + exfalso. unfold present in Hp. rewrite (after_mu _ _ sh), decide_True in Hp by done. cbn in Hp. rewrite Hmu in Hp. by destruct Hp.
    + cbn [call_res] in Hx. unfold fail_call. unfold is_put in Hx. destruct (rq_op r) eqn:Er; cbn [call_res]; res_in Hx; subst x; try done; list_in.
  - cbn. intros k. rewrite Hsl. by left.
  - by left.
  - apply Hinv.
  - eauto.
  - by left.
  - intros c' Hf Hc. apply (hs_fence_call _ (iv_hist _ Hinv) c' id Hf). cbn. rewrite Hcall. auto.
  - intros k. unfold fail_call. by destruct (rq_op r).
  - unfold fail_call. destruct (rq_op r); cbn; lia.
  - unfold fail_call. destruct (rq_op r); cbn; lia.
  - by left.
  - by left.
Qed.

Lemma pool_placed y id i sh r c a a' ev ref h sh1 g1 :
  Inv y → y_calls y !! id = Some (CArena r c a) → y_shards y !! i = Some sh → sh_mu sh = None →
  shard_of (rq_key r) y = i → sh_index sh !! rq_key r = None →
  (is_put r = false → sh_writing sh !! rq_key r = None) →
  sp_slot (sh_alloc sh) (rq_key r) = None → sp_wf a' →
  slot_placed (sh_alloc sh) ev (rq_key r) ref h a' → rq_len r <= r_slot_size ref →
  EraseEvictedLocked ev (set_alloc (λ _, a') sh) (y_gl y) = (sh1, g1) →
  Inv (after y i (set_mu (λ _, Some id) sh1) g1 (<[id := CReserve r c a ref h]> (y_calls y)) (y_hits y)).
Proof.
  intros Hinv Hcall Hi Hmu Hk Hx Hw Hsl Hwf [Hs Hidle Ho] Hlen He. pose proof (iv_own _ Hinv) as Hown.
  destruct (ow_ok _ Hown (OCall id) _ Hcall) as (Had & Hnl & Hwr).
  apply erase_evicted in He.
  2:{ intros k e Hev Hke. destruct (Hidle k Hev) as (sl & Hsl' & Hp0).
      destruct (victim_idle y i sh k sl) as (e' & He' & _ & ? & _); try done. cbn in Hke. congruence. }
  assert (Hfree : free_res y (ResSlot (rq_key r))).
  { apply absent_free; [done|]. cbn. rewrite (here_slot y i sh), Hsl by done. by intros []. }
  set (y' := after y i (set_mu (λ _, Some id) sh1) g1 (<[id := CReserve r c a ref h]> (y_calls y)) (y_hits y)).
  pose proof (ek_rest _ _ _ _ _ He) as Hrest.
  assert (Hpl : same_place sh (set_mu (λ _, Some id) sh1)) by (rewrite Hrest; by split).
  assert (Hgeo : geo y' = geo y) by (by apply (after_geo _ _ sh)).
  assert (Hok : call_ok y' id (CReserve r c a ref h)).
  { pose proof (ek_globals _ _ _ _ _ He) as Hg. cbn [call_ok]. unfold y'. rewrite (after_shard_of y i), Hk, (there_writing _ _ sh), (there_index _ _ sh),
      (there_mu _ _ sh), (there_slot _ _ sh) by done.
    cbn [after y_cfg y_gl set_mu sh_writing sh_index sh_mu sh_alloc]. split_and!; try done.
    - destruct Had as [Hlr [P1 P2 P3]]. split; [done|]. rewrite Hg. by split.
    - intros Hp. rewrite Hrest. cbn. rewrite <- (here_writing y i sh) by done. auto.
    - intros Hp. rewrite Hrest. cbn. auto.
    - rewrite (ek_index _ _ _ _ _ He). cbn. by case_decide.
    - rewrite Hrest. cbn. rewrite Hs, decide_True; done. }
  refine (inv_evict y i sh _ a' g1 g1 ev (Some (rq_key r, mkSlot ref h 0 false)) id (CArena r c a) (CReserve r c a ref h)
    (Some id) Hinv Hi Hmu Hcall Hwf Ho Hs Hidle _ _ _ Hok _ _ _ _ _ _); try done.
  - by exists sh1.
  - intros x Hx'. cbn [call_res] in Hx' |- *. rewrite Hk in Hx'. res_in Hx'; subst x; auto; try (left; rewrite ?H1; list_in).
    all: right; by eapply unlocked_free.
  - intros x _. cbn [call_res]. rewrite Hk. intros Hx'. res_in Hx'; subst x; list_in.
  - intros key sl [= <- <-]. split_and!; [|done|done]. cbn [call_res]. list_in.
  - intros _. cbn [call_res]. rewrite Hk. list_in.
  - intros c' Hc. cbn [call_res] in Hc |- *. res_in Hc; rewrite Hc; list_in.
Qed.

(** A slot of a key that is neither published nor reserved by another call waits
    for its deferred removal. *)
Lemma slot_pending y id i sh r c a sl :
  Inv y → y_calls y !! id = Some (CArena r c a) → y_shards y !! i = Some sh → sh_mu sh = None →
  shard_of (rq_key r) y = i → sh_index sh !! rq_key r = None →
  (is_put r = false → sh_writing sh !! rq_key r = None) →
  sp_slot (sh_alloc sh) (rq_key r) = Some sl → sl_pending sl = true.
Proof.
  intros Hinv Hcall Hi Hmu Hk Hx Hw Hsl. pose proof (iv_own _ Hinv) as Hown.
  pose proof (here_slot y i sh Hi _ Hk) as Hps. rewrite Hsl in Hps.
  destruct (ow_cover _ Hown (ResSlot (rq_key r)) eq_refl) as ([j|k'] & Hr); [by cbn; rewrite Hps| |].
  2:{ cbn in Hr. destruct (index_at y k') as [e|] eqn:He; [|by apply elem_of_nil in Hr].
      unfold entry_res in Hr. res_in Hr. injection Hr as <-. rewrite (here_index y i sh) in He; congruence. }
  assert (Hwj : ∀ r' c', rq_key r = rq_key r' → writing_at y (rq_key r') = Some c' →
    ResWriting (rq_key r) ∈ owned y (OCall j) → ResSlot (rq_key r) ∈ owned y (OCall id)).
  { intros r' c' E Hwr Hj. destruct (is_put r) eqn:Hp.
    - assert (OCall j = OCall id) as Hji; [|by rewrite <- Hji]. apply (ow_unique _ Hown _ _ (ResWriting (rq_key r)) Hj).
      cbn. rewrite Hcall. cbn. rewrite Hp. list_in.
    - rewrite <- E, (here_writing y i sh), Hw in Hwr; done. }
  assert (Hno : ResSlot (rq_key r) ∉ owned y (OCall id)) by (cbn; rewrite Hcall; cbn; intros Hin; res_in Hin).
  cbn in Hr, Hwj. destruct (y_calls y !! j) as [call|] eqn:Hc; [|by apply elem_of_nil in Hr].
  pose proof (ow_ok _ Hown (OCall j) _ Hc) as Hok.
  destruct call; cbn [call_res call_ok] in Hr, Hok, Hwj; res_in Hr; injection Hr as Hr.
  - destruct Hok as (_ & _ & _ & _ & _ & Hmj & _). unfold mu_at in Hmj. rewrite <- Hr, Hk, Hi in Hmj. cbn in Hmj. congruence.
  - destruct Hno. eapply Hwj; [done|apply Hok|]. rewrite Hr. list_in.
  - destruct Hno. eapply Hwj; [done|apply Hok|]. rewrite Hr. list_in.
  - destruct Hno. eapply Hwj; [done|apply Hok|]. rewrite Hr. list_in.
  - destruct Hok as (_ & _ & s & ref & hd & _ & Hl & _). rewrite <- Hr, Hps in Hl. by injection Hl as ->.
Qed.

Lemma arena_put_inv y id i sh r c a call' sh' g' :
  Inv y → y_calls y !! id = Some (CArena r c a) → y_shards y !! i = Some sh → sh_mu sh = None →
  shard_of (rq_key r) y = i → sh_index sh !! rq_key r = None →
  (is_put r = false → sh_writing sh !! rq_key r = None) →
  arena_put id r c a sh (y_gl y) = Some (call', sh', g') →
  Inv (after y i sh' g' (<[id := call']> (y_calls y)) (y_hits y)).
Proof.
  intros Hinv Hcall Hi Hmu Hk Hx Hw. pose proof (ow_ok _ (iv_own _ Hinv) (OCall id) _ Hcall) as ([[Hreq [Hlen _]] _] & _).
  pose proof (mp_pool _ (iv_maps _ Hinv) _ _ Hi) as Hwf. unfold arena_put.
  destruct (sp_put_ok (rq_key r) (rq_len r) (sh_alloc sh) [] Hwf) as (out & a' & ev & -> & Hwf' & Ho); [lia|].
  cbn [mbind option_bind app]. destruct (sp_slot (sh_alloc sh) (rq_key r)) as [sl|] eqn:Hsl.
  - destruct out as [[ref h]|].
    + destruct Ho as (_ & _ & Hp & _). rewrite (slot_pending y id i sh r c a sl) in Hp; done.
    + destruct Ho as (-> & Hs & _). intros [= <- <- <-]. by eapply pool_unchanged.
  - destruct out as [[ref h]|].
    + destruct Ho as [Hpl [_ Hfit]].
      destruct (EraseEvictedLocked ev (set_alloc (λ _, a') sh) (y_gl y)) as [sh1 g1] eqn:He. intros [= <- <- <-].
      by eapply pool_placed.
    + destruct Ho as (-> & Hs). intros [= <- <- <-]. by eapply pool_unchanged.
Qed.

(** ** The byte budget *)

Lemma reserve_failed y id i sh r c a ref h :
  Inv y → y_calls y !! id = Some (CReserve r c a ref h) → y_shards y !! i = Some sh →
  shard_of (rq_key r) y = i →
  Inv (after y i (set_mu (λ _, None) (pool_remove (rq_key r) sh)) (y_gl y)
         (<[id := CReclaim r c (r_slot_size ref) a (RCheck 0)]> (y_calls y)) (y_hits y)).
Proof.
  intros Hinv Hcall Hi Hk. pose proof (iv_own _ Hinv) as Hown.
  destruct (ow_ok _ Hown (OCall id) _ Hcall) as (Had & Hnl & Hw & _ & _ & _ & Hsl & _).
  rewrite (here_slot y i sh) in Hsl by done. pose proof (mp_pool _ (iv_maps _ Hinv) _ _ Hi) as Hwf.
  destruct (sp_remove_ok _ _ _ Hwf Hsl) as (res & a' & E & Hwf' & [Hs' Ho']). cbn in Hs'.
  unfold pool_remove. set (sh' := set_mu (λ _, None) (set_alloc (λ a0, (sp_remove (rq_key r) a0).2) sh)).
  assert (Ha' : sh_alloc sh' = a') by (cbn; by rewrite E).
  set (call' := CReclaim r c (r_slot_size ref) a (RCheck 0)).
  assert (Hpl : same_place sh sh') by (split; [done|by rewrite Ha']).
  assert (Hres : ∀ x, x ∈ call_res y call' ↔ x = ResCmp c ∨ is_put r = true ∧ x = ResWriting (rq_key r)).
  { intros x. cbn [call_res call']. unfold registers. rewrite Hnl, orb_false_r. destruct (is_put r); rewrite elem_of_cons, elem_of_app, ?elem_of_cons, ?elem_of_nil; clear; intuition congruence. }
  assert (Hsame : ∀ x, x ∉ [ResSlot (rq_key r); ResLock i] → same_res y (after y i sh' (y_gl y) (<[id := call']> (y_calls y)) (y_hits y)) x).
  { intros x Hx. apply (same_after _ _ sh); [done|]. rewrite !not_elem_of_cons in Hx. destruct Hx as (N1 & N2 & _).
    destruct x as [k| | | | | |j| |]; auto.
    - split; [|done]. intros _. rewrite Ha', Hs', decide_False; [done|]. congruence. }
  apply (inv_call y i sh sh' (y_gl y) id (CReserve r c a ref h) call' [ResSlot (rq_key r); ResLock i]); try done.
  - intros x Hx. left. cbn [call_res]. rewrite Hk. rewrite !elem_of_cons in Hx. destruct Hx as [->|[->|[]%elem_of_nil]]; list_in.
  - eapply call_ok_frame; [by apply (after_geo _ _ sh)|done| |].
    + intros x [-> |[_ ->]]%Hres; apply Hsame; rewrite !not_elem_of_cons; split_and!; (done || by intros ?%elem_of_nil).
    + cbn [call_ok call']. unfold registers. rewrite Hnl, orb_false_r. split_and!; done.
  - intros x Hx%Hres. left. cbn [call_res]. destruct Hx as [->|[-> ->]]; list_in.
  - intros x Ht Hp Hx. apply Hres. cbn [call_res] in Hx. rewrite Hk in Hx.
    assert (x = ResSlot (rq_key r) ∨ x = ResLock i ∨ x = ResCmp c ∨ is_put r = true ∧ x = ResWriting (rq_key r)) as [-> |[-> |Hx']]; [| | |done].
    { destruct Hx as [Hx|Hx]; res_in Hx; auto. }
    + exfalso. unfold present in Hp. rewrite (there_slot _ _ sh), Ha', Hs', decide_True in Hp by done. by destruct Hp.
    + exfalso. unfold present in Hp. rewrite (there_mu _ _ sh) in Hp by done. by destruct Hp.
  - by rewrite Ha'.
  - intros k. rewrite Ha', Hs'. case_decide; [by intros []|by left].
  - by left.
  - apply Hinv.
  - eauto.
  - by left.
  - intros c' Hf Hc. apply (hs_fence_call _ (iv_hist _ Hinv) c' id Hf). cbn. rewrite Hcall.
    apply Hres in Hc as [[= ->]|[_ ?]]; [|done]. cbn. list_in.
  - cbn. lia.
  - cbn. lia.
  - by left.
  - by left.
Qed.

Lemma reserve_taken y id i sh r c a ref h call' sh' g' :
  Inv y → y_calls y !! id = Some (CReserve r c a ref h) → y_shards y !! i = Some sh → sh_mu sh = Some id →
  shard_of (rq_key r) y = i → TryReserve (y_cfg y) (r_slot_size ref) (y_gl y) = Some g' →
  reserve_section (y_cfg y) r c a ref h sh (y_gl y) = Some (call', sh', g') →
  Inv (after y i sh' g' (<[id := call']> (y_calls y)) (y_hits y)).
Proof.
  intros Hinv Hcall Hi Hmu Hk Ht. pose proof (iv_own _ Hinv) as Hown.
  destruct (ow_ok _ Hown (OCall id) _ Hcall) as (Had & Hnl & Hw & Hnw & Hx & _ & Hsl & Hlen).
  rewrite (here_slot y i sh) in Hsl by done. pose proof (mp_pool _ (iv_maps _ Hinv) _ _ Hi) as Hwf.
  destruct (sp_pin_ok _ _ _ Hwf Hsl eq_refl eq_refl) as (a' & E & Hwf' & [Hs' Ho']). cbn in Hs', E.
  unfold reserve_section. rewrite Ht.
  set (key := rq_key r) in *. set (l := mkLoc _ _ _ _ _).
  assert (Hlo : lc_offset l = slot_addr (y_cfg y) (sh_base_off sh) ref)
    by (subst l; cbn; unfold emplace_writing; by repeat case_match).
  intros [= <- <-].
  set (call' := match rq_op r with OpReserve => COpen r l | _ => CCopy r l end).
  set (sh' := set_mu (λ _, None) _).
  assert (Hf : sh_alloc sh' = a' ∧ sh_index sh' = sh_index sh ∧ sh_flushq sh' = sh_flushq sh ∧ sh_base_off sh' = sh_base_off sh ∧
    sh_mu sh' = None ∧ (∀ k, k ≠ key → sh_writing sh' !! k = sh_writing sh !! k) ∧ sh_writing sh' !! key = Some c).
  { subst sh'. rewrite (here_writing y i sh) in Hw, Hnw by done. unfold is_put, emplace_writing in *. cbn.
    destruct (rq_op r); cbn; rewrite ?E, ?Hnw by done; cbn; rewrite ?E; split_and!; try done; eauto;
      try (intros; by rewrite lookup_insert_ne); by rewrite lookup_insert_eq. }
  destruct Hf as (Ha' & Hix & Hq & Hb & Hm' & Hwo & Hwk). clearbody sh'.
  assert (Hg' : g' = set_budget_used (λ n, n + r_slot_size ref) (y_gl y) ∧
    gl_budget_used (y_gl y) + r_slot_size ref <= op_bytes (cf_opt (y_cfg y))).
  { unfold TryReserve in Ht. destruct (Z.ltb_spec (op_bytes (cf_opt (y_cfg y))) (r_slot_size ref)); [done|].
    destruct (Z.ltb_spec (op_bytes (cf_opt (y_cfg y)) - r_slot_size ref) (gl_budget_used (y_gl y))); [done|].
    injection Ht as <-. split; [done|lia]. }
  destruct Hg' as [-> Hbound].
  assert (Hres : ∀ x, x ∈ call_res y call' ↔ x = ResCmp c ∨ x = ResWriting key ∨ x = ResSlot key).
  { intros x. subst call'. destruct (rq_op r); cbn; list_in. }
  assert (Hpl : same_place sh sh') by (split; [done|by rewrite Ha']).
  set (g' := set_budget_used _ _). set (y' := after y i sh' g' (<[id := call']> (y_calls y)) (y_hits y)).
  assert (Hwfree : ResWriting key ∈ call_res y (CReserve r c a ref h) ∨ free_res y (ResWriting key)).
  { cbn [call_res]. destruct (is_put r) eqn:Hp; [left; list_in|right]. apply absent_free; [done|].
    cbn. unfold key in *. rewrite Hnw by done. by intros []. }
  assert (Hcell : loc_cell y' r l).
  { split; [done|]. split; [done|]. exists sh', ref, h. unfold y'. rewrite (there_at _ _ sh), (there_slot _ _ sh), Ha', Hs' by done.
    rewrite decide_True by done. split_and!; try done. by rewrite Hlo, Hb. }
  apply (inv_call y i sh sh' g' id (CReserve r c a ref h) call' [ResSlot key; ResLock i; ResWriting key]); try done.
  - by apply quiet_grows; split.
  - intros x Hx'. apply (same_after _ _ sh); [done|]. rewrite !not_elem_of_cons in Hx'. destruct Hx' as (N1 & N2 & N3 & _).
    destruct x as [k| | | |k| |j| |]; rewrite ?Hix, ?Hq; auto.
    + split; [|done]. intros _. rewrite Ha', Hs', decide_False; [done|]. congruence.
    + intros _. apply Hwo. congruence.
  - intros x Hx'. rewrite !elem_of_cons in Hx'. destruct Hx' as [->|[->|[->|[]%elem_of_nil]]]; [| |done];
      left; cbn [call_res]; unfold key in *; rewrite ?Hk; list_in.
  - assert (Hwr : writing_at y' key = Some c) by (unfold y'; by rewrite (there_writing _ _ sh)).
    assert (Had' : admitted (y_cfg y') (y_gl y') r c) by (destruct Had as [? [? ? ?]]; by split).
    subst call'. destruct (rq_op r) eqn:Er; cbn [call_ok]; rewrite ?Er; by split_and!.
  - intros x Hx'%Hres. destruct Hx' as [->|[->| ->]]; [left; cbn [call_res]; list_in|done|left; cbn [call_res]; list_in].
  - intros x _ Hp Hx'. apply Hres. cbn [call_res] in Hx'. unfold key in *. rewrite Hk in Hx'.
    assert (x = ResSlot (rq_key r) ∨ x = ResLock i ∨ x = ResCmp c ∨ x = ResWriting (rq_key r)) as [-> |[-> |[-> | ->]]]; auto.
    { destruct Hx' as [Hx'|Hx']; res_in Hx'; auto. }
    exfalso. unfold present, y' in Hp. rewrite (there_mu _ _ sh), Hm' in Hp by done. by destruct Hp.
  - by rewrite Ha'.
  - intros k. rewrite Ha', Hs'. case_decide as Hkk; [right; by subst k|by left].
  - intros k Hkw. destruct (decide (k = key)) as [->|Hne]; [right|left; by rewrite <- Hwo].
    split; [done|]. by rewrite <- (here_index y i sh).
  - apply (quiet_ids (y_gl y)); [by split|apply Hinv].
  - eauto.
  - by left.
  - intros c' Hf Hc. apply (hs_fence_call _ (iv_hist _ Hinv) c' id Hf). cbn. rewrite Hcall.
    apply Hres in Hc as [[= ->]|[?|?]]; [|done..]. cbn. list_in.
  - intros k. subst call'. by destruct (rq_op r).
  - assert (budget_w id call' = r_slot_size ref) as -> by (subst call'; by destruct (rq_op r)). cbn. lia.
  - assert (reserve_w id call' = 0) as -> by (subst call'; by destruct (rq_op r)). cbn. lia.
  - right. cbn. lia.
  - by left.
Qed.

End admission.
