(* ===== verification/RamMem.v ===== *)
(** * RAM tier: memory

    Where the values lie: every slot is inside the arena, slots of different keys
    are apart even across shards, and a store into one is seen by nobody else. *)

From S2P Require Import Prelude KvTypes SlabTypes SlabOps SlotPool RamTypes RamOps RamInv RamFrame RamShard.

Section mem.
Context {A : Type} `{SlotPoolLaws A}.
Notation Sys := (Sys A).
Notation Shard := (Shard A).
Implicit Types (y : Sys) (k : BlockKey) (sh : Shard) (g : Globals).

Lemma geo_shard y i sh :
  y_shards y !! i = Some sh → (geo y).2 !! i = Some (sh_base_off sh, sp_opt (sh_alloc sh)).
Proof. intros Hi. cbn. by rewrite list_lookup_fmap, Hi. Qed.

Lemma slot_bounds y k sh sl :
  geo_ok (geo y) → Maps y → at_shard y k = Some sh → pool_slot y k = Some sl →
  let a := slot_addr (y_cfg y) (sh_base_off sh) (sl_ref sl) in
  0 <= sh_base_off sh <= a ∧ a + r_slot_size (sl_ref sl) <= sh_base_off sh + span (sp_opt (sh_alloc sh)) ∧
  sh_base_off sh + span (sp_opt (sh_alloc sh)) <= cf_arena_bytes (y_cfg y) ∧ 0 < r_slot_size (sl_ref sl).
Proof.
  intros Hgeo Hmaps Hsh Hsl a. unfold pool_slot in Hsl. rewrite Hsh in Hsl. cbn in Hsl.
  pose proof (geo_shard _ _ _ Hsh) as Hg. destruct (go_extent _ Hgeo _ _ _ Hg) as [He Hpos].
  destruct (go_inside _ Hgeo _ _ _ Hg) as [Hb1 Hb2]. cbn in He, Hb2.
  destruct (sp_layout _ _ _ (mp_pool _ Hmaps _ _ Hsh) Hsl) as (_ & L2 & L3 & L4 & L5).
  subst a. unfold slot_addr, span in *. rewrite <- He in *. split_and!; nia.
Qed.

Lemma slots_apart y k k' sh sh' sl sl' :
  geo_ok (geo y) → Maps y → k ≠ k' →
  at_shard y k = Some sh → pool_slot y k = Some sl → at_shard y k' = Some sh' → pool_slot y k' = Some sl' →
  let a := slot_addr (y_cfg y) (sh_base_off sh) (sl_ref sl) in
  let a' := slot_addr (y_cfg y) (sh_base_off sh') (sl_ref sl') in
  a + r_slot_size (sl_ref sl) <= a' ∨ a' + r_slot_size (sl_ref sl') <= a.
Proof.
  intros Hgeo Hmaps Hne Hsh Hsl Hsh' Hsl' a a'.
  pose proof (slot_bounds _ _ _ _ Hgeo Hmaps Hsh Hsl) as B. pose proof (slot_bounds _ _ _ _ Hgeo Hmaps Hsh' Hsl') as B'.
  cbn zeta in B, B'. fold a in B. fold a' in B'. unfold at_shard in *.
  destruct (Nat.lt_trichotomy (shard_of k y) (shard_of k' y)) as [Hlt|[Heq|Hgt]].
  - left. pose proof (go_apart _ Hgeo _ _ _ _ _ _ Hlt (geo_shard _ _ _ Hsh) (geo_shard _ _ _ Hsh')). lia.
  - rewrite <- Heq in Hsh'. assert (sh' = sh) as -> by congruence. clear B B'.
    unfold pool_slot, at_shard in Hsl, Hsl'. rewrite <- Heq in Hsl'. rewrite Hsh in Hsl, Hsl'. cbn in Hsl, Hsl'.
    pose proof (mp_pool _ Hmaps _ _ Hsh) as Hwf. pose proof (sp_apart _ _ _ _ _ Hwf Hsl Hsl' Hne) as Hap.
    destruct (sp_layout _ _ _ Hwf Hsl) as (_ & _ & _ & L1 & L2).
    destruct (sp_layout _ _ _ Hwf Hsl') as (_ & _ & _ & L3 & L4).
    destruct (go_extent _ Hgeo _ _ _ (geo_shard _ _ _ Hsh)) as [He Hpos]. cbn in He.
    subst a a'. unfold slot_addr. rewrite <- He.
    destruct (Nat.lt_trichotomy (r_extent (sl_ref sl)) (r_extent (sl_ref sl'))) as [Hl|[He'|Hl]].
    + left. nia.
    + rewrite He'. destruct (Hap He'); lia.
    + right. nia.
  - right. pose proof (go_apart _ Hgeo _ _ _ _ _ _ Hgt (geo_shard _ _ _ Hsh') (geo_shard _ _ _ Hsh)). lia.
Qed.

(** ** Loads and stores in a slot or a buffer *)

Lemma load_arena cfg g off n :
  0 <= off → off + Z.of_nat n <= cf_arena_bytes cfg → load cfg (PArena off) n g = Some (read_bytes (gl_mem g) off n).
Proof.
  intros Hl Hr. cbn [load]. apply Z.leb_le in Hl, Hr. by rewrite Hl, Hr.
Qed.

Lemma load_heap cfg g b buf n :
  gl_heap g !! b = Some buf → (n <= length buf)%nat → load cfg (PHeap b 0) n g = Some (take n buf).
Proof.
  intros Hb Hn. cbn [load]. rewrite Hb. cbn [mbind option_bind].
  destruct (Z.leb_spec (0 + Z.of_nat n) (Z.of_nat (length buf))); [done|lia].
Qed.

Lemma take_inserts (bs buf : list Z) (n : nat) :
  length bs = n → (n <= length buf)%nat → take n (list_inserts 0 bs buf) = bs.
Proof.
  intros Hn Hl. apply list_eq. intros i. destruct (decide (i < n)%nat) as [Hi|Hi].
  - rewrite lookup_take_lt, list_lookup_inserts by lia. f_equal. lia.
  - rewrite lookup_take_ge, lookup_ge_None_2 by lia. done.
Qed.

(** The storage of [key]: its slot, or a dedicated buffer. *)
Definition cell y (key : BlockKey) (large : option nat) (off cap : Z) : Prop :=
  match large with
  | Some b => buf_cell y b cap
  | None => ∃ h pins pending, slot_cell y key off cap h pins pending
  end.

Definition cell_ptr (large : option nat) (off : Z) : Ptr :=
  match large with Some b => PHeap b 0 | None => PArena off end.

(** Without a change of the shards only memory can differ. *)
Lemma same_memory y g' calls hits r :
  g' = set_mem (λ _, gl_mem g') (set_heap (λ _, gl_heap g') (y_gl y)) →
  match r with
  | ResSlot k => ∀ sh sl a, at_shard y k = Some sh → pool_slot y k = Some sl →
      slot_addr (y_cfg y) (sh_base_off sh) (sl_ref sl) <= a
        < slot_addr (y_cfg y) (sh_base_off sh) (sl_ref sl) + r_slot_size (sl_ref sl) →
      gl_mem g' a = gl_mem (y_gl y) a
  | ResBuf b => gl_heap g' !! b = gl_heap (y_gl y) !! b
  | _ => True
  end → same_res y (mkSys (y_cfg y) (y_shards y) g' calls hits) r.
Proof.
  intros Hg Hr. set (y' := mkSys _ _ _ _ _). assert (Hat : ∀ k, at_shard y' k = at_shard y k).
  { intros k. unfold at_shard, shard_of, y'. cbn [y_shards]. reflexivity. }
  destruct r; unfold same_res, pool_slot, writing_at, queue_at, index_at; rewrite ?Hat; cbn [y' y_gl y_shards].
  - split; [reflexivity|exact Hr].
  - exact Hr.
  - rewrite Hg. split; [reflexivity|auto].
  - rewrite Hg. reflexivity.
  - reflexivity.
  - reflexivity.
  - reflexivity.
  - reflexivity.
  - reflexivity.
Qed.

(** What a store into the storage of [key] does. *)
Record stored y (key : BlockKey) (large : option nat) (off start : Z) (bs : list Z) g' : Prop := {
  sd_shape : g' = set_mem (λ _, gl_mem g') (set_heap (λ _, gl_heap g') (y_gl y));
  sd_slot : large = None → gl_heap g' = gl_heap (y_gl y);
  sd_buf b : large = Some b → gl_mem g' = gl_mem (y_gl y) ∧
    ∃ buf buf', gl_heap (y_gl y) !! b = Some buf ∧ gl_heap g' = <[b := buf']> (gl_heap (y_gl y)) ∧
      length buf' = length buf;
  sd_same r calls hits : r ≠ storage_res key large → same_res y (mkSys (y_cfg y) (y_shards y) g' calls hits) r;
  sd_low n : Z.of_nat n <= start →
    load (y_cfg y) (cell_ptr large off) n g' = load (y_cfg y) (cell_ptr large off) n (y_gl y);
  sd_read : start = 0 → load (y_cfg y) (cell_ptr large off) (length bs) g' = Some bs;
}.

Lemma store_slot y key off cap h pins pending start bs :
  geo_ok (geo y) → Maps y → slot_cell y key off cap h pins pending → 0 <= start →
  start + Z.of_nat (length bs) <= cap →
  ∃ g', store (y_cfg y) (PArena (off + start)) bs (y_gl y) = Some g' ∧ stored y key None off start bs g'.
Proof.
  intros Hgeo Hmaps (sh & ref & hd & Hsh & Hsl & -> & -> & ->) H1 H2.
  pose proof (slot_bounds _ _ _ _ Hgeo Hmaps Hsh Hsl) as B. cbn zeta in B. cbn [sl_ref] in B.
  set (a := slot_addr (y_cfg y) (sh_base_off sh) ref) in *.
  exists (set_mem (λ m, write_bytes m (a + start) bs) (y_gl y)). split.
  { cbn [store]. destruct (Z.leb_spec 0 (a + start)), (Z.leb_spec (a + start + Z.of_nat (length bs)) (cf_arena_bytes (y_cfg y))); done || lia. }
  split; try done.
  - intros r calls hits Hr. apply same_memory; [done|]. destruct r as [k| | | | | | | |]; try exact I; [|exact eq_refl].
    intros sh1 sl a1 Hsh1 Hsl1 Ha1. apply write_bytes_out. cbn [storage_res] in Hr.
    assert (Hne : k ≠ key) by congruence.
    pose proof (slots_apart _ _ _ _ _ _ _ Hgeo Hmaps Hne Hsh1 Hsl1 Hsh Hsl) as Hap. cbn zeta in Hap. cbn [sl_ref] in Hap. lia.
  - intros n Hn. cbn [cell_ptr]. rewrite !load_arena by lia. f_equal. apply read_bytes_ext. intros a1 Ha1.
    cbn. apply write_bytes_out. lia.
  - intros ->. cbn [cell_ptr]. rewrite load_arena by lia. cbn. rewrite Z.add_0_r. f_equal. apply read_write_bytes.
Qed.

Lemma store_buf y key off b cap start bs :
  buf_cell y b cap → 0 <= start → start + Z.of_nat (length bs) <= cap →
  ∃ g', store (y_cfg y) (PHeap b (0 + start)) bs (y_gl y) = Some g' ∧ stored y key (Some b) off start bs g'.
Proof.
  intros (buf & Hb & <-) H1 H2. exists (set_heap (<[b := list_inserts (Z.to_nat (0 + start)) bs buf]>) (y_gl y)). split.
  { cbn [store]. rewrite Hb. cbn [mbind option_bind].
    destruct (Z.leb_spec 0 (0 + start)), (Z.leb_spec (0 + start + Z.of_nat (length bs)) (Z.of_nat (length buf))); done || lia. }
  split; try done.
  - intros b' [= <-]. split; [done|]. eexists _, _. split_and!; [done|done|apply length_inserts].
  - intros r calls hits Hr. apply same_memory; [done|]. destruct r as [k|b'| | | | | | |]; try exact I; [auto|].
    cbn. rewrite lookup_insert_ne; [done|]. cbn in Hr. congruence.
  - intros n Hn. cbn [cell_ptr]. set (buf' := list_inserts (Z.to_nat (0 + start)) bs buf).
    rewrite (load_heap (y_cfg y) (y_gl y) b buf) by (done || lia).
    rewrite (load_heap (y_cfg y) (set_heap (<[b := buf']>) (y_gl y)) b buf').
    + f_equal. apply list_eq. intros i. destruct (decide (i < n)%nat); [|by rewrite !lookup_take_ge by lia].
      rewrite !lookup_take_lt by lia. unfold buf'. rewrite list_lookup_inserts_lt; [done|lia].
    + cbn. apply lookup_insert_eq.
    + unfold buf'. rewrite length_inserts. lia.
  - intros ->. cbn [cell_ptr]. rewrite (load_heap _ _ b (list_inserts (Z.to_nat (0 + 0)) bs buf)).
    + f_equal. change (Z.to_nat (0 + 0)) with 0%nat. apply take_inserts; [done|lia].
    + cbn. apply lookup_insert_eq.
    + rewrite length_inserts. lia.
Qed.

Lemma store_cell y key large off cap start bs :
  geo_ok (geo y) → Maps y → cell y key large off cap → 0 <= start → start + Z.of_nat (length bs) <= cap →
  ∃ g', store (y_cfg y) (ptr_add (cell_ptr large off) start) bs (y_gl y) = Some g' ∧
    stored y key large off start bs g'.
Proof.
  intros Hgeo Hmaps Hc. destruct large as [b|]; cbn [cell_ptr ptr_add].
  - by apply store_buf.
  - destruct Hc as (h & pins & pending & Hc). by eapply store_slot.
Qed.

End mem.
