(* ===== verification/RamEntry.v ===== *)
(** * RAM tier: steps on one entry

    The invariant over a step that changes or erases the published entry of one
    key, with the call that takes the step, if one does. *)

From S2P Require Import Prelude KvTypes SlabTypes SlabOps SlotPool RamTypes RamOps RamInv RamFrame RamShard.
From S2P Require Import RamCall.

(** The call that takes the step: its identifier, its program points before and
    after. *)
Definition Move : Type := option (nat * Call * Call).

Definition moved (mv : Move) (calls : gmap nat Call) : gmap nat Call :=
  match mv with Some (id, _, call') => <[id := call']> calls | None => calls end.

Definition mover (mv : Move) : list Owner := match mv with Some (id, _, _) => [OCall id] | None => [] end.

(** By how much a weight of the call grows. *)
Definition mv_sum (f : nat → Call → Z) (mv : Move) : Z :=
  match mv with Some (id, call, call') => f id call' - f id call | None => 0 end.

(** What never changes of a published entry. *)
Definition static (e : Entry) : BlockKey * Z * Z * Z * option nat * option nat * option nat * nat :=
  (en_key e, en_offset e, en_len e, en_cap e, en_slot_handle e, en_large e, en_completion e, en_node e).

Lemma static_hit e e' hit : static e' = static e → hit_ok e hit → hit_ok e' hit.
Proof.
  intros E. injection E as E1 E2 E3 E4 E5 E6 E7 E8. unfold hit_ok, entry_data, in_arena. by rewrite E2, E3, E6, E8.
Qed.

Lemma static_res k e e' : static e' = static e → entry_res k e' = entry_res k e.
Proof. intros E. injection E as E1 E2 E3 E4 E5 E6 E7 E8. unfold entry_res. by rewrite E6, E7, E8. Qed.

Section entry.
Context {A : Type} `{SlotPoolLaws A}.
Notation Sys := (Sys A).
Notation Shard := (Shard A).
Implicit Types (y : Sys) (k : BlockKey) (sh : Shard) (g : Globals) (e : Entry) (mv : Move).

Definition held_old y mv : list Res := match mv with Some (_, call, _) => call_res y call | None => [] end.
Definition held_new y mv : list Res := match mv with Some (_, _, call') => call_res y call' | None => [] end.

Definition mv_from y mv : Prop := match mv with Some (id, call, _) => y_calls y !! id = Some call | None => True end.
Definition mv_to y mv : Prop := match mv with Some (id, _, call') => call_ok y id call' | None => True end.

Lemma msum_moved f y mv : mv_from y mv → msum f (moved mv (y_calls y)) = msum f (y_calls y) + mv_sum f mv.
Proof. destruct mv as [[[id call] call']|]; cbn; [intros Hc; rewrite (msum_update _ _ _ call) by done|]; lia. Qed.

Lemma held_old_owned y mv r : mv_from y mv → r ∈ held_old y mv ↔ held_by y (mover mv) r.
Proof.
  intros Hm. unfold held_by. destruct mv as [[[id call] call']|]; cbn in *.
  - setoid_rewrite list_elem_of_singleton. split; [|intros (o & -> & Hr); cbn in Hr; by rewrite Hm in Hr].
    intros Hr. exists (OCall id). cbn. by rewrite Hm.
  - split; [by intros ?%elem_of_nil|intros (o & ?%elem_of_nil & _); done].
Qed.

(** What a step may change of the shard and the shared state around entry [e] of
    [k], which becomes [oe']. *)
Record shard_changed y (i : nat) k e (oe' : option Entry) mv sh sh' : Prop := {
  sc_place : same_place sh sh';
  sc_wf : sp_wf (sh_alloc sh');
  sc_slots j : j ≠ k → sp_slot (sh_alloc sh') j = sp_slot (sh_alloc sh) j;
  sc_large : en_large e ≠ None → sp_slot (sh_alloc sh') k = sp_slot (sh_alloc sh) k;
  sc_index : sh_index sh' = match oe' with Some e' => <[k := e']> (sh_index sh) | None => delete k (sh_index sh) end;
  sc_writing : sh_writing sh' = sh_writing sh;
  sc_queue j : j ≠ k → filter (λ q, q_key q = j) (sh_flushq sh') = filter (λ q, q_key q = j) (sh_flushq sh);
  sc_lock : sh_mu sh' ≠ None → ResLock i ∈ held_new y mv;
}.

Record globals_changed (cfg : Config) e (oe' : option Entry) g g' : Prop := {
  gc_mem : gl_mem g' = gl_mem g;
  gc_heap b : en_large e ≠ Some b → gl_heap g' !! b = gl_heap g !! b;
  gc_nodes n : n ≠ en_node e → gl_nodes g' !! n = gl_nodes g !! n;
  gc_compl c : en_completion e ≠ Some c → gl_compl g' !! c = gl_compl g !! c;
  gc_pub : gl_pub g' = gl_pub g;
  gc_key : gl_compl_key g' = gl_compl_key g;
  gc_sunk : gl_sunk g ⊆ gl_sunk g';
  gc_next : gl_next g' = gl_next g;
  gc_grow c p : gl_compl g !! c = Some p → ∃ p', gl_compl g' !! c = Some p' ∧
    (pc_done p = true → cmp_view p' = cmp_view p) ∧ (pc_canceled p = true → pc_canceled p' = true);
  gc_success c p' : gl_compl g' !! c = Some p' → pc_success p' = true →
    (∃ p, gl_compl g !! c = Some p ∧ pc_success p = true) ∨
    en_completion e = Some c ∧ ∃ pb, gl_pub g !! en_node e = Some pb ∧ evidence cfg g pb;
  gc_fenced : ∃ F, gl_fenced g' = gl_fenced g ++ F ∧
    ∀ c, c ∈ F → en_completion e = Some c ∧ ∀ e', oe' = Some e' → en_remove_pending e' = true;
  gc_budget : gl_budget_used g' <= gl_budget_used g;
  gc_large : gl_large_used g' <= gl_large_used g;
}.

(** [e] becomes [e']. *)
Record entry_changed k e e' sh sh' g g' : Prop := {
  ec_static : static e' = static e;
  ec_pins : 0 <= en_send_pins e';
  ec_flags : flags_ok e';
  ec_view c : en_completion e = Some c →
    cmp_view <$> gl_compl g' !! c = Some (negb (en_flush_pin e'), en_durable e');
  ec_slot sl : en_large e = None → sp_slot (sh_alloc sh) k = Some sl →
    sp_slot (sh_alloc sh') k = Some (set_pins (en_send_pins e' + Z.b2z (en_flush_pin e')) sl);
  ec_buf b : en_large e = Some b → gl_heap g' !! b = gl_heap g !! b;
  ec_node : gl_nodes g' !! en_node e = gl_nodes g !! en_node e;
  ec_queue : length (filter (λ q, q_key q = k) (sh_flushq sh')) = if queued e' then 1%nat else 0%nat;
  ec_removing : en_remove_pending e = true → en_remove_pending e' = true;
}.

(** [e] is erased. *)
Record entry_erased y k e mv sh' g' (hits' : gmap nat Hit) : Prop := {
  ee_slot : en_large e = None → sp_slot (sh_alloc sh') k = None;
  ee_buf b : en_large e = Some b → gl_heap g' !! b = None;
  ee_queue q : q ∈ sh_flushq sh' → q_key q ≠ k;
  ee_pin : ResPin k ∈ held_old y mv ∨ free_res y (ResPin k);
  ee_hits : msum (hit_w (en_node e)) hits' = 0;
}.

Section step.
Context (y : Sys) (i : nat) (sh sh' : Shard) (g' : Globals) (hits' : gmap nat Hit) (mv : Move)
  (k : BlockKey) (e : Entry) (oe' : option Entry) (fl : bool).
Notation y' := (after y i sh' g' (moved mv (y_calls y)) hits').
Hypothesis Hinv : Inv y.
Hypothesis Hi : y_shards y !! i = Some sh.
Hypothesis Hk : shard_of k y = i.
Hypothesis Hx : sh_index sh !! k = Some e.
Hypothesis Hfrom : mv_from y mv.
Hypothesis Hto : mv_to y' mv.
Hypothesis Hsc : shard_changed y i k e oe' mv sh sh'.
Hypothesis Hgc : globals_changed (y_cfg y) e oe' (y_gl y) g'.
Hypothesis Hent : match oe' with
  | Some e' => entry_changed k e e' sh sh' (y_gl y) g'
  | None => fl = true ∧ entry_erased y k e mv sh' g' hits'
  end.
(* the mutex, and the flush in progress *)
Hypothesis Hlock : sh_mu sh = None ∨ ResLock i ∈ held_old y mv.
Hypothesis Hflush : if fl then
    (ResFlush k ∈ held_old y mv ∨ free_res y (ResFlush k)) ∧
    (∀ e', oe' = Some e' → en_flushing e' = true → ResFlush k ∈ held_new y mv)
  else flush_view <$> oe' = Some (flush_view e).
(* what the call gains and loses *)
Hypothesis Hacq : ∀ r, r ∈ held_new y mv → r ∈ held_old y mv ∨ free_res y r.
Hypothesis Hkeep : ∀ r, tracked r = true → r ∈ held_old y mv → r = ResLock i ∨ r = ResFlush k ∨ r ∈ held_new y mv.
Hypothesis Hcmp : ∀ c, ResCmp c ∈ held_new y mv → ResCmp c ∈ held_old y mv.
Hypothesis Hflk : fl = false → ResFlush k ∈ held_old y mv → ResFlush k ∈ held_new y mv.
(* pins *)
Hypothesis Hhits_ne : ∀ n, n ≠ en_node e → msum (hit_w n) hits' = msum (hit_w n) (y_hits y).
Hypothesis Hkept_ne : ∀ j, j ≠ k → mv_sum (kept_w j) mv = 0.
Hypothesis Hcount : ∀ e', oe' = Some e' →
  en_send_pins e' - en_send_pins e
  = msum (hit_w (en_node e)) hits' - msum (hit_w (en_node e)) (y_hits y) + mv_sum (kept_w k) mv.
Hypothesis Hhits : ∀ h hit, hits' !! h = Some hit → y_hits y !! h = Some hit ∨ hit_ok e hit ∧ oe' ≠ None.
(* accounts *)
Hypothesis Hbudget : gl_budget_used g' - gl_budget_used (y_gl y)
  = mv_sum budget_w mv - en_cap e + from_option en_cap 0 oe'.
Hypothesis Hlarge : gl_large_used g' - gl_large_used (y_gl y)
  = mv_sum reserve_w mv - large_w k e + from_option (large_w k) 0 oe'.
Hypothesis Hdirty : gl_dirty_bytes g' - gl_dirty_bytes (y_gl y) = from_option (dirty_w k) 0 oe' - dirty_w k e.
Hypothesis Hobjects : gl_dirty_objects g' - gl_dirty_objects (y_gl y) = from_option (object_w k) 0 oe' - object_w k e.

Lemma en_index j : index_at y' j = if decide (j = k) then oe' else index_at y j.
Proof.
  revert Hi Hk Hsc. clear. intros Hi Hk Hsc.
  rewrite (after_index _ _ sh) by done. rewrite (sc_index _ _ _ _ _ _ _ _ Hsc). case_decide as Hj.
  - rewrite (here_index y i sh) by done. case_decide as Hjk.
    + subst j. destruct oe'; [apply lookup_insert_eq|apply lookup_delete_eq].
    + destruct oe'; [by rewrite lookup_insert_ne|by rewrite lookup_delete_ne].
  - rewrite decide_False; [done|]. by intros ->.
Qed.

Lemma en_old : index_at y k = Some e.
Proof. by rewrite (here_index y i sh). Qed.

Lemma en_ok : entry_ok y k e.
Proof. apply (ow_ok _ (iv_own _ Hinv) (OEntry k)), en_old. Qed.

Lemma en_grows : grows (y_gl y) g'.
Proof.
  destruct Hgc as [_ _ _ _ E1 E2 E3 _ Hg _ (F & E4 & _) _ _]. split; rewrite ?E1, ?E2, ?E4; try done.
  - intros c Hc. apply elem_of_app. by left.
  - intros c p Hp. destruct (Hg c p Hp) as (p' & ? & ? & _). eauto.
Qed.

Lemma en_geo : geo y' = geo y.
Proof. apply (after_geo _ _ sh); [done|apply Hsc]. Qed.

Definition en_touched : list Res :=
  ResLock i :: entry_res k e ++ (if fl then [ResFlush k] else []) ++ (if oe' is None then [ResPin k] else []).

Lemma en_untouched r : r ∉ en_touched → same_res y y' r.
Proof.
  intros Hr. unfold en_touched, entry_res in Hr. rewrite elem_of_cons, !elem_of_app in Hr.
  destruct Hsc as [_ _ Hsl Hlg Hsi Hw Hq _]. destruct Hgc as [G1 G2 G3 G4 G5 _ _ _ _ _ _ _ _].
  assert (Hother : ∀ j, j ≠ k → sh_index sh' !! j = sh_index sh !! j).
  { intros j Hj. rewrite Hsi. destruct oe'; [by rewrite lookup_insert_ne|by rewrite lookup_delete_ne]. }
  assert (Hmine : sh_index sh' !! k = oe').
  { rewrite Hsi. destruct oe'; [apply lookup_insert_eq|apply lookup_delete_eq]. }
  apply (same_after _ _ sh); [done|]. destruct r as [j|b|c|n|j|j|j|j|j]; rewrite ?Hw, ?G5.
  - split; [|by intros; rewrite G1]. intros _. destruct (decide (j = k)) as [->|Hj]; [|auto].
    apply Hlg. intros El. apply Hr. right; left; left. rewrite El. cbn. list_in.
  - apply G2. intros El. apply Hr. right; left; left. rewrite El. cbn. list_in.
  - rewrite G4; [auto|]. intros Ec. apply Hr. right; left; right. rewrite Ec. list_in.
  - apply G3. intros ->. apply Hr. right; left; left. list_in.
  - auto.
  - intros _. apply Hq. intros ->. apply Hr. right; left; left. list_in.
  - left. intros ->. apply Hr. by left.
  - intros _. destruct (decide (j = k)) as [->|Hj]; [|by rewrite Hother]. rewrite Hmine, Hx. destruct fl; [|done].
    exfalso. apply Hr. right; right; left. list_in.
  - intros _. destruct (decide (j = k)) as [->|Hj]; [|by rewrite Hother]. rewrite Hmine, Hx. destruct oe' as [e'|].
    + pose proof (ec_static _ _ _ _ _ _ _ Hent) as E. injection E as E1 E2 E3 E4 E5 E6 E7 E8. cbn. unfold in_arena. by rewrite E6.
    + exfalso. apply Hr. right; right; right. list_in.
Qed.

Lemma en_held r : r ∈ held_old y mv ∨ r ∈ entry_res k e ↔ held_by y (OEntry k :: mover mv) r.
Proof.
  rewrite held_old_owned by done. unfold held_by. split.
  - intros [(o & Ho & Hr)|Hr]; [exists o; split; [by right|done]|]. exists (OEntry k). split; [by left|]. cbn [owned]. by rewrite en_old.
  - intros (o & [->|Ho]%elem_of_cons & Hr); [right|left; eauto]. cbn [owned] in Hr. by rewrite en_old in Hr.
Qed.

Lemma en_touched_owned r : r ∈ en_touched → held_by y (OEntry k :: mover mv) r ∨ free_res y r.
Proof.
  rewrite <- en_held. unfold en_touched. rewrite elem_of_cons, !elem_of_app. intros [->|[Hr|[Hr|Hr]]].
  - destruct Hlock as [Hm|?]; [|auto]. right. eapply unlocked_free; [apply Hinv|done|done].
  - auto.
  - destruct fl; [|by apply elem_of_nil in Hr]. apply list_elem_of_singleton in Hr as ->. destruct Hflush as [[?|?] _]; auto.
  - destruct oe' as [e'|]; [by apply elem_of_nil in Hr|]. apply list_elem_of_singleton in Hr as ->.
    destruct Hent as [_ [_ _ _ [?|?] _]]; auto.
Qed.

Lemma en_new_res : owned y' (OEntry k) = match oe' with Some _ => entry_res k e | None => [] end.
Proof.
  cbn [owned]. rewrite en_index, decide_True by done. destruct oe' as [e'|]; [|done].
  apply static_res, (ec_static _ _ _ _ _ _ _ Hent).
Qed.

Lemma en_mover_new o r : o ∈ mover mv → r ∈ owned y' o ↔ r ∈ held_new y mv.
Proof.
  pose proof en_geo as Hg. revert Hg. clear. destruct mv as [[[id call] call']|]; cbn [mover]; [|by intros _ ?%elem_of_nil].
  intros Hg ->%list_elem_of_singleton. cbn. rewrite lookup_insert_eq. by rewrite (call_res_frame y _ _ Hg).
Qed.

Lemma en_calls c id : ResCmp c ∈ owned y' (OCall id) → ResCmp c ∈ owned y (OCall id).
Proof.
  pose proof en_geo as Hg. revert Hg Hcmp Hfrom. clear. cbn. destruct mv as [[[id' call] call']|]; cbn.
  - intros Hg Hcmp Hfrom. destruct (decide (id = id')) as [->|Hne].
    + rewrite lookup_insert_eq, Hfrom, (call_res_frame y _ _ Hg). apply Hcmp.
    + rewrite lookup_insert_ne by done. destruct (y_calls y !! id); [|done]. by rewrite (call_res_frame y _ _ Hg).
  - intros Hg _ _. destruct (y_calls y !! id); [|done]. by rewrite (call_res_frame y _ _ Hg).
Qed.

Lemma en_mover_in r : r ∈ held_new y mv → ∃ o, o ∈ mover mv ∧ r ∈ owned y' o.
Proof.
  intros Hr. assert (∃ o, o ∈ mover mv) as (o & Ho).
  { destruct mv as [[[id call] call']|]; cbn in *; [exists (OCall id); list_in|by apply elem_of_nil in Hr]. }
  exists o. by rewrite en_mover_new.
Qed.

Lemma en_entry_ok e' : oe' = Some e' → entry_ok y' k e'.
Proof.
  intros He'. rewrite He' in Hent. destruct Hent as [Est Hp Hf Hv Hsl Hb Hn Hq _].
  destruct en_ok as [K1 K2 K3 K4 (c & bytes & dur & C1 & C2 & C3 & C4 & C5 & C6) K6 K7 K8].
  pose proof Est as E. injection E as E1 E2 E3 E4 E5 E6 E7 E8.
  assert (Hcell : match en_large e with
    | Some b => buf_cell y' b (en_cap e)
    | None => slot_cell y' k (en_offset e) (en_cap e) (en_slot_handle e) (en_send_pins e' + Z.b2z (en_flush_pin e')) false
    end).
  { destruct (en_large e) as [b|] eqn:El.
    - eapply buf_cell_frame; [|done]. cbn. by apply Hb.
    - destruct K7 as (s & ref & hd & Hs & Hps & -> & -> & ->). rewrite (after_home y i sh Hi k Hk) in Hs. injection Hs as <-.
      rewrite (here_slot y i sh) in Hps by done. exists sh', ref, hd.
      rewrite (there_at _ _ sh), (there_slot _ _ sh), (Hsl _ eq_refl Hps) by done. split_and!; try done. cbn.
      by rewrite (sp_base _ _ (sc_place _ _ _ _ _ _ _ _ Hsc)). }
  split; rewrite ?E1, ?E3, ?E4, ?E5, ?E6, ?E8; try done.
  - exists c, bytes, dur. rewrite E7. unfold entry_data. rewrite E2, E6. cbn [after y_gl y_cfg].
    rewrite (gc_key _ _ _ _ _ Hgc), (gc_pub _ _ _ _ _ Hgc). split_and!; try done; [by apply Hv|].
    rewrite <- C6. unfold entry_data. destruct (en_large e) as [b|] eqn:El; unfold load.
    + by rewrite Hb.
    + by rewrite (gc_mem _ _ _ _ _ Hgc).
  - cbn [after y_gl]. by rewrite Hn.
  - by rewrite E2.
  - by rewrite (there_queue _ _ sh).
Qed.

Lemma en_lost r : oe' = None → r ∈ entry_res k e → tracked r = true → present y' r → False.
Proof.
  intros He' Hr Ht Hp. rewrite He' in Hent. destruct Hent as [_ [Hs Hb _ _ _]].
  unfold entry_res in Hr. rewrite elem_of_app, !elem_of_cons in Hr.
  destruct Hr as [[->|[->|[->|[]%elem_of_nil]]]|Hr]; [done|done| |destruct (en_completion e); res_in Hr; by subst r].
  unfold storage_res in Hp. destruct (en_large e) as [b|].
  - unfold present in Hp. cbn [after y_gl] in Hp. rewrite (Hb b eq_refl) in Hp. by destruct Hp.
  - unfold present in Hp. rewrite (there_slot _ _ sh), (Hs eq_refl) in Hp by done. by destruct Hp.
Qed.

Lemma en_owners : Owners y'.
Proof.
  pose proof (iv_own _ Hinv) as Hown.
  assert (Hnew : ∀ o r, o ∈ mover mv → r ∈ owned y' o → r ∈ held_new y mv) by (intros o r Ho; by rewrite en_mover_new).
  assert (Hdis : ∀ r, r ∈ held_new y mv → r ∉ entry_res k e).
  { intros r Hr He. assert (Hin : r ∈ owned y (OEntry k)) by (cbn [owned]; by rewrite en_old).
    destruct (Hacq r Hr) as [Ho|Hf]; [|by apply (Hf (OEntry k))].
    rewrite held_old_owned in Ho by done. destruct Ho as (o & Ho & Hro).
    pose proof (ow_unique _ Hown _ _ _ Hro Hin) as ->. destruct mv as [[[id call] call']|]; cbn in Ho; res_in Ho. }
  apply (owners_step_list y y' (OEntry k :: mover mv) en_touched); try done.
  - apply en_geo.
  - apply en_grows.
  - intros id Hid. cbn. destruct mv as [[[id' call] call']|]; cbn in *; [|done]. rewrite lookup_insert_ne; [done|].
    intros <-. apply Hid. list_in.
  - intros j Hj. rewrite en_index, decide_False; [done|]. intros ->. apply Hj. by left.
  - apply en_untouched.
  - apply en_touched_owned.
  - intros o [->|Ho]%elem_of_cons.
    + intros e'. rewrite en_index, decide_True by done. apply en_entry_ok.
    + destruct mv as [[[id call] call']|]; cbn in *; [|by apply elem_of_nil in Ho]. apply list_elem_of_singleton in Ho as ->.
      intros c Hc. cbn in Hc. rewrite lookup_insert_eq in Hc. by injection Hc as <-.
  - intros o r [->|Ho]%elem_of_cons Hr.
    + rewrite en_new_res in Hr. left. rewrite <- en_held. right. by destruct oe'; [|apply elem_of_nil in Hr].
    + rewrite <- en_held. destruct (Hacq r (Hnew o r Ho Hr)); auto.
  - intros o o' r Ho Ho' Hr Hr'. apply elem_of_cons in Ho as [->|Ho], Ho' as [->|Ho'].
    + done.
    + rewrite en_new_res in Hr. destruct oe'; [|by apply elem_of_nil in Hr]. by destruct (Hdis r (Hnew _ _ Ho' Hr')).
    + rewrite en_new_res in Hr'. destruct oe'; [|by apply elem_of_nil in Hr']. by destruct (Hdis r (Hnew _ _ Ho Hr)).
    + destruct mv as [[[id call] call']|]; cbn in *; [|by apply elem_of_nil in Ho].
      by apply list_elem_of_singleton in Ho as ->; apply list_elem_of_singleton in Ho' as ->.
  - intros r Ht Hp Hr. rewrite <- en_held in Hr.
    assert (Hgo : r ∈ held_new y mv → held_by y' (OEntry k :: mover mv) r).
    { intros Hn. destruct (en_mover_in r Hn) as (o & Ho & ?). exists o. split; [by right|done]. }
    assert (Hen : r ∈ entry_res k e → held_by y' (OEntry k :: mover mv) r).
    { intros Hn. pose proof (λ E, en_lost r E Hn Ht Hp) as Hno. exists (OEntry k). split; [by left|].
      rewrite en_new_res. by destruct oe'; [|destruct Hno]. }
    assert (Hlk : r = ResLock i → held_by y' (OEntry k :: mover mv) r).
    { intros ->. apply Hgo, Hsc. unfold present in Hp. rewrite (there_mu _ _ sh) in Hp by done. by destruct Hp as [? ->]. }
    assert (Hfl : fl = true → r = ResFlush k → held_by y' (OEntry k :: mover mv) r).
    { intros Hfl ->. pose proof Hflush as Hfu. rewrite Hfl in Hfu. destruct Hfu as [_ Hf]. apply Hgo. destruct Hp as (e' & He' & Hfe).
      rewrite en_index, decide_True in He' by done. eauto. }
    destruct Hr as [Hr|[Hr|Hr]]; [|destruct (Hkeep r Ht Hr) as [?|[Hf|?]]; auto|auto].
    + unfold en_touched in Hr. rewrite elem_of_cons, !elem_of_app in Hr. destruct Hr as [?|[?|[Hr|Hr]]]; auto.
      * destruct fl; [|by apply elem_of_nil in Hr]. apply list_elem_of_singleton in Hr. auto.
      * destruct oe'; [by apply elem_of_nil in Hr|]. by apply list_elem_of_singleton in Hr as ->.
    + subst r. destruct fl eqn:Efl; auto.
Qed.

Lemma en_maps : Maps y'.
Proof.
  destruct (iv_maps _ Hinv) as [Hp Hh He Hqu]. destruct Hsc as [_ Hwf Hsl Hlg Hsi Hw Hq _].
  assert (Hslots : ∀ j, is_Some (sp_slot (sh_alloc sh') j) → shard_of j y = i).
  { intros j Hj. destruct (decide (j = k)) as [->|Hne]; [done|]. rewrite Hsl in Hj by done. apply (Hh _ _ _ Hi). by right; right. }
  split.
  - intros j s Hj. cbn in Hj. apply list_lookup_insert_Some in Hj as [(<- & <- & _)|[_ Hj]]; eauto.
  - intros j s k' Hj Hk'. rewrite (after_shard_of y i sh'). cbn in Hj.
    apply list_lookup_insert_Some in Hj as [(<- & <- & _)|[_ Hj]]; [|by apply (Hh j s)].
    destruct Hk' as [Hk'|[Hk'|Hk']]; [|rewrite Hw in Hk'; apply (Hh _ _ _ Hi); by right; left|by apply Hslots].
    destruct (decide (k' = k)) as [->|Hne]; [done|]. apply (Hh _ _ _ Hi). left. rewrite Hsi in Hk'.
    destruct oe'; [by rewrite lookup_insert_ne in Hk'|by rewrite lookup_delete_ne in Hk'].
  - intros j. rewrite en_index, (after_writing _ _ sh), Hw by done. intros Hj. assert (Hwj : is_Some (writing_at y j)).
    { case_decide; [by rewrite (here_writing y i sh)|done]. }
    rewrite decide_False; [auto|]. intros ->. specialize (He k Hwj). by rewrite en_old in He.
  - intros j s q Hj. cbn in Hj. apply list_lookup_insert_Some in Hj as [(<- & <- & _)|[_ Hj]]; [|by apply (Hqu j)].
    intros Hin. destruct (decide (q_key q = k)) as [Hqk|Hqk].
    + rewrite Hqk, Hsi. destruct oe' as [e'|]; [by rewrite lookup_insert_eq|].
      destruct Hent as [_ [_ _ Hno _ _]]. by destruct (Hno q Hin).
    + assert (q ∈ filter (λ x, q_key x = q_key q) (sh_flushq sh)) as Hf.
      { rewrite <- Hq by done. by apply list_elem_of_filter. }
      apply list_elem_of_filter in Hf as [_ Hf]. specialize (Hqu _ _ _ Hi Hf).
      rewrite Hsi. destruct oe'; [by rewrite lookup_insert_ne|by rewrite lookup_delete_ne].
Qed.

Lemma en_ids : Ids g'.
Proof.
  destruct (iv_ids _ Hinv) as [I1 I2 I3 I4 I5]. destruct Hgc as [_ G2 G3 G4 G5 G6 _ G8 _ _ _ _ _].
  destruct en_ok as [_ _ _ _ (c & ? & ? & Hc & _ & Hcv & _) Hn Hcell _].
  split; intros n Hn'; rewrite G8 in Hn'; rewrite ?G5, ?G6; auto.
  - rewrite G4; [auto|]. intros E. assert (c = n) as -> by congruence. by rewrite I1 in Hcv.
  - rewrite G3; [auto|]. intros ->. by rewrite I3 in Hn.
  - rewrite G2; [auto|]. intros E. rewrite E in Hcell. destruct Hcell as (buf & Hb & _). by rewrite I4 in Hb.
Qed.

Lemma en_hist : Hist y'.
Proof.
  destruct (iv_hist _ Hinv) as [H1 H2 H3 Hfd H4 H5]. pose proof en_grows as Hgr. pose proof (iv_own _ Hinv) as Hown.
  destruct en_ok as [_ _ _ _ (c0 & bytes & dur & Hc0 & _ & Hcv & Hpb & _) _ _ _].
  destruct Hgc as [_ _ _ _ G5 G6 _ _ Ggr Gs (F & GF & HF) _ _].
  assert (Hin : ResCmp c0 ∈ owned y (OEntry k)).
  { cbn [owned]. rewrite en_old. unfold entry_res. rewrite Hc0. list_in. }
  assert (Hcan : ∀ c, canceled c (y_gl y) = true → canceled c g' = true).
  { intros c. apply canceled_grow. intros p Hp Hcp. destruct (Ggr c p Hp) as (p' & ? & _ & ?). eauto. }
  split; cbn [after y_gl y_cfg]; rewrite ?G5, ?G6; try done.
  - intros c p' Hp' Hs. destruct (Gs c p' Hp' Hs) as [(p & Hp & Hps)|(Hc & pb & Hn & Hev)].
    + destruct (H1 _ _ Hp Hps) as (n & pb & ? & ? & ?). exists n, pb. split_and!; [done|done|by eapply evidence_grows].
    + exists (en_node e), pb. split_and!; [done| |by eapply evidence_grows]. rewrite Hpb in Hn. injection Hn as <-. cbn. congruence.
  - intros c Hf. rewrite GF in Hf. apply elem_of_app in Hf as [Hf|Hf]; [by eapply compl_grows, Hfd|].
    destruct (HF c Hf) as [Hc _]. apply (compl_grows _ _ _ Hgr). replace c with c0 by congruence. by destruct (gl_compl (y_gl y) !! c0).
  - intros c id Hf Hr.
    apply en_calls in Hr. rewrite GF in Hf. apply elem_of_app in Hf as [Hf|Hf]; [by apply Hcan, (H4 c id)|].
    destruct (HF c Hf) as [Hc _]. replace c with c0 in Hr by congruence. by pose proof (ow_unique _ Hown _ _ _ Hr Hin).
  - intros c j e1 Hf. rewrite en_index, GF in *. apply elem_of_app in Hf as [Hf|Hf]; case_decide as Hj.
    + intros He Hc. subst j. rewrite He in Hent. destruct Hent as [Est _ _ _ _ _ _ _ Hrm]. apply Hrm.
      apply (H5 c k e Hf en_old). injection Est as _ _ _ _ _ _ E7 _. congruence.
    + by apply H5.
    + intros He _. by apply (HF c Hf).
    + intros He Hc. destruct (HF c Hf) as [Hc' _]. exfalso.
      assert (Hr : ResCmp c ∈ owned y (OEntry j)) by (cbn [owned]; rewrite He; unfold entry_res; rewrite Hc; list_in).
      replace c with c0 in Hr by congruence. pose proof (ow_unique _ Hown _ _ _ Hr Hin). congruence.
Qed.

Lemma en_pins : Pins y'.
Proof.
  destruct (iv_pins _ Hinv) as [P1 P2]. pose proof (iv_own _ Hinv) as Hown.
  pose proof en_index as Hix. pose proof en_old as Hek.
  assert (Hnode : ∀ j e1, index_at y j = Some e1 → en_node e1 = en_node e → j = k).
  { intros j e1 Hj En. assert (OEntry j = OEntry k); [|congruence].
    apply (ow_unique _ Hown _ _ (ResNode (en_node e))); cbn [owned]; [rewrite Hj, <- En|rewrite Hek]; unfold entry_res; list_in. }
  split; cbn [after y_hits y_calls].
  - intros j e1. rewrite Hix, msum_moved by done. case_decide as Hj.
    + subst j. intros He1. pose proof (Hcount _ He1) as Hc. rewrite He1 in Hent. destruct Hent as [Est _ _ _ _ _ _ _ _].
      injection Est as _ _ _ _ _ _ _ E8. rewrite E8. pose proof (P1 _ _ Hek). lia.
    + intros He1. rewrite Hhits_ne, Hkept_ne by (done || intros En; by apply Hj, (Hnode _ _ He1)). rewrite (P1 _ _ He1). lia.
  - intros h hit Hh. destruct (Hhits h hit Hh) as [Hold|[Hk0 Hne]].
    + destruct (P2 _ _ Hold) as (j & e1 & He1 & Hok). destruct (decide (j = k)) as [->|Hj].
      * rewrite Hek in He1. injection He1 as <-. destruct oe' as [e'|] eqn:He'.
        -- exists k, e'. rewrite Hix, decide_True by done. split; [done|]. eapply static_hit; [apply Hent|done].
        -- destruct Hent as [_ [_ _ _ _ Hz]]. exfalso.
           pose proof (msum_le_one (hit_w (en_node e)) hits' h hit (λ j x _, ltac:(unfold hit_w; case_decide; lia)) Hh) as H6.
           unfold hit_w in H6 at 1. destruct Hok as [Ht _]. rewrite decide_True in H6 by done. lia.
      * exists j, e1. by rewrite Hix, decide_False.
    + destruct oe' as [e'|]; [|done]. exists k, e'. rewrite Hix, decide_True by done. split; [done|].
      eapply static_hit; [apply Hent|done].
Qed.

Lemma en_msum f : msum f (sh_index sh') = msum f (sh_index sh) - f k e + from_option (f k) 0 oe'.
Proof.
  rewrite (sc_index _ _ _ _ _ _ _ _ Hsc). destruct oe'; cbn; [by rewrite (msum_update _ _ _ e)|].
  rewrite (msum_delete _ _ _ _ Hx). lia.
Qed.

Lemma en_sums : Sums y'.
Proof.
  destruct (iv_sums _ Hinv) as [S1 S2 S3 S4 S5 S6].
  assert (Hcap : from_option (cap_w k) 0 oe' = from_option en_cap 0 oe') by (by destruct oe').
  split; rewrite ?(esum_after _ _ _ sh), ?en_msum by done; cbn [after y_gl y_calls y_cfg]; rewrite ?msum_moved, ?Hcap by done.
  - pose proof (eq_refl : cap_w k e = en_cap e). lia.
  - lia.
  - lia.
  - lia.
  - pose proof (gc_budget _ _ _ _ _ Hgc). lia.
  - pose proof (gc_large _ _ _ _ _ Hgc). lia.
Qed.

Lemma inv_entry : Inv y'.
Proof.
  split; [rewrite en_geo; apply Hinv|apply en_owners|apply en_maps|apply en_ids|apply en_hist|apply en_pins|apply en_sums].
Qed.

End step.

End entry.
