(* ===== verification/RamPin.v ===== *)
(** * RAM tier: pins

    What pins do to an entry's slot, what erasing an entry does to the shared
    state, and the two ways a step ends for an entry: changed, or dropped. *)

From S2P Require Import Prelude KvTypes SlabTypes SlabOps SlotPool RamTypes RamOps RamInv RamFrame RamShard.
From S2P Require Import RamCall RamLocal RamEntry.

Section pin.
Context {A : Type} `{SlotPoolLaws A}.
Notation Sys := (Sys A).
Notation Shard := (Shard A).
Implicit Types (y : Sys) (k : BlockKey) (sh : Shard) (g : Globals) (e : Entry) (a : A).

(** ** The slot of an entry *)

(** Entry [e] of [k] is in a dedicated buffer, or its slot has [n] pins. *)
Definition entry_slot k e (n : Z) a : Prop :=
  en_large e = None → ∃ sl, sp_slot a k = Some sl ∧ en_slot_handle e = Some (sl_handle sl) ∧
    sl_pins sl = n ∧ sl_pending sl = false.

(** The pool operations on that slot: it now has [n] pins, or is gone. *)
Record pool_step k e (on : option Z) a a' : Prop := {
  ps_wf : sp_wf a';
  ps_opt : sp_opt a' = sp_opt a;
  ps_other j : j ≠ k → sp_slot a' j = sp_slot a j;
  ps_large : en_large e ≠ None → sp_slot a' k = sp_slot a k;
  ps_slot sl : en_large e = None → sp_slot a k = Some sl → sp_slot a' k = (λ n, set_pins n sl) <$> on;
}.

Lemma entry_slot_ok y i sh k e :
  Inv y → y_shards y !! i = Some sh → shard_of k y = i → sh_index sh !! k = Some e →
  entry_slot k e (en_send_pins e + Z.b2z (en_flush_pin e)) (sh_alloc sh).
Proof.
  intros Hinv Hi Hk Hx El. assert (He : index_at y k = Some e) by (by rewrite (here_index y i sh)).
  pose proof (eo_cell _ _ _ (ow_ok _ (iv_own _ Hinv) (OEntry k) _ He)) as Hc. rewrite El in Hc.
  destruct Hc as (s & ref & hd & _ & Hsl & -> & _). rewrite (here_slot y i sh) in Hsl by done.
  eexists. split; [done|done].
Qed.

Lemma pool_same k e n a : sp_wf a → entry_slot k e n a → pool_step k e (Some n) a a.
Proof.
  intros Hwf Hs. split; try done. intros sl El Hsl. destruct (Hs El) as (sl' & Hsl' & _ & <- & _).
  rewrite Hsl in Hsl'. injection Hsl' as <-. rewrite Hsl. by destruct sl.
Qed.

Lemma pool_step_slot k e n n' a a' : entry_slot k e n a → pool_step k e (Some n') a a' → entry_slot k e n' a'.
Proof.
  intros Hs Hp El. destruct (Hs El) as (sl & Hsl & Hh & _ & Hpe). exists (set_pins n' sl).
  by rewrite (ps_slot _ _ _ _ _ Hp _ El Hsl).
Qed.

Lemma pool_step_trans k e n on a a' a'' :
  pool_step k e (Some n) a a' → pool_step k e on a' a'' → pool_step k e on a a''.
Proof.
  intros [W1 O1 S1 L1 K1] [W2 O2 S2 L2 K2]. split; [done|congruence| | |].
  - intros j Hj. rewrite S2, S1; done.
  - intros El. rewrite L2, L1; done.
  - intros sl El Hsl. rewrite (K2 _ El (K1 _ El Hsl)). by destruct on.
Qed.

Lemma unpin_step k e n sh :
  sp_wf (sh_alloc sh) → en_key e = k → entry_slot k e n (sh_alloc sh) → 0 < n →
  pool_step k e (Some (n - 1)) (sh_alloc sh) (sh_alloc (unpin_entry e sh)).
Proof.
  intros Hwf <- Hs Hn. unfold unpin_entry, in_arena. destruct (en_large e) as [b|] eqn:El.
  { split; try done. congruence. }
  destruct (Hs El) as (sl & Hsl & Hh & Hp & Hpe). cbn. rewrite Hh.
  destruct (sp_unpin_ok _ _ _ Hwf Hsl) as (a' & E & Hwf' & [Hs' Ho']); [lia|]. rewrite E. cbn.
  rewrite Hpe, andb_false_r, Hp in Hs'. split; try done.
  - intros j Hj. by rewrite Hs', decide_False.
  - intros sl' _ Hsl'. rewrite Hs', decide_True by done. by simplify_eq.
Qed.

Lemma pin_step k e n sh ok a' :
  sp_wf (sh_alloc sh) → en_large e = None → entry_slot k e n (sh_alloc sh) → n + 1 < 2 ^ 32 →
  sp_pin k (en_slot_handle e) (sh_alloc sh) = (ok, a') →
  ok = true ∧ pool_step k e (Some (n + 1)) (sh_alloc sh) a'.
Proof.
  intros Hwf El Hs Hlt. destruct (Hs El) as (sl & Hsl & Hh & Hp & Hpe). rewrite Hh. rewrite <- Hp in Hlt.
  destruct (sp_pin_ok _ _ _ Hwf Hsl Hpe Hlt) as (a1 & E & Hwf' & [Hs' Ho']). rewrite E. intros [= <- <-]. split; [done|].
  split; try done.
  - intros j Hj. by rewrite Hs', decide_False.
  - intros sl' _ Hsl'. rewrite Hs', decide_True by done. simplify_eq. done.
Qed.

Lemma remove_step k e sh :
  sp_wf (sh_alloc sh) → en_key e = k → entry_slot k e 0 (sh_alloc sh) →
  pool_step k e None (sh_alloc sh) (sh_alloc (if in_arena e then pool_remove (en_key e) sh else sh)).
Proof.
  intros Hwf <- Hs. unfold in_arena. destruct (en_large e) as [b|] eqn:El.
  { split; try done. congruence. }
  destruct (Hs El) as (sl & Hsl & Hh & Hp & Hpe). cbn.
  destruct (sp_remove_ok _ _ _ Hwf Hsl) as (r & a' & E & Hwf' & [Hs' Ho']). rewrite E. cbn. rewrite Hp in Hs'. cbn in Hs'.
  split; try done.
  - intros j Hj. by rewrite Hs', decide_False.
  - intros sl' _ Hsl'. by rewrite Hs', decide_True.
Qed.

(** ** Dropping an entry *)

Definition drop_globals e g : Globals :=
  release (negb (in_arena e)) (en_cap e) (free_buffer (en_large e) (set_nodes (delete (en_node e))
    (if negb (en_durable e)
     then set_dirty_objects (λ n, n - 1) (set_dirty_bytes (λ n, n - en_cap e) g) else g))).

Lemma DropLocked_idle k e sh g :
  sh_index sh !! k = Some e → en_send_pins e = 0 → en_flushing e = false →
  DropLocked k sh g =
    (set_index (delete k) (if in_arena e then pool_remove (en_key e) sh else sh), drop_globals e g).
Proof. intros Hx Hp Hf. unfold DropLocked. by rewrite Hx, Hp, Hf. Qed.

Lemma DropLocked_busy k e sh g :
  sh_index sh !! k = Some e → en_send_pins e ≠ 0 →
  DropLocked k sh g = (upd_entry k (set_en_remove_pending (λ _, true)) sh, g).
Proof. intros Hx Hp. unfold DropLocked. rewrite Hx. by destruct (Z.eqb_spec (en_send_pins e) 0). Qed.

(** The parts of the shared state. *)
Lemma drop_fields e g :
  gl_mem (drop_globals e g) = gl_mem g ∧ gl_nodes (drop_globals e g) = delete (en_node e) (gl_nodes g) ∧
  gl_heap (drop_globals e g) = match en_large e with Some b => delete b (gl_heap g) | None => gl_heap g end ∧
  gl_compl (drop_globals e g) = gl_compl g ∧ gl_pub (drop_globals e g) = gl_pub g ∧
  gl_compl_key (drop_globals e g) = gl_compl_key g ∧ gl_sunk (drop_globals e g) = gl_sunk g ∧
  gl_next (drop_globals e g) = gl_next g ∧ gl_fenced (drop_globals e g) = gl_fenced g.
Proof. unfold drop_globals, in_arena, release. destruct (en_large e), (en_durable e); done. Qed.

Lemma drop_sums k e g :
  gl_budget_used (drop_globals e g) = gl_budget_used g - en_cap e ∧
  gl_large_used (drop_globals e g) = gl_large_used g - large_w k e ∧
  gl_dirty_bytes (drop_globals e g) = gl_dirty_bytes g - dirty_w k e ∧
  gl_dirty_objects (drop_globals e g) = gl_dirty_objects g - object_w k e.
Proof.
  unfold drop_globals, release, large_w, dirty_w, object_w, in_arena.
  destruct (en_large e), (en_durable e); cbn; split_and!; lia.
Qed.

(** ** What one entry's step does to the shared state, piece by piece *)

Lemma changed_refl cfg e oe' g : globals_changed cfg e oe' g g.
Proof.
  split; try done; try lia; eauto. exists []. rewrite app_nil_r. split; [done|]. by intros c ?%elem_of_nil.
Qed.

Section changed.
Context (cfg : Config) (e : Entry) (oe' : option Entry) (g g1 : Globals).
Hypothesis Hgc : globals_changed cfg e oe' g g1.

Lemma changed_quiet g2 :
  quiet g1 g2 → gl_budget_used g2 = gl_budget_used g1 → gl_large_used g2 = gl_large_used g1 →
  globals_changed cfg e oe' g g2.
Proof.
  intros [Q1 Q2 Q3 Q4 Q5 Q6 Q7 Q8 Q9] B1 B2. destruct Hgc.
  split; rewrite ?Q1, ?Q2, ?Q3, ?Q4, ?Q5, ?Q6, ?Q7, ?Q9, ?B1, ?B2; try done. by etrans.
Qed.

Lemma changed_drop : 0 <= en_cap e → globals_changed cfg e oe' g (drop_globals e g1).
Proof.
  intros Hc. destruct (drop_fields e g1) as (D1 & D2 & D3 & D4 & D5 & D6 & D7 & D8 & D9).
  destruct (drop_sums (en_key e) e g1) as (S1 & S2 & _). destruct Hgc as [G1 G2 G3 G4 G5 G6 G7 G8 G9 G10 G11 G12 G13].
  split; rewrite ?D1, ?D4, ?D5, ?D6, ?D7, ?D8, ?D9; try done.
  - intros b Hb. rewrite D3, <- G2 by done. destruct (en_large e); [|done]. rewrite lookup_delete_ne; [done|congruence].
  - intros n Hn. rewrite D2, lookup_delete_ne by done. auto.
  - lia.
  - rewrite S2. unfold large_w. destruct (in_arena e); lia.
Qed.

Lemma changed_complete c b :
  en_completion e = Some c → (b = true → ∃ pb, gl_pub g !! en_node e = Some pb ∧ evidence cfg g pb) →
  globals_changed cfg e oe' g (CompletePut (Some c) b g1).
Proof.
  intros Hc Hb. destruct Hgc as [G1 G2 G3 G4 G5 G6 G7 G8 G9 G10 G11 G12 G13]. split; try done; cbn.
  - intros c' Hc'. rewrite lookup_alter_ne; [auto|congruence].
  - intros c' p Hp. destruct (G9 c' p Hp) as (p1 & Hp1 & E1 & E2). destruct (decide (c' = c)) as [->|Hne].
    + rewrite lookup_alter_eq, Hp1. eexists. split; [done|]. split.
      * intros Hd. specialize (E1 Hd). rewrite <- E1. injection E1 as -> _. by rewrite Hd.
      * intros Hcn. specialize (E2 Hcn). by destruct (pc_done p1).
    + rewrite lookup_alter_ne by done. eauto.
  - intros c' p' Hp' Hs. destruct (decide (c' = c)) as [->|Hne]; [|rewrite lookup_alter_ne in Hp' by done; eauto].
    rewrite lookup_alter_eq in Hp'. destruct (gl_compl g1 !! c) as [p1|] eqn:Hp1; [|done]. injection Hp' as <-.
    destruct (pc_done p1); [by eapply G10|]. cbn in Hs. auto.
Qed.

Lemma changed_fence c :
  en_completion e = Some c → (∀ e', oe' = Some e' → en_remove_pending e' = true) →
  globals_changed cfg e oe' g (set_fenced (λ l, l ++ [c]) g1).
Proof.
  intros Hc He'. destruct Hgc as [G1 G2 G3 G4 G5 G6 G7 G8 G9 G10 (F & EF & HF) G12 G13]. split; try done.
  exists (F ++ [c]). cbn. rewrite EF, app_assoc. split; [done|].
  intros c' [?| ->%list_elem_of_singleton]%elem_of_app; auto.
Qed.

End changed.

(** ** Changing and dropping, with the mutex taken *)

(** The shard outside its index. *)
Record shard_moved k e (on : option Z) sh sh' : Prop := {
  sm_base : sh_base_off sh' = sh_base_off sh;
  sm_writing : sh_writing sh' = sh_writing sh;
  sm_mu : sh_mu sh' = sh_mu sh;
  sm_queue j : j ≠ k → filter (λ q, q_key q = j) (sh_flushq sh') = filter (λ q, q_key q = j) (sh_flushq sh);
  sm_pool : pool_step k e on (sh_alloc sh) (sh_alloc sh');
}.

(** What the call gains and loses; [fl] says that the flush of [k] begins or
    ends. *)
Record mover_ok y k (fl : bool) (oe' : option Entry) (mv : Move) : Prop := {
  mo_from : mv_from y mv;
  mo_acq r : r ∈ held_new y mv → r ∈ held_old y mv ∨ free_res y r;
  mo_keep r : tracked r = true → r ∈ held_old y mv → r = ResFlush k ∨ r ∈ held_new y mv;
  mo_cmp c : ResCmp c ∈ held_new y mv → ResCmp c ∈ held_old y mv;
  mo_flk : fl = false → ResFlush k ∈ held_old y mv → ResFlush k ∈ held_new y mv;
  mo_flush : fl = true → (ResFlush k ∈ held_old y mv ∨ free_res y (ResFlush k)) ∧
    ∀ e', oe' = Some e' → en_flushing e' = true → ResFlush k ∈ held_new y mv;
  mo_kept j : j ≠ k → mv_sum (kept_w j) mv = 0;
  mo_budget : mv_sum budget_w mv = 0;
  mo_reserve : mv_sum reserve_w mv = 0;
}.

Lemma mover_idle y k oe' : mover_ok y k false oe' None.
Proof. split; try done; cbn; [by intros r ?%elem_of_nil|by intros r _ ?%elem_of_nil]. Qed.

Section change.
Context (y : Sys) (i : nat) (sh sh' : Shard) (g' : Globals) (hits' : gmap nat Hit) (mv : Move)
  (k : BlockKey) (e : Entry) (fl : bool).
Notation y' := (after y i sh' g' (moved mv (y_calls y)) hits').
Hypothesis Hinv : Inv y.
Hypothesis Hi : y_shards y !! i = Some sh.
Hypothesis Hmu : sh_mu sh = None.
Hypothesis Hk : shard_of k y = i.
Hypothesis Hx : sh_index sh !! k = Some e.
Hypothesis Hto : mv_to y' mv.
Hypothesis Hhits_ne : ∀ n, n ≠ en_node e → msum (hit_w n) hits' = msum (hit_w n) (y_hits y).

Lemma moved_changed oe' on :
  shard_moved k e on sh sh' →
  sh_index sh' = match oe' with Some e' => <[k := e']> (sh_index sh) | None => delete k (sh_index sh) end →
  shard_changed y i k e oe' mv sh sh'.
Proof using Hmu.
  intros [M1 M2 M3 M4 [P1 P2 P3 P4 P5]] Hix. split; try done. intros Hm. by rewrite M3, Hmu in Hm.
Qed.

Lemma inv_update e' :
  mover_ok y k fl (Some e') mv →
  shard_moved k e (Some (en_send_pins e' + Z.b2z (en_flush_pin e'))) sh sh' →
  sh_index sh' = <[k := e']> (sh_index sh) →
  globals_changed (y_cfg y) e (Some e') (y_gl y) g' →
  gl_heap g' = gl_heap (y_gl y) → gl_nodes g' = gl_nodes (y_gl y) →
  static e' = static e → flags_ok e' → 0 <= en_send_pins e' →
  (en_remove_pending e = true → en_remove_pending e' = true) →
  (fl = false → en_flushing e' = en_flushing e) →
  (∀ c, en_completion e = Some c →
     cmp_view <$> gl_compl g' !! c = Some (negb (en_flush_pin e'), en_durable e')) →
  length (filter (λ q, q_key q = k) (sh_flushq sh')) = (if queued e' then 1%nat else 0%nat) →
  en_send_pins e' - en_send_pins e
    = msum (hit_w (en_node e)) hits' - msum (hit_w (en_node e)) (y_hits y) + mv_sum (kept_w k) mv →
  (∀ h hit, hits' !! h = Some hit → y_hits y !! h = Some hit ∨ hit_ok e hit) →
  gl_budget_used g' = gl_budget_used (y_gl y) → gl_large_used g' = gl_large_used (y_gl y) →
  gl_dirty_bytes g' - gl_dirty_bytes (y_gl y) = dirty_w k e' - dirty_w k e →
  gl_dirty_objects g' - gl_dirty_objects (y_gl y) = object_w k e' - object_w k e →
  Inv y'.
Proof using Hinv Hi Hmu Hk Hx Hto Hhits_ne.
  intros [O1 O2 O3 O4 O5 O6 O7 O8 O9] Hm Hix Hgc Hh Hn Hst Hfl Hp Hrm Hff Hv Hq Hc Hhits B1 B2 B3 B4.
  pose proof Hst as E. injection E as E1 E2 E3 E4 E5 E6 E7 E8.
  apply (inv_entry y i sh sh' g' hits' mv k e (Some e') fl); try done.
  - by eapply moved_changed.
  - split; try done; [|by intros; rewrite Hh|by rewrite Hn]. intros sl El Hsl. by apply (ps_slot _ _ _ _ _ (sm_pool _ _ _ _ _ Hm)).
  - by left.
  - destruct fl; [auto|]. cbn. unfold flush_view, entry_data. by rewrite Hff, E2, E3, E4, E6, E7, E8.
  - auto.
  - by intros e1 [= <-].
  - intros h hit Hit. destruct (Hhits h hit Hit); auto.
  - cbn. lia.
  - cbn. unfold large_w, in_arena. rewrite E4, E6. case_match; lia.
Qed.

Lemma inv_drop :
  mover_ok y k true None mv → shard_moved k e None sh sh' → sh_index sh' = delete k (sh_index sh) →
  globals_changed (y_cfg y) e None (y_gl y) g' →
  (∀ b, en_large e = Some b → gl_heap g' !! b = None) →
  (∀ q, q ∈ sh_flushq sh' → q_key q ≠ k) →
  ResPin k ∈ held_old y mv ∨ free_res y (ResPin k) →
  msum (hit_w (en_node e)) hits' = 0 →
  (∀ h hit, hits' !! h = Some hit → y_hits y !! h = Some hit) →
  gl_budget_used g' = gl_budget_used (y_gl y) - en_cap e → gl_large_used g' = gl_large_used (y_gl y) - large_w k e →
  gl_dirty_bytes g' = gl_dirty_bytes (y_gl y) - dirty_w k e →
  gl_dirty_objects g' = gl_dirty_objects (y_gl y) - object_w k e →
  Inv y'.
Proof using Hinv Hi Hmu Hk Hx Hto Hhits_ne.
  intros [O1 O2 O3 O4 O5 O6 O7 O8 O9] Hm Hix Hgc Hh Hq Hp Hz Hhits B1 B2 B3 B4.
  apply (inv_entry y i sh sh' g' hits' mv k e None true); try done.
  - by eapply moved_changed.
  - split; [done|]. split; try done. intros El.
    assert (He : index_at y k = Some e) by (by rewrite (here_index y i sh)).
    pose proof (eo_cell _ _ _ (ow_ok _ (iv_own _ Hinv) (OEntry k) _ He)) as Hcell. rewrite El in Hcell.
    destruct Hcell as (s & ref & hd & _ & Hsl & _). rewrite (here_slot y i sh) in Hsl by done.
    by rewrite (ps_slot _ _ _ _ _ (sm_pool _ _ _ _ _ Hm) _ El Hsl).
  - by left.
  - auto.
  - auto.
  - auto.
  - cbn. lia.
  - cbn. lia.
  - cbn. lia.
  - cbn. lia.
Qed.

End change.

End pin.
