(* ===== verification/RamRead.v ===== *)
(** * RAM tier: hits

    [GetPrep] and [ReleaseToken], and the release of a committed reservation: a
    hit pins its entry and the entry's slot; the last pin to go completes a
    removal that waited for it. *)

From S2P Require Import Prelude KvTypes SlabTypes SlabOps SlotPool RamTypes RamOps RamInv RamFrame RamShard.
From S2P Require Import RamCall RamLocal RamEntry RamPin.

Section read.
Context {A : Type} `{SlotPoolLaws A}.
Notation Sys := (Sys A).
Notation Shard := (Shard A).
Implicit Types (y : Sys) (k : BlockKey) (sh : Shard) (g : Globals) (e : Entry).

Lemma bump_quiet m n g : quiet g (bump m n g).
Proof. by split. Qed.

Lemma alter_here k e f sh : sh_index sh !! k = Some e → alter f k (sh_index sh) = <[k := f e]> (sh_index sh).
Proof.
  intros Hx. apply map_eq. intros j. destruct (decide (j = k)) as [->|Hj].
  - by rewrite lookup_alter_eq, Hx, lookup_insert_eq.
  - by rewrite lookup_alter_ne, lookup_insert_ne.
Qed.

Lemma unqueued k sh q :
  length (filter (λ q, q_key q = k) (sh_flushq sh)) = 0%nat → q ∈ sh_flushq sh → q_key q ≠ k.
Proof.
  intros Hn%length_zero_iff_nil Hin Hq. assert (Hf : q ∈ filter (λ q, q_key q = k) (sh_flushq sh)) by (by apply list_elem_of_filter).
  rewrite Hn in Hf. by apply elem_of_nil in Hf.
Qed.

(** The weight of the hits on a node. *)
Lemma hit_w_nonneg n j h : 0 <= hit_w n j h.
Proof. unfold hit_w. case_decide; lia. Qed.

Lemma kept_w_nonneg k j call : 0 <= kept_w k j call.
Proof. unfold kept_w. repeat case_match; lia. Qed.

(** ** [GetPrep] *)

(** The pin counts of a value, [uint32_t] in the entry and in its slot, where a
    flush may hold one more, have room for another hit. *)
Definition hit_room (a : Action) y : bool :=
  match a with
  | AGet _ k _ _ _ => match index_at y k with Some e => en_send_pins e + 2 <? 2 ^ 32 | None => true end
  | _ => true
  end.

Lemma pins_bump k e sh :
  sh_index sh !! k = Some e → 0 <= en_send_pins e → en_send_pins e + 1 < 2 ^ 32 →
  upd_entry k (set_en_send_pins (λ n, u32 (n + 1))) sh = upd_entry k (set_en_send_pins (λ n, n + 1)) sh.
Proof.
  intros Hx H1 H2. unfold upd_entry, set_index. rewrite !(alter_here k e) by done. do 2 f_equal.
  unfold set_en_send_pins. by rewrite u32_id by (split; lia).
Qed.

Lemma get_missed y i sh g' :
  Inv y → y_shards y !! i = Some sh → (∃ m, g' = bump m 1 (y_gl y)) ∨ g' = y_gl y →
  Inv (after y i sh g' (y_calls y) (y_hits y)).
Proof. intros Hinv Hi [[m ->]| ->]; by apply (inv_idle _ _ sh). Qed.

(** A hit on entry [e]. *)
Lemma get_hit y i sh k e a' h hit g' :
  Inv y → y_shards y !! i = Some sh → sh_mu sh = None → shard_of k y = i → sh_index sh !! k = Some e →
  en_remove_pending e = false → hit_ok e hit → y_hits y !! h = None →
  pool_step k e (Some (en_send_pins e + 1 + Z.b2z (en_flush_pin e))) (sh_alloc sh) a' →
  (∃ m, g' = bump m 1 (y_gl y)) ∨ g' = y_gl y →
  Inv (after y i (upd_entry k (set_en_send_pins (λ n, n + 1)) (set_alloc (λ _, a') sh)) g'
         (y_calls y) (<[h := hit]> (y_hits y))).
Proof.
  intros Hinv Hi Hmu Hk Hx Hrm Hit Hh Hpool Hg.
  assert (He : index_at y k = Some e) by (by rewrite (here_index y i sh)).
  destruct (ow_ok _ (iv_own _ Hinv) (OEntry k) _ He) as [Hke Hp0 [F1 F2 F3 F4 F5] Hlen (c & ? & ? & Hc & _ & Hcv & _) _ _ Hqu].
  rewrite (here_queue y i sh) in Hqu by done.
  assert (Hq : quiet (y_gl y) g' ∧ gl_budget_used g' = gl_budget_used (y_gl y) ∧ gl_large_used g' = gl_large_used (y_gl y) ∧
    gl_dirty_bytes g' = gl_dirty_bytes (y_gl y) ∧ gl_dirty_objects g' = gl_dirty_objects (y_gl y))
    by (destruct Hg as [[m ->]| ->]; done). destruct Hq as (Hq & B1 & B2 & B3 & B4).
  assert (Hsum : ∀ n, msum (hit_w n) (<[h := hit]> (y_hits y)) = msum (hit_w n) (y_hits y) + hit_w n h hit)
    by (intros n; rewrite msum_insert by done; lia).
  set (e' := set_en_send_pins (λ n, n + 1) e).
  apply (inv_update y i sh _ g' (<[h := hit]> (y_hits y)) None k e false) with (e' := e'); try done.
  - intros n Hn. rewrite Hsum. unfold hit_w at 2. destruct Hit as [Ht _]. rewrite decide_False by congruence. lia.
  - apply mover_idle.
  - cbn. by apply alter_here.
  - by eapply changed_quiet; [apply changed_refl|..].
  - apply Hq.
  - apply Hq.
  - split; cbn; try done. by rewrite Hrm.
  - cbn. lia.
  - intros c' Hc'. rewrite (qt_compl _ _ Hq). cbn. congruence.
  - rewrite Hsum. unfold hit_w at 2. destruct Hit as [Ht _]. rewrite decide_True by done. cbn. lia.
  - intros h' hit' [[<- <-]|[_ ?]]%lookup_insert_Some; auto.
  - rewrite B3. unfold dirty_w. cbn. lia.
  - rewrite B4. unfold object_w. cbn. lia.
Qed.

Lemma get_inv y i sh k offset len count h out sh' g' :
  Inv y → y_shards y !! i = Some sh → sh_mu sh = None → shard_of k y = i → y_hits y !! h = None →
  0 <= offset → 0 <= len → hit_room (AGet h k offset len count) y = true →
  get_section (y_cfg y) k offset len count sh (y_gl y) = (out, sh', g') →
  Inv (after y i sh' g' (y_calls y) (match out with Some hit => <[h := hit]> (y_hits y) | None => y_hits y end)).
Proof.
  intros Hinv Hi Hmu Hk Hh Ho Hl Hroom. unfold get_section.
  assert (Hmiss : ∀ m, (None : option Hit, sh, if count then bump m 1 (y_gl y) else y_gl y) = (out, sh', g') →
    Inv (after y i sh' g' (y_calls y) (match out with Some hit => <[h := hit]> (y_hits y) | None => y_hits y end))).
  { intros m [= <- <- <-]. apply get_missed; [done..|]. destruct count; eauto. }
  destruct (sh_index sh !! k) as [e|] eqn:Hx; [|apply Hmiss].
  destruct (en_remove_pending e) eqn:Hrm; [apply Hmiss|].
  destruct (Z.ltb_spec (en_len e) offset); [intros [= <- <- <-]; apply get_missed; auto|].
  assert (He : index_at y k = Some e) by (by rewrite (here_index y i sh)).
  destruct (ow_ok _ (iv_own _ Hinv) (OEntry k) _ He) as [Hke Hp0 _ Hlen _ _ _ _].
  cbn [hit_room] in Hroom. rewrite He in Hroom. apply Z.ltb_lt in Hroom.
  pose proof (entry_slot_ok y i sh k e Hinv Hi Hk Hx) as Hsl. pose proof (mp_pool _ (iv_maps _ Hinv) _ _ Hi) as Hwf.
  set (n := Z.min _ _). assert (Hn : 0 <= n ∧ offset + n <= en_len e) by (subst n; destruct (len =? 0); lia).
  set (hit := mkHit _ _ _ _ _ _).
  assert (Hok : hit_ok e hit) by (split_and!; try done; exists offset; split_and!; cbn; (done || lia)).
  set (g1 := if count then _ else _). assert (Hg1 : (∃ m, g1 = bump m 1 (y_gl y)) ∨ g1 = y_gl y) by (subst g1; destruct count; eauto).
  unfold in_arena. destruct (en_large e) as [b|] eqn:El; cbn [negb].
  - rewrite (pins_bump k e) by (done || lia). intros [= <- <- <-].
    replace (upd_entry k (set_en_send_pins (λ n0, n0 + 1)) sh)
      with (upd_entry k (set_en_send_pins (λ n0, n0 + 1)) (set_alloc (λ _, sh_alloc sh) sh)) by (by destruct sh).
    eapply get_hit; try done. split; try done. congruence.
  - destruct (sp_pin k (en_slot_handle e) (sh_alloc sh)) as [ok a'] eqn:Ep.
    apply (pin_step k e (en_send_pins e + Z.b2z (en_flush_pin e)) sh) in Ep as [-> Hps];
      [|done..|destruct (en_flush_pin e); cbn; lia].
    rewrite (pins_bump k e) by (done || lia). cbn [negb]. intros [= <- <- <-]. eapply get_hit; try done.
    by replace (en_send_pins e + 1 + Z.b2z (en_flush_pin e)) with (en_send_pins e + Z.b2z (en_flush_pin e) + 1) by lia.
Qed.

(** ** Releasing a pin *)

(** After the unpin. *)
Lemma unpinned_moved y i sh k e :
  Inv y → y_shards y !! i = Some sh → shard_of k y = i → sh_index sh !! k = Some e → 0 < en_send_pins e →
  let sh1 := unpin_entry e (upd_entry k (set_en_send_pins (λ n, n - 1)) sh) in
  shard_moved k e (Some (en_send_pins e - 1 + Z.b2z (en_flush_pin e))) sh sh1 ∧
  sh_index sh1 = <[k := set_en_send_pins (λ n, n - 1) e]> (sh_index sh) ∧ sh_flushq sh1 = sh_flushq sh.
Proof.
  intros Hinv Hi Hk Hx Hp. cbn zeta. set (sh0 := upd_entry k (set_en_send_pins (λ n, n - 1)) sh).
  pose proof (entry_slot_ok y i sh k e Hinv Hi Hk Hx) as Hsl. pose proof (mp_pool _ (iv_maps _ Hinv) _ _ Hi) as Hwf.
  assert (He : index_at y k = Some e) by (by rewrite (here_index y i sh)).
  pose proof (eo_key _ _ _ (ow_ok _ (iv_own _ Hinv) (OEntry k) _ He)) as Hke.
  assert (Hps : pool_step k e (Some (en_send_pins e - 1 + Z.b2z (en_flush_pin e))) (sh_alloc sh) (sh_alloc (unpin_entry e sh0))).
  { replace (en_send_pins e - 1 + Z.b2z (en_flush_pin e)) with (en_send_pins e + Z.b2z (en_flush_pin e) - 1) by lia.
    apply (unpin_step k e _ sh0); try done. destruct (en_flush_pin e); cbn; lia. }
  assert (Hix : sh_index sh0 = <[k := set_en_send_pins (λ n, n - 1) e]> (sh_index sh)) by (by apply alter_here).
  split_and!.
  - split; try done; unfold unpin_entry; by destruct (in_arena e).
  - rewrite <- Hix. unfold unpin_entry. by destruct (in_arena e).
  - unfold unpin_entry. by destruct (in_arena e).
Qed.

Section release.
Context (y : Sys) (i : nat) (sh sh' : Shard) (g' : Globals) (hits' : gmap nat Hit) (mv : Move)
  (k : BlockKey) (e : Entry).
Notation y' := (after y i sh' g' (moved mv (y_calls y)) hits').
Hypothesis Hinv : Inv y.
Hypothesis Hi : y_shards y !! i = Some sh.
Hypothesis Hmu : sh_mu sh = None.
Hypothesis Hk : shard_of k y = i.
Hypothesis Hx : sh_index sh !! k = Some e.
Hypothesis Hto : mv_to y' mv.
Hypothesis Hrel : release_section k e sh (y_gl y) = (sh', g').
Hypothesis Hpos : 0 < en_send_pins e.
Hypothesis Hmover : ∀ fl oe', (fl = true → en_flushing e = false ∧ oe' = None) → mover_ok y k fl oe' mv.
Hypothesis Hfree : en_send_pins e = 1 → ResPin k ∈ held_old y mv ∨ free_res y (ResPin k).
Hypothesis Hhits_ne : ∀ n, n ≠ en_node e → msum (hit_w n) hits' = msum (hit_w n) (y_hits y).
Hypothesis Hcount :
  msum (hit_w (en_node e)) hits' - msum (hit_w (en_node e)) (y_hits y) + mv_sum (kept_w k) mv = -1.
Hypothesis Hhits : ∀ h hit, hits' !! h = Some hit → y_hits y !! h = Some hit.

Lemma release_last : en_send_pins e = 1 → msum (hit_w (en_node e)) hits' = 0.
Proof using Hinv Hi Hk Hx Hcount Hmover.
  intros H1. assert (He : index_at y k = Some e) by (by rewrite (here_index y i sh)).
  pose proof (pn_count _ (iv_pins _ Hinv) _ _ He) as Hc.
  pose proof (msum_moved (kept_w k) y mv (mo_from _ _ _ _ _ (Hmover false None ltac:(done)))) as Hm.
  pose proof (msum_nonneg (kept_w k) (moved mv (y_calls y)) (λ j c _, kept_w_nonneg k j c)).
  pose proof (msum_nonneg (hit_w (en_node e)) hits' (λ j h _, hit_w_nonneg _ j h)). lia.
Qed.

Lemma release_inv : Inv y'.
Proof using All.
  assert (He : index_at y k = Some e) by (by rewrite (here_index y i sh)).
  destruct (ow_ok _ (iv_own _ Hinv) (OEntry k) _ He) as [Hke Hp0 [F1 F2 F3 F4 F5] Hlen (c & ? & ? & Hc & _ & Hcv & _) _ _ Hqu].
  rewrite (here_queue y i sh) in Hqu by done.
  destruct (unpinned_moved y i sh k e Hinv Hi Hk Hx Hpos) as (Hm & Hix & Hq).
  unfold release_section in Hrel. destruct (Z.eqb_spec (en_send_pins e) 0); [lia|].
  set (e1 := set_en_send_pins (λ n, n - 1) e) in *.
  set (sh1 := unpin_entry e (upd_entry k (set_en_send_pins (λ n, n - 1)) sh)) in *. clearbody sh1.
  destruct (en_remove_pending e && (en_send_pins e - 1 =? 0) && negb (en_flushing e)) eqn:Ed.
  - apply andb_true_iff in Ed as [[Hrm H1%Z.eqb_eq]%andb_true_iff Hf%negb_true_iff].
    assert (Hone : en_send_pins e = 1) by lia. pose proof (release_last Hone) as Hz.
    assert (Hfp : en_flush_pin e = false).
    { destruct (en_flush_pin e) eqn:Efp; [|done]. rewrite F5 in Hrm; done. }
    rewrite Hke, (DropLocked_idle k e1) in Hrel; [|rewrite Hix; apply lookup_insert_eq|cbn; lia|done].
    change (drop_globals e1 (y_gl y)) with (drop_globals e (y_gl y)) in Hrel. injection Hrel as <- <-.
    assert (Hps : pool_step k e None (sh_alloc sh) (sh_alloc (if in_arena e1 then pool_remove (en_key e1) sh1 else sh1))).
    { eapply pool_step_trans; [apply Hm|]. apply (remove_step k e sh1); [apply Hm|done|].
      eapply pool_step_slot; [by eapply entry_slot_ok|]. replace 0 with (en_send_pins e - 1 + Z.b2z (en_flush_pin e)); [apply Hm|].
      rewrite Hfp. cbn. lia. }
    destruct (drop_sums k e (y_gl y)) as (S1 & S2 & S3 & S4).
    destruct (drop_fields e (y_gl y)) as (_ & _ & D3 & _).
    apply (inv_drop y i sh _ _ hits' mv k e); try done.
    + by apply Hmover.
    + destruct Hm as [M1 M2 M3 M4 _]. split; destruct (in_arena e1); done.
    + cbn. transitivity (delete k (sh_index sh1)); [by destruct (in_arena e1)|]. by rewrite Hix, delete_insert_eq.
    + apply changed_drop; [apply changed_refl|lia].
    + intros b Hb. rewrite D3, Hb. apply lookup_delete_eq.
    + intros q Hin. apply (unqueued k sh); [unfold queued in Hqu; by rewrite Hfp in Hqu|].
      rewrite <- Hq. cbn in Hin. by destruct (in_arena e1).
    + auto.
  - injection Hrel as <- <-.
    apply (inv_update y i sh sh1 (y_gl y) hits' mv k e false) with (e' := e1); try done.
    + by apply Hmover.
    + apply changed_refl.
    + split; cbn; try done. intros Hrm. rewrite Hrm in Ed. cbn in Ed. destruct (F4 Hrm) as [?|?]; [|auto].
      destruct (Z.eqb_spec (en_send_pins e - 1) 0); cbn in Ed; [|lia]. right. by destruct (en_flushing e).
    + cbn. lia.
    + intros c' Hc'. cbn. congruence.
    + by rewrite Hq.
    + cbn. lia.
    + auto.
    + unfold dirty_w. cbn. lia.
    + unfold object_w. cbn. lia.
Qed.

End release.

Lemma step_release y h y' : Inv y → step (ARelease h) y = Some y' → Inv y'.
Proof.
  intros Hinv. cbn [step]. intros (hit & Hh & ([shards g'] & Hr & E)%bind_Some)%bind_Some. injection E as <-.
  unfold release_step in Hr. apply bind_Some in Hr as (k & Hnd & (sh & Hi & (e & Hx & Hr)%bind_Some)%bind_Some).
  destruct (decide (sh_mu sh = None ∧ en_node e = ht_token hit)) as [[Hmu Hn]|]; [|done].
  destruct (release_section k e sh (y_gl y)) as [sh' g1] eqn:Er. injection Hr as <- <-.
  set (i := shard_of k y) in *. assert (He : index_at y k = Some e) by (by rewrite (here_index y i sh)).
  destruct (pn_hit _ (iv_pins _ Hinv) _ _ Hh) as (k1 & e1 & He1 & Hit).
  assert (k1 = k) as ->.
  { assert (OEntry k1 = OEntry k); [|congruence]. pose proof Hit as [Ht _].
    apply (ow_unique _ (iv_own _ Hinv) _ _ (ResNode (en_node e))); cbn [owned]; [rewrite He1, Hn, Ht|rewrite He]; unfold entry_res; list_in. }
  rewrite He in He1. injection He1 as <-. pose proof (hit_pinned _ _ _ _ _ (iv_pins _ Hinv) Hh He Hit) as Hpos.
  pose proof Hit as [Ht _].
  assert (Hd : ∀ n, msum (hit_w n) (delete h (y_hits y)) = msum (hit_w n) (y_hits y) - hit_w n h hit) 
    by (intros n; rewrite (msum_delete _ _ _ _ Hh); lia).
  apply (release_inv y i sh sh' g1 (delete h (y_hits y)) None k e); try done.
  - lia.
  - intros fl oe' Hfl. destruct fl; [|apply mover_idle]. destruct (Hfl eq_refl) as [Hf ->].
    split; try done; cbn; [by intros r ?%elem_of_nil|by intros r _ ?%elem_of_nil|]. intros _. split; [|done]. right.
    eapply unflushed_free; [apply Hinv|done|done].
  - intros H1. right. apply unkept_free. pose proof (pn_count _ (iv_pins _ Hinv) _ _ He) as Hc.
    pose proof (msum_nonneg (kept_w k) (y_calls y) (λ j c _, kept_w_nonneg k j c)).
    pose proof (msum_nonneg (hit_w (en_node e)) (delete h (y_hits y)) (λ j h _, hit_w_nonneg _ j h)) as Hz. rewrite Hd in Hz.
    unfold hit_w in Hz at 2. rewrite decide_True in Hz by done. lia.
  - intros n Hne. rewrite Hd. unfold hit_w at 2. rewrite decide_False by congruence. lia.
  - rewrite Hd. unfold hit_w at 2. rewrite decide_True by done. cbn. lia.
  - intros h' hit' Hh'. by apply lookup_delete_Some in Hh' as [_ ?].
Qed.

Lemma step_get y h k offset len count y' :
  Inv y → hit_room (AGet h k offset len count) y = true → step (AGet h k offset len count) y = Some y' → Inv y'.
Proof.
  intros Hinv Hroom. cbn [step]. intros (sh & Hi & E)%bind_Some.
  destruct (decide (sh_mu sh = None ∧ y_hits y !! h = None ∧ 0 <= offset ∧ 0 <= len)) as [(Hmu & Hh & Ho & Hl)|]; [|done].
  destruct (get_section (y_cfg y) k offset len count sh (y_gl y)) as [[out sh'] g'] eqn:Eg. injection E as <-.
  by apply (get_inv y (shard_of k y) sh k offset len count h out sh' g').
Qed.

(** [Reset] of a committed reservation. *)
Lemma reset_installed y id i sh r l call' sh' g' :
  Inv y → y_calls y !! id = Some (CKept r l true) → y_shards y !! i = Some sh → sh_mu sh = None →
  shard_of (rq_key r) y = i → reset_kept_section r l true sh (y_gl y) = Some (call', sh', g') →
  Inv (after y i sh' g' (<[id := call']> (y_calls y)) (y_hits y)).
Proof.
  intros Hinv Hcall Hi Hmu Hk. destruct (ow_ok _ (iv_own _ Hinv) (OCall id) _ Hcall) as (_ & _ & Hin).
  set (k := rq_key r) in *. destruct (index_at y k) as [e|] eqn:He; [|done]. injection Hin as Hin.
  assert (Hx : sh_index sh !! k = Some e) by (by rewrite <- (here_index y i sh)).
  assert (Hw : ∀ j, kept_w j id (CKept r l true) = if decide (k = j) then 1 else 0) by done.
  assert (Hpos : 0 < en_send_pins e).
  { pose proof (pn_count _ (iv_pins _ Hinv) _ _ He) as Hc.
    pose proof (msum_le_one (kept_w k) (y_calls y) id _ (λ j c _, kept_w_nonneg k j c) Hcall) as H1. rewrite Hw, decide_True in H1 by done.
    pose proof (msum_nonneg (hit_w (en_node e)) (y_hits y) (λ j h _, hit_w_nonneg _ j h)). lia. }
  set (mv := Some (id, CKept r l true, CRet r None None (RBool true)) : Move).
  assert (Hmv : ∀ j, mv_sum (kept_w j) mv = if decide (k = j) then -1 else 0)
    by (intros j; cbn [mv mv_sum]; rewrite Hw; cbn; case_decide; lia).
  unfold reset_kept_section. fold k. rewrite Hx. destruct (Z.eqb_spec (en_send_pins e) 0); [lia|]. cbn [negb]. intros E.
  assert (Hrel : release_section k e sh (y_gl y) = (sh', g') ∧ call' = CRet r None None (RBool true)).
  { unfold release_section. destruct (Z.eqb_spec (en_send_pins e) 0); [lia|]. unfold unpin_entry. rewrite Hin.
    pose proof (eo_key _ _ _ (ow_ok _ (iv_own _ Hinv) (OEntry k) _ He)) as Hke. rewrite Hke in *.
    destruct (en_remove_pending e && (en_send_pins e - 1 =? 0) && negb (en_flushing e)); [|by injection E as <- <- <-].
    by destruct (DropLocked k _ _) as [sh1 g1]; injection E as <- <- <-. }
  destruct Hrel as [Hrel ->]. apply (release_inv y i sh sh' g' (y_hits y) mv k e); try done.
  - unfold mv_to, call_ok, ret_ok, mv. by destruct (rq_op r) as [[]| |].
  - intros fl oe' Hfl. split; try done; cbn.
    + by intros x ?%elem_of_nil.
    + intros x Ht ->%list_elem_of_singleton. done.
    + by intros c ?%elem_of_nil.
    + by intros _ ?%list_elem_of_singleton.
    + intros ->. destruct (Hfl eq_refl) as [Hf ->]. split; [|done]. right. eapply unflushed_free; [apply Hinv|done|done].
    + intros j Hj. specialize (Hmv j). rewrite decide_False in Hmv by congruence. exact Hmv.
  - intros _. left. cbn. list_in.
  - rewrite Hmv, decide_True by done. lia.
Qed.

End read.
