(* ===== verification/RamSettle.v ===== *)
(** * RAM tier: the end of an entry

    An entry that is neither queued nor being flushed any more and is to go: it is
    dropped if no hit pins it, and otherwise hidden until the last pin goes.  This
    is how [Remove], and a flush that ends after a removal or for good without
    success, leave an entry. *)

From S2P Require Import Prelude KvTypes SlabTypes SlabOps SlotPool RamTypes RamOps RamInv RamFrame RamShard.
From S2P Require Import RamCall RamLocal RamEntry RamPin RamRead.

Section settle.
Context {A : Type} `{SlotPoolLaws A}.
Notation Sys := (Sys A).
Notation Shard := (Shard A).
Implicit Types (y : Sys) (k : BlockKey) (sh : Shard) (g : Globals) (e : Entry).

(** The shard, but for its index, pool and queue. *)
Definition rest sh : Z * option nat * gmap BlockKey nat := (sh_base_off sh, sh_mu sh, sh_writing sh).

Lemma flush_pin_dropped k e n sh e0 idx :
  sp_wf (sh_alloc sh) → en_key e = k → entry_slot k e (n + Z.b2z (en_flush_pin e)) (sh_alloc sh) → 0 <= n →
  sh_index sh = <[k := e0]> idx → en_flush_pin e0 = en_flush_pin e →
  pool_step k e (Some n) (sh_alloc sh) (sh_alloc (drop_flush_pin k e sh)) ∧
  sh_index (drop_flush_pin k e sh) = <[k := set_en_flush_pin (λ _, false) e0]> idx ∧
  sh_flushq (drop_flush_pin k e sh) = sh_flushq sh ∧ rest (drop_flush_pin k e sh) = rest sh.
Proof.
  intros Hwf Hke Hsl Hn Hix Hfp. unfold drop_flush_pin. destruct (en_flush_pin e); cbn [Z.b2z] in Hsl.
  - pose proof (unpin_step k e (n + 1) sh Hwf Hke Hsl ltac:(lia)) as Hps. replace (n + 1 - 1) with n in Hps by lia.
    assert (Hu : sh_index (unpin_entry e sh) = sh_index sh ∧ sh_flushq (unpin_entry e sh) = sh_flushq sh ∧
      rest (unpin_entry e sh) = rest sh) by (unfold unpin_entry; by destruct (in_arena e)).
    destruct Hu as (U1 & U2 & U3). split_and!; [done| |done|done].
    cbn. rewrite U1, Hix. by rewrite alter_insert_eq.
  - rewrite Z.add_0_r in Hsl. split_and!; [by apply pool_same| |done|done].
    rewrite Hix. f_equal. destruct e0; cbn in *. by subst.
Qed.

Section step.
Context (y : Sys) (i : nat) (sh sh2 : Shard) (g' : Globals) (mv : Move) (k : BlockKey) (e e2 : Entry) (fl : bool).
Hypothesis Hinv : Inv y.
Hypothesis Hi : y_shards y !! i = Some sh.
Hypothesis Hmu : sh_mu sh = None.
Hypothesis Hk : shard_of k y = i.
Hypothesis Hx : sh_index sh !! k = Some e.
Hypothesis Hm : shard_moved k e (Some (en_send_pins e)) sh sh2.
Hypothesis Hix : sh_index sh2 = <[k := e2]> (sh_index sh).
Hypothesis Hst : static e2 = static e.
Hypothesis Hsame : en_send_pins e2 = en_send_pins e ∧ en_durable e2 = en_durable e.
Hypothesis Hoff : en_flushing e2 = false ∧ en_flush_pin e2 = false.
Hypothesis Hq : length (filter (λ q, q_key q = k) (sh_flushq sh2)) = 0%nat.
Hypothesis Hkept : mv_sum (kept_w k) mv = 0.

Lemma settle_drop sh' g1 :
  en_send_pins e = 0 → mover_ok y k true None mv →
  sh' = (DropLocked k sh2 g1).1 → mv_to (after y i sh' g' (moved mv (y_calls y)) (y_hits y)) mv →
  globals_changed (y_cfg y) e None (y_gl y) g' →
  gl_heap g' = gl_heap (drop_globals e (y_gl y)) →
  gl_budget_used g' = gl_budget_used (y_gl y) - en_cap e → gl_large_used g' = gl_large_used (y_gl y) - large_w k e →
  gl_dirty_bytes g' = gl_dirty_bytes (y_gl y) - dirty_w k e →
  gl_dirty_objects g' = gl_dirty_objects (y_gl y) - object_w k e →
  Inv (after y i sh' g' (moved mv (y_calls y)) (y_hits y)).
Proof using Hinv Hi Hmu Hk Hx Hm Hix Hst Hsame Hoff Hq.
  intros H0' Hmo -> Hto Hgc Hh B1 B2 B3 B4. destruct Hsame as [P1 P2], Hoff as [P3 P4].
  assert (He : index_at y k = Some e) by (by rewrite (here_index y i sh)).
  pose proof (eo_key _ _ _ (ow_ok _ (iv_own _ Hinv) (OEntry k) _ He)) as Hke.
  pose proof Hst as E. injection E as E1 E2 E3 E4 E5 E6 E7 E8.
  rewrite (DropLocked_idle k e2) in Hto |- *; [|rewrite Hix; apply lookup_insert_eq|lia|done|rewrite Hix; apply lookup_insert_eq|lia|done].
  cbn [fst] in *. assert (Hia : in_arena e2 = in_arena e) by (unfold in_arena; by rewrite E6). rewrite Hia, E1 in *.
  assert (Hps : pool_step k e None (sh_alloc sh) (sh_alloc (if in_arena e then pool_remove (en_key e) sh2 else sh2))).
  { eapply pool_step_trans; [apply Hm|]. apply (remove_step k e sh2); [apply Hm|done|].
    eapply pool_step_slot; [by eapply entry_slot_ok|]. rewrite <- H0'. apply Hm. }
  pose proof (pn_count _ (iv_pins _ Hinv) _ _ He) as Hc. rewrite H0' in Hc.
  pose proof (msum_nonneg (kept_w k) (y_calls y) (λ j c _, kept_w_nonneg k j c)).
  pose proof (msum_nonneg (hit_w (en_node e)) (y_hits y) (λ j h _, hit_w_nonneg _ j h)).
  apply (inv_drop y i sh _ g' (y_hits y) mv k e); try done.
  - destruct Hm as [M1 M2 M3 M4 _]. split; destruct (in_arena e); done.
  - cbn. transitivity (delete k (sh_index sh2)); [by destruct (in_arena e)|]. by rewrite Hix, delete_insert_eq.
  - intros b Hb. rewrite Hh. destruct (drop_fields e (y_gl y)) as (_ & _ & -> & _). rewrite Hb. apply lookup_delete_eq.
  - intros q Hin. apply (unqueued k sh2); [done|]. cbn in Hin. by destruct (in_arena e).
  - right. apply unkept_free. lia.
  - lia.
Qed.

Lemma settle_hide e' sh' :
  en_send_pins e ≠ 0 → e' = set_en_remove_pending (λ _, true) e2 →
  mover_ok y k fl (Some e') mv → (fl = false → en_flushing e = false) →
  sh_index sh' = <[k := e']> (sh_index sh) → sh_flushq sh' = sh_flushq sh2 → sh_alloc sh' = sh_alloc sh2 →
  rest sh' = rest sh2 →
  mv_to (after y i sh' g' (moved mv (y_calls y)) (y_hits y)) mv →
  globals_changed (y_cfg y) e (Some e') (y_gl y) g' →
  gl_heap g' = gl_heap (y_gl y) → gl_nodes g' = gl_nodes (y_gl y) →
  (∀ c, en_completion e = Some c → cmp_view <$> gl_compl g' !! c = Some (true, en_durable e)) →
  gl_budget_used g' = gl_budget_used (y_gl y) → gl_large_used g' = gl_large_used (y_gl y) →
  gl_dirty_bytes g' = gl_dirty_bytes (y_gl y) → gl_dirty_objects g' = gl_dirty_objects (y_gl y) →
  Inv (after y i sh' g' (moved mv (y_calls y)) (y_hits y)).
Proof using Hinv Hi Hmu Hk Hx Hm Hst Hsame Hoff Hq Hkept.
  intros Hp -> Hmo Hfl Hix' Hq' Ha' Hr' Hto Hgc Hh Hn Hv B1 B2 B3 B4. destruct Hsame as [P1 P2], Hoff as [P3 P4].
  assert (He : index_at y k = Some e) by (by rewrite (here_index y i sh)).
  pose proof (eo_pins _ _ _ (ow_ok _ (iv_own _ Hinv) (OEntry k) _ He)) as Hp0.
  injection Hr' as R1 R2 R3. pose proof Hst as E. injection E as E1 E2 E3 E4 E5 E6 E7 E8.
  eapply (inv_update y i sh sh' g' (y_hits y) mv k e fl); try done.
  - destruct Hm as [M1 M2 M3 M4 M5]. split; try congruence; rewrite ?Hq', ?Ha'; try done. cbn. rewrite P1, P4. cbn. by rewrite Z.add_0_r.
  - split; cbn; rewrite ?P1, ?P3, ?P4; try done. left. lia.
  - cbn. lia.
  - intros Hf. cbn. by rewrite P3, Hfl.
  - intros c Hc. rewrite (Hv c Hc). cbn. by rewrite P4, P2.
  - rewrite Hq', Hq. unfold queued. cbn. by rewrite P4.
  - cbn. rewrite P1, Hkept. lia.
  - auto.
  - rewrite B3. unfold dirty_w. cbn. rewrite P2, E4. lia.
  - rewrite B4. unfold object_w. cbn. rewrite P2. lia.
Qed.

End step.
End settle.
