(* ===== verification/RamRemove.v ===== *)
(** * RAM tier: removal

    The critical sections of [Remove]: a value still being admitted is canceled, a
    published one is fenced, taken from the flush queue and dropped or hidden; what
    is left to do after the wait is nothing. *)

From S2P Require Import Prelude KvTypes SlabTypes SlabOps SlotPool RamTypes RamOps RamInv RamFrame RamShard.
From S2P Require Import RamCall RamLocal RamAdmit RamEntry RamPin RamRead RamSettle.

Section remove.
Context {A : Type} `{SlotPoolLaws A}.
Notation Sys := (Sys A).
Notation Shard := (Shard A).
Implicit Types (y : Sys) (k : BlockKey) (sh : Shard) (g : Globals) (e : Entry).

(** A section that leaves its shard alone. *)
Lemma after_same y i sh g' id call :
  y_shards y !! i = Some sh →
  after y i sh g' (<[id := call]> (y_calls y)) (y_hits y) = with_call id call (with_gl (λ _, g') y).
Proof. intros Hi. unfold with_call, with_gl, after. cbn. by rewrite list_insert_id. Qed.

(** Calls that own nothing. *)
Lemma mover_plain y k fl oe' id call call' :
  y_calls y !! id = Some call → call_res y call = [] → call_res y call' = [] →
  (∀ j, kept_w j id call = 0 ∧ kept_w j id call' = 0) → budget_w id call = 0 → budget_w id call' = 0 →
  reserve_w id call = 0 → reserve_w id call' = 0 →
  (fl = true → free_res y (ResFlush k) ∧ ∀ e', oe' = Some e' → en_flushing e' = false) →
  mover_ok y k fl oe' (Some (id, call, call')).
Proof.
  intros Hc R R' K B B' W W' Hf. split; cbn; rewrite ?R, ?R'; try done; try lia.
  - by intros r ?%elem_of_nil.
  - by intros r _ ?%elem_of_nil.
  - intros ->. destruct (Hf eq_refl) as [? Hf']. split; [by right|]. intros e' He' Hfl. rewrite Hf' in Hfl; done.
  - intros j _. destruct (K j). lia.
Qed.

(** ** Canceling an admission *)

(** Whoever reserved a key holds the completion it is reserved with. *)
Lemma writing_owner y k c :
  Owners y → writing_at y k = Some c → ∃ id, ResCmp c ∈ owned y (OCall id) ∧ pending_cmp (y_gl y) c k.
Proof.
  intros Hown Hw. destruct (ow_cover _ Hown (ResWriting k) eq_refl) as ([id|k'] & Hr); [by cbn; rewrite Hw| |].
  - exists id. cbn in Hr |- *. destruct (y_calls y !! id) as [call|] eqn:Hc; [|by apply elem_of_nil in Hr].
    pose proof (ow_ok _ Hown (OCall id) _ Hc) as Hok.
    assert (Hsame : ∀ r c', k = rq_key r → admitted (y_cfg y) (y_gl y) r c' → writing_at y (rq_key r) = Some c' →
      c' = c ∧ pending_cmp (y_gl y) c k).
    { intros r c' -> [_ Hpd] E. assert (c' = c) as -> by congruence. done. }
    destruct call; cbn [call_res call_ok] in Hr, Hok |- *; try by apply elem_of_nil in Hr.
    all: repeat match goal with
      | Hr : _ ∈ _ <$> _ |- _ => apply list_elem_of_fmap in Hr as (? & Hr & _); discriminate Hr
      | Hr : _ ∈ (if ?b then _ else _) |- _ => destruct b eqn:?
      end; res_in Hr.
    all: injection Hr as Hr; destruct_and! Hok.
    all: match goal with
      | Ha : admitted _ _ ?r ?c', Hx : writing_at _ (rq_key ?r) = Some ?c' |- _ => destruct (Hsame r c' Hr Ha Hx) as [<- ?]
      | Ha : admitted _ _ ?r ?c', Hx : _ → writing_at _ (rq_key ?r) = Some ?c' |- _ =>
          destruct (Hsame r c' Hr Ha (Hx ltac:(done))) as [<- ?]
      end; (split; [list_in|done]).
  - cbn in Hr. destruct (index_at y k') as [e|] eqn:He; [|by apply elem_of_nil in Hr]. unfold entry_res in Hr. res_in Hr.
Qed.

Lemma cancel_grows c g : grows g (cancel c g).
Proof.
  split; cbn; try done. intros c' p Hp. destruct (decide (c' = c)) as [->|Hne].
  - rewrite lookup_alter_eq, Hp. eexists. by split.
  - rewrite lookup_alter_ne by done. eauto.
Qed.

Lemma cancel_view c c' g : cmp_view <$> gl_compl (cancel c g) !! c' = cmp_view <$> gl_compl g !! c'.
Proof.
  cbn. destruct (decide (c' = c)) as [->|Hne]; [|by rewrite lookup_alter_ne].
  rewrite lookup_alter_eq. by destruct (gl_compl g !! c).
Qed.

Lemma cancel_canceled c c' g : is_Some (gl_compl g !! c) → canceled c' (cancel c g) = bool_decide (c' = c) || canceled c' g.
Proof.
  intros [p Hp]. unfold canceled. cbn. destruct (decide (c' = c)) as [->|Hne].
  - rewrite lookup_alter_eq, Hp. by rewrite bool_decide_true.
  - rewrite lookup_alter_ne by done. by rewrite bool_decide_false.
Qed.

Lemma remove_canceled y id i sh k c :
  Inv y → y_calls y !! id = Some (CRemove k) → y_shards y !! i = Some sh → shard_of k y = i →
  sh_writing sh !! k = Some c →
  Inv (after y i sh (set_fenced (λ l, l ++ [c]) (cancel c (y_gl y)))
         (<[id := CRemoveWait k (Some c)]> (y_calls y)) (y_hits y)).
Proof.
  intros Hinv Hcall Hi Hk Hw. pose proof (iv_own _ Hinv) as Hown.
  destruct (writing_owner y k c Hown) as (j & Hj & Hpd); [by rewrite (here_writing y i sh)|].
  pose proof (owned_present _ _ _ (ow_ok _ Hown (OCall j)) Hj) as Hc. cbn in Hc.
  set (g' := set_fenced (λ l, l ++ [c]) (cancel c (y_gl y))).
  assert (Hcan : ∀ c', canceled c' g' = bool_decide (c' = c) || canceled c' (y_gl y)) by (intros c'; by apply cancel_canceled).
  assert (Hgr : grows (y_gl y) g').
  { etransitivity; [apply (cancel_grows c)|]. split; try done; [|by eauto]. intros c' Hf. apply elem_of_app. by left. }
  apply (inv_call y i sh sh g' id (CRemove k) (CRemoveWait k (Some c)) []); try done.
  - intros r _. apply (same_after _ _ sh); [done|]. destruct r; auto. split; [|done]. apply cancel_view.
  - by intros r ?%elem_of_nil.
  - exists c. split_and!; [done|apply elem_of_app; right; list_in|apply Hpd|by eapply compl_grows].
  - by intros r ?%elem_of_nil.
  - intros r _ _ [?%elem_of_nil|?%elem_of_nil]; done.
  - apply (mp_pool _ (iv_maps _ Hinv) _ _ Hi).
  - by left.
  - by left.
  - destruct (iv_ids _ Hinv) as [I1 I2 I3 I4 I5]. split; cbn; try done. intros n Hn.
    destruct (decide (n = c)) as [->|Hne]; [by rewrite lookup_alter_eq, I1|by rewrite lookup_alter_ne, I1].
  - intros c' p' Hp' Hs. pose proof (cancel_view c c' (y_gl y)) as Hv. cbn in Hp', Hv. rewrite Hp' in Hv.
    destruct (gl_compl (y_gl y) !! c') as [p|]; [|done]. injection Hv as Hd Hs'. exists p. split; [done|congruence].
  - intros c' [Hf| ->%list_elem_of_singleton]%elem_of_app; [by left|right]. split; [|eauto]. by rewrite Hcan, bool_decide_true.
  - intros c' Hc'. rewrite Hcan, Hc'. apply orb_true_r.
  - by intros c' _ ?%elem_of_nil.
  - cbn. lia.
  - cbn. lia.
  - by left.
  - by left.
Qed.

(** ** Fencing a published value *)

Lemma erased_queue k (q : list QItem) : filter (λ x : QItem, q_key x = k) (filter (λ x, q_key x ≠ k) q) = [].
Proof.
  induction q as [|x q IH]; [done|]. rewrite !filter_cons. destruct (decide (q_key x ≠ k)); [|done].
  rewrite filter_cons. by destruct (decide (q_key x = k)).
Qed.

Lemma erased_queue_ne k j (q : list QItem) :
  j ≠ k → filter (λ x : QItem, q_key x = j) (filter (λ x, q_key x ≠ k) q) = filter (λ x, q_key x = j) q.
Proof.
  intros Hj. induction q as [|x q IH]; [done|]. rewrite !filter_cons. destruct (decide (q_key x ≠ k)) as [|Hx].
  - rewrite filter_cons. by destruct (decide (q_key x = j)); rewrite IH.
  - destruct (decide (q_key x = j)); [|done]. destruct Hx. congruence.
Qed.

Section fence.
Context (y : Sys) (id i : nat) (sh : Shard) (k : BlockKey) (e : Entry) (c : nat).
Hypothesis Hinv : Inv y.
Hypothesis Hcall : y_calls y !! id = Some (CRemove k).
Hypothesis Hi : y_shards y !! i = Some sh.
Hypothesis Hmu : sh_mu sh = None.
Hypothesis Hk : shard_of k y = i.
Hypothesis Hx : sh_index sh !! k = Some e.
Hypothesis Hrm : en_remove_pending e = false.
Hypothesis Hc : en_completion e = Some c.
Notation sh1 := (erase_queued k (upd_entry k (set_en_remove_pending (λ _, true)) sh)).
Notation e1 := (set_en_remove_pending (λ _, true) e).
Notation fence := (set_fenced (λ l, l ++ [c])).
Notation call' := (CRemoveWait k (Some c)).

Lemma fence_old : index_at y k = Some e.
Proof using Hi Hk Hx. by rewrite (here_index y i sh). Qed.

Lemma fence_index : sh_index sh1 = <[k := e1]> (sh_index sh).
Proof using Hx. cbn. by apply alter_here. Qed.

Lemma fence_wait sh' g1 :
  globals_changed (y_cfg y) e None (y_gl y) g1 →
  mv_to (after y i sh' (fence g1) (<[id := call']> (y_calls y)) (y_hits y)) (Some (id, CRemove k, call')).
Proof using Hinv Hc Hi Hk Hx.
  intros Hgc.
  destruct (ow_ok _ (iv_own _ Hinv) (OEntry k) _ fence_old) as [_ _ _ _ (c' & ? & ? & Hc' & Hck & Hcv & _) _ _ _].
  assert (c' = c) as -> by congruence.
  exists c. split_and!; [done|apply elem_of_app; right; list_in|cbn; by rewrite (gc_key _ _ _ _ _ Hgc)|]. destruct (gl_compl (y_gl y) !! c) as [p|] eqn:Hp; [|done].
  destruct (gc_grow _ _ _ _ _ Hgc c p Hp) as (p' & Hp' & _). by exists p'.
Qed.

(** A flush is under way: it will find the fence. *)
Lemma fence_flushing :
  en_flushing e = true →
  Inv (after y i sh1 (fence (y_gl y)) (<[id := call']> (y_calls y)) (y_hits y)).
Proof using All.
  intros Hf. destruct (ow_ok _ (iv_own _ Hinv) (OEntry k) _ fence_old) as [Hke Hp0 [F1 F2 F3 F4 F5] Hlen (c' & ? & ? & Hc' & _ & Hcv & _) _ _ Hqu].
  assert (c' = c) as -> by congruence.
  apply (inv_update y i sh sh1 _ (y_hits y) (Some (id, CRemove k, call')) k e false) with (e' := e1); try done.
  - by apply fence_wait, changed_refl.
  - by apply mover_plain.
  - split; try done; [intros j Hj; by apply erased_queue_ne|]. apply pool_same; [apply (mp_pool _ (iv_maps _ Hinv) _ _ Hi)|].
    exact (entry_slot_ok y i sh k e Hinv Hi Hk Hx).
  - apply fence_index.
  - apply changed_fence; [apply changed_refl|done|]. by intros e' [= <-].
  - split; cbn; auto. intros _ Hnf. congruence.
  - intros c' Hc0. cbn. congruence.
  - cbn. rewrite erased_queue. unfold queued. cbn. by rewrite Hf, andb_false_r.
  - cbn. lia.
  - auto.
  - unfold dirty_w. cbn. lia.
  - unfold object_w. cbn. lia.
Qed.

Notation g1 := (if en_durable e then y_gl y else CompletePut (Some c) false (y_gl y)).
Notation sh2 := (drop_flush_pin k e sh1).
Notation e2 := (set_en_flush_pin (λ _, false) e1).

Lemma fence_globals oe' : globals_changed (y_cfg y) e oe' (y_gl y) g1.
Proof using Hc. destruct (en_durable e); [apply changed_refl|]. by apply changed_complete; [apply changed_refl|..]. Qed.

Lemma fence_view : en_flushing e = false → cmp_view <$> gl_compl g1 !! c = Some (true, en_durable e).
Proof using Hinv Hc Hi Hk Hx Hrm.
  intros Hnf. destruct (ow_ok _ (iv_own _ Hinv) (OEntry k) _ fence_old) as [_ _ [F1 F2 F3 F4 F5] _ (c' & ? & ? & Hc' & _ & Hcv & _) _ _ _].
  assert (c' = c) as -> by congruence. destruct (en_durable e) eqn:Hd; [by rewrite Hcv, F1|].
  destruct (en_flush_pin e) eqn:Hfp; [|rewrite F3 in Hrm; done]. cbn. rewrite lookup_alter_eq.
  destruct (gl_compl (y_gl y) !! c) as [p|]; [|done]. injection Hcv as Hpd Hps. cbn. by rewrite Hpd.
Qed.

Lemma fence_moved :
  shard_moved k e (Some (en_send_pins e)) sh sh2 ∧ sh_index sh2 = <[k := e2]> (sh_index sh) ∧
  length (filter (λ q, q_key q = k) (sh_flushq sh2)) = 0%nat.
Proof using All.
  destruct (ow_ok _ (iv_own _ Hinv) (OEntry k) _ fence_old) as [Hke Hp0 _ _ _ _ _ _].
  destruct (flush_pin_dropped k e (en_send_pins e) sh1 e1 (sh_index sh)) as (D1 & D2 & D3 & D4); try done.
  - apply (mp_pool _ (iv_maps _ Hinv) _ _ Hi).
  - by apply (entry_slot_ok y i sh).
  - apply fence_index.
  - injection D4 as R1 R2 R3. split_and!; [|done|by rewrite D3; cbn; rewrite erased_queue]. split; try congruence; [|done].
    intros j Hj. rewrite D3. by apply erased_queue_ne.
Qed.

Lemma fence_settled :
  en_flushing e = false →
  let '(sh', g') := if en_send_pins e =? 0 then DropLocked k sh2 g1 else (sh2, g1) in
  Inv (after y i sh' (fence g') (<[id := call']> (y_calls y)) (y_hits y)).
Proof using All.
  intros Hnf. destruct fence_moved as (Hm & Hix & Hq). pose proof (fence_view Hnf) as Hv. pose proof fence_index as Hx1.
  destruct (ow_ok _ (iv_own _ Hinv) (OEntry k) _ fence_old) as [Hke Hp0 _ Hlen _ _ _ _].
  assert (Hfree : free_res y (ResFlush k)) by (eapply unflushed_free; [apply Hinv|apply fence_old|done]).
  assert (Hmo : ∀ oe', (∀ e', oe' = Some e' → en_flushing e' = false) → mover_ok y k true oe' (Some (id, CRemove k, call'))).
  { intros oe' Hoe. by apply mover_plain. }
  assert (Hsums : gl_budget_used g1 = gl_budget_used (y_gl y) ∧ gl_large_used g1 = gl_large_used (y_gl y) ∧
    gl_dirty_bytes g1 = gl_dirty_bytes (y_gl y) ∧ gl_dirty_objects g1 = gl_dirty_objects (y_gl y) ∧
    gl_heap g1 = gl_heap (y_gl y) ∧ gl_nodes g1 = gl_nodes (y_gl y)) by (by destruct (en_durable e)).
  destruct Hsums as (B1 & B2 & B3 & B4 & B5 & B6). destruct (Z.eqb_spec (en_send_pins e) 0) as [Hz|Hz].
  - rewrite (DropLocked_idle k e2) by (rewrite ?Hix; (apply lookup_insert_eq || done)).
    pose proof (λ oe', changed_drop _ _ _ _ _ (fence_globals oe') ltac:(lia)) as Hgc.
    change (drop_globals e2 g1) with (drop_globals e g1).
    destruct (drop_sums k e g1) as (S1 & S2 & S3 & S4). destruct (drop_fields e g1) as (_ & _ & D3 & _).
    destruct (drop_fields e (y_gl y)) as (_ & _ & D3' & _).
    apply (settle_drop y i sh sh2 (fence (drop_globals e g1)) (Some (id, CRemove k, call')) k e e2) with (g1 := y_gl y); try done.
    + by apply Hmo.
    + by rewrite (DropLocked_idle k e2) by (rewrite ?Hix; (apply lookup_insert_eq || done)).
    + by apply fence_wait.
    + by apply changed_fence.
    + cbn [gl_heap set_fenced]. by rewrite D3, D3', B5.
    + cbn [gl_budget_used set_fenced]. lia.
    + cbn [gl_large_used set_fenced]. lia.
    + cbn [gl_dirty_bytes set_fenced]. lia.
    + cbn [gl_dirty_objects set_fenced]. lia.
  - eapply (settle_hide y i sh sh2 (fence g1) (Some (id, CRemove k, call')) k e e2 true); try done.
    + apply Hmo. by intros e' [= <-].
    + apply fence_wait, fence_globals.
    + apply changed_fence; [apply fence_globals|done|]. by intros e' [= <-].
    + intros c' Hc0. cbn. by assert (c' = c) as -> by congruence.
Qed.

Lemma remove_fenced call'' sh' g' :
  remove_section k sh (y_gl y) = Some (call'', sh', g') → sh_writing sh !! k = None →
  Inv (after y i sh' g' (<[id := call'']> (y_calls y)) (y_hits y)).
Proof using All.
  unfold remove_section. intros E Hw. rewrite Hw, Hx, Hrm in E. unfold fence_entry in E. rewrite Hc in E.
  destruct (en_flushing e) eqn:Hf; cbn [negb andb] in E.
  - injection E as <- <- <-. by apply fence_flushing.
  - pose proof (fence_settled Hf) as Hs. destruct (en_send_pins e =? 0).
    + destruct (DropLocked k _ _) as [sh3 g3]. by injection E as <- <- <-.
    + by injection E as <- <- <-.
Qed.

End fence.

(** ** The sections *)

Lemma remove_none y id k :
  Inv y → y_calls y !! id = Some (CRemove k) →
  Inv (with_call id (CRemoveRet k None false) (with_gl (λ _, y_gl y) y)).
Proof.
  intros Hinv Hcall. eapply inv_local; [done|done|by split|..]; cbn; try done; try lia.
Qed.

Lemma step_remove y id inp k y' :
  Inv y → y_calls y !! id = Some (CRemove k) → call_step id inp y (CRemove k) = Some y' → Inv y'.
Proof.
  intros Hinv Hcall. cbn [call_step]. intros (sh & call' & sh' & g' & Hi & Hmu & E & ->)%section_Some.
  destruct (sh_writing sh !! k) as [c|] eqn:Hw.
  { unfold remove_section in E. rewrite Hw in E. injection E as <- <- <-. by apply remove_canceled. }
  destruct (sh_index sh !! k) as [e|] eqn:Hx.
  2:{ unfold remove_section in E. rewrite Hw, Hx in E. injection E as <- <- <-. rewrite after_same by done. by apply remove_none. }
  destruct (en_remove_pending e) eqn:Hrm.
  { unfold remove_section in E. rewrite Hw, Hx, Hrm in E. injection E as <- <- <-. rewrite after_same by done. by apply remove_none. }
  assert (He : index_at y k = Some e) by (by rewrite (here_index y (shard_of k y) sh)).
  destruct (eo_cmp _ _ _ (ow_ok _ (iv_own _ Hinv) (OEntry k) _ He)) as (c & _ & _ & Hc & _).
  by apply (remove_fenced y id (shard_of k y) sh k e c).
Qed.

(** After the wait nothing is left of the value. *)
Lemma remove_end_idle y id k c call' sh sh' g' :
  Inv y → y_calls y !! id = Some (CRemoveEnd k c) → y_shards y !! shard_of k y = Some sh →
  remove_end_section k c sh (y_gl y) = Some (call', sh', g') →
  call' = CRemoveRet k c true ∧ sh' = sh ∧ g' = y_gl y.
Proof.
  intros Hinv Hcall Hi. destruct (ow_ok _ (iv_own _ Hinv) (OCall id) _ Hcall) as (c' & -> & Hf & _). unfold remove_end_section.
  destruct (sh_index sh !! k) as [e|] eqn:Hx; [|by intros [= <- <- <-]].
  destruct (decide (en_completion e = Some c')) as [Hc|]; [|by intros [= <- <- <-]].
  assert (He : index_at y k = Some e) by (by rewrite (here_index y (shard_of k y) sh)).
  pose proof (hs_fence_entry _ (iv_hist _ Hinv) _ _ _ Hf He Hc) as Hrm. rewrite Hrm.
  destruct (fo_removing _ (eo_flags _ _ _ (ow_ok _ (iv_own _ Hinv) (OEntry k) _ He)) Hrm) as [Hp|Hfl].
  - destruct (Z.eqb_spec (en_send_pins e) 0); [lia|]. rewrite andb_false_r. by intros [= <- <- <-].
  - rewrite Hfl. by intros [= <- <- <-].
Qed.

Lemma step_remove_end y id inp k c y' :
  Inv y → y_calls y !! id = Some (CRemoveEnd k c) → call_step id inp y (CRemoveEnd k c) = Some y' → Inv y'.
Proof.
  intros Hinv Hcall. cbn [call_step]. intros (sh & call' & sh' & g' & Hi & Hmu & E & ->)%section_Some.
  apply (remove_end_idle y id k c) in E as (-> & -> & ->); [|done..]. rewrite after_same by done.
  pose proof (ow_ok _ (iv_own _ Hinv) (OCall id) _ Hcall) as Hok.
  eapply inv_local; [done|done|by split|..]; cbn; try done; try lia.
Qed.

End remove.
