(* ===== verification/RamReclaim.v ===== *)
(** * RAM tier: reclaim

    [ReclaimLargeFor], which erases unpinned durable values in dedicated buffers
    shard by shard, and the sections of the background tick. *)

From S2P Require Import Prelude KvTypes SlabTypes SlabOps SlotPool RamTypes RamOps RamInv RamFrame RamShard.
From S2P Require Import RamCall RamLocal RamEvict RamEntry RamPin RamRead RamRemove.

Section reclaim.
Context {A : Type} `{SlotPoolLaws A}.
Notation Sys := (Sys A).
Notation Shard := (Shard A).
Implicit Types (y : Sys) (k : BlockKey) (sh : Shard) (g : Globals) (e : Entry).

(** ** Locking and unlocking *)

(** The holder of a mutex, or a call that finds it free, sets it. *)
Lemma inv_lock y i sh id call call' m :
  Inv y → y_calls y !! id = Some call → y_shards y !! i = Some sh →
  sh_mu sh = None ∨ ResLock i ∈ call_res y call →
  (m ≠ None → ResLock i ∈ call_res y call') →
  (∀ r, r ∈ call_res y call' → r ∈ call_res y call ∨ r = ResLock i) →
  (∀ r, tracked r = true → r ∈ call_res y call → r = ResLock i ∨ r ∈ call_res y call') →
  call_ok (after y i (set_mu (λ _, m) sh) (y_gl y) (<[id := call']> (y_calls y)) (y_hits y)) id call' →
  (∀ k, kept_w k id call' = kept_w k id call) → budget_w id call' = budget_w id call →
  reserve_w id call' = reserve_w id call →
  Inv (after y i (set_mu (λ _, m) sh) (y_gl y) (<[id := call']> (y_calls y)) (y_hits y)).
Proof.
  intros Hinv Hcall Hi Hl Hm Hacq Hkeep Hok Hk Hb Hr. pose proof (iv_own _ Hinv) as Hown.
  assert (Hfree : ResLock i ∈ call_res y call ∨ free_res y (ResLock i)).
  { destruct Hl; [right; by eapply unlocked_free|by left]. }
  apply (inv_call y i sh _ (y_gl y) id call call' [ResLock i]); try done.
  - intros r Hn. apply (same_after _ _ sh); [done|]. destruct r; auto. left. intros ->. apply Hn. list_in.
  - by intros r ->%list_elem_of_singleton.
  - intros r Hin. destruct (Hacq r Hin) as [?| ->]; auto.
  - intros r Ht Hp Hin.
    assert (Hlk : r = ResLock i → r ∈ call_res y call').
    { intros ->. apply Hm. unfold present in Hp. rewrite (there_mu _ _ sh) in Hp by done. cbn in Hp. by destruct Hp as [? ->]. }
    destruct Hin as [->%list_elem_of_singleton|Hin]; [auto|]. destruct (Hkeep r Ht Hin); auto.
  - apply (mp_pool _ (iv_maps _ Hinv) _ _ Hi).
  - by left.
  - by left.
  - apply Hinv.
  - eauto.
  - by left.
  - intros c Hf Hc. apply (hs_fence_call _ (iv_hist _ Hinv) c id Hf). cbn. rewrite Hcall. destruct (Hacq _ Hc); done.
  - lia.
  - lia.
  - by left.
  - by left.
Qed.

(** The resources of a reclaiming call beside the mutex. *)
Lemma reclaim_res y r c cap a pc :
  ∀ x, x ∈ call_res y (CReclaim r c cap a pc) ↔
    x ∈ call_res y (CReclaim r c cap a (RCheck 0)) ∨ ∃ i rest, pc = RIter i rest ∧ x = ResLock i.
Proof.
  intros x. cbn [call_res]. rewrite app_nil_r. rewrite !elem_of_cons, elem_of_app. destruct pc as [j|j rest].
  - rewrite elem_of_nil. split; [tauto|]. intros [?|(? & ? & ? & _)]; [tauto|done].
  - rewrite list_elem_of_singleton. split.
    + intros [?|[?| ->]]; eauto.
    + intros [[?|?]|(? & ? & [= <- <-] & ->)]; auto.
Qed.

(** What the call relies on but for the mutex survives if completions and
    reservations do. *)
Lemma reclaim_ok_frame y y' id r c cap a pc pc' :
  geo y' = geo y → grows (y_gl y) (y_gl y') →
  (∀ x, x ∈ call_res y (CReclaim r c cap a (RCheck 0)) → same_res y y' x) →
  call_ok y id (CReclaim r c cap a pc) →
  (∀ i rest, pc' = RIter i rest → mu_at y' i = Some id) →
  call_ok y' id (CReclaim r c cap a pc').
Proof.
  intros Hg Hgr Hs Hok Hmu. assert (Hok' : call_ok y' id (CReclaim r c cap a (RCheck 0))).
  { eapply call_ok_frame; [done..|]. destruct Hok as (? & ? & ? & _). by split_and!. }
  destruct Hok' as (? & ? & ? & _). split_and!; [done..|]. destruct pc'; eauto.
Qed.

Lemma reclaim_lock y id r c cap a i order sh :
  Inv y → y_calls y !! id = Some (CReclaim r c cap a (RCheck i)) → y_shards y !! i = Some sh → sh_mu sh = None →
  Inv (after y i (set_mu (λ _, Some id) sh) (y_gl y)
         (<[id := CReclaim r c cap a (RIter i order)]> (y_calls y)) (y_hits y)).
Proof.
  intros Hinv Hcall Hi Hmu. pose proof (ow_ok _ (iv_own _ Hinv) (OCall id) _ Hcall) as Hok.
  apply (inv_lock y i sh id (CReclaim r c cap a (RCheck i))); try done.
  - by left.
  - intros _. rewrite reclaim_res. eauto.
  - intros x. rewrite reclaim_res, (reclaim_res _ _ _ _ _ (RCheck i)). intros [?|(? & ? & [= <- <-] & ->)]; auto.
  - intros x _. rewrite reclaim_res, (reclaim_res _ _ _ _ _ (RIter _ _)). intros [?|(? & ? & ? & _)]; [auto|done].
  - eapply reclaim_ok_frame; [by apply (after_geo _ _ sh)|done| |done|].
    + intros x Hx. apply (same_after _ _ sh); [done|]. cbn [call_res] in Hx. rewrite app_nil_r in Hx. res_in Hx; subst x; auto.
    + intros j rest' [= <- <-]. by rewrite (there_mu _ _ sh).
Qed.

Lemma step_reclaim_check y id inp r c cap a i y' :
  Inv y → y_calls y !! id = Some (CReclaim r c cap a (RCheck i)) →
  call_step id inp y (CReclaim r c cap a (RCheck i)) = Some y' → Inv y'.
Proof.
  intros Hinv Hcall. cbn [call_step]. unfold reclaim_check. destruct (_ || _ || _).
  - intros [= <-]. by eapply reclaim_return.
  - intros (sh & call' & sh' & g' & Hi & Hmu & E & ->)%section_Some. destruct (decide _); [|done].
    injection E as <- <- <-. by apply reclaim_lock.
Qed.

(** ** Inside a shard *)

(** The mutex may be given up at any point of the iteration. *)
Lemma reclaim_unlock y id r c cap a i rest call' sh :
  Inv y → y_calls y !! id = Some (CReclaim r c cap a (RIter i rest)) → y_shards y !! i = Some sh →
  call' = CReclaim r c cap a (RCheck (S i)) ∨ call' = after_reclaim (y_cfg y) r c cap a →
  Inv (after y i (set_mu (λ _, None) sh) (y_gl y) (<[id := call']> (y_calls y)) (y_hits y)).
Proof.
  intros Hinv Hcall Hi Hc'. pose proof (ow_ok _ (iv_own _ Hinv) (OCall id) _ Hcall) as Hok.
  destruct (after_reclaim_res y r c cap a) as [R1 R2].
  destruct (after_reclaim_w (y_cfg y) id r c cap a) as (W1 & W2 & W3).
  assert (Hr1 : ∀ x, x ∈ call_res y call' → x ∈ call_res y (CReclaim r c cap a (RCheck 0))).
  { destruct Hc' as [-> | ->]; [|done]. intros x. rewrite reclaim_res. intros [?|(? & ? & ? & _)]; done. }
  assert (Hr2 : ∀ x, tracked x = true → x ∈ call_res y (CReclaim r c cap a (RCheck 0)) → x ∈ call_res y call').
  { destruct Hc' as [-> | ->]; [|done]. intros x _ Hx. rewrite reclaim_res. auto. }
  apply (inv_lock y i sh id (CReclaim r c cap a (RIter i rest))); try done.
  - right. rewrite reclaim_res. eauto.
  - intros x Hx. left. rewrite reclaim_res. auto.
  - intros x Ht. rewrite reclaim_res. intros [?|(? & ? & [= <- <-] & ->)]; auto.
  - set (y' := after _ _ _ _ _ _).
    assert (Hck : ∀ j, call_ok y' id (CReclaim r c cap a (RCheck j))).
    { intros j. eapply reclaim_ok_frame; [by apply (after_geo _ _ sh)|done| |exact Hok|done].
      intros x Hx. apply (same_after _ _ sh); [done|]. cbn [call_res] in Hx. rewrite app_nil_r in Hx. res_in Hx; subst x; auto. }
    destruct Hc' as [-> | ->]; [apply Hck|]. apply (after_reclaim_ok y' id r c cap a 0 []). left. apply Hck.
  - intros k. destruct Hc' as [-> | ->]; [done|]. by rewrite W3.
  - destruct Hc' as [-> | ->]; [done|]. by rewrite W1.
  - destruct Hc' as [-> | ->]; [done|]. by rewrite W2.
Qed.

(** An entry that is passed over. *)
Lemma reclaim_skip y id r c cap a i rest rest' :
  Inv y → y_calls y !! id = Some (CReclaim r c cap a (RIter i rest)) →
  Inv (with_call id (CReclaim r c cap a (RIter i rest')) (with_gl (λ _, y_gl y) y)).
Proof.
  intros Hinv Hcall. pose proof (ow_ok _ (iv_own _ Hinv) (OCall id) _ Hcall) as Hok.
  eapply inv_local; [done|done|by split|..]; try done; try (cbn; lia).
Qed.

(** An entry that is erased; the mutex stays with the call. *)
Lemma reclaim_erase y id r c cap a i k rest sh e :
  Inv y → y_calls y !! id = Some (CReclaim r c cap a (RIter i (k :: rest))) → y_shards y !! i = Some sh →
  sh_mu sh = Some id → sh_index sh !! k = Some e → in_arena e = false → en_durable e = true → en_send_pins e = 0 →
  Inv (after y i (set_index (delete k) sh) (bump MLargeEvictions 1 (drop_globals e (y_gl y)))
         (<[id := CReclaim r c cap a (RIter i rest)]> (y_calls y)) (y_hits y)).
Proof.
  intros Hinv Hcall Hi Hmu Hx Hia Hd Hp. pose proof (ow_ok _ (iv_own _ Hinv) (OCall id) _ Hcall) as Hok.
  assert (Hk : shard_of k y = i) by (apply (mp_home _ (iv_maps _ Hinv) _ _ _ Hi); left; by rewrite Hx).
  assert (He : index_at y k = Some e) by (by rewrite (here_index y i sh)).
  destruct (ow_ok _ (iv_own _ Hinv) (OEntry k) _ He) as [Hke _ [F1 F2 F3 F4 F5] Hlen _ _ _ Hqu].
  rewrite (here_queue y i sh) in Hqu by done. unfold queued in Hqu. rewrite (F1 Hd) in Hqu.
  assert (Hnf : en_flushing e = false) by (destruct (en_flushing e); [rewrite F1 in F2; [by specialize (F2 eq_refl)|done]|done]).
  set (call := CReclaim r c cap a (RIter i (k :: rest))). set (call' := CReclaim r c cap a (RIter i rest)).
  set (g' := bump MLargeEvictions 1 (drop_globals e (y_gl y))). set (sh' := set_index (delete k) sh).
  assert (Hgc : globals_changed (y_cfg y) e None (y_gl y) g').
  { by eapply changed_quiet; [apply changed_drop; [apply changed_refl|lia]|..]. }
  pose proof (pn_count _ (iv_pins _ Hinv) _ _ He) as Hc. rewrite Hp in Hc.
  pose proof (msum_nonneg (kept_w k) (y_calls y) (λ j c _, kept_w_nonneg k j c)).
  pose proof (msum_nonneg (hit_w (en_node e)) (y_hits y) (λ j h _, hit_w_nonneg _ j h)).
  destruct (drop_sums k e (y_gl y)) as (S1 & S2 & S3 & S4). destruct (drop_fields e (y_gl y)) as (_ & _ & D3 & D4 & D5 & _).
  apply (inv_entry y i sh sh' g' (y_hits y) (Some (id, call, call')) k e None true); try done.
  - eapply (reclaim_ok_frame y); [by apply (after_geo _ _ sh)|by eapply en_grows| |exact Hok|].
    + intros x Hxr. apply (same_after _ _ sh); [done|]. cbn [call_res] in Hxr. rewrite app_nil_r in Hxr.
      res_in Hxr; subst x; auto; cbn [g' bump set_metrics gl_compl gl_pub]; rewrite D4, D5; auto.
    + intros j rest' [= <- <-]. by rewrite (there_mu _ _ sh).
  - split; try done; [apply (mp_pool _ (iv_maps _ Hinv) _ _ Hi)|]. intros _. apply (reclaim_res y r c cap a (RIter i rest)). eauto.
  - split; [done|]. split.
    + unfold in_arena in Hia. by destruct (en_large e).
    + intros b Hb. cbn [g' bump set_metrics gl_heap]. rewrite D3, Hb. apply lookup_delete_eq.
    + intros q Hin. by apply (unqueued k sh).
    + right. apply unkept_free. lia.
    + lia.
  - right. apply (reclaim_res y r c cap a (RIter i (k :: rest))). eauto.
  - split; [|done]. right. eapply unflushed_free; [apply Hinv|done|done].
  - cbn. auto.
  - intros x _ Hx'. right; right. exact Hx'.
  - auto.
  - cbn [g' bump set_metrics gl_budget_used]. cbn. lia.
  - cbn [g' bump set_metrics gl_large_used]. cbn. lia.
  - cbn [g' bump set_metrics gl_dirty_bytes]. cbn. lia.
  - cbn [g' bump set_metrics gl_dirty_objects]. cbn. lia.
Qed.

Lemma step_reclaim_iter y id inp r c cap a i rest y' :
  Inv y → y_calls y !! id = Some (CReclaim r c cap a (RIter i rest)) →
  call_step id inp y (CReclaim r c cap a (RIter i rest)) = Some y' → Inv y'.
Proof.
  intros Hinv Hcall. cbn [call_step]. intros (sh & call' & sh' & g' & Hi & Hmu & E & ->)%section_Some.
  unfold reclaim_iter in E. destruct rest as [|k rest].
  { injection E as <- <- <-. eapply reclaim_unlock; eauto. }
  destruct (sh_index sh !! k) as [e|] eqn:Hx.
  2:{ injection E as <- <- <-. rewrite after_same by done. by eapply reclaim_skip. }
  destruct (negb (in_arena e) && en_durable e && (en_send_pins e =? 0) && negb (en_remove_pending e)) eqn:Ed.
  2:{ injection E as <- <- <-. rewrite after_same by done. by eapply reclaim_skip. }
  apply andb_true_iff in Ed as [[[Hia%negb_true_iff Hd]%andb_true_iff Hp%Z.eqb_eq]%andb_true_iff _].
  pose proof (reclaim_erase y id r c cap a i k rest sh e Hinv Hcall Hi Hmu Hx Hia Hd Hp) as Hne.
  assert (Hg : bump MLargeEvictions 1 (free_buffer (en_large e) (set_nodes (delete (en_node e)) (ReleaseLargeBudget (en_cap e) (y_gl y))))
    = bump MLargeEvictions 1 (drop_globals e (y_gl y))).
  { unfold drop_globals. rewrite Hia, Hd. unfold in_arena in Hia. by destruct (en_large e). }
  unfold erase_entry in E. rewrite Hg in E. set (g1 := bump MLargeEvictions 1 (drop_globals e (y_gl y))) in *.
  destruct (has_room (y_cfg y) cap g1); injection E as <- <- <-; [|done].
  set (y1 := after y i (set_index (delete k) sh) g1 (<[id := CReclaim r c cap a (RIter i rest)]> (y_calls y)) (y_hits y)) in *.
  pose proof (reclaim_unlock y1 id r c cap a i rest (after_reclaim (y_cfg y) r c cap a) (set_index (delete k) sh) Hne) as Hu.
  unfold after in Hu |- *. cbn [y1 after y_cfg y_shards y_gl y_calls y_hits] in Hu.
  rewrite list_insert_insert_eq, insert_insert_eq in Hu. apply Hu.
  - apply lookup_insert_eq.
  - apply list_lookup_insert_eq. by eapply lookup_lt_Some.
  - by right.
Qed.

End reclaim.
