(* ===== verification/RamTick.v ===== *)
(** * RAM tier: the background tick

    The sections of [ReclaimTick], and the actions that touch no entry. *)

From S2P Require Import Prelude KvTypes SlabTypes SlabOps SlotPool RamTypes RamOps RamInv RamFrame RamShard.
From S2P Require Import RamCall RamLocal RamEvict RamRead RamRemove.

Section tick.
Context {A : Type} `{SlotPoolLaws A}.
Notation Sys := (Sys A).
Notation Shard := (Shard A).
Implicit Types (y : Sys) (k : BlockKey) (sh : Shard) (g : Globals).

Lemma tick_plain y id call i :
  tick_call call = Some i → call_res y call = [] ∧ budget_w id call = 0 ∧ reserve_w id call = 0 ∧ ∀ k, kept_w k id call = 0.
Proof. by destruct call. Qed.

Lemma tick_ok y id call i : tick_call call = Some i → (i < length (y_shards y))%nat → call_ok y id call.
Proof. destruct call; try done; cbn; by intros [= ->]. Qed.

(** The pool evicts during the tick. *)
Lemma tick_evicts y id i sh call call' a' ev sh1 g1 g' :
  Inv y → y_calls y !! id = Some call → tick_call call = Some i → tick_call call' = Some i →
  y_shards y !! i = Some sh → sh_mu sh = None → sp_wf a' → slots_evicted (sh_alloc sh) ev a' →
  EraseEvictedLocked ev (set_alloc (λ _, a') sh) (y_gl y) = (sh1, g1) →
  quiet g1 g' → gl_budget_used g' = gl_budget_used g1 ∧ gl_large_used g' = gl_large_used g1 ∧
    gl_dirty_bytes g' = gl_dirty_bytes g1 ∧ gl_dirty_objects g' = gl_dirty_objects g1 →
  Inv (after y i sh1 g' (<[id := call']> (y_calls y)) (y_hits y)).
Proof.
  intros Hinv Hcall Ht Ht' Hi Hmu Hwf [Hs Hidle Ho] He Hq Hb.
  destruct (tick_plain y id call i Ht) as (R & B & W & K). destruct (tick_plain y id call' i Ht') as (R' & B' & W' & K').
  apply erase_evicted in He.
  2:{ intros k e Hev Hke. destruct (Hidle k Hev) as (sl & Hsl & Hp0).
      destruct (victim_idle y i sh k sl) as (e' & He' & _ & ? & _); try done. cbn in Hke. congruence. }
  refine (inv_evict y i sh sh1 a' g1 g' ev None id call call' None Hinv Hi Hmu Hcall Hwf Ho Hs Hidle _ Hq Hb _ _ _ _ _ _ _); try done.
  - exists sh1. split; [done|]. pose proof (ek_rest _ _ _ _ _ He) as Hr. rewrite Hr. unfold set_mu, set_index, set_alloc. cbn. by rewrite Hmu.
  - apply (tick_ok _ _ _ i); [done|]. cbn. rewrite length_insert. by eapply lookup_lt_Some.
  - rewrite R'. by intros r ?%elem_of_nil.
  - rewrite R. by intros r _ ?%elem_of_nil.
  - rewrite R'. by intros r ?%elem_of_nil.
  - rewrite B, B', W, W'. split_and!; try done. intros k. by rewrite K, K'.
Qed.

Lemma step_tick_grow y id inp i tk c need y' :
  Inv y → y_calls y !! id = Some (CTickGrow i tk c need) →
  call_step id inp y (CTickGrow i tk c need) = Some y' → Inv y'.
Proof.
  intros Hinv Hcall. pose proof (tick_shard y id _ i Hinv Hcall eq_refl ltac:(done)) as Hlt.
  assert (Hgo : ∀ call', tick_call call' = Some i → Inv (with_call id call' (with_gl (λ g, g) y)))
    by (intros call' Ht; by eapply tick_local).
  cbn [call_step]. unfold tick_grow, lock_free. destruct (length (tk_classes tk) <=? c)%nat; [intros [= <-]; by apply Hgo|].
  destruct need as [need|].
  2:{ intros (sh & _ & E)%bind_Some. injection E as <-. apply Hgo. by case_match. }
  destruct (need <=? 0); [intros [= <-]; by apply Hgo|].
  destruct (ColdestGrowDonor _ _ _ _ =? _)%nat; [intros [= <-]; by apply Hgo|].
  intros (sh & call' & sh' & g' & Hi & Hmu & E & ->)%section_Some. unfold steal_section in E.
  set (donor := ColdestGrowDonor _ _ _ _) in E.
  destruct (sp_steal_from_ok donor c (sh_alloc sh) [] (mp_pool _ (iv_maps _ Hinv) _ _ Hi)) as (b & a' & ev & Es & Hwf & Hev).
  rewrite Es in E. cbn [mbind option_bind app] in E.
  destruct (EraseEvictedLocked ev (set_alloc (λ _, a') sh) (y_gl y)) as [sh1 g1] eqn:Ee.
  destruct b; injection E as <- <- <-; by eapply tick_evicts.
Qed.

Lemma step_tick_reclaim y id inp i tk c budget y' :
  Inv y → y_calls y !! id = Some (CTickReclaim i tk c budget) →
  call_step id inp y (CTickReclaim i tk c budget) = Some y' → Inv y'.
Proof.
  intros Hinv Hcall. pose proof (tick_shard y id _ i Hinv Hcall eq_refl ltac:(done)) as Hlt.
  assert (Hgo : ∀ call', tick_call call' = Some i → Inv (with_call id call' (with_gl (λ g, g) y)))
    by (intros call' Ht; by eapply tick_local).
  cbn [call_step]. unfold tick_reclaim, lock_free. destruct (length (tk_classes tk) <=? c)%nat; [intros [= <-]; by apply Hgo|].
  destruct budget as [[target budget]|]; [|intros [= <-]; apply Hgo; by case_match].
  intros (sh & call' & sh' & g' & Hi & Hmu & E & ->)%section_Some. unfold reclaim_section in E.
  destruct (sp_reclaim_class_ok c target (Z.to_nat (Z.min 64 budget)) (sh_alloc sh) [] (mp_pool _ (iv_maps _ Hinv) _ _ Hi))
    as (a' & ev & Es & Hwf & Hev & _).
  rewrite Es in E. cbn [app] in E.
  destruct (EraseEvictedLocked ev (set_alloc (λ _, a') sh) (y_gl y)) as [sh1 g1] eqn:Ee. injection E as <- <- <-.
  eapply tick_evicts; try done. by case_match.
Qed.

Lemma step_tick_gate y id inp i tk y' :
  Inv y → y_calls y !! id = Some (CTickGate i tk) → call_step id inp y (CTickGate i tk) = Some y' → Inv y'.
Proof.
  intros Hinv Hcall. pose proof (tick_shard y id _ i Hinv Hcall eq_refl ltac:(done)) as Hlt. cbn [call_step].
  intros (sh & call' & sh' & g' & Hi & Hmu & E & ->)%section_Some. injection E as <- <- <-. rewrite after_same by done.
  change (with_gl (λ _, y_gl y) y) with (with_gl (λ g, g) y). eapply tick_local; [done|done|done| |done]. by case_match.
Qed.

Lemma step_tick_start y id inp i y' :
  Inv y → y_calls y !! id = Some (CTickStart i) → call_step id inp y (CTickStart i) = Some y' → Inv y'.
Proof.
  intros Hinv Hcall. cbn [call_step]. intros (sh & Hi & E)%bind_Some. unfold tick_start in E. injection E as <-.
  set (sh' := set_reclaim_last_puts _ sh). set (call' := CTickGrow _ _ _ _).
  assert (H1 : Inv (after y i sh' (y_gl y) (y_calls y) (y_hits y))) by (by apply (inv_idle _ _ sh)).
  change (Inv (with_call id call' (with_gl (λ g, g) (after y i sh' (y_gl y) (y_calls y) (y_hits y))))).
  apply (tick_local _ id (CTickStart i) call' i); try done. cbn. rewrite length_insert. by eapply lookup_lt_Some.
Qed.

(** ** Actions without a call *)

Lemma step_probe y k offset len count y' : Inv y → step (AProbe k offset len count) y = Some y' → Inv y'.
Proof.
  intros Hinv. cbn [step]. intros (sh & Hi & E)%bind_Some. destruct (decide _); [|done]. injection E as <-.
  change (Inv (with_gl (λ _, (probe_section k offset count sh (y_gl y)).2) y)).
  unfold probe_section. repeat case_match; by apply inv_gl.
Qed.

Lemma step_stop y i y' : Inv y → step (AStop i) y = Some y' → Inv y'.
Proof.
  intros Hinv. cbn [step]. intros (sh & Hi & E)%bind_Some. destruct (decide _); [|done]. injection E as <-.
  by apply (inv_idle y i sh (set_stop (λ _, true) sh) (y_gl y)).
Qed.

Lemma step_set_mr y mr y' : Inv y → step (ASetArenaMr mr) y = Some y' → Inv y'.
Proof. intros Hinv. cbn [step]. intros [= <-]. by apply (inv_gl y (set_arena_mr (λ _, mr) (y_gl y))). Qed.

Lemma step_drain y b y' : Inv y → step (AWaitForDrain b) y = Some y' → Inv y'.
Proof.
  intros Hinv. cbn [step]. destruct (_ =? 0); [by intros [= <-]|]. destruct b; [|done]. intros [= <-].
  by apply (inv_gl y (bump MShutdownDrainTimeouts 1 (y_gl y))).
Qed.

(** ** New calls *)

(** A call that starts owns nothing. *)
Lemma inv_new_call y id call y' :
  Inv y → new_call id call y = Some y' → call_ok y id call → call_res y call = [] →
  (∀ k, kept_w k id call = 0) → budget_w id call = 0 → reserve_w id call = 0 → Inv y'.
Proof.
  intros [Hgeo Hown Hmaps Hids Hhist Hpins Hsums]. unfold new_call. destruct (decide _) as [Hno|]; [|done]. intros [= <-] Hok Hr Hk Hb Hw.
  set (y1 := with_call id call y). assert (Hat : ∀ k, at_shard y1 k = at_shard y k) by done.
  assert (Hcalls : ∀ c j, ResCmp c ∈ owned y1 (OCall j) → ResCmp c ∈ owned y (OCall j)).
  { intros c j. cbn. destruct (decide (j = id)) as [->|Hj]; [|by rewrite lookup_insert_ne].
    rewrite lookup_insert_eq. change (call_res y1 call) with (call_res y call). rewrite Hr. by intros ?%elem_of_nil. }
  split; [exact Hgeo| |by destruct Hmaps|exact Hids| | |].
  - apply (owners_step_list y y1 [OCall id] []); try done.
    + intros j Hj. cbn. rewrite lookup_insert_ne; [done|]. intros <-. apply Hj. list_in.
    + intros r _. destruct r; try done; cbn; eauto.
    + by intros r ?%elem_of_nil.
    + intros o ->%list_elem_of_singleton c Hc. cbn in Hc. rewrite lookup_insert_eq in Hc. injection Hc as <-.
      eapply (call_ok_frame y); [done|done| |done]. rewrite Hr. by intros r ?%elem_of_nil.
    + intros o r ->%list_elem_of_singleton. cbn. rewrite lookup_insert_eq. change (call_res y1 call) with (call_res y call).
      rewrite Hr. by intros ?%elem_of_nil.
    + by intros o o' r ->%list_elem_of_singleton ->%list_elem_of_singleton.
    + intros r _ _ [?%elem_of_nil|(o & ->%list_elem_of_singleton & Hin)]; [done|]. cbn in Hin. rewrite Hno in Hin. by apply elem_of_nil in Hin.
  - destruct Hhist as [H1 H2 H3 Hfd H4 H5]. split; try done. intros c j Hf Hc. apply (H4 c j Hf). by apply Hcalls.
  - destruct Hpins as [P1 P2]. split; [|done]. intros k e He. cbn. rewrite msum_insert, Hk by done. rewrite (P1 k e He). lia.
  - destruct Hsums as [S1 S2 S3 S4 S5 S6]. split; try done; cbn; rewrite msum_insert, ?Hb, ?Hw by done; cbn; [rewrite S1|rewrite S2]; done.
Qed.

End tick.
