(* ===== verification/RamGive.v ===== *)
(** * RAM tier: giving up

    The steps in which a call only lets go of what it holds: a value that is not
    admitted, an admission that a removal canceled, a reservation that is reset. *)

From S2P Require Import Prelude KvTypes SlabTypes SlabOps SlotPool RamTypes RamOps RamInv RamFrame RamShard.
From S2P Require Import RamCall RamLocal RamAdmit RamRemove.

Section give.
Context {A : Type} `{SlotPoolLaws A}.
Notation Sys := (Sys A).
Notation Shard := (Shard A).
Implicit Types (y : Sys) (k : BlockKey) (sh : Shard) (g : Globals).

(** What may differ of the shared state for the holder of [R]. *)
Record gives (R : list Res) g g' : Prop := {
  gv_mem : gl_mem g' = gl_mem g;
  gv_nodes : gl_nodes g' = gl_nodes g;
  gv_next : gl_next g' = gl_next g;
  gv_pub : gl_pub g' = gl_pub g;
  gv_key : gl_compl_key g' = gl_compl_key g;
  gv_sunk : gl_sunk g ⊆ gl_sunk g';
  gv_fenced : gl_fenced g' = gl_fenced g;
  gv_dirty : gl_dirty_bytes g' = gl_dirty_bytes g;
  gv_objects : gl_dirty_objects g' = gl_dirty_objects g;
  gv_heap b : gl_heap g' !! b = gl_heap g !! b ∨ ResBuf b ∈ R ∧ gl_heap g' !! b = None;
  gv_compl : gl_compl g' = gl_compl g ∨
    ∃ c, ResCmp c ∈ R ∧ gl_compl g' = gl_compl (CompletePut (Some c) false g);
}.

Lemma gives_grows R g g' : gives R g g' → grows g g'.
Proof.
  intros [_ _ _ E1 E2 E3 E4 _ _ _ Hc]. split; try (rewrite ?E1, ?E2, ?E4; done).
  intros c p Hp. destruct Hc as [-> |(c' & _ & ->)]; [eauto|]. by apply (complete_grows c' false g).
Qed.

Lemma gives_canceled R g g' c : gives R g g' → canceled c g' = canceled c g.
Proof.
  intros Hg. destruct (gv_compl _ _ _ Hg) as [E|(c' & _ & E)].
  - unfold canceled. by rewrite E.
  - rewrite <- (complete_canceled c' c false g). unfold canceled. by rewrite E.
Qed.

Lemma inv_shrink y i sh sh' g' id call call' :
  Inv y → y_calls y !! id = Some call → y_shards y !! i = Some sh → sh_mu sh = None → sh_mu sh' = None →
  same_place sh sh' → sh_index sh' = sh_index sh → sh_flushq sh' = sh_flushq sh → sp_wf (sh_alloc sh') →
  (∀ k, sp_slot (sh_alloc sh') k = sp_slot (sh_alloc sh) k ∨
     ResSlot k ∈ call_res y call ∧ is_Some (sp_slot (sh_alloc sh) k)) →
  (∀ k, sh_writing sh' !! k = sh_writing sh !! k ∨ ResWriting k ∈ call_res y call ∧ sh_writing sh' !! k = None) →
  gives (call_res y call) (y_gl y) g' →
  (∀ r, r ∈ call_res y call' → r ∈ call_res y call) →
  (∀ r, tracked r = true → r ∈ call_res y call → r ∈ call_res y call' ∨
     ¬ present (after y i sh' g' (<[id := call']> (y_calls y)) (y_hits y)) r) →
  call_ok (after y i sh' g' (<[id := call']> (y_calls y)) (y_hits y)) id call' →
  (∀ k, kept_w k id call' = kept_w k id call) →
  gl_budget_used g' = gl_budget_used (y_gl y) - budget_w id call + budget_w id call' →
  gl_large_used g' = gl_large_used (y_gl y) - reserve_w id call + reserve_w id call' →
  gl_budget_used g' <= gl_budget_used (y_gl y) → gl_large_used g' <= gl_large_used (y_gl y) →
  Inv (after y i sh' g' (<[id := call']> (y_calls y)) (y_hits y)).
Proof.
  intros Hinv Hcall Hi Hmu Hmu' Hpl Hix Hq Hwf Hsl Hwr Hg Hsub Hkeep Hok Hk B1 B2 L1 L2.
  pose proof (iv_own _ Hinv) as Hown. set (R := call_res y call) in *.
  pose proof Hg as [G1 G2 G3 G4 G5 G6 G7 G8 G9 G10 G11].
  assert (Hcl : ∀ c, gl_compl g' !! c = gl_compl (y_gl y) !! c ∨ ResCmp c ∈ R).
  { intros c. destruct G11 as [-> |(c' & Hc' & ->)]; [by left|]. destruct (decide (c = c')) as [->|Hne]; [by right|].
    left. by apply complete_other. }
  apply (inv_call y i sh sh' g' id call call' (ResLock i :: R)); try done.
  - by eapply gives_grows.
  - intros r Hr. rewrite not_elem_of_cons in Hr. destruct Hr as [Hl Hr]. apply (same_after _ _ sh); [done|].
    destruct r as [k|b|c|n|k|k|j|k|k]; rewrite ?Hix, ?Hq, ?G1, ?G2, ?G4; auto.
    + split; [|done]. intros _. by destruct (Hsl k) as [?|[? _]].
    + by destruct (G10 b) as [?|[? _]].
    + destruct (Hcl c) as [->|?]; [auto|done].
    + intros _. by destruct (Hwr k) as [?|[? _]].
  - intros r [->|Hr]%elem_of_cons; [right; by eapply unlocked_free|by left].
  - auto.
  - intros r Ht Hp Hr. assert (Hr' : r = ResLock i ∨ r ∈ R) by (destruct Hr as [[->|?]%elem_of_cons|?]; auto).
    destruct Hr' as [-> |Hr'].
    + exfalso. unfold present in Hp. rewrite (there_mu _ _ sh), Hmu' in Hp by done. by destruct Hp.
    + by destruct (Hkeep r Ht Hr').
  - intros k. destruct (Hsl k) as [-> |[_ ?]]; auto.
  - intros k. destruct (Hwr k) as [-> |[_ ->]]; [auto|by intros []].
  - destruct (iv_ids _ Hinv) as [I1 I2 I3 I4 I5]. split; intros n Hn; rewrite G3 in Hn; rewrite ?G2, ?G4, ?G5; auto.
    + destruct G11 as [-> |(c' & _ & ->)]; [auto|]. by apply (complete_ids (Some c') false _ (iv_ids _ Hinv)).
    + destruct (G10 n) as [-> |[_ ?]]; auto.
  - intros c p' Hp' Hs. destruct G11 as [E|(c' & _ & E)]; rewrite E in Hp'; [eauto|]. by eapply complete_false_success.
  - rewrite G7. auto.
  - intros c. by rewrite (gives_canceled _ _ _ _ Hg).
  - intros c Hf Hc. rewrite (gives_canceled _ _ _ _ Hg). rewrite G7 in Hf. apply (hs_fence_call _ (iv_hist _ Hinv) c id Hf).
    cbn. rewrite Hcall. auto.
  - by left.
  - by left.
Qed.

(** The same outside the shards. *)
Lemma inv_shrink_gl y g' id call call' :
  Inv y → y_calls y !! id = Some call → gives (call_res y call) (y_gl y) g' →
  (∀ r, r ∈ call_res y call' → r ∈ call_res y call) →
  (∀ r, tracked r = true → r ∈ call_res y call → r ∈ call_res y call' ∨ ∃ b, r = ResBuf b ∧ gl_heap g' !! b = None) →
  call_ok (with_call id call' (with_gl (λ _, g') y)) id call' →
  (∀ k, kept_w k id call' = kept_w k id call) →
  gl_budget_used g' = gl_budget_used (y_gl y) - budget_w id call + budget_w id call' →
  gl_large_used g' = gl_large_used (y_gl y) - reserve_w id call + reserve_w id call' →
  gl_budget_used g' <= gl_budget_used (y_gl y) → gl_large_used g' <= gl_large_used (y_gl y) →
  Inv (with_call id call' (with_gl (λ _, g') y)).
Proof.
  intros Hinv Hcall Hg Hsub Hkeep Hok Hk B1 B2 L1 L2. pose proof (iv_own _ Hinv) as Hown.
  destruct (y_shards y) as [|sh shs] eqn:Hsh.
  { destruct (go_shards _ (iv_geo _ Hinv)). unfold geo. by rewrite Hsh. }
  assert (Hi : y_shards y !! 0%nat = Some sh) by (by rewrite Hsh).
  rewrite <- (after_same y 0 sh) by done. rewrite <- (after_same y 0 sh) in Hok by done.
  set (R := call_res y call) in *. pose proof Hg as [G1 G2 G3 G4 G5 G6 G7 G8 G9 G10 G11].
  apply (inv_call y 0 sh sh g' id call call' R); try done.
  - by eapply gives_grows.
  - intros r Hr. apply (same_after _ _ sh); [done|].
    destruct r as [k|b|c|n|k|k|j|k|k]; rewrite ?G1, ?G2, ?G4; auto.
    + by destruct (G10 b) as [?|[? _]].
    + split; [|auto]. destruct G11 as [-> |(c' & Hc' & ->)]; [done|]. rewrite complete_other; [done|]. by intros ->.
  - auto.
  - auto.
  - intros r Ht Hp Hr. assert (Hr' : r ∈ R) by (by destruct Hr). destruct (Hkeep r Ht Hr') as [?|(b & -> & Hb)]; [done|].
    exfalso. cbn in Hp. rewrite Hb in Hp. by destruct Hp.
  - apply (mp_pool _ (iv_maps _ Hinv) _ _ Hi).
  - by left.
  - by left.
  - destruct (iv_ids _ Hinv) as [I1 I2 I3 I4 I5]. split; intros n Hn; rewrite G3 in Hn; rewrite ?G2, ?G4, ?G5; auto.
    + destruct G11 as [-> |(c' & _ & ->)]; [auto|]. by apply (complete_ids (Some c') false _ (iv_ids _ Hinv)).
    + destruct (G10 n) as [-> |[_ ?]]; auto.
  - intros c p' Hp' Hs. destruct G11 as [E|(c' & _ & E)]; rewrite E in Hp'; [eauto|]. by eapply complete_false_success.
  - rewrite G7. auto.
  - intros c. by rewrite (gives_canceled _ _ _ _ Hg).
  - intros c Hf Hc. rewrite (gives_canceled _ _ _ _ Hg). rewrite G7 in Hf. apply (hs_fence_call _ (iv_hist _ Hinv) c id Hf).
    cbn. rewrite Hcall. auto.
  - by left.
  - by left.
Qed.

(** ** Slots of calls *)

(** [Unpin] and [Remove] of a slot with one pin. *)
Lemma free_slot_gone key sl sh :
  sp_wf (sh_alloc sh) → sp_slot (sh_alloc sh) key = Some sl → sl_pins sl = 1 → sl_pending sl = false →
  let a' := sh_alloc (free_slot key (Some (sl_handle sl)) sh) in
  sp_wf a' ∧ slot_updated (sh_alloc sh) key None a'.
Proof.
  intros Hwf Hsl Hp Hpe. destruct (sp_unpin_ok _ _ _ Hwf Hsl) as (a1 & E1 & Hwf1 & [Hs1 Ho1]); [lia|].
  rewrite Hp, Hpe in Hs1. cbn in Hs1.
  assert (Hsl1 : sp_slot a1 key = Some (set_pins (1 - 1) sl)) by (by rewrite Hs1, decide_True).
  destruct (sp_remove_ok _ _ _ Hwf1 Hsl1) as (r & a2 & E2 & Hwf2 & [Hs2 Ho2]). cbn in Hs2.
  cbn. rewrite E1. cbn. rewrite E2. cbn. split; [done|]. split; [|congruence].
  intros k. rewrite Hs2, Hs1. by case_decide.
Qed.

(** The slot a call holds for its request. *)
Lemma call_slot y i sh k off cap h pins pending :
  y_shards y !! i = Some sh → shard_of k y = i → slot_cell y k off cap h pins pending →
  ∃ sl, sp_slot (sh_alloc sh) k = Some sl ∧ h = Some (sl_handle sl) ∧ sl_pins sl = pins ∧ sl_pending sl = pending ∧
    off = slot_addr (y_cfg y) (sh_base_off sh) (sl_ref sl) ∧ cap = r_slot_size (sl_ref sl).
Proof.
  intros Hi Hk (s & ref & hd & Hs & Hsl & -> & -> & ->). rewrite (after_home y i sh) in Hs by done. injection Hs as <-.
  rewrite (here_slot y i sh) in Hsl by done. eexists. by split.
Qed.

Lemma erase_writing_eq k c sh : sh_writing sh !! k = Some c → erase_writing_of k c sh = set_writing (delete k) sh.
Proof. intros Hw. unfold erase_writing_of. by rewrite decide_True. Qed.

Lemma delete_writing k (w : gmap BlockKey nat) (R : list Res) :
  ResWriting k ∈ R → ∀ j, delete k w !! j = w !! j ∨ ResWriting j ∈ R ∧ delete k w !! j = None.
Proof.
  intros Hk j. destruct (decide (j = k)) as [->|Hj]; [right; split; [done|apply lookup_delete_eq]|left; by rewrite lookup_delete_ne].
Qed.

Lemma gives_refl R g g' : quiet g g' → gl_dirty_bytes g' = gl_dirty_bytes g → gl_dirty_objects g' = gl_dirty_objects g → gives R g g'.
Proof. intros [Q1 Q2 Q3 Q4 Q5 Q6 Q7 Q8 Q9] B1 B2. split; try done; [intros b; left; by rewrite Q2|by left]. Qed.

Lemma gives_complete R c g g1 g' :
  ResCmp c ∈ R → quiet g g1 → quiet (CompletePut (Some c) false g1) g' →
  gl_dirty_bytes g' = gl_dirty_bytes g → gl_dirty_objects g' = gl_dirty_objects g → gives R g g'.
Proof.
  intros Hc [Q1 Q2 Q3 Q4 Q5 Q6 Q7 Q8 Q9] [P1 P2 P3 P4 P5 P6 P7 P8 P9] B1 B2. cbn in *.
  split; try congruence; [by etrans|intros b; left; congruence|]. right. exists c. split; [done|]. rewrite P4, Q4. done.
Qed.

(** ** Not admitted *)

Definition fails (adm : Admission) : bool := match adm with kRejected | kBypass => true | _ => false end.

Lemma finish_failed cfg r kind adm c g :
  fails adm = true → ∃ res, finish_put cfg r kind adm c g = (CRet r (Some adm) c res, g) ∧ ∀ g', ret_ok cfg g' r (Some adm) c res.
Proof.
  intros Ha. destruct kind, adm; try done; cbn; eexists; (split; [done|]); intros g'; unfold ret_ok; by destruct (rq_op r) as [[]| |].
Qed.

Lemma step_fail y id inp r c y' :
  Inv y → y_calls y !! id = Some (CFail r c) → call_step id inp y (CFail r c) = Some y' → Inv y'.
Proof.
  intros Hinv Hcall. destruct (ow_ok _ (iv_own _ Hinv) (OCall id) _ Hcall) as (Had & Hreg & Hw). cbn [call_step].
  intros (sh & call' & sh' & g' & Hi & Hmu & E & ->)%section_Some. set (i := shard_of (rq_key r) y) in *.
  rewrite (here_writing y i sh) in Hw by done. pose proof (mp_pool _ (iv_maps _ Hinv) _ _ Hi) as Hwf.
  assert (Hgone : ∀ g' call', ¬ present (after y i (set_writing (delete (rq_key r)) sh) g' (<[id := call']> (y_calls y)) (y_hits y)) (ResWriting (rq_key r))).
  { intros g1 call1. unfold present. rewrite (there_writing _ _ sh) by done. cbn. rewrite lookup_delete_eq. by intros []. }
  unfold fail_section in E. destruct (rq_op r) eqn:Er.
  - rewrite erase_writing_eq in E by done. injection E as <- <- <-.
    apply (inv_shrink y i sh _ (y_gl y) id (CFail r c)); try done; try (cbn; lia); cbn [call_res].
    + by left.
    + apply delete_writing. list_in.
    + by apply gives_refl.
    + intros x. list_in.
    + intros x Ht Hx. res_in Hx; subst x; auto; done.
    + split; [done|]. unfold is_put. by rewrite Er.
  - injection E as <- <- <-.
    apply (inv_shrink y i sh _ (CompletePut (Some c) false (y_gl y)) id (CFail r c)); try done; try (cbn; lia); cbn [call_res].
    + by left.
    + apply delete_writing. list_in.
    + by eapply gives_complete; [list_in|split|split|..].
    + by intros x ?%elem_of_nil.
    + intros x Ht Hx. res_in Hx; subst x; auto; done.
    + cbn. unfold ret_ok. by rewrite Er.
  - injection E as <- <- <-.
    apply (inv_shrink y i sh _ (CompletePut (Some c) false (y_gl y)) id (CFail r c)); try done; try (cbn; lia); cbn [call_res].
    + by left.
    + apply delete_writing. list_in.
    + by eapply gives_complete; [list_in|split|split|..].
    + by intros x ?%elem_of_nil.
    + intros x Ht Hx. res_in Hx; subst x; auto; done.
    + cbn. unfold ret_ok. by rewrite Er.
Qed.

Lemma step_failed y id inp r c stop y' :
  Inv y → y_calls y !! id = Some (CFailed r c stop) → call_step id inp y (CFailed r c stop) = Some y' → Inv y'.
Proof.
  intros Hinv Hcall. cbn [call_step]. destruct (rq_op r) as [kind| |]; [|done..].
  set (g1 := CompletePut (Some c) false (y_gl y)).
  assert (Hend : ∀ g2 adm, fails adm = true → quiet g1 g2 → gl_budget_used g2 = gl_budget_used g1 →
    gl_large_used g2 = gl_large_used g1 → gl_dirty_bytes g2 = gl_dirty_bytes g1 → gl_dirty_objects g2 = gl_dirty_objects g1 →
    ∃ call', finish_put (y_cfg y) r kind adm (Some c) g2 = (call', g2) ∧ Inv (with_call id call' (with_gl (λ _, g2) y))).
  { intros g2 adm Ha Hq B1 B2 B3 B4. destruct (finish_failed (y_cfg y) r kind adm (Some c) g2 Ha) as (res & -> & Hok).
    eexists. split; [done|].
    apply (inv_shrink_gl y g2 id (CFailed r c stop)); try done; cbn [call_res].
    - eapply gives_complete; [list_in|by split|done|by rewrite B3|by rewrite B4].
    - by intros x ?%elem_of_nil.
    - intros x Ht ->%list_elem_of_singleton. done.
    - apply Hok.
    - rewrite B1. cbn. lia.
    - rewrite B2. cbn. lia.
    - by rewrite B1.
    - by rewrite B2. }
  destruct stop.
  - destruct (Hend g1 kRejected) as (call' & -> & ?); try done. by intros [= <-].
  - destruct (Hend (bump MPutBypass 1 g1) kBypass) as (call' & -> & ?); try done. by intros [= <-].
Qed.

(** ** Canceled *)

Lemma install_canceled y id i sh r l :
  Inv y → y_calls y !! id = Some (CInstall r l) → y_shards y !! i = Some sh → sh_mu sh = None →
  shard_of (rq_key r) y = i →
  let sh1 := set_writing (delete (rq_key r)) sh in
  Inv (after y i (if loc_large l then sh1 else free_slot (rq_key r) (lc_handle l) sh1) (y_gl y)
         (<[id := CCanceled r l]> (y_calls y)) (y_hits y)).
Proof.
  intros Hinv Hcall Hi Hmu Hk sh1. destruct (ow_ok _ (iv_own _ Hinv) (OCall id) _ Hcall) as (Had & Hw & Hcell & Hop & _).
  pose proof (mp_pool _ (iv_maps _ Hinv) _ _ Hi) as Hwf.
  set (sh' := if loc_large l then sh1 else _).
  assert (Hf : sh_index sh' = sh_index sh ∧ sh_flushq sh' = sh_flushq sh ∧ sh_mu sh' = None ∧ sh_base_off sh' = sh_base_off sh ∧
    sh_writing sh' = delete (rq_key r) (sh_writing sh)) by (subst sh'; by destruct (loc_large l)).
  destruct Hf as (F1 & F2 & F3 & F4 & F5).
  assert (Hp : sp_wf (sh_alloc sh') ∧ sp_opt (sh_alloc sh') = sp_opt (sh_alloc sh) ∧
    (∀ k, sp_slot (sh_alloc sh') k = sp_slot (sh_alloc sh) k ∨ lc_large l = None ∧ k = rq_key r ∧ is_Some (sp_slot (sh_alloc sh) k)) ∧
    (lc_large l = None → sp_slot (sh_alloc sh') (rq_key r) = None)).
  { destruct Hcell as [_ Hcell]. subst sh'. unfold loc_large. destruct (lc_large l) as [b|].
    { split_and!; try done. by left. }
    destruct Hcell as [_ Hcell]. destruct (call_slot y i sh _ _ _ _ _ _ Hi Hk Hcell) as (sl & Hsl & -> & Hpi & Hpe & _ & _).
    destruct (free_slot_gone (rq_key r) sl sh1 Hwf Hsl Hpi Hpe) as [W [U O]]. split_and!; [done|done| |].
    - intros k. rewrite U. case_decide as Hkk; [right|by left]. subst k. rewrite Hsl. by split_and!.
    - intros _. rewrite U. by rewrite decide_True. }
  destruct Hp as (P1 & P2 & P3 & P4).
  apply (inv_shrink y i sh sh' (y_gl y) id (CInstall r l)); try done; try (cbn; lia); cbn [call_res].
  - intros k. destruct (P3 k) as [?|(El & -> & ?)]; [by left|right]. split; [|done]. rewrite El. list_in.
  - intros k. rewrite F5. apply delete_writing. list_in.
  - by apply gives_refl.
  - intros x. destruct (lc_large l); list_in.
  - intros x Ht Hx. unfold storage_res in Hx. rewrite !elem_of_cons in Hx. destruct Hx as [->|[->|[->|[]%elem_of_nil]]].
    + done.
    + right. unfold present. rewrite (there_writing _ _ sh), F5, lookup_delete_eq by done. by intros [].
    + destruct (lc_large l) as [b|] eqn:El; [left; list_in|right]. unfold present.
      rewrite (there_slot _ _ sh), P4 by done. by intros [].
  - destruct Hcell as [? Hcell]. split_and!; [done|done|done|]. by destruct (lc_large l); destruct Hcell.
Qed.

Lemma step_canceled y id inp r l y' :
  Inv y → y_calls y !! id = Some (CCanceled r l) → call_step id inp y (CCanceled r l) = Some y' → Inv y'.
Proof.
  intros Hinv Hcall. destruct (ow_ok _ (iv_own _ Hinv) (OCall id) _ Hcall) as (Had & Hop & Hcap & Hb). cbn [call_step].
  set (g' := free_buffer _ _). pose proof (ad_req _ _ _ _ Had) as (_ & Hlen & _).
  assert (Hgv : gives (call_res y (CCanceled r l)) (y_gl y) g').
  { assert (Hgv : gives (call_res y (CCanceled r l)) (y_gl y)
      (CompletePut (Some (lc_completion l)) false (release (loc_large l) (lc_cap l) (y_gl y)))).
    { eapply gives_complete; [cbn; list_in|..]; unfold release; destruct (loc_large l); by split. }
    subst g'. destruct (lc_large l) as [b|] eqn:El; [|done]. cbn [free_buffer]. destruct Hgv as [G1 G2 G3 G4 G5 G6 G7 G8 G9 G10 G11].
    split; try done. intros b'. cbn. destruct (decide (b' = b)) as [->|Hne].
    - right. rewrite lookup_delete_eq, El. split; [list_in|done].
    - rewrite lookup_delete_ne by done. destruct (G10 b') as [?|[? ?]]; auto. }
  assert (Hsum : gl_budget_used g' = gl_budget_used (y_gl y) - lc_cap l ∧
    gl_large_used g' = gl_large_used (y_gl y) - if loc_large l then lc_cap l else 0).
  { subst g'. unfold release, loc_large. destruct (lc_large l); cbn; lia. }
  destruct Hsum as [S1 S2].
  assert (Hend : ∀ adm c res, (∀ g1, ret_ok (y_cfg y) g1 r adm c res) → Inv (with_call id (CRet r adm c res) (with_gl (λ _, g') y))).
  { intros adm c res Hok. apply (inv_shrink_gl y g' id (CCanceled r l)); try done.
    - by intros x ?%elem_of_nil.
    - intros x Ht Hx. right. cbn [call_res] in Hx. destruct (lc_large l) as [b|] eqn:El; res_in Hx; subst x; [done| |done].
      exists b. split; [done|]. subst g'. apply lookup_delete_eq.
    - apply Hok.
    - rewrite S1. cbn. lia.
    - rewrite S2. cbn. lia.
    - rewrite S1. lia.
    - rewrite S2. case_match; lia. }
  destruct (rq_op r) as [kind| |] eqn:Er.
  - destruct (finish_failed (y_cfg y) r kind kRejected (Some (lc_completion l)) g' eq_refl) as (res & -> & Hok).
    intros [= <-]. by apply Hend.
  - intros [= <-]. apply Hend. intros g1. unfold ret_ok. by rewrite Er.
  - done.
Qed.

(** ** Reservations that are not published *)

(** The slot of an open reservation. *)
Lemma open_slot y i sh r l :
  Inv y → y_shards y !! i = Some sh → shard_of (rq_key r) y = i → live_req (y_cfg y) r → rq_op r = OpReserve → loc_cell y r l →
  lc_large l = None ∧ ∃ sl, sp_slot (sh_alloc sh) (rq_key r) = Some sl ∧ lc_handle l = Some (sl_handle sl) ∧
    sl_pins sl = 1 ∧ sl_pending sl = false ∧ lc_offset l = slot_addr (y_cfg y) (sh_base_off sh) (sl_ref sl) ∧
    lc_cap l = r_slot_size (sl_ref sl).
Proof.
  intros Hinv Hi Hk (_ & _ & Hl) Hop [_ Hcell]. rewrite Hop in Hl. destruct (lc_large l) as [b|].
  - destruct Hcell. congruence.
  - split; [done|]. destruct Hcell as [_ Hcell]. by apply (call_slot y i sh).
Qed.

(** Commit of a reservation a removal has canceled: the bytes stay valid until
    the reset. *)
Lemma commit_canceled y id i sh r l :
  Inv y → y_calls y !! id = Some (COpen r l) → y_shards y !! i = Some sh → sh_mu sh = None →
  shard_of (rq_key r) y = i →
  Inv (after y i (pool_remove (rq_key r) (erase_writing_of (rq_key r) (lc_completion l) sh))
         (CompletePut (Some (lc_completion l)) false (y_gl y)) (<[id := CKept r l false]> (y_calls y)) (y_hits y)).
Proof.
  intros Hinv Hcall Hi Hmu Hk. destruct (ow_ok _ (iv_own _ Hinv) (OCall id) _ Hcall) as (Had & Hw & Hcell & Hop).
  pose proof (mp_pool _ (iv_maps _ Hinv) _ _ Hi) as Hwf. pose proof Hcell as [Hcap _].
  destruct (open_slot y i sh r l Hinv Hi Hk (ad_req _ _ _ _ Had) Hop Hcell) as (El & sl & Hsl & Hh & Hp & Hpe & Hof & Hca).
  rewrite (here_writing y i sh) in Hw by done. rewrite erase_writing_eq by done.
  destruct (sp_remove_ok _ _ _ Hwf Hsl) as (res & a' & E & Hwf' & [Hs' Ho']). rewrite Hp in Hs'. cbn in Hs'.
  set (sh' := pool_remove _ _). assert (Ha' : sh_alloc sh' = a') by (cbn; by rewrite E).
  set (g' := CompletePut _ _ _).
  apply (inv_shrink y i sh sh' g' id (COpen r l)); try done; try (cbn; lia); cbn [call_res]; rewrite ?El; cbn [storage_res].
  - by split; [|rewrite Ha'].
  - by rewrite Ha'.
  - intros k. rewrite Ha', Hs'. case_decide as Hkk; [right|by left]. subst k. rewrite Hsl. split; [list_in|done].
  - apply delete_writing. list_in.
  - by eapply gives_complete; [list_in|split|split|..].
  - intros x. list_in.
  - intros x Ht Hx. rewrite !elem_of_cons in Hx. destruct Hx as [->|[->|[->|[]%elem_of_nil]]]; [done| |left; list_in].
    right. unfold present. rewrite (there_writing _ _ sh) by done. cbn. rewrite lookup_delete_eq. by intros [].
  - split_and!; [apply Had|done|]. exists sh', (sl_ref sl), (sl_handle sl). rewrite (there_at _ _ sh), (there_slot _ _ sh), Ha', Hs' by done.
    rewrite decide_True by done. unfold set_pending. rewrite Hp. split_and!; done.
Qed.

Lemma reset_open y id i sh r l :
  Inv y → y_calls y !! id = Some (COpen r l) → y_shards y !! i = Some sh → sh_mu sh = None →
  shard_of (rq_key r) y = i →
  Inv (after y i (free_slot (rq_key r) (lc_handle l) (erase_writing_of (rq_key r) (lc_completion l) sh))
         (y_gl y) (<[id := CAbort r l true]> (y_calls y)) (y_hits y)).
Proof.
  intros Hinv Hcall Hi Hmu Hk. destruct (ow_ok _ (iv_own _ Hinv) (OCall id) _ Hcall) as (Had & Hw & Hcell & Hop).
  pose proof (mp_pool _ (iv_maps _ Hinv) _ _ Hi) as Hwf. pose proof Hcell as [Hcap _].
  destruct (open_slot y i sh r l Hinv Hi Hk (ad_req _ _ _ _ Had) Hop Hcell) as (El & sl & Hsl & Hh & Hp & Hpe & Hof & Hca).
  rewrite (here_writing y i sh) in Hw by done. rewrite erase_writing_eq, Hh by done.
  destruct (free_slot_gone (rq_key r) sl (set_writing (delete (rq_key r)) sh) Hwf Hsl Hp Hpe) as [W [U O]].
  set (sh' := free_slot _ _ _) in *.
  apply (inv_shrink y i sh sh' (y_gl y) id (COpen r l)); try done; try (cbn; lia); cbn [call_res]; rewrite ?El; cbn [storage_res].
  - intros k. rewrite U. case_decide as Hkk; [right|by left]. subst k. cbn. rewrite Hsl. split; [list_in|done].
  - apply delete_writing. list_in.
  - by apply gives_refl.
  - intros x. list_in.
  - intros x Ht Hx. rewrite !elem_of_cons in Hx. right. destruct Hx as [->|[->|[->|[]%elem_of_nil]]]; [done| |]; unfold present.
    + rewrite (there_writing _ _ sh) by done. cbn. rewrite lookup_delete_eq. by intros [].
    + rewrite (there_slot _ _ sh), U, decide_True by done. by intros [].
  - split_and!; [apply Had|done|]. intros _. apply Had.
Qed.

Lemma reset_canceled y id i sh r l :
  Inv y → y_calls y !! id = Some (CKept r l false) → y_shards y !! i = Some sh → sh_mu sh = None →
  shard_of (rq_key r) y = i →
  Inv (after y i (pool_unpin (rq_key r) (lc_handle l) sh) (y_gl y) (<[id := CAbort r l false]> (y_calls y)) (y_hits y)).
Proof.
  intros Hinv Hcall Hi Hmu Hk. destruct (ow_ok _ (iv_own _ Hinv) (OCall id) _ Hcall) as (Hl & Hcap & Hcell).
  pose proof (mp_pool _ (iv_maps _ Hinv) _ _ Hi) as Hwf.
  destruct (call_slot y i sh _ _ _ _ _ _ Hi Hk Hcell) as (sl & Hsl & Hh & Hp & Hpe & _ & _). rewrite Hh.
  destruct (sp_unpin_ok _ _ _ Hwf Hsl) as (a' & E & Hwf' & [Hs' Ho']); [lia|]. rewrite Hp, Hpe in Hs'. cbn in Hs'.
  set (sh' := pool_unpin _ _ _). assert (Ha' : sh_alloc sh' = a') by (cbn; by rewrite E).
  apply (inv_shrink y i sh sh' (y_gl y) id (CKept r l false)); try done; try (cbn; lia); cbn [call_res].
  - by split; [|rewrite Ha'].
  - by rewrite Ha'.
  - intros k. rewrite Ha', Hs'. case_decide as Hkk; [right|by left]. subst k. rewrite Hsl. split; [list_in|done].
  - by left.
  - by apply gives_refl.
  - by intros x ?%elem_of_nil.
  - intros x Ht ->%list_elem_of_singleton. right. unfold present. rewrite (there_slot _ _ sh), Ha', Hs', decide_True by done. by intros [].
Qed.

Lemma step_abort y id inp r l complete y' :
  Inv y → y_calls y !! id = Some (CAbort r l complete) →
  call_step id inp y (CAbort r l complete) = Some y' → Inv y'.
Proof.
  intros Hinv Hcall. destruct (ow_ok _ (iv_own _ Hinv) (OCall id) _ Hcall) as ((_ & Hlen & _) & Hcap & Hpd).
  cbn [call_step]. intros [= <-]. set (g1 := ReleaseBudget (lc_cap l) (y_gl y)).
  set (g' := if complete then CompletePut (Some (lc_completion l)) false g1 else g1).
  change (Inv (with_call id (CRet r None None (RBool true)) (with_gl (λ _, g') y))).
  assert (Hs : gl_budget_used g' = gl_budget_used (y_gl y) - lc_cap l ∧ gl_large_used g' = gl_large_used (y_gl y)) by (by destruct complete).
  destruct Hs as [S1 S2]. apply (inv_shrink_gl y g' id (CAbort r l complete)); try done.
  - destruct complete; [by eapply gives_complete; [cbn; list_in|split|split|..]|by apply gives_refl].
  - by intros x ?%elem_of_nil.
  - intros x Ht Hx. cbn [call_res] in Hx. destruct complete; res_in Hx; by subst x.
  - cbn. unfold ret_ok. by destruct (rq_op r) as [[]| |].
  - rewrite S1. cbn. lia.
  - rewrite S2. cbn. lia.
  - lia.
  - lia.
Qed.

End give.
