(* ===== verification/RamStart.v ===== *)
(** * RAM tier: the start of an admission

    The entry checks and the first critical sections of [Admit], [PutDurable] and
    [ReserveDurable], and the rounds of their reservations. *)

From S2P Require Import Prelude KvTypes SlabTypes SlabOps SlotPool RamTypes RamOps RamInv RamFrame RamShard.
From S2P Require Import RamCall RamLocal RamEvict RamAdmit RamRemove RamGive.

(** [AlignCapacity] rounds up. *)
Lemma AlignCapacity_ge len align cap : 0 < align → AlignCapacity len align = Some cap → len <= cap.
Proof.
  intros Ha. unfold AlignCapacity. destruct (_ || _); [done|]. intros [= <-].
  pose proof (Z.mod_pos_bound (len + align - 1) align Ha). pose proof (Z.div_mod (len + align - 1) align ltac:(lia)).
  destruct (Z.eqb_spec ((len + align - 1) / align * align) 0); lia.
Qed.

Section start.
Context {A : Type} `{SlotPoolLaws A}.
Notation Sys := (Sys A).
Notation Shard := (Shard A).
Implicit Types (y : Sys) (k : BlockKey) (sh : Shard) (g : Globals).

(** Only the reported counters differ. *)
Definition metrics_only g g' : Prop :=
  quiet g g' ∧ gl_budget_used g' = gl_budget_used g ∧ gl_large_used g' = gl_large_used g ∧
  gl_dirty_bytes g' = gl_dirty_bytes g ∧ gl_dirty_objects g' = gl_dirty_objects g.

Lemma metrics_refl g : metrics_only g g.
Proof. by split_and!. Qed.

Lemma metrics_bump m n g : metrics_only g (bump m n g).
Proof. by split_and!. Qed.

Lemma metrics_trans g g1 g' : metrics_only g g1 → metrics_only g1 g' → metrics_only g g'.
Proof.
  intros ([Q1 Q2 Q3 Q4 Q5 Q6 Q7 Q8 Q9] & ? & ? & ? & ?) ([P1 P2 P3 P4 P5 P6 P7 P8 P9] & ? & ? & ? & ?).
  split_and!; [split|..]; try congruence. by etrans.
Qed.

Lemma finish_metrics cfg r kind adm c g : metrics_only g (finish_put cfg r kind adm c g).2.
Proof.
  unfold finish_put. destruct kind, adm; cbn; try apply metrics_refl;
    repeat case_match; cbn; apply metrics_refl || apply metrics_bump.
Qed.

(** A put that returns, or waits for another's value, at once. *)
Definition settles g (r : Req) (kind : PutKind) (adm : Admission) (c : option nat) : Prop :=
  match adm with
  | kDuplicate => wait_ok g r adm c
  | kPersisted => c = None ∧ mkPersistedCall (rq_key r) true ∈ gl_sunk g
  | kBypass | kRejected => True
  | kBackpressure => kind = KWriteBack
  | kAccepted => False
  end.

Lemma finish_settles y id r kind adm c g call' :
  rq_op r = OpPut kind → settles (y_gl y) r kind adm c → (finish_put (y_cfg y) r kind adm c g).1 = call' →
  call_ok y id call' ∧ call_res y call' = [] ∧ (∀ k, kept_w k id call' = 0) ∧ budget_w id call' = 0 ∧ reserve_w id call' = 0.
Proof.
  intros Er Hs <-. assert (Hp : is_put r = true) by (unfold is_put; by rewrite Er).
  destruct kind, adm; cbn in Hs |- *; try done; unfold ret_ok; rewrite ?Er; try done.
  all: rewrite ?bool_decide_true, ?orb_true_r by done; cbn; by split_and!.
Qed.

Lemma start_settles y id r kind adm c g :
  Inv y → y_calls y !! id = Some (CStart r) → rq_op r = OpPut kind → settles (y_gl y) r kind adm c →
  metrics_only (y_gl y) g →
  let '(call', g') := finish_put (y_cfg y) r kind adm c g in
  Inv (with_call id call' (with_gl (λ _, g') y)).
Proof.
  intros Hinv Hcall Er Hs Hm. pose proof (finish_metrics (y_cfg y) r kind adm c g) as Hm'.
  pose proof (finish_settles y id r kind adm c g _ Er Hs eq_refl) as (Hok & Hr & Hk & Hb & Hw).
  destruct (finish_put (y_cfg y) r kind adm c g) as [call' g']. cbn [fst snd] in *.
  destruct (metrics_trans _ _ _ Hm Hm') as (Hq & B1 & B2 & B3 & B4).
  apply (inv_local y id (CStart r) call' g'); try done.
  - rewrite Hr. by intros x ?%elem_of_nil.
  - by intros x _ ?%elem_of_nil.
  - rewrite B1, Hb. cbn. lia.
  - rewrite B2, Hw. cbn. lia.
  - left. lia.
  - left. lia.
Qed.

(** A promotion that returns at once. *)
Lemma promote_return y id call r b :
  Inv y → y_calls y !! id = Some call → is_put r = false →
  call = CStart r ∨ (∃ c a, call = CArena r c a) →
  Inv (with_call id (CRet r None None (RBool b)) (with_gl (λ _, y_gl y) y)).
Proof.
  intros Hinv Hcall Hp Hc. apply (inv_local y id call); try done.
  - cbn. unfold ret_ok. unfold is_put in Hp. by destruct (rq_op r).
  - by intros x ?%elem_of_nil.
  - intros x Ht Hx. destruct Hc as [-> |(c & a & ->)]; cbn [call_res] in Hx; rewrite ?Hp in Hx; res_in Hx; by subst x.
  - by destruct Hc as [-> |(c & a & ->)].
  - destruct Hc as [-> |(c & a & ->)]; cbn; lia.
  - destruct Hc as [-> |(c & a & ->)]; cbn; lia.
  - by left.
  - by left.
Qed.

(** ** The first section of [Admit] *)

Lemma admit_finish y id i sh r kind adm c g call' sh' g' :
  Inv y → y_calls y !! id = Some (CStart r) → y_shards y !! i = Some sh → rq_op r = OpPut kind →
  settles (y_gl y) r kind adm c → metrics_only (y_gl y) g →
  (let '(call, g0) := finish_put (y_cfg y) r kind adm c g in Some (call, sh, g0)) = Some (call', sh', g') →
  Inv (after y i sh' g' (<[id := call']> (y_calls y)) (y_hits y)).
Proof.
  intros Hinv Hcall Hi Er Hs Hm E. pose proof (start_settles y id r kind adm c g Hinv Hcall Er Hs Hm) as Hset.
  destruct (finish_put _ _ _ _ _ _) as [call1 g1]. injection E as <- <- <-. by rewrite after_same.
Qed.

Lemma admit_new_inv y id i sh r kind persisted call' sh' g' :
  Inv y → y_calls y !! id = Some (CStart r) → y_shards y !! i = Some sh → sh_mu sh = None →
  shard_of (rq_key r) y = i → rq_op r = OpPut kind → live_req (y_cfg y) r →
  sh_index sh !! rq_key r = None → sh_writing sh !! rq_key r = None →
  (persisted = true → mkPersistedCall (rq_key r) true ∈ gl_sunk (y_gl y)) →
  admit_new (y_cfg y) id r kind persisted sh (y_gl y) = Some (call', sh', g') →
  Inv (after y i sh' g' (<[id := call']> (y_calls y)) (y_hits y)).
Proof.
  intros Hinv Hcall Hi Hmu Hk Er Hl Hx Hw Hd. unfold admit_new.
  pose proof (λ adm g, admit_finish y id i sh r kind adm None g call' sh' g' Hinv Hcall Hi Er) as Hfin.
  destruct persisted; [apply Hfin; [by split; [|apply Hd]|apply metrics_refl]|].
  destruct (client_ack (y_cfg y) kind && _ && _) eqn:Eb.
  { apply Hfin; [|apply metrics_bump]. cbn. apply andb_true_iff in Eb as [[Ec _]%andb_true_iff _]. by destruct kind. }
  destruct (AlignCapacity _ _) as [cap|] eqn:Ea; [|apply Hfin; [done|apply metrics_bump]].
  destruct (op_bytes (cf_opt (y_cfg y)) <? cap); [apply Hfin; [done|apply metrics_bump]|].
  apply AlignCapacity_ge in Ea; [|apply (go_gran _ (iv_geo _ Hinv))].
  assert (Hp : is_put r = true) by (unfold is_put; by rewrite Er).
  cbn [new_shared]. destruct (is_large (y_cfg y) r) eqn:El.
  - intros [= <- <- <-]. apply (start_reserved y id i sh r); try done. right. exists cap. by split.
  - intros E. pose proof (start_reserved y id i sh r (CArena r (gl_next (y_gl y)) 0) Hinv Hcall Hi Hmu Hk Hx Hw Hl
      ltac:(left; by split_and!)) as Hinv1.
    set (sh1 := emplace_writing (rq_key r) (gl_next (y_gl y)) sh) in *. set (g1 := (new_shared (rq_key r) (y_gl y)).2) in *.
    set (y1 := after y i sh1 g1 (<[id := CArena r (gl_next (y_gl y)) 0]> (y_calls y)) (y_hits y)) in *.
    assert (Hs1 : sh_mu sh1 = None ∧ sh_index sh1 = sh_index sh) by (subst sh1; unfold emplace_writing; by case_match).
    destruct Hs1 as [Hmu1 Hix1].
    pose proof (arena_put_inv y1 id i sh1 r (gl_next (y_gl y)) 0 call' sh' g' Hinv1) as Hput.
    unfold after in Hput |- *. cbn [y1 after y_cfg y_shards y_gl y_calls y_hits] in Hput.
    rewrite list_insert_insert_eq, insert_insert_eq in Hput. apply Hput; try done.
    + apply lookup_insert_eq.
    + apply list_lookup_insert_eq. by eapply lookup_lt_Some.
    + unfold y1. by rewrite (after_shard_of y i sh1).
    + by rewrite Hix1.
    + congruence.
Qed.

Lemma admit_inv y id i sh r kind inp call' sh' g' :
  Inv y → y_calls y !! id = Some (CStart r) → y_shards y !! i = Some sh → sh_mu sh = None →
  shard_of (rq_key r) y = i → rq_op r = OpPut kind → live_req (y_cfg y) r →
  admit_section (y_cfg y) id r kind inp sh (y_gl y) = Some (call', sh', g') →
  Inv (after y i sh' g' (<[id := call']> (y_calls y)) (y_hits y)).
Proof.
  intros Hinv Hcall Hi Hmu Hk Er Hl. unfold admit_section. set (key := rq_key r) in *.
  pose proof (λ adm c g, admit_finish y id i sh r kind adm c g call' sh' g' Hinv Hcall Hi Er) as Hfin.
  destruct (sh_index sh !! key) as [e|] eqn:Hx.
  { assert (He : index_at y key = Some e) by (by rewrite (here_index y i sh)).
    destruct (eo_cmp _ _ _ (ow_ok _ (iv_own _ Hinv) (OEntry key) _ He)) as (c & ? & ? & Hc & Hck & Hcv & _). rewrite Hc.
    destruct (en_remove_pending e); apply Hfin; try done; try apply metrics_refl.
    exists c. split_and!; try done. by destruct (gl_compl (y_gl y) !! c). }
  destruct (sh_writing sh !! key) as [c|] eqn:Hw.
  { destruct (writing_owner y key c (iv_own _ Hinv)) as (j & _ & [P1 P2 P3]); [by rewrite (here_writing y i sh)|].
    apply Hfin; [|apply metrics_refl]. exists c. split_and!; try done. by destruct (gl_compl (y_gl y) !! c). }
  destruct (op_is_persisted _); [|by apply admit_new_inv].
  set (g1 := set_sunk _ (y_gl y)). set (y1 := with_gl (λ _, g1) y).
  assert (Hin : gl_sunk g1 = gl_sunk (y_gl y) ++ [mkPersistedCall key (in_persisted inp)]) by done.
  assert (Hinv1 : Inv y1).
  { apply inv_gl; try done. split; try done. rewrite Hin. intros x Hx1. apply elem_of_app. by left. }
  intros E. apply (admit_new_inv y1 id i sh r kind (in_persisted inp)); try done.
  intros Hp. change (gl_sunk (y_gl y1)) with (gl_sunk g1). rewrite Hin, Hp. apply elem_of_app. right. by left.
Qed.

(** ** The entry checks *)

Lemma step_start y id inp r y' :
  Inv y → y_calls y !! id = Some (CStart r) → call_step id inp y (CStart r) = Some y' → Inv y'.
Proof.
  intros Hinv Hcall. pose proof (ow_ok _ (iv_own _ Hinv) (OCall id) _ Hcall) as Hreq. cbn in Hreq.
  assert (Hlen : rq_len r ≠ 0 → 0 < rq_len r).
  { unfold req_ok in Hreq. apply andb_true_iff in Hreq as [[?%Z.leb_le _]%andb_true_iff _]. lia. }
  cbn [call_step]. unfold start_step, lock_free. destruct (rq_op r) as [kind| |] eqn:Er.
  { destruct (Z.eqb_spec (rq_len r) 0) as [|Hl]; cbn [orb].
    2: destruct (bool_decide (rq_data r = None)) eqn:Ed.
    3:{ intros (sh & call' & sh' & g' & Hi & Hmu & E & ->)%section_Some.
        apply (admit_inv y id _ sh r kind inp); try done. apply bool_decide_eq_false in Ed. split_and!; auto. by rewrite Er. }
    all: pose proof (start_settles y id r kind kBypass None (y_gl y) Hinv Hcall Er I (metrics_refl _)) as Hs;
      destruct (finish_put _ _ _ _ _ _) as [call g]; by intros [= <-]. }
  all: assert (Hp : is_put r = false) by (unfold is_put; by rewrite Er).
  all: assert (Hret : Inv (with_call id (CRet r None None (RBool false)) (with_gl (λ g, g) y)))
    by (apply (promote_return y id (CStart r)); auto).
  all: destruct (Z.eqb_spec (rq_len r) 0) as [|Hl]; cbn [orb]; [by intros [= <-]|].
  all: rewrite ?(bool_decide_true (OpPutDurable = OpPutDurable)), ?(bool_decide_true (OpReserve = OpReserve)),
    ?(bool_decide_false (OpPutDurable = OpReserve)), ?(bool_decide_false (OpReserve = OpPutDurable)) by done; cbn [andb orb].
  - rewrite orb_false_r. destruct (bool_decide (rq_data r = None)) eqn:Ed; [by intros [= <-]|].
    apply bool_decide_eq_false in Ed. assert (Hlive : live_req (y_cfg y) r) by (split_and!; [done|auto|by rewrite Er]).
    destruct (AlignCapacity _ _) as [cap|] eqn:Ea; [|by intros [= <-]].
    apply AlignCapacity_ge in Ea; [|apply (go_gran _ (iv_geo _ Hinv))].
    destruct (op_bytes (cf_opt (y_cfg y)) <? cap); [by intros [= <-]|].
    destruct (is_large (y_cfg y) r) eqn:El; [|cbn [new_shared]; intros [= <-]; by apply start_unreserved].
    intros (sh & call' & sh' & g' & Hi & Hmu & E & ->)%section_Some. unfold durable_large_section in E.
    destruct (sh_index sh !! rq_key r) as [e|] eqn:Hx.
    { injection E as <- <- <-. rewrite after_same by done. apply (promote_return y id (CStart r)); auto. }
    destruct (sh_writing sh !! rq_key r) as [c|] eqn:Hw.
    { injection E as <- <- <-. rewrite after_same by done. apply (promote_return y id (CStart r)); auto. }
    injection E as <- <- <-. apply (start_reserved y id _ sh r); try done. right. exists cap. by split.
  - destruct (is_large (y_cfg y) r) eqn:El; [by intros [= <-]|].
    assert (Hlive : live_req (y_cfg y) r) by (split_and!; [done|auto|by rewrite Er]).
    destruct (AlignCapacity _ _) as [cap|] eqn:Ea; [|by intros [= <-]].
    destruct (op_bytes (cf_opt (y_cfg y)) <? cap); [by intros [= <-]|].
    cbn [new_shared]. intros [= <-]. by apply start_unreserved.
Qed.

(** ** The rounds of a reservation *)

Lemma step_arena y id inp r c a y' :
  Inv y → y_calls y !! id = Some (CArena r c a) → call_step id inp y (CArena r c a) = Some y' → Inv y'.
Proof.
  intros Hinv Hcall. destruct (ow_ok _ (iv_own _ Hinv) (OCall id) _ Hcall) as (Had & Hnl & Hw). cbn [call_step].
  intros (sh & call' & sh' & g' & Hi & Hmu & E & ->)%section_Some. set (i := shard_of (rq_key r) y) in *.
  assert (Hret : ∀ b, is_put r = false → Some (CRet r None None (RBool b), sh, y_gl y) = Some (call', sh', g') →
    Inv (after y i sh' g' (<[id := call']> (y_calls y)) (y_hits y))).
  { intros b Hp [= <- <- <-]. rewrite after_same by done. eapply promote_return; eauto. }
  destruct (is_put r) eqn:Hp.
  - assert (Hx : sh_index sh !! rq_key r = None).
    { rewrite <- (here_index y i sh) by done. apply (mp_excl _ (iv_maps _ Hinv)). by rewrite Hw. }
    apply (arena_put_inv y id i sh r c a); try done; [congruence|]. unfold arena_section in E. unfold is_put in Hp. by destruct (rq_op r).
  - assert (Hop : ∀ kind, rq_op r ≠ OpPut kind) by (intros kind Ek; unfold is_put in Hp; by rewrite Ek in Hp).
    unfold arena_section in E. destruct (sh_index sh !! rq_key r) as [e|] eqn:Hx, (sh_writing sh !! rq_key r) as [c'|] eqn:Hw'.
    4: apply (arena_put_inv y id i sh r c a); try done; by destruct (rq_op r) as [kind| |]; [destruct (Hop kind)|..].
    all: destruct (rq_op r) as [kind| |]; [by destruct (Hop kind)|..]; by eapply Hret.
Qed.

Lemma step_reserve y id inp r c a ref h y' :
  Inv y → y_calls y !! id = Some (CReserve r c a ref h) → call_step id inp y (CReserve r c a ref h) = Some y' → Inv y'.
Proof.
  intros Hinv Hcall. cbn [call_step]. intros (sh & call' & sh' & g' & Hi & Hmu & E & ->)%section_Some.
  destruct (TryReserve (y_cfg y) (r_slot_size ref) (y_gl y)) as [g1|] eqn:Et.
  - assert (g1 = g') as ->.
    { unfold reserve_section in E. rewrite Et in E. by injection E as _ _ ->. }
    by eapply reserve_taken.
  - unfold reserve_section in E. rewrite Et in E. injection E as <- <- <-. by apply (reserve_failed y id _ sh r c a ref h).
Qed.

End start.
