(* ===== verification/RamCopy.v ===== *)
(** * RAM tier: the payload

    The allocation of a dedicated buffer and the copies into the memory a call
    owns: the [memcpy] of an admission, and the storage read into a reservation. *)

From S2P Require Import Prelude KvTypes SlabTypes SlabOps SlotPool RamTypes RamOps RamInv RamFrame RamShard.
From S2P Require Import RamCall RamLocal RamMem RamRemove.

Section copy.
Context {A : Type} `{SlotPoolLaws A}.
Notation Sys := (Sys A).
Notation Shard := (Shard A).
Implicit Types (y : Sys) (k : BlockKey) (sh : Shard) (g : Globals).

Lemma some_shard y : Inv y → ∃ sh, y_shards y !! 0%nat = Some sh.
Proof.
  intros Hinv. destruct (y_shards y) as [|sh shs] eqn:Hsh; [|by exists sh].
  destruct (go_shards _ (iv_geo _ Hinv)). unfold geo. by rewrite Hsh.
Qed.

(** ** [posix_memalign] *)

Lemma malloc_done y id r c cap bs :
  Inv y → y_calls y !! id = Some (CMalloc r c cap) → Z.of_nat (length bs) = cap →
  Inv (with_call id (CCopy r (mkLoc 0 cap None (Some (gl_next (y_gl y))) c)) (with_gl (λ _, (new_buffer bs (y_gl y)).2) y)).
Proof.
  intros Hinv Hcall Hlen. destruct (ow_ok _ (iv_own _ Hinv) (OCall id) _ Hcall) as (Had & Hw & [Hlg Hle]).
  destruct (some_shard y Hinv) as [sh Hi]. rewrite <- (after_same y 0 sh) by done.
  set (b := gl_next (y_gl y)). set (g' := (new_buffer bs (y_gl y)).2). set (call' := CCopy _ _).
  assert (Hfree : free_res y (ResBuf b)).
  { apply absent_free; [apply Hinv|]. cbn. rewrite (id_heap _ (iv_ids _ Hinv)) by done. by intros []. }
  assert (Hgr : grows (y_gl y) g') by (split; try done; eauto).
  assert (Hother : ∀ r, r ≠ ResBuf b → same_res y (after y 0 sh g' (<[id := call']> (y_calls y)) (y_hits y)) r).
  { intros x Hx. apply (same_after _ _ sh); [done|]. destruct x as [k|b'|c'|n|k|k|j|k|k]; auto.
    cbn. rewrite lookup_insert_ne; [done|]. intros <-. by apply Hx. }
  apply (inv_call y 0 sh sh g' id (CMalloc r c cap) call' [ResBuf b]); try done.
  - intros x Hx. apply Hother. intros ->. apply Hx. list_in.
  - intros x ->%list_elem_of_singleton. by right.
  - assert (Hok : call_ok (after y 0 sh g' (<[id := call']> (y_calls y)) (y_hits y)) id (CMalloc r c cap)).
    { eapply call_ok_frame; [by apply (after_geo _ _ sh)|done| |by split_and!].
      intros x Hx. apply Hother. cbn in Hx. intros ->. res_in Hx. }
    destruct Hok as (Had' & Hw' & _). split_and!; [done|done| |].
    + split; [done|]. split; [done|]. exists bs. cbn. by rewrite lookup_insert_eq.
    + intros Hop. destruct Had as [(_ & _ & Hrq) _]. rewrite Hop in Hrq. congruence.
  - intros x Hx. cbn [call_res call' lc_completion lc_large storage_res] in Hx. rewrite !elem_of_cons in Hx.
    destruct Hx as [->|[->|[->|[]%elem_of_nil]]]; [left; cbn; list_in|left; cbn; list_in|by right].
  - intros x Ht _ Hx. cbn [call_res call' lc_completion lc_large storage_res]. destruct Hx as [Hx|Hx]; cbn in Hx; res_in Hx; subst x; list_in.
  - apply (mp_pool _ (iv_maps _ Hinv) _ _ Hi).
  - by left.
  - by left.
  - destruct (iv_ids _ Hinv) as [I1 I2 I3 I4 I5]. split; cbn; intros n Hn; rewrite ?lookup_insert_ne by lia;
      [apply I1|apply I2|apply I3|apply I4|apply I5]; lia.
  - eauto.
  - by left.
  - intros c' Hf Hc. apply (hs_fence_call _ (iv_hist _ Hinv) c' id Hf). cbn. rewrite Hcall. cbn in Hc |- *. res_in Hc. rewrite Hc. list_in.
  - cbn. lia.
  - cbn. lia.
  - by left.
  - by left.
Qed.

(** ** Copies *)

Lemma loc_cell_cell y r l : loc_cell y r l → cell y (rq_key r) (lc_large l) (lc_offset l) (lc_cap l).
Proof. intros [_ Hc]. unfold cell. destruct (lc_large l); destruct Hc as [_ Hc]; eauto. Qed.

Lemma stored_cell y r l off start bs g' calls :
  loc_cell y r l → stored y (rq_key r) (lc_large l) off start bs g' →
  loc_cell (mkSys (y_cfg y) (y_shards y) g' calls (y_hits y)) r l.
Proof.
  intros [Hl Hc] Hs. split; [done|]. destruct (lc_large l) as [b|]; destruct Hc as [Hlg Hc]; (split; [done|]).
  - destruct (sd_buf _ _ _ _ _ _ _ Hs b eq_refl) as (_ & buf & buf' & H1 & H2 & H3). exists buf'. cbn. rewrite H2, lookup_insert_eq.
    split; [done|]. destruct Hc as (buf0 & Hb & <-). rewrite H1 in Hb. injection Hb as <-. congruence.
  - destruct Hc as (s & ref & hd & H1 & H2 & H3). by exists s, ref, hd.
Qed.

(** A store by the call that owns the storage. *)
Lemma inv_store y id call call' r l off start bs g' :
  Inv y → y_calls y !! id = Some call → storage_res (rq_key r) (lc_large l) ∈ call_res y call →
  stored y (rq_key r) (lc_large l) off start bs g' → call_res y call' = call_res y call →
  call_ok (with_call id call' (with_gl (λ _, g') y)) id call' →
  (∀ k, kept_w k id call' = kept_w k id call) → budget_w id call' = budget_w id call → reserve_w id call' = reserve_w id call →
  Inv (with_call id call' (with_gl (λ _, g') y)).
Proof.
  intros Hinv Hcall Hst Hs Hres Hok Hk Hb Hw. destruct (some_shard y Hinv) as [sh Hi].
  rewrite <- (after_same y 0 sh) in Hok |- * by done. pose proof (sd_shape _ _ _ _ _ _ _ Hs) as Hg.
  assert (Hgl : gl_compl g' = gl_compl (y_gl y) ∧ gl_pub g' = gl_pub (y_gl y) ∧ gl_fenced g' = gl_fenced (y_gl y) ∧
    gl_nodes g' = gl_nodes (y_gl y) ∧ gl_compl_key g' = gl_compl_key (y_gl y) ∧ gl_sunk g' = gl_sunk (y_gl y) ∧
    gl_next g' = gl_next (y_gl y)) by (by rewrite Hg). destruct Hgl as (E1 & E2 & E3 & E4 & E5 & E6 & E7).
  apply (inv_call y 0 sh sh g' id call call' [storage_res (rq_key r) (lc_large l)]); try done; rewrite ?Hres; try done; rewrite ?E1, ?E2, ?E3.
  - split; rewrite ?E1, ?E2, ?E3, ?E5, ?E6; eauto.
  - intros x Hx. rewrite (after_same y 0 sh) by done. apply (sd_same _ _ _ _ _ _ _ Hs). intros ->. apply Hx. list_in.
  - intros x ->%list_elem_of_singleton. by left.
  - auto.
  - intros x _ _ [->%list_elem_of_singleton|?]; done.
  - apply (mp_pool _ (iv_maps _ Hinv) _ _ Hi).
  - by left.
  - by left.
  - destruct (iv_ids _ Hinv) as [I1 I2 I3 I4 I5]. split; rewrite ?E1, ?E2, ?E4, ?E5, ?E7; try done. intros n Hn.
    destruct (lc_large l) as [b|] eqn:El; [|rewrite (sd_slot _ _ _ _ _ _ _ Hs eq_refl); auto].
    destruct (sd_buf _ _ _ _ _ _ _ Hs b eq_refl) as (_ & buf & buf' & H1 & -> & _).
    rewrite lookup_insert_ne; [auto|]. intros ->. by rewrite I4 in H1.
  - eauto.
  - by left.
  - unfold canceled. by rewrite E1.
  - intros c Hf Hc. unfold canceled. rewrite E1. apply (hs_fence_call _ (iv_hist _ Hinv) c id Hf). cbn. by rewrite Hcall.
  - rewrite Hg, Hb. cbn. lia.
  - rewrite Hg, Hw. cbn. lia.
  - by rewrite Hg.
  - by rewrite Hg.
  - rewrite Hg. by left.
  - rewrite Hg. by left.
Qed.

(** What the owner knows afterwards. *)
Lemma stored_known y id call' r l off start bs g' c :
  stored y (rq_key r) (lc_large l) off start bs g' → admitted (y_cfg y) (y_gl y) r c →
  writing_at y (rq_key r) = Some c → loc_cell y r l →
  let y' := with_call id call' (with_gl (λ _, g') y) in
  admitted (y_cfg y') (y_gl y') r c ∧ writing_at y' (rq_key r) = Some c ∧ loc_cell y' r l.
Proof.
  intros Hs [Hl [P1 P2 P3]] Hw Hcell. cbn zeta. pose proof (sd_shape _ _ _ _ _ _ _ Hs) as Hg. split_and!.
  - split; [done|]. cbn. rewrite Hg. by split.
  - done.
  - exact (stored_cell y r l off start bs g' (<[id := call']> (y_calls y)) Hcell Hs).
Qed.

Lemma ptr_add_0 p : ptr_add p 0 = p.
Proof. destruct p; cbn; by rewrite Z.add_0_r. Qed.

Lemma step_copy y id inp r l y' :
  Inv y → y_calls y !! id = Some (CCopy r l) → call_step id inp y (CCopy r l) = Some y' → Inv y'.
Proof.
  intros Hinv Hcall. destruct (ow_ok _ (iv_own _ Hinv) (OCall id) _ Hcall) as (Had & Hw & Hcell & Hop).
  pose proof (ad_req _ _ _ _ Had) as (Hreq & Hpos & Hdata).
  assert (∃ bs, rq_data r = Some bs ∧ Z.of_nat (length bs) = rq_len r) as (bs & Hbs & Hlen).
  { unfold req_ok in Hreq. destruct (rq_op r), (rq_data r) as [bs|]; try done; exists bs;
      (split; [done|]); apply andb_true_iff in Hreq as [_ ?%Z.eqb_eq]; done. }
  destruct (store_cell y (rq_key r) (lc_large l) (lc_offset l) (lc_cap l) 0 bs) as (g' & E & Hs);
    [apply Hinv|apply Hinv|by apply loc_cell_cell|done|destruct Hcell; lia|].
  rewrite ptr_add_0 in E. cbn [call_step]. rewrite Hbs. change (loc_ptr l) with (cell_ptr (lc_large l) (lc_offset l)).
  change (default [] (Some bs)) with bs. rewrite E. cbn [mbind option_bind]. intros [= <-].
  eapply inv_store; [done|done|cbn; list_in|exact Hs|done| |done|done|done].
  destruct (stored_known y id (CInstall r l) r l _ _ _ _ _ Hs Had Hw Hcell) as (? & ? & ?). split_and!; try done.
  rewrite Hbs. replace (Z.to_nat (rq_len r)) with (length bs) by lia. exact (sd_read _ _ _ _ _ _ _ Hs eq_refl).
Qed.

(** The storage read fills an open reservation. *)
Lemma step_fill y id bs y' : Inv y → step (AFill id bs) y = Some y' → Inv y'.
Proof.
  intros Hinv. cbn [step]. destruct (y_calls y !! id) as [call|] eqn:Hcall; [|done]. destruct call; try done.
  destruct (decide _) as [Hlen|]; [|done].
  destruct (ow_ok _ (iv_own _ Hinv) (OCall id) _ Hcall) as (Had & Hw & Hcell & Hop).
  destruct (store_cell y (rq_key r) (lc_large l) (lc_offset l) (lc_cap l) 0 bs) as (g' & E & Hs);
    [apply Hinv|apply Hinv|by apply loc_cell_cell|done|lia|].
  rewrite ptr_add_0 in E. change (loc_ptr l) with (cell_ptr (lc_large l) (lc_offset l)).
  rewrite E. cbn [mbind option_bind]. intros [= <-].
  assert (Hy : with_gl (λ _, g') y = with_call id (COpen r l) (with_gl (λ _, g') y)).
  { unfold with_call, with_gl. cbn. by rewrite insert_id. }
  rewrite Hy. eapply inv_store; [done|done|cbn; list_in|exact Hs|done| |done|done|done].
  destruct (stored_known y id (COpen r l) r l _ _ _ _ _ Hs Had Hw Hcell) as (? & ? & ?). by split_and!.
Qed.

Lemma step_malloc y id inp r c cap y' :
  Inv y → y_calls y !! id = Some (CMalloc r c cap) → call_step id inp y (CMalloc r c cap) = Some y' → Inv y'.
Proof.
  intros Hinv Hcall. cbn [call_step]. destruct (in_malloc inp) as [bs|].
  - destruct (decide _) as [Hl|]; [|done]. cbn [new_buffer]. intros [= <-]. by apply malloc_done.
  - intros [= <-]. by apply malloc_failed.
Qed.

End copy.
