(* ===== verification/RamPublish.v ===== *)
(** * RAM tier: publication

    The install sections of [Admit] and [PutDurable] and the commit of a
    reservation: what the call owned becomes the entry's. *)

From S2P Require Import Prelude KvTypes SlabTypes SlabOps SlotPool RamTypes RamOps RamInv RamFrame RamShard.
From S2P Require Import RamCall RamLocal RamAdmit RamMem RamEntry RamPin RamRead.
From S2P Require Import RamRemove RamGive RamStart.

Section publish.
Context {A : Type} `{SlotPoolLaws A}.
Notation Sys := (Sys A).
Notation Shard := (Shard A).
Implicit Types (y : Sys) (k : BlockKey) (sh : Shard) (g : Globals) (e : Entry).

(** What a publication changes of the shard and the shared state. *)
Record shard_published k e sh sh' : Prop := {
  pb_place : same_place sh sh';
  pb_mu : sh_mu sh' = None;
  pb_wf : sp_wf (sh_alloc sh');
  pb_slots j : j ≠ k → sp_slot (sh_alloc sh') j = sp_slot (sh_alloc sh) j;
  pb_large : en_large e ≠ None → sp_slot (sh_alloc sh') k = sp_slot (sh_alloc sh) k;
  pb_index : sh_index sh' = <[k := e]> (sh_index sh);
  pb_writing : sh_writing sh' = delete k (sh_writing sh);
  pb_queue j : j ≠ k → filter (λ q, q_key q = j) (sh_flushq sh') = filter (λ q, q_key q = j) (sh_flushq sh);
}.

Record globals_published k e (c : nat) (pb : Publication) g g' : Prop := {
  pg_mem : gl_mem g' = gl_mem g;
  pg_heap : gl_heap g' = gl_heap g;
  pg_nodes : gl_nodes g' = <[en_node e := k]> (gl_nodes g);
  pg_pub : gl_pub g' = <[en_node e := pb]> (gl_pub g);
  pg_next : gl_next g' = S (gl_next g);
  pg_key : gl_compl_key g' = gl_compl_key g;
  pg_sunk : gl_sunk g ⊆ gl_sunk g';
  pg_fenced : gl_fenced g' = gl_fenced g;
  pg_compl : gl_compl g' = gl_compl g ∧ pb_durable pb = false ∨
    gl_compl g' = gl_compl (CompletePut (Some c) true g) ∧ pb_durable pb = true;
  pg_budget : gl_budget_used g' = gl_budget_used g;
  pg_large : gl_large_used g' = gl_large_used g;
  pg_dirty : gl_dirty_bytes g' = gl_dirty_bytes g + dirty_w k e;
  pg_objects : gl_dirty_objects g' = gl_dirty_objects g + object_w k e;
}.

Section step.
Context (y : Sys) (i : nat) (sh sh' : Shard) (g' : Globals) (id : nat) (call call' : Call)
  (k : BlockKey) (e : Entry) (c : nat) (pb : Publication).
Notation y' := (after y i sh' g' (<[id := call']> (y_calls y)) (y_hits y)).
Hypothesis Hinv : Inv y.
Hypothesis Hi : y_shards y !! i = Some sh.
Hypothesis Hmu : sh_mu sh = None.
Hypothesis Hk : shard_of k y = i.
Hypothesis Hcall : y_calls y !! id = Some call.
Hypothesis Hres : call_res y call = [ResCmp c; ResWriting k; storage_res k (en_large e)].
Hypothesis Hwr : writing_at y k = Some c.
Hypothesis Hpd : pending_cmp (y_gl y) c k.
Hypothesis Hnc : canceled c (y_gl y) = false.
Hypothesis Hnode : en_node e = gl_next (y_gl y).
Hypothesis Hcomp : en_completion e = Some c.
Hypothesis Hpb : pb_key pb = k ∧ pb_completion pb = c.
Hypothesis Hflush : en_flushing e = false.
Hypothesis Hsp : shard_published k e sh sh'.
Hypothesis Hgp : globals_published k e c pb (y_gl y) g'.
Hypothesis Hent : entry_ok y' k e.
Hypothesis Hok : call_ok y' id call'.
Hypothesis Hres' : call_res y call' = [] ∨ call_res y call' = [ResPin k].
Hypothesis Hkept : ∀ j, kept_w j id call = 0 ∧ kept_w j id call' = if decide (j = k) then en_send_pins e else 0.
Hypothesis Hweights : budget_w id call = en_cap e ∧ budget_w id call' = 0 ∧
  reserve_w id call = large_w k e ∧ reserve_w id call' = 0.

Lemma pb_none : index_at y k = None.
Proof. apply (mp_excl _ (iv_maps _ Hinv)). by rewrite Hwr. Qed.

Lemma pb_old : sh_index sh !! k = None.
Proof. rewrite <- (here_index y i sh) by done. apply pb_none. Qed.

Lemma pb_at j : index_at y' j = if decide (j = k) then Some e else index_at y j.
Proof.
  rewrite (after_index _ _ sh), (pb_index _ _ _ _ Hsp) by done. case_decide as Hj.
  - rewrite (here_index y i sh) by done. case_decide as Hjk; [subst j; apply lookup_insert_eq|by rewrite lookup_insert_ne].
  - rewrite decide_False; [done|]. by intros ->.
Qed.

Lemma pb_geo : geo y' = geo y.
Proof. apply (after_geo _ _ sh); [done|apply Hsp]. Qed.

Lemma pb_compl_other c' : c' ≠ c → gl_compl g' !! c' = gl_compl (y_gl y) !! c'.
Proof. intros Hne. destruct (pg_compl _ _ _ _ _ _ Hgp) as [[-> _]|[-> _]]; [done|]. by apply complete_other. Qed.

Lemma pb_grows : grows (y_gl y) g'.
Proof.
  destruct Hgp as [_ _ _ E1 _ E2 E3 E4 E5 _ _ _ _]. split; rewrite ?E1, ?E2, ?E3, ?E4; try done.
  - intros n p Hn. rewrite lookup_insert_ne; [done|]. rewrite Hnode. intros <-.
    by rewrite (id_pub _ (iv_ids _ Hinv)) in Hn.
  - intros c' p Hp. destruct E5 as [[-> _]|[-> _]]; [eauto|]. by apply (complete_grows c true (y_gl y)).
Qed.

Definition pb_touched : list Res :=
  [ResLock i; ResNode (en_node e); ResQueue k; ResPin k; ResFlush k] ++ call_res y call.

Lemma pb_untouched r : r ∉ pb_touched → same_res y y' r.
Proof.
  intros Hr. unfold pb_touched in Hr. rewrite Hres in Hr. destruct Hsp as [_ _ _ Hsl Hlg Hix Hw Hq].
  destruct Hgp as [E1 E2 E3 E4 _ _ _ _ _ _ _ _ _]. rewrite not_elem_of_app, !not_elem_of_cons in Hr.
  destruct Hr as [(N1 & N2 & N3 & N4 & N5 & _) (N6 & N7 & N8 & _)].
  apply (same_after _ _ sh); [done|]. destruct r as [j|b|c'|n|j|j|j|j|j]; rewrite ?E1, ?E2; auto.
  - split; [|done]. intros _. destruct (decide (j = k)) as [->|Hj]; [|auto]. apply Hlg. intros El. apply N8. by rewrite El.
  - split; [rewrite pb_compl_other; [done|congruence]|]. intros n p Hn Hc. rewrite E4 in Hn.
    apply lookup_insert_Some in Hn as [[_ <-]|[_ ?]]; [|done]. destruct Hpb as [_ Hpc]. congruence.
  - rewrite E3, lookup_insert_ne; [done|congruence].
  - intros _. rewrite Hw, lookup_delete_ne; [done|congruence].
  - intros _. apply Hq. congruence.
  - intros _. rewrite Hix, lookup_insert_ne; [done|congruence].
  - intros _. rewrite Hix, lookup_insert_ne; [done|congruence].
Qed.

(** What was not there before. *)
Lemma pb_fresh r : r = ResNode (en_node e) ∨ r = ResQueue k ∨ r = ResPin k ∨ r = ResFlush k ∨ r = ResLock i → free_res y r.
Proof.
  intros Hr. apply absent_free; [apply Hinv|]. pose proof pb_none as Hn. destruct Hr as [-> |[-> |[-> |[-> | ->]]]]; unfold present.
  - rewrite Hnode, (id_node _ (iv_ids _ Hinv)) by done. by intros [].
  - rewrite Hn. by intros [].
  - rewrite Hn. by intros [].
  - rewrite Hn. by intros (? & ? & _).
  - rewrite (here_mu y i sh), Hmu by done. by intros [].
Qed.

Lemma pb_owners : Owners y'.
Proof.
  assert (Hold : ∀ r, r ∈ call_res y call → held_by y [OCall id; OEntry k] r).
  { intros r Hr. exists (OCall id). split; [list_in|]. cbn. by rewrite Hcall. }
  assert (Hc' : owned y' (OCall id) = call_res y call') by (cbn; rewrite lookup_insert_eq; by apply call_res_frame, pb_geo).
  assert (He' : owned y' (OEntry k) = entry_res k e) by (cbn [owned]; by rewrite pb_at, decide_True).
  assert (Her : ∀ r, r ∈ entry_res k e ↔ r = ResNode (en_node e) ∨ r = ResQueue k ∨ r = storage_res k (en_large e) ∨ r = ResCmp c).
  { intros r. unfold entry_res. rewrite Hcomp. list_in. }
  assert (Hpin : ∀ r, r ∈ call_res y call' → r = ResPin k) by (intros r; destruct Hres' as [-> | ->]; intros Hr; by res_in Hr).
  assert (Hdis : ∀ r, r ∈ call_res y call' → r ∉ entry_res k e).
  { intros r ->%Hpin [?|[?|[Hs|?]]]%Her; try done. unfold storage_res in Hs. by destruct (en_large e). }
  apply (owners_step_list y y' [OCall id; OEntry k] pb_touched).
  - apply Hinv.
  - apply pb_geo.
  - apply pb_grows.
  - intros j Hj. cbn. rewrite lookup_insert_ne; [done|]. intros <-. apply Hj. list_in.
  - intros j Hj. rewrite pb_at, decide_False; [done|]. intros ->. apply Hj. list_in.
  - apply pb_untouched.
  - intros r [Hr|Hr]%elem_of_app; [right|by left; apply Hold]. apply pb_fresh. rewrite !elem_of_cons, elem_of_nil in Hr. tauto.
  - intros o [->|[->|[]%elem_of_nil]%elem_of_cons]%elem_of_cons.
    + intros c1 Hc1. cbn in Hc1. rewrite lookup_insert_eq in Hc1. by injection Hc1 as <-.
    + intros e1. rewrite pb_at, decide_True by done. by intros [= <-].
  - intros o r [->|[->|[]%elem_of_nil]%elem_of_cons]%elem_of_cons Hr.
    + right. rewrite Hc' in Hr. apply Hpin in Hr as ->. apply pb_fresh. tauto.
    + rewrite He' in Hr. apply Her in Hr as [->|[->|[->| ->]]]; [right; apply pb_fresh; tauto|right; apply pb_fresh; tauto|left; apply Hold; rewrite Hres; list_in..].
  - intros o o' r Ho Ho' Hr Hr'. rewrite !elem_of_cons, elem_of_nil in Ho, Ho'.
    destruct Ho as [->|[->|[]]], Ho' as [->|[->|[]]]; [done| | |done].
    + rewrite Hc' in Hr. rewrite He' in Hr'. by destruct (Hdis r Hr).
    + rewrite He' in Hr. rewrite Hc' in Hr'. by destruct (Hdis r Hr').
  - intros r Ht Hp Hr.
    assert (Hst : r = storage_res k (en_large e) → held_by y' [OCall id; OEntry k] r).
    { intros ->. exists (OEntry k). split; [list_in|]. rewrite He'. apply Her. tauto. }
    assert (Hr' : r ∈ pb_touched).
    { destruct Hr as [?|(o & Ho & Hin)]; [done|]. apply elem_of_app. right. rewrite !elem_of_cons, elem_of_nil in Ho.
      destruct Ho as [->|[->|[]]]; [cbn in Hin; by rewrite Hcall in Hin|]. cbn [owned] in Hin. rewrite pb_none in Hin. by apply elem_of_nil in Hin. }
    unfold pb_touched in Hr'. rewrite Hres in Hr'. rewrite elem_of_app, !elem_of_cons, !elem_of_nil in Hr'.
    destruct Hr' as [[->|[->|[->|[->|[->|[]]]]]]|[->|[->|[?|[]]]]]; try done; [| | |auto]; exfalso.
    + unfold present in Hp. rewrite (there_mu _ _ sh), (pb_mu _ _ _ _ Hsp) in Hp by done. by destruct Hp.
    + destruct Hp as (e1 & He1 & Hf1). rewrite pb_at, decide_True in He1 by done. injection He1 as <-. congruence.
    + unfold present in Hp. rewrite (there_writing _ _ sh), (pb_writing _ _ _ _ Hsp), lookup_delete_eq in Hp by done. by destruct Hp.
Qed.

Lemma pb_maps : Maps y'.
Proof.
  destruct (iv_maps _ Hinv) as [Hp Hh He Hqu]. destruct Hsp as [_ _ Hwf Hsl Hlg Hix Hw Hq]. split.
  - intros j s Hj. cbn in Hj. apply list_lookup_insert_Some in Hj as [(<- & <- & _)|[_ Hj]]; eauto.
  - intros j s k' Hj Hk'. rewrite (after_shard_of y i sh'). cbn in Hj.
    apply list_lookup_insert_Some in Hj as [(<- & <- & _)|[_ Hj]]; [|by apply (Hh j s)].
    destruct (decide (k' = k)) as [->|Hne]; [done|]. apply (Hh _ _ _ Hi).
    rewrite Hix, Hw, Hsl, lookup_insert_ne, lookup_delete_ne in Hk' by done. done.
  - intros j. rewrite pb_at, (after_writing _ _ sh), Hw by done. destruct (decide (j = k)) as [->|Hj].
    + rewrite decide_True, lookup_delete_eq by done. by intros [].
    + intros Hs. apply He. case_decide; [|done]. rewrite lookup_delete_ne in Hs by done. by rewrite (here_writing y i sh).
  - intros j s q Hj. cbn in Hj. apply list_lookup_insert_Some in Hj as [(<- & <- & _)|[_ Hj]]; [|by apply (Hqu j)].
    intros Hin. rewrite Hix. destruct (decide (q_key q = k)) as [->|Hqk]; [by rewrite lookup_insert_eq|].
    assert (q ∈ filter (λ x, q_key x = q_key q) (sh_flushq sh)) as Hf.
    { rewrite <- Hq by done. by apply list_elem_of_filter. }
    apply list_elem_of_filter in Hf as [_ Hf]. rewrite lookup_insert_ne by done. by apply (Hqu _ _ _ Hi).
Qed.

Lemma pb_ids : Ids g'.
Proof.
  destruct (iv_ids _ Hinv) as [I1 I2 I3 I4 I5]. destruct Hgp as [_ E2 E3 E4 E5 E6 _ _ E9 _ _ _ _].
  split; intros n Hn; rewrite E5 in Hn; rewrite ?E2, ?E3, ?E4, ?E6, ?Hnode; rewrite ?lookup_insert_ne by lia.
  - destruct (decide (n = c)) as [->|Hne]; [|rewrite pb_compl_other by done; apply I1; lia].
    exfalso. destruct Hpd as [Hv _ _]. rewrite I1 in Hv by lia. done.
  - apply I2. lia.
  - apply I3. lia.
  - apply I4. lia.
  - apply I5. lia.
Qed.

Lemma pb_hist : Hist y'.
Proof.
  destruct (iv_hist _ Hinv) as [H1 H2 H3 Hfd H4 H5]. pose proof pb_grows as Hgr. pose proof pb_geo as Hgeo.
  destruct Hpd as [Hv Hck Hnp]. destruct Hpb as [Hpk Hpc]. destruct Hgp as [_ _ _ E4 _ E6 _ E8 E9 _ _ _ _].
  assert (Hunf : c ∉ gl_fenced (y_gl y)).
  { intros Hf. rewrite (H4 c id Hf) in Hnc; [done|]. cbn. rewrite Hcall, Hres. list_in. }
  split; cbn [after y_gl y_cfg]; rewrite ?E4, ?E6, ?E8.
  - intros c' p' Hp' Hs. destruct (decide (c' = c)) as [->|Hne].
    + destruct E9 as [[E9 _]|[_ E9]].
      * rewrite E9 in Hp'. rewrite Hp' in Hv. injection Hv as _ Hv. congruence.
      * exists (en_node e), pb. split_and!; [apply lookup_insert_eq|done|by left].
    + rewrite pb_compl_other in Hp' by done. destruct (H1 _ _ Hp' Hs) as (n & pb0 & Hn & ? & ?). exists n, pb0.
      split_and!; [|done|by eapply evidence_grows]. apply (gr_pub _ _ Hgr) in Hn. by rewrite E4 in Hn.
  - intros n n' p p' [[<- <-]|[_ Hn]]%lookup_insert_Some [[<- <-]|[_ Hn']]%lookup_insert_Some; try done; intros Hcc.
    + destruct (Hnp _ _ Hn'). congruence.
    + destruct (Hnp _ _ Hn). congruence.
    + by eapply H2.
  - intros n p [[<- <-]|[_ Hn]]%lookup_insert_Some; [congruence|by apply (H3 n)].
  - intros c' Hf. by eapply compl_grows, Hfd.
  - intros c' j Hf Hr. destruct (decide (j = id)) as [->|Hj].
    + cbn in Hr. rewrite lookup_insert_eq, (call_res_frame y _ _ Hgeo) in Hr. destruct Hres' as [E| E]; rewrite E in Hr; res_in Hr.
    + cbn in Hr. rewrite lookup_insert_ne in Hr by done.
      assert (Hr' : ResCmp c' ∈ owned y (OCall j)) by (cbn; destruct (y_calls y !! j); [by rewrite (call_res_frame y _ _ Hgeo) in Hr|done]).
      pose proof (H4 c' j Hf Hr') as Hcan. unfold canceled in Hcan |- *. rewrite pb_compl_other; [done|]. intros ->. done.
  - intros c' j e1 Hf. rewrite pb_at. case_decide as Hj; [|by apply H5]. intros [= <-] Hce. congruence.
Qed.

Lemma pb_pins : Pins y'.
Proof.
  destruct (iv_pins _ Hinv) as [P1 P2].
  assert (Hno : ∀ h hit, y_hits y !! h = Some hit → ht_token hit ≠ en_node e).
  { intros h hit Hh Ht. destruct (P2 _ _ Hh) as (j & e1 & He1 & Htok & _).
    pose proof (eo_node _ _ _ (ow_ok _ (iv_own _ Hinv) (OEntry j) _ He1)) as Hn.
    rewrite <- Htok, Ht, Hnode, (id_node _ (iv_ids _ Hinv)) in Hn; done. }
  assert (Hz : msum (kept_w k) (y_calls y) = 0).
  { apply msum_zero. intros j c1 Hc1. pose proof (ow_ok _ (iv_own _ Hinv) (OCall j) _ Hc1) as Hok1.
    destruct c1; try done. destruct installed; [|done]. cbn. case_decide as Hrk; [|done].
    destruct Hok1 as (_ & _ & Hin). by rewrite Hrk, pb_none in Hin. }
  split; cbn [after y_hits y_calls].
  - intros j e1. rewrite pb_at, (msum_update _ _ _ call) by done. destruct (Hkept j) as [-> ->]. case_decide as Hj.
    + subst j. intros [= <-]. rewrite Hz. assert (msum (hit_w (en_node e)) (y_hits y) = 0) as ->; [|lia].
      apply msum_zero. intros h hit Hh. unfold hit_w. rewrite decide_False; [done|]. by apply (Hno h).
    + intros He1. rewrite (P1 _ _ He1). lia.
  - intros h hit Hh. destruct (P2 _ _ Hh) as (j & e1 & He1 & Hh1). exists j, e1. split; [|done]. rewrite pb_at, decide_False; [done|].
    intros ->. by rewrite pb_none in He1.
Qed.

Lemma pb_sums : Sums y'.
Proof.
  destruct (iv_sums _ Hinv) as [S1 S2 S3 S4 S5 S6]. destruct Hgp as [_ _ _ _ _ _ _ _ _ B1 B2 B3 B4].
  destruct Hweights as (W1 & W2 & W3 & W4). pose proof pb_old as Ho.
  assert (Hcap : cap_w k e = en_cap e) by done.
  split; rewrite ?(esum_after _ _ _ sh) by done; cbn [after y_gl y_calls y_cfg]; rewrite ?(pb_index _ _ _ _ Hsp);
    rewrite ?(msum_insert _ _ _ _ Ho), ?(msum_update _ _ _ call) by done; lia.
Qed.

Lemma inv_publish : Inv y'.
Proof.
  split; [rewrite pb_geo; apply Hinv|apply pb_owners|apply pb_maps|apply pb_ids|apply pb_hist|apply pb_pins|apply pb_sums].
Qed.

End step.

(** ** The new entry *)

Lemma unindexed_queue y i sh k :
  Inv y → y_shards y !! i = Some sh → sh_index sh !! k = None → filter (λ q, q_key q = k) (sh_flushq sh) = [].
Proof.
  intros Hinv Hi Hx. apply elem_of_nil_inv. intros q [Hq Hin]%list_elem_of_filter.
  apply (mp_queue _ (iv_maps _ Hinv) _ _ _ Hi) in Hin. rewrite Hq, Hx in Hin. by destruct Hin.
Qed.

Lemma new_entry_ok y i sh sh' g' calls hits r l dur now bytes :
  let c := lc_completion l in
  let k := rq_key r in
  let e := new_entry (y_cfg y) r l dur now (gl_next (y_gl y)) in
  Inv y → y_shards y !! i = Some sh → shard_of k y = i → admitted (y_cfg y) (y_gl y) r c → loc_cell y r l →
  load (y_cfg y) (loc_ptr l) (Z.to_nat (rq_len r)) (y_gl y) = Some bytes → Z.of_nat (length bytes) = rq_len r →
  (rq_op r = OpReserve → dur = true) →
  shard_published k e sh sh' → globals_published k e c (mkPublication k bytes c dur) (y_gl y) g' →
  (∀ sl, lc_large l = None → sp_slot (sh_alloc sh) k = Some sl →
     sp_slot (sh_alloc sh') k = Some (set_pins (en_send_pins e + Z.b2z (negb dur)) sl)) →
  length (filter (λ q, q_key q = k) (sh_flushq sh')) = (if dur then 0%nat else 1%nat) →
  entry_ok (after y i sh' g' calls hits) k e.
Proof.
  intros c k e Hinv Hi Hk Had [Hcap Hcell] Hld Hlen Hop Hsp Hgp Hsl Hq. destruct Had as [(_ & Hpos & _) [P1 P2 P3]].
  assert (Hpin : en_send_pins e = if decide (rq_op r = OpReserve) then 1 else 0) by (cbn; destruct (rq_op r); by case_decide).
  destruct Hgp as [E1 E2 E3 E4 E5 E6 E7 E8 E9 _ _ _ _].
  split; try done.
  - rewrite Hpin. case_decide; lia.
  - split; cbn; try done; by destruct dur.
  - exists c, bytes, dur. split_and!; try done; cbn [after y_gl y_cfg].
    + by rewrite E6.
    + cbn. rewrite negb_involutive. destruct E9 as [[-> Hd]|[-> Hd]]; cbn in Hd; subst dur; [done|].
      cbn. rewrite lookup_alter_eq. destruct (gl_compl (y_gl y) !! c) as [p|]; [|done]. injection P1 as Hpd _. cbn. by rewrite Hpd.
    + rewrite E4. apply lookup_insert_eq.
    + rewrite <- Hld. change (entry_data e) with (loc_ptr l). unfold load. by rewrite E1, E2.
  - cbn [after y_gl]. rewrite E3. apply lookup_insert_eq.
  - change (en_large e) with (lc_large l). change (en_flush_pin e) with (negb dur). destruct (lc_large l) as [b|] eqn:El; destruct Hcell as [_ Hcell].
    + destruct Hcell as (buf & Hb & Hl). exists buf. cbn. by rewrite E2.
    + destruct (call_slot y i sh _ _ _ _ _ _ Hi Hk Hcell) as (sl & Hsl0 & Hh & _ & Hpe & Ho & Hc).
      exists sh', (sl_ref sl), (sl_handle sl). rewrite (there_at _ _ sh), (there_slot _ _ sh), (Hsl sl eq_refl Hsl0) by done.
      split_and!; try done; [unfold set_pins; by rewrite Hpe|]. cbn. by rewrite Ho, (sp_base _ _ (pb_place _ _ _ _ Hsp)).
  - rewrite (there_queue _ _ sh), Hq by done. unfold queued. cbn. by destruct dur.
Qed.

(** ** The sections *)

(** What the three have in common. *)
Lemma publish_inv y id i sh call call' sh' g' r l dur now bytes :
  let c := lc_completion l in
  let k := rq_key r in
  let e := new_entry (y_cfg y) r l dur now (gl_next (y_gl y)) in
  Inv y → y_calls y !! id = Some call → call = CInstall r l ∨ call = COpen r l →
  y_shards y !! i = Some sh → sh_mu sh = None → shard_of k y = i → canceled c (y_gl y) = false →
  load (y_cfg y) (loc_ptr l) (Z.to_nat (rq_len r)) (y_gl y) = Some bytes → Z.of_nat (length bytes) = rq_len r →
  (rq_op r = OpReserve → dur = true) →
  shard_published k e sh sh' → globals_published k e c (mkPublication k bytes c dur) (y_gl y) g' →
  (∀ sl, lc_large l = None → sp_slot (sh_alloc sh) k = Some sl → sl_pins sl = 1 → sl_pending sl = false →
     lc_handle l = Some (sl_handle sl) →
     sp_slot (sh_alloc sh') k = Some (set_pins (en_send_pins e + Z.b2z (negb dur)) sl)) →
  length (filter (λ q, q_key q = k) (sh_flushq sh')) = (if dur then 0%nat else 1%nat) →
  call_ok (after y i sh' g' (<[id := call']> (y_calls y)) (y_hits y)) id call' →
  (call_res y call' = [] ∨ call_res y call' = [ResPin k]) →
  (∀ j, kept_w j id call' = if decide (j = k) then en_send_pins e else 0) →
  budget_w id call' = 0 → reserve_w id call' = 0 →
  Inv (after y i sh' g' (<[id := call']> (y_calls y)) (y_hits y)).
Proof.
  intros c k e Hinv Hcall Hc Hi Hmu Hk Hnc Hld Hlen Hop Hsp Hgp Hsl Hq Hok Hr Hkept Hb Hw.
  pose proof (ow_ok _ (iv_own _ Hinv) (OCall id) _ Hcall) as Hold.
  assert (Hold' : admitted (y_cfg y) (y_gl y) r c ∧ writing_at y k = Some c ∧ loc_cell y r l ∧
    (call = COpen r l → rq_op r = OpReserve)) by (destruct Hc as [-> | ->]; destruct_and! Hold; by split_and!).
  destruct Hold' as (Had & Hwr & Hcell & Hopen).
  apply (inv_publish y i sh sh' g' id call call' k e c (mkPublication k bytes c dur)); try done.
  - by destruct Hc as [-> | ->].
  - apply Had.
  - eapply new_entry_ok; try done. intros sl El Hs. destruct Hcell as [_ Hcell]. rewrite El in Hcell. destruct Hcell as [_ Hcell].
    destruct (call_slot y i sh _ _ _ _ _ _ Hi Hk Hcell) as (sl' & Hs' & Hh & Hp & Hpe & _). fold k in Hs. rewrite Hs in Hs'. injection Hs' as <-. by apply Hsl.
  - intros j. split; [by destruct Hc as [-> | ->]|auto].
  - assert (Hlw : large_w k e = if loc_large l then lc_cap l else 0) by (unfold large_w, in_arena, loc_large; cbn; by destruct (lc_large l)).
    rewrite Hlw. split_and!; try done; [by destruct Hc as [-> | ->]|]. destruct Hc as [-> | ->]; [done|]. cbn.
    destruct (open_slot y i sh r l Hinv Hi Hk (ad_req _ _ _ _ Had) (Hopen eq_refl) Hcell) as [El _]. unfold loc_large. by rewrite El.
Qed.

(** A published put returns, or waits for the disk. *)
Lemma finish_accepted y id r kind c n pb :
  rq_op r = OpPut kind → gl_pub (y_gl y) !! n = Some pb → pb_key pb = rq_key r → pb_completion pb = c →
  pb_durable pb = false → rq_data r = Some (pb_bytes pb) → gl_compl_key (y_gl y) !! c = Some (rq_key r) →
  is_Some (gl_compl (y_gl y) !! c) → ∀ g,
  let call' := (finish_put (y_cfg y) r kind kAccepted (Some c) g).1 in
  call_ok y id call' ∧ call_res y call' = [] ∧ (∀ k, kept_w k id call' = 0) ∧ budget_w id call' = 0 ∧ reserve_w id call' = 0.
Proof.
  intros Er Hn Hpk Hpc Hpd Hdata Hck Hc g. cbn zeta. assert (Hp : is_put r = true) by (unfold is_put; by rewrite Er).
  assert (Hwait : wait_ok (y_gl y) r kAccepted (Some c)).
  { exists c. split_and!; try done. exists n, pb. by split_and!. }
  destruct kind; cbn [finish_put fst].
  - split_and!; try done. cbn. unfold ret_ok. rewrite Er. exists n, pb. split_and!; first [done|by rewrite Hpc|apply bool_decide_eq_true; by left].
  - by split_and!.
  - destruct (synchronous (y_cfg y)) eqn:Es; cbn [orb fst]; [by split_and!|].
    rewrite (bool_decide_false (kAccepted = kDuplicate)) by done. cbn [fst]. split; [|done]. cbn [call_ok]. unfold ret_ok. rewrite Er, Es.
    exists n, pb. split_and!; first [done|by rewrite Hpc].
Qed.

Lemma install_put y id i sh r l inp kind :
  Inv y → y_calls y !! id = Some (CInstall r l) → y_shards y !! i = Some sh → sh_mu sh = None →
  shard_of (rq_key r) y = i → canceled (lc_completion l) (y_gl y) = false → rq_op r = OpPut kind →
  ∀ call' sh' g', install_section (y_cfg y) r l inp sh (y_gl y) = Some (call', sh', g') →
  Inv (after y i sh' g' (<[id := call']> (y_calls y)) (y_hits y)).
Proof.
  intros Hinv Hcall Hi Hmu Hk Hnc Er call' sh' g'.
  destruct (ow_ok _ (iv_own _ Hinv) (OCall id) _ Hcall) as (Had & Hwr & Hcell & _ & Hld).
  pose proof (ad_req _ _ _ _ Had) as (Hreq & Hpos & Hdata). rewrite Er in Hdata.
  destruct (rq_data r) as [bytes|] eqn:Ed; [|done].
  assert (Hlen : Z.of_nat (length bytes) = rq_len r).
  { unfold req_ok in Hreq. rewrite Er, Ed in Hreq. apply andb_true_iff in Hreq as [_ ?%Z.eqb_eq]. done. }
  set (k := rq_key r) in *. set (c := lc_completion l) in *.
  assert (Hx : sh_index sh !! k = None).
  { rewrite <- (here_index y i sh) by done. apply (mp_excl _ (iv_maps _ Hinv)). by rewrite Hwr. }
  unfold install_section. fold k c. rewrite Hnc, Er, Hld. unfold emplace_entry. cbn [sh_index set_writing default from_option].
  rewrite Hx. set (e := new_entry (y_cfg y) r l false (in_now inp) (gl_next (y_gl y))).
  set (g1 := bump MPuts 1 _). set (sh1 := set_flushq _ _). intros E.
  assert (Hm : metrics_only g1 g' ∧ sh' = sh1 ∧ call' = (finish_put (y_cfg y) r kind kAccepted (Some c) g1).1).
  { pose proof (finish_metrics (y_cfg y) r kind kAccepted (Some c) g1) as Hm. destruct (finish_put _ _ _ _ _ _) as [call1 g2].
    by injection E as <- <- <-. }
  destruct Hm as ((Hqt & B1 & B2 & B3 & B4) & -> & ->). destruct Hqt as [Q1 Q2 Q3 Q4 Q5 Q6 Q7 Q8 Q9].
  set (call' := (finish_put _ _ _ _ _ _).1). set (y' := after y i sh1 g' (<[id := call']> (y_calls y)) (y_hits y)).
  destruct Had as [_ Hpd]. assert (Hfin : call_ok y' id call' ∧ call_res y' call' = [] ∧ (∀ k, kept_w k id call' = 0) ∧ budget_w id call' = 0 ∧ reserve_w id call' = 0).
  { destruct Hpd as [P1 P2 P3]. apply (finish_accepted y' id r kind c (gl_next (y_gl y)) (mkPublication k bytes c false)); try done; cbn [y' after y_gl].
    - rewrite Q6. apply lookup_insert_eq.
    - by rewrite Q7.
    - rewrite Q4. cbn. by destruct (gl_compl (y_gl y) !! c). }
  destruct Hfin as (Hok & Hr & Hkw & Hbw & Hrw).
  assert (Hpl : same_place sh sh1) by done.
  rewrite (call_res_frame y y' call' ltac:(by apply (after_geo _ _ sh))) in Hr.
  apply (publish_inv y id i sh (CInstall r l) call' sh1 g' r l false (in_now inp) bytes); try done.
  - by left.
  - intros Hop. congruence.
  - split; try done; [apply (mp_pool _ (iv_maps _ Hinv) _ _ Hi)|]. intros j Hj. cbn. rewrite filter_app, filter_cons. cbn.
    rewrite decide_False by (intros <-; by apply Hj). by rewrite ?filter_nil, app_nil_r.
  - split; rewrite ?Q1, ?Q2, ?Q3, ?Q4, ?Q5, ?Q6, ?Q7, ?Q8, ?Q9, ?B1, ?B2, ?B3, ?B4; try done. by left.
  - intros sl _ Hsl Hp1 _ _. cbn. rewrite Hsl. unfold e. cbn. rewrite Er. cbn. rewrite <- Hp1. by destruct sl.
  - cbn. fold k. rewrite filter_app, (unindexed_queue y i sh k Hinv Hi Hx), filter_cons. cbn. by rewrite decide_True.
  - by left.
  - intros j. rewrite Hkw. unfold new_entry. cbn. rewrite Er. by case_decide.
Qed.

(** The promotions publish what the disk has. *)
Lemma publish_durable y id i sh call call' r l bytes n :
  let c := lc_completion l in
  let k := rq_key r in
  let e := new_entry (y_cfg y) r l true 0 (gl_next (y_gl y)) in
  let g := CompletePut (Some c) true (y_gl y) in
  let sh1 := set_index (<[k := e]>) (set_writing (delete k) sh) in
  let sh' := if loc_large l then sh1 else if decide (n = 0) then pool_unpin k (lc_handle l) sh1 else sh1 in
  let g' := bump MPromotes 1 (set_pub (<[gl_next (y_gl y) := mkPublication k bytes c true]>)
    (set_nodes (<[gl_next (y_gl y) := k]>) (set_next S g))) in
  Inv y → y_calls y !! id = Some call → call = CInstall r l ∨ call = COpen r l →
  y_shards y !! i = Some sh → sh_mu sh = None → shard_of k y = i → canceled c (y_gl y) = false →
  load (y_cfg y) (loc_ptr l) (Z.to_nat (rq_len r)) (y_gl y) = Some bytes → Z.of_nat (length bytes) = rq_len r →
  en_send_pins e = n → (n = 0 ∨ n = 1) →
  call_ok (after y i sh' g' (<[id := call']> (y_calls y)) (y_hits y)) id call' →
  (call_res y call' = [] ∨ call_res y call' = [ResPin k]) →
  (∀ j, kept_w j id call' = if decide (j = k) then n else 0) →
  budget_w id call' = 0 → reserve_w id call' = 0 →
  Inv (after y i sh' g' (<[id := call']> (y_calls y)) (y_hits y)).
Proof.
  intros c k e g sh1 sh' g' Hinv Hcall Hc Hi Hmu Hk Hnc Hld Hlen Hn Hn01 Hok Hr Hkw Hb Hw.
  pose proof (ow_ok _ (iv_own _ Hinv) (OCall id) _ Hcall) as Hold.
  assert (Hold' : writing_at y k = Some c ∧ loc_cell y r l) by (destruct Hc as [-> | ->]; destruct_and! Hold; done).
  destruct Hold' as [Hwr [_ Hcell]]. pose proof (mp_pool _ (iv_maps _ Hinv) _ _ Hi) as Hwf.
  assert (Hx : sh_index sh !! k = None).
  { rewrite <- (here_index y i sh) by done. apply (mp_excl _ (iv_maps _ Hinv)). by rewrite Hwr. }
  assert (Hf : sh_index sh' = <[k := e]> (sh_index sh) ∧ sh_writing sh' = delete k (sh_writing sh) ∧ sh_flushq sh' = sh_flushq sh ∧
    sh_mu sh' = None ∧ sh_base_off sh' = sh_base_off sh) by (subst sh'; destruct (loc_large l); [done|by case_decide]).
  destruct Hf as (F1 & F2 & F3 & F4 & F5).
  assert (Hp : sp_wf (sh_alloc sh') ∧ sp_opt (sh_alloc sh') = sp_opt (sh_alloc sh) ∧
    (∀ j, j ≠ k → sp_slot (sh_alloc sh') j = sp_slot (sh_alloc sh) j) ∧
    (lc_large l ≠ None → sp_slot (sh_alloc sh') k = sp_slot (sh_alloc sh) k) ∧
    (∀ sl, lc_large l = None → sp_slot (sh_alloc sh) k = Some sl → sp_slot (sh_alloc sh') k = Some (set_pins n sl))).
  { subst sh'. unfold loc_large. destruct (lc_large l) as [b|] eqn:El; [by split_and!|]. destruct Hcell as [_ Hcell].
    destruct (call_slot y i sh _ _ _ _ _ _ Hi Hk Hcell) as (sl & Hsl & -> & Hpi & Hpe & _ & _). case_decide as Hz.
    - destruct (sp_unpin_ok _ _ _ Hwf Hsl) as (a' & Eu & Hwf' & [Hs' Ho']); [lia|]. rewrite Hpi, Hpe in Hs'. cbn in Hs'.
      cbn. rewrite Eu. cbn. split_and!; try done.
      + intros j Hj. by rewrite Hs', decide_False.
      + intros sl' _ Hsl'. rewrite Hs', decide_True by done. rewrite Hsl in Hsl'. injection Hsl' as <-. by rewrite Hz.
    - assert (n = 1) as -> by lia. split_and!; try done. intros sl' _ Hsl'. cbn. rewrite Hsl. rewrite Hsl in Hsl'. injection Hsl' as <-.
      rewrite <- Hpi. by destruct sl. }
  destruct Hp as (P1 & P2 & P3 & P4 & P5).
  apply (publish_inv y id i sh call call' sh' g' r l true 0 bytes); try done.
  - split; try done. intros j _. by rewrite F3.
  - split; try done. + by right. + cbn. unfold dirty_w. cbn. lia. + cbn. unfold object_w. cbn. lia.
  - intros sl El Hsl _ _ _. fold k e. rewrite Hn. cbn. rewrite Z.add_0_r. by apply P5.
  - fold k. by rewrite F3, (unindexed_queue y i sh k Hinv Hi Hx).
  - intros j. fold k e. by rewrite Hn.
Qed.

Lemma step_install y id inp r l y' :
  Inv y → y_calls y !! id = Some (CInstall r l) → call_step id inp y (CInstall r l) = Some y' → Inv y'.
Proof.
  intros Hinv Hcall. cbn [call_step]. intros (sh & call' & sh' & g' & Hi & Hmu & E & ->)%section_Some.
  destruct (ow_ok _ (iv_own _ Hinv) (OCall id) _ Hcall) as (Had & Hwr & Hcell & Hop & Hld).
  destruct (canceled (lc_completion l) (y_gl y)) eqn:Hnc.
  { unfold install_section in E. rewrite Hnc in E. injection E as <- <- <-. by apply install_canceled. }
  destruct (rq_op r) as [kind| |] eqn:Er; [by eapply install_put| |done].
  pose proof (ad_req _ _ _ _ Had) as (Hreq & Hpos & Hdata). rewrite Er in Hdata.
  destruct (rq_data r) as [bytes|] eqn:Ed; [|done].
  assert (Hlen : Z.of_nat (length bytes) = rq_len r).
  { unfold req_ok in Hreq. rewrite Er, Ed in Hreq. apply andb_true_iff in Hreq as [_ ?%Z.eqb_eq]. done. }
  set (i := shard_of (rq_key r) y) in *.
  assert (Hx : sh_index sh !! rq_key r = None).
  { rewrite <- (here_index y i sh) by done. apply (mp_excl _ (iv_maps _ Hinv)). by rewrite Hwr. }
  unfold install_section in E. rewrite Hnc, Er, Hld in E. unfold emplace_entry in E. cbn [sh_index set_writing default from_option] in E.
  rewrite Hx in E. injection E as <- <- <-.
  apply (publish_durable y id i sh (CInstall r l) (CRet r None (Some (lc_completion l)) (RBool true)) r l bytes 0); try done; auto.
  - unfold new_entry. cbn. by rewrite Er.
  - cbn. unfold ret_ok. by rewrite Er.
  - intros j. by case_decide.
Qed.

Lemma step_commit y id y' : Inv y → step (ACommit id) y = Some y' → Inv y'.
Proof.
  intros Hinv. cbn [step]. destruct (y_calls y !! id) as [call|] eqn:Hcall; [|done]. destruct call; try done.
  intros (sh & call' & sh' & g' & Hi & Hmu & E & ->)%section_Some. set (i := shard_of (rq_key r) y) in *.
  destruct (ow_ok _ (iv_own _ Hinv) (OCall id) _ Hcall) as (Had & Hwr & Hcell & Hop). unfold commit_section in E.
  destruct (canceled (lc_completion l) (y_gl y)) eqn:Hnc.
  { injection E as <- <- <-. by apply commit_canceled. }
  pose proof (ad_req _ _ _ _ Had) as (_ & Hpos & _). pose proof Hcell as [Hcap _].
  destruct (open_slot y i sh r l Hinv Hi eq_refl (ad_req _ _ _ _ Had) Hop Hcell) as (El & sl & Hsl & Hh & Hp & Hpe & Hof & Hca).
  assert (Hsl' : pool_slot y (rq_key r) = Some sl) by (by rewrite (here_slot y i sh)).
  pose proof (slot_bounds y (rq_key r) sh sl (iv_geo _ Hinv) (iv_maps _ Hinv) Hi Hsl') as Hbd. cbn zeta in Hbd.
  assert (Hld : load (y_cfg y) (loc_ptr l) (Z.to_nat (rq_len r)) (y_gl y)
    = Some (read_bytes (gl_mem (y_gl y)) (lc_offset l) (Z.to_nat (rq_len r)))).
  { unfold loc_ptr. rewrite El. apply load_arena; rewrite Hof; lia. }
  set (bytes := read_bytes _ _ _) in *.
  assert (Hlen : Z.of_nat (length bytes) = rq_len r) by (unfold bytes; rewrite length_read_bytes; lia).
  assert (Hx : sh_index sh !! rq_key r = None).
  { rewrite <- (here_index y i sh) by done. apply (mp_excl _ (iv_maps _ Hinv)). by rewrite Hwr. }
  rewrite (here_writing y i sh) in Hwr by done. rewrite erase_writing_eq, Hld in E by done. unfold emplace_entry in E.
  cbn [sh_index set_writing default from_option] in E. rewrite Hx in E. injection E as <- <- <-.
  pose proof (publish_durable y id i sh (COpen r l) (CKept r l true) r l bytes 1) as Hpub. cbn zeta in Hpub.
  rewrite (decide_False (P := 1 = 0)) in Hpub by done. unfold loc_large in Hpub. rewrite El in Hpub.
  apply Hpub; try done; auto.
  - unfold new_entry. cbn. by rewrite Hop.
  - split_and!; [apply Had|done|]. rewrite (there_index _ _ sh) by done. cbn. rewrite lookup_insert_eq. cbn. unfold in_arena. cbn. by rewrite El.
  - intros j. cbn. by repeat case_decide; congruence.
Qed.

End publish.
