(* ===== verification/RamSink.v ===== *)
(** * RAM tier: handing values to the disk

    The flush sink reads the value of an entry and may overwrite the padding behind
    it; what it answers for a batch is evidence for the entries it took. *)

From S2P Require Import Prelude KvTypes SlabTypes SlabOps SlotPool RamTypes RamOps RamInv RamFrame RamShard.
From S2P Require Import RamCall RamLocal RamMem RamRemove RamCopy.

Section sink.
Context {A : Type} `{SlotPoolLaws A}.
Notation Sys := (Sys A).
Notation Shard := (Shard A).
Implicit Types (y : Sys) (k : BlockKey) (sh : Shard) (g : Globals) (e : Entry).

Lemma entry_cell y k e : entry_ok y k e → cell y k (en_large e) (en_offset e) (en_cap e).
Proof. intros He. pose proof (eo_cell _ _ _ He) as Hc. unfold cell. destruct (en_large e); eauto. Qed.

(** A store behind the value of an entry. *)
Section pad.
Context (y : Sys) (k : BlockKey) (e : Entry) (pad : list Z) (g1 : Globals) (s : DiskCall).
Hypothesis Hinv : Inv y.
Hypothesis He : index_at y k = Some e.
Hypothesis Hst : stored y k (en_large e) (en_offset e) (en_len e) pad g1.
Notation g' := (set_sunk (λ l, l ++ [s]) g1).
Notation y' := (with_gl (λ _, g') y).

Lemma pad_fields :
  gl_compl g' = gl_compl (y_gl y) ∧ gl_pub g' = gl_pub (y_gl y) ∧ gl_fenced g' = gl_fenced (y_gl y) ∧
  gl_nodes g' = gl_nodes (y_gl y) ∧ gl_compl_key g' = gl_compl_key (y_gl y) ∧ gl_next g' = gl_next (y_gl y) ∧
  gl_sunk g' = gl_sunk (y_gl y) ++ [s] ∧
  gl_budget_used g' = gl_budget_used (y_gl y) ∧ gl_large_used g' = gl_large_used (y_gl y) ∧
  gl_dirty_bytes g' = gl_dirty_bytes (y_gl y) ∧ gl_dirty_objects g' = gl_dirty_objects (y_gl y).
Proof using Hst. cbn. pose proof (sd_shape _ _ _ _ _ _ _ Hst) as ->. done. Qed.

Lemma pad_grows : grows (y_gl y) g'.
Proof using Hst.
  destruct pad_fields as (E1 & E2 & E3 & E4 & E5 & E6 & E7 & _). split; rewrite ?E1, ?E2, ?E3, ?E5, ?E7; eauto.
  intros x Hx. apply elem_of_app. by left.
Qed.

Lemma pad_same r : r ≠ storage_res k (en_large e) → same_res y y' r.
Proof using Hst.
  intros Hr. pose proof (sd_same _ _ _ _ _ _ _ Hst r (y_calls y) (y_hits y) Hr) as Hs.
  destruct r; try exact Hs.
Qed.

Lemma pad_entry_ok : entry_ok y' k e.
Proof using All.
  destruct (ow_ok _ (iv_own _ Hinv) (OEntry k) _ He) as [K1 K2 K3 K4 (c & bytes & dur & C1 & C2 & C3 & C4 & C5 & C6) K6 K7 K8].
  destruct pad_fields as (E1 & E2 & E3 & E4 & E5 & _). split; try done.
  - exists c, bytes, dur. cbn [with_gl y_gl y_cfg]. rewrite E1, E2, E5. split_and!; try done. rewrite <- C6.
    apply (sd_low _ _ _ _ _ _ _ Hst (Z.to_nat (en_len e))). lia.
  - cbn [with_gl y_gl]. by rewrite E4.
  - destruct (en_large e) as [b|].
    + destruct (sd_buf _ _ _ _ _ _ _ Hst b eq_refl) as (_ & buf & buf' & H1 & H2 & H3). exists buf'. cbn. rewrite H2, lookup_insert_eq.
      split; [done|]. destruct K7 as (buf0 & Hb & <-). rewrite H1 in Hb. injection Hb as <-. congruence.
    + destruct K7 as (sh & ref & hd & H1 & H2 & H3). by exists sh, ref, hd.
Qed.

Lemma inv_pad : Inv y'.
Proof using All.
  pose proof pad_fields as (E1 & E2 & E3 & E4 & E5 & E6 & E7 & E8 & E9 & E10 & E11). pose proof pad_grows as Hgr.
  pose proof Hinv as [Hgeo Hown Hmaps Hids Hhist Hpins Hsums].
  assert (Hin : storage_res k (en_large e) ∈ owned y (OEntry k)) by (cbn [owned]; rewrite He; unfold entry_res; list_in).
  split; [exact Hgeo| |by destruct Hmaps| | |by destruct Hpins|].
  - apply (owners_step_list y y' [OEntry k] [storage_res k (en_large e)]); try done.
    + intros r Hr. apply pad_same. intros ->. apply Hr. list_in.
    + intros r ->%list_elem_of_singleton. left. exists (OEntry k). split; [list_in|done].
    + intros o ->%list_elem_of_singleton e' He'. assert (e' = e) as -> by (change (index_at y k = Some e') in He'; congruence).
      apply pad_entry_ok.
    + intros o r ->%list_elem_of_singleton Hr. left. exists (OEntry k). split; [list_in|exact Hr].
    + by intros o o' r ->%list_elem_of_singleton ->%list_elem_of_singleton.
    + intros r Ht Hp Hr. exists (OEntry k). split; [list_in|]. change (r ∈ owned y (OEntry k)).
      destruct Hr as [->%list_elem_of_singleton|(o & ->%list_elem_of_singleton & Hr)]; done.
  - destruct Hids as [I1 I2 I3 I4 I5]. split; cbn [with_gl y_gl]; rewrite ?E1, ?E2, ?E4, ?E5, ?E6; try done. intros n Hn. cbn.
    destruct (en_large e) as [b|] eqn:El; [|rewrite (sd_slot _ _ _ _ _ _ _ Hst); auto].
    destruct (sd_buf _ _ _ _ _ _ _ Hst b eq_refl) as (_ & buf & buf' & H1 & -> & _).
    rewrite lookup_insert_ne; [auto|]. intros ->. by rewrite I4 in H1.
  - destruct Hhist as [H1 H2 H3 Hfd H4 H5]. split; cbn [with_gl y_gl y_cfg]; unfold canceled; rewrite ?E1, ?E2, ?E3, ?E5; try done.
    intros c p Hc Hs. destruct (H1 c p Hc Hs) as (n & pb & ? & ? & ?). exists n, pb. split_and!; [done|done|]. by eapply evidence_grows.
  - destruct Hsums. split; cbn [with_gl y_gl y_cfg y_calls]; rewrite ?E8, ?E9, ?E10, ?E11; done.
Qed.

End pad.

(** ** The sink *)

(** [it] describes the entry of its key. *)
Definition item_of y (it : FlushItem) : Prop :=
  ∃ e, index_at y (fi_key it) = Some e ∧ it = mkFlushItem (fi_key it) (entry_data e) (en_len e) (en_cap e).

(** The value published under the entry of [k] was handed over, with answer [ok]. *)
Definition handed y k (ok : bool) g : Prop :=
  ∀ e pb, index_at y k = Some e → gl_pub (y_gl y) !! en_node e = Some pb → mkSinkCall k (pb_bytes pb) ok ∈ gl_sunk g.

(** What a hand-over leaves alone. *)
Record handing g g' : Prop := {
  hd_grows : grows g g';
  hd_pub : gl_pub g' = gl_pub g;
}.

Lemma sink_item_inv y it ok pad g' :
  Inv y → item_of y it → sink_item (y_cfg y) it ok pad (y_gl y) = Some g' →
  Inv (with_gl (λ _, g') y) ∧ handing (y_gl y) g' ∧ handed y (fi_key it) ok g'.
Proof.
  intros Hinv (e & He & Hit). pose proof (ow_ok _ (iv_own _ Hinv) (OEntry (fi_key it)) _ He) as Hok.
  pose proof (eo_len _ _ _ Hok) as Hlen. destruct (eo_cmp _ _ _ Hok) as (c & bytes & dur & _ & _ & _ & Hpb & Hbl & Hld).
  set (k := fi_key it) in *. rewrite Hit. unfold sink_item. cbn [fi_data fi_len fi_cap fi_key]. rewrite Hld. cbn [mbind option_bind].
  destruct (decide _) as [Hpad|]; [|done].
  destruct (store_cell y k (en_large e) (en_offset e) (en_cap e) (en_len e) pad) as (g1 & E & Hst);
    [apply Hinv|apply Hinv|by apply entry_cell|lia|lia|].
  change (cell_ptr (en_large e) (en_offset e)) with (entry_data e) in E. rewrite E. cbn [mbind option_bind]. intros [= <-].
  set (s := mkSinkCall k bytes ok). split_and!.
  - by apply (inv_pad y k e pad g1 s).
  - split; [by apply (pad_grows y k e pad)|]. by destruct (pad_fields y k e pad g1 s Hst) as (_ & ? & _).
  - intros e' pb He' Hpb'. assert (e' = e) as -> by congruence. rewrite Hpb in Hpb'. injection Hpb' as <-.
    cbn. apply elem_of_app. right. list_in.
Qed.

(** A batch. *)
Lemma sink_items_inv items : ∀ oks pads y g',
  Inv y → (∀ it, it ∈ items → item_of y it) → sink_items (y_cfg y) items oks pads (y_gl y) = Some g' →
  Inv (with_gl (λ _, g') y) ∧ handing (y_gl y) g' ∧
  ∀ j it, items !! j = Some it → handed y (fi_key it) (default false (oks !! j)) g'.
Proof.
  induction items as [|it items IH]; intros oks pads y g' Hinv Hit; cbn [sink_items].
  { intros [= <-]. split_and!; [by destruct y|by split|by intros j]. }
  intros (g1 & E1 & E)%bind_Some. apply sink_item_inv in E1 as (Hinv1 & [Hg1 Hp1] & Hh1); [|done|apply Hit; by left].
  set (y1 := with_gl (λ _, g1) y) in *. apply (IH _ _ y1) in E as (Hinv2 & [Hg2 Hp2] & Hh2); [|done|].
  2:{ intros it' Hin. apply (Hit it'). by right. }
  split_and!; [exact Hinv2|split; [by etransitivity|by rewrite Hp2]|].
  intros j it' Hj. destruct j as [|j]; cbn in Hj.
  - injection Hj as <-. intros e pb He Hpb. apply Hg2. replace (default false (oks !! 0%nat)) with (default false (head oks)) by (by destruct oks).
    by apply (Hh1 e pb).
  - intros e pb He Hpb. rewrite <- lookup_tail. apply (Hh2 j it' Hj e pb); [exact He|]. cbn. by rewrite Hp1.
Qed.

(** ** The unlocked part of [FlushLoop] *)

Lemma batch_items y id i batch items ok :
  Inv y → y_calls y !! id = Some (CFlush i batch items ok) →
  ∀ j it, items !! j = Some it → item_of y it ∧ ∃ q, batch !! j = Some q ∧ q_key q = fi_key it.
Proof.
  intros Hinv Hcall j it Hj. destruct (ow_ok _ (iv_own _ Hinv) (OCall id) _ Hcall) as (_ & Hl & _ & _ & Hb).
  destruct (lookup_lt_is_Some_2 batch j) as [q Hq]; [rewrite <- Hl; by eapply lookup_lt_Some|].
  destruct (Hb j q it Hq Hj) as (_ & e & He & _ & -> & _). cbn. split; [by exists e|eauto].
Qed.

(** New answers go with evidence. *)
Lemma inv_answers y id i batch items ok ok' :
  Inv y → y_calls y !! id = Some (CFlush i batch items ok) → (length ok' <= length batch)%nat →
  (∀ j q e pb, batch !! j = Some q → ok' !! j = Some true → index_at y (q_key q) = Some e →
     gl_pub (y_gl y) !! en_node e = Some pb → ok !! j = Some true ∨ evidence (y_cfg y) (y_gl y) pb) →
  Inv (with_call id (CFlush i batch items ok') (with_gl (λ _, y_gl y) y)).
Proof.
  intros Hinv Hcall Hlen Hev. destruct (ow_ok _ (iv_own _ Hinv) (OCall id) _ Hcall) as (Hi & Hl & _ & Hnd & Hb).
  apply (inv_local y id (CFlush i batch items ok)); try done; try (cbn; lia).
  split_and!; try done. intros j q it Hq Hit. destruct (Hb j q it Hq Hit) as (Hs & e & He & Hf & -> & Hok).
  split; [done|]. exists e. split_and!; try done. intros Ht.
  destruct (eo_cmp _ _ _ (ow_ok _ (iv_own _ Hinv) (OEntry (q_key q)) _ He)) as (c & bytes & dur & _ & _ & _ & Hpb & _).
  destruct (Hev j q e _ Hq Ht He Hpb) as [Ht'|?]; [by apply Hok|eauto].
Qed.

Lemma handed_evidence y g' k pb e :
  handed y k true g' → index_at y k = Some e → gl_pub (y_gl y) !! en_node e = Some pb → pb_key pb = k →
  evidence (y_cfg y) g' pb.
Proof. intros Hh He Hpb <-. right; left. by apply (Hh e pb). Qed.

Lemma entry_pub_key y k e pb :
  Inv y → index_at y k = Some e → gl_pub (y_gl y) !! en_node e = Some pb → pb_key pb = k.
Proof.
  intros Hinv He Hpb. destruct (eo_cmp _ _ _ (ow_ok _ (iv_own _ Hinv) (OEntry k) _ He)) as (c & bytes & dur & _ & _ & _ & Hpb' & _).
  rewrite Hpb in Hpb'. by injection Hpb' as ->.
Qed.

Lemma flush_items_inv y id i batch items ok inp call' g' :
  Inv y → y_calls y !! id = Some (CFlush i batch items ok) → length ok ≠ length batch →
  flush_items (y_cfg y) i batch items ok inp (y_gl y) = Some (call', g') →
  Inv (with_call id call' (with_gl (λ _, g') y)).
Proof.
  intros Hinv Hcall Hne. pose proof (ow_ok _ (iv_own _ Hinv) (OCall id) _ Hcall) as (Hi & Hl & Hle & Hnd & Hb).
  unfold flush_items. destruct (cf_flush_batch (y_cfg y) && negb (length batch =? 0)%nat) eqn:Eb.
  - intros (g1 & Es & E)%bind_Some. injection E as <- <-.
    apply sink_items_inv in Es as (Hinv1 & [Hg1 Hp1] & Hh1); [|done|].
    2:{ intros it (j & Hj)%list_elem_of_lookup_1. by eapply batch_items. }
    set (y1 := with_gl (λ _, g1) y) in *.
    change (with_gl (λ _, g1) y) with (with_gl (λ _, y_gl y1) y1).
    apply (inv_answers y1 id i batch items ok); [done|done|unfold batch_answers; by rewrite length_fmap, length_seq|].
    intros j q e pb Hq Ht He Hpb. right. destruct (lookup_lt_is_Some_2 items j) as [it Hit]; [rewrite Hl; by eapply lookup_lt_Some|].
    assert (Hk : q_key q = fi_key it).
    { destruct (batch_items y id i batch items ok Hinv Hcall j it Hit) as (_ & q' & Hq' & ?). congruence. }
    change (index_at y (q_key q) = Some e) in He. cbn in Hpb. rewrite Hp1 in Hpb. rewrite Hk in He.
    apply (handed_evidence y g1 (fi_key it) pb e); try done; [|exact (entry_pub_key y _ e pb Hinv He Hpb)].
    pose proof (Hh1 j it Hit) as Hh. by rewrite Ht in Hh.
  - intros (it & Hit & E)%bind_Some.
    destruct (batch_items y id i batch items ok Hinv Hcall _ it Hit) as (Hof & q & Hq & Hk).
    assert (Hlt : (length ok < length batch)%nat) by lia.
    destruct (cf_flush (y_cfg y)) eqn:Ef.
    + apply bind_Some in E as (g1 & Es & E). injection E as <- <-.
      apply sink_item_inv in Es as (Hinv1 & [Hg1 Hp1] & Hh1); [|done|done].
      set (y1 := with_gl (λ _, g1) y) in *. change (with_gl (λ _, g1) y) with (with_gl (λ _, y_gl y1) y1).
      apply (inv_answers y1 id i batch items ok); [done|done|rewrite length_app; cbn; lia|].
      intros j q' e pb Hq' Ht He Hpb. apply lookup_app_Some in Ht as [?|[Hj Ht]]; [by left|right].
      apply list_lookup_singleton_Some in Ht as [Hj0 Ht]. assert (j = length ok) as -> by lia. assert (q' = q) as -> by congruence.
      change (index_at y (q_key q) = Some e) in He. cbn in Hpb. rewrite Hp1 in Hpb. rewrite Hk in He.
      apply (handed_evidence y g1 (fi_key it) pb e); try done; [by rewrite <- Ht|exact (entry_pub_key y _ e pb Hinv He Hpb)].
    + injection E as <- <-. apply (inv_answers y id i batch items ok); [done|done|rewrite length_app; cbn; lia|].
      intros j q' e pb Hq' Ht He Hpb. right; right; right. split; [done|].
      apply andb_false_iff in Eb as [?|Eb%negb_false_iff%Nat.eqb_eq]; [done|lia].
Qed.

End sink.
