(* ===== verification/RamFlush.v ===== *)
(** * RAM tier: flushing

    The critical sections of [FlushLoop]: taking items off the queue, and ending
    their flushes. *)

From S2P Require Import Prelude KvTypes SlabTypes SlabOps SlotPool RamTypes RamOps RamInv RamFrame RamShard.
From S2P Require Import RamCall RamLocal RamAdmit RamMem RamEntry RamPin RamRead RamSettle.
From S2P Require Import RamRemove RamSink.

Section flush.
Context {A : Type} `{SlotPoolLaws A}.
Notation Sys := (Sys A).
Notation Shard := (Shard A).
Implicit Types (y : Sys) (k : BlockKey) (sh : Shard) (g : Globals) (e : Entry).

(** ** The batch of a worker *)

(** Items the step does not concern stay in order. *)
Lemma batch_frame y i sh sh' g' calls hits id k batch items ok :
  y_shards y !! i = Some sh → same_place sh sh' → grows (y_gl y) g' →
  (∀ j, j ≠ k → sh_index sh' !! j = sh_index sh !! j) → k ∉ q_key <$> batch →
  call_ok y id (CFlush i batch items ok) → call_ok (after y i sh' g' calls hits) id (CFlush i batch items ok).
Proof.
  intros Hi Hpl Hgr Hix Hk Hok. eapply (call_ok_frame y); [by apply (after_geo _ _ sh)|done| |done].
  cbn [call_res]. intros r (q & -> & Hq)%list_elem_of_fmap. apply (same_after _ _ sh); [done|]. intros _.
  rewrite Hix; [done|]. intros <-. apply Hk. by apply list_elem_of_fmap_2.
Qed.

(** One item fewer. *)
Lemma batch_tail y id i q batch it items ok :
  call_ok y id (CFlush i (q :: batch) (it :: items) ok) →
  q_key q ∉ q_key <$> batch ∧ call_ok y id (CFlush i batch items (tail ok)) ∧
  flush_item_ok y i q it (head ok).
Proof.
  intros (Hi & Hl & Hlo & Hnd & Hb). cbn in Hl, Hlo, Hnd. apply NoDup_cons in Hnd as [Hn Hnd]. split; [done|]. split.
  - split; [done|]. split; [lia|]. split; [destruct ok; cbn in *; lia|]. split; [done|].
    intros j q' it' Hq Hit. rewrite lookup_tail. by apply (Hb (S j)).
  - specialize (Hb 0%nat q it eq_refl eq_refl). by destruct ok.
Qed.

Lemma flush_mover y id i k q batch it items ok oe' :
  Inv y → y_calls y !! id = Some (CFlush i (q :: batch) (it :: items) ok) → q_key q = k →
  (∀ e', oe' = Some e' → en_flushing e' = false) →
  mover_ok y k true oe' (Some (id, CFlush i (q :: batch) (it :: items) ok, CFlush i batch items (tail ok))).
Proof.
  intros Hinv Hcall <- Hoe. split; cbn; try done.
  - intros r Hr. left. by right.
  - intros r Ht [->|?]%elem_of_cons; auto.
  - intros c Hc. apply list_elem_of_fmap in Hc as (? & ? & _). done.
  - intros _. split; [left; by left|]. intros e' He' Hf. rewrite Hoe in Hf; done.
Qed.

(** ** The end of a flush *)

Lemma hidden_id e : en_remove_pending e = true → set_en_remove_pending (λ _, true) e = e.
Proof. destruct e. cbn. by intros ->. Qed.

Section item.
Context (y : Sys) (id i : nat) (sh : Shard) (q : QItem) (batch : list QItem) (it : FlushItem) (items : list FlushItem)
  (ok : list bool) (e : Entry) (c : nat).
Hypothesis Hinv : Inv y.
Hypothesis Hcall : y_calls y !! id = Some (CFlush i (q :: batch) (it :: items) ok).
Hypothesis Hi : y_shards y !! i = Some sh.
Hypothesis Hmu : sh_mu sh = None.
Notation k := (q_key q).
Hypothesis Hk : shard_of k y = i.
Hypothesis Hx : sh_index sh !! k = Some e.
Hypothesis Hf : en_flushing e = true.
Hypothesis Hc : en_completion e = Some c.
Hypothesis Hev : head ok = Some true → ∃ pb, gl_pub (y_gl y) !! en_node e = Some pb ∧ evidence (y_cfg y) (y_gl y) pb.
Notation call' := (CFlush i batch items (tail ok)).
Notation mv := (Some (id, CFlush i (q :: batch) (it :: items) ok, call')).
Notation e1 := (set_en_flushing (λ _, false) e).
Notation sh1 := (upd_entry k (set_en_flushing (λ _, false)) sh).
Notation e2 := (set_en_flush_pin (λ _, false) e1).
Notation sh2 := (drop_flush_pin k e sh1).

Lemma it_old : index_at y k = Some e.
Proof using Hi Hk Hx. by rewrite (here_index y i sh). Qed.

Lemma it_flags : en_flush_pin e = true ∧ en_durable e = false.
Proof using Hinv Hi Hk Hx Hf.
  destruct (eo_flags _ _ _ (ow_ok _ (iv_own _ Hinv) (OEntry k) _ it_old)) as [F1 F2 _ _ _]. specialize (F2 Hf). split; [done|].
  destruct (en_durable e); [|done]. rewrite F1 in F2; done.
Qed.

Lemma it_to sh' g' :
  same_place sh sh' → grows (y_gl y) g' → (∀ j, j ≠ k → sh_index sh' !! j = sh_index sh !! j) →
  mv_to (after y i sh' g' (moved mv (y_calls y)) (y_hits y)) mv.
Proof using Hinv Hcall Hi.
  intros Hpl Hgr Hix. destruct (batch_tail _ _ _ _ _ _ _ _ (ow_ok _ (iv_own _ Hinv) (OCall id) _ Hcall)) as (Hn & Hok & _).
  by apply (batch_frame y i sh sh' g' _ _ id k).
Qed.

Lemma it_queue : length (filter (λ x, q_key x = k) (sh_flushq sh)) = 0%nat.
Proof using Hinv Hi Hk Hx Hf.
  pose proof (eo_queue _ _ _ (ow_ok _ (iv_own _ Hinv) (OEntry k) _ it_old)) as Hq. rewrite (here_queue y i sh) in Hq by done.
  unfold queued in Hq. by rewrite Hf, andb_false_r in Hq.
Qed.

Lemma it_view : cmp_view <$> gl_compl (y_gl y) !! c = Some (false, false).
Proof using Hinv Hi Hk Hx Hf Hc.
  destruct (eo_cmp _ _ _ (ow_ok _ (iv_own _ Hinv) (OEntry k) _ it_old)) as (c' & _ & _ & Hc' & _ & Hv & _).
  destruct it_flags as [E1 E2]. rewrite E1, E2 in Hv. by assert (c' = c) as -> by congruence.
Qed.

Lemma it_complete b g1 :
  gl_compl g1 = gl_compl (y_gl y) → cmp_view <$> gl_compl (CompletePut (Some c) b g1) !! c = Some (true, b).
Proof using Hinv Hi Hk Hx Hf Hc.
  intros E. pose proof it_view as Hv. cbn. rewrite E, lookup_alter_eq. destruct (gl_compl (y_gl y) !! c) as [p|]; [|done].
  injection Hv as Hd _. cbn. by rewrite Hd.
Qed.

(** After the flush pin is gone. *)
Lemma it_moved :
  shard_moved k e (Some (en_send_pins e)) sh sh2 ∧ sh_index sh2 = <[k := e2]> (sh_index sh) ∧ sh_flushq sh2 = sh_flushq sh.
Proof using Hinv Hi Hk Hx.
  destruct (ow_ok _ (iv_own _ Hinv) (OEntry k) _ it_old) as [Hke Hp0 _ _ _ _ _ _].
  destruct (flush_pin_dropped k e (en_send_pins e) sh1 e1 (sh_index sh)) as (D1 & D2 & D3 & D4); try done.
  - apply (mp_pool _ (iv_maps _ Hinv) _ _ Hi).
  - by apply (entry_slot_ok y i sh).
  - cbn. by apply alter_here.
  - injection D4 as R1 R2 R3. split_and!; [|done|done]. split; try congruence; [|done]. intros j _. by rewrite D3.
Qed.

Lemma it_place sh' : shard_moved k e (Some (en_send_pins e)) sh sh' → same_place sh sh'.
Proof using Type. intros [M1 _ _ _ [_ M2 _ _ _]]. by split. Qed.

(** The value is on disk. *)
Lemma item_done :
  en_remove_pending e = false → head ok = Some true →
  Inv (after y i (drop_flush_pin k e (upd_entry k (set_en_durable (λ _, true)) sh1))
         (bump MFlushed 1 (CompletePut (Some c) true
            (set_dirty_objects (λ n, n - 1) (set_dirty_bytes (λ n, n - en_cap e) (y_gl y)))))
         (<[id := call']> (y_calls y)) (y_hits y)).
Proof using All.
  intros Hrm Hokt. destruct it_flags as [Hfp Hd].
  destruct (ow_ok _ (iv_own _ Hinv) (OEntry k) _ it_old) as [Hke Hp0 _ _ _ _ _ _].
  set (sh0 := upd_entry k (set_en_durable (λ _, true)) sh1). set (e0 := set_en_durable (λ _, true) e1).
  assert (Hix0 : sh_index sh0 = <[k := e0]> (sh_index sh)).
  { cbn. rewrite (alter_here k e) by done. by rewrite alter_insert_eq. }
  destruct (flush_pin_dropped k e (en_send_pins e) sh0 e0 (sh_index sh)) as (D1 & D2 & D3 & D4); try done.
  { apply (mp_pool _ (iv_maps _ Hinv) _ _ Hi). }
  { by apply (entry_slot_ok y i sh). }
  injection D4 as R1 R2 R3. set (sh' := drop_flush_pin k e sh0) in *.
  set (g0 := set_dirty_objects _ _). set (g' := bump MFlushed 1 _).
  assert (Hm : shard_moved k e (Some (en_send_pins e)) sh sh').
  { split; try congruence; [|done]. intros j _. by rewrite D3. }
  set (e' := set_en_flush_pin (λ _, false) e0).
  assert (Hgc : globals_changed (y_cfg y) e (Some e') (y_gl y) g').
  { eapply changed_quiet; [eapply changed_complete; [eapply changed_quiet; [apply changed_refl|by split|done|done]|done|]|by split|done|done].
    intros _. by apply Hev. }
  apply (inv_update y i sh sh' g' (y_hits y) mv k e true) with (e' := e'); try done.
  - apply it_to; [by apply it_place|by eapply en_grows|]. intros j Hj. by rewrite D2, lookup_insert_ne.
  - apply (flush_mover y id i k); try done. by intros e3 [= <-].
  - cbn. by rewrite Z.add_0_r.
  - split; cbn; try done. by rewrite Hrm.
  - intros c' Hc'. assert (c' = c) as -> by congruence. by apply it_complete.
  - rewrite D3. cbn. unfold queued. cbn. apply it_queue.
  - cbn. lia.
  - auto.
  - cbn. unfold dirty_w. cbn. rewrite Hd. lia.
  - cbn. unfold object_w. cbn. rewrite Hd. lia.
Qed.

(** It will be tried again. *)
Lemma item_retry tries :
  en_remove_pending e = false →
  Inv (after y i (set_flushq (λ l, l ++ [mkQItem k tries]) sh1) (y_gl y) (<[id := call']> (y_calls y)) (y_hits y)).
Proof using All.
  intros Hrm. destruct it_flags as [Hfp Hd].
  destruct (ow_ok _ (iv_own _ Hinv) (OEntry k) _ it_old) as [Hke Hp0 _ _ _ _ _ _].
  set (sh' := set_flushq _ sh1). assert (Hix : sh_index sh' = <[k := e1]> (sh_index sh)) by (cbn; by apply alter_here).
  apply (inv_update y i sh sh' (y_gl y) (y_hits y) mv k e true) with (e' := e1); try done.
  - apply it_to; [done|done|]. intros j Hj. by rewrite Hix, lookup_insert_ne.
  - apply (flush_mover y id i k); try done. by intros e3 [= <-].
  - split; try done.
    + intros j Hj. cbn. rewrite filter_app, filter_cons. cbn. rewrite decide_False by (intros <-; by apply Hj).
      by rewrite ?filter_nil, app_nil_r.
    + apply pool_same; [apply (mp_pool _ (iv_maps _ Hinv) _ _ Hi)|]. exact (entry_slot_ok y i sh k e Hinv Hi Hk Hx).
  - apply changed_refl.
  - split; cbn; rewrite ?Hd, ?Hrm, ?Hfp; done.
  - intros c' Hc'. assert (c' = c) as -> by congruence. cbn. rewrite Hfp, Hd. apply it_view.
  - cbn. rewrite filter_app, filter_cons, length_app, it_queue. cbn. rewrite decide_True by done. unfold queued. cbn. by rewrite Hfp.
  - cbn. lia.
  - auto.
  - unfold dirty_w. cbn. lia.
  - unfold object_w. cbn. lia.
Qed.

(** The value is given up: dropped, or hidden while hits pin it. *)
Lemma item_settle g1 g' sh' :
  quiet (y_gl y) g1 → gl_budget_used g1 = gl_budget_used (y_gl y) → gl_large_used g1 = gl_large_used (y_gl y) →
  gl_dirty_bytes g1 = gl_dirty_bytes (y_gl y) → gl_dirty_objects g1 = gl_dirty_objects (y_gl y) →
  (if en_send_pins e =? 0 then
     sh' = (DropLocked k sh2 g1).1 ∧ ∃ gm, quiet gm g' ∧ gm = CompletePut (Some c) false (drop_globals e g1) ∧
       gl_budget_used g' = gl_budget_used gm ∧ gl_large_used g' = gl_large_used gm ∧
       gl_dirty_bytes g' = gl_dirty_bytes gm ∧ gl_dirty_objects g' = gl_dirty_objects gm
   else
     (sh' = upd_entry k (set_en_remove_pending (λ _, true)) sh2 ∨ sh' = sh2 ∧ en_remove_pending e = true) ∧
     ∃ gm, quiet gm g' ∧ gm = CompletePut (Some c) false g1 ∧
       gl_budget_used g' = gl_budget_used gm ∧ gl_large_used g' = gl_large_used gm ∧
       gl_dirty_bytes g' = gl_dirty_bytes gm ∧ gl_dirty_objects g' = gl_dirty_objects gm) →
  Inv (after y i sh' g' (<[id := call']> (y_calls y)) (y_hits y)) ∧ sh_mu sh' = None.
Proof using All.
  intros Hq1 B1 B2 B3 B4. destruct it_flags as [Hfp Hd]. destruct it_moved as (Hm & Hix & Hqq).
  destruct (ow_ok _ (iv_own _ Hinv) (OEntry k) _ it_old) as [Hke Hp0 _ Hlen _ _ _ _].
  assert (Hq : length (filter (λ x, q_key x = k) (sh_flushq sh2)) = 0%nat) by (rewrite Hqq; apply it_queue).
  assert (Hgc1 : ∀ oe', globals_changed (y_cfg y) e oe' (y_gl y) g1) by (intros oe'; by eapply changed_quiet; [apply changed_refl|..]).
  destruct (Z.eqb_spec (en_send_pins e) 0) as [Hz|Hz].
  - intros [-> (gm & Hqm & -> & C1 & C2 & C3 & C4)].
    destruct (drop_sums k e g1) as (S1 & S2 & S3 & S4). destruct (drop_fields e g1) as (_ & _ & D3 & _).
    destruct (drop_fields e (y_gl y)) as (_ & _ & D3' & _).
    assert (Hgc : globals_changed (y_cfg y) e None (y_gl y) g').
    { apply (changed_quiet _ _ _ _ (CompletePut (Some c) false (drop_globals e g1))); [|done..].
      by apply changed_complete; [apply changed_drop; [apply Hgc1|lia]|..]. }
    assert (Hsh' : (DropLocked k sh2 g1).1 = set_index (delete k) (if in_arena e2 then pool_remove (en_key e2) sh2 else sh2)).
    { rewrite (DropLocked_idle k e2); [done|rewrite Hix; apply lookup_insert_eq|exact Hz|done]. }
    split; [|rewrite Hsh'; cbn; destruct Hm as [_ _ M3 _ _]; destruct (in_arena e2); cbn; congruence].
    apply (settle_drop y i sh sh2 g' mv k e e2) with (g1 := g1); try done.
    + by apply (flush_mover y id i k).
    + apply it_to; [|by eapply en_grows|].
      * rewrite Hsh'. destruct (it_place _ Hm) as [M1 M2]. destruct Hm as [_ _ _ _ Hps].
        assert (Hps' : pool_step k e None (sh_alloc sh) (sh_alloc (if in_arena e then pool_remove (en_key e) sh2 else sh2))).
        { eapply pool_step_trans; [exact Hps|]. apply (remove_step k e sh2); [apply Hps|done|].
          eapply pool_step_slot; [by apply (entry_slot_ok y i sh)|]. by rewrite <- Hz. }
        split; [|exact (ps_opt _ _ _ _ _ Hps')]. cbn. by destruct (in_arena e2).
      * intros j Hj. rewrite Hsh'. transitivity (delete k (sh_index sh2) !! j); [cbn; by destruct (in_arena e2)|].
        by rewrite Hix, lookup_delete_ne, lookup_insert_ne.
    + rewrite (qt_heap _ _ Hqm). cbn [gl_heap CompletePut set_compl]. by rewrite D3, D3', (qt_heap _ _ Hq1).
    + rewrite C1. cbn [gl_budget_used CompletePut set_compl]. lia.
    + rewrite C2. cbn [gl_large_used CompletePut set_compl]. lia.
    + rewrite C3. cbn [gl_dirty_bytes CompletePut set_compl]. lia.
    + rewrite C4. cbn [gl_dirty_objects CompletePut set_compl]. lia.
  - intros [Hsh' (gm & Hqm & -> & C1 & C2 & C3 & C4)]. set (e' := set_en_remove_pending (λ _, true) e2).
    assert (Hgc : globals_changed (y_cfg y) e (Some e') (y_gl y) g').
    { apply (changed_quiet _ _ _ _ (CompletePut (Some c) false g1)); [|done..]. by apply changed_complete; [apply Hgc1|..]. }
    assert (Hix' : sh_index sh' = <[k := e']> (sh_index sh) ∧ sh_flushq sh' = sh_flushq sh2 ∧ sh_alloc sh' = sh_alloc sh2 ∧ rest sh' = rest sh2).
    { destruct Hsh' as [-> |[-> Hrm]].
      - split_and!; try done. cbn. rewrite Hix. by rewrite alter_insert_eq.
      - split_and!; try done. rewrite Hix. unfold e'. by rewrite hidden_id. }
    destruct Hix' as (I1 & I2 & I3 & I4). pose proof I4 as I5. injection I5 as J1 J2 J3.
    split; [|destruct Hm as [_ _ M3 _ _]; congruence].
    apply (settle_hide y i sh sh2 g' mv k e e2 true) with (e' := e'); try done.
    + apply (flush_mover y id i k); try done. by intros e3 [= <-].
    + apply it_to; [|by eapply en_grows|].
      * destruct (it_place _ Hm) as [M1 M2]. split; congruence.
      * intros j Hj. by rewrite I1, lookup_insert_ne.
    + rewrite (qt_heap _ _ Hqm). apply Hq1.
    + rewrite (qt_nodes _ _ Hqm). apply Hq1.
    + intros c' Hc'. assert (c' = c) as -> by congruence. rewrite (qt_compl _ _ Hqm), it_complete, Hd; [done|apply Hq1].
    + rewrite C1. exact B1.
    + rewrite C2. exact B2.
    + rewrite C3. exact B3.
    + rewrite C4. exact B4.
Qed.

End item.

Lemma complete_item_inv y id i sh q batch it items ok sh' g' :
  Inv y → y_calls y !! id = Some (CFlush i (q :: batch) (it :: items) ok) → y_shards y !! i = Some sh → sh_mu sh = None →
  complete_item (y_cfg y) q (default false (head ok)) (sh, y_gl y) = (sh', g') →
  Inv (after y i sh' g' (<[id := CFlush i batch items (tail ok)]> (y_calls y)) (y_hits y)) ∧ sh_mu sh' = None.
Proof.
  intros Hinv Hcall Hi Hmu. destruct (batch_tail _ _ _ _ _ _ _ _ (ow_ok _ (iv_own _ Hinv) (OCall id) _ Hcall)) as (_ & _ & Hk & e & He & Hf & _ & Hev).
  set (k := q_key q) in *. assert (Hx : sh_index sh !! k = Some e) by (by rewrite <- (here_index y i sh)).
  destruct (eo_cmp _ _ _ (ow_ok _ (iv_own _ Hinv) (OEntry k) _ He)) as (c & _ & _ & Hc & _).
  assert (Hmu0 : ∀ sh0, sh_mu sh0 = None → sh_mu (drop_flush_pin k e sh0) = None).
  { intros sh0 H0'. unfold drop_flush_pin, unpin_entry. by destruct (en_flush_pin e), (in_arena e). }
  destruct (it_moved y i sh q e Hinv Hi Hk Hx) as (_ & Hix2 & _). fold k in Hix2.
  unfold complete_item. fold k. rewrite Hx, Hc. destruct (en_remove_pending e) eqn:Hrm.
  - intros E. apply (item_settle y id i sh q batch it items ok e c Hinv Hcall Hi Hmu Hk Hx Hf Hc Hev (y_gl y)); try done.
    destruct (Z.eqb_spec (en_send_pins e) 0) as [Hz|Hz].
    + fold k. rewrite (DropLocked_idle k (set_en_flush_pin (λ _, false) (set_en_flushing (λ _, false) e))) in E |- *;
        [|rewrite Hix2; apply lookup_insert_eq|exact Hz|done|rewrite Hix2; apply lookup_insert_eq|exact Hz|done].
      injection E as <- <-. split; [done|]. exists (CompletePut (Some c) false (drop_globals e (y_gl y))).
      unfold drop_globals, release, in_arena. cbn. destruct (en_large e), (en_durable e); (split_and!; [by split|done..]).
    + injection E as <- <-. split; [by right|]. exists (CompletePut (Some c) false (y_gl y)). by split_and!.
  - destruct (default false (head ok)) eqn:Eok.
    + intros [= <- <-]. assert (head ok = Some true) by (destruct (head ok) as [[]|]; done). split; [by apply (item_done y id i sh q batch it items ok e c)|]. by apply Hmu0.
    + destruct (q_tries q + 1 <? op_flush_retries (cf_opt (y_cfg y))).
      { intros [= <- <-]. split; [|done]. by apply (item_retry y id i sh q batch it items ok e c). }
      set (g1 := if en_client_acked e then bump MPostAckFlushFailures 1 (y_gl y) else y_gl y). intros E.
      assert (Hg1 : quiet (y_gl y) g1 ∧ gl_budget_used g1 = gl_budget_used (y_gl y) ∧ gl_large_used g1 = gl_large_used (y_gl y) ∧
        gl_dirty_bytes g1 = gl_dirty_bytes (y_gl y) ∧ gl_dirty_objects g1 = gl_dirty_objects (y_gl y))
        by (subst g1; by destruct (en_client_acked e)). destruct Hg1 as (Q & B1 & B2 & B3 & B4).
      apply (item_settle y id i sh q batch it items ok e c Hinv Hcall Hi Hmu Hk Hx Hf Hc Hev g1); try done. fold k.
      destruct (Z.eqb_spec (en_send_pins e) 0) as [Hz|Hz].
      * rewrite (DropLocked_idle k (set_en_flush_pin (λ _, false) (set_en_flushing (λ _, false) e))) in E |- *;
          [|rewrite Hix2; apply lookup_insert_eq|exact Hz|done|rewrite Hix2; apply lookup_insert_eq|exact Hz|done].
        injection E as <- <-. split; [done|]. exists (CompletePut (Some c) false (drop_globals e g1)).
        clearbody g1. split_and!; [by split|done..].
      * rewrite (DropLocked_busy k (set_en_flush_pin (λ _, false) (set_en_flushing (λ _, false) e))) in E;
          [|rewrite Hix2; apply lookup_insert_eq|exact Hz].
        injection E as <- <-. split; [by left|]. exists (CompletePut (Some c) false g1). clearbody g1. split_and!; [by split|done..].
Qed.

Lemma after_after y i sh1 g1 id call1 sh2 g2 call2 hits :
  after (after y i sh1 g1 (<[id := call1]> (y_calls y)) hits) i sh2 g2
    (<[id := call2]> (<[id := call1]> (y_calls y))) hits
  = after y i sh2 g2 (<[id := call2]> (y_calls y)) hits.
Proof. unfold after. cbn. by rewrite list_insert_insert_eq, insert_insert_eq. Qed.

Lemma complete_items_inv batch : ∀ y id i sh items ok sh' g',
  Inv y → y_calls y !! id = Some (CFlush i batch items ok) → y_shards y !! i = Some sh → sh_mu sh = None →
  complete_items (y_cfg y) batch ok (sh, y_gl y) = (sh', g') →
  ∃ ok', Inv (after y i sh' g' (<[id := CFlush i [] [] ok']> (y_calls y)) (y_hits y)) ∧ sh_mu sh' = None.
Proof.
  induction batch as [|q batch IH]; intros y id i sh items ok sh' g' Hinv Hcall Hi Hmu; cbn [complete_items].
  - intros [= <- <-]. destruct (ow_ok _ (iv_own _ Hinv) (OCall id) _ Hcall) as (_ & Hl & _). destruct items; [|done].
    exists ok. split; [|done]. rewrite after_same by done. replace (with_call _ _ _) with y; [done|].
    unfold with_call, with_gl. cbn. rewrite insert_id by done. by destruct y.
  - destruct (ow_ok _ (iv_own _ Hinv) (OCall id) _ Hcall) as (_ & Hl & _). destruct items as [|it items]; [done|].
    destruct (complete_item _ _ _ _) as [sh1 g1] eqn:E1. apply (complete_item_inv y id i sh q batch it items ok) in E1 as [Hinv1 Hmu1]; try done.
    set (y1 := after y i sh1 g1 _ _) in Hinv1. intros E.
    destruct (IH y1 id i sh1 items (tail ok) sh' g' Hinv1) as (ok' & Hinv2 & Hmu2); [apply lookup_insert_eq| |done|exact E|].
    { apply list_lookup_insert_eq. by eapply lookup_lt_Some. }
    exists ok'. split; [|done]. unfold y1 in Hinv2. by rewrite after_after in Hinv2.
Qed.

Lemma inflight_inv y i sh f :
  Inv y → y_shards y !! i = Some sh → Inv (after y i (set_flush_inflight f sh) (y_gl y) (y_calls y) (y_hits y)).
Proof. intros Hinv Hi. by apply (inv_idle y i sh). Qed.

(** Between batches. *)
Lemma flush_idle y id i call call' :
  Inv y → y_calls y !! id = Some call → (i < length (y_shards y))%nat →
  call_res y call = [] → (call' = CIdle i ∨ call' = CFlush i [] [] [] ∨ call' = CStopped i) →
  (∀ k, kept_w k id call = 0) → budget_w id call = 0 → reserve_w id call = 0 →
  Inv (with_call id call' (with_gl (λ _, y_gl y) y)).
Proof.
  intros Hinv Hcall Hi Hr Hc' Hk Hb Hw. apply (inv_local y id call); try done; rewrite ?Hr, ?Hb, ?Hw.
  - destruct Hc' as [-> |[-> | ->]]; [done| |done]. split_and!; first [done|by apply NoDup_nil|by intros j].
  - by destruct Hc' as [-> |[-> | ->]]; intros r ?%elem_of_nil.
  - by intros r _ ?%elem_of_nil.
  - intros k. rewrite Hk. by destruct Hc' as [-> |[-> | ->]].
  - destruct Hc' as [-> |[-> | ->]]; cbn; lia.
  - destruct Hc' as [-> |[-> | ->]]; cbn; lia.
  - by left.
  - by left.
Qed.

Lemma step_flush y id inp i batch items ok y' :
  Inv y → y_calls y !! id = Some (CFlush i batch items ok) →
  call_step id inp y (CFlush i batch items ok) = Some y' → Inv y'.
Proof.
  intros Hinv Hcall. cbn [call_step]. destruct (Nat.eqb_spec (length ok) (length batch)) as [Hl|Hl].
  - intros (sh & call' & sh' & g' & Hi & Hmu & E & ->)%section_Some. unfold complete_section in E.
    destruct (complete_items _ _ _ _) as [sh1 g1] eqn:E1. injection E as <- <- <-.
    apply (complete_items_inv batch y id i sh items) in E1 as (ok' & Hinv1 & Hmu1); try done.
    set (y1 := after y i sh1 g1 (<[id := CFlush i [] [] ok']> (y_calls y)) (y_hits y)) in *.
    set (f := λ n : Z, n - Z.of_nat (length batch)).
    assert (Hi1 : y_shards y1 !! i = Some sh1) by (apply list_lookup_insert_eq; by eapply lookup_lt_Some).
    pose proof (inflight_inv y1 i sh1 f Hinv1 Hi1) as Hinv2.
    assert (Hlt : (i < length (y_shards (after y1 i (set_flush_inflight f sh1) (y_gl y1) (y_calls y1) (y_hits y1))))%nat).
    { cbn. rewrite !length_insert. by eapply lookup_lt_Some. }
    pose proof (flush_idle _ id i (CFlush i [] [] ok') (CIdle i) Hinv2 ltac:(apply lookup_insert_eq) Hlt eq_refl ltac:(by left)
      ltac:(done) eq_refl eq_refl) as Hinv3.
    unfold with_call, with_gl, after, y1 in Hinv3. cbn in Hinv3. rewrite list_insert_insert_eq, insert_insert_eq in Hinv3. exact Hinv3.
  - intros ([call' g'] & E & [= <-])%bind_Some. by eapply flush_items_inv.
Qed.

(** ** Taking items off the queue *)

(** The head of the queue is an entry that waits for its flush. *)
Lemma queue_head y i sh q rest :
  Inv y → y_shards y !! i = Some sh → sh_flushq sh = q :: rest →
  ∃ e, sh_index sh !! q_key q = Some e ∧ shard_of (q_key q) y = i ∧ en_flush_pin e = true ∧ en_flushing e = false ∧
    en_durable e = false ∧ en_remove_pending e = false ∧ length (filter (λ x, q_key x = q_key q) rest) = 0%nat.
Proof.
  intros Hinv Hi Hq. destruct (mp_queue _ (iv_maps _ Hinv) _ _ q Hi) as [e Hx]; [rewrite Hq; by left|].
  assert (Hk : shard_of (q_key q) y = i) by (apply (mp_home _ (iv_maps _ Hinv) _ _ _ Hi); left; by rewrite Hx).
  assert (He : index_at y (q_key q) = Some e) by (by rewrite (here_index y i sh)).
  destruct (ow_ok _ (iv_own _ Hinv) (OEntry (q_key q)) _ He) as [_ _ [F1 F2 F3 F4 F5] _ _ _ _ Hl].
  rewrite (here_queue y i sh), Hq, filter_cons, decide_True in Hl by done. cbn in Hl.
  unfold queued in Hl. destruct (en_flush_pin e) eqn:Hfp, (en_flushing e) eqn:Hfl; cbn in Hl; try lia.
  exists e. split_and!; try done; [|by apply F5|lia]. destruct (en_durable e); [|done]. by specialize (F1 eq_refl).
Qed.

Lemma dequeue_one y id i sh q rest b its e :
  Inv y → y_calls y !! id = Some (CFlush i b its []) → y_shards y !! i = Some sh → sh_mu sh = None →
  sh_flushq sh = q :: rest → sh_index sh !! q_key q = Some e →
  Inv (after y i (set_index (<[q_key q := set_en_flushing (λ _, true) e]>) (set_flushq (λ _, rest) sh)) (y_gl y)
         (<[id := CFlush i (b ++ [q]) (its ++ [mkFlushItem (q_key q) (entry_data e) (en_len e) (en_cap e)]) []]> (y_calls y))
         (y_hits y)).
Proof.
  intros Hinv Hcall Hi Hmu Hq Hx. destruct (queue_head y i sh q rest Hinv Hi Hq) as (e0 & Hx0 & Hk & Hfp & Hfl & Hd & Hrm & Hl).
  assert (e0 = e) as -> by congruence. set (k := q_key q) in *.
  assert (He : index_at y k = Some e) by (by rewrite (here_index y i sh)).
  destruct (ow_ok _ (iv_own _ Hinv) (OEntry k) _ He) as [Hke Hp0 _ _ (c & ? & ? & Hc & _ & Hcv & _) _ _ _].
  pose proof (ow_ok _ (iv_own _ Hinv) (OCall id) _ Hcall) as Hok0. pose proof Hok0 as (Hlt & Hll & _ & Hnd & Hb).
  assert (Hkb : k ∉ q_key <$> b).
  { intros (q' & Hq' & Hin)%list_elem_of_fmap. apply list_elem_of_lookup_1 in Hin as [j Hj].
    destruct (lookup_lt_is_Some_2 its j) as [it Hit]; [rewrite Hll; by eapply lookup_lt_Some|].
    destruct (Hb j q' it Hj Hit) as (_ & e' & He' & Hf' & _). rewrite <- Hq' in He'. congruence. }
  set (e' := set_en_flushing (λ _, true) e). set (sh' := set_index _ _). set (it := mkFlushItem _ _ _ _).
  set (call := CFlush i b its []). set (call' := CFlush i (b ++ [q]) (its ++ [it]) []).
  assert (Hix : sh_index sh' = <[k := e']> (sh_index sh)) by done.
  assert (Hfree : free_res y (ResFlush k)) by (eapply unflushed_free; [apply Hinv|done|done]).
  assert (Hres : call_res y call' = call_res y call ++ [ResFlush k]) by (cbn; by rewrite fmap_app).
  apply (inv_update y i sh sh' (y_gl y) (y_hits y) (Some (id, call, call')) k e true) with (e' := e'); try done.
  - set (y' := after _ _ _ _ _ _). assert (Hold : call_ok y' id call).
    { apply (batch_frame y i sh sh' (y_gl y) _ _ id k); try done. intros j Hj. by rewrite Hix, lookup_insert_ne. }
    destruct Hold as (Hlt' & _ & _ & _ & Hb'). split_and!; [done|rewrite !length_app; cbn; lia|cbn; lia| |].
    + rewrite fmap_app. apply NoDup_app. split_and!; [done| |apply NoDup_singleton].
      intros j Hin ->%list_elem_of_singleton. done.
    + intros j q' it' Hq' Hit'. apply lookup_app_Some in Hq' as [Hq'|[Hj Hq']].
      * rewrite lookup_app_l in Hit' by (rewrite Hll; by eapply lookup_lt_Some). by apply (Hb' j).
      * apply list_lookup_singleton_Some in Hq' as [Hj0 <-]. rewrite lookup_app_r in Hit' by lia.
        rewrite Hll in Hit'. apply list_lookup_singleton_Some in Hit' as [_ <-].
        split; [unfold y'; by rewrite (after_shard_of y i sh')|]. exists e'. split_and!; try done.
        unfold y'. rewrite (there_index _ _ sh), Hix by done. apply lookup_insert_eq.
  - split; try done; cbn [held_new held_old]; rewrite ?Hres.
    + intros r [?| ->%list_elem_of_singleton]%elem_of_app; auto.
    + intros r _ Hr. right. apply elem_of_app. by left.
    + intros c' [?|?%list_elem_of_singleton]%elem_of_app; done.
    + intros _. split; [by right|]. intros _ _ _. apply elem_of_app. right. list_in.
  - split; try done.
    + intros j Hj. cbn. rewrite Hq, filter_cons. by rewrite decide_False by (intros <-; by apply Hj).
    + apply pool_same; [apply (mp_pool _ (iv_maps _ Hinv) _ _ Hi)|]. exact (entry_slot_ok y i sh k e Hinv Hi Hk Hx).
  - apply changed_refl.
  - split; cbn; rewrite ?Hd, ?Hrm, ?Hfp; done.
  - intros c' Hc'. cbn. congruence.
  - cbn. rewrite Hl. unfold queued. cbn. by rewrite andb_false_r.
  - cbn. lia.
  - auto.
  - unfold dirty_w. cbn. lia.
  - unfold object_w. cbn. lia.
Qed.

Lemma dequeue_inv q : ∀ n y id i sh b its rest index batch items,
  Inv y → y_calls y !! id = Some (CFlush i b its []) → y_shards y !! i = Some sh → sh_mu sh = None → sh_flushq sh = q →
  dequeue n q (sh_index sh) = (rest, index, batch, items) →
  Inv (after y i (set_index (λ _, index) (set_flushq (λ _, rest) sh)) (y_gl y)
         (<[id := CFlush i (b ++ batch) (its ++ items) []]> (y_calls y)) (y_hits y)).
Proof.
  assert (Hsame : ∀ y id i sh b its, Inv y → y_calls y !! id = Some (CFlush i b its []) → y_shards y !! i = Some sh →
    Inv (after y i (set_index (λ _, sh_index sh) (set_flushq (λ _, sh_flushq sh) sh)) (y_gl y)
         (<[id := CFlush i (b ++ []) (its ++ []) []]> (y_calls y)) (y_hits y))).
  { intros y id i sh b its Hinv Hcall Hi. rewrite !app_nil_r, insert_id by done.
    replace (set_index _ _) with sh by (by destruct sh). unfold after. rewrite list_insert_id by done. by destruct y. }
  induction q as [|q0 q IH]; intros n y id i sh b its rest index batch items Hinv Hcall Hi Hmu Hq; cbn [dequeue].
  { intros [= <- <- <- <-]. pose proof (Hsame y id i sh b its Hinv Hcall Hi) as Hs. by rewrite Hq in Hs. }
  destruct n as [|n].
  { intros [= <- <- <- <-]. pose proof (Hsame y id i sh b its Hinv Hcall Hi) as Hs. by rewrite Hq in Hs. }
  destruct (queue_head y i sh q0 q Hinv Hi Hq) as (e & Hx & Hk & Hfp & Hfl & Hd & Hrm & Hl).
  rewrite Hx, Hd, Hrm. cbn [orb].
  pose proof (dequeue_one y id i sh q0 q b its e Hinv Hcall Hi Hmu Hq Hx) as Hinv1.
  set (it := mkFlushItem _ _ _ _) in *. set (sh1 := set_index (<[q_key q0 := _]>) _) in Hinv1.
  set (y1 := after _ _ _ _ _ _) in Hinv1.
  destruct (dequeue n q _) as [[[rest1 index1] batch1] items1] eqn:E1. intros [= <- <- <- <-].
  pose proof (IH n y1 id i sh1 (b ++ [q0]) (its ++ [it]) rest1 index1 batch1 items1 Hinv1) as Hinv2.
  rewrite <- !app_assoc in Hinv2. unfold y1 in Hinv2. rewrite after_after in Hinv2. apply Hinv2.
  - apply lookup_insert_eq.
  - apply list_lookup_insert_eq. by eapply lookup_lt_Some.
  - done.
  - done.
  - exact E1.
Qed.

Lemma step_idle y id inp i y' :
  Inv y → y_calls y !! id = Some (CIdle i) → call_step id inp y (CIdle i) = Some y' → Inv y'.
Proof.
  intros Hinv Hcall. cbn [call_step]. intros (sh & call' & sh' & g' & Hi & Hmu & E & ->)%section_Some.
  pose proof (lookup_lt_Some _ _ _ Hi) as Hlt. unfold dequeue_section in E. destruct (sh_flushq sh) as [|q0 q] eqn:Hq.
  { destruct (sh_stop sh); [|done]. injection E as <- <- <-. rewrite after_same by done. by eapply flush_idle; eauto. }
  rewrite <- Hq in E. destruct (dequeue kFlushBatchMax (sh_flushq sh) (sh_index sh)) as [[[rest index] batch] items] eqn:Ed.
  injection E as <- <- <-. set (f := λ n : Z, n + Z.of_nat (length batch)).
  pose proof (flush_idle y id i (CIdle i) (CFlush i [] [] []) Hinv Hcall Hlt eq_refl ltac:(auto) ltac:(done) eq_refl eq_refl) as Hinv1.
  set (y1 := with_call id (CFlush i [] [] []) (with_gl (λ _, y_gl y) y)) in Hinv1.
  pose proof (dequeue_inv (sh_flushq sh) kFlushBatchMax y1 id i sh [] [] rest index batch items Hinv1 ltac:(apply lookup_insert_eq) Hi Hmu eq_refl Ed) as Hinv2.
  set (sh2 := set_index (λ _, index) (set_flushq (λ _, rest) sh)) in *.
  set (y2 := after y1 i sh2 _ _ _) in Hinv2.
  assert (Hi2 : y_shards y2 !! i = Some sh2) by (by apply list_lookup_insert_eq).
  pose proof (inflight_inv y2 i sh2 f Hinv2 Hi2) as Hinv3.
  unfold y2, y1, after, with_call, with_gl in Hinv3. cbn in Hinv3. rewrite list_insert_insert_eq, insert_insert_eq in Hinv3. exact Hinv3.
Qed.

End flush.
