(* ===== verification/RamStep.v ===== *)
(** * RAM tier: every step keeps the invariant *)

From S2P Require Import Prelude KvTypes SlabTypes SlabOps SlotPool RamTypes RamOps RamInv RamFrame RamShard.
From S2P Require Import RamCall RamLocal RamAdmit RamRead RamRemove RamReclaim RamTick.
From S2P Require Import RamGive RamStart RamCopy RamPublish RamFlush.

Section step.
Context {A : Type} `{SlotPoolLaws A}.
Notation Sys := (Sys A).
Implicit Types (y : Sys) (k : BlockKey).

Lemma call_step_inv y id inp call y' :
  Inv y → y_calls y !! id = Some call → call_step id inp y call = Some y' → Inv y'.
Proof.
  intros Hinv Hcall E. destruct call.
  - eapply step_start; eassumption.
  - eapply step_large; eassumption.
  - eapply step_large_budget; eassumption.
  - eapply step_large_undo; eassumption.
  - destruct pc; [eapply step_reclaim_check|eapply step_reclaim_iter]; eassumption.
  - eapply step_malloc; eassumption.
  - eapply step_arena; eassumption.
  - eapply step_reserve; eassumption.
  - eapply step_fail; eassumption.
  - eapply step_failed; eassumption.
  - eapply step_copy; eassumption.
  - eapply step_install; eassumption.
  - eapply step_canceled; eassumption.
  - eapply step_wait; eassumption.
  - done.
  - done.
  - done.
  - eapply step_abort; eassumption.
  - eapply step_remove; eassumption.
  - eapply step_remove_wait; eassumption.
  - eapply step_remove_end; eassumption.
  - done.
  - eapply step_idle; eassumption.
  - eapply step_flush; eassumption.
  - done.
  - eapply step_tick_start; eassumption.
  - eapply step_tick_grow; eassumption.
  - eapply step_tick_gate; eassumption.
  - eapply step_tick_reclaim; eassumption.
  - done.
Qed.

Lemma step_reset y id y' : Inv y → step (AReset id) y = Some y' → Inv y'.
Proof.
  intros Hinv. cbn [step]. destruct (y_calls y !! id) as [call|] eqn:Hcall; [|done]. destruct call; try done.
  - intros (sh & call' & sh' & g' & Hi & Hmu & E & ->)%section_Some. injection E as <- <- <-. by apply reset_open.
  - intros (sh & call' & sh' & g' & Hi & Hmu & E & ->)%section_Some. destruct installed; [by eapply reset_installed|].
    injection E as <- <- <-. by apply reset_canceled.
Qed.

Lemma step_inv y a y' : Inv y → hit_room a y = true → step a y = Some y' → Inv y'.
Proof.
  intros Hinv Hroom E. destruct a.
  - cbn [step] in E. destruct (req_ok r) eqn:Hr; [|done]. by eapply inv_new_call.
  - by eapply inv_new_call.
  - cbn [step] in E. destruct (Nat.ltb_spec i (length (y_shards y))); [|done]. by eapply inv_new_call.
  - cbn [step] in E. destruct (Nat.ltb_spec i (length (y_shards y))); [|done]. by eapply inv_new_call.
  - cbn [step] in E. apply bind_Some in E as (call & Hcall & E). by eapply call_step_inv.
  - by eapply step_fill.
  - by eapply step_commit.
  - by eapply step_reset.
  - by eapply step_get.
  - by eapply step_probe.
  - by eapply step_release.
  - by eapply step_stop.
  - by eapply step_set_mr.
  - by eapply step_drain.
Qed.

(** A step of the tier while no value has [2 ^ 32 - 2] hits outstanding. *)
Definition tier_step (a : Action) y : option Sys := if hit_room a y then step a y else None.

Lemma tier_step_Some a y y' : tier_step a y = Some y' → hit_room a y = true ∧ step a y = Some y'.
Proof. unfold tier_step. by destruct (hit_room a y). Qed.

Lemma run_inv acts : ∀ y y', Inv y → run_actions tier_step acts y = Some y' → Inv y'.
Proof.
  intros y y' Hinv. apply run_actions_inv; [|done]. intros a s s' Hs [Hroom E]%tier_step_Some. by eapply step_inv.
Qed.

End step.
