(* ===== verification/RamInit.v ===== *)
(** * RAM tier: the state after construction

    The arena and the reserve for dedicated values share out the byte budget, the
    extents lie in the arena, the shards own disjoint runs of them; the tier
    starts in a state that satisfies the invariant. *)

From S2P Require Import Prelude KvTypes SlabTypes SlabLattice SlabFrame SlabOps SlotPool.
From S2P Require Import RamTypes RamOps RamGeom RamInv.

(** What the options and the environment hold: unsigned numbers, a granularity of
    32 bits, a budget below the 16 TiB at which an extent of the smallest slots
    has more of them than 32 bits count. *)
Record ram_sane (opt : RamOptions) (env : RamEnv) : Prop := {
  rs_bytes : 0 <= op_bytes opt < 2 ^ 44;
  rs_gran : 0 <= op_slot_granularity opt <= UINT32_MAX;
  rs_reserve : 0 <= op_large_reserve_bytes opt;
  rs_env n : env_large_reserve env = Some n → 0 <= n;
}.

Record ram_normal (opt : RamOptions) (env : RamEnv) : Prop := {
  rn_sane : ram_sane opt env;
  rn_gran : 4096 <= op_slot_granularity opt <= op_bytes opt;
}.

Lemma normalize_normal opt env : ram_sane opt env → ram_normal (normalize_ram opt) env.
Proof.
  intros [Hb Hg Hr He]. unfold UINT32_MAX in *. split; [split|]; cbn; try done; unfold UINT32_MAX; lia.
Qed.

(** ** The budget and the extents *)

Section geometry.
Context (opt : RamOptions) (env : RamEnv) (Hn : ram_normal opt env).
Notation gran := (op_slot_granularity opt).
Notation arena := (arena_bytes opt env).
Notation ext := (extent_bytes opt env).
Notation total := (total_extents opt env).

Lemma gran_pos : 0 < gran.
Proof. pose proof (rn_gran _ _ Hn). lia. Qed.

Lemma wanted_extent_bounds : 4096 <= wanted_extent opt env <= op_bytes opt.
Proof.
  pose proof (rn_gran _ _ Hn). unfold wanted_extent.
  destruct (env_extent_bytes env) as [v|]; [destruct (Z.leb_spec (2 ^ 20) v)|]; lia.
Qed.

Lemma large_reserve_bounds : 0 <= large_reserve opt env <= op_bytes opt - gran.
Proof.
  pose proof (rn_gran _ _ Hn). destruct (rn_sane _ _ Hn) as [Hb Hg Hr He].
  pose proof wanted_extent_bounds. unfold large_reserve.
  assert (0 <= match env_large_reserve env with Some v => v | None => op_large_reserve_bytes opt end).
  { destruct (env_large_reserve env) as [v|] eqn:E; auto. }
  unfold UINT64_MAX. repeat case_match; lia.
Qed.

(** Rounding down to the granularity, but not below it. *)
Lemma fitted n : gran <= n → gran <= n / gran * gran <= n ∧ (gran | n / gran * gran).
Proof.
  pose proof gran_pos. intros Hle. split; [|by exists (n / gran)].
  pose proof (Z.div_le_mono gran n gran ltac:(lia) Hle). rewrite Z_div_same in *; [|lia].
  pose proof (Z.mul_div_le n gran ltac:(lia)). nia.
Qed.

Lemma arena_bytes_bounds : gran <= arena <= op_bytes opt ∧ (gran | arena).
Proof.
  pose proof large_reserve_bounds. pose proof (fitted (op_bytes opt - large_reserve opt env) ltac:(lia)) as [H1 H2].
  unfold arena_bytes. rewrite Z.max_l by lia. split; [lia|done].
Qed.

Lemma extent_bytes_bounds : gran <= ext <= arena ∧ (gran | ext).
Proof.
  pose proof arena_bytes_bounds as [Ha _]. pose proof gran_pos. unfold extent_bytes.
  destruct (decide (gran <= Z.min (wanted_extent opt env) arena)) as [Hle|Hgt].
  - pose proof (fitted _ Hle) as [H1 H2]. rewrite Z.max_l by lia. split; [lia|done].
  - pose proof wanted_extent_bounds. rewrite Z.div_small by lia. rewrite Z.mul_0_l, Z.max_r by lia.
    split; [lia|done].
Qed.

Lemma total_extents_fit : 1 <= total ∧ total * ext <= arena < (total + 1) * ext.
Proof.
  pose proof arena_bytes_bounds as [Ha _]. pose proof extent_bytes_bounds as [He _]. pose proof gran_pos.
  assert (1 <= arena / ext) by (apply Z.div_le_lower_bound; lia).
  unfold total_extents. rewrite Z.max_r by lia.
  pose proof (Z.mul_div_le arena ext ltac:(lia)).
  pose proof (Z.mul_succ_div_gt arena ext ltac:(lia)). lia.
Qed.

Lemma pool_options_ok fl fb n :
  0 < n → opts_ok (normalize_options (pool_options (ram_config opt env fl fb) n)).
Proof.
  intros Hpos. pose proof arena_bytes_bounds as [Ha _]. pose proof extent_bytes_bounds as [He _].
  pose proof (rn_gran _ _ Hn). destruct (rn_sane _ _ Hn) as [Hb Hg _ _]. unfold UINT32_MAX in Hg.
  assert (Hz : (gran =? 0) = false) by (apply Z.eqb_neq; lia).
  assert (Hm : (Z.to_nat n =? 0)%nat = false) by (apply Nat.eqb_neq; lia).
  split; cbn; rewrite ?Hz, ?Hm; unfold UINT32_MAX; try lia. apply Z.div_lt_upper_bound; nia.
Qed.

End geometry.

(** ** The shards *)

Lemma halve_shards_spec fuel : ∀ total n, 1 <= n < 2 ^ (Z.of_nat fuel + 1) →
  let m := halve_shards fuel total n in
  1 <= m <= n ∧ (m = 1 ∨ 32 <= total / m).
Proof.
  induction fuel as [|fuel IH]; intros total n Hn; cbn [halve_shards]; [lia|].
  destruct (Z.ltb_spec 1 n); cbn [andb]; [|lia]. destruct (Z.ltb_spec (total / n) 32); [|lia].
  rewrite Nat2Z.inj_succ, <- Z.add_1_r in Hn. rewrite Z.pow_add_r in Hn by lia.
  pose proof (Z.div_le_lower_bound n 2 1 ltac:(lia) ltac:(lia)).
  pose proof (Z.div_lt_upper_bound n 2 (2 ^ (Z.of_nat fuel + 1)) ltac:(lia) ltac:(lia)).
  pose proof (Z.div_le_upper_bound n 2 n ltac:(lia) ltac:(lia)).
  destruct (IH total (n / 2) ltac:(lia)). cbv zeta in *. lia.
Qed.

(** At least one shard, at most 64, and one alone unless each has 32 extents. *)
Lemma ram_shard_count_spec total env :
  1 <= shard_count total env <= kMaxShards ∧
  (shard_count total env = 1 ∨ 32 <= total / shard_count total env).
Proof.
  unfold shard_count, kMaxShards.
  assert (Hn : 1 <= Z.min (match env_shards env with
    | Some v => if (1 <=? v) && (v <=? 64) then v else 8 | None => 8 end) 64 < 2 ^ (Z.of_nat 6 + 1)).
  { destruct (env_shards env) as [v|]; [|lia].
    destruct (Z.leb_spec 1 v), (Z.leb_spec v 64); cbn [andb]; lia. }
  pose proof (halve_shards_spec 6 total _ Hn) as [H1 H2]. cbv zeta in *. rewrite Z.max_l by lia. lia.
Qed.

(** The running sum of the first [j] shards' extents. *)
Definition extents_before (extents : list Z) (j : nat) : Z := sumZ (λ n, n) (take j extents).

Lemma shard_extents_pos total n m :
  1 <= n → n <= total → m ∈ shard_extents total n → 1 <= m.
Proof.
  intros Hn Ht (i & -> & _)%list_elem_of_fmap.
  pose proof (Z.div_le_lower_bound total n 1 ltac:(lia) ltac:(lia)). case_match; lia.
Qed.

Lemma sum_remainder (q r : Z) k : 0 <= r →
  sumZ (λ n, n) ((λ i, q + if Z.of_nat i <? r then 1 else 0) <$> seq 0 k) =
  Z.of_nat k * q + Z.min (Z.of_nat k) r.
Proof.
  intros Hr. induction k as [|k IH]; [cbn; lia|].
  rewrite seq_S, fmap_app, sumZ_app, IH. cbn. destruct (Z.ltb_spec (Z.of_nat k) r); lia.
Qed.

Lemma shard_extents_sum total n : 1 <= n → 0 <= total → sumZ (λ n, n) (shard_extents total n) = total.
Proof.
  intros Hn Ht. unfold shard_extents. pose proof (Z.mod_pos_bound total n ltac:(lia)).
  rewrite sum_remainder by lia. rewrite Z2Nat.id by lia. pose proof (Z.div_mod total n). lia.
Qed.

Lemma extents_before_S extents j n :
  extents !! j = Some n → extents_before extents (S j) = extents_before extents j + n.
Proof. intros Hj. unfold extents_before. rewrite (take_S_r _ _ _ Hj), sumZ_app. cbn. lia. Qed.

Lemma extents_before_mono extents i j :
  (∀ m, m ∈ extents → 0 <= m) → (i <= j)%nat → extents_before extents i <= extents_before extents j.
Proof.
  intros Hpos Hij. unfold extents_before.
  rewrite <- (take_drop i (take j extents)), take_take, Nat.min_l, sumZ_app by lia.
  assert (0 <= sumZ (λ n, n) (drop i (take j extents))); [|lia].
  apply sumZ_nonneg. intros m Hm. apply Hpos, (subseteq_take j), (subseteq_drop i), Hm.
Qed.

Lemma extents_before_all extents j : extents_before extents (length extents + j) = sumZ (λ n, n) extents.
Proof. unfold extents_before. by rewrite take_ge by lia. Qed.

(** ** The tier *)

Section tier.
Context {A : Type} `{SlotPoolLaws A}.
Notation Sys := (Sys A).

Lemma new_shards_lookup cfg env extents : ∀ base j (sh : Shard A),
  new_shards cfg env base extents !! j = Some sh →
  ∃ n, extents !! j = Some n ∧ sh = new_shard cfg env (base + extents_before extents j) n.
Proof.
  induction extents as [|n extents IH]; intros base j sh; [done|].
  destruct j as [|j]; cbn [new_shards lookup list_lookup].
  - intros [= <-]. exists n. split; [done|]. unfold extents_before. cbn. by rewrite Z.add_0_r.
  - intros (m & Hm & ->)%IH. exists m. split; [done|]. unfold extents_before. cbn. by rewrite Z.add_assoc.
Qed.

Context (opt : RamOptions) (env : RamEnv) (fl fb : bool) (Hn : ram_normal opt env).
Notation cfg := (ram_config opt env fl fb).
Notation total := (total_extents opt env).
Notation extents := (shard_extents total (shard_count total env)).

Lemma extents_ok : extents ≠ [] ∧ sumZ (λ n, n) extents = total ∧ ∀ m, m ∈ extents → 1 <= m.
Proof.
  destruct (total_extents_fit _ _ Hn) as [Ht _]. destruct (ram_shard_count_spec total env) as [[Hc _] Hd].
  assert (shard_count total env <= total).
  { destruct Hd as [->|Hd]; [lia|]. pose proof (Z.mul_div_le total (shard_count total env)). nia. }
  split; [|split; [apply shard_extents_sum; lia|intros m; apply shard_extents_pos; lia]].
  unfold shard_extents. destruct (Z.to_nat (shard_count total env)) eqn:E; [lia|done].
Qed.

(** A shard of the new tier: its part of the arena and its pool. *)
Lemma new_shard_at j (sh : Shard A) :
  new_shards cfg env 0 extents !! j = Some sh →
  ∃ n, 1 <= n ∧ extents !! j = Some n ∧ sh = new_shard cfg env (extents_before extents j) n ∧
    span (sp_opt (sh_alloc sh)) = n * extent_bytes opt env ∧
    o_extent_bytes (sp_opt (sh_alloc sh)) = extent_bytes opt env.
Proof.
  intros (n & Hj & ->)%new_shards_lookup. rewrite Z.add_0_l. exists n.
  destruct extents_ok as (_ & _ & Hpos). pose proof (Hpos n (list_elem_of_lookup_2 _ _ _ Hj)).
  do 3 (split; [done|]). cbn [new_shard sh_alloc]. rewrite sp_new_opt.
  split; [|done]. unfold span. cbn. destruct (Nat.eqb_spec (Z.to_nat n) 0); lia.
Qed.

Definition fresh : Sys := mkSys cfg (new_shards cfg env 0 extents) zero_globals ∅ ∅.

Lemma fresh_geo : geo_ok (geo fresh).
Proof.
  destruct extents_ok as (Hne & Hsum & Hpos). destruct (total_extents_fit _ _ Hn) as [Ht Hfit].
  destruct (extent_bytes_bounds _ _ Hn) as [He _]. destruct (arena_bytes_bounds _ _ Hn) as [Ha _].
  pose proof (rn_gran _ _ Hn) as Hg. pose proof (rs_bytes _ _ (rn_sane _ _ Hn)) as Hb.
  assert (Hnn : ∀ m, m ∈ extents → 0 <= m) by (intros m Hm; specialize (Hpos m Hm); lia).
  assert (Hat : ∀ i b o, (geo fresh).2 !! i = Some (b, o) → ∃ n, 1 <= n ∧ extents !! i = Some n ∧
      b = extents_before extents i * extent_bytes opt env ∧ span o = n * extent_bytes opt env ∧
      o_extent_bytes o = extent_bytes opt env).
  { intros i b o. cbn [geo fresh y_shards snd]. rewrite list_lookup_fmap. intros (sh & Hi & [= -> ->])%fmap_Some.
    apply new_shard_at in Hi as (n & ? & ? & -> & ? & ?). eauto 10. }
  split; cbn [geo fresh fst snd y_cfg cf_large_budget_bytes cf_arena_bytes cf_extent_bytes cf_opt ram_config];
    try lia.
  - change (y_shards fresh) with (new_shards (A := A) cfg env 0 extents). revert Hne. by destruct extents.
  - intros i b o (n & ? & ? & ? & ? & ->)%Hat. split; [done|lia].
  - intros i b o (n & ? & Hi & -> & -> & ?)%Hat.
    pose proof (extents_before_S _ _ _ Hi). pose proof (extents_before_mono extents 0 i Hnn ltac:(lia)).
    pose proof (lookup_lt_Some _ _ _ Hi).
    pose proof (extents_before_mono extents (S i) (length extents + 0) Hnn ltac:(lia)) as Hle.
    rewrite extents_before_all, Hsum in Hle. change (extents_before extents 0) with 0 in *.
    set (b := extents_before extents i) in *.
    assert ((b + n) * extent_bytes opt env <= total * extent_bytes opt env) by (apply Z.mul_le_mono_nonneg_r; lia).
    split; [apply Z.mul_nonneg_nonneg; lia|lia].
  - intros i j b o b' o' Hij (n & ? & Hi & -> & -> & ?)%Hat (n' & ? & Hj & -> & ? & ?)%Hat.
    pose proof (extents_before_S _ _ _ Hi). pose proof (extents_before_mono extents (S i) j Hnn ltac:(lia)).
    rewrite <- Z.mul_add_distr_r. apply Z.mul_le_mono_nonneg_r; lia.
Qed.

Lemma fresh_shard i sh : y_shards fresh !! i = Some sh →
  sh_index sh = ∅ ∧ sh_writing sh = ∅ ∧ sh_mu sh = None ∧ sh_flushq sh = [] ∧
  sp_wf (sh_alloc sh) ∧ ∀ k, sp_slot (sh_alloc sh) k = None.
Proof.
  intros (n & Hpos & _ & -> & _)%new_shard_at. cbn [new_shard sh_index sh_writing sh_mu sh_flushq sh_alloc].
  do 4 (split; [done|]). split; [|intros; apply sp_new_slot].
  apply sp_new_ok; [apply pool_options_ok; [done|lia]|done].
Qed.

Lemma fresh_index k : index_at fresh k = None.
Proof.
  unfold index_at, at_shard. destruct (y_shards fresh !! _) as [sh|] eqn:E; [|done].
  apply fresh_shard in E as (Hx & _). cbn. by rewrite Hx.
Qed.

Lemma fresh_owned o r : r ∉ owned fresh o.
Proof. destruct o as [id|k]; cbn [owned]; [|rewrite fresh_index]; by intros ?%elem_of_nil. Qed.

Lemma fresh_unowned r : tracked r = true → ¬ present fresh r.
Proof.
  assert (Hk : ∀ k, writing_at fresh k = None ∧ pool_slot fresh k = None ∧ ∀ i, mu_at fresh i = None).
  { intros k. unfold writing_at, pool_slot, mu_at, at_shard. split_and!; [| |intros i];
      destruct (y_shards fresh !! _) as [sh|] eqn:E; try done;
      apply fresh_shard in E as (_ & Hw & Hm & _ & _ & Hs); cbn; by rewrite ?Hw, ?Hm, ?Hs. }
  destruct r; try done; intros _; cbn [present].
  - destruct (Hk k) as (_ & -> & _). by intros [? ?].
  - by intros [? ?].
  - destruct (Hk k) as (-> & _). by intros [? ?].
  - destruct (Hk (mkBlockKey 0 0 0)) as (_ & _ & ->). by intros [? ?].
  - intros (e & He & _). by rewrite fresh_index in He.
Qed.

Lemma fresh_esum f : esum f fresh = 0.
Proof.
  unfold esum. rewrite (sumZ_ext_in _ (λ _, 0)); [by rewrite sumZ_const|].
  intros sh (i & Hi)%list_elem_of_lookup_1. apply fresh_shard in Hi as (-> & _). apply msum_empty.
Qed.

Lemma fresh_inv : Inv fresh.
Proof.
  split.
  - apply fresh_geo.
  - split.
    + intros [id|k]; cbn [owner_ok]; [done|]. intros e. by rewrite fresh_index.
    + intros o o' r Hr. by apply fresh_owned in Hr.
    + intros r Hr Hp. by apply fresh_unowned in Hp.
  - split.
    + intros i sh (_ & _ & _ & _ & ? & _)%fresh_shard. done.
    + intros i sh k (Hx & Hw & _ & _ & _ & Hs)%fresh_shard. rewrite Hx, Hw, Hs, !lookup_empty.
      intros [[? ?]|[[? ?]|[? ?]]]; done.
    + intros k _. apply fresh_index.
    + intros i sh q (_ & _ & _ & -> & _)%fresh_shard. by intros ?%elem_of_nil.
  - split; intros; apply lookup_empty.
  - split; cbn; try done; intros c; [|intros id|intros k e]; by intros ?%elem_of_nil.
  - split; [intros k e; by rewrite fresh_index|done].
  - pose proof (go_bytes _ fresh_geo). pose proof (go_large _ fresh_geo).
    split; rewrite ?fresh_esum; cbn [fresh y_gl y_calls zero_globals gl_budget_used gl_large_used gl_dirty_bytes
      gl_dirty_objects]; rewrite ?msum_empty; cbn in *; try lia.
Qed.

End tier.

(** ** The constructor succeeds *)

Lemma new_shards_length {A : Type} `{SlotPoolOps A} cfg env extents : ∀ base,
  length (new_shards (A := A) cfg env base extents) = length extents.
Proof. induction extents as [|n extents IH]; intros base; [done|]. cbn. by rewrite IH. Qed.

Lemma new_shards_span {A : Type} `{SlotPoolLaws A} cfg env extents : ∀ base,
  (∀ m, m ∈ extents → 1 <= m) →
  sumZ (λ sh : Shard A, span (sp_opt (sh_alloc sh))) (new_shards cfg env base extents) =
  sumZ (λ n, n) extents * cf_extent_bytes cfg.
Proof.
  induction extents as [|n extents IH]; intros base Hpos; [done|]. cbn [new_shards sumZ foldr] in *.
  change (span (sp_opt (sh_alloc (new_shard (A := A) cfg env base n))) +
    sumZ (λ sh : Shard A, span (sp_opt (sh_alloc sh))) (new_shards cfg env (base + n) extents) =
    (n + sumZ (λ n, n) extents) * cf_extent_bytes cfg).
  rewrite IH by (intros m Hm; apply Hpos; by right). cbn [new_shard sh_alloc]. rewrite sp_new_opt. unfold span. cbn.
  pose proof (Hpos n ltac:(by left)). destruct (Nat.eqb_spec (Z.to_nat n) 0); lia.
Qed.

Lemma sumZ_elem l m : (∀ n, n ∈ l → 0 <= n) → m ∈ l → m <= sumZ (λ n, n) l.
Proof.
  intros Hpos (i & Hi)%list_elem_of_lookup_1. rewrite <- (take_drop_middle l i m Hi).
  rewrite sumZ_middle. assert (0 <= sumZ (λ n, n) (take i l ++ drop (S i) l)); [|lia].
  apply sumZ_nonneg. intros n [Hn|Hn]%elem_of_app; apply Hpos; [by eapply subseteq_take|by eapply subseteq_drop].
Qed.

(** The tier is ready when there is memory for its arena and the NUMA mode is a
    known one. *)
Lemma new_tier_fresh {A : Type} `{SlotPoolLaws A} opt env fl fb :
  ram_sane opt env →
  new_tier opt env fl fb =
    if env_memalign env (arena_bytes (normalize_ram opt) env) && numa_known env
    then Some (fresh (A := A) (normalize_ram opt) env fl fb) else None.
Proof.
  intros Hn%normalize_normal. unfold new_tier. cbv zeta. set (o := normalize_ram opt) in *.
  cbn [ram_config cf_arena_bytes]. destruct (env_memalign _ _); [|done]. destruct (numa_known env); [|done].
  cbn [negb andb].
  destruct (extents_ok o env Hn) as (_ & Hsum & Hpos). destruct (total_extents_fit o env Hn) as [Ht Hfit].
  destruct (extent_bytes_bounds o env Hn) as [He _]. destruct (arena_bytes_bounds o env Hn) as [Ha _].
  pose proof (rn_gran _ _ Hn) as Hg. pose proof (rs_bytes _ _ (rn_sane _ _ Hn)) as Hb.
  set (l := shard_extents _ _) in *.
  assert (forallb (λ n, n <=? UINT32_MAX) l = true) as ->; [|done].
  apply forallb_forall. intros m Hm%list_elem_of_In. apply Z.leb_le.
  pose proof (sumZ_elem l m ltac:(intros n Hn'; specialize (Hpos n Hn'); lia) Hm) as Hle. rewrite Hsum in Hle.
  unfold UINT32_MAX. assert (total_extents o env * 4096 <= 2 ^ 44 - 1) by nia. lia.
Qed.

(** The constructor leaves a tier in order. *)
Lemma new_tier_inv {A : Type} `{SlotPoolLaws A} opt env fl fb (y : Sys A) :
  ram_sane opt env → new_tier opt env fl fb = Some y → Inv y.
Proof.
  intros Hs. rewrite new_tier_fresh by done. destruct (_ && _); [|done]. intros [= <-].
  apply fresh_inv, normalize_normal, Hs.
Qed.
