(* ===== verification/RamTrace.v ===== *)
(** * RAM tier: what a step leaves of the past

    Publications are never rewritten, and a hit stays until it is released. *)

From S2P Require Import Prelude KvTypes SlabTypes SlabOps SlotPool RamTypes RamOps RamInv RamFrame.
From S2P Require Import RamShard RamCall RamLocal RamEvict.

(** ** Publications *)

Create HintDb pub discriminated.

Section publications.
Context {A : Type} `{SlotPoolOps A}.
Notation Sys := (Sys A).
Implicit Types (y : Sys) (k : BlockKey) (sh : Shard A) (g : Globals).

Lemma free_buffer_pub b g : gl_pub (free_buffer b g) = gl_pub g.
Proof. by destruct b. Qed.

Lemma CompletePut_pub c b g : gl_pub (CompletePut c b g) = gl_pub g.
Proof. by destruct c. Qed.

Lemma release_pub l n g : gl_pub (release l n g) = gl_pub g.
Proof. by destruct l. Qed.

Lemma erase_entry_pub k e sh g : gl_pub (erase_entry k e sh g).2 = gl_pub g.
Proof. cbn. by rewrite free_buffer_pub. Qed.

Lemma EraseEvictedLocked_pub ev : ∀ sh g, gl_pub (EraseEvictedLocked ev sh g).2 = gl_pub g.
Proof.
  unfold EraseEvictedLocked. induction ev as [|k ev IH]; intros sh g; [done|]. cbn [foldl].
  destruct (erase_evicted_one k (sh, g)) as [sh1 g1] eqn:E. rewrite IH. revert E. cbn.
  destruct (sh_index sh !! k) as [e|]; intros [= <- <-]; [by rewrite free_buffer_pub|done].
Qed.

Lemma DropLocked_pub k sh g : gl_pub (DropLocked k sh g).2 = gl_pub g.
Proof.
  unfold DropLocked. destruct (sh_index sh !! k) as [e|]; [|done]. destruct (_ || _); [done|].
  cbn. rewrite release_pub, free_buffer_pub. by destruct (en_durable e).
Qed.

Lemma fence_entry_pub k e sh g : gl_pub (fence_entry k e sh g).2 = gl_pub g.
Proof.
  unfold fence_entry. destruct (en_flushing e); [done|]. cbn. destruct (en_durable e); [done|]. apply CompletePut_pub.
Qed.

Lemma finish_put_pub cfg r kind adm c g : gl_pub (finish_put cfg r kind adm c g).2 = gl_pub g.
Proof. unfold finish_put. by repeat case_match. Qed.

Lemma store_pub cfg p bs g g' : store cfg p bs g = Some g' → gl_pub g' = gl_pub g.
Proof.
  destruct p; cbn; [case_match; [by intros [= <-]|done]|].
  intros (? & _ & E)%bind_Some. case_match; [by injection E as <-|done].
Qed.

Lemma sink_item_pub cfg it ok pad g g' : sink_item cfg it ok pad g = Some g' → gl_pub g' = gl_pub g.
Proof.
  unfold sink_item. intros (? & _ & (g1 & E & [= <-])%bind_Some)%bind_Some. case_decide; [|done].
  by apply store_pub in E.
Qed.

Lemma sink_items_pub cfg items : ∀ oks pads g g', sink_items cfg items oks pads g = Some g' → gl_pub g' = gl_pub g.
Proof.
  induction items as [|it items IH]; intros oks pads g g'; cbn; [by intros [= <-]|].
  intros (g1 & E1 & E2)%bind_Some. apply IH in E2. apply sink_item_pub in E1. congruence.
Qed.

Lemma complete_item_pub cfg q ok sh g : gl_pub (complete_item cfg q ok (sh, g)).2 = gl_pub g.
Proof.
  unfold complete_item. destruct (sh_index sh !! q_key q) as [e|]; [|done].
  destruct (en_remove_pending e).
  { destruct (_ =? _); cbn [snd]; rewrite ?DropLocked_pub; apply CompletePut_pub. }
  destruct ok; [cbn; by rewrite CompletePut_pub|]. destruct (_ <? _); [done|].
  match goal with |- context [DropLocked ?k ?s ?g1] => pose proof (DropLocked_pub k s g1) as Hp end.
  destruct (DropLocked _ _ _) as [sh1 g1]. cbn [snd] in *. rewrite CompletePut_pub. cbn. rewrite Hp. by case_match.
Qed.

Lemma complete_items_pub cfg batch : ∀ ok sh g, gl_pub (complete_items cfg batch ok (sh, g)).2 = gl_pub g.
Proof.
  induction batch as [|q batch IH]; intros ok sh g; [done|]. cbn [complete_items].
  pose proof (complete_item_pub cfg q (default false (head ok)) sh g) as Hp.
  destruct (complete_item _ _ _ _) as [sh1 g1]. by rewrite IH.
Qed.

End publications.

#[export] Hint Rewrite @free_buffer_pub @CompletePut_pub @release_pub @erase_entry_pub @EraseEvictedLocked_pub
  @DropLocked_pub @fence_entry_pub @finish_put_pub @complete_items_pub : pub.

Section steps.
Context {A : Type} `{SlotPoolOps A}.
Notation Sys := (Sys A).
Implicit Types (y : Sys) (k : BlockKey) (sh : Shard A) (g : Globals).

(** A section that keeps the publications. *)
Definition keeps_pub (f : Shard A → Globals → option (Call * Shard A * Globals)) : Prop :=
  ∀ sh g call sh' g', gl_pub g !! gl_next g = None → f sh g = Some (call, sh', g') → gl_pub g ⊆ gl_pub g'.

Lemma section_pub id i held f y y' :
  Ids (y_gl y) → keeps_pub f → section id i held f y = Some y' → gl_pub (y_gl y) ⊆ gl_pub (y_gl y').
Proof.
  intros Hids Hf (sh & call & sh' & g' & Hi & Hmu & E & ->)%section_Some. apply (Hf sh _ call sh'); [|done].
  by apply (id_pub _ Hids).
Qed.

Lemma emplace_pub k e pub sh g :
  gl_pub g !! gl_next g = None → gl_pub g ⊆ gl_pub (emplace_entry k e pub sh g).2.
Proof.
  intros Hn. unfold emplace_entry. destruct (sh_index sh !! k); cbn; [by rewrite free_buffer_pub|].
  by apply insert_subseteq.
Qed.

Lemma arena_put_pub id r c a sh g call sh' g' :
  arena_put id r c a sh g = Some (call, sh', g') → gl_pub g' = gl_pub g.
Proof.
  unfold arena_put. intros ([[out a1] ev] & _ & E)%bind_Some.
  destruct out as [[ref h]|]; [|by injection E as <- <- <-].
  match type of E with context [EraseEvictedLocked ?ev ?s ?g] => pose proof (EraseEvictedLocked_pub ev s g) as Hp end.
  destruct (EraseEvictedLocked _ _ _) as [sh1 g1]. injection E as <- <- <-. by rewrite <- Hp.
Qed.

Lemma finish_keeps cfg r kind adm c sh0 g g0 call (sh' : Shard A) g' :
  gl_pub g0 = gl_pub g →
  (let '(cl, g1) := finish_put cfg r kind adm c g0 in Some (cl, sh0, g1)) = Some (call, sh', g') →
  gl_pub g ⊆ gl_pub g'.
Proof.
  intros Hg0. pose proof (finish_put_pub cfg r kind adm c g0) as Hp.
  destruct (finish_put cfg r kind adm c g0) as [cl g1]. cbn [snd] in Hp. intros E1. injection E1 as <- <- <-. by rewrite Hp, Hg0.
Qed.

Lemma admit_new_pub cfg id r kind persisted : keeps_pub (admit_new cfg id r kind persisted).
Proof.
  intros sh g call sh' g' Hn E. unfold admit_new in E.
  destruct persisted; [by eapply finish_keeps; [|exact E]|].
  destruct (_ && _ && _); [by eapply finish_keeps; [|exact E]|].
  destruct (AlignCapacity _ _) as [cap|]; [|by eapply finish_keeps; [|exact E]].
  destruct (_ <? _); [by eapply finish_keeps; [|exact E]|]. cbn [new_shared] in E.
  destruct (is_large cfg r); [by injection E as <- <- <-|]. by apply arena_put_pub in E as ->.
Qed.

Lemma admit_pub cfg id r kind inp : keeps_pub (admit_section cfg id r kind inp).
Proof.
  intros sh g call sh' g' Hn E. unfold admit_section in E.
  destruct (sh_index sh !! rq_key r) as [e|].
  { destruct (en_remove_pending e); [by eapply finish_keeps; [|exact E]|].
    destruct (en_completion e); by eapply finish_keeps; [|exact E]. }
  destruct (sh_writing sh !! rq_key r); [by eapply finish_keeps; [|exact E]|].
  destruct (op_is_persisted _); by eapply admit_new_pub in E.
Qed.

Lemma arena_pub id r c a : keeps_pub (arena_section id r c a).
Proof.
  intros sh g call sh' g' Hn. unfold arena_section. repeat case_match; intros E;
    first [by injection E as <- <- <-|by apply arena_put_pub in E as ->].
Qed.

Lemma reserve_pub cfg r c a ref h : keeps_pub (reserve_section cfg r c a ref h).
Proof.
  intros sh g call sh' g' Hn. unfold reserve_section, TryReserve.
  destruct (_ || _); intros [= <- <- <-]; done.
Qed.

Lemma durable_large_pub r cap : keeps_pub (durable_large_section r cap).
Proof. intros sh g call sh' g' Hn. unfold durable_large_section, new_shared. by repeat case_match; intros [= <- <- <-]. Qed.

Lemma reclaim_iter_pub cfg r c cap a i rest : keeps_pub (reclaim_iter cfg r c cap a i rest).
Proof.
  intros sh g call sh' g' Hn. unfold reclaim_iter. destruct rest as [|k rest]; [by intros [= <- <- <-]|].
  destruct (sh_index sh !! k) as [e|]; [|by intros [= <- <- <-]]. destruct (_ && _ && _ && _); [|by intros [= <- <- <-]].
  cbn [erase_entry]. destruct (has_room _ _ _); intros [= <- <- <-]; cbn; by rewrite free_buffer_pub.
Qed.

Lemma fail_pub r c : keeps_pub (fail_section r c).
Proof. intros sh g call sh' g' Hn. unfold fail_section. by destruct (rq_op r); intros [= <- <- <-]. Qed.

Lemma install_pub cfg r l inp : keeps_pub (install_section cfg r l inp).
Proof.
  intros sh g call sh' g' Hn. unfold install_section. destruct (canceled _ g); [by intros [= <- <- <-]|].
  destruct (rq_op r) as [kind| |].
  1:{ match goal with |- context [emplace_entry ?k ?e ?p ?s ?g] => pose proof (emplace_pub k e p s g Hn) as Hp end.
      destruct (emplace_entry _ _ _ _ _) as [sh1 g1]. cbn [snd] in Hp.
      match goal with |- context [finish_put ?a ?b ?c ?d ?e ?f] => pose proof (finish_put_pub a b c d e f) as Hq end.
      destruct (finish_put _ _ _ _ _ _) as [cl g2]. cbn [snd] in Hq. intros [= <- <- <-]. by rewrite Hq. }
  all: match goal with |- context [emplace_entry ?k ?e ?p ?s ?g] => pose proof (emplace_pub k e p s g Hn) as Hp end;
    destruct (emplace_entry _ _ _ _ _) as [sh1 g1]; intros [= <- <- <-]; exact Hp.
Qed.

Lemma commit_pub cfg r l : keeps_pub (commit_section cfg r l).
Proof.
  intros sh g call sh' g' Hn. unfold commit_section. destruct (canceled _ g); [by intros [= <- <- <-]|].
  match goal with |- context [emplace_entry ?k ?e ?p ?s ?g] => pose proof (emplace_pub k e p s g Hn) as Hp end.
  destruct (emplace_entry _ _ _ _ _) as [sh1 g1]. intros [= <- <- <-]. exact Hp.
Qed.

Lemma reset_kept_pub r l b : keeps_pub (reset_kept_section r l b).
Proof.
  intros sh g call sh' g' Hn. unfold reset_kept_section. destruct b; [|by intros [= <- <- <-]].
  destruct (sh_index sh !! rq_key r) as [e|]; [|by intros [= <- <- <-]].
  destruct (negb _); [|by intros [= <- <- <-]]. destruct (_ && _ && _); [|by intros [= <- <- <-]].
  match goal with |- context [DropLocked ?k ?s ?g] => pose proof (DropLocked_pub k s g) as Hp end.
  destruct (DropLocked _ _ _) as [sh1 g1]. cbn [snd] in Hp. intros [= <- <- <-]. by rewrite Hp.
Qed.

Lemma remove_pub k : keeps_pub (remove_section k).
Proof.
  intros sh g call sh' g' Hn. unfold remove_section. destruct (sh_writing sh !! k); [by intros [= <- <- <-]|].
  destruct (sh_index sh !! k) as [e|]; [|by intros [= <- <- <-]].
  destruct (en_remove_pending e); [by intros [= <- <- <-]|].
  pose proof (fence_entry_pub k e sh g) as Hf. destruct (fence_entry k e sh g) as [sh1 g1]. cbn [snd] in Hf.
  destruct (_ && _); [|intros [= <- <- <-]; cbn; by rewrite Hf].
  pose proof (DropLocked_pub k sh1 g1) as Hp. destruct (DropLocked _ _ _) as [sh2 g2].
  intros [= <- <- <-]. cbn in *. by rewrite Hp, Hf.
Qed.

Lemma remove_end_pub k c : keeps_pub (remove_end_section k c).
Proof.
  intros sh g call sh' g' Hn. unfold remove_end_section.
  destruct (sh_index sh !! k) as [e|]; [|by intros [= <- <- <-]]. case_decide; [|by intros [= <- <- <-]].
  assert (Hf : gl_pub (if en_remove_pending e then (sh, g) else fence_entry k e sh g).2 = gl_pub g)
    by (case_match; [done|apply fence_entry_pub]).
  destruct (if en_remove_pending e then _ else _) as [sh1 g1]. cbn [snd] in Hf.
  destruct (_ && _); [|intros [= <- <- <-]; cbn; by rewrite Hf].
  pose proof (DropLocked_pub k sh1 g1) as Hp. destruct (DropLocked _ _ _) as [sh2 g2].
  intros [= <- <- <-]. cbn in *. by rewrite Hp, Hf.
Qed.

Lemma dequeue_pub i : keeps_pub (dequeue_section i).
Proof.
  intros sh g call sh' g' Hn. unfold dequeue_section. destruct (sh_flushq sh) as [|q0 q].
  - case_match; [by intros [= <- <- <-]|done].
  - destruct (dequeue _ _ _) as [[[rest index] batch] items]. by intros [= <- <- <-].
Qed.

Lemma complete_pub cfg i batch ok : keeps_pub (complete_section cfg i batch ok).
Proof.
  intros sh g call sh' g' Hn. unfold complete_section. pose proof (complete_items_pub cfg batch ok sh g) as Hp.
  destruct (complete_items _ _ _ _) as [sh1 g1]. cbn [snd] in Hp. intros [= <- <- <-]. by rewrite Hp.
Qed.

Lemma steal_pub i tk c donor need : keeps_pub (steal_section i tk c donor need).
Proof.
  intros sh g call sh' g' Hn. unfold steal_section. intros ([[ok a] ev] & _ & E)%bind_Some.
  match type of E with context [EraseEvictedLocked ?ev ?s ?g] => pose proof (EraseEvictedLocked_pub ev s g) as Hp end.
  destruct (EraseEvictedLocked _ _ _) as [sh1 g1]. cbn [snd] in Hp.
  destruct ok; injection E as <- <- <-; cbn; by rewrite Hp.
Qed.

Lemma reclaim_pub i tk c target budget : keeps_pub (reclaim_section i tk c target budget).
Proof.
  intros sh g call sh' g' Hn. unfold reclaim_section. destruct (sp_reclaim_class _ _ _ _ _) as [[got a] ev].
  match goal with |- context [EraseEvictedLocked ?ev ?s ?g] => pose proof (EraseEvictedLocked_pub ev s g) as Hp end.
  destruct (EraseEvictedLocked _ _ _) as [sh1 g1]. intros [= <- <- <-]. cbn in *. by rewrite Hp.
Qed.

Lemma lock_free_pub id call f y y' :
  gl_pub (y_gl y) ⊆ gl_pub (f (y_gl y)) → lock_free id call f y = Some y' → gl_pub (y_gl y) ⊆ gl_pub (y_gl y').
Proof. by intros Hf [= <-]. Qed.

Lemma start_pub id r inp y y' :
  Ids (y_gl y) → start_step (y_cfg y) id r inp y = Some y' → gl_pub (y_gl y) ⊆ gl_pub (y_gl y').
Proof.
  intros Hids. unfold start_step. destruct (rq_op r) as [kind| |].
  - destruct (_ || _); [|by apply section_pub, admit_pub].
    match goal with |- context [finish_put ?a ?b ?c ?d ?e ?f] => pose proof (finish_put_pub a b c d e f) as Hq end.
    destruct (finish_put _ _ _ _ _ _) as [cl g2]. apply lock_free_pub. by rewrite <- Hq.
  - destruct (_ || _); [by apply lock_free_pub|]. destruct (AlignCapacity _ _); [|by apply lock_free_pub].
    destruct (_ <? _); [by apply lock_free_pub|]. destruct (is_large _ _); [by apply section_pub, durable_large_pub|].
    by apply lock_free_pub.
  - destruct (_ || _); [by apply lock_free_pub|]. destruct (AlignCapacity _ _); [|by apply lock_free_pub].
    destruct (_ <? _); [by apply lock_free_pub|]. destruct (is_large _ _); [by apply section_pub, durable_large_pub|].
    by apply lock_free_pub.
Qed.

Lemma tick_pub id i tk c need y y' :
  Ids (y_gl y) → tick_grow id i tk c need y = Some y' → gl_pub (y_gl y) ⊆ gl_pub (y_gl y').
Proof.
  intros Hids. unfold tick_grow. case_match; [by apply lock_free_pub|]. destruct need as [need|].
  - case_match; [by apply lock_free_pub|]. case_match; [by apply lock_free_pub|]. apply section_pub; [done|apply steal_pub].
  - intros (sh & _ & E)%bind_Some. revert E. by apply lock_free_pub.
Qed.

Lemma flush_items_pub cfg i batch items ok inp g call g' :
  flush_items cfg i batch items ok inp g = Some (call, g') → gl_pub g' = gl_pub g.
Proof.
  unfold flush_items. case_match.
  - intros (g1 & E & [= <- <-])%bind_Some. by eapply sink_items_pub.
  - intros (it & _ & E)%bind_Some. destruct (cf_flush cfg); [|by injection E as <- <-].
    apply bind_Some in E as (g1 & E & [= <- <-]). by eapply sink_item_pub.
Qed.

Lemma call_step_pub id inp y call y' :
  Ids (y_gl y) → call_step id inp y call = Some y' → gl_pub (y_gl y) ⊆ gl_pub (y_gl y').
Proof.
  intros Hids. destruct call; cbn [call_step]; try done.
  - by apply start_pub.
  - unfold try_large. destruct (_ || _); by apply lock_free_pub.
  - unfold TryReserve. destruct (_ || _); by apply lock_free_pub.
  - by apply lock_free_pub.
  - destruct pc; [|by apply section_pub, reclaim_iter_pub]. unfold reclaim_check.
    destruct (_ || _ || _); [by apply lock_free_pub|]. apply section_pub; [done|].
    intros sh g call sh' g' _. case_decide; [|done]. by intros [= <- <- <-].
  - destruct (in_malloc inp); [case_decide; [|done]|]; by apply lock_free_pub.
  - by apply section_pub, arena_pub.
  - by apply section_pub, reserve_pub.
  - by apply section_pub, fail_pub.
  - destruct (rq_op r) as [kind| |]; try done.
    match goal with |- (let '(_, _) := ?X in _) = _ → _ => assert (Hp : gl_pub X.2 = gl_pub (y_gl y)) end.
    { case_match; rewrite finish_put_pub; done. }
    destruct (if canceled then _ else _) as [cl g1]. apply lock_free_pub. by rewrite <- Hp.
  - intros (g1 & E & E')%bind_Some. apply store_pub in E. revert E'. apply lock_free_pub. by rewrite E.
  - by apply section_pub, install_pub.
  - assert (Hg : gl_pub (free_buffer (lc_large l) (CompletePut (Some (lc_completion l)) false
      (release (loc_large l) (lc_cap l) (y_gl y)))) = gl_pub (y_gl y)) by (by autorewrite with pub).
    destruct (rq_op r) as [kind| |]; [|apply lock_free_pub; by rewrite Hg..].
    match goal with |- context [finish_put ?a ?b ?c ?d ?e ?f] => pose proof (finish_put_pub a b c d e f) as Hq end.
    destruct (finish_put _ _ _ _ _ _) as [cl g2]. apply lock_free_pub. cbn [snd] in Hq. by rewrite Hq, Hg.
  - destruct c as [c|]; [|by apply lock_free_pub]. intros (p & _ & E)%bind_Some. case_match; [|done].
    revert E. by apply lock_free_pub.
  - apply lock_free_pub. case_match; [by rewrite CompletePut_pub|done].
  - by apply section_pub, remove_pub.
  - destruct c as [c|]; [|by apply lock_free_pub]. intros (p & _ & E)%bind_Some. case_match; [|done].
    revert E. by apply lock_free_pub.
  - by apply section_pub, remove_end_pub.
  - by apply section_pub, dequeue_pub.
  - case_match; [by apply section_pub, complete_pub|]. intros ([cl g1] & E & E')%bind_Some.
    apply flush_items_pub in E. revert E'. apply lock_free_pub. by rewrite E.
  - intros (sh & _ & [= <-])%bind_Some. done.
  - by apply tick_pub.
  - apply section_pub; [done|]. intros sh g call sh' g' _. by intros [= <- <- <-].
  - unfold tick_reclaim. case_match; [by apply lock_free_pub|]. destruct budget as [[t b]|]; [|by apply lock_free_pub].
    apply section_pub; [done|apply reclaim_pub].
Qed.

Lemma step_pub a y y' : Ids (y_gl y) → step a y = Some y' → gl_pub (y_gl y) ⊆ gl_pub (y_gl y').
Proof.
  intros Hids. destruct a; cbn [step].
  1-4: try case_match; try done; unfold new_call; case_decide; [|done]; by intros [= <-].
  - intros (call & _ & E)%bind_Some. by eapply call_step_pub.
  - destruct (y_calls y !! id) as [call|]; [|done]. destruct call; try done. case_decide; [|done].
    intros (g1 & E%store_pub & [= <-])%bind_Some. cbn. by rewrite E.
  - destruct (y_calls y !! id) as [call|]; [|done]. destruct call; try done. by apply section_pub, commit_pub.
  - destruct (y_calls y !! id) as [call|]; [|done]. destruct call; try done; [|by apply section_pub, reset_kept_pub].
    apply section_pub; [done|]. intros sh g call sh' g' _. by intros [= <- <- <-].
  - intros (sh & _ & E)%bind_Some. case_decide; [|done].
    assert (Hp : gl_pub (get_section (y_cfg y) key offset length count_access sh (y_gl y)).2 = gl_pub (y_gl y)).
    { unfold get_section. by repeat case_match. }
    destruct (get_section _ _ _ _ _ _ _) as [[out sh'] g']. injection E as <-. cbn in *. by rewrite Hp.
  - intros (sh & _ & E)%bind_Some. case_decide; [|done]. injection E as <-. cbn. unfold probe_section. by repeat case_match.
  - intros (hit & _ & ([shards g'] & E & [= <-])%bind_Some)%bind_Some. unfold release_step in E.
    apply bind_Some in E as (k & _ & (sh & _ & (e & _ & E)%bind_Some)%bind_Some). case_decide; [|done].
    assert (Hp : gl_pub (release_section k e sh (y_gl y)).2 = gl_pub (y_gl y)).
    { unfold release_section. destruct (en_send_pins e =? 0); [done|]. destruct (_ && _ && _); [apply DropLocked_pub|done]. }
    destruct (release_section _ _ _ _) as [sh' g1]. injection E as <- <-. cbn in *. by rewrite Hp.
  - intros (sh & _ & E)%bind_Some. case_decide; [|done]. by injection E as <-.
  - by intros [= <-].
  - repeat case_match; try done; by intros [= <-].
Qed.

(** ** Hits *)

Lemma section_hits id i held f y y' : section id i held f y = Some y' → y_hits y' = y_hits y.
Proof. by intros (sh & call & sh' & g' & _ & _ & _ & ->)%section_Some. Qed.

Lemma lock_free_hits id call f y y' : lock_free id call f y = Some y' → y_hits y' = y_hits y.
Proof. by intros [= <-]. Qed.

Lemma call_step_hits id inp y call y' : call_step id inp y call = Some y' → y_hits y' = y_hits y.
Proof.
  destruct call; cbn [call_step]; try done; unfold start_step, reclaim_check, tick_grow, tick_reclaim;
    repeat (case_match; try done); try apply lock_free_hits; try apply section_hits;
    intros (? & _ & E)%bind_Some; repeat (case_match; try done); revert E; try apply lock_free_hits.
  by intros [= <-].
Qed.

Lemma step_hit a y y' h hit :
  step a y = Some y' → y_hits y !! h = Some hit → a ≠ ARelease h → y_hits y' !! h = Some hit.
Proof.
  intros E Hh Ha. destruct a; cbn [step] in E.
  1-4: try case_match; try done; unfold new_call in E; case_decide; [|done]; by injection E as <-.
  - apply bind_Some in E as (call & _ & E). by rewrite (call_step_hits _ _ _ _ _ E).
  - destruct (y_calls y !! id) as [call|]; [|done]. destruct call; try done. case_decide; [|done].
    by apply bind_Some in E as (g1 & _ & [= <-]).
  - destruct (y_calls y !! id) as [call|]; [|done]. destruct call; try done. by rewrite (section_hits _ _ _ _ _ _ E).
  - destruct (y_calls y !! id) as [call|]; [|done]. destruct call; try done; by rewrite (section_hits _ _ _ _ _ _ E).
  - apply bind_Some in E as (sh & _ & E). case_decide as Hd; [|done]. destruct Hd as (_ & Hn & _).
    destruct (get_section _ _ _ _ _ _ _) as [[out sh'] g']. injection E as <-. cbn.
    destruct out; [|done]. rewrite lookup_insert_ne; [done|]. by intros <-; rewrite Hh in Hn.
  - apply bind_Some in E as (sh & _ & E). case_decide; [|done]. by injection E as <-.
  - apply bind_Some in E as (hit' & _ & ([shards g'] & _ & [= <-])%bind_Some). cbn.
    rewrite lookup_delete_ne; [done|congruence].
  - apply bind_Some in E as (sh & _ & E). case_decide; [|done]. by injection E as <-.
  - by injection E as <-.
  - repeat case_match; try done; by injection E as <-.
Qed.

End steps.
