(* ===== verification/RamFate.v ===== *)
(** * RAM tier: what becomes of an entry

    A step carries an entry along or takes it out of the index; it takes out only
    what is durable, what is being removed, and what the sink has refused for the
    last time. *)

From S2P Require Import Prelude KvTypes SlabTypes SlabOps SlotPool RamTypes RamOps RamInv RamFrame.
From S2P Require Import RamShard RamCall RamLocal RamEvict RamAdmit.

(** The same value, on its way to the disk or there. *)
Record carried (e e' : Entry) : Prop := {
  ca_node : en_node e' = en_node e;
  ca_data : entry_data e' = entry_data e;
  ca_len : en_len e' = en_len e;
  ca_durable : en_durable e = true → en_durable e' = true;
  ca_pending : en_remove_pending e = true → en_remove_pending e' = true;
}.

#[export] Instance carried_preorder : PreOrder carried.
Proof. split; [by split|]. intros e1 e2 e3 [] []. split; try congruence; eauto. Qed.

(** What became of [e]: carried along, or gone for a reason. *)
Definition fate (P : Prop) (e : Entry) (o : option Entry) : Prop :=
  match o with Some e' => carried e e' | None => P end.

Section entries.
Context {A : Type} `{SlotPoolOps A}.
Implicit Types (k : BlockKey) (sh : Shard A) (g : Globals).

Lemma fate_refl P e o : o = Some e → fate P e o.
Proof. intros ->. by split. Qed.

Lemma fate_alter P f k k' e (m : gmap BlockKey Entry) :
  (∀ e, carried e (f e)) → m !! k' = Some e → fate P e (alter f k m !! k').
Proof.
  intros Hf He. destruct (decide (k = k')) as [->|Hk]; [|by rewrite lookup_alter_ne, He].
  rewrite lookup_alter_eq, He. apply Hf.
Qed.

Lemma fate_trans P e e1 o : carried e e1 → fate P e1 o → fate P e o.
Proof. intros Hc. destruct o; cbn; [by etrans|done]. Qed.

Lemma EraseEvictedLocked_index ev : ∀ sh g k,
  sh_index (EraseEvictedLocked ev sh g).1 !! k = if decide (k ∈ ev) then None else sh_index sh !! k.
Proof.
  unfold EraseEvictedLocked. induction ev as [|k0 ev IH]; intros sh g k; [done|]. cbn [foldl].
  destruct (erase_evicted_one k0 (sh, g)) as [sh1 g1] eqn:E. rewrite IH. revert E. cbn.
  assert (Hd : k ∈ k0 :: ev ↔ k = k0 ∨ k ∈ ev) by apply elem_of_cons.
  destruct (sh_index sh !! k0) as [e|] eqn:He; intros [= <- <-]; cbn.
  - repeat case_decide; try done; try tauto; destruct (decide (k = k0)) as [->|Hk]; try tauto;
      rewrite ?lookup_delete_eq, ?lookup_delete_ne; try done; tauto.
  - repeat case_decide; try done; try tauto. destruct (decide (k = k0)) as [->|Hk]; [done|tauto].
Qed.

(** A pool operation that evicts. *)
Lemma evict_fate (P : Prop) ev sh sh1 g g' k e :
  (EraseEvictedLocked ev sh g) = (sh1, g') → (k ∈ ev → P) → sh_index sh !! k = Some e →
  fate P e (sh_index sh1 !! k).
Proof.
  intros E HP He. pose proof (EraseEvictedLocked_index ev sh g k) as Hx. rewrite E in Hx. cbn [fst] in Hx.
  rewrite Hx. case_decide; [by apply HP|by apply fate_refl].
Qed.

Lemma drop_fate (P : Prop) k k' sh g sh1 g1 e :
  DropLocked k sh g = (sh1, g1) → (k' = k → P) → sh_index sh !! k' = Some e → fate P e (sh_index sh1 !! k').
Proof.
  intros E HP He. unfold DropLocked in E. destruct (sh_index sh !! k) as [e0|] eqn:Hk.
  2:{ injection E as <- <-. by apply fate_refl. }
  destruct (_ || _).
  - injection E as <- <-. apply fate_alter; [|done]. by split.
  - cbn in E. injection E as <- <-. cbn. destruct (decide (k' = k)) as [->|Hne].
    + rewrite lookup_delete_eq. by apply HP.
    + rewrite lookup_delete_ne by done. apply fate_refl. by destruct (in_arena e0).
Qed.

Lemma drop_flush_pin_fate P k k' e0 sh e :
  sh_index sh !! k' = Some e → fate P e (sh_index (drop_flush_pin k e0 sh) !! k').
Proof.
  intros He. unfold drop_flush_pin, unpin_entry. destruct (en_flush_pin e0); [|by apply fate_refl].
  apply fate_alter; [by split|]. by destruct (in_arena e0).
Qed.

Lemma fence_fate P k k' e0 sh g sh1 g1 e :
  fence_entry k e0 sh g = (sh1, g1) → sh_index sh !! k' = Some e → fate P e (sh_index sh1 !! k').
Proof.
  intros E He. unfold fence_entry in E.
  assert (Hs : fate P e (sh_index (erase_queued k (upd_entry k (set_en_remove_pending (λ _, true)) sh)) !! k'))
    by (apply fate_alter; [by split|done]).
  destruct (en_flushing e0); [by injection E as <- <-|]. injection E as <- <-. revert Hs.
  destruct (sh_index (erase_queued _ _) !! k') as [e1|] eqn:E1; cbn [fate].
  - intros Hc. pose proof (drop_flush_pin_fate P k k' e0 _ e1 E1) as Hd. revert Hd.
    destruct (sh_index (drop_flush_pin _ _ _) !! k'); cbn [fate]; [by etrans|done].
  - cbn in E1. destruct (decide (k = k')) as [->|Hk];
      [rewrite lookup_alter_eq in E1|rewrite lookup_alter_ne in E1 by done]; by rewrite He in E1.
Qed.

End entries.

(** Why a call may take [e] out of the index. *)
Inductive lost (cfg : Config) (call : Call) (k : BlockKey) (e : Entry) : Prop :=
| lost_durable : en_durable e = true → lost cfg call k e
| lost_pending : en_remove_pending e = true → lost cfg call k e
| lost_removed : call = CRemove k → lost cfg call k e
| lost_refused i batch items ok j q :
    call = CFlush i batch items ok → batch !! j = Some q → q_key q = k → ok !! j = Some false →
    op_flush_retries (cf_opt cfg) <= q_tries q + 1 → lost cfg call k e.

Section fates.
Context {A : Type} `{SlotPoolLaws A}.
Notation Sys := (Sys A).
Implicit Types (y : Sys) (k : BlockKey) (sh : Shard A) (g : Globals).

(** Every entry of shard [i] under [lost]. *)
Definition fates cfg (call : Call) sh sh' : Prop :=
  ∀ k e, sh_index sh !! k = Some e → fate (lost cfg call k e) e (sh_index sh' !! k).

Lemma fates_same cfg call sh sh' : sh_index sh' = sh_index sh → fates cfg call sh sh'.
Proof. intros E k e He. apply fate_refl. by rewrite E. Qed.

Lemma fates_after y i sh sh' g' calls hits cfg call k e :
  y_shards y !! i = Some sh → fates cfg call sh sh' → index_at y k = Some e →
  fate (lost cfg call k e) e (index_at (after y i sh' g' calls hits) k).
Proof.
  intros Hi Hf He. rewrite (after_index _ _ sh) by done. case_decide as Hk; [|by apply fate_refl].
  rewrite (here_index y i sh) in He by done. by apply Hf.
Qed.

(** ** Evictions *)

Lemma evict_fates y i sh cfg call ev sh0 g sh1 g' :
  Inv y → y_shards y !! i = Some sh → sh_mu sh = None → sh_index sh0 = sh_index sh →
  (∀ k, k ∈ ev → ∃ sl, sp_slot (sh_alloc sh) k = Some sl ∧ sl_pins sl = 0) →
  EraseEvictedLocked ev sh0 g = (sh1, g') → fates cfg call sh sh1.
Proof.
  intros Hinv Hi Hmu Hx Hidle E k e He. apply (evict_fate _ _ _ _ _ _ _ _ E); [|by rewrite Hx].
  intros Hk. destruct (Hidle k Hk) as (sl & Hsl & Hp).
  destruct (victim_idle y i sh k sl) as (e' & He' & _ & (_ & Hd & _) & _); try done.
  apply lost_durable. congruence.
Qed.

Lemma arena_put_fates y i sh cfg call sh0 g id r c a call' sh' g' :
  Inv y → y_shards y !! i = Some sh → sh_mu sh = None → sh_index sh0 = sh_index sh → sh_alloc sh0 = sh_alloc sh →
  0 <= rq_len r → arena_put id r c a sh0 g = Some (call', sh', g') → fates cfg call sh sh'.
Proof.
  intros Hinv Hi Hmu Hx Ha Hlen. unfold arena_put. rewrite Ha.
  destruct (sp_put_ok (rq_key r) (rq_len r) (sh_alloc sh) [] (mp_pool _ (iv_maps _ Hinv) _ _ Hi) Hlen)
    as (out & a' & ev & -> & _ & Hout). cbn [mbind option_bind app].
  destruct out as [[ref h]|]; [|intros [= <- <- <-]; by apply fates_same].
  destruct (EraseEvictedLocked _ _ _) as [sh1 g1] eqn:E. intros [= <- <- <-].
  eapply (evict_fates y i sh cfg call) in E; [exact E|done..|]. destruct (sp_slot (sh_alloc sh) (rq_key r)).
  - destruct Hout as (-> & _). by intros k ?%elem_of_nil.
  - destruct Hout as ([_ Hp _] & _). exact Hp.
Qed.

Lemma finish_fates cfg call cf r kind adm c sh sh0 g0 call' sh' g' :
  fates cfg call sh sh0 →
  (let '(cl, g1) := finish_put cf r kind adm c g0 in Some (cl, sh0, g1)) = Some (call', sh', g') →
  fates cfg call sh sh'.
Proof. intros Hs. destruct (finish_put cf r kind adm c g0) as [cl g1]. by intros [= <- <- <-]. Qed.

Lemma admit_new_fates y i sh cfg call cf id r kind persisted g call' sh' g' :
  Inv y → y_shards y !! i = Some sh → sh_mu sh = None → 0 <= rq_len r →
  admit_new cf id r kind persisted sh g = Some (call', sh', g') → fates cfg call sh sh'.
Proof.
  intros Hinv Hi Hmu Hlen E. unfold admit_new in E.
  pose proof (λ adm g0, finish_fates cfg call cf r kind adm None sh sh g0 call' sh' g' ltac:(by apply fates_same)) as Hsame.
  destruct persisted; [by eapply Hsame|].
  destruct (_ && _ && _); [by eapply Hsame|]. destruct (AlignCapacity _ _) as [cap|]; [|by eapply Hsame].
  destruct (_ <? _); [by eapply Hsame|]. cbn [new_shared] in E.
  assert (Hw : ∀ c, sh_index (emplace_writing (rq_key r) c sh) = sh_index sh ∧
    sh_alloc (emplace_writing (rq_key r) c sh) = sh_alloc sh) by (intros c; unfold emplace_writing; by destruct (sh_writing sh !! rq_key r)).
  destruct (is_large cf r).
  - injection E as <- <- <-. apply fates_same, Hw.
  - eapply arena_put_fates; [done|exact Hi|done| | |done|exact E]; apply Hw.
Qed.

Lemma admit_fates y i sh cfg call cf id r kind inp call' sh' g' :
  Inv y → y_shards y !! i = Some sh → sh_mu sh = None → 0 <= rq_len r →
  admit_section cf id r kind inp sh (y_gl y) = Some (call', sh', g') → fates cfg call sh sh'.
Proof.
  intros Hinv Hi Hmu Hlen E. unfold admit_section in E.
  pose proof (λ adm c g0, finish_fates cfg call cf r kind adm c sh sh g0 call' sh' g' ltac:(by apply fates_same)) as Hsame.
  destruct (sh_index sh !! rq_key r) as [e|] eqn:He.
  { destruct (en_remove_pending e); [by eapply Hsame|]. destruct (en_completion e); [by eapply Hsame|].
    cbn [new_shared] in E. eapply finish_fates; [|exact E]. intros k e' Hk. apply fate_alter; [by split|done]. }
  destruct (sh_writing sh !! rq_key r); [by eapply Hsame|].
  destruct (op_is_persisted _); by eapply admit_new_fates.
Qed.

Lemma arena_fates y i sh cfg call id r c a call' sh' g' :
  Inv y → y_shards y !! i = Some sh → sh_mu sh = None → 0 <= rq_len r →
  arena_section id r c a sh (y_gl y) = Some (call', sh', g') → fates cfg call sh sh'.
Proof.
  intros Hinv Hi Hmu Hlen. unfold arena_section. repeat case_match; intros E;
    first [injection E as <- <- <-; by apply fates_same|eapply arena_put_fates; [done|exact Hi|done|done|done|done|exact E]].
Qed.

Lemma steal_fates y i sh cfg call j tk c donor need call' sh' g' :
  Inv y → y_shards y !! i = Some sh → sh_mu sh = None →
  steal_section j tk c donor need sh (y_gl y) = Some (call', sh', g') → fates cfg call sh sh'.
Proof.
  intros Hinv Hi Hmu. unfold steal_section.
  destruct (sp_steal_from_ok donor c (sh_alloc sh) [] (mp_pool _ (iv_maps _ Hinv) _ _ Hi)) as (b & a' & ev & -> & _ & [_ Hidle _]).
  cbn [mbind option_bind app]. destruct (EraseEvictedLocked _ _ _) as [sh1 g1] eqn:E.
  intros E1. eapply (evict_fates y i sh) in E; [|done..]. destruct b; injection E1 as <- <- <-; exact E.
Qed.

Lemma reclaim_fates y i sh cfg call j tk c target budget call' sh' g' :
  Inv y → y_shards y !! i = Some sh → sh_mu sh = None →
  reclaim_section j tk c target budget sh (y_gl y) = Some (call', sh', g') → fates cfg call sh sh'.
Proof.
  intros Hinv Hi Hmu. unfold reclaim_section.
  destruct (sp_reclaim_class_ok c target (Z.to_nat (Z.min 64 budget)) (sh_alloc sh) [] (mp_pool _ (iv_maps _ Hinv) _ _ Hi))
    as (a' & ev & -> & _ & [_ Hidle _] & _).
  cbn [app]. destruct (EraseEvictedLocked _ _ _) as [sh1 g1] eqn:E.
  eapply (evict_fates y i sh) in E; [|done..]. intros [= <- <- <-]. exact E.
Qed.

(** ** Sections that publish, pin, remove *)

Lemma emplace_fates cfg call k e pub sh0 sh g sh1 g1 :
  sh_index sh0 = sh_index sh → emplace_entry k e pub sh0 g = (sh1, g1) → fates cfg call sh sh1.
Proof.
  intros Hx. unfold emplace_entry. rewrite Hx. destruct (sh_index sh !! k) eqn:Hk; intros [= <- <-];
    [by apply fates_same|]. intros k' e' He. apply fate_refl. cbn. rewrite Hx, lookup_insert_ne; [done|]. congruence.
Qed.

Lemma install_fates cfg call cf r l inp sh g call' sh' g' :
  install_section cf r l inp sh g = Some (call', sh', g') → fates cfg call sh sh'.
Proof.
  unfold install_section. destruct (canceled _ g); [intros [= <- <- <-]; apply fates_same; by case_match|].
  destruct (rq_op r) as [kind| |].
  1:{ destruct (emplace_entry _ _ _ _ _) as [sh1 g1] eqn:E. destruct (finish_put _ _ _ _ _ _) as [cl g2].
      intros [= <- <- <-]. eapply emplace_fates in E; [|done]. exact E. }
  all: destruct (emplace_entry _ _ _ _ _) as [sh1 g1] eqn:E; intros [= <- <- <-]; eapply emplace_fates in E; [|done];
    intros k e He; specialize (E k e He); destruct (loc_large l); exact E.
Qed.

Lemma commit_fates cfg call cf r l sh g call' sh' g' :
  commit_section cf r l sh g = Some (call', sh', g') → fates cfg call sh sh'.
Proof.
  assert (Hw : sh_index (erase_writing_of (rq_key r) (lc_completion l) sh) = sh_index sh)
    by (unfold erase_writing_of; by case_decide).
  unfold commit_section. destruct (canceled _ g); [intros [= <- <- <-]; by apply fates_same|].
  destruct (emplace_entry _ _ _ _ _) as [sh1 g1] eqn:E. intros [= <- <- <-]. by eapply emplace_fates in E.
Qed.

(** A pin is given back; a removal that waited for it is carried out. *)
Lemma unpin_fates (cfg : Config) call sh sh0 g k e b sh1 g1 :
  sh_index sh !! k = Some e → sh_index sh0 = alter (set_en_send_pins (λ n, n - 1)) k (sh_index sh) →
  (if en_remove_pending e && b then DropLocked k sh0 g else (sh0, g)) = (sh1, g1) → fates cfg call sh sh1.
Proof.
  intros He Hx E k' e' He'.
  assert (Hx0 : ∃ e0, sh_index sh0 !! k' = Some e0 ∧ carried e' e0).
  { rewrite Hx. destruct (decide (k = k')) as [->|Hk]; [|rewrite lookup_alter_ne by done; by exists e'].
    rewrite lookup_alter_eq, He'. by eexists. }
  destruct Hx0 as (e0 & Hx0 & Hc). destruct (en_remove_pending e && b) eqn:Hb.
  2:{ injection E as <- <-. by rewrite Hx0. }
  apply andb_true_iff in Hb as [Hp _].
  assert (Hd : fate (lost cfg call k' e') e0 (sh_index sh1 !! k')).
  { eapply drop_fate; [exact E| |exact Hx0]. intros ->. apply lost_pending. congruence. }
  by eapply fate_trans.
Qed.

Lemma fence_drop_fates (cfg : Config) call k e0 sh g b sh1 g1 sh2 g2 :
  (∀ e, sh_index sh !! k = Some e → lost cfg call k e) →
  fence_entry k e0 sh g = (sh1, g1) → (if b : bool then DropLocked k sh1 g1 else (sh1, g1)) = (sh2, g2) →
  fates cfg call sh sh2.
Proof.
  intros Hl Ef E k' e' He'. pose proof (fence_fate False _ k' _ _ _ _ _ _ Ef He') as Hf.
  destruct (sh_index sh1 !! k') as [e1|] eqn:E1; cbn [fate] in Hf; [|done].
  destruct b; [|injection E as <- <-; by rewrite E1].
  assert (Hd : fate (lost cfg call k' e') e1 (sh_index sh2 !! k')).
  { eapply drop_fate; [exact E| |exact E1]. intros ->. by apply Hl. }
  by eapply fate_trans.
Qed.

Lemma remove_fates (cfg : Config) k sh g call' sh' g' :
  remove_section k sh g = Some (call', sh', g') → fates cfg (CRemove k) sh sh'.
Proof.
  unfold remove_section. destruct (sh_writing sh !! k); [intros [= <- <- <-]; by apply fates_same|].
  destruct (sh_index sh !! k) as [e|]; [|intros [= <- <- <-]; by apply fates_same].
  destruct (en_remove_pending e); [intros [= <- <- <-]; by apply fates_same|].
  destruct (fence_entry k e sh g) as [sh1 g1] eqn:Ef. destruct (if _ && _ then _ else _) as [sh2 g2] eqn:Ed.
  intros [= <- <- <-]. eapply fence_drop_fates; [|exact Ef|exact Ed]. intros e' _. by apply lost_removed.
Qed.

Lemma remove_end_fates y i sh cfg k c call call' sh' g' :
  Inv y → y_shards y !! i = Some sh → shard_of k y = i → (∃ c', c = Some c' ∧ c' ∈ gl_fenced (y_gl y)) →
  remove_end_section k c sh (y_gl y) = Some (call', sh', g') → fates cfg call sh sh'.
Proof.
  intros Hinv Hi Hk (c' & -> & Hc'). unfold remove_end_section.
  destruct (sh_index sh !! k) as [e|] eqn:He; [|intros [= <- <- <-]; by apply fates_same].
  case_decide as Hc; [|intros [= <- <- <-]; by apply fates_same].
  assert (Hp : en_remove_pending e = true).
  { eapply (hs_fence_entry _ (iv_hist _ Hinv) c' k e); [done| |done]. by rewrite (here_index y i sh). }
  rewrite Hp. destruct (_ && _); [|intros [= <- <- <-]; by apply fates_same].
  destruct (DropLocked _ _ _) as [sh2 g2] eqn:Ed. intros [= <- <- <-]. intros k' e' He'.
  eapply drop_fate; [exact Ed| |done]. intros ->. apply lost_pending. congruence.
Qed.

(** ** The flush loop *)

Lemma dequeue_fate P k n q : ∀ e index rest index' batch items,
  dequeue n q index = (rest, index', batch, items) → index !! k = Some e → fate P e (index' !! k).
Proof.
  revert n. induction q as [|q0 q IH]; intros n e index rest index' batch items; cbn [dequeue].
  { intros [= <- <- <- <-]. by apply fate_refl. }
  destruct n as [|n]; [intros [= <- <- <- <-]; by apply fate_refl|].
  destruct (index !! q_key q0) as [e0|] eqn:E0; [|apply IH].
  destruct (en_durable e0 || en_remove_pending e0); [apply IH|].
  destruct (dequeue n q _) as [[[rest1 index1] batch1] items1] eqn:E. intros [= <- <- <- <-] He.
  destruct (decide (k = q_key q0)) as [->|Hk].
  - assert (e0 = e) as -> by congruence. eapply IH in E; [|apply lookup_insert_eq].
    eapply fate_trans; [|exact E]. by split.
  - eapply IH in E; [exact E|]. by rewrite lookup_insert_ne.
Qed.

Lemma dequeue_fates cfg call i sh g call' sh' g' :
  dequeue_section i sh g = Some (call', sh', g') → fates cfg call sh sh'.
Proof.
  unfold dequeue_section. destruct (sh_flushq sh) as [|q0 q].
  - case_match; [intros [= <- <- <-]; by apply fates_same|done].
  - destruct (dequeue _ _ _) as [[[rest index] batch] items] eqn:E. intros [= <- <- <-] k e He. by eapply dequeue_fate.
Qed.

(** One completion touches the entry of its own key; it takes it out when the
    removal waited for it or the retries are used up. *)
Lemma drop_other k k' sh g : k' ≠ k → sh_index (DropLocked k sh g).1 !! k' = sh_index sh !! k'.
Proof.
  intros Hk. unfold DropLocked. destruct (sh_index sh !! k) as [e|]; [|done]. destruct (_ || _); cbn.
  - by rewrite lookup_alter_ne.
  - rewrite lookup_delete_ne by done. by destruct (in_arena e).
Qed.

Lemma drop_flush_pin_other k k' e sh : k' ≠ k → sh_index (drop_flush_pin k e sh) !! k' = sh_index sh !! k'.
Proof.
  intros Hk. unfold drop_flush_pin, unpin_entry. destruct (en_flush_pin e); [|done]. cbn.
  rewrite lookup_alter_ne by done. by destruct (in_arena e).
Qed.

Lemma complete_item_other cfg q ok sh g sh' g' k :
  complete_item cfg q ok (sh, g) = (sh', g') → k ≠ q_key q → sh_index sh' !! k = sh_index sh !! k.
Proof.
  intros E Hk. apply (f_equal (λ p, sh_index p.1 !! k)) in E. cbn [fst] in E. rewrite <- E. clear E.
  unfold complete_item. destruct (sh_index sh !! q_key q) as [e|]; [|done].
  assert (Hu : ∀ f (s : Shard A), sh_index (upd_entry (q_key q) f s) !! k = sh_index s !! k)
    by (intros f s; cbn; by rewrite lookup_alter_ne).
  destruct (en_remove_pending e); [destruct (_ =? _)|destruct ok; [|destruct (_ <? _)]].
  - by rewrite drop_other, drop_flush_pin_other, Hu.
  - cbn [fst]. by rewrite drop_flush_pin_other, Hu.
  - cbn [fst]. by rewrite drop_flush_pin_other, !Hu.
  - cbn. by rewrite lookup_alter_ne.
  - match goal with |- context [DropLocked ?k0 ?s ?g0] => pose proof (drop_other k0 k s g0 Hk) as Hd end.
    destruct (DropLocked _ _ _) as [sh2 g2]. cbn [fst] in *. by rewrite Hd, drop_flush_pin_other, Hu.
Qed.

Lemma complete_item_fate (cfg : Config) q ok sh g sh' g' e :
  complete_item cfg q ok (sh, g) = (sh', g') → sh_index sh !! q_key q = Some e →
  fate (en_remove_pending e = true ∨ ok = false ∧ op_flush_retries (cf_opt cfg) <= q_tries q + 1) e
    (sh_index sh' !! q_key q).
Proof.
  intros E He. unfold complete_item in E. rewrite He in E.
  assert (Hu : ∀ f s e1, carried e1 (f e1) → sh_index s !! q_key q = Some e1 →
    sh_index (upd_entry (q_key q) f s : Shard A) !! q_key q = Some (f e1)).
  { intros f s e1 _ Hx1. cbn. by rewrite lookup_alter_eq, Hx1. }
  assert (Hx1 := Hu (set_en_flushing (λ _, false)) sh e ltac:(by split) He).
  assert (C1 : carried e (set_en_flushing (λ _, false) e)) by (by split).
  set (P := en_remove_pending e = true ∨ _).
  assert (Hp : ∀ s e1, sh_index s !! q_key q = Some e1 → carried e e1 →
    ∃ e2, sh_index (drop_flush_pin (q_key q) e s : Shard A) !! q_key q = Some e2 ∧ carried e e2).
  { intros s e1 Hs Hc. pose proof (drop_flush_pin_fate False (q_key q) (q_key q) e s e1 Hs) as Hd.
    destruct (sh_index (drop_flush_pin _ _ _) !! _) as [e2|]; [|done]. exists e2. split; [done|by etrans]. }
  destruct (en_remove_pending e) eqn:Hr; [|destruct ok; [|destruct (Z.ltb_spec (q_tries q + 1) (op_flush_retries (cf_opt cfg))) as [Hlt|Hle]]].
  - destruct (Hp _ _ Hx1 C1) as (e2 & Hx2 & C2).
    destruct (_ =? _); [|injection E as <- <-; by rewrite Hx2]. eapply fate_trans; [exact C2|].
    eapply drop_fate; [exact E| |exact Hx2]. by left.
  - injection E as <- <-. destruct (Hp _ _ (Hu (set_en_durable (λ _, true)) _ _ ltac:(by split) Hx1)) as (e2 & -> & C2);
      [by split|done].
  - injection E as <- <-. cbn. by rewrite lookup_alter_eq, He.
  - destruct (Hp _ _ Hx1 C1) as (e2 & Hx2 & C2). destruct (DropLocked _ _ _) as [sh2 g2] eqn:Ed.
    injection E as <- <-. eapply fate_trans; [exact C2|]. eapply drop_fate; [exact Ed| |exact Hx2]. intros _. by right.
Qed.

Lemma complete_items_fate (cfg : Config) batch : ∀ ok sh g sh' g' k e,
  NoDup (q_key <$> batch) → length ok = length batch →
  complete_items cfg batch ok (sh, g) = (sh', g') → sh_index sh !! k = Some e →
  fate (en_remove_pending e = true ∨
        ∃ j q, batch !! j = Some q ∧ q_key q = k ∧ ok !! j = Some false ∧ op_flush_retries (cf_opt cfg) <= q_tries q + 1)
    e (sh_index sh' !! k).
Proof.
  induction batch as [|q batch IH]; intros ok sh g sh' g' k e Hnd Hlen; cbn [complete_items].
  { intros [= <- <-]. apply fate_refl. }
  destruct ok as [|b ok]; [done|]. cbn [fmap list_fmap length] in *. apply NoDup_cons in Hnd as [Hq Hnd].
  intros E He. change (complete_items cfg batch ok (complete_item cfg q b (sh, g)) = (sh', g')) in E.
  destruct (complete_item cfg q b (sh, g)) as [sh1 g1] eqn:E1.
  destruct (decide (k = q_key q)) as [->|Hk].
  - assert (Hrest : sh_index sh' !! q_key q = sh_index sh1 !! q_key q).
    { clear IH E1 He Hlen. revert ok sh1 g1 E. induction batch as [|q1 batch IHb]; intros ok sh1 g1 E; cbn [complete_items] in E; [by injection E as <- <-|].
      destruct (complete_item cfg q1 _ (sh1, g1)) as [sh2 g2] eqn:E2. cbn in Hq, Hnd.
      apply not_elem_of_cons in Hq as [Hq1 Hq]. apply NoDup_cons in Hnd as [_ Hnd].
      rewrite (IHb Hq Hnd _ _ _ E). by apply (complete_item_other _ _ _ _ _ _ _ _ E2). }
    rewrite Hrest. pose proof (complete_item_fate _ _ _ _ _ _ _ _ E1 He) as Hf.
    destruct (sh_index sh1 !! q_key q); cbn in *; [done|]. destruct Hf as [?|[-> ?]]; [by left|right].
    exists 0%nat, q. done.
  - pose proof (complete_item_other _ _ _ _ _ _ _ _ E1 Hk) as Ho. rewrite <- Ho in He.
    pose proof (IH ok sh1 g1 sh' g' k e Hnd ltac:(lia) E He) as Hf. destruct (sh_index sh' !! k); cbn in *; [done|].
    destruct Hf as [?|(j & q' & ? & ? & ? & ?)]; [by left|right]. exists (S j), q'. done.
Qed.

(** ** Steps *)

Lemma section_fate id i held f y y' call k e :
  section id i held f y = Some y' → index_at y k = Some e →
  (∀ sh call' sh' g', y_shards y !! i = Some sh → sh_mu sh = (if held then Some id else None) →
     f sh (y_gl y) = Some (call', sh', g') → fates (y_cfg y) call sh sh') →
  fate (lost (y_cfg y) call k e) e (index_at y' k).
Proof.
  intros (sh & call' & sh' & g' & Hi & Hmu & E & ->)%section_Some He Hf. eapply fates_after; [done| |done]. by eapply Hf.
Qed.

Lemma lock_free_fate id call' f y y' P k e :
  lock_free id call' f y = Some y' → index_at y k = Some e → fate P e (index_at y' k).
Proof. intros [= <-] He. by apply fate_refl. Qed.

Lemma start_fate id r inp y y' call k e :
  Inv y → 0 <= rq_len r → start_step (y_cfg y) id r inp y = Some y' → index_at y k = Some e →
  fate (lost (y_cfg y) call k e) e (index_at y' k).
Proof.
  intros Hinv Hlen E He. unfold start_step in E.
  assert (Hl : ∀ cap, section id (shard_of (rq_key r) y) false (durable_large_section r cap) y = Some y' →
    fate (lost (y_cfg y) call k e) e (index_at y' k)).
  { intros cap E'. eapply section_fate; [exact E'|done|]. intros sh call' sh' g' _ _. unfold durable_large_section, new_shared.
    repeat case_match; intros [= <- <- <-]; apply fates_same; unfold emplace_writing; by repeat case_match. }
  destruct (rq_op r) as [kind| |].
  - destruct (_ || _); [destruct (finish_put _ _ _ _ _ _); by eapply lock_free_fate|].
    eapply section_fate; [exact E|done|]. intros sh call' sh' g' Hi Hmu E'. by eapply admit_fates.
  - repeat (case_match; try done); first [by eapply lock_free_fate|by eapply Hl].
  - repeat (case_match; try done); first [by eapply lock_free_fate|by eapply Hl].
Qed.

Lemma reclaim_iter_fates cfg call cf r c cap a i rest sh g call' sh' g' :
  reclaim_iter cf r c cap a i rest sh g = Some (call', sh', g') → fates cfg call sh sh'.
Proof.
  unfold reclaim_iter. destruct rest as [|k0 rest]; [intros [= <- <- <-]; by apply fates_same|].
  destruct (sh_index sh !! k0) as [e0|] eqn:He0; [|intros [= <- <- <-]; by apply fates_same].
  destruct (negb (in_arena e0) && en_durable e0 && (en_send_pins e0 =? 0) && negb (en_remove_pending e0)) eqn:Hb;
    [|intros [= <- <- <-]; by apply fates_same].
  apply andb_true_iff in Hb as [[[_ Hd]%andb_true_iff _]%andb_true_iff _].
  cbn [erase_entry]. intros E k e He.
  assert (sh_index sh' = delete k0 (sh_index sh)) as -> by (destruct (has_room _ _ _); by injection E as <- <- <-).
  destruct (decide (k = k0)) as [->|Hk]; [|rewrite lookup_delete_ne by done; by apply fate_refl].
  rewrite lookup_delete_eq. apply lost_durable. congruence.
Qed.

Lemma call_step_fate id inp y call y' k e :
  Inv y → y_calls y !! id = Some call → call_step id inp y call = Some y' → index_at y k = Some e →
  fate (lost (y_cfg y) call k e) e (index_at y' k).
Proof.
  intros Hinv Hcall E He. pose proof (ow_ok _ (iv_own _ Hinv) (OCall id) _ Hcall) as Hok.
  assert (Hlen : ∀ r, req_ok r = true → 0 <= rq_len r).
  { intros r. unfold req_ok. intros [[?%Z.leb_le _]%andb_true_iff _]%andb_true_iff. done. }
  destruct call; cbn [call_step call_ok] in *; try done.
  - eapply start_fate; [done| |done|done]. auto.
  - case_match; by eapply lock_free_fate.
  - case_match; by eapply lock_free_fate.
  - by eapply lock_free_fate.
  - destruct pc.
    + unfold reclaim_check in E. destruct (_ || _ || _); [by eapply lock_free_fate|]. eapply section_fate; [exact E|done|].
      intros sh call' sh' g' _ _. cbn beta. case_decide; [|done]. intros [= <- <- <-]. by apply fates_same.
    + eapply section_fate; [exact E|done|]. intros sh call' sh' g' _ _. apply reclaim_iter_fates.
  - repeat (case_match; try done); by eapply lock_free_fate.
  - eapply section_fate; [exact E|done|]. intros sh call' sh' g' Hi Hmu. destruct Hok as [[(Hr & _) _] _].
    intros E'. eapply arena_fates; eauto.
  - eapply section_fate; [exact E|done|]. intros sh call' sh' g' _ _. unfold reserve_section, TryReserve.
    destruct (_ || _); intros [= <- <- <-]; apply fates_same; [done|].
    destruct (rq_op r); try done; cbn; unfold emplace_writing; by case_match.
  - eapply section_fate; [exact E|done|]. intros sh call' sh' g' _ _. unfold fail_section, erase_writing_of.
    destruct (rq_op r); intros [= <- <- <-]; apply fates_same; [by case_decide|done..].
  - repeat (case_match; try done); by eapply lock_free_fate.
  - apply bind_Some in E as (g1 & _ & E). by eapply lock_free_fate.
  - eapply section_fate; [exact E|done|]. intros sh call' sh' g' _ _. apply install_fates.
  - repeat (case_match; try done); by eapply lock_free_fate.
  - destruct c as [c|]; [|by eapply lock_free_fate]. apply bind_Some in E as (p & _ & E).
    case_match; [by eapply lock_free_fate|done].
  - by eapply lock_free_fate.
  - eapply section_fate; [exact E|done|]. intros sh call' sh' g' _ _. apply remove_fates.
  - destruct c as [c|]; [|by eapply lock_free_fate]. apply bind_Some in E as (p & _ & E).
    case_match; [by eapply lock_free_fate|done].
  - eapply section_fate; [exact E|done|]. intros sh call' sh' g' Hi _. destruct Hok as (c' & -> & Hf & _).
    intros E'. eapply remove_end_fates; eauto.
  - eapply section_fate; [exact E|done|]. intros sh call' sh' g' _ _. apply dequeue_fates.
  - destruct (Nat.eqb_spec (length ok) (length batch)) as [Hl|Hl].
    + eapply section_fate; [exact E|done|]. intros sh call' sh' g' _ _. unfold complete_section.
      destruct (complete_items _ _ _ _) as [sh1 g1] eqn:Ec. intros [= <- <- <-] k' e' He'.
      destruct Hok as (_ & _ & _ & Hnd & _). cbn.
      pose proof (complete_items_fate _ _ _ _ _ _ _ _ _ Hnd Hl Ec He') as Hf.
      destruct (sh_index sh1 !! k'); cbn in *; [done|].
      destruct Hf as [?|(j & q & ? & ? & ? & ?)]; [by apply lost_pending|by eapply lost_refused].
    + apply bind_Some in E as ([cl g1] & _ & E). by eapply lock_free_fate.
  - apply bind_Some in E as (sh & Hi & [= <-]). eapply (fates_after y _ sh); [done|by apply fates_same|done].
  - unfold tick_grow in E. case_match; [by eapply lock_free_fate|]. destruct need as [need|].
    + case_match; [by eapply lock_free_fate|]. case_match; [by eapply lock_free_fate|].
      eapply section_fate; [exact E|done|]. intros sh call' sh' g' Hi Hmu E'. by eapply steal_fates.
    + apply bind_Some in E as (sh & _ & E). by eapply lock_free_fate.
  - eapply section_fate; [exact E|done|]. intros sh call' sh' g' _ _ [= <- <- <-]. by apply fates_same.
  - unfold tick_reclaim in E. case_match; [by eapply lock_free_fate|]. destruct budget as [[t b]|]; [|by eapply lock_free_fate].
    eapply section_fate; [exact E|done|]. intros sh call' sh' g' Hi Hmu E'. by eapply reclaim_fates.
Qed.

(** Why an action may take [e] out of the index. *)
Definition loses (a : Action) y k (e : Entry) : Prop :=
  en_durable e = true ∨ en_remove_pending e = true ∨
  ∃ id inp call, a = AStep id inp ∧ y_calls y !! id = Some call ∧ lost (y_cfg y) call k e.

(** [DropLocked] comes after the last pin of an entry that is being removed. *)
Lemma fate_plain (cfg : Config) (P : Prop) k e o :
  fate (lost cfg (CStopped 0) k e) e o → (en_durable e = true ∨ en_remove_pending e = true → P) → fate P e o.
Proof. destruct o; [done|]. cbn [fate]. intros Hl HP. by destruct Hl; auto. Qed.

Lemma get_fates cfg call cf k off n b sh g : fates cfg call sh (get_section cf k off n b sh g).1.2.
Proof.
  unfold get_section. destruct (sh_index sh !! k) as [e0|]; [|by apply fates_same].
  destruct (en_remove_pending e0); [by apply fates_same|]. destruct (_ <? off); [by apply fates_same|].
  assert (Hs : ∀ (ok : bool) s, sh_index s = sh_index sh → fates cfg call sh
    (if negb ok then (None : option Hit, s, g)
     else (Some (mkHit (ptr_add (entry_data e0) off) (Z.min (if n =? 0 then en_len e0 - off else n) (en_len e0 - off))
                  (en_len e0) (if in_arena e0 then gl_arena_mr g else None) (in_arena e0) (en_node e0)),
           upd_entry k (set_en_send_pins (λ n, u32 (n + 1))) s, if b then bump MHits 1 g else g)).1.2).
  { intros ok s Hx. destruct ok; cbn; [|by apply fates_same]. intros k' e' He'.
    apply fate_alter; [by split|]. by rewrite Hx. }
  destruct (in_arena e0) eqn:Ha; [|by apply (Hs true)].
  destruct (sp_pin k (en_slot_handle e0) (sh_alloc sh)) as [ok a]. by apply (Hs ok).
Qed.

Lemma step_fate a y y' k e :
  Inv y → step a y = Some y' → index_at y k = Some e → fate (loses a y k e) e (index_at y' k).
Proof.
  intros Hinv E He.
  assert (Hp : ∀ o, fate (lost (y_cfg y) (CStopped 0) k e) e o → fate (loses a y k e) e o).
  { intros o Ho. eapply fate_plain; [exact Ho|]. unfold loses. tauto. }
  destruct a; cbn [step] in E.
  1-4: try case_match; try done; unfold new_call in E; case_decide; [|done]; injection E as <-; by apply fate_refl.
  - apply bind_Some in E as (call & Hcall & E). pose proof (call_step_fate _ _ _ _ _ _ _ Hinv Hcall E He) as Hf.
    destruct (index_at y' k); cbn in *; [done|]. right; right. eauto 10.
  - destruct (y_calls y !! id) as [call|]; [|done]. destruct call; try done. case_decide; [|done].
    apply bind_Some in E as (g1 & _ & [= <-]). by apply fate_refl.
  - destruct (y_calls y !! id) as [call|]; [|done]. destruct call; try done. apply Hp.
    eapply section_fate; [exact E|done|]. intros sh call' sh' g' _ _. apply commit_fates.
  - destruct (y_calls y !! id) as [call|]; [|done]. destruct call; try done; apply Hp;
      (eapply section_fate; [exact E|done|]; intros sh call' sh' g' Hi _).
    + intros [= <- <- <-]. apply fates_same. unfold erase_writing_of. cbn. by case_decide.
    + unfold reset_kept_section. destruct installed; [|intros [= <- <- <-]; by apply fates_same].
      destruct (sh_index sh !! rq_key r) as [e0|] eqn:He0; [|intros [= <- <- <-]; by apply fates_same].
      destruct (negb _); [|intros [= <- <- <-]; by apply fates_same]. rewrite <- andb_assoc.
      destruct (if en_remove_pending e0 && _ then _ else _) as [sh1 g1] eqn:Eu.
      intros [= <- <- <-]. eapply unpin_fates; [exact He0| |exact Eu]. done.
  - apply bind_Some in E as (sh & Hi & E). case_decide; [|done].
    pose proof (get_fates (y_cfg y) (CStopped 0) (y_cfg y) key offset length count_access sh (y_gl y)) as Hf.
    destruct (get_section _ _ _ _ _ _ _) as [[out sh'] g']. injection E as <-. apply Hp. by eapply fates_after.
  - apply bind_Some in E as (sh & _ & E). case_decide; [|done]. injection E as <-. by apply fate_refl.
  - apply bind_Some in E as (hit & _ & ([shards g'] & Er & [= <-])%bind_Some). unfold release_step in Er.
    apply bind_Some in Er as (k0 & _ & (sh & Hi & (e0 & He0 & Er)%bind_Some)%bind_Some). case_decide; [|done].
    destruct (release_section k0 e0 sh (y_gl y)) as [sh' g1] eqn:Es. injection Er as <- <-. apply Hp.
    apply (fates_after y _ sh sh' g1 (y_calls y) (delete h (y_hits y))); [done| |done].
    unfold release_section in Es. destruct (en_send_pins e0 =? 0); [injection Es as <- <-; by apply fates_same|].
    rewrite <- andb_assoc in Es. assert (en_key e0 = k0) as Hk0.
    { apply (ow_ok _ (iv_own _ Hinv) (OEntry k0)). by rewrite (here_index y (shard_of k0 y) sh). }
    rewrite Hk0 in Es. eapply unpin_fates; [exact He0| |exact Es]. unfold unpin_entry. by destruct (in_arena e0).
  - apply bind_Some in E as (sh & Hi & E). case_decide; [|done]. injection E as <-. apply Hp.
    apply (fates_after y _ sh _ _ (y_calls y) (y_hits y)); [done|by apply fates_same|done].
  - injection E as <-. by apply fate_refl.
  - repeat case_match; try done; injection E as <-; by apply fate_refl.
Qed.

End fates.
