(* ===== verification/RamProps.v ===== *)
(** * RAM tier: what its clients rely on

    The guarantees of [RamTier] (src/cache/ram_tier.cc) in every state its calls,
    its flush workers, its reclaim thread and the transport can reach: the bytes
    of a hit, what an acknowledgement means, where unflushed values are, who may
    write where, what a removal ends, and that mutexes are given back. *)

From stdpp Require Import strings.
From S2P Require Import Prelude KvTypes KeyIndex SlabTypes SlabLattice SlabOps SlotPool.
From S2P Require Import RamTypes RamOps RamGeom RamInv RamFrame RamShard RamEvict.
From S2P Require Import RamMem RamPin RamRead RamCopy RamStep RamInit RamTrace RamFate.

(** ** Reachable states *)

Section reach.
Context {A : Type} `{SlotPoolOps A}.
Notation Sys := (Sys A).

(** The tier after construction and a sequence of actions, none of which reads a
    value with [2 ^ 32 - 2] hits outstanding. *)
Definition tier_run opt env (fl fb : bool) (acts : list Action) : option Sys :=
  new_tier opt env fl fb ≫= run_actions tier_step acts.

Definition reachable (y : Sys) : Prop :=
  ∃ opt env fl fb acts, ram_sane opt env ∧ tier_run opt env fl fb acts = Some y.

End reach.

Section props.
Context {A : Type} `{SlotPoolLaws A}.
Notation Sys := (Sys A).
Implicit Types (y : Sys) (k : BlockKey).

Lemma reachable_inv y : reachable y → Inv y.
Proof.
  intros (opt & env & fl & fb & acts & Hs & (y0 & H0' & Hr)%bind_Some).
  apply (run_inv acts y0); [|done]. by eapply new_tier_inv.
Qed.

Lemma entry_of y k e : Inv y → index_at y k = Some e → entry_ok y k e.
Proof. intros Hinv He. by apply (ow_ok _ (iv_own _ Hinv) (OEntry k)). Qed.

Lemma call_of y id call : Inv y → y_calls y !! id = Some call → call_ok y id call.
Proof. intros Hinv Hc. by apply (ow_ok _ (iv_own _ Hinv) (OCall id)). Qed.

(** ** Hits *)

(** Part of what a pointer reads. *)
Lemma load_part cfg p n bytes g off len :
  load cfg p n g = Some bytes → 0 <= off → (Z.to_nat off + len <= n)%nat →
  load cfg (ptr_add p off) len g = Some (take len (drop (Z.to_nat off) bytes)).
Proof.
  intros E Ho Hl. destruct p as [a|b a]; cbn [load ptr_add] in *.
  - destruct (Z.leb_spec 0 a), (Z.leb_spec (a + Z.of_nat n) (cf_arena_bytes cfg)); cbn [andb] in E; try done.
    injection E as <-. destruct (Z.leb_spec 0 (a + off)), (Z.leb_spec (a + off + Z.of_nat len) (cf_arena_bytes cfg));
      cbn [andb]; try lia. f_equal. unfold read_bytes. apply list_eq. intros i.
    rewrite list_lookup_fmap. destruct (decide (i < len)%nat) as [Hi|Hi].
    + rewrite lookup_take_lt, lookup_drop, list_lookup_fmap, !lookup_seq_lt by lia. cbn. do 2 f_equal. lia.
    + rewrite lookup_seq_ge by lia. rewrite lookup_take_ge by lia. done.
  - destruct (gl_heap g !! b) as [buf|]; [|done]. cbn [mbind option_bind] in *.
    destruct (Z.leb_spec 0 a), (Z.leb_spec (a + Z.of_nat n) (Z.of_nat (length buf))); cbn [andb] in E; try done.
    injection E as <-. destruct (Z.leb_spec 0 (a + off)), (Z.leb_spec (a + off + Z.of_nat len) (Z.of_nat (length buf)));
      cbn [andb]; try lia. f_equal. apply list_eq. intros i. destruct (decide (i < len)%nat) as [Hi|Hi].
    + rewrite !lookup_take_lt, !lookup_drop by lia. rewrite lookup_take_lt, lookup_drop by lia. f_equal. lia.
    + by rewrite !lookup_take_ge by lia.
Qed.

(** The slice of a publication a hit is about. *)
Definition reads (hit : Hit) (pb : Publication) (bytes : list Z) : Prop :=
  ht_value_len hit = Z.of_nat (length (pb_bytes pb)) ∧
  ∃ off, bytes = take (Z.to_nat (ht_len hit)) (drop off (pb_bytes pb)) ∧
    (off + Z.to_nat (ht_len hit) <= length (pb_bytes pb))%nat ∧ 0 <= ht_len hit.

Lemma hit_reads y h hit :
  Inv y → y_hits y !! h = Some hit →
  ∃ k e pb off, index_at y k = Some e ∧ en_node e = ht_token hit ∧
    gl_nodes (y_gl y) !! ht_token hit = Some k ∧ gl_pub (y_gl y) !! ht_token hit = Some pb ∧
    ht_ptr hit = ptr_add (entry_data e) off ∧ 0 <= off ∧ 0 <= ht_len hit ∧
    ht_value_len hit = Z.of_nat (length (pb_bytes pb)) ∧ off + ht_len hit <= ht_value_len hit ∧
    load (y_cfg y) (ht_ptr hit) (Z.to_nat (ht_len hit)) (y_gl y)
      = Some (take (Z.to_nat (ht_len hit)) (drop (Z.to_nat off) (pb_bytes pb))).
Proof.
  intros Hinv Hh. destruct (pn_hit _ (iv_pins _ Hinv) _ _ Hh) as (k & e & He & Ht & Hv & _ & off & Hp & Ho & Hl & Hle).
  destruct (entry_of _ _ _ Hinv He) as [_ _ _ Hlen (c & bytes & dur & _ & _ & _ & Hpub & Hb & Hload) Hn _ _].
  exists k, e, (mkPublication k bytes c dur), off. rewrite Ht, Hv, Hp. split_and!; try done.
  cbn [pb_bytes]. eapply load_part; [exact Hload|done|lia].
Qed.

(** The entry a hit points into is there as long as the hit. *)
Lemma step_hit_entry a y y' h hit k e :
  Inv y → tier_step a y = Some y' → y_hits y !! h = Some hit → a ≠ ARelease h →
  index_at y k = Some e → en_node e = ht_token hit →
  ∃ e', index_at y' k = Some e' ∧ carried e e'.
Proof.
  intros Hinv [Hroom E]%tier_step_Some Hh Ha He Hn. pose proof (step_inv _ _ _ Hinv Hroom E) as Hinv'.
  destruct (pn_hit _ (iv_pins _ Hinv') _ _ (step_hit _ _ _ _ _ E Hh Ha)) as (k' & e' & He' & Ht & _).
  destruct (entry_of _ _ _ Hinv He) as [_ _ _ _ (c & bs & d & _ & _ & _ & Hp & _) _ _ _].
  destruct (entry_of _ _ _ Hinv' He') as [_ _ _ _ (c' & bs' & d' & _ & _ & _ & Hp' & _) _ _ _].
  rewrite Hn in Hp.
  pose proof (lookup_weaken _ _ _ _ Hp (step_pub _ _ _ (iv_ids _ Hinv) E)) as Hp1.
  rewrite Ht, Hp' in Hp1. injection Hp1 as -> _ _ _. exists e'. split; [done|].
  pose proof (step_fate _ _ _ _ _ Hinv E He) as Hf. by rewrite He' in Hf.
Qed.

Lemma run_hit acts : ∀ y y' h hit k e,
  Inv y → run_actions tier_step acts y = Some y' → y_hits y !! h = Some hit → ARelease h ∉ acts →
  index_at y k = Some e → en_node e = ht_token hit →
  Inv y' ∧ y_hits y' !! h = Some hit ∧ gl_pub (y_gl y) ⊆ gl_pub (y_gl y') ∧
  ∃ e', index_at y' k = Some e' ∧ carried e e'.
Proof.
  induction acts as [|a acts IH]; intros y y' h hit k e Hinv; cbn [run_actions].
  { intros [= <-] ? _ ? ?. split_and!; try done. by exists e. }
  intros (y1 & E1 & E2)%bind_Some Hh [Hne Hni]%not_elem_of_cons He Hn.
  destruct (step_hit_entry a y y1 h hit k e) as (e1 & He1 & Hc); try done.
  apply tier_step_Some in E1 as [Hroom E1].
  destruct (IH y1 y' h hit k e1) as (Hinv' & H1 & H2 & e' & He' & Hc'); try done.
  - by eapply step_inv.
  - by eapply step_hit.
  - by rewrite (ca_node _ _ Hc).
  - split_and!; [done|done|etrans; [exact (step_pub _ _ _ (iv_ids _ Hinv) E1)|done]|]. exists e'. split; [done|by etrans].
Qed.

(** C11. From [GetPrep] to [ReleaseToken] a hit reads the same bytes, whatever
    puts, evictions, flushes and removals run in between (no value ever having
    [2 ^ 32 - 2] hits outstanding, at which its pin count would wrap): they are a
    part of the value published under its token, for the key its node stands
    for. *)
Theorem hit_bytes_stable y h hit acts y' :
  reachable y → y_hits y !! h = Some hit → run_actions tier_step acts y = Some y' → ARelease h ∉ acts →
  ∃ k pb off,
    gl_pub (y_gl y) !! ht_token hit = Some pb ∧ pb_key pb = k ∧
    gl_nodes (y_gl y') !! ht_token hit = Some k ∧ y_hits y' !! h = Some hit ∧
    ht_value_len hit = Z.of_nat (length (pb_bytes pb)) ∧ 0 <= off ∧ 0 <= ht_len hit ∧
    off + ht_len hit <= ht_value_len hit ∧
    let bytes := take (Z.to_nat (ht_len hit)) (drop (Z.to_nat off) (pb_bytes pb)) in
    load (y_cfg y) (ht_ptr hit) (Z.to_nat (ht_len hit)) (y_gl y) = Some bytes ∧
    load (y_cfg y') (ht_ptr hit) (Z.to_nat (ht_len hit)) (y_gl y') = Some bytes.
Proof.
  intros Hinv%reachable_inv Hh Hr Hni.
  destruct (hit_reads _ _ _ Hinv Hh) as (k & e & pb & off & He & Hn & Hnd & Hpub & Hptr & Ho & Hl & Hv & Hle & Hload).
  destruct (run_hit _ _ _ _ _ _ _ Hinv Hr Hh Hni He Hn) as (Hinv' & Hh' & Hsub & e' & He' & Hc).
  destruct (entry_of _ _ _ Hinv' He') as [_ _ _ _ (c & bytes & d & _ & _ & _ & Hpub' & Hb & Hload') Hnd' _ _].
  rewrite (ca_node _ _ Hc), Hn in *. pose proof (lookup_weaken _ _ _ _ Hpub Hsub) as Hp1.
  rewrite Hpub' in Hp1. injection Hp1 as <-. exists k, (mkPublication k bytes c d), off. split_and!; try done.
  split; [done|]. rewrite Hptr, <- (ca_data _ _ Hc). cbn [pb_bytes] in *. eapply load_part; [exact Hload'|done|lia].
Qed.

(** ** Acknowledgements *)

(** The sink has taken the published bytes, or no sink is wired. *)
Definition on_disk (cfg : Config) (g : Globals) (pb : Publication) : Prop :=
  mkSinkCall (pb_key pb) (pb_bytes pb) true ∈ gl_sunk g ∨ cf_flush cfg = false ∧ cf_flush_batch cfg = false.

(** C12. What a successful answer of [PutCommitted], and of [PutWriteBack] without
    a write-back watermark, vouches for.  A call that was admitted has published
    the caller's bytes, and the flush sink has taken exactly these (or no sink is
    wired).  A call that joined another value of the key: the sink has taken
    exactly that value's bytes, or the value was promoted from the disk.  Any other
    call that succeeds was told by [is_persisted] that the key is on the disk. *)
Theorem ack_means_durable y id r kind adm c d :
  reachable y → y_calls y !! id = Some (CRet r (Some adm) c (RPut kOk d)) → rq_op r = OpPut kind →
  kind = KCommitted ∨ kind = KWriteBack ∧ synchronous (y_cfg y) = true →
  match adm with
  | kAccepted => ∃ n pb, gl_pub (y_gl y) !! n = Some pb ∧ pb_key pb = rq_key r ∧ c = Some (pb_completion pb) ∧
      rq_data r = Some (pb_bytes pb) ∧ on_disk (y_cfg y) (y_gl y) pb
  | kDuplicate => ∃ n pb, gl_pub (y_gl y) !! n = Some pb ∧ pb_key pb = rq_key r ∧ c = Some (pb_completion pb) ∧
      (pb_durable pb = true ∨ on_disk (y_cfg y) (y_gl y) pb)
  | _ => adm = kPersisted ∧ c = None ∧ mkPersistedCall (rq_key r) true ∈ gl_sunk (y_gl y)
  end.
Proof.
  intros Hinv%reachable_inv Hc Hop Hk. pose proof (call_of _ _ _ Hinv Hc) as Hr. cbn [call_ok] in Hr.
  unfold ret_ok in Hr. rewrite Hop in Hr.
  assert (Ha : ack_ok (y_cfg y) (y_gl y) r adm c true) by (destruct Hk as [->|[-> Hs]]; [done|by rewrite Hs in Hr]).
  destruct adm; try done.
  destruct Ha as (n & pb & Hn & Hkey & -> & Hd & Hb & He). exists n, pb. split_and!; try done.
  destruct (He eq_refl) as [?|?]; [congruence|done].
Qed.

(** ** Unflushed values *)

(** C13. A published value that is not on the disk and is not being removed leaves
    the tier in two ways only: a [Remove] of its key takes it out, or the sink has
    refused it in the last of its flush attempts.  Every other step, evictions and
    reclaim included, carries it along with its bytes and its place. *)
Theorem unflushed_kept y a y' k e :
  reachable y → step a y = Some y' → index_at y k = Some e → en_durable e = false → en_remove_pending e = false →
  (∃ e', index_at y' k = Some e' ∧ en_node e' = en_node e ∧ entry_data e' = entry_data e ∧ en_len e' = en_len e) ∨
  (∃ id inp, a = AStep id inp ∧ y_calls y !! id = Some (CRemove k)) ∨
  (∃ id inp i batch items ok j q, a = AStep id inp ∧ y_calls y !! id = Some (CFlush i batch items ok) ∧
     batch !! j = Some q ∧ q_key q = k ∧ ok !! j = Some false ∧
     op_flush_retries (cf_opt (y_cfg y)) <= q_tries q + 1).
Proof.
  intros Hinv%reachable_inv E He Hd Hp. pose proof (step_fate _ _ _ _ _ Hinv E He) as Hf.
  destruct (index_at y' k) as [e'|]; cbn [fate] in Hf.
  - left. exists e'. by destruct Hf.
  - right. destruct Hf as [?|[?|(id & inp & call & -> & Hc & Hl)]]; [congruence..|].
    destruct Hl as [?|?| -> |i batch items ok j q -> ? ? ? ?]; [congruence..| |]; [left; eauto|right; eauto 15].
Qed.

(** C14. A published value that is not on the disk and is not being removed waits
    in its shard's flush queue exactly once, and in no batch; or it is in the batch
    of exactly one flush worker, and not in the queue. *)
Theorem unflushed_scheduled y k e :
  reachable y → index_at y k = Some e → en_durable e = false → en_remove_pending e = false →
  let in_batch id := ∃ i batch items ok q,
    y_calls y !! id = Some (CFlush i batch items ok) ∧ q ∈ batch ∧ q_key q = k in
  (length (queue_at y k) = 1%nat ∧ ∀ id, ¬ in_batch id) ∨
  (length (queue_at y k) = 0%nat ∧ ∃ id, in_batch id ∧ ∀ id', in_batch id' → id' = id).
Proof.
  intros Hinv%reachable_inv He Hd Hp in_batch.
  destruct (entry_of _ _ _ Hinv He) as [_ _ [F1 F2 F3 F4 F5] _ _ _ _ Hq].
  assert (Hfp : en_flush_pin e = true) by (destruct (en_flush_pin e); [done|by rewrite F3 in Hp]).
  assert (Hown : ∀ id, in_batch id ↔ ResFlush k ∈ owned y (OCall id)).
  { intros id. cbn. split.
    - intros (i & batch & items & ok & q & -> & Hin & <-). cbn. apply list_elem_of_fmap. by exists q.
    - destruct (y_calls y !! id) as [call|] eqn:Hc; [|by intros ?%elem_of_nil]. intros Hr.
      destruct call; unfold call_res, storage_res in Hr; res_in Hr; try done;
        try (destruct (lc_large l); done).
      apply list_elem_of_fmap in Hr as (q & [= ->] & Hin). unfold in_batch. eauto 10. }
  unfold queued in Hq. rewrite Hfp in Hq. destruct (en_flushing e) eqn:Hf; cbn in Hq; [right|left]; (split; [done|]).
  - destruct (ow_cover _ (iv_own _ Hinv) (ResFlush k) eq_refl) as ([id|k'] & Hr); [by exists e| |].
    + exists id. split; [by apply Hown|]. intros id' Hr'%Hown. by injection (ow_unique _ (iv_own _ Hinv) _ _ _ Hr' Hr).
    + cbn in Hr. destruct (index_at y k'); [|by apply elem_of_nil in Hr]. unfold entry_res in Hr. res_in Hr; done.
  - intros id (i & batch & items & ok & q & Hc & Hin & Hk).
    destruct (call_of _ _ _ Hinv Hc) as (_ & Hli & _ & _ & Hall). apply list_elem_of_lookup in Hin as [j Hj].
    destruct (items !! j) as [it|] eqn:Hit.
    + destruct (Hall _ _ _ Hj Hit) as (_ & e' & He' & Hf' & _). rewrite Hk, He in He'. congruence.
    + apply lookup_ge_None in Hit. apply lookup_lt_Some in Hj. lia.
Qed.

(** ** Memory *)

(** The memory an owner has: the capacity of a published value, and what an
    admission has reserved and may write. *)
Definition extent_of y (o : Owner) : option (Ptr * Z) :=
  match o with
  | OEntry k => e ← index_at y k; Some (entry_data e, en_cap e)
  | OCall id =>
      match y_calls y !! id with
      | Some (CCopy r l) | Some (CInstall r l) | Some (COpen r l) => Some (loc_ptr l, lc_cap l)
      | _ => None
      end
  end.

Definition inside (cfg : Config) (g : Globals) (p : Ptr) (n : Z) : Prop :=
  match p with
  | PArena off => 0 <= off ∧ off + n <= cf_arena_bytes cfg
  | PHeap b off => off = 0 ∧ ∃ buf, gl_heap g !! b = Some buf ∧ Z.of_nat (length buf) = n
  end.

Definition apart (p : Ptr) (n : Z) (p' : Ptr) (n' : Z) : Prop :=
  match p, p' with
  | PArena a, PArena a' => a + n <= a' ∨ a' + n' <= a
  | PHeap b _, PHeap b' _ => b ≠ b'
  | _, _ => True
  end.

Lemma extent_cell y o p n :
  Inv y → extent_of y o = Some (p, n) →
  ∃ k large off, p = cell_ptr large off ∧ cell y k large off n ∧ storage_res k large ∈ owned y o.
Proof.
  intros Hinv. destruct o as [id|k]; cbn [extent_of owned].
  - destruct (y_calls y !! id) as [call|] eqn:Hc; [|done]. pose proof (call_of _ _ _ Hinv Hc) as Hok.
    assert (Hl : ∀ r l, loc_cell y r l → (loc_ptr l, lc_cap l) = (p, n) →
      p = cell_ptr (lc_large l) (lc_offset l) ∧ cell y (rq_key r) (lc_large l) (lc_offset l) n).
    { intros r l [_ Hl] [= <- <-]. split; [done|]. unfold cell. destruct (lc_large l); destruct Hl; eauto 10. }
    destruct call; try done; intros [= E1 E2]; destruct Hok as (_ & _ & Hlc & _);
      destruct (Hl _ _ Hlc (f_equal2 pair E1 E2)) as [? ?]; do 3 eexists; (split_and!; [done|done|]); cbn; list_in.
  - destruct (index_at y k) as [e|] eqn:He; [|done]. intros [= <- <-].
    destruct (entry_of _ _ _ Hinv He) as [_ _ _ _ _ _ Hcell _]. exists k, (en_large e), (en_offset e).
    split_and!; [done| |unfold entry_res; list_in]. unfold cell. destruct (en_large e); eauto.
Qed.

(** C15. Whoever owns memory owns it alone: the capacity of a published value, and
    the slot or buffer an admission copies its payload into or a reservation is
    filled through, lies inside the arena or is a live buffer of that size, and no
    two of them overlap. *)
Theorem storage_private y o p n :
  reachable y → extent_of y o = Some (p, n) →
  inside (y_cfg y) (y_gl y) p n ∧
  ∀ o' p' n', extent_of y o' = Some (p', n') → o' ≠ o → apart p n p' n'.
Proof.
  intros Hinv%reachable_inv He. pose proof (iv_geo _ Hinv) as Hgeo. pose proof (iv_maps _ Hinv) as Hmaps.
  destruct (extent_cell _ _ _ _ Hinv He) as (k & large & off & -> & Hc & Hr). split.
  - destruct large as [b|]; cbn.
    + destruct Hc as (buf & ? & ?). eauto.
    + destruct Hc as (h & pins & pd & sh & ref & hd & Hat & Hsl & _ & -> & ->).
      pose proof (slot_bounds _ _ _ _ Hgeo Hmaps Hat Hsl) as Hb. cbn in Hb. lia.
  - intros o' p' n' He' Hne. destruct (extent_cell _ _ _ _ Hinv He') as (k' & large' & off' & -> & Hc' & Hr').
    destruct large as [b|], large' as [b'|]; cbn; try done.
    + intros <-. destruct Hne. by apply (ow_unique _ (iv_own _ Hinv) _ _ _ Hr' Hr).
    + destruct Hc as (h & pins & pd & sh & ref & hd & Hat & Hsl & _ & -> & ->).
      destruct Hc' as (h' & pins' & pd' & sh' & ref' & hd' & Hat' & Hsl' & _ & -> & ->).
      assert (Hk : k ≠ k') by (intros <-; destruct Hne; by apply (ow_unique _ (iv_own _ Hinv) _ _ _ Hr' Hr)).
      pose proof (slots_apart _ _ _ _ _ _ _ Hgeo Hmaps Hk Hat Hsl Hat' Hsl') as Hb. cbn in Hb. lia.
Qed.

(** ** Accounts *)

Lemma budget_nonneg y id call :
  Inv y → y_calls y !! id = Some call → 0 <= budget_w id call ∧ 0 <= reserve_w id call.
Proof.
  intros Hinv Hc. pose proof (call_of _ _ _ Hinv Hc) as Hok.
  assert (Ha : ∀ r c, admitted (y_cfg y) (y_gl y) r c → 0 < rq_len r) by (intros r c [(_ & ? & _) _]; done).
  destruct call; cbn [budget_w reserve_w call_ok] in *; try (split; done).
  all: try (destruct Hok as (Had%Ha & _ & _ & Hle); split; lia).
  - destruct Hok as (Had%Ha & _ & [Hle _] & _). split; [lia|case_match; lia].
  - destruct Hok as (Had%Ha & _ & [Hle _] & _). split; [lia|case_match; lia].
  - destruct Hok as (Had%Ha & _ & Hle & _). split; [lia|case_match; lia].
  - destruct Hok as (Had%Ha & _ & [Hle _] & _). lia.
  - destruct Hok as ((_ & ? & _) & Hle & _). destruct installed; lia.
  - destruct Hok as ((_ & ? & _) & Hle & _). lia.
Qed.

Lemma msum_le `{Countable K} {V} (f f' : K → V → Z) (m : gmap K V) :
  (∀ j x, m !! j = Some x → f j x <= f' j x) → msum f m <= msum f' m.
Proof.
  induction m as [|j x m Hj IH] using map_ind; intros Hf; [by rewrite !msum_empty|].
  rewrite !msum_insert by done. pose proof (Hf j x (lookup_insert_eq m j x)).
  assert (msum f m <= msum f' m); [|lia]. apply IH. intros j' x' Hx. apply Hf. rewrite lookup_insert_ne; [done|congruence].
Qed.

Lemma esum_bounds y f f' :
  Inv y → (∀ k e, index_at y k = Some e → f k e <= f' k e) → esum f y <= esum f' y.
Proof.
  intros Hinv Hf. apply sumZ_le. intros sh (i & Hi)%list_elem_of_lookup_1. apply msum_le. intros k e He.
  apply Hf. rewrite (here_index y i sh); try done. apply (mp_home _ (iv_maps _ Hinv) _ _ _ Hi). by left.
Qed.

Lemma esum_zero y : esum (λ _ _, 0) y = 0.
Proof.
  unfold esum. rewrite (sumZ_ext_in _ (λ _, 0)); [by rewrite sumZ_const|]. intros sh _. by apply msum_zero.
Qed.

Lemma esum_one y f k e :
  Inv y → index_at y k = Some e → (∀ k e, index_at y k = Some e → 0 <= f k e) → f k e <= esum f y.
Proof.
  intros Hinv He Hf. unfold index_at in He. apply bind_Some in He as (sh & Hi & He).
  assert (Hn : ∀ sh', sh' ∈ y_shards y → 0 <= msum f (sh_index sh')).
  { intros sh' (j & Hj)%list_elem_of_lookup_1. apply msum_nonneg. intros k' e' He'. apply Hf.
    rewrite (here_index y j sh'); try done. apply (mp_home _ (iv_maps _ Hinv) _ _ _ Hj). by left. }
  assert (Hle : f k e <= msum f (sh_index sh)).
  { apply msum_le_one; [|done]. intros k' e' He'. apply Hf. rewrite (here_index y (shard_of k y) sh); try done.
    apply (mp_home _ (iv_maps _ Hinv) _ _ _ Hi). by left. }
  unfold esum, at_shard in *. rewrite <- (take_drop_middle _ _ _ Hi), sumZ_middle.
  assert (0 <= sumZ (λ sh', msum f (sh_index sh')) (take (shard_of k y) (y_shards y) ++ drop (S (shard_of k y)) (y_shards y)));
    [|lia].
  apply sumZ_nonneg. intros sh' [Hn'|Hn']%elem_of_app; apply Hn; [by eapply subseteq_take|by eapply subseteq_drop].
Qed.

(** C16. The counters are exact and bounded.  The bytes in use are those of the
    published values and of the admissions under way, and within the budget; the
    dedicated buffers stay within their reserve; the dirty counters are those of
    the values that are not on the disk, so a drain that finds none leaves every
    published value durable.  None of them can become negative, so the
    unsigned counters of the code never wrap. *)
Theorem counters_exact y :
  reachable y →
  let g := y_gl y in
  gl_budget_used g = esum cap_w y + msum budget_w (y_calls y) ∧
  gl_large_used g = esum large_w y + msum reserve_w (y_calls y) ∧
  gl_dirty_bytes g = esum dirty_w y ∧ gl_dirty_objects g = esum object_w y ∧
  0 <= gl_dirty_bytes g <= gl_budget_used g ∧ gl_budget_used g <= op_bytes (cf_opt (y_cfg y)) < 2 ^ 64 ∧
  0 <= gl_large_used g <= cf_large_budget_bytes (y_cfg y) ∧
  0 <= gl_dirty_objects g <= gl_dirty_bytes g ∧
  (gl_dirty_objects g = 0 → ∀ k e, index_at y k = Some e → en_durable e = true).
Proof.
  intros Hinv%reachable_inv g. destruct (iv_sums _ Hinv) as [S1 S2 S3 S4 S5 S6].
  pose proof (go_bytes _ (iv_geo _ Hinv)) as Hb. cbn in Hb.
  assert (Hcap : ∀ k e, index_at y k = Some e → 0 < en_cap e).
  { intros k e He. pose proof (eo_len _ _ _ (entry_of _ _ _ Hinv He)). lia. }
  assert (0 <= msum budget_w (y_calls y) ∧ 0 <= msum reserve_w (y_calls y)) as [H1 H2].
  { split; apply msum_nonneg; intros id call Hc; by apply (budget_nonneg y id call). }
  pose proof (esum_bounds y dirty_w cap_w Hinv) as B1. pose proof (esum_bounds y (λ _ _, 0) object_w Hinv) as B2.
  pose proof (esum_bounds y object_w dirty_w Hinv) as B3. pose proof (esum_bounds y (λ _ _, 0) large_w Hinv) as B4.
  rewrite esum_zero in *. subst g.
  assert (esum dirty_w y <= esum cap_w y) by (apply B1; intros k e He%Hcap; unfold dirty_w, cap_w; case_match; lia).
  assert (0 <= esum object_w y) by (apply B2; intros k e He%Hcap; unfold object_w; case_match; lia).
  assert (esum object_w y <= esum dirty_w y) by (apply B3; intros k e He%Hcap; unfold dirty_w, object_w; case_match; lia).
  assert (0 <= esum large_w y) by (apply B4; intros k e He%Hcap; unfold large_w; case_match; lia).
  split_and!; try lia. intros Hz k e He. destruct (en_durable e) eqn:Hd; [done|exfalso].
  assert (Ho : object_w k e <= esum object_w y)
    by (apply esum_one; [done|done|]; intros k' e' _; unfold object_w; case_match; lia).
  unfold object_w in Ho at 1. rewrite Hd in Ho. lia.
Qed.

(** ** Removal *)

Lemma owned_pending y id c :
  Inv y → ResCmp c ∈ owned y (OCall id) → ∃ k, pending_cmp (y_gl y) c k.
Proof.
  intros Hinv. cbn [owned]. destruct (y_calls y !! id) as [call|] eqn:Hc; [|by intros ?%elem_of_nil].
  pose proof (call_of _ _ _ Hinv Hc) as Hok. intros Hr.
  assert (Ha : ∀ r c', admitted (y_cfg y) (y_gl y) r c' → ResCmp c = ResCmp c' → ∃ k, pending_cmp (y_gl y) c k).
  { intros r c' [_ Hp] [= ->]. eauto. }
  destruct call; cbn [call_res call_ok] in *; unfold storage_res in Hr; res_in Hr; try done.
  all: try (by destruct (lc_large l)). all: try (by eapply Ha; [apply Hok|exact Hr]).
  - injection Hr as ->. exists (rq_key r). by apply Hok.
  - by apply list_elem_of_fmap in Hr as (? & ? & _).
Qed.

(** The completion an admission under way will complete. *)
Definition admission_of (call : Call) : option nat :=
  match call with
  | CLarge _ c _ _ | CLargeBudget _ c _ _ | CLargeUndo _ c _ _ | CReclaim _ c _ _ _ | CMalloc _ c _
  | CArena _ c _ | CReserve _ c _ _ _ | CFail _ c | CFailed _ c _ => Some c
  | CCopy _ l | CInstall _ l | CCanceled _ l | COpen _ l | CAbort _ l true => Some (lc_completion l)
  | _ => None
  end.

Lemma admission_owned y id call c :
  y_calls y !! id = Some call → admission_of call = Some c → ResCmp c ∈ owned y (OCall id).
Proof.
  intros Hc Ha. cbn [owned]. rewrite Hc.
  destruct call; try destruct complete; cbn in Ha; try done; injection Ha as <-; cbn; list_in.
Qed.

(** C17. When [Remove] has returned with [true], the put it met is over: no
    admission is left under that completion, and the entry published under it, if
    readers still pin it, is hidden, has no flush pin, is in no flush batch and in
    no queue.  So nothing can bring the removed value back, into the index or onto
    the disk. *)
Theorem removed_settled y id k c :
  reachable y → y_calls y !! id = Some (CRemoveRet k (Some c) true) →
  gl_compl_key (y_gl y) !! c = Some k ∧
  (∃ p, gl_compl (y_gl y) !! c = Some p ∧ pc_done p = true) ∧
  (∀ id' call, y_calls y !! id' = Some call → admission_of call ≠ Some c) ∧
  (∀ k' e, index_at y k' = Some e → en_completion e = Some c →
     k' = k ∧ en_remove_pending e = true ∧ 0 < en_send_pins e ∧ en_flush_pin e = false ∧ en_flushing e = false ∧
     queue_at y k = [] ∧
     ∀ id' i batch items ok q, y_calls y !! id' = Some (CFlush i batch items ok) → q ∈ batch → q_key q ≠ k).
Proof.
  intros Hinv%reachable_inv Hc. destruct (call_of _ _ _ Hinv Hc eq_refl) as (c' & [= <-] & Hf & Hk & p & Hp & Hd).
  split; [done|]. split; [eauto|]. split.
  { intros id' call Hc' Ha. destruct (owned_pending y id' c Hinv) as (k' & [Hv _ _]); [by eapply admission_owned|]. rewrite Hp in Hv. injection Hv as Hv _. congruence. }
  intros k' e He Hec. pose proof (hs_fence_entry _ (iv_hist _ Hinv) _ _ _ Hf He Hec) as Hrm.
  destruct (entry_of _ _ _ Hinv He) as [_ _ [F1 F2 F3 F4 F5] _ (c' & bs & d & Hc' & Hck & Hv & _) _ _ Hq].
  assert (c' = c) as -> by congruence. assert (k' = k) as -> by congruence. rewrite Hp in Hv.
  injection Hv as Hv _. rewrite Hd in Hv. assert (en_flush_pin e = false) as Hfp by (by destruct (en_flush_pin e)).
  assert (en_flushing e = false) as Hfl by (destruct (en_flushing e); [by rewrite F2 in Hfp|done]).
  split_and!; try done.
  - destruct (F4 Hrm) as [?|?]; [done|congruence].
  - unfold queued in Hq. rewrite Hfp in Hq. by apply length_zero_iff_nil in Hq.
  - intros id' i batch items ok q Hb Hin Hqk.
    assert (Hr : ResFlush k ∈ owned y (OCall id')) by (cbn; rewrite Hb; apply list_elem_of_fmap; exists q; by rewrite Hqk).
    apply (owned_present _ _ _ (ow_ok _ (iv_own _ Hinv) (OCall id'))) in Hr as (e' & He' & ?). congruence.
Qed.

(** ** Reads *)

(** What [GetPrep] answers: the pin it takes on a slot never fails. *)
Lemma get_out y sh k offset len count :
  Inv y → y_shards y !! shard_of k y = Some sh → hit_room (AGet 0 k offset len count) y = true →
  let '(out, _, g') := get_section (y_cfg y) k offset len count sh (y_gl y) in
  match sh_index sh !! k with
  | Some e =>
      if en_remove_pending e || (en_len e <? offset) then out = None
      else
        let avail := en_len e - offset in
        out = Some (mkHit (ptr_add (entry_data e) offset) (Z.min (if len =? 0 then avail else len) avail) (en_len e)
                      (if in_arena e then gl_arena_mr (y_gl y) else None) (in_arena e) (en_node e)) ∧
        gl_pub g' = gl_pub (y_gl y) ∧ gl_mem g' = gl_mem (y_gl y) ∧ gl_heap g' = gl_heap (y_gl y)
  | None => out = None
  end.
Proof.
  intros Hinv Hi Hroom. unfold get_section. destruct (sh_index sh !! k) as [e|] eqn:Hx; [|done].
  assert (He : index_at y k = Some e) by (unfold index_at, at_shard; by rewrite Hi).
  cbn [hit_room] in Hroom. rewrite He in Hroom. apply Z.ltb_lt in Hroom.
  destruct (en_remove_pending e) eqn:Hrm; [done|]. destruct (en_len e <? offset); [done|]. cbn [orb].
  pose proof (entry_slot_ok y _ sh k e Hinv Hi eq_refl Hx) as Hsl. pose proof (mp_pool _ (iv_maps _ Hinv) _ _ Hi) as Hwf.
  destruct (in_arena e) eqn:Ha; [|cbn; by destruct count].
  destruct (sp_pin k (en_slot_handle e) (sh_alloc sh)) as [ok a'] eqn:Ep.
  apply (pin_step k e (en_send_pins e + Z.b2z (en_flush_pin e)) sh) in Ep as [-> Hps]; [by destruct count|done| |done|].
  - unfold in_arena in Ha. by destruct (en_large e).
  - destruct (en_flush_pin e); cbn; lia.
Qed.

Lemma home_shard y k : Inv y → ∃ sh, y_shards y !! shard_of k y = Some sh.
Proof.
  intros Hinv. destruct (some_shard y Hinv) as [sh Hi]. apply lookup_lt_Some in Hi. apply lookup_lt_is_Some.
  unfold shard_of. pose proof (Z.mod_pos_bound (KeyHash k) (Z.of_nat (length (y_shards y)))). lia.
Qed.

(** C18. [GetPrep] on a shard whose mutex is free answers, as long as the 32-bit
    pin count of the value has room for another hit.  It hits exactly when a
    value of the key is published, is not being removed and reaches the offset;
    then it gives as many of the published bytes from there on as were asked for
    and exist.  Otherwise no hit is handed out. *)
Theorem get_correct y h k offset len count :
  reachable y → mu_at y (shard_of k y) = None → y_hits y !! h = None → 0 <= offset → 0 <= len →
  hit_room (AGet h k offset len count) y = true →
  ∃ y', step (AGet h k offset len count) y = Some y' ∧
    match index_at y k with
    | Some e =>
        if en_remove_pending e || (en_len e <? offset) then y_hits y' = y_hits y
        else ∃ hit pb, y_hits y' = <[h := hit]> (y_hits y) ∧ gl_pub (y_gl y') !! ht_token hit = Some pb ∧
          pb_key pb = k ∧ ht_value_len hit = Z.of_nat (length (pb_bytes pb)) ∧
          let avail := ht_value_len hit - offset in
          ht_len hit = Z.min (if len =? 0 then avail else len) avail ∧
          load (y_cfg y') (ht_ptr hit) (Z.to_nat (ht_len hit)) (y_gl y')
            = Some (take (Z.to_nat (ht_len hit)) (drop (Z.to_nat offset) (pb_bytes pb)))
    | None => y_hits y' = y_hits y
    end.
Proof.
  intros Hinv%reachable_inv Hmu Hh Ho Hl Hroom. destruct (home_shard y k Hinv) as [sh Hi].
  unfold mu_at in Hmu. rewrite Hi in Hmu. cbn in Hmu.
  pose proof (get_out y sh k offset len count Hinv Hi Hroom) as Hg. cbn [step]. rewrite Hi. cbn [mbind option_bind].
  rewrite decide_True by done. destruct (get_section _ _ _ _ _ _ _) as [[out sh'] g']. cbn [fst snd] in Hg.
  eexists. split; [done|]. cbn [y_hits y_cfg y_gl]. unfold index_at, at_shard. rewrite Hi. cbn [mbind option_bind].
  destruct (sh_index sh !! k) as [e|] eqn:Hx; [|by rewrite Hg].
  destruct (en_remove_pending e || (en_len e <? offset)) eqn:Hb; [by rewrite Hg|].
  apply orb_false_iff in Hb as [_ Hle%Z.ltb_ge]. destruct Hg as (-> & Hm).
  assert (He : index_at y k = Some e) by (unfold index_at, at_shard; by rewrite Hi).
  destruct (entry_of _ _ _ Hinv He) as [_ _ _ Hlen (c & bytes & d & _ & _ & _ & Hpub & Hb & Hload) _ _ _].
  eexists _, (mkPublication k bytes c d). split_and!; [done|cbn; by destruct Hm as (-> & _)|done|cbn; done|done|].
  cbn [ht_ptr ht_len pb_bytes ht_value_len]. destruct Hm as (_ & Hm & Hp). unfold load in Hload |- *. rewrite Hm, Hp.
  eapply (load_part (y_cfg y) (entry_data e)); [exact Hload|done|]. case_match; lia.
Qed.

(** ** Mutexes *)

Lemma mutex_holder y i id :
  Inv y → mu_at y i = Some id →
  (∃ r c cap a rest, y_calls y !! id = Some (CReclaim r c cap a (RIter i rest))) ∨
  (∃ r c a ref h, y_calls y !! id = Some (CReserve r c a ref h) ∧ shard_of (rq_key r) y = i).
Proof.
  intros Hinv Hmu. destruct (ow_cover _ (iv_own _ Hinv) (ResLock i) eq_refl) as ([id'|k] & Hr); [by exists id| |].
  - cbn in Hr. destruct (y_calls y !! id') as [call|] eqn:Hc; [|by apply elem_of_nil in Hr].
    pose proof (call_of _ _ _ Hinv Hc) as Hok.
    destruct call; cbn [call_res call_ok] in *; unfold storage_res in Hr; res_in Hr; try done;
      try (by destruct (lc_large l)); try (by apply list_elem_of_fmap in Hr as (? & ? & _)).
    + injection Hr as ->. destruct Hok as (_ & _ & _ & Hm). rewrite Hmu in Hm. injection Hm as ->. left. eauto 10.
    + injection Hr as ->. destruct Hok as (_ & _ & _ & _ & _ & Hm & _). rewrite Hmu in Hm. injection Hm as ->. right. eauto 10.
  - cbn in Hr. destruct (index_at y k); [|by apply elem_of_nil in Hr]. unfold entry_res in Hr. res_in Hr; done.
Qed.

(** A step inside a held section. *)
Lemma held_step id i f y sh call' sh' g' :
  y_shards y !! i = Some sh → sh_mu sh = Some id → f sh (y_gl y) = Some (call', sh', g') →
  ∃ y', section id i true f y = Some y' ∧ y_calls y' !! id = Some call' ∧ mu_at y' i = sh_mu sh'.
Proof.
  intros Hi Hmu E. unfold section. rewrite Hi. cbn [mbind option_bind]. rewrite decide_True by done. rewrite E.
  eexists. split; [done|]. cbn. rewrite lookup_insert_eq. split; [done|]. unfold mu_at. cbn.
  by rewrite list_lookup_insert_eq by (by eapply lookup_lt_Some).
Qed.

Lemma iter_unlocks inp rest : ∀ y i id r c cap a,
  Inv y → y_calls y !! id = Some (CReclaim r c cap a (RIter i rest)) → mu_at y i = Some id →
  ∃ n y', run_actions step (replicate n (AStep id inp)) y = Some y' ∧ mu_at y' i = None.
Proof.
  induction rest as [|k rest IH]; intros y i id r c cap a Hinv Hc Hmu;
    unfold mu_at in Hmu; apply bind_Some in Hmu as (sh & Hi & Hmu).
  - destruct (held_step id i (reclaim_iter (y_cfg y) r c cap a i []) y sh _ _ _ Hi Hmu eq_refl) as (y1 & E & _ & Hm).
    exists 1%nat, y1. cbn [replicate run_actions step]. rewrite Hc. cbn [mbind option_bind call_step]. by rewrite E.
  - assert (Hn : ∃ call' sh' g', reclaim_iter (y_cfg y) r c cap a i (k :: rest) sh (y_gl y) = Some (call', sh', g') ∧
      (sh_mu sh' = None ∨ sh_mu sh' = Some id ∧ call' = CReclaim r c cap a (RIter i rest))).
    { cbn [reclaim_iter]. destruct (sh_index sh !! k) as [e|]; [|eauto 10]. destruct (_ && _ && _ && _); [|eauto 10].
      cbn [erase_entry]. destruct (has_room _ _ _); eauto 10. }
    destruct Hn as (call' & sh' & g' & Es & Hd).
    destruct (held_step id i _ y sh _ _ _ Hi Hmu Es) as (y1 & E & Hc1 & Hm).
    assert (E1 : step (AStep id inp) y = Some y1) by (cbn [step]; rewrite Hc; exact E).
    destruct Hd as [Hd|[Hd ->]].
    + exists 1%nat, y1. cbn [replicate run_actions]. rewrite E1. cbn. by rewrite Hm.
    + destruct (IH y1 i id r c cap a) as (n & y' & Hr & Hm'); [by eapply step_inv; [..|exact E1]|done|by rewrite Hm|].
      exists (S n), y'. cbn [replicate run_actions]. by rewrite E1.
Qed.

(** C19. A call that is inside a mutex between two steps comes out of it by its own
    steps alone, whatever the environment answers: no shard stays locked, and no
    two calls can wait for each other's shards. *)
Theorem mutex_released y i id inp :
  reachable y → mu_at y i = Some id →
  ∃ n y', run_actions step (replicate n (AStep id inp)) y = Some y' ∧ mu_at y' i = None.
Proof.
  intros Hinv%reachable_inv Hmu. destruct (mutex_holder y i id Hinv Hmu) as [(r & c & cap & a & rest & Hc)|(r & c & a & ref & h & Hc & Hk)].
  - by eapply iter_unlocks.
  - unfold mu_at in Hmu; apply bind_Some in Hmu as (sh & Hi & Hmu).
    assert (Hn : ∃ call' sh' g', reserve_section (y_cfg y) r c a ref h sh (y_gl y) = Some (call', sh', g') ∧ sh_mu sh' = None).
    { unfold reserve_section. destruct (TryReserve _ _ _); [|eauto]. eauto. }
    destruct Hn as (call' & sh' & g' & Es & Hd).
    destruct (held_step id i _ y sh _ _ _ Hi Hmu Es) as (y1 & E & Hc1 & Hm).
    exists 1%nat, y1. cbn [replicate run_actions step]. rewrite Hc. cbn [mbind option_bind call_step]. rewrite Hk, E.
    split; [done|]. by rewrite Hm.
Qed.

(** ** Construction *)

Lemma numa_known_spec env :
  numa_known env = true ↔ env_numa env = None ∨ env_numa env = Some String.EmptyString ∨
    env_numa env = Some "off"%string ∨ env_numa env = Some "interleave"%string.
Proof.
  unfold numa_known, numa_mode. rewrite orb_true_iff, !bool_decide_eq_true.
  destruct (env_numa env) as [[|ch nm]|]; split; intros Hx; auto.
  - destruct Hx as [->| ->]; auto.
  - destruct Hx as [?|[?|[Hx|Hx]]]; [done..|left|right]; congruence.
Qed.

(** C20. With a budget below 16 TiB and a 32-bit granularity, the constructor makes
    the tier ready exactly when [posix_memalign] has memory for the arena and
    DFKV_RAM_TIER_NUMA is unset, empty, off or interleave.  A ready tier has split
    the budget without loss or overlap: the arena and the reserve for dedicated
    buffers add up to the budget, both the arena and the extents are multiples of
    the slot granularity, there are one to 64 shards, and their runs of extents
    are disjoint and lie in the arena, which has no room for another extent. *)
Theorem construction_partitions opt env fl fb :
  ram_sane opt env →
  (is_Some (new_tier (A := A) opt env fl fb) ↔
     env_memalign env (arena_bytes (normalize_ram opt) env) = true ∧
     (env_numa env = None ∨ env_numa env = Some String.EmptyString ∨
      env_numa env = Some "off"%string ∨ env_numa env = Some "interleave"%string)) ∧
  ∀ y : Sys, new_tier opt env fl fb = Some y →
    let cfg := y_cfg y in
    let gran := op_slot_granularity (cf_opt cfg) in
    cf_arena_bytes cfg = arena_bytes (normalize_ram opt) env ∧
    cf_arena_bytes cfg + cf_large_budget_bytes cfg = op_bytes (cf_opt cfg) ∧
    op_bytes (cf_opt cfg) = Z.max (op_bytes opt) gran ∧ gran = Z.max (op_slot_granularity opt) 4096 ∧
    (gran | cf_arena_bytes cfg) ∧ (gran | cf_extent_bytes cfg) ∧ gran <= cf_extent_bytes cfg ∧
    1 <= Z.of_nat (length (y_shards y)) <= kMaxShards ∧
    (∀ i sh, y_shards y !! i = Some sh → 0 <= sh_base_off sh ∧ (cf_extent_bytes cfg | sh_base_off sh) ∧
       o_extent_bytes (sp_opt (sh_alloc sh)) = cf_extent_bytes cfg ∧
       sh_base_off sh + span (sp_opt (sh_alloc sh)) <= cf_arena_bytes cfg) ∧
    (∀ i j sh sh', (i < j)%nat → y_shards y !! i = Some sh → y_shards y !! j = Some sh' →
       sh_base_off sh + span (sp_opt (sh_alloc sh)) <= sh_base_off sh') ∧
    cf_arena_bytes cfg - cf_extent_bytes cfg < sumZ (λ sh, span (sp_opt (sh_alloc sh))) (y_shards y).
Proof.
  intros Hs. rewrite new_tier_fresh by done. split.
  { rewrite <- numa_known_spec. destruct (env_memalign _ _), (numa_known env); cbn; split; intros Hx;
      first [by eexists|by destruct Hx]. }
  destruct (_ && _); [|done]. intros y [= <-].
  pose proof (normalize_normal _ _ Hs) as Hn. pose proof (fresh_geo (A := A) _ _ fl fb Hn) as Hgeo.
  set (o := normalize_ram opt) in *. destruct (extents_ok o env Hn) as (_ & Hsum & Hpos).
  destruct (total_extents_fit o env Hn) as [_ Hfit]. destruct (extent_bytes_bounds o env Hn) as [He Hed].
  destruct (arena_bytes_bounds o env Hn) as [Ha Had].
  destruct (ram_shard_count_spec (total_extents o env) env) as [Hc _].
  assert (Hg : ∀ i sh, y_shards (fresh (A := A) o env fl fb) !! i = Some sh →
    (geo (fresh (A := A) o env fl fb)).2 !! i = Some (sh_base_off sh, sp_opt (sh_alloc sh)))
    by (intros i sh; apply geo_shard).
  cbv zeta. cbn [fresh y_cfg ram_config cf_arena_bytes cf_large_budget_bytes cf_opt cf_extent_bytes].
  assert (Hlen : Z.of_nat (length (y_shards (fresh (A := A) o env fl fb))) = shard_count (total_extents o env) env).
  { unfold fresh. cbn [y_shards]. rewrite new_shards_length. unfold shard_extents. rewrite length_fmap, length_seq. lia. }
  split_and!; try done; try lia.
  - intros i sh Hi. destruct (go_inside _ Hgeo _ _ _ (Hg _ _ Hi)) as [? ?].
    destruct (go_extent _ Hgeo _ _ _ (Hg _ _ Hi)) as [? _]. split_and!; try done.
    apply new_shard_at in Hi as (n & _ & _ & -> & _); [|done]. cbn. by apply Z.divide_factor_r.
  - intros i j sh sh' Hij Hi Hj. by apply (go_apart _ Hgeo i j _ _ _ _ Hij (Hg _ _ Hi) (Hg _ _ Hj)).
  - unfold fresh. cbn [y_shards]. rewrite new_shards_span by done. rewrite Hsum. cbn [ram_config cf_extent_bytes]. lia.
Qed.

End props.

(** ** A concrete tier *)

Definition Pool := SlabAllocator FlatKeyIndex.

Definition sample_ram : RamOptions := mkRamOptions (4 * 65536) UINT64_MAX 4096 3 0 true.
Definition sample_ram_env : RamEnv := mkRamEnv None (Some 65536) None (Some "off"%string) None (λ n, n <=? 2 ^ 30).
Definition sample_key : BlockKey := mkBlockKey 1 2 3.
Definition sample_req : Req := mkReq (OpPut KCommitted) sample_key (Some [1; 2; 3]) 3.
Definition sample_input : Input := mkInput false 0 None [] [true] [[]].
Definition sample_hit : Hit := mkHit (PArena 192513) 2 3 None true 1.

(** A committed put up to its wait, a read of it, its flush, its answer, its
    removal. *)
Definition sample_put : list Action :=
  AStart 1 sample_req :: replicate 4 (AStep 1 sample_input).
Definition sample_read : list Action := sample_put ++ [AGet 5 sample_key 1 0 true].
Definition sample_flush : list Action := AFlusher 2 0 :: replicate 3 (AStep 2 sample_input) ++ [AStep 1 sample_input].
Definition sample_remove : list Action := ARemove 3 sample_key :: replicate 3 (AStep 3 sample_input).

Definition sample_run (acts : list Action) : option (Sys Pool) := tier_run sample_ram sample_ram_env true false acts.

Lemma sample_ram_sane : ram_sane sample_ram sample_ram_env.
Proof. split; cbn; unfold UINT64_MAX, UINT32_MAX; try lia. intros n [= <-]. lia. Qed.

Lemma sample_reachable acts y : sample_run acts = Some y → reachable y.
Proof. intros E. exists sample_ram, sample_ram_env, true, false, acts. split; [apply sample_ram_sane|exact E]. Qed.

(** The state a run ends in, with what can be computed of it. *)
Lemma sample_state acts {B} (f : Sys Pool → B) b :
  f <$> sample_run acts = Some b → ∃ y, sample_run acts = Some y ∧ reachable y ∧ f y = b.
Proof.
  intros (y & E & ->)%fmap_Some. exists y. split; [done|]. split; [by eapply sample_reachable|done].
Qed.

Lemma sample_next acts acts' y :
  sample_run acts = Some y →
  match sample_run acts with Some y => if run_actions tier_step acts' y then true else false | None => false end = true →
  is_Some (run_actions tier_step acts' y).
Proof. intros ->. by destruct (run_actions tier_step acts' y). Qed.

Lemma sample_unreleased : ARelease 5 ∉ sample_flush ++ sample_remove.
Proof.
  unfold sample_flush, sample_remove. cbn [replicate app]. intros Hin.
  repeat (apply elem_of_cons in Hin as [Hin|Hin]; [discriminate Hin|]). by apply elem_of_nil in Hin.
Qed.

Ltac computes := vm_compute; reflexivity.

Lemma hit_bytes_stable_witness :
  ∃ y y' : Sys Pool, reachable y ∧ y_hits y !! 5%nat = Some sample_hit ∧
    run_actions tier_step (sample_flush ++ sample_remove) y = Some y' ∧ y_hits y' !! 5%nat = Some sample_hit ∧
    load (y_cfg y') (ht_ptr sample_hit) 2 (y_gl y') = load (y_cfg y) (ht_ptr sample_hit) 2 (y_gl y).
Proof.
  destruct (sample_state sample_read (λ y, y_hits y !! 5%nat) (Some sample_hit)) as (y & E & Hr & Hh); [computes|].
  destruct (sample_next sample_read (sample_flush ++ sample_remove) y E) as [y' E']; [computes|].
  destruct (hit_bytes_stable y 5 sample_hit (sample_flush ++ sample_remove) y' Hr Hh E' sample_unreleased)
    as (k & pb & off & _ & _ & _ & Hh' & _ & _ & _ & _ & H1 & H2).
  exists y, y'. exact (conj Hr (conj Hh (conj E' (conj Hh' (eq_trans H2 (eq_sym H1)))))).
Defined.

(** The same put when the disk has the key already. *)
Definition persisted_input : Input := mkInput true 0 None [] [] [].

Lemma ack_means_durable_witness :
  (∃ (y : Sys Pool) n pb, reachable y ∧
    y_calls y !! 1%nat = Some (CRet sample_req (Some kAccepted) (Some 0%nat) (RPut kOk kComplete)) ∧
    gl_pub (y_gl y) !! n = Some pb ∧ pb_bytes pb = [1; 2; 3]) ∧
  ∃ y : Sys Pool, reachable y ∧
    y_calls y !! 1%nat = Some (CRet sample_req (Some kPersisted) None (RPut kOk kComplete)) ∧
    mkPersistedCall sample_key true ∈ gl_sunk (y_gl y).
Proof.
  split.
  - destruct (sample_state (sample_put ++ sample_flush) (λ y, y_calls y !! 1%nat)
      (Some (CRet sample_req (Some kAccepted) (Some 0%nat) (RPut kOk kComplete)))) as (y & E & Hr & Hc); [computes|].
    destruct (ack_means_durable y 1 sample_req KCommitted kAccepted (Some 0%nat) kComplete Hr Hc eq_refl (or_introl eq_refl))
      as (n & pb & Hp & _ & _ & Hb & _).
    exists y, n, pb. split; [exact Hr|]. split; [exact Hc|]. split; [exact Hp|]. by injection Hb as <-.
  - destruct (sample_state [AStart 1 sample_req; AStep 1 persisted_input] (λ y, y_calls y !! 1%nat)
      (Some (CRet sample_req (Some kPersisted) None (RPut kOk kComplete)))) as (y & E & Hr & Hc); [computes|].
    destruct (ack_means_durable y 1 sample_req KCommitted kPersisted None kComplete Hr Hc eq_refl (or_introl eq_refl))
      as (_ & _ & Hp).
    exists y. split; [exact Hr|]. split; [exact Hc|exact Hp].
Defined.

(** The entry of the sample put, before its flush. *)
Definition sample_entry : Entry :=
  mkEntry sample_key 192512 3 4096 (Some 0%nat) None (Some 0%nat) 0 false false true false 0 false 1.

Lemma unflushed_kept_witness :
  ∃ y y' : Sys Pool, reachable y ∧ index_at y sample_key = Some sample_entry ∧
    step (AFlusher 2 0) y = Some y' ∧ is_Some (index_at y' sample_key).
Proof.
  destruct (sample_state sample_put (λ y, index_at y sample_key) (Some sample_entry)) as (y & E & Hr & He); [computes|].
  destruct (sample_next sample_put [AFlusher 2 0] y E) as [y' E']; [computes|].
  cbn [run_actions] in E'. apply bind_Some in E' as (y1 & [_ E1]%tier_step_Some & E'). injection E' as <-.
  destruct (unflushed_kept y (AFlusher 2 0) y1 sample_key sample_entry Hr E1 He eq_refl eq_refl)
    as [(e' & He' & _)|[(id & inp & ? & _)|(id & inp & i & batch & items & ok & j & q & ? & _)]]; [|discriminate..].
  exists y, y1. split; [exact Hr|]. split; [exact He|]. split; [exact E1|]. by exists e'.
Defined.

Lemma unflushed_scheduled_witness :
  ∃ y : Sys Pool, reachable y ∧ index_at y sample_key = Some sample_entry ∧ (length (queue_at y sample_key) <= 1)%nat.
Proof.
  destruct (sample_state sample_put (λ y, index_at y sample_key) (Some sample_entry)) as (y & E & Hr & He); [computes|].
  exists y. split; [exact Hr|]. split; [exact He|].
  destruct (unflushed_scheduled y sample_key sample_entry Hr He eq_refl eq_refl) as [[-> _]|[-> _]]; lia.
Defined.

Lemma storage_private_witness :
  ∃ y : Sys Pool, reachable y ∧ extent_of y (OEntry sample_key) = Some (PArena 192512, 4096) ∧
    192512 + 4096 <= cf_arena_bytes (y_cfg y).
Proof.
  destruct (sample_state sample_put (λ y, extent_of y (OEntry sample_key)) (Some (PArena 192512, 4096))) as (y & E & Hr & He);
    [computes|].
  exists y. split; [exact Hr|]. split; [exact He|].
  by destruct (storage_private y (OEntry sample_key) (PArena 192512) 4096 Hr He) as [[_ Hin] _].
Defined.

Lemma counters_exact_witness :
  ∃ y : Sys Pool, reachable y ∧ gl_dirty_bytes (y_gl y) = 4096 ∧ 4096 <= gl_budget_used (y_gl y).
Proof.
  destruct (sample_state sample_put (λ y, gl_dirty_bytes (y_gl y)) 4096) as (y & E & Hr & Hd); [computes|].
  exists y. split; [exact Hr|]. split; [exact Hd|].
  destruct (counters_exact y Hr) as (_ & _ & _ & _ & [_ Hb] & _). by rewrite Hd in Hb.
Defined.

Lemma removed_settled_witness :
  ∃ y : Sys Pool, reachable y ∧ y_calls y !! 3%nat = Some (CRemoveRet sample_key (Some 0%nat) true) ∧
    gl_compl_key (y_gl y) !! 0%nat = Some sample_key.
Proof.
  destruct (sample_state (sample_read ++ sample_flush ++ sample_remove) (λ y, y_calls y !! 3%nat)
    (Some (CRemoveRet sample_key (Some 0%nat) true))) as (y & E & Hr & Hc); [computes|].
  exists y. split; [exact Hr|]. split; [exact Hc|]. by destruct (removed_settled y 3 sample_key 0 Hr Hc) as (Hk & _).
Defined.

Lemma get_correct_witness :
  ∃ y y' : Sys Pool, reachable y ∧ mu_at y (shard_of sample_key y) = None ∧ y_hits y !! 5%nat = None ∧
    step (AGet 5 sample_key 1 0 true) y = Some y' ∧ ∃ hit, y_hits y' = <[5%nat := hit]> (y_hits y).
Proof.
  destruct (sample_state sample_put (λ y, (index_at y sample_key, mu_at y (shard_of sample_key y), y_hits y !! 5%nat,
    hit_room (AGet 5 sample_key 1 0 true) y)) (Some sample_entry, None, None, true)) as (y & E & Hr & Hc); [computes|].
  injection Hc as He Hm Hh Hroom.
  destruct (get_correct y 5 sample_key 1 0 true Hr Hm Hh ltac:(lia) ltac:(lia) Hroom) as (y' & E' & Hg).
  rewrite He in Hg. destruct Hg as (hit & pb & Hg & _).
  exists y, y'. split; [exact Hr|]. split; [exact Hm|]. split; [exact Hh|]. split; [exact E'|]. by exists hit.
Defined.

Lemma mutex_released_witness :
  ∃ (y : Sys Pool) n y', reachable y ∧ mu_at y 0 = Some 1%nat ∧
    run_actions step (replicate n (AStep 1 sample_input)) y = Some y' ∧ mu_at y' 0 = None.
Proof.
  destruct (sample_state (take 2 sample_put) (λ y, mu_at y 0) (Some 1%nat)) as (y & E & Hr & Hm); [computes|].
  destruct (mutex_released y 0 1 sample_input Hr Hm) as (n & y' & E' & Hm').
  exists y, n, y'. split; [exact Hr|]. split; [exact Hm|]. split; [exact E'|exact Hm'].
Defined.

Lemma construction_partitions_witness :
  ram_sane sample_ram sample_ram_env ∧ is_Some (new_tier (A := Pool) sample_ram sample_ram_env true false) ∧
  ∀ y : Sys Pool, new_tier sample_ram sample_ram_env true false = Some y →
    cf_arena_bytes (y_cfg y) + cf_large_budget_bytes (y_cfg y) = Z.max 262144 (op_slot_granularity (cf_opt (y_cfg y))).
Proof.
  split; [apply sample_ram_sane|].
  destruct (construction_partitions (A := Pool) sample_ram sample_ram_env true false sample_ram_sane) as [Hready Hy].
  split; [apply Hready; split; [by vm_compute|by right; right; left]|].
  intros y E. destruct (Hy y E) as (_ & Hs & Hb & _). by rewrite Hs, Hb.
Defined.
