(* ===== verification/Coalescer.v ===== *)
(** * Read coalescer

    [ReadCoalescer] (src/cache/read_coalescer.h): concurrent identical reads of a
    node share one disk read.  Every critical section of [mu_] and of a flight's
    mutex, and every access of a flight's counters outside them, is one step of
    the call that makes it; steps of different calls interleave freely.  The disk
    read ([fill]), memory allocation, the clock, the thread a call runs on and
    whether a wait times out are arguments of the steps. *)

From S2P Require Import Prelude KvTypes.

(** ** Data *)

(** [ReadCoalescer::Key]: a block and a range of it. *)
Record RKey := mkRKey { rk_block : BlockKey; rk_offset : Z; rk_length : Z }.

#[export] Instance RKey_eq_dec : EqDecision RKey.
Proof. solve_decision. Defined.

#[export] Instance RKey_countable : Countable RKey.
Proof.
  apply (inj_countable' (λ k, (rk_block k, rk_offset k, rk_length k)) (λ '(b, o, l), mkRKey b o l)).
  by intros [].
Defined.

(** [ReadCoalescer::Flight]; [fl_data] is the shared scratch as far as the read has
    filled it. *)
Record Flight := mkFlight {
  fl_done : bool;
  fl_st : Status;
  fl_len : Z;
  fl_value_len : Z;
  fl_data : option (list Z);
  fl_key : RKey;
  fl_whole : bool;
  fl_recurrent : bool;
  fl_publishes_to_ram : bool;
  fl_leader_tid : nat;
  fl_waiters : Z;
  fl_copy_waiters : Z;
}.

Definition new_flight (k : RKey) (tid : nat) : Flight :=
  mkFlight false kInvalid 0 0 None k false false false tid 0 0.

Definition add_waiter (f : Flight) : Flight :=
  mkFlight (fl_done f) (fl_st f) (fl_len f) (fl_value_len f) (fl_data f) (fl_key f) (fl_whole f) (fl_recurrent f)
    (fl_publishes_to_ram f) (fl_leader_tid f) (fl_waiters f + 1) (fl_copy_waiters f).

Definition add_copy_waiter (f : Flight) : Flight :=
  mkFlight (fl_done f) (fl_st f) (fl_len f) (fl_value_len f) (fl_data f) (fl_key f) (fl_whole f) (fl_recurrent f)
    (fl_publishes_to_ram f) (fl_leader_tid f) (fl_waiters f) (fl_copy_waiters f + 1).

Definition set_fl_data (d : option (list Z)) (f : Flight) : Flight :=
  mkFlight (fl_done f) (fl_st f) (fl_len f) (fl_value_len f) d (fl_key f) (fl_whole f) (fl_recurrent f)
    (fl_publishes_to_ram f) (fl_leader_tid f) (fl_waiters f) (fl_copy_waiters f).

Definition set_fl_done (st : Status) (len value_len : Z) (f : Flight) : Flight :=
  mkFlight true st len value_len (fl_data f) (fl_key f) (fl_whole f) (fl_recurrent f)
    (fl_publishes_to_ram f) (fl_leader_tid f) (fl_waiters f) (fl_copy_waiters f).

(** One run of [fill]: its status, the bytes it put into the buffer and what it
    stored to its two length outputs, if anything. *)
Record Fill := mkFill {
  fi_st : Status;
  fi_bytes : list Z;
  fi_out_len : option Z;
  fi_out_value_len : option Z;
}.

(** The outputs of a leader's run, which start at zero. *)
Definition fi_len (r : Fill) : Z := default 0 (fi_out_len r).
Definition fi_value_len (r : Fill) : Z := default 0 (fi_out_value_len r).

(** [fill] writes no more than the buffer holds, and a successful one reports what it
    wrote. *)
Definition fill_ok (cap : Z) (r : Fill) : bool :=
  (Z.of_nat (length (fi_bytes r)) <=? cap)
  && (bool_decide (fi_st r ≠ kOk) || bool_decide (fi_out_len r = Some (Z.of_nat (length (fi_bytes r))))).

(** The members; [rc_flights] is the heap of flights, and [rc_reads] the history of
    the reads whose bytes were put into a flight. *)
Record RC := mkRC {
  rc_map : gmap RKey nat;
  rc_tokens : gmap Z nat;
  rc_flights : gmap nat Flight;
  rc_next : nat;
  rc_recents : gmap RKey Z;
  rc_fifo : list (RKey * Z);
  rc_token_seq : Z;
  rc_leaders : Z;
  rc_coalesced : Z;
  rc_timeouts : Z;
  rc_recur_hits : Z;
  rc_reads : list (RKey * Fill);
}.

Definition new_coalescer : RC := mkRC ∅ ∅ ∅ 0 ∅ [] 0 0 0 0 0 [].

Definition kRecurCap : Z := 65536.

(** What a read returns: the status, and what it left in [dst], [*out_len] and
    [*out_value_len] where it set them. *)
Record ReadResult := mkReadResult {
  rr_st : Status;
  rr_dst : list Z;
  rr_out_len : option Z;
  rr_out_value_len : option Z;
}.

Inductive PublishedWait := kNotEligible | kReady | kFallback.

(** ** Calls *)

(** How a read came by its answer: as the leader (with [Outcome::had_waiters]), from
    the flight of another read, or by a read of its own. *)
Inductive Role := AsLeader (had_waiters : bool) | FromFlight (f : nat) | OwnRead.

(** The program points of [Read], [CompleteAsync] and [WaitForPublished].  A leader
    is at [LFill] before its read, then leaves the map, then publishes; a follower
    counts itself twice before it waits. *)
Inductive RCall :=
| RStart (tid : nat) (k : RKey) (cap : Z)
| LFill (k : RKey) (cap : Z) (f : nat)
| LErase (k : RKey) (cap : Z) (f : nat) (scratch : bool) (r : Fill)
| LPublish (k : RKey) (cap : Z) (f : nat) (scratch : bool) (r : Fill)
| FJoin (tid : nat) (k : RKey) (cap : Z) (f : nat)
| FCount (tid : nat) (k : RKey) (cap : Z) (f : nat)
| FWait (tid : nat) (k : RKey) (cap : Z) (f : nat)
| FCopy (k : RKey) (cap : Z) (f : nat)
| RSelf (k : RKey) (cap : Z)
| LReport (k : RKey) (cap : Z) (f : nat) (scratch : bool) (r : Fill)
| RRet (k : RKey) (cap : Z) (role : Role) (res : ReadResult)
| AStage (f : nat) (waiters : bool) (st : Status) (data : option (list Z)) (len : Z)
| APublish (f : nat) (waiters : bool) (st : Status) (len : Z)
| ARet (waiters : bool) (out : option (RKey * bool * bool))
| WWait (tid : nat) (k : RKey) (f : nat)
| WRet (k : RKey) (from : option nat) (res : PublishedWait).

(** The coalescer and the calls on it. *)
Record CSys := mkCSys { cs_rc : RC; cs_calls : gmap nat RCall }.

(** ** Critical sections of [mu_] *)

Definition with_flight (f : nat) (g : Flight → Flight) (rc : RC) : RC :=
  mkRC (rc_map rc) (rc_tokens rc) (alter g f (rc_flights rc)) (rc_next rc) (rc_recents rc) (rc_fifo rc)
    (rc_token_seq rc) (rc_leaders rc) (rc_coalesced rc) (rc_timeouts rc) (rc_recur_hits rc) (rc_reads rc).

Definition InFlight (k : RKey) (rc : RC) : bool := bool_decide (is_Some (rc_map rc !! k)).

(** [Read] up to the choice of its role: a new flight, or the one in the map. *)
Definition read_start (tid : nat) (k : RKey) (cap : Z) (rc : RC) : RCall * RC :=
  match rc_map rc !! k with
  | None =>
      let f := rc_next rc in
      (LFill k cap f,
       mkRC (<[k := f]> (rc_map rc)) (rc_tokens rc) (<[f := new_flight k tid]> (rc_flights rc)) (S f)
         (rc_recents rc) (rc_fifo rc) (rc_token_seq rc) (rc_leaders rc) (rc_coalesced rc) (rc_timeouts rc)
         (rc_recur_hits rc) (rc_reads rc))
  | Some f =>
      (if decide (fl_leader_tid <$> rc_flights rc !! f = Some tid) then RSelf k cap else FJoin tid k cap f, rc)
  end.

(** [if (it != map_.end() && it->second == f) map_.erase(it)]. *)
Definition flight_erase (k : RKey) (f : nat) (m : gmap RKey nat) : gmap RKey nat :=
  if decide (m !! k = Some f) then delete k m else m.

Definition set_rc_map (m : gmap RKey nat) (rc : RC) : RC :=
  mkRC m (rc_tokens rc) (rc_flights rc) (rc_next rc) (rc_recents rc) (rc_fifo rc) (rc_token_seq rc)
    (rc_leaders rc) (rc_coalesced rc) (rc_timeouts rc) (rc_recur_hits rc) (rc_reads rc).

(** [TryRegisterAsync]: the token, 0 when an identical read is in flight. *)
Definition TryRegisterAsync (tid : nat) (k : RKey) (whole : bool) (value_len : Z) (publishes : bool) (now : Z)
    (rc : RC) : Z * RC :=
  match rc_map rc !! k with
  | Some _ => (0, rc)
  | None =>
      let seen := if whole && negb publishes then rc_recents rc !! k else None in
      let recurrent := match seen with Some deadline => now <=? deadline | None => false end in
      let f := rc_next rc in
      let t := u64 (rc_token_seq rc + 1) in
      (t, mkRC (<[k := f]> (rc_map rc))
            (match rc_tokens rc !! t with Some _ => rc_tokens rc | None => <[t := f]> (rc_tokens rc) end)
            (<[f := mkFlight false kInvalid 0 value_len None k whole recurrent publishes tid 0 0]> (rc_flights rc))
            (S f) (if seen then delete k (rc_recents rc) else rc_recents rc) (rc_fifo rc) t
            (rc_leaders rc) (rc_coalesced rc) (rc_timeouts rc)
            (if recurrent then rc_recur_hits rc + 1 else rc_recur_hits rc) (rc_reads rc))
  end.

(** The trimming loop over [recent_fifo_]. *)
Fixpoint trim_recents (now : Z) (fifo : list (RKey * Z)) (recents : gmap RKey Z) :
    list (RKey * Z) * gmap RKey Z :=
  match fifo with
  | [] => ([], recents)
  | (k, d) :: fifo' =>
      if (d <? now) || (kRecurCap <? Z.of_nat (length fifo))
      then trim_recents now fifo' (if decide (recents !! k = Some d) then delete k recents else recents)
      else (fifo, recents)
  end.

(** The section of [CompleteAsync]; [None] for an unknown token.  [now1] and [now2]
    are the two readings of the clock. *)
Definition complete_async (token : Z) (st : Status) (recur_ms now1 now2 : Z) (rc : RC) :
    option (nat * bool * RC) :=
  f ← rc_tokens rc !! token;
  fl ← rc_flights rc !! f;
  let waiters := 0 <? fl_waiters fl in
  let '(fifo, recents) :=
    if (0 <? recur_ms) && bool_decide (st = kOk) && fl_whole fl && negb (fl_publishes_to_ram fl)
       && negb waiters && negb (fl_recurrent fl)
    then trim_recents now2 (rc_fifo rc ++ [(fl_key fl, now1 + recur_ms)])
           (<[fl_key fl := now1 + recur_ms]> (rc_recents rc))
    else (rc_fifo rc, rc_recents rc) in
  Some (f, waiters,
        mkRC (flight_erase (fl_key fl) f (rc_map rc)) (delete token (rc_tokens rc)) (rc_flights rc) (rc_next rc)
          recents fifo (rc_token_seq rc) (rc_leaders rc) (rc_coalesced rc) (rc_timeouts rc) (rc_recur_hits rc)
          (rc_reads rc)).

(** The first section of [WaitForPublished]. *)
Definition published_section (tid : nat) (k : RKey) (rc : RC) : RCall * RC :=
  match rc_map rc !! k with
  | Some f =>
      match rc_flights rc !! f with
      | Some fl =>
          if fl_publishes_to_ram fl then
            if decide (fl_leader_tid fl = tid) then (WRet k None kFallback, rc)
            else (WWait tid k f, with_flight f add_waiter rc)
          else (WRet k None kNotEligible, rc)
      | None => (WRet k None kNotEligible, rc)
      end
  | None => (WRet k None kNotEligible, rc)
  end.

(** ** The rest of the calls *)

Definition bump_leaders (rc : RC) : RC :=
  mkRC (rc_map rc) (rc_tokens rc) (rc_flights rc) (rc_next rc) (rc_recents rc) (rc_fifo rc) (rc_token_seq rc)
    (rc_leaders rc + 1) (rc_coalesced rc) (rc_timeouts rc) (rc_recur_hits rc) (rc_reads rc).

Definition bump_coalesced (rc : RC) : RC :=
  mkRC (rc_map rc) (rc_tokens rc) (rc_flights rc) (rc_next rc) (rc_recents rc) (rc_fifo rc) (rc_token_seq rc)
    (rc_leaders rc) (rc_coalesced rc + 1) (rc_timeouts rc) (rc_recur_hits rc) (rc_reads rc).

Definition bump_timeouts (rc : RC) : RC :=
  mkRC (rc_map rc) (rc_tokens rc) (rc_flights rc) (rc_next rc) (rc_recents rc) (rc_fifo rc) (rc_token_seq rc)
    (rc_leaders rc) (rc_coalesced rc) (rc_timeouts rc + 1) (rc_recur_hits rc) (rc_reads rc).

Definition record_read (k : RKey) (r : Fill) (rc : RC) : RC :=
  mkRC (rc_map rc) (rc_tokens rc) (rc_flights rc) (rc_next rc) (rc_recents rc) (rc_fifo rc) (rc_token_seq rc)
    (rc_leaders rc) (rc_coalesced rc) (rc_timeouts rc) (rc_recur_hits rc) (rc_reads rc ++ [(k, r)]).

(** The leader's own answer. *)
Definition leader_result (cap : Z) (scratch : bool) (r : Fill) : ReadResult :=
  let n := fi_len r in
  let ok := bool_decide (fi_st r = kOk) in
  let vlen := if ok then Some (fi_value_len r) else None in
  if ok && (0 <? n) && scratch
  then mkReadResult (fi_st r) (take (Z.to_nat (Z.min n cap)) (fi_bytes r)) (Some (Z.min n cap)) vlen
  else mkReadResult (fi_st r) (if scratch then [] else fi_bytes r)
         (if ok && negb scratch then Some n else None) vlen.

(** A read of one's own, straight into the caller's [dst], [out_len] and
    [out_value_len]. *)
Definition self_result (r : Fill) : ReadResult :=
  mkReadResult (fi_st r) (fi_bytes r) (fi_out_len r) (fi_out_value_len r).

(** The follower's copy out of the finished flight; [None] sends it to its own
    read. *)
Definition follower_result (cap : Z) (fl : Flight) : option ReadResult :=
  if decide (fl_st fl = kOk) then
    data ← fl_data fl;
    let c := Z.min (fl_len fl) cap in
    Some (mkReadResult kOk (take (Z.to_nat c) data) (Some c) (Some (fl_value_len fl)))
  else None.

(** What a step gets from outside: whether memory is there, the result of a
    [fill], whether a wait has timed out. *)
Record RInput := mkRInput { ri_alloc : bool; ri_fill : Fill; ri_timeout : bool }.

Definition rcall_step (inp : RInput) (call : RCall) (rc : RC) : option (RCall * RC) :=
  match call with
  | RStart tid k cap => Some (read_start tid k cap rc)
  | LFill k cap f =>
      let r := ri_fill inp in
      if fill_ok cap r then
        Some (LErase k cap f (ri_alloc inp) r,
              if ri_alloc inp then record_read k r (with_flight f (set_fl_data (Some (fi_bytes r))) rc) else rc)
      else None
  | LErase k cap f scratch r => Some (LPublish k cap f scratch r, set_rc_map (flight_erase k f (rc_map rc)) rc)
  | LPublish k cap f scratch r =>
      Some (LReport k cap f scratch r,
            bump_leaders (with_flight f (set_fl_done (fi_st r) (fi_len r) (fi_value_len r)) rc))
  | LReport k cap f scratch r =>
      fl ← rc_flights rc !! f;
      Some (RRet k cap (AsLeader (0 <? fl_waiters fl)) (leader_result cap scratch r), rc)
  | FJoin tid k cap f => Some (FCount tid k cap f, with_flight f add_waiter rc)
  | FCount tid k cap f => Some (FWait tid k cap f, with_flight f add_copy_waiter rc)
  | FWait tid k cap f =>
      fl ← rc_flights rc !! f;
      if fl_done fl then Some (FCopy k cap f, rc)
      else if ri_timeout inp then Some (RSelf k cap, bump_timeouts rc) else None
  | FCopy k cap f =>
      fl ← rc_flights rc !! f;
      match follower_result cap fl with
      | Some res => Some (RRet k cap (FromFlight f) res, bump_coalesced rc)
      | None => Some (RSelf k cap, rc)
      end
  | RSelf k cap =>
      if fill_ok cap (ri_fill inp) then Some (RRet k cap OwnRead (self_result (ri_fill inp)), rc) else None
  | AStage f waiters st data len =>
      fl ← rc_flights rc !! f;
      Some (APublish f waiters st len,
            match data with
            | Some bs =>
                if (0 <? fl_copy_waiters fl) && bool_decide (st = kOk) && (0 <? len) && ri_alloc inp then
                  let bytes := take (Z.to_nat len) bs in
                  record_read (fl_key fl) (mkFill kOk bytes (Some len) (Some (fl_value_len fl)))
                    (with_flight f (set_fl_data (Some bytes)) rc)
                else rc
            | None => rc
            end)
  | APublish f waiters st len =>
      fl ← rc_flights rc !! f;
      Some (ARet waiters (Some (fl_key fl, fl_whole fl, fl_recurrent fl)),
            bump_leaders (with_flight f (set_fl_done st len (fl_value_len fl)) rc))
  | WWait tid k f =>
      fl ← rc_flights rc !! f;
      if fl_done fl then Some (WRet k (Some f) (if decide (fl_st fl = kOk) then kReady else kFallback), rc)
      else if ri_timeout inp then Some (WRet k (Some f) kFallback, bump_timeouts rc) else None
  | RRet _ _ _ _ | ARet _ _ | WRet _ _ _ => None
  end.

(** ** The system *)

Inductive RAction :=
| ActRead (id tid : nat) (k : RKey) (cap : Z)
| ActRegister (tid : nat) (k : RKey) (whole : bool) (value_len : Z) (publishes : bool) (now : Z)
| ActComplete (id : nat) (token : Z) (st : Status) (data : option (list Z)) (len recur_ms now1 now2 : Z)
| ActPublished (id tid : nat) (k : RKey)
| ActRecordCoalesced
| ActStep (id : nat) (inp : RInput).

(** The buffer given to [CompleteAsync] holds the length given with it. *)
Definition buffer_ok (data : option (list Z)) (len : Z) : bool :=
  (0 <=? len) && match data with Some bs => len <=? Z.of_nat (length bs) | None => true end.

Definition rstep (a : RAction) (y : CSys) : option CSys :=
  let rc := cs_rc y in
  let start id call rc :=
    if decide (cs_calls y !! id = None) then Some (mkCSys rc (<[id := call]> (cs_calls y))) else None in
  match a with
  | ActRead id tid k cap => if 0 <=? cap then start id (RStart tid k cap) rc else None
  | ActRegister tid k whole value_len publishes now =>
      Some (mkCSys (TryRegisterAsync tid k whole value_len publishes now rc).2 (cs_calls y))
  | ActComplete id token st data len recur_ms now1 now2 =>
      if buffer_ok data len then
        match complete_async token st recur_ms now1 now2 rc with
        | Some (f, waiters, rc) => start id (AStage f waiters st data len) rc
        | None => start id (ARet false None) rc
        end
      else None
  | ActPublished id tid k => let '(call, rc) := published_section tid k rc in start id call rc
  | ActRecordCoalesced => Some (mkCSys (bump_coalesced rc) (cs_calls y))
  | ActStep id inp =>
      call ← cs_calls y !! id;
      '(call, rc) ← rcall_step inp call rc;
      Some (mkCSys rc (<[id := call]> (cs_calls y)))
  end.
