(* ===== verification/CoalesceInv.v ===== *)
(** * The coalescer's invariant

    What a flight, the token of an asynchronous read and a call of the coalescer may
    rely on, and that every step of [Coalescer] keeps_flight it. *)

From S2P Require Import Prelude KvTypes Coalescer.

(** ** Statements *)

(** The flight a call still has to write, and the flight of a call that has not left
    the map yet. *)
Definition writes (c : RCall) : option nat :=
  match c with
  | LFill _ _ f | LErase _ _ f _ _ | LPublish _ _ f _ _ | AStage f _ _ _ _ | APublish f _ _ _ => Some f
  | _ => None
  end.

Definition owns (c : RCall) : option nat :=
  match c with LFill _ _ f | LErase _ _ f _ _ => Some f | _ => None end.

(** A flight without its two counters. *)
Definition flight_core (fl : Flight) : Flight :=
  mkFlight (fl_done fl) (fl_st fl) (fl_len fl) (fl_value_len fl) (fl_data fl) (fl_key fl) (fl_whole fl)
    (fl_recurrent fl) (fl_publishes_to_ram fl) (fl_leader_tid fl) 0 0.

(** The part of a flight fixed at its creation. *)
Definition ident (fl : Flight) : RKey * bool * nat := (fl_key fl, fl_publishes_to_ram fl, fl_leader_tid fl).

(** The bytes of a flight are those of a recorded successful read of its key. *)
Definition sourced (rc : RC) (fl : Flight) (st : Status) (len vlen : Z) : Prop :=
  st = kOk → ∀ d, fl_data fl = Some d →
  ∃ r, (fl_key fl, r) ∈ rc_reads rc ∧ fi_st r = kOk ∧ fi_bytes r = d ∧ len = Z.of_nat (length d) ∧ fi_value_len r = vlen.

(** What a follower's answer is, in terms of the read it shares. *)
Definition shared_result (cap : Z) (r : Fill) : ReadResult :=
  let c := Z.min (Z.of_nat (length (fi_bytes r))) cap in
  mkReadResult kOk (take (Z.to_nat c) (fi_bytes r)) (Some c) (Some (fi_value_len r)).

Definition in_map (rc : RC) (f : nat) (fl : Flight) : Prop := rc_map rc !! fl_key fl = Some f.

Definition rcall_ok (rc : RC) (c : RCall) : Prop :=
  match c with
  | LFill k cap f =>
      ∃ fl, rc_flights rc !! f = Some fl ∧ fl_key fl = k ∧ fl_done fl = false ∧ in_map rc f fl ∧ fl_data fl = None
  | LErase k cap f scratch r =>
      ∃ fl, rc_flights rc !! f = Some fl ∧ fl_key fl = k ∧ fl_done fl = false ∧ in_map rc f fl
            ∧ sourced rc fl (fi_st r) (fi_len r) (fi_value_len r)
  | LPublish k cap f scratch r =>
      ∃ fl, rc_flights rc !! f = Some fl ∧ fl_key fl = k ∧ fl_done fl = false ∧ ¬ in_map rc f fl
            ∧ sourced rc fl (fi_st r) (fi_len r) (fi_value_len r)
  | LReport k cap f scratch r => ∃ fl, rc_flights rc !! f = Some fl ∧ fl_key fl = k ∧ fl_done fl = true
  | FJoin tid k cap f | FCount tid k cap f | FWait tid k cap f =>
      ∃ fl, rc_flights rc !! f = Some fl ∧ fl_key fl = k ∧ fl_leader_tid fl ≠ tid
  | FCopy k cap f => ∃ fl, rc_flights rc !! f = Some fl ∧ fl_key fl = k ∧ fl_done fl = true
  | RRet k cap (FromFlight f) res =>
      ∃ r, (k, r) ∈ rc_reads rc ∧ fi_st r = kOk ∧ res = shared_result cap r
  | AStage f waiters st data len =>
      buffer_ok data len = true
      ∧ ∃ fl, rc_flights rc !! f = Some fl ∧ fl_done fl = false ∧ ¬ in_map rc f fl ∧ fl_data fl = None
  | APublish f waiters st len =>
      ∃ fl, rc_flights rc !! f = Some fl ∧ fl_done fl = false ∧ ¬ in_map rc f fl
            ∧ sourced rc fl st len (fl_value_len fl)
  | WWait tid k f =>
      ∃ fl, rc_flights rc !! f = Some fl ∧ fl_key fl = k ∧ fl_publishes_to_ram fl = true ∧ fl_leader_tid fl ≠ tid
  | WRet k from kReady =>
      ∃ f fl, from = Some f ∧ rc_flights rc !! f = Some fl ∧ fl_key fl = k ∧ fl_publishes_to_ram fl = true
              ∧ fl_done fl = true ∧ fl_st fl = kOk
  | _ => True
  end.

Definition token_ok (rc : RC) (f : nat) : Prop :=
  ∃ fl, rc_flights rc !! f = Some fl ∧ fl_done fl = false ∧ in_map rc f fl ∧ fl_data fl = None.

(** The part that speaks of the members alone. *)
Record rc_ok (rc : RC) : Prop := {
  ro_next f : is_Some (rc_flights rc !! f) → (f < rc_next rc)%nat;
  ro_map k f : rc_map rc !! k = Some f → ∃ fl, rc_flights rc !! f = Some fl ∧ fl_key fl = k ∧ fl_done fl = false;
  ro_done f fl : rc_flights rc !! f = Some fl → fl_done fl = true →
                 sourced rc fl (fl_st fl) (fl_len fl) (fl_value_len fl);
  ro_token t f : rc_tokens rc !! t = Some f → token_ok rc f;
  ro_token_inj t1 t2 f : rc_tokens rc !! t1 = Some f → rc_tokens rc !! t2 = Some f → t1 = t2;
}.

Record cinv (y : CSys) : Prop := {
  ci_rc : rc_ok (cs_rc y);
  ci_call i c : cs_calls y !! i = Some c → rcall_ok (cs_rc y) c;
  ci_token i c t f : cs_calls y !! i = Some c → rc_tokens (cs_rc y) !! t = Some f → writes c ≠ Some f;
  ci_once i j c d f : cs_calls y !! i = Some c → cs_calls y !! j = Some d →
                      writes c = Some f → writes d = Some f → i = j;
}.

(** ** Frames *)

(** The members move on: nothing recorded is lost, a flight keeps_flight its identity, and a
    finished one everything but its counters. *)
Record rc_grows (rc rc' : RC) : Prop := {
  gr_reads x : x ∈ rc_reads rc → x ∈ rc_reads rc';
  gr_flight f fl : rc_flights rc !! f = Some fl →
    ∃ fl', rc_flights rc' !! f = Some fl' ∧ ident fl' = ident fl ∧ (fl_done fl = true → flight_core fl' = flight_core fl);
}.

(** Flight [f] is left alone, its counters apart. *)
Definition keeps_flight (rc rc' : RC) (f : nat) : Prop :=
  ∀ fl, rc_flights rc !! f = Some fl →
  ∃ fl', rc_flights rc' !! f = Some fl' ∧ flight_core fl' = flight_core fl ∧ (in_map rc' f fl' ↔ in_map rc f fl).

Lemma sourced_grows rc rc' fl fl' st len vlen :
  (∀ x, x ∈ rc_reads rc → x ∈ rc_reads rc') → flight_core fl' = flight_core fl →
  sourced rc fl st len vlen → sourced rc' fl' st len vlen.
Proof.
  unfold flight_core. intros Hr Hc Hs Hst d Hd. injection Hc as ? ? ? ? Hdata Hkey ? ? ? ?.
  rewrite Hdata in Hd. destruct (Hs Hst d Hd) as (r & Hin & ?). exists r. rewrite Hkey. auto.
Qed.

Ltac split_core H :=
  let H' := fresh in pose proof H as H'; unfold flight_core in H'; injection H' as ? ? ? ? ? ? ? ? ? ?.

Lemma rcall_ok_frame rc rc' c :
  rc_grows rc rc' → (∀ f, writes c = Some f → keeps_flight rc rc' f) → rcall_ok rc c → rcall_ok rc' c.
Proof.
  intros [Hr Hg] Hk Hc. destruct c; cbn [rcall_ok writes] in *; try done.
  (* writers *)
  1, 2, 3: destruct Hc as (fl & Hf & <- & Hd & Hm & Hs); destruct (Hk f eq_refl fl Hf) as (fl' & -> & Hcore & Hmap);
    split_core Hcore; exists fl'; repeat split; try congruence; try (by rewrite Hmap);
    by eapply sourced_grows.
  (* followers *)
  1, 2, 3: destruct Hc as (fl & Hf & <- & Ht); destruct (Hg f fl Hf) as (fl' & -> & Hid & _);
    injection Hid as ? ? ?; exists fl'; repeat split; congruence.
  1, 2: destruct Hc as (fl & Hf & <- & Ht); destruct (Hg f fl Hf) as (fl' & -> & Hid & Hd);
    specialize (Hd Ht); split_core Hd; exists fl'; repeat split; congruence.
  - destruct role; try done. destruct Hc as (r & ? & ?). exists r. auto.
  - destruct Hc as (Hb & fl & Hf & Hd & Hm & Hdata). destruct (Hk f eq_refl fl Hf) as (fl' & -> & Hcore & Hmap).
    split_core Hcore. split; [done|]. exists fl'. rewrite Hmap. repeat split; first [done | congruence].
  - destruct Hc as (fl & Hf & Hd & Hm & Hs). destruct (Hk f eq_refl fl Hf) as (fl' & -> & Hcore & Hmap).
    split_core Hcore. exists fl'. rewrite Hmap. repeat split; try congruence.
    replace (fl_value_len fl') with (fl_value_len fl) by congruence. by eapply sourced_grows.
  - destruct Hc as (fl & Hf & <- & Hp & Ht). destruct (Hg f fl Hf) as (fl' & -> & Hid & _).
    injection Hid as ? ? ?. exists fl'. repeat split; congruence.
  - destruct res; try done. destruct Hc as (f & fl & -> & Hf & <- & Hp & Hd & Hst).
    destruct (Hg f fl Hf) as (fl' & Hf' & Hid & Hd'). specialize (Hd' Hd). split_core Hd'.
    exists f, fl'. repeat split; congruence.
Qed.

Lemma token_ok_frame rc rc' f : keeps_flight rc rc' f → token_ok rc f → token_ok rc' f.
Proof.
  intros Hk (fl & Hf & Hd & Hm & Hdata). destruct (Hk fl Hf) as (fl' & Hf' & Hcore & Hmap).
  split_core Hcore. exists fl'. rewrite Hmap. repeat split; first [done | congruence].
Qed.

(** One call moves: it alone may write the flight [w]. *)
Lemma cinv_move y rc' i c' (w : option nat) :
  cinv y → rc_ok rc' → rc_grows (cs_rc y) rc' →
  (∀ f, w ≠ Some f → keeps_flight (cs_rc y) rc' f) →
  (∀ t f, rc_tokens rc' !! t = Some f → rc_tokens (cs_rc y) !! t = Some f ∧ w ≠ Some f) →
  (∀ j c f, j ≠ i → cs_calls y !! j = Some c → w = Some f → writes c ≠ Some f) →
  rcall_ok rc' c' → (writes c' = None ∨ writes c' = w) →
  cinv (mkCSys rc' (<[i := c']> (cs_calls y))).
Proof.
  intros [Hrc Hcall Htok Honce] Hrc' Hg Hk Ht Hw Hc' Hwc. split; cbn [cs_rc cs_calls]; [done|..].
  - intros j c. destruct (decide (j = i)) as [->|Hj].
    + rewrite lookup_insert_eq. by intros [= <-].
    + rewrite lookup_insert_ne by done. intros Hl. apply (rcall_ok_frame (cs_rc y)); [done| |by eapply Hcall].
      intros f Hf. apply Hk. intros Hwf. by eapply Hw.
  - intros j c t f. destruct (decide (j = i)) as [->|Hj].
    + rewrite lookup_insert_eq. intros [= <-] Hl. destruct (Ht _ _ Hl) as [_ ?]. destruct Hwc; congruence.
    + rewrite lookup_insert_ne by done. intros Hl Htk. destruct (Ht _ _ Htk) as [? _]. by eapply Htok.
  - intros j l c d f. destruct (decide (j = i)) as [->|Hj], (decide (l = i)) as [->|Hl]; [done|..].
    + rewrite lookup_insert_eq, lookup_insert_ne by done. intros [= <-] Hd Hf Hf'.
      destruct Hwc as [?|He]; [congruence|]. rewrite Hf in He. by destruct (Hw l d f Hl Hd (eq_sym He)).
    + rewrite lookup_insert_eq, lookup_insert_ne by done. intros Hd [= <-] Hf Hf'.
      destruct Hwc as [?|He]; [congruence|]. rewrite Hf' in He. by destruct (Hw j c f Hj Hd (eq_sym He)).
    + rewrite !lookup_insert_ne by done. apply Honce.
Qed.

(** ** Changes of the members *)

(** The same flights, map, tokens and reads. *)
Definition same_rc (rc rc' : RC) : Prop :=
  rc_map rc' = rc_map rc ∧ rc_tokens rc' = rc_tokens rc ∧ rc_flights rc' = rc_flights rc
  ∧ rc_next rc' = rc_next rc ∧ rc_reads rc' = rc_reads rc.

(** One flight that is not finished may change, and leave the map; others stay. *)
Record touches (rc rc' : RC) (f0 : nat) (fl0 fl1 : Flight) : Prop := {
  to_old : rc_flights rc !! f0 = Some fl0;
  to_new : rc_flights rc' !! f0 = Some fl1;
  to_other f : f ≠ f0 → rc_flights rc' !! f = rc_flights rc !! f;
  to_ident : ident fl1 = ident fl0;
  to_open : fl_done fl0 = false;
  to_reads x : x ∈ rc_reads rc → x ∈ rc_reads rc';
  to_next : rc_next rc' = rc_next rc;
  to_map k f : rc_map rc' !! k = Some f → rc_map rc !! k = Some f;
  to_kept k f : f ≠ f0 → rc_map rc !! k = Some f → rc_map rc' !! k = Some f;
}.

Lemma keeps_refl rc f : keeps_flight rc rc f.
Proof. intros fl ?. by exists fl. Qed.

Lemma grows_refl rc : rc_grows rc rc.
Proof. split; [done|]. intros f fl ?. by exists fl. Qed.

Lemma touches_grows rc rc' f0 fl0 fl1 : touches rc rc' f0 fl0 fl1 → rc_grows rc rc'.
Proof.
  intros T. split; [apply (to_reads _ _ _ _ _ T)|]. intros f fl Hf. destruct (decide (f = f0)) as [->|Hne].
  - rewrite (to_old _ _ _ _ _ T) in Hf. injection Hf as <-. exists fl1. split; [by apply T|].
    split; [by apply T|]. rewrite (to_open _ _ _ _ _ T). done.
  - exists fl. rewrite (to_other _ _ _ _ _ T) by done. done.
Qed.

Lemma touches_keeps rc rc' f0 fl0 fl1 f : touches rc rc' f0 fl0 fl1 → f ≠ f0 → keeps_flight rc rc' f.
Proof.
  intros T Hne fl Hf. exists fl. rewrite (to_other _ _ _ _ _ T) by done. split_and!; [done|done|].
  unfold in_map. split; [apply (to_map _ _ _ _ _ T)|by apply (to_kept _ _ _ _ _ T)].
Qed.

Lemma touches_ok rc rc' f0 fl0 fl1 :
  rc_ok rc → touches rc rc' f0 fl0 fl1 →
  (∀ t f, rc_tokens rc' !! t = Some f → rc_tokens rc !! t = Some f ∧ f ≠ f0) →
  (fl_done fl1 = true → ¬ in_map rc' f0 fl1 ∧ sourced rc' fl1 (fl_st fl1) (fl_len fl1) (fl_value_len fl1)) →
  rc_ok rc'.
Proof.
  intros [Hn Hm Hd Ht Hi] T Htok Hdone. split.
  - intros f Hs. rewrite (to_next _ _ _ _ _ T). apply Hn. destruct (decide (f = f0)) as [->|Hne].
    + by rewrite (to_old _ _ _ _ _ T).
    + by rewrite <-(to_other _ _ _ _ _ T).
  - intros k f Hk. destruct (Hm _ _ (to_map _ _ _ _ _ T _ _ Hk)) as (fl & Hf & Hkey & Ho).
    destruct (decide (f = f0)) as [->|Hne].
    + exists fl1. rewrite (to_old _ _ _ _ _ T) in Hf. injection Hf as <-.
      pose proof (to_ident _ _ _ _ _ T) as Hid. injection Hid as Hk1 _ _.
      split_and!; [by apply T|congruence|]. apply not_true_is_false. intros Hdn.
      destruct (Hdone Hdn) as [Hno _]. apply Hno. unfold in_map. by rewrite Hk1, Hkey.
    + exists fl. by rewrite (to_other _ _ _ _ _ T).
  - intros f fl Hf Hdn. destruct (decide (f = f0)) as [->|Hne].
    + rewrite (to_new _ _ _ _ _ T) in Hf. injection Hf as <-. by apply Hdone.
    + rewrite (to_other _ _ _ _ _ T) in Hf by done. eapply sourced_grows; [|reflexivity|by eapply Hd].
      apply (to_reads _ _ _ _ _ T).
  - intros t f Hl. destruct (Htok _ _ Hl) as [Hl' Hne].
    eapply token_ok_frame; [by eapply touches_keeps|by eapply Ht].
  - intros t1 t2 f H1%Htok H2%Htok. by apply (Hi _ _ f); [apply H1|apply H2].
Qed.

(** Counters of a flight move. *)
Lemma counters_frame rc rc' f0 g :
  (∀ fl, flight_core (g fl) = flight_core fl) → rc_map rc' = rc_map rc → rc_tokens rc' = rc_tokens rc →
  rc_flights rc' = alter g f0 (rc_flights rc) → rc_next rc' = rc_next rc → rc_reads rc' = rc_reads rc →
  (∀ f, keeps_flight rc rc' f) ∧ rc_grows rc rc' ∧ (rc_ok rc → rc_ok rc').
Proof.
  intros Hg Em Et Ef En Er.
  assert (Hl : ∀ f fl, rc_flights rc !! f = Some fl →
                 ∃ fl', rc_flights rc' !! f = Some fl' ∧ flight_core fl' = flight_core fl).
  { intros f fl Hf. rewrite Ef. destruct (decide (f = f0)) as [->|Hne].
    - exists (g fl). by rewrite lookup_alter_eq, Hf.
    - exists fl. by rewrite lookup_alter_ne. }
  assert (Hk : ∀ f, keeps_flight rc rc' f).
  { intros f fl Hf. destruct (Hl f fl Hf) as (fl' & Hf' & Hc). exists fl'. split_and!; [done..|].
    split_core Hc. unfold in_map. rewrite Em. replace (fl_key fl') with (fl_key fl) by congruence. done. }
  assert (Hb : ∀ f fl', rc_flights rc' !! f = Some fl' → ∃ fl, rc_flights rc !! f = Some fl ∧ flight_core fl' = flight_core fl).
  { intros f fl' Hf. rewrite Ef in Hf. destruct (decide (f = f0)) as [->|Hne].
    - rewrite lookup_alter_eq in Hf. apply fmap_Some in Hf as (fl & ? & ->). by exists fl.
    - rewrite lookup_alter_ne in Hf by done. by exists fl'. }
  split_and!; [done| |].
  - split; [by rewrite Er|]. intros f fl Hf. destruct (Hl f fl Hf) as (fl' & ? & Hc). exists fl'.
    split_core Hc. split_and!; [done| |done]. unfold ident. congruence.
  - intros [Hn Hm Hd Ht Hi]. split.
    + intros f [fl' Hf]. rewrite En. apply Hn. destruct (Hb f fl' Hf) as (fl & ? & _). by exists fl.
    + intros k f. rewrite Em. intros Hmk. destruct (Hm k f Hmk) as (fl & Hf & <- & Ho).
      destruct (Hl f fl Hf) as (fl' & ? & Hc). split_core Hc. exists fl'. repeat split; congruence.
    + intros f fl' Hf Hdn. destruct (Hb f fl' Hf) as (fl & Hf' & Hc). pose proof Hc as Hc'. split_core Hc'.
      assert (Hdf : fl_done fl = true) by congruence. specialize (Hd f fl Hf' Hdf).
      replace (fl_st fl') with (fl_st fl) by congruence. replace (fl_len fl') with (fl_len fl) by congruence.
      replace (fl_value_len fl') with (fl_value_len fl) by congruence.
      eapply sourced_grows; [|done|done]. by rewrite Er.
    + intros t f. rewrite Et. intros Htk. eapply token_ok_frame; [apply Hk|by eapply Ht].
    + rewrite Et. apply Hi.
Qed.

(** A new flight enters the map. *)
Lemma enter_frame rc rc' k fl0 :
  rc_ok rc → rc_map rc !! k = None → fl_key fl0 = k → fl_done fl0 = false → fl_data fl0 = None →
  rc_map rc' = <[k := rc_next rc]> (rc_map rc) → rc_flights rc' = <[rc_next rc := fl0]> (rc_flights rc) →
  rc_next rc' = S (rc_next rc) → rc_reads rc' = rc_reads rc →
  (∀ t f, rc_tokens rc' !! t = Some f → rc_tokens rc !! t = Some f ∨ f = rc_next rc) →
  (∀ t1 t2, rc_tokens rc' !! t1 = Some (rc_next rc) → rc_tokens rc' !! t2 = Some (rc_next rc) → t1 = t2) →
  (∀ f, keeps_flight rc rc' f) ∧ rc_grows rc rc' ∧ rc_ok rc' ∧ token_ok rc' (rc_next rc).
Proof.
  intros [Hn Hm Hd Ht Hi] Hk Hkey Ho Hdata Em Ef En Er Htok Htn.
  assert (Hne : ∀ f fl, rc_flights rc !! f = Some fl → rc_flights rc' !! f = Some fl ∧ f ≠ rc_next rc).
  { intros f fl Hf. assert (f < rc_next rc)%nat by (apply Hn; by exists fl). rewrite Ef, lookup_insert_ne by lia.
    split; [done|lia]. }
  assert (Hkeep : ∀ f, keeps_flight rc rc' f).
  { intros f fl Hf. destruct (Hne f fl Hf) as [Hf' Hx]. exists fl. split_and!; [done..|]. unfold in_map.
    rewrite Em. destruct (decide (fl_key fl = k)) as [->|?].
    - rewrite lookup_insert_eq, Hk. split; congruence.
    - by rewrite lookup_insert_ne. }
  assert (Hnew : token_ok rc' (rc_next rc)).
  { exists fl0. rewrite Ef, lookup_insert_eq. unfold in_map. by rewrite Em, Hkey, lookup_insert_eq. }
  assert (Hlt : ∀ t f, rc_tokens rc !! t = Some f → f ≠ rc_next rc).
  { intros t f Hl. destruct (Ht t f Hl) as (fl & Hf & _). by apply (Hne f fl). }
  split_and!; [done| | |done].
  - split; [by rewrite Er|]. intros f fl Hf. exists fl. split; [by apply Hne|done].
  - split.
    + intros f [fl Hf]. rewrite En. rewrite Ef in Hf. apply lookup_insert_Some in Hf as [[<- _]|[_ Hf]]; [lia|].
      assert (f < rc_next rc)%nat by (apply Hn; by exists fl). lia.
    + intros k' f. rewrite Em. intros [[<- <-]|[_ Hf]]%lookup_insert_Some.
      * exists fl0. by rewrite Ef, lookup_insert_eq.
      * destruct (Hm _ _ Hf) as (fl & Hfl & ?). exists fl. split; [by apply Hne|done].
    + intros f fl. rewrite Ef. intros [[<- <-]|[_ Hf]]%lookup_insert_Some; [congruence|]. intros Hdn.
      eapply sourced_grows; [|reflexivity|by eapply Hd]. by rewrite Er.
    + intros t f Hl. destruct (Htok t f Hl) as [Hl'| ->]; [|done]. eapply token_ok_frame; [apply Hkeep|by eapply Ht].
    + intros t1 t2 f H1 H2. destruct (Htok _ _ H1) as [H1'| ->]; [|by apply Htn].
      destruct (Htok _ _ H2) as [H2'| ->]; [by apply (Hi _ _ f)|by apply Htn].
Qed.

Lemma same_rc_frame rc rc' :
  same_rc rc rc' → (∀ f, keeps_flight rc rc' f) ∧ rc_grows rc rc' ∧ (rc_ok rc → rc_ok rc').
Proof.
  intros (Em & Et & Ef & En & Er). apply (counters_frame rc rc' 0 id); try done. by rewrite Ef, alter_id.
Qed.

Lemma touches_refl rc f fl : rc_flights rc !! f = Some fl → fl_done fl = false → touches rc rc f fl fl.
Proof. by split. Qed.

(** ** Steps *)

(** A call that writes no flight any more. *)
Lemma move_quiet y rc' i c' :
  cinv y → (∀ f, keeps_flight (cs_rc y) rc' f) ∧ rc_grows (cs_rc y) rc' ∧ (rc_ok (cs_rc y) → rc_ok rc') →
  rc_tokens rc' = rc_tokens (cs_rc y) → writes c' = None → rcall_ok rc' c' →
  cinv (mkCSys rc' (<[i := c']> (cs_calls y))).
Proof.
  intros Hy (Hk & Hg & Hrc) Ht Hw Hc. apply (cinv_move y rc' i c' None); auto.
  - apply Hrc, Hy.
  - by rewrite Ht.
Qed.

(** A call that writes its flight. *)
Lemma move_write y rc' i c c' f fl0 fl1 :
  cinv y → cs_calls y !! i = Some c → writes c = Some f →
  touches (cs_rc y) rc' f fl0 fl1 → rc_tokens rc' = rc_tokens (cs_rc y) →
  (fl_done fl1 = true → ¬ in_map rc' f fl1 ∧ sourced rc' fl1 (fl_st fl1) (fl_len fl1) (fl_value_len fl1)) →
  rcall_ok rc' c' → (writes c' = None ∨ writes c' = Some f) →
  cinv (mkCSys rc' (<[i := c']> (cs_calls y))).
Proof.
  intros Hy Hi Hw T Et Hd Hc Hw'.
  assert (Htok : ∀ t f', rc_tokens rc' !! t = Some f' → rc_tokens (cs_rc y) !! t = Some f' ∧ f' ≠ f).
  { intros t f'. rewrite Et. intros Hl. split; [done|]. intros ->. by apply (ci_token y Hy i c t f). }
  apply (cinv_move y rc' i c' (Some f)); try done.
  - eapply touches_ok; [apply Hy|done..].
  - by eapply touches_grows.
  - intros f' Hne. eapply touches_keeps; [done|congruence].
  - intros t f' Hl%Htok. destruct Hl as [? ?]. split; [done|congruence].
  - intros j d f' Hj Hd' [= <-] Hwd. by apply Hj, (ci_once y Hy j i d c f).
Qed.

Lemma flight_erase_lookup k f m k' f' :
  flight_erase k f m !! k' = Some f' ↔ m !! k' = Some f' ∧ (k' ≠ k ∨ f' ≠ f).
Proof.
  unfold flight_erase. case_decide as He.
  - rewrite lookup_delete_Some. split; [intros [? ?]; split; [done|by left]|]. intros [Hl [?|?]]; split; try done.
    intros <-. congruence.
  - split; [|by intros [? _]]. intros Hl. split; [done|]. destruct (decide (k' = k)) as [->|]; [right; congruence|by left].
Qed.

Lemma fill_ok_len cap r :
  fill_ok cap r = true → fi_st r = kOk → fi_len r = Z.of_nat (length (fi_bytes r)).
Proof.
  unfold fill_ok, fi_len. intros [_ [Hn|He]%orb_true_iff]%andb_true_iff Hst.
  - by apply bool_decide_eq_true in Hn.
  - apply bool_decide_eq_true in He. by rewrite He.
Qed.

Section Leader.
Context (y : CSys) (i : nat) (k : RKey) (cap : Z) (f : nat) (Hy : cinv y).

Lemma step_lfill inp :
  cs_calls y !! i = Some (LFill k cap f) → fill_ok cap (ri_fill inp) = true →
  ∀ c' rc', rcall_step inp (LFill k cap f) (cs_rc y) = Some (c', rc') →
  cinv (mkCSys rc' (<[i := c']> (cs_calls y))).
Proof using Hy.
  intros Hi Hf c' rc'. cbn [rcall_step]. rewrite Hf. intros [= <- <-].
  destruct (ci_call y Hy _ _ Hi) as (fl & Hl & Hk & Ho & Hm & Hd). destruct (ri_alloc inp).
  - eapply (move_write y _ i _ _ f fl (set_fl_data (Some (fi_bytes (ri_fill inp))) fl));
      [done|exact Hi|done| |done|by cbn; rewrite Ho| |by right].
    + split; cbn; try done; [by rewrite lookup_alter_eq, Hl|by intros; rewrite lookup_alter_ne|].
      intros x Hx. by apply elem_of_app; left.
    + exists (set_fl_data (Some (fi_bytes (ri_fill inp))) fl). cbn. rewrite lookup_alter_eq, Hl.
      split_and!; try done. intros Hst d [= <-]. exists (ri_fill inp). cbn [set_fl_data fl_key]. rewrite ?Hk. split_and!; try done.
      * apply elem_of_app. right. by apply list_elem_of_singleton.
      * by eapply fill_ok_len.
  - eapply (move_write y _ i _ _ f fl fl);
      [done|exact Hi|done|by apply touches_refl|done|by rewrite Ho| |by right].
    exists fl. split_and!; try done. intros _ d. by rewrite Hd.
Qed.

Lemma step_lerase inp scratch r :
  cs_calls y !! i = Some (LErase k cap f scratch r) →
  ∀ c' rc', rcall_step inp (LErase k cap f scratch r) (cs_rc y) = Some (c', rc') →
  cinv (mkCSys rc' (<[i := c']> (cs_calls y))).
Proof using Hy.
  intros Hi c' rc'. cbn [rcall_step]. intros [= <- <-].
  destruct (ci_call y Hy _ _ Hi) as (fl & Hl & Hk & Ho & Hm & Hs).
  eapply (move_write y _ i _ _ f fl fl); [done|exact Hi|done| |done|by rewrite Ho| |by right].
  - split; cbn; try done.
    + by intros k' f' [? _]%flight_erase_lookup.
    + intros k' f' Hne Hl'. apply flight_erase_lookup. by split; [|right].
  - exists fl. split_and!; try done. unfold in_map. cbn. rewrite flight_erase_lookup, Hk. intros [_ [?|?]]; done.
Qed.

Lemma step_lpublish inp scratch r :
  cs_calls y !! i = Some (LPublish k cap f scratch r) →
  ∀ c' rc', rcall_step inp (LPublish k cap f scratch r) (cs_rc y) = Some (c', rc') →
  cinv (mkCSys rc' (<[i := c']> (cs_calls y))).
Proof using Hy.
  intros Hi c' rc'. cbn [rcall_step]. intros [= <- <-].
  destruct (ci_call y Hy _ _ Hi) as (fl & Hl & Hk & Ho & Hm & Hs).
  eapply (move_write y _ i _ _ f fl (set_fl_done (fi_st r) (fi_len r) (fi_value_len r) fl));
    [done|exact Hi|done| |done|done| |by left].
  - split; cbn; try done; [by rewrite lookup_alter_eq, Hl|by intros; rewrite lookup_alter_ne].
  - eexists. cbn. by rewrite lookup_alter_eq, Hl.
Qed.
End Leader.

Section Async.
Context (y : CSys) (i f : nat) (Hy : cinv y).

Lemma step_astage inp waiters st data len :
  cs_calls y !! i = Some (AStage f waiters st data len) →
  ∀ c' rc', rcall_step inp (AStage f waiters st data len) (cs_rc y) = Some (c', rc') →
  cinv (mkCSys rc' (<[i := c']> (cs_calls y))).
Proof using Hy.
  intros Hi c' rc'. cbn [rcall_step]. destruct (ci_call y Hy _ _ Hi) as (Hb & fl & Hl & Ho & Hm & Hd).
  rewrite Hl. cbn [mbind option_bind]. intros [= <- <-].
  assert (Hsame : cinv (mkCSys (cs_rc y) (<[i := APublish f waiters st len]> (cs_calls y)))).
  { eapply (move_write y _ i _ _ f fl fl);
      [done|exact Hi|done|by apply touches_refl|done|by rewrite Ho| |by right].
    exists fl. split_and!; try done. intros _ d. by rewrite Hd. }
  destruct data as [bs|]; [|exact Hsame].
  destruct ((0 <? fl_copy_waiters fl) && bool_decide (st = kOk) && (0 <? len) && ri_alloc inp); [|exact Hsame].
  set (bytes := take (Z.to_nat len) bs).
  assert (Hlen : len = Z.of_nat (length bytes)).
  { subst bytes. unfold buffer_ok in Hb. apply andb_true_iff in Hb as [? ?]. rewrite length_take. lia. }
  eapply (move_write y _ i _ _ f fl (set_fl_data (Some bytes) fl));
    [done|exact Hi|done| |done|by cbn; rewrite Ho| |by right].
  - split; cbn; try done; [by rewrite lookup_alter_eq, Hl|by intros; rewrite lookup_alter_ne|].
    intros x Hx. by apply elem_of_app; left.
  - exists (set_fl_data (Some bytes) fl). cbn. rewrite lookup_alter_eq, Hl. split_and!; try done.
    intros Hst d [= <-]. eexists. split_and!; [apply elem_of_app; right; by apply list_elem_of_singleton|done..].
Qed.

Lemma step_apublish inp waiters st len :
  cs_calls y !! i = Some (APublish f waiters st len) →
  ∀ c' rc', rcall_step inp (APublish f waiters st len) (cs_rc y) = Some (c', rc') →
  cinv (mkCSys rc' (<[i := c']> (cs_calls y))).
Proof using Hy.
  intros Hi c' rc'. cbn [rcall_step]. destruct (ci_call y Hy _ _ Hi) as (fl & Hl & Ho & Hm & Hs).
  rewrite Hl. cbn [mbind option_bind]. intros [= <- <-].
  eapply (move_write y _ i _ _ f fl (set_fl_done st len (fl_value_len fl) fl));
    [done|exact Hi|done| |done|done|done|by left].
  split; cbn; try done; [by rewrite lookup_alter_eq, Hl|by intros; rewrite lookup_alter_ne].
Qed.
End Async.

Section Others.
Context (y : CSys) (i : nat) (Hy : cinv y).

Lemma same_move rc' c' :
  same_rc (cs_rc y) rc' → writes c' = None → rcall_ok rc' c' →
  cinv (mkCSys rc' (<[i := c']> (cs_calls y))).
Proof using Hy. intros Hs. apply move_quiet; [done|by apply same_rc_frame|by destruct Hs as (? & ? & _)]. Qed.

Lemma count_move f g c' :
  (∀ fl, flight_core (g fl) = flight_core fl) → writes c' = None → rcall_ok (with_flight f g (cs_rc y)) c' →
  cinv (mkCSys (with_flight f g (cs_rc y)) (<[i := c']> (cs_calls y))).
Proof using Hy. intros Hg. by apply move_quiet; [|apply (counters_frame _ _ f g)|]. Qed.

Lemma step_rstart tid k cap : 
  cinv (mkCSys (read_start tid k cap (cs_rc y)).2 (<[i := (read_start tid k cap (cs_rc y)).1]> (cs_calls y))).
Proof using Hy.
  unfold read_start. destruct (rc_map (cs_rc y) !! k) as [f|] eqn:Hk; cbn [fst snd].
  - apply same_move; [done|by case_decide|].
    destruct (ro_map _ (ci_rc y Hy) k f Hk) as (fl & Hf & Hkey & _). rewrite Hf. cbn [fmap option_fmap option_map].
    case_decide as Ht; [done|]. exists fl. split_and!; [done|done|congruence].
  - set (rc' := mkRC _ _ _ _ _ _ _ _ _ _ _ _).
    destruct (enter_frame (cs_rc y) rc' k (new_flight k tid)) as (Hkeep & Hg & Hok & Htk); try done.
    { apply (ci_rc y Hy). }
    { intros t f. by left. }
    { intros t1 t2 H1. destruct (ro_token _ (ci_rc y Hy) _ _ H1) as (fl & Hf & _).
      pose proof (ro_next _ (ci_rc y Hy) _ (ltac:(by eexists) : is_Some _)). lia. }
    assert (Hfresh : ∀ fl, rc_flights (cs_rc y) !! rc_next (cs_rc y) ≠ Some fl).
    { intros fl Hf. pose proof (ro_next _ (ci_rc y Hy) _ (ltac:(by eexists) : is_Some _)). lia. }
    apply (cinv_move y rc' i _ (Some (rc_next (cs_rc y)))); auto.
    + intros t f Hl. split; [done|]. intros [= <-]. destruct (ro_token _ (ci_rc y Hy) _ _ Hl) as (fl & Hf & _).
      by apply (Hfresh fl).
    + intros j c f _ Hc [= <-] Hw. pose proof (ci_call y Hy _ _ Hc) as Hcall.
      destruct c; try discriminate Hw; injection Hw as ->; cbn in Hcall; naive_solver.
    + destruct Htk as (fl & Hf & Ho & Hm & Hd). exists fl. split_and!; try done.
      cbn in Hf. rewrite lookup_insert_eq in Hf. by injection Hf as <-.
Qed.

Lemma step_rcopy k cap f fl :
  cs_calls y !! i = Some (FCopy k cap f) → rc_flights (cs_rc y) !! f = Some fl →
  ∀ res, follower_result cap fl = Some res → rcall_ok (cs_rc y) (RRet k cap (FromFlight f) res).
Proof using Hy.
  intros Hi Hf res. destruct (ci_call y Hy _ _ Hi) as (fl' & Hf' & <- & Hd). rewrite Hf in Hf'.
  injection Hf' as <-. unfold follower_result. case_decide as Hst; [|done].
  destruct (fl_data fl) as [d|] eqn:Hdata; [|done]. cbn [mbind option_bind]. intros [= <-].
  destruct (ro_done _ (ci_rc y Hy) f fl Hf Hd Hst d Hdata) as (r & Hin & Hr & Hb & Hlen & Hv).
  exists r. split_and!; [done|done|]. unfold shared_result. by rewrite Hb, Hlen, Hv.
Qed.

Lemma step_call inp c c' rc' :
  cs_calls y !! i = Some c → rcall_step inp c (cs_rc y) = Some (c', rc') →
  cinv (mkCSys rc' (<[i := c']> (cs_calls y))).
Proof using Hy.
  intros Hi Hstep. pose proof (ci_call y Hy _ _ Hi) as Hc.
  destruct c; cbn [rcall_step] in Hstep; try discriminate Hstep.
  - injection Hstep as Hs. pose proof (step_rstart tid k cap) as H. by rewrite Hs in H.
  - eapply step_lfill; [done|exact Hi| |exact Hstep]. by destruct (fill_ok cap (ri_fill inp)).
  - by eapply (step_lerase _ _ k cap f Hy inp).
  - by eapply (step_lpublish _ _ k cap f Hy inp).
  - injection Hstep as <- <-. destruct Hc as (fl & Hf & ? & ?). apply count_move; [done|done|].
    eexists. cbn. by rewrite lookup_alter_eq, Hf.
  - injection Hstep as <- <-. destruct Hc as (fl & Hf & ? & ?). apply count_move; [done|done|].
    eexists. cbn. by rewrite lookup_alter_eq, Hf.
  - destruct Hc as (fl & Hf & ? & ?). rewrite Hf in Hstep. cbn in Hstep.
    destruct (fl_done fl) eqn:Hd, (ri_timeout inp); try discriminate Hstep; injection Hstep as <- <-;
      apply same_move; try done; by exists fl.
  - destruct Hc as (fl & Hf & Hc). rewrite Hf in Hstep. cbn [mbind option_bind] in Hstep.
    destruct (follower_result cap fl) as [res|] eqn:Hr; injection Hstep as <- <-; [|by apply same_move].
    apply same_move; [done|done|]. exact (step_rcopy k cap f fl Hi Hf res Hr).
  - destruct (fill_ok _ _); [|discriminate Hstep]. injection Hstep as <- <-. by apply same_move.
  - destruct Hc as (fl & Hf & Hc). rewrite Hf in Hstep. cbn in Hstep. injection Hstep as <- <-. by apply same_move.
  - by eapply (step_astage _ _ f Hy inp).
  - by eapply (step_apublish _ _ f Hy inp).
  - destruct Hc as (fl & Hf & <- & Hp & ?). rewrite Hf in Hstep. cbn in Hstep.
    destruct (fl_done fl) eqn:Hd, (ri_timeout inp); try discriminate Hstep; injection Hstep as <- <-;
      apply same_move; try done; case_decide; try done; by exists f, fl.
Qed.

Lemma step_published tid k :
  cinv (mkCSys (published_section tid k (cs_rc y)).2
          (<[i := (published_section tid k (cs_rc y)).1]> (cs_calls y))).
Proof using Hy.
  unfold published_section. destruct (rc_map (cs_rc y) !! k) as [f|] eqn:Hk; [|by apply same_move].
  destruct (rc_flights (cs_rc y) !! f) as [fl|] eqn:Hf; [|by apply same_move].
  destruct (fl_publishes_to_ram fl) eqn:Hp; [|by apply same_move].
  case_decide as Ht; [by apply same_move|]. apply count_move; [done|done|].
  destruct (ro_map _ (ci_rc y Hy) k f Hk) as (fl' & Hf' & Hkey & _).
  eexists. cbn. rewrite lookup_alter_eq, Hf. split_and!; [done|cbn; congruence|done|done].
Qed.

Lemma step_complete token st data len recur_ms now1 now2 f waiters rc' :
  buffer_ok data len = true → complete_async token st recur_ms now1 now2 (cs_rc y) = Some (f, waiters, rc') →
  cinv (mkCSys rc' (<[i := AStage f waiters st data len]> (cs_calls y))).
Proof using Hy.
  unfold complete_async. intros Hb. destruct (rc_tokens (cs_rc y) !! token) as [f0|] eqn:Ht; [|done].
  cbn [mbind option_bind]. destruct (ro_token _ (ci_rc y Hy) _ _ Ht) as (fl & Hf & Ho & Hm & Hd). rewrite Hf.
  cbn [mbind option_bind]. destruct (if _ : bool then _ else _) as [fifo recents]. intros [= <- <- <-].
  set (rc' := mkRC _ _ _ _ _ _ _ _ _ _ _ _).
  assert (T : touches (cs_rc y) rc' f0 fl fl).
  { split; cbn; try done.
    - by intros k' f' [? _]%flight_erase_lookup.
    - intros k' f' Hne Hl'. apply flight_erase_lookup. by split; [|right]. }
  assert (Htok : ∀ t f, rc_tokens rc' !! t = Some f → rc_tokens (cs_rc y) !! t = Some f ∧ f ≠ f0).
  { intros t f'. cbn. rewrite lookup_delete_Some. intros [Hne Hl]. split; [done|]. intros ->.
    by apply Hne, (ro_token_inj _ (ci_rc y Hy) _ _ f0). }
  apply (cinv_move y rc' i _ (Some f0)).
  - done.
  - eapply touches_ok; [apply Hy|done|done|by rewrite Ho].
  - by eapply touches_grows.
  - intros f' Hne. eapply touches_keeps; [done|congruence].
  - intros t f' [? ?]%Htok. split; [done|congruence].
  - intros j c f' _ Hc [= <-]. by eapply (ci_token y Hy j c token).
  - split; [done|]. exists fl. split_and!; try done. unfold in_map. cbn. rewrite flight_erase_lookup.
    intros [_ [?|?]]; done.
  - by right.
Qed.

Lemma step_register tid k whole vlen publishes now :
  cinv (mkCSys (TryRegisterAsync tid k whole vlen publishes now (cs_rc y)).2 (cs_calls y)).
Proof using Hy.
  unfold TryRegisterAsync. destruct (rc_map (cs_rc y) !! k) as [f|] eqn:Hk; [by destruct y|].
  set (t := u64 _). set (rc' := mkRC _ _ _ _ _ _ _ _ _ _ _ _). cbn [snd].
  assert (Hnext : ∀ f fl, rc_flights (cs_rc y) !! f = Some fl → f ≠ rc_next (cs_rc y)).
  { intros f fl Hf. pose proof (ro_next _ (ci_rc y Hy) f (ltac:(by eexists))). lia. }
  assert (Hold : ∀ t' f, rc_tokens (cs_rc y) !! t' = Some f → f ≠ rc_next (cs_rc y)).
  { intros t' f Hl. destruct (ro_token _ (ci_rc y Hy) _ _ Hl) as (fl & Hf & _). by eapply Hnext. }
  assert (Htok : ∀ t' f, rc_tokens rc' !! t' = Some f →
                   rc_tokens (cs_rc y) !! t' = Some f ∨ (f = rc_next (cs_rc y) ∧ t' = t)).
  { intros t' f. cbn. destruct (rc_tokens (cs_rc y) !! t); [by left|].
    intros [[<- <-]|[_ ?]]%lookup_insert_Some; [by right|by left]. }
  destruct (enter_frame (cs_rc y) rc' k
              (mkFlight false kInvalid 0 vlen None k whole
                 (match (if whole && negb publishes then rc_recents (cs_rc y) !! k else None) with
                  | Some deadline => now <=? deadline | None => false end) publishes tid 0 0))
    as (Hkeep & Hg & Hok & Htk); try done; [apply (ci_rc y Hy)|by intros t' f [?|[? _]]%Htok; auto|..].
  { intros t1 t2 [H1|[_ ->]]%Htok [H2|[_ ->]]%Htok; try done; exfalso; eapply Hold; eauto. }
  split; cbn [cs_rc cs_calls]; [done|..].
  - intros j c Hc. apply (rcall_ok_frame (cs_rc y)); [done|by intros; apply Hkeep|by eapply (ci_call y Hy)].
  - intros j c t' f Hc [Hl|[-> ->]]%Htok; [by eapply (ci_token y Hy)|]. intros Hw.
    pose proof (ci_call y Hy _ _ Hc) as Hcall.
    destruct c; try discriminate Hw; injection Hw as ->; cbn in Hcall; naive_solver.
  - apply (ci_once y Hy).
Qed.
End Others.

(** ** The invariant *)

Lemma cinv_new : cinv (mkCSys new_coalescer ∅).
Proof. split; [split|..]; cbn; try done. by intros f [? ?]. Qed.

Lemma cinv_start y i c :
  cinv y → writes c = None → rcall_ok (cs_rc y) c → cinv (mkCSys (cs_rc y) (<[i := c]> (cs_calls y))).
Proof. intros Hy. by apply same_move. Qed.

Lemma cinv_step a y y' : cinv y → rstep a y = Some y' → cinv y'.
Proof.
  intros Hy. destruct a as [id tid k cap|tid k whole vlen pub now|id token st data len ms n1 n2|id tid k| |id inp];
    cbn [rstep].
  - destruct (0 <=? cap); [|done]. case_decide; [|done]. intros [= <-]. by apply cinv_start.
  - intros [= <-]. by apply step_register.
  - destruct (buffer_ok data len) eqn:Hb; [|done].
    destruct (complete_async token st ms n1 n2 (cs_rc y)) as [[[f w] rc]|] eqn:Hc; (case_decide; [|done]);
      intros [= <-]; [by eapply step_complete|by apply cinv_start].
  - pose proof (step_published y id Hy tid k) as H. destruct (published_section tid k (cs_rc y)) as [c rc].
    case_decide; [|done]. by intros [= <-].
  - intros [= <-]. destruct Hy as [Hrc Hcall Htok Honce]. split; cbn [cs_rc cs_calls]; [|exact Hcall|exact Htok|exact Honce].
    by apply (same_rc_frame (cs_rc y)).
  - destruct (cs_calls y !! id) as [c|] eqn:Hi; [|done]. cbn [mbind option_bind].
    destruct (rcall_step inp c (cs_rc y)) as [[c' rc]|] eqn:Hs; [|done]. intros [= <-]. by eapply step_call.
Qed.
