(* ===== verification/CoalesceProps.v ===== *)
(** * What the read coalescer promises

    Over every run of [Coalescer]: what a coalesced answer is, that a key has one
    read in flight and none is left behind, that no call can hang, and that the
    recurrence window remembers what it should within its bound. *)

From S2P Require Import Prelude KvTypes Coalescer CoalesceInv.

(** ** Runs *)

Definition new_csys : CSys := mkCSys new_coalescer ∅.

Definition coalesce_run (acts : list RAction) : option CSys := run_actions rstep acts new_csys.

Lemma run_cinv acts y : coalesce_run acts = Some y → cinv y.
Proof. apply run_actions_inv; [intros a s s'; apply cinv_step|apply cinv_new]. Qed.

(** ** Who has a key in flight *)

Inductive Owner := ByCall (i : nat) | ByToken (t : Z).

Definition owned_flight (y : CSys) (o : Owner) : option nat :=
  match o with
  | ByCall i => cs_calls y !! i ≫= owns
  | ByToken t => rc_tokens (cs_rc y) !! t
  end.

(** A synchronous leader before it leaves the map, or an asynchronous read before its
    completion, of key [k]. *)
Definition reading (y : CSys) (k : RKey) (o : Owner) : Prop :=
  ∃ f fl, owned_flight y o = Some f ∧ rc_flights (cs_rc y) !! f = Some fl ∧ fl_key fl = k.

Lemma owns_writes c f : owns c = Some f → writes c = Some f.
Proof. by destruct c. Qed.

Lemma owned_in_map y o f fl :
  cinv y → owned_flight y o = Some f → rc_flights (cs_rc y) !! f = Some fl →
  rc_map (cs_rc y) !! fl_key fl = Some f.
Proof.
  intros Hy Ho Hf. destruct o as [i|t]; cbn in Ho.
  - destruct (cs_calls y !! i) as [c|] eqn:Hi; [|done]. cbn in Ho. pose proof (ci_call y Hy i c Hi) as Hc.
    destruct c; try discriminate Ho; injection Ho as ->; destruct Hc as (fl' & Hf' & _ & _ & Hm & _); by simplify_eq.
  - destruct (ro_token _ (ci_rc y Hy) t f Ho) as (fl' & Hf' & _ & Hm & _). by simplify_eq.
Qed.

Lemma owner_unique y o1 o2 f :
  cinv y → owned_flight y o1 = Some f → owned_flight y o2 = Some f → o1 = o2.
Proof.
  intros Hy. destruct o1 as [i|t], o2 as [j|u]; cbn; intros H1 H2.
  - apply bind_Some in H1 as (c & Hc & H1), H2 as (d & Hd & H2).
    f_equal. by eapply (ci_once y Hy i j c d f); [..|apply owns_writes|apply owns_writes].
  - apply bind_Some in H1 as (c & Hc & H1). by destruct (ci_token y Hy i c u f Hc H2 (owns_writes _ _ H1)).
  - apply bind_Some in H2 as (c & Hc & H2). by destruct (ci_token y Hy j c t f Hc H1 (owns_writes _ _ H2)).
  - f_equal. by eapply (ro_token_inj _ (ci_rc y Hy)).
Qed.

(** Every entry of the map has its owner, while the token counter has not wrapped. *)
Record owned (n : Z) (y : CSys) : Prop := {
  ow_seq : 0 ≤ rc_token_seq (cs_rc y) ≤ n;
  ow_token t f : rc_tokens (cs_rc y) !! t = Some f → t ≤ rc_token_seq (cs_rc y);
  ow_map k f : rc_map (cs_rc y) !! k = Some f → ∃ o, owned_flight y o = Some f;
}.

Lemma call_owned inp i c c' y rc' :
  cinv y → cs_calls y !! i = Some c → rcall_step inp c (cs_rc y) = Some (c', rc') →
  rc_tokens rc' = rc_tokens (cs_rc y) ∧ rc_token_seq rc' = rc_token_seq (cs_rc y)
  ∧ ∀ k f, rc_map rc' !! k = Some f →
           (rc_map (cs_rc y) !! k = Some f ∧ (owns c = Some f → owns c' = Some f)) ∨ owns c' = Some f.
Proof.
  intros Hy Hi Hs. pose proof (ci_call y Hy i c Hi) as Hc.
  destruct c; cbn [rcall_step] in Hs; try discriminate Hs;
    repeat (match type of Hs with
            | (if ?b then _ else _) = _ => destruct b
            | (_ ← ?m; _) = _ => destruct m; cbn [mbind option_bind] in Hs
            | match ?m with _ => _ end = _ => destruct m
            end; try discriminate Hs).
  1: { injection Hs as Hs. unfold read_start in Hs.
       destruct (rc_map (cs_rc y) !! k) as [g|]; injection Hs as <- <-; [by split_and!; [done..|]; intros ? ? ?; left|].
       cbn. split_and!; [done..|]. intros k' f' [[_ <-]|[_ ?]]%lookup_insert_Some; [by right|by left]. }
  all: injection Hs as <- <-; try (by split_and!; [done..|]; intros ? ? ?; left).
  - destruct (ri_alloc inp); by split_and!; [done..|]; intros ? ? ?; left.
  - destruct Hc as (fl & Hf & <- & _ & Hm & _). cbn. split_and!; [done..|].
    intros k' f' [Hl Hne]%flight_erase_lookup. left. split; [done|]. intros [= <-].
    destruct (ro_map _ (ci_rc y Hy) k' f Hl) as (fl' & Hf' & Hk & _). destruct Hne; [congruence|done].
  - destruct data as [bs|]; [destruct (_ && _)|]; by split_and!; [done..|]; intros ? ? ?; left.
Qed.

Lemma owned_other y i c rc' f o :
  owned_flight y o = Some f → rc_tokens rc' = rc_tokens (cs_rc y) → o ≠ ByCall i →
  owned_flight (mkCSys rc' (<[i := c]> (cs_calls y))) o = Some f.
Proof.
  destruct o as [j|t]; cbn; intros Ho Et Hne; [|by rewrite Et]. rewrite lookup_insert_ne; [done|congruence].
Qed.

(** A call enters at a free slot and the members keep their map. *)
Lemma owned_enter n y i c rc' :
  owned n y → cs_calls y !! i = None → rc_tokens rc' = rc_tokens (cs_rc y) → rc_map rc' = rc_map (cs_rc y) →
  rc_token_seq rc' = rc_token_seq (cs_rc y) → owned (n + 1) (mkCSys rc' (<[i := c]> (cs_calls y))).
Proof.
  intros [Hs Ht Hm] Hi Et Em Es. split; cbn [cs_rc]; rewrite ?Es, ?Et, ?Em; [lia|done|].
  intros k f Hl. destruct (Hm k f Hl) as [o Ho]. exists o. apply owned_other; [done..|].
  intros ->. cbn in Ho. by rewrite Hi in Ho.
Qed.

Lemma owned_register n y tid k whole vlen pub now :
  cinv y → owned n y → n + 1 < 2 ^ 64 →
  owned (n + 1) (mkCSys (TryRegisterAsync tid k whole vlen pub now (cs_rc y)).2 (cs_calls y)).
Proof.
  intros Hy [Hs Ht Hm] Hn. unfold TryRegisterAsync.
  destruct (rc_map (cs_rc y) !! k) as [f|] eqn:Hk; cbn [snd]; [split; cbn; [lia|done|done]|].
  assert (Hu : u64 (rc_token_seq (cs_rc y) + 1) = rc_token_seq (cs_rc y) + 1).
  { apply u64_id. unfold is_u64. lia. }
  assert (Hfree : rc_tokens (cs_rc y) !! (rc_token_seq (cs_rc y) + 1) = None).
  { apply eq_None_not_Some. intros [f Hf%Ht]. lia. }
  rewrite Hu, Hfree. split; cbn [cs_rc rc_token_seq rc_tokens rc_map]; [lia|..].
  - intros t f [[<- _]|[_ Hf%Ht]]%lookup_insert_Some; lia.
  - intros k' f [[_ <-]|[_ Hf]]%lookup_insert_Some.
    + exists (ByToken (rc_token_seq (cs_rc y) + 1)). cbn. by rewrite lookup_insert_eq.
    + destruct (Hm k' f Hf) as [o Ho]. exists o. destruct o as [j|t]; cbn in *; [done|].
      rewrite lookup_insert_ne; [done|]. intros <-. congruence.
Qed.

Lemma owned_complete n y i token st data len ms n1 n2 f w rc' :
  cinv y → owned n y → cs_calls y !! i = None →
  complete_async token st ms n1 n2 (cs_rc y) = Some (f, w, rc') →
  owned (n + 1) (mkCSys rc' (<[i := AStage f w st data len]> (cs_calls y))).
Proof.
  intros Hy [Hs Ht Hm] Hi. unfold complete_async.
  destruct (rc_tokens (cs_rc y) !! token) as [f0|] eqn:Htk; [|done]. cbn [mbind option_bind].
  destruct (rc_flights (cs_rc y) !! f0) as [fl|] eqn:Hf; [|done]. cbn [mbind option_bind].
  destruct (if _ : bool then _ else _) as [fifo recents]. intros [= <- <- <-].
  split; cbn [cs_rc rc_token_seq rc_tokens rc_map]; [lia|..].
  - intros t g [_ Hg]%lookup_delete_Some. by eapply Ht.
  - intros k g [Hl Hne]%flight_erase_lookup. destruct (Hm k g Hl) as [o Ho]. exists o.
    destruct o as [j|t]; cbn in *.
    + rewrite lookup_insert_ne; [done|]. intros <-. by rewrite Hi in Ho.
    + rewrite lookup_delete_ne; [done|]. intros <-. rewrite Htk in Ho. injection Ho as <-.
      destruct (ro_map _ (ci_rc y Hy) k f0 Hl) as (fl' & Hf' & Hk & _). destruct Hne; [congruence|done].
Qed.

Lemma owned_step n a y y' :
  cinv y → owned n y → n + 1 < 2 ^ 64 → rstep a y = Some y' → owned (n + 1) y'.
Proof.
  intros Hy Ho Hn. destruct a as [id tid k cap|tid k whole vlen pub now|id token st data len ms n1 n2|id tid k| |id inp];
    cbn [rstep].
  - destruct (0 <=? cap); [|done]. case_decide; [|done]. intros [= <-]. by apply owned_enter.
  - intros [= <-]. by apply owned_register.
  - destruct (buffer_ok data len) eqn:Hb; [|done].
    destruct (complete_async token st ms n1 n2 (cs_rc y)) as [[[f w] rc]|] eqn:Hc; (case_decide; [|done]);
      intros [= <-]; [by eapply owned_complete|by apply owned_enter].
  - unfold published_section. destruct (rc_map _ !! k) as [f|]; [destruct (rc_flights _ !! f) as [fl|];
      [destruct (fl_publishes_to_ram fl); [case_decide|]|]|]; (case_decide; [|done]); intros [= <-];
      by apply owned_enter.
  - intros [= <-]. destruct Ho as [Hs Ht Hm]. split; cbn; [lia|done|done].
  - destruct (cs_calls y !! id) as [c|] eqn:Hi; [|done]. cbn [mbind option_bind].
    destruct (rcall_step inp c (cs_rc y)) as [[c' rc]|] eqn:Hs; [|done]. intros [= <-].
    destruct (call_owned inp id c c' y rc Hy Hi Hs) as (Et & Es & Hmap). destruct Ho as [Hs' Ht Hm].
    split; cbn [cs_rc]; rewrite ?Es, ?Et; [lia|done|]. intros k f Hl.
    assert (Hnew : owns c' = Some f → ∃ o, owned_flight (mkCSys rc (<[id:=c']> (cs_calls y))) o = Some f).
    { intros Hw. exists (ByCall id). cbn. by rewrite lookup_insert_eq. }
    destruct (Hmap k f Hl) as [[Hl' Hkeep]|?]; [|auto]. destruct (Hm k f Hl') as [o Hof].
    destruct o as [j|t]; [destruct (decide (j = id)) as [->|]|].
    + cbn in Hof. rewrite Hi in Hof. auto.
    + exists (ByCall j). apply owned_other; [done|done|congruence].
    + exists (ByToken t). by apply owned_other.
Qed.

Lemma run_owned acts y :
  Z.of_nat (length acts) < 2 ^ 64 → coalesce_run acts = Some y → owned (Z.of_nat (length acts)) y.
Proof.
  unfold coalesce_run. intros Hn.
  assert (H : ∀ m s, cinv s → owned m s → m + Z.of_nat (length acts) < 2 ^ 64 →
                run_actions rstep acts s = Some y → owned (m + Z.of_nat (length acts)) y).
  { clear Hn. induction acts as [|a acts IH]; intros m s Hs Ho Hn; cbn [run_actions length].
    - intros [= <-]. by rewrite Z.add_0_r.
    - cbn [length] in Hn. destruct (rstep a s) as [s'|] eqn:Hstep; [|done]. cbn [mbind option_bind]. intros Hr.
      replace (m + Z.of_nat (S (length acts))) with ((m + 1) + Z.of_nat (length acts)) by lia.
      apply (IH _ s'); [by eapply cinv_step|eapply owned_step; [..|exact Hstep]; [done|done|lia]|lia|done]. }
  apply (H 0); [apply cinv_new| |lia]. split; cbn; [lia|done|done].
Qed.

(** ** Progress *)

(** The steps a call has before it at most. *)
Definition rank (c : RCall) : nat :=
  match c with
  | RStart _ _ _ => 6
  | LFill _ _ _ => 4 | LErase _ _ _ _ _ => 3 | LPublish _ _ _ _ _ => 2 | LReport _ _ _ _ _ => 1
  | FJoin _ _ _ _ => 5 | FCount _ _ _ _ => 4 | FWait _ _ _ _ => 3 | FCopy _ _ _ => 2 | RSelf _ _ => 1
  | AStage _ _ _ _ _ => 2 | APublish _ _ _ _ => 1
  | WWait _ _ _ => 1
  | RRet _ _ _ _ | ARet _ _ | WRet _ _ _ => 0
  end.

Definition returned (c : RCall) : bool := (rank c =? 0)%nat.

(** The [fill] of the call's next step, where it makes one, keeps to its buffer. *)
Definition fill_fits (c : RCall) (inp : RInput) : bool :=
  match c with LFill _ cap _ | RSelf _ cap => fill_ok cap (ri_fill inp) | _ => true end.

Lemma call_rank inp c rc c' rc' : rcall_step inp c rc = Some (c', rc') → (rank c' < rank c)%nat.
Proof.
  destruct c; cbn [rcall_step]; try done; intros Hs;
    repeat (match type of Hs with
            | (if ?b then _ else _) = _ => destruct b
            | (_ ← ?m; _) = _ => destruct m; cbn [mbind option_bind] in Hs
            | match ?m with _ => _ end = _ => destruct m
            end; try discriminate Hs).
  1: { injection Hs as Hs. unfold read_start in Hs. destruct (rc_map rc !! k); [case_decide|];
         injection Hs as <- <-; cbn; lia. }
  all: injection Hs as <- <-; cbn; lia.
Qed.

Lemma call_enabled y i c inp :
  cinv y → cs_calls y !! i = Some c → returned c = false → ri_timeout inp = true →
  fill_fits c inp = true → is_Some (rcall_step inp c (cs_rc y)).
Proof.
  intros Hy Hi Hr Ht Hf. pose proof (ci_call y Hy i c Hi) as Hc.
  destruct c; cbn [rcall_step fill_fits] in *; try done; rewrite ?Hf, ?Ht; try done.
  all: try (destruct Hc as (fl & -> & _)); cbn [mbind option_bind]; try done; try (by destruct (fl_done fl)).
  - by destruct (follower_result cap fl).
  - by destruct Hc as (_ & fl & -> & _).
Qed.

(** The steps of call [i] among [acts]. *)
Definition own_step (i : nat) (a : RAction) : nat :=
  match a with ActStep j _ => if decide (j = i) then 1 else 0 | _ => 0 end.

Fixpoint own_steps (i : nat) (acts : list RAction) : nat :=
  match acts with [] => 0 | a :: acts => own_step i a + own_steps i acts end.

Lemma rank_step a y y' i c :
  rstep a y = Some y' → cs_calls y !! i = Some c →
  ∃ c', cs_calls y' !! i = Some c' ∧ (rank c' + own_step i a ≤ rank c)%nat.
Proof.
  intros Hs Hi.
  assert (Hother : ∀ id c' rc, cs_calls y !! id = None →
            ∃ c'', cs_calls (mkCSys rc (<[id := c']> (cs_calls y))) !! i = Some c'' ∧ (rank c'' + 0 ≤ rank c)%nat).
  { intros id c' rc Hn. exists c. cbn. rewrite lookup_insert_ne by congruence. split; [done|lia]. }
  destruct a; cbn [rstep own_step] in *.
  - destruct (0 <=? cap); [|done]. case_decide; [|done]. injection Hs as <-. by apply Hother.
  - injection Hs as <-. exists c. split; [done|lia].
  - destruct (buffer_ok data len); [|done]. destruct (complete_async _ _ _ _ _ _) as [[[? ?] ?]|];
      (case_decide; [|done]); injection Hs as <-; by apply Hother.
  - destruct (published_section _ _ _). case_decide; [|done]. injection Hs as <-. by apply Hother.
  - injection Hs as <-. exists c. split; [done|lia].
  - destruct (cs_calls y !! id) as [c0|] eqn:Hid; [|done]. cbn [mbind option_bind] in Hs.
    destruct (rcall_step inp c0 (cs_rc y)) as [[c' rc]|] eqn:Hc; [|done]. injection Hs as <-. cbn [cs_calls].
    case_decide as Ha; [subst id|].
    + rewrite lookup_insert_eq. exists c'. split; [done|]. apply call_rank in Hc. assert (c0 = c) by congruence.
      subst c0. lia.
    + rewrite lookup_insert_ne by done. exists c. split; [done|lia].
Qed.

Lemma rank_run acts y z i c :
  run_actions rstep acts y = Some z → cs_calls y !! i = Some c →
  ∃ c', cs_calls z !! i = Some c' ∧ (rank c' + own_steps i acts ≤ rank c)%nat.
Proof.
  revert y c. induction acts as [|a acts IH]; intros y c; cbn [run_actions].
  - intros [= <-] Hi. exists c. cbn. split; [done|lia].
  - destruct (rstep a y) as [y1|] eqn:Hs; [|done]. cbn [mbind option_bind]. intros Hr Hi.
    destruct (rank_step a y y1 i c Hs Hi) as (c1 & Hi1 & H1). destruct (IH y1 c1 Hr Hi1) as (c' & Hi' & H').
    exists c'. split; [done|]. cbn [own_steps]. lia.
Qed.

(** ** The recurrence window *)

Record window (rc : RC) : Prop := {
  wi_bound : Z.of_nat (length (rc_fifo rc)) ≤ kRecurCap;
  wi_fifo k d : rc_recents rc !! k = Some d → (k, d) ∈ rc_fifo rc;
}.

Lemma trim_window now fifo recents :
  (∀ k d, recents !! k = Some d → (k, d) ∈ fifo) →
  let p := trim_recents now fifo recents in
  Z.of_nat (length p.1) ≤ kRecurCap ∧ ∀ k d, p.2 !! k = Some d → (k, d) ∈ p.1.
Proof.
  revert recents. induction fifo as [|[k d] fifo IH]; intros recents Hin; cbn [trim_recents].
  - cbn. split; [unfold kRecurCap; lia|done].
  - destruct ((d <? now) || (kRecurCap <? Z.of_nat (length ((k, d) :: fifo)))) eqn:Hb.
    + apply IH. intros k' d'. case_decide as Hk.
      * intros [Hne Hl]%lookup_delete_Some. apply Hin in Hl. set_solver.
      * intros Hl. pose proof Hl as Hl'. apply Hin in Hl as [[= -> ->]|?]%elem_of_cons; done.
    + cbn [fst snd]. split; [lia|done].
Qed.

Lemma window_same rc rc' : rc_fifo rc' = rc_fifo rc → rc_recents rc' = rc_recents rc → window rc → window rc'.
Proof. intros Ef Er [? ?]. split; rewrite ?Ef, ?Er; done. Qed.

Lemma window_register tid k whole vlen pub now rc :
  window rc → window (TryRegisterAsync tid k whole vlen pub now rc).2.
Proof.
  intros [Hb Hf]. unfold TryRegisterAsync. destruct (rc_map rc !! k); [done|]. split; cbn [snd rc_fifo rc_recents]; [done|].
  intros k' d. destruct (if _ : bool then _ else _); [|apply Hf]. intros [_ ?]%lookup_delete_Some. by apply Hf.
Qed.

Lemma window_complete token st ms n1 n2 rc f w rc' :
  window rc → complete_async token st ms n1 n2 rc = Some (f, w, rc') → window rc'.
Proof.
  intros [Hb Hf]. unfold complete_async. destruct (rc_tokens rc !! token) as [f0|]; [|done]. cbn [mbind option_bind].
  destruct (rc_flights rc !! f0) as [fl|]; [|done]. cbn [mbind option_bind].
  destruct ((0 <? ms) && _ && _ && _ && _ && _); [|by intros [= <- <- <-]].
  pose proof (trim_window n2 (rc_fifo rc ++ [(fl_key fl, n1 + ms)]) (<[fl_key fl := n1 + ms]> (rc_recents rc))) as H.
  destruct (trim_recents _ _ _) as [fifo recents]. intros [= <- <- <-]. destruct H as [H1 H2]; [|done].
  intros k d [[<- <-]|[_ Hl]]%lookup_insert_Some; apply elem_of_app; [right; by apply list_elem_of_singleton|left; auto].
Qed.

Lemma window_call inp c rc c' rc' : window rc → rcall_step inp c rc = Some (c', rc') → window rc'.
Proof.
  intros Hw. destruct c; cbn [rcall_step]; try done; intros Hs;
    repeat (match type of Hs with
            | (if ?b then _ else _) = _ => destruct b
            | (_ ← ?m; _) = _ => destruct m; cbn [mbind option_bind] in Hs
            | match ?m with _ => _ end = _ => destruct m
            end; try discriminate Hs).
  1: { injection Hs as Hs. unfold read_start in Hs. destruct (rc_map rc !! k); injection Hs as <- <-; [done|].
       by apply (window_same rc). }
  all: injection Hs as <- <-; try (by apply (window_same rc)).
  - destruct (ri_alloc inp); by apply (window_same rc).
  - destruct data; [destruct (_ && _)|]; by apply (window_same rc).
Qed.

Lemma window_step a y y' : window (cs_rc y) → rstep a y = Some y' → window (cs_rc y').
Proof.
  intros Hw. destruct a as [id tid k cap|tid k whole vlen pub now|id token st data len ms n1 n2|id tid k| |id inp];
    cbn [rstep].
  - destruct (0 <=? cap); [|done]. case_decide; [|done]. by intros [= <-].
  - intros [= <-]. by apply window_register.
  - destruct (buffer_ok data len) eqn:Hb; [|done].
    destruct (complete_async token st ms n1 n2 (cs_rc y)) as [[[f w] rc]|] eqn:Hc; (case_decide; [|done]);
      intros [= <-]; [by eapply window_complete|done].
  - unfold published_section. destruct (rc_map _ !! k) as [f|]; [destruct (rc_flights _ !! f) as [fl|];
      [destruct (fl_publishes_to_ram fl); [case_decide|]|]|]; (case_decide; [|done]); intros [= <-];
      by apply (window_same (cs_rc y)).
  - intros [= <-]. by apply (window_same (cs_rc y)).
  - destruct (cs_calls y !! id) as [c|]; [|done]. cbn [mbind option_bind].
    destruct (rcall_step inp c (cs_rc y)) as [[c' rc]|] eqn:Hs; [|done]. intros [= <-]. by eapply window_call.
Qed.

(** Trimming only deletes. *)
Lemma trim_none now fifo k : ∀ recents, recents !! k = None → (trim_recents now fifo recents).2 !! k = None.
Proof.
  induction fifo as [|[k' d'] fifo IH]; intros recents Hk; cbn [trim_recents]; [done|]. destruct (_ || _); [|done].
  apply IH. case_decide; [|done]. rewrite lookup_delete. by case_decide.
Qed.

(** What trimming does to a fingerprint [d] of [k] that no older entry repeats: it
    stays, unless its time is over or too many are behind it. *)
Lemma trim_keeps now k d pre post recents :
  recents !! k = Some d → (k, d) ∉ pre → Z.of_nat (length post) < kRecurCap →
  let p := trim_recents now (pre ++ (k, d) :: post) recents in
  (p.2 !! k = Some d ∧ ∃ pre', p.1 = pre' ++ (k, d) :: post ∧ (k, d) ∉ pre') ∨ (p.2 !! k = None ∧ d < now).
Proof.
  intros Hk Hni Hlen. revert recents Hk. induction pre as [|[k' d'] pre IH]; intros recents Hk; cbn [app trim_recents].
  - destruct ((d <? now) || _) eqn:Ht; [right|left; cbn; split; [done|by exists []]].
    apply orb_true_iff in Ht as [Ht%Z.ltb_lt|Ht%Z.ltb_lt]; [|cbn [length] in Ht; lia]. split; [|done].
    rewrite decide_True by done. apply trim_none. by rewrite lookup_delete_eq.
  - apply not_elem_of_cons in Hni as [Hne Hni]. destruct (_ || _); [apply IH; [done|]|left; cbn; split; [done|]].
    + case_decide as Hd; [|done]. rewrite lookup_delete_ne; [done|]. intros ->. rewrite Hk in Hd. by injection Hd as ->.
    + exists ((k', d') :: pre). split; [done|]. by apply not_elem_of_cons.
Qed.

(** The fingerprint [d] of [k] is there with at most [n] behind it, or is gone because
    its time is over at [T]. *)
Definition remembered (k : RKey) (d n T : Z) (rc : RC) : Prop :=
  (rc_recents rc !! k = Some d ∧
   ∃ pre post, rc_fifo rc = pre ++ (k, d) :: post ∧ (k, d) ∉ pre ∧ Z.of_nat (length post) ≤ n) ∨
  (rc_recents rc !! k = None ∧ d < T).

(** What a flight keeps. *)
Definition statics (fl : Flight) : RKey * bool * bool := (fl_key fl, fl_whole fl, fl_publishes_to_ram fl).

(** No staged read of the whole value [k] is in flight. *)
Definition unstaged (k : RKey) (rc : RC) : Prop :=
  ∀ t f fl, rc_tokens rc !! t = Some f → rc_flights rc !! f = Some fl → statics fl ≠ (k, true, false).

(** The window, the tokens and what flights keep are left alone. *)
Record calm (rc rc' : RC) : Prop := {
  ca_fifo : rc_fifo rc' = rc_fifo rc;
  ca_recents : rc_recents rc' = rc_recents rc;
  ca_tokens : rc_tokens rc' = rc_tokens rc;
  ca_flights f fl' : rc_flights rc' !! f = Some fl' → is_Some (rc_flights rc !! f) →
    ∃ fl, rc_flights rc !! f = Some fl ∧ statics fl' = statics fl;
}.

Lemma calm_same rc rc' :
  rc_fifo rc' = rc_fifo rc → rc_recents rc' = rc_recents rc → rc_tokens rc' = rc_tokens rc →
  rc_flights rc' = rc_flights rc → calm rc rc'.
Proof. intros E1 E2 E3 E4. split; try done. rewrite E4. eauto. Qed.

Lemma calm_flight rc rc' f g :
  rc_flights rc' = alter g f (rc_flights rc) → (∀ fl, statics (g fl) = statics fl) →
  rc_fifo rc' = rc_fifo rc → rc_recents rc' = rc_recents rc → rc_tokens rc' = rc_tokens rc → calm rc rc'.
Proof.
  intros E4 Hg E1 E2 E3. split; try done. intros f' fl'. rewrite E4. destruct (decide (f' = f)) as [->|Hne].
  - rewrite lookup_alter_eq. intros (fl & Hf & ->)%fmap_Some _. exists fl. by rewrite Hg.
  - rewrite lookup_alter_ne by done. eauto.
Qed.

Lemma calm_unstaged k rc rc' : rc_ok rc → calm rc rc' → unstaged k rc → unstaged k rc'.
Proof.
  intros Hok [_ _ Et Hf] Hu t f fl. rewrite Et. intros Ht Hfl.
  destruct (ro_token _ Hok t f Ht) as (fl0 & Hf0 & _). destruct (Hf f fl Hfl) as (fl1 & Hf1 & ->); [by eexists|].
  by eapply Hu.
Qed.

Lemma calm_remembered k d n T rc rc' : calm rc rc' → remembered k d n T rc → remembered k d n T rc'.
Proof. intros [Ef Er _ _]. unfold remembered. by rewrite Ef, Er. Qed.

Lemma calm_call inp c rc c' rc' : rc_ok rc → rcall_step inp c rc = Some (c', rc') → calm rc rc'.
Proof.
  intros Hok. destruct c; cbn [rcall_step]; try done; intros Hs;
    repeat (match type of Hs with
            | (if ?b then _ else _) = _ => destruct b
            | (_ ← ?m; _) = _ => destruct m; cbn [mbind option_bind] in Hs
            | match ?m with _ => _ end = _ => destruct m
            end; try discriminate Hs).
  1: { injection Hs as Hs. unfold read_start in Hs. destruct (rc_map rc !! k); injection Hs as <- <-;
         [by apply calm_same|]. split; try done. cbn. intros f fl' Hf [fl0 H0].
       assert (f ≠ rc_next rc) as Hne by (intros ->; pose proof (ro_next _ Hok _ (mk_is_Some _ _ H0)); lia).
       rewrite lookup_insert_ne in Hf by done. eauto. }
  all: injection Hs as <- <-; try (by apply calm_same); try (by eapply calm_flight).
  - destruct (ri_alloc inp); [by eapply calm_flight|by apply calm_same].
  - destruct data; [destruct (_ && _); [by eapply calm_flight|]|]; by apply calm_same.
Qed.

Definition is_complete (a : RAction) : bool := match a with ActComplete _ _ _ _ _ _ _ _ => true | _ => false end.

(** A registration of a staged read of the whole value [k]. *)
Definition rereads (k : RKey) (a : RAction) : bool :=
  match a with
  | ActRegister _ k' whole _ publishes _ => bool_decide (k' = k) && whole && negb publishes
  | _ => false
  end.

(** The last reading of the clock in a completion is not after [T]. *)
Definition trims_by (T : Z) (a : RAction) : bool :=
  match a with ActComplete _ _ _ _ _ _ _ now2 => now2 <=? T | _ => true end.

Lemma calm_step a y y' :
  cinv y → rstep a y = Some y' → is_complete a = false →
  (∀ tid k whole vlen publishes now, a ≠ ActRegister tid k whole vlen publishes now) → calm (cs_rc y) (cs_rc y').
Proof.
  intros Hy. destruct a as [id tid k cap|tid k whole vlen pub now|id token st data len ms n1 n2|id tid k| |id inp];
    cbn [rstep]; intros Hs Hc Hr; try done; try (by destruct (Hr tid k whole vlen pub now)).
  - destruct (0 <=? cap); [|done]. case_decide; [|done]. injection Hs as <-. by apply calm_same.
  - unfold published_section in Hs. destruct (rc_map _ !! k) as [f|]; [destruct (rc_flights _ !! f) as [fl|];
      [destruct (fl_publishes_to_ram fl); [case_decide|]|]|]; (case_decide; [|done]); injection Hs as <-;
      try (by apply calm_same). by eapply calm_flight.
  - injection Hs as <-. by apply calm_same.
  - destruct (cs_calls y !! id) as [c|]; [|done]. cbn [mbind option_bind] in Hs.
    destruct (rcall_step inp c (cs_rc y)) as [[c' rc]|] eqn:Hc'; [|done]. injection Hs as <-.
    by eapply calm_call; [apply Hy|].
Qed.

Lemma register_keeps k d n T tid k' whole vlen pub now rc :
  rc_ok rc → bool_decide (k' = k) && whole && negb pub = false → unstaged k rc → remembered k d n T rc →
  let rc' := (TryRegisterAsync tid k' whole vlen pub now rc).2 in unstaged k rc' ∧ remembered k d n T rc'.
Proof.
  intros Hok Ha Hu Hr. unfold TryRegisterAsync. destruct (rc_map rc !! k'); [done|]. cbn [snd]. split.
  - intros t f fl. cbn [rc_tokens rc_flights]. set (fl1 := mkFlight _ _ _ _ _ _ _ _ _ _ _ _).
    assert (Hold : ∀ t, rc_tokens rc !! t = Some f → <[rc_next rc := fl1]> (rc_flights rc) !! f = Some fl →
      statics fl ≠ (k, true, false)).
    { intros t0 Ht. destruct (ro_token _ Hok t0 f Ht) as (fl0 & Hf0 & _).
      assert (f ≠ rc_next rc) by (intros ->; pose proof (ro_next _ Hok _ (mk_is_Some _ _ Hf0)); lia).
      rewrite lookup_insert_ne by done. by eapply Hu. }
    destruct (rc_tokens rc !! u64 _); [apply Hold|].
    intros [[<- <-]|[_ Ht]]%lookup_insert_Some; [|by eapply Hold].
    rewrite lookup_insert_eq. intros [= <-] [= -> -> ->]. by rewrite bool_decide_eq_true_2 in Ha.
  - assert (Hne : (if whole && negb pub then rc_recents rc !! k' else None) ≠ None → k' ≠ k).
    { intros Hsn ->. rewrite bool_decide_eq_true_2 in Ha by done. by destruct whole, pub. }
    destruct (if whole && negb pub then rc_recents rc !! k' else None); [|done].
    unfold remembered in *. cbn [rc_recents rc_fifo]. rewrite lookup_delete_ne; [done|]. by apply Hne.
Qed.

Lemma complete_keeps k d n T token st ms n1 n2 rc f w rc' :
  n2 ≤ T → n + 1 < kRecurCap → unstaged k rc → remembered k d n T rc →
  complete_async token st ms n1 n2 rc = Some (f, w, rc') → unstaged k rc' ∧ remembered k d (n + 1) T rc'.
Proof.
  intros HT Hn Hu Hr. unfold complete_async. destruct (rc_tokens rc !! token) as [f0|] eqn:Et; [|done].
  cbn [mbind option_bind]. destruct (rc_flights rc !! f0) as [fl|] eqn:Ef; [|done]. cbn [mbind option_bind].
  set (lay := (0 <? ms) && _ && _ && _ && _ && _). destruct (if lay then _ else _) as [fifo recents] eqn:El.
  intros [= <- <- <-]. split.
  - intros t f' fl'. cbn [rc_tokens rc_flights]. intros [_ Ht]%lookup_delete_Some. by eapply Hu.
  - unfold remembered. cbn [rc_recents rc_fifo]. destruct lay eqn:Hlay; [|injection El as <- <-; destruct Hr as
      [(Hr & pre & post & H1 & H2 & H3)|?]; [left; split; [done|]; exists pre, post; split_and!; [done|done|lia]|by right]].
    unfold lay in Hlay. apply andb_true_iff in Hlay as [[[[_ Hw]%andb_true_iff Hp%negb_true_iff]%andb_true_iff _]%andb_true_iff _].
    assert (Hk : fl_key fl ≠ k) by (intros Hk; apply (Hu token f0 fl Et Ef); unfold statics; congruence).
    destruct Hr as [(Hr & pre & post & H1 & H2 & H3)|[Hr Hd]].
    + rewrite H1, <- app_assoc in El. cbn [app] in El.
      destruct (trim_keeps n2 k d pre (post ++ [(fl_key fl, n1 + ms)]) (<[fl_key fl := n1 + ms]> (rc_recents rc)))
        as [(Hk' & pre' & Hp' & Hn')|[Hk' Hd]]; [by rewrite lookup_insert_ne|done|rewrite length_app; cbn; lia| |];
        rewrite El in Hk'; cbn [fst snd] in *; [left|right; split; [done|lia]].
      split; [done|]. exists pre', (post ++ [(fl_key fl, n1 + ms)]). rewrite El in Hp'. split_and!; [done|done|].
      rewrite length_app. cbn. lia.
    + right. split; [|done]. replace recents with (fifo, recents).2 by done. rewrite <- El. apply trim_none.
      by rewrite lookup_insert_ne.
Qed.

Lemma remembered_step k d n T a y y' :
  cinv y → rstep a y = Some y' → rereads k a = false → trims_by T a = true →
  n + Z.b2z (is_complete a) < kRecurCap → unstaged k (cs_rc y) → remembered k d n T (cs_rc y) →
  unstaged k (cs_rc y') ∧ remembered k d (n + Z.b2z (is_complete a)) T (cs_rc y').
Proof.
  intros Hy Hs Ha Ht Hn Hu Hr.
  assert (Hmono : remembered k d n T (cs_rc y) → remembered k d (n + 1) T (cs_rc y)).
  { intros [(? & pre & post & ? & ? & ?)|?]; [left; split; [done|]; exists pre, post; split_and!; [done|done|lia]|by right]. }
  assert (Hcalm : is_complete a = false → calm (cs_rc y) (cs_rc y') →
    unstaged k (cs_rc y') ∧ remembered k d (n + Z.b2z (is_complete a)) T (cs_rc y')).
  { intros -> Hc. cbn [Z.b2z]. rewrite Z.add_0_r. split; [by eapply calm_unstaged; [apply Hy|..]|by eapply calm_remembered]. }
  destruct a as [id tid k' cap|tid k' whole vlen pub now|id token st data len ms n1 n2|id tid k'| |id inp];
    try (by apply Hcalm; [|eapply calm_step]).
  - cbn in Hs. injection Hs as <-. cbn [is_complete Z.b2z cs_rc]. rewrite Z.add_0_r.
    by apply register_keeps; [apply Hy|..].
  - cbn [rstep] in Hs. destruct (buffer_ok data len); [|done]. cbn [is_complete Z.b2z] in *. apply Z.leb_le in Ht.
    destruct (complete_async token st ms n1 n2 (cs_rc y)) as [[[f w] rc]|] eqn:Hc; (case_decide; [|done]);
      injection Hs as <-; cbn [cs_rc]; [|by split; [|apply Hmono]]. by eapply complete_keeps.
Qed.

Definition completions (acts : list RAction) : Z := sumZ (λ a, Z.b2z (is_complete a)) acts.

Lemma remembered_run k d T acts : ∀ n y z,
  cinv y → run_actions rstep acts y = Some z → Forall (λ a, rereads k a = false ∧ trims_by T a = true) acts →
  n + completions acts < kRecurCap → unstaged k (cs_rc y) → remembered k d n T (cs_rc y) →
  cinv z ∧ remembered k d (n + completions acts) T (cs_rc z).
Proof.
  induction acts as [|a acts IH]; intros n y z Hy.
  - intros [= <-] _ _ _ Hr. by rewrite Z.add_0_r.
  - intros (y1 & Hs & Hrun)%bind_Some [[Ha Ht] Hall]%Forall_cons Hn Hu Hr.
    change (completions (a :: acts)) with (Z.b2z (is_complete a) + completions acts) in *.
    assert (0 ≤ completions acts) by (apply sumZ_nonneg; intros x _; by destruct (is_complete x)).
    destruct (remembered_step k d n T a y y1) as [Hu1 Hr1]; try done; [lia|]. rewrite Z.add_assoc in Hn |- *.
    apply (IH _ y1); try done. by eapply cinv_step.
Qed.

(** A successful staged lone read of the whole value leaves its fingerprint, unless the
    window is over when the old ones are trimmed. *)
Lemma complete_remembers token data len id ms n1 n2 y y1 f fl :
  cinv y → rc_tokens (cs_rc y) !! token = Some f → rc_flights (cs_rc y) !! f = Some fl →
  0 < ms → statics fl = (fl_key fl, true, false) → fl_waiters fl ≤ 0 → fl_recurrent fl = false →
  (fl_key fl, n1 + ms) ∉ rc_fifo (cs_rc y) → rstep (ActComplete id token kOk data len ms n1 n2) y = Some y1 →
  unstaged (fl_key fl) (cs_rc y1) ∧ remembered (fl_key fl) (n1 + ms) 0 n2 (cs_rc y1).
Proof.
  intros Hy Et Ef Hms Hst Hw Hrec Hni Hs. cbn [rstep] in Hs. destruct (buffer_ok data len); [|done].
  unfold complete_async in Hs. rewrite Et in Hs. cbn [mbind option_bind] in Hs. rewrite Ef in Hs.
  cbn [mbind option_bind] in Hs. injection Hst as Hwh Hpub. replace (0 <? fl_waiters fl) with false in Hs by lia.
  rewrite Hwh, Hpub, Hrec in Hs. replace (0 <? ms) with true in Hs by lia.
  rewrite bool_decide_eq_true_2 in Hs by done. cbn [andb negb] in Hs.
  pose proof (trim_keeps n2 (fl_key fl) (n1 + ms) (rc_fifo (cs_rc y)) [] (<[fl_key fl := n1 + ms]> (rc_recents (cs_rc y)))) as Htr.
  destruct (trim_recents _ _ _) as [fifo recents]. case_decide; [|done]. injection Hs as <-. cbn [cs_rc]. split.
  - intros t f' fl'. cbn [rc_tokens rc_flights]. intros [Hne Ht]%lookup_delete_Some Hf' Hst. destruct Hne.
    destruct (ro_token _ (ci_rc y Hy) _ _ Et) as (g1 & G1 & _ & M1 & _).
    destruct (ro_token _ (ci_rc y Hy) _ _ Ht) as (g2 & G2 & _ & M2 & _). unfold in_map in M1, M2.
    assert (g1 = fl) as -> by congruence. assert (g2 = fl') as -> by congruence. injection Hst as Hk _ _.
    apply (ro_token_inj _ (ci_rc y Hy) _ _ f); congruence.
  - destruct Htr as [(H1 & pre & H2 & H3)|?]; [by rewrite lookup_insert_eq|done|done| |by right].
    left. split; [done|]. by exists pre, [].
Qed.

(** ** Properties *)

(** C21.  A read answered from another read's flight got the bytes of a successful read
    of the same block and range: as many as fit its own buffer, with the length it
    reports, and the stored length that came with those bytes. *)
Theorem coalesced_answers acts y i k cap f res :
  coalesce_run acts = Some y → cs_calls y !! i = Some (RRet k cap (FromFlight f) res) →
  ∃ r, (k, r) ∈ rc_reads (cs_rc y) ∧ fi_st r = kOk ∧ res = shared_result cap r.
Proof. intros Hr Hi. by apply (ci_call y (run_cinv _ _ Hr) i _ Hi). Qed.

(** C22.  A block's range is in the map exactly while one read of it, synchronous or
    asynchronous, is on its way, and there is never a second one; in particular no
    entry outlives its read. *)
Theorem single_flight acts y k :
  Z.of_nat (length acts) < 2 ^ 64 → coalesce_run acts = Some y →
  (InFlight k (cs_rc y) = true ↔ ∃ o, reading y k o)
  ∧ ∀ o1 o2, reading y k o1 → reading y k o2 → o1 = o2.
Proof.
  intros Hn Hr. pose proof (run_cinv _ _ Hr) as Hy. destruct (run_owned _ _ Hn Hr) as [_ _ Hm].
  unfold InFlight. rewrite bool_decide_eq_true. split; [split|].
  - intros [f Hf]. destruct (Hm k f Hf) as [o Ho]. destruct (ro_map _ (ci_rc y Hy) k f Hf) as (fl & Hfl & Hk & _).
    by exists o, f, fl.
  - intros (o & f & fl & Ho & Hf & <-). exists f. by eapply owned_in_map.
  - intros o1 o2 (f1 & fl1 & Ho1 & Hf1 & Hk1) (f2 & fl2 & Ho2 & Hf2 & Hk2).
    pose proof (owned_in_map _ _ _ _ Hy Ho1 Hf1) as H1. pose proof (owned_in_map _ _ _ _ Hy Ho2 Hf2) as H2.
    rewrite Hk1 in H1. rewrite Hk2, H1 in H2. injection H2 as <-. by eapply owner_unique.
Qed.

(** C23.  No call hangs: however the calls interleave, a call takes at most six steps of
    its own, and until it has returned its next step is enabled, a timed-out wait
    counting as one.  A call that waits does so for a flight of another thread. *)
Theorem reads_return acts y more z i c :
  coalesce_run acts = Some y → cs_calls y !! i = Some c → run_actions rstep more y = Some z →
  ∃ c', cs_calls z !! i = Some c' ∧ (rank c' + own_steps i more ≤ rank c ≤ 6)%nat
  ∧ (returned c' = false → ∀ inp, ri_timeout inp = true → fill_fits c' inp = true →
     is_Some (rstep (ActStep i inp) z))
  ∧ (∀ tid k cap f, c' = FWait tid k cap f ∨ c' = WWait tid k f →
     ∃ fl, rc_flights (cs_rc z) !! f = Some fl ∧ fl_key fl = k ∧ fl_leader_tid fl ≠ tid).
Proof.
  intros Hr Hi Hm. destruct (rank_run more y z i c Hm Hi) as (c' & Hi' & Hrank).
  assert (Hz : cinv z).
  { eapply run_actions_inv; [|exact (run_cinv _ _ Hr)|exact Hm]. intros a s s'. apply cinv_step. }
  exists c'. split; [done|]. split; [split; [done|]; destruct c; cbn; lia|]. split.
  - intros Hret inp Ht Hf. destruct (call_enabled z i c' inp Hz Hi' Hret Ht Hf) as [[c2 rc2] Hs].
    cbn [rstep]. rewrite Hi'. cbn [mbind option_bind]. by rewrite Hs.
  - pose proof (ci_call z Hz i c' Hi') as Hc. intros tid k cap f [-> | ->]; cbn in Hc; naive_solver.
Qed.

(** C24.  The recurrence window.  A staged read of a whole value completes
    successfully, nobody having joined it and itself not marked recurrent, with the
    window enabled and no older fingerprint of the value with the same deadline.
    Whatever happens then, the next staged read of that whole value is marked
    recurrent exactly when it is registered within the window, as long as fewer than
    65536 asynchronous reads complete in between and the clock does not run backwards.
    Registering it uses the fingerprint up, and the fingerprints kept stay within
    their bound. *)
Theorem recurrence_window acts y token f fl id data len ms n1 n2 y1 more z tid vlen now :
  coalesce_run acts = Some y → rc_tokens (cs_rc y) !! token = Some f → rc_flights (cs_rc y) !! f = Some fl →
  fl_whole fl = true → fl_publishes_to_ram fl = false → fl_waiters fl ≤ 0 → fl_recurrent fl = false →
  0 < ms → (fl_key fl, n1 + ms) ∉ rc_fifo (cs_rc y) →
  rstep (ActComplete id token kOk data len ms n1 n2) y = Some y1 → n2 ≤ now →
  run_actions rstep more y1 = Some z →
  Forall (λ a, rereads (fl_key fl) a = false ∧ trims_by now a = true) more → completions more < kRecurCap →
  InFlight (fl_key fl) (cs_rc z) = false →
  let rc' := (TryRegisterAsync tid (fl_key fl) true vlen false now (cs_rc z)).2 in
  Z.of_nat (length (rc_fifo rc')) ≤ kRecurCap ∧ rc_recents rc' !! fl_key fl = None
  ∧ fl_recurrent <$> rc_flights rc' !! rc_next (cs_rc z) = Some (now <=? n1 + ms).
Proof.
  intros Hr Et Ef Hw Hp Hwt Hrec Hms Hni Hs Hn Hm Hall Hcnt Hfree rc'. pose proof (run_cinv _ _ Hr) as Hy.
  assert (Hst : statics fl = (fl_key fl, true, false)) by (unfold statics; congruence).
  destruct (complete_remembers token data len id ms n1 n2 y y1 f fl) as [Hu1 Hr1]; try done.
  assert (Hr1' : remembered (fl_key fl) (n1 + ms) 0 now (cs_rc y1)) by (destruct Hr1 as [?|[? ?]]; [by left|right; split; [done|lia]]).
  destruct (remembered_run (fl_key fl) (n1 + ms) now more 0 y1 z) as [Hz Hrz]; try done; [by eapply cinv_step|].
  assert (Hwin : window (cs_rc z)).
  { apply (run_actions_inv rstep (λ y, window (cs_rc y)) more y1 z); [intros a s s'; apply window_step| |exact Hm].
    eapply window_step; [|exact Hs]. apply (run_actions_inv rstep (λ y, window (cs_rc y)) acts new_csys y);
      [intros a s s'; apply window_step|split; [by vm_compute|done]|exact Hr]. }
  split; [by apply wi_bound, window_register|]. unfold InFlight in Hfree. apply bool_decide_eq_false in Hfree.
  apply eq_None_not_Some in Hfree. subst rc'. unfold TryRegisterAsync. rewrite Hfree. cbn [snd rc_recents rc_flights andb negb].
  rewrite lookup_insert_eq. destruct Hrz as [[E _]|[E Hd]]; rewrite E; cbn; [by rewrite lookup_delete_eq|].
  split; [exact E|]. f_equal. lia.
Qed.

(** ** Witnesses *)

Definition sample_rkey : RKey := mkRKey (mkBlockKey 1 2 3) 0 4.

Definition sample_rfill : Fill := mkFill kOk [10; 20; 30; 40] (Some 4) (Some 9).

Definition sample_rinput : RInput := mkRInput true sample_rfill true.

(** A leader on thread 1 and a follower on thread 2 with a smaller buffer. *)
Definition sample_join : list RAction :=
  [ActRead 1 1 sample_rkey 4; ActRead 2 2 sample_rkey 3;
   ActStep 1 sample_rinput; ActStep 2 sample_rinput; ActStep 2 sample_rinput; ActStep 2 sample_rinput].

Definition sample_share : list RAction :=
  [ActStep 1 sample_rinput; ActStep 1 sample_rinput; ActStep 1 sample_rinput;
   ActStep 2 sample_rinput; ActStep 2 sample_rinput].

Lemma coalesced_state acts {B} (g : CSys → B) b :
  g <$> coalesce_run acts = Some b → ∃ y, coalesce_run acts = Some y ∧ g y = b.
Proof. destruct (coalesce_run acts) as [y|]; [|done]. intros [= <-]. by exists y. Qed.

Lemma coalesced_answers_witness :
  ∃ y res r, coalesce_run (sample_join ++ sample_share) = Some y
  ∧ cs_calls y !! 2%nat = Some (RRet sample_rkey 3 (FromFlight 0) res)
  ∧ rr_dst res = [10; 20; 30] ∧ rr_out_value_len res = Some 9
  ∧ (sample_rkey, r) ∈ rc_reads (cs_rc y) ∧ res = shared_result 3 r.
Proof.
  destruct (coalesced_state (sample_join ++ sample_share) (λ y, cs_calls y !! 2%nat)
    (Some (RRet sample_rkey 3 (FromFlight 0) (mkReadResult kOk [10; 20; 30] (Some 3) (Some 9))))) as (y & E & H);
    [vm_compute; reflexivity|].
  destruct (coalesced_answers _ y 2 _ 3 0 _ E H) as (r & Hin & _ & Hres).
  exists y, (mkReadResult kOk [10; 20; 30] (Some 3) (Some 9)), r.
  split; [exact E|]. split; [exact H|]. split; [reflexivity|]. split; [reflexivity|]. split; [exact Hin|exact Hres].
Defined.

Lemma single_flight_witness :
  ∃ y o, coalesce_run sample_join = Some y ∧ InFlight sample_rkey (cs_rc y) = true ∧ reading y sample_rkey o.
Proof.
  destruct (coalesced_state sample_join (λ y, InFlight sample_rkey (cs_rc y)) true) as (y & E & H);
    [vm_compute; reflexivity|].
  destruct (single_flight sample_join y sample_rkey ltac:(vm_compute; reflexivity) E) as [[Hf _] _].
  destruct (Hf H) as [o Ho]. exists y, o. split; [exact E|]. split; [exact H|exact Ho].
Defined.

Lemma reads_return_witness :
  ∃ y z c', coalesce_run sample_join = Some y ∧ run_actions rstep [ActStep 1 sample_rinput] y = Some z
  ∧ cs_calls z !! 2%nat = Some c' ∧ returned c' = false ∧ is_Some (rstep (ActStep 2 sample_rinput) z).
Proof.
  destruct (coalesced_state sample_join
    (λ y, (cs_calls y !! 2%nat, (λ z, cs_calls z !! 2%nat) <$> run_actions rstep [ActStep 1 sample_rinput] y))
    (Some (FWait 2 sample_rkey 3 0), Some (Some (FWait 2 sample_rkey 3 0)))) as (y & E & H); [vm_compute; reflexivity|].
  injection H as Hc Hz. apply fmap_Some in Hz as (z & Ez & Hz). symmetry in Hz.
  change (run_actions rstep [ActStep 1 sample_rinput] y = Some z) in Ez. destruct (reads_return sample_join y _ z 2 _ E Hc Ez) as (c' & Hc' & _ & Hen & _).
  rewrite Hz in Hc'. injection Hc' as <-. exists y, z, (FWait 2 sample_rkey 3 0).
  split; [exact E|]. split; [exact Ez|]. split; [exact Hz|]. split; [reflexivity|].
  apply Hen; reflexivity.
Defined.

(** Another value is read between the completion and the second read. *)
Definition other_rkey : RKey := mkRKey (mkBlockKey 4 5 6) 0 4.

Definition sample_between : list RAction :=
  [ActStep 9 sample_rinput; ActRegister 3 other_rkey true 4 false 10; ActComplete 8 2 kOk None 0 1000 20 21;
   ActRead 7 1 sample_rkey 4].

Definition between_free (y : CSys) : bool :=
  match rstep (ActComplete 9 1 kOk None 0 1000 5 6) y ≫= run_actions rstep sample_between with
  | Some z => negb (InFlight sample_rkey (cs_rc z))
  | None => false
  end.

Lemma recurrence_window_witness :
  ∃ y y1 z, coalesce_run [ActRegister 1 sample_rkey true 4 false 0] = Some y
  ∧ rstep (ActComplete 9 1 kOk None 0 1000 5 6) y = Some y1 ∧ run_actions rstep sample_between y1 = Some z
  ∧ fl_recurrent <$> rc_flights (TryRegisterAsync 2 sample_rkey true 4 false 700 (cs_rc z)).2 !! rc_next (cs_rc z) = Some true
  ∧ fl_recurrent <$> rc_flights (TryRegisterAsync 2 sample_rkey true 4 false 1006 (cs_rc z)).2 !! rc_next (cs_rc z) = Some false.
Proof.
  destruct (coalesced_state [ActRegister 1 sample_rkey true 4 false 0]
    (λ y, (rc_tokens (cs_rc y) !! 1, rc_flights (cs_rc y) !! 0%nat, rc_fifo (cs_rc y),
       between_free y))
    (Some 0%nat, Some (mkFlight false kInvalid 0 4 None sample_rkey true false false 1 0 0), [], true))
    as (y & E & H); [vm_compute; reflexivity|].
  injection H as Ht Hf Hq Hz. unfold between_free in Hz.
  destruct (rstep (ActComplete 9 1 kOk None 0 1000 5 6) y ≫= run_actions rstep sample_between) as [z|] eqn:E2; [|done].
  apply bind_Some in E2 as (y1 & E1 & E2). apply negb_true_iff in Hz.
  exists y, y1, z. split; [exact E|]. split; [exact E1|]. split; [exact E2|].
  assert (Hni : (sample_rkey, 1005) ∉ rc_fifo (cs_rc y)) by (rewrite Hq; apply not_elem_of_nil).
  split.
  - refine (proj2 (proj2 (recurrence_window _ y 1 0%nat _ 9 None 0 1000 5 6 y1 sample_between z 2 4 700
      E Ht Hf eq_refl eq_refl _ eq_refl _ Hni E1 _ E2 _ _ Hz))); cbn; try lia; repeat constructor; lia.
  - refine (proj2 (proj2 (recurrence_window _ y 1 0%nat _ 9 None 0 1000 5 6 y1 sample_between z 2 4 1006
      E Ht Hf eq_refl eq_refl _ eq_refl _ Hni E1 _ E2 _ _ Hz))); cbn; try lia; repeat constructor; lia.
Defined.
