(* ===== verification/Codec.v ===== *)
(** * Integer codec and byte buffers

    [net::PutU32], [PutU64], [GetU32] and [GetU64] (src/utils/net_util.h) copy
    the host representation of an integer to and from a byte buffer.  A buffer
    is a list of bytes; an access outside it is undefined behaviour in the
    source and [None] here, so a result [Some] says that no such access
    happened. *)

From S2P Require Import Prelude.

(** The byte order of a host. *)
Inductive Endian := Little | Big.

(** ** Bytes *)

Fixpoint le_bytes (n : nat) (v : Z) : list Z :=
  match n with
  | O => []
  | S n => v mod 256 :: le_bytes n (v / 256)
  end.

Fixpoint le_value (bs : list Z) : Z :=
  match bs with
  | [] => 0
  | b :: bs => b + 256 * le_value bs
  end.

(** The [n] bytes of [v] in memory order, and back. *)
Definition host_bytes (e : Endian) (n : nat) (v : Z) : list Z :=
  match e with Little => le_bytes n v | Big => reverse (le_bytes n v) end.

Definition host_value (e : Endian) (bs : list Z) : Z :=
  match e with Little => le_value bs | Big => le_value (reverse bs) end.

(** ** Buffers *)

Definition write (off : nat) (bs buf : list Z) : option (list Z) :=
  if (off + length bs <=? length buf)%nat
  then Some (take off buf ++ bs ++ drop (off + length bs) buf) else None.

Definition read (off n : nat) (buf : list Z) : option (list Z) :=
  if (off + n <=? length buf)%nat then Some (take n (drop off buf)) else None.

(** [p[off] = static_cast<char>(v)] and [static_cast<uint8_t>(p[off])]. *)
Definition Put8 (off : nat) (v : Z) (buf : list Z) : option (list Z) := write off [u8 v] buf.
Definition Get8 (off : nat) (buf : list Z) : option Z :=
  bs ← read off 1 buf; Some (le_value bs).

(** [std::memset(out, 0, n)]. *)
Definition memset0 (n : nat) (buf : list Z) : option (list Z) := write 0 (replicate n 0) buf.

Definition PutU32 (e : Endian) (off : nat) (v : Z) (buf : list Z) : option (list Z) :=
  write off (host_bytes e 4 v) buf.
Definition PutU64 (e : Endian) (off : nat) (v : Z) (buf : list Z) : option (list Z) :=
  write off (host_bytes e 8 v) buf.
Definition GetU32 (e : Endian) (off : nat) (buf : list Z) : option Z :=
  bs ← read off 4 buf; Some (host_value e bs).
Definition GetU64 (e : Endian) (off : nat) (buf : list Z) : option Z :=
  bs ← read off 8 buf; Some (host_value e bs).

(** ** Lemmas *)

Definition byte_ok (b : Z) : Prop := 0 <= b < 256.

Lemma length_le_bytes n v : length (le_bytes n v) = n.
Proof. revert v. induction n as [|n IH]; intros v; simpl; [done|]. by rewrite IH. Qed.

Lemma length_host_bytes e n v : length (host_bytes e n v) = n.
Proof. destruct e; simpl; by rewrite ?length_reverse, length_le_bytes. Qed.

Lemma le_bytes_ok n v : Forall byte_ok (le_bytes n v).
Proof.
  revert v. induction n as [|n IH]; intros v; constructor; [|done].
  apply Z.mod_pos_bound. lia.
Qed.

Lemma le_bytes_shift n v : le_bytes n v = (λ i, u8 (Z.shiftr v (8 * Z.of_nat i))) <$> seq 0 n.
Proof.
  revert v. induction n as [|n IH]; intros v; [done|]. cbn [le_bytes seq]. rewrite fmap_cons.
  rewrite Z.mul_0_r, Z.shiftr_0_r. f_equal. rewrite IH, <- fmap_S_seq, <- list_fmap_compose.
  apply list_fmap_ext. intros j i _. simpl. f_equal.
  rewrite !Z.shiftr_div_pow2, Z.div_div by lia. f_equal.
  change 256 with (2 ^ 8). rewrite <- Z.pow_add_r by lia. f_equal. lia.
Qed.

Lemma le_value_bytes n v : 0 <= v < 256 ^ Z.of_nat n → le_value (le_bytes n v) = v.
Proof.
  revert v. induction n as [|n IH]; intros v Hv; cbn [le_bytes le_value].
  - simpl in Hv. lia.
  - rewrite Nat2Z.inj_succ, Z.pow_succ_r in Hv by lia.
    rewrite IH; [pose proof (Z.div_mod v 256); lia|].
    split; [apply Z.div_pos; lia|apply Z.div_lt_upper_bound; lia].
Qed.

Lemma le_bytes_value bs : Forall byte_ok bs → le_bytes (length bs) (le_value bs) = bs.
Proof.
  induction 1 as [|b bs Hb _ IH]; [done|]. unfold byte_ok in Hb. cbn [length le_bytes le_value].
  rewrite (Z.mul_comm 256), Z.mod_add, Z.div_add, Z.mod_small, Z.div_small by lia. by rewrite Z.add_0_l, IH.
Qed.

Lemma le_value_bound bs : Forall byte_ok bs → 0 <= le_value bs < 256 ^ Z.of_nat (length bs).
Proof.
  induction 1 as [|b bs Hb _ IH]; cbn [length le_value]; [simpl; lia|].
  rewrite Nat2Z.inj_succ, Z.pow_succ_r by lia. unfold byte_ok in *. lia.
Qed.

Lemma host_round_trip e n v : 0 <= v < 256 ^ Z.of_nat n → host_value e (host_bytes e n v) = v.
Proof. intros Hv. destruct e; simpl; rewrite ?reverse_involutive; by apply le_value_bytes. Qed.

Lemma host_value_bound e bs : Forall byte_ok bs → 0 <= host_value e bs < 256 ^ Z.of_nat (length bs).
Proof.
  intros H. destruct e; simpl; [by apply le_value_bound|].
  rewrite <- length_reverse. apply le_value_bound. by apply Forall_reverse.
Qed.

(** A write inside the buffer succeeds and keeps its length. *)
Lemma write_ok off bs buf :
  (off + length bs <= length buf)%nat → ∃ buf', write off bs buf = Some buf' ∧ length buf' = length buf.
Proof.
  intros H. unfold write. rewrite (proj2 (Nat.leb_le _ _) H). eexists. split; [done|].
  rewrite !length_app, length_take, length_drop. lia.
Qed.

Lemma write_length off bs buf buf' : write off bs buf = Some buf' → length buf' = length buf.
Proof.
  unfold write. destruct (Nat.leb_spec (off + length bs) (length buf)); [|done]. intros [= <-].
  rewrite !length_app, length_take, length_drop. lia.
Qed.

(** What was written is read back, and nothing else changes. *)
Lemma read_write_eq off bs n buf buf' :
  write off bs buf = Some buf' → n = length bs → read off n buf' = Some bs.
Proof.
  intros Hw ->. pose proof (write_length _ _ _ _ Hw) as Hl. revert Hw. unfold write, read.
  destruct (Nat.leb_spec (off + length bs) (length buf)); [|done].
  rewrite Hl, (proj2 (Nat.leb_le _ _)) by done. intros [= <-]. f_equal.
  rewrite drop_app_length' by (rewrite length_take; lia). by rewrite take_app_length.
Qed.

Lemma read_write_ne off bs off' n buf buf' :
  write off bs buf = Some buf' → (off' + n <= off ∨ off + length bs <= off')%nat →
  read off' n buf' = read off' n buf.
Proof.
  intros Hw Hd. pose proof (write_length _ _ _ _ Hw) as Hl. revert Hw. unfold write, read. rewrite Hl.
  destruct (Nat.leb_spec (off + length bs) (length buf)) as [Hb|]; [|done]. intros [= <-].
  destruct (Nat.leb_spec (off' + n) (length buf)) as [Hr|]; [|done]. f_equal. destruct Hd as [Hd|Hd].
  - rewrite drop_app_le, take_app_le by (rewrite ?length_drop, ?length_take; lia).
    rewrite skipn_firstn_comm, take_take. f_equal. lia.
  - rewrite (app_assoc (take off buf)), drop_app_ge by (rewrite length_app, length_take; lia).
    rewrite length_app, length_take, drop_drop. do 2 f_equal. lia.
Qed.

Lemma read_ok off n buf : (off + n <= length buf)%nat → ∃ bs, read off n buf = Some bs ∧ length bs = n.
Proof.
  intros H. unfold read. rewrite (proj2 (Nat.leb_le _ _) H). eexists. split; [done|].
  rewrite length_take, length_drop. lia.
Qed.

Lemma read_bytes off n buf bs : Forall byte_ok buf → read off n buf = Some bs → Forall byte_ok bs.
Proof. unfold read. intros H. case_match; [|done]. intros [= <-]. by apply Forall_take, Forall_drop. Qed.

Lemma write_bytes off bs buf buf' :
  Forall byte_ok buf → Forall byte_ok bs → write off bs buf = Some buf' → Forall byte_ok buf'.
Proof.
  unfold write. intros H1 H2. case_match; [|done]. intros [= <-].
  apply Forall_app; split; [by apply Forall_take|]. apply Forall_app; split; [done|by apply Forall_drop].
Qed.

Lemma Get8_ok off buf : (off < length buf)%nat → is_Some (Get8 off buf).
Proof. intros H. unfold Get8. destruct (read_ok off 1 buf) as (bs & -> & _); [lia|done]. Qed.
Lemma GetU32_ok e off buf : (off + 4 <= length buf)%nat → is_Some (GetU32 e off buf).
Proof. intros H. unfold GetU32. destruct (read_ok off 4 buf) as (bs & -> & _); [lia|done]. Qed.
Lemma GetU64_ok e off buf : (off + 8 <= length buf)%nat → is_Some (GetU64 e off buf).
Proof. intros H. unfold GetU64. destruct (read_ok off 8 buf) as (bs & -> & _); [lia|done]. Qed.

Lemma host_bytes_ok e n v : Forall byte_ok (host_bytes e n v).
Proof. destruct e; simpl; [apply le_bytes_ok|apply Forall_reverse, le_bytes_ok]. Qed.

Lemma Get8_range off buf v : Forall byte_ok buf → Get8 off buf = Some v → is_u8 v.
Proof.
  intros Hb. unfold Get8. destruct (read off 1 buf) as [bs|] eqn:E; [|done]. intros [= <-].
  pose proof (le_value_bound _ (read_bytes _ _ _ _ Hb E)) as H. unfold read in E.
  case_match eqn:El; [|done]. apply Nat.leb_le in El. injection E as <-.
  rewrite length_take, length_drop, Nat.min_l in H by lia. done.
Qed.

Lemma GetU32_range e off buf v : Forall byte_ok buf → GetU32 e off buf = Some v → is_u32 v.
Proof.
  intros Hb. unfold GetU32. destruct (read off 4 buf) as [bs|] eqn:E; [|done]. intros [= <-].
  pose proof (host_value_bound e _ (read_bytes _ _ _ _ Hb E)) as H. unfold read in E.
  case_match eqn:El; [|done]. apply Nat.leb_le in El. injection E as <-.
  rewrite length_take, length_drop, Nat.min_l in H by lia. done.
Qed.

Lemma GetU64_range e off buf v : Forall byte_ok buf → GetU64 e off buf = Some v → is_u64 v.
Proof.
  intros Hb. unfold GetU64. destruct (read off 8 buf) as [bs|] eqn:E; [|done]. intros [= <-].
  pose proof (host_value_bound e _ (read_bytes _ _ _ _ Hb E)) as H. unfold read in E.
  case_match eqn:El; [|done]. apply Nat.leb_le in El. injection E as <-.
  rewrite length_take, length_drop, Nat.min_l in H by lia. done.
Qed.

(** ** Field tactics *)

(** Consume the next write of an encoder: it is inside the buffer. *)
Ltac do_write :=
  match goal with
  | |- context [write ?off ?bs ?buf ≫= _] =>
      let W := fresh "W" in let L := fresh "L" in let b := fresh "buf" in
      destruct (write_ok off bs buf) as (b & W & L);
      [rewrite ?length_host_bytes, ?length_replicate; simpl; lia|rewrite W; cbn [mbind option_bind]]
  | |- context [write ?off ?bs ?buf] =>
      let W := fresh "W" in let L := fresh "L" in let b := fresh "buf" in
      destruct (write_ok off bs buf) as (b & W & L);
      [rewrite ?length_host_bytes, ?length_replicate; simpl; lia|rewrite W]
  end.

(** Find what the last write to a field was. *)
Ltac find_field :=
  repeat match goal with
  | W : write ?off ?bs ?buf = Some ?b |- context [read ?off' ?n ?b] =>
      first
        [ rewrite (read_write_eq off bs n buf b W) by (rewrite ?length_host_bytes; done)
        | rewrite (read_write_ne off bs off' n buf b W)
            by (rewrite ?length_host_bytes, ?length_replicate; simpl; lia) ]
  end.

Ltac get_fields :=
  unfold Get8, GetU32, GetU64; find_field; cbn [mbind option_bind];
  rewrite ?host_round_trip by first [by split|simpl; unfold is_u8, is_u32, is_u64 in *; lia].

Lemma byte_value v : is_u8 v → le_value [u8 v] = v.
Proof. intros H. simpl. rewrite u8_id by done. lia. Qed.

(** ** Words assembled with shifts *)

Lemma lor_shiftl x y k : 0 <= k → 0 <= x < 2 ^ k → Z.lor x (Z.shiftl y k) = x + y * 2 ^ k.
Proof.
  intros Hk Hx. assert (Hl : Z.land x (Z.shiftl y k) = 0).
  { apply Z.bits_inj'. intros i Hi. rewrite Z.land_spec, Z.bits_0. destruct (Z.lt_ge_cases i k).
    - by rewrite Z.shiftl_spec_low, andb_false_r.
    - by rewrite (log2_lt_bits x k Hx Hk i). }
  rewrite <- Z.lxor_lor, <- Z.add_nocarry_lxor by done. by rewrite Z.shiftl_mul_pow2.
Qed.

Lemma le_value_snoc bs b : le_value (bs ++ [b]) = le_value bs + b * 2 ^ (8 * Z.of_nat (length bs)).
Proof.
  induction bs as [|x bs IH]; cbn [app le_value length]; [simpl; lia|]. rewrite IH, Nat2Z.inj_succ.
  replace (8 * Z.succ (Z.of_nat (length bs))) with (8 + 8 * Z.of_nat (length bs)) by lia.
  rewrite Z.pow_add_r by lia. change (2 ^ 8) with 256. lia.
Qed.

(** [acc |= p[i] << (8 * i)] over the bytes of [p]. *)
Definition or_word (p : list Z) : Z :=
  foldl (λ acc i, Z.lor acc (Z.shiftl (nth i p 0) (8 * Z.of_nat i))) 0 (seq 0 (length p)).

Lemma or_word_value p : Forall byte_ok p → or_word p = le_value p.
Proof.
  induction p as [|b p IH] using rev_ind; intros Hp; [done|]. apply Forall_app in Hp as [Hp Hb].
  unfold or_word. rewrite length_app, seq_app, foldl_app, Nat.add_0_l. cbn [length seq foldl].
  rewrite app_nth2, Nat.sub_diag by lia. cbn [nth].
  assert (E : ∀ acc, foldl (λ acc i, Z.lor acc (Z.shiftl (nth i (p ++ [b]) 0) (8 * Z.of_nat i))) acc
     (seq 0 (length p)) = foldl (λ acc i, Z.lor acc (Z.shiftl (nth i p 0) (8 * Z.of_nat i))) acc (seq 0 (length p))).
  { assert (Hs : ∀ i, i ∈ seq 0 (length p) → (i < length p)%nat) by (intros i Hi; apply elem_of_seq in Hi; lia).
    revert Hs. generalize (seq 0 (length p)). intros l Hs.
    induction l as [|i l IHl]; intros acc; [done|]. cbn [foldl].
    rewrite app_nth1 by (apply Hs; by left). apply IHl. intros j Hj. apply Hs. by right. }
  rewrite E. fold (or_word p). rewrite IH by done. rewrite lor_shiftl, le_value_snoc; [done|lia|].
  pose proof (le_value_bound p Hp) as H. change 256 with (2 ^ 8) in H.
  rewrite <- Z.pow_mul_r in H by lia. done.
Qed.

(** ** Reading along a buffer *)

Lemma drop_prefix (s x r : list Z) pos : drop pos s = x ++ r → drop (pos + length x) s = r.
Proof. intros E. by rewrite <- (drop_drop s _ pos), E, drop_app_length. Qed.

Lemma drop_bound (s x r : list Z) pos :
  drop pos s = x ++ r → (0 < length x)%nat → (pos + length x <= length s)%nat.
Proof. intros E Hx. pose proof (length_drop s pos) as H. rewrite E, length_app in H. lia. Qed.

Lemma read_at off (s r buf : list Z) :
  drop off buf = s ++ r → (off + length s <= length buf)%nat → read off (length s) buf = Some s.
Proof.
  intros E Hl. unfold read. rewrite (proj2 (Nat.leb_le _ _)), E by done. by rewrite take_app_length.
Qed.

Lemma GetU32_at e off v r buf :
  drop off buf = host_bytes e 4 v ++ r → is_u32 v →
  GetU32 e off buf = Some v ∧ drop (off + 4) buf = r ∧ (off + 4 <= length buf)%nat.
Proof.
  intros E Hv. pose proof (drop_prefix _ _ _ _ E) as Hr. pose proof (drop_bound _ _ _ _ E) as Hl.
  rewrite length_host_bytes in Hr, Hl. split; [|split; [done|lia]]. unfold GetU32.
  replace (read off 4 buf) with (Some (host_bytes e 4 v)).
  - cbn [mbind option_bind]. by rewrite host_round_trip.
  - symmetry. rewrite <- (length_host_bytes e 4 v) at 1. eapply read_at; [done|]. rewrite length_host_bytes. lia.
Qed.

Lemma GetU64_at e off v r buf :
  drop off buf = host_bytes e 8 v ++ r → is_u64 v →
  GetU64 e off buf = Some v ∧ drop (off + 8) buf = r ∧ (off + 8 <= length buf)%nat.
Proof.
  intros E Hv. pose proof (drop_prefix _ _ _ _ E) as Hr. pose proof (drop_bound _ _ _ _ E) as Hl.
  rewrite length_host_bytes in Hr, Hl. split; [|split; [done|lia]]. unfold GetU64.
  replace (read off 8 buf) with (Some (host_bytes e 8 v)).
  - cbn [mbind option_bind]. by rewrite host_round_trip.
  - symmetry. rewrite <- (length_host_bytes e 8 v) at 1. eapply read_at; [done|]. rewrite length_host_bytes. lia.
Qed.

Lemma Get8_at off b r buf :
  drop off buf = b :: r → Get8 off buf = Some b ∧ drop (off + 1) buf = r ∧ (off + 1 <= length buf)%nat.
Proof.
  intros E. change (b :: r) with ([b] ++ r) in E. pose proof (drop_prefix _ _ _ _ E) as Hr.
  pose proof (drop_bound _ _ _ _ E) as Hl. simpl in Hr, Hl. split; [|split; [done|lia]]. unfold Get8.
  pose proof (read_at off [b] r buf E ltac:(simpl; lia)) as Hread. simpl in Hread. rewrite Hread.
  cbn [mbind option_bind le_value]. f_equal. lia.
Qed.
