(* ===== verification/Wire.v ===== *)
(** * Wire frames of the control and data planes

    The request and response prefixes of src/transport/wire.h (native epochs),
    the v1 control-plane framing of src/transport/wire_legacy.h, and the
    payload and trailer of the retention op.  An out-parameter the source
    leaves untouched on failure is passed in and returned. *)

From S2P Require Import Prelude KvTypes Codec.

(** ** Op codes and limits *)

Inductive WireOp :=
  kCache | kRange | kExist | kStats | kMembers | kRegister | kHeartbeat | kListMembers | kRemove
| kListGroups | kClientRegister | kClientHeartbeat | kListClients | kLookup | kListTopology
| kPullRange | kPullRelease | kLeasePut | kRetain.

Definition op_byte (op : WireOp) : Z :=
  match op with
  | kCache => 1 | kRange => 2 | kExist => 3 | kStats => 4 | kMembers => 5 | kRegister => 6
  | kHeartbeat => 7 | kListMembers => 8 | kRemove => 9 | kListGroups => 10 | kClientRegister => 11
  | kClientHeartbeat => 12 | kListClients => 13 | kLookup => 14 | kListTopology => 15
  | kPullRange => 16 | kPullRelease => 17 | kLeasePut => 18 | kRetain => 19
  end.

Definition kNativeProtoTcp : Z := 6.
Definition kNativeProtoRdmaV2 : Z := 8.
Definition kMaxFrameLen : Z := Z.shiftl 1 34.
Definition kReqPrefix : nat := 50.
Definition kRespPrefix : nat := 18.

(** ** Requests *)

Record ReqFields := mkReqFields {
  rq_op : Z;
  rq_tenant_hash : Z;
  rq_digest_hi : Z;
  rq_digest_lo : Z;
  rq_offset : Z;
  rq_length : Z;
  rq_payload_len : Z;
}.

(** [ReqFields::Key]. *)
Definition Key (f : ReqFields) : BlockKey :=
  mkBlockKey (rq_digest_hi f) (rq_digest_lo f) (rq_tenant_hash f).

Section native.
Context (e : Endian).

Definition EncodeReqVersion (p : list Z) (version : Z) (op : WireOp) (k : BlockKey)
    (offset length payload_len : Z) : option (list Z) :=
  p ← Put8 0 version p;
  p ← Put8 1 (op_byte op) p;
  p ← PutU64 e 2 (tenant_hash k) p;
  p ← PutU64 e 10 (digest_hi k) p;
  p ← PutU64 e 18 (digest_lo k) p;
  p ← PutU64 e 26 offset p;
  p ← PutU64 e 34 length p;
  PutU64 e 42 payload_len p.

Definition EncodeReq (p : list Z) (op : WireOp) (k : BlockKey) (offset length payload_len : Z) :
    option (list Z) := EncodeReqVersion p kNativeProtoTcp op k offset length payload_len.

(** Whether the frame is accepted, and the fields. *)
Definition DecodeReqVersion (p : list Z) (expected_version : Z) (o : ReqFields) (max_payload : Z) :
    option (bool * ReqFields) :=
  v ← Get8 0 p;
  if negb (v =? expected_version) then Some (false, o)
  else
    op ← Get8 1 p;
    tenant ← GetU64 e 2 p;
    hi ← GetU64 e 10 p;
    lo ← GetU64 e 18 p;
    offset ← GetU64 e 26 p;
    length ← GetU64 e 34 p;
    payload_len ← GetU64 e 42 p;
    Some (payload_len <=? max_payload, mkReqFields op tenant hi lo offset length payload_len).

Definition DecodeReq (p : list Z) (o : ReqFields) (max_payload : Z) : option (bool * ReqFields) :=
  DecodeReqVersion p kNativeProtoTcp o max_payload.

(** ** Responses *)

Definition EncodeRespVersion (p : list Z) (version : Z) (st : Status) (data_len value_len : Z) :
    option (list Z) :=
  p ← Put8 0 version p;
  p ← Put8 1 (status_byte st) p;
  p ← PutU64 e 2 data_len p;
  PutU64 e 10 value_len p.

Definition EncodeResp (p : list Z) (st : Status) (data_len value_len : Z) : option (list Z) :=
  EncodeRespVersion p kNativeProtoTcp st data_len value_len.

(** [static_cast<Status>(raw_status)]. *)
Definition status_of_byte (b : Z) : Status :=
  match b with
  | 0 => kOk | 1 => kNotFound | 2 => kCacheFull | 3 => kQuotaExceeded | 4 => kIOError
  | 5 => kInvalid | 6 => kResourceExhausted | _ => kNoCompatibleRail
  end.

(** The outputs of a response decoder: [*st], [*data_len], [*value_len]. *)
Record RespOut := mkRespOut { ro_st : Status; ro_data_len : Z; ro_value_len : Z }.

(** [want_value]: the caller passed a non-null [value_len]. *)
Definition DecodeRespVersion (p : list Z) (expected_version : Z) (out : RespOut) (max_data : Z)
    (want_value : bool) : option (bool * RespOut) :=
  v ← Get8 0 p;
  if negb (v =? expected_version) then Some (false, out)
  else
    raw ← Get8 1 p;
    if status_byte kInvalid <? raw then Some (false, out)
    else
      data_len ← GetU64 e 2 p;
      if max_data <? data_len then Some (false, out)
      else
        value_len ← (if want_value then GetU64 e 10 p else Some (ro_value_len out));
        Some (true, mkRespOut (status_of_byte raw) data_len value_len).

Definition DecodeResp (p : list Z) (out : RespOut) (max_data : Z) (want_value : bool) :
    option (bool * RespOut) := DecodeRespVersion p kNativeProtoTcp out max_data want_value.

(** ** The v1 control plane *)

Definition kNativeProtoLegacyTcp : Z := 1.
Definition kLegacyReqPrefix : nat := 42.
Definition kLegacyRespPrefix : nat := 10.

Definition EncodeLegacyReq (p : list Z) (op : WireOp) (payload_len : Z) : option (list Z) :=
  p ← Put8 0 kNativeProtoLegacyTcp p;
  p ← Put8 1 (op_byte op) p;
  p ← PutU64 e 2 0 p;
  p ← PutU32 e 10 0 p;
  p ← PutU32 e 14 0 p;
  p ← PutU64 e 18 0 p;
  p ← PutU64 e 26 0 p;
  PutU64 e 34 payload_len p.

Definition DecodeLegacyReq (p : list Z) (o : ReqFields) (max_payload : Z) :
    option (bool * ReqFields) :=
  v ← Get8 0 p;
  if negb (v =? kNativeProtoLegacyTcp) then Some (false, o)
  else
    op ← Get8 1 p;
    payload_len ← GetU64 e 34 p;
    Some (payload_len <=? max_payload, mkReqFields op 0 0 0 0 0 payload_len).

Definition LegacyStatusByte (st : Status) : Z :=
  match st with
  | kOk => 0 | kNotFound => 1 | kCacheFull => 2 | kQuotaExceeded => 3 | kIOError => 3
  | kInvalid => 4 | kResourceExhausted => 3 | kNoCompatibleRail => 3
  end.

Definition EncodeLegacyResp (p : list Z) (st : Status) (data_len : Z) : option (list Z) :=
  p ← Put8 0 kNativeProtoLegacyTcp p;
  p ← Put8 1 (LegacyStatusByte st) p;
  PutU64 e 2 data_len p.

(** ** The retention op *)

Definition kRetainHeaderBytes : nat := 8.
Definition kRetainKeyBytes : nat := 16.
Definition kRetainTrailerBytes : nat := 12.
Definition kRetainMaxKeys : Z := 1024.
Definition kRetainModeSet : Z := 0.
Definition kRetainModeRefresh : Z := 1.

Record RetainTrailer := mkRetainTrailer {
  rt_server_now_s : Z; rt_max_ttl_s : Z; rt_headroom_pct : Z;
}.

Definition RetainPayloadBytes (count : nat) : nat :=
  (kRetainHeaderBytes + count * kRetainKeyBytes)%nat.

Fixpoint encode_keys (keys : list BlockKey) (k : nat) (p : list Z) : option (list Z) :=
  match keys with
  | [] => Some p
  | key :: keys =>
      p ← PutU64 e k (digest_hi key) p;
      p ← PutU64 e (k + 8) (digest_lo key) p;
      encode_keys keys (k + kRetainKeyBytes) p
  end.

Definition EncodeRetainPayload (p : list Z) (ttl_s mode : Z) (keys : list BlockKey) :
    option (list Z) :=
  p ← PutU32 e 0 ttl_s p;
  p ← Put8 4 mode p;
  p ← Put8 5 0 p;
  p ← Put8 6 0 p;
  p ← Put8 7 0 p;
  encode_keys keys kRetainHeaderBytes p.

Definition EncodeRetainTrailer (off : nat) (p : list Z) (t : RetainTrailer) : option (list Z) :=
  p ← PutU32 e off (rt_server_now_s t) p;
  p ← PutU32 e (off + 4) (rt_max_ttl_s t) p;
  p ← Put8 (off + 8) (rt_headroom_pct t) p;
  p ← Put8 (off + 9) 0 p;
  p ← Put8 (off + 10) 0 p;
  Put8 (off + 11) 0 p.

Definition DecodeRetainTrailer (off : nat) (p : list Z) : option RetainTrailer :=
  now ← GetU32 e off p;
  max_ttl ← GetU32 e (off + 4) p;
  headroom ← Get8 (off + 8) p;
  Some (mkRetainTrailer now max_ttl headroom).

(** ** Round trips *)

Definition key_u64 (k : BlockKey) : Prop :=
  is_u64 (digest_hi k) ∧ is_u64 (digest_lo k) ∧ is_u64 (tenant_hash k).

Lemma op_byte_u8 op : is_u8 (op_byte op).
Proof. by destruct op. Qed.
Lemma status_byte_u8 st : is_u8 (status_byte st).
Proof. by destruct st. Qed.

(** C31. Any request prefix written into a buffer of at least 50 bytes is read
    back field by field by a peer of the same byte order and epoch, which
    accepts it exactly when the declared payload is within its limit; a peer
    of any other epoch rejects the frame without touching its output. *)
Theorem request_round_trip p version version' op k offset len payload_len o max_payload :
  (kReqPrefix <= length p)%nat → is_u8 version → key_u64 k → is_u64 offset → is_u64 len →
  is_u64 payload_len →
  ∃ p', EncodeReqVersion p version op k offset len payload_len = Some p' ∧ length p' = length p ∧
    DecodeReqVersion p' version' o max_payload =
      Some (if version =? version' then
              (payload_len <=? max_payload,
               mkReqFields (op_byte op) (tenant_hash k) (digest_hi k) (digest_lo k) offset len payload_len)
            else (false, o)).
Proof.
  intros Hp Hv (Hhi & Hlo & Ht) Ho Hl Hpl. unfold kReqPrefix in Hp.
  unfold EncodeReqVersion, Put8, PutU64. do 8 do_write.
  eexists. split; [done|]. split; [lia|]. unfold DecodeReqVersion.
  get_fields. rewrite byte_value by done. destruct (version =? version'); cbn [negb]; [|done].
  get_fields. by rewrite byte_value by apply op_byte_u8.
Qed.

(** Any response a server can produce is read back by a peer of the same
    epoch: status, data length and stored length. *)
Theorem response_round_trip p version st data_len value_len out max_data :
  (kRespPrefix <= length p)%nat → is_u8 version → status_byte st <= status_byte kInvalid →
  is_u64 data_len → is_u64 value_len →
  ∃ p', EncodeRespVersion p version st data_len value_len = Some p' ∧ length p' = length p ∧
    DecodeRespVersion p' version out max_data true =
      Some (if data_len <=? max_data then (true, mkRespOut st data_len value_len) else (false, out)).
Proof.
  intros Hp Hv Hst Hd Hvl. unfold kRespPrefix in Hp.
  unfold EncodeRespVersion, Put8, PutU64. do 4 do_write.
  eexists. split; [done|]. split; [lia|]. unfold DecodeRespVersion.
  get_fields. rewrite !byte_value by (done || apply status_byte_u8). rewrite Z.eqb_refl. cbn [negb].
  rewrite (proj2 (Z.ltb_ge _ _)) by done. get_fields.
  rewrite Z.ltb_antisym. destruct (data_len <=? max_data); cbn [negb]; [|done].
  by destruct st; simpl in Hst; try lia.
Qed.

(** A response decoder never runs outside an 18-byte prefix, accepts only
    the statuses a peer may put on the wire and lengths within the limit, and
    changes its outputs only when it accepts. *)
Theorem response_decode_safe p version out max_data want_value :
  (kRespPrefix <= length p)%nat → Forall byte_ok p →
  ∃ ok out', DecodeRespVersion p version out max_data want_value = Some (ok, out') ∧
    if ok then status_byte (ro_st out') <= status_byte kInvalid ∧ ro_data_len out' <= max_data
    else out' = out.
Proof.
  intros Hp Hb. unfold kRespPrefix in Hp. unfold DecodeRespVersion.
  destruct (Get8_ok 0 p) as [v ->]; [lia|]. cbn [mbind option_bind].
  destruct (negb (v =? version)); [by exists false, out|].
  destruct (Get8_ok 1 p) as [raw Hraw]; [lia|]. pose proof (Get8_range _ _ _ Hb Hraw) as Hr.
  rewrite Hraw. cbn [mbind option_bind].
  destruct (Z.ltb_spec (status_byte kInvalid) raw) as [|Hle]; [by exists false, out|].
  destruct (GetU64_ok e 2 p) as [dl ->]; [lia|]. cbn [mbind option_bind].
  destruct (Z.ltb_spec max_data dl) as [|Hdl]; [by exists false, out|].
  assert (Hst : status_byte (status_of_byte raw) <= status_byte kInvalid).
  { unfold is_u8 in Hr. simpl in Hle. assert (raw ∈ seqZ 0 6) as Hin by (apply elem_of_seqZ; lia).
    repeat (apply elem_of_cons in Hin as [->|Hin]; [done|]). by apply elem_of_nil in Hin. }
  destruct (GetU64_ok e 10 p) as [vl Hvl]; [lia|].
  destruct want_value; rewrite ?Hvl; cbn [mbind option_bind]; by do 2 eexists.
Qed.

(** The generations never mix: whatever the bytes and whatever limits the
    three decoders run with, at most one of the legacy, TCP and RDMA request
    decoders accepts a frame. *)
Theorem generations_disjoint p o1 o2 o3 f1 f2 f3 b1 b2 b3 m1 m2 m3 :
  DecodeReqVersion p kNativeProtoTcp o1 m1 = Some (b1, f1) →
  DecodeReqVersion p kNativeProtoRdmaV2 o2 m2 = Some (b2, f2) →
  DecodeLegacyReq p o3 m3 = Some (b3, f3) →
  b1 && b2 = false ∧ b1 && b3 = false ∧ b2 && b3 = false.
Proof.
  intros H1 H2 H3. unfold DecodeReqVersion in H1, H2. unfold DecodeLegacyReq in H3.
  destruct (Get8 0 p) as [v|]; [|done]. cbn [mbind option_bind] in *.
  destruct (Z.eqb_spec v kNativeProtoTcp), (Z.eqb_spec v kNativeProtoRdmaV2),
    (Z.eqb_spec v kNativeProtoLegacyTcp); unfold kNativeProtoTcp, kNativeProtoRdmaV2, kNativeProtoLegacyTcp in *;
    try lia; cbn [negb] in *; simplify_eq/=; by rewrite ?andb_false_r.
Qed.

(** The v1 request round trip. *)
Lemma legacy_round_trip p op payload_len o max_payload :
  (kLegacyReqPrefix <= length p)%nat → is_u64 payload_len →
  ∃ p', EncodeLegacyReq p op payload_len = Some p' ∧
    DecodeLegacyReq p' o max_payload =
      Some (payload_len <=? max_payload, mkReqFields (op_byte op) 0 0 0 0 0 payload_len).
Proof.
  intros Hp Hpl. unfold kLegacyReqPrefix in Hp. unfold EncodeLegacyReq, Put8, PutU64, PutU32. do 8 do_write.
  eexists. split; [done|]. unfold DecodeLegacyReq. get_fields.
  rewrite !byte_value by (done || apply op_byte_u8). done.
Qed.

(** ** The retention payload *)

(** The keys a payload carries, as [ProcessRetain] reads them. *)
Fixpoint decode_keys (count : nat) (k : nat) (tenant : Z) (p : list Z) : option (list BlockKey) :=
  match count with
  | O => Some []
  | S count =>
      hi ← GetU64 e k p;
      lo ← GetU64 e (k + 8) p;
      rest ← decode_keys count (k + kRetainKeyBytes) tenant p;
      Some (mkBlockKey hi lo tenant :: rest)
  end.

Lemma encode_keys_spec keys : ∀ k p,
  (k + length keys * kRetainKeyBytes <= length p)%nat → Forall key_u64 keys →
  ∃ p', encode_keys keys k p = Some p' ∧ length p' = length p ∧
    (∀ off n, (off + n <= k)%nat → read off n p' = read off n p) ∧
    ∀ tenant, decode_keys (length keys) k tenant p' =
      Some ((λ key, mkBlockKey (digest_hi key) (digest_lo key) tenant) <$> keys).
Proof.
  induction keys as [|key keys IH]; intros k p Hp Hk; simpl; [by exists p|].
  apply Forall_cons in Hk as [(Hhi & Hlo & _) Hk]. unfold PutU64, kRetainKeyBytes in *. simpl in Hp.
  do 2 do_write. destruct (IH (k + 16)%nat buf0) as (p' & -> & Hl & Hkeep & Hdec); [lia|done|].
  exists p'. split; [done|]. split; [lia|]. split.
  - intros off n Hn. rewrite Hkeep by lia. by find_field.
  - intros tenant. rewrite Hdec. unfold GetU64. rewrite !Hkeep by lia. find_field. cbn [mbind option_bind].
    by rewrite !host_round_trip by (simpl; unfold is_u64 in *; lia).
Qed.

(** The payload a client sends is the one the server reads. *)
Lemma retain_payload_spec ttl_s mode keys :
  is_u32 ttl_s → is_u8 mode → Forall key_u64 keys →
  ∃ p, EncodeRetainPayload (replicate (RetainPayloadBytes (length keys)) 0) ttl_s mode keys = Some p ∧
    length p = RetainPayloadBytes (length keys) ∧ GetU32 e 0 p = Some ttl_s ∧ Get8 4 p = Some mode ∧
    ∀ tenant, decode_keys (length keys) kRetainHeaderBytes tenant p =
      Some ((λ key, mkBlockKey (digest_hi key) (digest_lo key) tenant) <$> keys).
Proof.
  intros Ht Hm Hk. set (p0 := replicate _ 0).
  assert (Hlen : length p0 = (8 + length keys * 16)%nat) by (subst p0; by rewrite length_replicate).
  clearbody p0. unfold EncodeRetainPayload, PutU32, Put8. do 5 do_write.
  destruct (encode_keys_spec keys kRetainHeaderBytes buf3) as (p & -> & Hl & Hkeep & Hdec);
    [unfold kRetainHeaderBytes, kRetainKeyBytes; lia|done|].
  exists p. split; [done|]. split; [unfold RetainPayloadBytes, kRetainHeaderBytes, kRetainKeyBytes; lia|].
  unfold GetU32, Get8, kRetainHeaderBytes in *. rewrite !Hkeep by lia. find_field. cbn [mbind option_bind].
  rewrite host_round_trip by (simpl; unfold is_u32 in *; lia). by rewrite byte_value.
Qed.

Lemma retain_trailer_spec off p t :
  (off + kRetainTrailerBytes <= length p)%nat →
  is_u32 (rt_server_now_s t) → is_u32 (rt_max_ttl_s t) → is_u8 (rt_headroom_pct t) →
  ∃ p', EncodeRetainTrailer off p t = Some p' ∧ length p' = length p ∧
    DecodeRetainTrailer off p' = Some t ∧
    ∀ o n, (o + n <= off)%nat → read o n p' = read o n p.
Proof.
  intros Hp H1 H2 H3. unfold kRetainTrailerBytes in Hp. unfold EncodeRetainTrailer, PutU32, Put8. do 6 do_write.
  eexists. split; [done|]. split; [lia|]. split.
  - unfold DecodeRetainTrailer. get_fields. rewrite byte_value by done. by destruct t.
  - intros o n Hn. by find_field.
Qed.

End native.

(** ** Examples *)

Definition sample_key : BlockKey := mkBlockKey 11 22 33.

Lemma request_round_trip_witness :
  ∃ p', EncodeReqVersion Little (replicate 50 0) 6 kRange sample_key 4096 100 0 = Some p' ∧
    DecodeReqVersion Little p' 6 (mkReqFields 0 0 0 0 0 0 0) kMaxFrameLen =
      Some (true, mkReqFields 2 33 11 22 4096 100 0).
Proof.
  destruct (request_round_trip Little (replicate 50 0) 6 6 kRange sample_key 4096 100 0
    (mkReqFields 0 0 0 0 0 0 0) kMaxFrameLen) as (p' & E & _ & D);
    [by rewrite length_replicate|done|done|done|done|done|]. exists p'. exact (conj E D).
Defined.

Lemma response_round_trip_witness :
  ∃ p', EncodeRespVersion Big (replicate 18 0) 8 kQuotaExceeded 5 7 = Some p' ∧
    DecodeRespVersion Big p' 8 (mkRespOut kOk 0 0) kMaxFrameLen true =
      Some (true, mkRespOut kQuotaExceeded 5 7).
Proof.
  destruct (response_round_trip Big (replicate 18 0) 8 kQuotaExceeded 5 7 (mkRespOut kOk 0 0) kMaxFrameLen)
    as (p' & E & _ & D); [by rewrite length_replicate|done|done|done|done|]. exists p'. exact (conj E D).
Defined.

(** A reply that carries a client-local status is refused. *)
Lemma response_decode_safe_witness :
  ∃ ok out', DecodeRespVersion Little (6 :: 6 :: replicate 16 0) 6 (mkRespOut kOk 9 9) kMaxFrameLen true =
    Some (ok, out') ∧ ok = false ∧ out' = mkRespOut kOk 9 9.
Proof.
  destruct (response_decode_safe Little (6 :: 6 :: replicate 16 0) 6 (mkRespOut kOk 9 9) kMaxFrameLen true)
    as (ok & out' & E & H); [by vm_compute; lia|by repeat (constructor; [unfold byte_ok; lia|])|].
  exists ok, out'. split; [exact E|]. vm_compute in E. by injection E as <- <-.
Defined.

Lemma generations_disjoint_witness :
  DecodeReqVersion Little (1 :: replicate 49 0) 6 (mkReqFields 0 0 0 0 0 0 0) 0 =
    Some (false, mkReqFields 0 0 0 0 0 0 0) ∧ (true && false = false).
Proof.
  split; [by vm_compute|].
  destruct (generations_disjoint Little (1 :: replicate 49 0) (mkReqFields 0 0 0 0 0 0 0)
    (mkReqFields 0 0 0 0 0 0 0) (mkReqFields 0 0 0 0 0 0 0) (mkReqFields 0 0 0 0 0 0 0)
    (mkReqFields 0 0 0 0 0 0 0) (mkReqFields 0 0 0 0 0 0 0) false false true 0 0 0)
    as (_ & _ & H); [by vm_compute|by vm_compute|by vm_compute|]. done.
Defined.
