(* ===== verification/DevFrame.v ===== *)
(** * The RDMA bootstrap device frame

    The 32-byte frame of src/transport/dev_frame.h: a NUL-terminated device
    name, then magic, a capability word (request bits over the block size) and
    the protocol byte. *)

From S2P Require Import Prelude Codec.

Definition kDevNameBytes : nat := 32.
Definition kDevCapsV2Magic : Z := 0x32504344.
Definition kDevProtoV2 : Z := 2.
Definition kDevFrameRequestWriterRetirement : Z := Z.shiftl 1 63.
Definition kDevFrameRequestPullRead : Z := Z.shiftl 1 62.
Definition kDevFrameRequestLeasedPut : Z := Z.shiftl 1 61.
Definition kDevFrameRequestDynamicPull : Z := Z.shiftl 1 60.
Definition kDevFrameRequestDynamicOnly : Z := Z.shiftl 1 59.

(** [~] of the request bits, on 64 bits. *)
Definition kDevFrameMaxBlockMask : Z :=
  Z.lxor UINT64_MAX (Z.lor (Z.lor (Z.lor (Z.lor kDevFrameRequestWriterRetirement
    kDevFrameRequestPullRead) kDevFrameRequestLeasedPut) kDevFrameRequestDynamicPull)
    kDevFrameRequestDynamicOnly).

Definition kDevFrameCapsTrailerBytes : nat := 14.
Definition kMaxDeviceNameBytes : nat := (kDevNameBytes - kDevFrameCapsTrailerBytes)%nat.

Definition DeviceNameFitsFrame (dev : list Z) : bool := (length dev <=? kMaxDeviceNameBytes)%nat.

(** The scan for the terminating NUL, at most [n] bytes. *)
Fixpoint find_nul (n : nat) (l : list Z) : nat :=
  match n, l with
  | S n, b :: l => if b =? 0 then 0%nat else S (find_nul n l)
  | _, _ => 0%nat
  end.

Section frame.
Context (e : Endian).

Definition EncodeDevFrame (dev : list Z) (max_block_bytes : Z) (out : list Z)
    (protocol_version : Z) : option (list Z) :=
  out ← memset0 kDevNameBytes out;
  let n := Nat.min (length dev) (kDevNameBytes - 1) in
  out ← write 0 (take n dev) out;
  if negb (protocol_version =? kDevProtoV2) || (max_block_bytes =? 0)
     || (kMaxDeviceNameBytes <? n)%nat
  then Some out
  else
    out ← PutU32 e (n + 1) kDevCapsV2Magic out;
    out ← PutU64 e (n + 5) max_block_bytes out;
    Put8 (n + 13) kDevProtoV2 out.

Definition ParseDevFrameCaps (frame : list Z) : option Z :=
  let nul := find_nul kDevNameBytes frame in
  if (kDevNameBytes <? nul + 1 + 4 + 8 + 1)%nat then Some 0
  else
    magic ← GetU32 e (nul + 1) frame;
    proto ← Get8 (nul + 13) frame;
    if negb (magic =? kDevCapsV2Magic) || negb (proto =? kDevProtoV2) then Some 0
    else GetU64 e (nul + 5) frame.

Definition ParseDevFrameMaxBlock (frame : list Z) : option Z :=
  caps ← ParseDevFrameCaps frame; Some (Z.land caps kDevFrameMaxBlockMask).

Definition requests (bit : Z) (frame : list Z) : option bool :=
  caps ← ParseDevFrameCaps frame; Some (negb (Z.land caps bit =? 0)).

Definition DevFrameRequestsWriterRetirement := requests kDevFrameRequestWriterRetirement.
Definition DevFrameRequestsPullRead := requests kDevFrameRequestPullRead.
Definition DevFrameRequestsLeasedPut := requests kDevFrameRequestLeasedPut.
Definition DevFrameRequestsDynamicPull := requests kDevFrameRequestDynamicPull.
Definition DevFrameRequestsDynamicOnly := requests kDevFrameRequestDynamicOnly.

Definition ParseDevFrameProtocol (frame : list Z) : option Z :=
  caps ← ParseDevFrameCaps frame; Some (if caps =? 0 then 0 else kDevProtoV2).

(** ** Lemmas *)

Lemma find_nul_spec n : ∀ name l,
  Forall (λ b, b ≠ 0) name → head l = Some 0 → (length name < n)%nat →
  find_nul n (name ++ l) = length name.
Proof.
  induction n as [|n IH]; intros name l Hn Hl Hlen; [lia|]. destruct name as [|b name]; simpl in *.
  - destruct l as [|z l]; simplify_eq/=. done.
  - apply Forall_cons in Hn as [Hb Hn]. rewrite (proj2 (Z.eqb_neq _ _)) by done.
    f_equal. apply IH; [done|done|lia].
Qed.

(** A frame that holds [name] and then a NUL. *)
Lemma find_nul_read frame name :
  read 0 (length name) frame = Some name → read (length name) 1 frame = Some [0] →
  Forall (λ b, b ≠ 0) name → (length name < kDevNameBytes)%nat →
  find_nul kDevNameBytes frame = length name.
Proof.
  intros H1 H2 Hn Hlen. rewrite <- (take_drop (length name) frame).
  assert (Ht : take (length name) frame = name).
  { unfold read in H1. case_match; [|done]. rewrite drop_0 in H1. by injection H1. }
  rewrite Ht. apply find_nul_spec; [done| |done].
  unfold read in H2. case_match; [|done]. destruct (drop (length name) frame) as [|z l]; [done|].
  simpl in *. rewrite take_0 in H2. by simplify_eq.
Qed.

Lemma read_memset n buf buf' off k :
  memset0 n buf = Some buf' → (off + k <= n)%nat → read off k buf' = Some (replicate k 0).
Proof.
  unfold memset0, write, read. rewrite length_replicate.
  destruct (Nat.leb_spec (0 + n) (length buf)) as [H|]; [|done]. intros [= <-] Hk.
  rewrite (proj2 (Nat.leb_le _ _)).
  2:{ rewrite !length_app, length_replicate, length_drop. simpl. lia. }
  simpl. rewrite drop_app_le by (rewrite length_replicate; lia).
  rewrite drop_replicate, take_app_le by (rewrite length_replicate; lia).
  rewrite take_replicate. do 2 f_equal. lia.
Qed.

Lemma memset_ok n buf : (n <= length buf)%nat → ∃ buf', memset0 n buf = Some buf' ∧ length buf' = length buf.
Proof. intros H. apply write_ok. rewrite length_replicate. lia. Qed.

(** The name part of an encoded frame. *)
Lemma name_part dev out out1 out2 :
  (length dev < kDevNameBytes)%nat →
  memset0 kDevNameBytes out = Some out1 → write 0 dev out1 = Some out2 →
  read 0 (length dev) out2 = Some dev ∧
  ∀ off k, (length dev <= off)%nat → (off + k <= kDevNameBytes)%nat → read off k out2 = Some (replicate k 0).
Proof.
  intros Hd Hm Hw. split; [by apply (read_write_eq _ _ _ _ _ Hw)|].
  intros off k H1 H2. rewrite (read_write_ne _ _ _ _ _ _ Hw) by lia. by eapply read_memset.
Qed.

(** The bootstrap frame round trip.  A device name without NUL bytes that
    leaves room for the trailer is announced whole, and the peer reads back
    the very capability word that was declared (zero when none is declared or
    another protocol version is used).  A longer name loses the trailer as a
    whole: the peer then reads no capabilities at all instead of a part of
    them. *)
Theorem dev_frame_round_trip dev caps version out :
  (kDevNameBytes <= length out)%nat → Forall (λ b, 0 < b < 256) dev → is_u64 caps →
  (length dev < kDevNameBytes)%nat →
  ∃ frame, EncodeDevFrame dev caps out version = Some frame ∧ length frame = length out ∧
    find_nul kDevNameBytes frame = length dev ∧ take (length dev) frame = dev ∧
    ParseDevFrameCaps frame =
      Some (if DeviceNameFitsFrame dev && (version =? kDevProtoV2) then caps else 0).
Proof.
  intros Hout Hdev Hcaps Hlen. unfold EncodeDevFrame, DeviceNameFitsFrame.
  destruct (memset_ok _ _ Hout) as (out1 & Hm & L1). rewrite Hm. cbn [mbind option_bind].
  rewrite Nat.min_l by lia. rewrite take_ge by lia. do_write. unfold kDevNameBytes in *.
  destruct (name_part dev out out1 buf Hlen Hm W) as [Hname Hrest]. clear W. unfold kDevNameBytes in Hrest.
  assert (Hnz : Forall (λ b, b ≠ 0) dev) by (eapply Forall_impl; [done|]; simpl; lia).
  assert (Hfin : ∀ frame, read 0 (length dev) frame = Some dev → read (length dev) 1 frame = Some [0] →
    find_nul 32 frame = length dev ∧ take (length dev) frame = dev).
  { intros frame H1 H2. split; [by apply find_nul_read|]. unfold read in H1. case_match; [|done].
    rewrite drop_0 in H1. by injection H1. }
  assert (Hnone : ∀ frame, read 0 (length dev) frame = Some dev →
    (∀ off k, (length dev <= off)%nat → (off + k <= 32)%nat → read off k frame = Some (replicate k 0)) →
    ParseDevFrameCaps frame = Some 0).
  { intros frame H1 H2. destruct (Hfin frame H1) as [Hnul _]; [by apply H2; lia|].
    unfold ParseDevFrameCaps, kDevNameBytes. rewrite Hnul.
    destruct (Nat.ltb_spec 32 (length dev + 1 + 4 + 8 + 1)) as [|Hfit]; [done|].
    unfold GetU32, Get8. rewrite !H2 by lia. cbn [mbind option_bind].
    replace (host_value e (replicate 4 0)) with 0 by (by destruct e). done. }
  destruct (negb (version =? kDevProtoV2) || (caps =? 0) || (kMaxDeviceNameBytes <? length dev)%nat) eqn:Eg.
  - exists buf. split; [done|]. split; [lia|]. destruct (Hfin buf Hname) as [-> ->]; [by apply Hrest; lia|].
    split_and!; [done|done|]. rewrite Hnone by done. f_equal.
    destruct (Nat.leb_spec (length dev) kMaxDeviceNameBytes) as [Hle|]; [|done].
    rewrite (proj2 (Nat.ltb_ge _ _)), orb_false_r in Eg by done. cbn [andb].
    destruct (version =? kDevProtoV2); [|done]. simpl in Eg. by apply Z.eqb_eq in Eg.
  - apply orb_false_iff in Eg as [[Ev%negb_false_iff Ec]%orb_false_iff El%Nat.ltb_ge].
    unfold kMaxDeviceNameBytes, kDevNameBytes, kDevFrameCapsTrailerBytes in El |- *. simpl in El.
    unfold PutU32, PutU64, Put8. do 3 do_write. exists buf2. split; [done|]. split; [lia|].
    destruct (Hfin buf2) as [Hnul Htake]; [by find_field|find_field; by apply Hrest; lia|].
    rewrite Hnul, Htake. split_and!; [done|done|]. unfold ParseDevFrameCaps, kDevNameBytes. rewrite Hnul.
    rewrite (proj2 (Nat.ltb_ge _ _)) by lia. get_fields. rewrite byte_value by done.
    rewrite !Z.eqb_refl. cbn [negb orb]. rewrite Ev, (proj2 (Nat.leb_le _ _)) by (simpl; lia). done.
Qed.

(** ** The capability word *)

(** The word a client declares: request bits over a block size. *)
Definition caps_word (retire pull leased dynamic only : bool) (max_block : Z) : Z :=
  let bit (b : bool) (m : Z) := if b then m else 0 in
  Z.lor (Z.lor (Z.lor (Z.lor (Z.lor (bit retire kDevFrameRequestWriterRetirement)
    (bit pull kDevFrameRequestPullRead)) (bit leased kDevFrameRequestLeasedPut))
    (bit dynamic kDevFrameRequestDynamicPull)) (bit only kDevFrameRequestDynamicOnly)) max_block.

Lemma land_high_bit x n : 0 <= x < 2 ^ 59 → 59 <= n → Z.land x (Z.shiftl 1 n) = 0.
Proof.
  intros Hx Hn. apply Z.bits_inj'. intros i Hi. rewrite Z.land_spec, Z.bits_0.
  destruct (decide (i < 59)).
  - rewrite Z.shiftl_spec, (Z.testbit_neg_r _ (i - n)) by lia. apply andb_false_r.
  - destruct (decide (x = 0)) as [->|]; [by rewrite Z.bits_0|].
    rewrite (Z.bits_above_log2 x); [done|lia|]. assert (Z.log2 x < 59) by (apply Z.log2_lt_pow2; lia). lia.
Qed.

(** The request bits and the block size share the capability word without
    interfering: for every block size below 2^59 and every choice of bits, the
    masked size is the declared size and each bit reads back as it was set. *)
Theorem caps_independent frame retire pull leased dynamic only max_block :
  0 <= max_block < 2 ^ 59 →
  ParseDevFrameCaps frame = Some (caps_word retire pull leased dynamic only max_block) →
  ParseDevFrameMaxBlock frame = Some max_block ∧
  DevFrameRequestsWriterRetirement frame = Some retire ∧ DevFrameRequestsPullRead frame = Some pull ∧
  DevFrameRequestsLeasedPut frame = Some leased ∧ DevFrameRequestsDynamicPull frame = Some dynamic ∧
  DevFrameRequestsDynamicOnly frame = Some only.
Proof.
  intros Hm Hc. unfold ParseDevFrameMaxBlock, DevFrameRequestsWriterRetirement, DevFrameRequestsPullRead,
    DevFrameRequestsLeasedPut, DevFrameRequestsDynamicPull, DevFrameRequestsDynamicOnly, requests.
  rewrite Hc. cbn [mbind option_bind]. unfold caps_word. rewrite !(Z.land_lor_distr_l _ max_block).
  unfold kDevFrameRequestWriterRetirement, kDevFrameRequestPullRead, kDevFrameRequestLeasedPut,
    kDevFrameRequestDynamicPull, kDevFrameRequestDynamicOnly.
  rewrite !(land_high_bit max_block) by lia.
  replace (Z.land max_block kDevFrameMaxBlockMask) with max_block.
  2:{ change kDevFrameMaxBlockMask with (Z.ones 59). rewrite Z.land_ones, Z.mod_small by lia. done. }
  by destruct retire, pull, leased, dynamic, only.
Qed.

End frame.

Definition mlx5_0 : list Z := [109; 108; 120; 53; 95; 48].

Lemma dev_frame_round_trip_witness :
  ∃ frame, EncodeDevFrame Little mlx5_0 4194304 (replicate 32 7) 2 = Some frame ∧
    ParseDevFrameCaps Little frame = Some 4194304.
Proof.
  destruct (dev_frame_round_trip Little mlx5_0 4194304 2 (replicate 32 7)) as (frame & E & _ & _ & _ & P);
    [by rewrite length_replicate|repeat constructor; lia|done|by vm_compute; lia|].
  exists frame. exact (conj E P).
Defined.

Lemma caps_independent_witness :
  let frame := default [] (EncodeDevFrame Little mlx5_0 (caps_word true false true false true 4194304)
    (replicate 32 0) 2) in
  ParseDevFrameMaxBlock Little frame = Some 4194304 ∧ DevFrameRequestsLeasedPut Little frame = Some true.
Proof.
  intros frame.
  destruct (caps_independent Little frame true false true false true 4194304) as (H1 & _ & _ & H2 & _);
    [lia|by vm_compute|]. exact (conj H1 H2).
Defined.
