(* ===== verification/RdmaProtocol.v ===== *)
(** * RDMA v2 descriptors and geometry

    The verbs-free codecs and the slot geometry of
    src/transport/rdma_protocol.h.  The decoders write their out-parameter as
    the source does: field by field before the final test where the source
    assigns first, as a whole where it assigns last. *)

From S2P Require Import Prelude KvTypes Codec Wire DevFrame.

(** [size_t] is 64 bits wide. *)
Definition SIZE_MAX : Z := UINT64_MAX.

Definition kV2ControlResponseMax : Z := Z.shiftl 32 10.
Definition kV2ControlCap : Z := Z.of_nat kRespPrefix + kV2ControlResponseMax.
Definition kV2DataOffset : Z := 4096.
Definition kV2PutPrefixOffset : Z := kV2DataOffset - Z.of_nat kReqPrefix.

(** ** Probe *)

(** "__dfkv_v2__" and "__dfkv_retire__". *)
Definition kV2ProbeDevice : list Z := [95; 95; 100; 102; 107; 118; 95; 118; 50; 95; 95].
Definition kV2RetireWriterDevice : list Z :=
  [95; 95; 100; 102; 107; 118; 95; 114; 101; 116; 105; 114; 101; 95; 95].
Definition kV2ProbeMagic : Z := 0x33564644.
Definition kV2ProbeReplyBytes : nat := 8.
Definition kV2ProbeCapWriterRetirement : Z := 1.
Definition kV2ProbeCapPullRead : Z := 2.
Definition kV2ProbeCapLeasedPut : Z := 4.
Definition kV2ProbeCapDynamicPull : Z := 8.
Definition kV2ProbeCapDynamicOnly : Z := 16.
Definition kV2RetireProofMagic : Z := 0x32524657564b4644.

Section protocol.
Context (e : Endian).

Definition IsV2Probe (frame : list Z) : option bool :=
  let n := find_nul kDevNameBytes frame in
  if bool_decide (take n frame = kV2ProbeDevice)
  then proto ← ParseDevFrameProtocol e frame; Some (proto =? kDevProtoV2)
  else Some false.

Definition EncodeV2ProbeReply (out : list Z) (capabilities : Z) : option (list Z) :=
  out ← memset0 kV2ProbeReplyBytes out;
  out ← PutU32 e 0 kV2ProbeMagic out;
  out ← Put8 4 kDevProtoV2 out;
  Put8 5 capabilities out.

Definition ParseV2ProbeReply (p : list Z) : option bool :=
  magic ← GetU32 e 0 p;
  if negb (magic =? kV2ProbeMagic) then Some false
  else proto ← Get8 4 p; Some (proto =? kDevProtoV2).

Definition ParseV2ProbeCapabilities (p : list Z) : option Z :=
  ok ← ParseV2ProbeReply p; if (ok : bool) then Get8 5 p else Some 0.

Definition probe_supports (cap : Z) (p : list Z) : option bool :=
  caps ← ParseV2ProbeCapabilities p; Some (negb (Z.land caps cap =? 0)).

Definition V2ProbeSupportsWriterRetirement := probe_supports kV2ProbeCapWriterRetirement.
Definition V2ProbeSupportsPullRead := probe_supports kV2ProbeCapPullRead.
Definition V2ProbeSupportsLeasedPut := probe_supports kV2ProbeCapLeasedPut.
Definition V2ProbeSupportsDynamicPull := probe_supports kV2ProbeCapDynamicPull.
Definition V2ProbeSupportsDynamicOnly := probe_supports kV2ProbeCapDynamicOnly.

(** ** Writer retirement *)

Definition IsV2RetireWriter (frame : list Z) : option bool :=
  let n := find_nul kDevNameBytes frame in
  if bool_decide (take n frame = kV2RetireWriterDevice) then
    proto ← ParseDevFrameProtocol e frame;
    if proto =? kDevProtoV2 then caps ← ParseDevFrameCaps e frame; Some (negb (caps =? 0))
    else Some false
  else Some false.

Definition EncodeV2RetireProof (token : Z) (out : list Z) : option (list Z) :=
  out ← PutU64 e 0 kV2RetireProofMagic out; PutU64 e 8 token out.

Definition ParseV2RetireProof (p : list Z) (token : Z) : option bool :=
  magic ← GetU64 e 0 p;
  if negb (magic =? kV2RetireProofMagic) then Some false
  else t ← GetU64 e 8 p; Some (t =? token).

(** ** Slot geometry *)

(** [(value + alignment - 1) & ~(alignment - 1)] on [size_t]. *)
Definition AlignUp (value alignment : Z) : Z :=
  if (alignment =? 0) || negb (Z.land alignment (alignment - 1) =? 0)
     || (SIZE_MAX - (alignment - 1) <? value)
  then 0
  else Z.land (value + alignment - 1) (Z.lxor SIZE_MAX (alignment - 1)).

Definition V2SlotSize (max_block_bytes : Z) : Z :=
  if SIZE_MAX - kV2DataOffset <? max_block_bytes then 0
  else AlignUp (kV2DataOffset + max_block_bytes) kV2DataOffset.

Definition V2RecvSegmentFitsOneSlot (segment_bytes max_block_bytes : Z) : bool :=
  let slot_size := V2SlotSize max_block_bytes in
  negb (slot_size =? 0) && (slot_size <=? segment_bytes).

Definition V2PutCompletionCoversFrame (completion_bytes payload_len slot_size : Z) : bool :=
  if slot_size <? kV2PutPrefixOffset + Z.of_nat kReqPrefix then false
  else
    let frame_cap := slot_size - kV2PutPrefixOffset in
    if frame_cap - Z.of_nat kReqPrefix <? payload_len then false
    else completion_bytes =? Z.of_nat kReqPrefix + payload_len.

Definition V2PutCompletionIsValid (is_rdma_write_with_imm has_immediate : bool)
    (completion_bytes payload_len logical_payload_cap slot_size : Z) : bool :=
  is_rdma_write_with_imm && has_immediate && (payload_len <=? logical_payload_cap)
  && V2PutCompletionCoversFrame completion_bytes payload_len slot_size.

(** ** Receive segment descriptor *)

Record RecvSegmentInfo := mkRecvSegmentInfo { si_base_addr : Z; si_rkey : Z; si_slot_size : Z }.

Definition kRecvSegmentInfoMagic : Z := 0x32475352.
Definition kRecvSegmentInfoBytes : nat := 24.

(** [std::memset(out + off, 0, n)]. *)
Definition memset_at (off n : nat) (buf : list Z) : option (list Z) := write off (replicate n 0) buf.

Definition EncodeRecvSegmentInfo (info : RecvSegmentInfo) (off : nat) (out : list Z) :
    option (list Z) :=
  out ← memset_at off kRecvSegmentInfoBytes out;
  out ← PutU32 e off kRecvSegmentInfoMagic out;
  out ← PutU32 e (off + 4) (si_rkey info) out;
  out ← PutU64 e (off + 8) (si_base_addr info) out;
  PutU64 e (off + 16) (si_slot_size info) out.

(** The final test of the decoder. *)
Definition segment_info_valid (info : RecvSegmentInfo) : bool :=
  negb (si_rkey info =? 0) && negb (si_base_addr info =? 0)
  && (kV2DataOffset <=? si_slot_size info) && (si_slot_size info mod kV2DataOffset =? 0)
  && (si_base_addr info <=? UINT64_MAX - (si_slot_size info - 1)).

Definition DecodeRecvSegmentInfo (off : nat) (p : list Z) (info : RecvSegmentInfo) :
    option (bool * RecvSegmentInfo) :=
  magic ← GetU32 e off p;
  if negb (magic =? kRecvSegmentInfoMagic) then Some (false, info)
  else
    rkey ← GetU32 e (off + 4) p;
    base ← GetU64 e (off + 8) p;
    slot ← GetU64 e (off + 16) p;
    let info := mkRecvSegmentInfo base rkey slot in
    Some (segment_info_valid info, info).

(** ** Pull descriptors *)

Record PullPrepareControl := mkPullPrepareControl { pc_slot_index : Z; pc_release_generation : Z }.

Definition kPullPrepareMagic : Z := 0x32525050.
Definition kPullPrepareBytes : nat := 16.

Definition EncodePullPrepareControl (control : PullPrepareControl) (out : list Z) :
    option (list Z) :=
  out ← memset0 kPullPrepareBytes out;
  out ← PutU32 e 0 kPullPrepareMagic out;
  out ← PutU32 e 4 (pc_slot_index control) out;
  PutU64 e 8 (pc_release_generation control) out.

Definition DecodePullPrepareControl (p : list Z) (control : PullPrepareControl) :
    option (bool * PullPrepareControl) :=
  magic ← GetU32 e 0 p;
  if negb (magic =? kPullPrepareMagic) then Some (false, control)
  else
    slot ← GetU32 e 4 p;
    generation ← GetU64 e 8 p;
    Some (true, mkPullPrepareControl slot generation).

Record DynamicPullReady := mkDynamicPullReady {
  dp_slot_index : Z; dp_slot_generation : Z; dp_data_len : Z; dp_value_len : Z; dp_address : Z;
  dp_rkey : Z;
}.

Definition kDynamicPullReadyMagic : Z := 0x32525044.
Definition kDynamicPullReadyBytes : nat := 48.

Definition EncodeDynamicPullReady (value : DynamicPullReady) (out : list Z) : option (list Z) :=
  out ← memset0 kDynamicPullReadyBytes out;
  out ← PutU32 e 0 kDynamicPullReadyMagic out;
  out ← PutU32 e 4 (dp_slot_index value) out;
  out ← PutU64 e 8 (dp_slot_generation value) out;
  out ← PutU64 e 16 (dp_data_len value) out;
  out ← PutU64 e 24 (dp_value_len value) out;
  out ← PutU64 e 32 (dp_address value) out;
  PutU32 e 40 (dp_rkey value) out.

Definition dynamic_pull_valid (v : DynamicPullReady) : bool :=
  negb ((dp_slot_generation v =? 0) || (dp_address v =? 0) || (dp_rkey v =? 0)
        || (dp_value_len v <? dp_data_len v)
        || (UINT64_MAX - dp_address v <? dp_data_len v)).

Definition DecodeDynamicPullReady (p : list Z) (value : DynamicPullReady) :
    option (bool * DynamicPullReady) :=
  magic ← GetU32 e 0 p;
  if negb (magic =? kDynamicPullReadyMagic) then Some (false, value)
  else
    pad ← GetU32 e 44 p;
    if negb (pad =? 0) then Some (false, value)
    else
      slot ← GetU32 e 4 p;
      generation ← GetU64 e 8 p;
      data_len ← GetU64 e 16 p;
      value_len ← GetU64 e 24 p;
      address ← GetU64 e 32 p;
      rkey ← GetU32 e 40 p;
      let parsed := mkDynamicPullReady slot generation data_len value_len address rkey in
      Some (if dynamic_pull_valid parsed then (true, parsed) else (false, value)).

(** ** Staging lease descriptor *)

Record LeasePutReady := mkLeasePutReady {
  lp_slot : Z; lp_generation : Z; lp_rkey : Z; lp_write_base : Z; lp_lease_bytes : Z;
}.

Definition kLeasePutReadyMagic : Z := 0x3252534c.
Definition kLeasePutReadyBytes : nat := 40.

Definition EncodeLeasePutReady (ready : LeasePutReady) (out : list Z) : option (list Z) :=
  out ← memset0 kLeasePutReadyBytes out;
  out ← PutU32 e 0 kLeasePutReadyMagic out;
  out ← PutU32 e 4 (lp_rkey ready) out;
  out ← PutU32 e 8 (lp_slot ready) out;
  out ← PutU32 e 12 0 out;
  out ← PutU64 e 16 (lp_write_base ready) out;
  out ← PutU64 e 24 (lp_lease_bytes ready) out;
  PutU64 e 32 (lp_generation ready) out.

Definition lease_geometry_valid (rkey write_base lease_bytes : Z) : bool :=
  negb ((rkey =? 0) || (write_base =? 0) || (lease_bytes <? 2 * kV2DataOffset)
        || negb (lease_bytes mod kV2DataOffset =? 0)
        || (UINT64_MAX - (lease_bytes - 1) <? write_base)).

Definition DecodeLeasePutReady (p : list Z) (ready : LeasePutReady) :
    option (bool * LeasePutReady) :=
  magic ← GetU32 e 0 p;
  if negb (magic =? kLeasePutReadyMagic) then Some (false, ready)
  else
    rkey ← GetU32 e 4 p;
    write_base ← GetU64 e 16 p;
    lease_bytes ← GetU64 e 24 p;
    if negb (lease_geometry_valid rkey write_base lease_bytes) then Some (false, ready)
    else
      slot ← GetU32 e 8 p;
      generation ← GetU64 e 32 p;
      Some (negb (generation =? 0), mkLeasePutReady slot generation rkey write_base lease_bytes).

(** ** Readiness *)

Definition kV2DynamicOnlyReadinessBytes : nat := 25.
Definition kV2RetirementReadinessBytes : nat := 33.

Definition EncodeV2DynamicOnlyReadiness (info : RecvSegmentInfo) (out : list Z) :
    option (nat * list Z) :=
  out ← Put8 0 1 out;
  out ← EncodeRecvSegmentInfo info 1 out;
  Some (kV2DynamicOnlyReadinessBytes, out).

Definition DecodeV2DynamicOnlyReadiness (p : list Z) (bytes : nat) (info : RecvSegmentInfo) :
    option (bool * RecvSegmentInfo) :=
  if negb (bytes =? kV2DynamicOnlyReadinessBytes)%nat then Some (false, info)
  else
    b ← Get8 0 p;
    if negb (b =? 1) then Some (false, info) else DecodeRecvSegmentInfo 1 p info.

Definition EncodeV2Readiness (info : RecvSegmentInfo) (writer_token : Z) (out : list Z) :
    option (nat * list Z) :=
  out ← memset0 kV2RetirementReadinessBytes out;
  out ← Put8 0 1 out;
  out ← EncodeRecvSegmentInfo info 1 out;
  if writer_token =? 0 then Some (0%nat, out)
  else
    out ← PutU64 e kV2DynamicOnlyReadinessBytes writer_token out;
    Some (kV2RetirementReadinessBytes, out).

Definition DecodeV2Readiness (p : list Z) (bytes : nat) (info : RecvSegmentInfo)
    (writer_token : Z) : option (bool * RecvSegmentInfo * Z) :=
  if negb (bytes =? kV2RetirementReadinessBytes)%nat then Some (false, info, writer_token)
  else
    b ← Get8 0 p;
    if negb (b =? 1) then Some (false, info, writer_token)
    else
      '(ok, info) ← DecodeRecvSegmentInfo 1 p info;
      if negb ok then Some (false, info, writer_token)
      else
        token ← GetU64 e kV2DynamicOnlyReadinessBytes p;
        Some (negb (token =? 0), info, token).

(** ** Geometry lemmas *)

Lemma align_4096 x : 0 <= x <= SIZE_MAX - 4095 → AlignUp x 4096 = (x + 4095) / 4096 * 4096.
Proof.
  intros Hx. unfold AlignUp. change (Z.land 4096 (4096 - 1)) with 0. cbn [Z.eqb orb negb].
  rewrite (proj2 (Z.ltb_ge _ _)) by (simpl; lia).
  replace (x + 4096 - 1) with (x + 4095) by lia.
  set (y := x + 4095). unfold SIZE_MAX, UINT64_MAX in *.
  assert (Hy : 0 <= y < 2 ^ 64) by lia. change (4096 - 1) with (Z.ones 12). change (2 ^ 64 - 1) with (Z.ones 64).
  change 4096 with (2 ^ 12). rewrite <- (Z.shiftr_div_pow2 y 12), <- Z.shiftl_mul_pow2 by lia.
  apply Z.bits_inj'. intros n Hn. rewrite Z.land_spec, Z.lxor_spec, Z.shiftl_spec by lia.
  destruct (Z.lt_ge_cases n 12).
  - rewrite !Z.ones_spec_low, (Z.testbit_neg_r _ (n - 12)) by lia. apply andb_false_r.
  - rewrite Z.shiftr_spec by lia. replace (n - 12 + 12) with n by lia.
    rewrite (Z.ones_spec_high 12) by lia. rewrite xorb_false_r. destruct (Z.lt_ge_cases n 64).
    + rewrite Z.ones_spec_low by lia. apply andb_true_r.
    + rewrite (Z.bits_above_log2 y); [done|lia|]. destruct (decide (y = 0)) as [->|]; [simpl; lia|].
      assert (Z.log2 y < 64) by (apply Z.log2_lt_pow2; lia). lia.
Qed.

(** The receive slot for a block size is page aligned and holds the data
    page plus the block, with less than one page to spare; sizes whose slot
    would not fit the address space get 0, never a wrapped size. *)
Theorem slot_size_spec max_block :
  is_u64 max_block →
  let s := V2SlotSize max_block in
  (s ≠ 0 → s mod 4096 = 0 ∧ 4096 + max_block <= s < 4096 + max_block + 4096 ∧ s <= SIZE_MAX) ∧
  (s = 0 ↔ SIZE_MAX < max_block + 4096 + 4095).
Proof.
  intros Hm s. unfold s, V2SlotSize, kV2DataOffset. clear s. unfold is_u64 in Hm.
  destruct (Z.ltb_spec (SIZE_MAX - 4096) max_block) as [Hb|Hb]; [split; [done|]; split; [lia|done]|].
  destruct (Z.le_gt_cases (4096 + max_block) (SIZE_MAX - 4095)) as [Hle|Hgt].
  - rewrite align_4096 by lia. pose proof (Z.div_mod (4096 + max_block + 4095) 4096 ltac:(lia)).
    pose proof (Z.mod_pos_bound (4096 + max_block + 4095) 4096 ltac:(lia)).
    split; [intros _; split; [by apply Z.mod_mul|lia]|]. lia.
  - assert (AlignUp (4096 + max_block) 4096 = 0) as ->; [|split; [done|lia]].
    unfold AlignUp. rewrite (proj2 (Z.ltb_lt (SIZE_MAX - (4096 - 1)) _)) by lia. by rewrite orb_true_r.
Qed.

(** A completion that is accepted for a PUT covers exactly the frame: the
    prefix and the payload end inside the slot, and the payload is within the
    connection's logical limit. *)
Theorem put_completion_covers is_write has_imm bytes payload cap slot :
  0 <= payload →
  V2PutCompletionIsValid is_write has_imm bytes payload cap slot = true ↔
  is_write = true ∧ has_imm = true ∧ payload <= cap ∧ bytes = Z.of_nat kReqPrefix + payload ∧
  kV2PutPrefixOffset + bytes <= slot.
Proof.
  intros Hp. unfold V2PutCompletionIsValid, V2PutCompletionCoversFrame, kV2PutPrefixOffset, kV2DataOffset.
  change (Z.of_nat kReqPrefix) with 50. rewrite !andb_true_iff, Z.leb_le.
  destruct (Z.ltb_spec slot (4096 - 50 + 50)); [split; [naive_solver|lia]|].
  destruct (Z.ltb_spec (slot - (4096 - 50) - 50) payload); [split; [naive_solver|lia]|].
  rewrite Z.eqb_eq. naive_solver lia.
Qed.

(** ** Round trips *)

Definition segment_info_ok (i : RecvSegmentInfo) : Prop :=
  is_u64 (si_base_addr i) ∧ is_u32 (si_rkey i) ∧ is_u64 (si_slot_size i).

Lemma segment_info_round_trip info info0 off out :
  (off + kRecvSegmentInfoBytes <= length out)%nat → segment_info_ok info →
  ∃ p, EncodeRecvSegmentInfo info off out = Some p ∧ length p = length out ∧
    DecodeRecvSegmentInfo off p info0 = Some (segment_info_valid info, info) ∧
    (∀ o n, (o + n <= off)%nat → read o n p = read o n out) ∧
    (∀ o n, (off + kRecvSegmentInfoBytes <= o)%nat → read o n p = read o n out).
Proof.
  intros Hout (H1 & H2 & H3). unfold kRecvSegmentInfoBytes in *.
  unfold EncodeRecvSegmentInfo, kRecvSegmentInfoBytes, memset_at, PutU32, PutU64. do 5 do_write.
  eexists. split; [done|]. split; [lia|]. split; [|split; intros o n Ho; by find_field].
  unfold DecodeRecvSegmentInfo. get_fields. rewrite Z.eqb_refl. cbn [negb]. by destruct info.
Qed.

Lemma pull_prepare_round_trip c c0 out :
  (kPullPrepareBytes <= length out)%nat → is_u32 (pc_slot_index c) → is_u64 (pc_release_generation c) →
  ∃ p, EncodePullPrepareControl c out = Some p ∧ DecodePullPrepareControl p c0 = Some (true, c).
Proof.
  intros Hout H1 H2. unfold kPullPrepareBytes in *.
  unfold EncodePullPrepareControl, kPullPrepareBytes, memset0, PutU32, PutU64. do 4 do_write.
  eexists. split; [done|]. unfold DecodePullPrepareControl. get_fields. rewrite Z.eqb_refl. cbn [negb].
  by destruct c.
Qed.

Definition dynamic_pull_ok (v : DynamicPullReady) : Prop :=
  is_u32 (dp_slot_index v) ∧ is_u64 (dp_slot_generation v) ∧ is_u64 (dp_data_len v) ∧
  is_u64 (dp_value_len v) ∧ is_u64 (dp_address v) ∧ is_u32 (dp_rkey v).

Lemma dynamic_pull_round_trip v v0 out :
  (kDynamicPullReadyBytes <= length out)%nat → dynamic_pull_ok v →
  ∃ p, EncodeDynamicPullReady v out = Some p ∧
    DecodeDynamicPullReady p v0 = Some (if dynamic_pull_valid v then (true, v) else (false, v0)).
Proof.
  intros Hout (H1 & H2 & H3 & H4 & H5 & H6). unfold kDynamicPullReadyBytes in *.
  unfold EncodeDynamicPullReady, kDynamicPullReadyBytes.
  destruct (memset_ok 48 out Hout) as (b0 & Hm & L0). rewrite Hm. cbn [mbind option_bind].
  pose proof (read_memset _ _ _ 44 4 Hm ltac:(lia)) as Hpad. unfold PutU32, PutU64. do 7 do_write.
  eexists. split; [done|]. unfold DecodeDynamicPullReady.
  get_fields. rewrite Hpad. cbn [mbind option_bind]. rewrite Z.eqb_refl. cbn [negb].
  replace (host_value e (replicate 4 0)) with 0 by (by destruct e). cbn [Z.eqb negb].
  by destruct v.
Qed.

Definition lease_put_ok (r : LeasePutReady) : Prop :=
  is_u32 (lp_slot r) ∧ is_u64 (lp_generation r) ∧ is_u32 (lp_rkey r) ∧ is_u64 (lp_write_base r) ∧
  is_u64 (lp_lease_bytes r).

Lemma lease_put_round_trip r r0 out :
  (kLeasePutReadyBytes <= length out)%nat → lease_put_ok r →
  ∃ p, EncodeLeasePutReady r out = Some p ∧
    DecodeLeasePutReady p r0 =
      Some (if lease_geometry_valid (lp_rkey r) (lp_write_base r) (lp_lease_bytes r)
            then (negb (lp_generation r =? 0), r) else (false, r0)).
Proof.
  intros Hout (H1 & H2 & H3 & H4 & H5). unfold kLeasePutReadyBytes in *.
  unfold EncodeLeasePutReady, kLeasePutReadyBytes, memset0, PutU32, PutU64. do 8 do_write.
  eexists. split; [done|]. unfold DecodeLeasePutReady. get_fields. rewrite Z.eqb_refl. cbn [negb].
  destruct (lease_geometry_valid _ _ _); cbn [negb]; [|done]. by destruct r.
Qed.

(** C32. Descriptor round trips.  Each of the four descriptors of the v2
    handshake, written into a large enough buffer, is decoded to the same
    values by a peer of the same byte order; the decoder accepts it exactly
    when its geometry is valid. *)
Theorem descriptor_round_trips info control pull lease info0 control0 pull0 lease0 out :
  (kDynamicPullReadyBytes <= length out)%nat → segment_info_ok info →
  is_u32 (pc_slot_index control) → is_u64 (pc_release_generation control) →
  dynamic_pull_ok pull → lease_put_ok lease →
  (∃ p, EncodeRecvSegmentInfo info 0 out = Some p ∧
     DecodeRecvSegmentInfo 0 p info0 = Some (segment_info_valid info, info)) ∧
  (∃ p, EncodePullPrepareControl control out = Some p ∧
     DecodePullPrepareControl p control0 = Some (true, control)) ∧
  (∃ p, EncodeDynamicPullReady pull out = Some p ∧
     DecodeDynamicPullReady p pull0 = Some (if dynamic_pull_valid pull then (true, pull) else (false, pull0))) ∧
  (∃ p, EncodeLeasePutReady lease out = Some p ∧
     DecodeLeasePutReady p lease0 =
       Some (if lease_geometry_valid (lp_rkey lease) (lp_write_base lease) (lp_lease_bytes lease)
             then (negb (lp_generation lease =? 0), lease) else (false, lease0))).
Proof.
  unfold kDynamicPullReadyBytes. intros Hout H1 H2 H3 H4 H5. split_and!.
  - destruct (segment_info_round_trip info info0 0 out) as (p & ? & _ & ? & _);
      [unfold kRecvSegmentInfoBytes; lia|done|by exists p].
  - apply pull_prepare_round_trip; [unfold kPullPrepareBytes; lia|done|done].
  - by apply dynamic_pull_round_trip.
  - apply lease_put_round_trip; [unfold kLeasePutReadyBytes; lia|done].
Qed.

(** Readiness round trip: the receive descriptor and, in the transitional
    form, a nonzero writer token survive the trip; a zero token is not
    encodable, and neither form is ever taken for the other. *)
Theorem readiness_round_trip info info0 token token0 out :
  (kV2RetirementReadinessBytes <= length out)%nat → segment_info_ok info → is_u64 token →
  (∃ p, EncodeV2DynamicOnlyReadiness info out = Some (kV2DynamicOnlyReadinessBytes, p) ∧
     DecodeV2DynamicOnlyReadiness p kV2DynamicOnlyReadinessBytes info0 =
       Some (segment_info_valid info, info) ∧
     DecodeV2Readiness p kV2DynamicOnlyReadinessBytes info0 token0 = Some (false, info0, token0)) ∧
  (∃ n p, EncodeV2Readiness info token out = Some (n, p) ∧
     if token =? 0 then n = 0%nat
     else n = kV2RetirementReadinessBytes ∧
       DecodeV2DynamicOnlyReadiness p n info0 = Some (false, info0) ∧
       DecodeV2Readiness p n info0 token0 =
         Some (segment_info_valid info, info, if segment_info_valid info then token else token0)).
Proof.
  unfold kV2RetirementReadinessBytes. intros Hout Hi Ht. split.
  - unfold EncodeV2DynamicOnlyReadiness, Put8. do_write.
    destruct (segment_info_round_trip info info0 1 buf) as (p & -> & Lp & Hd & Hlow & _);
      [unfold kRecvSegmentInfoBytes; lia|done|]. exists p. split_and!; [done| |done].
    unfold DecodeV2DynamicOnlyReadiness, kV2DynamicOnlyReadinessBytes. cbn [Nat.eqb negb].
    unfold Get8. rewrite Hlow by lia. find_field. cbn [mbind option_bind]. by rewrite Hd.
  - unfold EncodeV2Readiness, kV2RetirementReadinessBytes, memset0, Put8. do 2 do_write.
    destruct (segment_info_round_trip info info0 1 buf0) as (p & -> & Lp & Hd & Hlow & _);
      [unfold kRecvSegmentInfoBytes; lia|done|]. cbn [mbind option_bind].
    destruct (Z.eqb_spec token 0) as [|Hne]; [by exists 0%nat, p|].
    unfold kV2DynamicOnlyReadinessBytes, PutU64. do_write. exists 33%nat, buf1. split_and!; [done|done|done|].
    unfold DecodeV2Readiness, kV2RetirementReadinessBytes, kV2DynamicOnlyReadinessBytes.
    cbn [Nat.eqb negb]. unfold Get8. find_field. rewrite Hlow by lia. find_field. cbn [mbind option_bind].
    replace (DecodeRecvSegmentInfo 1 buf1 info0) with (Some (segment_info_valid info, info)).
    2:{ rewrite <- Hd. unfold DecodeRecvSegmentInfo, GetU32, GetU64. by find_field. }
    cbn. destruct (segment_info_valid info); cbn [negb]; [|done]. get_fields.
    change (u8 1 + 256 * 0 =? 1) with true. cbn [negb]. by rewrite (proj2 (Z.eqb_neq _ _) Hne).
Qed.

(** The next field of a decoder that returned, and the early exits. *)
#[local] Ltac get_step :=
  match goal with
  | |- (?g ≫= _) = _ → _ =>
      let E := fresh "E" in destruct g as [?|] eqn:E; [|done]; cbn [mbind option_bind]
  end; try (match goal with |- (if negb ?b then _ else _) = _ → _ =>
      let V := fresh "V" in destruct b eqn:V; cbn [negb]; [|done] end).

(** The ranges of all 64-bit fields read from [p]. *)
#[local] Ltac field_ranges Hb :=
  repeat match goal with
  | E : GetU64 _ _ _ = Some _ |- _ => apply GetU64_range in E; [|exact Hb]; unfold is_u64 in E
  end.

(** Whatever bytes a peer sends, a decoder that accepts them has read a
    range it may touch: nonzero key and address, page-aligned and large enough
    leases, and no range that wraps around the address space. *)
Theorem accepted_ranges p info0 info pull0 pull lease0 lease :
  Forall byte_ok p →
  (DecodeRecvSegmentInfo 0 p info0 = Some (true, info) →
     si_rkey info ≠ 0 ∧ si_slot_size info mod 4096 = 0 ∧ 4096 <= si_slot_size info ∧
     0 < si_base_addr info ∧ si_base_addr info + si_slot_size info <= 2 ^ 64) ∧
  (DecodeDynamicPullReady p pull0 = Some (true, pull) →
     dp_rkey pull ≠ 0 ∧ dp_slot_generation pull ≠ 0 ∧ 0 <= dp_data_len pull <= dp_value_len pull ∧
     0 < dp_address pull ∧ dp_address pull + dp_data_len pull < 2 ^ 64) ∧
  (DecodeLeasePutReady p lease0 = Some (true, lease) →
     lp_rkey lease ≠ 0 ∧ lp_generation lease ≠ 0 ∧ lp_lease_bytes lease mod 4096 = 0 ∧
     4096 + 1 <= lp_lease_bytes lease ∧ 0 < lp_write_base lease ∧
     lp_write_base lease + lp_lease_bytes lease <= 2 ^ 64).
Proof.
  intros Hb. split_and!.
  - unfold DecodeRecvSegmentInfo. do 4 get_step. intros [= Hv <-].
    field_ranges Hb. unfold segment_info_valid, kV2DataOffset, UINT64_MAX in Hv. cbn in Hv |- *. breflect. lia.
  - unfold DecodeDynamicPullReady. do 8 get_step.
    destruct (dynamic_pull_valid _) eqn:Hv; intros [= <-]. unfold dynamic_pull_valid, UINT64_MAX in Hv.
    field_ranges Hb. cbn in Hv |- *. apply negb_true_iff in Hv. breflect. lia.
  - unfold DecodeLeasePutReady. do 6 get_step. intros [= Hg <-].
    match goal with V : lease_geometry_valid _ _ _ = true |- _ => rename V into Hv end.
    field_ranges Hb. unfold lease_geometry_valid, kV2DataOffset, UINT64_MAX in Hv. cbn in Hg |- *.
    apply negb_true_iff in Hv. breflect. lia.
Qed.

End protocol.

(** ** Examples *)

Lemma slot_size_spec_witness : V2SlotSize 4194305 = 4202496 ∧ 4096 + 4194305 <= V2SlotSize 4194305.
Proof.
  split; [by vm_compute|]. destruct (slot_size_spec 4194305) as [H _]; [done|].
  destruct H as (_ & H & _); [by vm_compute|]. apply H.
Defined.

Lemma put_completion_covers_witness : V2PutCompletionIsValid true true 1050 1000 4096 8192 = true.
Proof.
  apply (put_completion_covers true true 1050 1000 4096 8192); [lia|]. by vm_compute.
Defined.

Definition sample_segment : RecvSegmentInfo := mkRecvSegmentInfo 0x7f0000000000 77 8192.
Definition sample_pull : DynamicPullReady := mkDynamicPullReady 3 1 100 200 0x7f0000000000 77.
Definition sample_lease : LeasePutReady := mkLeasePutReady 2 5 77 0x7f0000000000 16384.

Lemma descriptor_round_trips_witness :
  ∃ p, EncodeLeasePutReady Little sample_lease (replicate 48 0) = Some p ∧
    DecodeLeasePutReady Little p (mkLeasePutReady 0 0 0 0 0) = Some (true, sample_lease).
Proof.
  destruct (descriptor_round_trips Little sample_segment (mkPullPrepareControl 1 2) sample_pull sample_lease
    sample_segment (mkPullPrepareControl 1 2) sample_pull (mkLeasePutReady 0 0 0 0 0) (replicate 48 0))
    as (_ & _ & _ & p & E & D); [by rewrite length_replicate|by repeat split|done|done|by repeat split|
    by repeat split|]. exists p. exact (conj E D).
Defined.

Lemma readiness_round_trip_witness :
  ∃ n p, EncodeV2Readiness Little sample_segment 9 (replicate 33 0) = Some (n, p) ∧
    n = kV2RetirementReadinessBytes.
Proof.
  destruct (readiness_round_trip Little sample_segment sample_segment 9 0 (replicate 33 0))
    as (_ & n & p & E & Hn & _); [by rewrite length_replicate|by repeat split|done|].
  exists n, p. exact (conj E Hn).
Defined.

Definition sample_lease_frame : list Z :=
  default [] (EncodeLeasePutReady Little sample_lease (replicate 40 0)).

Lemma accepted_ranges_witness :
  DecodeLeasePutReady Little sample_lease_frame sample_lease = Some (true, sample_lease) ∧
  lp_write_base sample_lease + lp_lease_bytes sample_lease <= 2 ^ 64.
Proof.
  assert (H : DecodeLeasePutReady Little sample_lease_frame sample_lease = Some (true, sample_lease))
    by (by vm_compute).
  split; [exact H|].
  destruct (accepted_ranges Little sample_lease_frame sample_segment sample_segment sample_pull sample_pull
    sample_lease sample_lease) as (_ & _ & Hl).
  { apply (bool_decide_unpack (Forall (λ b, 0 <= b < 256) sample_lease_frame)). by vm_compute. }
  destruct (Hl H) as (_ & _ & _ & _ & _ & Hr). exact Hr.
Defined.
