(* ===== verification/RecvSegment.v ===== *)
(** * Receive segments of the RDMA server

    [RecvSegment] of src/transport/rdma_recv_segment.{h,cc}: one registered
    memory range and its ordered map of free ranges.  The [std::map] is the
    list of its entries in key order; addresses and sizes are [size_t].  The
    block returned by [posix_memalign] is an argument of [Init]. *)

From S2P Require Import Prelude.

(** ** [std::map<size_t, size_t>] *)

Notation ranges := (list (Z * Z)).

(** [emplace]: inserts unless the key is present. *)
Fixpoint map_emplace (k v : Z) (m : ranges) : ranges :=
  match m with
  | [] => [(k, v)]
  | (k', v') :: m' =>
      if k <? k' then (k, v) :: m
      else if k =? k' then m
      else (k', v') :: map_emplace k v m'
  end.

(** [erase] of the entry with key [k]. *)
Definition map_erase (k : Z) (m : ranges) : ranges := filter (λ p, p.1 ≠ k) m.

(** The entries before [lower_bound(k)] and the ones from it on. *)
Fixpoint map_lower_bound (k : Z) (m : ranges) : ranges * ranges :=
  match m with
  | [] => ([], [])
  | (k', v') :: m' =>
      if k <=? k' then ([], m)
      else let '(before, from) := map_lower_bound k m' in ((k', v') :: before, from)
  end.

(** ** Arithmetic *)

Definition SIZE_MAX : Z := UINT64_MAX.

Definition IsPowerOfTwo (value : Z) : bool :=
  negb (value =? 0) && (Z.land value (value - 1) =? 0).

(** [(value + alignment - 1) & ~(alignment - 1)], [SIZE_MAX] on overflow. *)
Definition AlignUpChecked (value alignment : Z) : Z :=
  if negb (IsPowerOfTwo alignment) || (SIZE_MAX - (alignment - 1) <? value) then SIZE_MAX
  else Z.land (value + alignment - 1) (Z.lxor SIZE_MAX (alignment - 1)).

(** [strtoull(s, &end, 10)]: value, the rest of the string and [ERANGE]. *)
Definition is_space (c : Z) : bool := (c =? 32) || ((9 <=? c) && (c <=? 13)).
Definition is_digit (c : Z) : bool := (48 <=? c) && (c <=? 57).

Fixpoint skip_space (s : list Z) : list Z :=
  match s with c :: s' => if is_space c then skip_space s' else s | [] => [] end.

Fixpoint take_digits (acc : Z) (s : list Z) : Z * list Z :=
  match s with
  | c :: s' => if is_digit c then take_digits (10 * acc + (c - 48)) s' else (acc, s)
  | [] => (acc, [])
  end.

Definition strtoull (s : list Z) : Z * option (list Z) * bool :=
  let body := skip_space s in
  let '(neg, digits) := match body with
                        | 43 :: r => (false, r)
                        | 45 :: r => (true, r)
                        | _ => (false, body)
                        end in
  match digits with
  | c :: _ =>
      if is_digit c then
        let '(v, rest) := take_digits 0 digits in
        if UINT64_MAX <? v then (UINT64_MAX, Some rest, true)
        else (if neg : bool then u64 (- v) else v, Some rest, false)
      else (0, None, false)
  | [] => (0, None, false)
  end.

(** [None]: a null pointer. *)
Definition ResolveRecvSegmentBytes (value : option (list Z)) (fallback alignment : Z) : Z :=
  if negb (IsPowerOfTwo alignment) then 0
  else
    let bytes :=
      match value with
      | None | Some [] => fallback
      | Some s =>
          match strtoull s with
          | (parsed, Some [], false) => if parsed =? 0 then fallback else parsed
          | _ => fallback
          end
      end in
    let aligned := AlignUpChecked bytes alignment in
    if aligned =? SIZE_MAX then 0 else aligned.

(** ** State *)

Record RecvSegment := mkRecvSegment {
  g_data : option Z;
  g_size : Z;
  g_alignment : Z;
  g_free : ranges;
  g_failures : Z;
}.

Definition new_segment : RecvSegment := mkRecvSegment None 0 0 [] 0.

Definition set_free (f : ranges) (s : RecvSegment) : RecvSegment :=
  mkRecvSegment (g_data s) (g_size s) (g_alignment s) f (g_failures s).

(** [raw]: the block [posix_memalign] returned, [None] when it failed. *)
Definition Init (bytes alignment : Z) (raw : option Z) (s : RecvSegment) : bool * RecvSegment :=
  match g_data s with
  | Some _ => ((g_size s =? bytes) && (g_alignment s =? alignment), s)
  | None =>
      if (bytes =? 0) || negb (IsPowerOfTwo alignment) || negb (bytes mod alignment =? 0)
         || (alignment <? 8)
      then (false, s)
      else
        match raw with
        | None => (false, s)
        | Some base =>
            (true, mkRecvSegment (Some base) bytes alignment (map_emplace 0 bytes (g_free s))
                     (g_failures s))
        end
  end.

(** Whether a free range can hold the request, and where. *)
Definition fit_in (base bytes alignment range_begin range_size : Z) : option Z :=
  if UINT64_MAX - base <? range_begin then None
  else
    let absolute := AlignUpChecked (base + range_begin) alignment in
    if (absolute =? SIZE_MAX) || (absolute <? base) then None
    else
      let begin := absolute - base in
      if (begin <? range_begin) || (range_size <? begin - range_begin)
         || (range_size - (begin - range_begin) <? bytes)
      then None
      else Some begin.

(** The first range that fits. *)
Fixpoint first_fit (base bytes alignment : Z) (m : ranges) : option (Z * Z * Z) :=
  match m with
  | [] => None
  | (range_begin, range_size) :: m =>
      match fit_in base bytes alignment range_begin range_size with
      | Some begin => Some (range_begin, range_size, begin)
      | None => first_fit base bytes alignment m
      end
  end.

(** The lease (offset and size) or [None] for an empty one. *)
Definition Allocate (bytes alignment : Z) (s : RecvSegment) : option (Z * Z) * RecvSegment :=
  match g_data s with
  | None => (None, s)
  | Some base =>
      if (bytes =? 0) || negb (IsPowerOfTwo alignment) then (None, s)
      else
        match first_fit base bytes alignment (g_free s) with
        | Some (range_begin, range_size, begin) =>
            let range_end := range_begin + range_size in
            let end_ := begin + bytes in
            let free := map_erase range_begin (g_free s) in
            let free := if range_begin <? begin
                        then map_emplace range_begin (begin - range_begin) free else free in
            let free := if end_ <? range_end
                        then map_emplace end_ (range_end - end_) free else free in
            (Some (begin, bytes), set_free free s)
        | None => (None, mkRecvSegment (g_data s) (g_size s) (g_alignment s) (g_free s) (g_failures s + 1))
        end
  end.

Definition Release (offset bytes : Z) (s : RecvSegment) : RecvSegment :=
  if bytes =? 0 then s
  else
    let '(before, _) := map_lower_bound offset (g_free s) in
    let '(begin, free) :=
      match last before with
      | Some (p, n) => if p + n =? offset then (p, map_erase p (g_free s)) else (offset, g_free s)
      | None => (offset, g_free s)
      end in
    let end_ := offset + bytes in
    let '(_, from) := map_lower_bound end_ free in
    let '(end_, free) :=
      match from with
      | (q, n) :: _ => if q =? end_ then (end_ + n, map_erase q free) else (end_, free)
      | [] => (end_, free)
      end in
    set_free (map_emplace begin (end_ - begin) free) s.

Record Stats := mkStats {
  ss_total_bytes : Z; ss_used_bytes : Z; ss_free_bytes : Z; ss_largest_free_range : Z;
  ss_allocation_failures : Z;
}.

Definition stats (s : RecvSegment) : Stats :=
  let free_bytes := sumZ snd (g_free s) in
  mkStats (g_size s) (g_size s - free_bytes) free_bytes
    (foldl (λ m (p : Z * Z), Z.max m p.2) 0 (g_free s)) (g_failures s).

(** ** [Lease] *)

(** [owned = false]: the empty lease.  The owner is the segment it is used with. *)
Record Lease := mkLease { l_owned : bool; l_offset : Z; l_size : Z }.

Definition no_lease : Lease := mkLease false 0 0.
Definition lease_of (r : option (Z * Z)) : Lease :=
  match r with Some (o, n) => mkLease true o n | None => no_lease end.

Definition Reset (l : Lease) (s : RecvSegment) : Lease * RecvSegment :=
  if l_owned l then (no_lease, Release (l_offset l) (l_size l) s) else (l, s).

(** [*this = std::move(other)], two leases of one segment: this, other. *)
Definition move_assign (this other : Lease) (s : RecvSegment) : Lease * Lease * RecvSegment :=
  let '(_, s) := Reset this s in (other, no_lease, s).

(** ** The invariant *)

Definition disj (p q : Z * Z) : Prop := p.1 + p.2 <= q.1 ∨ q.1 + q.2 <= p.1.

Definition range_ok (size : Z) (p : Z * Z) : Prop := 0 <= p.1 ∧ 0 < p.2 ∧ p.1 + p.2 <= size.

(** The free ranges and the leases [L] tile the segment; adjacent free ranges
    are merged. *)
Record tiled (size : Z) (free L : ranges) : Prop := {
  ti_sorted : StronglySorted (λ p q, p.1 + p.2 < q.1) free;
  ti_free : Forall (range_ok size) free;
  ti_leases : Forall (range_ok size) L;
  ti_nodup : NoDup L;
  ti_apart p q : p ∈ L → q ∈ L → p ≠ q → disj p q;
  ti_disj p q : p ∈ free → q ∈ L → disj p q;
  ti_sum : sumZ snd free + sumZ snd L = size;
}.

(** [posix_memalign] returns a block of the requested alignment inside the
    address space. *)
Definition memalign_ok (bytes alignment : Z) (raw : option Z) : Prop :=
  ∀ base, raw = Some base → 0 < base ∧ base + bytes <= UINT64_MAX ∧ base mod alignment = 0.

Record seg_ok (s : RecvSegment) (L : ranges) : Prop := {
  sg_init base : g_data s = Some base → 0 < base ∧ base + g_size s <= UINT64_MAX;
  sg_none : g_data s = None → s = new_segment ∧ L = [];
  sg_tiled : tiled (g_size s) (g_free s) L;
}.

(** ** Arithmetic lemmas *)

Lemma align_mask v a k :
  a = 2 ^ k → 0 <= k <= 64 → 0 <= v → 0 < a → v <= UINT64_MAX - (a - 1) →
  Z.land (v + a - 1) (Z.lxor UINT64_MAX (a - 1)) = (v + a - 1) / a * a.
Proof. intros -> Hk Hv Ha Hle. apply mask_round_down; unfold UINT64_MAX in *; lia. Qed.

Lemma align_checked v a :
  0 <= v → 0 <= a < 2 ^ 64 → IsPowerOfTwo a = true → AlignUpChecked v a ≠ SIZE_MAX →
  v <= AlignUpChecked v a < v + a ∧ (a | AlignUpChecked v a) ∧ v + a - 1 <= SIZE_MAX.
Proof.
  intros Hv Ha Hp. unfold AlignUpChecked. rewrite Hp. cbn [negb orb].
  destruct (Z.ltb_spec (SIZE_MAX - (a - 1)) v) as [|Hle]; [done|]. intros _.
  apply andb_true_iff in Hp as [H0%negb_true_iff%Z.eqb_neq Hm%Z.eqb_eq].
  destruct (pow2_of_mask a ltac:(lia) Hm) as (k & Hk & Hak).
  assert (k <= 64) by (apply (Z.pow_le_mono_r_iff 2); lia).
  unfold SIZE_MAX in *. rewrite (align_mask v a k) by (done || lia).
  pose proof (round_up_spec v a ltac:(lia)) as [H1 H2]. split; [done|]. split; [done|lia].
Qed.

(** An alignable start that fits is found. *)
Lemma align_checked_some v a b :
  0 <= v → 0 <= a < 2 ^ 64 → IsPowerOfTwo a = true → (a | b) → v <= b < SIZE_MAX →
  AlignUpChecked v a ≠ SIZE_MAX ∧ AlignUpChecked v a <= b.
Proof.
  intros Hv Ha Hp [q Hq] Hb. pose proof Hp as [H0%negb_true_iff%Z.eqb_neq Hm%Z.eqb_eq]%andb_true_iff.
  destruct (pow2_of_mask a ltac:(lia) Hm) as (k & Hk & Hak).
  assert (Hk64 : k < 64) by (apply (Z.pow_lt_mono_r_iff 2); lia).
  unfold SIZE_MAX, UINT64_MAX in *.
  assert (Hd : (a | 2 ^ 64)).
  { rewrite Hak. exists (2 ^ (64 - k)). rewrite <- Z.pow_add_r by lia. f_equal. lia. }
  destruct Hd as [r Hr].
  assert (Hle : b <= 2 ^ 64 - a). { assert (q < r) by nia. nia. }
  unfold AlignUpChecked. rewrite Hp. cbn [negb orb]. unfold SIZE_MAX, UINT64_MAX.
  destruct (Z.ltb_spec (2 ^ 64 - 1 - (a - 1)) v) as [|Hv2]; [lia|].
  change (2 ^ 64 - 1) with UINT64_MAX. rewrite (align_mask v a k) by (unfold UINT64_MAX; lia).
  pose proof (round_up_spec v a ltac:(lia)) as [H1 [t Ht]].
  assert (t * a < (q + 1) * a) by lia. assert (Htq : t < q + 1) by (apply (Z.mul_lt_mono_pos_r a); lia).
  assert (t * a <= q * a) by (apply Z.mul_le_mono_nonneg_r; lia). unfold UINT64_MAX. lia.
Qed.

(** ** Map lemmas *)

Lemma map_emplace_middle k v l1 l2 :
  Forall (λ p, p.1 < k) l1 → Forall (λ p, k < p.1) l2 →
  map_emplace k v (l1 ++ l2) = l1 ++ (k, v) :: l2.
Proof.
  induction 1 as [|[k' v'] l1 Hk _ IH]; intros H2; simpl in *.
  - destruct l2 as [|[k' v'] l2]; [done|]. apply Forall_cons in H2 as [H2 _]. simpl in *.
    by rewrite (proj2 (Z.ltb_lt _ _)).
  - rewrite (proj2 (Z.ltb_ge _ _)), (proj2 (Z.eqb_neq _ _)) by lia. by rewrite IH.
Qed.

Lemma map_erase_middle k v l1 l2 :
  Forall (λ p, p.1 < k) l1 → Forall (λ p, k < p.1) l2 →
  map_erase k (l1 ++ (k, v) :: l2) = l1 ++ l2.
Proof.
  intros H1 H2. unfold map_erase. rewrite filter_app, filter_cons_False by (simpl; tauto).
  rewrite Forall_forall in H1, H2.
  f_equal; apply filter_all; intros p Hp; [apply H1 in Hp|apply H2 in Hp]; lia.
Qed.

Lemma map_lower_bound_app k l1 l2 :
  Forall (λ p, p.1 < k) l1 → Forall (λ p, k <= p.1) l2 → map_lower_bound k (l1 ++ l2) = (l1, l2).
Proof.
  induction 1 as [|[k' v'] l1 Hk _ IH]; intros H2; simpl in *.
  - destruct l2 as [|[k' v'] l2]; [done|]. apply Forall_cons in H2 as [H2 _]. simpl in *.
    by rewrite (proj2 (Z.leb_le _ _)).
  - rewrite (proj2 (Z.leb_gt _ _)) by lia. by rewrite IH.
Qed.

(** The free ranges around one of them, or around a gap. *)
Notation sorted := (StronglySorted (λ p q : Z * Z, p.1 + p.2 < q.1)).

Lemma sorted_app l1 l2 :
  sorted (l1 ++ l2) ↔ sorted l1 ∧ sorted l2 ∧ ∀ p q, p ∈ l1 → q ∈ l2 → p.1 + p.2 < q.1.
Proof.
  induction l1 as [|a l1 IH]; simpl.
  - split; [intros H; split_and!; [constructor|done|by intros p q ?%elem_of_nil]|tauto].
  - split.
    + intros [H1 H2]%StronglySorted_inv. apply IH in H1 as (H1 & H3 & H4).
      rewrite Forall_app in H2. destruct H2 as [H2 H5]. rewrite Forall_forall in H5.
      split_and!; [by constructor|done|]. intros p q [->|Hp]%elem_of_cons Hq; auto.
    + intros ([H1 H2]%StronglySorted_inv & H3 & H4). constructor.
      * apply IH. split_and!; [done|done|]. intros p q Hp Hq. apply H4; [by right|done].
      * apply Forall_app. split; [done|]. rewrite Forall_forall. intros q Hq. apply H4; [by left|done].
Qed.

Lemma sorted_cons p l : sorted (p :: l) ↔ sorted l ∧ ∀ q, q ∈ l → p.1 + p.2 < q.1.
Proof.
  split; [intros [H1 H2]%StronglySorted_inv; rewrite Forall_forall in H2; done|].
  intros [H1 H2]. constructor; [done|]. by rewrite Forall_forall.
Qed.

Lemma keys_around size l1 p l2 :
  sorted (l1 ++ p :: l2) → Forall (range_ok size) (l1 ++ p :: l2) →
  Forall (λ q, q.1 < p.1) l1 ∧ Forall (λ q, p.1 < q.1) l2.
Proof.
  intros (_ & Hs & H1)%sorted_app Hr. apply sorted_cons in Hs as [_ H2].
  rewrite !Forall_forall. rewrite Forall_forall in Hr. split; intros q Hq.
  - destruct (Hr q) as (_ & ? & _); [set_solver|]. specialize (H1 q p Hq ltac:(by left)). lia.
  - destruct (Hr p) as (_ & ? & _); [set_solver|]. specialize (H2 q Hq). lia.
Qed.

(** ** Tiling *)

Lemma tiled_perm size free L L' : L ≡ₚ L' → tiled size free L → tiled size free L'.
Proof.
  intros Hp [T1 T2 T3 T4 T5 T6 T7]. split; rewrite <- ?Hp; try done.
  - intros p q H1 H2. rewrite <- Hp in H1, H2. by apply T5.
  - intros p q H1 H2. rewrite <- Hp in H2. by apply T6.
Qed.

(** A range that may be empty. *)
Definition opt_range (o n : Z) : ranges := if 0 <? n then [(o, n)] else [].

Lemma elem_of_opt_range p o n : p ∈ opt_range o n ↔ 0 < n ∧ p = (o, n).
Proof.
  unfold opt_range. destruct (Z.ltb_spec 0 n); rewrite ?elem_of_nil, ?list_elem_of_singleton; naive_solver lia.
Qed.

Lemma sum_opt_range o n : 0 <= n → sumZ snd (opt_range o n) = n.
Proof. intros Hn. unfold opt_range. destruct (Z.ltb_spec 0 n); simpl; lia. Qed.

Lemma sorted_opt_range o n : sorted (opt_range o n).
Proof. unfold opt_range. case_match; repeat constructor. Qed.

(** Cutting the lease [(b, n)] out of a free range. *)
Lemma tiled_split size l1 l2 L rb rs b n :
  tiled size (l1 ++ (rb, rs) :: l2) L → rb <= b → 0 < n → b + n <= rb + rs →
  tiled size (l1 ++ opt_range rb (b - rb) ++ opt_range (b + n) (rb + rs - (b + n)) ++ l2) ((b, n) :: L).
Proof.
  intros [T1 T2 T3 T4 T5 T6 T7] H1 H2 H3.
  apply sorted_app in T1 as (S1 & S2 & S3). apply sorted_cons in S2 as [S2 S4].
  rewrite Forall_app, Forall_cons in T2. destruct T2 as (F1 & Fr & F2).
  pose proof Fr as (R1 & R2 & R3). simpl in *. rewrite Forall_forall in F1, F2.
  assert (Hb : ∀ q, q ∈ L → disj (b, n) q).
  { intros q Hq. destruct (T6 (rb, rs) q) as [H|H]; [set_solver|done|..]; simpl in *; [left|right]; simpl; lia. }
  split.
  - apply sorted_app. split_and!; [done| |].
    + apply sorted_app. split_and!; [apply sorted_opt_range| |].
      * apply sorted_app. split_and!; [apply sorted_opt_range|done|].
        intros p q [_ ->]%elem_of_opt_range Hq. specialize (S4 q Hq). simpl. lia.
      * intros p q [_ ->]%elem_of_opt_range [[_ ->]%elem_of_opt_range|Hq]%elem_of_app; simpl; [lia|].
        specialize (S4 q Hq). lia.
    + intros p q Hp Hq. specialize (S3 p (rb, rs) Hp ltac:(by left)). simpl in S3.
      apply elem_of_app in Hq as [[_ ->]%elem_of_opt_range|[[_ ->]%elem_of_opt_range|Hq]%elem_of_app]; simpl; [lia|lia|].
      specialize (S4 q Hq). lia.
  - rewrite !Forall_app, !Forall_forall. split_and!; try done;
      intros p [? ->]%elem_of_opt_range; unfold range_ok; simpl; lia.
  - apply Forall_cons. split; [unfold range_ok; simpl; lia|done].
  - apply NoDup_cons. split; [|done]. intros Hin. destruct (Hb _ Hin); simpl in *; lia.
  - intros p q [->|Hp]%elem_of_cons [->|Hq]%elem_of_cons Hne; [done|by apply Hb| |by apply T5].
    destruct (Hb _ Hp); [by right|by left].
  - intros p q Hp [->|Hq]%elem_of_cons; rewrite !elem_of_app, !elem_of_opt_range in Hp.
    + destruct Hp as [Hp|[[_ ->]|[[_ ->]|Hp]]]; simpl; [|left; simpl; lia|right; simpl; lia|].
      * specialize (S3 p (rb, rs) Hp ltac:(by left)). left. simpl in *. lia.
      * specialize (S4 p Hp). right. simpl in *. lia.
    + destruct Hp as [Hp|[[? ->]|[[? ->]|Hp]]]; [apply T6; set_solver|..|apply T6; set_solver];
        (destruct (T6 (rb, rs) q) as [Hd|Hd]; [set_solver|done|..]; simpl in *; [left|right]; simpl; lia).
  - rewrite !sumZ_app, !sum_opt_range by lia. rewrite !sumZ_app in T7. simpl in *. lia.
Qed.

(** Giving the lease [(o, n)] back, merged with its free neighbours. *)
Lemma tiled_join size l1 l2 L a z o n :
  a <= o → o + n <= z →
  tiled size (l1 ++ opt_range a (o - a) ++ opt_range (o + n) (z - (o + n)) ++ l2) ((o, n) :: L) →
  (∀ p, p ∈ l1 → p.1 + p.2 < a) → (∀ q, q ∈ l2 → z < q.1) →
  tiled size (l1 ++ (a, z - a) :: l2) L.
Proof.
  intros Ha Hz [T1 T2 T3 T4 T5 T6 T7] H1 H2.
  apply sorted_app in T1 as (S1 & S2 & S3). apply sorted_app in S2 as (_ & S4 & S5).
  apply sorted_app in S4 as (_ & S6 & S7). rewrite !Forall_app in T2. destruct T2 as (F1 & Fa & Fz & F2).
  apply Forall_cons in T3 as [(R1 & R2 & R3) T3]. apply NoDup_cons in T4 as [N1 T4]. simpl in *.
  assert (Ba : 0 <= a).
  { destruct (Z.lt_ge_cases a o); [|lia]. rewrite Forall_forall in Fa.
    destruct (Fa (a, o - a)) as (? & _); [apply elem_of_opt_range; split; [lia|done]|done]. }
  assert (Bz : z <= size).
  { destruct (Z.lt_ge_cases (o + n) z); [|lia]. rewrite Forall_forall in Fz.
    destruct (Fz (o + n, z - (o + n))) as (_ & _ & ?); [apply elem_of_opt_range; split; [lia|done]|simpl in *; lia]. }
  split.
  - apply sorted_app. split_and!; [done| |].
    + apply sorted_cons. split; [done|]. intros q Hq. specialize (H2 q Hq). simpl. lia.
    + intros p q Hp [->|Hq]%elem_of_cons; specialize (H1 p Hp); simpl; [lia|].
      specialize (S3 p q Hp). apply S3. set_solver.
  - apply Forall_app. split; [done|]. apply Forall_cons. split; [unfold range_ok; simpl; lia|done].
  - done.
  - done.
  - intros p q Hp Hq. apply T5; by right.
  - intros p q Hp Hq. rewrite elem_of_app, elem_of_cons in Hp. destruct Hp as [Hp|[->|Hp]].
    + apply T6; [set_solver|by right].
    + assert (Hne : (o, n) ≠ q) by (by intros <-).
      pose proof (T5 (o, n) q ltac:(by left) ltac:(by right) Hne) as Hd.
      assert (Hda : a < o → disj (a, o - a) q).
      { intros Hlt. apply T6; [|by right]. rewrite !elem_of_app, elem_of_opt_range. right; left. split; [lia|done]. }
      assert (Hdz : o + n < z → disj (o + n, z - (o + n)) q).
      { intros Hlt. apply T6; [|by right]. rewrite !elem_of_app, !elem_of_opt_range. right; right; left.
        split; [lia|done]. }
      rewrite Forall_forall in T3. destruct (T3 q Hq) as (_ & Hqp & _). unfold disj in *. simpl in *.
      destruct (Z.lt_ge_cases a o) as [Hl|Hl]; [specialize (Hda Hl)|];
        (destruct (Z.lt_ge_cases (o + n) z) as [Hr|Hr]; [specialize (Hdz Hr)|]); lia.
    + apply T6; [set_solver|by right].
  - rewrite !sumZ_app, !sum_opt_range in T7 by lia. rewrite !sumZ_app. simpl in *. lia.
Qed.

(** ** [Allocate] *)

(** Where a request may be placed in a free range. *)
Definition placeable (base bytes alignment : Z) (p : Z * Z) (b : Z) : Prop :=
  p.1 <= b ∧ b + bytes <= p.1 + p.2 ∧ (alignment | base + b).

Lemma fit_in_spec base size bytes a p :
  0 < base → base + size <= UINT64_MAX → range_ok size p → 0 < bytes → 0 <= a < 2 ^ 64 →
  IsPowerOfTwo a = true →
  match fit_in base bytes a p.1 p.2 with
  | Some b => placeable base bytes a p b
  | None => ∀ b, ¬ placeable base bytes a p b
  end.
Proof.
  intros Hb Hs (R1 & R2 & R3) Hn Ha Hp. destruct p as [rb rs]. simpl in *. unfold fit_in.
  rewrite (proj2 (Z.ltb_ge _ _)) by lia.
  assert (Hnone : ∀ b, placeable base bytes a (rb, rs) b → AlignUpChecked (base + rb) a ≠ SIZE_MAX ∧
    AlignUpChecked (base + rb) a <= base + b).
  { intros b (P1 & P2 & P3). simpl in *. apply align_checked_some; try done; [lia|].
    unfold SIZE_MAX. lia. }
  destruct (Z.eqb_spec (AlignUpChecked (base + rb) a) SIZE_MAX) as [E|E]; cbn [orb].
  { intros b Hpl. by destruct (Hnone b Hpl). }
  destruct (align_checked (base + rb) a ltac:(lia) Ha Hp E) as (A1 & A2 & A3).
  rewrite (proj2 (Z.ltb_ge _ base)) by lia.
  destruct (Z.ltb_spec (AlignUpChecked (base + rb) a - base) rb); cbn [orb]; [lia|].
  destruct (Z.ltb_spec rs (AlignUpChecked (base + rb) a - base - rb)); cbn [orb].
  { intros b Hpl. destruct (Hnone b Hpl) as [_ ?]. destruct Hpl as (_ & ? & _). simpl in *. lia. }
  destruct (Z.ltb_spec (rs - (AlignUpChecked (base + rb) a - base - rb)) bytes).
  { intros b Hpl. destruct (Hnone b Hpl) as [_ ?]. destruct Hpl as (_ & ? & _). simpl in *. lia. }
  split_and!; simpl; [lia|lia|]. by replace (base + (AlignUpChecked (base + rb) a - base))
    with (AlignUpChecked (base + rb) a) by lia.
Qed.

Lemma first_fit_spec base size bytes a m :
  0 < base → base + size <= UINT64_MAX → Forall (range_ok size) m → 0 < bytes → 0 <= a < 2 ^ 64 →
  IsPowerOfTwo a = true →
  match first_fit base bytes a m with
  | Some (rb, rs, b) => ∃ l1 l2, m = l1 ++ (rb, rs) :: l2 ∧ placeable base bytes a (rb, rs) b
  | None => ∀ p b, p ∈ m → ¬ placeable base bytes a p b
  end.
Proof.
  intros Hb Hs Hr Hn Ha Hp. induction Hr as [|[rb rs] m Hrr Hr IH]; simpl; [by intros p b ?%elem_of_nil|].
  pose proof (fit_in_spec base size bytes a (rb, rs) Hb Hs Hrr Hn Ha Hp) as Hf. simpl in Hf.
  destruct (fit_in base bytes a rb rs) as [b|]; [by exists [], m|].
  destruct (first_fit base bytes a m) as [[[rb' rs'] b]|].
  - destruct IH as (l1 & l2 & -> & Hpl). by exists ((rb, rs) :: l1), l2.
  - intros p b [->|Hin]%elem_of_cons; [apply Hf|by apply IH].
Qed.

(** The free map after an allocation. *)
Lemma allocate_free size l1 l2 L rb rs b n :
  tiled size (l1 ++ (rb, rs) :: l2) L → rb <= b → 0 < n → b + n <= rb + rs →
  (let free := map_erase rb (l1 ++ (rb, rs) :: l2) in
   let free := if rb <? b then map_emplace rb (b - rb) free else free in
   if b + n <? rb + rs then map_emplace (b + n) (rb + rs - (b + n)) free else free) =
  l1 ++ opt_range rb (b - rb) ++ opt_range (b + n) (rb + rs - (b + n)) ++ l2.
Proof.
  intros Ht H1 H2 H3. destruct (keys_around size l1 (rb, rs) l2) as [K1 K2]; [apply Ht|apply Ht|].
  simpl in *. rewrite map_erase_middle by done.
  pose proof (ti_sorted _ _ _ Ht) as (_ & [_ S]%sorted_cons & _)%sorted_app. simpl in S.
  pose proof (ti_free _ _ _ Ht) as F. rewrite Forall_app, Forall_cons in F. destruct F as (_ & (_ & Hrs & _) & _).
  assert (K3 : Forall (λ p, b + n < p.1) l2).
  { rewrite Forall_forall. intros q Hq. specialize (S q Hq). lia. }
  assert (K4 : Forall (λ p, p.1 < b + n) l1) by (eapply Forall_impl; [exact K1|]; simpl; lia).
  unfold opt_range. replace (0 <? b - rb) with (rb <? b) by lia.
  replace (0 <? rb + rs - (b + n)) with (b + n <? rb + rs) by lia.
  destruct (Z.ltb_spec rb b).
  - rewrite map_emplace_middle by done. simpl. destruct (b + n <? rb + rs); [|done].
    rewrite (cons_middle _ l1), app_assoc. rewrite map_emplace_middle; [by rewrite <- app_assoc| |done].
    apply Forall_app. split; [done|]. repeat constructor. simpl. lia.
  - destruct (b + n <? rb + rs); [|done]. by rewrite map_emplace_middle.
Qed.

Lemma Allocate_spec bytes a s L :
  seg_ok s L → 0 < bytes → 0 <= a < 2 ^ 64 → IsPowerOfTwo a = true →
  match Allocate bytes a s with
  | (Some (o, n), s') => n = bytes ∧ seg_ok s' ((o, n) :: L) ∧ g_size s' = g_size s ∧
      g_data s' = g_data s ∧ ∃ base, g_data s = Some base ∧ (a | base + o)
  | (None, s') => seg_ok s' L ∧ g_size s' = g_size s ∧ g_data s' = g_data s ∧ g_free s' = g_free s ∧
      ∀ base p b, g_data s = Some base → p ∈ g_free s → ¬ placeable base bytes a p b
  end.
Proof.
  intros Hok Hn Ha Hp. pose proof Hok as [S1 S2 S3]. unfold Allocate. destruct (g_data s) as [base|] eqn:Ed; [|done].
  rewrite (proj2 (Z.eqb_neq bytes 0)), Hp by lia. cbn [orb negb].
  destruct (S1 base eq_refl) as [Hb Hbs]. rewrite <- Ed in S1, S2.
  pose proof (first_fit_spec base (g_size s) bytes a (g_free s) Hb Hbs (ti_free _ _ _ S3) Hn Ha Hp) as Hf.
  destruct (first_fit base bytes a (g_free s)) as [[[rb rs] b]|].
  - destruct Hf as (l1 & l2 & Heq & P1 & P2 & P3). simpl in P1, P2. rewrite Heq in S3 |- *.
    pose proof (allocate_free _ _ _ _ _ _ _ _ S3 P1 Hn P2) as Hfree. cbn zeta in Hfree. rewrite Hfree.
    split_and!; [done| |done|done|by exists base]. split; simpl; [exact S1|by rewrite Ed|by apply tiled_split].
  - split_and!; [|done|done|done|].
    + rewrite <- Ed. split; simpl; [exact S1|by rewrite Ed|done].
    + intros base' q b [= <-]. apply Hf.
Qed.

(** ** [Release] *)

Lemma lower_bound_split k m :
  sorted m → Forall (λ p, 0 < p.2) m →
  ∃ l1 l2, m = l1 ++ l2 ∧ map_lower_bound k m = (l1, l2) ∧ Forall (λ p, p.1 < k) l1 ∧
    Forall (λ p, k <= p.1) l2.
Proof.
  induction m as [|[k' v'] m IH]; intros Hs Hp; simpl; [by exists [], []|].
  apply sorted_cons in Hs as [Hs Hlt]. apply Forall_cons in Hp as [Hv Hp]. simpl in *.
  destruct (Z.leb_spec k k') as [Hle|Hgt].
  - exists [], ((k', v') :: m). split_and!; [done|done|constructor|]. constructor; [done|].
    rewrite Forall_forall. intros q Hq. specialize (Hlt q Hq). lia.
  - destruct (IH Hs Hp) as (l1 & l2 & -> & -> & H1 & H2). exists ((k', v') :: l1), l2.
    split_and!; [done|done|by constructor|done].
Qed.

(** The free ranges left and right of a lease. *)
Lemma lease_sides size l1 l2 o n L :
  tiled size (l1 ++ l2) ((o, n) :: L) → Forall (λ p, p.1 < o) l1 → Forall (λ p, o <= p.1) l2 →
  (∀ p, p ∈ l1 → p.1 + p.2 <= o) ∧ (∀ q, q ∈ l2 → o + n <= q.1).
Proof.
  intros [T1 T2 T3 T4 T5 T6 T7] K1 K2. rewrite Forall_forall in K1, K2, T2.
  apply Forall_cons in T3 as [(_ & Hn & _) _]. simpl in Hn. split; intros p Hp.
  - destruct (T6 p (o, n)) as [H|H]; [set_solver|by left|done|]. specialize (K1 p Hp). simpl in *. lia.
  - destruct (T6 p (o, n)) as [H|H]; [set_solver|by left| |done].
    specialize (K2 p Hp). destruct (T2 p) as (_ & ? & _); [set_solver|]. simpl in *. lia.
Qed.

(** The second half of [Release]: [l1] ends before [a], the block [(a, ...)]
    up to [o + n] is free, and [l2] starts at [o + n] or later. *)
Lemma release_right size l1 l2 L a o n :
  a <= o → 0 < n →
  tiled size (l1 ++ opt_range a (o - a) ++ l2) ((o, n) :: L) →
  (∀ p, p ∈ l1 → p.1 + p.2 < a) → (∀ q, q ∈ l2 → o + n <= q.1) →
  let '(_, from) := map_lower_bound (o + n) (l1 ++ l2) in
  let '(end_, free) :=
    match from with
    | (q, m) :: _ => if q =? o + n then (o + n + m, map_erase q (l1 ++ l2)) else (o + n, l1 ++ l2)
    | [] => (o + n, l1 ++ l2)
    end in
  tiled size (map_emplace a (end_ - a) free) L.
Proof.
  intros Ha Hn Ht H1 H2.
  pose proof (ti_sorted _ _ _ Ht) as (Ss1 & (_ & Ss2 & _)%sorted_app & Ss3)%sorted_app.
  pose proof (ti_free _ _ _ Ht) as F. rewrite !Forall_app in F. destruct F as (F1 & _ & F2).
  rewrite Forall_forall in F1.
  assert (K1 : Forall (λ p, p.1 < a) l1).
  { rewrite Forall_forall. intros p Hp. destruct (F1 p Hp) as (_ & ? & _). specialize (H1 p Hp). lia. }
  rewrite map_lower_bound_app.
  2:{ eapply Forall_impl; [exact K1|]. simpl. lia. }
  2:{ rewrite Forall_forall. apply H2. }
  destruct l2 as [|[q m] l2].
  - rewrite map_emplace_middle by (done || constructor).
    apply (tiled_join size l1 [] L a (o + n) o n); [done|lia| |done|by intros ? ?%elem_of_nil].
    replace (o + n - (o + n)) with 0 by lia. exact Ht.
  - apply sorted_cons in Ss2 as [_ Hl2]. apply Forall_cons in F2 as [(_ & Hm & _) _]. simpl in *.
    assert (K2 : Forall (λ p, o + n < p.1) l2).
    { rewrite Forall_forall. intros p Hp. specialize (Hl2 p Hp).
      specialize (H2 (q, m) ltac:(by left)). simpl in *. lia. }
    destruct (Z.eqb_spec q (o + n)) as [->|Hne].
    + rewrite map_erase_middle; [|eapply Forall_impl; [exact K1|]; simpl; lia|done].
      rewrite map_emplace_middle; [|done|eapply Forall_impl; [exact K2|]; simpl; lia].
      apply (tiled_join size l1 l2 L a (o + n + m) o n); [done|lia| |done|done].
      unfold opt_range at 2. rewrite (proj2 (Z.ltb_lt _ _)) by lia.
      by replace (o + n + m - (o + n)) with m by lia.
    + specialize (H2 (q, m) ltac:(by left)) as Hq. simpl in Hq.
      rewrite map_emplace_middle; [|done|constructor; [simpl; lia|eapply Forall_impl; [exact K2|]; simpl; lia]].
      apply (tiled_join size l1 ((q, m) :: l2) L a (o + n) o n); [done|lia| |done|].
      * replace (o + n - (o + n)) with 0 by lia. exact Ht.
      * intros p [->|Hp]%elem_of_cons; [simpl; lia|]. rewrite Forall_forall in K2. by apply K2.
Qed.

Lemma Release_spec o n s L :
  seg_ok s ((o, n) :: L) →
  seg_ok (Release o n s) L ∧ g_size (Release o n s) = g_size s ∧ g_data (Release o n s) = g_data s.
Proof.
  intros [S1 S2 S3]. assert (Hn : 0 < n) by (apply ti_leases in S3; by apply Forall_cons in S3 as [(_ & ? & _) _]).
  assert (Hd : g_data s ≠ None) by (intros H; by apply S2 in H as [_ ?]).
  assert (Hfin : ∀ free, tiled (g_size s) free L →
    seg_ok (set_free free s) L ∧ g_size (set_free free s) = g_size s ∧ g_data (set_free free s) = g_data s).
  { intros free Ht. split_and!; [|done|done]. split; [done|done|done]. }
  unfold Release. rewrite (proj2 (Z.eqb_neq n 0)) by lia.
  destruct (lower_bound_split o (g_free s)) as (l1 & l2 & Heq & -> & K1 & K2);
    [apply S3|eapply Forall_impl; [apply S3|]; unfold range_ok; tauto|].
  rewrite Heq in S3 |- *. destruct (lease_sides _ _ _ _ _ _ S3 K1 K2) as [Hl Hr].
  destruct (last l1) as [[p m]|] eqn:El.
  - apply last_Some in El as [l0 ->].
    pose proof (ti_sorted _ _ _ S3) as (Hs1 & _ & _)%sorted_app.
    apply sorted_app in Hs1 as (_ & _ & Hs1). rewrite Forall_app in K1. destruct K1 as [K1 Kp].
    apply Forall_cons in Kp as [Kp _]. simpl in Kp.
    assert (Hs : ∀ q, q ∈ l0 → q.1 + q.2 < p) by (intros q Hq; by apply (Hs1 q (p, m) Hq); left).
    destruct (Z.eqb_spec (p + m) o) as [Hpm|Hpm].
    + pose proof (keys_around (g_size s) l0 (p, m) l2) as Hk. rewrite <- app_assoc in *.
      destruct Hk as [Kl Kr]; [apply S3|apply S3|]. simpl in Kl, Kr. simpl app.
      rewrite map_erase_middle by done.
      pose proof (release_right (g_size s) l0 l2 L p o n ltac:(lia) Hn) as Hrel.
      unfold opt_range in Hrel. rewrite (proj2 (Z.ltb_lt _ _)) in Hrel by lia.
      replace (o - p) with m in Hrel by lia. specialize (Hrel S3 Hs Hr).
      destruct (map_lower_bound (o + n) (l0 ++ l2)) as [bf from].
      destruct from as [|[q mq] from]; [by apply Hfin|]. destruct (q =? o + n); by apply Hfin.
    + specialize (Hl (p, m)). simpl in Hl. assert (p + m < o) by (specialize (Hl ltac:(set_solver)); lia).
      pose proof (release_right (g_size s) (l0 ++ [(p, m)]) l2 L o o n ltac:(lia) Hn) as Hrel.
      replace (o - o) with 0 in Hrel by lia.
      assert (Hs' : ∀ q, q ∈ l0 ++ [(p, m)] → q.1 + q.2 < o).
      { intros q [Hq|Hq%list_elem_of_singleton]%elem_of_app; [|subst q; simpl; lia]. specialize (Hs q Hq). lia. }
      specialize (Hrel S3 Hs' Hr).
      destruct (map_lower_bound (o + n) ((l0 ++ [(p, m)]) ++ l2)) as [bf from].
      destruct from as [|[q mq] from]; [by apply Hfin|]. destruct (q =? o + n); by apply Hfin.
  - apply last_None in El as ->.
    pose proof (release_right (g_size s) [] l2 L o o n ltac:(lia) Hn) as Hrel.
    replace (o - o) with 0 in Hrel by lia. specialize (Hrel S3 ltac:(by intros ? ?%elem_of_nil) Hr).
    simpl in Hrel |- *. destruct (map_lower_bound (o + n) l2) as [bf from].
    destruct from as [|[q mq] from]; [by apply Hfin|]. destruct (q =? o + n); by apply Hfin.
Qed.

(** With every lease returned the segment is one free range again. *)
Lemma tiled_empty size free : 0 < size → tiled size free [] → free = [(0, size)].
Proof.
  intros Hsize [T1 T2 _ _ _ _ T7]. simpl in T7. rewrite Z.add_0_r in T7.
  destruct free as [|[o n] l]; [simpl in T7; lia|].
  assert (Hsum : ∀ l lo, sorted l → Forall (range_ok size) l → (∀ q, q ∈ l → lo <= q.1) → lo <= size →
    sumZ snd l <= size - lo ∧ (l ≠ [] → sumZ snd l = size - lo → ∃ q, l = [q] ∧ q.1 = lo)).
  { clear. induction l as [|[o n] l IH]; intros lo Hs Hr Hlo Hle; simpl; [split; [lia|done]|].
    apply sorted_cons in Hs as [Hs Hlt]. apply Forall_cons in Hr as [(R1 & R2 & R3) Hr]. simpl in *.
    specialize (Hlo (o, n) ltac:(by left)). simpl in Hlo.
    destruct (decide (l = [])) as [->|Hne].
    - simpl. split; [lia|]. intros _ H. exists (o, n). split; [done|]. simpl. lia.
    - assert (Ho : o + n + 1 <= size).
      { destruct l as [|q l]; [done|]. specialize (Hlt q ltac:(by left)).
        apply Forall_cons in Hr as [(_ & ? & ?) _]. lia. }
      destruct (IH (o + n + 1) Hs Hr) as [IH1 _]; [|lia|].
      { intros q Hq. specialize (Hlt q Hq). lia. }
      split; [lia|]. intros _ H. lia. }
  destruct (Hsum ((o, n) :: l) 0) as [_ H]; [done|done| |lia|].
  { intros q Hq. rewrite Forall_forall in T2. by apply T2. }
  destruct (H ltac:(done) ltac:(lia)) as ([o' n'] & Heq & H0). simpl in H0. subst o'. injection Heq as -> -> ->.
  simpl in T7. do 2 f_equal. lia.
Qed.

(** ** Runs *)

(** What the holders of leases do: ask for one, or reset one they hold (a lease
    already reset or moved from is empty and may be reset again). *)
Inductive SegOp := SegAllocate (bytes alignment : Z) | SegReset (i : nat).

Definition seg_op_ok (op : SegOp) : Prop :=
  match op with SegAllocate bytes alignment => 0 <= bytes ∧ 0 <= alignment < 2 ^ 64 | SegReset _ => True end.

Definition run_seg_op (op : SegOp) (st : RecvSegment * list Lease) : RecvSegment * list Lease :=
  let '(s, ls) := st in
  match op with
  | SegAllocate bytes alignment =>
      let '(r, s) := Allocate bytes alignment s in (s, ls ++ [lease_of r])
  | SegReset i =>
      match ls !! i with
      | Some l => let '(l, s) := Reset l s in (s, <[i := l]> ls)
      | None => (s, ls)
      end
  end.

Definition run_seg (ops : list SegOp) (st : RecvSegment * list Lease) : RecvSegment * list Lease :=
  foldl (λ st op, run_seg_op op st) st ops.

(** The ranges of the leases that are not empty. *)
Definition held (ls : list Lease) : ranges :=
  omap (λ l, if l_owned l then Some (l_offset l, l_size l) else None) ls.

Lemma held_app l1 l2 : held (l1 ++ l2) = held l1 ++ held l2.
Proof. apply omap_app. Qed.

Lemma run_seg_op_spec op s ls :
  seg_ok s (held ls) → seg_op_ok op →
  let '(s', ls') := run_seg_op op (s, ls) in
  seg_ok s' (held ls') ∧ g_size s' = g_size s ∧ g_data s' = g_data s.
Proof.
  intros Hok Hop. destruct op as [bytes a|i]; simpl in *.
  - destruct (decide (0 < bytes ∧ IsPowerOfTwo a = true)) as [[Hn Hp]|Hbad].
    + pose proof (Allocate_spec bytes a s _ Hok Hn (proj2 Hop) Hp) as Ha.
      destruct (Allocate bytes a s) as [[[o n]|] s']; rewrite held_app; simpl.
      * destruct Ha as (-> & [A1 A2 A3] & ? & ? & _). split_and!; [|done..].
        split; [done| |].
        { intros Hd. by destruct (A2 Hd). }
        eapply tiled_perm; [|exact A3]. apply Permutation_cons_append.
      * rewrite app_nil_r. tauto.
    + assert (Allocate bytes a s = (None, s)) as ->.
      { unfold Allocate. destruct (g_data s); [|done].
        destruct (Z.eqb_spec bytes 0); [done|]. destruct (IsPowerOfTwo a) eqn:E; [|done]. destruct Hbad. lia. }
      rewrite held_app. simpl. by rewrite app_nil_r.
  - destruct (ls !! i) as [l|] eqn:El; [|done]. unfold Reset.
    destruct (l_owned l) eqn:Eo; [|by rewrite list_insert_id].
    pose proof (take_drop_middle ls i l El) as Hmid.
    rewrite <- Hmid in Hok. rewrite held_app in Hok. simpl in Hok. rewrite Eo in Hok.
    rewrite insert_take_drop by (by eapply lookup_lt_Some). rewrite held_app. simpl.
    apply (Release_spec (l_offset l) (l_size l) s). destruct Hok as [A1 A2 A3]. split; [done| |].
    + intros H. destruct (A2 H) as [_ Hnil]. by destruct (held (take i ls)).
    + eapply tiled_perm; [|exact A3]. symmetry. apply Permutation_middle.
Qed.

Lemma run_seg_spec ops s ls :
  seg_ok s (held ls) → Forall seg_op_ok ops →
  let '(s', ls') := run_seg ops (s, ls) in
  seg_ok s' (held ls') ∧ g_size s' = g_size s ∧ g_data s' = g_data s.
Proof.
  intros Hok Hops. revert s ls Hok. induction Hops as [|op ops Hop Hops IH]; intros s ls Hok; [done|].
  unfold run_seg. cbn [foldl]. pose proof (run_seg_op_spec op s ls Hok Hop) as H1.
  destruct (run_seg_op op (s, ls)) as [s1 ls1]. destruct H1 as (H1 & E1 & E2).
  specialize (IH s1 ls1 H1). unfold run_seg in IH.
  destruct (foldl _ (s1, ls1) ops) as [s2 ls2]. rewrite <- E1, <- E2. exact IH.
Qed.

Lemma Init_spec bytes a raw :
  0 <= bytes → memalign_ok bytes a raw →
  let '(ok, s) := Init bytes a raw new_segment in
  seg_ok s [] ∧ (ok = true → g_size s = bytes ∧ 0 < bytes ∧ g_data s = raw) ∧
  (ok = false → s = new_segment).
Proof.
  intros Hb Hm. unfold Init. simpl.
  assert (Hnew : seg_ok new_segment []).
  { split; [done|done|]. split; simpl; try (by constructor); by intros p q ?%elem_of_nil. }
  destruct (Z.eqb_spec bytes 0); simpl; [done|]. destruct (_ || _); simpl; [done|].
  destruct raw as [base|]; simpl; [|done]. destruct (Hm base eq_refl) as (H1 & H2 & H3).
  split; [|split; [intros _; split_and!; [done|lia|done]|done]]. split; simpl; [by intros ? [= <-]|done|].
  split; simpl; [repeat constructor|repeat constructor; simpl; lia|constructor|constructor|..|lia];
    by intros p q ?%elem_of_nil || by intros p q ? ?%elem_of_nil.
Qed.

(** ** Claims *)

(** C25. From a successful [Init] on, whatever leases are taken and reset (also
    twice), the leases held lie inside the segment, never overlap each other,
    and [stats] reports exactly their bytes as used. *)
Theorem segment_leases_disjoint bytes alignment raw ops s ls :
  0 <= bytes → memalign_ok bytes alignment raw → Forall seg_op_ok ops →
  run_seg ops ((Init bytes alignment raw new_segment).2, []) = (s, ls) →
  (∀ p, p ∈ held ls → range_ok (g_size s) p) ∧
  (∀ i j p q, held ls !! i = Some p → held ls !! j = Some q → i ≠ j → disj p q) ∧
  ss_used_bytes (stats s) = sumZ snd (held ls).
Proof.
  intros Hb Hm Hops Hrun. pose proof (Init_spec bytes alignment raw Hb Hm) as Hi.
  destruct (Init bytes alignment raw new_segment) as [ok s0]. destruct Hi as (Hok & _). simpl in Hrun.
  pose proof (run_seg_spec ops s0 [] Hok Hops) as Hr. rewrite Hrun in Hr. destruct Hr as ([_ _ T] & _).
  split_and!.
  - intros p Hp. pose proof (ti_leases _ _ _ T) as Hl. rewrite Forall_forall in Hl. by apply Hl.
  - intros i j p q Hi Hj Hne. apply (ti_apart _ _ _ T); [by eapply list_elem_of_lookup_2..|].
    intros ->. apply Hne. eapply NoDup_lookup; [apply T|done|done].
  - simpl. pose proof (ti_sum _ _ _ T). lia.
Qed.

Lemma segment_leases_disjoint_witness :
  let st := run_seg [SegAllocate 4096 4096; SegAllocate 100 64; SegReset 0; SegReset 0; SegAllocate 200 8]
              ((Init 16384 4096 (Some 65536) new_segment).2, []) in
  held st.2 = [(4096, 100); (0, 200)] ∧ ss_used_bytes (stats st.1) = sumZ snd (held st.2).
Proof.
  intros st. split; [by vm_compute|].
  apply (segment_leases_disjoint 16384 4096 (Some 65536)
           [SegAllocate 4096 4096; SegAllocate 100 64; SegReset 0; SegReset 0; SegAllocate 200 8] st.1 st.2).
  - lia.
  - intros base [= <-]. unfold UINT64_MAX. repeat split; lia.
  - repeat constructor; simpl; lia.
  - by vm_compute.
Defined.

(** First fit is complete: [Allocate] returns an aligned block out of the
    free ranges whenever one of them has room for it, and returns the empty
    lease, counting a failure, exactly when none has. *)
Theorem segment_allocate_complete bytes alignment s L base :
  seg_ok s L → g_data s = Some base → 0 < bytes → 0 <= alignment < 2 ^ 64 →
  IsPowerOfTwo alignment = true →
  match Allocate bytes alignment s with
  | (Some (o, n), s') => n = bytes ∧ (alignment | base + o) ∧ 0 <= o ∧ o + bytes <= g_size s ∧
      (∀ q, q ∈ L → disj (o, n) q) ∧ seg_ok s' ((o, n) :: L)
  | (None, s') => (∀ p b, p ∈ g_free s → ¬ placeable base bytes alignment p b) ∧
      g_free s' = g_free s ∧ g_failures s' = g_failures s + 1
  end.
Proof.
  intros Hok Hd Hn Ha Hp. pose proof (Allocate_spec bytes alignment s L Hok Hn Ha Hp) as H.
  assert (Hf : match Allocate bytes alignment s with
               | (None, s') => g_failures s' = g_failures s + 1 | _ => True end).
  { unfold Allocate. rewrite Hd, (proj2 (Z.eqb_neq bytes 0)), Hp by lia. simpl.
    by destruct (first_fit base bytes alignment (g_free s)) as [[[??]?]|]. }
  destruct (Allocate bytes alignment s) as [[[o n]|] s'].
  - destruct H as (-> & Hok' & Hs & _ & base' & Hb' & Hal). rewrite Hd in Hb'. injection Hb' as <-.
    pose proof (sg_tiled _ _ Hok') as T. rewrite Hs in T.
    pose proof (ti_leases _ _ _ T) as [(? & ? & ?) _]%Forall_cons. simpl in *.
    split_and!; [done|done|done|lia| |done]. intros q Hq.
    apply (ti_apart _ _ _ T); [by left|by right|]. intros <-. pose proof (ti_nodup _ _ _ T) as [? _]%NoDup_cons. done.
  - destruct H as (_ & _ & _ & Hfree & Hno). split_and!; [|done|done]. intros p b. by apply Hno.
Qed.

Lemma segment_allocate_complete_witness :
  ∃ s', Allocate 100 64 (Init 4096 4096 (Some 65536) new_segment).2 = (Some (0, 100), s') ∧
  (64 | 65536 + 0).
Proof.
  eexists. split; [by vm_compute|].
  pose proof (segment_allocate_complete 100 64 (Init 4096 4096 (Some 65536) new_segment).2 [] 65536) as H.
  assert (Hok : seg_ok (Init 4096 4096 (Some 65536) new_segment).2 []).
  { pose proof (Init_spec 4096 4096 (Some 65536) ltac:(lia)) as Hi.
    apply Hi. intros base [= <-]. unfold UINT64_MAX. repeat split; lia. }
  specialize (H Hok eq_refl ltac:(lia) ltac:(lia) eq_refl).
  vm_compute Allocate in H. apply H.
Defined.

(** No bytes leak and no fragmentation remains: whatever was allocated and
    returned in whatever order, once no lease is held the segment is one free
    range of its full size. *)
Theorem segment_coalesces bytes alignment raw ops s ls :
  0 <= bytes → memalign_ok bytes alignment raw → Forall seg_op_ok ops →
  (Init bytes alignment raw new_segment).1 = true →
  run_seg ops ((Init bytes alignment raw new_segment).2, []) = (s, ls) →
  held ls = [] → g_free s = [(0, bytes)].
Proof.
  intros Hb Hm Hops Hinit Hrun Hnone. pose proof (Init_spec bytes alignment raw Hb Hm) as Hi.
  destruct (Init bytes alignment raw new_segment) as [ok s0]. simpl in *. subst ok.
  destruct Hi as (Hok & Hsz & _). destruct (Hsz eq_refl) as (Hs0 & Hpos & _).
  pose proof (run_seg_spec ops s0 [] Hok Hops) as Hr. rewrite Hrun in Hr. destruct Hr as ([_ _ T] & Hs & _).
  rewrite Hnone, Hs, Hs0 in T. by apply tiled_empty.
Qed.

Lemma segment_coalesces_witness :
  let ops := [SegAllocate 100 64; SegAllocate 100 64; SegAllocate 100 64; SegReset 1; SegReset 0; SegReset 2] in
  g_free (run_seg ops ((Init 4096 4096 (Some 65536) new_segment).2, [])).1 = [(0, 4096)].
Proof.
  intros ops. pose proof (segment_coalesces 4096 4096 (Some 65536) ops) as H.
  eapply (H _ (run_seg ops ((Init 4096 4096 (Some 65536) new_segment).2, [])).2).
  - lia.
  - intros base [= <-]. unfold UINT64_MAX. repeat split; lia.
  - repeat constructor; simpl; lia.
  - reflexivity.
  - vm_compute. reflexivity.
  - vm_compute. reflexivity.
Defined.

(** A parsed value that cannot be aligned does not fall back: "-1", which
    [strtoull] reads as the largest [size_t], makes the result 0 though the
    fallback alone gives a segment. *)
Lemma resolve_unalignable_is_zero :
  ResolveRecvSegmentBytes (Some [45; 49]) 1048576 4096 = 0 ∧
  ResolveRecvSegmentBytes None 1048576 4096 = 1048576.
Proof. split; vm_compute; reflexivity. Qed.
