(* ===== verification/RecvPool.v ===== *)
(** * The pool of receive segments

    [RecvSegmentPool] of src/transport/rdma_recv_segment.{h,cc}: the chunks the
    RDMA server carves its receive slots and staging buffers from.  A chunk is
    a [RecvSegment] with the address it was allocated at (the identity leases
    refer to it by); the address of a new chunk, [posix_memalign] and the clock
    are arguments of the operations.  [Lease::Reset] returns its range and
    notifies the pool in two steps that other operations may come between. *)

From S2P Require Import Prelude RecvSegment.

(** ** State *)

Inductive LeaseClass := kConnection | kStaging.

#[export] Instance LeaseClass_eq_dec : EqDecision LeaseClass.
Proof. solve_decision. Defined.

Record Chunk := mkChunk {
  c_addr : Z;
  c_segment : RecvSegment;
  c_affinity : Z;
  c_staging_only : bool;
  c_empty_since_ms : Z;
}.

Record RecvSegmentPool := mkPool {
  p_chunk_bytes : Z;
  p_max_bytes : Z;
  p_staging_reserve_bytes : Z;
  p_alignment : Z;
  p_chunks : list Chunk;
  p_growths : Z;
  p_shrinks : Z;
  p_released_bytes : Z;
  p_allocation_failures : Z;
  p_growth_failures : Z;
}.

Definition new_pool : RecvSegmentPool := mkPool 0 0 0 0 [] 0 0 0 0 0.

Definition set_segment (g : RecvSegment) (c : Chunk) : Chunk :=
  mkChunk (c_addr c) g (c_affinity c) (c_staging_only c) (c_empty_since_ms c).
Definition set_empty_since (t : Z) (c : Chunk) : Chunk :=
  mkChunk (c_addr c) (c_segment c) (c_affinity c) (c_staging_only c) t.
Definition set_chunks (cs : list Chunk) (p : RecvSegmentPool) : RecvSegmentPool :=
  mkPool (p_chunk_bytes p) (p_max_bytes p) (p_staging_reserve_bytes p) (p_alignment p) cs
    (p_growths p) (p_shrinks p) (p_released_bytes p) (p_allocation_failures p) (p_growth_failures p).

(** [segment_] is the address of the owning chunk's segment. *)
Record PoolLease := mkPoolLease { pl_lease : Lease; pl_segment : option Z }.

Definition no_pool_lease : PoolLease := mkPoolLease no_lease None.

(** ** Operations *)

Definition used_bytes (c : Chunk) : Z := ss_used_bytes (stats (c_segment c)).

Definition PoolInit (chunk_bytes max_bytes alignment staging_reserve_bytes addr : Z)
    (memalign : Z → Z → option Z) (p : RecvSegmentPool) : bool * RecvSegmentPool :=
  if negb (IsPowerOfTwo alignment) || (alignment <? 8) || (chunk_bytes =? 0) || (max_bytes =? 0)
  then (false, p)
  else
    let aligned_chunk := AlignUpChecked chunk_bytes alignment in
    let aligned_max := AlignUpChecked max_bytes alignment in
    let aligned_reserve := if staging_reserve_bytes =? 0 then 0
                           else AlignUpChecked staging_reserve_bytes alignment in
    if (aligned_chunk =? SIZE_MAX) || (aligned_max =? SIZE_MAX) || (aligned_reserve =? SIZE_MAX)
       || (aligned_max <? aligned_chunk)
       || (negb (aligned_reserve =? 0)
           && (negb (aligned_reserve =? aligned_chunk) || (aligned_reserve =? aligned_max)))
    then (false, p)
    else
      match p_chunks p with
      | _ :: _ => ((p_chunk_bytes p =? aligned_chunk) && (p_max_bytes p =? aligned_max)
                   && (p_alignment p =? alignment) && (p_staging_reserve_bytes p =? aligned_reserve), p)
      | [] =>
          let '(ok, g) := Init aligned_chunk alignment (memalign aligned_chunk alignment) new_segment in
          let set c m r a cs := mkPool c m r a cs (p_growths p) (p_shrinks p) (p_released_bytes p)
                                  (p_allocation_failures p) (p_growth_failures p) in
          if ok : bool
          then (true, set aligned_chunk aligned_max aligned_reserve alignment
                        [mkChunk addr g (-1) (negb (aligned_reserve =? 0)) 0])
          else (false, set 0 0 0 0 [])
      end.

Definition NewChunk (minimum_bytes affinity addr : Z) (memalign : Z → Z → option Z) (p : RecvSegmentPool)
    : option Chunk :=
  let aligned_min := AlignUpChecked minimum_bytes (p_alignment p) in
  if aligned_min =? SIZE_MAX then None
  else
    let committed := sumZ (λ c, g_size (c_segment c)) (p_chunks p) in
    if (p_max_bytes p <=? committed) || (p_max_bytes p - committed <? aligned_min) then None
    else
      let bytes := Z.min (Z.max (p_chunk_bytes p) aligned_min) (p_max_bytes p - committed) in
      let '(ok, g) := Init bytes (p_alignment p) (memalign bytes (p_alignment p)) new_segment in
      if ok : bool then Some (mkChunk addr g affinity false 0) else None.

(** The lambda of [Allocate]: the lease of the first matching chunk that has
    room, and the chunks (failed attempts are counted by their segments). *)
Fixpoint try_chunks (bytes alignment wanted_affinity : Z) (staging_only : bool) (cs : list Chunk)
    : option PoolLease * list Chunk :=
  match cs with
  | [] => (None, [])
  | c :: cs =>
      if negb (c_affinity c =? wanted_affinity) || negb (Bool.eqb (c_staging_only c) staging_only)
      then let '(r, cs) := try_chunks bytes alignment wanted_affinity staging_only cs in (r, c :: cs)
      else
        match Allocate bytes alignment (c_segment c) with
        | (Some r, g) =>
            (Some (mkPoolLease (lease_of (Some r)) (Some (c_addr c))),
             set_empty_since 0 (set_segment g c) :: cs)
        | (None, g) =>
            let '(r, cs) := try_chunks bytes alignment wanted_affinity staging_only cs in
            (r, set_segment g c :: cs)
        end
  end.

Definition PoolAllocate (bytes alignment affinity : Z) (lease_class : LeaseClass) (addr : Z)
    (memalign : Z → Z → option Z) (p : RecvSegmentPool) : PoolLease * RecvSegmentPool :=
  if (bytes =? 0) || negb (IsPowerOfTwo alignment) then (no_pool_lease, p)
  else
    let '(r, cs) :=
      if bool_decide (lease_class = kStaging) && negb (p_staging_reserve_bytes p =? 0)
      then try_chunks bytes alignment (-1) true (p_chunks p) else (None, p_chunks p) in
    let p := set_chunks cs p in
    match r with
    | Some l => (l, p)
    | None =>
        let '(r, cs) := if 0 <=? affinity then try_chunks bytes alignment affinity false (p_chunks p)
                        else (None, p_chunks p) in
        let p := set_chunks cs p in
        match r with
        | Some l => (l, p)
        | None =>
            let '(r, cs) := try_chunks bytes alignment (-1) false (p_chunks p) in
            let p := set_chunks cs p in
            match r with
            | Some l => (l, p)
            | None =>
                match NewChunk bytes affinity addr memalign p with
                | None =>
                    (no_pool_lease,
                     mkPool (p_chunk_bytes p) (p_max_bytes p) (p_staging_reserve_bytes p) (p_alignment p)
                       (p_chunks p) (p_growths p) (p_shrinks p) (p_released_bytes p)
                       (p_allocation_failures p + 1) (p_growth_failures p + 1))
                | Some c =>
                    let '(r, g) := Allocate bytes alignment (c_segment c) in
                    let grown := λ fails,
                      mkPool (p_chunk_bytes p) (p_max_bytes p) (p_staging_reserve_bytes p) (p_alignment p)
                        (p_chunks p ++ [set_segment g c]) (p_growths p + 1) (p_shrinks p)
                        (p_released_bytes p) fails (p_growth_failures p) in
                    match r with
                    | None => (no_pool_lease, grown (p_allocation_failures p + 1))
                    | Some _ => (mkPoolLease (lease_of r) (Some (c_addr c)), grown (p_allocation_failures p))
                    end
                end
            end
        end
    end.

(** [lease_.Reset()] inside the owning chunk. *)
Fixpoint release_in (addr : Z) (l : Lease) (cs : list Chunk) : list Chunk :=
  match cs with
  | [] => []
  | c :: cs => if c_addr c =? addr then set_segment (Reset l (c_segment c)).2 c :: cs
               else c :: release_in addr l cs
  end.

(** The first half of [Lease::Reset]: the range returns to its segment and the
    lease forgets its owner; the result names the segment to notify about. *)
Definition ResetLease (l : PoolLease) (p : RecvSegmentPool) : option Z * PoolLease * RecvSegmentPool :=
  match pl_segment l with
  | Some addr => (Some addr, no_pool_lease, set_chunks (release_in addr (pl_lease l) (p_chunks p)) p)
  | None => (None, no_pool_lease, p)
  end.

Fixpoint note_release (segment now : Z) (cs : list Chunk) : list Chunk :=
  match cs with
  | [] => []
  | c :: cs =>
      if negb (c_addr c =? segment) then c :: note_release segment now cs
      else (if used_bytes c =? 0 then set_empty_since now c else c) :: cs
  end.

Definition NoteRelease (segment now : Z) (p : RecvSegmentPool) : RecvSegmentPool :=
  set_chunks (note_release segment now (p_chunks p)) p.

(** One turn of the loop of [TrimIdle]: [None] when the chunk is erased.  The
    clock difference is an unsigned 64-bit one. *)
Definition trim_chunk (now idle_ms : Z) (c : Chunk) : option Chunk :=
  if negb (used_bytes c =? 0) then Some (set_empty_since 0 c)
  else if c_empty_since_ms c =? 0 then Some (set_empty_since now c)
  else if u64 (now - c_empty_since_ms c) <? idle_ms then Some c
  else None.

(** [now] is read before the lock is taken. *)
Definition TrimIdle (idle_ms now : Z) (p : RecvSegmentPool) : Z * RecvSegmentPool :=
  if idle_ms =? 0 then (0, p)
  else
    match p_chunks p with
    | [] => (0, p)
    | initial :: cs =>
        let released := sumZ (λ c, if trim_chunk now idle_ms c then 0 else g_size (c_segment c)) cs in
        let p := set_chunks (initial :: omap (trim_chunk now idle_ms) cs) p in
        (released,
         if released =? 0 then p
         else mkPool (p_chunk_bytes p) (p_max_bytes p) (p_staging_reserve_bytes p) (p_alignment p)
                (p_chunks p) (p_growths p) (p_shrinks p + 1) (p_released_bytes p + released)
                (p_allocation_failures p) (p_growth_failures p))
    end.

Definition initial_segment (p : RecvSegmentPool) : option Z := c_addr <$> head (p_chunks p).

Record PoolStats := mkPoolStats {
  ps_max_bytes : Z; ps_committed_bytes : Z; ps_used_bytes : Z; ps_free_bytes : Z;
  ps_largest_free_range : Z; ps_connection_free_bytes : Z; ps_connection_largest_free_range : Z;
  ps_staging_reserved_bytes : Z; ps_staging_reserved_free_bytes : Z; ps_chunks : Z;
  ps_growths : Z; ps_shrinks : Z; ps_released_bytes : Z; ps_allocation_failures : Z;
  ps_growth_failures : Z;
}.

Definition pool_stats (p : RecvSegmentPool) : PoolStats :=
  let st c := stats (c_segment c) in
  let sum f := sumZ (λ c, f (st c)) in
  let largest := foldl (λ m c, Z.max m (ss_largest_free_range (st c))) 0 in
  let staging := filter (λ c, c_staging_only c = true) (p_chunks p) in
  let connection := filter (λ c, c_staging_only c = false) (p_chunks p) in
  mkPoolStats (p_max_bytes p) (sum ss_total_bytes (p_chunks p)) (sum ss_used_bytes (p_chunks p))
    (sum ss_free_bytes (p_chunks p)) (largest (p_chunks p)) (sum ss_free_bytes connection)
    (largest connection) (sum ss_total_bytes staging) (sum ss_free_bytes staging)
    (Z.of_nat (length (p_chunks p))) (p_growths p) (p_shrinks p) (p_released_bytes p)
    (p_allocation_failures p) (p_growth_failures p).

(** ** The invariant *)

Notation held_leases := (list (LeaseClass * PoolLease)).

(** The ranges of the leases held in the segment at [addr]. *)
Definition ranges_at (hs : held_leases) (addr : Z) : ranges :=
  omap (λ h, if l_owned (pl_lease h.2) && bool_decide (pl_segment h.2 = Some addr)
             then Some (l_offset (pl_lease h.2), l_size (pl_lease h.2)) else None) hs.

Definition chunk_ok (R : Z → ranges) (c : Chunk) : Prop :=
  g_data (c_segment c) ≠ None ∧ seg_ok (c_segment c) (R (c_addr c)).

Definition committed (cs : list Chunk) : Z := sumZ (λ c, g_size (c_segment c)) cs.

(** What allocation and release leave alone in a chunk. *)
Definition shape (c : Chunk) : Z * Z * bool * option Z :=
  (c_addr c, g_size (c_segment c), c_staging_only c, g_data (c_segment c)).

(** The memory of a chunk, and of a lease in it. *)
Definition block (c : Chunk) : Z * Z := (default 0 (g_data (c_segment c)), g_size (c_segment c)).
Definition lease_memory (c : Chunk) (l : PoolLease) : Z * Z :=
  ((block c).1 + l_offset (pl_lease l), l_size (pl_lease l)).

Definition lease_ok (cs : list Chunk) (h : LeaseClass * PoolLease) : Prop :=
  l_owned (pl_lease h.2) = true →
  ∃ c, c ∈ cs ∧ pl_segment h.2 = Some (c_addr c) ∧ (h.1 = kConnection → c_staging_only c = false).

Record pool_ok (p : RecvSegmentPool) (hs : held_leases) : Prop := {
  po_addrs : NoDup (c_addr <$> p_chunks p);
  po_chunks : Forall (chunk_ok (ranges_at hs)) (p_chunks p);
  po_leases : Forall (lease_ok (p_chunks p)) hs;
  po_committed : committed (p_chunks p) <= p_max_bytes p;
  po_bytes : 0 <= p_chunk_bytes p;
  po_apart : List.ForallOrdPairs disj (block <$> p_chunks p);
}.

(** ** Steps of the pool and of the holders of its leases *)

(** A block of [posix_memalign] is aligned and shares no byte with a [live] one. *)
Definition memalign_spec (live : list (Z * Z)) (memalign : Z → Z → option Z) : Prop :=
  ∀ bytes alignment, memalign_ok bytes alignment (memalign bytes alignment) ∧
    ∀ base, memalign bytes alignment = Some base → Forall (λ r, disj r (base, bytes)) live.

Inductive pool_step : RecvSegmentPool * held_leases → RecvSegmentPool * held_leases → Prop :=
  | step_allocate bytes alignment affinity lease_class addr memalign p hs l p' :
      0 <= bytes → 0 <= alignment < 2 ^ 64 → memalign_spec (block <$> p_chunks p) memalign →
      addr ∉ c_addr <$> p_chunks p →
      PoolAllocate bytes alignment affinity lease_class addr memalign p = (l, p') →
      pool_step (p, hs) (p', hs ++ [(lease_class, l)])
  | step_reset i k l seg l' p p' hs :
      hs !! i = Some (k, l) → ResetLease l p = (seg, l', p') →
      pool_step (p, hs) (p', <[i := (k, l')]> hs)
  | step_note segment now p hs : pool_step (p, hs) (NoteRelease segment now p, hs)
  | step_trim idle_ms now released p p' hs :
      TrimIdle idle_ms now p = (released, p') → pool_step (p, hs) (p', hs).

(** ** Lemmas *)

Lemma seg_ok_perm g L L' : g_data g ≠ None → L ≡ₚ L' → seg_ok g L → seg_ok g L'.
Proof. intros Hd Hp [S1 S2 S3]. split; [done|done|by eapply tiled_perm]. Qed.

Lemma ranges_at_app h1 h2 addr : ranges_at (h1 ++ h2) addr = ranges_at h1 addr ++ ranges_at h2 addr.
Proof. apply omap_app. Qed.

Lemma committed_shape (cs cs' : list Chunk) : shape <$> cs = shape <$> cs' → committed cs = committed cs'.
Proof.
  revert cs'. induction cs as [|c cs IH]; intros [|c' cs']; try done. simpl. intros [= _ E _ _ H].
  rewrite E. f_equal. by apply IH.
Qed.

Lemma addrs_shape (cs cs' : list Chunk) : shape <$> cs = shape <$> cs' → c_addr <$> cs = c_addr <$> cs'.
Proof.
  intros H. assert (E : (λ s : Z * Z * bool * option Z, s.1.1.1) <$> (shape <$> cs) = (λ s, s.1.1.1) <$> (shape <$> cs'))
    by by rewrite H.
  by rewrite <- !list_fmap_compose in E.
Qed.

Lemma blocks_shape (cs cs' : list Chunk) : shape <$> cs = shape <$> cs' → block <$> cs = block <$> cs'.
Proof.
  intros H. assert (E : (λ s : Z * Z * bool * option Z, (default 0 s.2, s.1.1.2)) <$> (shape <$> cs) =
    (λ s, (default 0 s.2, s.1.1.2)) <$> (shape <$> cs')) by by rewrite H.
  by rewrite <- !list_fmap_compose in E.
Qed.

(** Pairwise disjoint ranges. *)
Lemma apart_app (rs : list (Z * Z)) r :
  List.ForallOrdPairs disj rs → Forall (λ x, disj x r) rs → List.ForallOrdPairs disj (rs ++ [r]).
Proof.
  induction 1 as [|x rs Hx Hrs IH]; intros Hr; simpl; [by repeat constructor|].
  apply Forall_cons in Hr as [Hxr Hr]. constructor; [|by apply IH]. apply Forall_app. by rewrite Forall_singleton.
Qed.

Lemma apart_sublist (rs rs' : list (Z * Z)) :
  rs `sublist_of` rs' → List.ForallOrdPairs disj rs' → List.ForallOrdPairs disj rs.
Proof.
  induction 1 as [|x rs rs' Hs IH|x rs rs' Hs IH]; intros H; [done| |]; inversion_clear H as [|? ? Hx Hrs];
    [|by apply IH].
  constructor; [|by apply IH]. rewrite Forall_forall in Hx |- *. intros y Hy. apply Hx. by eapply elem_of_sublist.
Qed.

Lemma apart_lookup (rs : list (Z * Z)) i j r r' :
  List.ForallOrdPairs disj rs → rs !! i = Some r → rs !! j = Some r' → i ≠ j → disj r r'.
Proof.
  intros H. revert i j. induction H as [|x rs Hx Hrs IH]; intros i j Hi Hj Hne; [done|].
  rewrite Forall_forall in Hx. destruct i as [|i], j as [|j]; simplify_eq/=.
  - by apply Hx, (list_elem_of_lookup_2 _ j).
  - apply or_comm. by apply Hx, (list_elem_of_lookup_2 _ i).
  - apply (IH i j); [done|done|]. by intros ->.
Qed.

Lemma shape_in (cs cs' : list Chunk) c : shape <$> cs = shape <$> cs' → c ∈ cs → ∃ c', c' ∈ cs' ∧ shape c' = shape c.
Proof.
  intros H Hin. assert (Hs : shape c ∈ shape <$> cs') by (rewrite <- H; by apply list_elem_of_fmap_2).
  apply list_elem_of_fmap in Hs as (c' & ? & ?). by exists c'.
Qed.

Lemma lease_ok_shape (cs cs' : list Chunk) h : shape <$> cs = shape <$> cs' → lease_ok cs h → lease_ok cs' h.
Proof.
  intros H Hl Ho. destruct (Hl Ho) as (c & Hin & Ha & Hk).
  destruct (shape_in cs cs' c H Hin) as (c' & Hin' & [= E1 _ E3 _]). exists c'. by rewrite E1, E3.
Qed.

(** A range added to the segment at [addr]. *)
Definition add_range (addr : Z) (r : Z * Z) (R : Z → ranges) : Z → ranges :=
  λ a, if a =? addr then r :: R a else R a.

Lemma Allocate_chunk bytes a R c :
  chunk_ok R c → 0 < bytes → 0 <= a < 2 ^ 64 → IsPowerOfTwo a = true →
  match Allocate bytes a (c_segment c) with
  | (Some r, g) => chunk_ok (add_range (c_addr c) r R) (set_segment g c) ∧ shape (set_segment g c) = shape c
  | (None, g) => chunk_ok R (set_segment g c) ∧ shape (set_segment g c) = shape c
  end.
Proof.
  intros [Hd Hok] Hn Ha Hp. pose proof (Allocate_spec bytes a _ _ Hok Hn Ha Hp) as H.
  destruct (Allocate bytes a (c_segment c)) as [[[o n]|] g].
  - destruct H as (-> & H & Hs & Hd' & _). unfold chunk_ok, shape, add_range. simpl.
    rewrite Z.eqb_refl, Hd', Hs. done.
  - destruct H as (H & Hs & Hd' & _). unfold chunk_ok, shape. simpl. rewrite Hd', Hs. done.
Qed.

Lemma chunks_other addr r R cs :
  addr ∉ c_addr <$> cs → Forall (chunk_ok R) cs → Forall (chunk_ok (add_range addr r R)) cs.
Proof.
  intros Hn H. rewrite Forall_forall in H |- *. intros c Hc. specialize (H c Hc).
  unfold chunk_ok, add_range. destruct (Z.eqb_spec (c_addr c) addr) as [E|]; [|done].
  destruct Hn. rewrite <- E. by apply list_elem_of_fmap_2.
Qed.

Lemma chunk_other addr r R c : c_addr c ≠ addr → chunk_ok R c → chunk_ok (add_range addr r R) c.
Proof.
  intros Hne Hc. pose proof (chunks_other addr r R [c]) as Ho. rewrite !Forall_singleton in Ho.
  apply Ho; [|done]. by intros ->%list_elem_of_singleton.
Qed.

Lemma try_chunks_spec bytes a aff st R cs :
  Forall (chunk_ok R) cs → NoDup (c_addr <$> cs) → 0 < bytes → 0 <= a < 2 ^ 64 → IsPowerOfTwo a = true →
  let '(r, cs') := try_chunks bytes a aff st cs in
  shape <$> cs' = shape <$> cs ∧
  match r with
  | Some l => ∃ c o n, c ∈ cs ∧ l = mkPoolLease (mkLease true o n) (Some (c_addr c)) ∧
      c_staging_only c = st ∧ Forall (chunk_ok (add_range (c_addr c) (o, n) R)) cs'
  | None => Forall (chunk_ok R) cs'
  end.
Proof.
  intros Hok Hnd Hn Ha Hp. induction Hok as [|c cs Hc Hok IH]; simpl in *; [done|].
  apply NoDup_cons in Hnd as [Hni Hnd]. specialize (IH Hnd).
  destruct (negb (c_affinity c =? aff) || negb (Bool.eqb (c_staging_only c) st)) eqn:Eg.
  - destruct (try_chunks bytes a aff st cs) as [r cs']. destruct IH as [Hs IH]. rewrite !fmap_cons, Hs.
    split; [done|]. destruct r as [l|]; [|by constructor].
    destruct IH as (c' & o & n & Hin & -> & Hst & IH). exists c', o, n.
    split_and!; [by right|done|done|]. constructor; [|done].
    apply chunk_other; [|done]. intros E. apply Hni. rewrite E. by apply list_elem_of_fmap_2.
  - apply orb_false_iff in Eg as [_ Est]. apply negb_false_iff, Bool.eqb_prop in Est.
    pose proof (Allocate_chunk bytes a R c Hc Hn Ha Hp) as Hal.
    destruct (Allocate bytes a (c_segment c)) as [[[o n]|] g]; destruct Hal as [Hal Hsh].
    + split; [by rewrite !fmap_cons; f_equal|]. exists c, o, n. split_and!; [by left|done|done|].
      constructor; [done|]. by apply chunks_other.
    + destruct (try_chunks bytes a aff st cs) as [r cs']. destruct IH as [Hs IH]. rewrite !fmap_cons, Hs, Hsh.
      split; [done|]. destruct r as [l|]; [|by constructor].
      destruct IH as (c' & o & n & Hin & -> & Hst & IH). exists c', o, n.
      split_and!; [by right|done|done|]. constructor; [|done].
      apply chunk_other; [|done]. intros E. apply Hni. simpl in E. rewrite E. by apply list_elem_of_fmap_2.
Qed.

Lemma chunk_ok_ext R R' c : (∀ a, R a ≡ₚ R' a) → chunk_ok R c → chunk_ok R' c.
Proof. intros HR [Hd Hok]. split; [done|]. by eapply seg_ok_perm; [|apply HR|]. Qed.

Lemma chunks_ok_ext R R' cs :
  (∀ a, R a ≡ₚ R' a) → Forall (chunk_ok R) cs → Forall (chunk_ok R') cs.
Proof. intros HR H. eapply Forall_impl; [exact H|]. intros c. by apply chunk_ok_ext. Qed.

Lemma ranges_at_none hs k a : ranges_at (hs ++ [(k, no_pool_lease)]) a = ranges_at hs a.
Proof. rewrite ranges_at_app. apply app_nil_r. Qed.

Lemma ranges_at_new hs k o n addr a :
  add_range addr (o, n) (ranges_at hs) a ≡ₚ
  ranges_at (hs ++ [(k, mkPoolLease (mkLease true o n) (Some addr))]) a.
Proof.
  rewrite ranges_at_app. unfold add_range. simpl. destruct (Z.eqb_spec a addr) as [->|Hne].
  - rewrite bool_decide_true by done. apply Permutation_cons_append.
  - rewrite bool_decide_false by naive_solver. by rewrite app_nil_r.
Qed.

Lemma pool_ok_none p hs k : pool_ok p hs → pool_ok p (hs ++ [(k, no_pool_lease)]).
Proof.
  intros [P1 P2 P3 P4 P5 P6]. split; [done| | |done|done|done].
  - eapply chunks_ok_ext; [|exact P2]. intros a. by rewrite ranges_at_none.
  - apply Forall_app. split; [done|]. by apply Forall_singleton.
Qed.

Lemma pool_ok_chunks p hs cs :
  pool_ok p hs → shape <$> cs = shape <$> p_chunks p → Forall (chunk_ok (ranges_at hs)) cs →
  pool_ok (set_chunks cs p) hs.
Proof.
  intros [P1 P2 P3 P4 P5 P6] Hs Hok.
  split; simpl; [by rewrite (addrs_shape cs _ Hs)|done| | |done|by rewrite (blocks_shape cs _ Hs)].
  - eapply Forall_impl; [exact P3|]. intros h. by apply lease_ok_shape.
  - by rewrite (committed_shape cs _ Hs).
Qed.

Lemma pool_ok_granted p hs cs c k o n :
  pool_ok p hs → shape <$> cs = shape <$> p_chunks p → c ∈ p_chunks p →
  (k = kConnection → c_staging_only c = false) →
  Forall (chunk_ok (add_range (c_addr c) (o, n) (ranges_at hs))) cs →
  pool_ok (set_chunks cs p) (hs ++ [(k, mkPoolLease (mkLease true o n) (Some (c_addr c)))]).
Proof.
  intros [P1 P2 P3 P4 P5 P6] Hs Hin Hk Hok.
  split; simpl; [by rewrite (addrs_shape cs _ Hs)| | | |done|by rewrite (blocks_shape cs _ Hs)].
  - eapply chunks_ok_ext; [|exact Hok]. intros a. apply ranges_at_new.
  - apply Forall_app. split.
    + eapply Forall_impl; [exact P3|]. intros h. by apply lease_ok_shape.
    + apply Forall_singleton. apply (lease_ok_shape (p_chunks p)); [done|]. intros _. by exists c.
  - by rewrite (committed_shape cs _ Hs).
Qed.

(** No lease refers to an address that is not a chunk's. *)
Lemma ranges_at_absent p hs addr :
  Forall (lease_ok (p_chunks p)) hs → addr ∉ c_addr <$> p_chunks p → ranges_at hs addr = [].
Proof.
  intros Hl Hn. induction Hl as [|h hs Hh Hl IH]; [done|].
  change (h :: hs) with ([h] ++ hs). rewrite ranges_at_app, IH, app_nil_r. unfold ranges_at. simpl.
  destruct (l_owned (pl_lease h.2)) eqn:Eo; [|done]. simpl. destruct (Hh Eo) as (c & Hin & Hs & _).
  rewrite bool_decide_false; [done|]. rewrite Hs. intros [= E]. apply Hn. rewrite <- E.
  by apply list_elem_of_fmap_2.
Qed.

Lemma NewChunk_spec bytes aff addr memalign live p c :
  NewChunk bytes aff addr memalign p = Some c → memalign_spec live memalign → 0 <= p_chunk_bytes p →
  committed (p_chunks p) + g_size (c_segment c) <= p_max_bytes p ∧ c_addr c = addr ∧
  c_staging_only c = false ∧ g_data (c_segment c) ≠ None ∧ seg_ok (c_segment c) [] ∧
  Forall (λ r, disj r (block c)) live.
Proof.
  unfold NewChunk. intros Hnew Hm Hc. destruct (_ =? SIZE_MAX); [done|].
  fold (committed (p_chunks p)) in Hnew.
  destruct (Z.leb_spec (p_max_bytes p) (committed (p_chunks p))); [done|]. simpl in Hnew.
  destruct (Z.ltb_spec (p_max_bytes p - committed (p_chunks p)) (AlignUpChecked bytes (p_alignment p)));
    [done|].
  set (n := Z.min _ _) in Hnew.
  assert (Hpos : 0 <= n ∧ committed (p_chunks p) + n <= p_max_bytes p) by (subst n; lia). clearbody n.
  destruct Hpos as [Hpos Hle].
  pose proof (Init_spec n (p_alignment p) (memalign n (p_alignment p)) Hpos (proj1 (Hm _ _))) as Hi.
  destruct (Init n _ _ new_segment) as [[] g] eqn:Ei; [|done]. injection Hnew as <-. simpl.
  destruct Hi as (Hok & Hs & _). destruct (Hs eq_refl) as (-> & ? & Hd).
  destruct (memalign n (p_alignment p)) as [base|] eqn:Em; unfold Init in Ei; simpl in Ei;
    destruct (_ || _) in Ei; simplify_eq.
  split_and!; [lia|done|done|done|done|]. by apply Hm in Em.
Qed.

Lemma pool_ok_grown p hs c cs max :
  pool_ok p hs → c_addr c ∉ c_addr <$> p_chunks p → committed (p_chunks p) + g_size (c_segment c) <= max →
  p_max_bytes p = max → cs = p_chunks p ++ [c] → chunk_ok (λ _, []) c →
  Forall (λ r, disj r (block c)) (block <$> p_chunks p) → pool_ok (set_chunks cs p) hs.
Proof.
  intros [P1 P2 P3 P4 P5 P6] Hn Hle Hmax -> [Hd Hok] Hap.
  split; simpl; [| | | |done|rewrite fmap_app; by apply apart_app].
  - rewrite fmap_app. apply NoDup_app. split_and!; [done| |apply NoDup_singleton].
    by intros a Ha ->%list_elem_of_singleton.
  - apply Forall_app. split; [done|]. apply Forall_singleton. split; [done|].
    by rewrite (ranges_at_absent p hs _ P3 Hn).
  - eapply Forall_impl; [exact P3|]. intros h Hh Ho. destruct (Hh Ho) as (c' & ? & ?).
    exists c'. split; [|done]. apply elem_of_app. by left.
  - unfold committed in *. rewrite sumZ_app. simpl. lia.
Qed.

(** [pool_ok] does not depend on the counters. *)
Lemma pool_ok_counters p q hs :
  pool_ok p hs → p_chunks q = p_chunks p → p_max_bytes q = p_max_bytes p →
  p_chunk_bytes q = p_chunk_bytes p → pool_ok q hs.
Proof. intros [P1 P2 P3 P4 P5 P6] E1 E2 E3. split; by rewrite ?E1, ?E2, ?E3. Qed.

(** One of the scans of [Allocate]. *)
Lemma scan_spec p hs k (b : bool) bytes a aff st :
  pool_ok p hs → 0 < bytes → 0 <= a < 2 ^ 64 → IsPowerOfTwo a = true → (k = kConnection → b = true → st = false) →
  let '(r, cs) := if b then try_chunks bytes a aff st (p_chunks p) else (None, p_chunks p) in
  shape <$> cs = shape <$> p_chunks p ∧
  match r with
  | Some l => pool_ok (set_chunks cs p) (hs ++ [(k, l)])
  | None => pool_ok (set_chunks cs p) hs
  end.
Proof.
  intros Hok Hn Ha Hp Hst. destruct b.
  2:{ split; [done|]. by eapply pool_ok_counters. }
  pose proof (try_chunks_spec bytes a aff st _ _ (po_chunks _ _ Hok) (po_addrs _ _ Hok) Hn Ha Hp) as H.
  destruct (try_chunks bytes a aff st (p_chunks p)) as [[l|] cs]; destruct H as [Hs H];
    (split; [done|]).
  - destruct H as (c & o & n & Hin & -> & Hcs & H). apply pool_ok_granted; try done.
    intros E. rewrite Hcs. by apply Hst.
  - by apply pool_ok_chunks.
Qed.

Lemma PoolAllocate_spec bytes a aff k addr memalign p hs :
  pool_ok p hs → 0 <= bytes → 0 <= a < 2 ^ 64 →
  memalign_spec (block <$> p_chunks p) memalign → addr ∉ c_addr <$> p_chunks p →
  let '(l, p') := PoolAllocate bytes a aff k addr memalign p in
  pool_ok p' (hs ++ [(k, l)]) ∧ (c_addr <$> p_chunks p) `prefix_of` (c_addr <$> p_chunks p') ∧
  p_max_bytes p' = p_max_bytes p.
Proof.
  intros Hok Hb Ha Hm Hn. unfold PoolAllocate.
  destruct (Z.eqb_spec bytes 0) as [|Hb0]; cbn [orb]; [split; [by apply pool_ok_none|done]|].
  destruct (IsPowerOfTwo a) eqn:Hp; cbn [negb]; [|split; [by apply pool_ok_none|done]].
  assert (Hpos : 0 < bytes) by lia.
  pose proof (scan_spec p hs k (bool_decide (k = kStaging) && negb (p_staging_reserve_bytes p =? 0))
                bytes a (-1) true Hok Hpos Ha Hp) as H1.
  destruct (if _ && _ then _ else _) as [[l|] cs1]; destruct H1 as [E1 H1]; [by intros ->|split; [done|]; simpl in *; by rewrite (addrs_shape _ _ E1)|by intros ->|].
  pose proof (scan_spec (set_chunks cs1 p) hs k (0 <=? aff) bytes a aff false H1 Hpos Ha Hp) as H2.
  destruct (if 0 <=? aff then _ else _) as [[l|] cs2]; destruct H2 as [E2 H2];
    [done|split; [done|]; simpl in *; by rewrite (addrs_shape _ _ E2), (addrs_shape _ _ E1)|done|].
  pose proof (scan_spec (set_chunks cs2 (set_chunks cs1 p)) hs k true bytes a (-1) false H2 Hpos Ha Hp) as H3.
  destruct (try_chunks bytes a (-1) false _) as [[l|] cs3]; destruct H3 as [E3 H3];
    [done|split; [done|]; simpl in *; by rewrite (addrs_shape _ _ E3), (addrs_shape _ _ E2), (addrs_shape _ _ E1)|done|].
  set (q := set_chunks cs3 _) in *. assert (Es : shape <$> p_chunks q = shape <$> p_chunks p).
  { simpl in *. by rewrite E3, E2, E1. }
  pose proof (addrs_shape _ _ Es) as Eq. rewrite <- (blocks_shape _ _ Es) in Hm.
  assert (Emax : p_max_bytes q = p_max_bytes p) by done.
  clearbody q. clear E1 H1 E2 H2 E3 cs1 cs2 cs3.
  destruct (NewChunk bytes aff addr memalign q) as [c|] eqn:En.
  2:{ split; [apply pool_ok_none; by eapply pool_ok_counters|]. by rewrite <- Eq. }
  destruct (NewChunk_spec _ _ _ _ (block <$> p_chunks q) _ _ En) as (N1 & N2 & N3 & N4 & N5 & N6); [exact Hm|apply H3|].
  assert (Hq : pool_ok (set_chunks (p_chunks q ++ [c]) q) hs).
  { eapply pool_ok_grown; try done. by rewrite N2, Eq. }
  assert (Hc : chunk_ok (ranges_at hs) c).
  { pose proof (po_chunks _ _ Hq) as [_ Hl]%Forall_app. by inversion Hl. }
  pose proof (Allocate_chunk bytes a _ c Hc Hpos Ha Hp) as Hal.
  destruct (Allocate bytes a (c_segment c)) as [[[o n]|] g]; destruct Hal as [Hal Hsh];
    (split; [|split; [rewrite <- Eq; simpl; rewrite fmap_app; by apply prefix_app_r|done]]).
  - eapply (pool_ok_counters (set_chunks (p_chunks q ++ [set_segment g c]) (set_chunks (p_chunks q ++ [c]) q)));
      [|done..].
    apply pool_ok_granted; [done|simpl; by rewrite !fmap_app; simpl; rewrite Hsh|simpl; set_solver|done|].
    apply Forall_app. split; [|by apply Forall_singleton]. apply chunks_other; [by rewrite N2, Eq|apply H3].
  - apply pool_ok_none.
    eapply (pool_ok_counters (set_chunks (p_chunks q ++ [set_segment g c]) (set_chunks (p_chunks q ++ [c]) q)));
      [|done..].
    apply pool_ok_chunks; [done|simpl; by rewrite !fmap_app; simpl; rewrite Hsh|].
    apply Forall_app. split; [apply H3|by apply Forall_singleton].
Qed.

Lemma ranges_at_insert hs i k l a :
  hs !! i = Some (k, l) →
  ranges_at hs a ≡ₚ ranges_at [(k, l)] a ++ ranges_at (<[i := (k, no_pool_lease)]> hs) a.
Proof.
  intros Hi. rewrite <- (take_drop_middle hs i (k, l) Hi) at 1.
  rewrite insert_take_drop by (by eapply lookup_lt_Some).
  change ((k, l) :: drop (S i) hs) with ([(k, l)] ++ drop (S i) hs).
  change ((k, no_pool_lease) :: drop (S i) hs) with ([(k, no_pool_lease)] ++ drop (S i) hs).
  rewrite !ranges_at_app. simpl. by rewrite Permutation_app_swap_app.
Qed.

(** [Reset] of a lease that owns the segment's range [r]. *)
Lemma release_in_spec addr l R R' cs :
  Forall (chunk_ok R) cs → NoDup (c_addr <$> cs) →
  (∀ a, R a ≡ₚ (if l_owned l && bool_decide (a = addr) then [(l_offset l, l_size l)] else []) ++ R' a) →
  shape <$> release_in addr l cs = shape <$> cs ∧ Forall (chunk_ok R') (release_in addr l cs).
Proof.
  intros Hok Hnd HR. induction Hok as [|c cs [Hd Hc] Hok IH]; simpl; [done|].
  apply NoDup_cons in Hnd as [Hni Hnd]. destruct (IH Hnd) as [IH1 IH2].
  pose proof (HR (c_addr c)) as HRc. destruct (Z.eqb_spec (c_addr c) addr) as [E|Hne].
  - assert (Hrest : Forall (chunk_ok R') cs).
    { rewrite Forall_forall in Hok |- *. intros c' Hin. destruct (Hok c' Hin) as [Hd' Hc']. split; [done|].
      eapply seg_ok_perm; [done| |exact Hc']. rewrite HR, bool_decide_false, andb_false_r; [done|].
      intros E'. apply Hni. rewrite E, <- E'. by apply list_elem_of_fmap_2. }
    rewrite bool_decide_true, andb_true_r in HRc by done. unfold Reset.
    destruct (l_owned l); simpl.
    + assert (Hs : seg_ok (c_segment c) ((l_offset l, l_size l) :: R' (c_addr c))) by (by eapply seg_ok_perm).
      apply Release_spec in Hs as (Hs & Hsz & Hdt). unfold shape at 1 3. simpl. rewrite Hsz, Hdt.
      split; [done|]. constructor; [|done]. split; simpl; [by rewrite Hdt|done].
    + split; [done|]. constructor; [|done]. split; [done|]. by eapply seg_ok_perm.
  - rewrite bool_decide_false, andb_false_r in HRc by done. rewrite !fmap_cons, IH1.
    split; [done|]. constructor; [|done]. split; [done|]. by eapply seg_ok_perm.
Qed.

Lemma ResetLease_spec i k l p hs :
  pool_ok p hs → hs !! i = Some (k, l) →
  let '(_, l', p') := ResetLease l p in pool_ok p' (<[i := (k, l')]> hs) ∧ c_addr <$> p_chunks p' = c_addr <$> p_chunks p.
Proof.
  intros [P1 P2 P3 P4 P5 P6] Hi. assert (Hl : lease_ok (p_chunks p) (k, l)) by (by eapply Forall_lookup_1).
  assert (Hleases : Forall (lease_ok (p_chunks p)) (<[i := (k, no_pool_lease)]> hs)) by (by apply Forall_insert).
  unfold ResetLease. destruct (pl_segment l) as [addr|] eqn:Es.
  - destruct (release_in_spec addr (pl_lease l) _ (ranges_at (<[i := (k, no_pool_lease)]> hs)) _ P2 P1)
      as [Hs Hok].
    { intros a. rewrite (ranges_at_insert hs i k l a Hi) at 1. apply Permutation_app; [|done].
      unfold ranges_at. simpl. rewrite Es. destruct (l_owned (pl_lease l)); [|done]. simpl.
      destruct (decide (a = addr)) as [->|]; [by rewrite !bool_decide_true|].
      by rewrite !bool_decide_false by naive_solver. }
    split; [|by apply addrs_shape].
    split; simpl; [by rewrite (addrs_shape _ _ Hs)|done| |by rewrite (committed_shape _ _ Hs)|done|
                   by rewrite (blocks_shape _ _ Hs)].
    eapply Forall_impl; [exact Hleases|]. intros h. by apply lease_ok_shape.
  - split; [|done]. split; [done| |done|done|done|done]. eapply chunks_ok_ext; [|exact P2]. intros a.
    rewrite (ranges_at_insert hs i k l a Hi) at 1. unfold ranges_at at 1. simpl. rewrite Es.
    by rewrite bool_decide_false, andb_false_r.
Qed.

Lemma note_release_spec segment now R cs :
  Forall (chunk_ok R) cs →
  shape <$> note_release segment now cs = shape <$> cs ∧ Forall (chunk_ok R) (note_release segment now cs).
Proof.
  induction 1 as [|c cs Hc Hok [IH1 IH2]]; simpl; [done|]. destruct (negb _).
  - rewrite !fmap_cons, IH1. split; [done|by constructor].
  - destruct (used_bytes c =? 0); (split; [done|by constructor]).
Qed.

Lemma used_bytes_zero R c : chunk_ok R c → used_bytes c = 0 → R (c_addr c) = [].
Proof.
  intros [_ [_ _ T]] H. unfold used_bytes in H. simpl in H. pose proof (ti_sum _ _ _ T) as Hsum.
  pose proof (ti_leases _ _ _ T) as Hl. destruct Hl as [|r L (_ & Hr & _) Hl]; [done|]. simpl in Hsum.
  assert (0 <= sumZ snd L); [|lia]. apply sumZ_nonneg. rewrite Forall_forall in Hl.
  intros x Hx. destruct (Hl x Hx) as (_ & ? & _). lia.
Qed.

(** What the loop of [TrimIdle] keeps. *)
Lemma trim_chunk_kept now idle c c' :
  trim_chunk now idle c = Some c' → shape c' = shape c ∧ c_segment c' = c_segment c.
Proof. unfold trim_chunk. intros H. repeat case_match; simplify_eq; done. Qed.

Lemma trim_chunk_erased now idle c : trim_chunk now idle c = None → used_bytes c = 0.
Proof. unfold trim_chunk. destruct (Z.eqb_spec (used_bytes c) 0); [done|]. done. Qed.

Lemma trim_chunks_spec now idle R cs :
  Forall (chunk_ok R) cs → NoDup (c_addr <$> cs) →
  let cs' := omap (trim_chunk now idle) cs in
  Forall (chunk_ok R) cs' ∧ NoDup (c_addr <$> cs') ∧ committed cs' <= committed cs ∧
  (∀ a, a ∈ c_addr <$> cs' → a ∈ c_addr <$> cs) ∧
  (∀ c, c ∈ cs → R (c_addr c) ≠ [] → ∃ c', c' ∈ cs' ∧ shape c' = shape c).
Proof.
  induction 1 as [|c cs Hc Hok IH]; intros Hnd; simpl; [split_and!; set_solver|].
  apply NoDup_cons in Hnd as [Hni Hnd]. destruct (IH Hnd) as (I1 & I2 & I3 & I4 & I5).
  destruct (trim_chunk now idle c) as [c'|] eqn:Et; simpl.
  - apply trim_chunk_kept in Et as [Hs Hseg]. pose proof Hs as [= Ea _ _ _].
    split_and!.
    + constructor; [|done]. unfold chunk_ok. by rewrite Hseg, Ea.
    + apply NoDup_cons. split; [|done]. rewrite Ea. intros ?%I4. done.
    + unfold committed in *. simpl in *. rewrite Hseg. by apply Zplus_le_compat_l.
    + intros a [->|?]%elem_of_cons; [rewrite Ea; by left|right; by apply I4].
    + intros d [->|Hd]%elem_of_cons Hr; [exists c'; split; [by left|done]|].
      destruct (I5 d Hd Hr) as (d' & ? & ?). exists d'. split; [by right|done].
  - apply trim_chunk_erased in Et. pose proof (used_bytes_zero R c Hc Et) as Hnil.
    split_and!; [done|done| |intros a ?; right; by apply I4|].
    + destruct Hc as [_ [_ _ T]]. assert (0 <= g_size (c_segment c)); [|unfold committed in *; simpl; etrans; [exact I3|]; lia].
      rewrite <- (ti_sum _ _ _ T), Hnil. simpl. rewrite Z.add_0_r. apply sumZ_nonneg. intros x Hx.
      pose proof (ti_free _ _ _ T) as Hf. rewrite Forall_forall in Hf. destruct (Hf x Hx) as (_ & ? & _). lia.
    + intros d [->|Hd]%elem_of_cons Hr; [done|by apply I5].
Qed.

Lemma trimmed_blocks now idle cs : block <$> omap (trim_chunk now idle) cs `sublist_of` block <$> cs.
Proof.
  induction cs as [|c cs IH]; [done|]. simpl. destruct (trim_chunk now idle c) as [c'|] eqn:Et; [|by apply sublist_cons].
  apply trim_chunk_kept in Et as [_ Hseg]. rewrite !fmap_cons. unfold block at 1 3. rewrite Hseg. by apply sublist_skip.
Qed.

Lemma TrimIdle_spec idle now p hs :
  pool_ok p hs → let '(_, p') := TrimIdle idle now p in pool_ok p' hs ∧ initial_segment p' = initial_segment p.
Proof.
  intros Hok. pose proof Hok as [P1 P2 P3 P4 P5 P6]. unfold TrimIdle. destruct (idle =? 0); [done|].
  unfold initial_segment. destruct (p_chunks p) as [|c cs] eqn:Ecs; [by rewrite Ecs|].
  assert (Ht : pool_ok (set_chunks (c :: omap (trim_chunk now idle) cs) p) hs).
  { apply NoDup_cons in P1 as [Hni Hnd]. apply Forall_cons in P2 as [Hc Hcs].
    destruct (trim_chunks_spec now idle _ cs Hcs Hnd) as (T1 & T2 & T3 & T4 & T5).
    split; simpl; [| | | |done|eapply apart_sublist, P6; by apply sublist_skip, trimmed_blocks].
    - apply NoDup_cons. split; [|done]. intros ?%T4. done.
    - by constructor.
    - rewrite Forall_forall in P3 |- *. intros h Hh Ho. destruct (P3 h Hh Ho) as (d & Hd & Hseg & Hk).
      apply elem_of_cons in Hd as [->|Hd]; [exists c; split; [by left|done]|].
      destruct (T5 d Hd) as (d' & Hd' & [= E1 _ E3 _]).
      + intros Hnil. assert (Hin : (l_offset (pl_lease h.2), l_size (pl_lease h.2)) ∈ ranges_at hs (c_addr d)).
        { apply list_elem_of_omap. exists h. split; [done|]. by rewrite Ho, Hseg, bool_decide_true. }
        rewrite Hnil in Hin. by apply elem_of_nil in Hin.
      + exists d'. split; [by right|]. by rewrite E1, E3.
    - simpl in P4. unfold committed in *. simpl in *. lia. }
  destruct (_ =? 0); (split; [|done]); [done|]. by eapply pool_ok_counters.
Qed.

Lemma pool_step_ok st st' : pool_step st st' → pool_ok st.1 st.2 → pool_ok st'.1 st'.2.
Proof.
  destruct 1 as [bytes a aff k addr ml p hs l p' Hb Ha Hm Hn Hal|i k l seg l' p p' hs Hi Hr|seg now p hs|
                 idle now rel p p' hs Ht]; simpl; intros Hok.
  - pose proof (PoolAllocate_spec bytes a aff k addr ml p hs Hok Hb Ha Hm Hn) as H. rewrite Hal in H. apply H.
  - pose proof (ResetLease_spec i k l p hs Hok Hi) as H. rewrite Hr in H. apply H.
  - destruct (note_release_spec seg now _ _ (po_chunks _ _ Hok)). by apply pool_ok_chunks.
  - pose proof (TrimIdle_spec idle now p hs Hok) as H. rewrite Ht in H. apply H.
Qed.

Lemma initial_segment_addrs p : initial_segment p = head (c_addr <$> p_chunks p).
Proof. unfold initial_segment. by destruct (p_chunks p). Qed.

Lemma pool_step_keeps st st' a :
  pool_step st st' → pool_ok st.1 st.2 → initial_segment st.1 = Some a →
  initial_segment st'.1 = Some a ∧ p_max_bytes st'.1 = p_max_bytes st.1.
Proof.
  destruct 1 as [bytes al aff k addr ml p hs l p' Hb Ha Hm Hn Hal|i k l seg l' p p' hs Hi Hr|seg now p hs|
                 idle now rel p p' hs Ht]; simpl; intros Hok.
  - pose proof (PoolAllocate_spec bytes al aff k addr ml p hs Hok Hb Ha Hm Hn) as H. rewrite Hal in H.
    destruct H as (_ & [cs Hpre] & Hmax). rewrite !initial_segment_addrs, Hpre.
    destruct (c_addr <$> p_chunks p); by intros [= ->].
  - pose proof (ResetLease_spec i k l p hs Hok Hi) as H. rewrite Hr in H. destruct H as [_ H].
    rewrite !initial_segment_addrs, H. intros ->. split; [done|].
    unfold ResetLease in Hr. by destruct (pl_segment l); simplify_eq.
  - destruct (note_release_spec seg now _ _ (po_chunks _ _ Hok)) as [Hs _].
    rewrite !initial_segment_addrs. simpl. by rewrite (addrs_shape _ _ Hs).
  - pose proof (TrimIdle_spec idle now p hs Hok) as H. rewrite Ht in H. destruct H as [_ ->].
    intros ->. split; [done|]. unfold TrimIdle in Ht. repeat case_match; simplify_eq; done.
Qed.

Lemma pool_run_ok st st' a :
  rtc pool_step st st' → pool_ok st.1 st.2 → initial_segment st.1 = Some a →
  pool_ok st'.1 st'.2 ∧ initial_segment st'.1 = Some a ∧ p_max_bytes st'.1 = p_max_bytes st.1.
Proof.
  induction 1 as [|x y z Hxy _ IH]; intros Hok Hi; [done|].
  destruct (pool_step_keeps x y a Hxy Hok Hi) as [Hi' <-]. apply IH; [by eapply pool_step_ok|done].
Qed.

Lemma PoolInit_spec cb mb al sr addr memalign p :
  0 <= cb → 0 <= mb → 0 <= sr → 0 <= al < 2 ^ 64 → memalign_spec [] memalign →
  PoolInit cb mb al sr addr memalign new_pool = (true, p) →
  pool_ok p [] ∧ initial_segment p = Some addr ∧ p_max_bytes p = AlignUpChecked mb al ∧
  mb <= p_max_bytes p < mb + al.
Proof.
  intros Hc Hmx Hsr Ha Hm. unfold PoolInit. destruct (IsPowerOfTwo al) eqn:Hp; cbn [negb orb]; [|done].
  destruct (_ || _); [done|]. cbn zeta.
  destruct (Z.eqb_spec (AlignUpChecked cb al) SIZE_MAX) as [|E1]; cbn [orb]; [done|].
  destruct (Z.eqb_spec (AlignUpChecked mb al) SIZE_MAX) as [|E2]; cbn [orb]; [done|].
  destruct (align_checked cb al Hc Ha Hp E1) as ([C1 _] & _). destruct (align_checked mb al Hmx Ha Hp E2) as (M1 & _).
  destruct ((if sr =? 0 then 0 else _) =? SIZE_MAX); cbn [orb]; [done|].
  destruct (Z.ltb_spec (AlignUpChecked mb al) (AlignUpChecked cb al)) as [|Hle]; cbn [orb]; [done|].
  destruct (_ && _); [done|]. simpl p_chunks. cbn iota.
  set (n := AlignUpChecked cb al) in *. assert (Hpos : 0 <= n) by lia.
  pose proof (Init_spec n al (memalign n al) Hpos (proj1 (Hm _ _))) as Hi.
  destruct (Init n al (memalign n al) new_segment) as [[] g] eqn:Ei; [|done].
  destruct Hi as (Hok & Hs & _). destruct (Hs eq_refl) as (Hsz & Hn & Hd). intros [= <-].
  split; [|split; [done|split; [done|done]]]. split; simpl.
  - apply NoDup_singleton.
  - apply Forall_singleton. split; [|done]. simpl. intros Hnone. apply (sg_none _ _ Hok) in Hnone as [-> _].
    simpl in Hsz. lia.
  - constructor.
  - unfold committed. simpl. lia.
  - done.
  - by repeat constructor.
Qed.

(** When a chunk is erased.  The clock is read before the lock is taken, so a
    release noted in between leaves a later time stamp, and the unsigned
    difference wraps. *)
Lemma trim_chunk_exact idle_ms now c :
  0 <= c_empty_since_ms c <= UINT64_MAX → 0 <= now <= UINT64_MAX →
  trim_chunk now idle_ms c = None ↔
  used_bytes c = 0 ∧ c_empty_since_ms c ≠ 0 ∧
  (c_empty_since_ms c <= now ∧ idle_ms <= now - c_empty_since_ms c ∨
   now < c_empty_since_ms c ∧ idle_ms <= 2 ^ 64 - (c_empty_since_ms c - now)).
Proof.
  intros Hc Hn. unfold trim_chunk, u64, UINT64_MAX in *.
  destruct (Z.eqb_spec (used_bytes c) 0); cbn [negb]; [|naive_solver].
  destruct (Z.eqb_spec (c_empty_since_ms c) 0); [naive_solver|].
  assert (Hd : (now - c_empty_since_ms c) mod 2 ^ 64 =
    if c_empty_since_ms c <=? now then now - c_empty_since_ms c else now - c_empty_since_ms c + 1 * 2 ^ 64).
  { destruct (Z.leb_spec (c_empty_since_ms c) now); [by rewrite Z.mod_small by lia|].
    by rewrite <- (Z.mod_add _ 1 (2 ^ 64)), Z.mod_small by lia. }
  rewrite Hd. destruct (Z.leb_spec (c_empty_since_ms c) now);
    destruct (Z.ltb_spec (now - c_empty_since_ms c) idle_ms);
    destruct (Z.ltb_spec (now - c_empty_since_ms c + 1 * 2 ^ 64) idle_ms); split; (done || lia || naive_solver lia).
Qed.

Lemma trimmed_addrs now idle cs c :
  NoDup (c_addr <$> cs) → c ∈ cs →
  c_addr c ∈ c_addr <$> omap (trim_chunk now idle) cs ↔ trim_chunk now idle c ≠ None.
Proof.
  intros Hnd Hin. rewrite list_elem_of_fmap. split.
  - intros (d & Ha & (c' & Hc' & Ht)%list_elem_of_omap) Hnone.
    pose proof (trim_chunk_kept _ _ _ _ Ht) as [[= E _ _ _] _]. rewrite E in Ha.
    apply list_elem_of_lookup in Hin as [i Hi], Hc' as [j Hj].
    assert (i = j) as <-; [|by simplify_eq].
    eapply NoDup_lookup; [exact Hnd|by rewrite list_lookup_fmap, Hi|by rewrite list_lookup_fmap, Hj; simpl; rewrite Ha].
  - intros Hs. destruct (trim_chunk now idle c) as [d|] eqn:Ht; [|done]. exists d.
    pose proof (trim_chunk_kept _ _ _ _ Ht) as [[= E _ _ _] _]. split; [done|].
    apply list_elem_of_omap. by exists c.
Qed.

Lemma trimmed_bytes now idle cs :
  sumZ (λ c, if trim_chunk now idle c then 0 else g_size (c_segment c)) cs =
  committed cs - committed (omap (trim_chunk now idle) cs).
Proof.
  unfold committed. induction cs as [|c cs IH]; [done|]. cbn [sumZ omap list_omap].
  simpl. destruct (trim_chunk now idle c) as [d|] eqn:Ht; simpl.
  - apply trim_chunk_kept in Ht as [_ ->]. etrans; [exact IH|]. unfold omap. lia.
  - etrans; [apply Z.add_cancel_l; exact IH|]. unfold omap. lia.
Qed.

(** ** Leases in a well-formed pool *)

Lemma same_chunk p hs c c' :
  pool_ok p hs → c ∈ p_chunks p → c' ∈ p_chunks p → c_addr c = c_addr c' → c = c'.
Proof.
  intros Hok [i Hi]%list_elem_of_lookup [j Hj]%list_elem_of_lookup E.
  assert (i = j) as <-; [|by simplify_eq].
  eapply NoDup_lookup; [exact (po_addrs _ _ Hok)|by rewrite list_lookup_fmap, Hi|].
  rewrite list_lookup_fmap, Hj. simpl. by rewrite E.
Qed.

Lemma blocks_apart p hs c c' :
  pool_ok p hs → c ∈ p_chunks p → c' ∈ p_chunks p → c_addr c ≠ c_addr c' → disj (block c) (block c').
Proof.
  intros Hok [i Hi]%list_elem_of_lookup [j Hj]%list_elem_of_lookup E.
  eapply (apart_lookup _ i j); [exact (po_apart _ _ Hok)|by rewrite list_lookup_fmap, Hi|
    by rewrite list_lookup_fmap, Hj|]. intros <-. by simplify_eq.
Qed.

Lemma lease_range p hs k l c :
  pool_ok p hs → (k, l) ∈ hs → l_owned (pl_lease l) = true → c ∈ p_chunks p → pl_segment l = Some (c_addr c) →
  range_ok (g_size (c_segment c)) (l_offset (pl_lease l), l_size (pl_lease l)).
Proof.
  intros Hok Hin Ho Hc Hseg. pose proof (po_chunks _ _ Hok) as P2. rewrite Forall_forall in P2.
  destruct (P2 c Hc) as [_ [_ _ T]]. pose proof (ti_leases _ _ _ T) as Hl. rewrite Forall_forall in Hl.
  apply Hl. apply list_elem_of_omap. exists (k, l). split; [done|]. simpl in *. by rewrite Ho, Hseg, bool_decide_true.
Qed.

Lemma lease_in_chunk p hs k l :
  pool_ok p hs → (k, l) ∈ hs → l_owned (pl_lease l) = true →
  ∃ c, c ∈ p_chunks p ∧ pl_segment l = Some (c_addr c) ∧
    range_ok (g_size (c_segment c)) (l_offset (pl_lease l), l_size (pl_lease l)) ∧
    (k = kConnection → c_staging_only c = false).
Proof.
  intros Hok Hin Ho. pose proof (po_leases _ _ Hok) as P3. rewrite Forall_forall in P3.
  destruct (P3 _ Hin Ho) as (c & Hc & Hseg & Hk). exists c. split_and!; try done. by eapply lease_range.
Qed.

Lemma leases_apart p hs i j k k' l l' :
  pool_ok p hs → hs !! i = Some (k, l) → hs !! j = Some (k', l') → i ≠ j →
  l_owned (pl_lease l) = true → l_owned (pl_lease l') = true → pl_segment l = pl_segment l' →
  disj (l_offset (pl_lease l), l_size (pl_lease l)) (l_offset (pl_lease l'), l_size (pl_lease l')).
Proof.
  intros Hok Hi Hj Hne Ho Ho' Hseg.
  destruct (lease_in_chunk p hs k l Hok) as (c & Hc & Hsc & _); [by eapply list_elem_of_lookup_2|done|].
  pose proof (po_chunks _ _ Hok) as P2. rewrite Forall_forall in P2. destruct (P2 c Hc) as [_ [_ _ T]].
  set (r := (l_offset (pl_lease l), l_size (pl_lease l))). set (r' := (l_offset (pl_lease l'), l_size (pl_lease l'))).
  assert (Hj' : (<[i := (k, no_pool_lease)]> hs) !! j = Some (k', l')) by (by rewrite list_lookup_insert_ne).
  assert (Hperm : ranges_at hs (c_addr c) ≡ₚ r :: r' ::
    ranges_at (<[j := (k', no_pool_lease)]> (<[i := (k, no_pool_lease)]> hs)) (c_addr c)).
  { rewrite (ranges_at_insert hs i k l _ Hi), (ranges_at_insert _ j k' l' _ Hj').
    unfold ranges_at at 1 2. simpl. rewrite Ho, Ho', <- Hseg, Hsc. by rewrite bool_decide_true. }
  pose proof (tiled_perm _ _ _ _ Hperm T) as T'.
  pose proof (ti_nodup _ _ _ T') as [Hni _]%NoDup_cons.
  apply (ti_apart _ _ _ T'); [by left|right; by left|]. intros E. apply Hni. rewrite E. by left.
Qed.

(** ** Claims *)

(** C26. Whatever the interleaving of allocations, lease resets, release
    notifications and idle trimming: a held lease always lies in a chunk of the
    pool (trimming never frees memory under a lease), inside that chunk's
    segment, two held leases share no byte of a segment nor, whatever segments
    they are in, of memory, and a connection-lifetime lease is never carved from
    the staging reserve.  A new block of [posix_memalign] is assumed to share no
    byte with the live chunks. *)
Theorem pool_leases_safe chunk_bytes max_bytes alignment reserve addr memalign p0 p hs :
  0 <= chunk_bytes → 0 <= max_bytes → 0 <= reserve → 0 <= alignment < 2 ^ 64 → memalign_spec [] memalign →
  PoolInit chunk_bytes max_bytes alignment reserve addr memalign new_pool = (true, p0) →
  rtc pool_step (p0, []) (p, hs) →
  (∀ k l, (k, l) ∈ hs → l_owned (pl_lease l) = true →
     ∃ c, c ∈ p_chunks p ∧ pl_segment l = Some (c_addr c) ∧
       range_ok (g_size (c_segment c)) (l_offset (pl_lease l), l_size (pl_lease l)) ∧
       (k = kConnection → c_staging_only c = false)) ∧
  (∀ i j k k' l l', hs !! i = Some (k, l) → hs !! j = Some (k', l') → i ≠ j →
     l_owned (pl_lease l) = true → l_owned (pl_lease l') = true → pl_segment l = pl_segment l' →
     disj (l_offset (pl_lease l), l_size (pl_lease l)) (l_offset (pl_lease l'), l_size (pl_lease l'))) ∧
  (∀ i j k k' l l' c c', hs !! i = Some (k, l) → hs !! j = Some (k', l') → i ≠ j →
     l_owned (pl_lease l) = true → l_owned (pl_lease l') = true → c ∈ p_chunks p → c' ∈ p_chunks p →
     pl_segment l = Some (c_addr c) → pl_segment l' = Some (c_addr c') →
     disj (lease_memory c l) (lease_memory c' l')).
Proof.
  intros Hc Hmx Hr Ha Hm Hinit Hrun.
  destruct (PoolInit_spec _ _ _ _ _ _ _ Hc Hmx Hr Ha Hm Hinit) as (Hok0 & Hi0 & _).
  destruct (pool_run_ok _ _ _ Hrun Hok0 Hi0) as (Hok & _). simpl in Hok. split_and!.
  - intros k l Hin Ho. destruct (lease_in_chunk p hs k l Hok Hin Ho) as (c & ? & ? & ? & ?). by exists c.
  - intros. by eapply leases_apart.
  - intros i j k k' l l' c c' Hi Hj Hne Ho Ho' Hc1 Hc2 Hs Hs'.
    destruct (decide (c_addr c = c_addr c')) as [E|E].
    + rewrite <- (same_chunk p hs c c' Hok Hc1 Hc2 E).
      pose proof (leases_apart p hs i j k k' l l' Hok Hi Hj Hne Ho Ho' ltac:(congruence)) as Hd.
      unfold disj, lease_memory in *. simpl in *. lia.
    + pose proof (blocks_apart p hs c c' Hok Hc1 Hc2 E) as Hd.
      pose proof (lease_range p hs k l c Hok ltac:(by eapply list_elem_of_lookup_2) Ho Hc1 Hs) as Hl.
      pose proof (lease_range p hs k' l' c' Hok ltac:(by eapply list_elem_of_lookup_2) Ho' Hc2 Hs') as Hl'.
      unfold disj, lease_memory, range_ok, block in *. simpl in *. lia.
Qed.

(** The pool stays within its budget: the committed bytes never exceed the
    configured maximum rounded up to the alignment, and the initial chunk,
    which connections are registered against, is never released. *)
Theorem pool_bounded chunk_bytes max_bytes alignment reserve addr memalign p0 p hs :
  0 <= chunk_bytes → 0 <= max_bytes → 0 <= reserve → 0 <= alignment < 2 ^ 64 → memalign_spec [] memalign →
  PoolInit chunk_bytes max_bytes alignment reserve addr memalign new_pool = (true, p0) →
  rtc pool_step (p0, []) (p, hs) →
  ps_committed_bytes (pool_stats p) <= p_max_bytes p ∧ p_max_bytes p < max_bytes + alignment ∧
  initial_segment p = Some addr.
Proof.
  intros Hc Hmx Hr Ha Hm Hinit Hrun.
  destruct (PoolInit_spec _ _ _ _ _ _ _ Hc Hmx Hr Ha Hm Hinit) as (Hok0 & Hi0 & _ & Hlt).
  destruct (pool_run_ok _ _ _ Hrun Hok0 Hi0) as ([_ _ _ P4 _ _] & Hi & Hmax). simpl in *.
  rewrite Hmax in *. split_and!; [|lia|done]. exact P4.
Qed.

(** C27. [TrimIdle] erases a chunk after the first exactly when no lease lives in
    it and the time since it was first seen empty, as an unsigned 64-bit
    difference, reaches [idle_ms]; the bytes it returns are the ones the pool
    gave up.  Since the clock is read before the lock, a chunk whose last lease
    was noted released in between ([now < c_empty_since_ms]) is erased at once
    although it has not been idle. *)
Theorem trim_idle_exact idle_ms now p hs initial cs c :
  pool_ok p hs → p_chunks p = initial :: cs → c ∈ cs → 0 < idle_ms →
  0 <= c_empty_since_ms c <= UINT64_MAX → 0 <= now <= UINT64_MAX →
  let '(released, p') := TrimIdle idle_ms now p in
  (c_addr c ∉ c_addr <$> p_chunks p' ↔
   used_bytes c = 0 ∧ c_empty_since_ms c ≠ 0 ∧
   (c_empty_since_ms c <= now ∧ idle_ms <= now - c_empty_since_ms c ∨
    now < c_empty_since_ms c ∧ idle_ms <= 2 ^ 64 - (c_empty_since_ms c - now))) ∧
  released = committed (p_chunks p) - committed (p_chunks p').
Proof.
  intros Hok Ecs Hin Hi Hc Hn. pose proof (po_addrs _ _ Hok) as Hnd. rewrite Ecs, fmap_cons in Hnd.
  apply NoDup_cons in Hnd as [Hni Hnd].
  unfold TrimIdle. rewrite (proj2 (Z.eqb_neq _ 0)), Ecs by lia.
  set (r := sumZ _ _). assert (Hr : r = committed cs - committed (omap (trim_chunk now idle_ms) cs))
    by apply trimmed_bytes. clearbody r.
  assert (Hch : ∀ q, p_chunks q = initial :: omap (trim_chunk now idle_ms) cs →
    (c_addr c ∉ c_addr <$> p_chunks q ↔ trim_chunk now idle_ms c = None) ∧
    r = committed (initial :: cs) - committed (p_chunks q)).
  { intros q ->. split.
    - rewrite fmap_cons, elem_of_cons, trimmed_addrs by done.
      assert (c_addr c ≠ c_addr initial).
      { intros E. apply Hni. rewrite <- E. by apply list_elem_of_fmap_2. }
      destruct (trim_chunk now idle_ms c); naive_solver.
    - rewrite Hr. unfold committed. simpl. lia. }
  destruct (r =? 0); rewrite <- (trim_chunk_exact idle_ms now c Hc Hn); by apply Hch.
Qed.

(** ** Witnesses *)

(** A [posix_memalign] that places a block at the first multiple of the alignment
    past the memory in use. *)
Definition sample_memalign (top bytes alignment : Z) : option Z :=
  let base := (top / alignment + 1) * alignment in
  if (0 <? alignment) && (base + bytes <=? UINT64_MAX) then Some base else None.

Lemma sample_memalign_spec top live :
  0 <= top → forallb (λ r, r.1 + r.2 <=? top) live = true → memalign_spec live (sample_memalign top).
Proof.
  intros Ht Hl bytes a. rewrite List.forallb_forall in Hl. unfold memalign_ok, sample_memalign.
  destruct (Z.ltb_spec 0 a), (Z.leb_spec ((top / a + 1) * a + bytes) UINT64_MAX); simpl; try (split; done).
  assert (Hlt : top < (top / a + 1) * a).
  { pose proof (Z.div_mod top a). pose proof (Z.mod_pos_bound top a). nia. }
  split; intros base [= <-].
  - split_and!; [lia|done|apply Z_mod_mult].
  - rewrite Forall_forall. intros r Hr%list_elem_of_In%Hl%Z.leb_le. left. simpl in *. lia.
Qed.

Definition sample_pool : RecvSegmentPool := (PoolInit 4096 16384 4096 4096 1000 (sample_memalign 0) new_pool).2.
Definition sample_connected : PoolLease * RecvSegmentPool :=
  PoolAllocate 100 64 (-1) kConnection 2000 (sample_memalign 8192) sample_pool.
Definition sample_staged : PoolLease * RecvSegmentPool :=
  PoolAllocate 200 64 (-1) kStaging 3000 (sample_memalign 16384) sample_connected.2.
Definition sample_held : held_leases := [(kConnection, sample_connected.1); (kStaging, sample_staged.1)].

Lemma sample_run : rtc pool_step (sample_pool, []) (sample_staged.2, sample_held).
Proof.
  eapply rtc_l; [|eapply rtc_once].
  - eapply (step_allocate 100 64 (-1) kConnection 2000 (sample_memalign 8192) sample_pool []
              sample_connected.1 sample_connected.2);
      [lia|lia|by apply sample_memalign_spec; vm_compute| |reflexivity].
    by apply (bool_decide_unpack _); vm_compute.
  - change sample_held with ([(kConnection, sample_connected.1)] ++ [(kStaging, sample_staged.1)]).
    eapply (step_allocate 200 64 (-1) kStaging 3000 (sample_memalign 16384));
      [lia|lia|by apply sample_memalign_spec; vm_compute| |reflexivity].
    by apply (bool_decide_unpack _); vm_compute.
Qed.

Lemma pool_leases_safe_witness :
  ∃ c, c ∈ p_chunks sample_staged.2 ∧ pl_segment sample_connected.1 = Some (c_addr c) ∧
    range_ok (g_size (c_segment c))
      (l_offset (pl_lease sample_connected.1), l_size (pl_lease sample_connected.1)) ∧
    (kConnection = kConnection → c_staging_only c = false).
Proof.
  refine (proj1 (pool_leases_safe 4096 16384 4096 4096 1000 (sample_memalign 0) sample_pool sample_staged.2 sample_held
    _ _ _ _ (sample_memalign_spec 0 [] (Z.le_refl 0) eq_refl) _ sample_run) kConnection sample_connected.1 _ _).
  - lia.
  - lia.
  - lia.
  - lia.
  - vm_compute. reflexivity.
  - left.
  - vm_compute. reflexivity.
Defined.

Lemma pool_bounded_witness :
  ps_committed_bytes (pool_stats sample_staged.2) <= p_max_bytes sample_staged.2 ∧
  p_max_bytes sample_staged.2 < 16384 + 4096 ∧ initial_segment sample_staged.2 = Some 1000.
Proof.
  refine (pool_bounded 4096 16384 4096 4096 1000 (sample_memalign 0) sample_pool sample_staged.2 sample_held
    _ _ _ _ (sample_memalign_spec 0 [] (Z.le_refl 0) eq_refl) _ sample_run).
  - lia.
  - lia.
  - lia.
  - lia.
  - vm_compute. reflexivity.
Defined.

(** A grown chunk, emptied at time 501 after [TrimIdle] read the clock at 500. *)
Definition sample_emptied : RecvSegmentPool :=
  NoteRelease 2000 501 (ResetLease sample_connected.1 sample_connected.2).2.

Lemma sample_emptied_ok : pool_ok sample_emptied [(kConnection, no_pool_lease)].
Proof.
  assert (Hrun : rtc pool_step (sample_pool, []) (sample_emptied, [(kConnection, no_pool_lease)])).
  { eapply rtc_l; [|eapply rtc_l; [|eapply rtc_once]].
    - eapply (step_allocate 100 64 (-1) kConnection 2000 (sample_memalign 8192) sample_pool []
                sample_connected.1 sample_connected.2);
      [lia|lia|by apply sample_memalign_spec; vm_compute| |reflexivity].
      by apply (bool_decide_unpack _); vm_compute.
    - eapply (step_reset 0 kConnection sample_connected.1); [reflexivity|].
      rewrite (surjective_pairing (ResetLease _ _)), (surjective_pairing (ResetLease _ _).1). reflexivity.
    - eapply step_note. }
  destruct (PoolInit_spec 4096 16384 4096 4096 1000 (sample_memalign 0) sample_pool) as (Hok & Hi & _);
    [lia|lia|lia|lia|by apply sample_memalign_spec|by vm_compute|].
  by destruct (pool_run_ok _ _ _ Hrun Hok Hi).
Qed.

Lemma trim_idle_exact_witness :
  ∃ c, c ∈ tail (p_chunks sample_emptied) ∧ c_empty_since_ms c = 501 ∧
  c_addr c ∉ c_addr <$> p_chunks (TrimIdle 60000 500 sample_emptied).2.
Proof.
  eexists. split; [left|]. split; [by vm_compute|].
  pose proof (trim_idle_exact 60000 500 sample_emptied _ _ _ (default (mkChunk 0 new_segment 0 false 0)
    (head (tail (p_chunks sample_emptied)))) sample_emptied_ok eq_refl ltac:(left) ltac:(lia)) as H.
  rewrite (surjective_pairing (TrimIdle _ _ _)) in H. apply H.
  - unfold UINT64_MAX. vm_compute. split; discriminate.
  - unfold UINT64_MAX. lia.
  - vm_compute. split; [reflexivity|]. split; [discriminate|]. right. split; [reflexivity|discriminate].
Defined.
