(* ===== verification/Sha256.v ===== *)
(** * SHA-256

    src/utils/sha256.h: the one-shot digest cache identities are made of.  Words
    are 32-bit [Z]s, the message a list of bytes.  [Sha256_spec] is the standard's
    definition (pad the message, fold the compression over its 64-byte blocks);
    [Sha256_correct] shows that the one-pass routine computes it. *)

From S2P Require Import Prelude Codec.

(** ** Words *)

Definition RotR (value bits : Z) : Z :=
  Z.lor (Z.shiftr value bits) (u32 (Z.shiftl value (32 - bits))).

(** [~value] on 32 bits. *)
Definition not32 (value : Z) : Z := Z.lxor value UINT32_MAX.

Definition LoadBe32 (p : list Z) : Z :=
  Z.lor (Z.lor (Z.lor (Z.shiftl (nth 0 p 0) 24) (Z.shiftl (nth 1 p 0) 16)) (Z.shiftl (nth 2 p 0) 8))
    (nth 3 p 0).

Definition StoreBe32 (value : Z) : list Z :=
  [u8 (Z.shiftr value 24); u8 (Z.shiftr value 16); u8 (Z.shiftr value 8); u8 value].

(** ** The compression function *)

(** [k], row by row. *)
Definition k_rows : list (list Z) :=
  [[0x428a2f98; 0x71374491; 0xb5c0fbcf; 0xe9b5dba5];
   [0x3956c25b; 0x59f111f1; 0x923f82a4; 0xab1c5ed5];
   [0xd807aa98; 0x12835b01; 0x243185be; 0x550c7dc3];
   [0x72be5d74; 0x80deb1fe; 0x9bdc06a7; 0xc19bf174];
   [0xe49b69c1; 0xefbe4786; 0x0fc19dc6; 0x240ca1cc];
   [0x2de92c6f; 0x4a7484aa; 0x5cb0a9dc; 0x76f988da];
   [0x983e5152; 0xa831c66d; 0xb00327c8; 0xbf597fc7];
   [0xc6e00bf3; 0xd5a79147; 0x06ca6351; 0x14292967];
   [0x27b70a85; 0x2e1b2138; 0x4d2c6dfc; 0x53380d13];
   [0x650a7354; 0x766a0abb; 0x81c2c92e; 0x92722c85];
   [0xa2bfe8a1; 0xa81a664b; 0xc24b8b70; 0xc76c51a3];
   [0xd192e819; 0xd6990624; 0xf40e3585; 0x106aa070];
   [0x19a4c116; 0x1e376c08; 0x2748774c; 0x34b0bcb5];
   [0x391c0cb3; 0x4ed8aa4a; 0x5b9cca4f; 0x682e6ff3];
   [0x748f82ee; 0x78a5636f; 0x84c87814; 0x8cc70208];
   [0x90befffa; 0xa4506ceb; 0xbef9a3f7; 0xc67178f2]].

Definition k_table : list Z := concat k_rows.

(** The message schedule: [w] extended by [n] words. *)
Fixpoint schedule (n : nat) (w : list Z) : list Z :=
  match n with
  | O => w
  | S n =>
      let i := length w in
      let at_ j := nth (i - j) w 0 in
      let s0 := Z.lxor (Z.lxor (RotR (at_ 15%nat) 7) (RotR (at_ 15%nat) 18)) (Z.shiftr (at_ 15%nat) 3) in
      let s1 := Z.lxor (Z.lxor (RotR (at_ 2%nat) 17) (RotR (at_ 2%nat) 19)) (Z.shiftr (at_ 2%nat) 10) in
      schedule n (w ++ [u32 (at_ 16%nat + s0 + at_ 7%nat + s1)])
  end.

Record State := mkState {
  s_a : Z; s_b : Z; s_c : Z; s_d : Z; s_e : Z; s_f : Z; s_g : Z; s_h : Z;
}.

Definition round (s : State) (kw : Z * Z) : State :=
  let '(k, w) := kw in
  let '(mkState a b c d e f g h) := s in
  let s1 := Z.lxor (Z.lxor (RotR e 6) (RotR e 11)) (RotR e 25) in
  let ch := Z.lxor (Z.land e f) (Z.land (not32 e) g) in
  let t1 := u32 (h + s1 + ch + k + w) in
  let s0 := Z.lxor (Z.lxor (RotR a 2) (RotR a 13)) (RotR a 22) in
  let maj := Z.lxor (Z.lxor (Z.land a b) (Z.land a c)) (Z.land b c) in
  let t2 := u32 (s0 + maj) in
  mkState (u32 (t1 + t2)) a b c (u32 (d + t1)) e f g.

Definition Compress (s : State) (block : list Z) : State :=
  let w := schedule 48 ((λ i, LoadBe32 (drop (i * 4) block)) <$> seq 0 16) in
  let r := foldl round s (zip k_table w) in
  mkState (u32 (s_a s + s_a r)) (u32 (s_b s + s_b r)) (u32 (s_c s + s_c r)) (u32 (s_d s + s_d r))
    (u32 (s_e s + s_e r)) (u32 (s_f s + s_f r)) (u32 (s_g s + s_g r)) (u32 (s_h s + s_h r)).

(** ** The digest *)

Definition initial_state : State :=
  mkState 0x6a09e667 0xbb67ae85 0x3c6ef372 0xa54ff53a 0x510e527f 0x9b05688c 0x1f83d9ab 0x5be0cd19.

(** [while (size - offset >= 64)]: the state and the unread tail. *)
Fixpoint absorb (fuel : nat) (s : State) (bytes : list Z) : State * list Z :=
  match fuel with
  | O => (s, bytes)
  | S fuel =>
      if (64 <=? length bytes)%nat then absorb fuel (Compress s (take 64 bytes)) (drop 64 bytes)
      else (s, bytes)
  end.

Definition state_bytes (s : State) : list Z :=
  StoreBe32 (s_a s) ++ StoreBe32 (s_b s) ++ StoreBe32 (s_c s) ++ StoreBe32 (s_d s) ++
  StoreBe32 (s_e s) ++ StoreBe32 (s_f s) ++ StoreBe32 (s_g s) ++ StoreBe32 (s_h s).

Definition Sha256 (data : list Z) : list Z :=
  let '(s, bytes) := absorb (length data) initial_state data in
  let tail := length bytes in
  let final_blocks := bytes ++ replicate (128 - tail) 0 in
  let final_blocks := <[tail := 128]> final_blocks in
  let padded := if (tail <? 56)%nat then 64%nat else 128%nat in
  let bit_size := u64 (Z.of_nat (length data) * 8) in
  let final_blocks := foldl (λ blocks i, <[(padded - 1 - i)%nat := u8 (Z.shiftr bit_size (8 * Z.of_nat i))]> blocks)
                        final_blocks (seq 0 8) in
  let s := Compress s (take 64 final_blocks) in
  let s := if (padded =? 128)%nat then Compress s (drop 64 final_blocks) else s in
  state_bytes s.

(** ** The standard's definition *)

Definition pad (data : list Z) : list Z :=
  let zeros := Z.to_nat ((55 - Z.of_nat (length data)) mod 64) in
  data ++ [128] ++ replicate zeros 0 ++ reverse (le_bytes 8 (u64 (8 * Z.of_nat (length data)))).

(** The fold of the compression over the 64-byte blocks. *)
Fixpoint compress_blocks (n : nat) (s : State) (bytes : list Z) : State :=
  match n with
  | O => s
  | S n => compress_blocks n (Compress s (take 64 bytes)) (drop 64 bytes)
  end.

Definition Sha256_spec (data : list Z) : list Z :=
  state_bytes (compress_blocks (length (pad data) / 64) initial_state (pad data)).

(** FIPS 180-4: the digest of "abc". *)
Example Sha256_abc :
  Sha256 [97; 98; 99] =
  [0xba; 0x78; 0x16; 0xbf; 0x8f; 0x01; 0xcf; 0xea; 0x41; 0x41; 0x40; 0xde; 0x5d; 0xae; 0x22; 0x23;
   0xb0; 0x03; 0x61; 0xa3; 0x96; 0x17; 0x7a; 0x9c; 0xb4; 0x10; 0xff; 0x61; 0xf2; 0x00; 0x15; 0xad].
Proof. vm_compute. reflexivity. Qed.

(** ** Lemmas *)

Lemma compress_blocks_app n m s b1 b2 :
  length b1 = (64 * n)%nat →
  compress_blocks (n + m) s (b1 ++ b2) = compress_blocks m (compress_blocks n s b1) b2.
Proof.
  revert s b1. induction n as [|n IH]; intros s b1 H.
  - by apply nil_length_inv in H as ->.
  - cbn [compress_blocks Nat.add]. rewrite take_app_le, drop_app_le by lia. apply IH.
    rewrite length_drop. lia.
Qed.

(** The loop reads every whole block and leaves the rest. *)
Lemma absorb_spec fuel s bytes :
  (length bytes / 64 <= fuel)%nat →
  absorb fuel s bytes =
  (compress_blocks (length bytes / 64) s bytes, drop (64 * (length bytes / 64)) bytes).
Proof.
  revert s bytes. induction fuel as [|fuel IH]; intros s bytes H.
  - assert ((length bytes / 64)%nat = O) as -> by lia. by rewrite Nat.mul_0_r, drop_0.
  - cbn [absorb]. destruct (Nat.leb_spec 64 (length bytes)) as [Hle|Hlt].
    + assert (E : (length bytes / 64 = S ((length bytes - 64) / 64))%nat).
      { replace (length bytes) with ((length bytes - 64) + 1 * 64)%nat at 1 by lia.
        rewrite Nat.div_add by lia. lia. }
      rewrite IH; rewrite length_drop; [|lia]. rewrite E. cbn [compress_blocks].
      rewrite drop_drop. do 2 f_equal. lia.
    + rewrite (Nat.div_small _ 64) by lia. by rewrite Nat.mul_0_r, drop_0.
Qed.

(** The eight length bytes written backwards from [padded - 1]. *)
Lemma insert_length pre post n P :
  length pre = (P - 8)%nat → (8 <= P)%nat →
  foldl (λ blocks i, <[(P - 1 - i)%nat := u8 (Z.shiftr n (8 * Z.of_nat i))]> blocks)
    (pre ++ replicate 8 0 ++ post) (seq 0 8) = pre ++ reverse (le_bytes 8 n) ++ post.
Proof.
  intros Hpre HP. rewrite le_bytes_shift. cbn [seq foldl].
  repeat (rewrite insert_app_r_alt by lia;
    match goal with |- context [<[(?a - length pre)%nat := _]> (replicate 8 0 ++ _)] => idtac | _ => idtac end).
  rewrite Hpre.
  replace (P - 1 - 0 - (P - 8))%nat with 7%nat by lia. replace (P - 1 - 1 - (P - 8))%nat with 6%nat by lia.
  replace (P - 1 - 2 - (P - 8))%nat with 5%nat by lia. replace (P - 1 - 3 - (P - 8))%nat with 4%nat by lia.
  replace (P - 1 - 4 - (P - 8))%nat with 3%nat by lia. replace (P - 1 - 5 - (P - 8))%nat with 2%nat by lia.
  replace (P - 1 - 6 - (P - 8))%nat with 1%nat by lia. replace (P - 1 - 7 - (P - 8))%nat with 0%nat by lia.
  reflexivity.
Qed.

(** The buffer of the last one or two blocks. *)
Lemma final_blocks_eq bytes n P :
  (length bytes < 64)%nat → P = (if (length bytes <? 56)%nat then 64%nat else 128%nat) →
  foldl (λ blocks i, <[(P - 1 - i)%nat := u8 (Z.shiftr n (8 * Z.of_nat i))]> blocks)
    (<[length bytes := 128]> (bytes ++ replicate (128 - length bytes) 0)) (seq 0 8) =
  (bytes ++ [128] ++ replicate (P - 9 - length bytes) 0 ++ reverse (le_bytes 8 n)) ++ replicate (128 - P) 0.
Proof.
  intros Hlt HP.
  assert (HPb : (length bytes + 9 <= P <= 128)%nat) by (subst P; destruct (Nat.ltb_spec (length bytes) 56); lia).
  rewrite insert_app_r_alt, Nat.sub_diag by lia.
  replace (128 - length bytes)%nat with (S ((P - 9 - length bytes) + (8 + (128 - P))))%nat by lia.
  rewrite replicate_S, !replicate_add. cbn [insert list_insert].
  replace (bytes ++ 128 :: replicate (P - 9 - length bytes) 0 ++ replicate 8 0 ++ replicate (128 - P) 0)
    with ((bytes ++ 128 :: replicate (P - 9 - length bytes) 0) ++ replicate 8 0 ++ replicate (128 - P) 0)
    by by rewrite <- !app_assoc.
  rewrite insert_length; [by rewrite <- !app_assoc| |lia].
  rewrite length_app. simpl. rewrite length_replicate. lia.
Qed.

(** The padded message: the whole blocks, then the last one or two. *)
Lemma pad_split data (q := (length data / 64)%nat) (t := drop (64 * q) data)
    (P := if (length t <? 56)%nat then 64%nat else 128%nat) :
  pad data = take (64 * q) data ++
    (t ++ [128] ++ replicate (P - 9 - length t) 0 ++
     reverse (le_bytes 8 (u64 (Z.of_nat (length data) * 8)))).
Proof.
  assert (Hq : (length data = 64 * q + length t)%nat).
  { subst t. rewrite length_drop. pose proof (Nat.mul_div_le (length data) 64). lia. }
  assert (Ht : (length t < 64)%nat).
  { pose proof (Nat.mod_upper_bound (length data) 64). pose proof (Nat.div_mod_eq (length data) 64). lia. }
  unfold pad. rewrite (app_assoc (take (64 * q) data) t). subst t. rewrite take_drop, (Z.mul_comm 8).
  do 4 f_equal.
  rewrite Hq at 1. rewrite Nat2Z.inj_add, Nat2Z.inj_mul.
  replace (55 - (Z.of_nat 64 * Z.of_nat q + Z.of_nat (length (drop (64 * q) data))))
    with (55 - Z.of_nat (length (drop (64 * q) data)) + (- Z.of_nat q) * 64) by lia.
  rewrite Z.mod_add by lia. subst P. set (l := length (drop (64 * q) data)) in *.
  destruct (Nat.ltb_spec l 56).
  - rewrite Z.mod_small by lia. lia.
  - rewrite <- (Z.mod_add _ 1 64), Z.mod_small by lia. lia.
Qed.

Lemma length_final_block t n P :
  (length t < 64)%nat → P = (if (length t <? 56)%nat then 64%nat else 128%nat) →
  length (t ++ [128] ++ replicate (P - 9 - length t) 0 ++ reverse (le_bytes 8 n)) = P.
Proof.
  intros Ht ->. rewrite !length_app, length_replicate, length_reverse, length_le_bytes. simpl length.
  destruct (Nat.ltb_spec (length t) 56); lia.
Qed.

(** ** Claims *)

(** C36. The one-pass digest, which compresses the blocks of the message in place
    and builds the last one or two blocks in a zeroed 128-byte buffer, is SHA-256
    as the standard defines it: the compression folded over the 64-byte blocks of
    the message followed by 0x80, zeros and its bit length. *)
Theorem Sha256_correct data : Sha256 data = Sha256_spec data.
Proof.
  unfold Sha256, Sha256_spec. rewrite absorb_spec by (apply Nat.Div0.div_le_upper_bound; lia).
  set (q := (length data / 64)%nat). set (t := drop (64 * q) data).
  set (P := if (length t <? 56)%nat then 64%nat else 128%nat).
  assert (Ht : (length t < 64)%nat).
  { subst t. rewrite length_drop. pose proof (Nat.mod_upper_bound (length data) 64).
    pose proof (Nat.div_mod_eq (length data) 64). lia. }
  rewrite (final_blocks_eq t _ P Ht eq_refl). rewrite pad_split. fold q. fold t. fold P.
  set (n := u64 (Z.of_nat (length data) * 8)).
  pose proof (length_final_block t n P Ht eq_refl) as HF.
  set (F := t ++ [128] ++ replicate (P - 9 - length t) 0 ++ reverse (le_bytes 8 n)) in *. clearbody F.
  assert (Hq : (64 * q <= length data)%nat) by (apply Nat.mul_div_le; lia).
  assert (Hlen : (length (take (64 * q) data ++ F) / 64 = q + P / 64)%nat).
  { rewrite length_app, length_take, HF, Nat.min_l by lia. rewrite Nat.add_comm, Nat.mul_comm, Nat.div_add by lia. lia. }
  rewrite Hlen, compress_blocks_app by (rewrite length_take; lia). clear Hlen.
  assert (Htake : compress_blocks q initial_state data = compress_blocks q initial_state (take (64 * q) data)).
  { rewrite <- (take_drop (64 * q) data) at 1. replace q with (q + 0)%nat at 1 by lia.
    by rewrite compress_blocks_app by (rewrite length_take; lia). }
  rewrite Htake. subst P. f_equal. destruct (length t <? 56)%nat; simpl (_ =? _)%nat; cbn iota.
  - rewrite take_app_length' by done. change (64 / 64)%nat with 1%nat. cbn [compress_blocks].
    by rewrite (take_ge F) by lia.
  - rewrite app_nil_r. change (128 / 64)%nat with 2%nat. cbn [compress_blocks].
    by rewrite (take_ge (drop 64 F)) by (rewrite length_drop; lia).
Qed.

Lemma length_Sha256 data : length (Sha256 data) = 32%nat.
Proof. unfold Sha256. destruct (absorb _ _ _). done. Qed.

Lemma Sha256_bytes data : Forall byte_ok (Sha256 data).
Proof.
  unfold Sha256. destruct (absorb _ _ _). unfold state_bytes.
  repeat constructor; apply Z.mod_pos_bound; lia.
Qed.

(** The round constants are the standard's: the first 32 bits of the fractional
    parts of the cube roots of the first 64 primes. *)
Definition primes64 : list Z :=
  filter (λ p, forallb (λ d, negb (p mod d =? 0)) (seqZ 2 (p - 2)) = true) (seqZ 2 310).

Definition cube_root_fraction (p k : Z) : bool :=
  existsb (λ r, let x := r * 2 ^ 32 + k in (x ^ 3 <=? p * 2 ^ 96) && (p * 2 ^ 96 <? (x + 1) ^ 3)) (seqZ 1 6).

Lemma k_table_cube_roots :
  length primes64 = 64%nat ∧ Forall2 (λ p k, cube_root_fraction p k = true) primes64 k_table.
Proof.
  split; [vm_compute; reflexivity|].
  assert (H : forallb (λ pk, cube_root_fraction pk.1 pk.2) (zip primes64 k_table) = true) by (vm_compute; reflexivity).
  assert (Hl : length primes64 = length k_table) by (vm_compute; reflexivity).
  revert H Hl. generalize primes64 k_table. intros ps. induction ps as [|p ps IH]; intros [|k ks] H Hl; try done.
  cbn in H. apply andb_true_iff in H as [H1 H2]. constructor; [done|]. apply IH; [done|]. cbn in Hl. lia.
Qed.
