(* ===== verification/Namespace.v ===== *)
(** * Cache namespaces and object identities

    src/common/namespace.{h,cc}: the descriptors every connector serializes
    before a key is hashed, their validation and their canonical bytes.
    Strings are byte lists; the error text goes to an optional buffer. *)

From S2P Require Import Prelude KvTypes Codec.
From stdpp Require Import strings.

#[local] Open Scope Z_scope.

(** An [enum class] over [uint16_t]: any 16-bit value, nine of them with a name. *)
Definition PoolKind : Type := Z.

Definition kAttention : PoolKind := 1.
Definition kMla : PoolKind := 2.
Definition kMamba : PoolKind := 3.
Definition kSwa : PoolKind := 4.
Definition kIndexer : PoolKind := 5.
Definition kDraftAttention : PoolKind := 6.
Definition kDraftMla : PoolKind := 7.
Definition kDraftIndexer : PoolKind := 8.
Definition kCustom : PoolKind := 65535.

Definition named_kinds : list PoolKind :=
  [kAttention; kMla; kMamba; kSwa; kIndexer; kDraftAttention; kDraftMla; kDraftIndexer; kCustom].

(** [rank] is an [int32_t]; -1: replicated on this axis. *)
Record RankCoordinate := mkRank { world_size : Z; rank : Z }.

Record NamespaceDescriptor := mkNamespace {
  tenant_id : list Z;
  model_id : list Z;
  model_revision : list Z;
  pool_kind : PoolKind;
  pool_name : list Z;
  dtype : list Z;
  layout_fingerprint : Z;
  block_tokens : Z;
  group_id : Z;
  layer_begin : Z;
  layer_count : Z;
  tp : RankCoordinate;
  dp : RankCoordinate;
  pp : RankCoordinate;
}.

Record ObjectDescriptor := mkObject {
  logical_key : list Z;
  component : list Z;
  chunk_index : Z;
  chunk_count : Z;
}.

(** ** Validation *)

Definition kMaxFieldBytes : Z := Z.shiftl 1 20.
Definition kMaxComponentBytes : Z := 256.

(** [None]: a null [error] pointer. *)
Definition SetError (error : option string) (value : string) : option string :=
  match error with Some _ => Some value | None => None end.

Definition ValidRequiredField (value : list Z) (name : string) (error : option string)
    : bool * option string :=
  if (length value =? 0)%nat then (false, SetError error (name +:+ " must not be empty"))
  else if kMaxFieldBytes <? Z.of_nat (length value) then (false, SetError error (name +:+ " exceeds 1 MiB"))
  else (true, error).

Definition RankValidate (c : RankCoordinate) (axis : string) (error : option string)
    : Status * option string :=
  if world_size c =? 0 then (kInvalid, SetError error (axis +:+ " world_size must be positive"))
  else if (rank c <? -1) || ((0 <=? rank c) && (world_size c <=? u32 (rank c)))
  then (kInvalid, SetError error (axis +:+ " rank must be -1 or within world_size"))
  else (kOk, error).

(** [a || b] on checks that report an error: the first failing one ends. *)
Fixpoint required (fields : list (list Z * string)) (error : option string) : bool * option string :=
  match fields with
  | [] => (true, error)
  | (value, name) :: fields =>
      match ValidRequiredField value name error with
      | (true, error) => required fields error
      | (false, error) => (false, error)
      end
  end.

Fixpoint ranks_valid (cs : list (RankCoordinate * string)) (error : option string) : bool * option string :=
  match cs with
  | [] => (true, error)
  | (c, axis) :: cs =>
      match RankValidate c axis error with
      | (kOk, error) => ranks_valid cs error
      | (_, error) => (false, error)
      end
  end.

Definition NamespaceValidate (d : NamespaceDescriptor) (error : option string) : Status * option string :=
  match required [(tenant_id d, "tenant_id"%string); (model_id d, "model_id"%string);
                  (model_revision d, "model_revision"%string); (pool_name d, "pool_name"%string);
                  (dtype d, "dtype"%string)] error with
  | (false, error) => (kInvalid, error)
  | (true, error) =>
      if layout_fingerprint d =? 0 then (kInvalid, SetError error "layout_fingerprint must be nonzero")
      else if block_tokens d =? 0 then (kInvalid, SetError error "block_tokens must be positive")
      else if (layer_count d =? 0) || (UINT32_MAX - layer_count d <? layer_begin d)
      then (kInvalid, SetError error "layer range must be nonempty and must not overflow")
      else
        match ranks_valid [(tp d, "tp"%string); (dp d, "dp"%string); (pp d, "pp"%string)] error with
        | (false, error) => (kInvalid, error)
        | (true, error) => (kOk, error)
        end
  end.

Definition ObjectValidate (o : ObjectDescriptor) (error : option string) : Status * option string :=
  match required [(logical_key o, "logical_key"%string); (component o, "component"%string)] error with
  | (false, error) => (kInvalid, error)
  | (true, error) =>
      if kMaxComponentBytes <? Z.of_nat (length (component o))
      then (kInvalid, SetError error "component exceeds 256 bytes")
      else if (chunk_count o =? 0) || (chunk_count o <=? chunk_index o)
      then (kInvalid, SetError error "chunk_index must be within nonzero chunk_count")
      else (kOk, error)
  end.

(** ** Serialization *)

(** The [n] bytes [value >> (8 * i)]. *)
Definition word_bytes (n : nat) (value : Z) : list Z :=
  (λ i, u8 (Z.shiftr value (8 * Z.of_nat i))) <$> seq 0 n.

Definition AppendU16 (out : list Z) (value : Z) : list Z := out ++ word_bytes 2 value.
Definition AppendU32 (out : list Z) (value : Z) : list Z := out ++ word_bytes 4 value.
Definition AppendU64 (out : list Z) (value : Z) : list Z := out ++ word_bytes 8 value.
Definition AppendString (out value : list Z) : list Z :=
  AppendU32 out (u32 (Z.of_nat (length value))) ++ value.
Definition AppendRank (out : list Z) (c : RankCoordinate) : list Z :=
  AppendU32 (AppendU32 out (world_size c)) (u32 (rank c)).

(** "DFKVNS\0\2" and "DFKVOBJ2". *)
Definition kNamespaceMagic : list Z := [68; 70; 75; 86; 78; 83; 0; 2].
Definition kObjectMagic : list Z := [68; 70; 75; 86; 79; 66; 74; 50].

Definition NamespaceSerialize (d : NamespaceDescriptor) : list Z :=
  let out := kNamespaceMagic in
  let out := AppendString out (tenant_id d) in
  let out := AppendString out (model_id d) in
  let out := AppendString out (model_revision d) in
  let out := AppendU16 out (pool_kind d) in
  let out := AppendString out (pool_name d) in
  let out := AppendString out (dtype d) in
  let out := AppendU64 out (layout_fingerprint d) in
  let out := AppendU32 out (block_tokens d) in
  let out := AppendU32 out (group_id d) in
  let out := AppendU32 out (layer_begin d) in
  let out := AppendU32 out (layer_count d) in
  let out := AppendRank out (tp d) in
  let out := AppendRank out (dp d) in
  AppendRank out (pp d).

Definition ObjectSerialize (o : ObjectDescriptor) (ns : NamespaceDescriptor) : list Z :=
  let namespace_bytes := NamespaceSerialize ns in
  let out := kObjectMagic in
  let out := AppendString out namespace_bytes in
  let out := AppendString out (logical_key o) in
  let out := AppendString out (component o) in
  let out := AppendU32 out (chunk_index o) in
  AppendU32 out (chunk_count o).

(** ** What validation accepts *)

(** The C++ types of the fields. *)
Definition is_i32 (z : Z) : Prop := - 2 ^ 31 <= z < 2 ^ 31.
Definition bytes (l : list Z) : Prop := Forall byte_ok l.

Definition rank_typed (c : RankCoordinate) : Prop := is_u32 (world_size c) ∧ is_i32 (rank c).

Record ns_typed (d : NamespaceDescriptor) : Prop := {
  nt_tenant : bytes (tenant_id d); nt_model : bytes (model_id d); nt_rev : bytes (model_revision d);
  nt_kind : 0 <= pool_kind d < 2 ^ 16; nt_pool : bytes (pool_name d); nt_dtype : bytes (dtype d);
  nt_layout : is_u64 (layout_fingerprint d); nt_tokens : is_u32 (block_tokens d);
  nt_group : is_u32 (group_id d); nt_begin : is_u32 (layer_begin d); nt_count : is_u32 (layer_count d);
  nt_tp : rank_typed (tp d); nt_dp : rank_typed (dp d); nt_pp : rank_typed (pp d);
}.

Definition field_ok (l : list Z) : Prop := (0 < length l)%nat ∧ Z.of_nat (length l) <= kMaxFieldBytes.
Definition rank_ok (c : RankCoordinate) : Prop := world_size c ≠ 0 ∧ -1 <= rank c < world_size c.

Record ns_valid (d : NamespaceDescriptor) : Prop := {
  nv_tenant : field_ok (tenant_id d); nv_model : field_ok (model_id d); nv_rev : field_ok (model_revision d);
  nv_pool : field_ok (pool_name d); nv_dtype : field_ok (dtype d);
  nv_layout : layout_fingerprint d ≠ 0; nv_tokens : block_tokens d ≠ 0;
  nv_layers : layer_count d ≠ 0 ∧ layer_begin d + layer_count d <= UINT32_MAX;
  nv_tp : rank_ok (tp d); nv_dp : rank_ok (dp d); nv_pp : rank_ok (pp d);
}.

Record obj_valid (o : ObjectDescriptor) : Prop := {
  ov_key : field_ok (logical_key o); ov_comp : field_ok (component o);
  ov_small : Z.of_nat (length (component o)) <= kMaxComponentBytes;
  ov_chunk : chunk_index o < chunk_count o;
}.

Definition obj_typed (o : ObjectDescriptor) : Prop :=
  bytes (logical_key o) ∧ bytes (component o) ∧ is_u32 (chunk_index o) ∧ is_u32 (chunk_count o).

Lemma field_spec value name error :
  ∃ error', ValidRequiredField value name error = (bool_decide (field_ok value), error') ∧
    (field_ok value → error' = error).
Proof.
  unfold ValidRequiredField, field_ok. destruct (Nat.eqb_spec (length value) 0).
  { eexists. rewrite bool_decide_false by lia. split; [done|lia]. }
  destruct (Z.ltb_spec kMaxFieldBytes (Z.of_nat (length value))).
  - eexists. rewrite bool_decide_false by lia. split; [done|lia].
  - exists error. rewrite bool_decide_true by lia. done.
Qed.

Lemma required_spec fields error :
  ∃ error', required fields error = (bool_decide (Forall (λ f, field_ok f.1) fields), error') ∧
    (Forall (λ f, field_ok f.1) fields → error' = error).
Proof.
  revert error. induction fields as [|[v n] fields IH]; intros error; cbn [required].
  { eexists. split; [by rewrite bool_decide_true by constructor|done]. }
  destruct (field_spec v n error) as (e1 & -> & He1).
  destruct (decide (field_ok v)) as [Hv|Hv];
    [rewrite (bool_decide_true (field_ok v)) by done|rewrite (bool_decide_false (field_ok v)) by done].
  - destruct (IH e1) as (e2 & -> & He2). exists e2. rewrite (He1 Hv) in He2. split.
    + f_equal. apply bool_decide_ext. rewrite Forall_cons. simpl. tauto.
    + rewrite Forall_cons. tauto.
  - exists e1. rewrite bool_decide_false; [|rewrite Forall_cons; simpl; tauto].
    split; [done|]. rewrite Forall_cons. simpl. tauto.
Qed.

Lemma RankValidate_spec c axis error :
  rank_typed c →
  ∃ st error', RankValidate c axis error = (st, error') ∧ (st = kOk ↔ rank_ok c) ∧
    (rank_ok c → error' = error) ∧ (¬ rank_ok c → st = kInvalid).
Proof.
  intros [Hw Hr]. unfold RankValidate, rank_ok, is_u32, is_i32 in *.
  destruct (Z.eqb_spec (world_size c) 0); [eexists _, _; split; [done|]; split; [|split]; (done || lia || naive_solver)|].
  destruct (Z.ltb_spec (rank c) (-1)); cbn [orb].
  { eexists _, _. split; [done|]. split; [|split]; (lia || naive_solver lia). }
  destruct (Z.leb_spec 0 (rank c)); cbn [andb].
  - rewrite u32_id by (unfold is_u32; lia). destruct (Z.leb_spec (world_size c) (rank c));
      (eexists _, _; split; [done|]; split; [|split]; (lia || naive_solver lia)).
  - eexists _, _. split; [done|]. split; [|split]; (lia || naive_solver lia).
Qed.

Lemma ranks_valid_spec cs error :
  Forall (λ c, rank_typed c.1) cs →
  ∃ error', ranks_valid cs error = (bool_decide (Forall (λ c, rank_ok c.1) cs), error') ∧
    (Forall (λ c, rank_ok c.1) cs → error' = error).
Proof.
  intros Ht. revert error. induction Ht as [|[c n] cs Hc Ht IH]; intros error; cbn [ranks_valid].
  { eexists. split; [by rewrite bool_decide_true by constructor|done]. }
  destruct (RankValidate_spec c n error Hc) as (st & e1 & -> & Hst & He1 & Hbad).
  destruct (decide (rank_ok c)) as [Hok|Hno].
  - rewrite (proj2 Hst Hok). destruct (IH e1) as (e2 & -> & He2). exists e2. rewrite (He1 Hok) in He2. split.
    + f_equal. apply bool_decide_ext. rewrite Forall_cons. simpl. tauto.
    + rewrite Forall_cons. tauto.
  - rewrite (Hbad Hno). exists e1. rewrite bool_decide_false; [|rewrite Forall_cons; simpl; tauto].
    split; [done|]. rewrite Forall_cons. simpl. tauto.
Qed.

(** [Validate] accepts exactly the valid descriptors, and then leaves the error
    buffer alone. *)
Lemma NamespaceValidate_spec d error :
  ns_typed d →
  (NamespaceValidate d error).1 = kOk ↔ ns_valid d.
Proof.
  intros [_ _ _ _ _ _ _ _ _ Hb Hc T1 T2 T3]. unfold NamespaceValidate.
  match goal with |- context [required ?fs error] => destruct (required_spec fs error) as (e1 & -> & _) end.
  case_bool_decide as Hf; rewrite !Forall_cons, Forall_nil in Hf; simpl in Hf; cbn beta iota.
  2:{ split; [done|]. intros []. tauto. }
  destruct Hf as (F1 & F2 & F3 & F4 & F5 & _). unfold is_u32, UINT32_MAX in *.
  destruct (Z.eqb_spec (layout_fingerprint d) 0); [split; [done|by intros []]|].
  destruct (Z.eqb_spec (block_tokens d) 0); [split; [done|by intros []]|].
  destruct (Z.eqb_spec (layer_count d) 0); cbn [orb]; [split; [done|intros []; tauto]|].
  destruct (Z.ltb_spec (2 ^ 32 - 1 - layer_count d) (layer_begin d)); cbn [orb].
  { split; [done|]. intros []. unfold UINT32_MAX in *. lia. }
  match goal with |- context [ranks_valid ?fs e1] => destruct (ranks_valid_spec fs e1) as (e2 & -> & _) end.
  { rewrite !Forall_cons, Forall_nil. done. }
  case_bool_decide as Hr; rewrite !Forall_cons, Forall_nil in Hr; simpl in Hr; cbn beta iota.
  - destruct Hr as (R1 & R2 & R3 & _). split; [intros _|done]. split; try done. unfold UINT32_MAX. lia.
  - split; [done|]. intros []. tauto.
Qed.

Lemma ObjectValidate_spec o error :
  obj_typed o → (ObjectValidate o error).1 = kOk ↔ obj_valid o.
Proof.
  intros (_ & _ & Hi & Hc). unfold ObjectValidate, is_u32 in *.
  match goal with |- context [required ?fs error] => destruct (required_spec fs error) as (e1 & -> & _) end.
  case_bool_decide as Hf; rewrite !Forall_cons, Forall_nil in Hf; simpl in Hf; cbn beta iota.
  2:{ split; [done|]. intros []. tauto. }
  destruct Hf as (F1 & F2 & _).
  destruct (Z.ltb_spec kMaxComponentBytes (Z.of_nat (length (component o)))); [split; [done|intros []; lia]|].
  destruct (Z.eqb_spec (chunk_count o) 0); cbn [orb]; [split; [done|intros []; lia]|].
  destruct (Z.leb_spec (chunk_count o) (chunk_index o)); (split; [|intros []; (done || lia)]); [done|].
  intros _. by split.
Qed.

(** ** Serialization lemmas *)

Lemma word_bytes_le n v : word_bytes n v = le_bytes n v.
Proof. unfold word_bytes. by rewrite le_bytes_shift. Qed.

Lemma length_word_bytes n v : length (word_bytes n v) = n.
Proof. by rewrite word_bytes_le, length_le_bytes. Qed.

Lemma word_bytes_ok n v : bytes (word_bytes n v).
Proof. rewrite word_bytes_le. apply le_bytes_ok. Qed.

Lemma word_inj n v v' r r' :
  0 <= v < 256 ^ Z.of_nat n → 0 <= v' < 256 ^ Z.of_nat n →
  word_bytes n v ++ r = word_bytes n v' ++ r' → v = v' ∧ r = r'.
Proof.
  intros Hv Hv' H. apply app_inj_1 in H as [H ->]; [|by rewrite !length_word_bytes].
  split; [|done]. rewrite !word_bytes_le in H. by rewrite <- (le_value_bytes n v), H, le_value_bytes.
Qed.

(** A length-prefixed string. *)
Definition str (v : list Z) : list Z := word_bytes 4 (u32 (Z.of_nat (length v))) ++ v.

Definition short (v : list Z) : Prop := Z.of_nat (length v) < 2 ^ 32.

Lemma str_inj v v' r r' : short v → short v' → str v ++ r = str v' ++ r' → v = v' ∧ r = r'.
Proof.
  unfold short, str. intros Hv Hv' H. rewrite <- !app_assoc in H.
  apply word_inj in H as [Hl H]; [|apply u32_range|apply u32_range].
  rewrite !u32_id in Hl by (unfold is_u32; lia). apply app_inj_1 in H as [-> ->]; [done|lia].
Qed.

Lemma length_str v : length (str v) = (4 + length v)%nat.
Proof. unfold str. by rewrite length_app, length_word_bytes. Qed.

Lemma field_short l : field_ok l → short l.
Proof. unfold field_ok, short, kMaxFieldBytes. rewrite Z.shiftl_1_l. lia. Qed.

Definition rank_bytes (c : RankCoordinate) : list Z := word_bytes 4 (world_size c) ++ word_bytes 4 (u32 (rank c)).

Lemma rank_inj c c' r r' :
  rank_typed c → rank_typed c' → rank_bytes c ++ r = rank_bytes c' ++ r' → c = c' ∧ r = r'.
Proof.
  intros [H1 H2] [H1' H2'] H. unfold rank_bytes in H. rewrite <- !app_assoc in H.
  unfold is_u32, is_i32 in *.
  apply word_inj in H as [Hw H]; [|done|done]. apply word_inj in H as [Hr H]; [|apply u32_range|apply u32_range].
  split; [|done]. destruct c as [w x], c' as [w' x']. simpl in *. subst w'. f_equal.
  unfold u32 in Hr. assert (Hd : (x - x') mod 2 ^ 32 = 0) by (rewrite Zminus_mod, Hr, Z.sub_diag; done).
  apply Z.mod_divide in Hd as [q Hq]; [|lia]. assert (q = 0) by nia. lia.
Qed.

Lemma NamespaceSerialize_flat d :
  NamespaceSerialize d =
  kNamespaceMagic ++ str (tenant_id d) ++ str (model_id d) ++ str (model_revision d) ++
  word_bytes 2 (pool_kind d) ++ str (pool_name d) ++ str (dtype d) ++
  word_bytes 8 (layout_fingerprint d) ++ word_bytes 4 (block_tokens d) ++ word_bytes 4 (group_id d) ++
  word_bytes 4 (layer_begin d) ++ word_bytes 4 (layer_count d) ++
  rank_bytes (tp d) ++ rank_bytes (dp d) ++ rank_bytes (pp d).
Proof.
  unfold NamespaceSerialize, AppendRank, AppendString, AppendU16, AppendU32, AppendU64, str, rank_bytes.
  by rewrite <- !app_assoc.
Qed.

Lemma ObjectSerialize_flat o d :
  ObjectSerialize o d =
  kObjectMagic ++ str (NamespaceSerialize d) ++ str (logical_key o) ++ str (component o) ++
  word_bytes 4 (chunk_index o) ++ word_bytes 4 (chunk_count o).
Proof. unfold ObjectSerialize, AppendString, AppendU32, str. by rewrite <- !app_assoc. Qed.

(** Every field but the strings has a fixed width. *)
Lemma length_NamespaceSerialize d :
  length (NamespaceSerialize d) =
  (78 + length (tenant_id d) + length (model_id d) + length (model_revision d) + length (pool_name d) +
   length (dtype d))%nat.
Proof.
  rewrite NamespaceSerialize_flat. unfold rank_bytes. rewrite !length_app, !length_str, !length_word_bytes.
  simpl length. lia.
Qed.

Lemma NamespaceSerialize_short d : ns_valid d → short (NamespaceSerialize d).
Proof.
  intros [[_ H1] [_ H2] [_ H3] [_ H4] [_ H5] _ _ _ _ _ _]. unfold short. rewrite length_NamespaceSerialize.
  unfold kMaxFieldBytes in *. rewrite Z.shiftl_1_l in *. lia.
Qed.

Lemma NamespaceSerialize_inj d d' :
  ns_typed d → ns_typed d' → ns_valid d → ns_valid d' →
  NamespaceSerialize d = NamespaceSerialize d' → d = d'.
Proof.
  intros T T' V V' H. rewrite !NamespaceSerialize_flat in H. apply app_inj_1 in H as [_ H]; [|done].
  apply str_inj in H as [E1 H]; [|apply field_short, V|apply field_short, V'].
  apply str_inj in H as [E2 H]; [|apply field_short, V|apply field_short, V'].
  apply str_inj in H as [E3 H]; [|apply field_short, V|apply field_short, V'].
  apply word_inj in H as [E4 H]; [|apply T|apply T'].
  apply str_inj in H as [E5 H]; [|apply field_short, V|apply field_short, V'].
  apply str_inj in H as [E6 H]; [|apply field_short, V|apply field_short, V'].
  apply word_inj in H as [E7 H]; [|apply T|apply T'].
  apply word_inj in H as [E8 H]; [|apply T|apply T'].
  apply word_inj in H as [E9 H]; [|apply T|apply T'].
  apply word_inj in H as [E10 H]; [|apply T|apply T'].
  apply word_inj in H as [E11 H]; [|apply T|apply T'].
  apply rank_inj in H as [E12 H]; [|apply T|apply T']. apply rank_inj in H as [E13 H]; [|apply T|apply T'].
  rewrite <- (app_nil_r (rank_bytes (pp d))), <- (app_nil_r (rank_bytes (pp d'))) in H.
  apply rank_inj in H as [E14 _]; [|apply T|apply T'].
  clear - E1 E2 E3 E4 E5 E6 E7 E8 E9 E10 E11 E12 E13 E14.
  destruct d, d'. simpl in *. by subst.
Qed.

(** ** Claims *)

(** C33. Serialization is injective: two valid object identities in two valid
    namespaces have the same canonical bytes only when every field of the object
    and of the namespace agrees, so no delimiter or length trick inside an
    opaque field can make one identity look like another. *)
Theorem object_identity_injective o ns o' ns' :
  ns_typed ns → ns_typed ns' → obj_typed o → obj_typed o' →
  (NamespaceValidate ns None).1 = kOk → (NamespaceValidate ns' None).1 = kOk →
  (ObjectValidate o None).1 = kOk → (ObjectValidate o' None).1 = kOk →
  ObjectSerialize o ns = ObjectSerialize o' ns' → o = o' ∧ ns = ns'.
Proof.
  intros T T' O O' V%NamespaceValidate_spec V'%NamespaceValidate_spec Vo%ObjectValidate_spec
    Vo'%ObjectValidate_spec H; [|done..].
  destruct O as (_ & _ & O1 & O2), O' as (_ & _ & O1' & O2').
  rewrite !ObjectSerialize_flat in H. apply app_inj_1 in H as [_ H]; [|done].
  apply str_inj in H as [E1 H]; [|by apply NamespaceSerialize_short|by apply NamespaceSerialize_short].
  apply str_inj in H as [E2 H]; [|apply field_short, Vo|apply field_short, Vo'].
  apply str_inj in H as [E3 H]; [|apply field_short, Vo|apply field_short, Vo'].
  apply word_inj in H as [E4 H]; [|done|done].
  rewrite <- (app_nil_r (word_bytes 4 (chunk_count o))), <- (app_nil_r (word_bytes 4 (chunk_count o'))) in H.
  apply word_inj in H as [E5 _]; [|done|done]. split.
  - clear - E2 E3 E4 E5. destruct o, o'. simpl in *. by subst.
  - by apply NamespaceSerialize_inj.
Qed.

Definition sample_ns : NamespaceDescriptor :=
  mkNamespace [116; 49] [109] [114] kMla [112] [102; 56] 7 64 0 0 32 (mkRank 8 3) (mkRank 1 (-1)) (mkRank 1 0).
Definition sample_object : ObjectDescriptor := mkObject [1; 0; 2] [107; 118] 0 1.

Lemma sample_ns_typed : ns_typed sample_ns.
Proof.
  split; unfold bytes, rank_typed, is_u64, is_u32, is_i32, byte_ok; simpl; unfold kMla;
    first [lia | repeat constructor; lia].
Qed.

Lemma sample_object_typed : obj_typed sample_object.
Proof.
  unfold obj_typed, bytes, is_u32, byte_ok. simpl. split_and!; repeat constructor; lia.
Qed.

(** The component's bytes moved into the logical key. *)
Definition shifted_object : ObjectDescriptor := mkObject [1; 0; 2; 107] [118] 0 1.

Lemma shifted_object_typed : obj_typed shifted_object.
Proof.
  unfold obj_typed, bytes, is_u32, byte_ok. simpl. split_and!; repeat constructor; lia.
Qed.

Lemma object_identity_injective_witness :
  (sample_object = sample_object ∧ sample_ns = sample_ns) ∧
  ObjectSerialize sample_object sample_ns ≠ ObjectSerialize shifted_object sample_ns.
Proof.
  split.
  - apply (object_identity_injective sample_object sample_ns sample_object sample_ns
      sample_ns_typed sample_ns_typed sample_object_typed sample_object_typed);
      vm_compute; reflexivity.
  - intros H. destruct (object_identity_injective sample_object sample_ns shifted_object sample_ns
      sample_ns_typed sample_ns_typed sample_object_typed shifted_object_typed) as [E _];
      [vm_compute; reflexivity..|exact H|discriminate E].
Defined.
