(* ===== verification/KeyMap.v ===== *)
(** * From namespace and object bytes to a block key

    src/client/key_map.h: the parser that recognises canonical namespace bytes
    and finds the tenant in them, and the two domain-separated SHA-256 inputs a
    [BlockKey] is cut from. *)

From S2P Require Import Prelude KvTypes Codec Sha256 Namespace.

#[local] Open Scope Z_scope.

(** ** Reading the namespace bytes *)

(** The lambdas [u16], [u32] and [u64]: [n] little-endian bytes at [pos] if they
    are there, and the next position. *)
Definition rd (n : nat) (s : list Z) (pos : nat) : option (Z * nat) :=
  if (length s <? pos)%nat || (length s - pos <? n)%nat then None
  else Some (or_word (take n (drop pos s)), (pos + n)%nat).

(** The lambda [field]: offset and length of a string, and the next position. *)
Definition field (s : list Z) (pos : nat) : option (nat * nat * nat) :=
  '(n, pos) ← rd 4 s pos;
  if (n =? 0) || (Z.shiftl 1 20 <? n) || (Z.of_nat (length s - pos) <? n) then None
  else Some (pos, Z.to_nat n, (pos + Z.to_nat n)%nat).

(** The loop over the rank axes. *)
Fixpoint axes (n : nat) (s : list Z) (pos : nat) : option nat :=
  match n with
  | O => Some pos
  | S n =>
      '(world_size, pos) ← rd 4 s pos;
      '(rank, pos) ← rd 4 s pos;
      if (world_size =? 0) || (negb (rank =? UINT32_MAX) && (world_size <=? rank)) then None
      else axes n s pos
  end.

(** Offset and length of the tenant, or [None]: not canonical. *)
Definition CanonicalTenantIdentity (s : list Z) : option (nat * nat) :=
  if (length s <? 12)%nat || negb (bool_decide (take 8 s = kNamespaceMagic)) then None
  else
    '(first_offset, first_length, pos) ← field s 8;
    '(_, _, pos) ← field s pos;
    '(_, _, pos) ← field s pos;
    '(pool_kind, pos) ← rd 2 s pos;
    if negb (((1 <=? pool_kind) && (pool_kind <=? 8)) || (pool_kind =? 65535)) then None
    else
      '(_, _, pos) ← field s pos;
      '(_, _, pos) ← field s pos;
      '(layout_fingerprint, pos) ← rd 8 s pos;
      '(block_tokens, pos) ← rd 4 s pos;
      '(_, pos) ← rd 4 s pos;
      '(layer_begin, pos) ← rd 4 s pos;
      '(layer_count, pos) ← rd 4 s pos;
      if (layout_fingerprint =? 0) || (block_tokens =? 0) || (layer_count =? 0)
         || (UINT32_MAX <? layer_begin + layer_count)
      then None
      else
        pos ← axes 3 s pos;
        if negb (pos =? length s)%nat then None else Some (first_offset, first_length).

(** ** Keys *)

Definition AppendKeyU64 (out : list Z) (value : Z) : list Z := out ++ word_bytes 8 value.

Definition KeyDigestWord (bytes : list Z) : Z :=
  foldl (λ value b, Z.lor (u64 (Z.shiftl value 8)) b) 0 (take 8 bytes).

(** "DFKVTENANT1" and "DFKVKEY2". *)
Definition kTenantDomain : list Z := [68; 70; 75; 86; 84; 69; 78; 65; 78; 84; 49].
Definition kKeyDomain : list Z := [68; 70; 75; 86; 75; 69; 89; 50].

Definition tenant_identity (key_namespace : list Z) : list Z :=
  match CanonicalTenantIdentity key_namespace with
  | Some (offset, length) => take length (drop offset key_namespace)
  | None => key_namespace
  end.

Definition tenant_input (identity : list Z) : list Z :=
  AppendKeyU64 kTenantDomain (u64 (Z.of_nat (length identity))) ++ identity.

Definition TenantHash (key_namespace : list Z) : Z :=
  KeyDigestWord (Sha256 (tenant_input (tenant_identity key_namespace))).

Definition key_input (key_namespace object_key : list Z) : list Z :=
  AppendKeyU64 (AppendKeyU64 kKeyDomain (u64 (Z.of_nat (length key_namespace))) ++ key_namespace)
    (u64 (Z.of_nat (length object_key))) ++ object_key.

Definition ToBlockKey (key_namespace object_key : list Z) : BlockKey :=
  let digest := Sha256 (key_input key_namespace object_key) in
  mkBlockKey (KeyDigestWord digest) (KeyDigestWord (drop 8 digest)) (TenantHash key_namespace).

(** ** Readers *)

Lemma rd_spec n s pos v pos' :
  bytes s →
  rd n s pos = Some (v, pos') ↔
  drop pos s = word_bytes n v ++ drop pos' s ∧ 0 <= v < 256 ^ Z.of_nat n ∧ pos' = (pos + n)%nat ∧
  (pos + n <= length s)%nat.
Proof.
  intros Hb. unfold rd.
  assert (Hbt : bytes (take n (drop pos s))) by (apply Forall_take, Forall_drop, Hb).
  destruct (Nat.ltb_spec (length s) pos); cbn [orb]; [naive_solver lia|].
  destruct (Nat.ltb_spec (length s - pos) n); [naive_solver lia|].
  assert (Hl : length (take n (drop pos s)) = n) by (rewrite length_take, length_drop; lia).
  rewrite or_word_value by done. split.
  - intros [= <- <-]. pose proof (le_value_bound _ Hbt) as Hv. rewrite Hl in Hv.
    split_and!; try lia. rewrite word_bytes_le.
    pose proof (le_bytes_value _ Hbt) as Hr. rewrite Hl in Hr. by rewrite Hr, <- drop_drop, take_drop.
  - intros (E & Hv & -> & Hle). rewrite E, take_app_length' by (by rewrite length_word_bytes).
    by rewrite word_bytes_le, le_value_bytes.
Qed.

Lemma field_spec' s pos o l pos' :
  bytes s →
  field s pos = Some (o, l, pos') ↔
  ∃ v, drop pos s = str v ++ drop pos' s ∧ field_ok v ∧ l = length v ∧ o = (pos + 4)%nat ∧
    pos' = (pos + 4 + length v)%nat ∧ (pos' <= length s)%nat.
Proof.
  intros Hb. unfold field, field_ok, kMaxFieldBytes. rewrite Z.shiftl_1_l.
  destruct (rd 4 s pos) as [[n p]|] eqn:Er; cbn [mbind option_bind].
  - apply rd_spec in Er as (E & Hn & -> & Hle); [|done]. split.
    + destruct (Z.eqb_spec n 0); cbn [orb]; [done|]. destruct (Z.ltb_spec (2 ^ 20) n); cbn [orb]; [done|].
      destruct (Z.ltb_spec (Z.of_nat (length s - (pos + 4))) n); [done|]. intros [= <- <- <-].
      exists (take (Z.to_nat n) (drop (pos + 4) s)).
      assert (Hl : length (take (Z.to_nat n) (drop (pos + 4) s)) = Z.to_nat n)
        by (rewrite length_take, length_drop; lia).
      rewrite Hl. split_and!; try lia. unfold str. rewrite Hl, E, Z2Nat.id, u32_id by (unfold is_u32; lia).
      rewrite <- app_assoc. f_equal. by rewrite <- (drop_drop s _ (pos + 4)), take_drop.
    + intros (v & E' & Hv & -> & -> & -> & Hle'). rewrite E in E'. unfold str in E'. rewrite <- app_assoc in E'.
      apply word_inj in E' as [-> _]; [|done|apply u32_range].
      rewrite u32_id by (unfold is_u32; lia). rewrite (proj2 (Z.eqb_neq _ 0)) by lia.
      rewrite !(proj2 (Z.ltb_ge _ _)) by lia. cbn [orb]. by rewrite Nat2Z.id.
  - split; [done|]. intros (v & E & Hv & -> & -> & -> & Hle).
    assert (Hs : rd 4 s pos = Some (Z.of_nat (length v), pos + 4)%nat); [|congruence].
    apply rd_spec; [done|]. unfold str in E. rewrite <- app_assoc, u32_id in E by (unfold is_u32; lia).
    split_and!; try lia. rewrite E. f_equal.
    by rewrite <- (drop_drop s 4 pos), E, drop_app_length' by (by rewrite length_word_bytes).
Qed.

Lemma rd_read n s pos v r :
  bytes s → (0 < n)%nat → drop pos s = word_bytes n v ++ r → 0 <= v < 256 ^ Z.of_nat n →
  rd n s pos = Some (v, pos + n)%nat ∧ drop (pos + n) s = r.
Proof.
  intros Hb Hn E Hv. pose proof (drop_prefix _ _ _ _ E) as Hr. rewrite length_word_bytes in Hr.
  pose proof (drop_bound _ _ _ _ E) as Hl. rewrite length_word_bytes in Hl. split; [|done].
  apply rd_spec; [done|]. rewrite Hr. split_and!; (done || lia).
Qed.

Lemma field_read s pos v r :
  bytes s → drop pos s = str v ++ r → field_ok v →
  field s pos = Some (pos + 4, length v, pos + 4 + length v)%nat ∧ drop (pos + 4 + length v) s = r.
Proof.
  intros Hb E Hv. pose proof (drop_prefix _ _ _ _ E) as Hr. rewrite length_str, Nat.add_assoc in Hr.
  pose proof (drop_bound _ _ _ _ E) as Hl. rewrite length_str in Hl. split; [|done].
  apply field_spec'; [done|]. exists v. rewrite Hr. split_and!; (done || lia).
Qed.

(** The ranks the parser lets through: it compares the unsigned bits. *)
Definition rank_accepted (c : RankCoordinate) : Prop :=
  world_size c ≠ 0 ∧ (u32 (rank c) = UINT32_MAX ∨ u32 (rank c) < world_size c).

Record ns_accepted (d : NamespaceDescriptor) : Prop := {
  na_tenant : field_ok (tenant_id d); na_model : field_ok (model_id d); na_rev : field_ok (model_revision d);
  na_kind : pool_kind d ∈ named_kinds; na_pool : field_ok (pool_name d); na_dtype : field_ok (dtype d);
  na_layout : layout_fingerprint d ≠ 0; na_tokens : block_tokens d ≠ 0;
  na_layers : layer_count d ≠ 0 ∧ layer_begin d + layer_count d <= UINT32_MAX;
  na_ranks : Forall rank_accepted [tp d; dp d; pp d];
}.

Lemma rank_ok_accepted c : rank_typed c → rank_ok c → rank_accepted c.
Proof.
  intros [Hw Hr] [H0 H1]. unfold is_u32, is_i32, UINT32_MAX in *. split; [done|].
  destruct (Z.eq_dec (rank c) (-1)) as [->|]; [by left|]. right. rewrite u32_id; unfold is_u32; lia.
Qed.

(** With at most 2^31 ranks on an axis the parser and [Validate] agree. *)
Lemma rank_accepted_ok c : rank_typed c → world_size c <= 2 ^ 31 → rank_accepted c → rank_ok c.
Proof.
  intros [Hw Hr] Hs [H0 H1]. unfold is_u32, is_i32, UINT32_MAX in *. split; [done|].
  destruct (Z.lt_ge_cases (rank c) 0) as [Hneg|Hpos].
  - assert (E : u32 (rank c) = rank c + 2 ^ 32).
    { unfold u32. rewrite <- (Z.mod_add _ 1 (2 ^ 32)), Z.mod_small by lia. lia. }
    rewrite E in H1. lia.
  - rewrite u32_id in H1 by (unfold is_u32; lia). lia.
Qed.

(** An unsigned word is the bits of some [int32_t]. *)
Definition to_i32 (v : Z) : Z := if v <? 2 ^ 31 then v else v - 2 ^ 32.

Lemma to_i32_spec v : is_u32 v → is_i32 (to_i32 v) ∧ u32 (to_i32 v) = v.
Proof.
  unfold is_u32, is_i32, to_i32. intros Hv. destruct (Z.ltb_spec v (2 ^ 31)).
  - split; [lia|]. by apply u32_id.
  - split; [lia|]. unfold u32. rewrite <- (Z.mod_add _ 1 (2 ^ 32)), Z.mod_small by lia. lia.
Qed.

Lemma axes_spec n s pos pos' :
  bytes s → axes n s pos = Some pos' →
  ∃ cs, length cs = n ∧ Forall rank_typed cs ∧ Forall rank_accepted cs ∧
    drop pos s = concat (rank_bytes <$> cs) ++ drop pos' s ∧ pos' = (pos + 8 * n)%nat ∧
    (n ≠ 0%nat → pos' <= length s)%nat.
Proof.
  intros Hb. revert pos. induction n as [|n IH]; intros pos; cbn [axes].
  { intros [= <-]. exists []. split_and!; try done; lia. }
  destruct (rd 4 s pos) as [[w p1]|] eqn:E1; cbn [mbind option_bind]; [|done].
  destruct (rd 4 s p1) as [[r p2]|] eqn:E2; cbn [mbind option_bind]; [|done].
  apply rd_spec in E1 as (D1 & B1 & -> & L1); [|done]. apply rd_spec in E2 as (D2 & B2 & -> & L2); [|done].
  destruct (Z.eqb_spec w 0); cbn [orb]; [done|].
  destruct (negb (r =? UINT32_MAX) && (w <=? r)) eqn:Ec; [done|]. intros Ha.
  destruct (IH _ Ha) as (cs & Hl & Ht & Hacc & Hd & -> & Hle).
  destruct (to_i32_spec r B2) as [Hi Hu]. exists (mkRank w (to_i32 r) :: cs).
  split_and!; [simpl; lia|by constructor| | |lia|lia].
  - constructor; [|done]. split; [done|]. simpl. rewrite Hu.
    apply andb_false_iff in Ec as [Ec|Ec]; [left|right]; [|lia]. apply negb_false_iff in Ec. lia.
  - cbn [fmap list_fmap concat]. unfold rank_bytes at 1. simpl world_size. simpl rank. rewrite Hu.
    rewrite <- !app_assoc, <- Hd, <- D2. done.
Qed.

Lemma axes_read cs s pos r :
  bytes s → drop pos s = concat (rank_bytes <$> cs) ++ r → Forall rank_typed cs → Forall rank_accepted cs →
  axes (length cs) s pos = Some (pos + 8 * length cs)%nat ∧ drop (pos + 8 * length cs) s = r.
Proof.
  intros Hb. revert pos. induction cs as [|c cs IH]; intros pos E Ht Ha; cbn [axes length].
  { by rewrite Nat.mul_0_r, Nat.add_0_r. }
  apply Forall_cons in Ht as [[Hw Hr] Ht]. apply Forall_cons in Ha as [[A1 A2] Ha].
  cbn [fmap list_fmap concat] in E. unfold rank_bytes at 1 in E. rewrite <- !app_assoc in E.
  destruct (rd_read 4 s pos _ _ Hb ltac:(lia) E Hw) as [-> E1]. cbn [mbind option_bind].
  destruct (rd_read 4 s _ _ _ Hb ltac:(lia) E1 (u32_range _)) as [-> E2]. cbn [mbind option_bind].
  rewrite (proj2 (Z.eqb_neq _ 0)) by done. cbn [orb].
  assert (negb (u32 (rank c) =? UINT32_MAX) && (world_size c <=? u32 (rank c)) = false) as ->.
  { apply andb_false_iff. destruct A2 as [->|A2]; [by left|right]. by apply Z.leb_gt. }
  destruct (IH _ E2 Ht Ha) as [-> E3].
  replace (pos + 8 * S (length cs))%nat with (pos + 4 + 4 + 8 * length cs)%nat by lia. done.
Qed.

(** ** The parser *)

(** The kinds the parser lets through are the named ones. *)
Lemma named_kinds_spec v :
  (((1 <=? v) && (v <=? 8)) || (v =? 65535)) = true ↔ v ∈ named_kinds.
Proof.
  unfold named_kinds, kAttention, kMla, kMamba, kSwa, kIndexer, kDraftAttention, kDraftMla, kDraftIndexer, kCustom.
  rewrite !elem_of_cons, elem_of_nil, orb_true_iff, andb_true_iff, !Z.leb_le, Z.eqb_eq. lia.
Qed.

Lemma NamespaceSerialize_bytes d : ns_typed d → bytes (NamespaceSerialize d).
Proof.
  intros T. rewrite NamespaceSerialize_flat. unfold str, rank_bytes, bytes.
  rewrite !Forall_app. split_and!; try apply word_bytes_ok; try apply T.
  repeat constructor; lia.
Qed.

(** The parser accepts what [Serialize] wrote. *)
Lemma canonical_complete d :
  ns_typed d → ns_accepted d →
  CanonicalTenantIdentity (NamespaceSerialize d) = Some (12%nat, length (tenant_id d)).
Proof.
  intros T A. pose proof (NamespaceSerialize_bytes d T) as Hb.
  pose proof (length_NamespaceSerialize d) as Hlen. pose proof (NamespaceSerialize_flat d) as E.
  set (s := NamespaceSerialize d) in *. clearbody s. unfold CanonicalTenantIdentity.
  rewrite (proj2 (Nat.ltb_ge (length s) 12)) by lia.
  assert (Hm : take 8 s = kNamespaceMagic) by (by rewrite E). rewrite bool_decide_true by done. cbn [orb negb].
  assert (E0 : drop 8 s = drop 8 s) by done. rewrite E in E0 at 2.
  change (drop 8 (kNamespaceMagic ++ ?r)) with r in E0. clear E Hm.
  destruct (field_read s 8 _ _ Hb E0 (na_tenant _ A)) as [-> E1]. cbn [mbind option_bind].
  destruct (field_read s _ _ _ Hb E1 (na_model _ A)) as [-> E2]. cbn [mbind option_bind].
  destruct (field_read s _ _ _ Hb E2 (na_rev _ A)) as [-> E3]. cbn [mbind option_bind].
  destruct (rd_read 2 s _ _ _ Hb ltac:(lia) E3 (nt_kind _ T)) as [-> E4]. cbn [mbind option_bind].
  rewrite (proj2 (named_kinds_spec _) (na_kind _ A)). cbn [negb].
  destruct (field_read s _ _ _ Hb E4 (na_pool _ A)) as [-> E5]. cbn [mbind option_bind].
  destruct (field_read s _ _ _ Hb E5 (na_dtype _ A)) as [-> E6]. cbn [mbind option_bind].
  destruct (rd_read 8 s _ _ _ Hb ltac:(lia) E6 (nt_layout _ T)) as [-> E7]. cbn [mbind option_bind].
  destruct (rd_read 4 s _ _ _ Hb ltac:(lia) E7 (nt_tokens _ T)) as [-> E8]. cbn [mbind option_bind].
  destruct (rd_read 4 s _ _ _ Hb ltac:(lia) E8 (nt_group _ T)) as [-> E9]. cbn [mbind option_bind].
  destruct (rd_read 4 s _ _ _ Hb ltac:(lia) E9 (nt_begin _ T)) as [-> E10]. cbn [mbind option_bind].
  destruct (rd_read 4 s _ _ _ Hb ltac:(lia) E10 (nt_count _ T)) as [-> E11]. cbn [mbind option_bind].
  destruct A as [_ _ _ _ _ _ A1 A2 [A3 A4] A5].
  rewrite !(proj2 (Z.eqb_neq _ 0)), (proj2 (Z.ltb_ge _ _)) by (done || lia). cbn [orb].
  edestruct (axes_read [tp d; dp d; pp d] s) as [Hax _]; [done| | | |].
  { cbn [fmap list_fmap concat]. rewrite app_nil_r, <- (app_nil_r (_ ++ _)) in *. exact E11. }
  { rewrite !Forall_cons, Forall_nil. split_and!; try apply T. done. }
  { done. }
  cbn [length] in Hax. rewrite Hax. cbn [mbind option_bind].
  match goal with |- context [(?a =? ?b)%nat] => destruct (Nat.eqb_spec a b) end; [done|]. lia.
Qed.

(** What the parser accepts is the serialization of a descriptor. *)
Lemma canonical_sound s o l :
  bytes s → CanonicalTenantIdentity s = Some (o, l) →
  ∃ d, ns_typed d ∧ ns_accepted d ∧ s = NamespaceSerialize d.
Proof.
  intros Hb. unfold CanonicalTenantIdentity. destruct (length s <? 12)%nat; cbn [orb]; [done|].
  case_bool_decide as Hm; cbn [negb]; [|done].
  destruct (field s 8) as [[[o1 l1] p1]|] eqn:E1; cbn [mbind option_bind]; [|done].
  destruct (field s p1) as [[[o2 l2] p2]|] eqn:E2; cbn [mbind option_bind]; [|done].
  destruct (field s p2) as [[[o3 l3] p3]|] eqn:E3; cbn [mbind option_bind]; [|done].
  destruct (rd 2 s p3) as [[k p4]|] eqn:E4; cbn [mbind option_bind]; [|done].
  destruct (((1 <=? k) && (k <=? 8)) || (k =? 65535)) eqn:Ek; cbn [negb]; [|done].
  destruct (field s p4) as [[[o5 l5] p5]|] eqn:E5; cbn [mbind option_bind]; [|done].
  destruct (field s p5) as [[[o6 l6] p6]|] eqn:E6; cbn [mbind option_bind]; [|done].
  destruct (rd 8 s p6) as [[lf p7]|] eqn:E7; cbn [mbind option_bind]; [|done].
  destruct (rd 4 s p7) as [[bt p8]|] eqn:E8; cbn [mbind option_bind]; [|done].
  destruct (rd 4 s p8) as [[gi p9]|] eqn:E9; cbn [mbind option_bind]; [|done].
  destruct (rd 4 s p9) as [[lb p10]|] eqn:E10; cbn [mbind option_bind]; [|done].
  destruct (rd 4 s p10) as [[lc p11]|] eqn:E11; cbn [mbind option_bind]; [|done].
  destruct (Z.eqb_spec lf 0); cbn [orb]; [done|]. destruct (Z.eqb_spec bt 0); cbn [orb]; [done|].
  destruct (Z.eqb_spec lc 0); cbn [orb]; [done|]. destruct (Z.ltb_spec UINT32_MAX (lb + lc)); [done|].
  destruct (axes 3 s p11) as [p12|] eqn:Ea; cbn [mbind option_bind]; [|done].
  destruct (Nat.eqb_spec p12 (length s)) as [->|]; cbn [negb]; [|done]. intros _.
  apply field_spec' in E1 as (t & D1 & F1 & _), E2 as (m & D2 & F2 & _), E3 as (r & D3 & F3 & _),
    E5 as (pn & D5 & F5 & _), E6 as (dt & D6 & F6 & _); [|done..].
  apply rd_spec in E4 as (D4 & B4 & _), E7 as (D7 & B7 & _), E8 as (D8 & B8 & _), E9 as (D9 & B9 & _),
    E10 as (D10 & B10 & _), E11 as (D11 & B11 & _); [|done..].
  destruct (axes_spec 3 s p11 _ Hb Ea) as (cs & Hl & Ht & Hacc & Da & _).
  destruct cs as [|c1 [|c2 [|c3 [|]]]]; try done. apply named_kinds_spec in Ek.
  rewrite drop_all in Da. cbn [fmap list_fmap concat] in Da. rewrite !app_nil_r in Da.
  exists (mkNamespace t m r k pn dt lf bt gi lb lc c1 c2 c3).
  assert (Es : s = NamespaceSerialize (mkNamespace t m r k pn dt lf bt gi lb lc c1 c2 c3)).
  { rewrite NamespaceSerialize_flat.
    cbn [tenant_id model_id model_revision pool_kind pool_name dtype layout_fingerprint block_tokens group_id
      layer_begin layer_count tp dp pp]. rewrite <- Da, <- D11, <- D10, <- D9, <- D8, <- D7, <- D6,
      <- D5, <- D4, <- D3, <- D2, <- D1, <- Hm. by rewrite take_drop. }
  rewrite !Forall_cons in Ht. destruct Ht as (T1 & T2 & T3 & _).
  split_and!; [|by split|done].
  assert (Hall : bytes s) by done. rewrite Es, NamespaceSerialize_flat in Hall. unfold str, bytes in Hall.
  rewrite !Forall_app in Hall. simpl in Hall. split; simpl; (done || tauto).
Qed.

Lemma ns_valid_accepted d : ns_typed d → ns_valid d → pool_kind d ∈ named_kinds → ns_accepted d.
Proof.
  intros [] [] Hk. split; try done. rewrite !Forall_cons, Forall_nil. split_and!; try done; by apply rank_ok_accepted.
Qed.

(** ** Digest words *)

Lemma KeyDigestWord_range p : bytes p → is_u64 (KeyDigestWord p).
Proof.
  intros Hp. unfold KeyDigestWord. assert (Ht : bytes (take 8 p)) by (by apply Forall_take).
  revert Ht. generalize (take 8 p). intros l Hl. induction l as [|b l IH] using rev_ind; [done|].
  apply Forall_app in Hl as [Hl Hb]. apply Forall_cons in Hb as [Hb _]. rewrite foldl_app. cbn [foldl].
  set (v := foldl _ 0 l). unfold byte_ok in Hb. change 256 with (2 ^ 8) in Hb.
  rewrite Z.lor_comm. unfold is_u64. pose proof (u64_range (Z.shiftl v 8)) as Hu. unfold is_u64 in Hu.
  assert (Hm : u64 (Z.shiftl v 8) = Z.shiftl (v mod 2 ^ 56) 8).
  { unfold u64. rewrite !Z.shiftl_mul_pow2 by lia. change (2 ^ 64) with (2 ^ 56 * 2 ^ 8).
    by rewrite Z.mul_mod_distr_r by lia. }
  rewrite Hm, lor_shiftl by lia. pose proof (Z.mod_pos_bound v (2 ^ 56)). lia.
Qed.

(** ** Claims *)

(** C34. The parser recognises exactly the serialized descriptors: it accepts a
    byte string, with a tenant at offset 12, if and only if the string is
    [Serialize] of a descriptor of a named pool kind with well-formed fields whose
    ranks pass its unsigned comparison; a descriptor that [Validate], which does
    not look at the pool kind, accepts passes exactly when its kind is a named
    one, and one that passes with at most 2^31 ranks per axis is one [Validate]
    accepts. *)
Theorem canonical_exact s o l :
  bytes s →
  (CanonicalTenantIdentity s = Some (o, l) ↔
   ∃ d, ns_typed d ∧ ns_accepted d ∧ s = NamespaceSerialize d ∧ o = 12%nat ∧ l = length (tenant_id d)) ∧
  (∀ d, ns_typed d → (NamespaceValidate d None).1 = kOk → ns_accepted d ↔ pool_kind d ∈ named_kinds) ∧
  (∀ d, ns_typed d → ns_accepted d →
     Forall (λ c, world_size c <= 2 ^ 31) [tp d; dp d; pp d] → (NamespaceValidate d None).1 = kOk).
Proof.
  intros Hb. split_and!.
  - split.
    + intros H. destruct (canonical_sound s o l Hb H) as (d & T & A & ->).
      rewrite canonical_complete in H by done. injection H as <- <-. by exists d.
    + intros (d & T & A & -> & -> & ->). by apply canonical_complete.
  - intros d T V%NamespaceValidate_spec; [|done]. split; [by intros []|by apply ns_valid_accepted].
  - intros d T A Hw. apply NamespaceValidate_spec; [done|].
    destruct A as [? ? ? ? ? ? ? ? ? Hr]. rewrite !Forall_cons in Hw, Hr.
    destruct Hw as (W1 & W2 & W3 & _), Hr as (R1 & R2 & R3 & _), T.
    split; try done; by apply rank_accepted_ok.
Qed.

Lemma canonical_exact_witness :
  CanonicalTenantIdentity (NamespaceSerialize sample_ns) = Some (12%nat, 2%nat).
Proof.
  apply (canonical_exact (NamespaceSerialize sample_ns) 12 2 (NamespaceSerialize_bytes _ sample_ns_typed)).
  exists sample_ns. split; [exact sample_ns_typed|]. split; [|split; [reflexivity|split; reflexivity]].
  apply ns_valid_accepted; [exact sample_ns_typed| |apply named_kinds_spec; reflexivity].
  apply (proj1 (NamespaceValidate_spec sample_ns None sample_ns_typed)). vm_compute. reflexivity.
Defined.

(** The tenant part of a block key is a function of the tenant alone: in any
    namespace of a named pool kind that [Validate] accepts, whatever its model, pool, layout and ranks,
    [TenantHash] is the digest of the framed tenant identifier. *)
Theorem tenant_hash_of_namespace d object_key :
  ns_typed d → (NamespaceValidate d None).1 = kOk → pool_kind d ∈ named_kinds →
  tenant_hash (ToBlockKey (NamespaceSerialize d) object_key) =
  KeyDigestWord (Sha256 (tenant_input (tenant_id d))).
Proof.
  intros T V%NamespaceValidate_spec Hk; [|done]. cbn [tenant_hash ToBlockKey].
  unfold TenantHash, tenant_identity.
  rewrite canonical_complete by (done || by apply ns_valid_accepted). do 3 f_equal.
  rewrite NamespaceSerialize_flat. unfold str at 1. rewrite <- app_assoc, app_assoc.
  rewrite drop_app_length' by (by rewrite length_app, length_word_bytes). by rewrite take_app_length.
Qed.

Lemma tenant_hash_of_namespace_witness :
  tenant_hash (ToBlockKey (NamespaceSerialize sample_ns) [1; 2; 3]) =
  KeyDigestWord (Sha256 (tenant_input [116; 49])).
Proof.
  apply (tenant_hash_of_namespace sample_ns [1; 2; 3] sample_ns_typed);
    [vm_compute; reflexivity|apply named_kinds_spec; reflexivity].
Defined.

(** C35. Every key is well typed, and distinct inputs stay distinct up to SHA-256:
    the three words of [ToBlockKey] fit their 64-bit fields, and the byte string
    that is hashed determines both the namespace bytes and the object key. *)
Theorem block_key_typed key_namespace object_key key_namespace' object_key' :
  Z.of_nat (length key_namespace) < 2 ^ 64 → Z.of_nat (length key_namespace') < 2 ^ 64 →
  key_ok (ToBlockKey key_namespace object_key) ∧
  (key_input key_namespace object_key = key_input key_namespace' object_key' →
   key_namespace = key_namespace' ∧ object_key = object_key').
Proof.
  intros Hn Hn'. split.
  - pose proof (Sha256_bytes (key_input key_namespace object_key)) as H1.
    unfold key_ok, ToBlockKey, TenantHash. cbn [digest_hi digest_lo KvTypes.tenant_hash].
    split_and!; apply KeyDigestWord_range; [done|by apply Forall_drop|apply Sha256_bytes].
  - unfold key_input, AppendKeyU64. rewrite <- !app_assoc. intros H.
    apply app_inj_1 in H as [_ H]; [|done].
    apply word_inj in H as [E H]; [|apply u64_range|apply u64_range].
    rewrite !u64_id in E by (unfold is_u64; lia). apply app_inj_1 in H as [-> H]; [|lia].
    apply word_inj in H as [_ ->]; [done|apply u64_range|apply u64_range].
Qed.

Lemma block_key_typed_witness : key_ok (ToBlockKey (NamespaceSerialize sample_ns) [1; 2; 3]).
Proof.
  apply (block_key_typed (NamespaceSerialize sample_ns) [1; 2; 3] [] []); vm_compute; reflexivity.
Defined.

(** A rank below -1 with more than 2^31 ranks on the axis: [Validate] refuses
    the descriptor and the parser takes its bytes as canonical. *)
Definition odd_rank_ns : NamespaceDescriptor :=
  mkNamespace [116; 49] [109] [114] kMla [112] [102; 56] 7 64 0 0 32
    (mkRank (2 ^ 32 - 1) (-5)) (mkRank 1 (-1)) (mkRank 1 0).

Lemma odd_rank_canonical :
  (NamespaceValidate odd_rank_ns None).1 = kInvalid ∧
  CanonicalTenantIdentity (NamespaceSerialize odd_rank_ns) = Some (12%nat, 2%nat).
Proof. split; vm_compute; reflexivity. Qed.
