(* ===== verification/KeyName.v ===== *)
(** * File names of objects

    [BlockKey::Hex64], [Filename], [ParseFilename] and [StoreKey] of
    src/common/kv_types.h: the 48-character lower-case hexadecimal name of a key
    and its strict parser.  Characters are their ASCII codes. *)

From S2P Require Import Prelude KvTypes.

(** ** Printing *)

(** A digit of ["%016llx"]. *)
Definition hex_digit (n : Z) : Z := if n <? 10 then 48 + n else 97 + (n - 10).

Definition Hex64 (value : Z) : list Z :=
  (λ i, hex_digit (Z.land (Z.shiftr value (4 * (15 - Z.of_nat i))) 15)) <$> seq 0 16.

Definition DigestHex (k : BlockKey) : list Z := Hex64 (digest_hi k) ++ Hex64 (digest_lo k).
Definition Filename (k : BlockKey) : list Z := Hex64 (tenant_hash k) ++ DigestHex k.

(** "blocks/{first byte}/{first two bytes}/{filename}". *)
Definition StoreKey (k : BlockKey) : list Z :=
  let filename := Filename k in
  [98; 108; 111; 99; 107; 115; 47] ++ take 2 filename ++ [47] ++ take 4 filename ++ [47] ++ filename.

(** ** Parsing *)

Definition nibble (c : Z) : option Z :=
  if (48 <=? c) && (c <=? 57) then Some (c - 48)
  else if (97 <=? c) && (c <=? 102) then Some (c - 97 + 10)
  else None.

(** The lambda [word], on the sixteen characters at its offset. *)
Definition parse_word (cs : list Z) : option Z :=
  foldl (λ acc c, parsed ← acc; n ← nibble c; Some (Z.lor (u64 (Z.shiftl parsed 4)) n)) (Some 0) cs.

(** The key, and whether the name was accepted; [out] is left alone otherwise. *)
Definition ParseFilename (filename : list Z) (out : BlockKey) : bool * BlockKey :=
  if negb (length filename =? 48)%nat then (false, out)
  else
    match parse_word (take 16 filename), parse_word (take 16 (drop 16 filename)),
          parse_word (take 16 (drop 32 filename)) with
    | Some tenant, Some hi, Some lo => (true, mkBlockKey hi lo tenant)
    | _, _, _ => (false, out)
    end.

(** ** Lemmas *)

Lemma nibble_hex n : 0 <= n < 16 → nibble (hex_digit n) = Some n.
Proof.
  intros Hn. unfold nibble, hex_digit. destruct (Z.ltb_spec n 10).
  - rewrite !(proj2 (Z.leb_le _ _)) by lia. cbn [andb]. f_equal. lia.
  - rewrite (proj2 (Z.leb_gt (97 + (n - 10)) 57)), andb_false_r by lia.
    rewrite !(proj2 (Z.leb_le _ _)) by lia. cbn [andb]. f_equal. lia.
Qed.

Lemma hex_nibble c n : nibble c = Some n → 0 <= n < 16 ∧ hex_digit n = c.
Proof.
  unfold nibble, hex_digit. intros H.
  destruct (Z.leb_spec 48 c), (Z.leb_spec c 57), (Z.leb_spec 97 c), (Z.leb_spec c 102); simplify_eq/=;
    destruct (Z.ltb_spec (c - 48) 10) || idtac; destruct (Z.ltb_spec (c - 97 + 10) 10) || idtac; lia.
Qed.

(** The digits of a value, most significant first. *)
Fixpoint digits (n : nat) (v : Z) : list Z :=
  match n with O => [] | S n => digits n (v / 16) ++ [v mod 16] end.

Lemma length_digits n v : length (digits n v) = n.
Proof. revert v. induction n as [|n IH]; intros v; [done|]. simpl. rewrite length_app, IH. simpl. lia. Qed.

Lemma digits_range n v d : d ∈ digits n v → 0 <= d < 16.
Proof.
  revert v. induction n as [|n IH]; intros v; simpl; [by intros ?%elem_of_nil|].
  intros [?|H%list_elem_of_singleton]%elem_of_app; [by eapply IH|]. subst d. apply Z.mod_pos_bound. lia.
Qed.

Lemma Hex64_digits v : Hex64 v = hex_digit <$> digits 16 v.
Proof.
  unfold Hex64. change (λ i, hex_digit (Z.land (Z.shiftr v (4 * (15 - Z.of_nat i))) 15))
    with (hex_digit ∘ (λ i, Z.land (Z.shiftr v (4 * (15 - Z.of_nat i))) 15)).
  rewrite list_fmap_compose. f_equal.
  assert (H : ∀ n w, (λ i, Z.land (Z.shiftr w (4 * (Z.of_nat n - 1 - Z.of_nat i))) 15) <$> seq 0 n = digits n w).
  { induction n as [|n IH]; intros w; [done|]. rewrite seq_S, fmap_app. cbn [fmap list_fmap digits].
    f_equal.
    - rewrite <- IH. apply list_fmap_ext. intros j i Hi. apply lookup_seq in Hi as [-> Hj].
      change 15 with (Z.ones 4). rewrite !Z.land_ones, !Z.shiftr_div_pow2 by lia.
      replace (w / 16) with (w / 2 ^ 4) by done. rewrite Z.div_div, <- Z.pow_add_r by lia. do 3 f_equal. lia.
    - f_equal. change 15 with (Z.ones 4). rewrite Z.land_ones, Z.shiftr_div_pow2 by lia.
      replace (4 * (Z.of_nat (S n) - 1 - Z.of_nat (0 + n))) with 0 by lia. by rewrite Z.div_1_r. }
  rewrite <- H. done.
Qed.

(** The value of digits, most significant first. *)
Definition digits_value (ds : list Z) : Z := foldl (λ acc d, acc * 16 + d) 0 ds.

Lemma digits_value_snoc ds d : digits_value (ds ++ [d]) = digits_value ds * 16 + d.
Proof. unfold digits_value. by rewrite foldl_app. Qed.

Lemma digits_value_range ds :
  Forall (λ d, 0 <= d < 16) ds → 0 <= digits_value ds < 16 ^ Z.of_nat (length ds).
Proof.
  induction ds as [|d ds IH] using rev_ind; intros H; [simpl; done|].
  apply Forall_app in H as [H Hd]. apply Forall_cons in Hd as [Hd _]. specialize (IH H).
  rewrite digits_value_snoc, length_app, Nat2Z.inj_add, Z.pow_add_r by lia.
  change (Z.of_nat (length [d])) with 1. rewrite Z.pow_1_r. lia.
Qed.

Lemma digits_of_value n v : 0 <= v < 16 ^ Z.of_nat n → digits_value (digits n v) = v.
Proof.
  revert v. induction n as [|n IH]; intros v Hv; [unfold digits_value; simpl in *; lia|]. cbn [digits].
  rewrite Nat2Z.inj_succ, Z.pow_succ_r in Hv by lia. rewrite digits_value_snoc, IH.
  - pose proof (Z.div_mod v 16). lia.
  - split; [apply Z.div_pos; lia|apply Z.div_lt_upper_bound; lia].
Qed.

Lemma value_of_digits ds : Forall (λ d, 0 <= d < 16) ds → digits (length ds) (digits_value ds) = ds.
Proof.
  induction ds as [|d ds IH] using rev_ind; intros H; [done|].
  apply Forall_app in H as [H Hd]. apply Forall_cons in Hd as [Hd _].
  rewrite length_app, Nat.add_comm, digits_value_snoc. cbn [length Nat.add digits].
  rewrite (Z.add_comm _ d), Z.div_add, Z.mod_add, Z.div_small, Z.mod_small, Z.add_0_l by lia. by rewrite IH.
Qed.

(** [parse_word] computes the value of the digits. *)
Lemma parse_word_snoc cs c :
  parse_word (cs ++ [c]) =
  (parsed ← parse_word cs; n ← nibble c; Some (Z.lor (u64 (Z.shiftl parsed 4)) n)).
Proof. unfold parse_word. by rewrite foldl_app. Qed.

Lemma parse_word_spec cs v :
  (length cs <= 16)%nat →
  parse_word cs = Some v ↔ ∃ ds, Forall (λ d, 0 <= d < 16) ds ∧ cs = hex_digit <$> ds ∧ v = digits_value ds.
Proof.
  revert v. induction cs as [|c cs IH] using rev_ind; intros v Hl.
  { split; [intros [= <-]; by exists []|]. intros (ds & _ & H & ->).
    symmetry in H. by apply fmap_nil_inv in H as ->. }
  rewrite length_app in Hl. cbn [length] in Hl. rewrite parse_word_snoc.
  assert (Hstep : ∀ ds n, Forall (λ d, 0 <= d < 16) ds → length ds = length cs → 0 <= n < 16 →
    Z.lor (u64 (Z.shiftl (digits_value ds) 4)) n = digits_value (ds ++ [n])).
  { intros ds n Hds Hlen Hn. pose proof (digits_value_range ds Hds) as Hr.
    assert (Hp : 16 ^ Z.of_nat (length ds) <= 16 ^ 15) by (apply Z.pow_le_mono_r; lia).
    rewrite digits_value_snoc, Z.shiftl_mul_pow2, u64_id by (unfold is_u64; change (16 ^ 15) with (2 ^ 60) in Hp; lia).
    rewrite Z.lor_comm, <- Z.shiftl_mul_pow2 by lia.
    replace (Z.lor n (Z.shiftl (digits_value ds) 4)) with (n + digits_value ds * 2 ^ 4); [lia|].
    symmetry. rewrite <- Z.shiftl_mul_pow2 by lia.
    assert (Hla : Z.land n (Z.shiftl (digits_value ds) 4) = 0).
    { apply Z.bits_inj'. intros i Hi. rewrite Z.land_spec, Z.bits_0. destruct (Z.lt_ge_cases i 4).
      - by rewrite Z.shiftl_spec_low, andb_false_r.
      - rewrite (log2_lt_bits n 4) by lia. done. }
    rewrite <- Z.lxor_lor, <- Z.add_nocarry_lxor by done. done. }
  split.
  - destruct (parse_word cs) as [p|] eqn:Ep; cbn [mbind option_bind]; [|done].
    destruct (nibble c) as [n|] eqn:En; cbn [mbind option_bind]; [|done]. intros [= <-].
    apply hex_nibble in En as [Hn Hc]. destruct (proj1 (IH p ltac:(lia)) eq_refl) as (ds & Hds & -> & ->).
    exists (ds ++ [n]). split_and!; [apply Forall_app; split; [done|by constructor]| |].
    + rewrite fmap_app. simpl. by rewrite Hc.
    + apply Hstep; [done| |done]. by rewrite length_fmap.
  - intros (ds' & Hds & Hcs & ->). destruct ds' as [|n ds _] using rev_ind.
    { apply app_nil in Hcs as [_ ?]. done. }
    rewrite fmap_app in Hcs. apply app_inj_2 in Hcs as [Hcs [= Hc]]; [|done].
    apply Forall_app in Hds as [Hds Hn]. apply Forall_cons in Hn as [Hn _].
    rewrite (proj2 (IH (digits_value ds) ltac:(lia))) by (by exists ds). cbn [mbind option_bind].
    rewrite Hc, nibble_hex by done. cbn [mbind option_bind]. f_equal. apply Hstep; [done| |done].
    by rewrite Hcs, length_fmap.
Qed.

Lemma parse_word_Hex64 v : is_u64 v → parse_word (Hex64 v) = Some v.
Proof.
  intros Hv. rewrite Hex64_digits. apply parse_word_spec.
  - by rewrite length_fmap, length_digits.
  - exists (digits 16 v). split_and!; [|done|].
    + rewrite Forall_forall. intros d. apply digits_range.
    + symmetry. apply digits_of_value. exact Hv.
Qed.

Lemma Hex64_parse_word cs v : length cs = 16%nat → parse_word cs = Some v → Hex64 v = cs ∧ is_u64 v.
Proof.
  intros Hl (ds & Hds & -> & ->)%parse_word_spec; [|lia]. rewrite length_fmap in Hl.
  rewrite Hex64_digits, <- Hl, value_of_digits by done. split; [done|].
  pose proof (digits_value_range ds Hds) as H. rewrite Hl in H. exact H.
Qed.

Lemma length_Hex64 v : length (Hex64 v) = 16%nat.
Proof. done. Qed.

(** ** Claims *)

(** The file name is a bijection between keys and the names the parser
    accepts: the name of a key parses back to it, and a name that parses is, byte
    for byte, the name of the key it parses to (no upper case, no other length,
    no second spelling). *)
Theorem filename_round_trip k out :
  (key_ok k → ParseFilename (Filename k) out = (true, k)) ∧
  (∀ f k', ParseFilename f out = (true, k') → Filename k' = f ∧ key_ok k').
Proof.
  split.
  - intros (H1 & H2 & H3). unfold ParseFilename, Filename, DigestHex.
    rewrite !length_app, !length_Hex64. cbn [Nat.eqb Nat.add negb].
    set (a := Hex64 (tenant_hash k)). set (b := Hex64 (digest_hi k)). set (c := Hex64 (digest_lo k)).
    assert (Hd1 : drop 16 (a ++ b ++ c) = b ++ c) by (by rewrite drop_app_length').
    assert (Hd2 : drop 32 (a ++ b ++ c) = c) by (by rewrite app_assoc, drop_app_length').
    assert (Ht1 : take 16 (a ++ b ++ c) = a) by (by rewrite take_app_length').
    assert (Ht2 : take 16 (b ++ c) = b) by (by rewrite take_app_length').
    rewrite Hd1, Hd2, Ht1, Ht2, (take_ge c) by done. subst a b c.
    rewrite !parse_word_Hex64 by done. by destruct k.
  - intros f k'. unfold ParseFilename. destruct (Nat.eqb_spec (length f) 48) as [Hl|]; cbn [negb]; [|done].
    destruct (parse_word (take 16 f)) as [t|] eqn:E1; [|done].
    destruct (parse_word (take 16 (drop 16 f))) as [h|] eqn:E2; [|done].
    destruct (parse_word (take 16 (drop 32 f))) as [l|] eqn:E3; [|done]. intros [= <-].
    apply Hex64_parse_word in E1 as [F1 U1]; [|rewrite length_take; lia].
    apply Hex64_parse_word in E2 as [F2 U2]; [|rewrite length_take, length_drop; lia].
    apply Hex64_parse_word in E3 as [F3 U3]; [|rewrite length_take, length_drop; lia].
    split; [|by split_and!]. unfold Filename, DigestHex. cbn [tenant_hash digest_hi digest_lo].
    rewrite F1, F2, F3, (take_ge (drop 32 f)) by (rewrite length_drop; lia).
    change 32%nat with (16 + 16)%nat. by rewrite <- drop_drop, !take_drop.
Qed.

Lemma filename_round_trip_witness :
  ParseFilename (Filename (mkBlockKey 0xdeadbeef 255 (2 ^ 63))) (mkBlockKey 0 0 0) =
  (true, mkBlockKey 0xdeadbeef 255 (2 ^ 63)).
Proof.
  apply (filename_round_trip (mkBlockKey 0xdeadbeef 255 (2 ^ 63)) (mkBlockKey 0 0 0)).
  unfold key_ok, is_u64. simpl. lia.
Defined.
