(* ===== verification/Base64.v ===== *)
(** * Base64

    src/utils/base64.h: how etcd keys and values travel in JSON.  Characters and
    bytes are their codes. *)

From S2P Require Import Prelude Codec.

(** The table [T]: the character of a 6-bit value. *)
Definition b64_char (v : Z) : Z :=
  if v <? 26 then 65 + v else if v <? 52 then 97 + (v - 26) else if v <? 62 then 48 + (v - 52)
  else if v =? 62 then 43 else 47.

Definition sextet (n k : Z) : Z := Z.land (Z.shiftr n k) 63.

Definition PAD : Z := 61.

(** The loop over whole triples and the one or two bytes left. *)
Fixpoint Base64Encode (s : list Z) : list Z :=
  match s with
  | a :: b :: c :: s =>
      let n := Z.lor (Z.lor (Z.shiftl a 16) (Z.shiftl b 8)) c in
      b64_char (sextet n 18) :: b64_char (sextet n 12) :: b64_char (sextet n 6) :: b64_char (sextet n 0)
        :: Base64Encode s
  | [a; b] =>
      let n := Z.lor (Z.shiftl a 16) (Z.shiftl b 8) in
      [b64_char (sextet n 18); b64_char (sextet n 12); b64_char (sextet n 6); PAD]
  | [a] =>
      let n := Z.shiftl a 16 in [b64_char (sextet n 18); b64_char (sextet n 12); PAD; PAD]
  | [] => []
  end.

(** The lambda [val]: -1 for a character outside the alphabet. *)
Definition b64_val (c : Z) : Z :=
  if (65 <=? c) && (c <=? 90) then c - 65
  else if (97 <=? c) && (c <=? 122) then c - 97 + 26
  else if (48 <=? c) && (c <=? 57) then c - 48 + 52
  else if c =? 43 then 62
  else if c =? 47 then 63
  else -1.

Record DecodeState := mkDecode { d_buf : Z; d_bits : Z; d_out : list Z }.

(** One turn of the loop; [None]: a byte outside the alphabet. *)
Definition decode_step (st : DecodeState) (c : Z) : option DecodeState :=
  if (c =? PAD) || (c =? 10) || (c =? 13) then Some st
  else
    let v := b64_val c in
    if v <? 0 then None
    else
      let buf := Z.lor (u32 (Z.shiftl (d_buf st) 6)) v in
      let bits := d_bits st + 6 in
      if 8 <=? bits then
        let bits := bits - 8 in
        Some (mkDecode (Z.land buf (if bits =? 0 then 0 else Z.shiftl 1 bits - 1)) bits
                (d_out st ++ [Z.land (Z.shiftr buf bits) 255]))
      else Some (mkDecode buf bits (d_out st)).

Fixpoint decode_loop (st : DecodeState) (s : list Z) : bool * list Z :=
  match s with
  | [] => (true, d_out st)
  | c :: s =>
      match decode_step st c with
      | Some st => decode_loop st s
      | None => (false, d_out st)
      end
  end.

(** Success, and the contents of [*out]. *)
Definition Base64Decode (s : list Z) : bool * list Z := decode_loop (mkDecode 0 0 []) s.

(** ** Lemmas *)

Lemma b64_char_val v : 0 <= v < 64 → b64_val (b64_char v) = v ∧ b64_char v ≠ PAD ∧ b64_char v ≠ 10 ∧ b64_char v ≠ 13.
Proof.
  intros Hv. assert (Hall : Forall (λ v, b64_val (b64_char v) = v ∧ b64_char v ≠ PAD ∧ b64_char v ≠ 10 ∧ b64_char v ≠ 13)
    (Z.of_nat <$> seq 0 64)).
  { apply (bool_decide_unpack _). vm_compute. done. }
  rewrite Forall_forall in Hall. apply Hall. apply list_elem_of_fmap. exists (Z.to_nat v).
  split; [lia|]. apply elem_of_seq. lia.
Qed.

Lemma sextet_div n k : 0 <= k → sextet n k = n / 2 ^ k mod 64.
Proof.
  intros Hk. unfold sextet. change 63 with (Z.ones 6). by rewrite Z.land_ones, Z.shiftr_div_pow2 by lia.
Qed.

Lemma sextet_range n k : 0 <= sextet n k < 64.
Proof.
  unfold sextet. change 63 with (Z.ones 6). rewrite Z.land_ones by lia. apply Z.mod_pos_bound. lia.
Qed.

(** A character of the alphabet shifts six bits in; when eight are there a byte
    comes out.  The buffer always holds just the bits not yet written. *)
Lemma decode_step_char st v :
  0 <= v < 64 → 0 <= d_bits st < 8 → 0 <= d_buf st < 2 ^ d_bits st →
  decode_step st (b64_char v) =
  if 2 <=? d_bits st then
    Some (mkDecode ((d_buf st * 64 + v) mod 2 ^ (d_bits st - 2)) (d_bits st - 2)
            (d_out st ++ [(d_buf st * 64 + v) / 2 ^ (d_bits st - 2)]))
  else Some (mkDecode (d_buf st * 64 + v) (d_bits st + 6) (d_out st)).
Proof.
  intros Hv Hbits Hbuf. destruct (b64_char_val v Hv) as (Hval & H1 & H2 & H3).
  unfold decode_step. rewrite !(proj2 (Z.eqb_neq _ _)), Hval by done. cbn [orb].
  rewrite (proj2 (Z.ltb_ge v 0)) by lia. destruct st as [buf bits out]. cbn [d_buf d_bits d_out] in *.
  assert (Hb : buf < 2 ^ 7).
  { assert (2 ^ bits <= 2 ^ 7) by (apply Z.pow_le_mono_r; lia). lia. }
  rewrite u32_id by (unfold is_u32; rewrite Z.shiftl_mul_pow2 by lia; lia).
  rewrite Z.lor_comm, lor_shiftl by lia. change (2 ^ 6) with 64. rewrite (Z.add_comm v).
  replace (8 <=? bits + 6) with (2 <=? bits) by lia. destruct (Z.leb_spec 2 bits); [|done].
  replace (bits + 6 - 8) with (bits - 2) by lia.
  assert (Hm : (if bits - 2 =? 0 then 0 else Z.shiftl 1 (bits - 2) - 1) = Z.ones (bits - 2)).
  { destruct (Z.eqb_spec (bits - 2) 0) as [->|]; [done|]. rewrite Z.shiftl_1_l, Z.ones_equiv. lia. }
  rewrite Hm, Z.land_ones by lia. do 3 f_equal. f_equal. change 255 with (Z.ones 8).
  rewrite Z.land_ones, Z.shiftr_div_pow2 by lia. apply Z.mod_small. split; [apply Z.div_pos; lia|].
  apply Z.div_lt_upper_bound; [lia|]. rewrite <- Z.pow_add_r by lia.
  replace (bits - 2 + 8) with (bits + 6) by lia. rewrite Z.pow_add_r by lia. change (2 ^ 6) with 64. lia.
Qed.

(** The first step on an empty buffer. *)
Lemma decode_first out v cs :
  0 <= v < 64 →
  decode_loop (mkDecode 0 0 out) (b64_char v :: cs) = decode_loop (mkDecode v 6 out) cs.
Proof.
  intros Hv. cbn [decode_loop]. rewrite decode_step_char by (simpl; lia). cbn [d_buf d_bits d_out].
  by rewrite Z.mul_0_l, !Z.add_0_l.
Qed.

(** The steps that write a byte. *)
Lemma decode_next buf bits out v cs :
  0 <= v < 64 → 2 <= bits < 8 → 0 <= buf < 2 ^ bits →
  decode_loop (mkDecode buf bits out) (b64_char v :: cs) =
  decode_loop (mkDecode ((buf * 64 + v) mod 2 ^ (bits - 2)) (bits - 2) (out ++ [(buf * 64 + v) / 2 ^ (bits - 2)])) cs.
Proof.
  intros Hv Hb Hbuf. cbn [decode_loop]. rewrite decode_step_char by (simpl; lia). cbn [d_buf d_bits d_out].
  by rewrite (proj2 (Z.leb_le 2 bits)) by lia.
Qed.

Lemma decode_pad st cs : decode_loop st (PAD :: cs) = decode_loop st cs.
Proof. done. Qed.

Lemma decode_triple a b c out cs n :
  byte_ok a → byte_ok b → byte_ok c → n = a * 65536 + b * 256 + c →
  decode_loop (mkDecode 0 0 out)
    (b64_char (sextet n 18) :: b64_char (sextet n 12) :: b64_char (sextet n 6) :: b64_char (sextet n 0) :: cs) =
  decode_loop (mkDecode 0 0 (out ++ [a; b; c])) cs.
Proof.
  unfold byte_ok. intros Ha Hb Hc Hn.
  rewrite decode_first by apply sextet_range. pose proof (sextet_range n 18).
  rewrite decode_next by (apply sextet_range || lia). change (2 ^ (6 - 2)) with 16. change (6 - 2) with 4.
  rewrite decode_next by (apply sextet_range || (apply Z.mod_pos_bound; lia) || lia).
  change (2 ^ (4 - 2)) with 4. change (4 - 2) with 2.
  rewrite decode_next by (apply sextet_range || (apply Z.mod_pos_bound; lia) || lia).
  change (2 ^ (2 - 2)) with 1. change (2 - 2) with 0.
  rewrite !sextet_div, <- !app_assoc by lia.
  change (2 ^ 18) with 262144. change (2 ^ 12) with 4096. change (2 ^ 6) with 64. change (2 ^ 0) with 1.
  cbn [app]. f_equal. f_equal; [by rewrite Z.mod_1_r|]. f_equal.
  assert (E1 : (n / 262144 mod 64 * 64 + n / 4096 mod 64) / 16 = a)
    by (clear - Ha Hb Hc Hn; subst n; Z.to_euclidean_division_equations; lia).
  assert (E2 : ((n / 262144 mod 64 * 64 + n / 4096 mod 64) mod 16 * 64 + n / 64 mod 64) / 4 = b)
    by (clear - Ha Hb Hc Hn; subst n; Z.to_euclidean_division_equations; lia).
  assert (E3 : (((n / 262144 mod 64 * 64 + n / 4096 mod 64) mod 16 * 64 + n / 64 mod 64) mod 4 * 64 + n / 1 mod 64) / 1 = c)
    by (clear - Ha Hb Hc Hn; subst n; Z.to_euclidean_division_equations; lia).
  by rewrite E1, E2, E3.
Qed.

Lemma triple_word a b c :
  byte_ok a → byte_ok b → byte_ok c →
  Z.lor (Z.lor (Z.shiftl a 16) (Z.shiftl b 8)) c = a * 65536 + b * 256 + c.
Proof.
  unfold byte_ok. intros Ha Hb Hc. rewrite <- Z.lor_assoc, (Z.lor_comm (Z.shiftl b 8)), (lor_shiftl c b 8) by lia.
  change (2 ^ 8) with 256. rewrite Z.lor_comm, lor_shiftl by lia. change (2 ^ 16) with 65536. lia.
Qed.

(** Decoding what was encoded appends the bytes. *)
Lemma decode_encode s out :
  Forall byte_ok s → decode_loop (mkDecode 0 0 out) (Base64Encode s) = (true, out ++ s).
Proof.
  remember (length s) as len eqn:Hlen. revert s out Hlen.
  induction len as [len IH] using lt_wf_ind. intros s out -> Hs.
  destruct s as [|a [|b [|c s]]]; cbn [Base64Encode].
  - by rewrite app_nil_r.
  - apply Forall_cons in Hs as [Ha _]. unfold byte_ok in Ha.
    rewrite decode_first by apply sextet_range. pose proof (sextet_range (Z.shiftl a 16) 18).
    rewrite decode_next by (apply sextet_range || lia). rewrite !decode_pad. cbn [decode_loop d_out].
    do 3 f_equal. rewrite !sextet_div, Z.shiftl_mul_pow2 by lia. simpl (2 ^ _).
    change (2 ^ 16) with 65536. clear - Ha. Z.to_euclidean_division_equations. lia.
  - apply Forall_cons in Hs as [Ha Hs]. apply Forall_cons in Hs as [Hb _].
    pose proof (triple_word a b 0 Ha Hb ltac:(unfold byte_ok; lia)) as Hn. rewrite Z.lor_0_r in Hn. rewrite Hn.
    unfold byte_ok in *. set (n := a * 65536 + b * 256 + 0) in *.
    rewrite decode_first by apply sextet_range. pose proof (sextet_range n 18).
    rewrite decode_next by (apply sextet_range || lia). change (2 ^ (6 - 2)) with 16. change (6 - 2) with 4.
    rewrite decode_next by (apply sextet_range || (apply Z.mod_pos_bound; lia) || lia).
    change (2 ^ (4 - 2)) with 4. rewrite decode_pad. cbn [decode_loop d_out].
    rewrite !sextet_div, <- !app_assoc by lia.
    change (2 ^ 18) with 262144. change (2 ^ 12) with 4096. change (2 ^ 6) with 64. cbn [app]. do 2 f_equal.
    assert (E1 : (n / 262144 mod 64 * 64 + n / 4096 mod 64) / 16 = a)
      by (clear - Ha Hb n; subst n; Z.to_euclidean_division_equations; lia).
    assert (E2 : ((n / 262144 mod 64 * 64 + n / 4096 mod 64) mod 16 * 64 + n / 64 mod 64) / 4 = b)
      by (clear - Ha Hb n; subst n; Z.to_euclidean_division_equations; lia).
    by rewrite E1, E2.
  - apply Forall_cons in Hs as [Ha Hs]. apply Forall_cons in Hs as [Hb Hs]. apply Forall_cons in Hs as [Hc Hs].
    rewrite (decode_triple a b c) by (done || by apply triple_word).
    rewrite (IH (length s)) by (done || simpl; lia). by rewrite <- app_assoc.
Qed.

(** ** Claims *)

(** Decoding inverts encoding on every byte string, and line breaks or padding
    anywhere in the text do not change the result. *)
Theorem base64_round_trip s :
  Forall byte_ok s →
  Base64Decode (Base64Encode s) = (true, s) ∧
  ∀ t, filter (λ c, c ≠ PAD ∧ c ≠ 10 ∧ c ≠ 13) t = filter (λ c, c ≠ PAD ∧ c ≠ 10 ∧ c ≠ 13) (Base64Encode s) →
    Base64Decode t = (true, s).
Proof.
  intros Hs. assert (Hd : Base64Decode (Base64Encode s) = (true, s)) by (by apply decode_encode).
  split; [done|]. intros t Ht. rewrite <- Hd. unfold Base64Decode.
  assert (Hf : ∀ u st, decode_loop st u = decode_loop st (filter (λ c, c ≠ PAD ∧ c ≠ 10 ∧ c ≠ 13) u)).
  { induction u as [|c u IH]; intros st; [done|]. rewrite filter_cons. destruct (decide _) as [Hc|Hc].
    - cbn [decode_loop]. destruct (decode_step st c); [apply IH|done].
    - cbn [decode_loop]. assert (decode_step st c = Some st) as ->; [|apply IH]. unfold decode_step.
      destruct (Z.eqb_spec c PAD); [done|]. destruct (Z.eqb_spec c 10); [done|].
      destruct (Z.eqb_spec c 13); [done|]. naive_solver. }
  rewrite (Hf t), (Hf (Base64Encode s)), Ht. done.
Qed.

Lemma base64_round_trip_witness : Base64Decode (Base64Encode [104; 105; 33; 0; 255]) = (true, [104; 105; 33; 0; 255]).
Proof.
  apply (proj1 (base64_round_trip [104; 105; 33; 0; 255]
    ltac:(rewrite !Forall_cons, Forall_nil; unfold byte_ok; lia))).
Defined.
