(* ===== verification/Membership.v ===== *)
(** * Membership views on the wire

    src/common/membership.h: the members of a cache group, their wire format
    (the ring-placement core followed by optional tagged extensions) and its
    decoder.  Strings are byte lists; [e] is the byte order of the host (the
    codec copies host integers).  In the decoder the outer [None] is an access
    outside the buffer (or a loop that has not ended within its fuel):
    [decode_members_safe] shows that neither happens. *)

From S2P Require Import Prelude Codec.

(** ** Data *)

Record MemberStats := mkMemberStats {
  capacity_bytes : Z; used_bytes : Z; objects : Z; hits_total : Z; misses_total : Z; evictions_total : Z;
  puts_total : Z; uptime_seconds : Z; put_busy_total : Z; dio_write_fallbacks : Z; ram_used_bytes : Z;
  ram_hits_total : Z;
}.

Definition no_stats : MemberStats := mkMemberStats 0 0 0 0 0 0 0 0 0 0 0 0.
Definition kMemberStatsFields : nat := 12.

Record IbDeviceHealth := mkIbDevice { dev_name : list Z; port_state : Z; phys_state : Z; query_ok : bool }.

Definition healthy (d : IbDeviceHealth) : bool := query_ok d && (port_state d =? 4) && (phys_state d =? 5).

Record MemberHealth := mkMemberHealth { ring_eligible : bool; ib_devices : list IbDeviceHealth }.

Definition no_health : MemberHealth := mkMemberHealth true [].

Record MemberInfo := mkMember {
  id : list Z; ip : list Z; port : Z; weight : Z; tcp_port : Z; info : list Z;
  m_stats : MemberStats; has_stats : bool; health : MemberHealth; has_health : bool;
}.

Definition RingEligible (m : MemberInfo) : bool := negb (has_health m) || ring_eligible (health m).

(** [operator==]: the fields that decide placement. *)
Definition member_eqb (a b : MemberInfo) : bool :=
  bool_decide (id a = id b) && bool_decide (ip a = ip b) && (port a =? port b) && (weight a =? weight b) &&
  Bool.eqb (RingEligible a) (RingEligible b).

Definition valid_char (c : Z) : bool :=
  ((65 <=? c) && (c <=? 90)) || ((97 <=? c) && (c <=? 122)) || ((48 <=? c) && (c <=? 57)) || (c =? 46)
  || (c =? 95) || (c =? 45).

Definition IsValidGroupOrId (s : list Z) : bool :=
  if (length s =? 0)%nat || (128 <? length s)%nat then false else forallb valid_char s.

(** ** Encoding *)

Definition kMemberExtTcpPort : Z := 0x54435031.
Definition kMemberExtInfo : Z := 0x4E464F31.
Definition kMemberExtStats : Z := 0x31415453.
Definition kMemberExtHealth : Z := 0x31544C48.

Section Wire.
Context (e : Endian).

(** [net::PutU32(num, v); out.append(num, 4)] and the 8-byte form. *)
Definition put32 (v : Z) : list Z := host_bytes e 4 v.
Definition put64 (v : Z) : list Z := host_bytes e 8 v.
Definition put_len (s : list Z) : list Z := put32 (u32 (Z.of_nat (length s))).
Definition flag (b : bool) : Z := if b then 1 else 0.

Definition put_member (m : MemberInfo) : list Z :=
  put_len (id m) ++ id m ++ put_len (ip m) ++ ip m ++ put32 (port m) ++ put32 (weight m).

Definition stats_fields (s : MemberStats) : list Z :=
  [capacity_bytes s; used_bytes s; objects s; hits_total s; misses_total s; evictions_total s; puts_total s;
   uptime_seconds s; put_busy_total s; dio_write_fallbacks s; ram_used_bytes s; ram_hits_total s].

Definition put_stats (m : MemberInfo) : list Z :=
  flag (has_stats m) :: if has_stats m then concat (put64 <$> stats_fields (m_stats m)) else [].

Definition put_device (d : IbDeviceHealth) : list Z :=
  put_len (dev_name d) ++ dev_name d ++ [u8 (port_state d); u8 (phys_state d); flag (query_ok d)].

Definition put_health (m : MemberInfo) : list Z :=
  flag (has_health m) ::
  if has_health m then
    flag (ring_eligible (health m)) :: put32 (u32 (Z.of_nat (length (ib_devices (health m))))) ++
    concat (put_device <$> ib_devices (health m))
  else [].

(** The part older decoders stop after. *)
Definition put_core (ms : list MemberInfo) (epoch : Z) : list Z :=
  put64 epoch ++ put32 (u32 (Z.of_nat (length ms))) ++ concat (put_member <$> ms).

Definition EncodeMembers (ms : list MemberInfo) (epoch : Z) : list Z :=
  put_core ms epoch ++
  put32 kMemberExtTcpPort ++ concat ((λ m, put32 (tcp_port m)) <$> ms) ++
  put32 kMemberExtInfo ++ concat ((λ m, put_len (info m) ++ info m) <$> ms) ++
  put32 kMemberExtStats ++ [Z.of_nat kMemberStatsFields] ++ concat (put_stats <$> ms) ++
  if existsb has_health ms then put32 kMemberExtHealth ++ concat (put_health <$> ms) else [].

(** ** Decoding *)

Section Decode.
Context (p : list Z).

Local Notation n := (Z.of_nat (length p)).

(** Whether [off + k > n]. *)
Definition beyond (off : nat) (k : Z) : bool := n <? Z.of_nat off + k.

(** The inner [None]: truncated input. *)
Definition get_string (off : nat) : option (option (list Z * nat)) :=
  if beyond off 4 then Some None
  else
    len ← GetU32 e off p;
    let off := (off + 4)%nat in
    if beyond off len then Some None
    else s ← read off (Z.to_nat len) p; Some (Some (s, (off + Z.to_nat len)%nat)).

Definition get_member (off : nat) : option (option (MemberInfo * nat)) :=
  r ← get_string off;
  match r with
  | None => Some None
  | Some (i, off) =>
      r ← get_string off;
      match r with
      | None => Some None
      | Some (a, off) =>
          if beyond off 8 then Some None
          else
            pt ← GetU32 e off p;
            w ← GetU32 e (off + 4) p;
            Some (Some (mkMember i a pt w 0 [] no_stats false no_health false, (off + 8)%nat))
      end
  end.

(** The members pushed so far, the offset, and whether the list was complete. *)
Fixpoint get_members (count off : nat) (out : list MemberInfo) : option (list MemberInfo * nat * bool) :=
  match count with
  | O => Some (out, off, true)
  | S count =>
      r ← get_member off;
      match r with
      | None => Some (out, off, false)
      | Some (m, off) => get_members count off (out ++ [m])
      end
  end.

Definition set_tcp_port (v : Z) (m : MemberInfo) : MemberInfo :=
  mkMember (id m) (ip m) (port m) (weight m) v (info m) (m_stats m) (has_stats m) (health m) (has_health m).
Definition set_info (v : list Z) (m : MemberInfo) : MemberInfo :=
  mkMember (id m) (ip m) (port m) (weight m) (tcp_port m) v (m_stats m) (has_stats m) (health m) (has_health m).
Definition set_stats (v : MemberStats) (m : MemberInfo) : MemberInfo :=
  mkMember (id m) (ip m) (port m) (weight m) (tcp_port m) (info m) v true (health m) (has_health m).
Definition set_health (v : MemberHealth) (m : MemberInfo) : MemberInfo :=
  mkMember (id m) (ip m) (port m) (weight m) (tcp_port m) (info m) (m_stats m) (has_stats m) v true.

(** The extension loops go over the members in order; [false]: truncated, with
    the members already visited updated. *)
Fixpoint get_tcp_ports (ms : list MemberInfo) (off : nat) : option (list MemberInfo * nat) :=
  match ms with
  | [] => Some ([], off)
  | m :: ms =>
      v ← GetU32 e off p;
      '(ms, off) ← get_tcp_ports ms (off + 4);
      Some (set_tcp_port v m :: ms, off)
  end.

Fixpoint get_infos (ms : list MemberInfo) (off : nat) : option (list MemberInfo * nat * bool) :=
  match ms with
  | [] => Some ([], off, true)
  | m :: ms =>
      r ← get_string off;
      match r with
      | None => Some (m :: ms, off, false)
      | Some (s, off) =>
          '(ms, off, ok) ← get_infos ms off;
          Some (set_info s m :: ms, off, ok)
      end
  end.

Fixpoint get_words (k off : nat) : option (list Z) :=
  match k with
  | O => Some []
  | S k => v ← GetU64 e off p; vs ← get_words k (off + 8); Some (v :: vs)
  end.

Definition stats_of (f : list Z) : MemberStats :=
  let at_ i := nth i f 0 in
  mkMemberStats (at_ 0%nat) (at_ 1%nat) (at_ 2%nat) (at_ 3%nat) (at_ 4%nat) (at_ 5%nat) (at_ 6%nat) (at_ 7%nat)
    (at_ 8%nat) (at_ 9%nat) (at_ 10%nat) (at_ 11%nat).

(** [nf]: the fields per member on the wire; the ones beyond the known are skipped. *)
Fixpoint get_stats (nf : nat) (ms : list MemberInfo) (off : nat) : option (list MemberInfo * nat * bool) :=
  match ms with
  | [] => Some ([], off, true)
  | m :: ms =>
      if beyond off 1 then Some (m :: ms, off, false)
      else
        has ← Get8 off p;
        let off := (off + 1)%nat in
        if has =? 0 then '(ms, off, ok) ← get_stats nf ms off; Some (m :: ms, off, ok)
        else if beyond off (Z.of_nat nf * 8) then Some (m :: ms, off, false)
        else
          f ← get_words (Nat.min nf kMemberStatsFields) off;
          '(ms, off, ok) ← get_stats nf ms (off + nf * 8);
          Some (set_stats (stats_of f) m :: ms, off, ok)
  end.

Fixpoint get_devices (count off : nat) : option (list IbDeviceHealth * nat * bool) :=
  match count with
  | O => Some ([], off, true)
  | S count =>
      if beyond off 4 then Some ([], off, false)
      else
        name_len ← GetU32 e off p;
        let off := (off + 4)%nat in
        if (128 <? name_len) || beyond off (name_len + 3) then Some ([], off, false)
        else
          name ← read off (Z.to_nat name_len) p;
          let off := (off + Z.to_nat name_len)%nat in
          pt ← Get8 off p;
          ph ← Get8 (off + 1) p;
          q ← Get8 (off + 2) p;
          '(ds, off, ok) ← get_devices count (off + 3);
          Some (mkIbDevice name pt ph (negb (q =? 0)) :: ds, off, ok)
  end.

Fixpoint get_healths (ms : list MemberInfo) (off : nat) : option (list MemberInfo * nat * bool) :=
  match ms with
  | [] => Some ([], off, true)
  | m :: ms =>
      if beyond off 1 then Some (m :: ms, off, false)
      else
        has ← Get8 off p;
        let off := (off + 1)%nat in
        if has =? 0 then '(ms, off, ok) ← get_healths ms off; Some (m :: ms, off, ok)
        else if beyond off 5 then Some (m :: ms, off, false)
        else
          el ← Get8 off p;
          devices ← GetU32 e (off + 1) p;
          let off := (off + 5)%nat in
          if 64 <? devices then Some (m :: ms, off, false)
          else
            '(ds, off, ok) ← get_devices (Z.to_nat devices) off;
            if negb ok then Some (m :: ms, off, false)
            else
              '(ms, off, ok) ← get_healths ms off;
              Some (set_health (mkMemberHealth (negb (el =? 0)) ds) m :: ms, off, ok)
  end.

(** The scan of the tagged blocks; every turn reads its tag, so [length p] turns
    are enough. *)
Fixpoint get_extensions (fuel : nat) (ms : list MemberInfo) (off : nat) : option (list MemberInfo) :=
  match fuel with
  | O => None
  | S fuel =>
      if beyond off 4 then Some ms
      else
        tag ← GetU32 e off p;
        let off := (off + 4)%nat in
        if tag =? kMemberExtTcpPort then
          if beyond off (Z.of_nat (length ms) * 4) then Some ms
          else '(ms, off) ← get_tcp_ports ms off; get_extensions fuel ms off
        else if tag =? kMemberExtInfo then
          '(ms, off, ok) ← get_infos ms off;
          if ok : bool then get_extensions fuel ms off else Some ms
        else if tag =? kMemberExtStats then
          if beyond off 1 then Some ms
          else
            nf ← Get8 off p;
            '(ms, off, ok) ← get_stats (Z.to_nat nf) ms (off + 1);
            if ok : bool then get_extensions fuel ms off else Some ms
        else if tag =? kMemberExtHealth then
          '(ms, off, ok) ← get_healths ms off;
          if ok : bool then get_extensions fuel ms off else Some ms
        else Some ms
  end.

(** The result, [*out] and [*epoch]; both are left alone on a short header. *)
Definition DecodeMembers (out0 : list MemberInfo) (epoch0 : Z) : option (bool * list MemberInfo * Z) :=
  if n <? 12 then Some (false, out0, epoch0)
  else
    epoch ← GetU64 e 0 p;
    count ← GetU32 e 8 p;
    '(ms, off, ok) ← get_members (Z.to_nat count) 12 [];
    if negb ok then Some (false, ms, epoch)
    else ms ← get_extensions (S (length p)) ms off; Some (true, ms, epoch).

End Decode.
End Wire.

(** ** Safety of the decoder *)

(** What decides placement, apart from health. *)
Definition core (m : MemberInfo) : list Z * list Z * Z * Z := (id m, ip m, port m, weight m).

Section Safety.
Context (e : Endian) (p : list Z) (Hp : Forall byte_ok p).

Lemma beyond_false off k : beyond p off k = false → 0 <= k → (off + Z.to_nat k <= length p)%nat.
Proof. unfold beyond. intros H%Z.ltb_ge Hk. lia. Qed.

Lemma get_string_safe off :
  ∃ r, get_string e p off = Some r ∧ (∀ s off', r = Some (s, off') → (off + 4 <= off')%nat).
Proof.
  unfold get_string. destruct (beyond p off 4) eqn:E1; [by eexists|].
  apply beyond_false in E1; [|lia]. destruct (GetU32_ok e off p ltac:(lia)) as [len Hl]. rewrite Hl.
  cbn [mbind option_bind]. pose proof (GetU32_range _ _ _ _ Hp Hl) as Hr. unfold is_u32 in Hr.
  destruct (beyond p (off + 4) len) eqn:E2; [by eexists|]. apply beyond_false in E2; [|lia].
  destruct (read_ok (off + 4) (Z.to_nat len) p ltac:(lia)) as (s & -> & _). cbn [mbind option_bind].
  eexists. split; [done|]. intros ? ? [= <- <-]. lia.
Qed.

Lemma get_member_safe off :
  ∃ r, get_member e p off = Some r ∧ (∀ m off', r = Some (m, off') → (off + 4 <= off')%nat).
Proof.
  unfold get_member. destruct (get_string_safe off) as (r1 & -> & H1). cbn [mbind option_bind].
  destruct r1 as [[i o1]|]; [|by eexists]. destruct (get_string_safe o1) as (r2 & -> & H2). cbn [mbind option_bind].
  destruct r2 as [[a o2]|]; [|by eexists]. destruct (beyond p o2 8) eqn:E; [by eexists|].
  apply beyond_false in E; [|lia]. destruct (GetU32_ok e o2 p ltac:(lia)) as [pt ->]. cbn [mbind option_bind].
  destruct (GetU32_ok e (o2 + 4) p ltac:(lia)) as [w ->]. cbn [mbind option_bind].
  eexists. split; [done|]. intros m off' [= _ <-]. specialize (H1 _ _ eq_refl). specialize (H2 _ _ eq_refl). lia.
Qed.

Lemma get_members_safe count off out : is_Some (get_members e p count off out).
Proof.
  revert off out. induction count as [|count IH]; intros off out; cbn [get_members]; [by eexists|].
  destruct (get_member_safe off) as (r & -> & _). cbn [mbind option_bind]. destruct r as [[m o]|]; [apply IH|by eexists].
Qed.

Lemma get_tcp_ports_safe ms off :
  (off + 4 * length ms <= length p)%nat →
  ∃ ms', get_tcp_ports e p ms off = Some (ms', (off + 4 * length ms)%nat) ∧ core <$> ms' = core <$> ms.
Proof.
  revert off. induction ms as [|m ms IH]; intros off H; cbn [get_tcp_ports length] in *.
  { exists []. split; [|done]. by rewrite Nat.mul_0_r, Nat.add_0_r. }
  destruct (GetU32_ok e off p ltac:(lia)) as [v ->]. cbn [mbind option_bind].
  destruct (IH (off + 4)%nat ltac:(lia)) as (ms' & -> & Hc). cbn [mbind option_bind].
  exists (set_tcp_port v m :: ms').
  replace (off + 4 * S (length ms))%nat with (off + 4 + 4 * length ms)%nat by lia.
  split; [done|]. rewrite !fmap_cons. by f_equal.
Qed.

Lemma get_infos_safe ms off :
  ∃ ms' off' ok, get_infos e p ms off = Some (ms', off', ok) ∧ core <$> ms' = core <$> ms ∧ (off <= off')%nat.
Proof.
  revert off. induction ms as [|m ms IH]; intros off; cbn [get_infos]; [by eexists _, _, _|].
  destruct (get_string_safe off) as (r & -> & Hr). cbn [mbind option_bind].
  destruct r as [[s o]|]; [|by eexists _, _, _]. destruct (IH o) as (ms' & o' & ok & -> & Hc & Hle).
  cbn [mbind option_bind]. eexists _, _, _. split; [done|]. specialize (Hr _ _ eq_refl).
  split; [rewrite !fmap_cons; by f_equal|lia].
Qed.

Lemma get_words_safe k off : (off + 8 * k <= length p)%nat → is_Some (get_words e p k off).
Proof.
  revert off. induction k as [|k IH]; intros off H; cbn [get_words]; [by eexists|].
  destruct (GetU64_ok e off p ltac:(lia)) as [v ->]. cbn [mbind option_bind].
  destruct (IH (off + 8)%nat ltac:(lia)) as [vs ->]. by eexists.
Qed.

Lemma get_stats_safe nf ms off :
  ∃ ms' off' ok, get_stats e p nf ms off = Some (ms', off', ok) ∧ core <$> ms' = core <$> ms ∧ (off <= off')%nat.
Proof.
  revert off. induction ms as [|m ms IH]; intros off; cbn [get_stats]; [by eexists _, _, _|].
  destruct (beyond p off 1) eqn:E1; [by eexists _, _, _|]. apply beyond_false in E1; [|lia].
  destruct (Get8_ok off p ltac:(lia)) as [has ->]. cbn [mbind option_bind]. destruct (has =? 0).
  - destruct (IH (off + 1)%nat) as (ms' & o' & ok & -> & Hc & Hle). cbn [mbind option_bind].
    eexists _, _, _. split; [done|]. split; [rewrite !fmap_cons; by f_equal|lia].
  - destruct (beyond p (off + 1) (Z.of_nat nf * 8)) eqn:E2; [eexists _, _, _; split; [done|split; [done|lia]]|].
    apply beyond_false in E2; [|lia].
    destruct (get_words_safe (Nat.min nf kMemberStatsFields) (off + 1)) as [f ->]; [lia|]. cbn [mbind option_bind].
    destruct (IH (off + 1 + nf * 8)%nat) as (ms' & o' & ok & -> & Hc & Hle). cbn [mbind option_bind].
    eexists _, _, _. split; [done|]. split; [rewrite !fmap_cons; by f_equal|lia].
Qed.

Lemma get_devices_safe count off :
  ∃ ds off' ok, get_devices e p count off = Some (ds, off', ok) ∧ (off <= off')%nat.
Proof.
  revert off. induction count as [|count IH]; intros off; cbn [get_devices]; [by eexists _, _, _|].
  destruct (beyond p off 4) eqn:E1; [by eexists _, _, _|]. apply beyond_false in E1; [|lia].
  destruct (GetU32_ok e off p ltac:(lia)) as [l Hl]. rewrite Hl. cbn [mbind option_bind].
  pose proof (GetU32_range _ _ _ _ Hp Hl) as Hr. unfold is_u32 in Hr.
  destruct (128 <? l); cbn [orb]; [eexists _, _, _; split; [done|lia]|].
  destruct (beyond p (off + 4) (l + 3)) eqn:E2; [eexists _, _, _; split; [done|lia]|].
  apply beyond_false in E2; [|lia].
  destruct (read_ok (off + 4) (Z.to_nat l) p ltac:(lia)) as (s & -> & _). cbn [mbind option_bind].
  destruct (Get8_ok (off + 4 + Z.to_nat l) p ltac:(lia)) as [pt ->]. cbn [mbind option_bind].
  destruct (Get8_ok (off + 4 + Z.to_nat l + 1) p ltac:(lia)) as [ph ->]. cbn [mbind option_bind].
  destruct (Get8_ok (off + 4 + Z.to_nat l + 2) p ltac:(lia)) as [q ->]. cbn [mbind option_bind].
  destruct (IH (off + 4 + Z.to_nat l + 3)%nat) as (ds & o & ok & -> & Hle). cbn [mbind option_bind].
  eexists _, _, _. split; [done|]. lia.
Qed.

Lemma get_healths_safe ms off :
  ∃ ms' off' ok, get_healths e p ms off = Some (ms', off', ok) ∧ core <$> ms' = core <$> ms ∧ (off <= off')%nat.
Proof.
  revert off. induction ms as [|m ms IH]; intros off; cbn [get_healths]; [by eexists _, _, _|].
  destruct (beyond p off 1) eqn:E1; [by eexists _, _, _|]. apply beyond_false in E1; [|lia].
  destruct (Get8_ok off p ltac:(lia)) as [has ->]. cbn [mbind option_bind]. destruct (has =? 0).
  - destruct (IH (off + 1)%nat) as (ms' & o' & ok & -> & Hc & Hle). cbn [mbind option_bind].
    eexists _, _, _. split; [done|]. split; [rewrite !fmap_cons; by f_equal|lia].
  - destruct (beyond p (off + 1) 5) eqn:E2; [eexists _, _, _; split; [done|split; [done|lia]]|].
    apply beyond_false in E2; [|lia].
    destruct (Get8_ok (off + 1) p ltac:(lia)) as [el ->]. cbn [mbind option_bind].
    destruct (GetU32_ok e (off + 1 + 1) p ltac:(lia)) as [c ->]. cbn [mbind option_bind].
    destruct (64 <? c); [eexists _, _, _; split; [done|split; [done|lia]]|].
    destruct (get_devices_safe (Z.to_nat c) (off + 1 + 5)) as (ds & o & ok & -> & Hle). cbn [mbind option_bind].
    destruct ok; cbn [negb]; [|eexists _, _, _; split; [done|split; [done|lia]]].
    destruct (IH o) as (ms' & o' & ok & -> & Hc & Hle'). cbn [mbind option_bind].
    eexists _, _, _. split; [done|]. split; [rewrite !fmap_cons; by f_equal|lia].
Qed.

Lemma get_extensions_safe fuel ms off :
  (length p - off < fuel)%nat → ∃ ms', get_extensions e p fuel ms off = Some ms' ∧ core <$> ms' = core <$> ms.
Proof.
  revert ms off. induction fuel as [|fuel IH]; intros ms off Hf; [lia|]. cbn [get_extensions].
  destruct (beyond p off 4) eqn:E1; [by eexists|]. apply beyond_false in E1; [|lia].
  destruct (GetU32_ok e off p ltac:(lia)) as [tag ->]. cbn [mbind option_bind].
  assert (Hnext : ∀ ms' o, core <$> ms' = core <$> ms → (off + 4 <= o)%nat →
    ∃ ms'', get_extensions e p fuel ms' o = Some ms'' ∧ core <$> ms'' = core <$> ms).
  { intros ms' o Hc Ho. destruct (IH ms' o ltac:(lia)) as (ms'' & -> & Hc'). exists ms''. by rewrite Hc'. }
  destruct (tag =? kMemberExtTcpPort).
  { destruct (beyond p (off + 4) _) eqn:E2; [by eexists|]. apply beyond_false in E2; [|lia].
    destruct (get_tcp_ports_safe ms (off + 4)) as (ms' & -> & Hc); [lia|]. cbn [mbind option_bind].
    apply Hnext; [done|lia]. }
  destruct (tag =? kMemberExtInfo).
  { destruct (get_infos_safe ms (off + 4)) as (ms' & o & ok & -> & Hc & Hle). cbn [mbind option_bind].
    destruct ok; [apply Hnext; [done|lia]|by eexists]. }
  destruct (tag =? kMemberExtStats).
  { destruct (beyond p (off + 4) 1) eqn:E2; [by eexists|]. apply beyond_false in E2; [|lia].
    destruct (Get8_ok (off + 4) p ltac:(lia)) as [nf ->]. cbn [mbind option_bind].
    destruct (get_stats_safe (Z.to_nat nf) ms (off + 4 + 1)) as (ms' & o & ok & -> & Hc & Hle). cbn [mbind option_bind].
    destruct ok; [apply Hnext; [done|lia]|by eexists]. }
  destruct (tag =? kMemberExtHealth); [|by eexists].
  destruct (get_healths_safe ms (off + 4)) as (ms' & o & ok & -> & Hc & Hle). cbn [mbind option_bind].
  destruct ok; [apply Hnext; [done|lia]|by eexists].
Qed.

Lemma DecodeMembers_safe out0 epoch0 : is_Some (DecodeMembers e p out0 epoch0).
Proof.
  unfold DecodeMembers. destruct (Z.ltb_spec (Z.of_nat (length p)) 12); [by eexists|].
  destruct (GetU64_ok e 0 p ltac:(lia)) as [ep ->]. cbn [mbind option_bind].
  destruct (GetU32_ok e 8 p ltac:(lia)) as [c ->]. cbn [mbind option_bind].
  destruct (get_members_safe (Z.to_nat c) 12 []) as [[[ms o] ok] ->]. cbn [mbind option_bind].
  destruct ok; cbn [negb]; [|by eexists].
  destruct (get_extensions_safe (S (length p)) ms o) as (ms' & -> & _); [lia|]. by eexists.
Qed.

End Safety.

(** ** Round trip *)

Definition short (s : list Z) : Prop := Z.of_nat (length s) < 2 ^ 32.

(** The C++ types, and the bounds the decoder puts on health reports. *)
Definition device_ok (d : IbDeviceHealth) : Prop :=
  (length (dev_name d) <= 128)%nat ∧ is_u8 (port_state d) ∧ is_u8 (phys_state d).

Record member_ok (m : MemberInfo) : Prop := {
  mo_id : short (id m); mo_ip : short (ip m); mo_info : short (info m);
  mo_port : is_u32 (port m); mo_weight : is_u32 (weight m); mo_tcp : is_u32 (tcp_port m);
  mo_stats : Forall is_u64 (stats_fields (m_stats m));
  mo_no_stats : has_stats m = false → m_stats m = no_stats;
  mo_no_health : has_health m = false → health m = no_health;
  mo_count : (length (ib_devices (health m)) <= 64)%nat;
  mo_devices : Forall device_ok (ib_devices (health m));
}.

(** A member as the core decoder leaves it. *)
Definition bare (m : MemberInfo) : MemberInfo :=
  mkMember (id m) (ip m) (port m) (weight m) 0 [] no_stats false no_health false.

Section RoundTrip.
Context (e : Endian) (p : list Z).

Lemma beyond_in off k : (off + Z.to_nat k <= length p)%nat → beyond p off k = false.
Proof. unfold beyond. intros H. apply Z.ltb_ge. lia. Qed.

Lemma get_string_at off s r :
  drop off p = put_len e s ++ s ++ r → short s →
  get_string e p off = Some (Some (s, (off + 4 + length s)%nat)) ∧ drop (off + 4 + length s) p = r ∧
  (off + 4 + length s <= length p)%nat.
Proof.
  unfold short. intros E Hs. destruct (GetU32_at e off _ _ p E (u32_range _)) as (G & E1 & B1).
  pose proof (drop_prefix _ _ _ _ E1) as E2.
  assert (B2 : (off + 4 + length s <= length p)%nat).
  { pose proof (length_drop p (off + 4)) as H. rewrite E1, length_app in H. lia. }
  split; [|done]. unfold get_string. rewrite beyond_in, G by lia. cbn [mbind option_bind].
  rewrite u32_id by (unfold is_u32; lia). rewrite beyond_in, Nat2Z.id by lia.
  by rewrite (read_at _ _ _ _ E1 B2).
Qed.

Lemma get_member_at off m r :
  drop off p = put_member e m ++ r → member_ok m →
  ∃ off', get_member e p off = Some (Some (bare m, off')) ∧ drop off' p = r.
Proof.
  intros E M. unfold put_member in E. rewrite <- !app_assoc in E.
  destruct (get_string_at _ _ _ E (mo_id _ M)) as (G1 & E1 & _).
  destruct (get_string_at _ _ _ E1 (mo_ip _ M)) as (G2 & E2 & _).
  destruct (GetU32_at e _ _ _ p E2 (mo_port _ M)) as (G3 & E3 & _).
  destruct (GetU32_at e _ _ _ p E3 (mo_weight _ M)) as (G4 & E4 & B4).
  eexists. unfold get_member. rewrite G1. cbn [mbind option_bind]. rewrite G2. cbn [mbind option_bind].
  rewrite beyond_in, G3 by lia. cbn [mbind option_bind]. rewrite G4. cbn [mbind option_bind].
  split; [done|]. rewrite <- E4. f_equal. lia.
Qed.

Lemma get_members_at ms off out r :
  drop off p = concat (put_member e <$> ms) ++ r → Forall member_ok ms →
  ∃ off', get_members e p (length ms) off out = Some (out ++ (bare <$> ms), off', true) ∧ drop off' p = r.
Proof.
  intros E H. revert off out E. induction H as [|m ms Hm H IH]; intros off out E; cbn [get_members length].
  { exists off. by rewrite app_nil_r. }
  rewrite fmap_cons in E. cbn [concat] in E. rewrite <- app_assoc in E.
  destruct (get_member_at _ _ _ E Hm) as (o1 & -> & E1). cbn [mbind option_bind].
  destruct (IH o1 (out ++ [bare m]) E1) as (o2 & -> & E2). exists o2. by rewrite <- app_assoc.
Qed.

Lemma get_tcp_ports_at f ms off r :
  drop off p = concat ((λ m, put32 e (tcp_port m)) <$> ms) ++ r → Forall member_ok ms →
  ∃ off', get_tcp_ports e p (f <$> ms) off = Some ((λ m, set_tcp_port (tcp_port m) (f m)) <$> ms, off') ∧
    drop off' p = r ∧ off' = (off + 4 * length ms)%nat ∧ (ms ≠ [] → off' <= length p)%nat.
Proof.
  intros E H. revert off E. induction H as [|m ms Hm H IH]; intros off E; rewrite ?fmap_cons; cbn [get_tcp_ports].
  { exists off. split_and!; (done || simpl; lia). }
  rewrite fmap_cons in E. cbn [concat] in E. rewrite <- app_assoc in E.
  destruct (GetU32_at e _ _ _ p E (mo_tcp _ Hm)) as (-> & E1 & B1). cbn [mbind option_bind].
  destruct (IH _ E1) as (o2 & Hg & E2 & -> & B2). rewrite Hg. cbn [mbind option_bind].
  eexists. split; [done|]. split_and!; [done|simpl; lia|]. intros _.
  destruct ms; [simpl; lia|]. by apply B2.
Qed.

Lemma get_infos_at f ms off r :
  drop off p = concat ((λ m, put_len e (info m) ++ info m) <$> ms) ++ r → Forall member_ok ms →
  ∃ off', get_infos e p (f <$> ms) off = Some ((λ m, set_info (info m) (f m)) <$> ms, off', true) ∧ drop off' p = r.
Proof.
  intros E H. revert off E. induction H as [|m ms Hm H IH]; intros off E; rewrite ?fmap_cons; cbn [get_infos]; [by exists off|].
  rewrite fmap_cons in E. cbn [concat] in E. rewrite <- !app_assoc in E.
  destruct (get_string_at _ _ _ E (mo_info _ Hm)) as (-> & E1 & _). cbn [mbind option_bind].
  destruct (IH _ E1) as (o2 & Hg & E2). rewrite Hg. cbn [mbind option_bind]. by exists o2.
Qed.

Lemma get_words_at vs off r :
  drop off p = concat (put64 e <$> vs) ++ r → Forall is_u64 vs →
  get_words e p (length vs) off = Some vs ∧ drop (off + 8 * length vs) p = r ∧
  (vs ≠ [] → off + 8 * length vs <= length p)%nat.
Proof.
  intros E H. revert off E. induction H as [|v vs Hv H IH]; intros off E; cbn [get_words length].
  { by rewrite Nat.mul_0_r, Nat.add_0_r. }
  rewrite fmap_cons in E. cbn [concat] in E. rewrite <- app_assoc in E.
  destruct (GetU64_at e _ _ _ p E Hv) as (-> & E1 & B1). cbn [mbind option_bind].
  destruct (IH _ E1) as (-> & E2 & B2). cbn [mbind option_bind].
  replace (off + 8 * S (length vs))%nat with (off + 8 + 8 * length vs)%nat by lia. split_and!; try done.
  intros _. destruct vs; [simpl; lia|]. by apply B2.
Qed.

Lemma stats_of_fields s : stats_of (stats_fields s) = s.
Proof. by destruct s. Qed.

Definition with_stats (f : MemberInfo → MemberInfo) (m : MemberInfo) : MemberInfo :=
  if has_stats m then set_stats (m_stats m) (f m) else f m.

Lemma get_stats_at f ms off r :
  drop off p = concat (put_stats e <$> ms) ++ r → Forall member_ok ms →
  ∃ off', get_stats e p kMemberStatsFields (f <$> ms) off = Some (with_stats f <$> ms, off', true) ∧ drop off' p = r.
Proof.
  intros E H. revert off E. induction H as [|m ms Hm H IH]; intros off E; rewrite ?fmap_cons; cbn [get_stats]; [by exists off|].
  rewrite fmap_cons in E. cbn [concat] in E. unfold put_stats in E at 1. cbn [app] in E.
  destruct (Get8_at _ _ _ _ E) as (G1 & E1 & B1). rewrite beyond_in, G1 by lia. cbn [mbind option_bind].
  unfold with_stats at 1. destruct (has_stats m); cbn [flag Z.eqb].
  - rewrite <- app_assoc in E1. destruct (get_words_at _ _ _ E1 (mo_stats _ Hm)) as (G2 & E2 & B2).
    specialize (B2 ltac:(done)). change (length (stats_fields (m_stats m))) with 12%nat in *.
    rewrite beyond_in by (unfold kMemberStatsFields; lia).
    change (Nat.min kMemberStatsFields kMemberStatsFields) with 12%nat. rewrite G2. cbn [mbind option_bind].
    change (kMemberStatsFields * 8)%nat with (8 * 12)%nat. destruct (IH _ E2) as (o & Hg & E3). rewrite Hg. cbn [mbind option_bind]. rewrite stats_of_fields. by exists o.
  - destruct (IH _ E1) as (o & Hg & E2). rewrite Hg. by exists o.
Qed.

Lemma get_devices_at ds off r :
  drop off p = concat (put_device e <$> ds) ++ r → Forall device_ok ds →
  ∃ off', get_devices e p (length ds) off = Some (ds, off', true) ∧ drop off' p = r.
Proof.
  intros E H. revert off E. induction H as [|d ds (D1 & D2 & D3) H IH]; intros off E; cbn [length get_devices]; [by exists off|].
  rewrite fmap_cons in E. cbn [concat] in E. unfold put_device in E at 1. rewrite <- !app_assoc in E. cbn [app] in E.
  destruct (GetU32_at e _ _ _ p E (u32_range _)) as (G1 & E1 & B1). rewrite beyond_in, G1 by lia. cbn [mbind option_bind].
  rewrite u32_id by (unfold is_u32; lia). rewrite (proj2 (Z.ltb_ge 128 _)) by lia. cbn [orb].
  pose proof (drop_prefix _ _ _ _ E1) as E2.
  destruct (Get8_at _ _ _ _ E2) as (G2 & E3 & B2). destruct (Get8_at _ _ _ _ E3) as (G3 & E4 & B3).
  destruct (Get8_at _ _ _ _ E4) as (G4 & E5 & B4).
  rewrite beyond_in, Nat2Z.id by lia. rewrite (read_at _ _ _ _ E1) by lia. cbn [mbind option_bind].
  rewrite G2. cbn [mbind option_bind]. rewrite G3. cbn [mbind option_bind].
  replace (off + 4 + length (dev_name d) + 2)%nat with (off + 4 + length (dev_name d) + 1 + 1)%nat by lia.
  rewrite G4. cbn [mbind option_bind].
  replace (off + 4 + length (dev_name d) + 3)%nat with (off + 4 + length (dev_name d) + 1 + 1 + 1)%nat by lia.
  destruct (IH _ E5) as (o & -> & E6). cbn [mbind option_bind]. exists o. split; [|done].
  do 4 f_equal. destruct d as [nm pt ph q]. cbn [dev_name port_state phys_state query_ok] in *.
  rewrite !u8_id by done. by destruct q.
Qed.

Definition with_health (f : MemberInfo → MemberInfo) (m : MemberInfo) : MemberInfo :=
  if has_health m then set_health (health m) (f m) else f m.

Lemma get_healths_at f ms off r :
  drop off p = concat (put_health e <$> ms) ++ r → Forall member_ok ms →
  ∃ off', get_healths e p (f <$> ms) off = Some (with_health f <$> ms, off', true) ∧ drop off' p = r.
Proof.
  intros E H. revert off E. induction H as [|m ms Hm H IH]; intros off E; rewrite ?fmap_cons; cbn [get_healths]; [by exists off|].
  rewrite fmap_cons in E. cbn [concat] in E. unfold put_health in E at 1. cbn [app] in E.
  destruct (Get8_at _ _ _ _ E) as (G1 & E1 & B1). rewrite beyond_in, G1 by lia. cbn [mbind option_bind].
  unfold with_health at 1. destruct (has_health m) eqn:Eh; cbn [flag Z.eqb].
  - cbn [app] in E1. rewrite <- !app_assoc in E1. destruct (Get8_at _ _ _ _ E1) as (G2 & E2 & B2).
    destruct (GetU32_at e _ _ _ p E2 (u32_range _)) as (G3 & E3 & B3). rewrite beyond_in, G2 by lia.
    cbn [mbind option_bind]. rewrite G3. cbn [mbind option_bind]. pose proof (mo_count _ Hm) as Hc.
    rewrite u32_id by (unfold is_u32; lia). rewrite (proj2 (Z.ltb_ge 64 _)), Nat2Z.id by lia.
    replace (off + 1 + 5)%nat with (off + 1 + 1 + 4)%nat by lia.
    destruct (get_devices_at _ _ _ E3 (mo_devices _ Hm)) as (o1 & -> & E4). cbn [mbind option_bind negb].
    destruct (IH _ E4) as (o2 & Hg & E5). rewrite Hg. cbn [mbind option_bind].
    exists o2. split; [|done]. do 4 f_equal. destruct (health m) as [el ds]. simpl. by destruct el.
  - destruct (IH _ E1) as (o & Hg & E2). rewrite Hg. by exists o.
Qed.

(** One turn of the extension scan per block written by [EncodeMembers]. *)
Lemma ext_tcp fuel f ms off r :
  drop off p = put32 e kMemberExtTcpPort ++ concat ((λ m, put32 e (tcp_port m)) <$> ms) ++ r → Forall member_ok ms →
  ∃ off', get_extensions e p (S fuel) (f <$> ms) off =
    get_extensions e p fuel ((λ m, set_tcp_port (tcp_port m) (f m)) <$> ms) off' ∧ drop off' p = r.
Proof.
  intros E H. destruct (GetU32_at e _ _ _ p E) as (G & E1 & B1); [done|].
  destruct (get_tcp_ports_at f ms _ _ E1 H) as (o & Hg & E2 & -> & B2). exists (off + 4 + 4 * length ms)%nat.
  split; [|done]. cbn [get_extensions]. rewrite beyond_in, G by lia. cbn [mbind option_bind].
  rewrite Z.eqb_refl, length_fmap, beyond_in; [by rewrite Hg|]. destruct ms; [simpl; lia|].
  specialize (B2 ltac:(done)). lia.
Qed.

Lemma ext_info fuel f ms off r :
  drop off p = put32 e kMemberExtInfo ++ concat ((λ m, put_len e (info m) ++ info m) <$> ms) ++ r →
  Forall member_ok ms →
  ∃ off', get_extensions e p (S fuel) (f <$> ms) off =
    get_extensions e p fuel ((λ m, set_info (info m) (f m)) <$> ms) off' ∧ drop off' p = r.
Proof.
  intros E H. destruct (GetU32_at e _ _ _ p E) as (G & E1 & B1); [done|].
  destruct (get_infos_at f ms _ _ E1 H) as (o & Hg & E2). exists o. split; [|done].
  cbn [get_extensions]. rewrite beyond_in, G by lia. cbn [mbind option_bind].
  rewrite (proj2 (Z.eqb_neq _ kMemberExtTcpPort)), Z.eqb_refl by done. by rewrite Hg.
Qed.

Lemma ext_stats fuel f ms off r :
  drop off p = put32 e kMemberExtStats ++ Z.of_nat kMemberStatsFields :: concat (put_stats e <$> ms) ++ r →
  Forall member_ok ms →
  ∃ off', get_extensions e p (S fuel) (f <$> ms) off = get_extensions e p fuel (with_stats f <$> ms) off' ∧
    drop off' p = r.
Proof.
  intros E H. destruct (GetU32_at e _ _ _ p E) as (G & E1 & B1); [done|].
  destruct (Get8_at _ _ _ _ E1) as (G1 & E2 & B2).
  destruct (get_stats_at f ms _ _ E2 H) as (o & Hg & E3). exists o. split; [|done].
  cbn [get_extensions]. rewrite beyond_in, G by lia. cbn [mbind option_bind].
  rewrite (proj2 (Z.eqb_neq _ kMemberExtTcpPort)), (proj2 (Z.eqb_neq _ kMemberExtInfo)), Z.eqb_refl by done.
  rewrite beyond_in, G1 by lia. cbn [mbind option_bind]. rewrite Nat2Z.id. by rewrite Hg.
Qed.

Lemma ext_health fuel f ms off r :
  drop off p = put32 e kMemberExtHealth ++ concat (put_health e <$> ms) ++ r → Forall member_ok ms →
  ∃ off', get_extensions e p (S fuel) (f <$> ms) off = get_extensions e p fuel (with_health f <$> ms) off' ∧
    drop off' p = r.
Proof.
  intros E H. destruct (GetU32_at e _ _ _ p E) as (G & E1 & B1); [done|].
  destruct (get_healths_at f ms _ _ E1 H) as (o & Hg & E2). exists o. split; [|done].
  cbn [get_extensions]. rewrite beyond_in, G by lia. cbn [mbind option_bind].
  rewrite (proj2 (Z.eqb_neq _ kMemberExtTcpPort)), (proj2 (Z.eqb_neq _ kMemberExtInfo)),
    (proj2 (Z.eqb_neq _ kMemberExtStats)), Z.eqb_refl by done. by rewrite Hg.
Qed.

Lemma ext_end fuel ms off : drop off p = [] → get_extensions e p (S fuel) ms off = Some ms.
Proof.
  intros E. pose proof (length_drop p off) as H. rewrite E in H. simpl in H.
  cbn [get_extensions]. replace (beyond p off 4) with true; [done|]. unfold beyond. symmetry. apply Z.ltb_lt. lia.
Qed.

(** The core of a view, whatever follows it. *)
Lemma core_at ms epoch r out0 epoch0 :
  p = put_core e ms epoch ++ r → Forall member_ok ms → is_u64 epoch → Z.of_nat (length ms) < 2 ^ 32 →
  ∃ off, drop off p = r ∧
  DecodeMembers e p out0 epoch0 =
  (ms ← get_extensions e p (S (length p)) (bare <$> ms) off; Some (true, ms, epoch)).
Proof.
  intros Ep H He Hl. unfold put_core in Ep. rewrite <- !app_assoc in Ep.
  pose proof Ep as E. change p with (drop 0 p) in E at 1.
  destruct (GetU64_at e 0 _ _ p E He) as (G1 & E1 & B1).
  destruct (GetU32_at e _ _ _ p E1 (u32_range _)) as (G2 & E2 & B2).
  destruct (get_members_at ms _ [] _ E2 H) as (o & G3 & E3). exists o. split; [done|].
  unfold DecodeMembers. rewrite (proj2 (Z.ltb_ge _ 12)), G1 by lia. cbn [mbind option_bind].
  change (0 + 8)%nat with 8%nat in *. rewrite G2. cbn [mbind option_bind].
  rewrite u32_id, Nat2Z.id by (unfold is_u32; lia). change (8 + 4)%nat with 12%nat in *. by rewrite G3.
Qed.

End RoundTrip.

(** ** Claims *)

(** C37. Decoding never reads outside the buffer and always ends, whatever bytes a
    peer sends. *)
Theorem decode_members_safe e p out0 epoch0 :
  Forall byte_ok p → is_Some (DecodeMembers e p out0 epoch0).
Proof. intros Hp. by apply DecodeMembers_safe. Qed.

Lemma decode_members_safe_witness : is_Some (DecodeMembers Little [255; 255; 255; 255] [] 0).
Proof.
  apply (decode_members_safe Little [255; 255; 255; 255] [] 0).
  rewrite !Forall_cons, Forall_nil. unfold byte_ok. lia.
Defined.

(** C38. A view survives the wire: every field of every member, stats and per-device
    health included, is decoded as it was encoded. *)
Theorem members_round_trip e ms epoch out0 epoch0 :
  Forall member_ok ms → is_u64 epoch → Z.of_nat (length ms) < 2 ^ 32 →
  DecodeMembers e (EncodeMembers e ms epoch) out0 epoch0 = Some (true, ms, epoch).
Proof.
  intros H He Hl. set (p := EncodeMembers e ms epoch).
  destruct (core_at e p ms epoch _ out0 epoch0 eq_refl H He Hl) as (o & E & ->).
  assert (Hf : ∃ f, length p = S (S (S (S f)))).
  { assert (12 <= length p)%nat; [|exists (length p - 4)%nat; lia].
    subst p. unfold EncodeMembers, put_core, put64, put32. rewrite !length_app, !length_host_bytes. lia. }
  destruct Hf as [f ->].
  destruct (ext_tcp e p (S (S (S (S f)))) bare ms o _ E H) as (o1 & -> & E1).
  destruct (ext_info e p (S (S (S f))) (λ m, set_tcp_port (tcp_port m) (bare m)) ms o1 _ E1 H) as (o2 & -> & E2). cbn [app] in E2.
  destruct (ext_stats e p (S (S f)) (λ m, set_info (info m) (set_tcp_port (tcp_port m) (bare m))) ms o2 _ E2 H) as (o3 & -> & E3).
  assert (Hall : ∀ m, member_ok m →
    with_health (with_stats (λ m, set_info (info m) (set_tcp_port (tcp_port m) (bare m)))) m = m).
  { intros [? ? ? ? ? ? ? hs ? hh] M. unfold with_health, with_stats.
    pose proof (mo_no_stats _ M) as N1. pose proof (mo_no_health _ M) as N2. simpl in *.
    destruct hh, hs; unfold set_health, set_stats, set_info, set_tcp_port, bare; simpl;
      rewrite ?N1, ?N2 by done; done. }
  rewrite Forall_forall in H. destruct (existsb has_health ms) eqn:Eh.
  - rewrite <- (app_nil_r (concat (put_health e <$> ms))) in E3.
    destruct (ext_health e p (S f) (with_stats (λ m, set_info (info m) (set_tcp_port (tcp_port m) (bare m)))) ms o3 _ E3) as (o4 & -> & E4); [by apply Forall_forall|].
    rewrite ext_end by done. cbn [mbind option_bind]. do 3 f_equal.
    rewrite <- (list_fmap_id ms) at 2. apply list_fmap_ext. intros i m Hi. apply Hall, H.
    by eapply list_elem_of_lookup_2.
  - rewrite ext_end by done. cbn [mbind option_bind]. do 3 f_equal.
    rewrite <- (list_fmap_id ms) at 2. apply list_fmap_ext. intros i m Hi.
    assert (Hm : m ∈ ms) by (by eapply list_elem_of_lookup_2). pose proof (Hall m (H m Hm)) as Hm'.
    unfold with_health in Hm'. replace (has_health m) with false in Hm'; [done|].
    symmetry. apply not_true_is_false. intros Ht.
    apply not_true_iff_false in Eh. apply Eh. apply existsb_exists. exists m.
    split; [by apply list_elem_of_In|done].
Qed.

Definition sample_members : list MemberInfo :=
  [mkMember [97] [49; 48] 7000 2 7001 [118; 61; 50] (mkMemberStats 1 2 3 4 5 6 7 8 9 10 11 12) true
     (mkMemberHealth false [mkIbDevice [109; 108] 4 5 true; mkIbDevice [] 1 3 false]) true;
   mkMember [98] [49; 49] 7000 1 0 [] no_stats false no_health false].

Lemma sample_members_ok : Forall member_ok sample_members.
Proof.
  unfold sample_members. rewrite !Forall_cons, Forall_nil.
  split; [|split; [|done]]; (split; unfold short, is_u32, stats_fields; cbn; try lia; try done);
    rewrite ?Forall_cons, ?Forall_nil; unfold is_u64, device_ok, is_u8; cbn; lia.
Qed.

Lemma members_round_trip_witness :
  DecodeMembers Big (EncodeMembers Big sample_members 77) [] 0 = Some (true, sample_members, 77).
Proof.
  apply (members_round_trip Big sample_members 77 [] 0 sample_members_ok); unfold is_u64; simpl; lia.
Defined.

(** Extensions never disturb placement: whatever bytes follow the core of an
    encoded view (an unknown tag, a truncated or a hostile block), the decode
    succeeds with the epoch and every member's id, ip, port and weight intact. *)
Theorem extensions_keep_core e ms epoch tail out0 epoch0 :
  Forall member_ok ms → is_u64 epoch → Z.of_nat (length ms) < 2 ^ 32 →
  Forall byte_ok (put_core e ms epoch ++ tail) →
  ∃ ms', DecodeMembers e (put_core e ms epoch ++ tail) out0 epoch0 = Some (true, ms', epoch) ∧
    core <$> ms' = core <$> ms.
Proof.
  intros H He Hl Hb. destruct (core_at e _ ms epoch tail out0 epoch0 eq_refl H He Hl) as (o & _ & ->).
  destruct (get_extensions_safe e _ Hb (S (length (put_core e ms epoch ++ tail))) (bare <$> ms) o) as (ms' & -> & Hc); [lia|].
  cbn [mbind option_bind]. exists ms'. split; [done|]. rewrite Hc, <- list_fmap_compose. done.
Qed.

Lemma extensions_keep_core_witness :
  ∃ ms', DecodeMembers Little (put_core Little sample_members 77 ++ [49; 80; 67; 84; 1]) [] 0 = Some (true, ms', 77) ∧
    core <$> ms' = core <$> sample_members.
Proof.
  apply (extensions_keep_core Little sample_members 77 [49; 80; 67; 84; 1] [] 0 sample_members_ok).
  - unfold is_u64. lia.
  - simpl. lia.
  - apply (bool_decide_unpack _). vm_compute. exact I.
Defined.
