(* ===== verification/MemberEpoch.v ===== *)
(** * Content epochs of a membership view

    [MembersEpoch] and [MembersTopologyEpoch] of src/common/membership.h: the
    64-bit hashes clients compare to decide whether to rebuild their ring or to
    retire connections.  [std::sort] is a merge sort here; with distinct ids (the
    MDS lists members by etcd key) every sorted permutation is the same list, so
    the choice does not matter ([sorted_unique_by_id]). *)

From S2P Require Import Prelude Codec Membership.

(** ** Comparison and sorting *)

(** [operator<] of [std::string]: lexicographic on unsigned bytes. *)
Fixpoint str_ltb (a b : list Z) : bool :=
  match a, b with
  | _, [] => false
  | [], _ :: _ => true
  | x :: a, y :: b => if x <? y then true else if y <? x then false else str_ltb a b
  end.

Definition not_after {A} (lt : A → A → bool) (a b : A) : Prop := lt b a = false.

#[export] Instance not_after_dec {A} (lt : A → A → bool) : RelDecision (not_after lt).
Proof. intros a b. unfold not_after. apply _. Defined.

Definition std_sort {A} (lt : A → A → bool) (l : list A) : list A := merge_sort (not_after lt) l.

Definition by_id (a b : MemberInfo) : bool := str_ltb (id a) (id b).

(** The comparison of [MembersTopologyEpoch]. *)
Definition by_place (a b : MemberInfo) : bool :=
  if negb (bool_decide (id a = id b)) then str_ltb (id a) (id b)
  else if negb (bool_decide (ip a = ip b)) then str_ltb (ip a) (ip b)
  else if negb (port a =? port b) then port a <? port b
  else weight a <? weight b.

Definition by_device (a b : IbDeviceHealth) : bool :=
  if negb (bool_decide (dev_name a = dev_name b)) then str_ltb (dev_name a) (dev_name b)
  else if negb (port_state a =? port_state b) then port_state a <? port_state b
  else if negb (phys_state a =? phys_state b) then phys_state a <? phys_state b
  else negb (query_ok a) && query_ok b.

(** ** Hashing *)

Definition kFnvOffset : Z := 1469598103934665603.
Definition kFnvPrime : Z := 1099511628211.

(** The lambda [mix]. *)
Definition mix (h : Z) (bytes : list Z) : Z := foldl (λ h b, u64 (Z.lxor h b * kFnvPrime)) h bytes.

Section Hash.
Context (e : Endian).

Definition mix32 (h v : Z) : Z := mix h (host_bytes e 4 v).
Definition mix_string (h : Z) (s : list Z) : Z := mix (mix32 h (u32 (Z.of_nat (length s)))) s.

Definition mix_member (h : Z) (m : MemberInfo) : Z :=
  let h := mix_string h (id m) in
  let h := mix_string h (ip m) in
  let h := mix32 h (port m) in
  let h := mix32 h (weight m) in
  mix h [flag (RingEligible m)].

Definition MembersEpoch (ms : list MemberInfo) : Z := foldl mix_member kFnvOffset (std_sort by_id ms).

Definition mix_device (h : Z) (d : IbDeviceHealth) : Z :=
  let h := mix_string h (dev_name d) in
  let h := mix h [port_state d] in
  let h := mix h [phys_state d] in
  mix h [flag (query_ok d)].

Definition mix_topology (h : Z) (m : MemberInfo) : Z :=
  let h := mix_string h (id m) in
  let h := mix_string h (ip m) in
  let h := mix32 h (port m) in
  let h := mix32 h (weight m) in
  let h := mix h [flag (RingEligible m)] in
  let h := mix h [flag (has_health m)] in
  if negb (has_health m) then h
  else
    let devices := std_sort by_device (ib_devices (health m)) in
    let h := mix32 h (u32 (Z.of_nat (length devices))) in
    foldl mix_device h devices.

Definition MembersTopologyEpoch (ms : list MemberInfo) : Z :=
  let ms := std_sort by_place ms in
  foldl mix_topology (mix32 kFnvOffset (u32 (Z.of_nat (length ms)))) ms.

End Hash.

(** ** Orders *)

Lemma str_ltb_irrefl a : str_ltb a a = false.
Proof. induction a as [|x a IH]; [done|]. simpl. by rewrite Z.ltb_irrefl. Qed.

Lemma str_ltb_trans a b c : str_ltb a b = true → str_ltb b c = true → str_ltb a c = true.
Proof.
  revert b c. induction a as [|x a IH]; intros [|y b] [|z c]; simpl; try done. intros H1 H2.
  destruct (Z.ltb_spec x y), (Z.ltb_spec y x), (Z.ltb_spec y z), (Z.ltb_spec z y), (Z.ltb_spec x z),
    (Z.ltb_spec z x); try done; try lia. by eapply IH.
Qed.

Lemma str_ltb_total a b : a = b ∨ str_ltb a b = true ∨ str_ltb b a = true.
Proof.
  revert b. induction a as [|x a IH]; intros [|y b]; simpl; auto.
  destruct (Z.ltb_spec x y), (Z.ltb_spec y x); auto. assert (x = y) as -> by lia.
  destruct (IH b) as [->|[?|?]]; auto.
Qed.

(** A comparison [std::sort] accepts: a strict weak order. *)
Class StrictWeak {A} (lt : A → A → bool) : Prop := {
  sw_irrefl a : lt a a = false;
  sw_trans a b c : lt a b = true → lt b c = true → lt a c = true;
  sw_incomp a b c : lt a b = false → lt b c = false → lt a c = false;
}.

Lemma sw_asym {A} (lt : A → A → bool) `{!StrictWeak lt} a b : lt a b = true → lt b a = false.
Proof.
  intros H. destruct (lt b a) eqn:E; [|done]. by rewrite <- (sw_irrefl a), (sw_trans a b a H E).
Qed.

#[export] Instance not_after_trans {A} (lt : A → A → bool) `{!StrictWeak lt} : Transitive (not_after lt).
Proof. intros a b c H1 H2. unfold not_after in *. by eapply sw_incomp. Qed.

#[export] Instance not_after_total {A} (lt : A → A → bool) `{!StrictWeak lt} : Total (not_after lt).
Proof.
  intros a b. unfold not_after. destruct (lt b a) eqn:E; [|by left]. right. by apply sw_asym.
Qed.

Lemma std_sort_perm {A} (lt : A → A → bool) l : std_sort lt l ≡ₚ l.
Proof. apply merge_sort_Permutation. Qed.

Lemma std_sort_sorted {A} (lt : A → A → bool) `{!StrictWeak lt} l : StronglySorted (not_after lt) (std_sort lt l).
Proof. apply StronglySorted_merge_sort; apply _. Qed.

(** Sorted lists of the same elements agree when equivalent elements are equal. *)
Lemma sorted_unique_by {A} (lt : A → A → bool) l1 l2 :
  (∀ a b, a ∈ l1 → b ∈ l1 → lt a b = false → lt b a = false → a = b) →
  StronglySorted (not_after lt) l1 → StronglySorted (not_after lt) l2 → l1 ≡ₚ l2 → l1 = l2.
Proof.
  revert l2. induction l1 as [|a l1 IH]; intros l2 Hd H1 H2 Hp.
  { by apply Permutation_nil_l in Hp as ->. }
  destruct l2 as [|b l2]; [by apply Permutation_nil_r in Hp|].
  apply StronglySorted_inv in H1 as [H1 F1], H2 as [H2 F2]. rewrite Forall_forall in F1, F2.
  assert (a = b) as <-.
  { assert (Ha : a ∈ b :: l2) by (rewrite <- Hp; by left).
    assert (Hb : b ∈ a :: l1) by (rewrite Hp; by left). pose proof Hb as Hb'.
    apply elem_of_cons in Ha as [Ha|Ha]; [done|]. apply elem_of_cons in Hb as [Hb|Hb]; [done|].
    apply Hd; [by left|done|by apply F2|by apply F1]. }
  f_equal. apply IH; [|done|done|].
  - intros x y Hx Hy. apply Hd; by right.
  - by apply Permutation_cons_inv in Hp.
Qed.

#[export] Instance by_id_weak : StrictWeak by_id.
Proof.
  split; unfold by_id.
  - intros a. apply str_ltb_irrefl.
  - intros a b c. apply str_ltb_trans.
  - intros a b c H1 H2. destruct (str_ltb (id a) (id c)) eqn:E; [|done].
    destruct (str_ltb_total (id a) (id b)) as [Eq|[?|H]]; [congruence..|].
    rewrite <- H2. symmetry. by eapply str_ltb_trans.
Qed.

(** With distinct ids the sorted list is unique. *)
Lemma sorted_unique_by_id l1 l2 :
  NoDup (id <$> l1) → StronglySorted (not_after by_id) l1 → StronglySorted (not_after by_id) l2 → l1 ≡ₚ l2 → l1 = l2.
Proof.
  intros Hnd. apply sorted_unique_by. intros a b Ha Hb Hab Hba. unfold by_id in *.
  assert (Hid : id a = id b).
  { destruct (str_ltb_total (id a) (id b)) as [?|[?|?]]; [done|congruence..]. }
  apply list_elem_of_lookup in Ha as [i Hi], Hb as [j Hj].
  assert (i = j) as <-; [|congruence]. eapply NoDup_lookup; [exact Hnd| |]; rewrite list_lookup_fmap;
    [by rewrite Hi|by rewrite Hj, Hid].
Qed.

(** A strict total order on keys, and one more comparison in front of another. *)
Class StrictTotal {K} (lt : K → K → bool) : Prop := {
  st_irrefl k : lt k k = false;
  st_trans a b c : lt a b = true → lt b c = true → lt a c = true;
  st_total a b : a = b ∨ lt a b = true ∨ lt b a = true;
}.

#[export] Instance str_total : StrictTotal str_ltb.
Proof. split; [apply str_ltb_irrefl|apply str_ltb_trans|apply str_ltb_total]. Qed.

#[export] Instance Z_total : StrictTotal Z.ltb.
Proof. split; intros; rewrite ?Z.ltb_lt, ?Z.ltb_ge in *; lia. Qed.

#[export] Instance bool_total : StrictTotal (λ a b, negb a && b).
Proof. split; intros; repeat match goal with b : bool |- _ => destruct b end; simpl in *; auto. Qed.

Definition lex {A K} `{!EqDecision K} (f : A → K) (lt : K → K → bool) (rest : A → A → bool) (a b : A) : bool :=
  if negb (bool_decide (f a = f b)) then lt (f a) (f b) else rest a b.

Lemma st_asym {K} (lt : K → K → bool) `{!StrictTotal lt} a b : lt a b = true → lt b a = false.
Proof.
  intros H. destruct (lt b a) eqn:E; [|done]. by rewrite <- (st_irrefl a), (st_trans a b a H E).
Qed.

Lemma lex_weak {A K} `{!EqDecision K} (f : A → K) lt rest `{!StrictTotal lt, !StrictWeak rest} : StrictWeak (lex f lt rest).
Proof.
  assert (Hlt : ∀ a b, lex f lt rest a b = true ↔ lt (f a) (f b) = true ∨ f a = f b ∧ rest a b = true).
  { intros a b. unfold lex. case_bool_decide as E; cbn [negb]; [|naive_solver].
    rewrite E, st_irrefl. naive_solver. }
  assert (Hge : ∀ a b, lex f lt rest a b = false ↔ lt (f b) (f a) = true ∨ f a = f b ∧ rest a b = false).
  { intros a b. unfold lex. case_bool_decide as E; cbn [negb].
    - rewrite E, st_irrefl. naive_solver.
    - split; [|intros [H|[? _]]; [by apply st_asym|done]]. intros H. left.
      destruct (st_total (f a) (f b)) as [?|[?|?]]; [done|congruence|done]. }
  split.
  - intros a. apply Hge. right. split; [done|apply sw_irrefl].
  - intros a b c [H1|[E1 H1]]%Hlt [H2|[E2 H2]]%Hlt; apply Hlt.
    + left. by eapply st_trans.
    + left. by rewrite <- E2.
    + left. by rewrite E1.
    + right. split; [congruence|]. by eapply sw_trans.
  - intros a b c [H1|[E1 H1]]%Hge [H2|[E2 H2]]%Hge; apply Hge.
    + left. by eapply st_trans.
    + left. by rewrite <- E2.
    + left. by rewrite E1.
    + right. split; [congruence|]. by eapply sw_incomp.
Qed.

Lemma key_weak {A K} (f : A → K) (lt : K → K → bool) `{!StrictTotal lt} : StrictWeak (λ a b, lt (f a) (f b)).
Proof.
  split.
  - intros a. apply st_irrefl.
  - intros a b c. apply st_trans.
  - intros a b c H1 H2. destruct (st_total (f a) (f c)) as [E|[E|E]]; [by rewrite E, st_irrefl| |by apply st_asym].
    destruct (st_total (f a) (f b)) as [E'|[E'|E']]; [by rewrite <- E' in H2|congruence|].
    rewrite (st_trans _ _ _ E' E) in H2. done.
Qed.

Lemma sw_ext {A} (lt lt' : A → A → bool) : (∀ a b, lt a b = lt' a b) → StrictWeak lt → StrictWeak lt'.
Proof.
  intros H [I T C]. split; [intros a; rewrite <- H; apply I|intros a b c; rewrite <- !H; apply T|
    intros a b c; rewrite <- !H; apply C].
Qed.

Lemma eqb_decide a b : (a =? b) = bool_decide (a = b).
Proof. destruct (Z.eqb_spec a b); [by rewrite bool_decide_true|by rewrite bool_decide_false]. Qed.

#[export] Instance by_place_weak : StrictWeak by_place.
Proof.
  apply (sw_ext (lex id str_ltb (lex ip str_ltb (lex port Z.ltb (λ a b, weight a <? weight b))))).
  - intros a b. unfold lex, by_place. by rewrite !eqb_decide.
  - apply lex_weak; [apply _|]. apply lex_weak; [apply _|]. apply lex_weak; [apply _|]. apply key_weak. apply _.
Qed.

#[export] Instance by_device_weak : StrictWeak by_device.
Proof.
  apply (sw_ext (lex dev_name str_ltb (lex port_state Z.ltb (lex phys_state Z.ltb
    (λ a b, negb (query_ok a) && query_ok b))))).
  - intros a b. unfold lex, by_device. by rewrite !eqb_decide.
  - apply lex_weak; [apply _|]. apply lex_weak; [apply _|]. apply lex_weak; [apply _|].
    apply (key_weak query_ok (λ a b, negb a && b)).
Qed.

Lemma by_device_eq a b : by_device a b = false → by_device b a = false → a = b.
Proof.
  destruct a as [n1 p1 h1 q1], b as [n2 p2 h2 q2]. unfold by_device. simpl.
  rewrite !eqb_decide. intros H1 H2.
  destruct (decide (n1 = n2)) as [<-|Hn].
  2:{ rewrite !bool_decide_false in H1, H2 by congruence. simpl in *.
      destruct (str_ltb_total n1 n2) as [?|[?|?]]; congruence. }
  rewrite !(bool_decide_true (n1 = n1)) in * by done. simpl in *.
  destruct (decide (p1 = p2)) as [<-|Hn].
  2:{ rewrite !bool_decide_false in H1, H2 by congruence. simpl in *. apply Z.ltb_ge in H1, H2. lia. }
  rewrite !(bool_decide_true (p1 = p1)) in * by done. simpl in *.
  destruct (decide (h1 = h2)) as [<-|Hn].
  2:{ rewrite !bool_decide_false in H1, H2 by congruence. simpl in *. apply Z.ltb_ge in H1, H2. lia. }
  rewrite !(bool_decide_true (h1 = h1)) in * by done. simpl in *. by destruct q1, q2.
Qed.

(** ** The hash sees only placement *)

Definition placement (m : MemberInfo) : list Z * list Z * Z * Z * bool := (core m, RingEligible m).

Lemma NoDup_map_eq (l : list MemberInfo) a b : NoDup (id <$> l) → a ∈ l → b ∈ l → id a = id b → a = b.
Proof.
  intros Hnd [i Hi]%list_elem_of_lookup [j Hj]%list_elem_of_lookup Hid.
  assert (i = j) as <-; [|congruence]. eapply NoDup_lookup; [exact Hnd| |]; rewrite list_lookup_fmap;
    [by rewrite Hi|by rewrite Hj, Hid].
Qed.

(** Comparisons that tell distinct ids apart. *)
Class SeparatesIds (lt : MemberInfo → MemberInfo → bool) : Prop :=
  separates a b : lt a b = false → lt b a = false → id a = id b.

#[export] Instance by_id_separates : SeparatesIds by_id.
Proof.
  intros a b. unfold by_id. intros H1 H2.
  destruct (str_ltb_total (id a) (id b)) as [?|[?|?]]; [done|congruence..].
Qed.

#[export] Instance by_place_separates : SeparatesIds by_place.
Proof.
  intros a b H1 H2. destruct (decide (id a = id b)) as [|Hne]; [done|]. unfold by_place in *.
  rewrite !bool_decide_false in H1, H2 by congruence. cbn [negb] in *.
  destruct (str_ltb_total (id a) (id b)) as [?|[?|?]]; [done|congruence..].
Qed.

(** Sorting commutes with dropping what the comparison does not look at. *)
Lemma sort_canon (lt : MemberInfo → MemberInfo → bool) `{!StrictWeak lt, !SeparatesIds lt} (c : MemberInfo → MemberInfo) l :
  (∀ m, id (c m) = id m) → (∀ a b, lt (c a) (c b) = lt a b) → NoDup (id <$> l) →
  std_sort lt (c <$> l) = c <$> std_sort lt l.
Proof.
  intros Hid Hlt Hnd.
  assert (Hnd' : NoDup (id <$> std_sort lt (c <$> l))).
  { rewrite std_sort_perm, <- list_fmap_compose. erewrite list_fmap_ext; [exact Hnd|]. intros. apply Hid. }
  apply (sorted_unique_by lt).
  - intros a b Ha Hb H1 H2. by eapply NoDup_map_eq, separates.
  - apply std_sort_sorted. apply _.
  - pose proof (std_sort_sorted lt l) as Hs. induction Hs as [|m l' Hs IH Hf]; [constructor|].
    rewrite fmap_cons. constructor; [done|]. rewrite Forall_forall in Hf |- *.
    intros x (y & -> & Hy)%list_elem_of_fmap. unfold not_after. rewrite Hlt. by apply Hf.
  - by rewrite !std_sort_perm.
Qed.

Definition canon (m : MemberInfo) : MemberInfo :=
  mkMember (id m) (ip m) (port m) (weight m) 0 [] no_stats false (mkMemberHealth (RingEligible m) []) true.

Lemma MembersEpoch_canon e l :
  NoDup (id <$> l) → MembersEpoch e l = foldl (mix_member e) kFnvOffset (std_sort by_id (canon <$> l)).
Proof.
  intros Hnd. rewrite (sort_canon by_id canon) by done. unfold MembersEpoch. generalize (std_sort by_id l). intros l'.
  generalize kFnvOffset. induction l' as [|m l' IH]; intros h; [done|]. rewrite fmap_cons. cbn [foldl]. by rewrite IH.
Qed.

Lemma canon_placement ms ms' : placement <$> ms ≡ₚ placement <$> ms' → canon <$> ms ≡ₚ canon <$> ms'.
Proof.
  intros H. apply (Permutation_map (λ q : list Z * list Z * Z * Z * bool,
    mkMember q.1.1.1.1 q.1.1.1.2 q.1.1.2 q.1.2 0 [] no_stats false (mkMemberHealth q.2 []) true)) in H.
  rewrite !map_map in H. exact H.
Qed.

(** The devices in the order they are hashed. *)
Definition topo_canon (m : MemberInfo) : MemberInfo :=
  mkMember (id m) (ip m) (port m) (weight m) 0 [] no_stats false
    (mkMemberHealth (RingEligible m) (if has_health m then std_sort by_device (ib_devices (health m)) else []))
    (has_health m).

Lemma sort_devices ds ds' : ds ≡ₚ ds' → std_sort by_device ds = std_sort by_device ds'.
Proof.
  intros Hp. apply (sorted_unique_by by_device); [|apply std_sort_sorted, _|apply std_sort_sorted, _|by rewrite !std_sort_perm].
  intros a b _ _. apply by_device_eq.
Qed.

Lemma mix_topology_canon e h m : mix_topology e h (topo_canon m) = mix_topology e h m.
Proof.
  unfold mix_topology. cbn [id ip port weight has_health health topo_canon].
  assert (RingEligible (topo_canon m) = RingEligible m) as ->.
  { unfold topo_canon, RingEligible. cbn [has_health health ring_eligible]. by destruct (has_health m), (ring_eligible (health m)). }
  destruct (has_health m) eqn:E; [|done]. cbn [negb ib_devices].
  by rewrite (sort_devices (std_sort by_device (ib_devices (health m))) (ib_devices (health m))) by apply std_sort_perm.
Qed.

Lemma MembersTopologyEpoch_canon e l :
  NoDup (id <$> l) →
  MembersTopologyEpoch e l =
  foldl (mix_topology e) (mix32 e kFnvOffset (u32 (Z.of_nat (length l)))) (std_sort by_place (topo_canon <$> l)).
Proof.
  intros Hnd. rewrite (sort_canon by_place topo_canon) by done. unfold MembersTopologyEpoch.
  assert (length (std_sort by_place l) = length l) as -> by (by rewrite std_sort_perm).
  generalize (std_sort by_place l). intros l'. generalize (mix32 e kFnvOffset (u32 (Z.of_nat (length l)))).
  induction l' as [|m l' IH]; intros h; [done|]. rewrite fmap_cons. cbn [foldl]. by rewrite mix_topology_canon, IH.
Qed.

(** The same member up to the order of its devices and to what is not topology. *)
Definition same_topology (a b : MemberInfo) : Prop :=
  placement a = placement b ∧ has_health a = has_health b ∧
  (has_health a = true → ib_devices (health a) ≡ₚ ib_devices (health b)).

Lemma same_topology_canon a b : same_topology a b → topo_canon a = topo_canon b.
Proof.
  intros (Hp & Hh & Hd). unfold topo_canon. injection Hp as -> -> -> -> ->. rewrite <- Hh.
  destruct (has_health a); [|done]. by rewrite (sort_devices _ _ (Hd eq_refl)).
Qed.

Lemma StronglySorted_perm_eq (lt : MemberInfo → MemberInfo → bool) `{!StrictWeak lt, !SeparatesIds lt} l l' :
  NoDup (id <$> l) → l ≡ₚ l' → std_sort lt l = std_sort lt l'.
Proof.
  intros Hnd Hp. apply (sorted_unique_by lt); [|apply std_sort_sorted, _|apply std_sort_sorted, _|by rewrite !std_sort_perm].
  intros a b Ha Hb H1 H2. rewrite std_sort_perm in Ha, Hb. by eapply NoDup_map_eq, separates.
Qed.

(** ** Claims *)

(** The epoch is a hash of the member set as far as placement goes: it does not
    depend on the order etcd returned the members in, nor on their stats, info,
    tcp port or device reports. *)
Theorem epoch_of_placement e ms ms' :
  NoDup (id <$> ms) → placement <$> ms ≡ₚ placement <$> ms' → MembersEpoch e ms = MembersEpoch e ms'.
Proof.
  intros Hnd Hp. assert (Hc : ∀ l : list MemberInfo, id <$> (canon <$> l) = id <$> l)
    by (intros l; by rewrite <- list_fmap_compose).
  assert (Hids : ∀ l : list MemberInfo, id <$> l = (λ q : list Z * list Z * Z * Z * bool, q.1.1.1.1) <$> (placement <$> l))
    by (intros l; by rewrite <- list_fmap_compose).
  assert (Hnd' : NoDup (id <$> ms')) by (rewrite Hids, <- Hp, <- Hids; done).
  rewrite !MembersEpoch_canon by done.
  rewrite (StronglySorted_perm_eq by_id (canon <$> ms) (canon <$> ms')); [done|by rewrite Hc|by apply canon_placement].
Qed.

(** The topology epoch is independent of both orders: the members' and, inside a
    member, the devices'. *)
Theorem topology_epoch_order e ms ms1 ms' :
  NoDup (id <$> ms) → ms ≡ₚ ms1 → Forall2 same_topology ms1 ms' →
  MembersTopologyEpoch e ms = MembersTopologyEpoch e ms'.
Proof.
  intros Hnd Hp H2. assert (Hc : topo_canon <$> ms1 = topo_canon <$> ms').
  { clear Hp. induction H2 as [|a b l l' Hab H2 IH]; [done|]. rewrite !fmap_cons, IH. f_equal.
    by apply same_topology_canon. }
  assert (Hids : ∀ l : list MemberInfo, id <$> (topo_canon <$> l) = id <$> l) by (intros l; by rewrite <- list_fmap_compose).
  assert (Hnd' : NoDup (id <$> ms')) by (rewrite <- Hids, <- Hc, Hids, <- Hp; done).
  rewrite !MembersTopologyEpoch_canon by done.
  assert (Hlen : length ms = length ms') by (rewrite Hp; by eapply Forall2_length).
  rewrite Hlen, (StronglySorted_perm_eq by_place (topo_canon <$> ms) (topo_canon <$> ms1)); [by rewrite Hc|by rewrite Hids|].
  by rewrite Hp.
Qed.

Lemma epoch_of_placement_witness :
  MembersEpoch Little sample_members = MembersEpoch Little (reverse (set_info [120] <$> sample_members)).
Proof.
  apply (epoch_of_placement Little sample_members (reverse (set_info [120] <$> sample_members))).
  - apply (bool_decide_unpack _). vm_compute. exact I.
  - vm_compute. apply Permutation_swap.
Defined.

Lemma topology_epoch_order_witness :
  MembersTopologyEpoch Little sample_members = MembersTopologyEpoch Little (reverse sample_members).
Proof.
  apply (topology_epoch_order Little sample_members (reverse sample_members) (reverse sample_members)).
  - apply (bool_decide_unpack _). vm_compute. exact I.
  - vm_compute. apply Permutation_swap.
  - vm_compute. repeat constructor.
Defined.
