(* ===== verification/Md5.v ===== *)
(** * MD5

    src/utils/md5.h: the digest the ring points and key hashes come from.  Words
    are 32-bit [Z]s; the context buffers up to 64 bytes.  The loops carry fuel;
    [Md5_total] shows that it suffices for every message. *)

From S2P Require Import Prelude Codec.

(** ** The block function *)

Definition rol (x s : Z) : Z := Z.lor (u32 (Z.shiftl x s)) (Z.shiftr x (32 - s)).

(** [~x] on 32 bits. *)
Definition compl (x : Z) : Z := Z.lxor x UINT32_MAX.

Definition K_table : list Z :=
  [0xd76aa478; 0xe8c7b756; 0x242070db; 0xc1bdceee; 0xf57c0faf; 0x4787c62a;
   0xa8304613; 0xfd469501; 0x698098d8; 0x8b44f7af; 0xffff5bb1; 0x895cd7be;
   0x6b901122; 0xfd987193; 0xa679438e; 0x49b40821; 0xf61e2562; 0xc040b340;
   0x265e5a51; 0xe9b6c7aa; 0xd62f105d; 0x02441453; 0xd8a1e681; 0xe7d3fbc8;
   0x21e1cde6; 0xc33707d6; 0xf4d50d87; 0x455a14ed; 0xa9e3e905; 0xfcefa3f8;
   0x676f02d9; 0x8d2a4c8a; 0xfffa3942; 0x8771f681; 0x6d9d6122; 0xfde5380c;
   0xa4beea44; 0x4bdecfa9; 0xf6bb4b60; 0xbebfbc70; 0x289b7ec6; 0xeaa127fa;
   0xd4ef3085; 0x04881d05; 0xd9d4d039; 0xe6db99e5; 0x1fa27cf8; 0xc4ac5665;
   0xf4292244; 0x432aff97; 0xab9423a7; 0xfc93a039; 0x655b59c3; 0x8f0ccc92;
   0xffeff47d; 0x85845dd1; 0x6fa87e4f; 0xfe2ce6e0; 0xa3014314; 0x4e0811a1;
   0xf7537e82; 0xbd3af235; 0x2ad7d2bb; 0xeb86d391].

Definition S_table : list Z :=
  [7; 12; 17; 22; 7; 12; 17; 22; 7; 12; 17; 22; 7; 12; 17; 22;
   5; 9; 14; 20; 5; 9; 14; 20; 5; 9; 14; 20; 5; 9; 14; 20;
   4; 11; 16; 23; 4; 11; 16; 23; 4; 11; 16; 23; 4; 11; 16; 23;
   6; 10; 15; 21; 6; 10; 15; 21; 6; 10; 15; 21; 6; 10; 15; 21].

Record Ctx := mkCtx { x_a : Z; x_b : Z; x_c : Z; x_d : Z; x_len : Z; x_buf : list Z }.

(** One turn of the loop over the 64 steps. *)
Definition step (M : list Z) (abcd : Z * Z * Z * Z) (i : nat) : Z * Z * Z * Z :=
  let '(A, B, C, D) := abcd in
  let '(F, g) :=
    if (i <? 16)%nat then (Z.lor (Z.land B C) (Z.land (compl B) D), i)
    else if (i <? 32)%nat then (Z.lor (Z.land D B) (Z.land (compl D) C), ((5 * i + 1) mod 16)%nat)
    else if (i <? 48)%nat then (Z.lxor (Z.lxor B C) D, ((3 * i + 5) mod 16)%nat)
    else (Z.lxor C (Z.lor B (compl D)), ((7 * i) mod 16)%nat) in
  let F := u32 (F + A + nth i K_table 0 + nth g M 0) in
  (D, u32 (B + rol F (nth i S_table 0)), B, C).

Definition Block (m : Ctx) (p : list Z) : Ctx :=
  let M := (λ i, or_word (take 4 (drop (i * 4) p))) <$> seq 0 16 in
  let '(A, B, C, D) := foldl (step M) (x_a m, x_b m, x_c m, x_d m) (seq 0 64) in
  mkCtx (u32 (x_a m + A)) (u32 (x_b m + B)) (u32 (x_c m + C)) (u32 (x_d m + D)) (x_len m) (x_buf m).

(** ** Streaming *)

Definition Init : Ctx := mkCtx 0x67452301 0xefcdab89 0x98badcfe 0x10325476 0 [].

Definition set_buf (b : list Z) (m : Ctx) : Ctx := mkCtx (x_a m) (x_b m) (x_c m) (x_d m) (x_len m) b.

(** The loop of [Update]; [None]: out of fuel. *)
Fixpoint update_loop (fuel : nat) (m : Ctx) (data : list Z) : option Ctx :=
  match data with
  | [] => Some m
  | _ :: _ =>
      match fuel with
      | O => None
      | S fuel =>
          let take_ := Nat.min (64 - length (x_buf m)) (length data) in
          let buf := x_buf m ++ take take_ data in
          let m := set_buf buf m in
          let m := if (length buf =? 64)%nat then set_buf [] (Block m buf) else m in
          update_loop fuel m (drop take_ data)
      end
  end.

Definition Update (m : Ctx) (data : list Z) : option Ctx :=
  let m := mkCtx (x_a m) (x_b m) (x_c m) (x_d m) (u64 (x_len m + Z.of_nat (length data))) (x_buf m) in
  update_loop (length data) m data.

(** [while (m.buflen != 56) Update(m, &zero, 1)] *)
Fixpoint pad_zeros (fuel : nat) (m : Ctx) : option Ctx :=
  if (length (x_buf m) =? 56)%nat then Some m
  else
    match fuel with
    | O => None
    | S fuel => m ← Update m [0]; pad_zeros fuel m
    end.

(** The words, least significant byte first. *)
Definition digest_bytes (m : Ctx) : list Z :=
  concat ((λ v, [Z.land v 255; Z.land (Z.shiftr v 8) 255; Z.land (Z.shiftr v 16) 255;
                 Z.land (Z.shiftr v 24) 255]) <$> [x_a m; x_b m; x_c m; x_d m]).

Definition Final (m : Ctx) : option (list Z) :=
  let bits := u64 (x_len m * 8) in
  m ← Update m [128];
  m ← pad_zeros 64 m;
  m ← Update m ((λ i, u8 (Z.shiftr bits (8 * Z.of_nat i))) <$> seq 0 8);
  Some (digest_bytes m).

Definition Md5 (data : list Z) : option (list Z) := m ← Update Init data; Final m.

Definition Md5_64 (s : list Z) : option Z := d ← Md5 s; Some (or_word (take 8 d)).
Definition Md5_32 (s : list Z) : option Z := d ← Md5 s; Some (or_word (take 4 d)).

(** RFC 1321: the digest of "abc". *)
Example Md5_abc :
  Md5 [97; 98; 99] =
  Some [0x90; 0x01; 0x50; 0x98; 0x3c; 0xd2; 0x4f; 0xb0; 0xd6; 0x96; 0x3f; 0x7d; 0x28; 0xe1; 0x7f; 0x72].
Proof. vm_compute. reflexivity. Qed.

(** ** Totality *)

Definition buffered (m : Ctx) : Prop := (length (x_buf m) < 64)%nat.

Lemma update_loop_total fuel m data :
  (length data <= fuel)%nat → buffered m → ∃ m', update_loop fuel m data = Some m' ∧ buffered m'.
Proof.
  unfold buffered. revert m data. induction fuel as [|fuel IH]; intros m data Hf Hb.
  { destruct data; [by exists m|simpl in Hf; lia]. }
  destruct data as [|x data]; [by exists m|]. cbn [update_loop]. set (l := x :: data) in *.
  assert (Hl : (0 < length l)%nat) by (subst l; simpl; lia). clearbody l.
  apply IH; [rewrite length_drop; lia|].
  destruct (Nat.eqb_spec (length (x_buf m ++ take (Nat.min (64 - length (x_buf m)) (length l)) l)) 64); simpl; [lia|].
  rewrite length_app, length_take in *. lia.
Qed.

Lemma Update_total m data : buffered m → ∃ m', Update m data = Some m' ∧ buffered m'.
Proof. intros H. by apply update_loop_total. Qed.

(** One byte: the buffer grows by one, modulo 64. *)
Lemma Update_one m b :
  buffered m → ∃ m', Update m [b] = Some m' ∧ length (x_buf m') = ((length (x_buf m) + 1) mod 64)%nat.
Proof.
  unfold buffered. intros H. unfold Update. cbn [length update_loop x_buf].
  replace (Nat.min (64 - length (x_buf m)) 1) with 1%nat by lia. cbn [take drop].
  eexists. split; [done|]. rewrite length_app. simpl length.
  destruct (Nat.eqb_spec (length (x_buf m) + 1) 64) as [E|E]; cbn [x_buf set_buf].
  - by rewrite E.
  - rewrite length_app. cbn [length]. by rewrite Nat.mod_small by lia.
Qed.

Lemma pad_zeros_total fuel m :
  buffered m → ((120 - length (x_buf m)) mod 64 <= fuel)%nat →
  ∃ m', pad_zeros fuel m = Some m' ∧ length (x_buf m') = 56%nat.
Proof.
  revert m. induction fuel as [|fuel IH]; intros m Hb Hf; unfold buffered in Hb; cbn [pad_zeros];
    destruct (Nat.eqb_spec (length (x_buf m)) 56) as [E|E]; [by exists m| |by exists m|].
  - exfalso. set (l := length (x_buf m)) in *. destruct (Nat.lt_ge_cases l 56).
    + replace (120 - l)%nat with ((56 - l) + 1 * 64)%nat in Hf by lia. rewrite Nat.Div0.mod_add, Nat.mod_small in Hf by lia. lia.
    + rewrite Nat.mod_small in Hf by lia. lia.
  - destruct (Update_one m 0 Hb) as (m1 & Hu & Hl). rewrite Hu. cbn [mbind option_bind]. apply IH.
    + unfold buffered. rewrite Hl. apply Nat.mod_upper_bound. lia.
    + rewrite Hl. set (l := length (x_buf m)) in *. clearbody l. clear IH Hu Hl.
      destruct (Nat.eq_dec l 63) as [->|]; [simpl in *; lia|]. rewrite (Nat.mod_small (l + 1)) by lia.
      destruct (Nat.lt_ge_cases l 56).
      * replace (120 - l)%nat with ((56 - l) + 1 * 64)%nat in Hf by lia.
        rewrite Nat.Div0.mod_add, Nat.mod_small in Hf by lia.
        replace (120 - (l + 1))%nat with ((55 - l) + 1 * 64)%nat by lia.
        rewrite Nat.Div0.mod_add, Nat.mod_small by lia. lia.
      * rewrite Nat.mod_small in Hf by lia. rewrite Nat.mod_small by lia. lia.
Qed.

Lemma land_byte v : byte_ok (Z.land v 255).
Proof. change 255 with (Z.ones 8). rewrite Z.land_ones by lia. apply Z.mod_pos_bound. lia. Qed.

Lemma digest_bytes_ok m : length (digest_bytes m) = 16%nat ∧ Forall byte_ok (digest_bytes m).
Proof. split; [done|]. unfold digest_bytes. cbn. repeat (constructor; [apply land_byte|]). constructor. Qed.

Lemma pad_zeros_enough fuel m :
  (64 <= fuel)%nat → buffered m → ∃ m', pad_zeros fuel m = Some m' ∧ length (x_buf m') = 56%nat.
Proof.
  intros Hf Hb. apply pad_zeros_total; [done|].
  pose proof (Nat.mod_upper_bound (120 - length (x_buf m)) 64). lia.
Qed.

Lemma bind_is {A B} (x : option A) a (f : A → option B) : x = Some a → (x ≫= f) = f a.
Proof. by intros ->. Qed.

Lemma Final_total m : buffered m → ∃ d, Final m = Some d ∧ length d = 16%nat ∧ Forall byte_ok d.
Proof.
  intros B1. unfold Final.
  destruct (Update_total m [128] B1) as (m2 & E2 & B2). rewrite (bind_is _ _ _ E2).
  destruct (pad_zeros_enough 64 m2 (le_n 64) B2) as (m3 & E3 & B3). rewrite (bind_is _ _ _ E3).
  match goal with |- context [Update m3 ?l] => destruct (Update_total m3 l) as (m4 & E4 & _) end;
    [unfold buffered; lia|]. rewrite (bind_is _ _ _ E4).
  exists (digest_bytes m4). split; [done|]. apply digest_bytes_ok.
Qed.

(** Every message has a digest, of sixteen bytes: the loops of [Update] and of
    the padding end. *)
Lemma Md5_total data : ∃ d, Md5 data = Some d ∧ length d = 16%nat ∧ Forall byte_ok d.
Proof.
  unfold Md5. destruct (Update_total Init data) as (m1 & E1 & B1); [unfold buffered; simpl; lia|].
  rewrite (bind_is _ _ _ E1). by apply Final_total.
Qed.
