(* ===== verification/ConHash.v ===== *)
(** * The consistent-hash ring

    [ConHash] of src/utils/con_hash.{h,cc}: Ketama points from MD5, and the node
    that owns a key.  The [std::map] of points is the list of its entries in key
    order. *)

From S2P Require Import Prelude Codec Md5.

(** ** [std::to_string] *)

Fixpoint dec_digits (fuel : nat) (n : Z) : list Z :=
  match fuel with
  | O => []
  | S fuel => (if n <? 10 then [] else dec_digits fuel (n / 10)) ++ [48 + n mod 10]
  end.

(** Of a non-negative [int]: at most ten digits. *)
Definition to_string (n : Z) : list Z := dec_digits 10 n.

(** ** The ring *)

Notation name := (list Z) (only parsing).
Notation ring := (list (Z * list Z)).

(** [ring_[point] = name] *)
Fixpoint ring_set (k : Z) (v : name) (r : ring) : ring :=
  match r with
  | [] => [(k, v)]
  | (k', v') :: r' =>
      if k <? k' then (k, v) :: r
      else if k =? k' then (k, v) :: r'
      else (k', v') :: ring_set k v r'
  end.

Record ConHash := mkConHash { nodes : list (list Z * Z); ring_ : ring }.

Definition new_hash : ConHash := mkConHash [] [].

Definition AddNode (n : name) (weight : Z) (c : ConHash) : ConHash :=
  let weight := if weight <? 1 then 1 else weight in
  mkConHash (nodes c ++ [(n, weight)]) (ring_ c).

(** The clamp of [Build] and the keys per node. *)
Definition clamp_weight (weight : Z) : Z := if weight <? 1 then 1 else if 1024 <? weight then 1024 else weight.
Definition node_keys (weight : Z) : nat := Z.to_nat (40 * clamp_weight weight).

(** The four points of one digest. *)
Definition points (d : list Z) : list Z := (λ h, or_word (take 4 (drop (h * 4) d))) <$> seq 0 4.

(** "name-k" *)
Definition vnode_label (n : name) (k : nat) : list Z := n ++ [45] ++ to_string (Z.of_nat k).

Fixpoint build_keys (n : name) (ks : list nat) (r : ring) : option ring :=
  match ks with
  | [] => Some r
  | k :: ks =>
      d ← Md5 (vnode_label n k);
      build_keys n ks (foldl (λ r p, ring_set p n r) r (points d))
  end.

Fixpoint build_nodes (ns : list (list Z * Z)) (r : ring) : option ring :=
  match ns with
  | [] => Some r
  | (n, w) :: ns => r ← build_keys n (seq 0 (node_keys w)) r; build_nodes ns r
  end.

Definition Build (c : ConHash) : option ConHash :=
  r ← build_nodes (nodes c) []; Some (mkConHash (nodes c) r).

(** [lower_bound] *)
Fixpoint lower_bound (h : Z) (r : ring) : option (Z * list Z) :=
  match r with
  | [] => None
  | (k, v) :: r => if h <=? k then Some (k, v) else lower_bound h r
  end.

Definition owner (h : Z) (r : ring) : option (list Z) :=
  match lower_bound h r with
  | Some (_, v) => Some v
  | None => snd <$> head r
  end.

(** Whether the ring is nonempty, and the node; [*node] keeps its value otherwise.
    The outer [None] does not occur ([Md5_total]). *)
Definition Lookup (key : list Z) (node : name) (c : ConHash) : option (bool * list Z) :=
  match ring_ c with
  | [] => Some (false, node)
  | _ :: _ => h ← Md5_32 key; n ← owner h (ring_ c); Some (true, n)
  end.

Definition NodeCount (c : ConHash) : nat := length (nodes c).
Definition RingSize (c : ConHash) : nat := length (ring_ c).

(** ** The map *)

Fixpoint ring_get (k : Z) (r : ring) : option (list Z) :=
  match r with
  | [] => None
  | (k', v) :: r => if k =? k' then Some v else ring_get k r
  end.

Notation ring_sorted := (StronglySorted (λ p q : Z * list Z, p.1 < q.1)).

Lemma ring_get_in k v r : ring_sorted r → ring_get k r = Some v ↔ (k, v) ∈ r.
Proof.
  induction 1 as [|[k' v'] r Hs IH Hf]; simpl; [by rewrite elem_of_nil|].
  rewrite elem_of_cons. rewrite Forall_forall in Hf. destruct (Z.eqb_spec k k') as [->|Hne].
  - split; [intros [= ->]; by left|]. intros [[= ->]|Hin]; [done|]. specialize (Hf _ Hin). simpl in Hf. lia.
  - rewrite IH. split; [by right|]. intros [[= -> ->]|?]; done.
Qed.

Lemma ring_set_keys k v r e : e ∈ ring_set k v r → e.1 = k ∨ e ∈ r.
Proof.
  induction r as [|[k' v'] r IH]; simpl.
  - intros ->%list_elem_of_singleton. by left.
  - destruct (k <? k'); [intros [->|?]%elem_of_cons; auto|].
    destruct (k =? k'); [intros [->|?]%elem_of_cons; auto; right; by right|].
    intros [->|Hin]%elem_of_cons; [right; by left|]. destruct (IH Hin); [by left|right; by right].
Qed.

Lemma ring_set_sorted k v r : ring_sorted r → ring_sorted (ring_set k v r).
Proof.
  induction 1 as [|[k' v'] r Hs IH Hf]; simpl; [repeat constructor|].
  destruct (Z.ltb_spec k k').
  - constructor; [by constructor|]. constructor; [done|]. eapply Forall_impl; [exact Hf|]. simpl. lia.
  - destruct (Z.eqb_spec k k') as [->|]; [by constructor|]. constructor; [done|].
    rewrite Forall_forall in Hf |- *. intros e He. apply ring_set_keys in He as [->|He]; [simpl; lia|by apply Hf].
Qed.

Lemma ring_get_set k v k' r : ring_sorted r → ring_get k' (ring_set k v r) = if k' =? k then Some v else ring_get k' r.
Proof.
  induction 1 as [|[k0 v0] r Hs IH Hf]; simpl; [done|].
  destruct (Z.ltb_spec k k0); simpl; [done|].
  destruct (Z.eqb_spec k k0) as [->|Hne]; simpl; [by destruct (k' =? k0)|].
  rewrite IH. destruct (Z.eqb_spec k' k0) as [->|]; [|done]. by rewrite (proj2 (Z.eqb_neq k0 k)) by done.
Qed.

(** ** Owners *)

Lemma lower_bound_spec h r :
  ring_sorted r →
  match lower_bound h r with
  | Some (k, v) => ring_get k r = Some v ∧ h <= k ∧ ∀ k', is_Some (ring_get k' r) → h <= k' → k <= k'
  | None => ∀ k', is_Some (ring_get k' r) → k' < h
  end.
Proof.
  induction 1 as [|[k0 v0] r Hs IH Hf]; simpl; [by intros k' [? ?]|].
  rewrite Forall_forall in Hf.
  assert (Hall : ∀ k', is_Some (ring_get k' r) → k0 < k').
  { intros k' [v' Hv']. apply ring_get_in in Hv'; [|done]. exact (Hf _ Hv'). }
  destruct (Z.leb_spec h k0).
  - rewrite Z.eqb_refl. split_and!; [done|done|]. intros k' Hk' Hle.
    destruct (Z.eqb_spec k' k0) as [E|]; [lia|]. specialize (Hall k' Hk'). lia.
  - destruct (lower_bound h r) as [[k v]|].
    + destruct IH as (H1 & H2 & H3). destruct (Z.eqb_spec k k0) as [E|]; [lia|]. split_and!; [done|done|].
      intros k' Hk' Hle. destruct (Z.eqb_spec k' k0) as [E|]; [lia|]. by apply H3.
    + intros k' Hk'. destruct (Z.eqb_spec k' k0) as [E|]; [lia|]. by apply IH.
Qed.

Lemma head_spec r e : ring_sorted r → head r = Some e → ring_get e.1 r = Some e.2 ∧ ∀ k', is_Some (ring_get k' r) → e.1 <= k'.
Proof.
  intros Hs He. destruct r as [|[k v] r]; simplify_eq/=. rewrite Z.eqb_refl. split; [done|].
  intros k' [v' Hv']. destruct (Z.eqb_spec k' k) as [E|]; [lia|].
  apply StronglySorted_inv in Hs as [Hs Hf]. rewrite Forall_forall in Hf.
  apply ring_get_in in Hv'; [|done]. specialize (Hf _ Hv'). simpl in Hf. lia.
Qed.

(** Two rings that differ only in points taken by [new]. *)
Definition grown (new : list Z) (r r' : ring) : Prop :=
  ∀ k, ring_get k r' = Some new ∨ ring_get k r' = ring_get k r.

Lemma grown_dom new r r' k : grown new r r' → is_Some (ring_get k r) → is_Some (ring_get k r').
Proof. intros H Hk. destruct (H k) as [->| ->]; [by eexists|done]. Qed.

Lemma owner_grown new h r r' :
  ring_sorted r → ring_sorted r' → grown new r r' → r ≠ [] →
  owner h r' = Some new ∨ owner h r' = owner h r.
Proof.
  intros Hs Hs' Hg Hne. unfold owner.
  pose proof (lower_bound_spec h r Hs) as L. pose proof (lower_bound_spec h r' Hs') as L'.
  assert (Hex : ∃ e, head r = Some e) by (destruct r; [done|by eexists]). destruct Hex as [e He].
  pose proof (head_spec r e Hs He) as [H1 H2].
  destruct (lower_bound h r') as [[k' v']|].
  - destruct L' as (G1' & G2' & G3'). destruct (Hg k') as [E|E]; [left; congruence|]. rewrite G1' in E.
    destruct (lower_bound h r) as [[k v]|].
    + right. destruct L as (G1 & G2 & G3).
      assert (k <= k') by (apply G3; [by eexists|done]).
      assert (k' <= k) by (apply G3'; [eapply grown_dom; [done|by eexists]|done]).
      assert (k = k') as -> by lia. congruence.
    + assert (k' < h) by (apply L; by eexists). lia.
  - assert (Hnone : lower_bound h r = None).
    { destruct (lower_bound h r) as [[k v]|]; [|done]. destruct L as (G1 & G2 & _).
      assert (k < h); [|lia]. apply L'. eapply grown_dom; [done|by eexists]. }
    rewrite Hnone. rewrite He. destruct r' as [|e' r'].
    { destruct (grown_dom new r [] e.1 Hg ltac:(by eexists)) as [? ?]. done. }
    pose proof (head_spec _ e' Hs' eq_refl) as [H1' H2']. cbn [head fmap option_fmap option_map].
    destruct (Hg e'.1) as [E|E]; [left; congruence|]. right. rewrite H1' in E.
    assert (e.1 <= e'.1) by (apply H2; by eexists).
    assert (e'.1 <= e.1) by (apply H2'; eapply grown_dom; [done|by eexists]).
    assert (E1 : e.1 = e'.1) by lia. rewrite E1 in H1. congruence.
Qed.

(** ** Building *)

(** The ring after points went to [n]. *)
Lemma set_points_spec n ps r (r' := foldl (λ r p, ring_set p n r) r ps) :
  ring_sorted r →
  ring_sorted r' ∧ ∀ k, ring_get k r' = if bool_decide (k ∈ ps) then Some n else ring_get k r.
Proof.
  subst r'. revert r. induction ps as [|p ps IH]; intros r Hs; cbn [foldl]; [done|].
  destruct (IH (ring_set p n r)) as [H1 H2]; [by apply ring_set_sorted|]. split; [done|].
  intros k. rewrite H2, ring_get_set by done. destruct (Z.eqb_spec k p) as [E|E].
  - rewrite (bool_decide_true (k ∈ p :: ps)) by (subst; by left). by destruct (bool_decide (k ∈ ps)).
  - rewrite (bool_decide_ext (k ∈ p :: ps) (k ∈ ps)); [done|]. rewrite elem_of_cons. naive_solver.
Qed.

(** Every key of a node adds its points, independently of the ring. *)
Lemma build_keys_spec n ks :
  ∃ ps, (ks ≠ [] → ps ≠ []) ∧
    ∀ r, ring_sorted r → ∃ r', build_keys n ks r = Some r' ∧ ring_sorted r' ∧
      ∀ k, ring_get k r' = if bool_decide (k ∈ ps) then Some n else ring_get k r.
Proof.
  induction ks as [|i ks (ps & _ & IH)].
  { exists []. split; [done|]. intros r Hs. exists r. done. }
  destruct (Md5_total (vnode_label n i)) as (d & Hd & _).
  exists (points d ++ ps). split; [done|]. intros r Hs. cbn [build_keys]. rewrite Hd. cbn [mbind option_bind].
  destruct (set_points_spec n (points d) r Hs) as [S1 S2].
  destruct (IH _ S1) as (r' & -> & S3 & S4). exists r'. split_and!; [done|done|]. intros k. rewrite S4, S2.
  destruct (decide (k ∈ ps)) as [Hk|Hk].
  - rewrite (bool_decide_true (k ∈ ps)), (bool_decide_true (k ∈ points d ++ ps)); [done| |done].
    apply elem_of_app. by right.
  - rewrite (bool_decide_false (k ∈ ps)) by done.
    rewrite (bool_decide_ext (k ∈ points d ++ ps) (k ∈ points d)); [done|]. rewrite elem_of_app. tauto.
Qed.

Lemma node_keys_pos w : seq 0 (node_keys w) ≠ [].
Proof.
  assert (H : 40 <= 40 * clamp_weight w).
  { unfold clamp_weight. destruct (Z.ltb_spec w 1), (Z.ltb_spec 1024 w); lia. }
  unfold node_keys. destruct (Z.to_nat (40 * clamp_weight w)) eqn:E; [lia|done].
Qed.

Lemma build_nodes_app l1 l2 r : build_nodes (l1 ++ l2) r = (r ← build_nodes l1 r; build_nodes l2 r).
Proof.
  revert r. induction l1 as [|[n w] l1 IH]; intros r; [done|]. cbn [app build_nodes].
  destruct (build_keys n (seq 0 (node_keys w)) r) as [r1|]; cbn [mbind option_bind]; [apply IH|done].
Qed.

Lemma build_nodes_total ns r :
  ring_sorted r →
  ∃ r', build_nodes ns r = Some r' ∧ ring_sorted r' ∧ (ns ≠ [] ∨ r ≠ [] → r' ≠ []) ∧
    ∀ k v, ring_get k r' = Some v → ring_get k r = Some v ∨ v ∈ ns.*1.
Proof.
  revert r. induction ns as [|[n w] ns IH]; intros r Hs; cbn [build_nodes].
  { exists r. split_and!; [done|done|intros [?|?]; done|by left]. }
  destruct (build_keys_spec n (seq 0 (node_keys w))) as (ps & Hne & Hps).
  destruct (Hps r Hs) as (r1 & -> & S1 & G1). cbn [mbind option_bind].
  destruct (IH r1 S1) as (r' & -> & S2 & Hne2 & G2). exists r'. split_and!; [done|done| |].
  - intros _. apply Hne2. right. specialize (Hne (node_keys_pos w)). destruct ps as [|p ps]; [done|].
    specialize (G1 p). rewrite bool_decide_true in G1 by (by left). by destruct r1.
  - intros k v Hv. rewrite fmap_cons, elem_of_cons. destruct (G2 k v Hv) as [H|H]; [|by right; right].
    rewrite G1 in H. case_bool_decide; [injection H as <-; right; by left|by left].
Qed.

(** Building the same nodes on two rings keeps their difference. *)
Lemma build_nodes_grown new ns r1 r2 r1' r2' :
  ring_sorted r1 → ring_sorted r2 → grown new r1 r2 →
  build_nodes ns r1 = Some r1' → build_nodes ns r2 = Some r2' → grown new r1' r2'.
Proof.
  revert r1 r2. induction ns as [|[n w] ns IH]; intros r1 r2 S1 S2 Hg; cbn [build_nodes].
  { by intros [= <-] [= <-]. }
  destruct (build_keys_spec n (seq 0 (node_keys w))) as (ps & _ & Hps).
  destruct (Hps r1 S1) as (q1 & -> & Q1 & G1), (Hps r2 S2) as (q2 & -> & Q2 & G2). cbn [mbind option_bind].
  apply IH; [done|done|]. intros k. rewrite G1, G2. case_bool_decide; [by right|apply Hg].
Qed.

Lemma Build_total ns : ∃ c, Build (mkConHash ns []) = Some c.
Proof.
  destruct (build_nodes_total ns [] ltac:(constructor)) as (r & Hr & _). unfold Build. cbn [nodes].
  rewrite Hr. by eexists.
Qed.

(** ** Claims *)

(** C39. Adding a node moves keys to it and nothing else: on the rings built without
    and with one more node, every key either goes to the new node or stays where
    it was, wherever the node is inserted and also when points collide. *)
Theorem adding_node_moves_only_to_it before after new weight c c' key node :
  before ++ after ≠ [] →
  Build (mkConHash (before ++ after) []) = Some c →
  Build (mkConHash (before ++ (new, weight) :: after) []) = Some c' →
  Lookup key node c' = Some (true, new) ∨ Lookup key node c' = Lookup key node c.
Proof.
  intros Hne. unfold Build. cbn [nodes].
  destruct (build_nodes_total (before ++ after) [] ltac:(constructor)) as (r & Hr & S & N & _).
  destruct (build_nodes_total (before ++ (new, weight) :: after) [] ltac:(constructor)) as (r' & Hr' & S' & N' & _).
  rewrite Hr, Hr'. cbn [mbind option_bind]. intros [= <-] [= <-].
  assert (Hg : grown new r r').
  { rewrite build_nodes_app in Hr, Hr'.
    destruct (build_nodes_total before [] ltac:(constructor)) as (r0 & Hr0 & S0 & _). rewrite Hr0 in Hr, Hr'.
    cbn [mbind option_bind build_nodes] in Hr, Hr'.
    destruct (build_keys_spec new (seq 0 (node_keys weight))) as (ps & _ & Hps).
    destruct (Hps r0 S0) as (r1 & E1 & S1 & G1). rewrite E1 in Hr'. cbn [mbind option_bind] in Hr'.
    eapply build_nodes_grown; [exact S0|exact S1| |exact Hr|exact Hr'].
    intros k. rewrite G1. case_bool_decide; [by left|by right]. }
  specialize (N (or_introl Hne)). specialize (N' ltac:(left; by destruct before)).
  destruct (Md5_total key) as (d & Hd & _). unfold Lookup, Md5_32. cbn [ring_]. rewrite Hd. cbn [mbind option_bind].
  destruct (owner_grown new (or_word (take 4 d)) r r' S S' Hg N) as [H|H].
  - left. destruct r'; [done|]. by rewrite H.
  - right. destruct r' as [|e' r'], r as [|e r]; try done. by rewrite H.
Qed.

(** C40. Building always ends, and a lookup in a nonempty group always answers with
    one of its nodes, also for weights outside [1, 1024]. *)
Theorem lookup_total ns key node :
  ns ≠ [] →
  ∃ c n, Build (mkConHash ns []) = Some c ∧ Lookup key node c = Some (true, n) ∧ n ∈ ns.*1.
Proof.
  intros Hne. destruct (build_nodes_total ns [] ltac:(constructor)) as (r & Hr & S & N & G).
  specialize (N (or_introl Hne)). unfold Build. cbn [nodes]. rewrite Hr. cbn [mbind option_bind].
  destruct (Md5_total key) as (d & Hd & _). set (h := or_word (take 4 d)).
  assert (Hin : ∃ n, owner h r = Some n ∧ n ∈ ns.*1).
  { unfold owner. pose proof (lower_bound_spec h r S) as L. destruct (lower_bound h r) as [[k v]|].
    - exists v. split; [done|]. destruct (G k v (proj1 L)); [done|done].
    - destruct r as [|[k v] r]; [done|]. exists v. split; [done|].
      destruct (head_spec _ (k, v) S eq_refl) as [H _]. destruct (G k v H); [done|done]. }
  destruct Hin as (n & Hn & Hin). eexists _, n. split; [done|]. split; [|done].
  unfold Lookup, Md5_32. cbn [ring_]. rewrite Hd. cbn [mbind option_bind]. fold h.
  destruct r; [done|]. by rewrite Hn.
Qed.

Definition sample_nodes : list (list Z * Z) := [([97], 1); ([98], 1)].

Lemma adding_node_moves_only_to_it_witness :
  ∃ c c', Build (mkConHash [([97], 1)] []) = Some c ∧ Build (mkConHash [([97], 1); ([98], 1)] []) = Some c' ∧
  (Lookup [107] [] c' = Some (true, [98]) ∨ Lookup [107] [] c' = Lookup [107] [] c).
Proof.
  destruct (Build_total [([97], 1)]) as [c E], (Build_total [([97], 1); ([98], 1)]) as [c' E'].
  exists c, c'. split; [exact E|]. split; [exact E'|].
  exact (adding_node_moves_only_to_it [([97], 1)] [] [98] 1 c c' [107] [] ltac:(discriminate) E E').
Defined.

Lemma lookup_total_witness :
  ∃ c n, Build (mkConHash sample_nodes []) = Some c ∧ Lookup [107] [] c = Some (true, n) ∧ n ∈ sample_nodes.*1.
Proof. apply (lookup_total sample_nodes [107] []). discriminate. Defined.
