(* ===== verification/RdmaBudget.v ===== *)
(** * Admission budget of the RDMA client

    src/transport/rdma_resource_budget.h: the process-wide limits on endpoints,
    queue pairs, work requests and registered bytes.  The fields are [size_t] and
    [uint64_t]; sums and differences wrap.  A blocked [Acquire] is described by
    the state in which its wait ends. *)

From S2P Require Import Prelude.

Record ResourceRequest := mkRequest { endpoints : Z; qps : Z; wr_slots : Z; registered_bytes : Z }.

Definition no_resources : ResourceRequest := mkRequest 0 0 0 0.

(** ** The limit derived from the ring *)

Definition kMaxEndpoints : Z := 65536.

Definition AdaptiveBudgetTarget (nodes endpoints_per_pool depth slot_bytes floor_endpoints : Z) : ResourceRequest :=
  let per_pool := if endpoints_per_pool =? 0 then 1 else endpoints_per_pool in
  let lanes := if kMaxEndpoints / 2 <? per_pool then kMaxEndpoints else 2 * per_pool in
  let e := if kMaxEndpoints / lanes <? nodes then kMaxEndpoints else nodes * lanes in
  let e := if kMaxEndpoints - e / 4 <? e then kMaxEndpoints else e + e / 4 in
  let e := if e <? floor_endpoints then floor_endpoints else e in
  let e := if kMaxEndpoints <? e then kMaxEndpoints else e in
  let d := if depth =? 0 then 1 else depth in
  mkRequest e e (u64 (e * d))
    (if negb (slot_bytes =? 0) && (e <=? UINT64_MAX / slot_bytes / d / 2)
     then u64 (u64 (u64 (2 * slot_bytes) * d) * e) else UINT64_MAX).

(** ** The budget *)

Record ResourceBudget := mkBudget {
  limit_ : ResourceRequest;
  used_ : ResourceRequest;
  timeouts_ : Z;
  waiters_served_ : Z;
  raises_ : Z;
}.

Definition new_budget (limit : ResourceRequest) : ResourceBudget := mkBudget limit no_resources 0 0 0.

Definition AddFits (used request limit : Z) : bool := (request <=? limit) && (used <=? limit - request).

Definition FitsLimit (b : ResourceBudget) (r : ResourceRequest) : bool :=
  (endpoints r <=? endpoints (limit_ b)) && (qps r <=? qps (limit_ b)) && (wr_slots r <=? wr_slots (limit_ b)) &&
  (registered_bytes r <=? registered_bytes (limit_ b)).

Definition FitsAvailable (b : ResourceBudget) (r : ResourceRequest) : bool :=
  AddFits (endpoints (used_ b)) (endpoints r) (endpoints (limit_ b)) &&
  AddFits (qps (used_ b)) (qps r) (qps (limit_ b)) &&
  AddFits (wr_slots (used_ b)) (wr_slots r) (wr_slots (limit_ b)) &&
  AddFits (registered_bytes (used_ b)) (registered_bytes r) (registered_bytes (limit_ b)).

Definition Add (v a : ResourceRequest) : ResourceRequest :=
  mkRequest (u64 (endpoints v + endpoints a)) (u64 (qps v + qps a)) (u64 (wr_slots v + wr_slots a))
    (u64 (registered_bytes v + registered_bytes a)).

Definition Subtract (v s : ResourceRequest) : ResourceRequest :=
  mkRequest (u64 (endpoints v - endpoints s)) (u64 (qps v - qps s)) (u64 (wr_slots v - wr_slots s))
    (u64 (registered_bytes v - registered_bytes s)).

(** What a successful acquisition does. *)
Definition grant (r : ResourceRequest) (b : ResourceBudget) : ResourceBudget :=
  mkBudget (limit_ b) (Add (used_ b) r) (timeouts_ b) (waiters_served_ b + 1) (raises_ b).

Definition TryAcquire (r : ResourceRequest) (b : ResourceBudget) : bool * ResourceBudget :=
  if negb (FitsLimit b r) || negb (FitsAvailable b r) then (false, b) else (true, grant r b).

(** [None]: the caller is still waiting.  The limit only grows, so [FitsLimit] at
    the call still holds when the wait ends. *)
Definition Acquire (r : ResourceRequest) (expired : bool) (b : ResourceBudget) : option (bool * ResourceBudget) :=
  if negb (FitsLimit b r) then Some (false, b)
  else if FitsAvailable b r then Some (true, grant r b)
  else if expired
  then Some (false, mkBudget (limit_ b) (used_ b) (timeouts_ b + 1) (waiters_served_ b) (raises_ b))
  else None.

Definition Release (r : ResourceRequest) (b : ResourceBudget) : ResourceBudget :=
  mkBudget (limit_ b) (Subtract (used_ b) r) (timeouts_ b) (waiters_served_ b) (raises_ b).

Definition raise (current target : Z) : Z := if current <? target then target else current.

Definition RaiseLimit (target : ResourceRequest) (b : ResourceBudget) : bool * ResourceBudget :=
  let l := limit_ b in
  let raised := (endpoints l <? endpoints target) || (qps l <? qps target) || (wr_slots l <? wr_slots target)
                || (registered_bytes l <? registered_bytes target) in
  (raised,
   mkBudget (mkRequest (raise (endpoints l) (endpoints target)) (raise (qps l) (qps target))
               (raise (wr_slots l) (wr_slots target)) (raise (registered_bytes l) (registered_bytes target)))
     (used_ b) (timeouts_ b) (waiters_served_ b) (if raised then raises_ b + 1 else raises_ b)).

(** ** Runs *)

(** The dimensions, and requests that are values of their C++ types. *)
Definition dims : list (ResourceRequest → Z) := [endpoints; qps; wr_slots; registered_bytes].

Definition req_u64 (r : ResourceRequest) : Prop := ∀ d, d ∈ dims → is_u64 (d r).

(** The owners of the resources: what each was granted and has not released.  A
    connection that negotiates a smaller depth than it asked for keeps the record
    of what it uses and gives the surplus back at once. *)
Inductive budget_step : ResourceBudget * list ResourceRequest → ResourceBudget * list ResourceRequest → Prop :=
  | step_try r ok b b' gs :
      req_u64 r → TryAcquire r b = (ok, b') → budget_step (b, gs) (b', if ok then gs ++ [r] else gs)
  | step_acquire r expired ok b b' gs :
      req_u64 r → Acquire r expired b = Some (ok, b') → budget_step (b, gs) (b', if ok then gs ++ [r] else gs)
  | step_release i r b gs :
      gs !! i = Some r → budget_step (b, gs) (Release r b, delete i gs)
  | step_refund i r rest surplus b gs :
      gs !! i = Some r → req_u64 rest → req_u64 surplus → (∀ d, d ∈ dims → d r = d rest + d surplus) →
      budget_step (b, gs) (Release surplus b, <[i := rest]> gs)
  | step_raise target ok b b' gs :
      req_u64 target → RaiseLimit target b = (ok, b') → budget_step (b, gs) (b', gs).

(** ** The invariant *)

(** The used amounts are the sums over the owners, within the limits. *)
Definition budget_ok (st : ResourceBudget * list ResourceRequest) : Prop :=
  ∀ d, d ∈ dims →
    d (used_ st.1) = sumZ d st.2 ∧ (∀ g, g ∈ st.2 → 0 <= d g) ∧ d (used_ st.1) <= d (limit_ st.1) ∧ d (limit_ st.1) < 2 ^ 64.

Lemma fits_dims b r :
  FitsAvailable b r = true → ∀ d, d ∈ dims → d (used_ b) + d r <= d (limit_ b).
Proof.
  unfold FitsAvailable, AddFits, dims. rewrite !andb_true_iff, !Z.leb_le. intros H d Hd.
  rewrite !elem_of_cons, elem_of_nil in Hd. destruct Hd as [->|[->|[->|[->|[]]]]]; lia.
Qed.

Lemma Add_dim v a d : d ∈ dims → d (Add v a) = u64 (d v + d a).
Proof. unfold dims. rewrite !elem_of_cons, elem_of_nil. by intros [->|[->|[->|[->|[]]]]]. Qed.

Lemma Subtract_dim v a d : d ∈ dims → d (Subtract v a) = u64 (d v - d a).
Proof. unfold dims. rewrite !elem_of_cons, elem_of_nil. by intros [->|[->|[->|[->|[]]]]]. Qed.

Lemma grant_ok r b gs :
  budget_ok (b, gs) → req_u64 r → FitsAvailable b r = true → budget_ok (grant r b, gs ++ [r]).
Proof.
  intros H Hr Hf d Hd. destruct (H d Hd) as (H1 & H2 & H3 & H4). simpl in *.
  pose proof (fits_dims b r Hf d Hd) as Hfit. pose proof (Hr d Hd) as [Hr0 _].
  assert (Hs : 0 <= sumZ d gs) by (by apply sumZ_nonneg).
  rewrite Add_dim, u64_id by (done || unfold is_u64; lia). rewrite sumZ_app. simpl. split_and!; [lia| |lia|done].
  intros g [Hg|Hg%list_elem_of_singleton]%elem_of_app; [by apply H2|by subst g].
Qed.

Lemma Release_ok i r b gs : budget_ok (b, gs) → gs !! i = Some r → budget_ok (Release r b, delete i gs).
Proof.
  intros H Hi d Hd. destruct (H d Hd) as (H1 & H2 & H3 & H4). simpl in *.
  pose proof (delete_Permutation gs i r Hi) as Hp.
  assert (Hs : sumZ d gs = d r + sumZ d (delete i gs)) by (rewrite Hp at 1; done).
  assert (Hr : 0 <= d r) by (apply H2; by eapply list_elem_of_lookup_2).
  assert (H2' : ∀ g, g ∈ delete i gs → 0 <= d g) by (intros g Hg; apply H2; rewrite Hp; by right).
  assert (0 <= sumZ d (delete i gs)) by (by apply sumZ_nonneg).
  rewrite Subtract_dim, u64_id by (done || unfold is_u64; lia). split_and!; [lia|done|lia|done].
Qed.

Lemma refund_ok i r rest surplus b gs :
  budget_ok (b, gs) → gs !! i = Some r → req_u64 rest → req_u64 surplus →
  (∀ d, d ∈ dims → d r = d rest + d surplus) → budget_ok (Release surplus b, <[i := rest]> gs).
Proof.
  intros H Hi Hr Hs He d Hd. destruct (H d Hd) as (H1 & H2 & H3 & H4). simpl in *. specialize (He d Hd).
  pose proof (Hr d Hd) as [Hr0 _]. pose proof (Hs d Hd) as [Hs0 _].
  assert (Hsum : sumZ d (<[i := rest]> gs) = sumZ d gs - d surplus).
  { rewrite <- (take_drop_middle gs i r Hi) at 2.
    rewrite insert_take_drop by (by eapply lookup_lt_Some). rewrite !sumZ_app. simpl. lia. }
  assert (H2' : ∀ g, g ∈ <[i := rest]> gs → 0 <= d g).
  { intros g [j Hj]%list_elem_of_lookup. destruct (decide (i = j)) as [<-|Hne].
    - rewrite list_lookup_insert_eq in Hj by (by eapply lookup_lt_Some). by simplify_eq.
    - rewrite list_lookup_insert_ne in Hj by done. apply H2. by eapply list_elem_of_lookup_2. }
  pose proof (sumZ_nonneg d (<[i := rest]> gs) H2') as Hnn.
  rewrite Subtract_dim, u64_id by (done || unfold is_u64; lia). split_and!; [lia|done|lia|done].
Qed.

Lemma RaiseLimit_ok target b gs : budget_ok (b, gs) → req_u64 target → budget_ok ((RaiseLimit target b).2, gs).
Proof.
  intros H Ht d Hd. destruct (H d Hd) as (H1 & H2 & H3 & H4). pose proof (Ht d Hd) as Htd. unfold is_u64 in Htd. simpl in *.
  split_and!; [done|done| |].
  - unfold dims in Hd. rewrite !elem_of_cons, elem_of_nil in Hd.
    destruct Hd as [->|[->|[->|[->|[]]]]]; simpl; unfold raise; case_match; lia.
  - unfold dims in Hd. rewrite !elem_of_cons, elem_of_nil in Hd.
    destruct Hd as [->|[->|[->|[->|[]]]]]; simpl; unfold raise; case_match; lia.
Qed.

Lemma budget_step_ok st st' : budget_step st st' → budget_ok st → budget_ok st'.
Proof.
  destruct 1 as [r ok b b' gs Hr Ht|r ex ok b b' gs Hr Ha|i r b gs Hi|i r rest surplus b gs Hi Hr Hs He|target ok b b' gs Ht Hra]; intros Hok.
  - unfold TryAcquire in Ht. destruct (FitsLimit b r); cbn [negb orb] in Ht; [|by simplify_eq].
    destruct (FitsAvailable b r) eqn:Hf; cbn [negb] in Ht; simplify_eq; [by apply grant_ok|done].
  - unfold Acquire in Ha. destruct (FitsLimit b r); cbn [negb] in Ha; [|by simplify_eq].
    destruct (FitsAvailable b r) eqn:Hf; [simplify_eq; by apply grant_ok|].
    destruct ex; simplify_eq. exact Hok.
  - by apply Release_ok.
  - by eapply refund_ok.
  - pose proof (RaiseLimit_ok target b gs Hok Ht) as H. by rewrite Hra in H.
Qed.

Lemma new_budget_ok limit : req_u64 limit → budget_ok (new_budget limit, []).
Proof.
  intros H d Hd. specialize (H d Hd). unfold is_u64 in H. simpl.
  assert (d no_resources = 0) as ->; [|split_and!; [done|by intros ? ?%elem_of_nil|lia|lia]].
  unfold dims in Hd. rewrite !elem_of_cons, elem_of_nil in Hd. by destruct Hd as [->|[->|[->|[->|[]]]]].
Qed.

(** Comparing with the nested quotients decides whether the product fits. *)
Lemma nested_quotient m s d e : 0 < s → 0 < d → e <= m / s / d / 2 ↔ 2 * s * d * e <= m.
Proof.
  intros Hs Hd. assert (Hk : 0 < s * d * 2) by (apply Z.mul_pos_pos; [by apply Z.mul_pos_pos|lia]).
  rewrite !Z.div_div by lia. rewrite Z.mul_assoc. replace (2 * s * d * e) with (s * d * 2 * e) by ring.
  revert Hk. generalize (s * d * 2). intros k Hk. pose proof (Z.mul_div_le m k Hk) as H. split.
  - intros Hle. transitivity (k * (m / k)); [|done]. apply Z.mul_le_mono_nonneg_l; lia.
  - intros Hle. apply Z.div_le_lower_bound; [done|lia].
Qed.

Lemma saturating_product slot d e :
  0 <= slot → 1 <= d → 0 <= e →
  (if negb (slot =? 0) && (e <=? UINT64_MAX / slot / d / 2)
   then u64 (u64 (u64 (2 * slot) * d) * e) else UINT64_MAX) =
  (if (slot =? 0) || (UINT64_MAX <? 2 * slot * d * e) then UINT64_MAX else 2 * slot * d * e).
Proof.
  intros Hs Hd He. destruct (Z.eqb_spec slot 0) as [|Hne]; cbn [negb andb orb]; [done|].
  pose proof (nested_quotient UINT64_MAX slot d e ltac:(lia) ltac:(lia)) as Hiff.
  destruct (Z.leb_spec e (UINT64_MAX / slot / d / 2)) as [Hle|Hgt].
  - apply Hiff in Hle. rewrite (proj2 (Z.ltb_ge _ _)) by lia. unfold UINT64_MAX in *.
    destruct (Z.eq_dec e 0) as [->|Hne']; [by rewrite !Z.mul_0_r|].
    assert (H1 : 2 * slot <= 2 * slot * d) by (rewrite <- (Z.mul_1_r (2 * slot)) at 1; apply Z.mul_le_mono_nonneg_l; lia).
    assert (H2 : 2 * slot * d <= 2 * slot * d * e)
      by (rewrite <- (Z.mul_1_r (2 * slot * d)) at 1; apply Z.mul_le_mono_nonneg_l; lia).
    by rewrite (u64_id (2 * slot)), (u64_id (2 * slot * d)), u64_id by (unfold is_u64; lia).
  - rewrite (proj2 (Z.ltb_lt _ _)); [done|]. apply Z.lt_nge. rewrite <- Hiff. lia.
Qed.

(** ** Claims *)

(** C28. Whatever the interleaving of acquisitions (blocking or not), releases by
    the owners, refunds of part of a grant and limit raises: in every dimension the amount in use is exactly
    the sum over the current owners and never exceeds the limit, so no counter
    wraps and no resource is lost or double counted. *)
Theorem budget_conserved limit b gs :
  req_u64 limit → rtc budget_step (new_budget limit, []) (b, gs) →
  ∀ d, d ∈ dims → d (used_ b) = sumZ d gs ∧ d (used_ b) <= d (limit_ b).
Proof.
  intros Hl Hrun d Hd. assert (Hok : budget_ok (b, gs)).
  { assert (H0 : budget_ok (new_budget limit, [])) by (by apply new_budget_ok).
    revert Hrun H0. generalize (new_budget limit, @nil ResourceRequest) (b, gs). intros x y Hrun.
    induction Hrun as [|x y z Hxy _ IH]; [done|]. intros Hx. apply IH. by eapply budget_step_ok. }
  destruct (Hok d Hd) as (H1 & _ & H3 & _). done.
Qed.

(** The derived limit is bounded and does not overflow: between the floor and
    65536 endpoints, and the registered-byte limit is exactly twice the slots of
    every endpoint, or all of [uint64_t] when the slot size is unknown or that
    product does not fit. *)
Theorem adaptive_target_bounds nodes per_pool depth slot floor (t := AdaptiveBudgetTarget nodes per_pool depth slot floor) :
  is_u64 nodes → is_u64 per_pool → is_u64 depth → is_u64 slot → is_u64 floor →
  endpoints t = qps t ∧ 0 <= endpoints t <= kMaxEndpoints ∧
  (floor <= kMaxEndpoints → floor <= endpoints t) ∧
  (nodes * (2 * per_pool) * 5 / 4 <= kMaxEndpoints → nodes * (2 * per_pool) <= endpoints t) ∧
  registered_bytes t =
    (if (slot =? 0) || (UINT64_MAX <? 2 * slot * Z.max 1 depth * endpoints t) then UINT64_MAX
     else 2 * slot * Z.max 1 depth * endpoints t).
Proof.
  subst t. unfold is_u64. intros Hn Hp Hd Hs Hf. unfold AdaptiveBudgetTarget, kMaxEndpoints.
  set (pp := if per_pool =? 0 then 1 else per_pool).
  assert (Hpp : 1 <= pp ∧ per_pool <= pp) by (subst pp; destruct (Z.eqb_spec per_pool 0); lia). clearbody pp.
  change (65536 / 2) with 32768.
  set (lanes := if 32768 <? pp then 65536 else 2 * pp).
  assert (Hlanes : 2 <= lanes <= 65536 ∧ (lanes = 65536 ∨ lanes = 2 * pp))
    by (subst lanes; destruct (Z.ltb_spec 32768 pp); lia).
  set (e0 := if 65536 / lanes <? nodes then 65536 else nodes * lanes).
  assert (He0 : 0 <= e0 <= 65536 ∧ (nodes * (2 * per_pool) * 5 / 4 <= 65536 → nodes * (2 * per_pool) <= e0)).
  { assert (Hx : nodes * (2 * per_pool) * 5 / 4 <= 65536 → nodes * (2 * per_pool) <= 65536).
    { clear - Hn Hp. assert (Hx : 0 <= nodes * (2 * per_pool)) by nia. revert Hx.
      generalize (nodes * (2 * per_pool)). intros x Hx H. Z.to_euclidean_division_equations. lia. }
    subst e0. destruct (Z.ltb_spec (65536 / lanes) nodes) as [Hlt|Hge].
    - split; [lia|]. lia.
    - assert (nodes * lanes <= 65536).
      { pose proof (Z.mul_div_le 65536 lanes). nia. }
      split; [nia|]. intros Hx5%Hx. destruct Hlanes as [_ [E|E]]; [|rewrite E; nia].
      destruct (Z.eq_dec nodes 0) as [->|]; nia. }
  clearbody e0. clearbody lanes. set (e1 := if 65536 - e0 / 4 <? e0 then 65536 else e0 + e0 / 4).
  assert (He1 : e0 <= e1 <= 65536).
  { subst e1. pose proof (Z.div_pos e0 4). destruct (Z.ltb_spec (65536 - e0 / 4) e0); lia. }
  clearbody e1. set (e2 := if e1 <? floor then floor else e1).
  set (e3 := if 65536 <? e2 then 65536 else e2).
  assert (He3 : e1 <= e3 <= 65536 ∧ (floor <= 65536 → floor <= e3)).
  { subst e3 e2. destruct (Z.ltb_spec e1 floor), (Z.ltb_spec 65536 floor), (Z.ltb_spec 65536 e1); lia. }
  clearbody e3. set (d := if depth =? 0 then 1 else depth).
  assert (Hdd : d = Z.max 1 depth ∧ 1 <= d) by (subst d; destruct (Z.eqb_spec depth 0); lia). clearbody d.
  destruct Hdd as [<- Hd1]. cbn [endpoints qps registered_bytes]. split_and!; try lia.
  apply saturating_product; lia.
Qed.

Definition sample_request : ResourceRequest := mkRequest 1 1 16 4096.
Definition sample_limit : ResourceRequest := mkRequest 2 2 32 8192.

Definition sample_rest : ResourceRequest := mkRequest 1 1 4 1024.
Definition sample_surplus : ResourceRequest := mkRequest 0 0 12 3072.

Lemma sample_u64 : req_u64 sample_request ∧ req_u64 sample_limit ∧ req_u64 sample_rest ∧ req_u64 sample_surplus.
Proof.
  split_and!; intros d Hd; unfold dims in Hd; rewrite !elem_of_cons, elem_of_nil in Hd; unfold is_u64;
    destruct Hd as [->|[->|[->|[->|[]]]]]; simpl; lia.
Qed.

Lemma budget_conserved_witness :
  let b := (TryAcquire sample_request (TryAcquire sample_request (new_budget sample_limit)).2).2 in
  let b' := Release sample_surplus b in
  wr_slots (used_ b') = 20 ∧ wr_slots (used_ b') = sumZ wr_slots [sample_rest; sample_request].
Proof.
  intros b b'. split; [reflexivity|].
  refine (proj1 (budget_conserved sample_limit b' [sample_rest; sample_request] (proj1 (proj2 sample_u64)) _ wr_slots _)).
  - eapply rtc_l; [|eapply rtc_l; [|eapply rtc_l; [|apply rtc_refl]]].
    + apply (step_try sample_request true (new_budget sample_limit)
               (TryAcquire sample_request (new_budget sample_limit)).2 []); [apply sample_u64|reflexivity].
    + apply (step_try sample_request true _ b [sample_request]); [apply sample_u64|reflexivity].
    + apply (step_refund 0 sample_request sample_rest sample_surplus b [sample_request; sample_request]);
        [reflexivity|apply sample_u64|apply sample_u64|].
      intros d Hd. unfold dims in Hd. rewrite !elem_of_cons, elem_of_nil in Hd.
      destruct Hd as [->|[->|[->|[->|[]]]]]; reflexivity.
  - right. right. left.
Defined.

Lemma adaptive_target_bounds_witness :
  endpoints (AdaptiveBudgetTarget 8 32 16 2097152 64) = qps (AdaptiveBudgetTarget 8 32 16 2097152 64).
Proof. apply (adaptive_target_bounds 8 32 16 2097152 64); unfold is_u64; lia. Defined.
