(* ===== verification/ConnState.v ===== *)
(** * Atomic state machines of connections and operations

    [ConnectionLifecycle] (src/transport/rdma_connection_lifecycle.h) and
    [OperationContext] (src/transport/rdma_operation.h).  Every atomic access or
    locked section is one action of one thread, a method that makes several of
    them keeps what it has read in the thread's program counter, and a run is an
    arbitrary sequence of actions. *)

From S2P Require Import Prelude.

(** [compare_exchange_strong] on the value of an atomic: the result and what the
    atomic holds afterwards. *)
Definition cas {A} `{!EqDecision A} (expected desired state : A) : bool * A :=
  if decide (state = expected) then (true, desired) else (false, state).

Module Lifecycle.

Inductive ConnectionState := kActive | kIdle | kRetireRequested | kDraining.

#[export] Instance ConnectionState_eq_dec : EqDecision ConnectionState.
Proof. solve_decision. Defined.

Definition MakeIdle : ConnectionState → bool * ConnectionState := cas kActive kIdle.
Definition Activate : ConnectionState → bool * ConnectionState := cas kIdle kActive.
Definition RequestRetire : ConnectionState → bool * ConnectionState := cas kIdle kRetireRequested.

(** One turn of the loop of [BeginDrain] with the local [current]: it returns
    ([inl]) or goes on with the value the failed exchange has loaded ([inr]).
    [compare_exchange_weak] may fail though the values agree ([spurious]). *)
Definition drain_turn (current : ConnectionState) (spurious : bool) (state : ConnectionState) : (bool + ConnectionState) * ConnectionState :=
  if decide (current = kDraining) then (inl false, state)
  else if decide (state = current ∧ spurious = false) then (inl true, kDraining)
  else (inr state, state).

(** The atomic, the threads inside [BeginDrain] with their [current], and what the
    calls of [BeginDrain] have returned. *)
Record LSys := { l_state : ConnectionState; l_pcs : gmap nat ConnectionState; l_returned : list bool }.

Definition l_init : LSys := {| l_state := kActive; l_pcs := ∅; l_returned := [] |}.

Definition set_state (s : LSys) (st : ConnectionState) : LSys :=
  {| l_state := st; l_pcs := l_pcs s; l_returned := l_returned s |}.

Inductive LAct :=
  | AMakeIdle | AActivate | ARequestRetire
  | ADrainLoad (tid : nat)                       (* the load at entry *)
  | ADrainTurn (tid : nat) (spurious : bool).    (* a turn of the loop *)

Definition lstep (a : LAct) (s : LSys) : option LSys :=
  match a with
  | AMakeIdle => Some (set_state s (MakeIdle (l_state s)).2)
  | AActivate => Some (set_state s (Activate (l_state s)).2)
  | ARequestRetire => Some (set_state s (RequestRetire (l_state s)).2)
  | ADrainLoad tid =>
      match l_pcs s !! tid with
      | Some _ => None
      | None => Some {| l_state := l_state s; l_pcs := <[tid := l_state s]> (l_pcs s); l_returned := l_returned s |}
      end
  | ADrainTurn tid spurious =>
      match l_pcs s !! tid with
      | None => None
      | Some current =>
          match drain_turn current spurious (l_state s) with
          | (inl r, st) => Some {| l_state := st; l_pcs := delete tid (l_pcs s); l_returned := l_returned s ++ [r] |}
          | (inr c, st) => Some {| l_state := st; l_pcs := <[tid := c]> (l_pcs s); l_returned := l_returned s |}
          end
      end
  end.

Definition winners (s : LSys) : nat := length (filter (λ r, r = true) (l_returned s)).

(** A thread that has seen draining, or that has returned, has seen the state it
    never leaves, and one call has made the transition. *)
Definition lifecycle_ok (s : LSys) : Prop :=
  winners s = (if decide (l_state s = kDraining) then 1%nat else 0%nat) ∧
  (l_state s ≠ kDraining → l_returned s = [] ∧ ∀ tid, l_pcs s !! tid ≠ Some kDraining).

Lemma winners_snoc s st pcs r :
  winners {| l_state := st; l_pcs := pcs; l_returned := l_returned s ++ [r] |} =
  (winners s + if r then 1 else 0)%nat.
Proof. unfold winners. cbn. rewrite filter_app, length_app. by destruct r. Qed.

Lemma exchange_ok s x y :
  x ≠ kDraining → y ≠ kDraining → lifecycle_ok s → lifecycle_ok (set_state s (cas x y (l_state s)).2).
Proof.
  intros Hx Hy [Hw Hn]. unfold cas. destruct (decide (l_state s = x)) as [E|]; [|by destruct s].
  assert (l_state s ≠ kDraining) as Hs by congruence. rewrite decide_False in Hw by done.
  split; [cbn; by rewrite decide_False|]. cbn. intros _. by apply Hn.
Qed.

Lemma lstep_ok a s s' : lifecycle_ok s → lstep a s = Some s' → lifecycle_ok s'.
Proof.
  intros Hok. destruct a as [| | |tid|tid sp]; cbn [lstep].
  1-3: by intros [= <-]; apply exchange_ok.
  - destruct (l_pcs s !! tid) eqn:Ht; [done|]. intros [= <-]. destruct Hok as [Hw Hn]. split; [done|].
    cbn. intros H. destruct (Hn H) as [Hr Hp]. split; [done|]. intros t.
    destruct (decide (t = tid)) as [->|]; [by rewrite lookup_insert_eq; intros [=]|].
    by rewrite lookup_insert_ne.
  - destruct (l_pcs s !! tid) as [c|] eqn:Ht; [|done]. unfold drain_turn. destruct Hok as [Hw Hn].
    destruct (decide (c = kDraining)) as [->|Hc]; [|destruct (decide (l_state s = c ∧ sp = false)) as [[E _]|]].
    + intros [= <-]. destruct (decide (l_state s = kDraining)) as [E|E]; [|by destruct (Hn E) as [_ []%(λ f, f tid)]].
      split; [rewrite winners_snoc; cbn; rewrite decide_True by done; lia|by cbn].
    + intros [= <-]. rewrite decide_False in Hw by congruence.
      split; [rewrite winners_snoc, Hw; by cbn|by cbn].
    + intros [= <-]. split; [done|]. cbn. intros H. destruct (Hn H) as [Hr Hp]. split; [done|]. intros t.
      destruct (decide (t = tid)) as [->|]; [by rewrite lookup_insert_eq; intros [=]|].
      by rewrite lookup_insert_ne.
Qed.

Lemma lifecycle_init : lifecycle_ok l_init.
Proof. split; [done|]. intros _. split; [done|]. intros tid. cbn. by rewrite lookup_empty. Qed.

(** The states an atomic exchange can lead to: retirement is left only by a
    drain, and draining not at all. *)
Definition below (a b : ConnectionState) : bool :=
  match a, b with
  | kDraining, kDraining | kRetireRequested, (kRetireRequested | kDraining) => true
  | (kActive | kIdle), _ => true
  | _, _ => false
  end.

Lemma lstep_below a s s' : lstep a s = Some s' → below (l_state s) (l_state s') = true.
Proof.
  unfold lstep, MakeIdle, Activate, RequestRetire, cas, drain_turn, set_state. intros H.
  repeat case_match; simplify_eq/=; try done; try (by destruct (l_state s)).
  all: repeat case_decide; simplify_eq/=; try done; by destruct (l_state s).
Qed.

Lemma run_below acts s s' : run_actions lstep acts s = Some s' → below (l_state s) (l_state s') = true.
Proof.
  revert s. induction acts as [|a acts IH]; intros s; cbn [run_actions].
  - intros [= <-]. by destruct (l_state s).
  - intros (s1 & H1%lstep_below & H2%IH)%bind_Some. clear IH.
    destruct (l_state s), (l_state s1); try done; by destruct (l_state s').
Qed.

(** C29. One drain per connection, under every interleaving.  However the threads'
    atomic accesses are ordered, at most one [BeginDrain] returns true, any
    [BeginDrain] that has returned finds the connection draining, and from there
    on no action leaves that state; a retirement request is undone by nothing but
    the drain. *)
Theorem single_drain acts acts' s s' :
  run_actions lstep acts l_init = Some s →
  run_actions lstep acts' s = Some s' →
  (winners s' ≤ 1)%nat ∧
  (l_returned s ≠ [] → winners s = 1%nat ∧ l_state s = kDraining ∧ l_state s' = kDraining ∧ winners s' = 1%nat) ∧
  (l_state s = kRetireRequested → l_state s' = kRetireRequested ∨ l_state s' = kDraining).
Proof.
  intros H H'. pose proof (run_actions_inv lstep lifecycle_ok _ _ _ lstep_ok lifecycle_init H) as Hok.
  pose proof (run_actions_inv lstep lifecycle_ok _ _ _ lstep_ok Hok H') as [Hw' _].
  apply run_below in H'. destruct Hok as [Hw Hn]. split_and!.
  - rewrite Hw'. case_decide; lia.
  - intros Hr. destruct (decide (l_state s = kDraining)) as [E|E]; [|by destruct (Hn E)].
    rewrite E in H'. assert (l_state s' = kDraining) as E' by by destruct (l_state s').
    rewrite E' in Hw'. by rewrite decide_True in Hw' by done.
  - intros E. rewrite E in H'. destruct (l_state s'); [done..|by left|by right].
Qed.

Definition demo_acts : list LAct :=
  [AMakeIdle; ADrainLoad 1; ADrainLoad 2; ARequestRetire; ADrainTurn 1 false; ADrainTurn 2 true; ADrainTurn 2 false].
Definition demo_late : list LAct := [AActivate; ADrainTurn 1 true; ADrainTurn 1 false].
Definition demo_drained : LSys := Eval vm_compute in default l_init (run_actions lstep demo_acts l_init).
Definition demo_end : LSys := Eval vm_compute in default l_init (run_actions lstep demo_late demo_drained).

Lemma single_drain_witness :
  l_returned demo_drained ≠ [] ∧ l_state demo_end = kDraining ∧ winners demo_end = 1%nat.
Proof.
  assert (H1 : run_actions lstep demo_acts l_init = Some demo_drained) by (vm_compute; reflexivity).
  assert (H2 : run_actions lstep demo_late demo_drained = Some demo_end) by (vm_compute; reflexivity).
  assert (Hr : l_returned demo_drained ≠ []) by (vm_compute; congruence).
  destruct (single_drain demo_acts demo_late demo_drained demo_end H1 H2) as (_ & H & _).
  destruct (H Hr) as (_ & _ & H3 & H4). exact (conj Hr (conj H3 H4)).
Defined.

(** Without interference and spurious failures the first turn of the loop ends it. *)
Lemma drain_ends tid s :
  l_pcs s !! tid = None →
  ∃ s', run_actions lstep [ADrainLoad tid; ADrainTurn tid false] s = Some s' ∧
        l_pcs s' !! tid = None ∧ l_state s' = kDraining.
Proof.
  intros Ht. cbn [run_actions lstep]. rewrite Ht. cbn. rewrite lookup_insert_eq. unfold drain_turn.
  destruct (decide (l_state s = kDraining)) as [E|E]; [|rewrite decide_True by done].
  all: eexists; split; [done|]; cbn; split; [apply lookup_delete_eq|done].
Qed.

End Lifecycle.

Module Operation.

Inductive OperationState := kCreated | kSubmitted | kPolling | kCompleted | kCancelled | kFailed.

#[export] Instance OperationState_eq_dec : EqDecision OperationState.
Proof. solve_decision. Defined.

(** Where a thread is inside a method of the context. *)
Inductive OPc :=
  | PClaimed                          (* [ClaimPoller] after its exchange *)
  | PChecked (success : bool)         (* [Complete] after [IsPoller] *)
  | PTerminal (st : OperationState).  (* [Complete] with [terminal] computed *)

(** [poller_] is no thread's id until it is stored.  [o_claims] and [o_completes]
    record the calls of [ClaimPoller] whose exchange succeeded and the calls of
    [Complete] that returned true. *)
Record OperationContext := {
  o_state : OperationState; cancel_requested_ : bool; poller_ : option nat;
  o_pcs : gmap nat OPc; o_claims : list nat; o_completes : list (nat * OperationState) }.

Definition o_init : OperationContext :=
  {| o_state := kCreated; cancel_requested_ := false; poller_ := None;
     o_pcs := ∅; o_claims := []; o_completes := [] |}.

Definition IsPoller (o : OperationContext) (tid : nat) : bool := bool_decide (poller_ o = Some tid).

Definition terminal_of (cancel success : bool) : OperationState :=
  if cancel then kCancelled else if success then kCompleted else kFailed.

Definition terminal (st : OperationState) : bool :=
  match st with kCompleted | kCancelled | kFailed => true | _ => false end.

Definition at_pc (o : OperationContext) (tid : nat) (pc : option OPc) : OperationContext :=
  {| o_state := o_state o; cancel_requested_ := cancel_requested_ o; poller_ := poller_ o;
     o_pcs := partial_alter (λ _, pc) tid (o_pcs o); o_claims := o_claims o; o_completes := o_completes o |}.

Definition with_state (o : OperationContext) (st : OperationState) : OperationContext :=
  {| o_state := st; cancel_requested_ := cancel_requested_ o; poller_ := poller_ o;
     o_pcs := o_pcs o; o_claims := o_claims o; o_completes := o_completes o |}.

Inductive OAct :=
  | ASubmit
  | ARequestCancel
  | AClaim (tid : nat)                       (* the exchange of [ClaimPoller] *)
  | AComplete (tid : nat) (success : bool)   (* the [IsPoller] test of [Complete] *)
  | AContinue (tid : nat).                   (* the next access of the method the thread is in *)

Definition Submit (o : OperationContext) : OperationContext :=
  with_state o (cas kCreated kSubmitted (o_state o)).2.

Definition RequestCancel (o : OperationContext) : OperationContext :=
  {| o_state := o_state o; cancel_requested_ := true; poller_ := poller_ o;
     o_pcs := o_pcs o; o_claims := o_claims o; o_completes := o_completes o |}.

(** [ClaimPoller]: the exchange, and then the store under [owner_mu_]. *)
Definition ClaimPoller (o : OperationContext) (tid : nat) : OperationContext :=
  match cas kSubmitted kPolling (o_state o) with
  | (false, _) => o
  | (true, st) =>
      {| o_state := st; cancel_requested_ := cancel_requested_ o; poller_ := poller_ o;
         o_pcs := <[tid := PClaimed]> (o_pcs o); o_claims := o_claims o ++ [tid];
         o_completes := o_completes o |}
  end.

Definition store_poller (o : OperationContext) (tid : nat) : OperationContext :=
  {| o_state := o_state o; cancel_requested_ := cancel_requested_ o; poller_ := Some tid;
     o_pcs := delete tid (o_pcs o); o_claims := o_claims o; o_completes := o_completes o |}.

(** [Complete]: the [IsPoller] test, the load of [cancel_requested_], the exchange. *)
Definition Complete (o : OperationContext) (tid : nat) (success : bool) : OperationContext :=
  if IsPoller o tid then at_pc o tid (Some (PChecked success)) else o.

Definition finish (o : OperationContext) (tid : nat) (st : OperationState) : OperationContext :=
  match cas kPolling st (o_state o) with
  | (false, _) => at_pc o tid None
  | (true, st) =>
      {| o_state := st; cancel_requested_ := cancel_requested_ o; poller_ := poller_ o;
         o_pcs := delete tid (o_pcs o); o_claims := o_claims o; o_completes := o_completes o ++ [(tid, st)] |}
  end.

Definition ostep (a : OAct) (o : OperationContext) : option OperationContext :=
  match a with
  | ASubmit => Some (Submit o)
  | ARequestCancel => Some (RequestCancel o)
  | AClaim tid => match o_pcs o !! tid with Some _ => None | None => Some (ClaimPoller o tid) end
  | AComplete tid success => match o_pcs o !! tid with Some _ => None | None => Some (Complete o tid success) end
  | AContinue tid =>
      match o_pcs o !! tid with
      | None => None
      | Some PClaimed => Some (store_poller o tid)
      | Some (PChecked success) => Some (at_pc o tid (Some (PTerminal (terminal_of (cancel_requested_ o) success))))
      | Some (PTerminal st) => Some (finish o tid st)
      end
  end.

(** What a thread at a program counter knows. *)
Definition pc_ok (o : OperationContext) (tid : nat) (pc : OPc) : Prop :=
  match pc with
  | PClaimed => o_claims o = [tid] ∧ poller_ o = None
  | PChecked _ => poller_ o = Some tid
  | PTerminal st => poller_ o = Some tid ∧ terminal st = true ∧ (st = kCancelled → cancel_requested_ o = true)
  end.

Definition operation_ok (o : OperationContext) : Prop :=
  (∀ tid pc, o_pcs o !! tid = Some pc → pc_ok o tid pc) ∧
  (∀ tid, poller_ o = Some tid → o_claims o = [tid]) ∧
  match o_state o with
  | kCreated | kSubmitted => o_claims o = [] ∧ o_completes o = []
  | kPolling => (∃ tid, o_claims o = [tid]) ∧ o_completes o = []
  | st => ∃ tid, o_claims o = [tid] ∧ poller_ o = Some tid ∧ o_completes o = [(tid, st)] ∧
                 (st = kCancelled → cancel_requested_ o = true)
  end.

(** A thread inside a method contradicts what is known of the claims or the poller. *)
Ltac pc_clash pc H :=
  destruct pc; [destruct H as [H _]|unfold pc_ok in H|destruct H as [H _]]; congruence.

Lemma operation_init : operation_ok o_init.
Proof. split_and!; try done. Qed.

Lemma Submit_ok o : operation_ok o → operation_ok (Submit o).
Proof.
  intros (Hp & Hc & Hs). unfold Submit, cas. destruct (decide (o_state o = kCreated)) as [E|]; [|by destruct o].
  rewrite E in Hs. by split_and!.
Qed.

Lemma RequestCancel_ok o : operation_ok o → operation_ok (RequestCancel o).
Proof.
  intros (Hp & Hc & Hs). split_and!; [|done|].
  - intros tid pc H%Hp. destruct pc; cbn in *; naive_solver.
  - cbn in *. destruct (o_state o); naive_solver.
Qed.

(** A step of one thread that leaves the poller, the claims and the flag alone. *)
Lemma pcs_insert_ok o o' tid pc :
  poller_ o' = poller_ o → o_claims o' = o_claims o → cancel_requested_ o' = cancel_requested_ o →
  o_pcs o' = partial_alter (λ _, pc) tid (o_pcs o) →
  (∀ p, pc = Some p → pc_ok o tid p) →
  (∀ t p, o_pcs o !! t = Some p → pc_ok o t p) →
  ∀ t p, o_pcs o' !! t = Some p → pc_ok o' t p.
Proof.
  intros E1 E2 E3 E4 Hn Hp t p. rewrite E4.
  assert (pc_ok o' t p = pc_ok o t p) as -> by (unfold pc_ok; by rewrite E1, E2, E3).
  destruct (decide (t = tid)) as [->|].
  - rewrite lookup_partial_alter_eq. auto.
  - rewrite lookup_partial_alter_ne by done. auto.
Qed.

Lemma ClaimPoller_ok o tid : operation_ok o → operation_ok (ClaimPoller o tid).
Proof.
  intros (Hp & Hc & Hs). unfold ClaimPoller, cas. destruct (decide (o_state o = kSubmitted)) as [E|]; [|done].
  rewrite E in Hs. destruct Hs as [Hs1 Hs2].
  assert (Hn : poller_ o = None) by (destruct (poller_ o) as [t|] eqn:Et; [specialize (Hc t eq_refl); congruence|done]).
  split_and!; cbn; rewrite ?Hs1, ?Hs2, ?Hn; try done; [|split; [by eexists|done]].
  intros t pc. destruct (decide (t = tid)) as [->|].
  - rewrite lookup_insert_eq. intros [= <-]. done.
  - rewrite lookup_insert_ne by done. intros H%Hp. pc_clash pc H.
Qed.

Lemma store_poller_ok o tid :
  o_pcs o !! tid = Some PClaimed → operation_ok o → operation_ok (store_poller o tid).
Proof.
  intros Ht (Hp & Hc & Hs). destruct (Hp _ _ Ht) as [H1 H2].
  split_and!; cbn; [|naive_solver|destruct (o_state o); naive_solver].
  intros t pc. destruct (decide (t = tid)) as [->|]; [by rewrite lookup_delete_eq|].
  rewrite lookup_delete_ne by done. intros H%Hp. pc_clash pc H.
Qed.

Lemma at_pc_ok o tid pc :
  (∀ p, pc = Some p → pc_ok o tid p) → operation_ok o → operation_ok (at_pc o tid pc).
Proof.
  intros Hn (Hp & Hc & Hs). split; [|done].
  exact (pcs_insert_ok o (at_pc o tid pc) tid pc eq_refl eq_refl eq_refl eq_refl Hn Hp).
Qed.

Lemma finish_ok o tid st :
  o_pcs o !! tid = Some (PTerminal st) → operation_ok o → operation_ok (finish o tid st).
Proof.
  intros Ht Hok. pose proof Hok as (Hp & Hc & Hs). destruct (Hp _ _ Ht) as (H1 & H2 & H3).
  unfold finish, cas. destruct (decide (o_state o = kPolling)) as [E|]; [|by apply at_pc_ok].
  rewrite E in Hs. destruct Hs as [_ Hs]. split_and!; [|done|].
  { eapply (pcs_insert_ok o _ tid None); [reflexivity..| |exact Hp]. done. }
  cbn. rewrite Hs. destruct st; try done; exists tid; split_and!; auto.
Qed.

Lemma ostep_ok a o o' : operation_ok o → ostep a o = Some o' → operation_ok o'.
Proof.
  intros Hok. destruct a as [| |tid|tid success|tid]; cbn [ostep].
  - intros [= <-]. by apply Submit_ok.
  - intros [= <-]. by apply RequestCancel_ok.
  - destruct (o_pcs o !! tid); [done|]. intros [= <-]. by apply ClaimPoller_ok.
  - destruct (o_pcs o !! tid); [done|]. intros [= <-]. unfold Complete, IsPoller. case_bool_decide; [|done].
    apply at_pc_ok; [|done]. by intros p [= <-].
  - destruct (o_pcs o !! tid) as [[]|] eqn:E; [..|done]; intros [= <-].
    + by apply store_poller_ok.
    + apply at_pc_ok; [|done]. intros p [= <-]. destruct Hok as (Hp & _). specialize (Hp _ _ E).
      split_and!; [done|by unfold terminal_of; repeat case_match|]. unfold terminal_of. repeat case_match; done.
    + by apply finish_ok.
Qed.

Lemma ostep_final a o o' : ostep a o = Some o' → terminal (o_state o) = true →
  o_state o' = o_state o ∧ o_claims o' = o_claims o.
Proof.
  intros H Ht. unfold ostep, Submit, ClaimPoller, Complete, finish, store_poller, at_pc, with_state, RequestCancel, cas in H.
  destruct (o_state o) eqn:E; try done;
    repeat (case_match || case_decide || simplify_eq/=); split; congruence.
Qed.

Lemma run_final acts o o' :
  run_actions ostep acts o = Some o' → terminal (o_state o) = true →
  o_state o' = o_state o ∧ o_claims o' = o_claims o.
Proof.
  revert o. induction acts as [|a acts IH]; intros o; cbn [run_actions]; [by intros [= <-]|].
  intros (o1 & H1 & H2)%bind_Some Ht. destruct (ostep_final _ _ _ H1 Ht) as [E <-].
  rewrite <- E. apply IH; [done|by rewrite E].
Qed.

Lemma counts_ok o :
  operation_ok o →
  (length (o_claims o) ≤ 1)%nat ∧ (length (o_completes o) ≤ 1)%nat ∧
  (terminal (o_state o) = true ↔ o_completes o ≠ []).
Proof.
  intros (_ & _ & Hs). destruct (o_state o); cbn in Hs |- *.
  1,2: destruct Hs as [-> ->]; cbn; split_and!; [lia..|done].
  - destruct Hs as [[t ->] ->]. cbn. split_and!; [lia..|done].
  - destruct Hs as (t & -> & _ & -> & _). cbn. split_and!; [lia..|done].
  - destruct Hs as (t & -> & _ & -> & _). cbn. split_and!; [lia..|done].
  - destruct Hs as (t & -> & _ & -> & _). cbn. split_and!; [lia..|done].
Qed.

(** C30. One poller and one completion per operation, under every interleaving.
    At most one [ClaimPoller] succeeds; a [Complete] that returns true is the only
    one, was made by the thread that claimed the operation and left the state it
    reports, which is terminal and never changes again; a cancelled operation had
    its cancellation requested. *)
Theorem single_completion acts acts' o o' :
  run_actions ostep acts o_init = Some o →
  run_actions ostep acts' o = Some o' →
  (length (o_claims o') ≤ 1)%nat ∧ (length (o_completes o') ≤ 1)%nat ∧
  (terminal (o_state o) = true ↔ o_completes o ≠ []) ∧
  (∀ tid st, (tid, st) ∈ o_completes o →
     o_claims o' = [tid] ∧ o_state o = st ∧ o_state o' = st ∧ terminal st = true ∧
     (st = kCancelled → cancel_requested_ o = true)).
Proof.
  intros H H'. pose proof (run_actions_inv ostep operation_ok _ _ _ ostep_ok operation_init H) as Hok.
  pose proof (run_actions_inv ostep operation_ok _ _ _ ostep_ok Hok H') as Hok'.
  pose proof (run_final _ _ _ H') as Hf.
  destruct (counts_ok _ Hok') as (N1 & N2 & _). destruct (counts_ok _ Hok) as (_ & _ & N3).
  destruct Hok as (_ & _ & Hs). split_and!; [done..|].
  intros tid st Hin. assert (terminal (o_state o) = true) as Ht.
    { destruct (o_state o); try done; destruct Hs as [_ Hs]; rewrite Hs in Hin; by apply elem_of_nil in Hin. }
    destruct (Hf Ht) as [-> ->].
    destruct (o_state o); try done; destruct Hs as (t & Hc & Hp & Hl & Hx); rewrite Hl in Hin;
      apply list_elem_of_singleton in Hin; simplify_eq; split_and!; done.
Qed.

Definition demo_acts : list OAct :=
  [ASubmit; AClaim 1; AClaim 2; AComplete 2 true; AContinue 1; AComplete 1 true; ARequestCancel; AContinue 1; AContinue 1].
Definition demo_late : list OAct := [AClaim 2; AComplete 1 false; AContinue 1; AContinue 1].
Definition demo_done : OperationContext := Eval vm_compute in default o_init (run_actions ostep demo_acts o_init).
Definition demo_end : OperationContext := Eval vm_compute in default o_init (run_actions ostep demo_late demo_done).

Lemma single_completion_witness :
  o_state demo_done = kCancelled ∧ o_claims demo_end = [1%nat] ∧ o_state demo_end = kCancelled.
Proof.
  assert (H1 : run_actions ostep demo_acts o_init = Some demo_done) by (vm_compute; reflexivity).
  assert (H2 : run_actions ostep demo_late demo_done = Some demo_end) by (vm_compute; reflexivity).
  assert (Hin : (1%nat, kCancelled) ∈ o_completes demo_done) by (apply list_elem_of_singleton; reflexivity).
  destruct (single_completion demo_acts demo_late demo_done demo_end H1 H2) as (_ & _ & _ & H).
  destruct (H _ _ Hin) as (H3 & H4 & H5 & _). exact (conj H4 (conj H3 H5)).
Defined.

End Operation.
