(* ===== verification/Schedule.v ===== *)
(** * Choosing a connection and splitting a batch

    [SelectEndpointConnection] (src/transport/endpoint_schedule.h) and
    [ShardGroups] (src/client/group_shard.h). *)

From S2P Require Import Prelude.

Local Open Scope Z_scope.

Record EndpointConnectionLoad := { conn_id : Z; inflight : Z; latency_ns : Z; conn_healthy : bool }.

(** Whether candidate [c] replaces the best one so far, [b]. *)
Definition better (c b : EndpointConnectionLoad) : bool :=
  if negb (inflight c =? inflight b) then inflight c <? inflight b
  else
    let c_unsampled := latency_ns c =? 0 in
    let b_unsampled := latency_ns b =? 0 in
    if negb (eqb c_unsampled b_unsampled) then c_unsampled
    else if negb (latency_ns c =? latency_ns b) then latency_ns c <? latency_ns b
    else conn_id c <? conn_id b.

(** The loop from index [i]; [best] is [candidates.size()] while none is found. *)
Fixpoint select_from (candidates : list EndpointConnectionLoad) (rest : list EndpointConnectionLoad) (i best : nat) : nat :=
  match rest with
  | [] => best
  | c :: rest =>
      let best' :=
        if negb (conn_healthy c) then best
        else
          match candidates !! best with
          | None => i
          | Some b => if better c b then i else best
          end in
      select_from candidates rest (S i) best'
  end.

Definition SelectEndpointConnection (candidates : list EndpointConnectionLoad) : nat :=
  select_from candidates candidates 0 (length candidates).

(** The loop over one group, cut into slices of [per] indices. *)
Fixpoint slices {I} (fuel : nat) (idx : list I) (per s : nat) : list (list I) :=
  match fuel with
  | O => []
  | S fuel =>
      if bool_decide (s < length idx)%nat
      then take (Nat.min (length idx) (s + per) - s) (drop s idx) :: slices fuel idx per (s + per)
      else []
  end.

(** The number of shards of a group of [n] indices, in [size_t] arithmetic. *)
Definition shard_count (n target maxc : Z) : Z :=
  let nsh := u64 (u64 (n + target) - 1) / target in
  let nsh := if nsh <? 1 then 1 else nsh in
  if maxc <? nsh then maxc else nsh.

Definition shard_group {K I} (g : K * list I) (target maxc : Z) : list (K * list I) :=
  let idx := g.2 in
  let n := Z.of_nat (length idx) in
  let nsh := shard_count n target maxc in
  if nsh <=? 1 then [g]
  else
    let per := u64 (u64 (n + nsh) - 1) / nsh in
    (λ s, (g.1, s)) <$> slices (length idx) idx (Z.to_nat per) 0.

Definition ShardGroups {K I} (groups : list (K * list I)) (target maxc : Z) : list (K * list I) :=
  if (maxc <=? 1) || (target =? 0) then groups
  else groups ≫= λ g, shard_group g target maxc.

(** ** The connection chosen *)

(** The order of the choice: in-flight work, latency, id. *)
Definition load_le (c b : EndpointConnectionLoad) : Prop :=
  inflight c < inflight b ∨
  inflight c = inflight b ∧
    (latency_ns c < latency_ns b ∨ latency_ns c = latency_ns b ∧ conn_id c <= conn_id b).

(** A latency is unsigned, so the unsampled connections come first already. *)
Lemma better_spec c b :
  0 <= latency_ns c → 0 <= latency_ns b → better c b = false ↔ load_le b c.
Proof.
  intros Hc Hb. unfold better, load_le.
  destruct (Z.eqb_spec (inflight c) (inflight b)); cbn [negb]; [|rewrite Z.ltb_ge; lia].
  destruct (Z.eqb_spec (latency_ns c) 0), (Z.eqb_spec (latency_ns b) 0); cbn [eqb negb];
    destruct (Z.eqb_spec (latency_ns c) (latency_ns b)); cbn [negb];
    rewrite ?Z.ltb_ge; try lia; split; try done; lia.
Qed.

Lemma load_le_refl a : load_le a a.
Proof. unfold load_le. lia. Qed.

Lemma load_le_trans a b c : load_le a b → load_le b c → load_le a c.
Proof. unfold load_le. lia. Qed.

Lemma load_le_total a b : load_le a b ∨ load_le b a.
Proof. unfold load_le. lia. Qed.

Definition loads_ok (l : list EndpointConnectionLoad) : Prop := Forall (λ c, 0 <= latency_ns c) l.

(** What [best] is after the first [i] candidates: the first of the least healthy
    ones, or no index at all. *)
Definition best_upto (l : list EndpointConnectionLoad) (i best : nat) : Prop :=
  (best = length l ∧ ∀ j c, (j < i)%nat → l !! j = Some c → conn_healthy c = false) ∨
  (∃ b, l !! best = Some b ∧ conn_healthy b = true ∧ (best < i)%nat ∧
     ∀ j c, (j < i)%nat → l !! j = Some c → conn_healthy c = true →
       load_le b c ∧ ((j < best)%nat → ¬ load_le c b)).

Lemma best_upto_step l i best c :
  loads_ok l → best_upto l i best → l !! i = Some c →
  best_upto l (S i)
    (if negb (conn_healthy c) then best
     else match l !! best with None => i | Some b => if better c b then i else best end).
Proof.
  intros Hl Hb Hi. pose proof (lookup_lt_Some _ _ _ Hi) as Hlt.
  assert (Hlc : 0 <= latency_ns c) by (eapply (Forall_lookup_1 _ _ i c) in Hl; done).
  destruct (conn_healthy c) eqn:Hh; cbn [negb].
  - right. destruct Hb as [[-> Hno]|(b & Eb & Hbh & Hbi & Hmin)].
    + rewrite (lookup_ge_None_2 l (length l)) by done. exists c. split_and!; [done..|lia|].
      intros j d Hj Hd Hdh. destruct (decide (j = i)) as [->|]; [|specialize (Hno j d ltac:(lia) Hd); congruence].
      rewrite Hi in Hd. injection Hd as <-. split; [apply load_le_refl|lia].
    + rewrite Eb. assert (Hlb : 0 <= latency_ns b) by (eapply (Forall_lookup_1 _ _ best b) in Hl; done).
      pose proof (better_spec c b Hlc Hlb) as Hsp. destruct (better c b).
      * exists c. assert (Hncb : ¬ load_le b c) by (intros X%Hsp; done).
        destruct (load_le_total b c) as [|Hcb]; [done|]. split_and!; [done..|lia|].
        intros j d Hj Hd Hdh. destruct (decide (j = i)) as [->|].
        -- rewrite Hi in Hd. injection Hd as <-. split; [apply load_le_refl|lia].
        -- destruct (Hmin j d ltac:(lia) Hd Hdh) as [Hbd _].
           split; [by eapply load_le_trans|]. intros _ Hdc. apply Hncb. by eapply load_le_trans.
      * exists b. assert (Hbc : load_le b c) by by apply Hsp. split_and!; [done..|lia|].
        intros j d Hj Hd Hdh. destruct (decide (j = i)) as [->|]; [|by apply Hmin; [lia|..]].
        rewrite Hi in Hd. injection Hd as <-. split; [done|lia].
  - destruct Hb as [[-> Hno]|(b & Eb & Hbh & Hbi & Hmin)].
    + left. split; [done|]. intros j d Hj Hd. destruct (decide (j = i)) as [->|]; [congruence|by apply (Hno j); [lia|]].
    + right. exists b. split_and!; [done..|lia|]. intros j d Hj Hd Hdh.
      destruct (decide (j = i)) as [->|]; [congruence|by apply Hmin; [lia|..]].
Qed.

Lemma select_from_ok l pre rest best :
  loads_ok l → l = pre ++ rest → best_upto l (length pre) best →
  best_upto l (length l) (select_from l rest (length pre) best).
Proof.
  intros Hl. revert pre best. induction rest as [|c rest IH]; intros pre best E Hb; cbn [select_from].
  - replace (length l) with (length pre); [done|]. rewrite E, length_app. cbn. lia.
  - assert (Hi : l !! length pre = Some c) by (by rewrite E, list_lookup_middle).
    pose proof (best_upto_step l (length pre) best c Hl Hb Hi) as Hn.
    replace (S (length pre)) with (length (pre ++ [c])) in Hn |- * by (rewrite length_app; cbn; lia).
    apply IH; [|done]. by rewrite <- app_assoc.
Qed.

(** The connection picked is the best one.  When some candidate is healthy the
    result is the index of a healthy candidate with the least in-flight work,
    among those the least latency (unsampled first), among those the least id,
    and the first such index; when none is, the result is the number of
    candidates. *)
Theorem select_least l :
  loads_ok l →
  (SelectEndpointConnection l = length l ∧ Forall (λ c, conn_healthy c = false) l) ∨
  (∃ b, l !! SelectEndpointConnection l = Some b ∧ conn_healthy b = true ∧
     ∀ j c, l !! j = Some c → conn_healthy c = true →
       load_le b c ∧ ((j < SelectEndpointConnection l)%nat → ¬ load_le c b)).
Proof.
  intros Hl. destruct (select_from_ok l [] l (length l) Hl eq_refl) as [[E Hno]|(b & Eb & Hh & _ & Hmin)].
  - left. split; [done|]. intros j c Hj. cbn in Hj. lia.
  - left. split; [done|]. apply Forall_lookup. intros j c Hj. apply (Hno j); [by eapply lookup_lt_Some|done].
  - right. exists b. split_and!; [done..|]. intros j c Hj. apply Hmin; [by eapply lookup_lt_Some|done].
Qed.

Definition demo_loads : list EndpointConnectionLoad :=
  [ {| conn_id := 4; inflight := 0; latency_ns := 9; conn_healthy := false |};
    {| conn_id := 7; inflight := 2; latency_ns := 5; conn_healthy := true |};
    {| conn_id := 3; inflight := 2; latency_ns := 0; conn_healthy := true |};
    {| conn_id := 1; inflight := 3; latency_ns := 0; conn_healthy := true |} ].

Lemma select_least_witness :
  loads_ok demo_loads ∧ SelectEndpointConnection demo_loads = 2%nat ∧
  ∃ b, demo_loads !! 2%nat = Some b ∧
    ∀ j c, demo_loads !! j = Some c → conn_healthy c = true → load_le b c.
Proof.
  assert (Hl : loads_ok demo_loads) by (repeat constructor; cbn; lia).
  split; [exact Hl|]. split; [reflexivity|].
  destruct (select_least demo_loads Hl) as [[E _]|(b & Eb & _ & H)].
  - exfalso. vm_compute in E. discriminate E.
  - exists b. split; [exact Eb|]. intros j c Hj Hc. exact (proj1 (H j c Hj Hc)).
Defined.

(** ** The shards of a group *)

(** The wrap-around of [size_t] does not show: a target so large that the sum
    wraps asks for one shard. *)
Lemma shard_count_spec n target maxc :
  0 <= n < 2 ^ 62 → 0 < target < 2 ^ 64 → 1 < maxc →
  shard_count n target maxc = Z.min maxc (Z.max 1 ((n + target - 1) / target)).
Proof.
  intros Hn Ht Hm. unfold shard_count.
  assert (E : Z.max 1 (u64 (u64 (n + target) - 1) / target) = Z.max 1 ((n + target - 1) / target)).
  { destruct (decide (n + target < 2 ^ 64)).
    - unfold u64. rewrite (Z.mod_small (n + target)), Z.mod_small by lia. done.
    - assert ((n + target - 1) / target <= 1) by (apply Z.lt_succ_r, Z.div_lt_upper_bound; lia).
      assert (u64 (u64 (n + target) - 1) / target <= 1); [|lia].
      apply Z.lt_succ_r, Z.div_lt_upper_bound; [lia|].
      pose proof (Z.mod_pos_bound (u64 (n + target) - 1) (2 ^ 64) ltac:(lia)). unfold u64 at 1. lia. }
  rewrite <- E. generalize (u64 (u64 (n + target) - 1) / target). intros q.
  destruct (Z.ltb_spec q 1); destruct (Z.ltb_spec maxc (if q <? 1 then 1 else q)); 
    repeat case_match; lia.
Qed.

Section slices.
Context {I : Type} (idx : list I) (per : nat) (Hper : (0 < per)%nat).

Lemma slices_spec fuel s :
  (length idx <= s + fuel)%nat →
  concat (slices fuel idx per s) = drop s idx ∧
  Forall (λ sh, sh ≠ [] ∧ (length sh <= per)%nat) (slices fuel idx per s).
Proof.
  revert s. induction fuel as [|fuel IH]; intros s Hf; cbn [slices].
  - by rewrite drop_ge by lia.
  - case_bool_decide as Hs; [|by rewrite drop_ge by lia].
    destruct (IH (s + per)%nat ltac:(lia)) as [IH1 IH2]. cbn [concat]. rewrite IH1. split.
    + rewrite <- (take_drop (Nat.min (length idx) (s + per) - s) (drop s idx)) at 2. f_equal.
      rewrite drop_drop. destruct (decide (s + per <= length idx)%nat).
      * f_equal. lia.
      * rewrite !drop_ge by lia. done.
    + constructor; [|done]. rewrite length_take, length_drop. split; [|lia].
      intros E%(f_equal length). rewrite length_take, length_drop in E. cbn in E. lia.
Qed.

Lemma slices_count fuel s k :
  (length idx <= s + k * per)%nat → (length (slices fuel idx per s) <= k)%nat.
Proof.
  revert s k. induction fuel as [|fuel IH]; intros s k Hk; cbn [slices length]; [lia|].
  case_bool_decide as Hs; cbn [length]; [|lia].
  destruct k as [|k]; [lia|]. apply le_n_S, IH. lia.
Qed.

End slices.

Lemma ceil_div n d : 0 <= n → 0 < d → n <= d * ((n + d - 1) / d) ∧ (0 < n → 0 < (n + d - 1) / d).
Proof.
  intros Hn Hd. pose proof (Z.div_mod (n + d - 1) d ltac:(lia)). pose proof (Z.mod_pos_bound (n + d - 1) d Hd).
  split; [lia|]. intros. nia.
Qed.

Lemma ceil_le n d k : 0 < d → n <= d * k ↔ (n + d - 1) / d <= k.
Proof.
  intros Hd. split; intros H.
  - apply Z.lt_succ_r, Z.div_lt_upper_bound; lia.
  - pose proof (Z.div_mod (n + d - 1) d ltac:(lia)). pose proof (Z.mod_pos_bound (n + d - 1) d Hd). nia.
Qed.

(** What the shards of a group are. *)
Definition sharded {K I} (target maxc : Z) (g : K * list I) (shards : list (K * list I)) : Prop :=
  concat (shards.*2) = g.2 ∧ Forall (λ s, s.1 = g.1) shards ∧
  Z.of_nat (length shards) <= maxc ∧
  (g.2 ≠ [] → Forall (λ s, s.2 ≠ []) shards) ∧
  (Z.of_nat (length g.2) <= maxc * target →
     Forall (λ s, Z.of_nat (length s.2) <= target) shards).

Lemma snd_pairs {K I} (k : K) (l : list (list I)) : ((λ s, (k, s)) <$> l).*2 = l.
Proof. rewrite <- list_fmap_compose. apply list_fmap_id. Qed.

Lemma bind_concat {A B} (f : A → list B) l : l ≫= f = concat (f <$> l).
Proof. induction l as [|x l IH]; [done|]. by rewrite bind_cons, fmap_cons, IH. Qed.

Lemma shard_group_spec {K I} (g : K * list I) target maxc :
  Z.of_nat (length g.2) < 2 ^ 62 → 0 < target < 2 ^ 64 → 1 < maxc →
  sharded target maxc g (shard_group g target maxc).
Proof.
  intros Hn Ht Hm. unfold shard_group. pose proof (shard_count_spec (Z.of_nat (length g.2)) target maxc) as Hc.
  rewrite Hc by lia. clear Hc. set (n := Z.of_nat (length g.2)) in *.
  pose proof (ceil_le n target maxc) as Hcap. pose proof (ceil_div n target) as [Hn1 _]; [lia..|].
  set (q := (n + target - 1) / target) in *. set (nsh := Z.min maxc (Z.max 1 q)).
  destruct (Z.leb_spec nsh 1).
  - split_and!; cbn; [by rewrite app_nil_r|by repeat constructor|lia|by repeat constructor|].
    intros _. repeat constructor. cbn. fold n. assert (target * q <= target * 1) by (apply Z.mul_le_mono_nonneg_l; lia). lia.
  - destruct (ceil_div n nsh) as [Hp1 Hp2]; [lia..|].
    assert (q <= n) by (apply ceil_le; [lia|nia]).
    assert (Eper : u64 (u64 (n + nsh) - 1) / nsh = (n + nsh - 1) / nsh).
    { unfold u64. rewrite (Z.mod_small (n + nsh)), Z.mod_small by lia. done. }
    rewrite Eper. pose proof (ceil_le n nsh target) as Hle. set (per := (n + nsh - 1) / nsh) in *.
    assert (Hpos : 0 < per) by (apply Hp2; destruct (decide (n = 0)) as [E|]; [|lia]; 
      unfold nsh, q in *; rewrite E, Z.div_small in * by lia; lia).
    destruct (slices_spec g.2 (Z.to_nat per) ltac:(lia) (length g.2) 0 ltac:(lia)) as [S1 S2].
    pose proof (slices_count g.2 (Z.to_nat per) ltac:(lia) (length g.2) 0 (Z.to_nat nsh)) as S3.
    assert (Hk : (length g.2 <= 0 + Z.to_nat nsh * Z.to_nat per)%nat) by (rewrite <- Z2Nat.inj_mul; lia).
    specialize (S3 Hk). split_and!.
    + by rewrite snd_pairs.
    + rewrite Forall_fmap. by apply Forall_true.
    + rewrite length_fmap. lia.
    + intros _. rewrite Forall_fmap. eapply Forall_impl; [exact S2|]. cbn. by intros sh [? _].
    + intros Hb. rewrite Forall_fmap. eapply Forall_impl; [exact S2|]. cbn. intros sh [_ Hsh].
      assert (per <= target); [|lia]. apply Hle; [lia|]. assert (nsh = q) as -> by (unfold nsh; lia). lia.
Qed.

(** Sharding loses and reorders nothing.  Every group is replaced in place by
    its shards; they keep its key, are its indices cut into contiguous slices in
    the original order, are at most [maxc], and none is empty unless the group
    is; when the cap does not bind, no shard is above the target.  A cap of at
    most one, or no target, leaves the groups as they are. *)
Theorem shards_partition {K I} (groups : list (K * list I)) target maxc :
  Forall (λ g, Z.of_nat (length g.2) < 2 ^ 62) groups →
  0 <= target < 2 ^ 64 → 0 <= maxc < 2 ^ 64 →
  if decide (maxc <= 1 ∨ target = 0) then ShardGroups groups target maxc = groups
  else ∃ shards, ShardGroups groups target maxc = concat shards ∧ Forall2 (sharded target maxc) groups shards.
Proof.
  intros Hg Ht Hm. unfold ShardGroups. case_decide as Hd.
  - assert ((maxc <=? 1) || (target =? 0) = true) as -> by (destruct Hd; lia). done.
  - assert ((maxc <=? 1) || (target =? 0) = false) as -> by lia.
    exists ((λ g, shard_group g target maxc) <$> groups). split; [by rewrite bind_concat|].
    apply Forall2_fmap_r, Forall_Forall2_diag. eapply Forall_impl; [exact Hg|].
    intros g Hlen. cbn beta in Hlen. apply shard_group_spec; lia.
Qed.

Definition demo_groups : list (Z * list Z) := [(7, [1; 2; 3; 4; 5; 6; 7]); (8, [9]); (9, [])].

Lemma shards_partition_witness :
  ShardGroups demo_groups 2 3 = [(7, [1; 2; 3]); (7, [4; 5; 6]); (7, [7]); (8, [9]); (9, [])] ∧
  ∃ shards, ShardGroups demo_groups 2 3 = concat shards ∧ Forall2 (sharded 2 3) demo_groups shards.
Proof.
  split; [vm_compute; reflexivity|].
  assert (Hg : Forall (λ g : Z * list Z, Z.of_nat (length g.2) < 2 ^ 62) demo_groups) by (repeat constructor; cbn; lia).
  exact (shards_partition demo_groups 2 3 Hg ltac:(lia) ltac:(lia)).
Defined.
